(* ===== verification/_CoqProject ===== *)
-Q . S2P
Prelude.v
Text.v
Float32.v
Rounding.v
Types.v
Matching.v
DeviceBinding.v
Config.v
Store.v
Migrations.v
MigrationsProofs.v
StoreProofs.v
RateLimit.v
Ingress.v
Gates.v
AuditLog.v
Auth.v
AuthProofs.v
Pam.v
Provenance.v
Sealing.v
PamDocument.v
PamDocumentProofs.v
PamFiles.v
PamBackup.v
PamService.v
PamServiceProofs.v
PamWorld.v
PamState.v
PamStore.v
PamRecovery.v
PamRemoveAll.v
PamApply.v
PamMachine.v
PamLogic.v
PamStateProofs.v
PamStoreProofs.v
PamApplyProofs.v
PamRemoveAllProofs.v
KeyFile.v
Keyring.v
Embeddings.v
Enroll.v
EnrollProofs.v
Handler.v
HandlerProofs.v
Current.v
Daemon.v
Server.v
ServerProofs.v
Capabilities.v
Purge.v
PurgeEngine.v
PurgeLogic.v
PurgeSteps.v
PurgeProofs.v
PurgeTermination.v
KeyCommands.v
KeyCommandsProofs.v
Markers.v
MarkersProofs.v
Direct.v
OneShot.v
OneShotProofs.v
Quirks.v
Capture.v
CameraProofs.v
CaptureProofs.v
Face.v
FaceProofs.v
Provider.v
ProviderProofs.v
Models.v
Lifecycle.v
LifecycleSignals.v
LifecycleLogic.v
LifecycleProofs.v
