(* ===== verification/Prelude.v ===== *)
(** * Facelock: a verification development

    Facelock authenticates a Linux user by face. A privileged daemon owns the camera, the face
    engine, the store of enrolled templates and the keys that seal them; a PAM module in the
    stack of sudo, login or a screen locker asks the daemon over D-Bus whether the user is in
    front of the machine, and falls back to a one-shot child, or to the password, when it may.
    This library models the daemon's own logic, the store, the key handling and the PAM module
    (file names below are under [src/crates/]), and proves what each part promises the next.

    ** How the program is put together, and which file models which part

    - Shared data ([facelock-core/src/types.rs]): [Types.v] has embeddings, frames, detections
      and the [Wiped] guard with the allocations it frees; [Float32.v] the [f32] arithmetic the
      matcher computes in; [Matching.v] cosine similarity, the frame-variance ring buffer and
      the constant-time search; [DeviceBinding.v] camera identities and template coupling.
    - Configuration ([facelock-core/src/config.rs], [paths.rs], [notify.rs]): [Config.v] has the
      sections with their defaults, [validate] and the policy methods.
    - The store ([facelock-store/src/db.rs], [error.rs]): [Store.v] has the tables, a small
      state-and-error monad [M] over a connection, transactions, and one definition per query
      and write; every statement can fail. [StoreProofs.v] has its invariant and the abstract
      view of the tables as a finite map from (user, label) to a template. [Migrations.v]
      ([migrations.rs] and the constructors) opens a database file and brings its schema
      forward, one SQL statement at a time; [MigrationsProofs.v] says what that keeps.
    - The rate limiter ([facelock-daemon/src/rate_limit.rs]): [RateLimit.v], over the store.
    - The gates of an attempt ([facelock-daemon/src/liveness.rs], [facelock-camera/src/
      capture.rs], [preprocess.rs], [pam-facelock/src/lid.rs]): [Gates.v]; the audit trail
      ([audit.rs]): [AuditLog.v].
    - Authentication ([facelock-daemon/src/auth.rs]): [Auth.v] has the rejection classes, the
      pre-flight gates and the capture loop as a step on a [ScanState]; [AuthProofs.v] its
      properties.
    - Keys: [Sealing.v] ([facelock-tpm/src/sealing.rs]) has the blob formats and the software
      sealer; [KeyFile.v] the key file, whose creation is a program counter stepped against a
      directory that several processes share; [Keyring.v] ([key_policy.rs], [keyring.rs]) when a
      key may be minted and which keys a process holds; [Embeddings.v] ([embeddings.rs]) how
      stored rows are opened.
    - Enrollment ([quality.rs], [enroll.rs]): [Enroll.v], with its properties in
      [EnrollProofs.v].
    - The request handler and the camera lease ([handler.rs]): [Handler.v] has the lease, the
      preview cache and every request, composed from the parts above; [HandlerProofs.v] its
      properties over sequences of calls.
    - The D-Bus server ([server.rs], [facelock-core/src/dbus_interface.rs]): [Capabilities.v] is
      what the daemon gives up before it serves; [Daemon.v] the handler behind its mutex with the
      poll loop and the suspend watcher; [Current.v] the capture slot and the cancel token of the
      request in flight, as interleaved atomic steps; [Ingress.v] the token buckets in front of
      [Authenticate]; [Provenance.v] how a caller is shown to be local; [Server.v] every method
      around the handler, with its authorization, reload, gates and reply; [ServerProofs.v] what
      they promise together.
    - The PAM module ([pam-facelock/src/lib.rs], [oneshot_exit.rs]): [Pam.v] has the trusted
      configuration, the local gates, the pinned D-Bus call, the one-shot child and the codes.
    - The editor of PAM service files ([facelock-cli/src/commands/pam.rs]): [PamDocument.v] has a
      service file as bytes, physical lines and logical rules, with the insertion and removal of
      the module's rule; [PamDocumentProofs.v] the lemmas that relate the byte offsets of the
      source to lists of lines; [PamFiles.v] paths, service names, files opened without
      following links and the search path; [PamBackup.v] what is read of the rollback records;
      [PamService.v] requests, resolution, phase one of a write, the status verb;
      [PamServiceProofs.v] their properties. Phase two changes files: [PamWorld.v] has the file
      system as a map from names to files, the monad [Io] whose every system call may fail or be
      the last, and the triples of its logic; [PamState.v] the primitives that publish a state
      file and replace, create or retire a service; [PamStore.v] the write-ahead protocol of
      intents, bindings, backups and records; [PamRecovery.v] what the next run does with what
      it finds; [PamRemoveAll.v] the journal of a machine-wide removal and the transaction;
      [PamApply.v] the commands; [PamMachine.v] a concrete machine they run on; [PamLogic.v] the
      assertions that survive steps elsewhere; [PamStateProofs.v], [PamStoreProofs.v],
      [PamApplyProofs.v] and [PamRemoveAllProofs.v] the theorems.
    - The purge of an installation ([facelock-core/src/purge/]): [Purge.v] has identities, the
      mount table, the classification of configured paths, the report, and what may be deleted;
      [PurgeEngine.v] the traversal over a graph of nodes that other processes change before
      every system call; [PurgeLogic.v] what those may do and the rules of its logic;
      [PurgeSteps.v] the steps, [PurgeProofs.v] the theorems and [PurgeTermination.v] that it ends.
    - Key maintenance ([facelock-cli/src/commands/encrypt.rs], [tpm.rs], [facelock-tpm/src/pcr.rs]):
      [KeyCommands.v] has the [tpm] command group, from PCR baselines to the encryption and
      decryption of stored rows in place; [KeyCommandsProofs.v] what survives them.
    - What is visible without privilege ([enrollment_marker.rs], [state_layout.rs],
      [is_enrolled.rs], [fs_security.rs]): [Markers.v] has the layout of the state directory and
      the enrollment markers, in the monad of [PamWorld.v]; [MarkersProofs.v] their properties.
    - Without a daemon ([facelock-cli/src/direct.rs], [commands/auth.rs]): [Direct.v] opens the
      store, the camera and the keys in the process itself; [OneShot.v] is the child the PAM module
      runs, from its configuration to its exit code; [OneShotProofs.v] compares it with the daemon.
    - The camera ([facelock-camera/src/]): [Quirks.v] has hardware quirks, identities and the
      infrared classification ([quirks.rs], [device.rs], [caps.rs]); [Capture.v] negotiation, the
      Y16 scale, the decoding of frames and the infrared light ([capture.rs], [preprocess.rs],
      [ir_emitter.rs], [ir_led.rs]); [CameraProofs.v] and [CaptureProofs.v] their properties.
    - The face engine ([facelock-face/src/]): [Face.v] has the letterbox, the decoding of the
      detector, suppression, alignment and embedding around the two networks ([detector.rs],
      [align.rs], [embedder.rs], [lib.rs]); [Rounding.v] how far an [f32] result is from the exact
      one; [FaceProofs.v] the properties. Which library runs the networks is [Provider.v]
      ([provider.rs]), over the snapshots of the file system that its calls see, with
      [ProviderProofs.v]; [Models.v] ([models.rs]) is which model files they run.
    - The lifecycle lease ([facelock-cli/src/lifecycle.rs]) that keeps the daemon out while a purge
      deletes: [Lifecycle.v] has it as a program over files, locks, the daemon's unit and the bus;
      [LifecycleSignals.v] interleaves the operation with the thread that waits for a signal;
      [LifecycleLogic.v] has the deeds of other processes, of the service manager and of the bus, the
      rules and the specification of each step, [LifecycleProofs.v] the theorems.

    [Text.v] has the operations of Rust's [str] that several parts use. This file holds what they
    share: [result] with the [let?] notation of Rust's [?], machine integers as [Z] with their
    wrap-around, string functions, list lemmas, the [bsplit] tactic and the [facelock] hint
    database.

    ** Conventions

    State is passed explicitly: an operation on [self] takes the record and returns it. What the
    outside decides (clocks, captured frames, what the face engine finds, the cancellation
    token at each point it is read, faults of SQLite, the network and the filesystem) is an
    argument: an environment indexed by iteration, or a record per request; what other calls
    did while one waited is a function on the shared state. A loop that Rust bounds by the
    clock takes fuel; [None] is a run that has not ended, and the termination theorems give
    the fuel that is enough: the timeout divided by what the clock advances per iteration,
    plus one ([attempt_terminates], [enrollment_terminates]), for a purge the node limit times the
    most names that any directory lists at any time ([purge_terminates]), and for the creation of a key
    file the attempts at a name, the bytes of the key and seven steps ([create_returns]),
    for the handler's lock 202 polls ([lock_returns]), for a lease the polls its timeouts allow
    ([acquisition_ends]), and for finding the runtime the names that sixteen links can add
    ([loading_ends]). A panic is a value of its own
    ([Panicked], [EnrollPanicked], [HandlerPanicked]). Instants are nanoseconds and bytes are
    [Z]; integers keep their Rust width where the code can wrap or truncate.

    Code outside the repository is a parameter. Classes hold it: [ShowSqlite] (the text of a
    SQLite error), [HashOrder] (the iteration order of a hash map), [Kernel] (capabilities),
    [ShowDebug] (a string's [Debug] text), [RowOrder] (the order of rows without ORDER BY),
    [NanEncoding] (the payload of a NaN), [Subtle] (the constant-time comparison), [ShowBus]
    (D-Bus error texts), [Aead] with [AeadLaws] (AES-GCM: decryption inverts encryption,
    accepts nothing else, and adds a sixteen-byte tag), [Sha256], [TpmDevice], [Json] with
    [StateJson] and [RemoveAllJson] (the decoding and rendering of the rollback documents),
    [PcrBank] (the registers a TPM answers with) and [TpmLaws] (unsealing inverts sealing),
    [ServiceManager] with [ManagerLaws] ([systemctl]), [MarkerJson] with [MarkerJsonLaws],
    [Rfc3339] and [Accounts] (the documents, the dates and the owners of markers), [Lowercase] (Unicode lower
    case). [ElfParser] is the [object] crate, [Ort] and [Sessions] the [ort] crate; [Hardware], [Driver], [Imaging] and [Session] are what V4L2, the file system, the image
    crate and the networks answer. TOML decoding and JSON rendering are arguments ([Toml] for the
    purge), and so is [Files], a snapshot of what the file system answers to each call. Each theorem that
    assumes something of them has a witness at a concrete instance.

    ** What the theorems show

    - A match is evidence: [auth_success_is_proved], with the variance gate refining the list of
      recent frames, the search returning the maximum, static input never passing, the pre-flight
      gates admitting exactly what the policy admits and the lid gate failing closed. An attempt
      ends, can be cancelled, and leaves one audit entry.
    - The PAM module succeeds only on such an answer from the root daemon or the trusted child
      ([pam_success_is_proved]), and a daemon that answered is not bypassed
      ([daemon_answer_is_final]).
    - The store keeps its invariant under every operation and fault, its writes refine the map of
      templates, and the limiter is a sliding window over all recorded failures. Every earlier
      schema is brought forward with its templates, but for the embeddings of the very first
      ([migrations_keep_templates]); an
      interruption is taken up again, but for one kind of step ([interrupted_migration]).
    - Enrollment stores a complete, gated set or nothing; what it stores loads again; a key is
      never minted over rows that need another, nor published twice or in part by racing
      processes; loading is all or nothing and wipes what it opened.
    - Over D-Bus only root may do more than authenticate as itself
      ([only_root_but_own_authentication]); a positive answer passed every gate of the
      configuration that governed its capture, whatever was interleaved
      ([positive_reply_is_earned]); it means to PAM what it meant to the handler
      ([wire_reply_roundtrip]); no cancellation is lost; a flood of calls is bounded and starves
      nobody; nothing is served over more capabilities than promised.
    - The handler's camera follows its lease policy after every sequence of calls, previews are
      compared with current templates only, and only a wrong guess is charged. A panic, though,
      disables the poll loop ([panic_disables_poll]).
    - The PAM editor puts its rule first, takes exactly its own rule and its header away again
      and leaves every other rule as it was; a write is planned only for a file the request may
      touch; what status calls complete has the rule everywhere it looked. Installing it is one
      step to every reader and never without its way back, whatever fails and wherever the run
      is killed ([installation_is_atomic]); rolling a machine-wide removal back puts every service
      back or says that it did not ([rollback_restores]).
    - A purge destroys only what is trusted, inside its roots and on their mount, and reports each
      ([purge_is_contained]); it never claims to be complete over a root that still lists a name
      ([complete_purge_empties_roots]); it ends, whatever others do and whatever
      fails, if no directory grows without bound ([purge_terminates]).
    - While a lifecycle lease is held nothing can start the daemon, whoever tries through the manager
      or the bus, as long as its barrier stays ([lease_excludes_daemon]); whatever
      step of it fails, what was barred is unbarred and what was stopped is started, or it is reported,
      but for a barrier whose own making failed ([lease_undoes_itself]); a signal restores only when the
      operation has ended ([restore_waits_for_operation]), and an ended operation ends its lease
      ([ended_operation_ends_lease], [acquisition_ends]).
    - Encrypting stored templates in place loses none of them wherever it stops
      ([encryption_keeps_templates]) and decrypting inverts it ([decryption_inverts_encryption]); a
      re-sealing carries the same key over ([reseal_keeps_key]).
    - A marker is whole or absent at every moment ([markers_stay_whole]), says what was last
      written ([marker_roundtrip]), is not taken from an enrolled user whose models can be read
      ([reconcile_keeps_enrolled]), and one undisturbed reconciliation brings all of them into
      agreement with the database ([reconcile_converges]).
    - The one-shot child and a call of the service decide one attempt alike and leave the same
      database, but for two cases ([transports_agree]) and rows that only the TPM opens while the
      daemon holds none ([sealed_row_parts]); its exit code 0 is earned ([oneshot_success_is_proved]), a wrong
      guess is charged and nothing else ([oneshot_charges_wrong_guesses]), and the attempt settles the
      marker of its user ([attempt_settles_marker]), whatever happens in the state directory.

    - A name pattern of a quirk is the glob it looks like ([name_matches_is_glob]); a camera is
      infrared only on evidence that a name alone is not ([infrared_has_evidence]), and the colour
      node beside an infrared node does not pass for it ([siblings_are_told_apart]). A capture never
      panics and its frame is as large as it says, rotated or not, but for a JPEG, whose size nobody
      compares ([frames_are_whole]); a Y16 stream keeps the scale
      that was measured first ([y16_scale_is_pinned]); what lights up goes out ([lights_go_out]).
    - A captured frame is processed without a panic whatever the networks answer short of a score that is NaN, its faces have
      their boxes inside it, and their texture can be measured ([captured_faces_are_sound]);
      suppression keeps the best of what overlaps ([nms_is_greedy]). A privileged process maps as
      its runtime only a checked file that root alone can change on its whole way, and never the
      one its environment names ([runtime_is_trusted]); the networks run files that were found to have
      their pinned digests ([engine_files_are_pinned]), unless they are replaced right then
      ([swapped_model_is_run]).

    ** Not modelled

    Log lines, notification delivery, JPEG encoding, V4L2 and UVC ioctls, ONNX inference, and TPM
    sessions are input and output; zbus and the task runtime are not modelled, only what their
    calls answer and how calls interleave. Of the command-line tool, the interactive setup, downloads
    of models and the report of the status command are left out: they ask, print and call other programs. So is
    the histogram equalization of previews, on which no decision rests. *)

From Stdlib Require Export ZArith Lia Ascii String.
From stdpp Require Export base list strings option numbers pretty.
#[global] Open Scope Z_scope.

(** ** Results

    Rust's [Result<T, E>], with the [?] operator as a bind notation of its own scope. *)
Inductive result (A E : Type) : Type :=
  | Ok (a : A)
  | Err (e : E).
Arguments Ok {A E} _.
Arguments Err {A E} _.

Declare Scope rust_scope.
Delimit Scope rust_scope with rust.
#[global] Open Scope rust_scope.

Notation "'let?' x ':=' c 'in' k" :=
  (match c with Ok x => k | Err e => Err e end)
  (at level 10, x name, c at level 200, k at level 200,
   format "'[v' 'let?'  x  ':='  c  'in' '/' k ']'") : rust_scope.

Definition is_ok {A E} (r : result A E) : bool :=
  match r with Ok _ => true | Err _ => false end.

Definition map_err {A E F} (f : E → F) (r : result A E) : result A F :=
  match r with Ok a => Ok a | Err e => Err (f e) end.

(** [Option::is_some], [Option::unwrap_or]. *)
Definition is_some {A} (o : option A) : bool :=
  match o with Some _ => true | None => false end.
Definition unwrap_or {A} (d : A) (o : option A) : A :=
  match o with Some a => a | None => d end.
Definition is_some_and {A} (f : A → bool) (o : option A) : bool :=
  match o with Some a => f a | None => false end.

(** ** Machine integers

    A w-bit integer is a [Z]; the conversions Rust writes with [as] are explicit. *)
Definition u32_max : Z := 2 ^ 32 - 1.
Definition as_u32 (z : Z) : Z := z mod 2 ^ 32.
Definition as_i32 (z : Z) : Z :=
  let r := z mod 2 ^ 32 in if r <? 2 ^ 31 then r else r - 2 ^ 32.
Definition as_i64 (z : Z) : Z :=
  let r := z mod 2 ^ 64 in if r <? 2 ^ 63 then r else r - 2 ^ 64.
Definition is_u32 (z : Z) : Prop := 0 ≤ z < 2 ^ 32.
Definition saturating_sub (a b : Z) : Z := Z.max 0 (a - b).

Lemma as_i64_id z : - 2 ^ 63 ≤ z < 2 ^ 63 → as_i64 z = z.
Proof.
  intros H. unfold as_i64.
  destruct (Z.ltb_spec (z mod 2 ^ 64) (2 ^ 63)) as [Hl|Hl].
  - destruct (decide (0 ≤ z)).
    + apply Z.mod_small. lia.
    + exfalso. rewrite <- (Z.mod_add z 1 (2 ^ 64)), Z.mod_small in Hl by lia. lia.
  - destruct (decide (0 ≤ z)).
    + exfalso. rewrite Z.mod_small in Hl by lia. lia.
    + rewrite <- (Z.mod_add z 1 (2 ^ 64)), Z.mod_small by lia. lia.
Qed.

Lemma as_u32_id z : is_u32 z → as_u32 z = z.
Proof. apply Z.mod_small. Qed.

Lemma as_u32_range z : is_u32 (as_u32 z).
Proof. unfold is_u32, as_u32. apply Z.mod_pos_bound. lia. Qed.

(** ** Strings

    Rust strings are byte strings here; every operation the code uses on them works on
    bytes. *)
Definition is_empty_str (s : string) : bool := String.eqb s "".

(** [str::starts_with] *)
Definition starts_with (pre s : string) : bool := String.prefix pre s.

(** [str::strip_prefix] *)
Fixpoint strip_prefix (pre s : string) : option string :=
  match pre, s with
  | EmptyString, _ => Some s
  | String a pre', String b s' => if Ascii.eqb a b then strip_prefix pre' s' else None
  | String _ _, EmptyString => None
  end.

(** [str::contains] on a substring *)
Fixpoint str_contains (sub s : string) : bool :=
  String.prefix sub s ||
  match s with
  | EmptyString => false
  | String _ s' => str_contains sub s'
  end.

(** [str::contains] on a character *)
Fixpoint str_has_char (c : ascii) (s : string) : bool :=
  match s with
  | EmptyString => false
  | String a s' => Ascii.eqb a c || str_has_char c s'
  end.

(** The part of [s] before the first [c], and the part after it when there is one:
    one step of [str::splitn]. *)
Fixpoint split_once (c : ascii) (s : string) : string * option string :=
  match s with
  | EmptyString => (EmptyString, None)
  | String a s' =>
      if Ascii.eqb a c then (EmptyString, Some s')
      else let '(h, t) := split_once c s' in (String a h, t)
  end.

Definition to_ascii_lowercase (a : ascii) : ascii :=
  let n := Ascii.nat_of_ascii a in
  if (65 <=? n)%nat && (n <=? 90)%nat then Ascii.ascii_of_nat (n + 32) else a.

(** [str::eq_ignore_ascii_case] *)
Fixpoint eq_ignore_ascii_case (s t : string) : bool :=
  match s, t with
  | EmptyString, EmptyString => true
  | String a s', String b t' =>
      Ascii.eqb (to_ascii_lowercase a) (to_ascii_lowercase b) && eq_ignore_ascii_case s' t'
  | _, _ => false
  end.

Fixpoint str_forall (f : ascii → bool) (s : string) : bool :=
  match s with
  | EmptyString => true
  | String a s' => f a && str_forall f s'
  end.

(** [char::is_ascii_hexdigit] *)
Definition is_ascii_hexdigit (a : ascii) : bool :=
  let n := Ascii.nat_of_ascii a in
  ((48 <=? n) && (n <=? 57) || (65 <=? n) && (n <=? 70) || (97 <=? n) && (n <=? 102))%nat.

(** A double quote, which string literals of this development do not contain. *)
Definition dq : string := String (Ascii.ascii_of_nat 34) EmptyString.

(** [format!("{}", n)] for an unsigned integer. *)
Definition show_nat (n : nat) : string := pretty n.
Definition show_Z (z : Z) : string := pretty z.

(** ** Lemmas on strings *)
Lemma string_app_cons a s t : String a s +:+ t = String a (s +:+ t).
Proof. reflexivity. Qed.

Lemma prefix_refl s : String.prefix s s = true.
Proof. induction s as [|a s IH]; simpl; [done|]. destruct (ascii_dec a a); done. Qed.

Lemma prefix_app p s : String.prefix p (p +:+ s) = true.
Proof.
  induction p as [|a p IH]; simpl; [by destruct s|].
  by destruct (ascii_dec a a).
Qed.

Lemma str_contains_prefix sub s : String.prefix sub s = true → str_contains sub s = true.
Proof. intros H. destruct s; cbn [str_contains]; rewrite H; done. Qed.

Lemma str_contains_app_r sub s t : str_contains sub t = true → str_contains sub (s +:+ t) = true.
Proof.
  intros H. induction s as [|a s IH]; [done|].
  change (String.prefix sub (String a (s +:+ t)) || str_contains sub (s +:+ t) = true).
  rewrite IH. apply orb_true_r.
Qed.

Lemma prefix_app_long p s t :
  String.prefix p s = true → String.prefix p (s +:+ t) = true.
Proof.
  revert s. induction p as [|a p IH]; intros s H; [by destruct (s +:+ t)|].
  destruct s as [|b s]; simpl in *; [done|]. destruct (ascii_dec a b); [|done]. by apply IH.
Qed.

Lemma str_contains_app_l sub s t : str_contains sub s = true → str_contains sub (s +:+ t) = true.
Proof.
  induction s as [|a s IH]; intros H.
  - destruct sub; [|done]. by destruct t.
  - change (String.prefix sub (String a (s +:+ t)) || str_contains sub (s +:+ t) = true).
    change (String.prefix sub (String a s) || str_contains sub s = true) in H.
    apply orb_true_iff in H as [H|H].
    + apply (prefix_app_long _ (String a s) t) in H. apply orb_true_iff. by left.
    + rewrite IH by done. apply orb_true_r.
Qed.

Lemma prefix_spec p s : String.prefix p s = true ↔ ∃ t, s = p +:+ t.
Proof.
  split.
  - revert s. induction p as [|a p IH]; intros s H; [by exists s|].
    destruct s as [|b s]; simpl in H; [done|]. destruct (ascii_dec a b) as [->|]; [|done].
    destruct (IH _ H) as [t ->]. by exists t.
  - intros [t ->]. apply prefix_app.
Qed.

Lemma strip_prefix_spec p s t : strip_prefix p s = Some t ↔ s = p +:+ t.
Proof.
  revert s. induction p as [|a p IH]; intros s; simpl; [split; [by intros [= ->]|by intros ->]|].
  destruct s as [|b s]; [done|]. destruct (Ascii.eqb_spec a b) as [->|Hne].
  - rewrite IH. split; [by intros ->|by intros [= ->]].
  - split; [done|]. intros [= ? ?]. congruence.
Qed.

Lemma split_once_app c s t : str_has_char c s = false →
  split_once c (s +:+ String c t) = (s, Some t).
Proof.
  induction s as [|a s IH]; simpl; intros H; [by rewrite Ascii.eqb_refl|].
  apply orb_false_iff in H as [Ha Hs]. rewrite Ha, IH; done.
Qed.

Lemma split_once_none c s : str_has_char c s = false → split_once c s = (s, None).
Proof.
  induction s as [|a s IH]; simpl; intros H; [done|].
  apply orb_false_iff in H as [Ha Hs]. rewrite Ha, IH; done.
Qed.

Lemma eq_ignore_ascii_case_refl s : eq_ignore_ascii_case s s = true.
Proof. induction s as [|a s IH]; simpl; [done|]. by rewrite Ascii.eqb_refl. Qed.

Lemma string_app_nil_r s : s +:+ "" = s.
Proof. induction s as [|a s IH]; [done|]. by rewrite string_app_cons, IH. Qed.

Lemma string_length_app (a b : string) :
  String.length (a +:+ b) = (String.length a + String.length b)%nat.
Proof. induction a as [|c a IH]; [done|]. rewrite string_app_cons. cbn. by rewrite IH. Qed.

Lemma string_app_assoc (r s t : string) : (r +:+ s) +:+ t = r +:+ (s +:+ t).
Proof. induction r as [|a r IH]; [done|]. by rewrite !string_app_cons, IH. Qed.

(** ** Lemmas on lists and booleans *)
Lemma forallb_Forall {A} (f : A → bool) l : forallb f l = true ↔ Forall (λ x, f x = true) l.
Proof. rewrite forallb_forall, Forall_forall. by setoid_rewrite list_elem_of_In. Qed.

Lemma existsb_Exists {A} (f : A → bool) l : existsb f l = true ↔ ∃ x, x ∈ l ∧ f x = true.
Proof. rewrite existsb_exists. by setoid_rewrite list_elem_of_In. Qed.

Lemma forallb_map {A B} (f : A → B) (g : B → bool) l :
  forallb g (map f l) = forallb (λ x, g (f x)) l.
Proof. induction l as [|x l IH]; [done|]. cbn. by rewrite IH. Qed.

Lemma forallb_ext {A} (f g : A → bool) l : (∀ x, f x = g x) → forallb f l = forallb g l.
Proof. intros H. induction l as [|x l IH]; [done|]. cbn. by rewrite H, IH. Qed.

(** Consecutive pairs of a list: [slice::windows(2)]. *)
Fixpoint windows2 {A} (l : list A) : list (A * A) :=
  match l with
  | x :: ((y :: _) as t) => (x, y) :: windows2 t
  | _ => []
  end.

Lemma length_windows2 {A} (l : list A) : length (windows2 l) = Nat.pred (length l).
Proof.
  induction l as [|x [|y l] IH]; [done|done|].
  cbn [windows2 length]. cbn [windows2 length] in IH. rewrite IH. done.
Qed.

(** ** Automation

    [bsplit] turns boolean facts of the code's conditions into propositions; [simp_if]
    splits the next conditional or match of the goal on its scrutinee. *)
Ltac bsplit :=
  repeat match goal with
  | H : _ && _ = true |- _ => apply andb_true_iff in H as [? ?]
  | H : _ || _ = false |- _ => apply orb_false_iff in H as [? ?]
  | H : negb _ = true |- _ => apply negb_true_iff in H
  | H : negb _ = false |- _ => apply negb_false_iff in H
  | H : (_ =? _)%Z = true |- _ => apply Z.eqb_eq in H
  | H : (_ =? _)%Z = false |- _ => apply Z.eqb_neq in H
  | H : (_ <? _)%Z = true |- _ => apply Z.ltb_lt in H
  | H : (_ <? _)%Z = false |- _ => apply Z.ltb_ge in H
  | H : (_ <=? _)%Z = true |- _ => apply Z.leb_le in H
  | H : (_ <=? _)%Z = false |- _ => apply Z.leb_gt in H
  | H : (_ =? _)%nat = true |- _ => apply Nat.eqb_eq in H
  | H : (_ =? _)%nat = false |- _ => apply Nat.eqb_neq in H
  | H : (_ <? _)%nat = true |- _ => apply Nat.ltb_lt in H
  | H : (_ <? _)%nat = false |- _ => apply Nat.ltb_ge in H
  | H : (_ <=? _)%nat = true |- _ => apply Nat.leb_le in H
  | H : (_ <=? _)%nat = false |- _ => apply Nat.leb_gt in H
  | H : String.eqb _ _ = true |- _ => apply String.eqb_eq in H
  | H : String.eqb _ _ = false |- _ => apply String.eqb_neq in H
  end.

Create HintDb facelock discriminated.
Create Rewrite HintDb facelock.
#[export] Hint Resolve prefix_refl prefix_app str_contains_app_l str_contains_app_r
  str_contains_prefix as_u32_range : facelock.
#[export] Hint Rewrite string_app_nil_r string_app_assoc as_u32_id : facelock.
