(* ===== verification/Text.v ===== *)
(** * Text: lines, trimming and numbers, as Rust's [str] has them

    Shared by the components that read text (the file of a process descriptor, unit names, PAM
    service files). White space is the ASCII white space: the text read is ASCII. *)

From S2P Require Import Prelude.

Definition newline : ascii := Ascii.ascii_of_nat 10.
Definition carriage_return : ascii := Ascii.ascii_of_nat 13.

(** [char::is_whitespace] *)
Definition is_whitespace (a : ascii) : bool :=
  let n := Ascii.nat_of_ascii a in ((9 <=? n) && (n <=? 13) || (n =? 32))%nat.

Fixpoint trim_start (s : string) : string :=
  match s with
  | EmptyString => EmptyString
  | String a s' => if is_whitespace a then trim_start s' else s
  end.

Fixpoint trim_end (s : string) : string :=
  match s with
  | EmptyString => EmptyString
  | String a s' =>
      let t := trim_end s' in
      if is_whitespace a && is_empty_str t then EmptyString else String a t
  end.

Definition trim (s : string) : string := trim_end (trim_start s).

(** [str::strip_suffix] and [str::ends_with]. *)
Fixpoint strip_suffix (suf s : string) : option string :=
  if String.eqb s suf then Some EmptyString
  else match s with
       | EmptyString => None
       | String a s' => String a <$> strip_suffix suf s'
       end.

Definition ends_with (suf s : string) : bool := is_some (strip_suffix suf s).

(** [str::lines]: a line ends at a line feed, which may follow a carriage return; what follows
    the last line feed is a line when it is not empty. *)
Definition strip_cr (s : string) : string := default s (strip_suffix (String carriage_return "") s).

Fixpoint lines_from (cur s : string) : list string :=
  match s with
  | EmptyString => if is_empty_str cur then [] else [cur]
  | String a s' =>
      if Ascii.eqb a newline then strip_cr cur :: lines_from "" s'
      else lines_from (cur +:+ String a "") s'
  end.

Definition str_lines (s : string) : list string := lines_from "" s.

(** [Iterator::find_map] *)
Fixpoint find_map {A B} (f : A → option B) (l : list A) : option B :=
  match l with
  | [] => None
  | x :: l => match f x with Some y => Some y | None => find_map f l end
  end.

Definition slash : ascii := Ascii.ascii_of_nat 47.
Definition nul : ascii := Ascii.ascii_of_nat 0.

(** [str::split] on a character *)
Fixpoint split_on (c : ascii) (s : string) : list string :=
  match s with
  | EmptyString => [EmptyString]
  | String a s' =>
      if Ascii.eqb a c then EmptyString :: split_on c s'
      else match split_on c s' with
           | [] => [String a EmptyString]
           | p :: ps => String a p :: ps
           end
  end.

(** [str::rsplit_once] on a character *)
Fixpoint rsplit_once (c : ascii) (s : string) : option (string * string) :=
  match s with
  | EmptyString => None
  | String a s' =>
      match rsplit_once c s' with
      | Some (h, t) => Some (String a h, t)
      | None => if Ascii.eqb a c then Some (EmptyString, s') else None
      end
  end.

(** ** [str::parse::<u32>] and the text of its errors *)
Definition digit_value (a : ascii) : option Z :=
  let n := Ascii.nat_of_ascii a in
  if ((48 <=? n) && (n <=? 57))%nat then Some (Z.of_nat n - 48) else None.

Fixpoint parse_digits (acc : Z) (s : string) : result Z string :=
  match s with
  | EmptyString => Ok acc
  | String a s' =>
      match digit_value a with
      | None => Err "invalid digit found in string"
      | Some d =>
          if acc * 10 + d <? 2 ^ 32 then parse_digits (acc * 10 + d) s'
          else Err "number too large to fit in target type"
      end
  end.

Definition parse_u32 (s : string) : result Z string :=
  match s with
  | EmptyString => Err "cannot parse integer from empty string"
  | String "+"%char EmptyString => Err "invalid digit found in string"
  | String "+"%char s' => parse_digits 0 s'
  | _ => parse_digits 0 s
  end.

Definition is_ascii_digit (a : ascii) : bool :=
  let n := Ascii.nat_of_ascii a in ((48 <=? n) && (n <=? 57))%nat.

(** [str::parse] into an unsigned integer below [bound] *)
Fixpoint parse_below (bound acc : Z) (s : string) : option Z :=
  match s with
  | EmptyString => Some acc
  | String a s' =>
      match digit_value a with
      | None => None
      | Some d => if acc * 10 + d <? bound then parse_below bound (acc * 10 + d) s' else None
      end
  end.

Definition parse_unsigned (bound : Z) (s : string) : option Z :=
  if is_empty_str s then None else parse_below bound 0 s.

(** ** Lemmas *)
Lemma strip_suffix_cons suf a s : strip_suffix suf (String a s) =
  if String.eqb (String a s) suf then Some EmptyString else String a <$> strip_suffix suf s.
Proof. reflexivity. Qed.

Lemma app_shorter (t : string) a s : s ≠ (t +:+ String a s).
Proof.
  intros E. apply (f_equal String.length) in E. rewrite string_length_app in E. cbn in E. lia.
Qed.

Lemma strip_suffix_spec suf s t : strip_suffix suf s = Some t ↔ s = t +:+ suf.
Proof.
  revert t. induction s as [|a s IH]; intros t.
  - destruct suf; [|split; [done|by destruct t]]. cbn.
    split; [intros E; by injection E as <-|]. intros E. by destruct t.
  - rewrite strip_suffix_cons. destruct (String.eqb (String a s) suf) eqn:Eq.
    + apply String.eqb_eq in Eq as <-. split; [intros E; by injection E as <-|]. intros E.
      destruct t as [|b t]; [done|]. rewrite string_app_cons in E. injection E as _ E. by apply app_shorter in E.
    + apply String.eqb_neq in Eq. destruct t as [|b t].
      * split; [by destruct (strip_suffix suf s)|]. intros E. by destruct Eq.
      * rewrite string_app_cons. destruct (strip_suffix suf s) as [u|] eqn:Es; cbn.
        -- specialize (proj1 (IH u) eq_refl) as ->. split; [intros E; by injection E as -> ->|].
           intros E. injection E as -> E. apply (proj2 (IH t)) in E. congruence.
        -- split; [done|]. intros E. injection E as -> E. apply (proj2 (IH t)) in E. congruence.
Qed.

Lemma ends_with_spec suf s : ends_with suf s = true ↔ ∃ t, s = t +:+ suf.
Proof.
  unfold ends_with. destruct (strip_suffix suf s) as [t|] eqn:E; cbn.
  - split; [|done]. intros _. exists t. by apply strip_suffix_spec.
  - split; [done|]. intros [t Ht]. apply strip_suffix_spec in Ht. congruence.
Qed.

Lemma find_map_some {A B} (f : A → option B) l y : find_map f l = Some y → ∃ x, x ∈ l ∧ f x = Some y.
Proof.
  induction l as [|x l IH]; cbn; [done|]. destruct (f x) eqn:E.
  - intros [= ->]. exists x. split; [apply list_elem_of_here|done].
  - intros H. destruct (IH H) as (x' & Hin & Hf). exists x'. split; [|done]. apply elem_of_cons. by right.
Qed.

Lemma parse_digits_range s : ∀ acc z, 0 ≤ acc < 2 ^ 32 → parse_digits acc s = Ok z → 0 ≤ z < 2 ^ 32.
Proof.
  induction s as [|a s IH]; cbn; intros acc z Hacc; [by intros [= <-]|].
  destruct (digit_value a) as [d|] eqn:Ed; [|done].
  destruct (Z.ltb_spec (acc * 10 + d) (2 ^ 32)); [|done]. apply IH.
  unfold digit_value in Ed. destruct (_ && _) eqn:Eb; [|done]. injection Ed as <-. bsplit. lia.
Qed.

Lemma parse_u32_range s z : parse_u32 s = Ok z → 0 ≤ z < 2 ^ 32.
Proof.
  unfold parse_u32. intros E. assert (∃ t, parse_digits 0 t = Ok z) as [t Ht].
  { destruct s as [|[[][][][][][][][]] s]; try discriminate; try (by eexists). destruct s; [discriminate|by eexists]. }
  eapply parse_digits_range, Ht. lia.
Qed.

Lemma digit_value_pretty x : (x < 10)%N → digit_value (pretty_N_char x) = Some (Z.of_N x).
Proof.
  intros H. assert (x ∈ [0; 1; 2; 3; 4; 5; 6; 7; 8; 9]%N) as Hx.
  { rewrite !elem_of_cons. lia. }
  repeat (apply elem_of_cons in Hx as [->|Hx]; [reflexivity|]). by apply elem_of_nil in Hx.
Qed.

(** Reading back the digits of a number. *)
Lemma parse_digits_go x : (Z.of_N x < 2 ^ 32) → ∀ s, parse_digits 0 (pretty_N_go x s) = parse_digits (Z.of_N x) s.
Proof.
  induction (N.lt_wf_0 x) as [x _ IH]. intros Hx s.
  assert (x = 0 ∨ 0 < x)%N as [->|Hpos] by lia; [done|].
  rewrite pretty_N_go_step by done.
  assert (Z.of_N (x `div` 10)%N * 10 + Z.of_N (x `mod` 10)%N = Z.of_N x) as E.
  { rewrite N2Z.inj_div, N2Z.inj_mod. pose proof (Z.div_mod (Z.of_N x) 10). lia. }
  rewrite IH; [|by apply N.div_lt|pose proof (N2Z.is_nonneg (x `mod` 10)); lia]. cbn [parse_digits].
  rewrite digit_value_pretty by (apply N.mod_lt; lia). rewrite E.
  destruct (Z.ltb_spec (Z.of_N x) (2 ^ 32)); [done|lia].
Qed.

Lemma parse_digits_show z : 0 ≤ z < 2 ^ 32 → parse_digits 0 (show_Z z) = Ok z.
Proof.
  intros Hz. unfold show_Z, pretty, pretty_Z. destruct z as [|p|p]; [done| |lia].
  change (parse_digits 0 (pretty_N_go (Npos p) "") = Ok (Zpos p)). rewrite parse_digits_go by lia. reflexivity.
Qed.

(** [parse] inverts [format!]. *)
Lemma parse_u32_show z : 0 ≤ z < 2 ^ 32 → parse_u32 (show_Z z) = Ok z.
Proof.
  intros Hz. pose proof (parse_digits_show z Hz) as E. unfold parse_u32.
  destruct (show_Z z) as [|a s] eqn:Es.
  - cbn in E. by injection E as <-.
  - destruct a as [[][][][][][][][]]; done.
Qed.
#[export] Hint Resolve parse_u32_range : facelock.
