(* ===== verification/Float32.v ===== *)
(** * IEEE 754 arithmetic of Rust's [f32] and [f64]

    Rust's floating-point types are modelled by the Standard Library's executable
    specification of IEEE 754 ([SpecFloat]) at binary32 ([prec = 24], [emax = 128]) and
    binary64 ([prec = 53], [emax = 1024]): every comparison, rounding and special value
    the program meets is the machine's.  The file proves what the rest of the development
    needs of it: addition and multiplication stay inside the format, and the bit pattern
    [f32::to_bits] gives is undone by [f32::from_bits]. *)

From S2P Require Import Prelude.
From Stdlib Require Export SpecFloat.

Definition f32 : Type := spec_float.
Definition f64 : Type := spec_float.

(** ** Operations *)
Definition f32_valid (x : f32) : Prop := valid_binary 24 128 x = true.
Definition f32_is_nan (x : f32) : bool := match x with S754_nan => true | _ => false end.

Definition f32_add : f32 → f32 → f32 := SFadd 24 128.
Definition f32_sub : f32 → f32 → f32 := SFsub 24 128.
Definition f32_mul : f32 → f32 → f32 := SFmul 24 128.
Definition f32_div : f32 → f32 → f32 := SFdiv 24 128.
Definition f32_sqrt : f32 → f32 := SFsqrt 24 128.
Definition f32_abs : f32 → f32 := SFabs.

(** Comparisons: every one is false when an operand is a NaN. *)
Definition f32_lt (x y : f32) : bool := SFltb x y.
Definition f32_le (x y : f32) : bool := SFleb x y.
Definition f32_gt (x y : f32) : bool := SFltb y x.
Definition f32_ge (x y : f32) : bool := SFleb y x.
Definition f32_eq (x y : f32) : bool := SFeqb x y.

(** [n as f32] for an integer [n]: rounds to nearest, ties to even. *)
Definition f32_of_Z (z : Z) : f32 := binary_normalize 24 128 z 0 false.
Definition f64_of_Z (z : Z) : f64 := binary_normalize 53 1024 z 0 false.

(** The [f32] literal [num/den]: both operands are exact, so the quotient is the literal
    correctly rounded. *)
Definition f32_lit (num den : Z) : f32 := f32_div (f32_of_Z num) (f32_of_Z den).

Definition f32_zero : f32 := S754_zero false.
Definition f32_neg_zero : f32 := S754_zero true.
Definition f32_one : f32 := f32_of_Z 1.
Definition f32_neg_one : f32 := f32_of_Z (-1).

(** [f32::clamp] with finite bounds. *)
Definition f32_clamp (lo hi x : f32) : f32 :=
  let x := if f32_lt x lo then lo else x in
  if f32_gt x hi then hi else x.

(** [f32::max]: a NaN operand is ignored. *)
Definition f32_max (x y : f32) : f32 :=
  if f32_is_nan x then y else if f32_is_nan y then x else if f32_lt x y then y else x.
Definition f32_min (x y : f32) : f32 :=
  if f32_is_nan x then y else if f32_is_nan y then x else if f32_lt y x then y else x.

(** [iter().sum::<f32>()]: a left fold from the additive identity [-0.0]. *)
Definition f32_sum (l : list f32) : f32 := fold_left f32_add l f32_neg_zero.

(** [x as u32] and [x as usize]: truncation toward zero, saturating at [hi]; NaN is 0. *)
Definition f32_to_uint (hi : Z) (x : f32) : Z :=
  match x with
  | S754_zero _ | S754_nan => 0
  | S754_infinity s => if s then 0 else hi
  | S754_finite s m e =>
      if s then 0
      else Z.min hi (if 0 <=? e then Zpos m * 2 ^ e else Zpos m / 2 ^ (- e))
  end.

(** Widening and narrowing conversions between the two formats. *)
Definition f64_of_f32 (x : f32) : f64 :=
  match x with
  | S754_finite s m e => binary_round 53 1024 s m e
  | _ => x
  end.
Definition f32_of_f64 (x : f64) : f32 :=
  match x with
  | S754_finite s m e => binary_round 24 128 s m e
  | _ => x
  end.

(** ** Bit patterns

    Rust leaves the bit pattern of a computed NaN open, so it is a parameter: any NaN
    encoding, of either sign. *)
Definition sign_bit (s : bool) : Z := if s then 2 ^ 31 else 0.

Definition f32_from_bits (b : Z) : f32 :=
  let s := Z.testbit b 31 in
  let e := (b / 2 ^ 23) mod 256 in
  let m := b mod 2 ^ 23 in
  if e =? 255 then (if m =? 0 then S754_infinity s else S754_nan)
  else if e =? 0 then
    match m with Zpos p => S754_finite s p (-149) | _ => S754_zero s end
  else
    match m + 2 ^ 23 with Zpos p => S754_finite s p (e - 150) | _ => S754_nan end.

Class NanEncoding := {
  nan_bits : Z;
  nan_bits_u32 : is_u32 nan_bits;
  nan_bits_nan : f32_from_bits nan_bits = S754_nan;
}.

(** The quiet NaN of x86 (sign set) and of AArch64 (sign clear). *)
#[refine] Definition nan_x86 : NanEncoding := {| nan_bits := 0xFFC00000 |}.
Proof. - unfold is_u32. lia. - reflexivity. Defined.
#[refine] Definition nan_aarch64 : NanEncoding := {| nan_bits := 0x7FC00000 |}.
Proof. - unfold is_u32. lia. - reflexivity. Defined.

Definition f32_to_bits `{NanEncoding} (x : f32) : Z :=
  match x with
  | S754_zero s => sign_bit s
  | S754_infinity s => sign_bit s + 255 * 2 ^ 23
  | S754_nan => nan_bits
  | S754_finite s m e =>
      sign_bit s +
      (if Zpos m <? 2 ^ 23 then Zpos m else (e + 150) * 2 ^ 23 + (Zpos m - 2 ^ 23))
  end.

(** ** Closure of the format under addition and multiplication *)
Section Validity.
Variables prec emax : Z.
Hypothesis prec_pos : 0 < prec.
Hypothesis emin_neg : emin prec emax ≤ 0.

Lemma digits2_log2 p : Zpos (digits2_pos p) = Z.log2 (Zpos p) + 1.
Proof using Type.
  induction p as [p IH|p IH|]; cbn [digits2_pos]; [| |done].
  - rewrite Pos2Z.inj_succ, IH, (Pos2Z.inj_xI p), Z.log2_succ_double by lia. lia.
  - rewrite Pos2Z.inj_succ, IH, (Pos2Z.inj_xO p), Z.log2_double by lia. lia.
Qed.

Lemma Zdigits2_log2 m : 0 < m → Zdigits2 m = Z.log2 m + 1.
Proof using Type. destruct m; [lia| |lia]. intros _. apply digits2_log2. Qed.

Lemma fexp_mono a b : a ≤ b → fexp prec emax a ≤ fexp prec emax b.
Proof using Type. unfold fexp. lia. Qed.

Lemma shr_1_m r : 0 ≤ shr_m r → shr_m (shr_1 r) = shr_m r / 2.
Proof using Type.
  destruct r as [m rb sb]. cbn. destruct m as [|[p|p|]|]; intros; try done; try lia.
  - rewrite (Pos2Z.inj_xI p). cbn [shr_m]. Z.div_mod_to_equations. lia.
  - rewrite (Pos2Z.inj_xO p). cbn [shr_m]. Z.div_mod_to_equations. lia.
Qed.

Lemma iter_shr_m p r : 0 ≤ shr_m r →
  0 ≤ shr_m (iter_pos shr_1 p r) ∧ shr_m (iter_pos shr_1 p r) = shr_m r / 2 ^ Zpos p.
Proof using Type.
  revert r. induction p as [p IH|p IH|]; intros r Hr; cbn [iter_pos].
  - assert (H1 : 0 ≤ shr_m (shr_1 r)) by (rewrite shr_1_m by done; apply Z.div_pos; lia).
    destruct (IH _ H1) as [H2 E2]. destruct (IH _ H2) as [H3 E3]. split; [done|].
    rewrite E3, E2, shr_1_m, !Z.div_div by (try apply Z.pow_pos_nonneg; lia).
    f_equal. rewrite (Pos2Z.inj_xI p), Z.pow_add_r, Z.pow_mul_r by lia.
    change (2 ^ 2) with (2 * 2). rewrite Z.pow_mul_l. lia.
  - destruct (IH _ Hr) as [H2 E2]. destruct (IH _ H2) as [H3 E3]. split; [done|].
    rewrite E3, E2, Z.div_div by (try apply Z.pow_pos_nonneg; lia).
    f_equal. rewrite (Pos2Z.inj_xO p), Z.pow_mul_r by lia.
    change (2 ^ 2) with (2 * 2). rewrite Z.pow_mul_l. lia.
  - rewrite shr_1_m by done. split; [apply Z.div_pos; lia|done].
Qed.

Lemma shr_record_of_loc_m m l : shr_m (shr_record_of_loc m l) = m.
Proof using Type. by destruct l as [|[]]. Qed.

Lemma shr_fexp_spec m e l mrs e' :
  0 < m → e ≤ fexp prec emax (Zdigits2 m + e) →
  shr_fexp prec emax m e l = (mrs, e') →
  e' = fexp prec emax (Zdigits2 m + e) ∧ 0 ≤ shr_m mrs ∧
  ((shr_m mrs = 0 ∧ Zdigits2 m + e ≤ e') ∨
   (0 < shr_m mrs ∧ fexp prec emax (Zdigits2 (shr_m mrs) + e') = e')).
Proof using Type.
  intros Hm He. unfold shr_fexp, shr.
  remember (fexp prec emax (Zdigits2 m + e)) as f eqn:Ef.
  pose proof (shr_record_of_loc_m m l) as Hr.
  destruct (f - e) as [|p|p] eqn:En; intros [= <- <-]; [| |lia].
  - split; [lia|]. split; [lia|]. right. rewrite Hr. split; [done|].
    replace f with e in Ef by lia. done.
  - destruct (iter_shr_m p (shr_record_of_loc m l) ltac:(lia)) as [H0 Em].
    rewrite Hr in Em.
    split; [lia|]. split; [done|].
    rewrite Zdigits2_log2 in Ef |- * by done. rewrite Em.
    assert (Hl := Z.log2_shiftr m (Zpos p) Hm). rewrite Z.shiftr_div_pow2 in Hl by lia.
    destruct (decide (Zpos p ≤ Z.log2 m)) as [Hc|Hc].
    + right. assert (0 < m / 2 ^ Zpos p).
      { apply Z.div_str_pos. split; [apply Z.pow_pos_nonneg; lia|].
        etransitivity; [|apply (Z.log2_spec m); done]. apply Z.pow_le_mono_r; lia. }
      split; [done|]. rewrite Zdigits2_log2, Hl by done.
      replace (Z.max 0 (Z.log2 m - Zpos p) + 1 + (e + Zpos p)) with (Z.log2 m + 1 + e) by lia.
      lia.
    + left. split; [|lia]. apply Z.div_small. split; [lia|].
      apply (Z.log2_lt_pow2 m); lia.
Qed.

Lemma round_nearest_even_cases m l :
  round_nearest_even m l = m ∨ round_nearest_even m l = m + 1.
Proof using Type. destruct l as [|[]]; cbn; auto. destruct (Z.even m); auto. Qed.

Lemma shr_fexp_zero e l : shr_m (fst (shr_fexp prec emax 0 e l)) = 0.
Proof using Type.
  unfold shr_fexp, shr. destruct (_ - e) as [|p|p]; cbn [fst]; [apply shr_record_of_loc_m| |apply shr_record_of_loc_m].
  destruct (iter_shr_m p (shr_record_of_loc 0 l)) as [_ E];
    rewrite shr_record_of_loc_m in *; [lia|]. by rewrite E, Z.div_0_l by (apply Z.pow_nonzero; lia).
Qed.

Lemma binary_round_aux_valid s m e l :
  0 < m → e ≤ fexp prec emax (Zdigits2 m + e) →
  valid_binary prec emax (binary_round_aux prec emax s m e l) = true.
Proof using prec_pos.
  intros Hm He. unfold binary_round_aux.
  destruct (shr_fexp prec emax m e l) as [r1 e1] eqn:E1.
  destruct (shr_fexp_spec _ _ _ _ _ Hm He E1) as (He1 & H0 & Hc).
  set (m2 := round_nearest_even (shr_m r1) (loc_of_shr_record r1)).
  destruct (shr_fexp prec emax m2 e1 loc_Exact) as [r2 e2] eqn:E2.
  destruct (decide (m2 = 0)) as [Hz|Hz].
  { pose proof (shr_fexp_zero e1 loc_Exact) as Hs. rewrite Hz in E2. rewrite E2 in Hs.
    cbn in Hs. by rewrite Hs. }
  assert (Hm2 : 0 < m2) by (destruct (round_nearest_even_cases (shr_m r1) (loc_of_shr_record r1)); lia).
  assert (He2 : e1 ≤ fexp prec emax (Zdigits2 m2 + e1)).
  { destruct Hc as [[Hr Hd]|[Hr Hf]].
    - assert (e1 = emin prec emax) by (revert Hd; rewrite He1; unfold fexp; lia).
      unfold fexp. lia.
    - rewrite <- Hf at 1. apply fexp_mono. rewrite !Zdigits2_log2 by done.
      assert (shr_m r1 ≤ m2) by (destruct (round_nearest_even_cases (shr_m r1) (loc_of_shr_record r1)); lia).
      pose proof (Z.log2_le_mono (shr_m r1) m2). lia. }
  destruct (shr_fexp_spec _ _ _ _ _ Hm2 He2 E2) as (He3 & H3 & Hc3).
  destruct (shr_m r2) as [|p|p] eqn:Er; [done| |done].
  destruct (Z.leb_spec e2 (emax - prec)) as [Hb|]; [|done].
  cbn. unfold bounded, canonical_mantissa. destruct Hc3 as [[? _]|[_ Hf]]; [done|].
  cbn in Hf. rewrite Hf. rewrite Z.eqb_refl. cbn. by apply Z.leb_le.
Qed.

Lemma iter_xO_pow m d : Zpos (Pos.iter xO m d) = Zpos m * 2 ^ Zpos d.
Proof using Type.
  induction d as [|d IH] using Pos.peano_ind; [cbn; lia|].
  rewrite Pos.iter_succ, Pos2Z.inj_xO, IH, Pos2Z.inj_succ, Z.pow_succ_r by lia. lia.
Qed.

Lemma binary_round_valid s m e :
  valid_binary prec emax (binary_round prec emax s m e) = true.
Proof using prec_pos.
  unfold binary_round, shl_align.
  remember (fexp prec emax (Zpos (digits2_pos m) + e)) as f eqn:Ef.
  destruct (f - e) as [|d|d] eqn:En; try (apply binary_round_aux_valid; [lia|]; cbn; lia).
  set (mz := Pos.iter xO m d).
  assert (Hmz : Zpos mz = Zpos m * 2 ^ Zpos d) by apply iter_xO_pow.
  apply binary_round_aux_valid; [lia|].
  rewrite Zdigits2_log2, Hmz, Z.log2_mul_pow2 by lia.
  rewrite digits2_log2 in Ef.
  replace (Zpos d + Z.log2 (Zpos m) + 1 + f) with (Z.log2 (Zpos m) + 1 + e) by lia. lia.
Qed.

(** *** Rounding what is representable *)

Definition exact_record (m : Z) : shr_record := {| shr_m := m; shr_r := false; shr_s := false |}.

Lemma shr_1_exact m : 0 < m → shr_1 (exact_record (2 * m)) = exact_record m.
Proof using Type. destruct m as [|p|p]; [lia| |lia]. reflexivity. Qed.

Lemma iter_shr_exact p : ∀ m, 0 < m → iter_pos shr_1 p (exact_record (m * 2 ^ Zpos p)) = exact_record m.
Proof using Type.
  induction p as [p IH|p IH|]; intros m Hm; cbn [iter_pos].
  - replace (m * 2 ^ Zpos (xI p)) with (2 * ((m * 2 ^ Zpos p) * 2 ^ Zpos p)).
    2: { rewrite (Pos2Z.inj_xI p), Z.pow_add_r, Z.pow_mul_r by lia. change (2 ^ 2) with (2 * 2).
         rewrite Z.pow_mul_l. lia. }
    rewrite shr_1_exact, IH, IH by (try done; repeat apply Z.mul_pos_pos; try done; apply Z.pow_pos_nonneg; lia).
    done.
  - replace (m * 2 ^ Zpos (xO p)) with ((m * 2 ^ Zpos p) * 2 ^ Zpos p).
    2: { rewrite (Pos2Z.inj_xO p), Z.pow_mul_r by lia. change (2 ^ 2) with (2 * 2). rewrite Z.pow_mul_l. lia. }
    rewrite IH, IH by (try done; apply Z.mul_pos_pos; try done; apply Z.pow_pos_nonneg; lia). done.
  - change (m * 2 ^ 1) with (m * 2). rewrite Z.mul_comm. by apply shr_1_exact.
Qed.

(** A canonical mantissa, spread over more digits, rounds back to itself. *)
Lemma shr_fexp_exact m e k : 0 < m → 0 ≤ k → fexp prec emax (Zdigits2 m + e) = e →
  shr_fexp prec emax (m * 2 ^ k) (e - k) loc_Exact = (exact_record m, e).
Proof using Type.
  intros Hm Hk He. assert (0 < 2 ^ k) by (apply Z.pow_pos_nonneg; lia).
  unfold shr_fexp. rewrite (Zdigits2_log2 (m * 2 ^ k)), Z.log2_mul_pow2 by lia.
  rewrite Zdigits2_log2 in He by done.
  replace (k + Z.log2 m + 1 + (e - k)) with (Z.log2 m + 1 + e) by lia. rewrite He.
  replace (e - (e - k)) with k by lia. unfold shr. cbn [shr_record_of_loc].
  change ({| shr_m := m * 2 ^ k; shr_r := false; shr_s := false |}) with (exact_record (m * 2 ^ k)).
  destruct k as [|p|p]; [|by rewrite iter_shr_exact by done; f_equal; lia|lia].
  change (2 ^ 0) with 1. by rewrite Z.mul_1_r, Z.sub_0_r.
Qed.

Lemma binary_round_aux_exact s m e k : 0 < m → 0 ≤ k → fexp prec emax (Zdigits2 m + e) = e → e ≤ emax - prec →
  binary_round_aux prec emax s (m * 2 ^ k) (e - k) loc_Exact = S754_finite s (Z.to_pos m) e.
Proof using Type.
  intros Hm Hk He Hmax. unfold binary_round_aux. rewrite shr_fexp_exact by done.
  cbn [loc_of_shr_record exact_record shr_m shr_r shr_s round_nearest_even].
  pose proof (shr_fexp_exact m e 0 Hm ltac:(lia) He) as E0.
  change (2 ^ 0) with 1 in E0. rewrite Z.mul_1_r, Z.sub_0_r in E0. rewrite E0. cbn [exact_record shr_m].
  destruct m as [|p|p]; [lia| |lia]. cbn. destruct (Z.leb_spec e (emax - prec)); [done|lia].
Qed.

Lemma binary_normalize_valid m e s :
  valid_binary prec emax (binary_normalize prec emax m e s) = true.
Proof using prec_pos. destruct m; [done|apply binary_round_valid|apply binary_round_valid]. Qed.

Lemma SFadd_valid x y :
  valid_binary prec emax x = true → valid_binary prec emax y = true →
  valid_binary prec emax (SFadd prec emax x y) = true.
Proof using prec_pos.
  intros Hx Hy. destruct x as [[]|[]| |sx mx ex], y as [[]|[]| |sy my ey]; try done.
  apply binary_normalize_valid.
Qed.

Lemma bounded_inv m e : bounded prec emax m e = true →
  emin prec emax ≤ e ∧ Z.log2 (Zpos m) + 1 ≤ prec ∧
  (e = emin prec emax ∨ Z.log2 (Zpos m) + 1 = prec) ∧ e ≤ emax - prec.
Proof using Type.
  unfold bounded, canonical_mantissa, fexp. intros H. bsplit. rewrite digits2_log2 in *. lia.
Qed.

Lemma SFmul_valid x y :
  valid_binary prec emax x = true → valid_binary prec emax y = true →
  valid_binary prec emax (SFmul prec emax x y) = true.
Proof using prec_pos emin_neg.
  intros Hx Hy. destruct x as [[]|[]| |sx mx ex], y as [[]|[]| |sy my ey]; try done.
  apply bounded_inv in Hx as (Hx1 & Hx2 & Hx3 & Hx4).
  apply bounded_inv in Hy as (Hy1 & Hy2 & Hy3 & Hy4).
  apply binary_round_aux_valid; [lia|].
  rewrite Zdigits2_log2, Pos2Z.inj_mul by lia. unfold fexp.
  pose proof (Z.log2_mul_below (Zpos mx) (Zpos my) ltac:(lia) ltac:(lia)).
  pose proof (Z.log2_nonneg (Zpos mx)). pose proof (Z.log2_nonneg (Zpos my)). lia.
Qed.
End Validity.

Lemma f32_add_valid x y : f32_valid x → f32_valid y → f32_valid (f32_add x y).
Proof. by apply SFadd_valid. Qed.

Lemma f32_mul_valid x y : f32_valid x → f32_valid y → f32_valid (f32_mul x y).
Proof. by apply SFmul_valid. Qed.

Lemma f32_of_Z_valid z : f32_valid (f32_of_Z z).
Proof. by apply binary_normalize_valid. Qed.

Lemma f32_sum_valid l : Forall f32_valid l → f32_valid (f32_sum l).
Proof.
  unfold f32_sum. assert (H0 : f32_valid f32_neg_zero) by done.
  revert H0. generalize f32_neg_zero as a. induction l as [|x l IH]; intros a Ha Hl; [done|].
  inversion_clear Hl. apply IH; [|done]. by apply f32_add_valid.
Qed.

#[export] Hint Resolve f32_add_valid f32_mul_valid f32_of_Z_valid f32_sum_valid : facelock.

(** ** Bit patterns: range, round trip and order

    The magnitude of a finite value of the format, read as an integer, grows with the
    value: both the exponent field and the fraction field are in it. *)
Definition magnitude (x : f32) : Z :=
  match x with
  | S754_zero _ | S754_nan => 0
  | S754_infinity _ => 255 * 2 ^ 23
  | S754_finite _ m e => (e + 149) * 2 ^ 23 + Zpos m
  end.

Definition f32_sign (x : f32) : bool :=
  match x with
  | S754_zero s | S754_infinity s | S754_finite s _ _ => s
  | S754_nan => false
  end.

Lemma f32_bounded m e : bounded 24 128 m e = true →
  -149 ≤ e ≤ 104 ∧ 0 < Zpos m < 2 ^ 24 ∧ (e = -149 ∨ 2 ^ 23 ≤ Zpos m).
Proof.
  intros H. apply bounded_inv in H as (H1 & H2 & H3 & H4).
  change (emin 24 128) with (-149) in *.
  destruct (Z.log2_spec (Zpos m)) as [Hl Hu]; [lia|].
  split; [lia|]. split.
  - split; [lia|]. eapply Z.lt_le_trans; [exact Hu|]. apply Z.pow_le_mono_r; lia.
  - destruct H3 as [H3|H3]; [by left|right].
    replace (Z.log2 (Zpos m)) with 23 in Hl by lia. done.
Qed.

(** Widening is exact: narrowing gives the value back. *)
Lemma f64_of_f32_finite s m e : bounded 24 128 m e = true →
  ∃ k, 0 < k ∧ f64_of_f32 (S754_finite s m e) = S754_finite s (Z.to_pos (Zpos m * 2 ^ k)) (e - k).
Proof.
  intros Hb. pose proof (f32_bounded m e Hb) as (He & Hm & _).
  assert (Hl : Z.log2 (Zpos m) < 24) by (apply Z.log2_lt_pow2; lia). pose proof (Z.log2_nonneg (Zpos m)).
  exists (52 - Z.log2 (Zpos m)). split; [lia|]. cbn [f64_of_f32]. unfold binary_round, shl_align.
  assert (fexp 53 1024 (Zpos (digits2_pos m) + e) = e - (52 - Z.log2 (Zpos m))) as ->.
  { rewrite digits2_log2. unfold fexp, emin. lia. }
  replace (e - (52 - Z.log2 (Zpos m)) - e) with (- (52 - Z.log2 (Zpos m))) by lia.
  remember (52 - Z.log2 (Zpos m)) as k eqn:Ek. destruct k as [|d|d]; [lia| |lia]. change (- Zpos d) with (Zneg d).
  cbv iota beta. rewrite iter_xO_pow.
  assert (0 < 2 ^ Zpos d) by (apply Z.pow_pos_nonneg; lia).
  pose proof (binary_round_aux_exact 53 1024 s (Zpos m * 2 ^ Zpos d) (e - Zpos d) 0) as Hr.
  change (2 ^ 0) with 1 in Hr. rewrite Z.mul_1_r, Z.sub_0_r in Hr. apply Hr; [lia|lia| |lia].
  rewrite Zdigits2_log2, Z.log2_mul_pow2 by lia. unfold fexp, emin. lia.
Qed.

Lemma f64_of_f32_back x : f32_valid x → f32_of_f64 (f64_of_f32 x) = x.
Proof.
  destruct x as [| | |s m e]; [done..|]. intros Hb.
  destruct (f64_of_f32_finite s m e Hb) as (k & Hk & ->). pose proof (f32_bounded m e Hb) as (He & Hm & _).
  assert (fexp 24 128 (Zdigits2 (Zpos m) + e) = e) as Hcan.
  { apply bounded_inv in Hb. rewrite Zdigits2_log2 by lia. unfold fexp, emin in *. lia. }
  assert (0 < 2 ^ k) by (apply Z.pow_pos_nonneg; lia).
  cbn [f32_of_f64]. unfold binary_round, shl_align.
  replace (Zpos (digits2_pos (Z.to_pos (Zpos m * 2 ^ k)))) with (Zdigits2 (Zpos m) + k).
  2: { rewrite digits2_log2, Z2Pos.id, Z.log2_mul_pow2, Zdigits2_log2 by lia. lia. }
  replace (Zdigits2 (Zpos m) + k + (e - k)) with (Zdigits2 (Zpos m) + e) by lia. rewrite Hcan.
  replace (e - (e - k)) with k by lia. destruct k as [|d|d]; [lia| |lia].
  rewrite Z2Pos.id by lia. rewrite binary_round_aux_exact by (done || lia). done.
Qed.

Section Bits.
Context `{NanEncoding}.

Lemma f32_to_bits_magnitude x : f32_valid x → f32_is_nan x = false →
  f32_to_bits x = sign_bit (f32_sign x) + magnitude x ∧ 0 ≤ magnitude x ≤ 255 * 2 ^ 23.
Proof.
  destruct x as [s|s| |s m e]; intros Hv Hn; try done; cbn [f32_to_bits f32_sign magnitude].
  - split; lia.
  - apply f32_bounded in Hv as (He & Hm & Hc).
    destruct (Z.ltb_spec (Zpos m) (2 ^ 23)); split; lia.
Qed.

Lemma f32_to_bits_u32 x : f32_valid x → is_u32 (f32_to_bits x).
Proof.
  intros Hv. destruct (f32_is_nan x) eqn:Hn.
  - destruct x; try done. apply nan_bits_u32.
  - destruct (f32_to_bits_magnitude x Hv Hn) as [-> Hm].
    unfold is_u32, sign_bit. destruct (f32_sign x); lia.
Qed.

(** The three fields of a bit pattern. *)
Lemma f32_fields s mag : 0 ≤ mag < 2 ^ 31 →
  Z.testbit (sign_bit s + mag) 31 = s ∧
  ((sign_bit s + mag) / 2 ^ 23) mod 256 = mag / 2 ^ 23 ∧
  (sign_bit s + mag) mod 2 ^ 23 = mag mod 2 ^ 23.
Proof.
  intros Hm. split; [|split].
  - rewrite Z.testbit_odd, Z.shiftr_div_pow2 by lia. unfold sign_bit. destruct s.
    + replace ((2 ^ 31 + mag) / 2 ^ 31) with 1; [done|]. Z.div_mod_to_equations. lia.
    + rewrite Z.div_small by lia. done.
  - unfold sign_bit. destruct s; Z.div_mod_to_equations; lia.
  - unfold sign_bit. destruct s; Z.div_mod_to_equations; lia.
Qed.

(** [f32::from_bits(x.to_bits())] is [x] for every value that is not a NaN. *)
Lemma f32_from_to_bits x : f32_valid x → f32_is_nan x = false →
  f32_from_bits (f32_to_bits x) = x.
Proof.
  intros Hv Hn. destruct (f32_to_bits_magnitude x Hv Hn) as [-> Hm].
  destruct (f32_fields (f32_sign x) (magnitude x)) as (E1 & E2 & E3); [lia|].
  unfold f32_from_bits. rewrite E1, E2, E3. clear E1 E2 E3.
  destruct x as [s|s| |s m e]; try done.
  cbn [magnitude f32_sign] in *.
  apply f32_bounded in Hv as (He & Hmm & Hc).
  destruct (decide (Zpos m < 2 ^ 23)) as [Hlt|Hge].
  - assert (e = -149) as -> by lia. replace ((-149 + 149) * 2 ^ 23 + Zpos m) with (Zpos m) by lia.
    rewrite Z.div_small, Z.mod_small by lia. done.
  - assert (Hd : ((e + 149) * 2 ^ 23 + Zpos m) / 2 ^ 23 = e + 150) by (Z.div_mod_to_equations; lia).
    assert (Hr : ((e + 149) * 2 ^ 23 + Zpos m) mod 2 ^ 23 = Zpos m - 2 ^ 23)
      by (Z.div_mod_to_equations; lia).
    rewrite Hd, Hr. destruct (Z.eqb_spec (e + 150) 255); [lia|].
    destruct (Z.eqb_spec (e + 150) 0); [lia|].
    replace (Zpos m - 2 ^ 23 + 2 ^ 23) with (Zpos m) by lia. f_equal. lia.
Qed.
End Bits.

(** ** Order

    The signed magnitude of a value that is not a NaN orders the format: comparing two
    values is comparing these integers. *)
Definition skey (x : f32) : Z := if f32_sign x then - magnitude x else magnitude x.

Lemma magnitude_finite m e s : f32_valid (S754_finite s m e) →
  0 < magnitude (S754_finite s m e) < 255 * 2 ^ 23.
Proof. intros Hv. apply f32_bounded in Hv as (He & Hm & Hc). cbn [magnitude]. lia. Qed.

Lemma magnitude_compare m1 e1 m2 e2 :
  bounded 24 128 m1 e1 = true → bounded 24 128 m2 e2 = true →
  ((e1 + 149) * 2 ^ 23 + Zpos m1 ?= (e2 + 149) * 2 ^ 23 + Zpos m2) =
  match e1 ?= e2 with Eq => (m1 ?= m2)%positive | c => c end.
Proof.
  intros H1%f32_bounded H2%f32_bounded.
  destruct (Z.compare_spec e1 e2) as [->|Hlt|Hgt].
  - rewrite Z.add_compare_mono_l. done.
  - apply Z.compare_lt_iff. lia.
  - apply Z.compare_gt_iff. lia.
Qed.

Lemma Zcompare_opp_swap a b : (- a ?= - b) = CompOpp (a ?= b).
Proof. rewrite Z.compare_opp. apply Z.compare_antisym. Qed.

Lemma SFcompare_skey x y : f32_valid x → f32_valid y →
  f32_is_nan x = false → f32_is_nan y = false →
  SFcompare x y = Some (skey x ?= skey y).
Proof.
  intros Hx Hy Nx Ny. unfold skey.
  assert (Mx := λ m e s (E : x = S754_finite s m e),
    magnitude_finite m e s (eq_ind x f32_valid Hx _ E)).
  assert (My := λ m e s (E : y = S754_finite s m e),
    magnitude_finite m e s (eq_ind y f32_valid Hy _ E)).
  destruct x as [[]|[]| |sx mx ex], y as [[]|[]| |sy my ey]; try done;
    try specialize (Mx _ _ _ eq_refl); try specialize (My _ _ _ eq_refl);
    try (destruct sx); try (destruct sy); cbn [f32_sign magnitude SFcompare] in *;
    f_equal; symmetry;
    first [apply Z.compare_lt_iff; lia | apply Z.compare_gt_iff; lia
          | rewrite ?Zcompare_opp_swap, magnitude_compare by (exact Hx || exact Hy);
            change (Pos.compare_cont Eq mx my) with (mx ?= my)%positive;
            destruct (ex ?= ey); done].
Qed.

Lemma f32_le_skey x y : f32_valid x → f32_valid y →
  f32_is_nan x = false → f32_is_nan y = false → f32_le x y = (skey x <=? skey y).
Proof.
  intros. unfold f32_le, SFleb. rewrite SFcompare_skey by done. unfold Z.leb.
  by destruct (skey x ?= skey y).
Qed.

Lemma f32_lt_skey x y : f32_valid x → f32_valid y →
  f32_is_nan x = false → f32_is_nan y = false → f32_lt x y = (skey x <? skey y).
Proof.
  intros. unfold f32_lt, SFltb. rewrite SFcompare_skey by done. unfold Z.ltb.
  by destruct (skey x ?= skey y).
Qed.

(** A comparison with a NaN is false. *)
Lemma f32_le_not_nan x y : f32_le x y = true → f32_is_nan x = false ∧ f32_is_nan y = false.
Proof. by destruct x, y. Qed.

Lemma f32_lt_le x y : f32_lt x y = true → f32_le x y = true.
Proof. unfold f32_lt, f32_le, SFltb, SFleb. by destruct (SFcompare x y) as [[]|]. Qed.

Lemma f32_lt_not_le x y : f32_lt x y = true → f32_le y x = false.
Proof.
  intros H. destruct (f32_le y x) eqn:E; [|done].
  destruct x as [[]|[]| |[] mx ex], y as [[]|[]| |[] my ey]; try done;
    unfold f32_lt, f32_le, SFltb, SFleb, SFcompare in *;
    rewrite (Z.compare_antisym ey ex), (Pos.compare_antisym mx my : Pos.compare_cont Eq my mx = CompOpp (Pos.compare_cont Eq mx my)) in *;
    destruct (ey ?= ex); cbn in *; try done;
    destruct (Pos.compare_cont Eq mx my); done.
Qed.
