(* ===== verification/Rounding.v ===== *)
(** * Rounding: how far an [f32] result is from the exact one

    The mantissa that [binary_round_aux] keeps is the exact one without its last digits, or the
    next: from this the bounds on division and multiplication that indices need, and the
    monotonicity of addition. Values are compared as integers over 2^-2000. *)

From S2P Require Import Prelude Float32.

Abbreviation f32_exp := (SpecFloat.fexp 24 128).

Lemma f32_exp_max d : f32_exp d = Z.max (d - 24) (-149).
Proof. reflexivity. Qed.

(** ** The kept digits *)
Lemma shr_fexp_digits m e l : 0 < m →
  shr_m (fst (SpecFloat.shr_fexp 24 128 m e l)) = m / 2 ^ Z.max 0 (f32_exp (Zdigits2 m + e) - e) ∧
  snd (SpecFloat.shr_fexp 24 128 m e l) = Z.max e (f32_exp (Zdigits2 m + e)).
Proof.
  intros Hm. unfold SpecFloat.shr_fexp, SpecFloat.shr. pose proof (shr_record_of_loc_m m l) as Hr.
  destruct (f32_exp (Zdigits2 m + e) - e) as [|p|p] eqn:En; cbn [fst snd].
  - rewrite Hr, Z.max_id, Z.pow_0_r, Z.div_1_r. split; [done|lia].
  - destruct (iter_shr_m p (shr_record_of_loc m l) ltac:(lia)) as [_ ->]. rewrite Hr, Z.max_r by lia. split; [done|lia].
  - rewrite Hr, Z.max_l, Z.pow_0_r, Z.div_1_r by lia. split; [done|lia].
Qed.

Lemma Zdigits2_range m : 0 < m → 2 ^ (Zdigits2 m - 1) <= m < 2 ^ Zdigits2 m.
Proof. intros Hm. rewrite Zdigits2_log2 by done. pose proof (Z.log2_spec m Hm). replace (Z.log2 m + 1 - 1) with (Z.log2 m) by lia. lia. Qed.

Lemma Zdigits2_below m n : 0 < m < 2 ^ n → Zdigits2 m <= n.
Proof. intros [Hm Hn]. rewrite Zdigits2_log2 by done. apply Z.log2_lt_pow2 in Hn; lia. Qed.

(** The result stands for [m / 2^(e1 - e)] or the next integer, at the exponent [e1]. *)
Lemma round_aux_spec s m e l : 0 < m → e <= f32_exp (Zdigits2 m + e) →
  let e1 := f32_exp (Zdigits2 m + e) in
  let q := m / 2 ^ (e1 - e) in
  match SpecFloat.binary_round_aux 24 128 s m e l with
  | S754_finite s' m' e' => s' = s ∧ e1 <= e' <= e1 + 1 ∧ q <= Zpos m' * 2 ^ (e' - e1) <= q + 1
  | S754_zero s' => s' = s ∧ q = 0
  | S754_infinity s' => s' = s ∧ 104 <= e1 + 1
  | S754_nan => False
  end.
Proof.
  intros Hm He e1 q. unfold SpecFloat.binary_round_aux. destruct (shr_fexp_digits m e l Hm) as [E1 E2].
  destruct (SpecFloat.shr_fexp 24 128 m e l) as [r1 x1]. cbn [fst snd] in E1, E2. rewrite Z.max_r in E1, E2 by lia. fold e1 in E1, E2. fold q in E1. subst x1.
  assert (0 < 2 ^ (e1 - e)) as Hpow by (apply Z.pow_pos_nonneg; lia).
  assert (0 <= q < 2 ^ 24) as Hq.
  { split; [apply Z.div_pos; lia|]. apply Z.div_lt_upper_bound; [done|]. eapply Z.lt_le_trans; [by apply Zdigits2_range|].
    rewrite <- Z.pow_add_r by lia. apply Z.pow_le_mono_r; [lia|]. unfold e1. rewrite f32_exp_max. lia. }
  rewrite E1. set (m2 := SpecFloat.round_nearest_even q _). assert (q <= m2 <= q + 1) as Hm2.
  { unfold m2. destruct (round_nearest_even_cases q (SpecFloat.loc_of_shr_record r1)) as [->| ->]; lia. }
  destruct (decide (m2 = 0)) as [Hz|Hz].
  { pose proof (shr_fexp_zero 24 128 e1 SpecFloat.loc_Exact) as Hs. rewrite Hz. destruct (SpecFloat.shr_fexp 24 128 0 e1 _) as [r2 x2].
    cbn [fst] in Hs. rewrite Hs. split; [done|lia]. }
  destruct (shr_fexp_digits m2 e1 SpecFloat.loc_Exact ltac:(lia)) as [F1 F2].
  destruct (SpecFloat.shr_fexp 24 128 m2 e1 _) as [r2 x2]. cbn [fst snd] in F1, F2.
  assert (m2 < 2 ^ 24 ∧ Z.max 0 (f32_exp (Zdigits2 m2 + e1) - e1) = 0 ∧ x2 = e1 ∨
          m2 = 2 ^ 24 ∧ Z.max 0 (f32_exp (Zdigits2 m2 + e1) - e1) = 1 ∧ x2 = e1 + 1) as Hc.
  { assert (-149 <= e1) by (unfold e1; rewrite f32_exp_max; lia). rewrite F2. destruct (decide (m2 = 2 ^ 24)) as [->|Hn].
    - right. rewrite !f32_exp_max. change (Zdigits2 (2 ^ 24)) with 25. lia.
    - left. assert (Zdigits2 m2 <= 24) by (apply Zdigits2_below; lia). rewrite !f32_exp_max. lia. }
  rewrite F1. destruct Hc as [(Hl & -> & ->)|(-> & -> & ->)].
  - rewrite Z.pow_0_r, Z.div_1_r. destruct m2 as [|p|p]; [lia| |lia]. destruct (Z.leb_spec e1 (128 - 24)); [|split; [done|lia]].
    split; [done|]. rewrite Z.sub_diag. lia.
  - change (2 ^ 24 / 2 ^ 1) with (Zpos 8388608). destruct (Z.leb_spec (e1 + 1) (128 - 24)); [|split; [done|lia]].
    split; [done|]. replace (e1 + 1 - e1) with 1 by lia. lia.
Qed.

(** ** Values over 2^-2000 *)
Definition scaled (m e : Z) : Z := m * 2 ^ (e + 2000).

Lemma scaled_shift m e k : 0 <= k → -2000 <= e - k → scaled (m * 2 ^ k) (e - k) = scaled m e.
Proof. intros Hk He. unfold scaled. rewrite <- Z.mul_assoc, <- Z.pow_add_r by lia. do 2 f_equal. lia. Qed.

Lemma scaled_mono m m' e : m <= m' → scaled m e <= scaled m' e.
Proof. intros Hm. unfold scaled. apply Z.mul_le_mono_nonneg_r; [by apply Z.pow_nonneg|done]. Qed.

Lemma scaled_mul m e a : scaled (a * m) e = a * scaled m e.
Proof. unfold scaled. lia. Qed.

(** A normal result is above the exact value by less than its last digit. *)
Lemma round_close s m e l : 2 ^ 23 <= m → -100 <= e → Zdigits2 m + e <= 120 →
  ∃ m' e', SpecFloat.binary_round_aux 24 128 s m e l = S754_finite s m' e' ∧ e <= e' <= 100 ∧ 2 ^ 23 <= Zpos m' < 2 ^ 24 ∧
    scaled (Zpos m') e' * 2 ^ 23 <= scaled m e * (2 ^ 23 + 1).
Proof.
  intros Hm He Hd. assert (24 <= Zdigits2 m) as H24.
  { rewrite Zdigits2_log2 by lia. assert (23 <= Z.log2 m); [|lia]. apply Z.log2_le_pow2; lia. }
  assert (f32_exp (Zdigits2 m + e) = Zdigits2 m + e - 24) as E1 by (rewrite f32_exp_max; lia).
  assert (e <= f32_exp (Zdigits2 m + e)) as Hle by (rewrite E1; lia).
  pose proof (round_aux_spec s m e l ltac:(lia) Hle) as Hr. cbv zeta in Hr. rewrite E1 in Hr.
  pose proof (binary_round_aux_valid 24 128 ltac:(lia) s m e l ltac:(lia) Hle) as Hv.
  pose proof (Zdigits2_range m ltac:(lia)) as [Hlow Hup]. set (e1 := Zdigits2 m + e - 24) in *. set (k := e1 - e) in *.
  assert (0 < 2 ^ k) as Hk by (apply Z.pow_pos_nonneg; unfold k, e1; lia).
  assert (2 ^ (Zdigits2 m - 1) = 2 ^ 23 * 2 ^ k) as Ek.
  { rewrite <- Z.pow_add_r by (unfold k, e1; lia). f_equal. unfold k, e1. lia. }
  assert (2 ^ 23 <= m / 2 ^ k) as Hq by (apply Z.div_le_lower_bound; lia).
  destruct (SpecFloat.binary_round_aux 24 128 s m e l) as [s'|s'| |s' m' e']; [lia|lia|done|].
  destruct Hr as (-> & He' & Hm'). exists m', e'. split; [done|].
  apply bounded_inv in Hv as (_ & Hv2 & Hv3 & _). change (SpecFloat.emin 24 128) with (-149) in Hv3.
  split; [unfold k, e1 in *; lia|]. split.
  { pose proof (Z.log2_spec (Zpos m') ltac:(lia)) as [Hl1 Hl2]. assert (Z.log2 (Zpos m') = 23) as El by (unfold e1 in *; lia). rewrite El in *. by split. }
  assert (Zpos m' * 2 ^ (e' - e1) * 2 ^ k <= m + 2 ^ k) as Hb.
  { pose proof (Z.mul_div_le m (2 ^ k) Hk). nia. }
  unfold scaled. replace (e' + 2000) with ((e' - e1) + k + (e + 2000)) by (unfold k; lia).
  rewrite (Z.pow_add_r 2 (e' - e1 + k)), Z.pow_add_r by (unfold k, e1 in *; lia).
  assert (0 < 2 ^ (e + 2000)) by (apply Z.pow_pos_nonneg; lia).
  assert (Zpos m' * (2 ^ (e' - e1) * 2 ^ k) * 2 ^ 23 <= m * (2 ^ 23 + 1)); [|nia]. nia.
Qed.

(** Integers of 24 digits are exact. *)
Lemma f32_of_Z_exact z : 0 < z < 2 ^ 24 → ∃ m e, f32_of_Z z = S754_finite false m e ∧ -23 <= e <= 0 ∧ 2 ^ 23 <= Zpos m < 2 ^ 24 ∧ Zpos m = z * 2 ^ (- e).
Proof.
  intros [Hz Hu]. unfold f32_of_Z. destruct z as [|p|p]; [lia| |lia]. cbn [SpecFloat.binary_normalize]. unfold SpecFloat.binary_round.
  pose proof (Zdigits2_range (Zpos p) Hz) as [Hl Hh]. pose proof (Zdigits2_below (Zpos p) 24 ltac:(lia)) as Hd.
  change (Zdigits2 (Zpos p)) with (Zpos (SpecFloat.digits2_pos p)) in *. set (d := Zpos (SpecFloat.digits2_pos p)) in *.
  assert (f32_exp (d + 0) = d - 24) as Ef by (rewrite f32_exp_max; lia). unfold SpecFloat.shl_align. rewrite Ef.
  assert (∃ n, (match d - 24 - 0 with Zneg c => (Pos.iter xO p c, d - 24) | _ => (p, 0) end) = (n, d - 24) ∧ Zpos n = Zpos p * 2 ^ (24 - d)) as (n & -> & En).
  { destruct (d - 24 - 0) as [|c|c] eqn:Ec; [|lia|].
    - exists p. split; [f_equal; lia|]. replace (24 - d) with 0 by lia. lia.
    - exists (Pos.iter xO p c). split; [done|]. rewrite iter_xO_pow. do 2 f_equal. lia. }
  assert (2 ^ 23 <= Zpos n < 2 ^ 24) as Hn.
  { rewrite En. assert (0 < 2 ^ (24 - d)) by (apply Z.pow_pos_nonneg; lia).
    assert (2 ^ (d - 1) * 2 ^ (24 - d) = 2 ^ 23) as E23 by (rewrite <- Z.pow_add_r by lia; f_equal; lia).
    assert (2 ^ d * 2 ^ (24 - d) = 2 ^ 24) as E24 by (rewrite <- Z.pow_add_r by lia; f_equal; lia). nia. }
  assert (SpecFloat.binary_round_aux 24 128 false (Zpos n) (d - 24) SpecFloat.loc_Exact = S754_finite false n (d - 24)) as Eb.
  { pose proof (binary_round_aux_exact 24 128 false (Zpos n) (d - 24) 0 ltac:(lia) ltac:(lia)) as Hx.
    rewrite Z.pow_0_r, Z.mul_1_r, Z.sub_0_r in Hx. rewrite Hx; [done| |lia]. assert (Zdigits2 (Zpos n) = 24) as ->; [|rewrite f32_exp_max; lia].
    rewrite Zdigits2_log2 by lia. assert (Z.log2 (Zpos n) = 23); [|lia]. by apply Z.log2_unique. }
  exists n, (d - 24). split; [exact Eb|]. split; [lia|]. split; [done|]. rewrite En. do 2 f_equal. lia.
Qed.

(** ** Operations on what is normal *)
Definition normal (m : positive) (e : Z) : Prop := 2 ^ 23 <= Zpos m < 2 ^ 24 ∧ -60 <= e <= 60.

Lemma normal_digits m e : normal m e → Zdigits2 (Zpos m) = 24.
Proof. intros [Hm _]. rewrite Zdigits2_log2 by lia. assert (Z.log2 (Zpos m) = 23); [|lia]. by apply Z.log2_unique. Qed.

Lemma f32_of_Z_normal z : 0 < z < 2 ^ 24 → ∃ m e, f32_of_Z z = S754_finite false m e ∧ normal m e ∧ -23 <= e <= 0 ∧ scaled (Zpos m) e = z * 2 ^ 2000.
Proof.
  intros Hz. destruct (f32_of_Z_exact z Hz) as (m & e & -> & He & Hm & Em). exists m, e. split; [done|]. split; [split; [done|lia]|]. split; [lia|].
  unfold scaled. rewrite Em, <- Z.mul_assoc, <- Z.pow_add_r by lia. do 2 f_equal. lia.
Qed.

(** A quotient of integers is above the exact one by less than its last digit. *)
Lemma div_close a b : 0 < a < 2 ^ 24 → 0 < b < 2 ^ 24 →
  ∃ m e, f32_div (f32_of_Z a) (f32_of_Z b) = S754_finite false m e ∧ normal m e ∧ b * scaled (Zpos m) e * 2 ^ 23 <= a * 2 ^ 2000 * (2 ^ 23 + 1).
Proof.
  intros Ha Hb. destruct (f32_of_Z_exact a Ha) as (ma & ea & -> & Hea & Hma & Ea), (f32_of_Z_exact b Hb) as (mb & eb & -> & Heb & Hmb & Eb).
  unfold f32_div, SpecFloat.SFdiv, SpecFloat.SFdiv_core_binary.
  rewrite (normal_digits ma ea) by (split; [done|lia]). rewrite (normal_digits mb eb) by (split; [done|lia]).
  replace (24 + ea - (24 + eb)) with (ea - eb) by lia. rewrite f32_exp_max, (Z.max_l (ea - eb - 24)), Z.min_l by lia.
  replace (ea - eb - (ea - eb - 24)) with (Zpos 24) by lia.
  rewrite Z.shiftl_mul_pow2 by lia. pose proof (Z_div_mod (Zpos ma * 2 ^ 24) (Zpos mb) ltac:(lia)) as Hqr.
  destruct (Z.div_eucl (Zpos ma * 2 ^ 24) (Zpos mb)) as [q r]. destruct Hqr as [Hq Hr].
  assert (2 ^ 23 <= q < 2 ^ 26) as Hqb by nia. assert (Zdigits2 q <= 26) by (apply Zdigits2_below; lia).
  destruct (round_close (xorb false false) q (ea - eb - 24) (SpecFloat.new_location (Zpos mb) r) ltac:(lia) ltac:(lia) ltac:(lia)) as (m & e & -> & He & Hm & Hc).
  exists m, e. split; [done|].
  assert (b * scaled q (ea - eb - 24) <= a * 2 ^ 2000) as Hexact.
  { rewrite <- scaled_mul. unfold scaled. replace (2 ^ 2000) with (2 ^ (- (ea - eb - 24)) * 2 ^ (ea - eb - 24 + 2000)) by (rewrite <- Z.pow_add_r by lia; f_equal; lia).
    rewrite Z.mul_assoc. apply Z.mul_le_mono_nonneg_r; [by apply Z.pow_nonneg|].
    apply (Z.mul_le_mono_pos_r _ _ (2 ^ (- eb))); [apply Z.pow_pos_nonneg; lia|].
    rewrite <- (Z.mul_assoc a), <- Z.pow_add_r by lia. replace (- (ea - eb - 24) + - eb) with (- ea + 24) by lia. rewrite Z.pow_add_r by lia. nia. }
  assert (e <= 60) as He60.
  { unfold scaled in Hc. (* the exponent of a quotient below 2^24 *)
    assert (0 < 2 ^ (ea - eb - 24 + 2000)) by (apply Z.pow_pos_nonneg; lia).
    destruct (decide (e <= 60)) as [|Hn]; [done|]. exfalso.
    assert (2 ^ (61 + 2000) <= 2 ^ (e + 2000)) as Hp by (apply Z.pow_le_mono_r; lia).
    assert (2 ^ (ea - eb - 24 + 2000) <= 2 ^ (2000 - 1)) as Hp2 by (apply Z.pow_le_mono_r; lia).
    rewrite Z.pow_add_r in Hp by lia. rewrite Z.pow_sub_r in Hp2 by lia. change (2 ^ 61) with 2305843009213693952 in Hp.
    assert (0 < 2 ^ 2000) by (apply Z.pow_pos_nonneg; lia). set (U := 2 ^ 2000) in *. set (V := 2 ^ (e + 2000)) in *. set (W := 2 ^ (ea - eb - 24 + 2000)) in *.
    clearbody U V W. change (U / 2 ^ 1) with (U / 2) in Hp2. assert (W <= U) by (pose proof (Z.mul_div_le U 2); lia).
    assert (8388608 * V <= Zpos m * V) by nia. assert (q * W <= 67108864 * U) by nia. lia. }
  split; [split; [done|lia]|]. apply (Z.mul_le_mono_nonneg_l _ _ b) in Hc; [|lia]. nia.
Qed.

(** A product of an integer and a normal number, likewise. *)
Lemma mul_close a m e : 0 < a < 2 ^ 24 → normal m e →
  ∃ m' e', f32_mul (f32_of_Z a) (S754_finite false m e) = S754_finite false m' e' ∧ -100 <= e' <= 100 ∧
    scaled (Zpos m') e' * 2 ^ 23 <= a * scaled (Zpos m) e * (2 ^ 23 + 1).
Proof.
  intros Ha [Hm He]. destruct (f32_of_Z_exact a Ha) as (ma & ea & -> & Hea & Hma & Ea).
  unfold f32_mul, SpecFloat.SFmul. assert (2 ^ 46 <= Zpos (ma * m) < 2 ^ 48) as Hp by (rewrite Pos2Z.inj_mul; nia).
  assert (Zdigits2 (Zpos (ma * m)) <= 48) by (apply Zdigits2_below; lia).
  destruct (round_close (xorb false false) (Zpos (ma * m)) (ea + e) SpecFloat.loc_Exact ltac:(lia) ltac:(lia) ltac:(lia)) as (m' & e' & -> & He' & Hm' & Hc).
  exists m', e'. split; [done|]. split; [lia|]. eapply Z.le_trans; [exact Hc|]. apply Z.eq_le_incl. f_equal.
  rewrite <- scaled_mul, Pos2Z.inj_mul, Ea. replace (a * 2 ^ (- ea) * Zpos m) with (a * Zpos m * 2 ^ (- ea)) by lia.
  replace (ea + e) with (e - - ea) by lia. apply scaled_shift; lia.
Qed.

(** ** Comparing, truncating, rounding to an integer *)
Lemma scaled_le m e m' e' : 2 ^ 23 <= m' → m < 2 ^ 24 → -2000 <= e < e' → scaled m e <= scaled m' e'.
Proof.
  intros Hm' Hm He. unfold scaled. replace (e' + 2000) with ((e' - e) + (e + 2000)) by lia. rewrite (Z.pow_add_r 2 (e' - e)) by lia.
  assert (2 ^ 1 <= 2 ^ (e' - e)) by (apply Z.pow_le_mono_r; lia). assert (0 < 2 ^ (e + 2000)) by (apply Z.pow_pos_nonneg; lia).
  rewrite Z.mul_assoc. apply Z.mul_le_mono_nonneg_r; [lia|]. nia.
Qed.

Lemma lt_scaled m e m' e' : normal m e → normal m' e' → f32_lt (S754_finite false m e) (S754_finite false m' e') = true →
  scaled (Zpos m) e <= scaled (Zpos m') e'.
Proof.
  intros [Hm He] [Hm' He']. unfold f32_lt, SFltb. cbn [SFcompare]. destruct (Z.compare_spec e e') as [<-|Hlt|]; [|intros _; apply scaled_le; lia|done].
  change (Pos.compare_cont Eq m m') with (m ?= m')%positive. destruct (Pos.compare_spec m m'); try done. intros _. apply scaled_mono. lia.
Qed.

Lemma to_uint_scaled hi m e : -2000 <= e → f32_to_uint hi (S754_finite false m e) = Z.min hi (scaled (Zpos m) e / 2 ^ 2000).
Proof.
  intros He. cbn [f32_to_uint]. f_equal. unfold scaled. destruct (Z.leb_spec 0 e).
  - rewrite Z.pow_add_r, Z.mul_assoc, Z.div_mul by (try apply Z.pow_nonzero; lia). done.
  - assert (2 ^ 2000 = 2 ^ (- e) * 2 ^ (e + 2000)) as Ee by (rewrite <- Z.pow_add_r by lia; f_equal; lia). rewrite Ee, Z.div_mul_cancel_r; [done|apply Z.pow_nonzero; lia..].
Qed.

Lemma to_uint_of_Z z : 0 <= z < 2 ^ 24 → f32_to_uint u32_max (f32_of_Z z) = z.
Proof.
  intros Hz. destruct (decide (z = 0)) as [->|Hn]; [done|]. destruct (f32_of_Z_normal z ltac:(lia)) as (m & e & -> & [_ He] & _ & Es).
  rewrite to_uint_scaled, Es, Z.div_mul by (try apply Z.pow_nonzero; lia). unfold u32_max. lia.
Qed.

(** Below an integer, the integer part is below it. *)
Lemma integer_part_below m e z : -2000 <= e → z < 2 ^ 24 → scaled (Zpos m) e < z * 2 ^ 2000 →
  0 <= (if 0 <=? e then Zpos m * 2 ^ e else Zpos m / 2 ^ (- e)) < z.
Proof.
  intros He Hz Hs. assert (scaled (Zpos m) e / 2 ^ 2000 < z) as Hd by (apply Z.div_lt_upper_bound; [by apply Z.pow_pos_nonneg|lia]).
  assert (0 <= scaled (Zpos m) e / 2 ^ 2000) as H0 by (apply Z.div_pos; [unfold scaled; apply Z.mul_nonneg_nonneg; [lia|by apply Z.pow_nonneg]|by apply Z.pow_pos_nonneg]).
  pose proof (to_uint_scaled (2 ^ 24) m e He) as Ht. cbn [f32_to_uint] in Ht.
  set (n := if 0 <=? e then _ else _) in *. set (q := scaled (Zpos m) e / 2 ^ 2000) in *. clearbody n q. lia.
Qed.

(** A product with a quotient has both errors. *)
Lemma two_errors a n s1 s2 c : 0 < n → n * s1 * 2 ^ 23 <= c * 2 ^ 2000 * (2 ^ 23 + 1) → s2 * 2 ^ 23 <= a * s1 * (2 ^ 23 + 1) → 0 <= a →
  n * s2 * 2 ^ 46 <= a * c * 2 ^ 2000 * (2 ^ 23 + 1) ^ 2.
Proof.
  intros Hn H1 H2 Ha. assert (0 < 2 ^ 2000) by (apply Z.pow_pos_nonneg; lia). set (U := 2 ^ 2000) in *. clearbody U.
  assert (n * (s2 * 2 ^ 23) * 2 ^ 23 <= n * (a * s1 * (2 ^ 23 + 1)) * 2 ^ 23) by nia.
  assert (a * (n * s1 * 2 ^ 23) * (2 ^ 23 + 1) <= a * (c * U * (2 ^ 23 + 1)) * (2 ^ 23 + 1)) by nia. lia.
Qed.

(** ** Addition keeps integer bounds *)

(** [n <= m * 2^e] *)
Definition at_least (n m e : Z) : Prop := if 0 <=? e then n <= m * 2 ^ e else n * 2 ^ (- e) <= m.

Lemma at_least_uint n hi m e : n <= hi → 0 <= n → at_least n (Zpos m) e ↔ n <= f32_to_uint hi (S754_finite false m e).
Proof.
  intros Hh Hn. unfold at_least. cbn [f32_to_uint]. destruct (Z.leb_spec 0 e); [lia|]. assert (0 < 2 ^ (- e)) by (apply Z.pow_pos_nonneg; lia). split.
  - intros Hm. apply Z.min_glb; [done|]. apply Z.div_le_lower_bound; lia.
  - intros Hm. assert (n <= Zpos m / 2 ^ (- e)) as Hd by lia. pose proof (Z.mul_div_le (Zpos m) (2 ^ (- e)) ltac:(lia)). nia.
Qed.

Lemma at_least_shift n m e k : 0 <= n → 0 <= k → at_least n m e → at_least n (m * 2 ^ k) (e - k).
Proof.
  unfold at_least. intros Hn Hk. destruct (Z.leb_spec 0 e), (Z.leb_spec 0 (e - k)); intros H1; try lia.
  - rewrite <- Z.mul_assoc, <- Z.pow_add_r by lia. replace (k + (e - k)) with e by lia. done.
  - replace (2 ^ k) with (2 ^ e * 2 ^ (- (e - k))) by (rewrite <- Z.pow_add_r by lia; f_equal; lia).
    assert (0 < 2 ^ (- (e - k))) by (apply Z.pow_pos_nonneg; lia). nia.
  - replace (- (e - k)) with (- e + k) by lia. rewrite Z.pow_add_r by lia. assert (0 < 2 ^ k) by (apply Z.pow_pos_nonneg; lia). nia.
Qed.

Lemma at_least_mono n m m' e : m <= m' → at_least n m e → at_least n m' e.
Proof. unfold at_least. intros Hm. destruct (Z.leb_spec 0 e); [|lia]. assert (0 < 2 ^ e) by (apply Z.pow_pos_nonneg; lia). nia. Qed.

(** Rounding does not go below an integer of 23 digits. *)
Lemma round_at_least n hi m e : 0 < m → e <= f32_exp (Zdigits2 m + e) → 0 <= n <= 2 ^ 23 → n <= hi → at_least n m e →
  n <= f32_to_uint hi (SpecFloat.binary_round_aux 24 128 false m e SpecFloat.loc_Exact).
Proof.
  intros Hm He Hn Hh Ha. pose proof (round_aux_spec false m e SpecFloat.loc_Exact Hm He) as Hr. cbv zeta in Hr.
  set (f := f32_exp (Zdigits2 m + e)) in *. assert (0 < 2 ^ (f - e)) as Hp by (apply Z.pow_pos_nonneg; lia).
  assert (at_least n (m / 2 ^ (f - e)) f) as Hq.
  { unfold at_least in *. destruct (Z.leb_spec 0 f) as [Hf|Hf].
    - assert (2 ^ 23 <= m / 2 ^ (f - e)) as Hbig.
      { apply Z.div_le_lower_bound; [done|]. rewrite Z.mul_comm, <- Z.pow_add_r by lia. pose proof (Zdigits2_range m Hm) as [Hl _].
        eapply Z.le_trans; [|exact Hl]. apply Z.pow_le_mono_r; [lia|]. unfold f in *. rewrite f32_exp_max in *. lia. }
      assert (1 <= 2 ^ f) by (apply (Z.pow_le_mono_r 2 0); lia). nia.
    - destruct (Z.leb_spec 0 e); [lia|]. apply Z.div_le_lower_bound; [done|]. rewrite (Z.mul_comm (2 ^ (f - e))), <- Z.mul_assoc, <- Z.pow_add_r by lia.
      by replace (- f + (f - e)) with (- e) by lia. }
  destruct (SpecFloat.binary_round_aux 24 128 false m e SpecFloat.loc_Exact) as [s|s| |s m' e']; cbn [f32_to_uint].
  - destruct Hr as [_ Hz]. rewrite Hz in Hq. unfold at_least in Hq. destruct (Z.leb_spec 0 f); [lia|]. assert (0 < 2 ^ (- f)) by (apply Z.pow_pos_nonneg; lia). nia.
  - by destruct Hr as [-> _].
  - done.
  - destruct Hr as (-> & He' & Hlow & _). change (if 0 <=? e' then _ else _) with (if 0 <=? e' then Zpos m' * 2 ^ e' else Zpos m' / 2 ^ (- e')).
    apply (at_least_uint n hi m' e'); [done|lia|]. apply (at_least_mono _ _ _ _ Hlow) in Hq.
    destruct (Z.eq_dec e' f) as [->|Hne]; [by rewrite Z.sub_diag, Z.pow_0_r, Z.mul_1_r in Hq|]. assert (e' = f + 1) as -> by lia.
    replace (f + 1 - f) with 1 in Hq by lia. unfold at_least in *. destruct (Z.leb_spec 0 f), (Z.leb_spec 0 (f + 1)); try lia.
    + rewrite Z.pow_add_r by lia. lia.
    + replace f with (-1) in * by lia. cbn in *. lia.
    + replace (- f) with (- (f + 1) + 1) in Hq by lia. rewrite Z.pow_add_r in Hq by lia. lia.
Qed.

Lemma normalize_at_least n hi m e : 0 < m → 0 <= n <= 2 ^ 23 → n <= hi → at_least n m e →
  n <= f32_to_uint hi (SpecFloat.binary_normalize 24 128 m e false).
Proof.
  intros Hm Hn Hh Ha. destruct m as [|p|p]; [lia| |lia]. cbn [SpecFloat.binary_normalize]. unfold SpecFloat.binary_round, SpecFloat.shl_align.
  change (Zpos (SpecFloat.digits2_pos p)) with (Zdigits2 (Zpos p)). destruct (f32_exp (Zdigits2 (Zpos p) + e) - e) as [|c|c] eqn:Ec.
  1-2: apply round_at_least; try done; lia.
  apply round_at_least; [lia| |done|done|].
  - rewrite iter_xO_pow, (Zdigits2_log2 (Zpos p * _)), Z.log2_mul_pow2 by (try apply Z.mul_pos_pos; lia || apply Z.pow_pos_nonneg; lia).
    rewrite Zdigits2_log2 in Ec |- * by lia.
    replace (Zpos c + Z.log2 (Zpos p) + 1 + f32_exp (Z.log2 (Zpos p) + 1 + e)) with (Z.log2 (Zpos p) + 1 + e) by lia. lia.
  - rewrite iter_xO_pow. replace (f32_exp (Zdigits2 (Zpos p) + e)) with (e - Zpos c) by lia. by apply at_least_shift; [lia..|].
Qed.

Lemma shl_align_value m e e' : e' <= e → Zpos (fst (SpecFloat.shl_align m e e')) = Zpos m * 2 ^ (e - e').
Proof.
  intros He. unfold SpecFloat.shl_align. destruct (e' - e) as [|c|c] eqn:Ec; cbn [fst]; [|lia|].
  - replace (e - e') with 0 by lia. lia.
  - rewrite iter_xO_pow. do 2 f_equal. lia.
Qed.

Lemma to_uint_nonneg hi x : 0 <= hi → 0 <= f32_to_uint hi x.
Proof.
  intros Hh. destruct x as [[]|[]| |[] m e]; cbn; try lia. apply Z.min_glb; [done|].
  destruct (0 <=? e); [apply Z.mul_nonneg_nonneg; [lia|by apply Z.pow_nonneg]|apply Z_div_nonneg_nonneg; [lia|by apply Z.pow_nonneg]].
Qed.

(** What is added to a number that is not negative does not take it below an integer. *)
Lemma add_at_least hi n x y : f32_le f32_zero x = true → f32_le f32_zero y = true → 0 <= n <= 2 ^ 23 → n <= hi →
  n <= f32_to_uint hi x → n <= f32_to_uint hi (f32_add x y).
Proof.
  intros Hx Hy Hn Hh Hu. destruct (decide (n <= 0)) as [Hn0|Hn0]; [pose proof (to_uint_nonneg hi (f32_add x y)); lia|].
  destruct x as [[]|[]| |[] m e], y as [[]|[]| |[] m' e']; try done; cbn [f32_to_uint] in Hu; try (cbn; lia); try done.
  unfold f32_add, SpecFloat.SFadd. cbn [SpecFloat.cond_Zopp]. rewrite !shl_align_value by lia.
  assert (0 < Zpos m * 2 ^ (e - Z.min e e')) by (apply Z.mul_pos_pos; [lia|apply Z.pow_pos_nonneg; lia]).
  assert (0 < Zpos m' * 2 ^ (e' - Z.min e e')) by (apply Z.mul_pos_pos; [lia|apply Z.pow_pos_nonneg; lia]).
  apply normalize_at_least; [lia|done|done|]. apply (at_least_mono _ (Zpos m * 2 ^ (e - Z.min e e'))); [lia|].
  pose proof (at_least_shift n (Zpos m) e (e - Z.min e e') ltac:(lia) ltac:(lia)) as Hs. replace (e - (e - Z.min e e')) with (Z.min e e') in Hs by lia.
  apply Hs, (at_least_uint n hi); [done|lia|exact Hu].
Qed.
