(* ===== verification/Types.v ===== *)
(** * Core data types ([crates/facelock-core/src/types.rs])

    The records every component shares, and the zeroizing guard [Wiped]: plaintext
    embeddings are overwritten before the memory holding them is given back. *)

From S2P Require Import Prelude Float32.

(** ** Face data *)

(** 512-dimensional embedding; Rust fixes the length in the type [[f32; 512]]. *)
Definition FaceEmbedding : Type := list f32.
Definition EMBEDDING_LEN : nat := 512.
Definition wf_embedding (e : FaceEmbedding) : Prop :=
  length e = EMBEDDING_LEN ∧ Forall f32_valid e.

Record BoundingBox := {
  bbox_x : f32;
  bbox_y : f32;
  bbox_width : f32;
  bbox_height : f32;
}.

Record Point2D := { pt_x : f32; pt_y : f32 }.

(** [landmarks] has five points. *)
Record Detection := {
  bbox : BoundingBox;
  confidence : f32;
  landmarks : list Point2D;
}.

(** Pixels are bytes, as [Z] in [0, 255]. *)
Record Frame := {
  rgb : list Z;
  gray : list Z;
  width : Z;
  height : Z;
}.

(** [Drop for Frame]: [Vec::zeroize] overwrites the bytes and empties the vector. *)
Definition frame_drop (f : Frame) : Frame :=
  {| rgb := []; gray := []; width := width f; height := height f |}.

Definition zeroize_embedding (e : FaceEmbedding) : FaceEmbedding :=
  replicate (length e) f32_zero.

Definition zeroize_stored_embeddings (stored : list (Z * FaceEmbedding)) :
    list (Z * FaceEmbedding) :=
  map (λ '(id, emb), (id, zeroize_embedding emb)) stored.

(** ** The wiping guard *)

(** [trait WipeElement]: [wipe] zeroizes the secret part of an element. *)
Class WipeElement (E : Type) := {
  wipe : E → E;
  secret : E → FaceEmbedding;
  wipe_secret e : secret (wipe e) = replicate (length (secret e)) f32_zero;
}.

#[export, refine] Instance wipe_stored : WipeElement (Z * FaceEmbedding) := {|
  wipe '(id, emb) := (id, zeroize_embedding emb);
  secret e := e.2;
|}.
Proof. by intros [id emb]. Defined.

#[export, refine] Instance wipe_embedding : WipeElement FaceEmbedding := {|
  wipe := zeroize_embedding;
  secret e := e;
|}.
Proof. done. Defined.

#[export, refine] Instance wipe_detected : WipeElement (Detection * FaceEmbedding) := {|
  wipe '(d, emb) := (d, zeroize_embedding emb);
  secret e := e.2;
|}.
Proof. by intros [d emb]. Defined.

(** An element whose secret part holds only zeros. *)
Definition wiped `{WipeElement E} (e : E) : Prop := Forall (λ x, x = f32_zero) (secret e).

Lemma wiped_wipe `{WipeElement E} (e : E) : wiped (wipe e).
Proof.
  unfold wiped. rewrite wipe_secret. apply Forall_replicate. done.
Qed.
#[export] Hint Resolve wiped_wipe : facelock.

(** A [Vec<E>]: its elements and its capacity.  Operations return the contents of every
    allocation they give back to the allocator. *)
Record vec (E : Type) := mk_vec { elems : list E; cap : nat }.
Arguments mk_vec {E} _ _.
Arguments elems {E} _.
Arguments cap {E} _.

Definition vec_with_capacity {E} (n : nat) : vec E := mk_vec [] n.

(** [Vec::push]: a full vector reallocates and frees the outgrown buffer as it is. *)
Definition vec_push {E} (v : vec E) (e : E) : vec E * list (list E) :=
  if (length (elems v) <? cap v)%nat then (mk_vec (elems v ++ [e]) (cap v), [])
  else (mk_vec (elems v ++ [e]) (Nat.max 4 (cap v * 2)), [elems v]).

Section Wiped.
Context {E : Type} `{WipeElement E}.

Definition push_wiping (buf : vec E) (element : E) : vec E * list (list E) :=
  if (length (elems buf) =? cap buf)%nat then
    let grown := mk_vec (elems buf) (Nat.max (cap buf * 2) 4) in
    let old := map wipe (elems buf) in
    let '(buf', freed) := vec_push grown element in
    (buf', old :: freed)
  else vec_push buf element.

(** [Wiped::with_capacity] and [Wiped::push] *)
Definition wiped_with_capacity (n : nat) : vec E := vec_with_capacity n.
Definition wiped_push (g : vec E) (e : E) : vec E * list (list E) := push_wiping g e.

(** A run of pushes through one guard, with everything it frees. *)
Definition wiped_push_all (g : vec E) (es : list E) : vec E * list (list E) :=
  fold_left (λ '(g, freed) e, let '(g', f) := wiped_push g e in (g', freed ++ f)) es (g, []).

(** [Drop for Wiped]: wipe every element, then the buffer is freed. *)
Definition wiped_drop (g : vec E) : list E := map wipe (elems g).

Definition vec_ok (v : vec E) : Prop := (length (elems v) ≤ cap v)%nat.

Lemma push_wiping_spec g e g' freed :
  vec_ok g → push_wiping g e = (g', freed) →
  elems g' = elems g ++ [e] ∧ vec_ok g' ∧ (cap g ≤ cap g')%nat ∧
  Forall (Forall wiped) freed ∧ ((length (elems g) < cap g)%nat → freed = [] ∧ cap g' = cap g).
Proof.
  unfold vec_ok, push_wiping, vec_push. intros Hg.
  destruct (Nat.eqb_spec (length (elems g)) (cap g)) as [He|He]; cbn [elems cap].
  - rewrite (proj2 (Nat.ltb_lt _ _)) by lia. intros [= <- <-]. cbn. rewrite length_app. cbn.
    split_and!; [done|lia|lia| |lia].
    constructor; [|done]. apply Forall_map, Forall_true. intros x. apply wiped_wipe.
  - rewrite (proj2 (Nat.ltb_lt _ _)) by lia. intros [= <- <-]. cbn. rewrite length_app. cbn.
    split_and!; [done|lia|lia|constructor|done].
Qed.

Lemma wiped_push_all_acc es g freed :
  fold_left (λ '(g, freed) e, let '(g', f) := wiped_push g e in (g', freed ++ f)) es (g, freed) =
  let '(g', f) := wiped_push_all g es in (g', freed ++ f).
Proof.
  unfold wiped_push_all. revert g freed. induction es as [|e es IH]; intros g freed; cbn.
  - by rewrite app_nil_r.
  - destruct (wiped_push g e) as [g1 f1]. rewrite IH, (IH g1 f1).
    destruct (fold_left _ es (g1, [])) as [g2 f2]. by rewrite app_assoc.
Qed.

Lemma wiped_push_all_spec es g g' freed :
  vec_ok g → wiped_push_all g es = (g', freed) →
  elems g' = elems g ++ es ∧ vec_ok g' ∧ Forall (Forall wiped) freed ∧
  ((length (elems g) + length es ≤ cap g)%nat → freed = []).
Proof.
  revert g g' freed. induction es as [|e es IH]; intros g g' freed Hg Hp.
  - cbn in Hp. simplify_eq. rewrite app_nil_r. done.
  - cbn in Hp. destruct (wiped_push g e) as [g1 f1] eqn:E1.
    rewrite wiped_push_all_acc in Hp. destruct (wiped_push_all g1 es) as [g2 f2] eqn:E2.
    simplify_eq. cbn in *.
    destruct (push_wiping_spec _ _ _ _ Hg E1) as (Ha & Hb & Hc & Hd & Hf).
    destruct (IH _ _ _ Hb E2) as (Ia & Ib & Ic & Id).
    split_and!.
    + rewrite Ia, Ha, <- app_assoc. done.
    + done.
    + by apply Forall_app.
    + intros Hl. destruct Hf as [-> Hcap]; [lia|]. rewrite Id; [done|].
      rewrite Ha, length_app. cbn. lia.
Qed.
End Wiped.

(** Every allocation the wiping guard gives back — each outgrown buffer and the final
    one freed on drop — holds only zeroized embeddings; the guard holds exactly the pushed
    elements until then, and pushing no more than the capacity it was created with never
    reallocates at all. *)
Theorem wiped_guard_frees_no_plaintext {E} `{WipeElement E} (n : nat) (es : list E) g freed :
  wiped_push_all (wiped_with_capacity n) es = (g, freed) →
  elems g = es ∧
  Forall (Forall wiped) (freed ++ [wiped_drop g]) ∧
  ((length es ≤ n)%nat → freed = []).
Proof.
  intros Hp. destruct (wiped_push_all_spec es (wiped_with_capacity n) g freed)
    as (He & _ & Hf & Hc); [apply Nat.le_0_l|done|].
  split; [done|]. split; [|done].
  apply Forall_app. split; [done|]. constructor; [|done].
  apply Forall_map, Forall_true. intros x. apply wiped_wipe.
Qed.

(** Five pushes into a guard created for two elements: it grows and wipes on the way. *)
Lemma wiped_guard_frees_no_plaintext_witness :
  let es := map (λ i, (Z.of_nat i, [f32_one])) (seq 1 5) in
  let '(g, freed) := wiped_push_all (wiped_with_capacity 2) es in
  length freed = 2%nat ∧ elems g = es ∧ Forall (Forall wiped) (freed ++ [wiped_drop g]).
Proof.
  split; [reflexivity|].
  destruct (wiped_guard_frees_no_plaintext 2 (map (λ i, (Z.of_nat i, [f32_one])) (seq 1 5))
    _ _ eq_refl) as (He & Hf & _).
  exact (conj He Hf).
Defined.
