(* ===== verification/Matching.v ===== *)
(** * Comparing embeddings ([crates/facelock-core/src/types.rs])

    Cosine similarity, the frame-variance liveness gate with its ring buffer, and the
    constant-time search for the best stored template. *)

From S2P Require Import Prelude Float32 Types.

(** ** Similarity and the batch variance check *)

(** [a.iter().zip(b.iter()).map(|(x, y)| x * y).sum()] *)
Definition cosine_similarity (a b : FaceEmbedding) : f32 := f32_sum (zip_with f32_mul a b).

Definition DEFAULT_FRAME_VARIANCE_MAX_SIMILARITY : f32 := f32_lit 985 1000.

Definition check_frame_variance (embeddings : list FaceEmbedding) (max_similarity : f32) : bool :=
  if (length embeddings <? 2)%nat then false
  else forallb (λ '(a, b), negb (f32_gt (cosine_similarity a b) max_similarity))
         (windows2 embeddings).

(** ** The sliding window *)
Record FrameVarianceWindow := {
  slots : list FaceEmbedding;
  capacity : nat;
  next : nat;
}.

Definition window_new (min_auth_frames : Z) : FrameVarianceWindow :=
  {| slots := []; capacity := Nat.max (Z.to_nat min_auth_frames) 2; next := 0 |}.

Definition window_push (w : FrameVarianceWindow) (e : FaceEmbedding) : FrameVarianceWindow :=
  if (length (slots w) <? capacity w)%nat then
    let slots' := slots w ++ [e] in
    {| slots := slots'; capacity := capacity w; next := length slots' mod capacity w |}
  else
    let slots1 := alter zeroize_embedding (next w) (slots w) in
    {| slots := <[next w := e]> slots1;
       capacity := capacity w;
       next := (next w + 1) mod capacity w |}.

Definition window_len (w : FrameVarianceWindow) : nat := length (slots w).
Definition window_is_full (w : FrameVarianceWindow) : bool :=
  (length (slots w) =? capacity w)%nat.

Definition index_at (w : FrameVarianceWindow) (chrono : nat) : nat :=
  if (length (slots w) <? capacity w)%nat then chrono
  else (next w + chrono) mod capacity w.

(** [self.slots[i]]; the index is in range by [index_at_lt]. *)
Definition slot (w : FrameVarianceWindow) (i : nat) : FaceEmbedding :=
  match slots w !! i with Some e => e | None => [] end.

Definition pair_similarities (w : FrameVarianceWindow) : list f32 :=
  map (λ i, cosine_similarity (slot w (index_at w (i - 1))) (slot w (index_at w i)))
    (seq 1 (length (slots w) - 1)).

Definition min_max_pair_similarity (w : FrameVarianceWindow) : option (f32 * f32) :=
  match pair_similarities w with
  | [] => None
  | first :: rest =>
      Some (fold_left (λ '(mn, mx) s, (f32_min mn s, f32_max mx s)) rest (first, first))
  end.

Definition passes (w : FrameVarianceWindow) (max_similarity : f32) : bool :=
  window_is_full w && forallb (λ s, f32_le s max_similarity) (pair_similarities w).

Definition zeroize_all (w : FrameVarianceWindow) : FrameVarianceWindow :=
  {| slots := []; capacity := capacity w; next := 0 |}.

(** ** Invariant and abstraction of the window

    The ring buffer refines "the most recent [capacity] embeddings, oldest first". *)
Definition wf_window (w : FrameVarianceWindow) : Prop :=
  (2 ≤ capacity w)%nat ∧ (length (slots w) ≤ capacity w)%nat ∧
  if (length (slots w) <? capacity w)%nat then next w = length (slots w)
  else (next w < capacity w)%nat.

Definition chronological (w : FrameVarianceWindow) : list FaceEmbedding :=
  map (λ i, slot w (index_at w i)) (seq 0 (length (slots w))).

(** The last [n] elements of a list. *)
Definition last_n {A} (n : nat) (l : list A) : list A := drop (length l - n) l.

Lemma index_at_lt w i : wf_window w → (i < length (slots w))%nat →
  (index_at w i < length (slots w))%nat.
Proof.
  unfold wf_window, index_at. intros (Hc & Hl & Hn) Hi.
  destruct (Nat.ltb_spec (length (slots w)) (capacity w)); [done|].
  assert (length (slots w) = capacity w) as -> by lia. apply Nat.mod_upper_bound. lia.
Qed.

Lemma window_new_wf n : wf_window (window_new n).
Proof.
  unfold wf_window, window_new. cbn [slots capacity next length].
  rewrite (proj2 (Nat.ltb_lt _ _)) by lia. lia.
Qed.

Lemma window_push_wf w e : wf_window w → wf_window (window_push w e).
Proof.
  unfold wf_window, window_push. intros (Hc & Hl & Hn).
  destruct (Nat.ltb_spec (length (slots w)) (capacity w)) as [Hlt|Hge]; cbn [slots capacity next length].
  - rewrite length_app. cbn [length]. split; [lia|]. split; [lia|].
    destruct (Nat.ltb_spec (length (slots w) + 1) (capacity w)).
    + rewrite Nat.mod_small by lia. done.
    + replace (length (slots w) + 1)%nat with (capacity w) by lia.
      rewrite Nat.Div0.mod_same. lia.
  - rewrite length_insert, length_alter. rewrite (proj2 (Nat.ltb_ge _ _)) by lia.
    split; [lia|]. split; [lia|]. apply Nat.mod_upper_bound. lia.
Qed.
#[export] Hint Resolve window_new_wf window_push_wf : facelock.

(** Not full: the slots are the chronological list itself. *)
Lemma chronological_filling w : (length (slots w) < capacity w)%nat → chronological w = slots w.
Proof.
  intros Hlt. unfold chronological, slot, index_at. rewrite (proj2 (Nat.ltb_lt _ _)) by done.
  apply list_eq. intros i. rewrite list_lookup_fmap.
  destruct (decide (i < length (slots w))%nat) as [Hi|Hi].
  - rewrite lookup_seq_lt by done. destruct (lookup_lt_is_Some_2 (slots w) i Hi) as [x Hx].
    simpl. by rewrite Hx.
  - rewrite lookup_seq_ge, lookup_ge_None_2 by lia. done.
Qed.

(** Full: a rotation of the slots that starts at [next]. *)
Lemma chronological_full w : wf_window w → length (slots w) = capacity w →
  chronological w = drop (next w) (slots w) ++ take (next w) (slots w).
Proof.
  intros (Hc & Hl & Hn) Hf. rewrite (proj2 (Nat.ltb_ge _ _)) in Hn by lia.
  unfold chronological, slot, index_at. rewrite (proj2 (Nat.ltb_ge _ _)) by lia.
  apply list_eq. intros i. rewrite list_lookup_fmap.
  destruct (decide (i < capacity w)%nat) as [Hi|Hi].
  - rewrite lookup_seq_lt by lia. simpl.
    destruct (decide (next w + i < capacity w)%nat).
    + rewrite Nat.mod_small, lookup_app_l, lookup_drop by (rewrite ?length_drop; lia).
      destruct (lookup_lt_is_Some_2 (slots w) (next w + i)) as [x ->]; [lia|done].
    + rewrite lookup_app_r, length_drop, lookup_take_lt by (rewrite ?length_drop; lia).
      replace ((next w + i) mod capacity w)%nat with (i - (length (slots w) - next w))%nat.
      * destruct (lookup_lt_is_Some_2 (slots w) (i - (length (slots w) - next w))) as [x ->]; [lia|done].
      * rewrite Hf. replace (next w + i)%nat with ((next w + i - capacity w) + 1 * capacity w)%nat by lia.
        rewrite Nat.Div0.mod_add, Nat.mod_small by lia. lia.
  - rewrite lookup_seq_ge by lia. symmetry. apply lookup_ge_None_2.
    rewrite length_app, length_drop, length_take. lia.
Qed.

Lemma length_chronological w : length (chronological w) = length (slots w).
Proof. unfold chronological. by rewrite length_map, length_seq. Qed.

Lemma chronological_push w e : wf_window w →
  chronological (window_push w e) = last_n (capacity w) (chronological w ++ [e]).
Proof.
  intros Hwf. pose proof (window_push_wf w e Hwf) as Hwf'.
  destruct Hwf as (Hc & Hl & Hn) eqn:Ewf. clear Ewf.
  unfold last_n. rewrite length_app, length_chronological. cbn [length].
  destruct (Nat.ltb_spec (length (slots w)) (capacity w)) as [Hlt|Hge].
  - rewrite (chronological_filling w) by done.
    replace (length (slots w) + 1 - capacity w)%nat with 0%nat by lia. rewrite drop_0.
    unfold window_push in *. rewrite (proj2 (Nat.ltb_lt _ _)) in * by done.
    destruct (decide (length (slots w) + 1 < capacity w)%nat).
    + apply chronological_filling. cbn [slots capacity]. rewrite length_app. cbn [length]. lia.
    + rewrite chronological_full by (exact Hwf' || (cbn [slots capacity]; rewrite length_app; cbn [length]; lia)).
      cbn [slots next]. rewrite length_app. cbn [length].
      replace (length (slots w) + 1)%nat with (capacity w) by lia.
      rewrite Nat.Div0.mod_same, drop_0, app_nil_r. done.
  - assert (Hf : length (slots w) = capacity w) by lia.
    rewrite (chronological_full w) by (repeat split; rewrite ?(proj2 (Nat.ltb_ge _ _)) by lia; done).
    replace (length (slots w) + 1 - capacity w)%nat with 1%nat by lia.
    unfold window_push in *. rewrite (proj2 (Nat.ltb_ge _ _)) in * by lia.
    rewrite chronological_full by (exact Hwf' || (cbn [slots capacity]; rewrite length_insert, length_alter; done)).
    cbn [slots next].
    set (n := next w) in *. set (l := slots w) in *.
    assert (Hsp : <[n:=e]> (alter zeroize_embedding n l) = take n l ++ e :: drop (S n) l).
    { rewrite insert_take_drop by (rewrite length_alter; lia).
      rewrite take_alter_ge, drop_alter_lt by lia. done. }
    rewrite Hsp.
    rewrite (drop_S l (slot w n) n)
      by (unfold slot; fold l n; destruct (lookup_lt_is_Some_2 l n) as [x ->]; [lia|done]).
    cbn [app drop].
    rewrite <- app_assoc. 
    destruct (decide (n + 1 = capacity w)%nat) as [E|E].
    + rewrite E, Nat.Div0.mod_same, drop_0, app_nil_r.
      rewrite (drop_ge l (S n)) by lia. done.
    + rewrite Nat.mod_small by lia.
      rewrite drop_app_ge, length_take, take_app_ge, length_take by (rewrite length_take; lia).
      replace (n + 1 - n `min` length l)%nat with 1%nat by lia. cbn.
      rewrite drop_0, take_0. done.
Qed.

(** ** The window's specification *)
Lemma windows2_map_seq {A} (f : nat → A) s n :
  windows2 (map f (seq s n)) = map (λ i, (f (i - 1)%nat, f i)) (seq (S s) (n - 1)).
Proof.
  revert s. induction n as [|n IH]; intros s; [done|].
  destruct n as [|n]; [done|].
  change (windows2 (map f (seq s (S (S n)))))
    with ((f s, f (S s)) :: windows2 (map f (seq (S s) (S n)))).
  rewrite IH. replace (S (S n) - 1)%nat with (S n) by lia. cbn [seq map].
  replace (S s - 1)%nat with s by lia. by replace (S n - 1)%nat with n by lia.
Qed.

Lemma pair_similarities_chronological w :
  pair_similarities w = map (λ '(a, b), cosine_similarity a b) (windows2 (chronological w)).
Proof. unfold pair_similarities, chronological. by rewrite windows2_map_seq, map_map. Qed.

Lemma last_n_snoc {A} n (l : list A) x : last_n n (last_n n l ++ [x]) = last_n n (l ++ [x]).
Proof.
  unfold last_n. rewrite !length_app, length_drop. cbn [length].
  destruct (decide (length l ≤ n)%nat) as [H|H].
  - replace (length l - n)%nat with 0%nat by lia. by rewrite drop_0, Nat.sub_0_r.
  - replace (length l - (length l - n) + 1 - n)%nat with 1%nat by lia.
    replace (length l + 1 - n)%nat with (S (length l - n)) by lia.
    rewrite <- (drop_app_le l [x]) by lia.
    rewrite drop_drop. f_equal. lia.
Qed.

Definition window_push_all (w : FrameVarianceWindow) (es : list FaceEmbedding) :=
  fold_left window_push es w.

Lemma window_push_all_spec es w : wf_window w →
  wf_window (window_push_all w es) ∧ capacity (window_push_all w es) = capacity w ∧
  (chronological w = last_n (capacity w) (chronological w) →
   chronological (window_push_all w es) = last_n (capacity w) (chronological w ++ es)).
Proof.
  revert w. induction es as [|e es IH]; intros w Hw; cbn [window_push_all fold_left].
  - by rewrite app_nil_r.
  - destruct (IH (window_push w e) (window_push_wf w e Hw)) as (Hw' & Hc & Hl).
    assert (Hcap : capacity (window_push w e) = capacity w)
      by (unfold window_push; by destruct (_ <? _)%nat).
    rewrite Hcap in *. split; [done|]. split; [done|]. intros _.
    change (fold_left window_push es (window_push w e)) with (window_push_all (window_push w e) es).
    rewrite Hl; rewrite chronological_push by done.
    + clear. induction es as [|x es IH] using rev_ind; [by rewrite !app_nil_r; unfold last_n; rewrite length_drop, drop_drop; f_equal; lia|].
      rewrite (app_assoc (last_n _ _)), <- last_n_snoc, IH, last_n_snoc.
      f_equal. rewrite <- !app_assoc. done.
    + unfold last_n. rewrite length_drop, drop_drop. f_equal. lia.
Qed.

Lemma window_recent n es :
  let w := window_push_all (window_new n) es in
  wf_window w ∧ capacity w = Nat.max (Z.to_nat n) 2 ∧
  chronological w = last_n (capacity w) es.
Proof.
  cbn zeta. destruct (window_push_all_spec es (window_new n) (window_new_wf n)) as (Hw & Hc & Hl).
  rewrite Hc. split; [done|]. split; [done|]. rewrite Hl by done. done.
Qed.

Lemma passes_recent n es max_similarity :
  let k := Nat.max (Z.to_nat n) 2 in
  passes (window_push_all (window_new n) es) max_similarity =
    ((k <=? length es)%nat &&
     forallb (λ '(a, b), f32_le (cosine_similarity a b) max_similarity) (windows2 (last_n k es))).
Proof.
  cbn zeta. destruct (window_recent n es) as (Hw & Hc & Hl).
  set (w := window_push_all (window_new n) es) in *. rewrite Hc in Hl.
  unfold passes, window_is_full. rewrite pair_similarities_chronological, Hl, forallb_map, Hc.
  rewrite <- length_chronological, Hl.
  f_equal.
  - unfold last_n. rewrite length_drop. apply eq_true_iff_eq. rewrite Nat.eqb_eq, Nat.leb_le. lia.
  - apply forallb_ext. by intros [].
Qed.

(** C2.  The variance window is the last [max(min_auth_frames, 2)] matched embeddings in
    the order they were pushed, whatever the ring buffer's wrap-around: after any sequence
    of pushes its chronological reading is that suffix, and the gate passes exactly when
    that many frames have been pushed and every consecutive pair of the suffix has a
    similarity at or below the cutoff. *)
Theorem variance_window_refines_recent_frames n es max_similarity :
  let w := window_push_all (window_new n) es in
  let k := Nat.max (Z.to_nat n) 2 in
  chronological w = last_n k es ∧
  passes w max_similarity =
    ((k <=? length es)%nat &&
     forallb (λ '(a, b), f32_le (cosine_similarity a b) max_similarity) (windows2 (last_n k es))).
Proof.
  cbn zeta. split; [|apply passes_recent].
  destruct (window_recent n es) as (_ & Hc & Hl). by rewrite <- Hc.
Qed.

Lemma windows2_drop {A} n (l : list A) p : p ∈ windows2 (drop n l) → p ∈ windows2 l.
Proof.
  revert l. induction n as [|n IH]; intros l; [done|]. destruct l as [|x l]; [done|].
  cbn [drop]. intros Hp%IH. destruct l as [|y l]; [done|]. cbn [windows2]. by apply elem_of_cons; right.
Qed.

(** A static input never satisfies the variance gate, however long the session: if no
    consecutive pair of matched frames has a similarity at or below the cutoff, no window
    of them passes. *)
Theorem static_input_never_passes n es max_similarity :
  (∀ a b, (a, b) ∈ windows2 es → f32_le (cosine_similarity a b) max_similarity = false) →
  passes (window_push_all (window_new n) es) max_similarity = false.
Proof.
  intros Hstat. destruct (window_recent n es) as (Hw & Hc & Hl).
  unfold passes, window_is_full. set (w := window_push_all (window_new n) es) in *.
  destruct (Nat.eqb_spec (length (slots w)) (capacity w)) as [Hf|]; [|done].
  rewrite pair_similarities_chronological, forallb_map, Hl.
  destruct (windows2 (last_n (capacity w) es)) as [|[a b] ps] eqn:Ep.
  - exfalso. apply (f_equal length) in Ep. rewrite length_windows2, <- Hl, length_chronological in Ep.
    destruct Hw as [Hcap _]. cbn in Ep. lia.
  - cbn. rewrite Hstat; [done|]. apply (windows2_drop (length es - capacity w)).
    unfold last_n in Ep. rewrite Ep. by left.
Qed.

(** Three copies of one unit vector: the pair similarity is 1, above the default cutoff. *)
Lemma static_input_never_passes_witness :
  passes (window_push_all (window_new 3) (replicate 3 [f32_one]))
    DEFAULT_FRAME_VARIANCE_MAX_SIMILARITY = false.
Proof.
  apply (static_input_never_passes 3 (replicate 3 [f32_one]) DEFAULT_FRAME_VARIANCE_MAX_SIMILARITY).
  intros a b Hab. cbn in Hab.
  repeat (apply elem_of_cons in Hab as [[= -> ->]|Hab]; [vm_compute; reflexivity|]).
  by apply elem_of_nil in Hab.
Defined.

(** The batch check agrees with the window's gate on any full window whose similarities
    are not NaN. *)
Lemma passes_check_frame_variance w max_similarity : wf_window w →
  Forall (λ '(a, b), f32_valid (cosine_similarity a b) ∧ f32_is_nan (cosine_similarity a b) = false)
    (windows2 (chronological w)) →
  f32_valid max_similarity → f32_is_nan max_similarity = false →
  passes w max_similarity =
    (window_is_full w && check_frame_variance (chronological w) max_similarity).
Proof.
  intros Hw Hn Hv Hm. unfold passes. destruct (window_is_full w) eqn:Hf; [|done]. cbn.
  unfold check_frame_variance. rewrite length_chronological. unfold window_is_full in Hf. bsplit.
  destruct Hw as [Hc _]. rewrite (proj2 (Nat.ltb_ge _ _)) by lia.
  rewrite pair_similarities_chronological, forallb_map.
  induction Hn as [|[a b] ps [H1 H2] Hps IH]; [done|]. cbn. rewrite IH.
  unfold f32_gt. rewrite f32_le_skey, f32_lt_skey by done.
  rewrite (Z.ltb_antisym _ (skey max_similarity)), negb_involutive. done.
Qed.

(** ** Best match

    The [subtle] crate's constant-time primitives on [u32], by their documentation. *)
Class Subtle := {
  ct_gt : Z → Z → bool;
  conditional_select : Z → Z → bool → Z;
  ct_gt_spec a b : is_u32 a → is_u32 b → ct_gt a b = (b <? a);
  conditional_select_spec a b c : conditional_select a b c = if c then b else a;
}.

#[refine] Definition subtle_reference : Subtle := {|
  ct_gt a b := b <? a;
  conditional_select a b c := if c then b else a;
|}.
Proof. all: done. Defined.

Definition float_bits_to_ordered (bits : Z) : Z :=
  let mask := as_u32 (Z.shiftr (as_i32 bits) 31) in
  Z.lxor bits (Z.lor mask 0x80000000).

Section BestMatch.
Context `{NanEncoding} `{Subtle}.

(** The loop's three accumulators: ordered bits, raw bits, id. *)
Definition best_step (embedding : FaceEmbedding) (acc : Z * Z * Z) (entry : Z * FaceEmbedding) :
    Z * Z * Z :=
  let '(best_ord, best_sim_raw, best_id) := acc in
  let '(id, stored_emb) := entry in
  let sim := cosine_similarity embedding stored_emb in
  let sim_bits := f32_to_bits sim in
  let sim_ord := float_bits_to_ordered sim_bits in
  let is_greater := ct_gt sim_ord best_ord in
  (conditional_select best_ord sim_ord is_greater,
   conditional_select best_sim_raw sim_bits is_greater,
   conditional_select best_id id is_greater).

Definition best_match (embedding : FaceEmbedding) (stored : list (Z * FaceEmbedding)) :
    f32 * option Z :=
  let init_bits := f32_to_bits f32_neg_one in
  let '(_, best_sim_raw, best_id) :=
    fold_left (best_step embedding) stored (float_bits_to_ordered init_bits, init_bits, u32_max) in
  match stored with
  | [] => (f32_zero, None)
  | _ =>
      (f32_from_bits best_sim_raw, if best_id =? u32_max then None else Some best_id)
  end.
End BestMatch.

(** *** The ordered encoding *)
Lemma lxor_high_bit b : 0 ≤ b < 2 ^ 31 → Z.lxor b (2 ^ 31) = b + 2 ^ 31.
Proof.
  intros Hb. symmetry. apply Z.add_nocarry_lxor. apply Z.bits_inj'. intros n Hn.
  rewrite Z.land_spec, Z.bits_0, Z.pow2_bits_eqb by lia.
  destruct (Z.eqb_spec 31 n) as [<-|]; [|apply andb_false_r].
  rewrite Z.testbit_odd, Z.shiftr_div_pow2, Z.div_small by lia. done.
Qed.

Lemma lxor_ones_32 b : 0 ≤ b < 2 ^ 32 → Z.lxor b (2 ^ 32 - 1) = 2 ^ 32 - 1 - b.
Proof.
  intros Hb. change (2 ^ 32 - 1) with (Z.ones 32).
  rewrite Z.sub_nocarry_ldiff.
  - apply Z.bits_inj'. intros n Hn. rewrite Z.lxor_spec, Z.ldiff_spec.
    destruct (decide (n < 32)).
    + rewrite Z.ones_spec_low by lia. by destruct (Z.testbit b n).
    + rewrite Z.ones_spec_high by lia. rewrite <- (Z.mod_small b (2 ^ 32)) by done.
      rewrite Z.mod_pow2_bits_high by lia. done.
  - apply Z.bits_inj'. intros n Hn. rewrite Z.ldiff_spec, Z.bits_0.
    destruct (decide (n < 32)).
    + rewrite Z.ones_spec_low by lia. by destruct (Z.testbit b n).
    + rewrite <- (Z.mod_small b (2 ^ 32)) by done. rewrite Z.mod_pow2_bits_high by lia. done.
Qed.

Lemma float_bits_to_ordered_spec b : is_u32 b →
  float_bits_to_ordered b = if b <? 2 ^ 31 then b + 2 ^ 31 else 2 ^ 32 - 1 - b.
Proof.
  unfold is_u32, float_bits_to_ordered, as_i32. intros Hb. rewrite Z.mod_small by done.
  destruct (Z.ltb_spec b (2 ^ 31)) as [Hlt|Hge].
  - replace (Z.shiftr b 31) with 0; [|rewrite Z.shiftr_div_pow2, Z.div_small by lia; done].
    change (Z.lor (as_u32 0) 0x80000000) with (2 ^ 31). apply lxor_high_bit; lia.
  - replace (Z.shiftr (b - 2 ^ 32) 31) with (-1).
    2:{ rewrite Z.shiftr_div_pow2 by lia. Z.div_mod_to_equations. lia. }
    change (Z.lor (as_u32 (-1)) 0x80000000) with (2 ^ 32 - 1). apply lxor_ones_32; lia.
Qed.

Section Ordered.
Context `{NanEncoding}.

Definition okey (x : f32) : Z := float_bits_to_ordered (f32_to_bits x).

Lemma okey_u32 x : f32_valid x → is_u32 (okey x).
Proof.
  intros Hv%f32_to_bits_u32. unfold okey. rewrite float_bits_to_ordered_spec by done.
  unfold is_u32 in *. destruct (Z.ltb_spec (f32_to_bits x) (2 ^ 31)); lia.
Qed.

Lemma okey_skey x : f32_valid x → f32_is_nan x = false →
  okey x = skey x + 2 ^ 31 - (if f32_sign x then 1 else 0).
Proof.
  intros Hv Hn. unfold okey. rewrite float_bits_to_ordered_spec by (by apply f32_to_bits_u32).
  destruct (f32_to_bits_magnitude x Hv Hn) as [-> Hm]. unfold skey, sign_bit.
  destruct (f32_sign x).
  - rewrite (proj2 (Z.ltb_ge _ _)) by lia. lia.
  - rewrite (proj2 (Z.ltb_lt _ _)) by lia. lia.
Qed.

Lemma okey_le x y : f32_valid x → f32_valid y → f32_is_nan x = false → f32_is_nan y = false →
  okey x ≤ okey y → f32_le x y = true.
Proof.
  intros. rewrite f32_le_skey by done. apply Z.leb_le. rewrite !okey_skey in * by done.
  unfold skey in *.
  destruct (f32_to_bits_magnitude x), (f32_to_bits_magnitude y); try done.
  destruct (f32_sign x), (f32_sign y); lia.
Qed.
End Ordered.

(** The branch-free integer encoding the matcher compares in constant time is the
    [f32] order: for values that are not NaN, a strictly smaller value has a strictly
    smaller [u32] key, and a key order can only refine the value order (it additionally
    separates the two zeros, putting [-0.0] below [+0.0]). *)
Lemma ordered_bits_agree_with_f32_order `{NanEncoding} x y :
  f32_valid x → f32_valid y → f32_is_nan x = false → f32_is_nan y = false →
  (f32_lt x y = true → okey x < okey y) ∧
  (okey x < okey y →
   f32_lt x y = true ∨ (x = S754_zero true ∧ y = S754_zero false)).
Proof.
  intros Hx Hy Nx Ny. rewrite f32_lt_skey, !okey_skey, Z.ltb_lt by done. unfold skey.
  destruct (f32_to_bits_magnitude x Hx Nx) as [_ Mx], (f32_to_bits_magnitude y Hy Ny) as [_ My].
  split; [destruct (f32_sign x), (f32_sign y); lia|]. intros Hlt.
  destruct (decide (magnitude x = 0)) as [Zx|Zx], (decide (magnitude y = 0)) as [Zy|Zy];
    try (left; destruct (f32_sign x), (f32_sign y); lia).
  destruct x as [sx| | |sx mx ex]; try done.
  2:{ pose proof (magnitude_finite _ _ _ Hx). lia. }
  destruct y as [sy| | |sy my ey]; try done.
  2:{ pose proof (magnitude_finite _ _ _ Hy). lia. }
  destruct sx, sy; cbn in Hlt; try lia. by right.
Qed.

(** *** What [best_match] returns *)
Lemma cosine_similarity_valid a b :
  Forall f32_valid a → Forall f32_valid b → f32_valid (cosine_similarity a b).
Proof.
  intros Ha Hb. apply f32_sum_valid. revert b Hb.
  induction Ha as [|x a Hx Ha IH]; intros b Hb; [constructor|].
  destruct Hb as [|y b Hy Hb]; cbn; constructor; auto. by apply f32_mul_valid.
Qed.
#[export] Hint Resolve cosine_similarity_valid : facelock.

Section BestMatchSpec.
Context `{NanEncoding} `{Subtle}.
Variable embedding : FaceEmbedding.
Hypothesis embedding_valid : Forall f32_valid embedding.

(** Stored entries are of the format and their ids are not the sentinel [u32::MAX]. *)
Definition stored_ok (entry : Z * FaceEmbedding) : Prop :=
  Forall f32_valid entry.2 ∧ entry.1 ≠ u32_max.

Definition best_found (seen : list (Z * FaceEmbedding)) (acc : Z * Z * Z) (x : f32) : Prop :=
  let '(ord, raw, id) := acc in
  f32_valid x ∧ raw = f32_to_bits x ∧ ord = okey x ∧
  ((id = u32_max ∧ x = f32_neg_one) ∨
   (∃ e, (id, e) ∈ seen ∧ cosine_similarity embedding e = x ∧ okey f32_neg_one < okey x)) ∧
  okey f32_neg_one ≤ okey x ∧
  Forall (λ p, okey (cosine_similarity embedding p.2) ≤ okey x) seen.

Lemma best_step_found seen acc x entry : stored_ok entry → best_found seen acc x →
  ∃ x', best_found (seen ++ [entry]) (best_step embedding acc entry) x'.
Proof using embedding_valid.
  destruct acc as [[ord raw] id], entry as [eid emb]. intros [Hv _] (Vx & -> & -> & Hid & Hinit & Hall).
  assert (Vs : f32_valid (cosine_similarity embedding emb)) by eauto with facelock.
  unfold best_step. fold (okey (cosine_similarity embedding emb)).
  rewrite ct_gt_spec by (by apply okey_u32). rewrite !conditional_select_spec.
  destruct (Z.ltb_spec (okey x) (okey (cosine_similarity embedding emb))) as [Hlt|Hge].
  - exists (cosine_similarity embedding emb). unfold best_found. split_and!; try done; [|lia|].
    + right. exists emb. split_and!; [|done|lia]. apply elem_of_app. right. by left.
    + apply Forall_app. split; [|by repeat constructor].
      eapply Forall_impl; [exact Hall|]. cbn. intros. lia.
  - exists x. unfold best_found. split_and!; try done.
    + destruct Hid as [Hid|(e & He & Hc & Hk)]; [by left|right]. exists e. split; [|done].
      apply elem_of_app. by left.
    + apply Forall_app. split; [done|]. by repeat constructor.
Qed.

Lemma best_fold_found stored : Forall stored_ok stored →
  ∃ x, best_found stored
    (fold_left (best_step embedding) stored
      (float_bits_to_ordered (f32_to_bits f32_neg_one), f32_to_bits f32_neg_one, u32_max)) x.
Proof using embedding_valid.
  induction stored as [|p stored IH] using rev_ind; intros Hs.
  - exists f32_neg_one. unfold best_found. cbn [fold_left]. split_and!; try done. by left.
  - apply Forall_app in Hs as [Hs Hp]. inversion_clear Hp.
    destruct (IH Hs) as [x Hx]. rewrite fold_left_app. cbn.
    eapply best_step_found; eauto.
Qed.

Lemma f32_from_to_bits_not_nan x : f32_valid x →
  f32_is_nan (f32_from_bits (f32_to_bits x)) = false → f32_from_bits (f32_to_bits x) = x.
Proof using Type.
  intros Hv Hn. destruct (f32_is_nan x) eqn:E; [|by apply f32_from_to_bits].
  destruct x; try done. cbn in Hn. by rewrite nan_bits_nan in Hn.
Qed.

(** A returned id is always the id of a stored template. *)
Lemma best_match_id stored sim id : Forall stored_ok stored →
  best_match embedding stored = (sim, Some id) → id ∈ stored.*1.
Proof using embedding_valid.
  intros Hs. destruct (best_fold_found stored Hs) as [x Hx]. unfold best_match. revert Hx.
  destruct (fold_left _ _ _) as [[ord raw] bid]. intros (_ & _ & _ & Hid & _).
  destruct stored as [|p l] eqn:Es; [done|]. rewrite <- Es in *. clear Es p l.
  destruct (Z.eqb_spec bid u32_max) as [|Hne]; [done|]. intros [= _ <-].
  destruct Hid as [[? _]|(e & He & _)]; [done|].
  apply list_elem_of_fmap. by exists (bid, e).
Qed.

(** A similarity that reaches a non-negative threshold is the similarity to a stored
    template of the returned id; NaN similarities cannot produce one. *)
Lemma best_match_sound stored sim oid threshold : Forall stored_ok stored →
  best_match embedding stored = (sim, oid) →
  stored ≠ [] → f32_le f32_zero threshold = true → f32_ge sim threshold = true →
  ∃ id e, oid = Some id ∧ (id, e) ∈ stored ∧ cosine_similarity embedding e = sim.
Proof using embedding_valid.
  intros Hs Hb Hne Ht Hge. destruct (best_fold_found stored Hs) as [x Hx].
  unfold best_match in Hb. revert Hx Hb.
  destruct (fold_left _ _ _) as [[ord raw] bid]. intros (Vx & -> & _ & Hid & _).
  destruct stored as [|p l] eqn:Es; [done|]. rewrite <- Es in *. clear Es p l Hne.
  intros [= <- <-].
  assert (Hnn := proj2 (f32_le_not_nan _ _ Hge)).
  rewrite f32_from_to_bits_not_nan in * by done.
  destruct Hid as [[-> ->]|(e & He & Hc & _)].
  - exfalso. clear -Ht Hge. destruct threshold as [[]|[]| |[] m e]; done.
  - exists bid, e. rewrite (proj2 (Z.eqb_neq _ _)); [done|].
    rewrite Forall_forall in Hs. by destruct (Hs _ He).
Qed.
End BestMatchSpec.

(** The constant-time search returns the maximum: when no stored similarity is a NaN,
    the returned score is at least [-1.0] and at least the similarity to every stored
    template, and it is attained — the returned id is that of a stored template with
    exactly this similarity; no id is returned only when no template scores above [-1.0]. *)
Theorem best_match_is_maximum `{NanEncoding} `{Subtle} embedding stored sim oid :
  Forall f32_valid embedding → Forall stored_ok stored → stored ≠ [] →
  Forall (λ p, f32_is_nan (cosine_similarity embedding p.2) = false) stored →
  best_match embedding stored = (sim, oid) →
  Forall (λ p, f32_le (cosine_similarity embedding p.2) sim = true) stored ∧
  f32_le f32_neg_one sim = true ∧
  match oid with
  | Some id => ∃ e, (id, e) ∈ stored ∧ cosine_similarity embedding e = sim
  | None => sim = f32_neg_one
  end.
Proof.
  intros Ve Hs Hne Hn Hb. destruct (best_fold_found embedding Ve stored Hs) as [x Hx].
  unfold best_match in Hb. revert Hx Hb. destruct (fold_left _ _ _) as [[ord raw] bid].
  intros (Vx & -> & -> & Hid & Hinit & Hall).
  destruct stored as [|p l] eqn:Es; [done|]. rewrite <- Es in *. clear Es p l Hne.
  intros [= <- <-].
  assert (Nx : f32_is_nan x = false).
  { destruct Hid as [[_ ->]|(e & He & <- & _)]; [done|].
    rewrite Forall_forall in Hn. exact (Hn _ He). }
  rewrite f32_from_to_bits by done. split; [|split].
  - rewrite Forall_forall in *. intros p Hp. apply okey_le; eauto with facelock.
    destruct (Hs p Hp). eauto with facelock.
  - by apply okey_le.
  - destruct Hid as [[-> ->]|(e & He & Hc & _)]; [by rewrite Z.eqb_refl|].
    rewrite Forall_forall in Hs. destruct (Hs _ He) as [_ Hidn].
    rewrite (proj2 (Z.eqb_neq _ _)) by done. by exists e.
Qed.

(** Two one-dimensional templates: the closer one wins. *)
Lemma best_match_is_maximum_witness :
  let stored := [(7, [f32_lit 1 2]); (9, [f32_lit 3 4])] in
  let '(sim, oid) := best_match (H := nan_x86) (H0 := subtle_reference) [f32_one] stored in
  oid = Some 9 ∧ Forall (λ p, f32_le (cosine_similarity [f32_one] p.2) sim = true) stored.
Proof.
  cbv zeta.
  destruct (best_match_is_maximum (H := nan_x86) (H0 := subtle_reference) [f32_one]
    [(7, [f32_lit 1 2]); (9, [f32_lit 3 4])] (f32_lit 3 4) (Some 9)) as (Hall & _ & _).
  - repeat constructor.
  - repeat constructor; cbn; done.
  - done.
  - repeat constructor.
  - vm_compute. reflexivity.
  - split; [vm_compute; reflexivity|exact Hall].
Defined.
