(* ===== verification/DeviceBinding.v ===== *)
(** * Camera identity and template coupling ([crates/facelock-core/src/types.rs])

    Which enrolled templates may be compared against the live camera: the canonical
    fingerprint stored at enrollment, its comparison at model or unit granularity, and the
    policy that decides about templates without one. *)

From stdpp Require Import gmap.
From S2P Require Import Prelude Float32 Types.

Record FaceModelInfo := {
  model_id : Z;
  model_user : string;
  model_label : string;
  created_at : Z;
  embedder_model : string;
  device_id : option string;
  key_id : option string;
}.

Record DeviceFingerprint := {
  vid : option string;
  pid : option string;
  serial : option string;
  by_path : option string;
}.

Definition fingerprint_default : DeviceFingerprint :=
  {| vid := None; pid := None; serial := None; by_path := None |}.

(** [as_deref().unwrap_or("")] *)
Definition field (o : option string) : string := unwrap_or "" o.

Definition colon : ascii := ":"%char.

Definition canonical (fp : DeviceFingerprint) : string :=
  field (vid fp) +:+ String colon (field (pid fp) +:+ String colon (field (serial fp))).

Definition is_unknown (fp : DeviceFingerprint) : bool :=
  let present o := is_some_and (λ s, negb (is_empty_str s)) o in
  negb (present (vid fp) && present (pid fp)).

Definition has_serial (fp : DeviceFingerprint) : bool :=
  is_some_and (λ s, negb (is_empty_str s)) (serial fp).

Definition canonical_for_storage (fp : DeviceFingerprint) : option string :=
  if is_unknown fp then None else Some (canonical fp).

(** ** Camera capabilities *)
Inductive IrTextureScale :=
  | NotY16
  | VerifiedY16 (bit_depth : Z)
  | UnverifiedY16.

#[export] Instance IrTextureScale_eq_dec : EqDecision IrTextureScale.
Proof. solve_decision. Defined.

Record CameraCaps := {
  is_ir : bool;
  fingerprint : DeviceFingerprint;
  applied_quirks : list string;
  ir_texture_scale : IrTextureScale;
}.

(** Caps for a device that could not be queried: nothing it did not demonstrate. *)
Definition unqueryable (fp : DeviceFingerprint) : CameraCaps :=
  {| is_ir := false; fingerprint := fp; applied_quirks := []; ir_texture_scale := NotY16 |}.

(** ** Matching a stored identity against the live camera *)
Inductive DeviceMatchGranularity := Model | Unit.

#[export] Instance DeviceMatchGranularity_eq_dec : EqDecision DeviceMatchGranularity.
Proof. solve_decision. Defined.

Record DeviceBindingPolicy := {
  enabled : bool;
  granularity : DeviceMatchGranularity;
  allow_legacy : bool;
}.

(** [stored_canonical.splitn(3, ':')], missing parts read as empty. *)
Definition splitn3 (s : string) : string * string * string :=
  match split_once colon s with
  | (a, None) => (a, "", "")
  | (a, Some r) =>
      match split_once colon r with
      | (b, None) => (a, b, "")
      | (b, Some c) => (a, b, c)
      end
  end.

Definition device_ids_match (stored_canonical : string) (live : DeviceFingerprint)
    (g : DeviceMatchGranularity) : bool :=
  let '(s_vid, s_pid, s_serial) := splitn3 stored_canonical in
  let l_vid := field (vid live) in
  let l_pid := field (pid live) in
  let l_serial := field (serial live) in
  let model_ok :=
    negb (is_empty_str s_vid) && negb (is_empty_str s_pid) &&
    eq_ignore_ascii_case s_vid l_vid && eq_ignore_ascii_case s_pid l_pid in
  if negb model_ok then false
  else
    match g with
    | Model => true
    | Unit =>
        negb (is_empty_str s_serial) && negb (is_empty_str l_serial) && String.eqb s_serial l_serial
    end.

Definition device_binding_allows (dev_id : option string) (live : DeviceFingerprint)
    (policy : DeviceBindingPolicy) : bool :=
  if negb (enabled policy) then true
  else
    match dev_id with
    | None => allow_legacy policy
    | Some stored =>
        if is_empty_str stored then allow_legacy policy
        else device_ids_match stored live (granularity policy)
    end.

Definition device_allowed_model_ids (models : list FaceModelInfo) (live : DeviceFingerprint)
    (policy : DeviceBindingPolicy) : gset Z :=
  list_to_set (model_id <$> filter (λ m, Is_true (device_binding_allows (device_id m) live policy)) models).

(** AAD bytes that tie a sealed embedding to a device id. *)
Definition device_binding_aad (dev_id : option string) : option string :=
  match dev_id with
  | Some s => if is_empty_str s then None else Some ("facelock-device:" +:+ s)
  | None => None
  end.

Inductive Binding := Bound | LegacyUnbound.

(** ** Properties *)

(** USB ids are hexadecimal strings: they contain no colon. *)
Definition plain_usb_ids (fp : DeviceFingerprint) : Prop :=
  str_has_char colon (field (vid fp)) = false ∧ str_has_char colon (field (pid fp)) = false.

Lemma splitn3_canonical fp : plain_usb_ids fp →
  splitn3 (canonical fp) = (field (vid fp), field (pid fp), field (serial fp)).
Proof.
  intros [Hv Hp]. unfold splitn3, canonical. rewrite split_once_app by done.
  by rewrite split_once_app.
Qed.

Lemma is_unknown_false fp : is_unknown fp = false →
  is_empty_str (field (vid fp)) = false ∧ is_empty_str (field (pid fp)) = false.
Proof.
  unfold is_unknown, field. intros H. bsplit.
  destruct (vid fp), (pid fp); try done; cbn in *; bsplit; done.
Qed.

Lemma device_ids_match_own fp g : plain_usb_ids fp → is_unknown fp = false →
  device_ids_match (canonical fp) fp g = match g with Model => true | Unit => has_serial fp end.
Proof.
  intros Hp Hu. destruct (is_unknown_false fp Hu) as [Hv Hq].
  unfold device_ids_match. rewrite splitn3_canonical by done.
  rewrite Hv, Hq, !eq_ignore_ascii_case_refl. cbn. destruct g; [done|].
  unfold has_serial, field. destruct (serial fp) as [s|]; cbn [unwrap_or is_some_and]; [|done].
  rewrite String.eqb_refl. by destruct (is_empty_str s).
Qed.

Lemma eq_ignore_ascii_case_empty s : eq_ignore_ascii_case s "" = true → s = "".
Proof. by destruct s. Qed.

(** A camera that reports no vendor or no product id never matches a stored identity,
    at any granularity; and a unit-level match is always also a model-level match. *)
Theorem unknown_camera_never_matches stored live g :
  (is_unknown live = true → device_ids_match stored live g = false) ∧
  (device_ids_match stored live Unit = true → device_ids_match stored live Model = true).
Proof.
  unfold device_ids_match. destruct (splitn3 stored) as [[sv sp] ss]. split.
  - intros Hu. destruct (_ && _ && _ && _) eqn:E; [|done]. exfalso. bsplit.
    unfold is_unknown, is_some_and in Hu. unfold field, unwrap_or in *.
    assert (Hl : ∀ s t, eq_ignore_ascii_case s t = true → is_empty_str s = false →
      negb (is_empty_str t) = true).
    { intros s t He Hn. apply negb_true_iff. destruct t; [|done].
      by rewrite (eq_ignore_ascii_case_empty s He) in Hn. }
    destruct (vid live) as [v|], (pid live) as [p|]; cbn in Hu;
      try (rewrite (Hl _ v) in Hu by done); try (rewrite (Hl _ p) in Hu by done);
      try done;
      by match goal with
         | H : eq_ignore_ascii_case ?s "" = true, N : is_empty_str ?s = false |- _ =>
             rewrite (eq_ignore_ascii_case_empty s H) in N
         end.
  - by destruct (_ && _ && _ && _).
Qed.

Lemma elem_of_allowed models live policy i :
  i ∈ device_allowed_model_ids models live policy ↔
  ∃ m, m ∈ models ∧ model_id m = i ∧ device_binding_allows (device_id m) live policy = true.
Proof.
  unfold device_allowed_model_ids. rewrite elem_of_list_to_set, list_elem_of_fmap. split.
  - intros (m & -> & [Hm Hin]%list_elem_of_filter). exists m. by destruct (device_binding_allows _ _ _).
  - intros (m & Hin & <- & Hm). exists m. split; [done|]. apply list_elem_of_filter. by rewrite Hm.
Qed.
