(* ===== verification/Config.v ===== *)
(** * Configuration ([crates/facelock-core/src/config.rs])

    The configuration sections with their defaults, validation, and the policy decisions
    that are methods of the configuration: snapshot and notification gating, enrollment
    refusals, and hard device binding. TOML decoding is the [toml] crate's and is a
    parameter of [parse]. *)

From S2P Require Import Prelude Float32 Types Matching DeviceBinding.

(** [fmt::Display] of an [f32], used only inside messages. *)
Class ShowF32 := show_f32 : f32 → string.

(** ** Enumerations *)
Inductive ConfigError :=
  | ConfigNotFound (path : string)
  | ConfigParse (message : string)
  | ConfigValidation (message : string).

Inductive NotificationPolicy := PolicyOn | PolicyOff | PolicySystem.

Definition policy_enabled (p : NotificationPolicy) (pam_silent : bool) : bool :=
  match p with
  | PolicyOn => true
  | PolicyOff => false
  | PolicySystem => negb pam_silent
  end.

Definition policy_of_bool (b : bool) : NotificationPolicy := if b then PolicyOn else PolicyOff.

(** The visitor's [visit_str]. *)
Definition policy_of_str (s : string) : option NotificationPolicy :=
  if String.eqb s "on" then Some PolicyOn
  else if String.eqb s "off" then Some PolicyOff
  else if String.eqb s "system" then Some PolicySystem
  else None.

Inductive DaemonMode := ModeDaemon | ModeOneshot.
Inductive NotificationMode := NotifyOff | NotifyTerminal | NotifyDesktop | NotifyBoth.
Inductive SnapshotMode := SnapOff | SnapAll | SnapFailure | SnapSuccess.
Inductive EncryptionMethod := EncNone | EncKeyfile | EncTpm.

#[export] Instance EncryptionMethod_eq_dec : EqDecision EncryptionMethod.
Proof. solve_decision. Defined.
#[export] Instance SnapshotMode_eq_dec : EqDecision SnapshotMode.
Proof. solve_decision. Defined.

(** ** Sections *)
Record DeviceConfig := {
  path : option string;
  max_height : Z;
  rotation : Z;
  warmup_frames : Z;
  dark_threshold : f32;
  dark_pixel_value : Z;
  ir_emitter : bool;
  ir_led : option string;
  keep_format : bool;
  camera_release_secs : Z;
  camera_release_after_success_secs : Z;
}.

Record RecognitionConfig := {
  threshold : f32;
  timeout_secs : Z;
  no_face_timeout_secs : Z;
  detection_confidence : f32;
  nms_threshold : f32;
  detector_model : string;
  detector_sha256 : option string;
  rec_embedder_model : string;
  embedder_sha256 : option string;
  execution_provider : string;
  threads : Z;
}.

Record DaemonConfig := {
  model_dir : string;
  idle_timeout_secs : Z;
  mode : DaemonMode;
}.

Record StorageConfig := { db_path : string }.

Record RateLimitConfig := { max_attempts : Z; window_secs : Z }.

Record SecurityConfig := {
  disabled : bool;
  abort_if_ssh : bool;
  abort_if_lid_closed : bool;
  suppress_unknown : bool;
  require_ir : bool;
  require_frame_variance : bool;
  require_landmark_liveness : bool;
  landmark_displacement_px : f32;
  landmark_min_moving : Z;
  min_auth_frames : Z;
  ir_texture_min_stddev : f32;
  frame_variance_max_similarity : f32;
  bind_templates_to_device : bool;
  device_match_granularity : DeviceMatchGranularity;
  bind_legacy_templates : bool;
  allow_plaintext : bool;
  bind_device_aad : bool;
  rate_limit : RateLimitConfig;
}.

Record NotificationConfig := {
  notif_mode : NotificationMode;
  notify_prompt : NotificationPolicy;
  notify_on_success : NotificationPolicy;
  notify_on_failure : NotificationPolicy;
}.

Record SnapshotConfig := { snap_mode : SnapshotMode; snap_dir : string }.

Record TpmConfig := {
  seal_database : bool;
  pcr_binding : bool;
  pcr_indices : list Z;
  tcti : string;
}.

Record EncryptionConfig := {
  method : EncryptionMethod;
  key_path : string;
  sealed_key_path : string;
}.

Record AuditConfig := {
  audit_enabled : bool;
  audit_path : string;
  rotate_size_mb : Z;
}.

Record PolkitConfig := { face_eligible_actions : list string }.

Record PamDirsConfig := { config_dirs : list string }.

Record Config := {
  device : DeviceConfig;
  recognition : RecognitionConfig;
  daemon : DaemonConfig;
  storage : StorageConfig;
  security : SecurityConfig;
  notification : NotificationConfig;
  snapshots : SnapshotConfig;
  tpm : TpmConfig;
  encryption : EncryptionConfig;
  audit : AuditConfig;
  polkit : PolkitConfig;
  pam : PamDirsConfig;
}.

(** ** Defaults *)
Definition DEFAULT_MODEL_DIR : string := "/var/lib/facelock/models".
Definition DEFAULT_DB_PATH : string := "/var/lib/facelock/facelock.db".
Definition DEFAULT_SNAPSHOT_DIR : string := "/var/log/facelock/snapshots".

Definition device_default : DeviceConfig := {|
  path := None; max_height := 480; rotation := 0; warmup_frames := 2;
  dark_threshold := f32_lit 6 10; dark_pixel_value := 10; ir_emitter := false;
  ir_led := None; keep_format := false; camera_release_secs := 3;
  camera_release_after_success_secs := 0;
|}.

Definition recognition_default : RecognitionConfig := {|
  threshold := f32_lit 80 100; timeout_secs := 5; no_face_timeout_secs := 2;
  detection_confidence := f32_lit 5 10; nms_threshold := f32_lit 4 10;
  detector_model := "scrfd_2.5g_bnkps.onnx"; detector_sha256 := None;
  rec_embedder_model := "w600k_r50.onnx"; embedder_sha256 := None;
  execution_provider := "cpu"; threads := 4;
|}.

Definition daemon_default : DaemonConfig :=
  {| model_dir := DEFAULT_MODEL_DIR; idle_timeout_secs := 0; mode := ModeDaemon |}.

Definition storage_default : StorageConfig := {| db_path := DEFAULT_DB_PATH |}.

Definition rate_limit_default : RateLimitConfig := {| max_attempts := 5; window_secs := 60 |}.

Definition security_default : SecurityConfig := {|
  disabled := false; abort_if_ssh := true; abort_if_lid_closed := true;
  suppress_unknown := false; require_ir := true; require_frame_variance := true;
  require_landmark_liveness := false; landmark_displacement_px := f32_lit 15 10;
  landmark_min_moving := 3; min_auth_frames := 3; ir_texture_min_stddev := f32_of_Z 10;
  frame_variance_max_similarity := DEFAULT_FRAME_VARIANCE_MAX_SIMILARITY;
  bind_templates_to_device := true; device_match_granularity := Model;
  bind_legacy_templates := true; allow_plaintext := false; bind_device_aad := false;
  rate_limit := rate_limit_default;
|}.

Definition notification_default : NotificationConfig := {|
  notif_mode := NotifyTerminal; notify_prompt := policy_of_bool true;
  notify_on_success := policy_of_bool true; notify_on_failure := policy_of_bool false;
|}.

Definition snapshots_default : SnapshotConfig :=
  {| snap_mode := SnapOff; snap_dir := DEFAULT_SNAPSHOT_DIR |}.

Definition tpm_default : TpmConfig := {|
  seal_database := false; pcr_binding := false; pcr_indices := [0; 1; 2; 3; 7];
  tcti := "device:/dev/tpmrm0";
|}.

Definition encryption_default : EncryptionConfig := {|
  method := EncKeyfile; key_path := "/etc/facelock/encryption.key";
  sealed_key_path := "/etc/facelock/encryption.key.sealed";
|}.

Definition audit_default : AuditConfig :=
  {| audit_enabled := false; audit_path := "/var/log/facelock/audit.jsonl"; rotate_size_mb := 10 |}.

Definition polkit_default : PolkitConfig :=
  {| face_eligible_actions := ["org.freedesktop.login1.lock-sessions"] |}.

Definition pam_default : PamDirsConfig := {| config_dirs := ["/etc/pam.d"; "/usr/lib/pam.d"] |}.

Definition config_default : Config := {|
  device := device_default; recognition := recognition_default; daemon := daemon_default;
  storage := storage_default; security := security_default;
  notification := notification_default; snapshots := snapshots_default; tpm := tpm_default;
  encryption := encryption_default; audit := audit_default; polkit := polkit_default;
  pam := pam_default;
|}.

(** ** Section methods *)

(** The LED name in a [/sys/class/leds/<name>] path. *)
Definition led_class_name (spec : string) : option string :=
  match strip_prefix "/sys/class/leds/" spec with
  | None => None
  | Some name =>
      if negb (is_empty_str name) && negb (str_has_char "/" name) &&
         negb (String.eqb name ".") && negb (String.eqb name "..")
      then Some name else None
  end.

(** Seconds; [None] when the early exit is off. *)
Definition effective_no_face_timeout (r : RecognitionConfig) : option Z :=
  if 0 <? no_face_timeout_secs r
  then Some (Z.min (no_face_timeout_secs r) (timeout_secs r)) else None.

Definition device_binding_policy (s : SecurityConfig) : DeviceBindingPolicy :=
  {| enabled := bind_templates_to_device s;
     granularity := device_match_granularity s;
     allow_legacy := bind_legacy_templates s |}.

Definition terminal (n : NotificationConfig) : bool :=
  match notif_mode n with NotifyTerminal | NotifyBoth => true | _ => false end.

Definition desktop (n : NotificationConfig) : bool :=
  match notif_mode n with NotifyDesktop | NotifyBoth => true | _ => false end.

Definition should_save (c : SnapshotConfig) (success : bool) : bool :=
  match snap_mode c with
  | SnapOff => false
  | SnapAll => true
  | SnapSuccess => success
  | SnapFailure => negb success
  end.

Definition is_face_eligible (p : PolkitConfig) (action_id : string) : bool :=
  existsb (λ a, String.eqb a action_id) (face_eligible_actions p).

(** ** Enrollment refusals *)
Inductive EnrollmentBindingError :=
  | UnitNeedsSerial (identity : string)
  | UnitNeedsIdentity (identity : string)
  | LegacyBarredNeedsIdentity (identity : string)
  | HardBindingNeedsDeviceId.

Definition security_ensure_enrollment_binding_allowed (s : SecurityConfig) (fp : DeviceFingerprint) :
    result unit EnrollmentBindingError :=
  let identity := canonical fp in
  let? _ :=
    (if decide (device_match_granularity s = Unit) then
       if negb (has_serial fp) then Err (UnitNeedsSerial identity)
       else match canonical_for_storage fp with
            | None => Err (UnitNeedsIdentity identity)
            | Some _ => Ok tt
            end
     else Ok tt) in
  if bind_templates_to_device s && negb (bind_legacy_templates s) &&
     negb (is_some (canonical_for_storage fp))
  then Err (LegacyBarredNeedsIdentity identity)
  else Ok tt.

(** AAD of the authentication path. *)
Definition device_aad (s : SecurityConfig) (dev_id : option string) : option string :=
  if bind_device_aad s then device_binding_aad dev_id else None.

Definition enroll_encryption_refusal : string :=
  "refusing to enroll: encryption.method = " +:+ dq +:+ "none" +:+ dq +:+
  " would store your face template as plaintext biometric data. Enable encryption (the default "
  +:+ dq +:+ "keyfile" +:+ dq +:+ "/" +:+ dq +:+ "tpm" +:+ dq +:+
  "), or, to intentionally store plaintext, set security.allow_plaintext = true.".

Definition ensure_enroll_encryption_allowed (c : Config) : result unit string :=
  if bool_decide (method (encryption c) = EncNone) && negb (allow_plaintext (security c))
  then Err enroll_encryption_refusal else Ok tt.

Definition hard_binding_active (c : Config) : bool :=
  bind_device_aad (security c) && negb (bool_decide (method (encryption c) = EncNone)).

(** AAD of the enrollment path: a missing device id is a refusal. *)
Definition require_device_aad (c : Config) (dev_id : option string) :
    result (option string) EnrollmentBindingError :=
  if negb (hard_binding_active c) then Ok None
  else match device_binding_aad dev_id with
       | Some aad => Ok (Some aad)
       | None => Err HardBindingNeedsDeviceId
       end.

Definition ensure_enrollment_binding_allowed (c : Config) (fp : DeviceFingerprint) :
    result unit EnrollmentBindingError :=
  let? _ := security_ensure_enrollment_binding_allowed (security c) fp in
  let? _ := require_device_aad c (canonical_for_storage fp) in
  Ok tt.

Definition classify_device_binding (c : Config) (dev_id : option string) : Binding :=
  if hard_binding_active c && negb (is_some (device_binding_aad dev_id))
  then LegacyUnbound else Bound.

Definition enroll_timeout_secs (c : Config) : Z :=
  Z.max (timeout_secs (recognition c)) 5 * 3.

(** The [thiserror] rendering of a refusal. *)
Definition binding_error_to_string (e : EnrollmentBindingError) : string :=
  let q s := dq +:+ s +:+ dq in
  match e with
  | UnitNeedsSerial identity =>
      "refusing to enroll: security.device_match_granularity = " +:+ q "unit" +:+
      " binds each template to one camera unit by its USB serial, and this camera (identity " +:+
      q identity +:+
      ") exposes none, so a template bound to it could never match. Set security.device_match_granularity = "
      +:+ q "model" +:+
      " to bind by VID:PID, or enroll on a camera that reports a stable serial."
  | UnitNeedsIdentity identity =>
      "refusing to enroll: security.device_match_granularity = " +:+ q "unit" +:+
      " binds each template to one camera unit, and this camera (identity " +:+ q identity +:+
      ") exposes no usable USB identity, so the template would bind to nothing. Set security.device_match_granularity = "
      +:+ q "model" +:+
      ", or enroll on a camera that reports idVendor, idProduct, and a stable serial."
  | LegacyBarredNeedsIdentity identity =>
      "refusing to enroll: this camera (identity " +:+ q identity +:+
      ") exposes no usable USB identity, so its template would be stored without a device id, and security.bind_legacy_templates = false bars such templates from authenticating. Set security.bind_legacy_templates = true to accept templates with no device id, or enroll on a camera that reports idVendor and idProduct."
  | HardBindingNeedsDeviceId =>
      "refusing to enroll: security.bind_device_aad = true seals each template under its enrolling camera's device id, and this camera exposes no usable USB identity, so the template could not be bound. Enroll on a camera that reports both idVendor and idProduct, or set security.bind_device_aad = false; that disables hard binding for new enrollments only, and every template already sealed under it stops decrypting until re-enrolled."
  end.

(** ** Validation *)

(** [(0.0..=1.0).contains(&x)] *)
Definition in_unit_interval (x : f32) : bool := f32_le f32_zero x && f32_le x f32_one.

Definition is_sha256_hex (value : string) : bool :=
  (String.length value =? 64)%nat && str_forall is_ascii_hexdigit value.

Definition ensure (b : bool) (msg : string) : result unit ConfigError :=
  if b then Ok tt else Err (ConfigValidation msg).

Section Validate.
Context `{ShowF32}.

Definition validate (c : Config) : result unit ConfigError :=
  let? _ := ensure (negb (is_some_and is_empty_str (path (device c))))
    "device.path must not be empty when specified" in
  let? _ :=
    match ir_led (device c) with
    | Some led => ensure (is_some (led_class_name led))
        ("device.ir_led must be a /sys/class/leds/<name> path, got " +:+ led)
    | None => Ok tt
    end in
  let? _ := ensure (in_unit_interval (dark_threshold (device c)))
    ("device.dark_threshold must be between 0.0 and 1.0, got " +:+
     show_f32 (dark_threshold (device c))) in
  let? _ := ensure (in_unit_interval (threshold (recognition c)))
    ("recognition.threshold must be between 0.0 and 1.0, got " +:+
     show_f32 (threshold (recognition c))) in
  let? _ := ensure (existsb (Z.eqb (rotation (device c))) [0; 90; 180; 270])
    ("device.rotation must be 0, 90, 180, or 270, got " +:+ show_Z (rotation (device c))) in
  let? _ := ensure (negb (timeout_secs (recognition c) =? 0))
    "recognition.timeout_secs must be > 0" in
  let? _ := ensure (in_unit_interval (frame_variance_max_similarity (security c)))
    ("security.frame_variance_max_similarity must be between 0.0 and 1.0, got " +:+
     show_f32 (frame_variance_max_similarity (security c))) in
  let? _ := ensure (negb (f32_lt (ir_texture_min_stddev (security c)) f32_zero))
    ("security.ir_texture_min_stddev must be >= 0.0, got " +:+
     show_f32 (ir_texture_min_stddev (security c))) in
  let? _ :=
    match detector_sha256 (recognition c) with
    | Some sha => ensure (is_sha256_hex sha)
        ("recognition.detector_sha256 must be a 64-character hex SHA256, got " +:+ sha)
    | None => Ok tt
    end in
  match embedder_sha256 (recognition c) with
  | Some sha => ensure (is_sha256_hex sha)
      ("recognition.embedder_sha256 must be a 64-character hex SHA256, got " +:+ sha)
  | None => Ok tt
  end.

(** [toml::from_str] is a parameter. *)
Definition parse (from_toml : string → result Config string) (toml_str : string) :
    result Config ConfigError :=
  match from_toml toml_str with
  | Err e => Err (ConfigParse e)
  | Ok config => let? _ := validate config in Ok config
  end.

(** [std::fs::read_to_string] as seen by [load_from]. *)
Inductive ReadError := ReadNotFound | ReadOther (message : string).

Definition load_from (from_toml : string → result Config string)
    (read : string → result string ReadError) (p : string) : result Config ConfigError :=
  match read p with
  | Err ReadNotFound => Err (ConfigNotFound p)
  | Err (ReadOther e) => Err (ConfigParse ("failed to read " +:+ p +:+ ": " +:+ e))
  | Ok content => parse from_toml content
  end.
End Validate.

(** ** Desktop notification gating ([crates/facelock-core/src/notify.rs]) *)
Inductive NotifyEvent :=
  | Scanning
  | NotifySuccess (label : option string) (similarity : f32)
  | NotifyFailure (reason : string).

Definition should_notify_desktop (n : NotificationConfig) (e : NotifyEvent) : bool :=
  if negb (desktop n) then false
  else match e with
       | Scanning => policy_enabled (notify_prompt n) false
       | NotifySuccess _ _ => policy_enabled (notify_on_success n) false
       | NotifyFailure _ => policy_enabled (notify_on_failure n) false
       end.

(** ** Properties *)
Lemma ensure_ok b msg : ensure b msg = Ok tt ↔ b = true.
Proof. by destruct b. Qed.

Lemma ensure_bind {A} b msg (k : result A ConfigError) r :
  (let? _ := ensure b msg in k) = Ok r ↔ b = true ∧ k = Ok r.
Proof. destruct b; cbn; [|by split; [|intros [? _]]]. by split; [split|intros [_ ?]]. Qed.

Lemma default_config_validates `{ShowF32} : validate config_default = Ok tt.
Proof. vm_compute. reflexivity. Qed.

(** What a loaded configuration promises the rest of the system. *)
Record valid_config (c : Config) : Prop := {
  vc_threshold : f32_le f32_zero (threshold (recognition c)) = true ∧
                 f32_le (threshold (recognition c)) f32_one = true;
  vc_variance : f32_le f32_zero (frame_variance_max_similarity (security c)) = true ∧
                f32_le (frame_variance_max_similarity (security c)) f32_one = true;
  vc_dark : f32_le f32_zero (dark_threshold (device c)) = true ∧
            f32_le (dark_threshold (device c)) f32_one = true;
  vc_rotation : rotation (device c) ∈ [0; 90; 180; 270];
  vc_timeout : timeout_secs (recognition c) ≠ 0;
  vc_stddev : f32_lt (ir_texture_min_stddev (security c)) f32_zero = false;
  vc_path : path (device c) ≠ Some "";
  vc_led : ∀ led, ir_led (device c) = Some led →
    ∃ name, led = "/sys/class/leds/" +:+ name ∧ name ≠ "" ∧ name ≠ "." ∧ name ≠ ".." ∧
            str_has_char "/" name = false;
  vc_sha : ∀ sha, detector_sha256 (recognition c) = Some sha ∨
    embedder_sha256 (recognition c) = Some sha →
    String.length sha = 64%nat ∧ str_forall is_ascii_hexdigit sha = true;
}.

Lemma led_class_name_some spec name : led_class_name spec = Some name ↔
  spec = "/sys/class/leds/" +:+ name ∧ name ≠ "" ∧ name ≠ "." ∧ name ≠ ".." ∧
  str_has_char "/" name = false.
Proof.
  unfold led_class_name. rewrite <- (strip_prefix_spec _ spec name).
  destruct (strip_prefix _ spec) as [n|]; [|by split; [|intros [? _]]].
  unfold is_empty_str. rewrite <- !negb_orb.
  destruct (_ || _ || _ || _) eqn:E; cbn [negb]; split; [done| | |].
  - intros ([= ->] & ? & ? & ? & ?). exfalso. rewrite !orb_true_iff, !String.eqb_eq in E.
    destruct E as [[[?|?]|?]|?]; congruence.
  - intros [= ->]. bsplit. done.
  - by intros ([= ->] & _).
Qed.

(** A check that only runs when the option is present. *)
Definition checked {A} (o : option A) (f : A → bool) : Prop := ∀ x, o = Some x → f x = true.

Lemma checked_Some {A} (x : A) f : checked (Some x) f ↔ f x = true.
Proof. split; [by intros H; apply H|]. by intros H y [= <-]. Qed.

Lemma option_check_ok {A} (o : option A) (f : A → bool) (msg : A → string) :
  match o with Some x => ensure (f x) (msg x) | None => Ok tt end = Ok tt ↔ checked o f.
Proof.
  destruct o as [x|]; [|by split; [intros _ ? [=]|]].
  by rewrite ensure_ok, checked_Some.
Qed.

Lemma option_check_bind {A B} (o : option A) (f : A → bool) (msg : A → string)
    (k : result B ConfigError) r :
  (let? _ := match o with Some x => ensure (f x) (msg x) | None => Ok tt end in k) = Ok r ↔
  checked o f ∧ k = Ok r.
Proof.
  destruct o as [x|]; [by rewrite ensure_bind, checked_Some|].
  split; [by intros ->; split; [intros ? [=]|]|by intros [_ ->]].
Qed.

Lemma is_sha256_hex_spec sha : is_sha256_hex sha = true ↔
  String.length sha = 64%nat ∧ str_forall is_ascii_hexdigit sha = true.
Proof. unfold is_sha256_hex. by rewrite andb_true_iff, Nat.eqb_eq. Qed.

Lemma validate_ok `{ShowF32} c : validate c = Ok tt ↔ valid_config c.
Proof.
  unfold validate. rewrite !ensure_bind, option_check_bind, !ensure_bind, option_check_bind,
    option_check_ok.
  unfold in_unit_interval. rewrite !andb_true_iff, !negb_true_iff, existsb_Exists, Z.eqb_neq.
  split.
  - intros (Hp & Hl & Hd & Ht & (x & Hx & Hrot) & Hto & Hv & Hs & Hdet & Hemb).
    split; try done.
    + apply Z.eqb_eq in Hrot. by subst x.
    + intros E. by rewrite E in Hp.
    + intros led E. specialize (Hl led E). cbn beta in Hl. destruct (led_class_name led) as [n|] eqn:En; [|done].
      exists n. by apply led_class_name_some in En.
    + intros sha [E|E]; apply is_sha256_hex_spec; [by apply Hdet|by apply Hemb].
  - intros [[? ?] [? ?] [? ?] Hr Ht Hs Hp Hl Hsha]. split_and!; try done.
    + destruct (path (device c)) as [p|]; [|done]. cbn. unfold is_empty_str.
      apply String.eqb_neq. congruence.
    + intros led E. destruct (Hl led E) as (n & Hn).
      by rewrite (proj2 (led_class_name_some led n) Hn).
    + exists (rotation (device c)). split; [done|]. apply Z.eqb_refl.
    + intros sha E. by apply is_sha256_hex_spec, Hsha; left.
    + intros sha E. by apply is_sha256_hex_spec, Hsha; right.
Qed.

(** A configuration file that loads yields a configuration with every documented range:
    thresholds inside [0, 1] (so never NaN), a rotation of a quarter turn, a positive
    timeout, an LED path of exactly one component, and hexadecimal model digests; and a file
    whose decoded value has them always loads, unchanged. *)
Theorem load_from_ok_iff_valid `{ShowF32} from_toml read p content c :
  read p = Ok content → from_toml content = Ok c →
  ∀ r, load_from from_toml read p = Ok r ↔ r = c ∧ valid_config c.
Proof.
  intros Hr Ht r. unfold load_from, parse. rewrite Hr, Ht, <- validate_ok.
  destruct (validate c) as [[]|e]; cbn.
  - split; [by intros [= ->]|by intros [-> _]].
  - split; [done|]. by intros [_ ?].
Qed.

#[local] Instance show_f32_constant : ShowF32 := λ _, "x".

Lemma load_from_ok_iff_valid_witness :
  load_from (λ _, Ok config_default) (λ _, Ok "[security]") "/etc/facelock/config.toml"
    = Ok config_default.
Proof.
  apply (load_from_ok_iff_valid (λ _, Ok config_default) (λ _, Ok "[security]") _
    "[security]" config_default eq_refl eq_refl).
  split; [reflexivity|]. apply validate_ok. vm_compute. reflexivity.
Defined.

Lemma require_aad_opens c dev aad : method (encryption c) ≠ EncNone →
  require_device_aad c dev = Ok aad → device_aad (security c) dev = aad.
Proof.
  intros Hm. unfold require_device_aad, hard_binding_active, device_aad.
  rewrite bool_decide_eq_false_2 by done. cbn [negb]. rewrite andb_true_r.
  destruct (bind_device_aad (security c)); cbn [negb]; [|by intros [= <-]].
  destruct (device_binding_aad dev); [by intros [= <-]|done].
Qed.

(** Enrollment is refused rather than producing a template that could never be used:
    a template enrolled after [ensure_enrollment_binding_allowed] accepts the camera is
    admitted by [device_binding_allows] on that same camera under the same policy, and its
    sealed form is opened under the associated data it was sealed with. *)
Theorem enrollment_accepted_is_usable c fp aad :
  plain_usb_ids fp →
  ensure_enrollment_binding_allowed c fp = Ok tt →
  require_device_aad c (canonical_for_storage fp) = Ok aad →
  device_binding_allows (canonical_for_storage fp) fp (device_binding_policy (security c)) = true ∧
  (method (encryption c) ≠ EncNone → device_aad (security c) (canonical_for_storage fp) = aad).
Proof.
  intros Hplain Hen Haad. split.
  - unfold device_binding_allows. cbn [enabled device_binding_policy granularity allow_legacy].
    destruct (bind_templates_to_device (security c)) eqn:Eb; [cbn [negb]|done].
    unfold ensure_enrollment_binding_allowed, security_ensure_enrollment_binding_allowed in Hen.
    rewrite Eb in Hen. revert Hen. unfold canonical_for_storage.
    destruct (is_unknown fp) eqn:Eu.
    + destruct (decide _), (has_serial fp), (bind_legacy_templates (security c)); cbn; done.
    + assert (is_empty_str (canonical fp) = false) as ->.
      { destruct (is_unknown_false fp Eu) as [Hv _]. unfold canonical.
        by destruct (field (vid fp)). }
      rewrite device_ids_match_own by done.
      destruct (device_match_granularity (security c)), (has_serial fp); cbn; done.
  - intros Hm. by apply require_aad_opens.
Qed.

Lemma enrollment_accepted_is_usable_witness :
  let fp := {| vid := Some "046d"; pid := Some "085e"; serial := None; by_path := None |} in
  ensure_enrollment_binding_allowed config_default fp = Ok tt ∧
  device_binding_allows (canonical_for_storage fp) fp
    (device_binding_policy (security config_default)) = true.
Proof.
  intros fp. split; [reflexivity|].
  exact (proj1 (enrollment_accepted_is_usable config_default fp None
    (conj eq_refl eq_refl) eq_refl eq_refl)).
Defined.
