(* ===== verification/Store.v ===== *)
(** * The template store ([crates/facelock-store])

    [FaceStore] over an SQLite connection. The tables are the rows the SQL statements of
    [db.rs] range over; each statement is a function on them, run through a connection that
    can fail at any statement (the [faults] oracle), holds at most one transaction, and
    rolls back what a failing transaction wrote. What SQLite leaves open, the order of rows
    of a query without [ORDER BY], is the [RowOrder] interface; how [rusqlite] renders an
    error is [ShowSqlite]. *)

From stdpp Require Import sorting.
From S2P Require Import Prelude Float32 Types DeviceBinding.

(** ** Errors ([error.rs]) *)
Inductive ErrorCode :=
  | NotADatabase | DatabaseCorrupt | DatabaseBusy | DatabaseLocked
  | CannotOpen | PermissionDenied | ReadOnly | ConstraintViolation | OtherErrorCode.

Inductive RusqliteError :=
  | SqliteFailure (code : ErrorCode) (extended_code : Z) (message : option string)
  | QueryReturnedNoRows
  | IntegralValueOutOfRange (column : nat) (value : Z)
  | OtherRusqliteError (message : string).

Class ShowSqlite := sqlite_to_string : RusqliteError → string.

Inductive StoreError :=
  | Absent (path : string)
  | Denied (path detail : string)
  | Busy (path detail : string)
  | Corrupt (path detail : string)
  | Migration (path detail : string)
  | Query (path detail : string).

Definition store_error_to_string (e : StoreError) : string :=
  match e with
  | Absent p => "no database at " +:+ p
  | Denied p d => "cannot access database " +:+ p +:+ ": " +:+ d
  | Busy p d => "database " +:+ p +:+ " is locked by another process: " +:+ d
  | Corrupt p d => "database " +:+ p +:+ " is corrupt or not a database: " +:+ d
  | Migration p d => "database " +:+ p +:+ " schema migration failed: " +:+ d
  | Query p d => "database " +:+ p +:+ ": " +:+ d
  end.

Definition classify `{ShowSqlite} (p : string) (e : RusqliteError) : StoreError :=
  let detail :=
    match e with
    | SqliteFailure _ ext (Some msg) => msg +:+ " (sqlite code " +:+ show_Z ext +:+ ")"
    | _ => sqlite_to_string e
    end in
  match e with
  | SqliteFailure (NotADatabase | DatabaseCorrupt) _ _ => Corrupt p detail
  | SqliteFailure (DatabaseBusy | DatabaseLocked) _ _ => Busy p detail
  | SqliteFailure (CannotOpen | PermissionDenied | ReadOnly) _ _ => Denied p detail
  | _ => Query p detail
  end.

(** ** Tables *)
Definition MIN_EMBEDDINGS_PER_MODEL : nat := 3.

Record ModelRow := {
  m_id : Z;
  m_user : string;
  m_label : string;
  m_created_at : Z;
  m_embedder_model : string;
  m_device_id : option string;
  m_key_id : option string;
}.

Record EmbeddingRow := {
  e_id : Z;
  e_model_id : Z;
  e_embedding : list Z;
  e_sealed : Z;
}.

Record AttemptRow := { a_user : string; a_time : Z }.

(** [model_seq] and [embedding_seq] are SQLite's [AUTOINCREMENT] counters. *)
Record Db := {
  face_models : list ModelRow;
  face_embeddings : list EmbeddingRow;
  rate_limit_rows : list AttemptRow;
  model_seq : Z;
  embedding_seq : Z;
}.

Definition db_empty : Db :=
  {| face_models := []; face_embeddings := []; rate_limit_rows := [];
     model_seq := 0; embedding_seq := 0 |}.

(** ** SQL statements, as functions on the tables *)
Definition constraint_failed (msg : string) : RusqliteError :=
  SqliteFailure ConstraintViolation 787 (Some msg).

(** The largest row id. *)
Definition i64_max : Z := 2 ^ 63 - 1.

Definition same_label (user label : string) (m : ModelRow) : bool :=
  String.eqb (m_user m) user && String.eqb (m_label m) label.

Definition has_id (i : Z) (m : ModelRow) : bool := m_id m =? i.

Definition sql_insert_model (user label : string) (created : Z) (embedder : string)
    (dev key : option string) (d : Db) : result (Z * Db) RusqliteError :=
  if existsb (same_label user label) (face_models d)
  then Err (constraint_failed "UNIQUE constraint failed: face_models.user, face_models.label")
  else if i64_max <=? model_seq d
  then Err (SqliteFailure OtherErrorCode 13 (Some "database or disk is full"))
  else
    let i := model_seq d + 1 in
    Ok (i, {| face_models := face_models d ++ [
                {| m_id := i; m_user := user; m_label := label; m_created_at := created;
                   m_embedder_model := embedder; m_device_id := dev; m_key_id := key |}];
              face_embeddings := face_embeddings d; rate_limit_rows := rate_limit_rows d;
              model_seq := i; embedding_seq := embedding_seq d |}).

(** [model_id] references [face_models(id)]. *)
Definition sql_insert_embedding (mid : Z) (data : list Z) (sealed : Z) (d : Db) :
    result (unit * Db) RusqliteError :=
  if negb (existsb (has_id mid) (face_models d))
  then Err (constraint_failed "FOREIGN KEY constraint failed")
  else if i64_max <=? embedding_seq d
  then Err (SqliteFailure OtherErrorCode 13 (Some "database or disk is full"))
  else
    let i := embedding_seq d + 1 in
    Ok (tt, {| face_models := face_models d;
               face_embeddings := face_embeddings d ++ [
                 {| e_id := i; e_model_id := mid; e_embedding := data; e_sealed := sealed |}];
               rate_limit_rows := rate_limit_rows d;
               model_seq := model_seq d; embedding_seq := i |}).

(** [DELETE FROM face_models WHERE p], with [ON DELETE CASCADE] to the embeddings. The
    result is the number of models deleted. *)
Definition sql_delete_models (p : ModelRow → bool) (d : Db) : result (nat * Db) RusqliteError :=
  let gone := List.filter p (face_models d) in
  Ok (length gone,
      {| face_models := List.filter (λ m, negb (p m)) (face_models d);
         face_embeddings :=
           List.filter (λ e, negb (existsb (has_id (e_model_id e)) gone)) (face_embeddings d);
         rate_limit_rows := rate_limit_rows d;
         model_seq := model_seq d; embedding_seq := embedding_seq d |}).

Definition sql_update_embedding (eid : Z) (data : list Z) (sealed : Z) (d : Db) :
    result (nat * Db) RusqliteError :=
  let hit e := e_id e =? eid in
  Ok (length (List.filter hit (face_embeddings d)),
      {| face_models := face_models d;
         face_embeddings := map (λ e, if hit e then
             {| e_id := e_id e; e_model_id := e_model_id e; e_embedding := data;
                e_sealed := sealed |} else e) (face_embeddings d);
         rate_limit_rows := rate_limit_rows d;
         model_seq := model_seq d; embedding_seq := embedding_seq d |}).

Definition sql_update_key_id (mid : Z) (key : option string) (d : Db) :
    result (nat * Db) RusqliteError :=
  Ok (length (List.filter (has_id mid) (face_models d)),
      {| face_models := map (λ m, if has_id mid m then
             {| m_id := m_id m; m_user := m_user m; m_label := m_label m;
                m_created_at := m_created_at m; m_embedder_model := m_embedder_model m;
                m_device_id := m_device_id m; m_key_id := key |} else m) (face_models d);
         face_embeddings := face_embeddings d; rate_limit_rows := rate_limit_rows d;
         model_seq := model_seq d; embedding_seq := embedding_seq d |}).

Definition set_attempts (l : list AttemptRow) (d : Db) : Db :=
  {| face_models := face_models d; face_embeddings := face_embeddings d; rate_limit_rows := l;
     model_seq := model_seq d; embedding_seq := embedding_seq d |}.

Definition sql_insert_attempt (user : string) (t : Z) (d : Db) : result (unit * Db) RusqliteError :=
  Ok (tt, set_attempts (rate_limit_rows d ++ [{| a_user := user; a_time := t |}]) d).

Definition sql_delete_attempts (cutoff : Z) (d : Db) : result (unit * Db) RusqliteError :=
  Ok (tt, set_attempts (List.filter (λ a, negb (a_time a <=? cutoff)) (rate_limit_rows d)) d).

(** [SELECT ... FROM face_models fm JOIN face_embeddings fe ON fe.model_id = fm.id WHERE p]. *)
Definition sql_join (p : ModelRow → bool) (d : Db) : list (ModelRow * EmbeddingRow) :=
  m ← List.filter p (face_models d);
  e ← List.filter (λ e, e_model_id e =? m_id m) (face_embeddings d);
  [(m, e)].

(** ** The connection *)
Record FaceStore := {
  store_path : string;
  db : Db;
  saved : option Db;                    (* the database an open transaction rolls back to *)
  faults : nat → option RusqliteError;  (* what SQLite answers to the n-th statement *)
  tick : nat;
}.

Definition set_db (d : Db) (s : FaceStore) : FaceStore :=
  {| store_path := store_path s; db := d; saved := saved s; faults := faults s; tick := tick s |}.
Definition set_saved (o : option Db) (s : FaceStore) : FaceStore :=
  {| store_path := store_path s; db := db s; saved := o; faults := faults s; tick := tick s |}.
Definition tick_on (s : FaceStore) : FaceStore :=
  {| store_path := store_path s; db := db s; saved := saved s; faults := faults s;
     tick := S (tick s) |}.

(** A computation against the store; [E] is [StoreError] or a caller's error type. *)
Definition M (E A : Type) : Type := FaceStore → result A E * FaceStore.

Definition ret {E A} (a : A) : M E A := λ s, (Ok a, s).
Definition throw {E A} (e : E) : M E A := λ s, (Err e, s).
Definition bind {E A B} (m : M E A) (k : A → M E B) : M E B :=
  λ s, match m s with (Ok a, s') => k a s' | (Err e, s') => (Err e, s') end.
Notation "'do!' x ':=' c 'in' k" := (bind c (λ x, k))
  (at level 10, x name, c at level 200, k at level 200,
   format "'[v' 'do!'  x  ':='  c  'in' '/' k ']'") : rust_scope.

Section Operations.
Context `{ShowSqlite}.

(** [.map_err(|e| self.err(e))] around one statement. *)
Definition exec {A} (f : Db → result (A * Db) RusqliteError) : M StoreError A := λ s,
  let s' := tick_on s in
  match faults s (tick s) with
  | Some e => (Err (classify (store_path s) e), s')
  | None =>
      match f (db s) with
      | Ok (a, d) => (Ok a, set_db d s')
      | Err e => (Err (classify (store_path s) e), s')
      end
  end.

Definition get_u32 (column : nat) (z : Z) : result Z RusqliteError :=
  if (0 <=? z) && (z <=? u32_max) then Ok z else Err (IntegralValueOutOfRange column z).

(** A statement that is prepared and then stepped over its rows; preparing and every step
    can fail, and so can the conversion of a row. *)
Fixpoint step_rows {A B} (conv : A → result B RusqliteError) (rows : list A) :
    M StoreError (list B) :=
  match rows with
  | [] => ret []
  | r :: rows' =>
      do! x := exec (λ d, let? x := conv r in Ok (x, d)) in
      do! xs := step_rows conv rows' in
      ret (x :: xs)
  end.

Definition query_map {A B} (select : Db → list A) (conv : A → result B RusqliteError) :
    M StoreError (list B) :=
  do! rows := exec (λ d, Ok (select d, d)) in
  step_rows conv rows.

(** [query_row("SELECT COUNT..", ..)] read as [u32]. *)
Definition query_count (count : Db → nat) : M StoreError Z :=
  exec (λ d, let? n := get_u32 0 (Z.of_nat (count d)) in Ok (n, d)).

(** *** Transactions *)

(** [BEGIN IMMEDIATE] / [BEGIN EXCLUSIVE]; SQLite has no nested transactions. *)
Definition begin_tx : M StoreError unit := λ s,
  match exec (λ d, Ok (tt, d)) s with
  | (Ok _, s') =>
      match saved s' with
      | Some _ => (Err (classify (store_path s')
          (SqliteFailure OtherErrorCode 1
            (Some "cannot start a transaction within a transaction"))), s')
      | None => (Ok tt, set_saved (Some (db s')) s')
      end
  | (Err e, s') => (Err e, s')
  end.

(** Dropping a [Transaction] that was not committed. *)
Definition rollback (s : FaceStore) : FaceStore :=
  match saved s with
  | Some d => set_saved None (set_db d s)
  | None => s
  end.

Definition commit : M StoreError unit := λ s,
  match exec (λ d, Ok (tt, d)) s with
  | (Ok _, s') => (Ok tt, set_saved None s')
  | (Err e, s') => (Err e, rollback s')
  end.

Definition write_tx : M StoreError unit := begin_tx.

(** [let tx = self.write_tx()?; body; tx.commit()]: an early return of the body drops the
    transaction. *)
Definition in_tx {A} (body : M StoreError A) : M StoreError A := λ s,
  match write_tx s with
  | (Err e, s1) => (Err e, s1)
  | (Ok _, s1) =>
      match body s1 with
      | (Err e, s2) => (Err e, rollback s2)
      | (Ok a, s2) => match commit s2 with
                      | (Ok _, s3) => (Ok a, s3)
                      | (Err e, s3) => (Err e, s3)
                      end
      end
  end.

Definition with_exclusive {T E} (from : StoreError → E) (f : M E T) : M E T := λ s,
  match begin_tx s with
  | (Err e, s1) => (Err (from e), s1)
  | (Ok _, s1) =>
      match f s1 with
      | (Err e, s2) => (Err e, rollback s2)
      | (Ok v, s2) => match commit s2 with
                      | (Ok _, s3) => (Ok v, s3)
                      | (Err e, s3) => (Err (from e), s3)
                      end
      end
  end.

(** *** Writing models *)

(** [SystemTime::now()] since the epoch, [None] when the clock is before it. *)
Definition unix_now (clock : option Z) : Z :=
  match clock with Some secs => as_i64 secs | None => 0 end.

Definition insert_model_row (clock : option Z) (user label embedder : string)
    (dev key : option string) : M StoreError Z :=
  do! rowid := exec (sql_insert_model user label (unix_now clock) embedder dev key) in
  ret (as_u32 rowid).

(** [bytemuck::cast_slice] of the embedding on a little-endian machine. *)
Definition le_bytes (w : Z) : list Z :=
  [w mod 256; w / 2 ^ 8 mod 256; w / 2 ^ 16 mod 256; w / 2 ^ 24 mod 256].

Definition embedding_bytes `{NanEncoding} (e : FaceEmbedding) : list Z :=
  x ← e; le_bytes (f32_to_bits x).

Definition sealed_int (sealed : bool) : Z := if sealed then 1 else 0.

Definition add_model_with_device `{NanEncoding} (clock : option Z) (user label : string)
    (embedding : FaceEmbedding) (embedder : string) (dev : option string) : M StoreError Z :=
  in_tx
    (do! mid := insert_model_row clock user label embedder dev None in
     do! _ := exec (sql_insert_embedding mid (embedding_bytes embedding) 0) in
     ret mid).

Definition add_model `{NanEncoding} clock user label embedding embedder : M StoreError Z :=
  add_model_with_device clock user label embedding embedder None.

Definition add_embedding `{NanEncoding} (mid : Z) (embedding : FaceEmbedding) : M StoreError unit :=
  exec (sql_insert_embedding mid (embedding_bytes embedding) 0).

Definition add_embedding_raw (mid : Z) (data : list Z) (sealed : bool) : M StoreError unit :=
  exec (sql_insert_embedding mid data (sealed_int sealed)).

Definition add_model_raw_with_device (clock : option Z) (user label : string) (data : list Z)
    (sealed : bool) (embedder : string) (dev : option string) : M StoreError Z :=
  in_tx
    (do! mid := insert_model_row clock user label embedder dev None in
     do! _ := exec (sql_insert_embedding mid data (sealed_int sealed)) in
     ret mid).

Definition add_model_raw clock user label data sealed embedder : M StoreError Z :=
  add_model_raw_with_device clock user label data sealed embedder None.

Fixpoint insert_all (mid : Z) (sealed : Z) (blobs : list (list Z)) : M StoreError unit :=
  match blobs with
  | [] => ret tt
  | b :: bs =>
      do! _ := exec (sql_insert_embedding mid b sealed) in
      insert_all mid sealed bs
  end.

Definition replace_refusal (user label : string) (n : nat) : string :=
  "refusing to store a model for " +:+ user +:+ "/" +:+ label +:+ " with " +:+ show_nat n +:+
  " embeddings (minimum " +:+ show_nat MIN_EMBEDDINGS_PER_MODEL +:+ ")".

Definition replace_model_with_embeddings (clock : option Z) (user label : string)
    (blobs : list (list Z)) (sealed : bool) (embedder : string) (dev key : option string) :
    M StoreError Z := λ s,
  if (length blobs <? MIN_EMBEDDINGS_PER_MODEL)%nat
  then (Err (Query (store_path s) (replace_refusal user label (length blobs))), s)
  else
    in_tx
      (do! _ := exec (sql_delete_models (same_label user label)) in
       do! mid := insert_model_row clock user label embedder dev key in
       do! _ := insert_all mid (sealed_int sealed) blobs in
       ret mid) s.

(** *** Removing and updating *)
Definition remove_model_by_label (user label : string) : M StoreError bool :=
  do! affected := exec (sql_delete_models (same_label user label)) in
  ret (0 <? affected)%nat.

Definition remove_model (user : string) (mid : Z) : M StoreError bool :=
  do! affected := exec (sql_delete_models (λ m, has_id mid m && String.eqb (m_user m) user)) in
  ret (0 <? affected)%nat.

Definition clear_user (user : string) : M StoreError Z :=
  do! affected := exec (sql_delete_models (λ m, String.eqb (m_user m) user)) in
  ret (as_u32 (Z.of_nat affected)).

Definition clear_all : M StoreError Z :=
  do! affected := exec (sql_delete_models (λ _, true)) in
  ret (as_u32 (Z.of_nat affected)).

Definition update_embedding_sealed (eid : Z) (data : list Z) (sealed : bool) : M StoreError unit :=
  do! affected := exec (sql_update_embedding eid data (sealed_int sealed)) in
  λ s, if (affected =? 0)%nat
       then (Err (Query (store_path s) ("embedding ID " +:+ show_Z eid +:+ " not found")), s)
       else (Ok tt, s).

Definition set_model_key_id (mid : Z) (key : option string) : M StoreError unit :=
  do! affected := exec (sql_update_key_id mid key) in
  λ s, if (affected =? 0)%nat
       then (Err (Query (store_path s) ("model ID " +:+ show_Z mid +:+ " not found")), s)
       else (Ok tt, s).

(** *** Rate-limit rows *)
Definition record_auth_attempt (clock : option Z) (user : string) : M StoreError unit :=
  exec (sql_insert_attempt user (unix_now clock)).

Definition recent_attempts (user : string) (cutoff : Z) (l : list AttemptRow) : list AttemptRow :=
  List.filter (λ a, String.eqb (a_user a) user && (cutoff <? a_time a)) l.

Definition check_rate_limit (clock : option Z) (user : string) (max_attempts window_secs : Z) :
    M StoreError bool :=
  let cutoff := unix_now clock - as_i64 window_secs in
  do! count := query_count (λ d, length (recent_attempts user cutoff (rate_limit_rows d))) in
  ret (count <? max_attempts).

Definition cleanup_rate_limit (clock : option Z) (window_secs : Z) : M StoreError unit :=
  exec (sql_delete_attempts (unix_now clock - as_i64 window_secs)).

(** *** Existence queries *)
Definition has_models (user : string) : M StoreError bool :=
  do! count := query_count
    (λ d, length (List.filter (λ m, String.eqb (m_user m) user) (face_models d))) in
  ret (0 <? count).

Definition has_models_for_embedder (user embedder : string) : M StoreError bool :=
  do! count := query_count (λ d, length (List.filter
    (λ m, String.eqb (m_user m) user && String.eqb (m_embedder_model m) embedder)
    (face_models d))) in
  ret (0 <? count).

Definition has_any_models : M StoreError bool :=
  do! count := query_count (λ d, length (face_models d)) in
  ret (0 <? count).

Definition count_sealed : M StoreError (Z * Z) :=
  do! sealed := query_count
    (λ d, length (List.filter (λ e, negb (e_sealed e =? 0)) (face_embeddings d))) in
  do! unsealed := query_count
    (λ d, length (List.filter (λ e, e_sealed e =? 0) (face_embeddings d))) in
  ret (sealed, unsealed).
End Operations.

(** ** Queries that return rows

    [scan] is the order SQLite returns the rows of a query without [ORDER BY] in. *)
Class RowOrder := {
  scan : ∀ {A : Type}, list A → list A;
  scan_perm : ∀ A (l : list A), scan l ≡ₚ l;
}.

#[export] Instance row_order_rowid : RowOrder := { scan _ l := l; scan_perm _ _ := reflexivity _ }.

Record RawEmbeddingRow := {
  raw_model_id : Z;
  raw_blob : list Z;
  raw_sealed : bool;
  raw_device_id : option string;
  raw_key_id : option string;
}.

Section Queries.
Context `{ShowSqlite} `{RowOrder}.

Definition of_user (user : string) (m : ModelRow) : bool := String.eqb (m_user m) user.

Definition model_info (m : ModelRow) : result FaceModelInfo RusqliteError :=
  let? i := get_u32 0 (m_id m) in
  Ok {| model_id := i; model_user := m_user m; model_label := m_label m;
        created_at := m_created_at m mod 2 ^ 64; embedder_model := m_embedder_model m;
        device_id := m_device_id m; key_id := m_key_id m |}.

Definition list_models (user : string) : M StoreError (list FaceModelInfo) :=
  query_map (λ d, scan (List.filter (of_user user) (face_models d))) model_info.

(** [SELECT DISTINCT user FROM face_models ORDER BY user], in byte order. *)
Definition byte_le (s t : string) : Prop := String.leb s t = true.
#[local] Instance byte_le_dec s t : Decision (byte_le s t) := bool_eq_dec _ _.

Definition list_users : M StoreError (list string) :=
  query_map (λ d, merge_sort byte_le (remove_dups (map m_user (face_models d)))) Ok.

(** [float_of_le] reads back what [le_bytes] wrote. *)
Fixpoint floats_of_bytes (bs : list Z) : list f32 :=
  match bs with
  | b0 :: b1 :: b2 :: b3 :: rest =>
      f32_from_bits (b0 + b1 * 2 ^ 8 + b2 * 2 ^ 16 + b3 * 2 ^ 24) :: floats_of_bytes rest
  | _ => []
  end.

Definition id_and_blob (r : ModelRow * EmbeddingRow) : result (Z * list Z) RusqliteError :=
  let? i := get_u32 0 (m_id (fst r)) in Ok (i, e_embedding (snd r)).

(** The row loop: rows already collected are wiped when a later one is refused. *)
Fixpoint collect_embeddings (acc : list (Z * FaceEmbedding)) (rows : list (ModelRow * EmbeddingRow)) :
    M StoreError (list (Z * FaceEmbedding)) :=
  match rows with
  | [] => ret acc
  | r :: rows' =>
      do! x := exec (λ d, let? x := id_and_blob r in Ok (x, d)) in
      if (length (snd x) =? 512 * 4)%nat
      then collect_embeddings (acc ++ [(fst x, floats_of_bytes (snd x))]) rows'
      else λ s, (Err (Corrupt (store_path s)
             ("invalid embedding blob size: expected 2048 bytes, got " +:+
              show_nat (length (snd x)))), s)
  end.

Definition get_user_embeddings (user : string) : M StoreError (list (Z * FaceEmbedding)) :=
  do! rows := exec (λ d, Ok (scan (sql_join (of_user user) d), d)) in
  collect_embeddings [] rows.

Definition id_blob_sealed (r : ModelRow * EmbeddingRow) : result (Z * list Z * bool) RusqliteError :=
  let? i := get_u32 0 (m_id (fst r)) in
  Ok (i, e_embedding (snd r), negb (e_sealed (snd r) =? 0)).

Definition get_user_embeddings_raw (user : string) : M StoreError (list (Z * list Z * bool)) :=
  query_map (λ d, scan (sql_join (of_user user) d)) id_blob_sealed.

Definition raw_row (r : ModelRow * EmbeddingRow) : result RawEmbeddingRow RusqliteError :=
  let? i := get_u32 0 (m_id (fst r)) in
  Ok {| raw_model_id := i; raw_blob := e_embedding (snd r);
        raw_sealed := negb (e_sealed (snd r) =? 0);
        raw_device_id := m_device_id (fst r); raw_key_id := m_key_id (fst r) |}.

Definition get_user_embeddings_raw_with_device (user : string) :
    M StoreError (list RawEmbeddingRow) :=
  query_map (λ d, scan (sql_join (of_user user) d)) raw_row.

Definition all_row (r : ModelRow * EmbeddingRow) :
    result (Z * string * list Z * bool * Z) RusqliteError :=
  let? i := get_u32 0 (e_id (snd r)) in
  let? mid := get_u32 4 (m_id (fst r)) in
  Ok (i, m_user (fst r), e_embedding (snd r), negb (e_sealed (snd r) =? 0), mid).

Definition get_all_embeddings_raw : M StoreError (list (Z * string * list Z * bool * Z)) :=
  query_map (λ d, scan (sql_join (λ _, true) d)) all_row.

(** [substr(embedding, 1, 1), length(embedding)] *)
Definition embedding_blob_shapes : M StoreError (list (option Z * nat)) :=
  query_map (λ d, scan (face_embeddings d))
    (λ e, Ok (head (e_embedding e), length (e_embedding e))).

Definition sealed_models (d : Db) : list ModelRow :=
  List.filter (λ m, existsb (λ e, (e_model_id e =? m_id m) && negb (e_sealed e =? 0))
    (face_embeddings d)) (face_models d).

(** [ORDER BY fm.key_id]: NULL first. *)
Definition key_le (a b : option string) : Prop :=
  match a, b with
  | None, _ => True
  | Some _, None => False
  | Some s, Some t => byte_le s t
  end.
#[local] Instance key_le_dec a b : Decision (key_le a b).
Proof. destruct a, b; apply _. Defined.

Definition count_sealed_models_by_key_id : M StoreError (list (option string * Z)) :=
  query_map (λ d, map (λ k, (k, length (List.filter
      (λ m, bool_decide (m_key_id m = k)) (sealed_models d))))
      (merge_sort key_le (remove_dups (map m_key_id (sealed_models d)))))
    (λ r, let? n := get_u32 1 (Z.of_nat (snd r)) in Ok (fst r, n)).

(** [ORDER BY created_at DESC LIMIT 1] *)
Definition newest (l : list ModelRow) : option ModelRow :=
  fold_left (λ best m, match best with
    | Some b => if m_created_at b <? m_created_at m then Some m else best
    | None => Some m
    end) l None.

Definition get_user_embedder_model (user : string) : M StoreError (option string) :=
  exec (λ d, Ok (m_embedder_model <$> newest (scan (List.filter (of_user user) (face_models d))), d)).
End Queries.

(** ** Opening a database *)

(** What [std::fs::metadata] reports for a path. *)
Inductive Metadata := IsFile | IsOther | StatNotFound | StatError (message : string).

Definition stat_existing (md : Metadata) (p : string) : result unit StoreError :=
  match md with
  | IsFile => Ok tt
  | IsOther => Err (Corrupt p "path exists but is not a regular file")
  | StatNotFound => Err (Absent p)
  | StatError e => Err (Denied p ("cannot stat: " +:+ e))
  end.

Definition database_exists (md : Metadata) : bool :=
  match md with IsFile => true | _ => false end.
