(* ===== verification/Migrations.v ===== *)
(** * Migrations: opening the database and bringing its schema forward

    [facelock-store/src/migrations.rs] and the constructors of [FaceStore] in [db.rs]. The
    database file is a set of SQL tables; every statement of a migration is a step of its own,
    outside any transaction, before which other processes may act, and which may fail or be the
    last one. [Store.v] is what the tables mean once the schema is current. *)

From stdpp Require Import gmap.
From S2P Require Import Prelude Store.

(** ** SQL tables

    A row written before a column was added is shorter than the list of columns and is read with
    the column's default. [sequence] is the table's [AUTOINCREMENT] counter. *)
Inductive Value := VNull | VInt (z : Z) | VText (s : string) | VBlob (b : list Z).

#[export] Instance Value_eq_dec : EqDecision Value.
Proof. solve_decision. Defined.

Record Column := { col_name : string; col_default : Value }.
Record Table := { columns : list Column; rows : list (list Value); sequence : Z }.

(** The tables in the order they were created in, and the indexes with their table. *)
Record Database := { tables : list (string * Table); indexes : list (string * string) }.

Definition empty_database : Database := {| tables := []; indexes := [] |}.

Definition table (name : string) (d : Database) : option Table :=
  snd <$> List.find (λ t, String.eqb (fst t) name) (tables d).

Inductive Statement :=
  | CreateTable (if_not_exists : bool) (name : string) (cols : list Column)
  | CreateIndexIfNotExists (name on : string)
  | DropTableIfExists (name : string)
  | AddColumn (on : string) (c : Column)
  | InsertOrReplaceVersion (v : Z).

Definition create_table (name : string) (t : Table) (d : Database) : Database :=
  {| tables := tables d ++ [(name, t)]; indexes := indexes d |}.
Definition change_table (name : string) (t : Table) (d : Database) : Database :=
  {| tables := map (λ t', if String.eqb (fst t') name then (name, t) else t') (tables d); indexes := indexes d |}.

Definition sql_error (message : string) : RusqliteError := SqliteFailure OtherErrorCode 1 (Some message).

Definition sql_statement (s : Statement) (d : Database) : result Database RusqliteError :=
  match s with
  | CreateTable if_not_exists name cols =>
      match table name d with
      | Some _ => if if_not_exists then Ok d else Err (sql_error ("table " +:+ name +:+ " already exists"))
      | None => Ok (create_table name {| columns := cols; rows := []; sequence := 0 |} d)
      end
  | CreateIndexIfNotExists name on =>
      if existsb (λ i, String.eqb (fst i) name) (indexes d) then Ok d
      else match table on d with
           | None => Err (sql_error ("no such table: main." +:+ on))
           | Some _ => Ok {| tables := tables d; indexes := indexes d ++ [(name, on)] |}
           end
  | DropTableIfExists name =>
      Ok {| tables := List.filter (λ t, negb (String.eqb (fst t) name)) (tables d);
            indexes := List.filter (λ i, negb (String.eqb (snd i) name)) (indexes d) |}
  | AddColumn on c =>
      match table on d with
      | None => Err (sql_error ("no such table: " +:+ on))
      | Some t =>
          if existsb (λ c', String.eqb (col_name c') (col_name c)) (columns t)
          then Err (sql_error ("duplicate column name: " +:+ col_name c))
          else Ok (change_table on {| columns := columns t ++ [c]; rows := rows t; sequence := sequence t |} d)
      end
  | InsertOrReplaceVersion v =>
      match table "schema_version" d with
      | None => Err (sql_error "no such table: schema_version")
      | Some t =>
          Ok (change_table "schema_version"
                {| columns := columns t; sequence := sequence t;
                   rows := List.filter (λ r, negb (bool_decide (r = [VInt v]))) (rows t) ++ [[VInt v]] |} d)
      end
  end.

(** [SELECT COALESCE(MAX(version), 0) FROM schema_version] *)
Definition row_version (r : list Value) : Z := match r with VInt v :: _ => v | _ => 0 end.

Definition max_version (versions : list Z) : Z :=
  match versions with [] => 0 | v :: versions => fold_left Z.max versions v end.

Definition sql_version (d : Database) : result Z RusqliteError :=
  match table "schema_version" d with
  | None => Err (sql_error "no such table: schema_version")
  | Some t => Ok (max_version (map row_version (rows t)))
  end.

(** ** The file

    [presence] is what [stat] says of the path; [content] is meaningful while it is a file.
    [modes] are the permission bits of the paths that exist. *)
Record Disk := { presence : Store.Metadata; content : Database; modes : gmap string Z }.

Definition set_content (c : Database) (k : Disk) : Disk :=
  {| presence := presence k; content := c; modes := modes k |}.

(** What happens at one step: what other processes did before it, whether the process ends there,
    and how SQLite or the system call fails if it does. *)
Record Event := { others : Disk → Disk; stops : bool; sqlite_fails : option RusqliteError; io_fails : option string }.

Definition undisturbed : Event := {| others := id; stops := false; sqlite_fails := None; io_fails := None |}.
Definition killed_here : Event := {| others := id; stops := true; sqlite_fails := None; io_fails := None |}.

Inductive Outcome (A : Type) := Returned (r : result A StoreError) | Stopped.
Arguments Returned {A} r.
Arguments Stopped {A}.

Definition Open (A : Type) : Type := Disk → list Event → Outcome A * Disk * list Event.

Definition returns {A} (r : result A StoreError) : Open A := λ k es, (Returned r, k, es).
Definition and_then {A B} (c : Open A) (f : A → Open B) : Open B := λ k es,
  match c k es with
  | (Returned (Ok a), k, es) => f a k es
  | (Returned (Err e), k, es) => (Returned (Err e), k, es)
  | (Stopped, k, es) => (Stopped, k, es)
  end.

#[export] Instance Open_ret : MRet Open := λ A a, returns (Ok a).
#[export] Instance Open_bind : MBind Open := λ A B f c, and_then c f.

(** One step. Events that are not given are undisturbed. *)
Definition step {A} (f : Event → Disk → result A StoreError * Disk) : Open A := λ k es,
  let e := default undisturbed (head es) in
  let k := others e k in
  if stops e then (Stopped, k, tail es) else let '(r, k) := f e k in (Returned r, k, tail es).

Section opening.
Context `{ShowSqlite}.
Context (path : string).

(** A statement on the connection; [because] is how its failure is reported. *)
Definition sql {A} (because : RusqliteError → StoreError) (f : Database → result (A * Database) RusqliteError) : Open A :=
  step (λ e k,
    match sqlite_fails e with
    | Some err => (Err (because err), k)
    | None => match f (content k) with
              | Err err => (Err (because err), k)
              | Ok (a, c) => (Ok a, set_content c k)
              end
    end).

(** *** Migrations *)
Definition migration_err (e : RusqliteError) : StoreError :=
  Migration path (sqlite_to_string e).

(** [execute_batch] runs the statements of a batch one after the other. *)
Fixpoint execute_batch (batch : list Statement) : Open unit :=
  match batch with
  | [] => mret tt
  | s :: batch => _ ← sql migration_err (λ d, let? d := sql_statement s d in Ok (tt, d)); execute_batch batch
  end.

Definition column (name : string) (default : Value) : Column := {| col_name := name; col_default := default |}.
Definition plain (name : string) : Column := column name VNull.

Definition V1 : list Statement :=
  [ CreateTable true "schema_version" [plain "version"];
    CreateTable true "face_models" [plain "id"; plain "user"; plain "label"; plain "created_at"];
    CreateIndexIfNotExists "idx_face_models_user" "face_models" ].
Definition V2 : list Statement :=
  [ DropTableIfExists "face_embeddings";
    CreateTable false "face_embeddings" [plain "id"; plain "model_id"; plain "embedding"];
    CreateIndexIfNotExists "idx_face_embeddings_model" "face_embeddings";
    InsertOrReplaceVersion 2 ].
Definition V3 : list Statement :=
  [ AddColumn "face_embeddings" (column "sealed" (VInt 0)); InsertOrReplaceVersion 3 ].
Definition V4 : list Statement :=
  [ CreateTable true "rate_limit" [plain "user"; plain "attempt_time"];
    CreateIndexIfNotExists "idx_rate_limit_user" "rate_limit";
    InsertOrReplaceVersion 4 ].
Definition V5 : list Statement :=
  [ AddColumn "face_models" (column "embedder_model" (VText "")); InsertOrReplaceVersion 5 ].
Definition V6 : list Statement := [ AddColumn "face_models" (plain "device_id"); InsertOrReplaceVersion 6 ].
Definition V7 : list Statement := [ AddColumn "face_models" (plain "key_id"); InsertOrReplaceVersion 7 ].

Definition run_migrations : Open unit :=
  _ ← execute_batch V1;
  version ← sql migration_err (λ d, let? v := sql_version d in Ok (v, d));
  _ ← (if version <? 2 then execute_batch V2 else mret tt);
  _ ← (if version <? 3 then execute_batch V3 else mret tt);
  _ ← (if version <? 4 then execute_batch V4 else mret tt);
  _ ← (if version <? 5 then execute_batch V5 else mret tt);
  _ ← (if version <? 6 then execute_batch V6 else mret tt);
  if version <? 7 then execute_batch V7 else mret tt.

(** *** Opening *)
Definition sqlite_sidecar_path (suffix : string) : string := path +:+ suffix.

Definition secure (p : string) : Open unit :=
  step (λ e k,
    match modes k !! p with
    | None => (Ok tt, k)
    | Some _ =>
        match io_fails e with
        | Some err => (Err (Denied p ("failed to secure database file: " +:+ err)), k)
        | None => (Ok tt, {| presence := presence k; content := content k; modes := <[p := 384 (* 0o600 *)]> (modes k) |})
        end
    end).

Fixpoint secure_all (paths : list string) : Open unit :=
  match paths with
  | [] => mret tt
  | p :: paths => _ ← secure p; secure_all paths
  end.

Definition secure_database_files : Open unit :=
  secure_all [path; sqlite_sidecar_path "-wal"; sqlite_sidecar_path "-shm"].

(** A statement that changes no table: setting the busy timeout, a pragma. *)
Definition setting : Open unit := sql (classify path) (λ d, Ok (tt, d)).

Definition init : Open unit :=
  _ ← setting;
  _ ← setting;
  _ ← setting;
  _ ← run_migrations;
  secure_database_files.

Definition stat : Open unit := step (λ _ k, (stat_existing (presence k) path, k)).

(** [sqlite3_open_v2]; a file is only created when the flags ask for it, with what the umask
    leaves of its mode. *)
Definition open_with_flags (creates : bool) (umask : Z) : Open unit :=
  step (λ e k,
    let unable := SqliteFailure CannotOpen 14 (Some "unable to open database file") in
    match sqlite_fails e with
    | Some err => (Err (classify path err), k)
    | None =>
        match presence k with
        | IsFile => (Ok tt, k)
        | StatNotFound =>
            if creates
            then (Ok tt, {| presence := IsFile; content := empty_database;
                            modes := <[path := Z.land 420 (Z.lnot umask)]> (modes k) |})
            else (Err (classify path unable), k)
        | _ => (Err (classify path unable), k)
        end
    end).

Definition open_existing : Open unit :=
  _ ← stat;
  _ ← open_with_flags false 0;
  init.

Definition create (umask : Z) : Open unit :=
  _ ← open_with_flags true umask;
  init.

Definition open_readonly : Open unit :=
  _ ← stat;
  _ ← open_with_flags false 0;
  setting.

(** [open_memory]: a database of its own, which starts empty. *)
Definition open_memory : Open unit :=
  _ ← setting;
  run_migrations.
End opening.
