(* ===== verification/MigrationsProofs.v ===== *)
(** * MigrationsProofs: what opening an older database keeps, and what an interruption breaks

    An undisturbed opening brings every earlier schema to the current one and keeps every template
    that was stored in it; an opening that is interrupted is taken up again by the next one,
    unless it stopped right after adding a column. *)

From stdpp Require Import gmap.
From S2P Require Import Prelude Store Migrations.

(** ** The databases of the earlier releases *)
Record Content := {
  c_models : list (list Value); c_embeddings : list (list Value); c_attempts : list (list Value);
  c_model_seq : Z; c_embedding_seq : Z; c_old : option (list Column) }.

Definition versions_up_to (v : nat) : list (list Value) := map (λ n, [VInt (Z.of_nat n)]) (seq 2 (v - 1)).

Definition model_columns (v : nat) : list Column :=
  [plain "id"; plain "user"; plain "label"; plain "created_at"]
  ++ (if (5 <=? v)%nat then [column "embedder_model" (VText "")] else [])
  ++ (if (6 <=? v)%nat then [plain "device_id"] else []) ++ (if (7 <=? v)%nat then [plain "key_id"] else []).
Definition embedding_columns (v : nat) : list Column :=
  [plain "id"; plain "model_id"; plain "embedding"] ++ (if (3 <=? v)%nat then [column "sealed" (VInt 0)] else []).

(** The tables a run to schema [v] leaves. The first release had its embeddings in a table of its
    own, whose columns are not in the source any more. *)
Definition database_at (v : nat) (c : Content) : Database :=
  let embeddings cols := [("face_embeddings", {| columns := cols; rows := c_embeddings c; sequence := c_embedding_seq c |})] in
  match v with
  | O => empty_database
  | _ => {|
      tables :=
        [("schema_version", {| columns := [plain "version"]; rows := versions_up_to v; sequence := 0 |});
         ("face_models", {| columns := model_columns v; rows := c_models c; sequence := c_model_seq c |})]
        ++ (if (2 <=? v)%nat then embeddings (embedding_columns v) else match c_old c with Some cols => embeddings cols | None => [] end)
        ++ (if (4 <=? v)%nat then [("rate_limit", {| columns := [plain "user"; plain "attempt_time"]; rows := c_attempts c; sequence := 0 |})] else []);
      indexes := [("idx_face_models_user", "face_models")]
        ++ (if (2 <=? v)%nat then [("idx_face_embeddings_model", "face_embeddings")] else [])
        ++ (if (4 <=? v)%nat then [("idx_rate_limit_user", "rate_limit")] else []) |}
  end.

(** What the current schema holds after a database of version [v] was brought forward. *)
Definition carried (v : nat) (c : Content) : Content := {|
  c_models := if (1 <=? v)%nat then c_models c else [];
  c_embeddings := if (2 <=? v)%nat then c_embeddings c else [];
  c_attempts := if (4 <=? v)%nat then c_attempts c else [];
  c_model_seq := if (1 <=? v)%nat then c_model_seq c else 0;
  c_embedding_seq := if (2 <=? v)%nat then c_embedding_seq c else 0; c_old := None |}.

Ltac each_version v := destruct v as [|[|[|[|[|[|[|[|v]]]]]]]]; [..|exfalso; lia].

Section migrating.
Context `{ShowSqlite}.
Context (path : string).

(** *** Batches as functions *)
Fixpoint run_all (batch : list Statement) (d : Database) : result Database RusqliteError :=
  match batch with
  | [] => Ok d
  | s :: batch => let? d := sql_statement s d in run_all batch d
  end.

Lemma run_all_app b1 b2 d : run_all (b1 ++ b2) d = let? d := run_all b1 d in run_all b2 d.
Proof. revert d. induction b1 as [|s b1 IH]; intros d; cbn; [done|]. destruct (sql_statement s d); [apply IH|done]. Qed.

Lemma run_all_take b n d d' : run_all b d = Ok d' → ∃ d1, run_all (take n b) d = Ok d1.
Proof.
  rewrite <- (take_drop n b) at 1. rewrite run_all_app. destruct (run_all (take n b) d) as [d1|]; [by exists d1|done].
Qed.

(** A step at which nobody else does anything and the run fails or ends. *)
Definition interruption (e : Event) : Prop := others e = id ∧ (stops e = true ∨ is_some (sqlite_fails e) = true).

Definition cut_short {A} (e : Event) : Outcome A :=
  if stops e then Stopped
  else match sqlite_fails e with Some err => Returned (Err (migration_err path err)) | None => Stopped end.

Lemma set_content_id k : set_content (content k) k = k.
Proof. by destruct k. Qed.
Lemma set_content_twice d d' k : set_content d' (set_content d k) = set_content d' k.
Proof. done. Qed.

(** One undisturbed statement, and one that is interrupted. *)
Lemma sql_undisturbed {A} because (f : Database → result (A * Database) RusqliteError) k es :
  sql because f k (undisturbed :: es) =
    match f (content k) with
    | Ok (a, d) => (Returned (Ok a), set_content d k, es)
    | Err err => (Returned (Err (because err)), k, es)
    end.
Proof. unfold sql, step. cbn. destruct (f (content k)) as [[a d]|err]; done. Qed.

Lemma sql_interrupted {A} (f : Database → result (A * Database) RusqliteError) k e es : interruption e →
  sql (migration_err path) f k (e :: es) = (cut_short e, k, es).
Proof.
  intros [Ho He]. unfold sql, step, cut_short. cbn. rewrite Ho. destruct (stops e); [done|].
  destruct (sqlite_fails e); [done|]. by destruct He.
Qed.

Lemma execute_through b : ∀ k d es, run_all b (content k) = Ok d →
  execute_batch path b k (repeat undisturbed (length b) ++ es) = (Returned (Ok tt), set_content d k, es).
Proof.
  induction b as [|s b IH]; intros k d es Hb; cbn [run_all length repeat app execute_batch] in *.
  - injection Hb as <-. by rewrite set_content_id.
  - unfold mbind, Open_bind, and_then. rewrite sql_undisturbed. destruct (sql_statement s (content k)) as [d1|]; [|done].
    rewrite (IH (set_content d1 k) d es) by done. done.
Qed.

Lemma execute_interrupted b : ∀ k d n e, (n < length b)%nat → interruption e → run_all (take n b) (content k) = Ok d →
  execute_batch path b k (repeat undisturbed n ++ [e]) = (cut_short e, set_content d k, []).
Proof.
  induction b as [|s b IH]; intros k d [|n] e Hn He Hb; cbn [length take run_all repeat app execute_batch] in *; try lia;
    unfold mbind, Open_bind, and_then.
  - injection Hb as <-. rewrite sql_interrupted by done. unfold cut_short. rewrite set_content_id.
    destruct He as [_ He]. destruct (stops e); [done|]. destruct (sqlite_fails e); [done|]. by destruct He.
  - rewrite sql_undisturbed. destruct (sql_statement s (content k)) as [d1|]; [|done].
    rewrite (IH (set_content d1 k) d n e) by (done || lia). done.
Qed.

Lemma execute_app b1 b2 k es : execute_batch path (b1 ++ b2) k es =
  (_ ← execute_batch path b1; execute_batch path b2) k es.
Proof.
  revert k es. induction b1 as [|s b1 IH]; intros k es; cbn [app execute_batch]; [done|].
  unfold mbind, Open_bind, and_then. destruct (sql _ _ k es) as [[[[[]|err]|] k'] es']; [|done|done].
  apply IH.
Qed.

(** *** The whole run as two batches around the query *)
Definition pending (version : Z) : list Statement :=
  (if version <? 2 then V2 else []) ++ (if version <? 3 then V3 else []) ++ (if version <? 4 then V4 else [])
  ++ (if version <? 5 then V5 else []) ++ (if version <? 6 then V6 else []) ++ (if version <? 7 then V7 else []).

Definition ask_version : Open Z := sql (migration_err path) (λ d, let? v := sql_version d in Ok (v, d)).

Lemma when_then (c : bool) b rest k es :
  (_ ← (if c then execute_batch path b else mret tt); execute_batch path rest) k es
  = execute_batch path ((if c then b else []) ++ rest) k es.
Proof. by rewrite execute_app; destruct c. Qed.

Lemma bind_ext {A B} (c : Open A) (f g : A → Open B) k es : (∀ a k es, f a k es = g a k es) → (c ≫= f) k es = (c ≫= g) k es.
Proof. intros E. unfold mbind, Open_bind, and_then. by destruct (c k es) as [[[[a|err]|] k'] es']. Qed.

Lemma run_flat k es : run_migrations path k es =
  (_ ← execute_batch path V1; version ← ask_version; execute_batch path (pending version)) k es.
Proof.
  unfold run_migrations. apply bind_ext. intros _ k1 es1. apply bind_ext. intros v k2 es2. unfold pending.
  rewrite <- when_then. apply bind_ext. intros _ k3 es3. rewrite <- when_then. apply bind_ext. intros _ k4 es4.
  rewrite <- when_then. apply bind_ext. intros _ k5 es5. rewrite <- when_then. apply bind_ext. intros _ k6 es6.
  rewrite <- when_then. apply bind_ext. intros _ k7 es7. by destruct (v <? 7).
Qed.

(** *** The states a run passes through *)
Definition version_of (v : nat) : Z := if (v <? 2)%nat then 0 else Z.of_nat v.

Definition with_first_tables (v : nat) (c : Content) : Database :=
  match v with O => database_at 1 (carried 0 c) | _ => database_at v c end.

Lemma first_batch v c : (v ≤ 7)%nat → run_all V1 (database_at v c) = Ok (with_first_tables v c).
Proof. intros Hv. destruct c as [ms es ats a b old]. each_version v; try destruct old; reflexivity. Qed.

Lemma first_version v c : (v ≤ 7)%nat → sql_version (with_first_tables v c) = Ok (version_of v).
Proof. intros Hv. each_version v; reflexivity. Qed.

(** The batch that brings version [v] to the next one. *)
Definition batch (v : nat) : list Statement :=
  match v with 1%nat => V2 | 2%nat => V3 | 3%nat => V4 | 4%nat => V5 | 5%nat => V6 | 6%nat => V7 | _ => [] end.

Lemma batch_applied v c : (1 ≤ v ≤ 6)%nat → run_all (batch v) (database_at v c) = Ok (database_at (S v) (carried v c)).
Proof. intros Hv. destruct c as [ms es ats a b old]. each_version v; try lia; try destruct old; reflexivity. Qed.

Lemma carried_twice v c : (v ≤ 7)%nat → carried (S v) (carried v c) = carried v c.
Proof. intros Hv. each_version v; reflexivity. Qed.

(** From version [v] on, batch by batch. *)
Fixpoint batches (v fuel : nat) : list Statement :=
  match fuel with O => [] | S fuel => batch v ++ batches (S v) fuel end.

Lemma pending_batches v : (v ≤ 7)%nat → pending (version_of v) = batches (Nat.max 1 v) (7 - Nat.max 1 v).
Proof. intros Hv. each_version v; reflexivity. Qed.

Lemma batches_applied fuel : ∀ v c, (1 ≤ v)%nat → (v + fuel = 7)%nat →
  run_all (batches v fuel) (database_at v c) = Ok (database_at 7 (carried v c)).
Proof.
  induction fuel as [|fuel IH]; intros v c Hv Hf; cbn [batches].
  - assert (v = 7%nat) as -> by lia. destruct c. reflexivity.
  - rewrite run_all_app, batch_applied by lia. cbv beta iota. rewrite IH by lia. by rewrite carried_twice by lia.
Qed.

(** The column whose addition was the last of the first [n] statements. *)
Definition added (l : list Statement) (n : nat) : option string :=
  match n with
  | O => None
  | S n => match nth_error l n with Some (AddColumn _ c) => Some (col_name c) | _ => None end
  end.

(** The steps of a run over a database of version [v]; [None] is the query. *)
Definition steps (v : nat) : list (option Statement) := map Some V1 ++ [None] ++ map Some (pending (version_of v)).

Definition just_added (v n : nat) : option string :=
  match n with
  | O => None
  | S n => match nth_error (steps v) n with Some (Some (AddColumn _ c)) => Some (col_name c) | _ => None end
  end.

(** What the next run does with a database. *)
Definition resumes (d : Database) (column : option string) (c : Content) : Prop :=
  ∀ k, content k = d → run_migrations path k [] =
    match column with
    | Some col => (Returned (Err (migration_err path (sql_error ("duplicate column name: " +:+ col)))), k, [])
    | None => (Returned (Ok tt), set_content (database_at 7 c) k, [])
    end.

Lemma batch_resumes v c n : (1 ≤ v ≤ 6)%nat → (n < length (batch v))%nat →
  ∃ d, run_all (take n (batch v)) (database_at v c) = Ok d ∧ resumes d (added (batch v) n) (carried v c).
Proof.
  intros Hv Hn. destruct c as [ms es ats a b old]. each_version v; try lia; cbn in Hn.
  all: destruct n as [|[|[|[|n]]]]; try (exfalso; lia); try destruct old.
  all: eexists; split; [vm_compute; reflexivity|intros [p d m] E; cbn in E; subst d; reflexivity].
Qed.

Lemma added_app l1 l2 n : added l1 (length l1) = None → added (l1 ++ l2) (length l1 + n) = added l2 n.
Proof.
  intros Hl. destruct n as [|n].
  - rewrite Nat.add_0_r. destruct l1 as [|s l1]; [done|]. cbn [length added] in *. by rewrite nth_error_app1 by (cbn; lia).
  - rewrite Nat.add_succ_r. cbn [added]. rewrite nth_error_app2 by lia. by replace (length l1 + n - length l1)%nat with n by lia.
Qed.

Lemma added_before l1 l2 n : (n < length l1)%nat → added (l1 ++ l2) n = added l1 n.
Proof. intros Hn. destruct n as [|n]; [done|]. cbn [added]. by rewrite nth_error_app1 by lia. Qed.

Lemma batches_resume fuel : ∀ v c n, (1 ≤ v)%nat → (v + fuel = 7)%nat → (n < length (batches v fuel))%nat →
  ∃ d, run_all (take n (batches v fuel)) (database_at v c) = Ok d ∧ resumes d (added (batches v fuel) n) (carried v c).
Proof.
  induction fuel as [|fuel IH]; intros v c n Hv Hf Hn; cbn [batches length] in *; [lia|].
  destruct (decide (n < length (batch v))%nat) as [Hb|Hb].
  - rewrite take_app_le, added_before by lia. apply batch_resumes; lia.
  - rewrite length_app in Hn. replace n with (length (batch v) + (n - length (batch v)))%nat by lia.
    rewrite take_app_add', run_all_app, batch_applied by lia. cbv beta iota.
    destruct (IH (S v) (carried v c) (n - length (batch v))%nat) as (d & Hd & Hr); [lia..|]. exists d. split; [done|].
    rewrite added_app by (each_version v; try lia; reflexivity). by rewrite carried_twice in Hr by lia.
Qed.

Lemma run_forward v c k : (v ≤ 7)%nat → content k = database_at v c →
  run_migrations path k [] = (Returned (Ok tt), set_content (database_at 7 (carried v c)) k, []).
Proof.
  intros Hv Hk. destruct k as [p d m], c as [ms es ats a b old]. cbn [content] in Hk. subst d. 
  each_version v; try destruct old; reflexivity.
Qed.

Lemma first_resumes v c n : (v ≤ 7)%nat → (n ≤ 3)%nat →
  ∃ d, run_all (take n V1) (database_at v c) = Ok d ∧ resumes d None (carried v c).
Proof.
  intros Hv Hn. destruct v as [|v].
  - destruct n as [|[|[|[|n]]]]; try (exfalso; lia).
    all: eexists; split; [vm_compute; reflexivity|intros [p d m] E; cbn in E; subst d; reflexivity].
  - exists (database_at (S v) c). split; [|intros k Hk; by apply run_forward].
    destruct c as [ms es ats a b old]. each_version v; destruct n as [|[|[|[|n]]]]; try (exfalso; lia); try destruct old; reflexivity.
Qed.

Lemma pending_resumes v c m : (v ≤ 7)%nat → (m < length (pending (version_of v)))%nat →
  ∃ d, run_all (take m (pending (version_of v))) (with_first_tables v c) = Ok d ∧
       resumes d (added (pending (version_of v)) m) (carried v c).
Proof.
  intros Hv Hm. rewrite pending_batches in * by done. destruct v as [|v].
  - destruct (batches_resume 6 1 (carried 0 c) m) as (d & Hd & Hr); [lia..|done|]. exists d. split; [done|].
    by rewrite carried_twice in Hr by lia.
  - apply batches_resume; [lia..|done].
Qed.

Lemma just_added_pending v m : just_added v (4 + m) = added (pending (version_of v)) m.
Proof.
  unfold just_added, steps, added. destruct m as [|m]; [done|]. cbn [Nat.add app map V1 nth_error].
  rewrite nth_error_map. by destruct (nth_error _ m).
Qed.
End migrating.

(** ** What the tables mean *)
Definition padded (cols : list Column) (r : list Value) : list Value := r ++ map col_default (drop (length r) cols).

Definition nullable (v : Value) : option (option string) :=
  match v with VNull => Some None | VText s => Some (Some s) | _ => None end.

Definition decode_model (r : list Value) : option ModelRow :=
  match r with
  | [VInt i; VText u; VText l; VInt t; VText e; dev; key] =>
      dev ← nullable dev; key ← nullable key;
      Some {| m_id := i; m_user := u; m_label := l; m_created_at := t; m_embedder_model := e; m_device_id := dev; m_key_id := key |}
  | _ => None
  end.
Definition decode_embedding (r : list Value) : option EmbeddingRow :=
  match r with
  | [VInt i; VInt m; VBlob b; VInt s] => Some {| e_id := i; e_model_id := m; e_embedding := b; e_sealed := s |}
  | _ => None
  end.
Definition decode_attempt (r : list Value) : option AttemptRow :=
  match r with [VText u; VInt t] => Some {| a_user := u; a_time := t |} | _ => None end.

Definition decode_rows {A} (f : list Value → option A) (t : Table) : option (list A) :=
  mapM (λ r, f (padded (columns t) r)) (rows t).

(** The tables as [Store.v] has them. *)
Definition tables_of (d : Database) : option Db :=
  m ← table "face_models" d; e ← table "face_embeddings" d; a ← table "rate_limit" d;
  ms ← decode_rows decode_model m; es ← decode_rows decode_embedding e; ats ← decode_rows decode_attempt a;
  Some {| face_models := ms; face_embeddings := es; rate_limit_rows := ats; model_seq := sequence m; embedding_seq := sequence e |}.

(** The rows of a store the way the release with schema [v] wrote them. *)
Definition of_nullable (o : option string) : Value := match o with Some s => VText s | None => VNull end.
Definition model_values (m : ModelRow) : list Value :=
  [VInt (m_id m); VText (m_user m); VText (m_label m); VInt (m_created_at m); VText (m_embedder_model m);
   of_nullable (m_device_id m); of_nullable (m_key_id m)].
Definition embedding_values (e : EmbeddingRow) : list Value :=
  [VInt (e_id e); VInt (e_model_id e); VBlob (e_embedding e); VInt (e_sealed e)].

Definition written (v : nat) (old : option (list Column)) (d : Db) : Content := {|
  c_models := map (λ m, take (length (model_columns v)) (model_values m)) (face_models d);
  c_embeddings := map (λ e, take (length (embedding_columns v)) (embedding_values e)) (face_embeddings d);
  c_attempts := map (λ a, [VText (a_user a); VInt (a_time a)]) (rate_limit_rows d);
  c_model_seq := model_seq d; c_embedding_seq := embedding_seq d; c_old := old |}.

(** What an upgrade makes of them: what a release did not store gets its default, and the first
    release's embeddings are given up. *)
Definition upgraded_model (v : nat) (m : ModelRow) : ModelRow := {|
  m_id := m_id m; m_user := m_user m; m_label := m_label m; m_created_at := m_created_at m;
  m_embedder_model := if (v <? 5)%nat then "" else m_embedder_model m;
  m_device_id := if (v <? 6)%nat then None else m_device_id m;
  m_key_id := if (v <? 7)%nat then None else m_key_id m |}.
Definition upgraded_embedding (v : nat) (e : EmbeddingRow) : EmbeddingRow := {|
  e_id := e_id e; e_model_id := e_model_id e; e_embedding := e_embedding e;
  e_sealed := if (v <? 3)%nat then 0 else e_sealed e |}.

Definition upgraded (v : nat) (d : Db) : Db := {|
  face_models := if (v <? 1)%nat then [] else map (upgraded_model v) (face_models d);
  face_embeddings := if (v <? 2)%nat then [] else map (upgraded_embedding v) (face_embeddings d);
  rate_limit_rows := if (v <? 4)%nat then [] else rate_limit_rows d;
  model_seq := if (v <? 1)%nat then 0 else model_seq d;
  embedding_seq := if (v <? 2)%nat then 0 else embedding_seq d |}.

Lemma mapM_map {A B C} (f : B → option C) (g : A → B) (h : A → C) l :
  (∀ x, f (g x) = Some (h x)) → mapM f (map g l) = Some (map h l).
Proof. intros E. induction l as [|x l IH]; cbn; [done|]. by rewrite E, IH. Qed.

Lemma nullable_of o : nullable (of_nullable o) = Some o.
Proof. by destruct o. Qed.

Lemma tables_of_current c : tables_of (database_at 7 c) =
  (ms ← mapM (λ r, decode_model (padded (model_columns 7) r)) (c_models c);
   es ← mapM (λ r, decode_embedding (padded (embedding_columns 7) r)) (c_embeddings c);
   ats ← mapM (λ r, decode_attempt (padded [plain "user"; plain "attempt_time"] r)) (c_attempts c);
   Some {| face_models := ms; face_embeddings := es; rate_limit_rows := ats;
           model_seq := c_model_seq c; embedding_seq := c_embedding_seq c |}).
Proof. reflexivity. Qed.

Lemma decode_written_model v m : (v ≤ 7)%nat →
  decode_model (padded (model_columns 7) (take (length (model_columns v)) (model_values m))) = Some (upgraded_model v m).
Proof. intros Hv. each_version v; cbn; rewrite ?nullable_of; reflexivity. Qed.

Lemma decode_written_embedding v e : (v ≤ 7)%nat →
  decode_embedding (padded (embedding_columns 7) (take (length (embedding_columns v)) (embedding_values e)))
  = Some (upgraded_embedding v e).
Proof. intros Hv. each_version v; reflexivity. Qed.

Lemma decode_written_attempt a : decode_attempt (padded [plain "user"; plain "attempt_time"] [VText (a_user a); VInt (a_time a)]) = Some a.
Proof. by destruct a. Qed.

Lemma upgraded_means v old d : (v ≤ 7)%nat →
  tables_of (database_at 7 (carried v (written v old d))) = Some (upgraded v d).
Proof.
  intros Hv. rewrite tables_of_current.
  pose proof (λ m, decode_written_model v m Hv) as Hm. pose proof (λ e, decode_written_embedding v e Hv) as He.
  assert (mapM (λ r, decode_model (padded (model_columns 7) r)) (c_models (carried v (written v old d)))
          = Some (face_models (upgraded v d))) as ->.
  { destruct v; [done|]. by apply mapM_map. }
  assert (mapM (λ r, decode_embedding (padded (embedding_columns 7) r)) (c_embeddings (carried v (written v old d)))
          = Some (face_embeddings (upgraded v d))) as ->.
  { destruct v as [|[|v]]; [done..|]. by apply mapM_map. }
  assert (mapM (λ r, decode_attempt (padded [plain "user"; plain "attempt_time"] r)) (c_attempts (carried v (written v old d)))
          = Some (rate_limit_rows (upgraded v d))) as ->.
  { destruct v as [|[|[|[|v]]]]; [done..|]. cbn -[padded mapM].
    rewrite (mapM_map _ _ id); [by rewrite map_id|]. apply decode_written_attempt. }
  destruct v as [|[|v]]; reflexivity.
Qed.

(** ** Theorems *)
Section theorems.
Context `{ShowSqlite}.
Context (path : string).

(** Every earlier schema is brought forward and every stored template with it. An undisturbed
    opening of a database that a release with schema [v] wrote succeeds; the tables then mean
    what was stored, with the defaults for what that release did not record: no embedder, no
    camera, no key, not sealed. Only the embeddings of the very first schema are given up. A
    second run changes nothing. *)
Theorem migrations_keep_templates v old d k :
  (v ≤ 7)%nat → content k = database_at v (written v old d) →
  ∃ k', run_migrations path k [] = (Returned (Ok tt), k', []) ∧
    presence k' = presence k ∧ modes k' = modes k ∧ tables_of (content k') = Some (upgraded v d) ∧
    run_migrations path k' [] = (Returned (Ok tt), k', []).
Proof.
  intros Hv Hk. eexists. split; [by apply run_forward|]. split_and!; [done|done|by apply upgraded_means|].
  rewrite (run_forward path 7 (carried v (written v old d))) by done. cbn. repeat f_equal.
Qed.

(** C22.  An opening that is interrupted is taken up by the next one, unless it stopped right after
    adding a column. Whatever earlier schema the run found, and whichever of its steps fails or is
    the last, the next undisturbed run ends with the current schema and what an undisturbed migration
    carries over: every template of a schema from version 2 on (V2 drops the embeddings of version 1
    and keeps its models), and every recorded attempt of a schema that has them. But when the last
    statement that ran added a column, its version was not recorded, so that run, and every later one,
    fails on the column that is there already. *)
Theorem interrupted_migration v c k n e :
  (v ≤ 7)%nat → (n < length (steps v))%nat → interruption e → content k = database_at v c →
  ∃ k', run_migrations path k (repeat undisturbed n ++ [e]) = (cut_short path e, k', []) ∧
    resumes path (content k') (just_added v n) (carried v c).
Proof.
  intros Hv Hn He Hk. rewrite run_flat. unfold steps in *. rewrite !length_app, !length_map in Hn. cbn in Hn.
  destruct (decide (n < 3)%nat) as [H3|H3].
  { destruct (first_resumes path v c n Hv) as (d & Hd & Hr); [lia|]. exists (set_content d k). split.
    - unfold mbind, Open_bind, and_then. rewrite (execute_interrupted path V1 k d) by (rewrite ?Hk; done).
      unfold cut_short. destruct (stops e); [done|]. by destruct (sqlite_fails e).
    - by destruct n as [|[|[|n]]]; [..|exfalso; lia]. }
  replace n with (3 + (n - 3))%nat by lia. rewrite repeat_app, <- app_assoc.
  unfold mbind, Open_bind, and_then. rewrite (execute_through path V1 k (with_first_tables v c)) by (rewrite Hk; by apply first_batch).
  destruct (n - 3)%nat as [|m] eqn:Em.
  { cbn [repeat app]. unfold ask_version. rewrite sql_interrupted by done.
    exists (set_content (with_first_tables v c) k). split.
    - unfold cut_short. destruct (stops e); [done|]. by destruct (sqlite_fails e).
    - destruct (first_resumes path v c 3 Hv) as (d & Hd & Hr); [lia|]. change (take 3 V1) with V1 in Hd.
      rewrite first_batch in Hd by done. by injection Hd as <-. }
  cbn [repeat app]. unfold ask_version. rewrite sql_undisturbed. cbn [content set_content]. rewrite first_version by done.
  cbn beta iota. destruct (pending_resumes path v c m Hv) as (d & Hd & Hr); [lia|].
  rewrite (execute_interrupted path _ _ d) by (done || lia). exists (set_content d k). split; [done|].
  change (3 + S m)%nat with (4 + m)%nat. by rewrite just_added_pending.
Qed.

(** A run that read version 0 and is overtaken by another process, which migrates and enrolls,
    deletes the other's embeddings before it fails; the schema version hides it from then on. *)
Lemma overtaken_migration c k :
  content k = empty_database →
  let overtaken := {| others := set_content (database_at 7 c); stops := false; sqlite_fails := None; io_fails := None |} in
  ∃ k', run_migrations path k (repeat undisturbed 4 ++ [overtaken]) =
          (Returned (Err (migration_err path (sql_error "duplicate column name: embedder_model"))), k', []) ∧
    (rows <$> table "face_embeddings" (content k')) = Some [] ∧
    (rows <$> table "face_models" (content k')) = Some (c_models c) ∧
    run_migrations path k' [] = (Returned (Ok tt), k', []).
Proof.
  intros Hk. destruct k as [p d m], c as [ms es ats a b old]. cbn in Hk. subst d.
  eexists. split; [vm_compute; reflexivity|]. split; [reflexivity|split; reflexivity].
Qed.
End theorems.

(** A database of the sixth schema with one template, and a kill right after the column [sealed]
    was added to one of the second. *)
Definition one_template : Db := {|
  face_models := [{| m_id := 1; m_user := "ada"; m_label := "default"; m_created_at := 1700000000;
                     m_embedder_model := "w600k_r50"; m_device_id := Some "04f2:b71a:"; m_key_id := None |}];
  face_embeddings := [{| e_id := 1; e_model_id := 1; e_embedding := [0; 0; 128; 63]; e_sealed := 1 |}];
  rate_limit_rows := []; model_seq := 1; embedding_seq := 1 |}.
Definition disk_with (v : nat) : Disk :=
  {| presence := IsFile; content := database_at v (written v None one_template); modes := {[ "/var/lib/facelock/facelock.db" := 384 ]} |}.

Lemma migrations_keep_templates_witness :
  let S : ShowSqlite := λ _, "sqlite" in
  ∃ k', run_migrations "/var/lib/facelock/facelock.db" (disk_with 6) [] = (Returned (Ok tt), k', []) ∧
    presence k' = IsFile ∧ modes k' = modes (disk_with 6) ∧ tables_of (content k') = Some (upgraded 6 one_template) ∧
    run_migrations "/var/lib/facelock/facelock.db" k' [] = (Returned (Ok tt), k', []).
Proof. intros S. apply (migrations_keep_templates "/var/lib/facelock/facelock.db" 6 None one_template); [lia|reflexivity]. Defined.

Lemma interrupted_migration_witness :
  let S : ShowSqlite := λ _, "sqlite" in
  just_added 2 5 = Some "sealed" ∧
  ∃ k', run_migrations "/var/lib/facelock/facelock.db" (disk_with 2) (repeat undisturbed 5 ++ [killed_here]) = (Stopped, k', []) ∧
    resumes "/var/lib/facelock/facelock.db" (content k') (Some "sealed") (carried 2 (written 2 None one_template)).
Proof.
  intros S. split; [reflexivity|].
  apply (interrupted_migration "/var/lib/facelock/facelock.db" 2 (written 2 None one_template) (disk_with 2) 5 killed_here);
    [lia|vm_compute; lia|split; [reflexivity|left; reflexivity]|reflexivity].
Defined.
