(* ===== verification/StoreProofs.v ===== *)
(** * Properties of the template store

    The store invariant and that every operation keeps it, the abstract view of the store
    as a finite map from (user, label) to a template, and the refinement of that map by the
    operations of [Store.v], whatever statement SQLite fails at. *)

From stdpp Require Import gmap fin_maps.
From S2P Require Import Prelude Float32 Types DeviceBinding Store.

(** ** Reasoning about computations *)

(** Everything of the connection but the database and the statement counter. *)
Definition same_conn (s s' : FaceStore) : Prop :=
  saved s' = saved s ∧ store_path s' = store_path s ∧ faults s' = faults s.

#[export] Instance same_conn_preorder : PreOrder same_conn.
Proof.
  split; [by intros s|]. intros a b c (H1 & H2 & H3) (G1 & G2 & G3).
  split_and!; congruence.
Qed.

(** A computation that neither opens nor closes a transaction. *)
Definition inside {E A} (m : M E A) : Prop := ∀ s, same_conn s (snd (m s)).

Lemma bind_ok {E A B} (m : M E A) (k : A → M E B) s b s' :
  bind m k s = (Ok b, s') ↔ ∃ a s1, m s = (Ok a, s1) ∧ k a s1 = (Ok b, s').
Proof.
  unfold bind. split.
  - destruct (m s) as [[a|e] s1]; [|done]. intros H. by exists a, s1.
  - intros (a & s1 & -> & H). done.
Qed.

Lemma inside_ret {E A} (a : A) : inside (ret (E := E) a).
Proof. by intros s. Qed.

Lemma inside_bind {E A B} (m : M E A) (k : A → M E B) :
  inside m → (∀ a, inside (k a)) → inside (bind m k).
Proof.
  intros Hm Hk s. unfold bind. specialize (Hm s). destruct (m s) as [[a|e] s1]; [|done].
  etrans; [exact Hm|]. apply Hk.
Qed.

Lemma exec_inside `{ShowSqlite} {A} (f : Db → result (A * Db) RusqliteError) : inside (exec f).
Proof.
  intros s. unfold exec. destruct (faults s (tick s)); [done|].
  by destruct (f (db s)) as [[a d]|e].
Qed.

Lemma exec_ok `{ShowSqlite} {A} (f : Db → result (A * Db) RusqliteError) s a s' :
  exec f s = (Ok a, s') → f (db s) = Ok (a, db s').
Proof.
  unfold exec. destruct (faults s (tick s)); [done|].
  destruct (f (db s)) as [[a' d]|e]; [|done]. by intros [= <- <-].
Qed.

Lemma exec_err `{ShowSqlite} {A} (f : Db → result (A * Db) RusqliteError) s e s' :
  exec f s = (Err e, s') → db s' = db s.
Proof.
  unfold exec. destruct (faults s (tick s)); [by intros [= _ <-]|].
  destruct (f (db s)) as [[a' d]|e']; [done|]. by intros [= _ <-].
Qed.

(** Without a fault at this statement, [exec] is the statement. *)
Lemma exec_no_fault `{ShowSqlite} {A} (f : Db → result (A * Db) RusqliteError) s a d :
  faults s (tick s) = None → f (db s) = Ok (a, d) →
  exec f s = (Ok a, set_db d (tick_on s)).
Proof. intros Hf Hr. unfold exec. by rewrite Hf, Hr. Qed.

Lemma rollback_saved s d : saved s = Some d → saved (rollback s) = None ∧ db (rollback s) = d.
Proof. intros Hs. unfold rollback. by rewrite Hs. Qed.

Lemma in_tx_spec `{ShowSqlite} {A} (body : M StoreError A) s r s' :
  inside body → saved s = None → in_tx body s = (r, s') →
  saved s' = None ∧
  match r with
  | Err _ => db s' = db s
  | Ok a => ∃ s1 s2, db s1 = db s ∧ body s1 = (Ok a, s2) ∧ db s' = db s2
  end.
Proof.
  intros Hin Hs. unfold in_tx, write_tx, begin_tx.
  pose proof (exec_inside (λ d, Ok (tt, d)) s) as Hb.
  destruct (exec _ s) as [[[]|e] s1] eqn:E1; cbn in Hb; destruct Hb as (Hb & _ & _).
  2: { intros [= <- <-]. split; [congruence|]. by eapply exec_err. }
  apply exec_ok in E1. injection E1 as E1. rewrite Hb, Hs. cbn [saved set_saved].
  set (s1' := set_saved _ s1). pose proof (Hin s1') as (Hk & _ & _).
  destruct (body s1') as [[a|e] s2] eqn:E2; cbn in Hk.
  2: { intros [= <- <-]. destruct (rollback_saved s2 _ Hk) as [? ->]. split; [done|congruence]. }
  unfold commit. pose proof (exec_inside (λ d, Ok (tt, d)) s2) as (Hc & _ & _).
  destruct (exec _ s2) as [[[]|e] s3] eqn:E3; cbn in Hc.
  - intros [= <- <-]. apply exec_ok in E3. injection E3 as E3.
    split; [done|]. exists s1', s2. split_and!; [by cbn|done|done].
  - intros [= <- <-]. rewrite Hk in Hc. destruct (rollback_saved s3 _ Hc) as [? ->].
    split; [done|congruence].
Qed.

Create HintDb store discriminated.
#[export] Hint Resolve inside_ret inside_bind exec_inside : store.

Lemma insert_all_inside `{ShowSqlite} mid sealed blobs : inside (insert_all mid sealed blobs).
Proof. induction blobs; cbn; auto with store. Qed.

Lemma insert_model_row_inside `{ShowSqlite} clock user label embedder dev key :
  inside (insert_model_row clock user label embedder dev key).
Proof. unfold insert_model_row. auto with store. Qed.
#[export] Hint Resolve insert_all_inside insert_model_row_inside : store.

(** ** The store invariant *)
Definition label_key (m : ModelRow) : string * string := (m_user m, m_label m).

Record db_wf (d : Db) : Prop := {
  wf_ids : NoDup (map m_id (face_models d));
  wf_labels : NoDup (map label_key (face_models d));
  wf_seq : ∀ m, m ∈ face_models d → 0 < m_id m ≤ model_seq d;
  wf_seq_nonneg : 0 ≤ model_seq d;
  wf_foreign : ∀ e, e ∈ face_embeddings d → e_model_id e ∈ map m_id (face_models d);
  wf_eids : NoDup (map e_id (face_embeddings d));
  wf_eseq : ∀ e, e ∈ face_embeddings d → 0 < e_id e ≤ embedding_seq d;
  wf_eseq_nonneg : 0 ≤ embedding_seq d;
}.

Lemma same_label_spec u l m : same_label u l m = true ↔ label_key m = (u, l).
Proof.
  unfold same_label, label_key. rewrite andb_true_iff, !String.eqb_eq. by split; [intros [-> ->]|intros [= -> ->]].
Qed.

Lemma same_label_key u l m : same_label u l m = bool_decide (label_key m = (u, l)).
Proof. apply eq_true_iff_eq. by rewrite same_label_spec, bool_decide_eq_true. Qed.

Lemma has_id_exists i ms : existsb (has_id i) ms = true ↔ i ∈ map m_id ms.
Proof.
  rewrite existsb_Exists, list_elem_of_fmap. unfold has_id. setoid_rewrite Z.eqb_eq.
  split; intros (m & H1 & H2); exists m; by rewrite ?H1, ?H2 in *.
Qed.

Lemma elem_of_filterb {A} (p : A → bool) x l : x ∈ List.filter p l ↔ x ∈ l ∧ p x = true.
Proof. rewrite !list_elem_of_In. apply filter_In. Qed.

Lemma filterb_sublist {A} (p : A → bool) l : List.filter p l `sublist_of` l.
Proof. induction l as [|x l IH]; cbn; [done|]. destruct (p x); by constructor. Qed.

Lemma NoDup_map_filterb {A B} (f : A → B) p l :
  NoDup (map f l) → NoDup (map f (List.filter p l)).
Proof. intros Hn. apply (sublist_NoDup _ _ Hn), fmap_sublist, filterb_sublist. Qed.

Lemma NoDup_map_snoc {A B} (f : A → B) l x :
  NoDup (map f l) → f x ∉ map f l → NoDup (map f (l ++ [x])).
Proof.
  intros Hn Hx. rewrite map_app. apply NoDup_app. split_and!; [done| |by apply NoDup_singleton].
  intros y Hy ->%list_elem_of_singleton. done.
Qed.

Lemma insert_model_wf u l c em dv k d i d' :
  sql_insert_model u l c em dv k d = Ok (i, d') → db_wf d → db_wf d'.
Proof.
  unfold sql_insert_model. destruct (existsb _ _) eqn:Eu; [done|].
  destruct (_ <=? _); [done|]. intros [= <- <-] [H1 H2 H3 H4 H5 H6 H7 H8].
  split; cbn; try done; try lia.
  - apply NoDup_map_snoc; [done|]. cbn. intros (m & Hm & Hin)%list_elem_of_fmap.
    specialize (H3 m Hin). lia.
  - apply NoDup_map_snoc; [done|]. intros (m & Hm & Hin)%list_elem_of_fmap.
    apply not_true_iff_false in Eu. apply Eu, existsb_Exists. exists m. split; [done|].
    by apply same_label_spec.
  - intros m [Hm| ->%list_elem_of_singleton]%elem_of_app; [specialize (H3 m Hm); lia|cbn; lia].
  - intros e He. rewrite map_app. apply elem_of_app. left. by apply H5.
Qed.

Lemma insert_embedding_wf mid data sl d d' :
  sql_insert_embedding mid data sl d = Ok (tt, d') → db_wf d → db_wf d'.
Proof.
  unfold sql_insert_embedding. destruct (existsb _ _) eqn:Eu; [cbn [negb]|done].
  destruct (_ <=? _); [done|]. intros [= <-] [H1 H2 H3 H4 H5 H6 H7 H8].
  split; cbn; try done; try lia.
  - intros e [He| ->%list_elem_of_singleton]%elem_of_app; [by apply H5|]. by apply has_id_exists.
  - apply NoDup_map_snoc; [done|]. cbn. intros (e & Hm & Hin)%list_elem_of_fmap.
    specialize (H7 e Hin). lia.
  - intros e [He| ->%list_elem_of_singleton]%elem_of_app; [specialize (H7 e He); lia|cbn; lia].
Qed.

Lemma delete_models_wf p d n d' : sql_delete_models p d = Ok (n, d') → db_wf d → db_wf d'.
Proof.
  intros [= <- <-] [H1 H2 H3 H4 H5 H6 H7 H8].
  split; cbn; try done; try (by apply NoDup_map_filterb).
  - intros m [Hm _]%elem_of_filterb. by apply H3.
  - intros e [He Hk]%elem_of_filterb. apply negb_true_iff, not_true_iff_false in Hk.
    destruct (proj1 (list_elem_of_fmap _ _ _) (H5 e He)) as (m & Hid & Hm).
    apply list_elem_of_fmap. exists m. split; [done|]. apply elem_of_filterb. split; [done|].
    apply negb_true_iff. destruct (p m) eqn:Ep; [|done]. exfalso. apply Hk.
    apply existsb_Exists. exists m. rewrite elem_of_filterb. unfold has_id. split; [done|lia].
  - intros e [He _]%elem_of_filterb. by apply H7.
Qed.

Lemma map_map_same {A B} (f : A → B) (g : A → A) l :
  (∀ x, f (g x) = f x) → map f (map g l) = map f l.
Proof. intros H. rewrite map_map. by apply map_ext. Qed.

Lemma update_embedding_wf eid data sl d n d' :
  sql_update_embedding eid data sl d = Ok (n, d') → db_wf d → db_wf d'.
Proof.
  intros [= <- <-] [H1 H2 H3 H4 H5 H6 H7 H8].
  split; cbn; try done.
  - intros e (e0 & -> & He)%list_elem_of_fmap. specialize (H5 e0 He). by destruct (_ =? _).
  - rewrite map_map_same; [done|]. intros e. by destruct (_ =? _).
  - intros e (e0 & -> & He)%list_elem_of_fmap. specialize (H7 e0 He). by destruct (_ =? _).
Qed.

Lemma update_key_id_wf mid k d n d' :
  sql_update_key_id mid k d = Ok (n, d') → db_wf d → db_wf d'.
Proof.
  intros [= <- <-] [H1 H2 H3 H4 H5 H6 H7 H8].
  split; cbn; try done; try (rewrite map_map_same; [done|]; intros m; by destruct (has_id _ _)).
  - intros m (m0 & -> & Hm)%list_elem_of_fmap. specialize (H3 m0 Hm). by destruct (has_id _ _).
Qed.

Lemma set_attempts_wf l d : db_wf d → db_wf (set_attempts l d).
Proof. by intros []. Qed.

(** ** Every operation keeps the invariant *)
Definition preserves {E A} (m : M E A) : Prop := ∀ s, db_wf (db s) → db_wf (db (snd (m s))).

Lemma preserves_ret {E A} (a : A) : preserves (ret (E := E) a).
Proof. by intros s. Qed.

Lemma preserves_bind {E A B} (m : M E A) (k : A → M E B) :
  preserves m → (∀ a, preserves (k a)) → preserves (bind m k).
Proof.
  intros Hm Hk s Hs. unfold bind. specialize (Hm s Hs). destruct (m s) as [[a|e] s1]; [|done].
  by apply Hk.
Qed.

Lemma preserves_exec `{ShowSqlite} {A} (f : Db → result (A * Db) RusqliteError) :
  (∀ a d d', f d = Ok (a, d') → db_wf d → db_wf d') → preserves (exec f).
Proof.
  intros Hf s Hs. unfold exec. destruct (faults s (tick s)); [done|].
  destruct (f (db s)) as [[a d]|e] eqn:E; [|done]. cbn. by eapply Hf.
Qed.

Lemma preserves_insert_embedding `{ShowSqlite} mid data sl :
  preserves (exec (sql_insert_embedding mid data sl)).
Proof. apply preserves_exec. intros [] d d'. apply insert_embedding_wf. Qed.

Lemma preserves_delete_models `{ShowSqlite} p : preserves (exec (sql_delete_models p)).
Proof. apply preserves_exec. intros n d d'. apply delete_models_wf. Qed.

Lemma preserves_insert_model_row `{ShowSqlite} clock user label embedder dev key :
  preserves (insert_model_row clock user label embedder dev key).
Proof.
  apply preserves_bind; [|intros; apply preserves_ret].
  apply preserves_exec. intros i d d'. apply insert_model_wf.
Qed.
#[export] Hint Resolve preserves_ret preserves_bind preserves_insert_embedding
  preserves_delete_models preserves_insert_model_row : store.

Lemma preserves_insert_all `{ShowSqlite} mid sealed blobs : preserves (insert_all mid sealed blobs).
Proof. induction blobs; cbn; auto with store. Qed.
#[export] Hint Resolve preserves_insert_all : store.

(** Between operations no transaction is open. *)
Definition store_wf (s : FaceStore) : Prop := db_wf (db s) ∧ saved s = None.

Definition keeps_wf {E A} (m : M E A) : Prop := ∀ s, store_wf s → store_wf (snd (m s)).

Lemma keeps_wf_plain {E A} (m : M E A) : inside m → preserves m → keeps_wf m.
Proof.
  intros Hi Hp s [Hd Hs]. split; [by apply Hp|]. destruct (Hi s) as [-> _]. done.
Qed.

Lemma keeps_wf_in_tx `{ShowSqlite} {A} (body : M StoreError A) :
  inside body → preserves body → keeps_wf (in_tx body).
Proof.
  intros Hi Hp s [Hd Hs]. destruct (in_tx body s) as [r s'] eqn:E.
  destruct (in_tx_spec body s r s' Hi Hs E) as [Hs' Hr]. split; [|done]. cbn.
  destruct r as [a|e].
  - destruct Hr as (s1 & s2 & E1 & E2 & ->). specialize (Hp s1). rewrite E1, E2 in Hp.
    by apply Hp.
  - by rewrite Hr.
Qed.

(** The operations that write, with their arguments. *)
Inductive StoreOp :=
  | OpReplace (clock : option Z) (user label : string) (blobs : list (list Z)) (sealed : bool)
      (embedder : string) (dev key : option string)
  | OpAddModelRaw (clock : option Z) (user label : string) (data : list Z) (sealed : bool)
      (embedder : string) (dev : option string)
  | OpAddModel (clock : option Z) (user label : string) (e : FaceEmbedding) (embedder : string)
      (dev : option string)
  | OpAddEmbedding (mid : Z) (e : FaceEmbedding)
  | OpAddEmbeddingRaw (mid : Z) (data : list Z) (sealed : bool)
  | OpRemoveByLabel (user label : string)
  | OpRemove (user : string) (mid : Z)
  | OpClearUser (user : string)
  | OpClearAll
  | OpUpdateSealed (eid : Z) (data : list Z) (sealed : bool)
  | OpSetKeyId (mid : Z) (key : option string)
  | OpRecordAttempt (clock : option Z) (user : string)
  | OpCleanup (clock : option Z) (window : Z).

Definition run_op `{ShowSqlite} `{NanEncoding} (s : FaceStore) (o : StoreOp) : FaceStore :=
  match o with
  | OpReplace c u l b se em dv k => snd (replace_model_with_embeddings c u l b se em dv k s)
  | OpAddModelRaw c u l b se em dv => snd (add_model_raw_with_device c u l b se em dv s)
  | OpAddModel c u l e em dv => snd (add_model_with_device c u l e em dv s)
  | OpAddEmbedding m e => snd (add_embedding m e s)
  | OpAddEmbeddingRaw m b se => snd (add_embedding_raw m b se s)
  | OpRemoveByLabel u l => snd (remove_model_by_label u l s)
  | OpRemove u m => snd (remove_model u m s)
  | OpClearUser u => snd (clear_user u s)
  | OpClearAll => snd (clear_all s)
  | OpUpdateSealed i b se => snd (update_embedding_sealed i b se s)
  | OpSetKeyId m k => snd (set_model_key_id m k s)
  | OpRecordAttempt c u => snd (record_auth_attempt c u s)
  | OpCleanup c w => snd (cleanup_rate_limit c w s)
  end.

Lemma inside_affected (f : FaceStore → StoreError) (n : nat) :
  inside (λ s : FaceStore, if (n =? 0)%nat then (Err (A := unit) (f s), s) else (Ok tt, s)).
Proof. intros s. by destruct (_ =? _)%nat. Qed.

Lemma preserves_affected (f : FaceStore → StoreError) (n : nat) :
  preserves (λ s : FaceStore, if (n =? 0)%nat then (Err (A := unit) (f s), s) else (Ok tt, s)).
Proof. intros s. by destruct (_ =? _)%nat. Qed.

Lemma run_op_wf `{ShowSqlite} `{NanEncoding} s o : store_wf s → store_wf (run_op s o).
Proof.
  destruct o; cbn [run_op].
  - unfold replace_model_with_embeddings. intros Hs. destruct (_ <? _)%nat; [done|].
    revert s Hs. apply keeps_wf_in_tx; auto 6 with store.
  - revert s. apply keeps_wf_in_tx; auto 6 with store.
  - revert s. apply keeps_wf_in_tx; auto 6 with store.
  - revert s. apply keeps_wf_plain; unfold add_embedding; auto with store.
  - revert s. apply keeps_wf_plain; unfold add_embedding_raw; auto with store.
  - revert s. apply keeps_wf_plain; unfold remove_model_by_label; auto with store.
  - revert s. apply keeps_wf_plain; unfold remove_model; auto with store.
  - revert s. apply keeps_wf_plain; unfold clear_user; auto with store.
  - revert s. apply keeps_wf_plain; unfold clear_all; auto with store.
  - revert s. apply keeps_wf_plain.
    + apply inside_bind; [apply exec_inside|]. intros n. apply inside_affected.
    + apply preserves_bind; [|intros n; apply preserves_affected].
      apply preserves_exec. intros n d d'. apply update_embedding_wf.
  - revert s. apply keeps_wf_plain.
    + apply inside_bind; [apply exec_inside|]. intros n. apply inside_affected.
    + apply preserves_bind; [|intros n; apply preserves_affected].
      apply preserves_exec. intros n d d'. apply update_key_id_wf.
  - revert s. apply keeps_wf_plain; [apply exec_inside|].
    apply preserves_exec. intros [] d d' [= <-]. apply set_attempts_wf.
  - revert s. apply keeps_wf_plain; [apply exec_inside|].
    apply preserves_exec. intros [] d d' [= <-]. apply set_attempts_wf.
Qed.

(** C35.  Whatever operations run, in whatever order and failing at whatever statement, the
    store keeps its invariant: model and embedding ids are unique and below their counters,
    no user has two models under one label, every embedding belongs to a stored model, and
    no transaction stays open. *)
Theorem store_invariant `{ShowSqlite} `{NanEncoding} (ops : list StoreOp) (s : FaceStore) :
  store_wf s → store_wf (fold_left run_op ops s).
Proof. revert s. induction ops as [|o ops IH]; intros s Hs; [done|]. by apply IH, run_op_wf. Qed.

#[local] Instance sqlite_to_string_constant : ShowSqlite := λ _, "sqlite error".

Definition fresh_store (faults : nat → option RusqliteError) : FaceStore :=
  {| store_path := ":memory:"; db := db_empty; saved := None; faults := faults; tick := 0 |}.

Lemma db_empty_wf : db_wf db_empty.
Proof.
  split; cbn; try apply NoDup_nil_2; try lia; intros x Hx; by apply not_elem_of_nil in Hx.
Qed.

(** A disk that fills up at the tenth statement. *)
Definition fails_at (n : nat) : nat → option RusqliteError :=
  λ i, if (i =? n)%nat then Some (SqliteFailure OtherErrorCode 13 None) else None.

Lemma store_invariant_witness :
  store_wf (fold_left (run_op (H0 := nan_x86))
    [OpReplace (Some 100) "alice" "default" [[1]; [2]; [3]] true "m" None None;
     OpReplace (Some 200) "alice" "default" [[4]; [5]; [6]] true "m" None None;
     OpRemove "alice" 1]
    (fresh_store (fails_at 10))).
Proof. apply store_invariant. split; [apply db_empty_wf|reflexivity]. Defined.

(** ** The abstract store: a finite map from (user, label) to a template *)
Record Template := {
  t_id : Z;
  t_embedder : string;
  t_device : option string;
  t_key : option string;
  t_blobs : list (list Z * bool);
}.

Definition blob_of (e : EmbeddingRow) : list Z * bool := (e_embedding e, negb (e_sealed e =? 0)).

Definition template (es : list EmbeddingRow) (m : ModelRow) : Template :=
  {| t_id := m_id m; t_embedder := m_embedder_model m; t_device := m_device_id m;
     t_key := m_key_id m;
     t_blobs := map blob_of (List.filter (λ e, e_model_id e =? m_id m) es) |}.

Definition templates (d : Db) : gmap (string * string) Template :=
  list_to_map (map (λ m, (label_key m, template (face_embeddings d) m)) (face_models d)).

Lemma templates_lookup d k t : NoDup (map label_key (face_models d)) →
  templates d !! k = Some t ↔
  ∃ m, m ∈ face_models d ∧ label_key m = k ∧ t = template (face_embeddings d) m.
Proof.
  intros Hn. unfold templates. rewrite <- elem_of_list_to_map.
  - rewrite list_elem_of_fmap. split.
    + intros (m & [= -> ->] & Hm). by exists m.
    + intros (m & Hm & <- & ->). by exists m.
  - change (NoDup (map fst (map (λ m, (label_key m, template (face_embeddings d) m))
      (face_models d)))). by rewrite map_map.
Qed.

Lemma same_id_same_model d m m' : db_wf d → m ∈ face_models d → m' ∈ face_models d →
  m_id m = m_id m' → m = m'.
Proof.
  intros Hwf Hm Hm' Hid. pose proof (wf_ids d Hwf) as Hn.
  apply list_elem_of_lookup in Hm as [i Hi]. apply list_elem_of_lookup in Hm' as [j Hj].
  assert (i = j) as ->; [|congruence].
  apply (NoDup_lookup _ i j (m_id m) Hn); [by rewrite list_lookup_fmap, Hi|].
  by rewrite list_lookup_fmap, Hj, Hid.
Qed.

(** A kept model keeps its embeddings. *)
Lemma delete_models_template p d n d' m : db_wf d → sql_delete_models p d = Ok (n, d') →
  m ∈ face_models d → p m = false →
  template (face_embeddings d') m = template (face_embeddings d) m.
Proof.
  intros Hwf [= _ <-] Hm Hp. unfold template. f_equal. f_equal. cbn.
  induction (face_embeddings d) as [|e es IH]; [done|]. cbn.
  destruct (negb (existsb _ _)) eqn:Eg; cbn; destruct (e_model_id e =? m_id m) eqn:Ee;
    rewrite IH; try done. exfalso. bsplit.
  apply existsb_Exists in Eg as (m' & [Hm' Hp']%elem_of_filterb & Hid). unfold has_id in Hid. bsplit.
  assert (m' = m) as -> by (apply (same_id_same_model d); [done..|lia]). congruence.
Qed.

Lemma delete_models_lookup p d n d' k t : db_wf d → sql_delete_models p d = Ok (n, d') →
  templates d' !! k = Some t ↔
  ∃ m, m ∈ face_models d ∧ p m = false ∧ label_key m = k ∧ t = template (face_embeddings d) m.
Proof.
  intros Hwf Hd. rewrite templates_lookup by (apply (wf_labels d'), (delete_models_wf _ _ _ _ Hd Hwf)).
  assert (Hin : ∀ m, m ∈ face_models d' ↔ m ∈ face_models d ∧ p m = false).
  { intros m. injection Hd as _ <-. cbn. rewrite elem_of_filterb. by rewrite negb_true_iff. }
  split.
  - intros (m & [Hm Hp]%Hin & Hk & ->). exists m. split_and!; try done.
    by apply (delete_models_template p d n d').
  - intros (m & Hm & Hp & Hk & ->). exists m. split_and!; [by apply Hin|done|].
    symmetry. by apply (delete_models_template p d n d').
Qed.

Lemma size_templates d : db_wf d → size (templates d) = length (face_models d).
Proof.
  intros Hwf. unfold templates. rewrite map_size_list_to_map; [apply length_map|].
  change (NoDup (map fst (map (λ m, (label_key m, template (face_embeddings d) m))
    (face_models d)))). rewrite map_map. apply (wf_labels d Hwf).
Qed.

Lemma length_filterb_split {A} (p : A → bool) l :
  (length (List.filter p l) + length (List.filter (λ x, negb (p x)) l))%nat = length l.
Proof. induction l as [|x l IH]; [done|]. cbn. destruct (p x); cbn; lia. Qed.

(** Deleting the models whose key and id satisfy [q] filters the map. *)
Lemma delete_models_templates (q : string * string → Z → bool) p d n d' : db_wf d →
  (∀ m, p m = q (label_key m) (m_id m)) → sql_delete_models p d = Ok (n, d') →
  templates d' = filter (λ kt, q kt.1 (t_id kt.2) = false) (templates d) ∧
  (n + size (templates d'))%nat = size (templates d).
Proof.
  intros Hwf Hpq Hd. split.
  - apply map_eq_iff. intros k. apply option_eq. intros t.
    rewrite (delete_models_lookup _ _ _ _ _ _ Hwf Hd), map_lookup_filter_Some,
      templates_lookup by apply (wf_labels d Hwf). setoid_rewrite Hpq. split.
    + intros (m & Hm & Hq & <- & ->). split; [by exists m|done].
    + intros ((m & Hm & <- & ->) & Hq). by exists m.
  - rewrite !size_templates by (done || by eapply delete_models_wf). injection Hd as <- <-.
    apply length_filterb_split.
Qed.

Lemma filterb_all {A} (p : A → bool) l : (∀ x, x ∈ l → p x = true) → List.filter p l = l.
Proof.
  induction l as [|x l IH]; intros Hp; [done|]. cbn. rewrite Hp by apply list_elem_of_here.
  f_equal. apply IH. intros y Hy. apply Hp. by apply list_elem_of_further.
Qed.

Lemma filterb_none {A} (p : A → bool) l : (∀ x, x ∈ l → p x = false) → List.filter p l = [].
Proof.
  induction l as [|x l IH]; intros Hp; [done|]. cbn. rewrite Hp by apply list_elem_of_here.
  apply IH. intros y Hy. apply Hp. by apply list_elem_of_further.
Qed.

Lemma insert_all_ok `{ShowSqlite} mid se blobs s u s' : insert_all mid se blobs s = (Ok u, s') →
  ∃ rows, face_embeddings (db s') = face_embeddings (db s) ++ rows ∧
    face_models (db s') = face_models (db s) ∧
    rate_limit_rows (db s') = rate_limit_rows (db s) ∧ model_seq (db s') = model_seq (db s) ∧
    map blob_of rows = map (λ b, (b, negb (se =? 0))) blobs ∧
    (∀ e, e ∈ rows → e_model_id e = mid).
Proof.
  revert s. induction blobs as [|b bs IH]; intros s.
  - intros [= _ <-]. exists []. rewrite app_nil_r. split_and!; try done. by intros e ?%not_elem_of_nil.
  - cbn [insert_all]. intros (x & s1 & He & Hr)%bind_ok. apply exec_ok in He.
    unfold sql_insert_embedding in He. destruct (existsb _ _); [cbn [negb] in He|done]. destruct (_ <=? _); [done|].
    injection He as _ He. destruct (IH _ Hr) as (rows & R1 & R2 & R3 & R4 & R5 & R6).
    eexists (_ :: rows). rewrite R1, R2, R3, R4, <- He. cbn. rewrite <- app_assoc. cbn.
    split_and!; [done|done|done|done| |].
    + cbn. by rewrite R5.
    + intros e [->|Hi]%elem_of_cons; [done|by apply R6].
Qed.

(** Appending a model with a fresh id and label, and the embeddings that reference it,
    inserts one template and leaves the others alone. *)
Lemma templates_snoc d d' m rows : db_wf d → model_seq d < m_id m →
  label_key m ∉ map label_key (face_models d) → (∀ e, e ∈ rows → e_model_id e = m_id m) →
  face_models d' = face_models d ++ [m] → face_embeddings d' = face_embeddings d ++ rows →
  templates d' = <[label_key m := {| t_id := m_id m; t_embedder := m_embedder_model m;
    t_device := m_device_id m; t_key := m_key_id m; t_blobs := map blob_of rows |}]> (templates d).
Proof.
  intros Hwf Hid Hl Hrows Hm He. unfold templates. rewrite Hm, He, map_app. cbn [map].
  rewrite list_to_map_snoc.
  2: { change (label_key m ∉ map fst (map (λ m0, (label_key m0,
         template (face_embeddings d ++ rows) m0)) (face_models d))). by rewrite map_map. }
  f_equal.
  - unfold template. f_equal. rewrite List.filter_app, filterb_none, filterb_all; [done| |].
    + intros e Hi. rewrite (Hrows e Hi). lia.
    + intros e Hi. apply Z.eqb_neq.
      pose proof (wf_foreign _ Hwf e Hi) as (m' & -> & Hm')%list_elem_of_fmap.
      pose proof (wf_seq _ Hwf m' Hm'). lia.
  - f_equal. apply map_ext_in. intros m' Hm'%list_elem_of_In. unfold template. do 3 f_equal.
    rewrite List.filter_app, (filterb_none _ rows), app_nil_r; [done|].
    intros e Hi. rewrite (Hrows e Hi). pose proof (wf_seq _ Hwf m' Hm'). lia.
Qed.

(** Inserting a model and its embeddings inserts the template. *)
Lemma insert_template `{ShowSqlite} clock u l em dv k se blobs s s1 mid s' x : db_wf (db s) →
  model_seq (db s) < u32_max →
  insert_model_row clock u l em dv k s = (Ok mid, s1) →
  insert_all mid (sealed_int se) blobs s1 = (Ok x, s') →
  mid = model_seq (db s) + 1 ∧ rate_limit_rows (db s') = rate_limit_rows (db s) ∧
  templates (db s') = <[(u, l) := {| t_id := mid; t_embedder := em; t_device := dv; t_key := k;
    t_blobs := map (λ b, (b, se)) blobs |}]> (templates (db s)).
Proof.
  intros Hwf Hseq (rid & s0 & He & [= <- <-])%bind_ok Hall. apply exec_ok in He.
  pose proof (wf_seq_nonneg _ Hwf) as Hnn. unfold sql_insert_model in He.
  destruct (existsb _ _) eqn:Eu; [done|]. destruct (_ <=? _); [done|]. injection He as <- He.
  rewrite as_u32_id in * by (unfold is_u32, u32_max in *; lia).
  destruct (insert_all_ok _ _ _ _ _ _ Hall) as (rows & R1 & R2 & R3 & _ & R5 & R6).
  split; [done|]. split; [by rewrite R3, <- He|].
  rewrite <- He in R1, R2. cbn [face_models face_embeddings] in R1, R2.
  lazymatch type of R2 with _ = _ ++ [?m] =>
    rewrite (templates_snoc (db s) (db s') m rows Hwf); [|cbn; lia| |exact R6|exact R2|exact R1]
  end.
  2: { intros (m & Hk & Hm)%list_elem_of_fmap. apply not_true_iff_false in Eu.
       apply Eu, existsb_Exists. exists m. by rewrite same_label_spec. }
  unfold label_key. cbn. rewrite R5. by destruct se.
Qed.

Lemma delete_filter (k : string * string) (t : gmap (string * string) Template) :
  delete k t = filter (λ kt, bool_decide (kt.1 = k) = false) t.
Proof.
  apply map_eq_iff. intros k'. apply option_eq. intros x.
  rewrite lookup_delete_Some, map_lookup_filter_Some, bool_decide_eq_false. cbn.
  split; intros [? ?]; split; congruence.
Qed.

(** The refinement of a computation's outcome: a failure leaves the abstract store alone,
    a success turns it into what [step] describes. *)
Definition refines {A} (s : FaceStore) (out : result A StoreError * FaceStore)
    (step : gmap (string * string) Template → A → gmap (string * string) Template → Prop) : Prop :=
  let '(r, s') := out in
  saved s' = None ∧ rate_limit_rows (db s') = rate_limit_rows (db s) ∧
  match r with
  | Err _ => db s' = db s
  | Ok a => step (templates (db s)) a (templates (db s'))
  end.

Lemma replace_model_spec `{ShowSqlite} clock u l blobs se em dv k s : store_wf s →
  model_seq (db s) < u32_max →
  refines s (replace_model_with_embeddings clock u l blobs se em dv k s) (λ before mid after,
    (3 ≤ length blobs)%nat ∧ mid = model_seq (db s) + 1 ∧
    after = <[(u, l) := {| t_id := mid; t_embedder := em; t_device := dv; t_key := k;
                           t_blobs := map (λ b, (b, se)) blobs |}]> before).
Proof.
  intros [Hwf Hs] Hseq. unfold replace_model_with_embeddings.
  destruct (length blobs <? MIN_EMBEDDINGS_PER_MODEL)%nat eqn:Elen; [done|]. bsplit.
  destruct (in_tx _ s) as [r s'] eqn:E. apply in_tx_spec in E as [Hs' Hr]; [|auto 6 with store|done].
  unfold refines. split; [done|]. destruct r as [mid|e]; [|by rewrite Hr].
  destruct Hr as (s1 & s2 & E1 & Hb & ->).
  apply bind_ok in Hb as (n & s3 & Hd & Hb). apply bind_ok in Hb as (mid' & s4 & Hi & Hb).
  apply bind_ok in Hb as (x & s5 & Ha & [= <- <-]).
  apply exec_ok in Hd. rewrite E1 in Hd.
  destruct (delete_models_templates (λ k _, bool_decide (k = (u, l))) _ _ _ _ Hwf
    (same_label_key u l) Hd) as [Ht _].
  pose proof (delete_models_wf _ _ _ _ Hd Hwf) as Hwf3.
  assert (Hsame : model_seq (db s3) = model_seq (db s) ∧
    rate_limit_rows (db s3) = rate_limit_rows (db s)) by (by injection Hd as _ <-).
  destruct Hsame as [Hm3 Hr3].
  destruct (insert_template _ _ _ _ _ _ _ _ _ _ _ _ _ Hwf3 ltac:(by rewrite Hm3) Hi Ha)
    as (-> & -> & ->).
  rewrite Hm3, Ht, <- delete_filter, insert_delete_eq. done.
Qed.

(** C17.  Enrollment's one write is atomic and exact: whichever statement fails, the database
    is what it was (a failed re-enrollment keeps the old template); on success the
    (user, label) entry is replaced by a template holding exactly the given blobs, at least
    three of them, under one fresh id, and every other template is untouched. *)
Theorem replace_model_refines `{ShowSqlite} clock u l blobs se em dv k s : store_wf s →
  model_seq (db s) < u32_max →
  refines s (replace_model_with_embeddings clock u l blobs se em dv k s) (λ before mid after,
    (3 ≤ length blobs)%nat ∧ mid = model_seq (db s) + 1 ∧
    after = <[(u, l) := {| t_id := mid; t_embedder := em; t_device := dv; t_key := k;
                           t_blobs := map (λ b, (b, se)) blobs |}]> before).
Proof. apply replace_model_spec. Qed.

Lemma replace_model_refines_witness :
  let s := fresh_store (λ _, None) in
  let out := replace_model_with_embeddings (Some 5) "alice" "default" [[1]; [2]; [3]] true
               "m" None None s in
  fst out = Ok 1 ∧
  refines s out (λ before mid after, (3 ≤ 3)%nat ∧ mid = 1 ∧
    after = <[("alice", "default") := {| t_id := mid; t_embedder := "m"; t_device := None;
      t_key := None; t_blobs := [([1], true); ([2], true); ([3], true)] |}]> before).
Proof.
  intros s out. split; [vm_compute; reflexivity|].
  refine (replace_model_refines (Some 5) "alice" "default" [[1]; [2]; [3]] true "m" None None s
    (conj db_empty_wf eq_refl) _). reflexivity.
Defined.

(** One [DELETE FROM face_models] and its row count. *)
Lemma delete_refines `{ShowSqlite} (q : string * string → Z → bool) p {A} (f : nat → A) s :
  store_wf s → (∀ m, p m = q (label_key m) (m_id m)) →
  refines s ((do! n := exec (sql_delete_models p) in ret (f n)) s) (λ before a after,
    after = filter (λ kt, q kt.1 (t_id kt.2) = false) before ∧
    a = f (size before - size after)%nat).
Proof.
  intros [Hwf Hs] Hpq. unfold bind, refines.
  destruct (exec_inside (sql_delete_models p) s) as (Hc & _ & _).
  destruct (exec _ s) as [[n|e] s1] eqn:E; cbn in *.
  - apply exec_ok in E. destruct (delete_models_templates q p _ _ _ Hwf Hpq E) as [Ht Hn].
    split; [congruence|]. split; [by injection E as _ <-|]. split; [done|]. f_equal. lia.
  - rewrite (exec_err _ _ _ _ E). split_and!; congruence.
Qed.

(** The removing operations delete exactly what they name and report it: by label, by
    id (and only for the owning user), all of one user, or everything; a failed one deletes
    nothing. *)
Theorem removals_refine `{ShowSqlite} s u l mid : store_wf s →
  refines s (remove_model_by_label u l s) (λ before b after,
    after = delete (u, l) before ∧ b = bool_decide (size after < size before)%nat) ∧
  refines s (remove_model u mid s) (λ before b after,
    after = filter (λ kt, ¬ (kt.1.1 = u ∧ t_id kt.2 = mid)) before ∧
    b = bool_decide (size after < size before)%nat) ∧
  refines s (clear_user u s) (λ before n after,
    after = filter (λ kt, kt.1.1 ≠ u) before ∧
    n = as_u32 (Z.of_nat (size before - size after))) ∧
  refines s (clear_all s) (λ before n after,
    after = ∅ ∧ n = as_u32 (Z.of_nat (size before))).
Proof.
  intros Hs.
  assert (Hb : ∀ a b : nat, (0 <? a - b)%nat = bool_decide (b < a)%nat).
  { intros a b. apply eq_true_iff_eq. rewrite Nat.ltb_lt, bool_decide_eq_true. lia. }
  assert (Hmono : ∀ {A} out (P Q : _ → A → _ → Prop), refines s out P →
    (∀ x a y, P x a y → Q x a y) → refines s out Q).
  { intros A [[a|e] s'] P Q (? & ? & ?) HPQ; split_and!; auto; by apply HPQ. }
  split_and!.
  - eapply Hmono; [apply (delete_refines (λ k _, bool_decide (k = (u, l)))); [done|apply same_label_key]|].
    cbn beta. intros x b y [-> ->]. by rewrite Hb, delete_filter.
  - eapply Hmono; [apply (delete_refines (λ k i, (i =? mid) && String.eqb k.1 u)); [done|by intros]|].
    cbn beta. intros x b y [-> ->]. rewrite Hb. split_and!; [|done].
    apply map_filter_ext. intros [k1 k2] t _. cbn.
    rewrite andb_false_iff, Z.eqb_neq, String.eqb_neq. clear. destruct (decide (k1 = u)); tauto.
  - eapply Hmono; [apply (delete_refines (λ k _, String.eqb k.1 u)
      (λ m, String.eqb (m_user m) u)); [done|by intros]|].
    cbn beta. intros x b y [-> ->]. split_and!; [|done].
    apply map_filter_ext. intros [k1 k2] t _. cbn. by rewrite String.eqb_neq.
  - eapply Hmono; [apply (delete_refines (λ _ _, true) (λ _, true)); [done|by intros]|].
    cbn beta. intros x b y [-> ->].
    assert (filter (λ _ : string * string * Template, true = false) x = ∅) as ->.
    { apply map_eq. intros k. rewrite lookup_empty. apply eq_None_not_Some.
      by intros [t [_ ?]%map_lookup_filter_Some]. }
    rewrite map_size_empty, Nat.sub_0_r. done.
Qed.

Lemma removals_refine_witness :
  refines (fresh_store (fails_at 0)) (clear_all (fresh_store (fails_at 0)))
    (λ before n after, after = ∅ ∧ n = as_u32 (Z.of_nat (size before))).
Proof.
  exact (proj2 (proj2 (proj2 (removals_refine (fresh_store (fails_at 0)) "alice" "default" 1
    (conj db_empty_wf eq_refl))))).
Defined.
