(* ===== verification/RateLimit.v ===== *)
(** * Rate limiting of failed authentications ([crates/facelock-daemon/src/rate_limit.rs])

    The per-user limiter over the shared store, and its refinement of a sliding window over
    the complete history of recorded failures. *)

From S2P Require Import Prelude Types DeviceBinding Store StoreProofs.

Record RateLimiter := { max_failures : Z; limiter_window_secs : Z }.

Section Limiter.
Context `{ShowSqlite}.

(** Run [m], ignoring its result: [let _ = m]. *)
Definition ignore {E F A B} (m : M F A) (k : M E B) : M E B := λ s, k (snd (m s)).

Definition string_err {A} (m : M StoreError A) : M string A := λ s,
  let '(r, s') := m s in (map_err store_error_to_string r, s').

(** Both clock readings of a call are [clock]: the window is in whole seconds. *)
Definition check (rl : RateLimiter) (clock : option Z) (user : string) : M string bool :=
  ignore (cleanup_rate_limit clock (limiter_window_secs rl))
    (string_err (check_rate_limit clock user (max_failures rl) (limiter_window_secs rl))).

Definition record_failure (rl : RateLimiter) (clock : option Z) (user : string) : M string unit :=
  do! _ := string_err (record_auth_attempt clock user) in
  ignore (cleanup_rate_limit clock (limiter_window_secs rl)) (ret tt).
End Limiter.

(** ** The sliding-window specification *)

(** A call at a clock reading, with what it returned. *)
Inductive LimiterEvent :=
  | EvCheck (t : Z) (user : string)
  | EvRecord (t : Z) (user : string).

Inductive LimiterAnswer :=
  | AnCheck (r : result bool string)
  | AnRecord (r : result unit string).

Definition ev_time (e : LimiterEvent) : Z :=
  match e with EvCheck t _ | EvRecord t _ => t end.

Definition run_event `{ShowSqlite} (rl : RateLimiter) (e : LimiterEvent) (s : FaceStore) :
    LimiterAnswer * FaceStore :=
  match e with
  | EvCheck t u => let '(r, s') := check rl (Some t) u s in (AnCheck r, s')
  | EvRecord t u => let '(r, s') := record_failure rl (Some t) u s in (AnRecord r, s')
  end.

Fixpoint run_events `{ShowSqlite} (rl : RateLimiter) (es : list LimiterEvent) (s : FaceStore) :
    list LimiterAnswer :=
  match es with
  | [] => []
  | e :: es' => let '(a, s') := run_event rl e s in a :: run_events rl es' s'
  end.

(** The answers a limiter may give that remembers every failure it recorded: a check counts
    the user's failures of the last [limiter_window_secs] seconds; errors are always possible
    (the database can fail) and record nothing. *)
Fixpoint window_answers (rl : RateLimiter) (hist : list AttemptRow) (es : list LimiterEvent)
    (answers : list LimiterAnswer) : Prop :=
  match es, answers with
  | [], [] => True
  | EvCheck t u :: es', AnCheck r :: as' =>
      match r with
      | Ok b => b = (Z.of_nat (length (recent_attempts u (t - limiter_window_secs rl) hist))
                       <? max_failures rl)
      | Err _ => True
      end ∧ window_answers rl hist es' as'
  | EvRecord t u :: es', AnRecord r :: as' =>
      match r with
      | Ok _ => window_answers rl (hist ++ [{| a_user := u; a_time := t |}]) es' as'
      | Err _ => window_answers rl hist es' as'
      end
  | _, _ => False
  end.

(** Clock readings that never go back and fit SQLite's integers. *)
Fixpoint clocks_from (now : Z) (es : list LimiterEvent) : Prop :=
  match es with
  | [] => True
  | e :: es' => now ≤ ev_time e < 2 ^ 63 ∧ clocks_from (ev_time e) es'
  end.

(** ** The refinement *)

(** The table agrees with the history for every question that can still be asked. *)
Definition covers (w now : Z) (hist rows : list AttemptRow) : Prop :=
  ∀ u t, now ≤ t → recent_attempts u (t - w) rows = recent_attempts u (t - w) hist.

Lemma covers_later w now now' hist rows : now ≤ now' → covers w now hist rows → covers w now' hist rows.
Proof. intros Hle Hc u t Ht. apply Hc. lia. Qed.

Lemma filter_filter_implied {A} (p q : A → bool) l :
  (∀ x, q x = true → p x = true) → List.filter q (List.filter p l) = List.filter q l.
Proof.
  intros Hpq. induction l as [|x l IH]; [done|]. cbn. specialize (Hpq x).
  destruct (p x), (q x) eqn:Eq; cbn; rewrite ?Eq, IH; try done. by discriminate Hpq.
Qed.

(** Cleaning up at [now] forgets only what no later check counts. *)
Lemma covers_cleanup w now hist rows : covers w now hist rows →
  covers w now hist (List.filter (λ a, negb (a_time a <=? now - w)) rows).
Proof.
  intros Hc u t Ht. rewrite <- (Hc u t Ht). unfold recent_attempts.
  apply filter_filter_implied. intros a Ha. bsplit. apply negb_true_iff, Z.leb_gt. lia.
Qed.

Lemma covers_record w now hist rows a : covers w now hist rows →
  covers w now (hist ++ [a]) (rows ++ [a]).
Proof.
  intros Hc u t Ht. unfold recent_attempts. rewrite !List.filter_app.
  by rewrite (Hc u t Ht : List.filter _ _ = List.filter _ _).
Qed.

Section Refinement.
Context `{ShowSqlite} (rl : RateLimiter).
Hypothesis window_fits : 0 ≤ limiter_window_secs rl < 2 ^ 63.

#[local] Abbreviation w := (limiter_window_secs rl).
#[local] Abbreviation rows s := (rate_limit_rows (db s)).

Lemma cleanup_covers now t hist s : 0 ≤ now ≤ t → t < 2 ^ 63 → covers w now hist (rows s) →
  covers w t hist (rows (snd (cleanup_rate_limit (Some t) w s))).
Proof.
  intros Hnow Ht Hc. apply (covers_later w now t) in Hc; [|lia].
  unfold cleanup_rate_limit. destruct (exec _ s) as [[u|e] s1] eqn:E; cbn [snd].
  - apply exec_ok in E. injection E as _ <-. cbn [rate_limit_rows set_attempts].
    unfold unix_now. rewrite !as_i64_id by lia. by apply covers_cleanup.
  - by rewrite (exec_err _ _ _ _ E).
Qed.

Lemma check_covers now t u hist s r s' : 0 ≤ now ≤ t → t < 2 ^ 63 → covers w now hist (rows s) →
  check rl (Some t) u s = (r, s') →
  covers w t hist (rows s') ∧
  match r with
  | Ok b => b = (Z.of_nat (length (recent_attempts u (t - w) hist)) <? max_failures rl)
  | Err _ => True
  end.
Proof.
  intros Hnow Ht Hc. unfold check, ignore, string_err.
  pose proof (cleanup_covers now t hist s Hnow Ht Hc) as Hcl.
  set (s1 := snd _) in *. clearbody s1. unfold check_rate_limit, bind, query_count.
  destruct (exec _ s1) as [[n|e] s2] eqn:E; cbn; intros [= <- <-].
  - apply exec_ok in E. unfold get_u32 in E. destruct (_ && _); [|done]. injection E as En Edb.
    rewrite <- Edb. split; [done|].
    unfold unix_now in En. rewrite !as_i64_id, (Hcl u t) in En by lia. by rewrite <- En.
  - by rewrite (exec_err _ _ _ _ E).
Qed.

Lemma record_covers now t u hist s r s' : 0 ≤ now ≤ t → t < 2 ^ 63 → covers w now hist (rows s) →
  record_failure rl (Some t) u s = (r, s') →
  covers w t (match r with Ok _ => hist ++ [{| a_user := u; a_time := t |}] | Err _ => hist end)
    (rows s').
Proof.
  intros Hnow Ht Hc. unfold record_failure, bind, string_err, record_auth_attempt, ignore, ret.
  destruct (exec _ s) as [[x|e] s1] eqn:E; cbn [map_err]; intros [= <- <-].
  - apply (cleanup_covers t t); [lia|done|]. apply exec_ok in E. injection E as _ <-.
    cbn [rate_limit_rows set_attempts]. unfold unix_now. rewrite as_i64_id by lia.
    apply covers_record, (covers_later w now); [lia|done].
  - rewrite (exec_err _ _ _ _ E). by apply (covers_later w now); [lia|].
Qed.

Lemma run_events_window now es s hist : 0 ≤ now → clocks_from now es → covers w now hist (rows s) →
  window_answers rl hist es (run_events rl es s).
Proof.
  revert now s hist. induction es as [|e es IH]; intros now s hist Hn Hcl Hc; [done|].
  cbn [run_events]. destruct Hcl as [Ht Hcl]. destruct e as [t u|t u]; cbn [ev_time] in *; cbn [run_event].
  - destruct (check rl (Some t) u s) as [r s'] eqn:E.
    destruct (check_covers now t u hist s r s') as [Hc' Hr]; [lia|lia|done|done|].
    split; [by destruct r|]. apply (IH t); [lia|done|done].
  - destruct (record_failure rl (Some t) u s) as [r s'] eqn:E.
    pose proof (record_covers now t u hist s r s') as Hc'.
    cbn. destruct r; apply (IH t); try lia; try done; by apply Hc'; [lia|lia|..].
Qed.
End Refinement.

(** C34.  The limiter is a sliding window: under a clock that does not go back, every answer of
    every check, after any sequence of checks and recorded failures and with the database
    failing anywhere, is whether the user has fewer than [max_failures] failures recorded in
    the last [window_secs] seconds of the whole history. The clean-ups it runs never change an
    answer, and no other user's failures count. *)
Theorem limiter_is_sliding_window `{ShowSqlite} rl es s :
  0 ≤ limiter_window_secs rl < 2 ^ 63 → clocks_from 0 es →
  window_answers rl (rate_limit_rows (db s)) es (run_events rl es s).
Proof. intros Hw Hc. by apply (run_events_window rl Hw 0). Qed.

#[local] Instance show_sqlite_code : ShowSqlite := λ _, "sqlite error".

Lemma limiter_is_sliding_window_witness :
  let rl := {| max_failures := 2; limiter_window_secs := 60 |} in
  let es := [EvRecord 100 "alice"; EvRecord 130 "alice"; EvCheck 150 "alice"; EvCheck 150 "bob";
             EvCheck 165 "alice"] in
  run_events rl es (fresh_store (λ _, None)) =
    [AnRecord (Ok tt); AnRecord (Ok tt); AnCheck (Ok false); AnCheck (Ok true); AnCheck (Ok true)] ∧
  window_answers rl [] es (run_events rl es (fresh_store (λ _, None))).
Proof.
  intros rl es. split; [vm_compute; reflexivity|].
  apply (limiter_is_sliding_window rl es (fresh_store (λ _, None))); cbn; lia.
Defined.
