(* ===== verification/Ingress.v ===== *)
(** * The ingress limiter ([crates/facelock-daemon/src/server.rs])

    A token bucket per caller, checked before an authorized non-root [Authenticate] may cause any
    work. Unlike the limiter of [RateLimit.v] it lives in memory, is keyed by the caller, and
    charges every call. Buckets idle for [INGRESS_BUCKET_TTL] are dropped, and at
    [MAX_INGRESS_BUCKETS] the one least recently seen is evicted. Instants are nanoseconds. *)

From stdpp Require Import gmap fin_maps.
From S2P Require Import Prelude.

Definition INGRESS_BURST : Z := 10.
Definition INGRESS_REFILL : Z := 1000000000.
Definition INGRESS_BUCKET_TTL : Z := INGRESS_BURST * 1000000000.
Definition MAX_INGRESS_BUCKETS : nat := 1024.

Record IngressBucket := { tokens : Z; last_refill : Z; last_seen : Z }.

(** The mutex-guarded map of buckets, and whether the mutex is poisoned. *)
Record IngressState := { buckets : gmap Z IngressBucket; state_poisoned : bool }.

(** The order in which a [HashMap] is iterated. *)
Class HashOrder := {
  hash_iter : gmap Z IngressBucket → list (Z * IngressBucket);
  hash_iter_perm m : hash_iter m ≡ₚ map_to_list m;
}.

(** [Iterator::min_by_key]: of equal minima, the first. *)
Definition min_by_key {A} (key : A → Z) (l : list A) : option A :=
  match l with
  | [] => None
  | x :: l => Some (fold_left (λ m y, if key y <? key m then y else m) l x)
  end.

(** The refill of [check_and_charge_at], from [bucket.last_seen = now] on. *)
Definition refill (now : Z) (b : IngressBucket) : IngressBucket :=
  let elapsed := saturating_sub now (last_refill b) in
  let refill_units := elapsed / INGRESS_REFILL in
  if INGRESS_BURST <=? refill_units then
    {| tokens := INGRESS_BURST; last_refill := now; last_seen := now |}
  else if 0 <? refill_units then
    {| tokens := Z.min (Z.min u32_max (tokens b + as_u32 refill_units)) INGRESS_BURST;
       last_refill := last_refill b + INGRESS_REFILL * as_u32 refill_units; last_seen := now |}
  else {| tokens := tokens b; last_refill := last_refill b; last_seen := now |}.

Definition charge_bucket (now : Z) (b : IngressBucket) : bool * IngressBucket :=
  let b := refill now b in
  if tokens b =? 0 then (false, b)
  else (true, {| tokens := tokens b - 1; last_refill := last_refill b; last_seen := last_seen b |}).

Definition fresh_bucket (now : Z) : IngressBucket :=
  {| tokens := INGRESS_BURST; last_refill := now; last_seen := now |}.

(** [retain]: what was seen within the time to live. *)
Definition retain_live (now : Z) (m : gmap Z IngressBucket) : gmap Z IngressBucket :=
  filter (λ kb, saturating_sub now (last_seen kb.2) < INGRESS_BUCKET_TTL) m.

Definition make_room `{HashOrder} (uid : Z) (m : gmap Z IngressBucket) : gmap Z IngressBucket :=
  if negb (is_some (m !! uid)) && (MAX_INGRESS_BUCKETS <=? size m)%nat then
    match min_by_key (λ kb, last_seen kb.2) (hash_iter m) with
    | Some (oldest_uid, _) => delete oldest_uid m
    | None => m
    end
  else m.

Definition check_and_charge_at `{HashOrder} (uid now : Z) (s : IngressState) : bool * IngressState :=
  if state_poisoned s then (false, s)
  else
    let m := make_room uid (retain_live now (buckets s)) in
    let '(admitted, b) := charge_bucket now (default (fresh_bucket now) (m !! uid)) in
    (admitted, {| buckets := <[uid := b]> m; state_poisoned := false |}).

(** [IngressLimiter::default]. *)
Definition ingress_default : IngressState := {| buckets := ∅; state_poisoned := false |}.

(** ** Sequences of calls: caller and instant of each *)

Fixpoint run_checks `{HashOrder} (calls : list (Z * Z)) (s : IngressState) : list bool * IngressState :=
  match calls with
  | [] => ([], s)
  | (uid, now) :: calls =>
      let '(r, s) := check_and_charge_at uid now s in
      let '(rs, s) := run_checks calls s in (r :: rs, s)
  end.

(** Instants of a monotonic clock, from [t] on. *)
Fixpoint instants_from (t : Z) (calls : list (Z * Z)) : Prop :=
  match calls with
  | [] => True
  | (_, now) :: calls => t ≤ now ∧ instants_from now calls
  end.

(** The answers [uid] got, with their instants. *)
Definition answers_of (uid : Z) (calls : list (Z * Z)) (rs : list bool) : list (Z * bool) :=
  omap (λ '((u, now), r), if u =? uid then Some (now, r) else None) (zip calls rs).

Definition instants_of (uid : Z) (calls : list (Z * Z)) : list Z :=
  omap (λ '(u, now), if u =? uid then Some now else None) calls.

(** The reference: a bucket that is never dropped and sees one caller only. *)
Fixpoint private_bucket (b : option IngressBucket) (instants : list Z) : list (Z * bool) :=
  match instants with
  | [] => []
  | now :: rest =>
      let '(r, b) := charge_bucket now (default (fresh_bucket now) b) in (now, r) :: private_bucket (Some b) rest
  end.

Definition admitted_between (t0 t1 : Z) (answers : list (Z * bool)) : Z :=
  Z.of_nat (length (List.filter (λ '(t, r), r && (t0 <=? t) && (t <=? t1)) answers)).

(** ** One bucket *)

(** What holds of a bucket between calls, the last of them at [t] or before. *)
Definition bucket_ok (t : Z) (b : IngressBucket) : Prop :=
  0 ≤ tokens b < INGRESS_BURST ∧ last_refill b ≤ last_seen b ≤ t.

Lemma bucket_ok_later t t' b : t ≤ t' → bucket_ok t b → bucket_ok t' b.
Proof. unfold bucket_ok. lia. Qed.

(** A refill grants whole seconds only, and leaves less than a second ungranted. *)
Lemma refill_spec t now b : bucket_ok t b ∨ b = fresh_bucket now → t ≤ now →
  let b' := refill now b in
  0 ≤ tokens b' ≤ INGRESS_BURST ∧ last_seen b' = now ∧
  now - INGRESS_REFILL < last_refill b' ≤ now ∧ last_refill b ≤ last_refill b' ∧
  tokens b' * INGRESS_REFILL + (now - last_refill b') ≤ tokens b * INGRESS_REFILL + (now - last_refill b) ∧
  (last_refill b + INGRESS_REFILL ≤ now → 0 < tokens b').
Proof.
  intros Hb Ht. unfold refill, saturating_sub.
  assert (0 ≤ tokens b ≤ INGRESS_BURST ∧ last_refill b ≤ now) as [Htok HL].
  { destruct Hb as [[? ?]| ->]; unfold fresh_bucket, INGRESS_BURST in *; cbn; lia. }
  rewrite Z.max_r by lia. set (k := (now - last_refill b) / INGRESS_REFILL).
  assert (INGRESS_REFILL * k ≤ now - last_refill b < INGRESS_REFILL * k + INGRESS_REFILL) as Hk.
  { unfold k. pose proof (Z.div_mod (now - last_refill b) INGRESS_REFILL).
    pose proof (Z.mod_pos_bound (now - last_refill b) INGRESS_REFILL). unfold INGRESS_REFILL in *. lia. }
  clearbody k. unfold INGRESS_BURST, INGRESS_REFILL, u32_max, as_u32 in *.
  destruct (Z.leb_spec 10 k); cbn; [lia|].
  destruct (Z.ltb_spec 0 k); cbn; [|lia]. rewrite (Z.mod_small k) by lia. lia.
Qed.

Lemma charge_ok t now b : bucket_ok t b ∨ b = fresh_bucket now → t ≤ now →
  bucket_ok now (charge_bucket now b).2.
Proof.
  intros Hb Ht. pose proof (refill_spec t now b Hb Ht) as Hr. cbn zeta in Hr. unfold charge_bucket.
  unfold bucket_ok, INGRESS_BURST in *. destruct (Z.eqb_spec (tokens (refill now b)) 0); cbn; lia.
Qed.

Lemma charge_admits t now b : bucket_ok t b ∨ b = fresh_bucket now → t ≤ now →
  0 < tokens (refill now b) → (charge_bucket now b).1 = true.
Proof.
  intros Hb Ht Hpos. unfold charge_bucket. destruct (Z.eqb_spec (tokens (refill now b)) 0); [lia|done].
Qed.

(** A bucket idle for the time to live refills completely: dropping it loses nothing. *)
Lemma charge_stale t now b : bucket_ok t b → last_seen b + INGRESS_BUCKET_TTL ≤ now →
  charge_bucket now b = charge_bucket now (fresh_bucket now).
Proof.
  intros [_ Hb] Hs. unfold charge_bucket. enough (refill now b = refill now (fresh_bucket now)) as -> by done.
  unfold refill, saturating_sub, fresh_bucket. cbn [last_refill tokens].
  unfold INGRESS_BUCKET_TTL, INGRESS_BURST in *.
  replace (Z.max 0 (now - now) / INGRESS_REFILL) with 0 by (rewrite Z.max_l by lia; done).
  destruct (Z.leb_spec 10 (Z.max 0 (now - last_refill b) / INGRESS_REFILL)) as [|Hlt]; [done|].
  apply Z.div_lt_upper_bound in Hlt || (exfalso; revert Hlt; apply Z.nlt_ge, Z.div_le_lower_bound);
    unfold INGRESS_REFILL in *; lia.
Qed.

(** ** The map of buckets *)

Section Limiter.
Context `{HashOrder}.

Lemma min_by_key_some {A} (key : A → Z) l : l ≠ [] → is_some (min_by_key key l) = true.
Proof. by destruct l. Qed.

Lemma min_by_key_elem {A} (key : A → Z) l x : min_by_key key l = Some x → x ∈ l.
Proof.
  destruct l as [|y l]; [done|]. cbn. intros [= <-]. revert y.
  induction l as [|z l IH]; intros y; cbn; [apply list_elem_of_here|].
  specialize (IH (if key z <? key y then z else y)). revert IH.
  destruct (key z <? key y); rewrite !elem_of_cons; tauto.
Qed.

Lemma hash_iter_size m : length (hash_iter m) = size m.
Proof. by rewrite hash_iter_perm, length_map_to_list. Qed.

(** After making room there is a bucket for [uid], or a free place for one. *)
Lemma make_room_size uid m : (size m ≤ MAX_INGRESS_BUCKETS)%nat →
  (size (<[uid := fresh_bucket 0]> (make_room uid m)) ≤ MAX_INGRESS_BUCKETS)%nat.
Proof.
  intros Hm. unfold make_room. destruct (m !! uid) as [b|] eqn:Eu; cbn [is_some negb andb].
  { rewrite map_size_insert_Some by eauto. done. }
  destruct (Nat.leb_spec MAX_INGRESS_BUCKETS (size m)) as [Hfull|].
  2: { rewrite map_size_insert_None by done. lia. }
  destruct (min_by_key _ _) as [[v b]|] eqn:Emin.
  - apply min_by_key_elem in Emin. rewrite hash_iter_perm, elem_of_map_to_list in Emin.
    rewrite map_size_insert_None by (by rewrite lookup_delete_None; right).
    rewrite map_size_delete_Some by eauto. unfold MAX_INGRESS_BUCKETS in *. lia.
  - assert (hash_iter m ≠ []) as Hne.
    { intros Hn. pose proof (hash_iter_size m) as Hs. rewrite Hn in Hs. cbn in Hs.
      unfold MAX_INGRESS_BUCKETS in Hfull. lia. }
    pose proof (min_by_key_some (λ kb : Z * IngressBucket, last_seen kb.2) _ Hne) as Hsome.
    by rewrite Emin in Hsome.
Qed.

Lemma size_insert_any (m : gmap Z IngressBucket) u b b' : size (<[u := b]> m) = size (<[u := b']> m).
Proof. rewrite <- !size_dom. by rewrite !dom_insert. Qed.

Lemma retain_live_size now m : (size (retain_live now m) ≤ size m)%nat.
Proof. unfold retain_live. rewrite <- !size_dom. apply subseteq_size, dom_filter_subseteq. Qed.

Lemma check_size uid now s r s' : (size (buckets s) ≤ MAX_INGRESS_BUCKETS)%nat →
  check_and_charge_at uid now s = (r, s') → (size (buckets s') ≤ MAX_INGRESS_BUCKETS)%nat.
Proof.
  intros Hs. unfold check_and_charge_at. destruct (state_poisoned s); [by intros [= _ <-]|].
  destruct (charge_bucket _ _) as [a b]. intros [= _ <-]. cbn [buckets].
  rewrite (size_insert_any _ _ _ (fresh_bucket 0)). apply make_room_size.
  etransitivity; [apply retain_live_size|done].
Qed.

Lemma run_size calls : ∀ s, (size (buckets s) ≤ MAX_INGRESS_BUCKETS)%nat →
  (size (buckets (run_checks calls s).2) ≤ MAX_INGRESS_BUCKETS)%nat.
Proof.
  induction calls as [|[u now] calls IH]; intros s Hs; cbn; [done|].
  destruct (check_and_charge_at u now s) as [r s1] eqn:E.
  specialize (IH s1 (check_size _ _ _ _ _ Hs E)). by destruct (run_checks calls s1).
Qed.

(** A bucket for [uid] is, whatever the other callers do, one that [uid] used. *)
Lemma make_room_lookup uid v m b : make_room uid m !! v = Some b → m !! v = Some b.
Proof.
  unfold make_room. destruct (_ && _); [|done]. destruct (min_by_key _ _) as [[w ?]|]; [|done].
  intros E. by apply lookup_delete_Some in E as [_ ?].
Qed.

Lemma make_room_own uid m : is_some (m !! uid) = true → make_room uid m = m.
Proof. unfold make_room. by intros ->. Qed.

Lemma make_room_free uid m : (size m < MAX_INGRESS_BUCKETS)%nat → make_room uid m = m.
Proof.
  unfold make_room. intros Hs. destruct (Nat.leb_spec MAX_INGRESS_BUCKETS (size m)); [lia|].
  by rewrite andb_false_r.
Qed.

Lemma retain_live_lookup now m u b :
  retain_live now m !! u = Some b ↔ m !! u = Some b ∧ saturating_sub now (last_seen b) < INGRESS_BUCKET_TTL.
Proof. unfold retain_live. by rewrite map_lookup_filter_Some. Qed.

(** ** One caller among the others *)

(** [b] is what a private bucket of [u] would hold after the same calls. *)
Definition tracks (u t : Z) (b : option IngressBucket) (s : IngressState) : Prop :=
  state_poisoned s = false ∧ (∀ b0, b = Some b0 → bucket_ok t b0) ∧
  match buckets s !! u with
  | Some b0 => b = Some b0
  | None => ∀ b0, b = Some b0 → last_seen b0 + INGRESS_BUCKET_TTL ≤ t
  end.

(** Dropping what is stale and making room changes nothing for [u] while there is room. *)
Lemma room_tracks u uid t now b s :
  tracks u t b s → t ≤ now →
  (size (retain_live now (buckets s)) < MAX_INGRESS_BUCKETS)%nat ∨ is_some (retain_live now (buckets s) !! uid) = true →
  match make_room uid (retain_live now (buckets s)) !! u with
  | Some b0 => b = Some b0
  | None => ∀ b0, b = Some b0 → last_seen b0 + INGRESS_BUCKET_TTL ≤ now
  end.
Proof.
  intros (_ & Hok & Hb) Ht Hroom.
  replace (make_room uid _) with (retain_live now (buckets s))
    by (destruct Hroom; [by rewrite make_room_free|by rewrite make_room_own]).
  destruct (retain_live now (buckets s) !! u) as [b0|] eqn:E.
  - apply retain_live_lookup in E as [E _]. by rewrite E in Hb.
  - destruct (buckets s !! u) as [b0|] eqn:Eu.
    + intros b1 [= <-]%(eq_trans (eq_sym Hb)).
      destruct (Z.lt_ge_cases (saturating_sub now (last_seen b0)) INGRESS_BUCKET_TTL) as [Hl|Hl].
      * pose proof (proj2 (retain_live_lookup now _ u b0) (conj Eu Hl)). congruence.
      * unfold saturating_sub, INGRESS_BUCKET_TTL, INGRESS_BURST in *. lia.
    + intros b1 E1. specialize (Hb b1 E1). lia.
Qed.

Lemma check_tracks u uid t now b s r s' :
  tracks u t b s → t ≤ now →
  (size (retain_live now (buckets s)) < MAX_INGRESS_BUCKETS)%nat ∨ is_some (retain_live now (buckets s) !! uid) = true →
  check_and_charge_at uid now s = (r, s') →
  if u =? uid then
    let '(r0, b0) := charge_bucket now (default (fresh_bucket now) b) in r = r0 ∧ tracks u now (Some b0) s'
  else tracks u now b s'.
Proof.
  intros Htr Ht Hroom. pose proof (room_tracks u uid t now b s Htr Ht Hroom) as Hm.
  destruct Htr as (Hp & Hok & _). unfold check_and_charge_at. rewrite Hp.
  set (m := make_room uid _) in *. clearbody m. destruct (charge_bucket now (default _ (m !! uid))) as [a b1] eqn:Ec.
  intros [= <- <-]. destruct (Z.eqb_spec u uid) as [<-|Hne].
  - assert (charge_bucket now (default (fresh_bucket now) b) = (a, b1)) as Ec'.
    { rewrite <- Ec. destruct (m !! u) as [b0|] eqn:Em; [by rewrite Hm|]. cbn.
      destruct b as [b0|]; [|done]. cbn. eapply charge_stale; [apply (bucket_ok_later t)|]; eauto. }
    rewrite Ec'. split; [done|]. split; [done|]. cbn [buckets]. rewrite lookup_insert_eq. split; [|done].
    intros b2 [= <-]. pose proof (charge_ok t now (default (fresh_bucket now) b)) as Hc. rewrite Ec' in Hc.
    apply Hc; [|done]. destruct b as [b0|]; cbn; auto.
  - split; [done|]. cbn [buckets]. rewrite lookup_insert_ne by done. split; [|done].
    intros b0 Hb0. eapply bucket_ok_later; [done|auto].
Qed.

(** The callers seen so far are callers of [calls]; with a place for each there is always room. *)
Lemma room_for (U : gset Z) uid now m : dom m ⊆ U → uid ∈ U → (size U ≤ MAX_INGRESS_BUCKETS)%nat →
  (size (retain_live now m) < MAX_INGRESS_BUCKETS)%nat ∨ is_some (retain_live now m !! uid) = true.
Proof.
  intros Hd Hu HU. destruct (retain_live now m !! uid) eqn:E; [by right|left].
  enough (size (retain_live now m) < size U)%nat by lia. rewrite <- size_dom. apply subset_size.
  assert (dom (retain_live now m) ⊆ U) as Hsub.
  { etransitivity; [apply dom_filter_subseteq|done]. }
  apply not_elem_of_dom in E. split; [done|]. set_solver.
Qed.

Lemma check_dom (U : gset Z) uid now s r s' : dom (buckets s) ⊆ U → uid ∈ U →
  check_and_charge_at uid now s = (r, s') → dom (buckets s') ⊆ U.
Proof.
  intros Hd Hu. unfold check_and_charge_at. destruct (state_poisoned s); [by intros [= _ <-]|].
  destruct (charge_bucket _ _) as [a b]. intros [= _ <-]. cbn [buckets]. rewrite dom_insert.
  intros v [->%elem_of_singleton|[b0 Hv]%elem_of_dom]%elem_of_union; [done|]. apply Hd, elem_of_dom.
  apply make_room_lookup, retain_live_lookup in Hv as [Hv _]. eauto.
Qed.

Lemma run_tracks (U : gset Z) u calls : ∀ t b s, tracks u t b s → instants_from t calls →
  dom (buckets s) ⊆ U → (∀ c, c ∈ calls → c.1 ∈ U) → (size U ≤ MAX_INGRESS_BUCKETS)%nat →
  answers_of u calls (run_checks calls s).1 = private_bucket b (instants_of u calls).
Proof.
  induction calls as [|[uid now] calls IH]; intros t b s Htr Hi Hd Hin HU; [done|].
  cbn in Hi. destruct Hi as [Ht Hi]. cbn.
  assert (uid ∈ U) as Huid by exact (Hin (uid, now) (list_elem_of_here _ _)).
  destruct (check_and_charge_at uid now s) as [r s1] eqn:E.
  pose proof (check_tracks _ _ _ _ _ _ _ _ Htr Ht (room_for U uid now _ Hd Huid HU) E) as Hst.
  pose proof (check_dom U _ _ _ _ _ Hd Huid E) as Hd1.
  assert (∀ c, c ∈ calls → c.1 ∈ U) as Hin1 by (intros c Hc; apply Hin, elem_of_cons; by right).
  rewrite (Z.eqb_sym uid u). unfold answers_of, instants_of in *.
  destruct (run_checks calls s1) as [rs s2] eqn:Er. cbn. rewrite (Z.eqb_sym uid u).
  destruct (u =? uid).
  - cbn. destruct (charge_bucket now _) as [r0 b0]. destruct Hst as [-> Hst]. f_equal.
    specialize (IH now (Some b0) s1 Hst Hi Hd1 Hin1 HU). by rewrite Er in IH.
  - specialize (IH now b s1 Hst Hi Hd1 Hin1 HU). by rewrite Er in IH.
Qed.

Lemma tracks_default u t : tracks u t None ingress_default.
Proof. split; [done|]. split; [done|]. cbn. by rewrite lookup_empty. Qed.

Definition callers (calls : list (Z * Z)) : gset Z := list_to_set calls.*1.

Lemma run_is_private u calls t : instants_from t calls → (size (callers calls) ≤ MAX_INGRESS_BUCKETS)%nat →
  answers_of u calls (run_checks calls ingress_default).1 = private_bucket None (instants_of u calls).
Proof.
  intros Hi HU. apply (run_tracks (callers calls) u calls t); [apply tracks_default|done|..|done].
  - cbn. rewrite dom_empty. apply empty_subseteq.
  - intros c Hc. apply elem_of_list_to_set, list_elem_of_fmap. eauto.
Qed.

(** ** How many calls a private bucket admits *)

Fixpoint ascending_from (t : Z) (instants : list Z) : Prop :=
  match instants with
  | [] => True
  | now :: rest => t ≤ now ∧ ascending_from now rest
  end.

Lemma ascending_later t t' l : t ≤ t' → ascending_from t' l → ascending_from t l.
Proof. destruct l; cbn; [done|]. intuition lia. Qed.

Lemma instants_of_ascending u calls : ∀ t, instants_from t calls → ascending_from t (instants_of u calls).
Proof.
  induction calls as [|[v now] calls IH]; intros t; cbn; [done|]. intros [Ht Hi].
  specialize (IH now Hi). unfold instants_of in *. destruct (v =? u); [done|].
  by eapply ascending_later.
Qed.

Definition admitted_until (t1 : Z) (answers : list (Z * bool)) : Z :=
  Z.of_nat (length (List.filter (λ '(t, r), r && (t <=? t1)) answers)).

Lemma admitted_until_cons t1 t r l :
  admitted_until t1 ((t, r) :: l) = Z.b2z (r && (t <=? t1)) + admitted_until t1 l.
Proof. unfold admitted_until. cbn [List.filter]. destruct (r && _); cbn [length Z.b2z]; lia. Qed.

Lemma admitted_between_cons t0 t1 t r l :
  admitted_between t0 t1 ((t, r) :: l) = Z.b2z (r && (t0 <=? t) && (t <=? t1)) + admitted_between t0 t1 l.
Proof. unfold admitted_between. cbn [List.filter]. destruct (r && _ && _); cbn [length Z.b2z]; lia. Qed.

(** Nothing after [t1] counts. *)
Lemma admitted_after t1 l : ∀ b t, t1 < t → ascending_from t l → admitted_until t1 (private_bucket b l) = 0.
Proof.
  induction l as [|now l IH]; intros b t Ht Hl; [done|]. destruct Hl as [Hn Hl]. cbn [private_bucket].
  destruct (charge_bucket _ _) as [r b0]. rewrite admitted_until_cons, (IH _ now) by (done || lia).
  destruct (Z.leb_spec now t1); [lia|]. by rewrite andb_false_r.
Qed.

Lemma between_until t0 t1 l : ∀ b t, t0 ≤ t → ascending_from t l →
  admitted_between t0 t1 (private_bucket b l) = admitted_until t1 (private_bucket b l).
Proof.
  induction l as [|now l IH]; intros b t Ht Hl; [done|]. destruct Hl as [Hn Hl]. cbn [private_bucket].
  destruct (charge_bucket _ _) as [r b0]. rewrite admitted_until_cons, admitted_between_cons, (IH _ now) by (done || lia).
  destruct (Z.leb_spec t0 now); [|lia]. by rewrite andb_true_r.
Qed.

(** A charge turns one of the refilled bucket's tokens into an admission. *)
Lemma charge_spends now b r b' : charge_bucket now b = (r, b') →
  tokens b' + Z.b2z r = tokens (refill now b) ∧ last_refill b' = last_refill (refill now b).
Proof.
  unfold charge_bucket. generalize (refill now b). intros c. destruct (tokens c =? 0); intros [= <- <-]; cbn; lia.
Qed.

Lemma until_bound t1 l : ∀ b t, bucket_ok t b → t ≤ t1 → ascending_from t l →
  admitted_until t1 (private_bucket (Some b) l) * INGRESS_REFILL
    ≤ tokens b * INGRESS_REFILL + (t1 - last_refill b).
Proof.
  induction l as [|now l IH]; intros b t Hb Ht Hl.
  { change (0 * INGRESS_REFILL ≤ tokens b * INGRESS_REFILL + (t1 - last_refill b)).
    unfold bucket_ok, INGRESS_REFILL in *. lia. }
  destruct Hl as [Hn Hl]. cbn [private_bucket from_option id].
  pose proof (refill_spec t now b (or_introl Hb) Hn) as Hr. cbn zeta in Hr.
  pose proof (charge_ok t now b (or_introl Hb) Hn) as Hb'.
  destruct (charge_bucket now b) as [r b'] eqn:Ec. apply charge_spends in Ec as [Htok HL]. cbn [snd] in Hb'.
  rewrite admitted_until_cons. destruct (Z.leb_spec now t1) as [H1|H1].
  - specialize (IH b' now Hb' H1 Hl). rewrite andb_true_r. unfold INGRESS_REFILL in *. lia.
  - rewrite (admitted_after t1 l _ now) by done. rewrite andb_false_r.
    unfold bucket_ok, INGRESS_REFILL in *. cbn [Z.b2z]. lia.
Qed.

Lemma between_bound t0 t1 l : ∀ b t, (∀ b0, b = Some b0 → bucket_ok t b0) → t0 ≤ t1 → ascending_from t l →
  admitted_between t0 t1 (private_bucket b l) * INGRESS_REFILL
    < (INGRESS_BURST + 1) * INGRESS_REFILL + (t1 - t0).
Proof.
  induction l as [|now l IH]; intros b t Hb H01 Hl.
  { change (0 * INGRESS_REFILL < (INGRESS_BURST + 1) * INGRESS_REFILL + (t1 - t0)).
    unfold INGRESS_BURST, INGRESS_REFILL. lia. }
  destruct Hl as [Hn Hl]. cbn [private_bucket]. set (b1 := default (fresh_bucket now) b).
  assert (bucket_ok t b1 ∨ b1 = fresh_bucket now) as Hb1 by (destruct b; cbn; auto).
  pose proof (refill_spec t now b1 Hb1 Hn) as Hr. cbn zeta in Hr.
  pose proof (charge_ok t now b1 Hb1 Hn) as Hb'.
  destruct (charge_bucket now b1) as [r b'] eqn:Ec. apply charge_spends in Ec as [Htok HL]. cbn [snd] in Hb'.
  rewrite admitted_between_cons. destruct (Z.leb_spec t0 now) as [H0|H0].
  - rewrite (between_until t0 t1 l _ now) by done. destruct (Z.leb_spec now t1) as [H1|H1].
    + pose proof (until_bound t1 l b' now Hb' H1 Hl). rewrite !andb_true_r.
      unfold INGRESS_BURST, INGRESS_REFILL in *. lia.
    + rewrite (admitted_after t1 l _ now) by done. rewrite !andb_false_r.
      unfold INGRESS_BURST, INGRESS_REFILL in *. cbn [Z.b2z]. lia.
  - rewrite andb_false_r. cbn [andb Z.b2z]. rewrite Z.add_0_l.
    apply (IH (Some b') now); [by intros ? [= <-]|done|done].
Qed.

(** ** A caller that waits a second *)

Fixpoint patient_from (t : Z) (instants : list Z) : Prop :=
  match instants with
  | [] => True
  | now :: rest => t + INGRESS_REFILL ≤ now ∧ patient_from now rest
  end.

(** Any bucket of [u] in the map was last seen at [seen] or before. *)
Definition idle_since (u t : Z) (seen : option Z) (s : IngressState) : Prop :=
  state_poisoned s = false ∧
  (∀ b, buckets s !! u = Some b → bucket_ok t b ∧ ∃ t0, seen = Some t0 ∧ last_seen b ≤ t0).

Lemma check_idle u uid t now seen s r s' : idle_since u t seen s → t ≤ now →
  (u = uid → ∀ t0, seen = Some t0 → t0 + INGRESS_REFILL ≤ now) →
  check_and_charge_at uid now s = (r, s') →
  if u =? uid then r = true ∧ idle_since u now (Some now) s' else idle_since u now seen s'.
Proof.
  intros (Hp & Hb) Ht Hwait. unfold check_and_charge_at. rewrite Hp.
  set (m := make_room uid _). assert (∀ b, m !! u = Some b → bucket_ok t b ∧ ∃ t0, seen = Some t0 ∧ last_seen b ≤ t0) as Hm.
  { intros b Hmu. apply Hb. by apply make_room_lookup, retain_live_lookup in Hmu as [? _]. }
  clearbody m. set (b1 := default (fresh_bucket now) (m !! uid)). destruct (charge_bucket now b1) as [a b2] eqn:Ec.
  intros [= <- <-]. destruct (Z.eqb_spec u uid) as [<-|Hne].
  - assert (bucket_ok t b1 ∨ b1 = fresh_bucket now) as Hb1.
    { subst b1. destruct (m !! u) as [b|] eqn:E; cbn; [left; by apply Hm|by right]. }
    pose proof (refill_spec t now b1 Hb1 Ht) as Hr. cbn zeta in Hr.
    pose proof (charge_ok t now b1 Hb1 Ht) as Hok. pose proof (charge_admits t now b1 Hb1 Ht) as Hadm.
    rewrite Ec in Hok, Hadm. cbn [fst snd] in *. split.
    + apply Hadm. subst b1. destruct (m !! u) as [b|] eqn:E; cbn [from_option id] in *.
      * destruct (Hm b eq_refl) as [[_ Hl] (t0 & -> & Hl0)]. specialize (Hwait eq_refl t0 eq_refl). lia.
      * unfold refill, fresh_bucket, saturating_sub. cbn [last_refill]. rewrite Z.sub_diag. by vm_compute.
    + split; [done|]. cbn [buckets]. intros b. rewrite lookup_insert_eq. intros [= <-]. split; [done|].
      exists now. split; [done|]. apply Hok.
  - split; [done|]. cbn [buckets]. rewrite lookup_insert_ne by done. intros b Hbu.
    destruct (Hm b Hbu) as [Hok Hs]. split; [|done]. by eapply bucket_ok_later.
Qed.

Lemma run_patient u calls : ∀ t seen s, idle_since u t seen s → instants_from t calls →
  match instants_of u calls with
  | [] => True
  | now :: rest => (∀ t0, seen = Some t0 → t0 + INGRESS_REFILL ≤ now) ∧ patient_from now rest
  end →
  answers_of u calls (run_checks calls s).1 = map (λ now, (now, true)) (instants_of u calls).
Proof.
  induction calls as [|[uid now] calls IH]; intros t seen s Hs Hi Hpat; [done|].
  cbn in Hi. destruct Hi as [Ht Hi]. cbn. destruct (check_and_charge_at uid now s) as [r s1] eqn:E.
  pose proof (check_idle u uid t now seen s r s1 Hs Ht) as Hst.
  unfold answers_of, instants_of in *. cbn in Hpat |- *.
  destruct (run_checks calls s1) as [rs s2] eqn:Er. cbn. rewrite (Z.eqb_sym uid u) in *.
  destruct (Z.eqb_spec u uid) as [<-|Hne].
  - destruct Hpat as [Hw Hpat]. destruct Hst as [-> Hst]; [by intros _|done|]. cbn. f_equal.
    specialize (IH now (Some now) s1 Hst Hi). rewrite Er in IH. apply IH.
    destruct (omap _ calls) as [|n rest]; [done|]. destruct Hpat as [Hp1 Hp2]. split; [|done].
    by intros t0 [= <-].
  - specialize (Hst ltac:(done) E). specialize (IH now seen s1 Hst Hi Hpat). by rewrite Er in IH.
Qed.
End Limiter.

(** ** Properties *)

(** C27.  The map with its expiry and eviction is a memory bound, not a policy: over any
    sequence of calls at non-decreasing instants by at most 1024 callers, what each caller is
    answered is what a token bucket of its own, never dropped and never shared, answers to its
    own calls alone. *)
Theorem ingress_is_private_bucket `{HashOrder} u t calls :
  instants_from t calls → (size (callers calls) ≤ MAX_INGRESS_BUCKETS)%nat →
  answers_of u calls (run_checks calls ingress_default).1 = private_bucket None (instants_of u calls).
Proof. apply run_is_private. Qed.

(** Bounds on admission: in any interval, a caller among at most 1024 is admitted fewer
    times than eleven plus the interval's seconds (the burst, one per second, and the fraction
    of a second the bucket had not granted yet). *)
Theorem ingress_bounds_admissions `{HashOrder} u t calls t0 t1 :
  instants_from t calls → (size (callers calls) ≤ MAX_INGRESS_BUCKETS)%nat → t0 ≤ t1 →
  admitted_between t0 t1 (answers_of u calls (run_checks calls ingress_default).1) * INGRESS_REFILL
    < (INGRESS_BURST + 1) * INGRESS_REFILL + (t1 - t0).
Proof.
  intros Hi HU H01. rewrite (run_is_private u calls t) by done.
  apply (between_bound t0 t1 _ None t); [done|done|]. by apply instants_of_ascending.
Qed.

(** A flood costs bounded memory and starves nobody: after any calls by any number of
    callers there are at most 1024 buckets, and a caller whose calls are at least a second apart
    is admitted every time. *)
Theorem ingress_survives_flood `{HashOrder} u t calls :
  instants_from t calls →
  (size (buckets (run_checks calls ingress_default).2) ≤ MAX_INGRESS_BUCKETS)%nat ∧
  (match instants_of u calls with [] => True | now :: rest => patient_from now rest end →
   answers_of u calls (run_checks calls ingress_default).1 = map (λ now, (now, true)) (instants_of u calls)).
Proof.
  intros Hi. split.
  - apply run_size. cbn. rewrite map_size_empty. unfold MAX_INGRESS_BUCKETS. lia.
  - intros Hp. apply (run_patient u calls t None); [split; [done|]|done|].
    + intros b. cbn. by rewrite lookup_empty.
    + by destruct (instants_of u calls).
Qed.

(** ** Witnesses *)

Definition key_order : HashOrder := {| hash_iter := map_to_list; hash_iter_perm m := reflexivity _ |}.
#[local] Existing Instance key_order.

(** Eleven calls in a burst, one more a second later, another caller in between. *)
Definition burst_calls : list (Z * Z) := repeat (1000, 0) 11 ++ [(1001, 5); (1000, INGRESS_REFILL)].

Lemma burst_calls_ok : instants_from 0 burst_calls ∧ (size (callers burst_calls) ≤ MAX_INGRESS_BUCKETS)%nat.
Proof.
  split; [cbn; unfold INGRESS_REFILL; lia|].
  assert ((size (callers burst_calls) <=? MAX_INGRESS_BUCKETS)%nat = true) as Hs by (vm_compute; reflexivity).
  by apply Nat.leb_le in Hs.
Qed.

Lemma ingress_is_private_bucket_witness :
  answers_of 1000 burst_calls (run_checks burst_calls ingress_default).1
    = repeat (0, true) 10 ++ [(0, false); (INGRESS_REFILL, true)].
Proof.
  rewrite (ingress_is_private_bucket 1000 0 burst_calls); [vm_compute; reflexivity|apply burst_calls_ok..].
Defined.

Lemma ingress_bounds_admissions_witness :
  admitted_between 0 5 (answers_of 1000 burst_calls (run_checks burst_calls ingress_default).1) * INGRESS_REFILL
    < (INGRESS_BURST + 1) * INGRESS_REFILL + 5.
Proof.
  apply (ingress_bounds_admissions 1000 0 burst_calls 0 5); [apply burst_calls_ok..|lia].
Defined.

(** The bound is tight: an eleventh admission within a tenth of a second. *)
Example eleven_in_a_tenth :
  let calls := (7, 0) :: repeat (7, 1900000000) 10 ++ [(7, 2000000000)] in
  admitted_between 1900000000 2000000000 (answers_of 7 calls (run_checks calls ingress_default).1) = 11.
Proof. vm_compute. reflexivity. Qed.

Lemma ingress_survives_flood_witness :
  answers_of 1001 burst_calls (run_checks burst_calls ingress_default).1 = [(5, true)].
Proof. apply (ingress_survives_flood 1001 0 burst_calls); [apply burst_calls_ok|by vm_compute]. Defined.
