(* ===== verification/Gates.v ===== *)
(** * Per-frame gates of an authentication

    Landmark liveness ([crates/facelock-daemon/src/liveness.rs]), the dark-frame check
    ([crates/facelock-camera/src/capture.rs]), the infrared texture check
    ([crates/facelock-camera/src/preprocess.rs]) and the lid resolver
    ([crates/pam-facelock/src/lid.rs]). *)

From S2P Require Import Prelude Float32 Types Matching.

(** ** Landmark liveness *)
Record LandmarkTracker := {
  history : list (list Point2D);
  max_frames : nat;
  displacement_threshold : f32;
  min_moving_landmarks : nat;
}.

Definition tracker_new (n : nat) (threshold : f32) (min_moving : nat) : LandmarkTracker :=
  {| history := []; max_frames := n; displacement_threshold := threshold;
     min_moving_landmarks := min_moving |}.

Definition tracker_push (t : LandmarkTracker) (l : list Point2D) : LandmarkTracker :=
  let h := if (max_frames t <=? length (history t))%nat then tail (history t) else history t in
  {| history := h ++ [l]; max_frames := max_frames t;
     displacement_threshold := displacement_threshold t;
     min_moving_landmarks := min_moving_landmarks t |}.

Definition tracker_reset (t : LandmarkTracker) : LandmarkTracker :=
  {| history := []; max_frames := max_frames t;
     displacement_threshold := displacement_threshold t;
     min_moving_landmarks := min_moving_landmarks t |}.

Definition displacement (a b : Point2D) : f32 :=
  let dx := f32_sub (pt_x a) (pt_x b) in
  let dy := f32_sub (pt_y a) (pt_y b) in
  f32_sqrt (f32_add (f32_mul dx dx) (f32_mul dy dy)).

Definition moving_count (threshold : f32) (a b : list Point2D) : nat :=
  length (List.filter (λ p, f32_ge (displacement p.1 p.2) threshold) (zip a b)).

Definition check_liveness (t : LandmarkTracker) : bool :=
  if (length (history t) <? 2)%nat then false
  else existsb (λ '(a, b),
         (min_moving_landmarks t <=? moving_count (displacement_threshold t) a b)%nat)
       (windows2 (history t)).

(** ** Dark frames *)
Definition is_dark_with_config (frame : Frame) (dark_ratio_max : f32) (dark_value : Z) : bool :=
  match gray frame with
  | [] => false
  | _ =>
      let len := f32_of_Z (Z.of_nat (length (gray frame))) in
      let dark_count := length (List.filter (λ p, p <? dark_value) (gray frame)) in
      let dark_ratio := f32_div (f32_of_Z (Z.of_nat dark_count)) len in
      if f32_ge dark_ratio dark_ratio_max then true
      else
        let sum := foldr Z.add 0 (gray frame) in
        f32_lt (f32_div (f32_of_Z sum) len) (f32_of_Z 20)
  end.

(** ** Infrared texture

    [None] is a panic: a zero width, an index out of range, or a capacity that is
    not a size. Index arithmetic wraps at 64 bits as in the release build. *)
Definition usize_max : Z := 2 ^ 64 - 1.
Definition isize_max : Z := 2 ^ 63 - 1.

Fixpoint indices (start : Z) (n : nat) : list Z :=
  match n with
  | O => []
  | S n' => start :: indices (start + 1) n'
  end.

(** [a..b] *)
Definition range (a b : Z) : list Z := indices a (Z.to_nat (b - a)).

Fixpoint read_all (l : list Z) (idxs : list Z) : option (list Z) :=
  match idxs with
  | [] => Some []
  | i :: is' =>
      match l !! Z.to_nat i, read_all l is' with
      | Some p, Some ps => Some (p :: ps)
      | _, _ => None
      end
  end.

Definition extract_bbox_region (gray : list Z) (b : BoundingBox) (width : Z) : option (list Z) :=
  let w := width in
  if w =? 0 then None
  else
    let img_h := Z.of_nat (length gray) / w in
    let to_usize x := f32_to_uint usize_max (f32_max x f32_zero) in
    let x0 := Z.min (to_usize (bbox_x b)) (saturating_sub w 1) in
    let y0 := Z.min (to_usize (bbox_y b)) (saturating_sub img_h 1) in
    let x1 := Z.min (to_usize (f32_add (bbox_x b) (bbox_width b))) w in
    let y1 := Z.min (to_usize (f32_add (bbox_y b) (bbox_height b))) img_h in
    let capacity := ((x1 - x0) mod 2 ^ 64 * ((y1 - y0) mod 2 ^ 64)) mod 2 ^ 64 in
    if isize_max <? capacity then None
    else read_all gray (row ← range y0 y1; col ← range x0 x1; [row * w + col]).

Definition check_ir_texture (gray : list Z) (b : BoundingBox) (width : Z) (min_stddev : f32) :
    option bool :=
  match extract_bbox_region gray b width with
  | None => None
  | Some [] => Some false
  | Some face_pixels =>
      let n := f32_of_Z (Z.of_nat (length face_pixels)) in
      let mean := f32_div (f32_sum (map f32_of_Z face_pixels)) n in
      let sq p := let d := f32_sub (f32_of_Z p) mean in f32_mul d d in
      let variance := f32_div (f32_sum (map sq face_pixels)) n in
      Some (f32_gt (f32_sqrt variance) min_stddev)
  end.

(** ** The lid *)
Inductive LidState := LidIsClosed | LidIsOpen | LidIsAbsent.

(** Maximal runs of non-whitespace: [str::split_whitespace]. *)
Definition is_whitespace (a : ascii) : bool :=
  let n := Ascii.nat_of_ascii a in (n =? 32)%nat || ((9 <=? n) && (n <=? 13))%nat.

Fixpoint split_whitespace (cur : string) (s : string) : list string :=
  match s with
  | EmptyString => if is_empty_str cur then [] else [cur]
  | String a s' =>
      if is_whitespace a
      then if is_empty_str cur then split_whitespace "" s' else cur :: split_whitespace "" s'
      else split_whitespace (cur +:+ String a "") s'
  end.

(** [entries] are the devices under the root, [None] when the root cannot be read; a
    device's [state] file is [None] when it cannot be read. *)
Fixpoint lid_scan (readable : bool) (entries : list (option string)) : LidState :=
  match entries with
  | [] => if readable then LidIsOpen else LidIsAbsent
  | None :: rest => lid_scan readable rest
  | Some contents :: rest =>
      if existsb (String.eqb "closed") (split_whitespace "" contents) then LidIsClosed
      else lid_scan true rest
  end.

Definition lid_state_under (root : option (list (option string))) : LidState :=
  match root with
  | None => LidIsAbsent
  | Some entries => lid_scan false entries
  end.

Definition is_lid_closed_under (root : option (list (option string))) : bool :=
  match lid_state_under root with LidIsClosed => true | _ => false end.

(** ** Properties *)

Definition reports_closed (o : option string) : bool :=
  is_some_and (λ c, existsb (String.eqb "closed") (split_whitespace "" c)) o.

(** The scan does not depend on the order the devices are listed in. *)
Lemma lid_scan_spec readable entries :
  lid_scan readable entries =
    if existsb reports_closed entries then LidIsClosed
    else if readable || existsb is_some entries then LidIsOpen else LidIsAbsent.
Proof.
  revert readable. induction entries as [|[c|] es IH]; intros readable; cbn.
  - by rewrite orb_false_r.
  - unfold reports_closed at 1. cbn. destruct (existsb _ (split_whitespace "" c)); [done|].
    rewrite IH. cbn. by rewrite !orb_true_r.
  - apply IH.
Qed.

(** *** Static landmarks *)

(** Zero or NaN: what a difference of equal coordinates can be. *)
Definition zero_or_nan (x : f32) : bool :=
  match x with S754_zero _ | S754_nan => true | _ => false end.

Lemma f32_sub_self x : zero_or_nan (f32_sub x x) = true.
Proof.
  destruct x as [[]|[]| |s m e]; try done. unfold f32_sub, SFsub.
  assert (Hz : ∀ ez, binary_normalize 24 128 0 ez false = S754_zero false) by done.
  rewrite Z.sub_diag, Hz. done.
Qed.

Lemma zero_or_nan_norm dx dy : zero_or_nan dx = true → zero_or_nan dy = true →
  zero_or_nan (f32_sqrt (f32_add (f32_mul dx dx) (f32_mul dy dy))) = true.
Proof. destruct dx as [[]|[]| |], dy as [[]|[]| |]; done. Qed.

Lemma zero_or_nan_below x threshold : zero_or_nan x = true → f32_lt f32_zero threshold = true →
  f32_ge x threshold = false.
Proof. destruct x as [[]|[]| |? ? ?], threshold as [[]|[]| |[] ? ?]; done. Qed.

Lemma moving_count_self threshold l : f32_lt f32_zero threshold = true →
  moving_count threshold l l = 0%nat.
Proof.
  intros Ht. unfold moving_count. induction l as [|p l IH]; [done|]. cbn.
  rewrite (zero_or_nan_below _ threshold) by
    (done || by apply zero_or_nan_norm; apply f32_sub_self).
  done.
Qed.

Definition tracker_push_all (t : LandmarkTracker) (ls : list (list Point2D)) : LandmarkTracker :=
  fold_left tracker_push ls t.

Lemma tracker_push_all_params ls t :
  let t' := tracker_push_all t ls in
  max_frames t' = max_frames t ∧ displacement_threshold t' = displacement_threshold t ∧
  min_moving_landmarks t' = min_moving_landmarks t.
Proof. revert t. induction ls as [|l ls IH]; intros t; [done|]. apply (IH (tracker_push t l)). Qed.

(** The history is the most recent [max_frames] pushes. *)
Lemma tracker_history ls t : (length (history t) ≤ max_frames t)%nat → (0 < max_frames t)%nat →
  history (tracker_push_all t ls) = last_n (max_frames t) (history t ++ ls).
Proof.
  revert t. induction ls as [|l ls IH]; intros t Hl Hm.
  - cbn. rewrite app_nil_r. unfold last_n. by rewrite (proj2 (Nat.sub_0_le _ _) Hl), drop_0.
  - cbn. unfold tracker_push at 2. change (fold_left tracker_push) with
      (λ ls t, tracker_push_all t ls). cbn beta.
    rewrite IH; cbn [history max_frames]; [|rewrite length_app|done].
    2: { destruct (Nat.leb_spec (max_frames t) (length (history t))); cbn; [|lia].
         destruct (history t); cbn in *; lia. }
    unfold last_n. rewrite !length_app. cbn [length].
    destruct (Nat.leb_spec (max_frames t) (length (history t))) as [Hfull|Hnot].
    + destruct (history t) as [|x h] eqn:Eh; [cbn in *; lia|]. cbn [tail length] in *.
      replace (S (length h) + S (length ls) - max_frames t)%nat with
        (S (length h + 1 + length ls - max_frames t)) by lia.
      cbn [app drop]. rewrite <- app_assoc. done.
    + rewrite <- app_assoc. cbn. f_equal. lia.
Qed.

Lemma windows2_static {A} (P : A → Prop) (l : list A) a b :
  (∀ x, x ∈ l → P x) → (a, b) ∈ windows2 l → P a ∧ P b.
Proof.
  induction l as [|x [|y l] IH]; [by intros _ ?%not_elem_of_nil..|].
  intros HP [[= -> ->]|Hin]%elem_of_cons.
  - split; apply HP; [apply list_elem_of_here|apply list_elem_of_further, list_elem_of_here].
  - apply IH; [|done]. intros z Hz. apply HP. by apply list_elem_of_further.
Qed.

(** Landmarks that never move are never live: whatever positions a detector reports,
    NaN and infinities included, a sequence of identical landmark sets of any length
    fails the liveness check, for every positive displacement threshold and every
    positive number of landmarks required to move. *)
Theorem static_landmarks_never_live n threshold min_moving l k :
  f32_lt f32_zero threshold = true → (0 < min_moving)%nat → (0 < n)%nat →
  check_liveness (tracker_push_all (tracker_new n threshold min_moving) (replicate k l)) = false.
Proof.
  intros Ht Hm Hn. set (t := tracker_push_all _ _).
  pose proof (tracker_history (replicate k l) (tracker_new n threshold min_moving)
    ltac:(cbn; lia) Hn) as Hh.
  destruct (tracker_push_all_params (replicate k l) (tracker_new n threshold min_moving))
    as (_ & Hd & Hmm). fold t in Hh, Hd, Hmm. cbn in Hd, Hmm.
  unfold check_liveness. destruct (_ <? 2)%nat; [done|].
  apply not_true_iff_false. rewrite existsb_Exists. intros ([a b] & Hin & Hle).
  apply (windows2_static (λ x, x = l)) in Hin as [-> ->].
  - rewrite Hd, Hmm, moving_count_self in Hle by done. bsplit. lia.
  - intros x Hx. rewrite Hh in Hx. unfold last_n in Hx. cbn in Hx.
    apply subseteq_drop, elem_of_replicate in Hx. by destruct Hx.
Qed.

Lemma static_landmarks_never_live_witness :
  let l := replicate 5 {| pt_x := f32_of_Z 100; pt_y := f32_of_Z 50 |} in
  check_liveness (tracker_push_all (tracker_new 10 (f32_lit 15 10) 3) (replicate 12 l)) = false.
Proof.
  intros l. apply (static_landmarks_never_live 10 (f32_lit 15 10) 3 l 12);
    [vm_compute; reflexivity|lia|lia].
Defined.
