(* ===== verification/AuditLog.v ===== *)
(** * The audit log ([crates/facelock-daemon/src/audit.rs])

    Entries, their append to a size-rotated file, and the timestamp's calendar
    arithmetic, proved to follow the Gregorian calendar day by day. *)

From S2P Require Import Prelude Float32 Types DeviceBinding Config.

Inductive AuditSource := SourceDaemon | SourceOneshot | SourceTest.

Record AuditEntry := {
  ae_timestamp : string;
  ae_user : string;
  ae_result : string;
  ae_source : option AuditSource;
  ae_similarity : option f32;
  ae_frame_count : option Z;
  ae_duration_ms : option Z;
  ae_device : option string;
  ae_model_label : option string;
  ae_error : option string;
}.

(** ** Writing *)

(** The two files the writer touches, by content. *)
Record LogFiles := { log_file : option string; rotated_file : option string }.

(** How the system answers the calls of one write: securing the parent directory, renaming,
    opening, and writing. A failing write may leave a prefix of the line behind. *)
Record LogIo := {
  ensure_parent : result unit string;
  rename_ok : bool;
  open_ok : bool;
  written : option nat;     (* [None]: everything; [Some n]: an error after [n] bytes *)
}.

Definition newline : string := String (Ascii.ascii_of_nat 10) "".

Definition rotate_log (io : LogIo) (f : LogFiles) : LogFiles :=
  if rename_ok io then {| log_file := None; rotated_file := log_file f |} else f.

Definition append_file (io : LogIo) (data : string) (f : LogFiles) : LogFiles :=
  let data := match written io with None => data | Some n => String.substring 0 n data end in
  {| log_file := Some (unwrap_or "" (log_file f) +:+ data); rotated_file := rotated_file f |}.

(** [serde_json::to_string] is a parameter. *)
Definition write_audit_entry (to_json : AuditEntry → result string string) (io : LogIo)
    (c : AuditConfig) (e : AuditEntry) (f : LogFiles) : LogFiles :=
  if negb (audit_enabled c) then f
  else
    match ensure_parent io with
    | Err _ => f
    | Ok _ =>
        let f :=
          match log_file f with
          | Some content =>
              let max_bytes := rotate_size_mb c * 1024 * 1024 in
              if max_bytes <=? Z.of_nat (String.length content) then rotate_log io f else f
          | None => f
          end in
        match to_json e with
        | Err _ => f
        | Ok line => if open_ok io then append_file io (line +:+ newline) f else f
        end
    end.

(** ** Timestamps *)
Definition days_to_ymd (days : Z) : Z * Z * Z :=
  let z := days + 719468 in
  let era := z / 146097 in
  let doe := z - era * 146097 in
  let yoe := (doe - doe / 1460 + doe / 36524 - doe / 146096) / 365 in
  let y := yoe + era * 400 in
  let doy := doe - (365 * yoe + yoe / 4 - yoe / 100) in
  let mp := (5 * doy + 2) / 153 in
  let d := doy - (153 * mp + 2) / 5 + 1 in
  let m := if mp <? 10 then mp + 3 else mp - 9 in
  let y := if m <=? 2 then y + 1 else y in
  (y, m, d).

(** [{n:0w}] *)
Definition pad (w : nat) (n : Z) : string :=
  let s := show_Z n in
  String.concat "" (replicate (w - String.length s) "0") +:+ s.

Definition now_iso8601 (clock : option Z) : string :=
  let secs := unwrap_or 0 clock in
  let days := secs / 86400 in
  let time_of_day := secs mod 86400 in
  let hours := time_of_day / 3600 in
  let minutes := time_of_day mod 3600 / 60 in
  let seconds := time_of_day mod 60 in
  let '(y, m, d) := days_to_ymd days in
  pad 4 y +:+ "-" +:+ pad 2 m +:+ "-" +:+ pad 2 d +:+ "T" +:+
  pad 2 hours +:+ ":" +:+ pad 2 minutes +:+ ":" +:+ pad 2 seconds +:+ "Z".

Example now_iso8601_2024 : now_iso8601 (Some 1709210096) = "2024-02-29T12:34:56Z".
Proof. vm_compute. reflexivity. Qed.

(** ** The Gregorian calendar *)
Definition is_leap (y : Z) : bool :=
  (y mod 4 =? 0) && (negb (y mod 100 =? 0) || (y mod 400 =? 0)).

Definition month_length (y m : Z) : Z :=
  if m =? 2 then if is_leap y then 29 else 28
  else if (m =? 4) || (m =? 6) || (m =? 9) || (m =? 11) then 30 else 31.

Definition next_day (date : Z * Z * Z) : Z * Z * Z :=
  let '(y, m, d) := date in
  if d <? month_length y m then (y, m, d + 1)
  else if m <? 12 then (y, m + 1, 1) else (y + 1, 1, 1).

(** Days before year [y] of an era, years starting in March. *)
Definition year_start (y : Z) : Z := 365 * y + y / 4 - y / 100.

Definition doe_year_index (doe : Z) : Z :=
  doe - doe / 1460 + doe / 36524 - doe / 146096.

Lemma doe_year_index_mono a b : 0 ≤ a ≤ b → doe_year_index a ≤ doe_year_index b.
Proof.
  intros [Ha Hab]. replace b with (a + (b - a)) by lia.
  assert (Hs : ∀ x, 0 ≤ x → doe_year_index x ≤ doe_year_index (x + 1)).
  { intros x Hx. unfold doe_year_index. Z.div_mod_to_equations. lia. }
  assert (Hk : ∀ k : nat, doe_year_index a ≤ doe_year_index (a + Z.of_nat k)).
  { induction k as [|k IH]; [by rewrite Z.add_0_r|].
    etrans; [exact IH|]. replace (a + Z.of_nat (S k)) with (a + Z.of_nat k + 1) by lia.
    apply Hs. lia. }
  specialize (Hk (Z.to_nat (b - a))). by rewrite Z2Nat.id in Hk by lia.
Qed.

(** Every integer of an interval satisfies a boolean test. *)
Lemma forallb_interval (f : Z → bool) (n : nat) :
  forallb f (map Z.of_nat (seq 0 n)) = true → ∀ x, 0 ≤ x < Z.of_nat n → f x = true.
Proof.
  intros H x Hx. rewrite forallb_forall in H. apply H, in_map_iff.
  exists (Z.to_nat x). rewrite Z2Nat.id by lia. split; [done|]. apply in_seq. lia.
Qed.

(** The last day of an era's 400th year is day 146096, one day later than the closed form. *)
Definition year_end (y : Z) : Z := if y =? 399 then 146096 else year_start (y + 1) - 1.

Lemma year_index_at_bounds y : 0 ≤ y < 400 →
  doe_year_index (year_start y) / 365 = y ∧ doe_year_index (year_end y) / 365 = y.
Proof.
  intros Hy.
  pose proof (forallb_interval (λ y, (doe_year_index (year_start y) / 365 =? y) &&
    (doe_year_index (year_end y) / 365 =? y)) 400 ltac:(vm_compute; reflexivity) y Hy) as H.
  cbn beta in H. bsplit. by split.
Qed.

(** The year of an era that a day lies in. *)
Lemma yoe_correct doe y : 0 ≤ y < 400 → year_start y ≤ doe ≤ year_end y →
  doe_year_index doe / 365 = y.
Proof.
  intros Hy [H1 H2]. destruct (year_index_at_bounds y Hy) as [E1 E2].
  assert (0 ≤ year_start y) by (unfold year_start; Z.div_mod_to_equations; lia).
  pose proof (doe_year_index_mono (year_start y) doe ltac:(lia)).
  pose proof (doe_year_index_mono doe (year_end y) ltac:(lia)).
  Z.div_mod_to_equations. lia.
Qed.

(** Month and day of month of a day of the year, years starting on 1 March. *)
Definition month_day (doy : Z) : Z * Z :=
  let mp := (5 * doy + 2) / 153 in
  (if mp <? 10 then mp + 3 else mp - 9, doy - (153 * mp + 2) / 5 + 1).

(** A day as (era, year of era, day of year). *)
Definition ymd_of (era yoe doy : Z) : Z * Z * Z :=
  let y := yoe + era * 400 in
  let '(m, d) := month_day doy in
  (if m <=? 2 then y + 1 else y, m, d).

Definition year_length (y : Z) : Z := year_end y - year_start y + 1.

Lemma days_to_ymd_of days era yoe doy : 0 ≤ yoe < 400 → 0 ≤ doy < year_length yoe →
  days + 719468 = era * 146097 + year_start yoe + doy →
  days_to_ymd days = ymd_of era yoe doy.
Proof.
  intros Hy Hd He. unfold year_length in Hd.
  assert (Hb : 0 ≤ year_start yoe ∧ year_end yoe ≤ 146096).
  { unfold year_end, year_start. destruct (Z.eqb_spec yoe 399); Z.div_mod_to_equations; lia. }
  assert (Hera : (days + 719468) / 146097 = era).
  { symmetry. apply (Z.div_unique _ _ _ (year_start yoe + doy)); lia. }
  unfold days_to_ymd. rewrite Hera.
  replace (days + 719468 - era * 146097) with (year_start yoe + doy) by lia.
  set (doe := year_start yoe + doy).
  change (doe - doe / 1460 + doe / 36524 - doe / 146096) with (doe_year_index doe).
  rewrite (yoe_correct doe yoe) by (unfold doe; lia).
  replace (doe - (365 * yoe + yoe / 4 - yoe / 100)) with doy by (unfold doe, year_start; lia).
  done.
Qed.

(** The year that ends in the February of the next civil year is long when that is leap. *)
Lemma year_length_leap era yoe : 0 ≤ yoe < 400 →
  year_length yoe = if is_leap (yoe + era * 400 + 1) then 366 else 365.
Proof.
  intros Hy.
  assert (Hl : is_leap (yoe + era * 400 + 1) = is_leap (yoe + 1)).
  { assert (Hm : ∀ k q, 0 < k → 400 = q * k → (yoe + era * 400 + 1) mod k = (yoe + 1) mod k).
    { intros k q Hk ->. rewrite <- (Z.mod_add (yoe + 1) (era * q) k) by lia. f_equal. lia. }
    unfold is_leap. by rewrite (Hm 4 100), (Hm 100 4), (Hm 400 1) by lia. }
  rewrite Hl. pose proof (forallb_interval
    (λ y, year_length y =? if is_leap (y + 1) then 366 else 365) 400
    ltac:(vm_compute; reflexivity) yoe Hy) as H. cbn beta in H. by bsplit.
Qed.

(** Month lengths, given whether the February of this March-year is long. *)
Definition march_month_length (leap : bool) (m : Z) : Z :=
  if m =? 2 then if leap then 29 else 28
  else if (m =? 4) || (m =? 6) || (m =? 9) || (m =? 11) then 30 else 31.

Definition month_day_step_ok (leap : bool) (doy : Z) : bool :=
  let '(m, d) := month_day doy in
  let '(m', d') := month_day (doy + 1) in
  if d <? march_month_length leap m then (m' =? m) && (d' =? d + 1)
  else if m <? 12 then (m' =? m + 1) && (d' =? 1) && negb (m =? 2)
  else (m' =? 1) && (d' =? 1) && (m =? 12).

Lemma month_day_step (leap : bool) doy : 0 ≤ doy < (if leap then 365 else 364) →
  month_day_step_ok leap doy = true.
Proof.
  intros Hd. destruct leap.
  - apply (forallb_interval (month_day_step_ok true) 365); [vm_compute; reflexivity|lia].
  - apply (forallb_interval (month_day_step_ok false) 364); [vm_compute; reflexivity|lia].
Qed.

Lemma month_length_march y m :
  month_length (if m <=? 2 then y + 1 else y) m = march_month_length (is_leap (y + 1)) m.
Proof. unfold month_length, march_month_length. by destruct (Z.eqb_spec m 2) as [->|]. Qed.

(** Within a year: the next day of year is the next calendar day. *)
Lemma next_day_within era yoe doy :
  0 ≤ doy < (if is_leap (yoe + era * 400 + 1) then 365 else 364) →
  ymd_of era yoe (doy + 1) = next_day (ymd_of era yoe doy).
Proof.
  intros Hd. pose proof (month_day_step _ doy Hd) as Hs. unfold ymd_of, next_day.
  unfold month_day_step_ok in Hs. destruct (month_day doy) as [m d], (month_day (doy + 1)) as [m' d'].
  rewrite month_length_march. destruct (d <? _); [by bsplit; subst|].
  destruct (Z.ltb_spec m 12); bsplit; subst; [|done].
  f_equal. f_equal. destruct (Z.leb_spec m 2), (Z.leb_spec (m + 1) 2); try done; lia.
Qed.

(** The last day of a March-year is the end of February. *)
Lemma next_day_last era yoe :
  next_day (ymd_of era yoe (if is_leap (yoe + era * 400 + 1) then 365 else 364)) =
  (yoe + era * 400 + 1, 3, 1).
Proof.
  unfold ymd_of. set (y := yoe + era * 400). destruct (is_leap (y + 1)) eqn:El.
  - change (month_day 365) with (2, 29). cbn beta iota zeta. unfold next_day, month_length.
    change (2 <=? 2) with true. cbn beta iota. rewrite El. done.
  - change (month_day 364) with (2, 28). cbn beta iota zeta. unfold next_day, month_length.
    change (2 <=? 2) with true. cbn beta iota. rewrite El. done.
Qed.

Lemma doe_decompose (n : nat) doe : (n ≤ 400)%nat → 0 ≤ doe →
  doe < (if (n =? 400)%nat then 146097 else year_start (Z.of_nat n)) →
  ∃ y, 0 ≤ y < 400 ∧ year_start y ≤ doe ≤ year_end y.
Proof.
  induction n as [|n IH]; intros Hn Hd Hlt; [change (doe < 0) in Hlt; lia|].
  destruct (Z.ltb_spec doe (year_start (Z.of_nat n))).
  - apply IH; [lia|done|]. by rewrite (proj2 (Nat.eqb_neq n 400)) by lia.
  - exists (Z.of_nat n). split; [lia|]. split; [done|]. unfold year_end.
    destruct (Nat.eqb_spec (S n) 400), (Z.eqb_spec (Z.of_nat n) 399); try lia.
    replace (Z.of_nat n + 1) with (Z.of_nat (S n)) by lia. lia.
Qed.

(** Audit dates follow the Gregorian calendar: the date of day 0 is 1970-01-01, and the
    date of every later day is the calendar successor of the date of the day before. *)
Theorem days_to_ymd_gregorian days : 0 ≤ days →
  days_to_ymd 0 = (1970, 1, 1) ∧ days_to_ymd (days + 1) = next_day (days_to_ymd days).
Proof.
  intros Hdays. split; [reflexivity|].
  set (era := (days + 719468) / 146097). set (doe := (days + 719468) mod 146097).
  assert (Hz : days + 719468 = 146097 * era + doe) by (apply Z.div_mod; lia).
  assert (Hdoe : 0 ≤ doe < 146097) by (apply Z.mod_pos_bound; lia). clearbody era doe.
  destruct (doe_decompose 400 doe ltac:(lia) ltac:(lia) ltac:(cbn; lia)) as (y & Hy & Hb).
  pose proof (year_length_leap era y Hy) as Hl. unfold year_length in Hl.
  rewrite (days_to_ymd_of days era y (doe - year_start y)) by (unfold year_length; lia).
  destruct (Z.ltb_spec doe (year_end y)) as [Hin|Hend].
  - rewrite (days_to_ymd_of (days + 1) era y (doe - year_start y + 1)) by (unfold year_length; lia).
    apply next_day_within. destruct (is_leap _); lia.
  - replace (doe - year_start y) with (if is_leap (y + era * 400 + 1) then 365 else 364)
      by (destruct (is_leap _); lia).
    rewrite next_day_last.
    destruct (Z.eqb_spec y 399) as [->|Hne]; unfold year_end in *.
    + change (146096 ≤ doe) in Hend.
      rewrite (days_to_ymd_of (days + 1) (era + 1) 0 0) by
        (try change (year_length 0) with 365; try change (year_start 0) with 0; lia).
      change (ymd_of (era + 1) 0 0) with (0 + (era + 1) * 400, 3, 1). f_equal; f_equal; lia.
    + rewrite (proj2 (Z.eqb_neq y 399)) in * by done.
      assert (0 < year_length (y + 1)).
      { pose proof (year_length_leap 0 (y + 1) ltac:(lia)) as Hn. rewrite Hn.
        by destruct (is_leap (y + 1 + 0 * 400 + 1)). }
      rewrite (days_to_ymd_of (days + 1) era (y + 1) 0) by lia.
      change (ymd_of era (y + 1) 0) with (y + 1 + era * 400, 3, 1). f_equal; f_equal; lia.
Qed.

Lemma days_to_ymd_gregorian_witness :
  days_to_ymd 19782 = (2024, 2, 29) ∧ days_to_ymd (19782 + 1) = (2024, 3, 1).
Proof.
  split; [reflexivity|].
  rewrite (proj2 (days_to_ymd_gregorian 19782 ltac:(lia))). reflexivity.
Defined.

(** *** Appending *)
(** An enabled audit log loses nothing it still has room for: a write that the system
    does not fail puts the serialised entry, on a line of its own, after everything the log
    holds, or first in a fresh file after the full one was moved aside whole; a disabled log
    and a parent directory that cannot be secured leave both files alone. *)
Theorem audit_entry_is_appended to_json io c e f line :
  to_json e = Ok line →
  (audit_enabled c = false ∨ is_ok (ensure_parent io) = false → write_audit_entry to_json io c e f = f) ∧
  (audit_enabled c = true → ensure_parent io = Ok tt → open_ok io = true → written io = None →
   let before := unwrap_or "" (log_file f) in
   let f' := write_audit_entry to_json io c e f in
   (log_file f' = Some (before +:+ line +:+ newline) ∧ rotated_file f' = rotated_file f) ∨
   (rotate_size_mb c * 1024 * 1024 ≤ Z.of_nat (String.length before) ∧
    log_file f' = Some (line +:+ newline) ∧ rotated_file f' = log_file f)).
Proof.
  intros Hj. unfold write_audit_entry. split.
  - intros [->|Hp]; [done|]. destruct (negb _); [done|]. by destruct (ensure_parent io).
  - intros -> -> Ho Hw. cbn [negb]. rewrite Hj, Ho. unfold append_file, rotate_log. rewrite Hw.
    destruct (log_file f) as [content|] eqn:El; cbn; [|left; by rewrite El].
    destruct (_ <=? _) eqn:Es; bsplit; [|left; by rewrite El].
    destruct (rename_ok io); cbn; [right|left; by rewrite El]. by split_and!.
Qed.

Lemma audit_entry_is_appended_witness :
  let e := {| ae_timestamp := "t"; ae_user := "alice"; ae_result := "success";
              ae_source := Some SourceDaemon; ae_similarity := None; ae_frame_count := None;
              ae_duration_ms := None; ae_device := None; ae_model_label := None;
              ae_error := None |} in
  let io := {| ensure_parent := Ok tt; rename_ok := true; open_ok := true; written := None |} in
  let f := {| log_file := Some "old"; rotated_file := None |} in
  write_audit_entry (λ e, Ok (ae_user e)) io audit_default e f = f.
Proof.
  intros e io f.
  apply (proj1 (audit_entry_is_appended (λ e, Ok (ae_user e)) io audit_default e f "alice" eq_refl)).
  left. reflexivity.
Defined.
