(* ===== verification/Auth.v ===== *)
(** * Authentication ([crates/facelock-daemon/src/auth.rs])

    Rejection classes and their wire text, the pre-flight gates, and the capture loop with
    its endings. The camera, the face engine, the clocks and the cancellation flag are what
    each iteration reads from its environment ([Tick]); audit entries and snapshots are the
    effects an attempt returns with its outcome. *)

From stdpp Require Import gmap.
From S2P Require Import Prelude Float32 Types Matching DeviceBinding Config Store StoreProofs RateLimit Gates AuditLog.

(** ** Outcomes *)
Inductive ErrorKind :=
  | Disabled | SshSession | LidClosed | LidUnavailable | Storage | RateLimited
  | RateLimitCheckFailed | IrRequired | Y16BitDepthRequired | AllFramesDark | Internal.

#[export] Instance ErrorKind_eq_dec : EqDecision ErrorKind.
Proof. solve_decision. Defined.

Definition ErrorKind_ALL : list ErrorKind :=
  [Disabled; SshSession; LidClosed; LidUnavailable; Storage; RateLimited;
   RateLimitCheckFailed; IrRequired; Y16BitDepthRequired; AllFramesDark; Internal].

Definition render (k : ErrorKind) (detail : string) : string :=
  match k with
  | Disabled => "facelock is disabled"
  | SshSession => "SSH session detected"
  | LidClosed => "lid closed"
  | LidUnavailable => "lid state unavailable"
  | Storage => "storage error: " +:+ detail
  | RateLimited => "rate limited"
  | RateLimitCheckFailed => "rate limit check failed: " +:+ detail
  | IrRequired => "IR camera required for authentication. Set security.require_ir = false to override (NOT RECOMMENDED)."
  | Y16BitDepthRequired => "Y16 IR texture scale is unverified; authentication requires a verified y16_bit_depth (8..=16) quirk"
  | AllFramesDark => "all frames dark"
  | Internal => detail
  end.

Definition audit_result (k : ErrorKind) : string :=
  match k with
  | RateLimited => "rate_limited"
  | Disabled | SshSession | LidClosed | LidUnavailable | Storage | RateLimitCheckFailed
  | IrRequired | Y16BitDepthRequired | AllFramesDark | Internal => "error"
  end.

Fixpoint classify_from (kinds : list ErrorKind) (message : string) : ErrorKind :=
  match kinds with
  | [] => Internal
  | kind :: rest =>
      let hit :=
        match kind with
        | Storage | RateLimitCheckFailed => starts_with (render kind "") message
        | Internal => false
        | _ => String.eqb message (render kind "")
        end in
      if hit then kind else classify_from rest message
  end.

Definition classify_message (message : string) : ErrorKind := classify_from ErrorKind_ALL message.

Inductive AuthFailureReason := VarianceNotSatisfied.

Record MatchResult := {
  matched : bool;
  mr_model_id : option Z;
  mr_label : option string;
  similarity : f32;
  face_detected : bool;
  failure_reason : option AuthFailureReason;
}.

Inductive AuthOutcome :=
  | AuthResult (r : MatchResult)
  | Suppressed
  | AuthError (kind : ErrorKind) (message : string)
  | Cancelled.

Definition CANCELLED_MESSAGE : string := "cancelled".

Definition outcome_error_with (k : ErrorKind) (detail : string) : AuthOutcome :=
  AuthError k (render k detail).
Definition outcome_error (k : ErrorKind) : AuthOutcome := outcome_error_with k "".

(** ** Pre-flight gates *)
Inductive LidSource := LocalProcfs | Resolved (closed : bool) | Unavailable.

Record PreCheckContext := {
  skip_ssh_gate : bool;
  skip_lid_gate : bool;
  lid_source : LidSource;
}.

Definition ctx_enforced : PreCheckContext :=
  {| skip_ssh_gate := false; skip_lid_gate := false; lid_source := LocalProcfs |}.
Definition ctx_daemon_authenticate (l : LidSource) : PreCheckContext :=
  {| skip_ssh_gate := true; skip_lid_gate := false; lid_source := l |}.
Definition ctx_test : PreCheckContext :=
  {| skip_ssh_gate := true; skip_lid_gate := true; lid_source := LocalProcfs |}.

Definition lid_refusal (l : LidSource) (procfs : LidState) : option ErrorKind :=
  match l with
  | Resolved true => Some LidClosed
  | Resolved false => None
  | LocalProcfs =>
      match procfs with LidIsClosed => Some LidClosed | LidIsOpen | LidIsAbsent => None end
  | Unavailable =>
      match procfs with
      | LidIsClosed => Some LidClosed
      | LidIsOpen => None
      | LidIsAbsent => Some LidUnavailable
      end
  end.

(** [std::env::var("SSH_CONNECTION")] and [SSH_TTY]. *)
Definition is_ssh_session (env : string → option string) : bool :=
  is_some (env "SSH_CONNECTION") || is_some (env "SSH_TTY").

(** What the gates read of the process and the machine. *)
Record Host := {
  env_var : string → option string;
  procfs_lid : LidState;
  wall : option Z;
}.

Section PreCheck.
Context `{ShowSqlite} (host : Host).

Definition no_models_result : MatchResult :=
  {| matched := false; mr_model_id := None; mr_label := None; similarity := f32_zero;
     face_detected := false; failure_reason := None |}.

Definition pre_check_with_context (config : Config) (user : string) (rl : RateLimiter)
    (caps : CameraCaps) (ctx : PreCheckContext) (store : FaceStore) :
    option AuthOutcome * FaceStore :=
  if disabled (security config) then (Some (outcome_error Disabled), store)
  else if negb (skip_ssh_gate ctx) && abort_if_ssh (security config) &&
          is_ssh_session (env_var host)
  then (Some (outcome_error SshSession), store)
  else
    let lid_gate_runs := negb (skip_lid_gate ctx) && abort_if_lid_closed (security config) in
    match (if lid_gate_runs then lid_refusal (lid_source ctx) (procfs_lid host) else None) with
    | Some kind => (Some (outcome_error kind), store)
    | None =>
        match has_models user store with
        | (Err e, s1) => (Some (outcome_error_with Storage (store_error_to_string e)), s1)
        | (Ok false, s1) =>
            (Some (if suppress_unknown (security config) then Suppressed
                   else AuthResult no_models_result), s1)
        | (Ok true, s1) =>
            match check rl (wall host) user s1 with
            | (Ok false, s2) => (Some (outcome_error RateLimited), s2)
            | (Err e, s2) => (Some (outcome_error_with RateLimitCheckFailed e), s2)
            | (Ok true, s2) =>
                if bool_decide (ir_texture_scale caps = UnverifiedY16)
                then (Some (outcome_error Y16BitDepthRequired), s2)
                else if require_ir (security config) && negb (is_ir caps)
                then (Some (outcome_error IrRequired), s2)
                else (None, s2)
            end
        end
    end.

Definition pre_check config user rl caps store :=
  pre_check_with_context config user rl caps ctx_enforced store.

(** The audited wrapper: a gate that short-circuits leaves one entry. *)
Definition pre_check_audited_with_context (config : Config) (user : string) (rl : RateLimiter)
    (caps : CameraCaps) (source : AuditSource) (ctx : PreCheckContext) (store : FaceStore) :
    option (AuthOutcome * AuditEntry) * FaceStore :=
  match pre_check_with_context config user rl caps ctx store with
  | (None, s) => (None, s)
  | (Some resp, s) =>
      let '(result, error) :=
        match resp with
        | AuthError kind message => (audit_result kind, Some message)
        | AuthResult mr => if matched mr then ("error", None) else ("failure", None)
        | Suppressed => ("suppressed", None)
        | Cancelled => ("error", None)
        end in
      (Some (resp,
         {| ae_timestamp := now_iso8601 (wall host); ae_user := user; ae_result := result;
            ae_source := Some source; ae_similarity := None; ae_frame_count := None;
            ae_duration_ms := None; ae_device := path (device config);
            ae_model_label := None; ae_error := error |}), s)
  end.

Definition pre_check_audited config user rl caps source store :=
  pre_check_audited_with_context config user rl caps source ctx_enforced store.
End PreCheck.

(** ** The capture loop *)

(** What one iteration reads: the loop condition's clock, the cancellation flag, the
    no-face clock, the camera's answer, the engine's answer for that frame, and the clock
    when the iteration ends the attempt. Instants are nanoseconds. *)
Record Tick := {
  t_loop : Z;
  t_cancelled : bool;
  t_no_face : Z;
  t_capture : result Frame string;
  t_faces : result (list (Detection * FaceEmbedding)) string;
  t_done : Z;
}.

Inductive Effect :=
  | WriteAudit (e : AuditEntry)
  | SaveSnapshot (user : string) (score : f32) (f : Frame).

Record ScanState := {
  best_similarity : f32;
  best_model_id : option Z;
  variance_window : FrameVarianceWindow;
  matched_frames_total : Z;
  variance_ever_passed : bool;
  dark_count : Z;
  frame_count : Z;
  seen_face : bool;
  landmark_tracker : LandmarkTracker;
  last_frame : option Frame;
}.

Inductive StepResult :=
  | SContinue (st : ScanState)
  | SBreak (st : ScanState)
  | SReturn (o : AuthOutcome) (effects : list Effect)
  | SPanic.

Inductive ScanEnd :=
  | Finished (o : AuthOutcome) (effects : list Effect)
  | Panicked.

Definition nanos (secs : Z) : Z := secs * 10 ^ 9.

Section Authenticate.
Context `{NanEncoding} `{Subtle}.
Context (caps : CameraCaps) (models : list FaceModelInfo) (config : Config) (user : string)
  (source : AuditSource) (wall_at : Z → option Z).

Definition label_for (id : Z) : option string :=
  model_label <$> List.find (λ m, model_id m =? id) models.

Definition elapsed_ms (start now : Z) : Z := ((now - start) / 10 ^ 6) mod 2 ^ 64.

Definition entry (now : Z) (result : string) (sim : option f32) (frames duration : Z)
    (label error : option string) : AuditEntry :=
  {| ae_timestamp := now_iso8601 (wall_at now); ae_user := user; ae_result := result;
     ae_source := Some source; ae_similarity := sim; ae_frame_count := Some frames;
     ae_duration_ms := Some duration; ae_device := path (device config);
     ae_model_label := label; ae_error := error |}.

Definition cancelled (start now frames : Z) : AuthOutcome * list Effect :=
  (Cancelled, [WriteAudit (entry now CANCELLED_MESSAGE None frames (elapsed_ms start now) None None)]).

Definition policy : DeviceBindingPolicy := device_binding_policy (security config).

Definition allowed : gset Z := device_allowed_model_ids models (fingerprint caps) policy.

Definition compare_set_of (stored : list (Z * FaceEmbedding)) : list (Z * FaceEmbedding) :=
  List.filter (λ e, bool_decide (e.1 ∈ allowed)) stored.

Definition scan_init : ScanState :=
  {| best_similarity := f32_zero; best_model_id := None;
     variance_window := window_new (min_auth_frames (security config));
     matched_frames_total := 0; variance_ever_passed := false; dark_count := 0;
     frame_count := 0; seen_face := false;
     landmark_tracker := tracker_new 10 (landmark_displacement_px (security config))
       (Z.to_nat (landmark_min_moving (security config)));
     last_frame := None |}.

Definition save_snapshots : bool := negb (bool_decide (snap_mode (snapshots config) = SnapOff)).

Definition success (start now : Z) (st : ScanState) : AuthOutcome * list Effect :=
  let label := match best_model_id st with Some id => label_for id | None => None end in
  (AuthResult {| matched := true; mr_model_id := best_model_id st; mr_label := label;
                 similarity := best_similarity st; face_detected := seen_face st;
                 failure_reason := None |},
   WriteAudit (entry now "success" (Some (best_similarity st)) (frame_count st)
     (elapsed_ms start now) label None) ::
   match last_frame st with
   | Some f => if should_save (snapshots config) true
               then [SaveSnapshot user (best_similarity st) f] else []
   | None => []
   end).

(** After the loop: the deadline passed. *)
Definition finish (start now : Z) (st : ScanState) : AuthOutcome * list Effect :=
  let reason :=
    if require_frame_variance (security config) && window_is_full (variance_window st) &&
       negb (variance_ever_passed st)
    then Some VarianceNotSatisfied else None in
  if (dark_count st =? frame_count st) && (0 <? frame_count st)
  then (outcome_error AllFramesDark,
        [WriteAudit (entry now "error" None (frame_count st) (elapsed_ms start now) None
           (Some (render AllFramesDark "")))])
  else
    (AuthResult {| matched := false; mr_model_id := None; mr_label := None;
                   similarity := best_similarity st; face_detected := seen_face st;
                   failure_reason := reason |},
     WriteAudit (entry now "failure" (Some (best_similarity st)) (frame_count st)
       (elapsed_ms start now) None None) ::
     match last_frame st with
     | Some f => if should_save (snapshots config) false
                 then [SaveSnapshot user (best_similarity st) f] else []
     | None => []
     end).

(** *** One frame's faces *)
Definition textured (frame : Frame) (det : Detection) : option bool :=
  check_ir_texture (gray frame) (bbox det) (width frame) (ir_texture_min_stddev (security config)).

Fixpoint all_flat (frame : Frame) (faces : list (Detection * FaceEmbedding)) : option bool :=
  match faces with
  | [] => Some true
  | (det, _) :: rest =>
      match textured frame det with
      | None => None
      | Some true => Some false
      | Some false => all_flat frame rest
      end
  end.

Definition set_best (sim : f32) (id : option Z) (st : ScanState) : ScanState :=
  {| best_similarity := sim; best_model_id := id; variance_window := variance_window st;
     matched_frames_total := matched_frames_total st;
     variance_ever_passed := variance_ever_passed st; dark_count := dark_count st;
     frame_count := frame_count st; seen_face := seen_face st;
     landmark_tracker := landmark_tracker st; last_frame := last_frame st |}.

Definition push_matched (e : FaceEmbedding) (st : ScanState) : ScanState :=
  {| best_similarity := best_similarity st; best_model_id := best_model_id st;
     variance_window := window_push (variance_window st) e;
     matched_frames_total := as_u32 (matched_frames_total st + 1);
     variance_ever_passed := variance_ever_passed st; dark_count := dark_count st;
     frame_count := frame_count st; seen_face := seen_face st;
     landmark_tracker := landmark_tracker st; last_frame := last_frame st |}.

Definition compare_face (compare_set : list (Z * FaceEmbedding)) (e : FaceEmbedding)
    (st : ScanState) (frame_matched : bool) : ScanState * bool :=
  let '(sim, id) := best_match e compare_set in
  let st := if f32_gt sim (best_similarity st) then set_best sim id st else st in
  if f32_ge sim (threshold (recognition config)) && negb frame_matched
  then (push_matched e st, true) else (st, frame_matched).

Fixpoint compare_faces (compare_set : list (Z * FaceEmbedding)) (frame : Frame)
    (faces : list (Detection * FaceEmbedding)) (st : ScanState) (frame_matched : bool) :
    option ScanState :=
  match faces with
  | [] => Some st
  | (det, e) :: rest =>
      match (if is_ir caps then textured frame det else Some true) with
      | None => None
      | Some false => compare_faces compare_set frame rest st frame_matched
      | Some true =>
          let '(st', fm) := compare_face compare_set e st frame_matched in
          compare_faces compare_set frame rest st' fm
      end
  end.

(** *** One iteration *)
Definition count_frame (st : ScanState) : ScanState :=
  {| best_similarity := best_similarity st; best_model_id := best_model_id st;
     variance_window := variance_window st; matched_frames_total := matched_frames_total st;
     variance_ever_passed := variance_ever_passed st; dark_count := dark_count st;
     frame_count := as_u32 (frame_count st + 1); seen_face := seen_face st;
     landmark_tracker := landmark_tracker st; last_frame := last_frame st |}.

Definition count_dark (st : ScanState) : ScanState :=
  {| best_similarity := best_similarity st; best_model_id := best_model_id st;
     variance_window := variance_window st; matched_frames_total := matched_frames_total st;
     variance_ever_passed := variance_ever_passed st; dark_count := as_u32 (dark_count st + 1);
     frame_count := frame_count st; seen_face := seen_face st;
     landmark_tracker := landmark_tracker st; last_frame := last_frame st |}.

Definition keep_frame (frame : Frame) (st : ScanState) : ScanState :=
  {| best_similarity := best_similarity st; best_model_id := best_model_id st;
     variance_window := variance_window st; matched_frames_total := matched_frames_total st;
     variance_ever_passed := variance_ever_passed st; dark_count := dark_count st;
     frame_count := frame_count st; seen_face := seen_face st;
     landmark_tracker := landmark_tracker st;
     last_frame := if save_snapshots then Some frame else last_frame st |}.

Definition see_face (det : Detection) (st : ScanState) : ScanState :=
  {| best_similarity := best_similarity st; best_model_id := best_model_id st;
     variance_window := variance_window st; matched_frames_total := matched_frames_total st;
     variance_ever_passed := variance_ever_passed st; dark_count := dark_count st;
     frame_count := frame_count st; seen_face := true;
     landmark_tracker := tracker_push (landmark_tracker st) (landmarks det);
     last_frame := last_frame st |}.

Definition pass_variance (st : ScanState) : ScanState :=
  {| best_similarity := best_similarity st; best_model_id := best_model_id st;
     variance_window := variance_window st; matched_frames_total := matched_frames_total st;
     variance_ever_passed := true; dark_count := dark_count st;
     frame_count := frame_count st; seen_face := seen_face st;
     landmark_tracker := landmark_tracker st; last_frame := last_frame st |}.

Definition landmarks_block (st : ScanState) : bool :=
  require_landmark_liveness (security config) && negb (check_liveness (landmark_tracker st)).

(** The variance, threshold and landmark gates at the end of an iteration. *)
Definition gates (start now : Z) (st : ScanState) : StepResult :=
  let succeed st := let '(o, es) := success start now st in SReturn o es in
  if require_frame_variance (security config) then
    if passes (variance_window st) (frame_variance_max_similarity (security config)) then
      let st := pass_variance st in
      if landmarks_block st then SContinue st else succeed st
    else SContinue st
  else if f32_ge (best_similarity st) (threshold (recognition config)) then
    if landmarks_block st then SContinue st else succeed st
  else SContinue st.

Definition scan_step (compare_set : list (Z * FaceEmbedding)) (start deadline : Z)
    (no_face_deadline : option Z) (t : Tick) (st : ScanState) : StepResult :=
  if negb (t_loop t <? deadline) then SBreak st
  else if t_cancelled t then
    let '(o, es) := cancelled start (t_done t) (frame_count st) in SReturn o es
  else if negb (seen_face st) && is_some_and (λ d, d <=? t_no_face t) no_face_deadline
  then SBreak st
  else
    match t_capture t with
    | Err _ => SContinue st
    | Ok frame =>
        let st := count_frame st in
        if is_dark_with_config frame (dark_threshold (device config)) (dark_pixel_value (device config))
        then SContinue (count_dark st)
        else
          let st := keep_frame frame st in
          match t_faces t with
          | Err _ => SContinue st
          | Ok [] => SContinue st
          | Ok (((det0, _) :: _) as faces) =>
              let st := see_face det0 st in
              match (if is_ir caps then all_flat frame faces else Some false) with
              | None => SPanic
              | Some true => SContinue st
              | Some false =>
                  match compare_faces compare_set frame faces st false with
                  | None => SPanic
                  | Some st => gates start (t_done t) st
                  end
              end
          end
    end.

Fixpoint scan_loop (compare_set : list (Z * FaceEmbedding)) (start deadline : Z)
    (no_face_deadline : option Z) (env : nat → Tick) (fuel n : nat) (st : ScanState) :
    option ScanEnd :=
  match fuel with
  | O => None
  | S fuel' =>
      match scan_step compare_set start deadline no_face_deadline (env n) st with
      | SContinue st' => scan_loop compare_set start deadline no_face_deadline env fuel' (S n) st'
      | SBreak st' => let '(o, es) := finish start (t_done (env n)) st' in Some (Finished o es)
      | SReturn o es => Some (Finished o es)
      | SPanic => Some Panicked
      end
  end.

(** [start] and [armed] are the two readings of the clock before the loop; [cancel0] is the
    cancellation flag on entry. [None] is an attempt that has not ended within [fuel]
    iterations. *)
Definition authenticate_with_embeddings (stored : list (Z * FaceEmbedding)) (cancel0 : bool)
    (start armed : Z) (env : nat → Tick) (fuel : nat) : option ScanEnd :=
  if cancel0 then let '(o, es) := cancelled start armed 0 in Some (Finished o es)
  else if bool_decide (ir_texture_scale caps = UnverifiedY16) then
    let message := render Y16BitDepthRequired "" in
    Some (Finished (AuthError Y16BitDepthRequired message)
      [WriteAudit (entry armed (audit_result Y16BitDepthRequired) None 0
         (elapsed_ms start armed) None (Some message))])
  else
    scan_loop (compare_set_of stored) start (armed + nanos (timeout_secs (recognition config)))
      ((λ d, start + nanos d) <$> effective_no_face_timeout (recognition config))
      env fuel 0 scan_init.
End Authenticate.
