(* ===== verification/AuthProofs.v ===== *)
(** * Properties of authentication

    The wire text determines the rejection class; the gates admit exactly what the policy
    allows; the capture loop ends, and ends in success only on evidence. *)

From stdpp Require Import gmap.
From S2P Require Import Prelude Float32 Types Matching DeviceBinding Config Store StoreProofs RateLimit Gates AuditLog Auth.

(** ** Rejection classes *)

(** The class of a rejection survives the wire: classifying the text a class renders to
    gives the class back, whatever detail it carries; only [Internal], which renders its detail
    verbatim, is exempt. *)
Theorem classify_inverts_render k detail : k ≠ Internal → classify_message (render k detail) = k.
Proof.
  intros Hk. destruct k; try done; unfold classify_message, ErrorKind_ALL.
  - assert (Hp : starts_with (render Storage "") (render Storage detail) = true)
      by (apply (prefix_app "storage error: ")).
    cbn [classify_from]. rewrite Hp. reflexivity.
  - assert (Hp : starts_with (render RateLimitCheckFailed "") (render RateLimitCheckFailed detail) = true)
      by (apply (prefix_app "rate limit check failed: ")).
    cbn [classify_from]. rewrite Hp. reflexivity.
Qed.

Lemma classify_inverts_render_witness :
  classify_message (render Storage "disk I/O error") = Storage.
Proof. apply (classify_inverts_render Storage "disk I/O error"). discriminate. Defined.

(** ** The gates *)
Section Gates.
Context `{ShowSqlite} (host : Host) (config : Config) (user : string) (rl : RateLimiter)
  (caps : CameraCaps) (ctx : PreCheckContext).

(** What the policy demands before a camera may be opened for [user]. *)
Record admitted (d : Db) : Prop := {
  adm_enabled : disabled (security config) = false;
  adm_ssh : skip_ssh_gate ctx = true ∨ abort_if_ssh (security config) = false ∨
            is_ssh_session (env_var host) = false;
  adm_lid : skip_lid_gate ctx = true ∨ abort_if_lid_closed (security config) = false ∨
            lid_refusal (lid_source ctx) (procfs_lid host) = None;
  adm_enrolled : ∃ m, m ∈ face_models d ∧ m_user m = user;
  adm_rate : Z.of_nat (length (recent_attempts user
               (unix_now (wall host) - as_i64 (limiter_window_secs rl)) (rate_limit_rows d)))
             < max_failures rl;
  adm_scale : ir_texture_scale caps ≠ UnverifiedY16;
  adm_ir : require_ir (security config) = true → is_ir caps = true;
}.

Lemma has_models_ok s b s' : has_models user s = (Ok b, s') →
  db s' = db s ∧ (b = true ↔ ∃ m, m ∈ face_models (db s) ∧ m_user m = user).
Proof.
  intros (n & s1 & E & [= <- <-])%bind_ok. apply exec_ok in E. unfold get_u32 in E.
  destruct (_ && _); [|done]. injection E as <- <-. split; [done|].
  rewrite Z.ltb_lt. split.
  - intros Hlen. destruct (List.filter _ _) as [|m ms] eqn:Ef; [done|].
    assert (m ∈ List.filter (λ m, String.eqb (m_user m) user) (face_models (db s))) as Hm
      by (rewrite Ef; apply list_elem_of_here).
    apply elem_of_filterb in Hm as [Hm Hu]. exists m. by apply String.eqb_eq in Hu.
  - intros (m & Hm & Hu).
    assert (m ∈ List.filter (λ m, String.eqb (m_user m) user) (face_models (db s))) as Hin
      by (apply elem_of_filterb; by rewrite Hu, String.eqb_refl).
    destruct (List.filter _ _); [by apply not_elem_of_nil in Hin|]. cbn. lia.
Qed.

Lemma check_ok clock s b s' : check rl clock user s = (Ok b, s') →
  b = (Z.of_nat (length (recent_attempts user
         (unix_now clock - as_i64 (limiter_window_secs rl)) (rate_limit_rows (db s))))
       <? max_failures rl).
Proof.
  unfold check, ignore, string_err. set (cutoff := unix_now clock - _).
  assert (Hc : recent_attempts user cutoff
      (rate_limit_rows (db (snd (cleanup_rate_limit clock (limiter_window_secs rl) s)))) =
    recent_attempts user cutoff (rate_limit_rows (db s))).
  { unfold cleanup_rate_limit. destruct (exec _ s) as [[u|e] s1] eqn:E; cbn [snd].
    - apply exec_ok in E. injection E as _ <-. cbn [rate_limit_rows set_attempts].
      apply filter_filter_implied. intros a Ha. bsplit. apply negb_true_iff, Z.leb_gt. done.
    - by rewrite (exec_err _ _ _ _ E). }
  set (s1 := snd _) in *. destruct (check_rate_limit _ _ _ _ s1) as [[b'|e] s2] eqn:E; [|done].
  intros [= <- <-]. apply bind_ok in E as (n & s3 & E & [= <- _]). apply exec_ok in E.
  unfold get_u32 in E. destruct (_ && _); [|done]. injection E as <- _.
  fold cutoff. by rewrite Hc.
Qed.

Lemma pre_check_none s s' : pre_check_with_context host config user rl caps ctx s = (None, s') →
  admitted (db s).
Proof.
  unfold pre_check_with_context. destruct (disabled _) eqn:E1; [done|].
  destruct (negb _ && _ && _) eqn:E2; [done|]. destruct (if negb _ && _ then _ else _) eqn:E3; [done|].
  destruct (has_models user s) as [[[]|e] s1] eqn:E4; [|done|done].
  destruct (check rl (wall host) user s1) as [[[]|e] s2] eqn:E5; [|done|done].
  destruct (bool_decide _) eqn:E6; [done|]. destruct (require_ir _ && _) eqn:E7; [done|]. intros _.
  apply has_models_ok in E4 as [Hdb Hm]. apply check_ok in E5. rewrite Hdb in E5.
  split; [done| | |by apply Hm| | |].
  - destruct (skip_ssh_gate ctx), (abort_if_ssh (security config)); cbn in E2; auto.
  - destruct (skip_lid_gate ctx), (abort_if_lid_closed (security config)); cbn in E3; auto.
  - by apply Z.ltb_lt.
  - by apply bool_decide_eq_false in E6.
  - intros Hr. rewrite Hr in E7. by destruct (is_ir caps).
Qed.

(** A store that answers: no fault, and counts that fit a [u32]. *)
Definition answers (s : FaceStore) : Prop :=
  (∀ n, faults s n = None) ∧ Z.of_nat (length (face_models (db s))) ≤ u32_max ∧
  Z.of_nat (length (rate_limit_rows (db s))) ≤ u32_max.

Lemma filterb_length {A} (p : A → bool) l : (length (List.filter p l) ≤ length l)%nat.
Proof. induction l as [|x l IH]; [done|]. cbn. destruct (p x); cbn; lia. Qed.

Lemma query_count_answers (count : Db → nat) s : (∀ n, faults s n = None) →
  Z.of_nat (count (db s)) ≤ u32_max →
  query_count count s = (Ok (Z.of_nat (count (db s))), set_db (db s) (tick_on s)).
Proof.
  intros Hf Hn. apply exec_no_fault; [done|]. unfold get_u32.
  rewrite (proj2 (Z.leb_le 0 _)), (proj2 (Z.leb_le _ u32_max)) by lia. done.
Qed.

Lemma pre_check_some s : answers s → admitted (db s) →
  fst (pre_check_with_context host config user rl caps ctx s) = None.
Proof.
  intros (Hf & Hm & Hr) [A1 A2 A3 A4 A5 A6 A7]. unfold pre_check_with_context. rewrite A1.
  assert (negb (skip_ssh_gate ctx) && abort_if_ssh (security config) &&
    is_ssh_session (env_var host) = false) as ->
    by (destruct A2 as [ -> | [ -> | -> ] ]; rewrite ?andb_false_r; done).
  assert ((if negb (skip_lid_gate ctx) && abort_if_lid_closed (security config)
    then lid_refusal (lid_source ctx) (procfs_lid host) else None) = None) as ->
    by (destruct A3 as [ -> | [ -> | -> ] ]; rewrite ?andb_false_r; first [done | by destruct (_ && _)]).
  set (s1 := set_db (db s) (tick_on s)). assert (Hhas : has_models user s = (Ok (0 <? Z.of_nat (length
    (List.filter (λ m, String.eqb (m_user m) user) (face_models (db s))))), s1)).
  { unfold has_models, bind. rewrite query_count_answers; [done|done|].
    pose proof (filterb_length (λ m, String.eqb (m_user m) user) (face_models (db s))); lia. }
  rewrite (proj2 (proj2 (has_models_ok _ _ _ Hhas)) A4) in Hhas. rewrite Hhas. clear Hhas.
  destruct (check rl (wall host) user s1) as [[b|e] s2] eqn:E.
  - apply check_ok in E. cbn [db set_db s1] in E. rewrite E, (proj2 (Z.ltb_lt _ _) A5).
    rewrite bool_decide_eq_false_2 by done.
    destruct (require_ir _) eqn:Eq; [|done]. by rewrite A7.
  - exfalso. unfold check, ignore, string_err, check_rate_limit, bind in E.
    unfold cleanup_rate_limit in E.
    rewrite (exec_no_fault _ s1 _ _ (Hf _) eq_refl) in E. cbn [snd] in E.
    rewrite query_count_answers in E; [done|done|].
    cbn. etrans; [|exact Hr]. apply inj_le. etrans; [apply filterb_length|apply filterb_length].
Qed.

(** A gate that answers never answers with a match. *)
Lemma pre_check_unmatched s r :
  fst (pre_check_with_context host config user rl caps ctx s) = Some (AuthResult r) → matched r = false.
Proof.
  unfold pre_check_with_context. destruct (disabled _); [done|].
  destruct (negb _ && _ && _); [done|]. destruct (if negb _ && _ then _ else _); [done|].
  destruct (has_models user s) as [[[]|e] s1]; [|destruct (suppress_unknown _); [done|]|done].
  - destruct (check rl (wall host) user s1) as [[[]|e] s2]; [|done|done].
    destruct (bool_decide _); [done|]. by destruct (require_ir _ && _).
  - by intros [= <-].
Qed.
End Gates.

(** The pre-flight gates admit an attempt exactly when the policy does: whatever the
    database fails at, an admitted attempt satisfies every gate (enabled, no SSH session, lid
    open, the user enrolled, fewer failures than the limit in the window, a verified texture
    scale, infrared when required); when the database answers, an attempt that satisfies them
    is admitted; and no gate ever answers with a match. *)
Theorem pre_check_admits_exactly `{ShowSqlite} host config user rl caps ctx s :
  let out := fst (pre_check_with_context host config user rl caps ctx s) in
  (out = None → admitted host config user rl caps ctx (db s)) ∧
  (answers s → admitted host config user rl caps ctx (db s) → out = None) ∧
  (∀ r, out = Some (AuthResult r) → matched r = false).
Proof.
  intros out. split_and!.
  - intros Hn. unfold out in Hn.
    destruct (pre_check_with_context host config user rl caps ctx s) as [o s'] eqn:E.
    cbn in Hn. subst o. by eapply pre_check_none.
  - apply pre_check_some.
  - intros r. unfold out. by apply pre_check_unmatched.
Qed.

(** A lid the transport could not read is never assumed open: with the lid gate on, an
    attempt admitted on an unavailable reading has an open lid reported by the local resolver,
    and a lid any source reports closed is always refused. *)
Theorem lid_gate_fails_closed `{ShowSqlite} host config user rl caps s :
  abort_if_lid_closed (security config) = true →
  ∀ src, fst (pre_check_with_context host config user rl caps (ctx_daemon_authenticate src) s) = None →
  match src with
  | Resolved closed => closed = false
  | Unavailable => procfs_lid host = LidIsOpen
  | LocalProcfs => procfs_lid host ≠ LidIsClosed
  end.
Proof.
  intros Ha src Hn.
  destruct (pre_check_with_context host config user rl caps (ctx_daemon_authenticate src) s)
    as [o s'] eqn:E. cbn in Hn. subst o. apply pre_check_none in E as [_ _ Hl _ _ _ _].
  destruct Hl as [Hl|[Hl|Hl]]; [done|congruence|]. cbn in Hl.
  by destruct src as [|[]|], (procfs_lid host).
Qed.

(** ** Floats along the loop *)
Lemma f32_le_trans x y z : f32_valid x → f32_valid y → f32_valid z →
  f32_le x y = true → f32_le y z = true → f32_le x z = true.
Proof.
  intros Vx Vy Vz Hxy Hyz. destruct (f32_le_not_nan _ _ Hxy), (f32_le_not_nan _ _ Hyz).
  rewrite f32_le_skey in * by done. bsplit. apply Z.leb_le. lia.
Qed.

Lemma f32_not_lt_le x y : f32_valid x → f32_valid y → f32_is_nan x = false → f32_is_nan y = false →
  f32_lt x y = false → f32_le y x = true.
Proof.
  intros Vx Vy Nx Ny H. rewrite f32_lt_skey in H by done. rewrite f32_le_skey by done. bsplit.
  by apply Z.leb_le.
Qed.

(** ** The loop's evidence *)
Section Evidence.
Context `{NanEncoding} `{Subtle} (caps : CameraCaps) (models : list FaceModelInfo)
  (config : Config) (stored : list (Z * FaceEmbedding)) (env : nat → Tick).

#[local] Abbreviation compare_set := (compare_set_of caps models config stored).
#[local] Abbreviation threshold := (threshold (recognition config)).

(** The camera delivered, at iteration [k], a frame that is not dark, in which the engine
    found this face; on an infrared camera the face has skin texture. *)
Definition face_seen (k : nat) (e : FaceEmbedding) : Prop :=
  ∃ frame faces det, t_capture (env k) = Ok frame ∧ t_faces (env k) = Ok faces ∧
    is_dark_with_config frame (dark_threshold (device config)) (dark_pixel_value (device config)) = false ∧
    (det, e) ∈ faces ∧
    (is_ir caps = true → textured config frame det = Some true).

(** A face seen before iteration [n] whose best similarity over the compare set is [sim]. *)
Definition compared (n : nat) (sim : f32) (oid : option Z) : Prop :=
  ∃ k e, (k < n)%nat ∧ face_seen k e ∧ best_match e compare_set = (sim, oid).

Definition matched_face (k : nat) (e : FaceEmbedding) : Prop :=
  ∃ sim oid, face_seen k e ∧ best_match e compare_set = (sim, oid) ∧ f32_ge sim threshold = true.

(** The matched faces of a session, one per iteration at most, in the order of strictly
    increasing iterations below [b]. *)
Inductive matches_below : nat → list FaceEmbedding → Prop :=
  | matches_none b : matches_below b []
  | matches_snoc b k b' es e : matches_below b es → (b ≤ k)%nat → (k < b')%nat →
      matched_face k e → matches_below b' (es ++ [e]).

Definition landmarks_seen (n : nat) (l : list Point2D) : Prop :=
  ∃ k frame det e rest, (k < n)%nat ∧ t_capture (env k) = Ok frame ∧
    t_faces (env k) = Ok ((det, e) :: rest) ∧ l = landmarks det.

Definition first_tracker : LandmarkTracker :=
  tracker_new 10 (landmark_displacement_px (security config))
    (Z.to_nat (landmark_min_moving (security config))).

(** What the loop's state records: comparisons of iterations below [n], window entries of
    iterations below [b]. *)
Record evidence (n b : nat) (st : ScanState) : Prop := {
  ev_best : (best_similarity st = f32_zero ∧ best_model_id st = None) ∨
            compared n (best_similarity st) (best_model_id st);
  ev_best_float : f32_valid (best_similarity st) ∧ f32_is_nan (best_similarity st) = false;
  ev_window : ∃ es, variance_window st =
      window_push_all (window_new (min_auth_frames (security config))) es ∧
    matches_below b es ∧ (es ≠ [] → f32_ge (best_similarity st) threshold = true);
  ev_tracker : ∃ ls, landmark_tracker st = tracker_push_all first_tracker ls ∧
    Forall (landmarks_seen n) ls;
}.

Hypothesis stored_valid : Forall stored_ok stored.
Hypothesis faces_valid : ∀ k faces, t_faces (env k) = Ok faces →
  Forall (λ f, Forall f32_valid f.2) faces.
Hypothesis threshold_valid : f32_valid threshold.

Lemma compare_set_valid : Forall stored_ok compare_set.
Proof using stored_valid.
  apply Forall_forall. intros x [Hx _]%elem_of_filterb. rewrite Forall_forall in stored_valid.
  by apply stored_valid.
Qed.

Lemma face_seen_valid k e : face_seen k e → Forall f32_valid e.
Proof using faces_valid.
  intros (frame & faces & det & _ & Hf & _ & Hin & _). specialize (faces_valid k faces Hf).
  rewrite Forall_forall in faces_valid. exact (faces_valid _ Hin).
Qed.

(** A similarity that compares against anything is a float of the format. *)
Lemma best_match_valid e sim oid : Forall f32_valid e → best_match e compare_set = (sim, oid) →
  f32_is_nan sim = false → f32_valid sim.
Proof using stored_valid.
  intros Ve Hb Hn. destruct (best_fold_found e Ve compare_set compare_set_valid) as [x Hx].
  unfold best_match in Hb. revert Hx Hb. destruct (fold_left _ _ _) as [[ord raw] bid].
  intros (Vx & -> & _). destruct compare_set; intros [= <- _]; [done|].
  by rewrite f32_from_to_bits_not_nan.
Qed.

Lemma evidence_init : evidence 0 0 (scan_init config).
Proof.
  split; cbn; [by left|done| |].
  - exists []. split_and!; [done|constructor|done].
  - by exists [].
Qed.

Lemma compared_mono n n' sim oid : (n ≤ n')%nat → compared n sim oid → compared n' sim oid.
Proof. intros Hn (k & e & Hk & Hs). exists k, e. split; [lia|done]. Qed.

Lemma matches_below_mono b b' es : (b ≤ b')%nat → matches_below b es → matches_below b' es.
Proof. intros Hb Hm. destruct Hm; [constructor|]. econstructor; [done..|lia|done]. Qed.

Lemma evidence_mono n n' b b' st : (n ≤ n')%nat → (b ≤ b')%nat → evidence n b st → evidence n' b' st.
Proof.
  intros Hn Hb' [Hb Hf (es & Hw & Hes & Hge) (ls & Hl & Hls)]. split; [|done| |].
  - destruct Hb as [Hb|Hb]; [by left|right]. by eapply compared_mono.
  - exists es. split_and!; [done| |done]. by eapply matches_below_mono.
  - exists ls. split; [done|]. eapply Forall_impl; [exact Hls|].
    intros l (k & frame & det & e & rest & Hk & Hr). exists k, frame, det, e, rest. split; [lia|done].
Qed.

Lemma evidence_next n m st : (m ≤ S n)%nat → evidence m n st → evidence (S n) (S n) st.
Proof. intros Hm. apply evidence_mono; lia. Qed.

(** Evidence is about four fields of the state. *)
Lemma evidence_ext n b st st' : best_similarity st' = best_similarity st →
  best_model_id st' = best_model_id st → variance_window st' = variance_window st →
  landmark_tracker st' = landmark_tracker st → evidence n b st → evidence n b st'.
Proof. intros E1 E2 E3 E4 [? ? ? ?]. split; rewrite ?E1, ?E2, ?E3, ?E4; done. Qed.

(** Raising the best similarity keeps it a number, and never below the threshold again. *)
Lemma evidence_best n b st k e sim oid : evidence n b st → (k < n)%nat → face_seen k e →
  best_match e compare_set = (sim, oid) →
  let st' := if f32_gt sim (best_similarity st) then set_best sim oid st else st in
  evidence n b st' ∧ (f32_ge sim threshold = true → f32_ge (best_similarity st') threshold = true).
Proof using stored_valid faces_valid threshold_valid.
  intros Hev Hk Hs Hb. destruct (f32_gt sim (best_similarity st)) eqn:Eg; cbn zeta.
  - apply f32_lt_le in Eg. destruct (f32_le_not_nan _ _ Eg) as [_ Nsim].
    pose proof (best_match_valid e sim oid (face_seen_valid _ _ Hs) Hb Nsim) as Vsim.
    destruct Hev as [_ [Vb Nb] (es & Hw & Hes & Hge) Ht]. split; [|done].
    split; cbn; [right; by exists k, e|done| |done].
    exists es. split_and!; [done|done|]. intros Hne. by apply (f32_le_trans _ (best_similarity st)), Eg; auto.
  - split; [done|]. intros Hge. destruct (f32_le_not_nan _ _ Hge) as [_ Nsim].
    pose proof (best_match_valid e sim oid (face_seen_valid _ _ Hs) Hb Nsim) as Vsim.
    destruct (ev_best_float _ _ _ Hev) as [Vb Nb].
    apply (f32_le_trans _ sim); [done..|]. by apply f32_not_lt_le.
Qed.

Lemma compare_face_evidence n e st (fm : bool) : face_seen n e →
  evidence (S n) (if fm then S n else n) st →
  let '(st', fm') := compare_face config compare_set e st fm in
  evidence (S n) (if fm' then S n else n) st'.
Proof using stored_valid faces_valid threshold_valid.
  intros Hs Hev. unfold compare_face. destruct (best_match e compare_set) as [sim oid] eqn:Eb.
  destruct (evidence_best _ _ st n e sim oid Hev ltac:(lia) Hs Eb) as [Hev' Hge].
  set (st1 := if f32_gt sim (best_similarity st) then _ else _) in *.
  destruct (f32_ge sim threshold) eqn:Et; cbn [andb]; [|done].
  destruct fm; cbn [negb]; [done|].
  destruct Hev' as [Hb Hf (es & Hw & Hes & Hge') Ht]. split; cbn; [done|done| |done].
  exists (es ++ [e]). rewrite Hw. split_and!.
  - unfold window_push_all. by rewrite fold_left_app.
  - apply (matches_snoc n n); [done|lia|lia|]. by exists sim, oid.
  - intros _. by apply Hge.
Qed.

Lemma compare_faces_evidence n frame faces all st (fm : bool) st' :
  t_capture (env n) = Ok frame → t_faces (env n) = Ok all →
  is_dark_with_config frame (dark_threshold (device config)) (dark_pixel_value (device config)) = false →
  (∀ f, f ∈ faces → f ∈ all) → evidence (S n) (if fm then S n else n) st →
  compare_faces caps config compare_set frame faces st fm = Some st' → evidence (S n) (S n) st'.
Proof using stored_valid faces_valid threshold_valid.
  intros Hc Hf Hd. revert st fm. induction faces as [|[det e] faces IH]; intros st fm Hin Hev.
  - intros [= <-]. by apply (evidence_mono (S n) (S n) (if fm then S n else n)); [|destruct fm; lia|].
  - cbn [compare_faces]. destruct (if is_ir caps then _ else _) as [[]|] eqn:Ex; [|apply IH|done].
    + destruct (compare_face config compare_set e st fm) as [st1 fm1] eqn:Ec.
      apply IH; [intros f Hm; apply Hin; by apply list_elem_of_further|].
      pose proof (compare_face_evidence n e st fm) as Hcf. rewrite Ec in Hcf. apply Hcf; [|done].
      exists frame, all, det. split_and!; [done..|apply Hin, list_elem_of_here|].
      intros Hir. by rewrite Hir in Ex.
    + intros f Hm. apply Hin. by apply list_elem_of_further.
    + done.
Qed.

(** What a reported match rests on. *)
Record proved_match (n : nat) (r : MatchResult) : Prop := {
  pm_template : ∃ k e id emb, (k < n)%nat ∧ face_seen k e ∧ mr_model_id r = Some id ∧
    (id, emb) ∈ stored ∧ id ∈ allowed caps models config ∧
    cosine_similarity e emb = similarity r ∧ f32_ge (similarity r) threshold = true;
  pm_variance : require_frame_variance (security config) = true →
    let w := Nat.max (Z.to_nat (min_auth_frames (security config))) 2 in
    ∃ es, matches_below n es ∧ (w ≤ length es)%nat ∧
      forallb (λ '(a, b), f32_le (cosine_similarity a b)
        (frame_variance_max_similarity (security config))) (windows2 (last_n w es)) = true;
  pm_liveness : require_landmark_liveness (security config) = true →
    ∃ ls, Forall (landmarks_seen n) ls ∧
      check_liveness (tracker_push_all first_tracker ls) = true;
}.

Hypothesis threshold_pos : f32_lt f32_zero threshold = true.

Lemma best_is_template n b st : evidence n b st → f32_ge (best_similarity st) threshold = true →
  ∃ k e id emb, (k < n)%nat ∧ face_seen k e ∧ best_model_id st = Some id ∧
    (id, emb) ∈ stored ∧ id ∈ allowed caps models config ∧
    cosine_similarity e emb = best_similarity st.
Proof using stored_valid faces_valid threshold_pos.
  intros Hev Hge. pose proof (f32_lt_not_le _ _ threshold_pos) as Hnz.
  destruct (ev_best _ _ _ Hev) as [[E _]|(k & e & Hk & Hs & Hb)].
  { rewrite E in Hge. unfold f32_ge in Hge. unfold f32_le in Hnz. congruence. }
  assert (compare_set ≠ []).
  { intros E. rewrite E in Hb. injection Hb as Hb _. rewrite <- Hb in Hge.
    unfold f32_ge in Hge. unfold f32_le in Hnz. congruence. }
  destruct (best_match_sound e (face_seen_valid _ _ Hs) compare_set _ _ threshold
    compare_set_valid Hb) as (id & emb & Hid & Hin & Hcos); [done|by apply f32_lt_le|done|].
  apply elem_of_filterb in Hin as [Hin Hal]. apply bool_decide_eq_true in Hal.
  by exists k, e, id, emb.
Qed.

Lemma success_proved n st start now o es wall_at source user : evidence n n st →
  f32_ge (best_similarity st) threshold = true → landmarks_block config st = false →
  (require_frame_variance (security config) = true →
   passes (variance_window st) (frame_variance_max_similarity (security config)) = true) →
  success models config user source wall_at start now st = (o, es) →
  ∃ r, o = AuthResult r ∧ matched r = true ∧ proved_match n r.
Proof using stored_valid faces_valid threshold_pos.
  intros Hev Hge Hl Hv [= <- _]. eexists. split; [done|]. split; [done|]. split; cbn.
  - destruct (best_is_template n n st Hev Hge) as (k & e & id & emb & H1 & H2 & H3 & H4 & H5 & H6).
    by exists k, e, id, emb.
  - intros Hr. destruct (ev_window _ _ _ Hev) as (ms & Hw & Hms & _). exists ms.
    specialize (Hv Hr). rewrite Hw, passes_recent in Hv. bsplit. done.
  - intros Hr. destruct (ev_tracker _ _ _ Hev) as (ls & Ht & Hls). exists ls. split; [done|].
    unfold landmarks_block in Hl. rewrite Hr, Ht in Hl. by apply negb_false_iff in Hl.
Qed.

(** The obligations of one iteration's result. *)
Definition step_ok (n : nat) (res : StepResult) : Prop :=
  match res with
  | SContinue st' => evidence (S n) (S n) st'
  | SBreak st' => evidence n n st'
  | SReturn (AuthResult r) _ => matched r = true ∧ proved_match (S n) r
  | SReturn _ _ | SPanic => True
  end.

Lemma gates_ok n st start now wall_at source user : evidence (S n) (S n) st →
  step_ok n (gates models config user source wall_at start now st).
Proof using stored_valid faces_valid threshold_pos.
  intros Hev. unfold gates. destruct (require_frame_variance _) eqn:Er.
  - destruct (passes _ _) eqn:Ep; [|done].
    assert (Hev' : evidence (S n) (S n) (pass_variance st)) by (by apply (evidence_ext _ _ st)).
    destruct (landmarks_block _ _) eqn:El; [done|].
    destruct (success _ _ _ _ _ _ _ _) as [o es] eqn:Es.
    destruct (success_proved (S n) _ _ _ _ _ _ _ _ Hev' ltac:(
      destruct (ev_window _ _ _ Hev) as (ms & Hw & _ & Hge); apply Hge; intros ->;
      rewrite Hw, passes_recent in Ep; cbn in Ep; bsplit; lia) El ltac:(done) Es)
      as (r & -> & Hm & Hp). done.
  - destruct (f32_ge _ _) eqn:Et; [|done]. destruct (landmarks_block _ _) eqn:El; [done|].
    destruct (success _ _ _ _ _ _ _ _) as [o es] eqn:Es.
    destruct (success_proved (S n) _ _ _ _ _ _ _ _ Hev Et El ltac:(congruence) Es)
      as (r & -> & Hm & Hp). done.
Qed.

Lemma see_face_evidence n frame det e rest st : t_capture (env n) = Ok frame →
  t_faces (env n) = Ok ((det, e) :: rest) → evidence n n st →
  evidence (S n) n (see_face det st).
Proof.
  intros Hc Hf Hev. apply (evidence_mono _ (S n) _ n) in Hev; [|lia|lia].
  destruct Hev as [Hb Hfl Hw (ls & Ht & Hls)]. split; cbn; [done..|].
  exists (ls ++ [landmarks det]). split.
  - rewrite Ht. unfold tracker_push_all. by rewrite fold_left_app.
  - apply Forall_app. split; [done|]. constructor; [|done]. exists n, frame, det, e, rest.
    split; [lia|done].
Qed.

Lemma scan_step_ok start deadline nfd wall_at source user n st : evidence n n st →
  step_ok n (scan_step caps models config user source wall_at compare_set start deadline nfd (env n) st).
Proof using stored_valid faces_valid threshold_valid threshold_pos.
  intros Hev. unfold scan_step. destruct (negb _); [done|]. destruct (t_cancelled _); [done|].
  destruct (negb _ && _); [done|].
  destruct (t_capture (env n)) as [frame|err] eqn:Ec; [|by apply (evidence_next n n); [lia|]].
  assert (Hev1 : evidence n n (count_frame st)) by (by apply (evidence_ext _ _ st)).
  destruct (is_dark_with_config _ _ _) eqn:Ed.
  { apply (evidence_ext _ _ st); [done..|]. by apply (evidence_next n n); [lia|]. }
  assert (Hev2 : evidence n n (keep_frame config frame (count_frame st)))
    by (by apply (evidence_ext _ _ st)).
  set (st2 := keep_frame _ _ _) in *. clearbody st2.
  destruct (t_faces (env n)) as [[|[det0 e0] faces]|err] eqn:Ef;
    [by apply (evidence_next n n); [lia|]| |by apply (evidence_next n n); [lia|]].
  pose proof (see_face_evidence n frame det0 e0 faces st2 Ec Ef Hev2) as Hev3.
  set (st3 := see_face det0 st2) in *. clearbody st3.
  destruct (if is_ir caps then _ else _) as [[]|]; [by apply (evidence_next n (S n)); [lia|]| |done].
  destruct (compare_faces _ _ _ _ _ _ _) as [st4|] eqn:Ecf; [|done].
  apply gates_ok. exact (compare_faces_evidence n frame _ _ st3 false st4 Ec Ef Ed (λ f Hf, Hf) Hev3 Ecf).
Qed.

Lemma scan_loop_ok start deadline nfd wall_at source user fuel n st o es : evidence n n st →
  scan_loop caps models config user source wall_at compare_set start deadline nfd env fuel n st
    = Some (Finished o es) →
  ∀ r, o = AuthResult r → matched r = true → ∃ m, (m ≤ n + fuel)%nat ∧ proved_match m r.
Proof using stored_valid faces_valid threshold_valid threshold_pos.
  revert n st. induction fuel as [|fuel IH]; intros n st Hev; [done|]. cbn [scan_loop].
  pose proof (scan_step_ok start deadline nfd wall_at source user n st Hev) as Hok.
  destruct (scan_step _ _ _ _ _ _ _ _ _ _ _ st) as [st'|st'|o' es'|]; cbn [step_ok] in Hok.
  - intros Hl r Ho Hm. destruct (IH (S n) st' Hok Hl r Ho Hm) as (m & Hle & Hp).
    exists m. split; [lia|done].
  - unfold finish. destruct (_ && _); intros [= <- _] r Ho Hm; [done|].
    injection Ho as <-. done.
  - intros [= <- _] r -> Hm. exists (S n). split; [lia|]. by destruct Hok.
  - done.
Qed.
End Evidence.

(** ** The ends of an attempt *)
Section Ends.
Context `{NanEncoding} `{Subtle} (caps : CameraCaps) (models : list FaceModelInfo)
  (config : Config) (user : string) (source : AuditSource) (wall_at : Z → option Z).

#[local] Abbreviation loop := (scan_loop caps models config user source wall_at).
#[local] Abbreviation attempt := (authenticate_with_embeddings caps models config user source wall_at).

Lemma scan_loop_more cs start deadline nfd env fuel fuel' n st e : (fuel ≤ fuel')%nat →
  loop cs start deadline nfd env fuel n st = Some e →
  loop cs start deadline nfd env fuel' n st = Some e.
Proof.
  revert fuel' n st. induction fuel as [|fuel IH]; intros fuel' n st Hle; [done|].
  destruct fuel' as [|fuel']; [lia|]. cbn [scan_loop].
  destruct (scan_step _ _ _ _ _ _ _ _ _ _ _ st); try done. apply IH. lia.
Qed.

(** The loop ends at the first iteration that reads a clock past the deadline. *)
Lemma scan_loop_deadline cs start deadline nfd env j n st : deadline ≤ t_loop (env (n + j)%nat) →
  is_Some (loop cs start deadline nfd env (S j) n st).
Proof.
  revert n st. induction j as [|j IH]; intros n st Hd.
  - cbn [scan_loop]. rewrite Nat.add_0_r in Hd. unfold scan_step.
    rewrite (proj2 (Z.ltb_ge _ _) Hd). cbn [negb]. by destruct (finish _ _ _ _ _ _ _).
  - remember (S j) as j'. cbn [scan_loop]. subst j'.
    destruct (scan_step _ _ _ _ _ _ _ _ _ _ _ st) as [st'|st'|o es|]; [|by destruct (finish _ _ _ _ _ _ _)|done|done].
    apply IH. by replace (S n + j)%nat with (n + S j)%nat by lia.
Qed.

(** The loop ends at the first iteration that sees the cancellation flag. *)
Lemma scan_loop_cancel cs start deadline nfd env j n st : t_cancelled (env (n + j)%nat) = true →
  is_Some (loop cs start deadline nfd env (S j) n st) ∧
  (loop cs start deadline nfd env j n st = None → t_loop (env (n + j)%nat) < deadline →
   ∃ es, loop cs start deadline nfd env (S j) n st = Some (Finished Cancelled es)).
Proof.
  revert n st. induction j as [|j IH]; intros n st Hc.
  - cbn [scan_loop]. rewrite Nat.add_0_r in *. unfold scan_step. rewrite Hc. split.
    + destruct (negb _); [|done]. by destruct (finish _ _ _ _ _ _ _).
    + intros _ Hl. rewrite (proj2 (Z.ltb_lt _ _) Hl). by eexists.
  - remember (S j) as j'. cbn [scan_loop]. subst j'. cbn [scan_loop].
    destruct (scan_step _ _ _ _ _ _ _ _ _ _ _ st) as [st'|st'|o es|];
      [|by destruct (finish _ _ _ _ _ _ _)|done|done].
    replace (n + S j)%nat with (S n + j)%nat in * by lia. apply (IH (S n) st' Hc).
Qed.

(** The entries an attempt writes to the audit log. *)
Definition audits (es : list Effect) : list AuditEntry :=
  omap (λ e, match e with WriteAudit a => Some a | SaveSnapshot _ _ _ => None end) es.

Definition outcome_label (o : AuthOutcome) : string :=
  match o with
  | AuthResult r => if matched r then "success" else "failure"
  | AuthError k _ => audit_result k
  | Suppressed => "suppressed"
  | Cancelled => CANCELLED_MESSAGE
  end.

Definition audited (o : AuthOutcome) (es : list Effect) : Prop :=
  ∃ a, audits es = [a] ∧ ae_result a = outcome_label o ∧ ae_user a = user ∧
       ae_source a = Some source.

Lemma audits_snapshots (o : option Frame) (b : bool) score :
  omap (λ e, match e with WriteAudit a => Some a | SaveSnapshot _ _ _ => None end)
    match o with Some f => if b then [SaveSnapshot user score f] else [] | None => [] end = [].
Proof. destruct o; [|done]. by destruct b. Qed.

Lemma success_audited start now st o es :
  success models config user source wall_at start now st = (o, es) → audited o es.
Proof.
  intros [= <- <-]. eexists. split; [cbn; by rewrite audits_snapshots|done].
Qed.

Lemma finish_audited start now st o es :
  finish config user source wall_at start now st = (o, es) → audited o es.
Proof.
  unfold finish. destruct (_ && _); intros [= <- <-]; eexists.
  - by split.
  - split; [cbn; by rewrite audits_snapshots|done].
Qed.

Lemma gates_audited start now st o es :
  gates models config user source wall_at start now st = SReturn o es → audited o es.
Proof.
  unfold gates. destruct (success models config user source wall_at start now (pass_variance st))
    as [o1 es1] eqn:E1, (success models config user source wall_at start now st) as [o2 es2] eqn:E2.
  apply success_audited in E1, E2.
  destruct (require_frame_variance _).
  - destruct (passes _ _); [|done]. destruct (landmarks_block _ _); [done|]. by intros [= <- <-].
  - destruct (f32_ge _ _); [|done]. destruct (landmarks_block _ _); [done|]. by intros [= <- <-].
Qed.

Lemma scan_step_audited cs start deadline nfd t st o es :
  scan_step caps models config user source wall_at cs start deadline nfd t st = SReturn o es →
  audited o es.
Proof.
  unfold scan_step. destruct (negb _); [done|]. destruct (t_cancelled t).
  { intros [= <- <-]. by eexists. }
  destruct (negb _ && _); [done|]. destruct (t_capture t) as [frame|]; [|done].
  destruct (is_dark_with_config _ _ _); [done|].
  destruct (t_faces t) as [[|[det e] faces]|]; [done| |done].
  destruct (if is_ir caps then _ else _) as [[]|]; [done| |done].
  destruct (compare_faces _ _ _ _ _ _ _); [|done]. apply gates_audited.
Qed.

Lemma scan_loop_audited cs start deadline nfd env fuel n st o es :
  loop cs start deadline nfd env fuel n st = Some (Finished o es) → audited o es.
Proof.
  revert n st. induction fuel as [|fuel IH]; intros n st; [done|]. cbn [scan_loop].
  destruct (scan_step _ _ _ _ _ _ _ _ _ _ _ st) as [st'|st'|o' es'|] eqn:Es; [apply IH| | |done].
  - destruct (finish _ _ _ _ _ _ _) as [o' es'] eqn:Ef. intros [= <- <-]. by eapply finish_audited.
  - intros [= <- <-]. by eapply scan_step_audited.
Qed.
End Ends.

(** C1.  Success is proved by evidence: when an attempt reports a match, some iteration
    delivered a frame that is not dark with a face in it (with skin texture, on an infrared
    camera) whose similarity to a stored template is the reported score and reaches the
    configured threshold; that template's model is the reported one and was admitted for this
    camera by the device policy; with the variance gate on, at least
    [max(min_auth_frames, 2)] frames of strictly increasing iterations matched, and the most
    recent of them differ pairwise as configured; with landmark liveness on, the tracked
    landmarks moved. *)
Theorem auth_success_is_proved `{NanEncoding} `{Subtle} caps models config user source wall_at
    stored cancel0 start armed env fuel r es :
  Forall stored_ok stored →
  (∀ k faces, t_faces (env k) = Ok faces → Forall (λ f, Forall f32_valid f.2) faces) →
  f32_valid (threshold (recognition config)) →
  f32_lt f32_zero (threshold (recognition config)) = true →
  authenticate_with_embeddings caps models config user source wall_at stored cancel0 start armed env fuel
    = Some (Finished (AuthResult r) es) →
  matched r = true →
  ∃ m, (m ≤ fuel)%nat ∧ proved_match caps models config stored env m r.
Proof.
  intros Hst Hf Hv Hp. unfold authenticate_with_embeddings. destruct cancel0; [done|].
  destruct (bool_decide _); [done|]. intros Hl Hm.
  destruct (scan_loop_ok caps models config stored env Hst Hf Hv Hp _ _ _ wall_at source user fuel 0
    (scan_init config) _ _ (evidence_init _ _ _ _ _) Hl r eq_refl Hm) as (m & Hle & Hpm).
  by exists m.
Qed.

(** An attempt ends: if the clock advances by at least [delta] per iteration, it ends
    within [timeout_secs / delta + 1] iterations, and more fuel never changes how. *)
Theorem attempt_terminates `{NanEncoding} `{Subtle} caps models config user source wall_at
    stored cancel0 start armed env delta :
  0 < delta → 0 ≤ timeout_secs (recognition config) →
  (∀ k, armed + Z.of_nat k * delta ≤ t_loop (env k)) →
  ∃ e, ∀ fuel, (Z.to_nat (nanos (timeout_secs (recognition config)) / delta + 1) < fuel)%nat →
    authenticate_with_embeddings caps models config user source wall_at stored cancel0 start armed env fuel
      = Some e.
Proof.
  intros Hd Ht Hclk. unfold authenticate_with_embeddings.
  destruct cancel0; [by eexists; intros fuel _|].
  destruct (bool_decide _); [by eexists; intros fuel _|].
  set (T := nanos _). set (j := Z.to_nat (T / delta + 1)).
  assert (HT : 0 ≤ T) by (unfold T, nanos; lia).
  assert (Hj : armed + T ≤ t_loop (env (0 + j)%nat)).
  { etrans; [|apply Hclk]. unfold j. cbn. rewrite Z2Nat.id by (pose proof (Z.div_pos T delta HT Hd); lia).
    pose proof (Z.div_mod T delta ltac:(lia)). pose proof (Z.mod_pos_bound T delta Hd). nia. }
  destruct (scan_loop_deadline caps models config user source wall_at
    (compare_set_of caps models config stored) start (armed + T)
    ((λ d, start + nanos d) <$> effective_no_face_timeout (recognition config)) env j 0
    (scan_init config) Hj) as [e He].
  exists e. intros fuel Hfuel. eapply scan_loop_more; [|exact He]. lia.
Qed.

(** A cancelled attempt stops at once: when the flag is set at iteration [c], the attempt
    ends there at the latest, whatever the camera would deliver later; if it had not ended
    and the deadline had not passed, the outcome is a cancellation, never a match result. *)
Theorem cancellation_ends_attempt `{NanEncoding} `{Subtle} caps models config user source wall_at
    stored start armed env c :
  t_cancelled (env c) = true →
  let attempt := authenticate_with_embeddings caps models config user source wall_at stored false
    start armed env in
  (∃ e, ∀ fuel, (c < fuel)%nat → attempt fuel = Some e) ∧
  (attempt c = None → t_loop (env c) < armed + nanos (timeout_secs (recognition config)) →
   ∃ es, attempt (S c) = Some (Finished Cancelled es)).
Proof.
  intros Hc attempt. unfold attempt, authenticate_with_embeddings.
  destruct (bool_decide _); [by split; [eexists; intros fuel _|]|].
  destruct (scan_loop_cancel caps models config user source wall_at
    (compare_set_of caps models config stored) start
    (armed + nanos (timeout_secs (recognition config)))
    ((λ d, start + nanos d) <$> effective_no_face_timeout (recognition config)) env c 0
    (scan_init config) Hc) as [[e He] Hcan].
  split; [|exact Hcan]. exists e. intros fuel Hfuel. eapply scan_loop_more; [|exact He]. lia.
Qed.

(** Every attempt that ends leaves exactly one audit entry, for its user and source,
    whose result field says what happened: [success] for a match and only for a match,
    [failure] for a non-match, [cancelled] for an abandoned attempt, the class's label for a
    rejection. *)
Theorem attempt_is_audited_once `{NanEncoding} `{Subtle} caps models config user source wall_at
    stored cancel0 start armed env fuel o es :
  authenticate_with_embeddings caps models config user source wall_at stored cancel0 start armed env fuel
    = Some (Finished o es) →
  audited user source o es.
Proof.
  unfold authenticate_with_embeddings. destruct cancel0; [by intros [= <- <-]; eexists|].
  destruct (bool_decide _); [by intros [= <- <-]; eexists|]. apply scan_loop_audited.
Qed.

(** ** A concrete attempt: three frames, two of them apart, match a legacy template. *)
Definition rgb_camera : CameraCaps :=
  {| is_ir := false; fingerprint := fingerprint_default; applied_quirks := [];
     ir_texture_scale := NotY16 |}.

Definition example_model : FaceModelInfo :=
  {| model_id := 7; model_user := "alice"; model_label := "default"; created_at := 0;
     embedder_model := "m"; device_id := None; key_id := None |}.

Definition example_detection : Detection :=
  {| bbox := {| bbox_x := f32_zero; bbox_y := f32_zero; bbox_width := f32_one; bbox_height := f32_one |};
     confidence := f32_one; landmarks := [] |}.

Definition example_tick (k : nat) (e : FaceEmbedding) (cancel : bool) : Tick :=
  {| t_loop := nanos (Z.of_nat k); t_cancelled := cancel; t_no_face := nanos (Z.of_nat k);
     t_capture := Ok {| rgb := []; gray := [128]; width := 1; height := 1 |};
     t_faces := Ok [(example_detection, e)]; t_done := nanos (Z.of_nat k) |}.

Definition example_env (k : nat) : Tick :=
  example_tick k (if Nat.even k then [f32_one; f32_zero] else [f32_lit 9 10; f32_lit 3 10]) false.

Definition example_stored : list (Z * FaceEmbedding) := [(7, [f32_one; f32_zero])].

Definition example_attempt (env : nat → Tick) : nat → option ScanEnd :=
  authenticate_with_embeddings (H := nan_x86) (H0 := subtle_reference) rgb_camera [example_model]
    config_default "alice" SourceTest (λ _, Some 0) example_stored false 0 0 env.

Definition example_match : MatchResult :=
  {| matched := true; mr_model_id := Some 7; mr_label := Some "default"; similarity := f32_one;
     face_detected := true; failure_reason := None |}.

Definition example_end : ScanEnd :=
  Finished (AuthResult example_match)
    [WriteAudit (entry config_default "alice" SourceTest (λ _, Some 0) (nanos 2) "success"
       (Some f32_one) 3 2000 (Some "default") None)].

Lemma example_succeeds : example_attempt example_env 5 = Some example_end.
Proof. vm_compute. reflexivity. Qed.

Lemma example_faces_valid k faces : t_faces (example_env k) = Ok faces →
  Forall (λ f, Forall f32_valid f.2) faces.
Proof. unfold example_env. destruct (Nat.even k); intros [= <-]; repeat constructor. Qed.

Lemma auth_success_is_proved_witness :
  ∃ m, (m ≤ 5)%nat ∧ proved_match (H := nan_x86) (H0 := subtle_reference) rgb_camera [example_model]
    config_default example_stored example_env m example_match.
Proof.
  refine (auth_success_is_proved (H := nan_x86) (H0 := subtle_reference) rgb_camera [example_model]
    config_default "alice" SourceTest (λ _, Some 0) example_stored false 0 0 example_env 5
    example_match _ _ example_faces_valid _ _ example_succeeds eq_refl).
  - repeat constructor; cbn; done.
  - vm_compute. reflexivity.
  - vm_compute. reflexivity.
Defined.

Lemma attempt_terminates_witness :
  ∃ e, ∀ fuel, (6 < fuel)%nat → example_attempt example_env fuel = Some e.
Proof.
  refine (attempt_terminates (H := nan_x86) (H0 := subtle_reference) rgb_camera [example_model]
    config_default "alice" SourceTest (λ _, Some 0) example_stored false 0 0 example_env (10 ^ 9)
    _ _ _); [lia|cbn; lia|]. intros k. cbn. unfold nanos. lia.
Defined.

Lemma cancellation_ends_attempt_witness :
  let env k := example_tick k [f32_one; f32_zero] (2 <=? k)%nat in
  ∃ e, ∀ fuel, (2 < fuel)%nat → example_attempt env fuel = Some e.
Proof.
  intros env.
  exact (proj1 (cancellation_ends_attempt (H := nan_x86) (H0 := subtle_reference) rgb_camera
    [example_model] config_default "alice" SourceTest (λ _, Some 0) example_stored 0 0 env 2 eq_refl)).
Defined.

Lemma attempt_is_audited_once_witness :
  audited "alice" SourceTest (AuthResult example_match)
    [WriteAudit (entry config_default "alice" SourceTest (λ _, Some 0) (nanos 2) "success"
       (Some f32_one) 3 2000 (Some "default") None)].
Proof.
  exact (attempt_is_audited_once (H := nan_x86) (H0 := subtle_reference) rgb_camera [example_model]
    config_default "alice" SourceTest (λ _, Some 0) example_stored false 0 0 example_env 5 _ _
    example_succeeds).
Defined.

#[local] Instance show_sqlite_plain : ShowSqlite := λ _, "sqlite error".

Definition enrolled_store : FaceStore :=
  {| store_path := ":memory:";
     db := {| face_models := [{| m_id := 7; m_user := "alice"; m_label := "default";
                m_created_at := 0; m_embedder_model := "m"; m_device_id := None; m_key_id := None |}];
              face_embeddings := []; rate_limit_rows := []; model_seq := 7; embedding_seq := 0 |};
     saved := None; faults := λ _, None; tick := 0 |}.

Lemma lid_gate_fails_closed_witness :
  let host := {| env_var := λ _, None; procfs_lid := LidIsOpen; wall := Some 0 |} in
  let ir := {| is_ir := true; fingerprint := fingerprint_default; applied_quirks := [];
               ir_texture_scale := NotY16 |} in
  procfs_lid host = LidIsOpen.
Proof.
  intros host ir.
  apply (lid_gate_fails_closed host config_default "alice"
    {| max_failures := 5; limiter_window_secs := 60 |} ir enrolled_store eq_refl Unavailable).
  vm_compute. reflexivity.
Defined.

(** A threshold of [0.0] passes validation and accepts a face that no template was compared
    with: with an empty compare set the best similarity is [0.0]. *)
Definition zero_threshold_config : Config := {|
  device := device_default;
  recognition := {| threshold := f32_zero; timeout_secs := 5; no_face_timeout_secs := 2;
    detection_confidence := f32_lit 5 10; nms_threshold := f32_lit 4 10;
    detector_model := "d"; detector_sha256 := None; rec_embedder_model := "e";
    embedder_sha256 := None; execution_provider := "cpu"; threads := 4 |};
  daemon := daemon_default; storage := storage_default; security := security_default;
  notification := notification_default; snapshots := snapshots_default; tpm := tpm_default;
  encryption := encryption_default; audit := audit_default; polkit := polkit_default;
  pam := pam_default |}.

Lemma zero_threshold_accepts_strangers `{ShowF32} :
  validate zero_threshold_config = Ok tt ∧
  ∃ r es, authenticate_with_embeddings (H := nan_x86) (H0 := subtle_reference) rgb_camera []
      zero_threshold_config "alice" SourceTest (λ _, Some 0) [] false 0 0 example_env 5
    = Some (Finished (AuthResult r) es) ∧ matched r = true ∧ mr_model_id r = None.
Proof.
  split; [vm_compute; reflexivity|].
  eexists _, _. split; [vm_compute; reflexivity|]. by split.
Qed.
