(* ===== verification/Pam.v ===== *)
(** * The PAM module ([crates/pam-facelock/src/lib.rs], [oneshot_exit.rs])

    Everything [pam_sm_authenticate] decides: the trusted configuration, the local gates, the
    call to the daemon pinned to a root-owned bus name, the one-shot child and its termination,
    and the mapping of every answer onto a PAM code. The bus, the filesystem, the child process
    and the clock are what the functions read from their environment. *)

From S2P Require Import Prelude Float32 Types DeviceBinding Config Gates Auth.

Definition PAM_SUCCESS : Z := 0.
Definition PAM_AUTH_ERR : Z := 7.
Definition PAM_AUTHINFO_UNAVAIL : Z := 9.
Definition PAM_IGNORE : Z := 25.

Definition DEFAULT_CONFIG_PATH : list string := ["etc"; "facelock"; "config.toml"].
Definition DEFAULT_TIMEOUT_SECS : Z := 5.
Definition AUTH_BIN : string := "/usr/bin/facelock".
Definition DBUS_BUS_NAME : string := "org.facelock.Daemon".

(** ** Configuration *)
Inductive PamNotificationMode := PamOff | PamTerminal | PamDesktop | PamBoth.

Record PamPolicyConfig := { allowed_services : list string; denied_services : list string }.

Record PamSecurityConfig := {
  pam_disabled : bool;
  pam_abort_if_ssh : bool;
  pam_abort_if_lid_closed : bool;
  pam_suppress_unknown : bool;
  pam_policy : option PamPolicyConfig;
}.

Record PamNotificationConfig := {
  pam_mode : PamNotificationMode;
  pam_notify_prompt : NotificationPolicy;
  pam_notify_on_success : NotificationPolicy;
  pam_notify_on_failure : NotificationPolicy;
}.

Record PamConfig := {
  pam_daemon_mode : string;
  pam_security : PamSecurityConfig;
  pam_timeout_secs : Z;
  pam_notification : PamNotificationConfig;
}.

Definition pam_security_default : PamSecurityConfig :=
  {| pam_disabled := false; pam_abort_if_ssh := true; pam_abort_if_lid_closed := true;
     pam_suppress_unknown := false; pam_policy := None |}.

Definition pam_notification_default : PamNotificationConfig :=
  {| pam_mode := PamTerminal; pam_notify_prompt := policy_of_bool true;
     pam_notify_on_success := policy_of_bool true; pam_notify_on_failure := policy_of_bool false |}.

Definition pam_config_default : PamConfig :=
  {| pam_daemon_mode := "daemon"; pam_security := pam_security_default;
     pam_timeout_secs := DEFAULT_TIMEOUT_SECS; pam_notification := pam_notification_default |}.

Definition pam_terminal (n : PamNotificationConfig) : bool :=
  match pam_mode n with PamTerminal | PamBoth => true | _ => false end.

(** ** One-shot exit codes *)
Record OneshotExit := { pam_code : Z; exit_label : option string; exit_warn : bool }.

Definition classify_exit (code : Z) : OneshotExit :=
  if code =? 0 then {| pam_code := PAM_SUCCESS; exit_label := Some "success (oneshot)"; exit_warn := false |}
  else if code =? 1 then {| pam_code := PAM_AUTH_ERR; exit_label := Some "no_match (oneshot)"; exit_warn := false |}
  else if code =? 3 then {| pam_code := PAM_AUTH_ERR; exit_label := Some "rate_limited (oneshot)"; exit_warn := true |}
  else if code =? 4 then {| pam_code := PAM_AUTHINFO_UNAVAIL;
                            exit_label := Some "suppressed (oneshot, no enrolled models)"; exit_warn := false |}
  else if code =? 5 then {| pam_code := PAM_IGNORE; exit_label := Some "all_frames_dark (oneshot)"; exit_warn := true |}
  else {| pam_code := PAM_IGNORE; exit_label := None; exit_warn := true |}.

(** ** Local checks *)

(** Pieces of [s] between the separators [c]. *)
Fixpoint split_on (c : ascii) (cur s : string) : list string :=
  match s with
  | EmptyString => [cur]
  | String a s' =>
      if Ascii.eqb a c then cur :: split_on c "" s' else split_on c (cur +:+ String a "") s'
  end.

Definition nul : ascii := Ascii.ascii_of_nat 0.

(** The bytes of [/proc/self/environ], [None] when it cannot be read. *)
Definition pam_is_ssh_session (environ : option string) : bool :=
  match environ with
  | None => false
  | Some data =>
      existsb (λ var, starts_with "SSH_CONNECTION=" var || starts_with "SSH_TTY=" var)
        (split_on nul "" data)
  end.

Definition pam_silent (flags : Z) : bool := negb (Z.land flags 0x8000 =? 0).

Definition service_denied (policy : option PamPolicyConfig) (service : string) : bool :=
  match policy with
  | None => false
  | Some p =>
      (negb (match allowed_services p with [] => true | _ => false end) &&
       negb (existsb (String.eqb service) (allowed_services p))) ||
      existsb (String.eqb service) (denied_services p)
  end.

(** ** Trusted files *)

(** A path as its components below the root; [stat] of a path is its owner and mode. *)
Definition Path : Type := list string.
Definition show_path (p : Path) : string := "/" +:+ String.concat "/" p.

Record FileStat := { st_uid : Z; st_mode : Z }.

Definition validate_root_owned_nonwritable (s : FileStat) (label : string) : result unit string :=
  if negb (st_uid s =? 0) then Err (label +:+ " must be owned by root")
  else if negb (Z.land (st_mode s) 0x12 =? 0)
  then Err (label +:+ " must not be group- or world-writable")
  else Ok tt.

(** The parent directories of a path, nearest first, ending at the root. *)
Fixpoint ancestors_rev (rev_path : Path) : list Path :=
  match rev_path with
  | [] => []
  | _ :: parent => rev parent :: ancestors_rev parent
  end.
Definition ancestors (p : Path) : list Path := ancestors_rev (rev p).

Record Fs := {
  fs_open : Path → result unit string;
  fs_fstat : Path → result FileStat string;       (* metadata of the opened file *)
  fs_read : Path → result string string;          (* read the opened file to its end *)
  fs_stat : Path → result FileStat string;
  fs_canonicalize : string → result Path string;
}.

Fixpoint check_dirs (fs : Fs) (stat_label dir_label : string) (dirs : list Path) : result unit string :=
  match dirs with
  | [] => Ok tt
  | d :: rest =>
      let? s := map_err (λ e, "failed to stat " +:+ stat_label +:+ " " +:+ show_path d +:+ ": " +:+ e)
                  (fs_stat fs d) in
      let? _ := validate_root_owned_nonwritable s (dir_label +:+ " " +:+ show_path d) in
      check_dirs fs stat_label dir_label rest
  end.

Definition read_trusted_config (fs : Fs) (p : Path) : result string string :=
  let? _ := map_err (λ e, "read config: " +:+ e) (fs_open fs p) in
  let? s := map_err (λ e, "failed to stat config " +:+ show_path p +:+ ": " +:+ e) (fs_fstat fs p) in
  let? _ := validate_root_owned_nonwritable s ("config " +:+ show_path p) in
  let? _ := check_dirs fs "config parent" "config parent dir" (ancestors p) in
  map_err (λ e, "read config: " +:+ e) (fs_read fs p).

(** [toml::from_str] is a parameter. *)
Definition load_config (fs : Fs) (from_toml : string → result PamConfig string) : result PamConfig string :=
  let? content := read_trusted_config fs DEFAULT_CONFIG_PATH in
  map_err (λ e, "parse config: " +:+ e) (from_toml content).

Definition verify_binary_trust (fs : Fs) (p : string) : result Path string :=
  let? canonical := map_err (λ e, "failed to resolve " +:+ p +:+ ": " +:+ e) (fs_canonicalize fs p) in
  let? s := map_err (λ e, "failed to stat " +:+ show_path canonical +:+ ": " +:+ e) (fs_stat fs canonical) in
  let? _ := validate_root_owned_nonwritable s ("auth binary " +:+ show_path canonical) in
  let? _ := check_dirs fs "parent dir" "parent dir" (ancestors canonical) in
  Ok canonical.

(** ** The daemon's answer *)
Inductive AuthResponse :=
  | Matched (sim : f32)
  | NoMatch (sim : f32)
  | NoMatchFaceSeen
  | SuppressedReply
  | ErrorReply (message : string).

Definition parse_auth_reply (reply : bool * Z * string * f64) : AuthResponse :=
  let '(matched, model_id, label, similarity) := reply in
  if matched then Matched (f32_of_f64 similarity)
  else if model_id =? -2 then ErrorReply label
  else if model_id =? -3 then SuppressedReply
  else if model_id =? -4 then NoMatchFaceSeen
  else NoMatch (f32_of_f64 similarity).

Definition pam_code_for_daemon_error (message : string) : Z * string :=
  if str_contains "rate_limit" message || str_contains "rate limited" message
  then (PAM_AUTH_ERR, "rate_limited")
  else if str_contains "IR camera required" message || str_contains "ir_required" message
  then (PAM_IGNORE, "ir_required")
  else if String.eqb message "cancelled" then (PAM_IGNORE, "cancelled")
  else (PAM_IGNORE, "error: internal").

Definition pam_code_for_no_match (face_seen : bool) (sim : f32) : Z :=
  if face_seen then PAM_AUTH_ERR
  else if f32_eq sim f32_zero then PAM_IGNORE else PAM_AUTH_ERR.

(** *** Transport errors *)
Inductive FdoError :=
  | FdoNoReply | FdoTimeout | FdoTimedOut | FdoAccessDenied | FdoUnknownMethod
  | FdoUnknownInterface | FdoOther.

Inductive ZbusError :=
  | InputOutput (timed_out : bool)
  | MethodError (name : string)
  | FDO (e : FdoError)
  | OtherZbus.

(** The [Display] rendering of the bus errors, whose messages the code does not choose. *)
Class ShowBus := { show_zbus : ZbusError → string; show_fdo : FdoError → string }.

Definition is_timeout_fdo_error (e : FdoError) : bool :=
  match e with FdoNoReply | FdoTimeout | FdoTimedOut => true | _ => false end.

Definition is_timeout_zbus_error (e : ZbusError) : bool :=
  match e with
  | InputOutput timed_out => timed_out
  | MethodError name =>
      existsb (String.eqb name)
        ["org.freedesktop.DBus.Error.NoReply"; "org.freedesktop.DBus.Error.Timeout";
         "org.freedesktop.DBus.Error.TimedOut"]
  | FDO e => is_timeout_fdo_error e
  | OtherZbus => false
  end.

Definition DBUS_ACCESS_DENIED : string := "org.freedesktop.DBus.Error.AccessDenied".

Section Transport.
Context `{ShowBus}.

Definition classify_zbus_error (prefix : string) (e : ZbusError) : string :=
  if is_timeout_zbus_error e then "dbus_timeout: " +:+ show_zbus e
  else prefix +:+ ": " +:+ show_zbus e.

Definition classify_fdo_error (prefix : string) (e : FdoError) : string :=
  if is_timeout_fdo_error e then "dbus_timeout: " +:+ show_fdo e
  else prefix +:+ ": " +:+ show_fdo e.

Definition classify_authenticate_error (e : ZbusError) : string :=
  let denied :=
    match e with
    | MethodError name => String.eqb name DBUS_ACCESS_DENIED
    | FDO FdoAccessDenied => true
    | _ => false
    end in
  if denied then "dbus_access_denied: " +:+ show_zbus e
  else classify_zbus_error "dbus_call_failed" e.

Definition is_unknown_method (e : ZbusError) : bool :=
  match e with
  | FDO (FdoUnknownMethod | FdoUnknownInterface) => true
  | MethodError name =>
      existsb (String.eqb name)
        ["org.freedesktop.DBus.Error.UnknownMethod"; "org.freedesktop.DBus.Error.UnknownInterface"]
  | _ => false
  end.

Definition classify_authentication_reply_error (e : ZbusError) (silent : bool) : string :=
  if silent && is_unknown_method e
  then "dbus_access_denied: silent authentication unsupported: " +:+ show_zbus e
  else classify_authenticate_error e.

Inductive TransportErrorAction :=
  | Return (code : Z) (reason : string)
  | FallBackToOneshot.

Definition action_for_transport_error (e : string) : TransportErrorAction :=
  if starts_with "dbus_access_denied" e
  then Return PAM_IGNORE "refused by daemon (caller provenance or authorization)"
  else if str_contains "dbus_timeout" e then Return PAM_AUTH_ERR "timeout"
  else FallBackToOneshot.

(** *** Calling the daemon *)

(** The system bus: the owner of a name before and after activation, the user behind a unique
    name, and the reply of the peer a call is addressed to. *)
Record Bus := {
  bus_connect : result unit string;
  bus_proxy : result unit ZbusError;
  bus_owner : result string FdoError;
  bus_start : result unit FdoError;
  bus_owner_after_start : result string FdoError;
  bus_uid : string → result Z FdoError;
  bus_proxy_to : string → result unit ZbusError;
  bus_call : string → string → string → result (bool * Z * string * f64) ZbusError;
}.

Definition verify_daemon_peer (bus : Bus) : result string string :=
  let? _ := map_err (classify_zbus_error "dbus_proxy_failed") (bus_proxy bus) in
  let? owner :=
    match bus_owner bus with
    | Ok owner => Ok owner
    | Err _ =>
        let? _ := map_err (classify_fdo_error "dbus_connect_failed") (bus_start bus) in
        map_err (classify_fdo_error "dbus_connect_failed") (bus_owner_after_start bus)
    end in
  let? owner_uid := map_err (classify_fdo_error "dbus_call_failed") (bus_uid bus owner) in
  if negb (owner_uid =? 0)
  then Err ("dbus_untrusted_peer: " +:+ DBUS_BUS_NAME +:+ " owned by uid " +:+ show_Z owner_uid +:+
            " (require root)")
  else Ok owner.

Definition daemon_authenticate_async (bus : Bus) (user : string) (silent : bool) :
    result AuthResponse string :=
  let? _ := map_err (λ e, "dbus_connect_failed: " +:+ e) (bus_connect bus) in
  let? daemon_peer := verify_daemon_peer bus in
  let? _ := map_err (classify_zbus_error "dbus_proxy_failed") (bus_proxy_to bus daemon_peer) in
  let? reply := map_err (λ e, classify_authentication_reply_error e silent)
    (bus_call bus daemon_peer (if silent then "AuthenticateSilent" else "Authenticate") user) in
  Ok (parse_auth_reply reply).

(** How the worker thread fares within the overall deadline. *)
Inductive Worker := WorkerSpawnFailed (e : string) | WorkerDelivers | WorkerTimesOut | WorkerDies.

Definition daemon_authenticate (worker : Worker) (bus : Bus) (user : string) (silent : bool) :
    result AuthResponse string :=
  match worker with
  | WorkerSpawnFailed e => Err ("dbus_call_failed: worker thread spawn failed: " +:+ e)
  | WorkerDelivers => daemon_authenticate_async bus user silent
  | WorkerTimesOut => Err "dbus_timeout: connection or method call exceeded overall deadline"
  | WorkerDies => Err "dbus_call_failed: worker thread terminated unexpectedly"
  end.
End Transport.

(** ** The one-shot child *)
Definition oneshot_child_env (parent : list (string * string)) : list (string * string) :=
  List.filter (λ kv, existsb (String.eqb (fst kv)) ["SSH_CONNECTION"; "SSH_TTY"]) parent ++
  [("PATH", "/usr/bin:/bin")].

Definition SIGKILL : Z := 9.
Definition SIGTERM : Z := 15.
Definition ONESHOT_TERM_GRACE : Z := 500.
Definition ONESHOT_KILL_REAP_WAIT : Z := 200.

(** A child process as the termination sequence sees it: whether a signal is accepted, and,
    for the n-th poll, the answer of [try_wait] ([None] for an error) and the clock read
    after it, in milliseconds. *)
Record Terminable := {
  accepts : Z → bool;
  exited : nat → option bool;
  poll_clock : nat → Z;
}.

(** The polling loop: [Some true] when the child exited, [Some false] when the deadline
    passed first, with the number of polls made so far. *)
Fixpoint poll_exit (c : Terminable) (deadline : Z) (fuel n : nat) : option (bool * nat) :=
  match fuel with
  | O => None
  | S fuel' =>
      if unwrap_or false (exited c n) then Some (true, S n)
      else if deadline <=? poll_clock c n then Some (false, S n)
      else poll_exit c deadline fuel' (S n)
  end.

(** The signals sent, and whether the child was collected: by the poll that saw it exit, or by
    the blocking wait after a SIGKILL. *)
Record Termination := { sent : list Z; reaped : bool }.

(** [armed] and [armed_kill] are the clock readings that start the two waits. *)
Definition terminate_oneshot_child (c : Terminable) (grace armed armed_kill : Z) (fuel : nat) :
    option Termination :=
  let sent1 := if accepts c SIGTERM then [SIGTERM] else [] in
  match poll_exit c (armed + grace) fuel 0 with
  | None => None
  | Some (true, _) => Some {| sent := sent1; reaped := true |}
  | Some (false, n) =>
      if accepts c SIGKILL then
        match poll_exit c (armed_kill + ONESHOT_KILL_REAP_WAIT) fuel n with
        | None => None
        | Some _ => Some {| sent := sent1 ++ [SIGKILL]; reaped := true |}
        end
      else Some {| sent := sent1; reaped := false |}
  end.

(** One answer of [Child::try_wait]: an error, still running, or an exit status whose code is
    [None] when a signal killed the child. *)
Inductive WaitAnswer := WaitError (e : string) | StillRunning | Exited (code : option Z).

Record Child := {
  spawn : Path → list string → list (string * string) → result unit string;  (* binary, arguments, environment *)
  try_wait : nat → WaitAnswer;
  wait_clock : nat → Z;         (* seconds *)
  overrun : Terminable;         (* the child once its deadline has passed *)
  term_armed : Z;
  kill_armed : Z;
}.

(** The code a one-shot attempt returns, and how its child was stopped when it overran.
    [None]: nothing is decided within [fuel] polls. *)
Definition OneshotResult : Type := Z * option Termination.

Fixpoint oneshot_wait (ch : Child) (deadline : Z) (fuel n : nat) : option OneshotResult :=
  match fuel with
  | O => None
  | S fuel' =>
      match try_wait ch n with
      | Exited code => Some (pam_code (classify_exit (unwrap_or 2 code)), None)
      | StillRunning =>
          if deadline <=? wait_clock ch n then
            match terminate_oneshot_child (overrun ch) ONESHOT_TERM_GRACE (term_armed ch)
                    (kill_armed ch) fuel with
            | None => None
            | Some t => Some (PAM_AUTH_ERR, Some t)
            end
          else oneshot_wait ch deadline fuel' (S n)
      | WaitError _ => Some (PAM_IGNORE, None)
      end
  end.

Definition oneshot_args (user : string) : list string :=
  ["auth"; "--user"; user; "--config"; show_path DEFAULT_CONFIG_PATH].

Definition run_oneshot_auth (fs : Fs) (parent_env : list (string * string)) (ch : Child) (armed : Z)
    (user : string) (config : PamConfig) (fuel : nat) : option OneshotResult :=
  match verify_binary_trust fs AUTH_BIN with
  | Err _ => Some (PAM_IGNORE, None)
  | Ok auth_bin =>
      match spawn ch auth_bin (oneshot_args user) (oneshot_child_env parent_env) with
      | Err _ => Some (PAM_IGNORE, None)
      | Ok _ => oneshot_wait ch (armed + (pam_timeout_secs config + 3)) fuel 0
      end
  end.

(** ** The entry point *)

(** Everything [identify] reads. *)
Record World := {
  w_service : option string;
  w_user : option string;
  w_fs : Fs;
  w_toml : string → result PamConfig string;
  w_environ : option string;
  w_lid : option (list (option string));
  w_env : list (string * string);
  w_worker : Worker;
  w_bus : Bus;
  w_child : Child;
  w_armed : Z;
}.

(** The daemon-mode match of [identify]; [oneshot] is the fallback. *)
Definition answer_daemon (r : result AuthResponse string) (oneshot : option Z) : option Z :=
  match r with
  | Ok (Matched _) => Some PAM_SUCCESS
  | Ok NoMatchFaceSeen => Some (pam_code_for_no_match true f32_zero)
  | Ok (NoMatch sim) => Some (pam_code_for_no_match false sim)
  | Ok SuppressedReply => Some PAM_AUTHINFO_UNAVAIL
  | Ok (ErrorReply message) => Some (fst (pam_code_for_daemon_error message))
  | Err e =>
      match action_for_transport_error e with
      | Return code _ => Some code
      | FallBackToOneshot => oneshot
      end
  end.

(** The pre-flight checks of [identify]. *)
Definition gates_refuse (w : World) (config : PamConfig) : bool :=
  let sec := pam_security config in
  pam_disabled sec ||
  (pam_abort_if_ssh sec && pam_is_ssh_session (w_environ w)) ||
  (pam_abort_if_lid_closed sec && is_lid_closed_under (w_lid w)) ||
  service_denied (pam_policy sec) (unwrap_or "unknown" (w_service w)).

Section Identify.
Context `{ShowBus}.

Definition identify (w : World) (flags : Z) (fuel : nat) : option Z :=
  match load_config (w_fs w) (w_toml w) with
  | Err _ => Some PAM_IGNORE
  | Ok config =>
      if gates_refuse w config then Some PAM_IGNORE
      else
        match w_user w with
        | None => Some PAM_IGNORE
        | Some user =>
            let oneshot := fst <$> run_oneshot_auth (w_fs w) (w_env w) (w_child w) (w_armed w) user config fuel in
            if String.eqb (pam_daemon_mode config) "oneshot" then oneshot
            else answer_daemon
                   (daemon_authenticate (w_worker w) (w_bus w) user (pam_silent flags)) oneshot
        end
  end.

(** [panicked]: an unwind out of [identify], which the FFI boundary catches. *)
Definition pam_sm_authenticate (w : World) (flags : Z) (panicked : bool) (fuel : nat) : option Z :=
  if panicked then Some PAM_IGNORE else identify w flags fuel.
End Identify.

Definition pam_sm_setcred : Z := PAM_SUCCESS.

(** ** Properties *)

(** *** Trusted files *)
Definition trusted (s : FileStat) : Prop := st_uid s = 0 ∧ Z.land (st_mode s) 0x12 = 0.

Lemma validate_trusted s label : validate_root_owned_nonwritable s label = Ok tt ↔ trusted s.
Proof.
  unfold validate_root_owned_nonwritable, trusted.
  destruct (Z.eqb_spec (st_uid s) 0), (Z.eqb_spec (Z.land (st_mode s) 0x12) 0); cbn; split; try done; by intros [? ?].
Qed.

Lemma ancestors_rev_spec rp d : d ∈ ancestors_rev rp ↔ ∃ rest, rest ≠ [] ∧ rev rp = d ++ rest.
Proof.
  induction rp as [|x rp IH]; cbn.
  - split; [by intros ?%not_elem_of_nil|]. intros (rest & Hr & Heq). by destruct d, rest.
  - rewrite elem_of_cons, IH. split.
    + intros [->|(rest & Hr & ->)]; [by exists [x]|]. exists (rest ++ [x]).
      split; [by destruct rest|]. by rewrite app_assoc.
    + intros (rest & Hr & Heq). destruct rest as [|y rest _] using rev_ind; [done|].
      rewrite app_assoc in Heq. apply app_inj_tail in Heq as [Heq ->].
      destruct rest as [|z rest]; [left; by rewrite app_nil_r in Heq|right].
      by exists (z :: rest).
Qed.

(** The ancestors of a path are its proper prefixes. *)
Lemma elem_of_ancestors p d : d ∈ ancestors p ↔ ∃ rest, rest ≠ [] ∧ p = d ++ rest.
Proof. unfold ancestors. rewrite ancestors_rev_spec, rev_involutive. done. Qed.

Lemma check_dirs_ok fs l1 l2 dirs : check_dirs fs l1 l2 dirs = Ok tt →
  ∀ d, d ∈ dirs → ∃ s, fs_stat fs d = Ok s ∧ trusted s.
Proof.
  induction dirs as [|x dirs IH]; cbn; intros Hc d Hd; [by apply not_elem_of_nil in Hd|].
  destruct (fs_stat fs x) as [s|e] eqn:Es; cbn in Hc; [|done].
  destruct (validate_root_owned_nonwritable s _) as [[]|e] eqn:Ev; [|done].
  apply validate_trusted in Ev. apply elem_of_cons in Hd as [->|Hd]; [by exists s|]. by apply IH.
Qed.

(** A directory chain with no place for another user to swap a file. *)
Definition trusted_chain (fs : Fs) (p : Path) : Prop :=
  ∀ d rest, rest ≠ [] → p = d ++ rest → ∃ s, fs_stat fs d = Ok s ∧ trusted s.

Lemma check_dirs_chain fs l1 l2 p : check_dirs fs l1 l2 (ancestors p) = Ok tt → trusted_chain fs p.
Proof.
  intros Hc d rest Hr Hp. eapply check_dirs_ok; [done|]. apply elem_of_ancestors. by exists rest.
Qed.

Lemma read_trusted_config_ok fs p content : read_trusted_config fs p = Ok content →
  (∃ s, fs_fstat fs p = Ok s ∧ trusted s) ∧ trusted_chain fs p ∧ fs_read fs p = Ok content.
Proof.
  unfold read_trusted_config. destruct (fs_open fs p) as [[]|e]; cbn; [|done].
  destruct (fs_fstat fs p) as [s|e]; cbn; [|done].
  destruct (validate_root_owned_nonwritable s _) as [[]|e] eqn:Ev; [|done].
  destruct (check_dirs _ _ _ _) as [[]|e] eqn:Ec; [|done].
  destruct (fs_read fs p) as [c|e]; cbn; [|done]. intros [= <-]. apply validate_trusted in Ev.
  split_and!; [by exists s|by eapply check_dirs_chain|done].
Qed.

Lemma verify_binary_trust_ok fs p bin : verify_binary_trust fs p = Ok bin →
  fs_canonicalize fs p = Ok bin ∧ (∃ s, fs_stat fs bin = Ok s ∧ trusted s) ∧ trusted_chain fs bin.
Proof.
  unfold verify_binary_trust. destruct (fs_canonicalize fs p) as [c|e]; cbn; [|done].
  destruct (fs_stat fs c) as [s|e] eqn:Es; cbn; [|done].
  destruct (validate_root_owned_nonwritable s _) as [[]|e] eqn:Ev; [|done].
  destruct (check_dirs _ _ _ _) as [[]|e] eqn:Ec; [|done]. intros [= <-].
  apply validate_trusted in Ev. split_and!; [done|by exists s|by eapply check_dirs_chain].
Qed.

(** *** The child *)
Lemma classify_exit_success code : pam_code (classify_exit code) = PAM_SUCCESS → code = 0.
Proof.
  unfold classify_exit. destruct (Z.eqb_spec code 0); [done|].
  destruct (code =? 1), (code =? 3), (code =? 4), (code =? 5); done.
Qed.

Lemma oneshot_wait_success ch deadline fuel n t :
  oneshot_wait ch deadline fuel n = Some (PAM_SUCCESS, t) → ∃ k, try_wait ch k = Exited (Some 0).
Proof.
  revert n. induction fuel as [|fuel IH]; intros n; [done|]. cbn [oneshot_wait].
  destruct (try_wait ch n) as [e| |code] eqn:Ew; [done| |].
  - destruct (_ <=? _); [|apply IH]. by destruct (terminate_oneshot_child _ _ _ _ _).
  - intros Hc. exists n. injection Hc as Hc _. apply classify_exit_success in Hc.
    rewrite Ew. destruct code; cbn in Hc; congruence.
Qed.

(** *** The daemon peer *)
Lemma verify_daemon_peer_ok `{ShowBus} bus owner : verify_daemon_peer bus = Ok owner →
  bus_uid bus owner = Ok 0 ∧
  (bus_owner bus = Ok owner ∨ bus_owner_after_start bus = Ok owner).
Proof.
  unfold verify_daemon_peer. destruct (bus_proxy bus); cbn; [|done].
  assert (Hown : ∀ o, (match bus_owner bus with Ok owner => Ok owner | Err _ =>
      let? _ := map_err (classify_fdo_error "dbus_connect_failed") (bus_start bus) in
      map_err (classify_fdo_error "dbus_connect_failed") (bus_owner_after_start bus) end) = Ok o →
      bus_owner bus = Ok o ∨ bus_owner_after_start bus = Ok o).
  { intros o. destruct (bus_owner bus); [intros [= ->]; by left|].
    destruct (bus_start bus); cbn; [|done]. destruct (bus_owner_after_start bus); cbn; [|done].
    intros [= ->]. by right. }
  destruct (match bus_owner bus with Ok _ => _ | Err _ => _ end) as [o|e]; [|done].
  specialize (Hown o eq_refl).
  destruct (bus_uid bus o) as [uid|e] eqn:Eu; cbn; [|done].
  destruct (Z.eqb_spec uid 0) as [->|]; cbn; [|done]. by intros [= <-].
Qed.

(** A match reported by the root-owned daemon peer the call was pinned to. *)
Definition daemon_says_match (w : World) (user : string) (silent : bool) : Prop :=
  ∃ owner model_id label sim,
    w_worker w = WorkerDelivers ∧ bus_uid (w_bus w) owner = Ok 0 ∧
    (bus_owner (w_bus w) = Ok owner ∨ bus_owner_after_start (w_bus w) = Ok owner) ∧
    bus_call (w_bus w) owner (if silent then "AuthenticateSilent" else "Authenticate") user
      = Ok (true, model_id, label, sim).

Lemma daemon_authenticate_matched `{ShowBus} w user silent sim :
  daemon_authenticate (w_worker w) (w_bus w) user silent = Ok (Matched sim) →
  daemon_says_match w user silent.
Proof.
  unfold daemon_authenticate, daemon_says_match. destruct (w_worker w); [done| |done|done].
  unfold daemon_authenticate_async. destruct (bus_connect (w_bus w)); cbn; [|done].
  destruct (verify_daemon_peer (w_bus w)) as [owner|e] eqn:Ev; [|done].
  destruct (bus_proxy_to (w_bus w) owner); cbn; [|done].
  destruct (bus_call _ _ _ _) as [[[[m i] l] s]|e] eqn:Ec; cbn; [|done].
  intros [= Hp]. destruct m.
  - apply verify_daemon_peer_ok in Ev as [? ?]. by exists owner, i, l, s.
  - by destruct (i =? -2), (i =? -3), (i =? -4).
Qed.

(** The one-shot binary at a trusted path, started with the sanitized environment, exited 0. *)
Definition oneshot_says_match (w : World) (user : string) : Prop :=
  ∃ bin k, fs_canonicalize (w_fs w) AUTH_BIN = Ok bin ∧
    (∃ s, fs_stat (w_fs w) bin = Ok s ∧ trusted s) ∧ trusted_chain (w_fs w) bin ∧
    spawn (w_child w) bin (oneshot_args user) (oneshot_child_env (w_env w)) = Ok tt ∧
    try_wait (w_child w) k = Exited (Some 0).

Lemma run_oneshot_success w user config fuel t :
  run_oneshot_auth (w_fs w) (w_env w) (w_child w) (w_armed w) user config fuel = Some (PAM_SUCCESS, t) →
  oneshot_says_match w user.
Proof.
  unfold run_oneshot_auth. destruct (verify_binary_trust _ _) as [bin|e] eqn:Ev; [|done].
  destruct (spawn _ _ _ _) as [[]|e] eqn:Es; [|done]. intros [k Hk]%oneshot_wait_success.
  apply verify_binary_trust_ok in Ev as (? & ? & ?). by exists bin, k.
Qed.

Lemma pam_codes_differ : PAM_SUCCESS ≠ PAM_IGNORE ∧ PAM_SUCCESS ≠ PAM_AUTH_ERR ∧
  PAM_SUCCESS ≠ PAM_AUTHINFO_UNAVAIL.
Proof. done. Qed.

Lemma pam_code_for_no_match_fails face_seen sim :
  pam_code_for_no_match face_seen sim = PAM_AUTH_ERR ∨ pam_code_for_no_match face_seen sim = PAM_IGNORE.
Proof. unfold pam_code_for_no_match. destruct face_seen, (f32_eq sim f32_zero); auto. Qed.

Lemma pam_code_for_daemon_error_fails message :
  fst (pam_code_for_daemon_error message) = PAM_AUTH_ERR ∨
  fst (pam_code_for_daemon_error message) = PAM_IGNORE.
Proof.
  unfold pam_code_for_daemon_error. destruct (_ || _); [by left|].
  destruct (_ || _); [by right|]. destruct (String.eqb _ _); by right.
Qed.

Lemma action_for_transport_error_fails e code reason :
  action_for_transport_error e = Return code reason → code = PAM_AUTH_ERR ∨ code = PAM_IGNORE.
Proof.
  unfold action_for_transport_error. destruct (starts_with _ e); [intros [= <- _]; by right|].
  destruct (str_contains _ e); [intros [= <- _]; by left|done].
Qed.

Lemma answer_daemon_success r oneshot : answer_daemon r oneshot = Some PAM_SUCCESS →
  (∃ sim, r = Ok (Matched sim)) ∨
  (∃ e, r = Err e ∧ action_for_transport_error e = FallBackToOneshot ∧ oneshot = Some PAM_SUCCESS).
Proof.
  destruct r as [[sim|sim| | |msg]|e]; cbn [answer_daemon].
  - intros _. left. by exists sim.
  - destruct (pam_code_for_no_match_fails false sim) as [->| ->]; done.
  - done.
  - done.
  - destruct (pam_code_for_daemon_error_fails msg) as [->| ->]; done.
  - destruct (action_for_transport_error e) as [code reason|] eqn:Ea.
    + destruct (action_for_transport_error_fails _ _ _ Ea) as [->| ->]; done.
    + intros ->. right. by exists e.
Qed.

(** C3.  The module reports success only on proof: [pam_sm_authenticate] returns
    [PAM_SUCCESS] only when its configuration came from a root-owned file that no other user
    can write or swap, every local gate passed, and either the bus peer the call was pinned
    to runs as root and replied with a match, or the one-shot binary, at a path with the same
    trust and started with the sanitized environment, exited with code 0; the one-shot binary
    is started for the same user, and only in one-shot mode or when the daemon could not be reached. *)
Theorem pam_success_is_proved `{ShowBus} w flags panicked fuel :
  pam_sm_authenticate w flags panicked fuel = Some PAM_SUCCESS →
  ∃ config user content,
    (∃ s, fs_fstat (w_fs w) DEFAULT_CONFIG_PATH = Ok s ∧ trusted s) ∧
    trusted_chain (w_fs w) DEFAULT_CONFIG_PATH ∧
    fs_read (w_fs w) DEFAULT_CONFIG_PATH = Ok content ∧ w_toml w content = Ok config ∧
    w_user w = Some user ∧ pam_disabled (pam_security config) = false ∧
    (pam_abort_if_ssh (pam_security config) = true → pam_is_ssh_session (w_environ w) = false) ∧
    (pam_abort_if_lid_closed (pam_security config) = true → is_lid_closed_under (w_lid w) = false) ∧
    service_denied (pam_policy (pam_security config)) (unwrap_or "unknown" (w_service w)) = false ∧
    (daemon_says_match w user (pam_silent flags) ∨
     oneshot_says_match w user ∧
       (pam_daemon_mode config = "oneshot" ∨
        ∃ e, daemon_authenticate (w_worker w) (w_bus w) user (pam_silent flags) = Err e ∧
             action_for_transport_error e = FallBackToOneshot)).
Proof.
  unfold pam_sm_authenticate. destruct panicked; [done|]. unfold identify, load_config.
  destruct (read_trusted_config _ _) as [content|e] eqn:Er; [|done].
  destruct (w_toml w content) as [config|e] eqn:Et; cbn [map_err]; [|done].
  destruct (gates_refuse w config) eqn:Eg; [done|]. destruct (w_user w) as [user|] eqn:Eu; [|done].
  intros Hres. exists config, user, content.
  apply read_trusted_config_ok in Er as (Hf & Hc & Hr). unfold gates_refuse in Eg. bsplit.
  split_and!; try done.
  { intros Ha. by match goal with H : pam_abort_if_ssh _ && _ = false |- _ => rewrite Ha in H end. }
  { intros Ha. by match goal with H : pam_abort_if_lid_closed _ && _ = false |- _ => rewrite Ha in H end. }
  assert (Hone : ∀ x, fst <$> run_oneshot_auth (w_fs w) (w_env w) (w_child w) (w_armed w) user config fuel
      = Some x → x = PAM_SUCCESS → oneshot_says_match w user).
  { intros x Hx ->. destruct (run_oneshot_auth _ _ _ _ _ _ _) as [[c t]|] eqn:Eo; [|done].
    injection Hx as ->. by eapply run_oneshot_success. }
  destruct (String.eqb_spec (pam_daemon_mode config) "oneshot") as [Hm|Hm].
  { right. split; [by eapply Hone|by left]. }
  destruct (answer_daemon_success _ _ Hres) as [(sim & Hd)|(e & Hd & Ha & Ho)].
  - left. by eapply daemon_authenticate_matched.
  - right. split; [by eapply Hone|]. right. by exists e.
Qed.

(** *** Replies that settle the attempt *)
Definition settled (r : result (bool * Z * string * f64) ZbusError) : Prop :=
  match r with
  | Ok (m, _, _, _) => m = false
  | Err e => e = MethodError DBUS_ACCESS_DENIED ∨ e = FDO FdoAccessDenied ∨
             is_timeout_zbus_error e = true
  end.

Lemma refused_or_timeout_returns `{ShowBus} e silent : settled (Err e) →
  ∃ code reason, code ≠ PAM_SUCCESS ∧
    action_for_transport_error (classify_authentication_reply_error e silent) = Return code reason.
Proof.
  intros Hs. unfold classify_authentication_reply_error.
  destruct (_ && _); [by exists PAM_IGNORE; eexists|]. unfold classify_authenticate_error.
  destruct Hs as [->|[->|Ht]]; [by exists PAM_IGNORE; eexists..|].
  destruct (match e with MethodError _ => _ | FDO _ => _ | _ => _ end);
    [by exists PAM_IGNORE; eexists|].
  unfold classify_zbus_error. rewrite Ht. exists PAM_AUTH_ERR. eexists. split; [done|].
  unfold action_for_transport_error.
  change (starts_with "dbus_access_denied" ("dbus_timeout: " +:+ show_zbus e)) with false.
  rewrite str_contains_app_l by reflexivity. reflexivity.
Qed.

Lemma settled_answer `{ShowBus} bus user (silent : bool) owner r :
  bus_connect bus = Ok tt → verify_daemon_peer bus = Ok owner → bus_proxy_to bus owner = Ok tt →
  bus_call bus owner (if silent then "AuthenticateSilent" else "Authenticate") user = r →
  settled r →
  ∃ code, code ≠ PAM_SUCCESS ∧
    ∀ oneshot, answer_daemon (daemon_authenticate WorkerDelivers bus user silent) oneshot = Some code.
Proof.
  intros Hc Hv Hp Hr Hs. unfold daemon_authenticate, daemon_authenticate_async.
  rewrite Hc, Hv. cbn [map_err]. rewrite Hp. cbn [map_err]. rewrite Hr.
  destruct r as [[[[m i] l] s]|e]; cbn [map_err].
  - cbn in Hs. subst m. unfold parse_auth_reply.
    destruct (i =? -2); [|destruct (i =? -3); [|destruct (i =? -4)]]; cbn [answer_daemon].
    + exists (fst (pam_code_for_daemon_error l)). split; [|done].
      by destruct (pam_code_for_daemon_error_fails l) as [->| ->].
    + by exists PAM_AUTHINFO_UNAVAIL.
    + by exists PAM_AUTH_ERR.
    + exists (pam_code_for_no_match false (f32_of_f64 s)). split; [|done].
      by destruct (pam_code_for_no_match_fails false (f32_of_f64 s)) as [->| ->].
  - destruct (refused_or_timeout_returns e silent Hs) as (code & reason & Hne & Ha).
    exists code. split; [done|]. intros oneshot. cbn [answer_daemon]. by rewrite Ha.
Qed.

(** The same world with another child, another environment to give it, another filesystem
    clock. *)
Definition with_child (w : World) (child : Child) (env : list (string * string)) (armed : Z) : World :=
  {| w_service := w_service w; w_user := w_user w; w_fs := w_fs w; w_toml := w_toml w;
     w_environ := w_environ w; w_lid := w_lid w; w_env := env; w_worker := w_worker w;
     w_bus := w_bus w; w_child := child; w_armed := armed |}.

(** A daemon that answered is never bypassed: when the daemon refused the caller, or its
    call timed out, or it replied with anything that is not a match, the module's answer is
    not a success and is the same whatever the one-shot child would do. *)
Theorem daemon_answer_is_final `{ShowBus} w flags fuel config owner :
  load_config (w_fs w) (w_toml w) = Ok config → pam_daemon_mode config ≠ "oneshot" →
  w_worker w = WorkerDelivers → bus_connect (w_bus w) = Ok tt →
  verify_daemon_peer (w_bus w) = Ok owner → bus_proxy_to (w_bus w) owner = Ok tt →
  (∀ user, settled (bus_call (w_bus w) owner
     (if pam_silent flags then "AuthenticateSilent" else "Authenticate") user)) →
  ∃ code, code ≠ PAM_SUCCESS ∧
    ∀ child env armed, identify (with_child w child env armed) flags fuel = Some code.
Proof.
  intros Hl Hm Hw Hc Hv Hp Hs. unfold identify. cbn [with_child w_fs w_toml w_user w_worker w_bus].
  rewrite Hl, Hw, (proj2 (String.eqb_neq _ _) Hm).
  change (gates_refuse (with_child w _ _ _) config) with (gates_refuse w config).
  destruct (gates_refuse w config); [by exists PAM_IGNORE|].
  destruct (w_user w) as [user|]; [|by exists PAM_IGNORE].
  destruct (settled_answer (w_bus w) user (pam_silent flags) owner _ Hc Hv Hp eq_refl (Hs user))
    as (code & Hne & Ha). exists code. split; [done|]. intros child env armed. apply Ha.
Qed.

(** *** The child's environment and its end *)

(** The one-shot child inherits nothing but what tells it about SSH: every variable of its
    environment is [SSH_CONNECTION] or [SSH_TTY] with the caller's value, or the pinned [PATH],
    which is always there; and what the caller's environment says about SSH reaches it. *)
Lemma oneshot_env_is_sanitized parent k v :
  ((k, v) ∈ oneshot_child_env parent →
   (k = "PATH" ∧ v = "/usr/bin:/bin") ∨
   ((k = "SSH_CONNECTION" ∨ k = "SSH_TTY") ∧ (k, v) ∈ parent)) ∧
  ("PATH", "/usr/bin:/bin") ∈ oneshot_child_env parent ∧
  (k = "SSH_CONNECTION" ∨ k = "SSH_TTY" → (k, v) ∈ parent → (k, v) ∈ oneshot_child_env parent).
Proof.
  unfold oneshot_child_env. split_and!.
  - intros [Hin|Hin]%elem_of_app.
    + right. apply list_elem_of_In, filter_In in Hin as [Hin Hk]. apply list_elem_of_In in Hin.
      split; [|done]. cbn in Hk.
      destruct (String.eqb_spec k "SSH_CONNECTION"); [by left|].
      destruct (String.eqb_spec k "SSH_TTY"); [by right|done].
    + left. apply list_elem_of_singleton in Hin. by injection Hin as -> ->.
  - apply elem_of_app. right. by apply list_elem_of_singleton.
  - intros Hk Hin. apply elem_of_app. left. apply list_elem_of_In, filter_In.
    split; [by apply list_elem_of_In|]. by destruct Hk as [->| ->].
Qed.

Lemma poll_exit_spec c deadline fuel n b m : poll_exit c deadline fuel n = Some (b, m) →
  (n < m)%nat ∧ (∀ k, (n ≤ k)%nat → (k < m - 1)%nat → exited c k ≠ Some true) ∧
  (b = true → exited c (m - 1) = Some true) ∧
  (b = false → exited c (m - 1) ≠ Some true ∧ deadline ≤ poll_clock c (m - 1)).
Proof.
  revert n. induction fuel as [|fuel IH]; intros n; [done|]. cbn [poll_exit].
  destruct (exited c n) as [[]|] eqn:Ee; cbn [unwrap_or].
  1: { intros [= <- <-]. replace (S n - 1)%nat with n by lia.
       split_and!; [lia|intros k ? ?; lia|done|done]. }
  all: destruct (Z.leb_spec deadline (poll_clock c n)).
  all: try (intros [= <- <-]; replace (S n - 1)%nat with n by lia;
    split_and!; [lia|intros k ? ?; lia|done|intros _; split; congruence]).
  all: intros Hp; destruct (IH _ Hp) as (Hlt & Hno & Ht & Hf); split_and!; [lia| |done|done];
    intros k Hk1 Hk2; destruct (decide (k = n)) as [->|]; [congruence|apply Hno; lia].
Qed.

Lemma poll_exit_ends c deadline n k fuel : (n ≤ k)%nat → (k - n < fuel)%nat →
  deadline ≤ poll_clock c k → is_Some (poll_exit c deadline fuel n).
Proof.
  revert n. induction fuel as [|fuel IH]; intros n Hn Hf Hd; [lia|]. cbn [poll_exit].
  destruct (unwrap_or false (exited c n)); [done|].
  destruct (Z.leb_spec deadline (poll_clock c n)); [done|].
  destruct (decide (n = k)) as [->|]; [lia|]. apply IH; [lia|lia|done].
Qed.

Lemma poll_exit_more c d f f' i r : (f ≤ f')%nat → poll_exit c d f i = Some r →
  poll_exit c d f' i = Some r.
Proof.
  revert f' i. induction f as [|f IH]; intros f' i Hle Hr; [done|].
  destruct f' as [|f']; [lia|]. cbn [poll_exit] in *.
  destruct (unwrap_or false (exited c i)); [done|]. destruct (d <=? poll_clock c i); [done|].
  apply IH; [lia|done].
Qed.

Lemma sent_term_only (b : bool) : SIGKILL ∉ (if b then [SIGTERM] else []).
Proof. destruct b; [by intros ?%list_elem_of_singleton|by apply not_elem_of_nil]. Qed.

(** The order of the signals, and what has been observed before each. *)
Definition stopped_in_order (c : Terminable) (deadline : Z) (t : Termination) : Prop :=
  sent t = List.filter (accepts c)
    (if bool_decide (SIGKILL ∈ sent t) then [SIGTERM; SIGKILL] else [SIGTERM]) ∧
  (SIGKILL ∈ sent t → ∃ m, deadline ≤ poll_clock c m ∧
     ∀ i, (i ≤ m)%nat → exited c i ≠ Some true) ∧
  (reaped t = false → accepts c SIGKILL = false).

Lemma terminate_in_order c grace armed armed_kill fuel t :
  terminate_oneshot_child c grace armed armed_kill fuel = Some t →
  stopped_in_order c (armed + grace) t.
Proof.
  assert (Hterm : (if accepts c SIGTERM then [SIGTERM] else []) = List.filter (accepts c) [SIGTERM])
    by (cbn; by destruct (accepts c SIGTERM)).
  unfold terminate_oneshot_child, stopped_in_order.
  destruct (poll_exit _ _ fuel 0) as [[[] n]|] eqn:Hp; [| |done].
  { intros [= <-]. cbn [sent reaped]. rewrite bool_decide_eq_false_2 by apply sent_term_only.
    split_and!; [done|by intros ?%sent_term_only|done]. }
  destruct (poll_exit_spec _ _ _ _ _ _ Hp) as (Hn & Hno & _ & Hf).
  destruct (Hf eq_refl) as [Hlast Hd]. destruct (accepts c SIGKILL) eqn:Ea.
  - destruct (poll_exit _ _ fuel n); [|done]. intros [= <-]. cbn [sent reaped].
    rewrite bool_decide_eq_true_2 by (apply elem_of_app; right; by apply list_elem_of_singleton).
    split_and!; [|intros _; exists (n - 1)%nat; split; [done|]|done].
    + rewrite Hterm. cbn. rewrite Ea. by destruct (accepts c SIGTERM).
    + intros i Hi. destruct (decide (i = (n - 1)%nat)) as [->|]; [done|]. apply Hno; lia.
  - intros [= <-]. cbn [sent reaped]. rewrite bool_decide_eq_false_2 by apply sent_term_only.
    split_and!; [done|by intros ?%sent_term_only|done].
Qed.

Lemma terminate_ends c grace armed armed_kill k : armed + grace ≤ poll_clock c k →
  (∀ n, ∃ m, (n ≤ m)%nat ∧ armed_kill + ONESHOT_KILL_REAP_WAIT ≤ poll_clock c m) →
  ∃ fuel, is_Some (terminate_oneshot_child c grace armed armed_kill fuel).
Proof.
  intros Hk Hlater. unfold terminate_oneshot_child.
  destruct (poll_exit_ends c (armed + grace) 0 k (S k) ltac:(lia) ltac:(lia) Hk) as [[[] n] Hp].
  { exists (S k). by rewrite Hp. }
  destruct (Hlater n) as (m & Hm & Hdm). exists (S (m + k)).
  rewrite (poll_exit_more _ _ (S k) (S (m + k)) _ _ ltac:(lia) Hp). destruct (accepts c SIGKILL); [|done].
  by destruct (poll_exit_ends c (armed_kill + ONESHOT_KILL_REAP_WAIT) n m (S (m + k)) ltac:(lia) ltac:(lia) Hdm)
    as [r2 ->].
Qed.

(** An overrunning child is asked before it is killed: the signals sent are SIGTERM and then,
    if needed, SIGKILL, less those the kernel refused; SIGKILL is only sent after every poll
    of the grace period saw the child running and the period had passed; the child is left
    unreaped only if SIGKILL could not be delivered; and if the clock passes both deadlines
    the sequence ends. *)
Theorem oneshot_child_is_stopped c grace armed armed_kill k :
  armed + grace ≤ poll_clock c k →
  (∀ n, ∃ m, (n ≤ m)%nat ∧ armed_kill + ONESHOT_KILL_REAP_WAIT ≤ poll_clock c m) →
  ∃ fuel t, terminate_oneshot_child c grace armed armed_kill fuel = Some t ∧
    stopped_in_order c (armed + grace) t.
Proof.
  intros Hk Hl. destruct (terminate_ends c grace armed armed_kill k Hk Hl) as (fuel & t & Ht).
  exists fuel, t. split; [done|]. by eapply terminate_in_order.
Qed.

Lemma oneshot_child_is_stopped_witness :
  let c := {| accepts := λ _, true; exited := λ n, Some (40 <=? n)%nat; poll_clock := λ n, Z.of_nat n * 20 |} in
  ∃ fuel t, terminate_oneshot_child c ONESHOT_TERM_GRACE 0 500 fuel = Some t ∧
    stopped_in_order c (0 + ONESHOT_TERM_GRACE) t.
Proof.
  intros c. apply (oneshot_child_is_stopped c ONESHOT_TERM_GRACE 0 500 25); [cbn; unfold ONESHOT_TERM_GRACE; lia|].
  intros n. exists (n + 35)%nat. cbn. unfold ONESHOT_KILL_REAP_WAIT. split; lia.
Defined.

(** *** The daemon's rejections *)

(** What each rejection of the daemon means to PAM: an exhausted budget fails, an abandoned
    attempt and every other class with a fixed text abstain, and no text whatever succeeds. *)
Theorem daemon_rejection_codes :
  (∀ message, fst (pam_code_for_daemon_error message) ≠ PAM_SUCCESS) ∧
  pam_code_for_daemon_error (render RateLimited "") = (PAM_AUTH_ERR, "rate_limited") ∧
  pam_code_for_daemon_error (render IrRequired "") = (PAM_IGNORE, "ir_required") ∧
  pam_code_for_daemon_error CANCELLED_MESSAGE = (PAM_IGNORE, "cancelled") ∧
  Forall (λ k, pam_code_for_daemon_error (render k "") = (PAM_IGNORE, "error: internal"))
    [Disabled; SshSession; LidClosed; LidUnavailable; Storage; RateLimitCheckFailed;
     Y16BitDepthRequired; AllFramesDark].
Proof.
  split_and!; try (vm_compute; reflexivity).
  - intros message. by destruct (pam_code_for_daemon_error_fails message) as [->| ->].
  - repeat constructor; vm_compute; reflexivity.
Qed.

(** A limiter that could not be consulted is read as a lockout when its error names the
    [rate_limit] table, as SQLite's errors about that table do: the module then fails the
    attempt instead of abstaining. *)
Theorem broken_limiter_reads_as_lockout detail :
  str_contains "rate_limit" detail = true →
  pam_code_for_daemon_error (render RateLimitCheckFailed detail) = (PAM_AUTH_ERR, "rate_limited").
Proof.
  intros Hd. unfold pam_code_for_daemon_error, render. by rewrite str_contains_app_r.
Qed.

Lemma broken_limiter_reads_as_lockout_witness :
  pam_code_for_daemon_error (render RateLimitCheckFailed
    "database /var/lib/facelock/facelock.db: no such table: rate_limit (sqlite code 1)")
    = (PAM_AUTH_ERR, "rate_limited").
Proof. apply broken_limiter_reads_as_lockout. vm_compute. reflexivity. Defined.

(** ** A concrete host: a root daemon that answers, or a one-shot child that exits 0 *)
#[local] Instance show_bus_plain : ShowBus :=
  {| show_zbus _ := "bus error"; show_fdo _ := "bus error" |}.

Definition root_fs : Fs :=
  {| fs_open _ := Ok tt; fs_fstat _ := Ok {| st_uid := 0; st_mode := 0x1a4 |}; fs_read _ := Ok "";
     fs_stat _ := Ok {| st_uid := 0; st_mode := 0x1ed |};
     fs_canonicalize _ := Ok ["usr"; "bin"; "facelock"] |}.

Definition root_bus (reply : result (bool * Z * string * f64) ZbusError) : Bus :=
  {| bus_connect := Ok tt; bus_proxy := Ok tt; bus_owner := Ok ":1.5"; bus_start := Ok tt;
     bus_owner_after_start := Ok ":1.5"; bus_uid _ := Ok 0; bus_proxy_to _ := Ok tt;
     bus_call _ _ _ := reply |}.

Definition exits_with (code : Z) : Child :=
  {| spawn _ _ _ := Ok tt; try_wait _ := Exited (Some code); wait_clock _ := 0;
     overrun := {| accepts _ := true; exited _ := Some true; poll_clock _ := 0 |};
     term_armed := 0; kill_armed := 0 |}.

Definition host_world (reply : result (bool * Z * string * f64) ZbusError) : World :=
  {| w_service := Some "sudo"; w_user := Some "alice"; w_fs := root_fs;
     w_toml _ := Ok pam_config_default; w_environ := Some "TERM=xterm"; w_lid := None;
     w_env := []; w_worker := WorkerDelivers; w_bus := root_bus reply; w_child := exits_with 0;
     w_armed := 0 |}.

Lemma pam_success_is_proved_witness :
  let w := host_world (Ok (true, 7, "default", S754_zero false)) in
  ∃ config user content,
    (∃ s, fs_fstat (w_fs w) DEFAULT_CONFIG_PATH = Ok s ∧ trusted s) ∧
    trusted_chain (w_fs w) DEFAULT_CONFIG_PATH ∧
    fs_read (w_fs w) DEFAULT_CONFIG_PATH = Ok content ∧ w_toml w content = Ok config ∧
    w_user w = Some user.
Proof.
  intros w. destruct (pam_success_is_proved w 0 false 1 ltac:(vm_compute; reflexivity))
    as (config & user & content & H1 & H2 & H3 & H4 & H5 & _).
  exists config, user, content. split; [exact H1|]. split; [exact H2|]. split; [exact H3|].
  split; [exact H4|exact H5].
Defined.

Lemma daemon_answer_is_final_witness :
  let w := host_world (Err (FDO FdoAccessDenied)) in
  ∃ code, code ≠ PAM_SUCCESS ∧
    ∀ child env armed, identify (with_child w child env armed) 0 1 = Some code.
Proof.
  intros w. apply (daemon_answer_is_final w 0 1 pam_config_default ":1.5"); try reflexivity.
  - discriminate.
  - intros user. right. left. reflexivity.
Defined.
