(* ===== verification/Provenance.v ===== *)
(** * Where a caller is: session provenance ([crates/facelock-daemon/src/server.rs])

    With [abort_if_ssh] installed an [Authenticate] is served only to a caller that is shown to be
    local. The evidence comes from the system bus: the caller's process descriptor, the logind
    session of its process and, for a process outside every session, the systemd unit it runs in
    and the sessions of that unit's user. What each of these remote calls answered is [SystemBus];
    [caller_session_is_remote] composes them as the code does. *)

From S2P Require Import Prelude Text Pam.

(** The [Debug] rendering of a string, with its quotes and escapes. *)
Class ShowDebug := { debug_str : string → string }.

Inductive ProcessProvenanceError :=
  | Missing
  | Invalid (reason : string)
  | Dead
  | SessionLookup (reason : string).

Definition provenance_error_to_string (e : ProcessProvenanceError) : string :=
  match e with
  | Missing => "D-Bus credentials omitted ProcessFD"
  | Invalid r => "invalid D-Bus ProcessFD: " +:+ r
  | Dead => "D-Bus ProcessFD no longer identifies a live process"
  | SessionLookup r => "logind session lookup failed: " +:+ r
  end.

(** ** The process behind the descriptor *)

(** [fdinfo] is what reading [/proc/self/fdinfo/<fd>] gave. *)
Definition pid_from_pidfd (fdinfo : result string string) : result Z ProcessProvenanceError :=
  let? text := map_err Invalid fdinfo in
  match trim <$> find_map (strip_prefix "Pid:") (str_lines text) with
  | None => Err (Invalid "descriptor is not a Linux process file descriptor")
  | Some value =>
      if String.eqb value "-1" then Err Dead
      else
        let? pid := map_err Invalid (parse_u32 value) in
        if pid =? 0 then Err (Invalid "pidfd reported PID 0") else Ok pid
  end.

Definition POLLNVAL : Z := 0x20.

(** One non-blocking [poll]: its result, the events it returned, and [errno]'s text. *)
Record Poll := { poll_result : Z; revents : Z; poll_errno : string }.

Definition pidfd_is_live (p : Poll) : result bool ProcessProvenanceError :=
  if poll_result p <? 0 then Err (Invalid (poll_errno p))
  else if negb (Z.land (revents p) POLLNVAL =? 0) then Err (Invalid "descriptor was closed")
  else Ok (poll_result p =? 0).

(** The process is polled before and after the lookup. *)
Definition stable_process_session_is_remote (pid : Z) (first second : Poll)
    (lookup_session : Z → result bool string) : result bool ProcessProvenanceError :=
  let? live := pidfd_is_live first in
  if negb live then Err Dead
  else
    let? remote := map_err SessionLookup (lookup_session pid) in
    let? live := pidfd_is_live second in
    if negb live then Err Dead else Ok remote.

(** The credentials' descriptor, [None] when the bus sent none. *)
Record ProcessFd := { fdinfo : result string string; first_poll : Poll; second_poll : Poll }.

Definition processfd_session_is_remote (credentials : option ProcessFd)
    (lookup_session : Z → result bool string) : result bool ProcessProvenanceError :=
  match credentials with
  | None => Err Missing
  | Some fd =>
      let? pid := pid_from_pidfd (fdinfo fd) in
      stable_process_session_is_remote pid (first_poll fd) (second_poll fd) lookup_session
  end.

(** ** Units and sessions *)

Definition LOGIND_NO_SESSION_FOR_PID : string := "org.freedesktop.login1.NoSessionForPID".

Definition is_no_session_for_pid (e : ZbusError) : bool :=
  match e with MethodError name => String.eqb name LOGIND_NO_SESSION_FOR_PID | _ => false end.

Record UserSessionFacts := { us_remote : bool; us_seat : string; us_kind : string; us_active : bool }.

Definition is_active_local (f : UserSessionFacts) : bool :=
  negb (us_remote f) && negb (is_empty_str (us_seat f)) &&
  existsb (String.eqb (us_kind f)) ["wayland"; "x11"; "tty"] && us_active f.

Inductive UserManagerRefusal :=
  | NotInUserManager (uid : Z) (detail : string)
  | RootNotInSystemService (detail : string)
  | UnitLookupFailed (uid : Z) (detail : string)
  | NoActiveLocalSession (uid : Z).

Definition refusal_to_string (r : UserManagerRefusal) : string :=
  match r with
  | NotInUserManager uid detail =>
      "no logind session and caller is not in user@" +:+ show_Z uid +:+ ".service: " +:+ detail
  | RootNotInSystemService detail =>
      "no logind session and root caller is in neither a user manager nor a system service: " +:+ detail
  | UnitLookupFailed uid detail =>
      "no logind session and unit lookup failed for caller UID " +:+ show_Z uid +:+ ": " +:+ detail
  | NoActiveLocalSession uid =>
      "caller is in user@" +:+ show_Z uid +:+ ".service but user " +:+ show_Z uid +:+
      " has no active local session"
  end.

Inductive UnitProvenance := UserManager (owner_uid : Z) | RootSystemService.

Definition user_manager_unit (uid : Z) : string := "user@" +:+ show_Z uid +:+ ".service".

Definition user_manager_owner (unit : string) : option Z :=
  match strip_prefix "user@" unit with
  | None => None
  | Some rest =>
      match strip_suffix ".service" rest with
      | None => None
      | Some digits =>
          match parse_u32 digits with
          | Err _ => None
          | Ok uid => if String.eqb unit (user_manager_unit uid) then Some uid else None
          end
      end
  end.

Definition is_system_service (unit : string) : bool :=
  is_some_and (λ stem,
      negb (is_empty_str stem) && negb (starts_with "user@" stem) &&
      negb (existsb (String.eqb stem) ["sshd"; "ssh"]) &&
      negb (starts_with "sshd@" stem) && negb (starts_with "ssh@" stem))
    (strip_suffix ".service" unit).

Section Provenance.
Context `{ShowBus} `{ShowDebug}.

Definition classify_caller_unit (caller_uid : Z) (unit : string) : result UnitProvenance UserManagerRefusal :=
  let detail := "caller unit is " +:+ debug_str unit in
  match user_manager_owner unit with
  | Some owner_uid =>
      if (owner_uid =? caller_uid) || (caller_uid =? 0) then Ok (UserManager owner_uid)
      else Err (NotInUserManager caller_uid detail)
  | None =>
      if negb (caller_uid =? 0) then Err (NotInUserManager caller_uid detail)
      else if is_system_service unit then Ok RootSystemService
      else Err (RootNotInSystemService detail)
  end.

Definition check_user_manager_sessions (owner_uid : Z) (sessions : list UserSessionFacts) :
    result unit UserManagerRefusal :=
  if existsb is_active_local sessions then Ok tt else Err (NoActiveLocalSession owner_uid).

Definition user_manager_session_is_remote (caller_uid : Z) (unit_by_pid : result string string)
    (user_sessions : Z → result (list UserSessionFacts) string) : result bool string :=
  let? unit := map_err (λ d, refusal_to_string (UnitLookupFailed caller_uid d)) unit_by_pid in
  let? p := map_err refusal_to_string (classify_caller_unit caller_uid unit) in
  match p with
  | RootSystemService => Ok false
  | UserManager owner_uid =>
      let? sessions := map_err (λ e, "enumerate logind sessions for UID " +:+ show_Z owner_uid +:+ ": " +:+ e)
                         (user_sessions owner_uid) in
      let? _ := map_err refusal_to_string (check_user_manager_sessions owner_uid sessions) in
      Ok false
  end.

(** ** The system bus during one lookup

    An object path is a string. The manager's proxy is made once for the process's session and
    once more to list a user's. *)
Record SystemBus := {
  dbus_proxy : result unit ZbusError;
  connection_credentials : result (option ProcessFd) FdoError;
  login_manager : result unit ZbusError;
  get_session_by_pid : Z → result string ZbusError;
  login_session : string → result unit ZbusError;
  session_remote : string → result bool ZbusError;
  login_manager_list : result unit ZbusError;
  list_sessions : result (list (string * Z * string * string * string)) ZbusError;
  listed_session : string → result unit ZbusError;
  session_type : string → result string ZbusError;
  session_active : string → result bool ZbusError;
  systemd_manager : result unit ZbusError;
  get_unit_by_pid : Z → result string ZbusError;
  systemd_unit : string → result unit ZbusError;
  unit_id : string → result string ZbusError;
}.

(** [.map_err(|error| format!(..))] *)
Definition context {A} (what : string) (r : result A ZbusError) : result A string :=
  map_err (λ e, what +:+ ": " +:+ show_zbus e) r.

Definition systemd_unit_by_pid (bus : SystemBus) (pid : Z) : result string string :=
  let? _ := context "create systemd manager proxy" (systemd_manager bus) in
  let? unit_path := context ("systemd GetUnitByPID(" +:+ show_Z pid +:+ ") failed") (get_unit_by_pid bus pid) in
  let? _ := context "create systemd unit proxy" (systemd_unit bus unit_path) in
  context "read systemd unit Id property" (unit_id bus unit_path).

Definition session_facts (bus : SystemBus) (id seat path : string) : result UserSessionFacts string :=
  let? _ := context ("create logind session " +:+ id +:+ " proxy") (listed_session bus path) in
  let? remote := context ("read logind session " +:+ id +:+ " Remote") (session_remote bus path) in
  let? kind := context ("read logind session " +:+ id +:+ " Type") (session_type bus path) in
  let? active := context ("read logind session " +:+ id +:+ " Active") (session_active bus path) in
  Ok {| us_remote := remote; us_seat := seat; us_kind := kind; us_active := active |}.

Fixpoint collect_sessions (bus : SystemBus) (uid : Z) (listed : list (string * Z * string * string * string)) :
    result (list UserSessionFacts) string :=
  match listed with
  | [] => Ok []
  | (id, session_uid, _, seat, path) :: listed =>
      if negb (session_uid =? uid) then collect_sessions bus uid listed
      else
        let? f := session_facts bus id seat path in
        let? fs := collect_sessions bus uid listed in
        Ok (f :: fs)
  end.

Definition logind_user_sessions (bus : SystemBus) (uid : Z) : result (list UserSessionFacts) string :=
  let? _ := context "create logind manager proxy" (login_manager_list bus) in
  let? listed := context "logind ListSessions failed" (list_sessions bus) in
  collect_sessions bus uid listed.

Definition logind_session_is_remote (bus : SystemBus) (caller_uid pid : Z) : result bool string :=
  let? _ := context "create logind manager proxy" (login_manager bus) in
  match get_session_by_pid bus pid with
  | Ok session_path =>
      let? _ := context "create logind session proxy" (login_session bus session_path) in
      context "read logind session Remote property" (session_remote bus session_path)
  | Err e =>
      if is_no_session_for_pid e then
        user_manager_session_is_remote caller_uid (systemd_unit_by_pid bus pid) (logind_user_sessions bus)
      else Err ("logind GetSessionByPID(" +:+ show_Z pid +:+ ") failed: " +:+ show_zbus e)
  end.

Definition caller_session_is_remote (bus : SystemBus) (sender : option string) (caller_uid : Z) :
    result bool string :=
  match sender with
  | None => Err "D-Bus message omitted its sender"
  | Some sender =>
      let? _ := context "create D-Bus credentials proxy" (dbus_proxy bus) in
      let? credentials := map_err (λ e, "GetConnectionCredentials(" +:+ sender +:+ ") failed: " +:+ show_fdo e)
                            (connection_credentials bus) in
      map_err provenance_error_to_string
        (processfd_session_is_remote credentials (logind_session_is_remote bus caller_uid))
  end.

(** ** Checks bounded in time

    [CheckFailure]: nobody waits for the answer any more, or there is none. *)
Inductive CheckFailure := CheckCancelled | Unresolved (reason : string).

Definition check_failure_to_string (f : CheckFailure) : string :=
  match f with CheckCancelled => "cancelled" | Unresolved reason => reason end.

(** One run of a check: when its answer is there ([None]: never), when a cancellation is first
    seen by the poll that watches for one, and its deadline, in nanoseconds from the start. *)
Record BoundedCheck := {
  check_answer : option (Z * result bool string);
  check_cancelled_at : option Z;
  check_timeout : Z;
}.

Definition PROCESS_PROVENANCE_TIMEOUT : Z := 4 * 1000000000.
Definition LID_STATE_TIMEOUT : Z := 1000000000.

(** [timeout] polls the check before the clock, and [select!] is biased to the cancellation. *)
Definition run_bounded_check (what : string) (b : BoundedCheck) : result bool CheckFailure :=
  let '(ended, answer) :=
    match check_answer b with
    | Some (at_, r) => if at_ <=? check_timeout b then (at_, Some r) else (check_timeout b, None)
    | None => (check_timeout b, None)
    end in
  if is_some_and (λ c, c <=? ended) (check_cancelled_at b) then Err CheckCancelled
  else
    match answer with
    | Some (Ok a) => Ok a
    | Some (Err reason) => Err (Unresolved reason)
    | None => Err (Unresolved (what +:+ " exceeded its " +:+ show_Z (check_timeout b / 1000000000) +:+ "s deadline"))
    end.

Definition maybe_check (required : bool) (what : string) (b : BoundedCheck) :
    option (result bool CheckFailure) :=
  if negb required then None else Some (run_bounded_check what b).

(** A check answers in time, uncancelled, or fails. *)
Lemma run_bounded_check_ok what b a : run_bounded_check what b = Ok a →
  ∃ at_, check_answer b = Some (at_, Ok a) ∧ at_ ≤ check_timeout b ∧
    ∀ c, check_cancelled_at b = Some c → at_ < c.
Proof.
  unfold run_bounded_check. destruct (check_answer b) as [[at_ r]|].
  2: { by destruct (is_some_and _ _). }
  destruct (Z.leb_spec at_ (check_timeout b)).
  2: { by destruct (is_some_and _ _). }
  destruct (is_some_and _ _) eqn:Ec; [done|]. destruct r; [|done]. intros [= ->].
  exists at_. split; [done|]. split; [done|]. intros c Eq. rewrite Eq in Ec. cbn in Ec. by bsplit.
Qed.

(** ** What local evidence is *)

(** logind has a session for the process, and it is not a remote one. *)
Definition in_local_session (bus : SystemBus) (pid : Z) : Prop :=
  ∃ path, get_session_by_pid bus pid = Ok path ∧ session_remote bus path = Ok false.

(** The process is in no session, and in the unit [unit]. *)
Definition outside_sessions (bus : SystemBus) (pid : Z) (unit : string) : Prop :=
  get_session_by_pid bus pid = Err (MethodError LOGIND_NO_SESSION_FOR_PID) ∧
  ∃ path, get_unit_by_pid bus pid = Ok path ∧ unit_id bus path = Ok unit.

(** [owner] has a session on a seat, in the foreground, graphical or on a console. *)
Definition sits_at_the_machine (bus : SystemBus) (owner : Z) : Prop :=
  ∃ listed id name seat path kind,
    list_sessions bus = Ok listed ∧ (id, owner, name, seat, path) ∈ listed ∧ seat ≠ "" ∧
    session_remote bus path = Ok false ∧ session_active bus path = Ok true ∧
    session_type bus path = Ok kind ∧ kind ∈ ["wayland"; "x11"; "tty"].

(** A service of the system manager that is neither a user manager nor the SSH daemon. *)
Definition local_service (unit : string) : Prop :=
  ∃ stem, unit = (stem +:+ ".service") ∧ stem ≠ "" ∧ (stem ∉ ["sshd"; "ssh"]) ∧
    ∀ t, stem ≠ ("user@" +:+ t) ∧ stem ≠ ("sshd@" +:+ t) ∧ stem ≠ ("ssh@" +:+ t).

Inductive shown_local (bus : SystemBus) (caller_uid pid : Z) : Prop :=
  | local_by_session : in_local_session bus pid → shown_local bus caller_uid pid
  | local_by_manager owner : outside_sessions bus pid (user_manager_unit owner) →
      owner = caller_uid ∨ caller_uid = 0 → sits_at_the_machine bus owner → shown_local bus caller_uid pid
  | local_by_service unit : caller_uid = 0 → outside_sessions bus pid unit → local_service unit →
      shown_local bus caller_uid pid.

(** ** Lemmas *)

Lemma map_err_ok {A E F} (f : E → F) (r : result A E) a : map_err f r = Ok a → r = Ok a.
Proof. destruct r; cbn; [by intros [= ->]|done]. Qed.

(** The owner of a canonical unit name, and of no other. *)
Lemma user_manager_owner_spec unit uid :
  user_manager_owner unit = Some uid ↔ 0 ≤ uid < 2 ^ 32 ∧ unit = user_manager_unit uid.
Proof.
  unfold user_manager_owner. split.
  - destruct (strip_prefix _ _) as [rest|]; [|done]. destruct (strip_suffix _ _) as [digits|]; [|done].
    destruct (parse_u32 digits) as [u|] eqn:Ep; [|done]. destruct (String.eqb_spec unit (user_manager_unit u)); [|done].
    intros [= <-]. split; [|done]. by eapply parse_u32_range.
  - intros [Hu ->]. assert (strip_prefix "user@" (user_manager_unit uid) = Some (show_Z uid +:+ ".service")) as ->
      by (by apply strip_prefix_spec).
    assert (strip_suffix ".service" (show_Z uid +:+ ".service") = Some (show_Z uid)) as ->
      by (by apply strip_suffix_spec).
    rewrite parse_u32_show by done. by rewrite String.eqb_refl.
Qed.

Lemma starts_with_false pre s : starts_with pre s = false → ∀ t, s ≠ (pre +:+ t).
Proof. intros Hpre t ->. unfold starts_with in Hpre. by rewrite prefix_app in Hpre. Qed.

Lemma is_system_service_spec unit : is_system_service unit = true → local_service unit.
Proof.
  unfold is_system_service. destruct (strip_suffix _ _) as [stem|] eqn:E; [|done]. cbn [is_some_and].
  intros Hs. bsplit. apply strip_suffix_spec in E as ->. exists stem. split; [done|]. split.
  { intros ->. discriminate. }
  split.
  { intros Hin. assert (existsb (String.eqb stem) ["sshd"; "ssh"] = true) as Hx by
      (apply existsb_Exists; exists stem; split; [done|apply String.eqb_refl]). congruence. }
  intros t. split; [|split]; by apply starts_with_false.
Qed.

Lemma collect_sessions_active bus uid listed fs : collect_sessions bus uid listed = Ok fs →
  existsb is_active_local fs = true →
  ∃ id name seat path kind, (id, uid, name, seat, path) ∈ listed ∧ seat ≠ "" ∧
    session_remote bus path = Ok false ∧ session_active bus path = Ok true ∧
    session_type bus path = Ok kind ∧ kind ∈ ["wayland"; "x11"; "tty"].
Proof.
  revert fs. induction listed as [|[[[[id u] name] seat] path] listed IH]; intros fs; cbn [collect_sessions].
  { by intros [= <-]. }
  assert (∀ fs', collect_sessions bus uid listed = Ok fs' → existsb is_active_local fs' = true → _) as IH'
    by (intros fs'; apply (IH fs')).
  destruct (Z.eqb_spec u uid) as [->|]; cbn [negb].
  2: { intros Hc Ha. destruct (IH' fs Hc Ha) as (i & nm & st & pth & k & Hin & Hrest).
       exists i, nm, st, pth, k. split; [apply elem_of_cons; by right|done]. }
  unfold session_facts.
  destruct (context _ (listed_session bus path)) eqn:E1; [|done].
  destruct (context _ (session_remote bus path)) as [rem|] eqn:E2; [|done].
  destruct (context _ (session_type bus path)) as [kind|] eqn:E3; [|done].
  destruct (context _ (session_active bus path)) as [act|] eqn:E4; [|done].
  destruct (collect_sessions bus uid listed) as [fs'|] eqn:Ec; [|done]. intros [= <-]. cbn [existsb].
  apply map_err_ok in E2, E3, E4. destruct (is_active_local _) eqn:Ea.
  - intros _. unfold is_active_local in Ea. cbn in Ea. bsplit.
    exists id, name, seat, path, kind. split; [apply list_elem_of_here|].
    assert (seat ≠ "") by (intros ->; done). assert (kind ∈ ["wayland"; "x11"; "tty"]).
    { assert (existsb (String.eqb kind) ["wayland"; "x11"; "tty"] = true) as Hx by done.
      apply existsb_Exists in Hx as (k & Hk & Hke). apply String.eqb_eq in Hke as ->. done. }
    subst. done.
  - intros Ha. destruct (IH' fs' eq_refl Ha) as (i & nm & st & pth & k & Hin & Hrest).
    exists i, nm, st, pth, k. split; [apply elem_of_cons; by right|done].
Qed.

Lemma is_no_session_spec e : is_no_session_for_pid e = true → e = MethodError LOGIND_NO_SESSION_FOR_PID.
Proof. destruct e as [|name| |]; try done. cbn. intros E. by apply String.eqb_eq in E as ->. Qed.

Lemma logind_local bus caller_uid pid : logind_session_is_remote bus caller_uid pid = Ok false →
  shown_local bus caller_uid pid.
Proof.
  unfold logind_session_is_remote. destruct (context _ (login_manager bus)); [|done].
  destruct (get_session_by_pid bus pid) as [path|e] eqn:Es.
  - destruct (context _ (login_session bus path)); [|done]. intros Hr%map_err_ok. apply local_by_session. by exists path.
  - destruct (is_no_session_for_pid e) eqn:Ee; [|done]. apply is_no_session_spec in Ee as ->.
    unfold user_manager_session_is_remote, systemd_unit_by_pid.
    destruct (context _ (systemd_manager bus)); [|done].
    destruct (context _ (get_unit_by_pid bus pid)) as [upath|] eqn:Eg; [|done]. apply map_err_ok in Eg.
    destruct (context _ (systemd_unit bus upath)); [|done].
    destruct (context _ (unit_id bus upath)) as [unit|] eqn:Eu; [|done]. apply map_err_ok in Eu.
    assert (outside_sessions bus pid unit) as Hout by (split; [done|by exists upath]).
    cbn [map_err]. unfold classify_caller_unit. destruct (user_manager_owner unit) as [owner|] eqn:Eo.
    + apply user_manager_owner_spec in Eo as [_ ->].
      destruct ((owner =? caller_uid) || (caller_uid =? 0)) eqn:Eow; [|done]. cbn [map_err].
      unfold logind_user_sessions. destruct (context _ (login_manager_list bus)); [|done].
      destruct (context _ (list_sessions bus)) as [listed|] eqn:El; [|done]. apply map_err_ok in El.
      destruct (collect_sessions bus owner listed) as [fs|] eqn:Ec; [|done]. cbn [map_err].
      unfold check_user_manager_sessions. destruct (existsb is_active_local fs) eqn:Ea; [|done]. intros _.
      apply (local_by_manager _ _ _ owner); [done|apply orb_true_iff in Eow; lia|].
      destruct (collect_sessions_active bus owner listed fs Ec Ea) as (i & nm & st & pth & k & Hl).
      by exists listed, i, nm, st, pth, k.
    + destruct (Z.eqb_spec caller_uid 0) as [->|]; [|done]. cbn [negb].
      destruct (is_system_service unit) eqn:Eis; [|done]. intros _.
      apply (local_by_service _ _ _ unit); [done|done|by apply is_system_service_spec].
Qed.

Lemma pidfd_live p : pidfd_is_live p = Ok true → poll_result p = 0.
Proof.
  unfold pidfd_is_live. destruct (_ <? 0); [done|]. destruct (negb _); [done|]. intros [= E]. by bsplit.
Qed.

Lemma pid_from_pidfd_ok f pid : pid_from_pidfd f = Ok pid →
  0 < pid < 2 ^ 32 ∧ ∃ text line, f = Ok text ∧ line ∈ str_lines text ∧
    ∃ value, strip_prefix "Pid:" line = Some value ∧ parse_u32 (trim value) = Ok pid.
Proof.
  unfold pid_from_pidfd. destruct f as [text|]; [|done]. cbn [map_err].
  destruct (find_map _ _) as [value|] eqn:Ef; [|done]. cbn. destruct (String.eqb _ _); [done|].
  destruct (parse_u32 (trim value)) as [p|] eqn:Ep; [|done]. cbn [map_err].
  destruct (Z.eqb_spec p 0); [done|]. intros [= <-]. split; [pose proof (parse_u32_range _ _ Ep); lia|].
  apply find_map_some in Ef as (line & Hl & Hv). exists text, line. eauto.
Qed.

(** The evidence behind an answer that the caller is local. *)
Definition local_evidence (bus : SystemBus) (caller_uid : Z) : Prop :=
  ∃ fd pid, connection_credentials bus = Ok (Some fd) ∧ pid_from_pidfd (fdinfo fd) = Ok pid ∧
    0 < pid < 2 ^ 32 ∧ poll_result (first_poll fd) = 0 ∧ poll_result (second_poll fd) = 0 ∧
    shown_local bus caller_uid pid.

Lemma local_answer bus sender caller_uid :
  caller_session_is_remote bus sender caller_uid = Ok false → local_evidence bus caller_uid.
Proof.
  unfold caller_session_is_remote. destruct sender as [sender|]; [|done].
  destruct (context _ (dbus_proxy bus)); [|done].
  destruct (connection_credentials bus) as [[fd|]|] eqn:Ec; [|done..]. cbn [map_err].
  intros Hr%map_err_ok. unfold processfd_session_is_remote in Hr.
  destruct (pid_from_pidfd (fdinfo fd)) as [pid|] eqn:Ep; [|done].
  unfold stable_process_session_is_remote in Hr.
  destruct (pidfd_is_live (first_poll fd)) as [[]|] eqn:E1; [|done..]. cbn [negb] in Hr.
  destruct (logind_session_is_remote bus caller_uid pid) as [r|] eqn:El; [|done]. cbn [map_err] in Hr.
  destruct (pidfd_is_live (second_poll fd)) as [[]|] eqn:E2; [|done..]. cbn [negb] in Hr. injection Hr as ->.
  exists fd, pid. split; [done|]. split; [done|]. split; [by apply pid_from_pidfd_ok in Ep as [? _]|].
  split; [by apply pidfd_live|]. split; [by apply pidfd_live|by apply logind_local].
Qed.
End Provenance.

(** C26.  A caller is answered to be local only on evidence: the bus named a process that was
    alive before and after the lookup, and that process is in a logind session that is not
    remote, or in its own user's manager (root: in any user's) while that user sits at the
    machine, or, for root, in a system service that is not the SSH daemon. Every bus error, and
    every other answer, denies. *)
Theorem local_caller_is_shown_local `{ShowBus} `{ShowDebug} bus sender caller_uid :
  caller_session_is_remote bus sender caller_uid = Ok false → local_evidence bus caller_uid.
Proof. apply local_answer. Qed.

(** ** Witness: a terminal that the user manager of user 1000 started, asking as that user *)
Definition manager_bus : SystemBus := {|
  dbus_proxy := Ok tt;
  connection_credentials := Ok (Some {|
    fdinfo := Ok ("pos: 0" +:+ String newline "" +:+ "Pid: 4242" +:+ String newline "");
    first_poll := {| poll_result := 0; revents := 0; poll_errno := "" |};
    second_poll := {| poll_result := 0; revents := 0; poll_errno := "" |} |});
  login_manager := Ok tt;
  get_session_by_pid _ := Err (MethodError LOGIND_NO_SESSION_FOR_PID);
  login_session _ := Err OtherZbus; session_remote p := Ok (String.eqb p "/ssh");
  login_manager_list := Ok tt;
  list_sessions := Ok [("3", 1000, "ada", "", "/ssh"); ("2", 1000, "ada", "seat0", "/desk")];
  listed_session _ := Ok tt;
  session_type p := Ok (if String.eqb p "/desk" then "wayland" else "tty"); session_active _ := Ok true;
  systemd_manager := Ok tt; get_unit_by_pid _ := Ok "/unit"; systemd_unit _ := Ok tt;
  unit_id _ := Ok "user@1000.service";
|}.

Definition show_bus_plain : ShowBus := {| show_zbus _ := "bus error"; show_fdo _ := "fdo error" |}.
#[local] Existing Instance show_bus_plain.
Definition show_debug_plain : ShowDebug := {| debug_str s := dq +:+ s +:+ dq |}.
#[local] Existing Instance show_debug_plain.

Lemma local_caller_is_shown_local_witness :
  caller_session_is_remote manager_bus (Some ":1.7") 1000 = Ok false ∧ local_evidence manager_bus 1000.
Proof.
  split; [vm_compute; reflexivity|]. apply (local_caller_is_shown_local manager_bus (Some ":1.7")).
  vm_compute. reflexivity.
Defined.

(** The same process asking as another user, and a session of [sshd] before logind knows it. *)
Example other_user_is_refused :
  is_ok (caller_session_is_remote manager_bus (Some ":1.7") 1001) = false.
Proof. vm_compute. reflexivity. Qed.

Example sshd_is_no_local_service : is_system_service "sshd@7-10.0.0.1:22.service" = false.
Proof. reflexivity. Qed.
