(* ===== verification/Sealing.v ===== *)
(** * Sealed blobs and the software sealer ([crates/facelock-tpm/src/sealing.rs])

    The three blob formats a template row or a key file can hold: TPM-sealed without a
    policy (version byte 1), software-encrypted (2), and TPM-sealed under a PCR policy (3).
    The cipher, the hash, the random generator and the TPM are other people's code: they are
    the classes [Aead], [Sha256] and [TpmDevice]. A [None] result of a parser is a panic. *)

From S2P Require Import Prelude Float32 Types DeviceBinding Store.

Definition SEALED_VERSION_BYTE : Z := 1.
Definition SOFTWARE_ENCRYPTED_VERSION_BYTE : Z := 2.
Definition SEALED_PCR_VERSION_BYTE : Z := 3.
Definition AES_NONCE_SIZE : nat := 12.
Definition AES_KEY_SIZE : nat := 32.
Definition RAW_EMBEDDING_SIZE : nat := 512 * 4.

Definition is_byte (z : Z) : Prop := 0 ≤ z < 256.

(** The variants of [FacelockError] this crate raises, and their [Display]. *)
Inductive FacelockError := Tpm (message : string) | Encryption (message : string) | Storage_ (message : string).

Definition facelock_error_to_string (e : FacelockError) : string :=
  match e with
  | Tpm m => "TPM error: " +:+ m
  | Encryption m => "encryption error: " +:+ m
  | Storage_ m => "storage error: " +:+ m
  end.

(** [{:02x}] *)
Definition hex_digit (n : Z) : ascii :=
  Ascii.ascii_of_nat (Z.to_nat (if n <? 10 then 48 + n else 87 + n)).
Definition hex_byte (b : Z) : string :=
  String (hex_digit (b / 16)) (String (hex_digit (b mod 16)) EmptyString).

(** ** The TPM blob format *)

(** [u32::from_le_bytes] of the four bytes at [o]. *)
Definition u32_at (l : list Z) (o : nat) : option Z :=
  match l !! o, l !! (o + 1)%nat, l !! (o + 2)%nat, l !! (o + 3)%nat with
  | Some b0, Some b1, Some b2, Some b3 => Some (b0 + b1 * 2 ^ 8 + b2 * 2 ^ 16 + b3 * 2 ^ 24)
  | _, _, _, _ => None
  end.

(** The serialization at the end of [seal_bytes]. *)
Definition encode_sealed_blob (pcr_indices : option (list Z)) (pub priv : list Z) : list Z :=
  match pcr_indices with
  | None => [SEALED_VERSION_BYTE]
  | Some indices =>
      SEALED_PCR_VERSION_BYTE :: Z.of_nat (length indices) mod 256 :: (i ← indices; le_bytes i)
  end ++ le_bytes (as_u32 (Z.of_nat (length pub))) ++ pub ++ priv.

Definition parse_sealed_blob (sealed : list Z) :
    option (result (option (list Z) * list Z * list Z) FacelockError) :=
  let split msg pcr pub_len body :=
    if Z.of_nat (length body) <? pub_len then Err (Tpm msg)
    else Ok (pcr, take (Z.to_nat pub_len) body, drop (Z.to_nat pub_len) body) in
  if (length sealed <? 5)%nat then Some (Err (Tpm "sealed blob too short"))
  else
    version ← sealed !! 0%nat;
    if version =? SEALED_VERSION_BYTE then
      pub_len ← u32_at sealed 1;
      Some (split "sealed blob truncated (public)" None pub_len (drop 5 sealed))
    else if version =? SEALED_PCR_VERSION_BYTE then
      count ← sealed !! 1%nat;
      let idx_end := (2 + Z.to_nat count * 4)%nat in
      let len_end := (idx_end + 4)%nat in
      if (length sealed <? len_end)%nat
      then Some (Err (Tpm "PCR-sealed blob truncated (header)"))
      else
        indices ← mapM (λ i, u32_at sealed (2 + i * 4)) (seq 0 (Z.to_nat count));
        pub_len ← u32_at sealed idx_end;
        Some (split "PCR-sealed blob truncated (public)" (Some indices) pub_len (drop len_end sealed))
    else Some (Err (Tpm ("unrecognized sealed blob version byte: 0x" +:+ hex_byte version))).

(** ** Blob shapes *)
Definition is_sealed_shape (first_byte : option Z) (len : nat) : bool :=
  match first_byte with
  | Some b => (b =? SEALED_VERSION_BYTE) || (b =? SEALED_PCR_VERSION_BYTE)
  | None => false
  end && negb (len =? RAW_EMBEDDING_SIZE)%nat.

Definition is_software_encrypted_shape (first_byte : option Z) (len : nat) : bool :=
  match first_byte with
  | Some b => b =? SOFTWARE_ENCRYPTED_VERSION_BYTE
  | None => false
  end && negb (len =? RAW_EMBEDDING_SIZE)%nat.

Definition is_sealed (data : list Z) : bool := is_sealed_shape (head data) (length data).
Definition is_software_encrypted (data : list Z) : bool :=
  is_software_encrypted_shape (head data) (length data).
Definition is_encrypted (data : list Z) : bool := is_sealed data || is_software_encrypted data.

(** ** Embeddings as bytes *)
Definition embedding_to_bytes `{NanEncoding} (e : FaceEmbedding) : list Z :=
  x ← e; le_bytes (f32_to_bits x).

Definition bytes_to_embedding (data : list Z) : result FaceEmbedding FacelockError :=
  if negb (length data =? RAW_EMBEDDING_SIZE)%nat
  then Err (Storage_ ("invalid embedding data size: expected " +:+ show_nat RAW_EMBEDDING_SIZE +:+
                     ", got " +:+ show_nat (length data)))
  else Ok (floats_of_bytes data).

(** ** The software sealer *)

(** AES-256-GCM: encryption and decryption under a key, a nonce and associated data. *)
Class Aead := {
  aes_encrypt : list Z → list Z → string → list Z → result (list Z) string;
  aes_decrypt : list Z → list Z → string → list Z → result (list Z) string;
}.

Class Sha256 := { sha256 : list Z → list Z }.

Record SoftwareSealer := { sealer_key : list Z }.

Definition from_key (key : list Z) : SoftwareSealer := {| sealer_key := key |}.

Definition key_id_domain : list Z :=
  map (λ c, Z.of_nat (Ascii.nat_of_ascii c)) (list_ascii_of_string "facelock-key-id-v1").

Definition key_id_for `{Sha256} (key : list Z) : string :=
  String.concat "" (map hex_byte (take 8 (sha256 (key_id_domain ++ key)))).

Definition sealer_key_id `{Sha256} (s : SoftwareSealer) : string := key_id_for (sealer_key s).

Section Software.
Context `{Aead}.

(** [nonce] is what the random generator filled the nonce with. *)
Definition seal_bytes_with_aad (s : SoftwareSealer) (nonce : list Z) (data : list Z)
    (aad : option string) : result (list Z) FacelockError :=
  let? ciphertext :=
    map_err (λ e, Encryption ("AES-GCM encryption failed: " +:+ e))
      (aes_encrypt (sealer_key s) nonce (unwrap_or "" aad) data) in
  Ok (SOFTWARE_ENCRYPTED_VERSION_BYTE :: nonce ++ ciphertext).

Definition unseal_bytes_with_aad (s : SoftwareSealer) (sealed : list Z) (aad : option string) :
    result (list Z) FacelockError :=
  if (length sealed <? 1 + AES_NONCE_SIZE + 16)%nat
  then Err (Encryption "encrypted blob too short")
  else if negb (unwrap_or 0 (head sealed) =? SOFTWARE_ENCRYPTED_VERSION_BYTE)
  then Err (Encryption ("expected software encryption version byte 0x02, got 0x" +:+
              hex_byte (unwrap_or 0 (head sealed))))
  else
    map_err (λ e, Encryption ("AES-GCM decryption failed (wrong key, AAD, or corrupted data): " +:+ e))
      (aes_decrypt (sealer_key s) (take AES_NONCE_SIZE (drop 1 sealed)) (unwrap_or "" aad)
        (drop (1 + AES_NONCE_SIZE) sealed)).

Definition seal_embedding_with_aad `{NanEncoding} (s : SoftwareSealer) (nonce : list Z)
    (e : FaceEmbedding) (aad : option string) : result (list Z) FacelockError :=
  seal_bytes_with_aad s nonce (embedding_to_bytes e) aad.

Definition unseal_embedding_with_aad (s : SoftwareSealer) (sealed : list Z) (aad : option string) :
    result FaceEmbedding FacelockError :=
  let? raw := unseal_bytes_with_aad s sealed aad in bytes_to_embedding raw.
End Software.

(** What the sealer relies on: decryption inverts encryption, accepts nothing but
    ciphertexts, and the tag adds sixteen bytes. *)
Class AeadLaws `{Aead} := {
  aead_decrypts : ∀ k n a m c, aes_encrypt k n a m = Ok c → aes_decrypt k n a c = Ok m;
  aead_authentic : ∀ k n a m c, aes_decrypt k n a c = Ok m → aes_encrypt k n a m = Ok c;
  aead_tag : ∀ k n a m c, aes_encrypt k n a m = Ok c → length c = (length m + 16)%nat;
}.

(** ** The TPM sealer *)

(** A TPM connection: creating a sealed object under an optional PCR selection, and loading
    and unsealing one again. [compiled] is the [tpm] feature of the build. *)
Class TpmDevice := {
  compiled : bool;
  tpm_connect : string → result unit string;
  tpm_create : list Z → option (list Z) → result (list Z * list Z) FacelockError;
  tpm_unseal : option (list Z) → list Z → list Z → result (list Z) FacelockError;
}.

Section TpmSealer.
Context `{TpmDevice}.

Definition tpm_sealer_new (tcti : string) : result unit FacelockError :=
  if compiled then map_err Tpm (tpm_connect tcti) else Ok tt.

Definition tpm_seal_bytes (data : list Z) (pcr_indices : option (list Z)) :
    result (list Z) FacelockError :=
  if compiled then
    let? o := tpm_create data pcr_indices in
    Ok (encode_sealed_blob pcr_indices (fst o) (snd o))
  else Ok data.

(** The parser never panics on a string of bytes ([parse_total]). *)
Definition tpm_unseal_bytes (sealed : list Z) : result (list Z) FacelockError :=
  if compiled then
    let? x := unwrap_or (Err (Tpm "")) (parse_sealed_blob sealed) in
    let '(pcr, pub, priv) := x in tpm_unseal pcr pub priv
  else Err (Tpm "cannot unseal TPM-sealed data without TPM support (compile with 'tpm' feature)").

Definition unseal_or_passthrough (sealed : list Z) : result (list Z) FacelockError :=
  match sealed with
  | [] => Err (Tpm "empty sealed blob")
  | b :: _ =>
      if ((b =? SEALED_VERSION_BYTE) || (b =? SEALED_PCR_VERSION_BYTE)) && (5 <? length sealed)%nat
      then tpm_unseal_bytes sealed
      else if (length sealed =? RAW_EMBEDDING_SIZE)%nat then Ok sealed
      else Err (Tpm ("unrecognized sealed blob format: size=" +:+ show_nat (length sealed) +:+
                     ", first_byte=0x" +:+ hex_byte b))
  end.

Definition tpm_unseal_embedding (sealed : list Z) : result FaceEmbedding FacelockError :=
  if compiled then let? raw := unseal_or_passthrough sealed in bytes_to_embedding raw
  else if is_sealed sealed
  then Err (Tpm "cannot unseal TPM-sealed embedding without TPM support (compile with 'tpm' feature)")
  else if negb (length sealed =? RAW_EMBEDDING_SIZE)%nat
  then Err (Storage_ ("invalid embedding size: expected " +:+ show_nat RAW_EMBEDDING_SIZE +:+
                     ", got " +:+ show_nat (length sealed)))
  else bytes_to_embedding sealed.

(** [read] is what reading the file at [path] gives. *)
Definition unseal_key_from_file (read : result (list Z) string) (path : string) :
    result (list Z) FacelockError :=
  if compiled then
    let? blob := map_err (λ e, Tpm ("failed to read sealed key from " +:+ path +:+ ": " +:+ e)) read in
    let? unsealed := tpm_unseal_bytes blob in
    if negb (length unsealed =? 32)%nat
    then Err (Tpm ("unsealed key is " +:+ show_nat (length unsealed) +:+ " bytes, expected 32"))
    else Ok unsealed
  else Err (Tpm "TPM support not compiled in (missing 'tpm' feature)").
End TpmSealer.

(** ** Lemmas on bytes *)
Lemma le_bytes_length w : length (le_bytes w) = 4%nat.
Proof. done. Qed.

Lemma le_bytes_byte w : Forall is_byte (le_bytes w).
Proof. unfold le_bytes, is_byte. repeat constructor; try (apply Z.mod_pos_bound; lia). Qed.

Lemma le_bytes_value w : is_u32 w →
  w mod 256 + w / 2 ^ 8 mod 256 * 2 ^ 8 + w / 2 ^ 16 mod 256 * 2 ^ 16 + w / 2 ^ 24 mod 256 * 2 ^ 24 = w.
Proof. unfold is_u32. intros Hw. Z.div_mod_to_equations. lia. Qed.

Lemma le_bytes_of b0 b1 b2 b3 : is_byte b0 → is_byte b1 → is_byte b2 → is_byte b3 →
  let w := b0 + b1 * 2 ^ 8 + b2 * 2 ^ 16 + b3 * 2 ^ 24 in is_u32 w ∧ le_bytes w = [b0; b1; b2; b3].
Proof.
  unfold is_byte, is_u32, le_bytes. intros. cbn zeta. split; [lia|].
  repeat f_equal; Z.div_mod_to_equations; lia.
Qed.

Lemma u32_at_spec l o w : Forall is_byte l →
  u32_at l o = Some w ↔ is_u32 w ∧ take 4 (drop o l) = le_bytes w.
Proof.
  intros Hl. unfold u32_at. rewrite <- (Nat.add_0_r o) at 1. rewrite <- !lookup_drop.
  apply (Forall_drop _ o) in Hl. destruct (drop o l) as [|b0 [|b1 [|b2 [|b3 t]]]]; cbn [lookup list_lookup].
  1-4: split; [done|intros [_ Ht]; by apply (f_equal length) in Ht].
  do 4 (apply Forall_cons in Hl as [? Hl]). cbn [take].
  destruct (le_bytes_of b0 b1 b2 b3) as [Hu He]; [done..|]. split.
  - intros [= <-]. rewrite He. split; [done|by destruct t].
  - intros [Hw Ht]. rewrite <- (le_bytes_value w Hw). unfold le_bytes in Ht.
    rewrite take_0 in Ht. by injection Ht as -> -> -> ->.
Qed.

Lemma u32_at_in_range l o : (o + 4 ≤ length l)%nat → is_Some (u32_at l o).
Proof.
  intros Hl. unfold u32_at.
  destruct (lookup_lt_is_Some_2 l o) as [? ->]; [lia|]. destruct (lookup_lt_is_Some_2 l (o + 1)) as [? ->]; [lia|].
  destruct (lookup_lt_is_Some_2 l (o + 2)) as [? ->]; [lia|]. destruct (lookup_lt_is_Some_2 l (o + 3)) as [? ->]; [lia|].
  done.
Qed.

Lemma mapM_in_range l o k n : (o + (k + n) * 4 ≤ length l)%nat →
  is_Some (mapM (λ i, u32_at l (o + i * 4)) (seq k n)).
Proof.
  intros Hl. apply mapM_is_Some, Forall_forall. intros i [? ?]%elem_of_seq. apply u32_at_in_range. lia.
Qed.

Lemma bind_le_bytes_length ws : length (i ← ws; le_bytes i) = (length ws * 4)%nat.
Proof. induction ws as [|w ws IH]; [done|]. rewrite bind_cons, length_app, IH. cbn. lia. Qed.

Lemma mapM_u32_at_spec l o k n ws : Forall is_byte l →
  mapM (λ i, u32_at l (o + i * 4)) (seq k n) = Some ws ↔
  length ws = n ∧ Forall is_u32 ws ∧ take (n * 4) (drop (o + k * 4) l) = i ← ws; le_bytes i.
Proof.
  intros Hl. revert k ws. induction n as [|n IH]; intros k ws; cbn [seq mapM].
  { split; [intros [= <-]; by rewrite take_0|]. intros (Hn & _ & _). by destruct ws. }
  replace (S n * 4)%nat with (4 + n * 4)%nat by lia. rewrite <- take_take_drop, drop_drop.
  replace (o + k * 4 + 4)%nat with (o + S k * 4)%nat by lia. split.
  - intros (w & Hw & Hr)%bind_Some. apply bind_Some in Hr as (ws' & Hws & [= <-]).
    apply u32_at_spec in Hw as [Hu Ht]; [|done]. apply IH in Hws as (<- & Hf & Hd).
    split; [done|]. split; [by constructor|]. by rewrite bind_cons, Ht, Hd.
  - intros (Hn & Hf & Ht). destruct ws as [|w ws]; [done|]. apply Forall_cons in Hf as [Hu Hf].
    rewrite bind_cons in Ht. apply app_inj_1 in Ht as [Ht1 Ht2].
    + rewrite bind_Some. exists w. split; [by apply u32_at_spec|]. rewrite bind_Some. exists ws.
      split; [|done]. apply IH. by injection Hn as ->.
    + rewrite length_take, length_drop, le_bytes_length.
      apply (f_equal length) in Ht. rewrite !length_app, length_take, !length_drop in Ht.
      rewrite length_take, bind_le_bytes_length, le_bytes_length, length_drop in Ht. cbn in Hn. lia.
Qed.

(** ** The blob format is unambiguous *)

(** What the header can represent: at most 255 PCR indices, and a public area whose length
    fits 32 bits. *)
Definition wf_header (pcr_indices : option (list Z)) (pub : list Z) : Prop :=
  match pcr_indices with
  | None => True
  | Some indices => Forall is_u32 indices ∧ (length indices ≤ 255)%nat
  end ∧ is_u32 (Z.of_nat (length pub)).

Lemma split_spec {E} (body : list Z) n (pcr : option (list Z)) pcr' pub priv (e : E) : 0 ≤ n →
  (if Z.of_nat (length body) <? n then Err e
   else Ok (pcr, take (Z.to_nat n) body, drop (Z.to_nat n) body)) = Ok (pcr', pub, priv) ↔
  pcr = pcr' ∧ body = pub ++ priv ∧ n = Z.of_nat (length pub).
Proof.
  intros Hn. destruct (Z.ltb_spec (Z.of_nat (length body)) n).
  - split; [done|]. intros (_ & -> & ->). rewrite length_app in *. lia.
  - split.
    + intros [= <- <- <-]. rewrite take_drop, length_take. split_and!; [done|done|lia].
    + intros (<- & -> & ->). by rewrite Nat2Z.id, take_app_length, drop_app_length.
Qed.

Lemma parse_plain_spec sealed pub priv : Forall is_byte sealed → (5 ≤ length sealed)%nat →
  sealed !! 0%nat = Some SEALED_VERSION_BYTE →
  parse_sealed_blob sealed = Some (Ok (None, pub, priv)) ↔
  sealed = encode_sealed_blob None pub priv ∧ wf_header None pub.
Proof.
  intros Hb Hl H0. unfold parse_sealed_blob. rewrite (proj2 (Nat.ltb_ge _ _)) by lia.
  rewrite H0. cbn [mbind option_bind Z.eqb SEALED_VERSION_BYTE Pos.eqb].
  assert (Hcut : sealed = [SEALED_VERSION_BYTE] ++ take 4 (drop 1 sealed) ++ drop 5 sealed).
  { destruct sealed as [|v t]; [done|]. injection H0 as ->. cbn [drop app]. f_equal.
    symmetry. apply (take_drop 4 t). }
  unfold encode_sealed_blob, wf_header. split.
  - intros (n & Hn & Hs)%bind_Some. apply u32_at_spec in Hn as [Hu Ht]; [|done].
    injection Hs as Hs. apply split_spec in Hs as (_ & Hbody & ->); [|unfold is_u32 in Hu; lia].
    split; [|done]. rewrite as_u32_id by done. by rewrite Hcut, Ht, Hbody.
  - intros [Hs [_ Hu]]. rewrite as_u32_id in Hs by done.
    rewrite (proj2 (u32_at_spec sealed 1 (Z.of_nat (length pub)) Hb)).
    + cbn [mbind option_bind]. f_equal. apply split_spec; [lia|]. split_and!; [done| |done]. by rewrite Hs.
    + split; [done|]. by rewrite Hs.
Qed.

Lemma parse_pcr_spec sealed indices pub priv : Forall is_byte sealed → (5 ≤ length sealed)%nat →
  sealed !! 0%nat = Some SEALED_PCR_VERSION_BYTE →
  parse_sealed_blob sealed = Some (Ok (Some indices, pub, priv)) ↔
  sealed = encode_sealed_blob (Some indices) pub priv ∧ wf_header (Some indices) pub.
Proof.
  intros Hb Hl H0. destruct sealed as [|v [|c t]]; [done|cbn in Hl; lia|]. injection H0 as ->.
  assert (Hc : is_byte c) by (by apply Forall_cons in Hb as [_ [? _]%Forall_cons]).
  unfold parse_sealed_blob. rewrite (proj2 (Nat.ltb_ge _ _)) by lia.
  set (l := SEALED_PCR_VERSION_BYTE :: c :: t) in *.
  change (l !! 0%nat) with (Some SEALED_PCR_VERSION_BYTE). change (l !! 1%nat) with (Some c).
  cbn [mbind option_bind Z.eqb SEALED_VERSION_BYTE SEALED_PCR_VERSION_BYTE Pos.eqb].
  unfold is_byte in Hc. unfold encode_sealed_blob, wf_header. split.
  - destruct (Nat.ltb_spec (length l) (2 + Z.to_nat c * 4 + 4)); [done|].
    intros (ixs & His & Hs)%bind_Some. apply bind_Some in Hs as (n & Hn & Hs). injection Hs as Hs.
    apply mapM_u32_at_spec in His as (Hlen & Hf & Hti); [|done].
    apply u32_at_spec in Hn as [Hu Htn]; [|done].
    apply split_spec in Hs as ([= ->] & Hbody & ->); [|unfold is_u32 in Hu; lia].
    split; [|split; [split; [done|lia]|done]]. rewrite as_u32_id by done.
    replace (Z.of_nat (length indices) mod 256) with c by (rewrite Z.mod_small; lia).
    subst l. cbn [app]. do 2 f_equal. rewrite <- Hti, <- Htn, <- Hbody.
    cbn [drop Nat.add Nat.mul]. rewrite <- (take_drop (Z.to_nat c * 4) t) at 1. f_equal.
    rewrite <- (take_drop 4 (drop (Z.to_nat c * 4) t)) at 1. by rewrite drop_drop.
  - intros [Hs [[Hf Hle] Hu]]. rewrite as_u32_id in Hs by done.
    assert (Hcount : Z.to_nat c = length indices)
      by (unfold l in Hs; injection Hs as -> _; rewrite Z.mod_small; lia).
    assert (Ht : t = (i ← indices; le_bytes i) ++ le_bytes (Z.of_nat (length pub)) ++ pub ++ priv)
      by (unfold l in Hs; by injection Hs as _ ->).
    assert (Hd : drop (2 + length indices * 4) l = le_bytes (Z.of_nat (length pub)) ++ pub ++ priv).
    { unfold l. cbn [drop Nat.add]. rewrite Ht, <- bind_le_bytes_length. by rewrite drop_app_length. }
    rewrite Hcount. destruct (Nat.ltb_spec (length l) (2 + length indices * 4 + 4)) as [Hlt|Hge].
    { apply (f_equal length) in Hd. rewrite length_drop, length_app, le_bytes_length in Hd. lia. }
    rewrite (proj2 (mapM_u32_at_spec l 2 0 (length indices) indices Hb)).
    2: { split; [done|]. split; [done|]. unfold l. cbn [drop Nat.add Nat.mul].
         rewrite Ht. apply take_app_length'. by rewrite bind_le_bytes_length. }
    cbn [mbind option_bind]. rewrite (proj2 (u32_at_spec l _ (Z.of_nat (length pub)) Hb)) by (split; [done|by rewrite Hd]).
    cbn [mbind option_bind]. f_equal. apply split_spec; [lia|]. split_and!; [done| |done].
    rewrite <- drop_drop, Hd. done.
Qed.

Lemma parse_plain_total t : (5 ≤ length (SEALED_VERSION_BYTE :: t))%nat →
  is_Some (parse_sealed_blob (SEALED_VERSION_BYTE :: t)).
Proof.
  intros Hl. unfold parse_sealed_blob. rewrite (proj2 (Nat.ltb_ge _ _)) by done.
  destruct (u32_at_in_range (SEALED_VERSION_BYTE :: t) 1) as [n Hn]; [done|].
  change ((SEALED_VERSION_BYTE :: t) !! 0%nat) with (Some SEALED_VERSION_BYTE).
  cbn [mbind option_bind Z.eqb SEALED_VERSION_BYTE Pos.eqb] in *. by rewrite Hn.
Qed.

Lemma parse_pcr_total t : (5 ≤ length (SEALED_PCR_VERSION_BYTE :: t))%nat →
  is_Some (parse_sealed_blob (SEALED_PCR_VERSION_BYTE :: t)).
Proof.
  intros Hl. unfold parse_sealed_blob. rewrite (proj2 (Nat.ltb_ge _ _)) by done.
  destruct t as [|c t]; [cbn in Hl; lia|]. set (l := SEALED_PCR_VERSION_BYTE :: c :: t) in *.
  change (l !! 0%nat) with (Some SEALED_PCR_VERSION_BYTE). change (l !! 1%nat) with (Some c).
  cbn [mbind option_bind Z.eqb SEALED_VERSION_BYTE SEALED_PCR_VERSION_BYTE Pos.eqb].
  destruct (Nat.ltb_spec (length l) (2 + Z.to_nat c * 4 + 4)); [done|].
  destruct (mapM_in_range l 2 0 (Z.to_nat c)) as [ixs ->]; [lia|]. cbn [mbind option_bind].
  by destruct (u32_at_in_range l (2 + Z.to_nat c * 4)) as [n ->]; [lia|].
Qed.

Lemma parse_plain_no_pcr t ixs pub priv :
  parse_sealed_blob (SEALED_VERSION_BYTE :: t) ≠ Some (Ok (Some ixs, pub, priv)).
Proof.
  unfold parse_sealed_blob. destruct (_ <? 5)%nat; [done|].
  change ((SEALED_VERSION_BYTE :: t) !! 0%nat) with (Some SEALED_VERSION_BYTE).
  cbn [mbind option_bind Z.eqb SEALED_VERSION_BYTE Pos.eqb].
  destruct (u32_at _ 1) as [n|]; [|done]. cbn [mbind option_bind]. by destruct (_ <? n).
Qed.

Lemma parse_pcr_no_plain t pub priv :
  parse_sealed_blob (SEALED_PCR_VERSION_BYTE :: t) ≠ Some (Ok (None, pub, priv)).
Proof.
  unfold parse_sealed_blob. destruct (_ <? 5)%nat; [done|]. destruct t as [|c t]; [done|].
  set (l := SEALED_PCR_VERSION_BYTE :: c :: t).
  change (l !! 0%nat) with (Some SEALED_PCR_VERSION_BYTE). change (l !! 1%nat) with (Some c).
  cbn [mbind option_bind Z.eqb SEALED_VERSION_BYTE SEALED_PCR_VERSION_BYTE Pos.eqb].
  destruct (_ <? _)%nat; [done|]. destruct (mapM _ _) as [ixs|]; [|done]. cbn [mbind option_bind].
  destruct (u32_at _ _) as [n|]; [|done]. cbn [mbind option_bind]. by destruct (_ <? n).
Qed.

Lemma parse_total sealed : is_Some (parse_sealed_blob sealed).
Proof.
  destruct (decide (length sealed < 5)%nat) as [Hl|Hl%Nat.nlt_ge].
  { unfold parse_sealed_blob. by rewrite (proj2 (Nat.ltb_lt _ _)). }
  destruct sealed as [|v t]; [cbn in Hl; lia|].
  destruct (decide (v = SEALED_VERSION_BYTE)) as [->|H1]; [by apply parse_plain_total|].
  destruct (decide (v = SEALED_PCR_VERSION_BYTE)) as [->|H3]; [by apply parse_pcr_total|].
  unfold parse_sealed_blob. rewrite (proj2 (Nat.ltb_ge _ _)) by done.
  change ((v :: t) !! 0%nat) with (Some v). cbn [mbind option_bind].
  by rewrite (proj2 (Z.eqb_neq _ _) H1), (proj2 (Z.eqb_neq _ _) H3).
Qed.

(** The sealed-blob format is unambiguous and its parser total: no byte string makes the
    parser read out of bounds, and it accepts exactly the strings the sealer's serialization
    produces, returning the PCR selection and the two TPM areas that were written. *)
Theorem sealed_blob_roundtrip sealed : Forall is_byte sealed →
  is_Some (parse_sealed_blob sealed) ∧
  ∀ pcr pub priv, parse_sealed_blob sealed = Some (Ok (pcr, pub, priv)) ↔
    sealed = encode_sealed_blob pcr pub priv ∧ wf_header pcr pub.
Proof.
  intros Hb. split; [apply parse_total|].
  destruct (decide (length sealed < 5)%nat) as [Hl|Hl%Nat.nlt_ge].
  { intros pcr pub priv. unfold parse_sealed_blob. rewrite (proj2 (Nat.ltb_lt _ _)) by done.
    split; [done|]. intros [-> _]. unfold encode_sealed_blob in Hl.
    rewrite !length_app, le_bytes_length in Hl. destruct pcr; cbn in Hl; lia. }
  destruct sealed as [|v t]; [cbn in Hl; lia|].
  destruct (decide (v = SEALED_VERSION_BYTE)) as [->|H1]; [|destruct (decide (v = SEALED_PCR_VERSION_BYTE)) as [->|H3]].
  - intros [ixs|] pub priv; [|by apply parse_plain_spec].
    split; [|by intros [[= ] _]]. intros Hp. exfalso. by apply (parse_plain_no_pcr t ixs pub priv).
  - intros [ixs|] pub priv; [by apply parse_pcr_spec|].
    split; [|by intros [[= ] _]]. intros Hp. exfalso. by apply (parse_pcr_no_plain t pub priv).
  - unfold parse_sealed_blob. rewrite (proj2 (Nat.ltb_ge _ _)) by done.
    change ((v :: t) !! 0%nat) with (Some v). cbn [mbind option_bind].
    rewrite (proj2 (Z.eqb_neq _ _) H1), (proj2 (Z.eqb_neq _ _) H3).
    intros [ixs|] pub priv; (split; [done|]); intros [[= ] _]; congruence.
Qed.

(** ** Embeddings survive their encodings *)
Section Bytes.
Context `{NanEncoding}.

Lemma f32_bits_roundtrip x : f32_valid x → f32_from_bits (f32_to_bits x) = x.
Proof.
  intros Hv. destruct (f32_is_nan x) eqn:Hn; [|by apply f32_from_to_bits].
  destruct x; try done. apply nan_bits_nan.
Qed.

Lemma floats_of_embedding_bytes e : Forall f32_valid e → floats_of_bytes (embedding_to_bytes e) = e.
Proof.
  induction 1 as [|x e Hx _ IH]; [done|]. unfold embedding_to_bytes in *. rewrite bind_cons.
  cbn [le_bytes app floats_of_bytes]. rewrite IH, le_bytes_value by (by apply f32_to_bits_u32).
  by rewrite f32_bits_roundtrip.
Qed.

Lemma embedding_to_bytes_length e : length (embedding_to_bytes e) = (length e * 4)%nat.
Proof.
  unfold embedding_to_bytes. induction e as [|x e IH]; [done|].
  rewrite bind_cons, length_app, IH. cbn. lia.
Qed.

Lemma embedding_to_bytes_byte e : Forall is_byte (embedding_to_bytes e).
Proof.
  unfold embedding_to_bytes. induction e as [|x e IH]; [done|]. rewrite bind_cons.
  apply Forall_app. split; [apply le_bytes_byte|done].
Qed.

Lemma bytes_to_embedding_to_bytes e : wf_embedding e → bytes_to_embedding (embedding_to_bytes e) = Ok e.
Proof.
  intros [Hl Hv]. unfold bytes_to_embedding. rewrite embedding_to_bytes_length, Hl.
  change (negb (EMBEDDING_LEN * 4 =? RAW_EMBEDDING_SIZE)%nat) with false. cbn iota.
  by rewrite floats_of_embedding_bytes.
Qed.
End Bytes.

Lemma seal_unfold `{Aead} s nonce data aad blob : seal_bytes_with_aad s nonce data aad = Ok blob →
  ∃ c, aes_encrypt (sealer_key s) nonce (unwrap_or "" aad) data = Ok c ∧
       blob = SOFTWARE_ENCRYPTED_VERSION_BYTE :: nonce ++ c.
Proof.
  unfold seal_bytes_with_aad. destruct (aes_encrypt _ _ _ _) as [c|e]; cbn; [|done].
  intros [= <-]. by exists c.
Qed.

(** Opening a blob of the sealer's shape is decrypting its ciphertext under its nonce. *)
Lemma unseal_shape `{Aead} s nonce c aad : length nonce = AES_NONCE_SIZE → (16 ≤ length c)%nat →
  unseal_bytes_with_aad s (SOFTWARE_ENCRYPTED_VERSION_BYTE :: nonce ++ c) aad =
  map_err (λ e, Encryption ("AES-GCM decryption failed (wrong key, AAD, or corrupted data): " +:+ e))
    (aes_decrypt (sealer_key s) nonce (unwrap_or "" aad) c).
Proof.
  intros Hn Hc. unfold unseal_bytes_with_aad. cbn [length]. rewrite length_app, Hn.
  rewrite (proj2 (Nat.ltb_ge _ _)) by (unfold AES_NONCE_SIZE; lia). cbn [head unwrap_or Z.eqb Pos.eqb negb].
  change (drop 1 (2 :: nonce ++ c)) with (nonce ++ c).
  change (drop (1 + AES_NONCE_SIZE) (SOFTWARE_ENCRYPTED_VERSION_BYTE :: nonce ++ c))
    with (drop AES_NONCE_SIZE (nonce ++ c)).
  change (drop 1 (SOFTWARE_ENCRYPTED_VERSION_BYTE :: nonce ++ c)) with (nonce ++ c).
  by rewrite take_app_length', drop_app_length'.
Qed.

(** A blob of the sealer is recognized and opens under the same key and data. *)
Lemma sealed_recognized `{AeadLaws} `{NanEncoding} s nonce e aad blob :
  wf_embedding e → length nonce = AES_NONCE_SIZE →
  seal_embedding_with_aad s nonce e aad = Ok blob →
  unseal_embedding_with_aad s blob aad = Ok e ∧ is_software_encrypted blob = true ∧ is_sealed blob = false ∧
  ∃ ct, blob = SOFTWARE_ENCRYPTED_VERSION_BYTE :: nonce ++ ct ∧ length ct = 2064%nat.
Proof.
  intros He Hn (ct & Hc & ->)%seal_unfold.
  assert (Hlc : length ct = 2064%nat).
  { rewrite (aead_tag _ _ _ _ _ Hc), embedding_to_bytes_length. destruct He as [-> _]. done. }
  assert (Hneq : (length (SOFTWARE_ENCRYPTED_VERSION_BYTE :: nonce ++ ct) =? RAW_EMBEDDING_SIZE)%nat = false).
  { apply Nat.eqb_neq. cbn [length]. rewrite length_app, Hn, Hlc. done. }
  unfold is_software_encrypted, is_sealed, is_software_encrypted_shape, is_sealed_shape. rewrite Hneq.
  split_and!; [|done|done|by exists ct].
  unfold unseal_embedding_with_aad. rewrite unseal_shape by (done || lia).
  rewrite (aead_decrypts _ _ _ _ _ Hc). cbn [map_err]. by apply bytes_to_embedding_to_bytes.
Qed.

(** An embedding sealed in software is recognized for what it is and opens to itself: the
    blob is classified as software-encrypted and as nothing else, the same key and device
    data return the embedding bit for bit, and any key and device data that open it at all
    are ones under which its ciphertext was produced. *)
Theorem software_seal_roundtrip `{AeadLaws} `{NanEncoding} s nonce e aad blob :
  wf_embedding e → length nonce = AES_NONCE_SIZE →
  seal_embedding_with_aad s nonce e aad = Ok blob →
  unseal_embedding_with_aad s blob aad = Ok e ∧
  is_software_encrypted blob = true ∧ is_sealed blob = false ∧
  (∀ s' aad' e', unseal_embedding_with_aad s' blob aad' = Ok e' →
     ∃ raw, aes_encrypt (sealer_key s') nonce (unwrap_or "" aad') raw = Ok (drop 13 blob) ∧
            bytes_to_embedding raw = Ok e').
Proof.
  intros He Hn Hseal. destruct (sealed_recognized _ _ _ _ _ He Hn Hseal) as (Hok & Hr & Hns & ct & -> & Hl).
  split_and!; [done|done|done|]. intros s' aad' e'. unfold unseal_embedding_with_aad.
  rewrite unseal_shape by (done || lia).
  destruct (aes_decrypt (sealer_key s') _ _ ct) as [raw|er] eqn:Hd; cbn [map_err]; [|done].
  intros Hraw. exists raw. split; [|done]. apply aead_authentic in Hd. rewrite Hd. f_equal.
  cbn [drop]. symmetry. by apply drop_app_length'.
Qed.

(** A cipher that satisfies the laws, for evaluation: the text itself, followed by sixteen
    bytes that name the key, the nonce and the associated data. *)
Definition toy_tag (k n : list Z) (a : string) : list Z :=
  let v := (foldl Z.add 0 k + foldl Z.add 0 n + Z.of_nat (String.length a)) mod 256 in repeat v 16.

Lemma toy_tag_length k n a : length (toy_tag k n a) = 16%nat.
Proof. apply repeat_length. Qed.

Definition bool_of_list_eq (a b : list Z) : bool := bool_decide (a = b).

Definition toy_aead : Aead := {|
  aes_encrypt k n a m := Ok (m ++ toy_tag k n a);
  aes_decrypt k n a c :=
    if ((16 <=? length c)%nat && bool_of_list_eq (drop (length c - 16) c) (toy_tag k n a))
    then Ok (take (length c - 16) c) else Err "tag mismatch";
|}.

#[local] Existing Instance toy_aead.

Lemma toy_aead_laws : AeadLaws.
Proof.
  split.
  - intros k n a m c [= <-]. cbn [aes_decrypt toy_aead]. rewrite length_app, toy_tag_length.
    replace (length m + 16 - 16)%nat with (length m) by lia.
    rewrite take_app_length, drop_app_length, (proj2 (Nat.leb_le _ _)) by lia.
    unfold bool_of_list_eq. by rewrite bool_decide_eq_true_2.
  - intros k n a m c. cbn [aes_decrypt aes_encrypt toy_aead]. destruct (_ && _) eqn:Hb; [|done].
    intros [= <-]. apply andb_true_iff in Hb as [_ Hb]. apply bool_decide_eq_true in Hb.
    by rewrite <- Hb, take_drop.
  - intros k n a m c [= <-]. by rewrite length_app, toy_tag_length.
Qed.

#[local] Existing Instance toy_aead_laws.
#[local] Existing Instance nan_x86.

Lemma software_seal_roundtrip_witness :
  let s := from_key (repeat 7 32) in let e := repeat f32_one 512 in
  ∃ blob, seal_embedding_with_aad s (repeat 5 12) e (Some "facelock-device:usb") = Ok blob ∧
    unseal_embedding_with_aad s blob (Some "facelock-device:usb") = Ok e.
Proof.
  intros s e. eexists. split; [reflexivity|].
  destruct (software_seal_roundtrip s (repeat 5 12) e (Some "facelock-device:usb") _
    ltac:(split; [reflexivity|apply Forall_forall; intros x Hx; apply list_elem_of_In, repeat_spec in Hx as ->; reflexivity]) eq_refl eq_refl) as [Hok _].
  exact Hok.
Defined.

Lemma sealed_blob_roundtrip_witness :
  parse_sealed_blob (encode_sealed_blob (Some [7; 11]) [9; 9] [1; 2; 3]) = Some (Ok (Some [7; 11], [9; 9], [1; 2; 3])).
Proof.
  apply (sealed_blob_roundtrip (encode_sealed_blob (Some [7; 11]) [9; 9] [1; 2; 3])).
  - vm_compute. repeat constructor; discriminate.
  - split; [reflexivity|]. split; [split; [repeat constructor; unfold is_u32; lia|cbn; lia]|unfold is_u32; cbn; lia].
Defined.
