(* ===== verification/PamDocument.v ===== *)
(** * PamDocument: the editor of PAM service files

    [facelock-cli/src/commands/pam.rs], [PamDocument] and what is computed from it: a service
    file as bytes and logical rules, where the module's line goes, how it is taken out again,
    and which rules name the module. The code walks the bytes with offsets; [Segment] is the
    structural view of the same file as gaps and rules, and the lemmas relate the two. *)

From S2P Require Import Prelude Text.

(** ** Bytes *)
Abbreviation bytes := (list ascii).
Definition bytes_of (s : string) : bytes := String.list_ascii_of_string s.

Definition space : ascii := Ascii.ascii_of_nat 32.
Definition tab : ascii := Ascii.ascii_of_nat 9.
Definition hash : ascii := Ascii.ascii_of_nat 35.
Definition backslash : ascii := Ascii.ascii_of_nat 92.

Definition is_blank (a : ascii) : bool := Ascii.eqb a space || Ascii.eqb a tab.

(** [u8::is_ascii_whitespace] *)
Definition is_ascii_whitespace (a : ascii) : bool :=
  let n := Ascii.nat_of_ascii a in ((n =? 32) || (n =? 9) || (n =? 10) || (n =? 12) || (n =? 13))%nat.

(** [Iterator::position] *)
Fixpoint position (p : ascii → bool) (b : bytes) : option nat :=
  match b with
  | [] => None
  | c :: b => if p c then Some O else S <$> position p b
  end.

(** [&b[i..j]] and [b[i] == c] *)
Definition slice (b : bytes) (i j : nat) : bytes := take (j - i) (drop i b).
Definition byte_is (b : bytes) (i : nat) (c : ascii) : bool :=
  match b !! i with Some x => Ascii.eqb x c | None => false end.

(** [slice::windows] *)
Fixpoint windows (k : nat) (b : bytes) : list bytes :=
  if (k <=? length b)%nat
  then take k b :: match b with [] => [] | _ :: b => windows k b end
  else [].

Definition bytes_eqb (a b : bytes) : bool := bool_decide (a = b).
Definition has_window (needle b : bytes) : bool := existsb (bytes_eqb needle) (windows (length needle) b).

(** [slice::strip_prefix] and [slice::strip_suffix] *)
Definition bytes_strip_prefix (pre b : bytes) : option bytes :=
  if bytes_eqb (take (length pre) b) pre then Some (drop (length pre) b) else None.
Definition bytes_strip_suffix (suf b : bytes) : option bytes :=
  if ((length suf <=? length b)%nat && bytes_eqb (drop (length b - length suf) b) suf)
  then Some (take (length b - length suf) b) else None.

(** [slice::eq_ignore_ascii_case] *)
Definition bytes_eq_ignore_case (a b : bytes) : bool :=
  bytes_eqb (map to_ascii_lowercase a) (map to_ascii_lowercase b).

(** The line the command adds and removes. *)
Definition PAM_LINE : bytes := bytes_of "auth      sufficient pam_facelock.so".
Definition module_name : bytes := bytes_of "pam_facelock.so".

(** ** Physical lines *)
Record PhysicalLine := {
  pl_bytes : bytes;
  pl_start : nat;
  pl_end : nat;
  content_end : nat }.

Definition physical_line_at (b : bytes) (start : nat) : option PhysicalLine :=
  if (length b <=? start)%nat then None
  else
    let end_ := match position (Ascii.eqb newline) (drop start b) with
                | Some relative => (start + relative + 1)%nat
                | None => length b
                end in
    let ce := if byte_is b (end_ - 1) newline
              then let ce := (end_ - 1)%nat in
                   if (start <? ce)%nat && byte_is b (ce - 1) carriage_return then (ce - 1)%nat else ce
              else end_ in
    Some {| pl_bytes := b; pl_start := start; pl_end := end_; content_end := ce |}.

Definition content (l : PhysicalLine) : bytes := slice (pl_bytes l) (pl_start l) (content_end l).

(** The part of a line's content that PAM reads. *)
Definition uncommented (c : bytes) : bytes :=
  take (default (length c) (position (Ascii.eqb hash) c)) c.

Definition semantic (l : PhysicalLine) : bytes := uncommented (content l).

Definition has_semantic_content (l : PhysicalLine) : bool :=
  existsb (λ a, negb (is_blank a)) (semantic l).

(** [while end > 0 && matches!(content[end - 1], b' ' | b'\t')] *)
Fixpoint before_blanks (c : bytes) (end_ : nat) : nat :=
  match end_ with
  | O => O
  | S e => if byte_is c e space || byte_is c e tab then before_blanks c e else end_
  end.

Definition trailing_backslash (c : bytes) : option nat :=
  if existsb (Ascii.eqb hash) c then None
  else
    let end_ := before_blanks c (length c) in
    if (0 <? end_)%nat && byte_is c (end_ - 1) backslash then Some (end_ - 1)%nat else None.

Definition continuation_backslash (l : PhysicalLine) : option nat := trailing_backslash (content l).

(** ** Logical rules

    The loops of the iterator take fuel; each pass moves past a physical line, which has a byte
    at least, so one more than the length of the file is enough. *)
Record LogicalRule := { lr_start : nat; lr_end : nat; lr_bytes : bytes }.

Definition file_fuel (b : bytes) : nat := S (length b).

Fixpoint first_semantic_line (fuel : nat) (b : bytes) (next : nat) : option PhysicalLine * nat :=
  match fuel with
  | O => (None, next)
  | S fuel =>
      match physical_line_at b next with
      | None => (None, next)
      | Some line =>
          if has_semantic_content line then (Some line, next)
          else first_semantic_line fuel b (pl_end line)
      end
  end.

Fixpoint last_continued_line (fuel : nat) (b : bytes) (line : PhysicalLine) : PhysicalLine :=
  match fuel with
  | O => line
  | S fuel =>
      if negb (is_some (continuation_backslash line)) || (pl_end line =? length b)%nat then line
      else
        match physical_line_at b (pl_end line) with
        | None => line
        | Some next => if has_semantic_content next then last_continued_line fuel b next else line
        end
  end.

(** [LogicalRules::next]: the rule and the iterator's new position. *)
Definition next_logical_rule (b : bytes) (next : nat) : option LogicalRule * nat :=
  match first_semantic_line (file_fuel b) b next with
  | (None, next) => (None, next)
  | (Some first, _) =>
      let end_ := pl_end (last_continued_line (file_fuel b) b first) in
      (Some {| lr_start := pl_start first; lr_end := end_; lr_bytes := slice b (pl_start first) end_ |}, end_)
  end.

Fixpoint logical_rules_from (fuel : nat) (b : bytes) (next : nat) : list LogicalRule :=
  match fuel with
  | O => []
  | S fuel =>
      match next_logical_rule b next with
      | (None, _) => []
      | (Some rule, next) => rule :: logical_rules_from fuel b next
      end
  end.

Definition logical_rules (b : bytes) : list LogicalRule := logical_rules_from (file_fuel b) b 0.

(** ** What a rule says *)
Fixpoint semantic_rule_from (fuel : nat) (rule : bytes) (next : nat) (out : bytes) : bytes :=
  match fuel with
  | O => out
  | S fuel =>
      match physical_line_at rule next with
      | None => out
      | Some line =>
          let segment := semantic line in
          let out := match continuation_backslash line with
                     | Some k => out ++ take k segment ++ [space]
                     | None => out ++ segment
                     end in
          semantic_rule_from fuel rule (pl_end line) out
      end
  end.

Definition semantic_rule (rule : bytes) : bytes := semantic_rule_from (file_fuel rule) rule 0 [].

Definition first_token (sem : bytes) : option bytes :=
  match position (λ a, negb (is_ascii_whitespace a)) sem with
  | None => None
  | Some start =>
      let end_ := match position is_ascii_whitespace (drop start sem) with
                  | Some relative => (start + relative)%nat
                  | None => length sem
                  end in
      Some (slice sem start end_)
  end.

Definition is_auth_rule (rule : bytes) : bool :=
  match first_token (semantic_rule rule) with
  | None => false
  | Some token =>
      bytes_eq_ignore_case (default token (bytes_strip_prefix (bytes_of "-") token)) (bytes_of "auth")
  end.

Definition is_facelock_rule (rule : bytes) : bool := has_window module_name (semantic_rule rule).

Definition has_facelock_rule (b : bytes) : bool :=
  existsb (λ rule, is_facelock_rule (lr_bytes rule)) (logical_rules b).

(** ** Inserting the module's line *)
Definition auth_insertion_offset (b : bytes) : option nat :=
  lr_start <$> find_map (λ rule, if is_auth_rule (lr_bytes rule) then Some rule else None) (logical_rules b).

Definition pam_header : bytes := bytes_of "#%PAM-1.0".

Definition pam_header_end (b : bytes) : option nat :=
  match physical_line_at b 0 with
  | None => None
  | Some header => if bytes_eqb (content header) pam_header then Some (pl_end header) else None
  end.

Definition line_ending_from (b : bytes) (from : nat) : option bytes :=
  match position (Ascii.eqb newline) (drop from b) with
  | None => None
  | Some relative =>
      let nl := (from + relative)%nat in
      if (from <? nl)%nat && byte_is b (nl - 1) carriage_return
      then Some (slice b (nl - 1) (nl + 1))
      else Some (slice b nl (nl + 1))
  end.

Definition or_else {A} (o : option A) (o' : option A) : option A :=
  match o with Some a => Some a | None => o' end.

Definition with_facelock_inserted (b : bytes) : bytes :=
  let auth_offset := auth_insertion_offset b in
  let header_end := if is_some auth_offset then None else pam_header_end b in
  let offset := default O (or_else auth_offset header_end) in
  let ending_from := if is_some auth_offset then offset else O in
  let ending := default [newline] (or_else (line_ending_from b ending_from) (line_ending_from b 0)) in
  let output := take offset b in
  if bool_decide (header_end = Some (length b)) && negb (is_some (bytes_strip_suffix [newline] b))
  then output ++ ending ++ PAM_LINE
  else
    let output := output ++ PAM_LINE in
    let output := match b with [] => output | _ => output ++ ending end in
    output ++ drop offset b.

(** Where the line will land, as the message that says so. *)
Inductive InsertionHint := PamInsertBeforeAuthHint | PamInsertAfterHeaderHint | PamInsertAtTopHint.

Definition insertion_hint (b : bytes) : InsertionHint :=
  if is_some (auth_insertion_offset b) then PamInsertBeforeAuthHint
  else if is_some (pam_header_end b) then PamInsertAfterHeaderHint
  else PamInsertAtTopHint.

(** ** Taking the rules out again *)
Record Removal := {
  output : bytes;
  copied_through : nat;
  previous_continued : bool;
  repaired_legacy_injection : bool }.

(** The walk over a rule's physical lines that looks for lines injected by older releases. *)
Fixpoint repair_lines (fuel : nat) (b : bytes) (rule_end next : nat) (st : Removal) : Removal :=
  match fuel with
  | O => st
  | S fuel =>
      if (rule_end <=? next)%nat then st
      else
        match physical_line_at b next with
        | None => st
        | Some line =>
            let st := if previous_continued st && bytes_eqb (content line) PAM_LINE
                      then {| output := output st ++ slice b (copied_through st) (pl_start line);
                              copied_through := pl_end line;
                              previous_continued := previous_continued st;
                              repaired_legacy_injection := true |}
                      else st in
            let st := {| output := output st; copied_through := copied_through st;
                         previous_continued := is_some (continuation_backslash line);
                         repaired_legacy_injection := repaired_legacy_injection st |} in
            repair_lines fuel b rule_end (pl_end line) st
        end
  end.

Definition remove_rule (b : bytes) (acc : bytes * nat) (rule : LogicalRule) : bytes * nat :=
  let '(out, copied) := acc in
  if negb (is_facelock_rule (lr_bytes rule)) then (out, copied)
  else
    let st := repair_lines (file_fuel b) b (lr_end rule) (lr_start rule)
                {| output := out; copied_through := copied;
                   previous_continued := false; repaired_legacy_injection := false |} in
    if repaired_legacy_injection st then (output st, copied_through st)
    else (output st ++ slice b (copied_through st) (lr_start rule), lr_end rule).

Definition with_facelock_removed (b : bytes) : bytes :=
  let '(out, copied) := fold_left (remove_rule b) (logical_rules b) ([], O) in
  out ++ drop copied b.

(** Whether every live reference has the spelling the command emits, which is what the cleanup
    of a whole machine may remove without being told the service's name. *)
Fixpoint exact_lines (fuel : nat) (b : bytes) (rule_end next : nat) (saw_exact : bool) : bool :=
  match fuel with
  | O => false
  | S fuel =>
      if (rule_end <=? next)%nat then saw_exact
      else
        match physical_line_at b next with
        | None => false
        | Some line =>
            if has_window module_name (semantic line)
            then if bytes_eqb (content line) PAM_LINE then exact_lines fuel b rule_end (pl_end line) true else false
            else exact_lines fuel b rule_end (pl_end line) saw_exact
        end
  end.

Fixpoint exact_rules (b : bytes) (rules : list LogicalRule) (found : bool) : bool :=
  match rules with
  | [] => found
  | rule :: rules =>
      if negb (is_facelock_rule (lr_bytes rule)) then exact_rules b rules found
      else if exact_lines (file_fuel b) b (lr_end rule) (lr_start rule) false
           then exact_rules b rules true else false
  end.

Definition has_only_exact_legacy_facelock_rules (b : bytes) : bool := exact_rules b (logical_rules b) false.
