(* ===== verification/PamDocumentProofs.v ===== *)
(** * PamDocumentProofs: the editor's edits are exact

    The structural view of a service file: its physical lines, grouped into the gaps and the
    logical rules between them. The offsets of [PamDocument] walk this view, so what the edits
    do to the file is what they do to its segments. *)

From S2P Require Import Prelude Text PamDocument.

(** ** Windows and positions *)
Lemma has_window_spec n b : n ≠ [] → has_window n b = true ↔ ∃ x y, b = x ++ n ++ y.
Proof.
  intros Hn. unfold has_window. induction b as [|c b IH].
  - destruct n; [done|]. cbn. split; [done|]. intros (x & y & E). destruct x; discriminate.
  - cbn [windows]. destruct (Nat.leb_spec (length n) (length (c :: b))) as [Hl|Hl].
    + cbn [existsb]. rewrite orb_true_iff, IH. unfold bytes_eqb at 1. rewrite bool_decide_eq_true. split.
      * intros [E|(x & y & ->)].
        -- exists [], (drop (length n) (c :: b)). cbn [app]. rewrite E at 1. by rewrite take_drop.
        -- by exists (c :: x), y.
      * intros ([|a x] & y & E); cbn in E.
        -- left. rewrite E. by rewrite take_app_length.
        -- injection E as -> ->. right. by exists x, y.
    + cbn [existsb]. split; [done|]. intros (x & y & E). apply (f_equal length) in E.
      rewrite !length_app in E. lia.
Qed.

Lemma has_window_false n b : n ≠ [] → has_window n b = false ↔ ∀ x y, b ≠ x ++ n ++ y.
Proof.
  intros Hn. split.
  - intros H x y E. assert (has_window n b = true) by (apply has_window_spec; eauto). congruence.
  - intros H. destruct (has_window n b) eqn:E; [|done]. apply has_window_spec in E as (x & y & E); [|done].
    by destruct (H x y).
Qed.

(** A needle that lacks the byte between two parts lies in one of them. *)
Lemma has_window_split n c x y : n ≠ [] → c ∉ n →
  has_window n (x ++ c :: y) = has_window n x || has_window n y.
Proof.
  intros Hn Hc. apply eq_true_iff_eq. rewrite orb_true_iff, !has_window_spec by done. split.
  - intros (u & v & E). destruct (decide (length u + length n ≤ length x)%nat) as [H1|H1].
    + left. exists u, (drop (length u + length n) x).
      assert (x = take (length x) (u ++ n ++ v)) as Hx by (rewrite <- E; by rewrite take_app_length).
      rewrite app_assoc in Hx |- *. rewrite take_app_ge in Hx by (rewrite length_app; lia).
      rewrite Hx at 2. rewrite drop_app_ge by (rewrite length_app; lia).
      rewrite Hx at 1. f_equal. rewrite length_app, Nat.sub_diag. done.
    + right. destruct (decide (length x < length u)%nat) as [H2|H2].
      * exists (drop (S (length x)) u), v.
        assert (y = drop (S (length x)) (u ++ n ++ v)) as ->.
        { rewrite <- E. rewrite drop_app_ge by lia. by replace (S (length x) - length x)%nat with 1%nat by lia. }
        by rewrite drop_app_le by lia.
      * exfalso. apply Hc. apply list_elem_of_lookup. exists (length x - length u)%nat.
        assert ((u ++ n ++ v) !! length x = Some c) as El by (rewrite <- E; rewrite lookup_app_r, Nat.sub_diag by lia; done).
        rewrite lookup_app_r, lookup_app_l in El by lia. done.
  - intros [(u & v & ->)|(u & v & ->)].
    + exists u, (v ++ c :: y). by rewrite <- !app_assoc.
    + exists (x ++ c :: u), v. by rewrite <- app_assoc.
Qed.

Lemma has_window_blank n x : n ≠ [] → Forall (λ a, a ∉ n) x → has_window n x = false.
Proof.
  intros Hn Hx. apply has_window_false; [done|]. intros u v ->. destruct n as [|a n]; [done|].
  apply Forall_app in Hx as [_ Hx]. apply Forall_app in Hx as [Hx _]. apply Forall_cons in Hx as [Hx _].
  apply Hx, list_elem_of_here.
Qed.

Lemma position_app p x c y : existsb p x = false → p c = true → position p (x ++ c :: y) = Some (length x).
Proof.
  intros Hx Hc. induction x as [|a x IH]; cbn; [by rewrite Hc|].
  cbn in Hx. bsplit. match goal with H : p a = false |- _ => rewrite H end. by rewrite IH.
Qed.

Lemma position_none p x : position p x = None ↔ existsb p x = false.
Proof.
  induction x as [|a x IH]; cbn; [done|]. destruct (p a); [done|]. cbn. rewrite <- IH.
  by destruct (position p x).
Qed.

(** ** Physical lines *)
#[local] Abbreviation eqb_nl := (Ascii.eqb newline).

Fixpoint physical_lines (b : bytes) : list bytes :=
  match b with
  | [] => []
  | c :: b =>
      if eqb_nl c then [c] :: physical_lines b
      else match physical_lines b with
           | [] => [[c]]
           | l :: ls => (c :: l) :: ls
           end
  end.

Definition bytes_starts_hash (b : bytes) : bool := match b with a :: _ => Ascii.eqb a hash | [] => false end.

(** What a file's lines look like: each ends with its line feed, but the last may lack it. *)
Inductive Lines : list bytes → Prop :=
  | Lines_nil : Lines []
  | Lines_last l : l ≠ [] → existsb eqb_nl l = false → Lines [l]
  | Lines_cons body ls : existsb eqb_nl body = false → Lines ls → Lines ((body ++ [newline]) :: ls).

Lemma physical_lines_concat b : concat (physical_lines b) = b.
Proof.
  induction b as [|c b IH]; [done|]. cbn [physical_lines]. destruct (eqb_nl c); [cbn; by rewrite IH|].
  destruct (physical_lines b) as [|l ls]; cbn in *; by rewrite <- IH.
Qed.

Lemma physical_lines_shape b : Lines (physical_lines b).
Proof.
  induction b as [|c b IH]; [constructor|]. cbn [physical_lines]. destruct (eqb_nl c) eqn:Ec.
  - apply Ascii.eqb_eq in Ec as <-. by apply (Lines_cons []).
  - inversion IH as [E|l Hne Hl E|body ls Hb Hls E].
    + apply Lines_last; [done|]. cbn [existsb]. by rewrite Ec.
    + apply Lines_last; [done|]. cbn [existsb]. by rewrite Ec.
    + change (c :: body ++ [newline]) with ((c :: body) ++ [newline]).
      apply Lines_cons; [|done]. cbn [existsb]. by rewrite Ec.
Qed.

Lemma physical_lines_body body b : existsb eqb_nl body = false →
  physical_lines (body ++ newline :: b) = (body ++ [newline]) :: physical_lines b.
Proof.
  induction body as [|c body IH]; intros Hb; [done|]. cbn [existsb] in Hb. bsplit.
  cbn [app physical_lines]. rewrite IH by done. by match goal with H : eqb_nl c = false |- _ => rewrite H end.
Qed.

Lemma physical_lines_unterminated l : l ≠ [] → existsb eqb_nl l = false → physical_lines l = [l].
Proof.
  induction l as [|c l IH]; intros Hne Hl; [done|]. cbn [existsb] in Hl. bsplit. cbn [physical_lines].
  match goal with H : eqb_nl c = false |- _ => rewrite H end. destruct l; [done|]. by rewrite IH.
Qed.

(** A file's lines are the only lines with its bytes. *)
Lemma physical_lines_unique ls : Lines ls → physical_lines (concat ls) = ls.
Proof.
  induction 1 as [|l Hne Hl|body ls Hb Hls IH]; [done| |].
  - cbn. rewrite app_nil_r. by apply physical_lines_unterminated.
  - cbn. rewrite <- app_assoc. cbn. by rewrite physical_lines_body, IH.
Qed.

Lemma Lines_tail l ls : Lines (l :: ls) → Lines ls.
Proof. inversion 1; subst; [constructor|done]. Qed.

Lemma Lines_app_r ls1 ls2 : Lines (ls1 ++ ls2) → Lines ls2.
Proof. induction ls1 as [|l ls1 IH]; [done|]. intros H. by apply IH, (Lines_tail l). Qed.

Lemma Lines_app_l ls1 ls2 : Lines (ls1 ++ ls2) → Lines ls1.
Proof.
  induction ls1 as [|l ls1 IH]; intros H; [constructor|]. cbn in H. inversion H as [|? Hne Hl E|body ls Hb Hls E]; subst.
  - destruct ls1; [by apply Lines_last|done].
  - apply Lines_cons; [done|]. by apply IH.
Qed.

Lemma Lines_sublist ls ls' : Lines ls → sublist ls' ls → Lines ls'.
Proof.
  intros H. revert ls'. induction H as [|l Hne Hl|body ls Hb Hls IH]; intros ls' Hs.
  - apply sublist_nil_r in Hs as ->. constructor.
  - apply sublist_cons_r in Hs as [Hs|(k & -> & Hs)].
    + apply sublist_nil_r in Hs as ->. constructor.
    + apply sublist_nil_r in Hs as ->. by apply Lines_last.
  - apply sublist_cons_r in Hs as [Hs|(k & -> & Hs)]; [by apply IH|]. apply Lines_cons; [done|]. by apply IH.
Qed.

(** A terminated line may go before any other line. *)
Lemma Lines_insert ls1 body ls2 :
  Lines (ls1 ++ ls2) → Forall (λ l, ∃ u, l = u ++ [newline]) ls1 → existsb eqb_nl body = false →
  Lines (ls1 ++ (body ++ [newline]) :: ls2).
Proof.
  induction ls1 as [|l ls1 IH]; intros H Ht Hb; cbn in *; [by apply Lines_cons|].
  apply Forall_cons in Ht as [(u & ->) Ht]. inversion H as [|? Hne Hl E|body' ls Hb' Hls E].
  - exfalso. rewrite existsb_app in Hl. cbn in Hl. by rewrite orb_true_r in Hl.
  - apply app_inj_tail in E as [-> _]. apply Lines_cons; [done|]. by apply IH.
Qed.

(** [strip_eol] is a raw line's content. *)
Definition drop_cr (b : bytes) : bytes :=
  match last b with
  | Some a => if Ascii.eqb a carriage_return then removelast b else b
  | None => b
  end.

Definition strip_eol (l : bytes) : bytes :=
  match last l with
  | Some a => if Ascii.eqb a newline then drop_cr (removelast l) else l
  | None => l
  end.

Lemma strip_eol_terminated body : strip_eol (body ++ [newline]) = drop_cr body.
Proof. unfold strip_eol. by rewrite last_snoc, Ascii.eqb_refl, removelast_last. Qed.

Lemma strip_eol_unterminated l : existsb eqb_nl l = false → strip_eol l = l.
Proof.
  intros Hl. unfold strip_eol. destruct (last l) as [a|] eqn:E; [|done].
  apply last_Some in E as [l' ->]. rewrite existsb_app in Hl. cbn in Hl. bsplit.
  by rewrite Ascii.eqb_sym, H0.
Qed.

Lemma drop_cr_prefix b : ∃ e, b = drop_cr b ++ e.
Proof.
  unfold drop_cr. destruct (last b) as [a|] eqn:E; [|exists []; by rewrite app_nil_r].
  apply last_Some in E as [l' ->]. destruct (Ascii.eqb a carriage_return).
  - exists [a]. by rewrite removelast_last.
  - exists []. by rewrite app_nil_r.
Qed.

Lemma strip_eol_prefix ls l : Lines (l :: ls) → ∃ e, l = strip_eol l ++ e.
Proof.
  inversion 1 as [|? Hne Hl|body ls' Hb Hls]; subst.
  - rewrite strip_eol_unterminated by done. exists []. by rewrite app_nil_r.
  - rewrite strip_eol_terminated. destruct (drop_cr_prefix body) as [e He].
    exists (e ++ [newline]). rewrite app_assoc. by rewrite <- He.
Qed.

(** What the code computes at the offset of a line. *)
Definition line_at (pre l rest : bytes) : PhysicalLine :=
  {| pl_bytes := pre ++ l ++ rest; pl_start := length pre; pl_end := length pre + length l;
     content_end := length pre + length (strip_eol l) |}.

Lemma byte_is_app_r pre b i c : byte_is (pre ++ b) (length pre + i) c = byte_is b i c.
Proof. unfold byte_is. rewrite lookup_app_r by lia. by replace (length pre + i - length pre)%nat with i by lia. Qed.

Lemma byte_is_cons b a rest c : byte_is (b ++ a :: rest) (length b) c = Ascii.eqb a c.
Proof. unfold byte_is. rewrite lookup_app_r by lia. by rewrite Nat.sub_diag. Qed.

Lemma byte_is_snoc b a rest c : byte_is ((b ++ [a]) ++ rest) (length b) c = Ascii.eqb a c.
Proof. rewrite <- app_assoc. apply byte_is_cons. Qed.

Lemma content_end_terminated pre body rest :
  (if (length pre <? length pre + length body)%nat &&
      byte_is (pre ++ (body ++ [newline]) ++ rest) (length pre + length body - 1) carriage_return
   then (length pre + length body - 1)%nat else (length pre + length body)%nat)
  = (length pre + length (drop_cr body))%nat.
Proof.
  unfold drop_cr. destruct (last body) as [a|] eqn:E.
  - apply last_Some in E as [u ->]. rewrite length_app. cbn [length].
    replace (length pre + (length u + 1) - 1)%nat with (length pre + length u)%nat by lia.
    rewrite byte_is_app_r, <- !app_assoc. cbn [app]. rewrite byte_is_cons.
    destruct (Nat.ltb_spec (length pre) (length pre + (length u + 1))); [|lia].
    destruct (Ascii.eqb a carriage_return); cbn; [by rewrite removelast_last|rewrite length_app; cbn; lia].
  - apply last_None in E as ->. cbn [length]. rewrite Nat.add_0_r, Nat.ltb_irrefl. done.
Qed.

Lemma position_newline body rest : existsb eqb_nl body = false →
  position eqb_nl ((body ++ [newline]) ++ rest) = Some (length body).
Proof. intros Hb. rewrite <- app_assoc. apply position_app; [done|]. apply Ascii.eqb_refl. Qed.

Lemma physical_line_at_spec pre ls : Lines ls →
  physical_line_at (pre ++ concat ls) (length pre) =
  match ls with [] => None | l :: ls => Some (line_at pre l (concat ls)) end.
Proof.
  intros Hls. unfold physical_line_at. rewrite drop_app_length, length_app.
  inversion Hls as [|l Hne Hl|body ls' Hb Hls']; subst.
  - destruct (Nat.leb_spec (length pre + length (concat (@nil bytes))) (length pre)); [done|cbn in *; lia].
  - cbn [concat]. rewrite app_nil_r. assert (length l ≠ 0)%nat by (by destruct l).
    destruct (Nat.leb_spec (length pre + length l) (length pre)); [lia|].
    rewrite (proj2 (position_none _ _) Hl). unfold line_at.
    rewrite app_nil_r, strip_eol_unterminated by done.
    assert (byte_is (pre ++ l) (length pre + length l - 1) newline = false) as ->; [|done].
    destruct (exists_last Hne) as (u & a & ->). rewrite length_app in *. cbn [length] in *.
    replace (length pre + (length u + 1) - 1)%nat with (length pre + length u)%nat by lia.
    rewrite byte_is_app_r. rewrite <- (app_nil_r (u ++ [a])), byte_is_snoc.
    rewrite existsb_app in Hl. cbn in Hl. bsplit. by rewrite Ascii.eqb_sym.
  - cbn [concat]. rewrite !length_app. cbn [length].
    destruct (Nat.leb_spec (length pre + (length body + 1 + length (concat ls'))) (length pre)); [lia|].
    rewrite position_newline by done. cbn beta iota zeta.
    replace (length pre + length body + 1 - 1)%nat with (length pre + length body)%nat by lia.
    rewrite byte_is_app_r, byte_is_snoc, Ascii.eqb_refl, content_end_terminated.
    unfold line_at. rewrite strip_eol_terminated, length_app. cbn [length]. do 2 f_equal. lia.
Qed.

Lemma content_line_at pre l ls : Lines (l :: ls) → content (line_at pre l (concat ls)) = strip_eol l.
Proof.
  intros H. destruct (strip_eol_prefix _ _ H) as [e He]. unfold content, slice, line_at. cbn [pl_bytes pl_start content_end].
  rewrite drop_app_length. replace (length pre + length (strip_eol l) - length pre)%nat with (length (strip_eol l)) by lia.
  rewrite He at 2. rewrite <- app_assoc. by rewrite take_app_length.
Qed.

(** ** Segments: gaps and rules *)
Definition line_semantic (l : bytes) : bytes := uncommented (strip_eol l).
Definition line_has (l : bytes) : bool := existsb (λ a, negb (is_blank a)) (line_semantic l).
Definition line_continues (l : bytes) : bool := is_some (trailing_backslash (strip_eol l)).

Inductive Segment := Gap (l : bytes) | Rule (r : list bytes).

Fixpoint segments (ls : list bytes) : list Segment :=
  match ls with
  | [] => []
  | l :: ls =>
      if line_has l
      then if line_continues l
           then match segments ls with
                | Rule r :: s => Rule (l :: r) :: s
                | s => Rule [l] :: s
                end
           else Rule [l] :: segments ls
      else Gap l :: segments ls
  end.

Definition segment_lines (s : Segment) : list bytes := match s with Gap l => [l] | Rule r => r end.
Definition lines_of (s : list Segment) : list bytes := concat (map segment_lines s).

Lemma lines_of_app s t : lines_of (s ++ t) = lines_of s ++ lines_of t.
Proof. unfold lines_of. by rewrite map_app, concat_app. Qed.

(** The rule that starts at a line, and what follows it. *)
Fixpoint rule_of (l : bytes) (ls : list bytes) : list bytes * list bytes :=
  if line_continues l
  then match ls with
       | [] => ([l], [])
       | l' :: ls' => if line_has l' then let '(r, s) := rule_of l' ls' in (l :: r, s) else ([l], ls)
       end
  else ([l], ls).

Lemma rule_of_segments ls : ∀ l, line_has l = true →
  segments (l :: ls) = Rule (rule_of l ls).1 :: segments (rule_of l ls).2.
Proof.
  induction ls as [|l' ls IH]; intros l Hl.
  - cbn. rewrite Hl. by destruct (line_continues l).
  - change (segments (l :: l' :: ls)) with
      (if line_has l then if line_continues l then
         match segments (l' :: ls) with Rule r :: s => Rule (l :: r) :: s | s => Rule [l] :: s end
       else Rule [l] :: segments (l' :: ls) else Gap l :: segments (l' :: ls)).
    rewrite Hl. cbn [rule_of]. destruct (line_continues l); [|done]. destruct (line_has l') eqn:Hl'.
    + rewrite IH by done. by destruct (rule_of l' ls).
    + cbn [fst snd segments]. by rewrite Hl'.
Qed.

Lemma rule_of_lines ls : ∀ l, l :: ls = (rule_of l ls).1 ++ (rule_of l ls).2.
Proof.
  induction ls as [|l' ls IH]; intros l; cbn [rule_of]; destruct (line_continues l); try done.
  destruct (line_has l'); [|done]. specialize (IH l'). destruct (rule_of l' ls). cbn in *. by rewrite IH.
Qed.

Lemma rule_of_nonempty l ls : (rule_of l ls).1 ≠ [].
Proof.
  destruct ls as [|l' ls]; cbn [rule_of]; destruct (line_continues l); try done.
  destruct (line_has l'); [|done]. by destruct (rule_of l' ls).
Qed.

Lemma segments_ind (P : list bytes → Prop) :
  P [] →
  (∀ l ls, line_has l = false → P ls → P (l :: ls)) →
  (∀ l ls, line_has l = true → P (rule_of l ls).2 → P (l :: ls)) →
  ∀ ls, P ls.
Proof.
  intros Hn Hg Hr ls. remember (length ls) as n eqn:E. revert ls E.
  induction (Nat.lt_wf_0 n) as [n _ IH]. intros ls ->. destruct ls as [|l ls]; [done|].
  destruct (line_has l) eqn:Hl.
  - apply Hr; [done|]. eapply IH; [|done]. pose proof (rule_of_lines ls l) as E. apply (f_equal length) in E.
    rewrite length_app in E. pose proof (rule_of_nonempty l ls). destruct ((rule_of l ls).1); [done|]. cbn in *. lia.
  - apply Hg; [done|]. eapply IH; [|done]. cbn. lia.
Qed.

Lemma segments_lines ls : lines_of (segments ls) = ls.
Proof.
  induction ls as [|l ls Hl IH|l ls Hl IH] using segments_ind; [done| |].
  - cbn [segments]. rewrite Hl. cbn. by f_equal.
  - rewrite rule_of_segments by done. cbn [lines_of map concat segment_lines].
    change (concat (map segment_lines ?s)) with (lines_of s). by rewrite IH, <- rule_of_lines.
Qed.

(** ** The iterator walks the segments *)
Section walk.
Context (pre l : bytes) (ls : list bytes) (Hls : Lines (l :: ls)).

Lemma has_line_at : has_semantic_content (line_at pre l (concat ls)) = line_has l.
Proof. unfold has_semantic_content, semantic. by rewrite content_line_at. Qed.

Lemma continuation_line_at : continuation_backslash (line_at pre l (concat ls)) = trailing_backslash (strip_eol l).
Proof. unfold continuation_backslash. by rewrite content_line_at. Qed.

Lemma semantic_line_at : semantic (line_at pre l (concat ls)) = line_semantic l.
Proof. unfold semantic. by rewrite content_line_at. Qed.
End walk.

Lemma pl_end_line_at pre l rest : pl_end (line_at pre l rest) = length (pre ++ l).
Proof. cbn. by rewrite length_app. Qed.

Lemma concat_cons_assoc (pre l : bytes) (ls : list bytes) : pre ++ concat (l :: ls) = (pre ++ l) ++ concat ls.
Proof. cbn. by rewrite app_assoc. Qed.

Lemma first_semantic_line_spec fuel : ∀ ls pre, Lines ls → (length ls < fuel)%nat →
  ∃ gaps ls' : list bytes, ls = gaps ++ ls' ∧ Forall (λ l, line_has l = false) gaps ∧
    match ls' with
    | [] => first_semantic_line fuel (pre ++ concat ls) (length pre) = (None, length (pre ++ concat gaps))
    | l :: rest => line_has l = true ∧
        first_semantic_line fuel (pre ++ concat ls) (length pre)
        = (Some (line_at (pre ++ concat gaps) l (concat rest)), length (pre ++ concat gaps))
    end.
Proof.
  induction fuel as [|fuel IH]; intros ls pre Hls Hf; [lia|]. cbn [first_semantic_line].
  rewrite physical_line_at_spec by done. destruct ls as [|l ls].
  - exists [], []. cbn. by rewrite app_nil_r.
  - rewrite has_line_at by done. destruct (line_has l) eqn:Hl.
    + exists [], (l :: ls). cbn [concat]. rewrite app_nil_r. done.
    + rewrite pl_end_line_at, concat_cons_assoc.
      destruct (IH ls (pre ++ l)) as (gaps & ls' & -> & Hg & Hr); [by eapply Lines_tail|cbn in Hf; lia|].
      exists (l :: gaps), ls'. split; [done|]. split; [by constructor|]. cbn [concat]. by rewrite !app_assoc in *.
Qed.

Lemma last_continued_line_spec fuel : ∀ ls l pre, Lines (l :: ls) → (length ls < fuel)%nat →
  pl_end (last_continued_line fuel (pre ++ concat (l :: ls)) (line_at pre l (concat ls)))
  = length (pre ++ concat (rule_of l ls).1).
Proof.
  induction fuel as [|fuel IH]; intros ls l pre Hls Hf; [lia|]. cbn [last_continued_line].
  rewrite continuation_line_at by done. change (is_some (trailing_backslash (strip_eol l))) with (line_continues l).
  rewrite pl_end_line_at, concat_cons_assoc.
  destruct ls as [|l' ls]; cbn [rule_of]; destruct (line_continues l); cbn [negb orb fst concat];
    rewrite ?app_nil_r, ?Nat.eqb_refl; try apply pl_end_line_at.
  rewrite (length_app (pre ++ l)).
  assert (l' ≠ []) as Hl' by (inversion Hls; subst; match goal with H : Lines (l' :: ls) |- _ => inversion H; subst end;
    [done|by destruct body0]).
  assert (length l' ≠ 0)%nat by (by destruct l'). change (l' ++ concat ls) with (concat (l' :: ls)).
  destruct (Nat.eqb_spec (length (pre ++ l)) (length (pre ++ l) + length (concat (l' :: ls)))) as [E|_];
    [exfalso; cbn in E; rewrite (length_app l') in E; lia|].
  rewrite physical_line_at_spec, has_line_at by (by eapply Lines_tail).
  destruct (line_has l'); [|rewrite pl_end_line_at; cbn [fst concat]; by rewrite app_nil_r].
  rewrite IH; [|by eapply Lines_tail|cbn in Hf; lia]. destruct (rule_of l' ls). cbn. by rewrite <- app_assoc.
Qed.

(** The spans of the rules of a list of segments that starts at an offset. *)
Fixpoint rule_spans (off : nat) (s : list Segment) : list LogicalRule :=
  match s with
  | [] => []
  | Gap l :: s => rule_spans (off + length l) s
  | Rule r :: s =>
      {| lr_start := off; lr_end := off + length (concat r); lr_bytes := concat r |}
      :: rule_spans (off + length (concat r)) s
  end.

Lemma rule_spans_gaps gaps ls off : Forall (λ l, line_has l = false) gaps →
  rule_spans off (segments (gaps ++ ls)) = rule_spans (off + length (concat gaps)) (segments ls).
Proof.
  intros H. revert off. induction H as [|l gaps Hl Hg IH]; intros off; [by rewrite Nat.add_0_r|].
  cbn [app segments]. rewrite Hl. cbn [rule_spans concat]. rewrite IH, length_app. f_equal. lia.
Qed.

Lemma Lines_length ls : Lines ls → (length ls ≤ length (concat ls))%nat.
Proof.
  induction 1 as [|l Hne Hl|body ls Hb Hls IH]; cbn; [done| |].
  - rewrite app_nil_r. destruct l; [done|]. cbn. lia.
  - rewrite !length_app. cbn. lia.
Qed.

Lemma fuel_enough (pre : bytes) ls : Lines ls → (length ls < file_fuel (pre ++ concat ls))%nat.
Proof. intros H%Lines_length. unfold file_fuel. rewrite length_app. lia. Qed.

Lemma slice_app_mid (a b c : bytes) : slice (a ++ b ++ c) (length a) (length (a ++ b)) = b.
Proof.
  unfold slice. rewrite drop_app_length, length_app.
  replace (length a + length b - length a)%nat with (length b) by lia. apply take_app_length.
Qed.

Lemma logical_rules_from_spec fuel : ∀ ls pre, Lines ls → (length ls < fuel)%nat →
  logical_rules_from fuel (pre ++ concat ls) (length pre) = rule_spans (length pre) (segments ls).
Proof.
  induction fuel as [|fuel IH]; intros ls pre Hls Hf; [lia|]. cbn [logical_rules_from].
  unfold next_logical_rule.
  destruct (first_semantic_line_spec (file_fuel (pre ++ concat ls)) ls pre) as (gaps & ls' & -> & Hg & Hr);
    [done|by apply fuel_enough|].
  rewrite rule_spans_gaps by done. destruct ls' as [|l ls]; [by rewrite Hr|].
  destruct Hr as [Hl ->]. apply Lines_app_r in Hls as Hls'. rewrite length_app in Hf. cbn [length] in Hf.
  rewrite concat_app, app_assoc.
  pose proof (fuel_enough (pre ++ concat gaps) (l :: ls) Hls') as Hfuel.
  rewrite last_continued_line_spec by (done || cbn [length] in Hfuel; lia).
  rewrite <- (length_app pre), rule_of_segments by done. cbn [rule_spans].
  pose proof (rule_of_lines ls l) as E. pose proof (rule_of_nonempty l ls) as Hne.
  change (pl_start (line_at (pre ++ concat gaps) l (concat ls))) with (length (pre ++ concat gaps)).
  rewrite <- !(length_app (pre ++ concat gaps)).
  rewrite E, concat_app. rewrite slice_app_mid. f_equal.
  rewrite app_assoc. apply IH; [rewrite E in Hls'; by eapply Lines_app_r|].
  apply (f_equal length) in E. rewrite length_app in E. destruct ((rule_of l ls).1); [done|]. cbn [length] in E. lia.
Qed.

(** The iterator yields exactly the rule segments of the file. *)
Lemma logical_rules_spec b : logical_rules b = rule_spans 0 (segments (physical_lines b)).
Proof.
  unfold logical_rules. pose proof (logical_rules_from_spec (file_fuel b) (physical_lines b) []) as H.
  cbn [app length] in H. rewrite physical_lines_concat in H. apply H; [apply physical_lines_shape|].
  pose proof (fuel_enough [] _ (physical_lines_shape b)) as Hf. cbn [app] in Hf. by rewrite physical_lines_concat in Hf.
Qed.

(** ** What a rule says *)
Definition says (l : bytes) : bytes :=
  match trailing_backslash (strip_eol l) with
  | Some k => take k (line_semantic l) ++ [space]
  | None => line_semantic l
  end.

Lemma semantic_rule_from_spec fuel : ∀ ls pre out, Lines ls → (length ls < fuel)%nat →
  semantic_rule_from fuel (pre ++ concat ls) (length pre) out = out ++ concat (map says ls).
Proof.
  induction fuel as [|fuel IH]; intros ls pre out Hls Hf; [lia|]. cbn [semantic_rule_from].
  rewrite physical_line_at_spec by done. destruct ls as [|l ls]; [by rewrite app_nil_r|].
  rewrite semantic_line_at, continuation_line_at, pl_end_line_at, concat_cons_assoc by done.
  rewrite IH by (eapply Lines_tail, Hls || (cbn in Hf; lia)). cbn [map concat]. unfold says at 2.
  by destruct (trailing_backslash (strip_eol l)); rewrite <- !app_assoc.
Qed.

Lemma semantic_rule_spec ls : Lines ls → semantic_rule (concat ls) = concat (map says ls).
Proof.
  intros Hls. unfold semantic_rule. apply (semantic_rule_from_spec _ ls [] []); [done|].
  by apply (fuel_enough []).
Qed.

(** A line names the module, in the part of it that PAM reads. *)
Definition names (l : bytes) : bool := has_window module_name (says l).

Lemma module_name_nonempty : module_name ≠ [].
Proof. done. Qed.

Lemma space_not_in_name : space ∉ module_name.
Proof. apply (bool_decide_unpack _). vm_compute. done. Qed.

Lemma says_continued l : line_continues l = true → ∃ u, says l = u ++ [space].
Proof. unfold line_continues, says. destruct (trailing_backslash (strip_eol l)); [by eexists|done]. Qed.

Lemma has_window_says r : Forall (λ l, line_continues l = true) (removelast r) →
  has_window module_name (concat (map says r)) = existsb names r.
Proof.
  induction r as [|l r IH]; intros H; [done|]. destruct r as [|l' r].
  - cbn. by rewrite app_nil_r, orb_false_r.
  - change (removelast (l :: l' :: r)) with (l :: removelast (l' :: r)) in H. apply Forall_cons in H as [Hl H].
    change (concat (map says (l :: l' :: r))) with (says l ++ concat (map says (l' :: r))).
    change (existsb names (l :: l' :: r)) with (names l || existsb names (l' :: r)). rewrite <- IH by done.
    unfold names. destruct (says_continued l Hl) as [u ->]. rewrite <- app_assoc.
    pose proof module_name_nonempty. pose proof space_not_in_name. cbn [app].
    rewrite !has_window_split by done. by rewrite (proj2 (has_window_false _ [] ltac:(done)) ltac:(by intros [] [])), orb_false_r.
Qed.

(** ** Which rules name the module *)
Definition good_segment (s : Segment) : Prop :=
  match s with
  | Gap l => line_has l = false
  | Rule r => r ≠ [] ∧ Forall (λ l, line_continues l = true) (removelast r)
  end.

Lemma segments_good ls : Forall good_segment (segments ls).
Proof.
  induction ls as [|l ls IH]; cbn [segments]; [constructor|].
  destruct (line_has l) eqn:Hl; [|by constructor].
  assert (good_segment (Rule [l])) by (split; [done|constructor]).
  destruct (line_continues l) eqn:Hc; [|by constructor].
  destruct (segments ls) as [|[g|r] s]; [by constructor..|].
  apply Forall_cons in IH as [[Hne Hr] IH]. constructor; [|done]. split; [done|].
  destruct r; [done|]. by constructor.
Qed.

Lemma segments_Lines s : Lines (lines_of s) → Forall (λ s, Lines (segment_lines s)) s.
Proof.
  induction s as [|x s IH]; intros H; [constructor|]. change (lines_of (x :: s)) with (segment_lines x ++ lines_of s) in H.
  constructor; [by eapply Lines_app_l|]. by eapply IH, Lines_app_r.
Qed.

Lemma blanks_not_names c : existsb (λ a, negb (is_blank a)) c = false → has_window module_name c = false.
Proof.
  intros H. apply has_window_blank; [done|]. apply Forall_forall. intros a Ha.
  destruct (is_blank a) eqn:Eb.
  - unfold is_blank in Eb. apply orb_true_iff in Eb as [->%Ascii.eqb_eq| ->%Ascii.eqb_eq]; [apply space_not_in_name|].
    apply (bool_decide_unpack _). vm_compute. done.
  - assert (existsb (λ a, negb (is_blank a)) c = true) as E; [|congruence].
    apply existsb_Exists. exists a. by rewrite Eb.
Qed.

Lemma existsb_take {A} (p : A → bool) k l : existsb p l = false → existsb p (take k l) = false.
Proof. rewrite <- (take_drop k l) at 1. rewrite existsb_app. intros H. by bsplit. Qed.

Lemma gap_not_names l : line_has l = false → names l = false.
Proof.
  intros H. unfold names, says. destruct (trailing_backslash (strip_eol l)) as [k|]; [|by apply blanks_not_names].
  apply blanks_not_names. rewrite existsb_app. unfold line_has in H. by rewrite (existsb_take _ k _ H).
Qed.

Lemma is_facelock_rule_spec r : Lines r → Forall (λ l, line_continues l = true) (removelast r) →
  is_facelock_rule (concat r) = existsb names r.
Proof. intros Hr Hc. unfold is_facelock_rule. rewrite semantic_rule_spec by done. by apply has_window_says. Qed.

Definition names_segment (s : Segment) : bool := existsb names (segment_lines s).

Lemma existsb_lines_of s : existsb names (lines_of s) = existsb names_segment s.
Proof.
  induction s as [|x s IH]; [done|]. change (lines_of (x :: s)) with (segment_lines x ++ lines_of s).
  rewrite existsb_app, IH. done.
Qed.

Lemma existsb_rule_spans s off : Forall good_segment s → Forall (λ s, Lines (segment_lines s)) s →
  existsb (λ rule, is_facelock_rule (lr_bytes rule)) (rule_spans off s) = existsb names_segment s.
Proof.
  intros Hg Hl. revert off. induction Hg as [|x s Hx Hg IH]; intros off; [done|].
  apply Forall_cons in Hl as [Hlx Hl]. destruct x as [l|r]; cbn [rule_spans existsb].
  - rewrite IH by done. unfold names_segment at 2. cbn. cbn in Hx. by rewrite gap_not_names.
  - cbn [lr_bytes]. destruct Hx as [_ Hx]. by rewrite IH, is_facelock_rule_spec.
Qed.

Lemma physical_segments_Lines b : Forall (λ s, Lines (segment_lines s)) (segments (physical_lines b)).
Proof. apply segments_Lines. rewrite segments_lines. apply physical_lines_shape. Qed.

(** A file has a rule that names the module exactly when one of its physical lines names it:
    no name is assembled from two lines, and none is lost by joining them. *)
Lemma has_facelock_rule_lines b : has_facelock_rule b = existsb names (physical_lines b).
Proof.
  unfold has_facelock_rule. rewrite logical_rules_spec, existsb_rule_spans by auto using segments_good, physical_segments_Lines.
  by rewrite <- existsb_lines_of, segments_lines.
Qed.

(** ** Taking the rules out *)

(** What is kept of a rule: the lines that older releases did not inject, when they injected
    one; nothing, when the rule itself names the module. *)
Definition is_canonical (l : bytes) : bool := bytes_eqb (strip_eol l) PAM_LINE.

Fixpoint drop_injected (prev : bool) (r : list bytes) : list bytes :=
  match r with
  | [] => []
  | l :: r => if prev && is_canonical l then drop_injected (line_continues l) r
              else l :: drop_injected (line_continues l) r
  end.

Fixpoint has_injected (prev : bool) (r : list bytes) : bool :=
  match r with
  | [] => false
  | l :: r => prev && is_canonical l || has_injected (line_continues l) r
  end.

Definition kept (s : Segment) : list bytes :=
  match s with
  | Gap l => [l]
  | Rule r => if existsb names r then if has_injected false r then drop_injected false r else [] else r
  end.

Lemma drop_slice (b : bytes) i j : (i ≤ j)%nat → drop i b = slice b i j ++ drop j b.
Proof.
  intros H. unfold slice. rewrite <- (take_drop (j - i) (drop i b)) at 1. f_equal.
  rewrite drop_drop. f_equal. lia.
Qed.

(** The bytes written so far and those still owed, when the walk stands at an offset. *)
Definition written (b out : bytes) (copied off : nat) : bytes := out ++ slice b copied off.

Lemma written_step b out copied i j : (copied ≤ i)%nat → (i ≤ j)%nat → (j ≤ length b)%nat →
  written b out copied j = written b out copied i ++ slice b i j.
Proof.
  intros H1 H2 H3. unfold written, slice. rewrite <- app_assoc. f_equal.
  replace (j - copied)%nat with ((i - copied) + (j - i))%nat by lia.
  rewrite <- (take_drop (i - copied) (drop copied b)) at 1.
  rewrite take_app_add' by (rewrite length_take, length_drop; lia).
  do 2 f_equal. rewrite drop_drop. f_equal. lia.
Qed.

Lemma written_self b out off : written b out off off = out.
Proof. unfold written, slice. by rewrite Nat.sub_diag, app_nil_r. Qed.

Lemma slice_line (pre l : bytes) rest : slice (pre ++ concat (l :: rest)) (length pre) (length (pre ++ l)) = l.
Proof. cbn [concat]. apply slice_app_mid. Qed.

(** The walk over a rule's lines writes what [drop_injected] keeps. *)
Lemma repair_lines_spec fuel : ∀ r rest pre st,
  Lines (r ++ rest) → (length r < fuel)%nat → (copied_through st ≤ length pre)%nat →
  let b := pre ++ concat (r ++ rest) in
  let st' := repair_lines fuel b (length (pre ++ concat r)) (length pre) st in
  written b (output st') (copied_through st') (length (pre ++ concat r))
    = written b (output st) (copied_through st) (length pre) ++ concat (drop_injected (previous_continued st) r)
  ∧ repaired_legacy_injection st' = repaired_legacy_injection st || has_injected (previous_continued st) r
  ∧ (copied_through st' ≤ length (pre ++ concat r))%nat
  ∧ (has_injected (previous_continued st) r = false →
     output st' = output st ∧ copied_through st' = copied_through st).
Proof.
  induction fuel as [|fuel IH]; intros r rest pre st Hls Hf Hc; [lia|]. intros b. cbn [repair_lines].
  destruct r as [|l r].
  - cbn [concat]. rewrite app_nil_r, Nat.leb_refl. cbn [drop_injected has_injected concat].
    rewrite app_nil_r, orb_false_r. done.
  - assert (length l ≠ 0)%nat as Hl.
    { cbn in Hls. inversion Hls as [|? Hne ? E|? ? ? ? E]; [by destruct l|rewrite length_app; cbn; lia]. }
    destruct (Nat.leb_spec (length (pre ++ concat (l :: r))) (length pre)) as [Hle|_];
      [exfalso; cbn in Hle; rewrite !length_app in Hle; lia|].
    subst b. change ((l :: r) ++ rest) with (l :: (r ++ rest)) in *.
    rewrite physical_line_at_spec, continuation_line_at, content_line_at, pl_end_line_at by done.
    change (pl_start (line_at pre l (concat (r ++ rest)))) with (length pre).
    change (is_some (trailing_backslash (strip_eol l))) with (line_continues l).
    change (bytes_eqb (strip_eol l) PAM_LINE) with (is_canonical l).
    cbn [drop_injected has_injected]. cbn zeta.
    rewrite (concat_cons_assoc pre l r), (concat_cons_assoc pre l (r ++ rest)).
    destruct (previous_continued st && is_canonical l) eqn:Ei; cbn [output copied_through previous_continued repaired_legacy_injection].
    + edestruct (IH r rest (pre ++ l)) as (H1 & H2 & H3 & H4);
        [by eapply Lines_tail|cbn in Hf; lia| |]; cycle 1.
      * split; [rewrite H1|split; [rewrite H2|split; [exact H3|done]]].
        -- cbn [output copied_through previous_continued]. rewrite written_self.
           unfold written. done.
        -- cbn [previous_continued repaired_legacy_injection]. by rewrite orb_true_r.
      * cbn. lia.
    + edestruct (IH r rest (pre ++ l)) as (H1 & H2 & H3 & H4);
        [by eapply Lines_tail|cbn in Hf; lia| |]; cycle 1.
      * split; [rewrite H1|split; [rewrite H2|split; [exact H3|exact H4]]].
        -- cbn [output copied_through previous_continued].
           rewrite (written_step _ _ _ (length pre)) by (done || rewrite ?length_app; lia).
           rewrite <- (concat_cons_assoc pre l (r ++ rest)), slice_line. cbn [concat]. by rewrite <- app_assoc.
        -- done.
      * cbn. rewrite length_app. lia.
Qed.

Definition kept_bytes (s : list Segment) : bytes := concat (concat (map kept s)).

(** A step of the fold over the rules, and the whole of it. *)
Lemma remove_rules_spec s : ∀ pre out copied,
  Lines (lines_of s) → Forall good_segment s → (copied ≤ length pre)%nat →
  let b := pre ++ concat (lines_of s) in
  let '(out', copied') := fold_left (remove_rule b) (rule_spans (length pre) s) (out, copied) in
  out' ++ drop copied' b = written b out copied (length pre) ++ kept_bytes s.
Proof.
  induction s as [|x s IH]; intros pre out copied Hls Hg Hc b.
  - cbn. rewrite app_nil_r. unfold written. f_equal. subst b. cbn [lines_of map concat]. rewrite app_nil_r.
    unfold slice. rewrite take_ge; [done|]. rewrite length_drop. lia.
  - change (lines_of (x :: s)) with (segment_lines x ++ lines_of s) in *.
    apply Forall_cons in Hg as [Hx Hg]. apply Lines_app_r in Hls as Hls'.
    change (kept_bytes (x :: s)) with (concat (kept x ++ concat (map kept s))).
    rewrite concat_app. change (concat (concat (map kept s))) with (kept_bytes s).
    assert (b = (pre ++ concat (segment_lines x)) ++ concat (lines_of s)) as Eb
      by (subst b; by rewrite concat_app, app_assoc).
    assert (slice b (length pre) (length (pre ++ concat (segment_lines x))) = concat (segment_lines x)) as Hsl
      by (subst b; rewrite concat_app; apply slice_app_mid).
    assert (written b out copied (length (pre ++ concat (segment_lines x)))
      = written b out copied (length pre) ++ concat (segment_lines x)) as Hw.
    { rewrite (written_step b out copied (length pre)); [by rewrite Hsl|done|rewrite length_app; lia|].
      rewrite Eb, (length_app (pre ++ _)). lia. }
    destruct x as [l|r]; cbn [segment_lines] in *.
    + cbn [rule_spans kept]. replace (length pre + length l)%nat with (length (pre ++ concat [l]))
        by (cbn; by rewrite app_nil_r, length_app).
      specialize (IH (pre ++ concat [l]) out copied Hls' Hg). cbn zeta in IH. rewrite <- Eb in IH.
      destruct (fold_left _ _ _). rewrite IH by (rewrite length_app; lia). rewrite Hw. by rewrite <- app_assoc.
    + cbn [rule_spans kept fold_left]. rewrite <- length_app.
      assert (∀ out1 copied1, (copied1 ≤ length (pre ++ concat r))%nat →
        let '(out', copied') := fold_left (remove_rule b) (rule_spans (length (pre ++ concat r)) s) (out1, copied1) in
        out' ++ drop copied' b = written b out1 copied1 (length (pre ++ concat r)) ++ kept_bytes s) as IH'.
      { intros out1 copied1 H1. specialize (IH (pre ++ concat r) out1 copied1 Hls' Hg H1). cbn zeta in IH.
        by rewrite <- Eb in IH. }
      clear IH. unfold remove_rule at 2. cbn [lr_bytes lr_start lr_end].
      rewrite is_facelock_rule_spec by (apply Hx || by eapply Lines_app_l).
      destruct (existsb names r); cbn [negb].
      * pose proof (fuel_enough pre _ Hls) as Hfuel. rewrite length_app in Hfuel.
        destruct (repair_lines_spec (file_fuel b) r (lines_of s) pre
          {| output := out; copied_through := copied; previous_continued := false; repaired_legacy_injection := false |})
          as (H1 & H2 & H3 & H4); [done|subst b; lia|done|].
        fold b in H1, H2, H3, H4. cbn [previous_continued repaired_legacy_injection output copied_through orb] in *.
        set (st := repair_lines _ _ _ _ _) in *. rewrite H2. destruct (has_injected false r).
        -- specialize (IH' (output st) _ H3). destruct (fold_left _ _ _). by rewrite IH', H1, <- app_assoc.
        -- destruct H4 as [-> ->]; [done|]. change (out ++ slice b copied (length pre)) with (written b out copied (length pre)).
           specialize (IH' (written b out copied (length pre)) _ (Nat.le_refl _)). destruct (fold_left _ _ _).
           by rewrite IH', written_self.
      * specialize (IH' out copied). destruct (fold_left _ _ _). rewrite IH', Hw, <- app_assoc; [done|].
        rewrite length_app. lia.
Qed.

(** Removal keeps, byte for byte, what [kept] keeps of each segment. *)
Lemma with_facelock_removed_spec b :
  with_facelock_removed b = kept_bytes (segments (physical_lines b)).
Proof.
  unfold with_facelock_removed. rewrite logical_rules_spec.
  pose proof (remove_rules_spec (segments (physical_lines b)) [] [] O) as H. cbn zeta in H.
  rewrite segments_lines, physical_lines_concat in H. cbn [app length] in H.
  specialize (H (physical_lines_shape b) (segments_good _) (le_n _)).
  destruct (fold_left _ _ _). rewrite H. unfold written, slice. done.
Qed.

(** The lines of the result are lines of the file. *)
Lemma drop_injected_sublist prev r : sublist (drop_injected prev r) r.
Proof.
  revert prev. induction r as [|l r IH]; intros prev; [constructor|]. cbn.
  destruct (_ && _); by constructor.
Qed.

Lemma kept_sublist s : sublist (concat (map kept s)) (lines_of s).
Proof.
  induction s as [|x s IH]; [constructor|]. cbn [map concat lines_of]. apply sublist_app; [|done].
  destruct x as [l|r]; [done|]. cbn. destruct (existsb names r); [|done].
  destruct (has_injected false r); [apply drop_injected_sublist|apply sublist_nil_l].
Qed.

Lemma removed_lines b :
  physical_lines (with_facelock_removed b) = concat (map kept (segments (physical_lines b))).
Proof.
  rewrite with_facelock_removed_spec. apply physical_lines_unique. eapply Lines_sublist; [apply physical_lines_shape|].
  rewrite <- (segments_lines (physical_lines b)) at 2. apply kept_sublist.
Qed.

(** ** Putting the line in *)
Lemma Lines_terminated A l B : Lines (A ++ l :: B) → Forall (λ l, ∃ u, l = u ++ [newline]) A.
Proof.
  induction A as [|a A IH]; intros H; [constructor|]. cbn in H. inversion H as [|? Hne Hl E|body ls Hb Hls E].
  - by destruct A.
  - constructor; [by eexists|]. by apply IH.
Qed.

(** A canonical line, wherever it stands, is a rule's last line. *)
Section canonical.
Context (inj : bytes) (Hc : strip_eol inj = PAM_LINE).

Lemma canonical_has : line_has inj = true.
Proof. unfold line_has, line_semantic. rewrite Hc. by vm_compute. Qed.

Lemma canonical_ends : line_continues inj = false.
Proof. unfold line_continues. rewrite Hc. by vm_compute. Qed.

Lemma canonical_says : says inj = PAM_LINE.
Proof. unfold says, line_semantic. rewrite Hc. by vm_compute. Qed.

Lemma canonical_names : names inj = true.
Proof. unfold names. rewrite canonical_says. by vm_compute. Qed.

Lemma segments_inject A B : ∃ S1 r,
  segments (A ++ inj :: B) = S1 ++ Rule (r ++ [inj]) :: segments B ∧
  lines_of S1 ++ r = A ∧ Forall (λ l, line_continues l = true) r.
Proof using Hc.
  induction A as [|a A (S1 & r & E & HA & Hr)].
  - exists [], []. cbn [app segments]. by rewrite canonical_has, canonical_ends.
  - cbn [app segments]. rewrite E. destruct (line_has a).
    + destruct (line_continues a) eqn:Ha.
      * destruct S1 as [|[g|q] S1].
        -- exists [], (a :: r). subst A. split; [done|]. split; [done|]. by constructor.
        -- exists (Rule [a] :: Gap g :: S1), r. by subst A.
        -- exists (Rule (a :: q) :: S1), r. by subst A.
      * exists (Rule [a] :: S1), r. by subst A.
    + exists (Gap a :: S1), r. by subst A.
Qed.

Lemma segments_inject_first ls : segments (inj :: ls) = Rule [inj] :: segments ls.
Proof using Hc. cbn [segments]. by rewrite canonical_has, canonical_ends. Qed.

(** At the start of a rule the line is a rule of its own, and the others stay as they were. *)
Lemma segments_inject_border ls : ∀ S1 r S2, segments ls = S1 ++ Rule r :: S2 →
  segments (lines_of S1 ++ inj :: lines_of (Rule r :: S2)) = S1 ++ Rule [inj] :: Rule r :: S2.
Proof using Hc.
  assert (∀ ls r S2, segments ls = Rule r :: S2 →
    segments (inj :: lines_of (Rule r :: S2)) = Rule [inj] :: Rule r :: S2) as Hfirst.
  { intros ls' r S2 E. rewrite segments_inject_first, <- E. by rewrite segments_lines. }
  induction ls as [|l ls IH]; intros S1 r S2 E; [by destruct S1|].
  destruct S1 as [|x S1]; [by apply (Hfirst (l :: ls))|]. cbn [segments] in E.
  destruct (line_has l) eqn:Hl; [destruct (line_continues l) eqn:Hk|].
  - destruct (segments ls) as [|[g|q] s].
    + by destruct S1.
    + injection E as <- E. specialize (IH S1 r S2 E). cbn [lines_of map segment_lines concat app] in *.
      cbn [segments]. rewrite Hl, Hk. change (concat (map segment_lines S1)) with (lines_of S1) in *. rewrite IH.
      destruct S1 as [|y S1]; cbn in E |- *; [done|by injection E as <- E].
    + injection E as <- E. specialize (IH (Rule q :: S1) r S2). rewrite E in IH. specialize (IH eq_refl).
      cbn [lines_of map segment_lines concat app] in *. cbn [segments]. rewrite Hl, Hk. by rewrite IH.
  - injection E as <- E. specialize (IH S1 r S2 E). cbn [lines_of map segment_lines concat app] in *.
    cbn [segments]. rewrite Hl, Hk. change (concat (map segment_lines S1)) with (lines_of S1) in *. by rewrite IH.
  - injection E as <- E. specialize (IH S1 r S2 E). cbn [lines_of map segment_lines concat app] in *.
    cbn [segments]. rewrite Hl. change (concat (map segment_lines S1)) with (lines_of S1) in *. by rewrite IH.
Qed.

(** Taking it out again leaves the other lines, wherever it stood. *)
Lemma kept_inject A B : existsb names (A ++ B) = false →
  concat (map kept (segments (A ++ inj :: B))) = A ++ B.
Proof using Hc.
  rewrite existsb_app. intros [HA HB]%orb_false_iff.
  destruct (segments_inject A B) as (S1 & r & -> & EA & Hr). rewrite <- EA, existsb_app in HA. bsplit.
  assert (∀ s, existsb names (lines_of s) = false → concat (map kept s) = lines_of s) as Hplain.
  { intros s Hs. induction s as [|x s IH]; [done|]. change (lines_of (x :: s)) with (segment_lines x ++ lines_of s) in *.
    rewrite existsb_app in Hs. bsplit. cbn [map concat]. rewrite IH by done. f_equal.
    destruct x as [l|q]; [done|]. cbn in *. by match goal with H : existsb names q = false |- _ => rewrite H end. }
  rewrite map_app, concat_app. cbn [map concat]. rewrite !Hplain by (done || by rewrite segments_lines).
  rewrite segments_lines, <- EA, <- app_assoc. do 2 f_equal.
  cbn [kept]. rewrite existsb_app. cbn [existsb]. rewrite canonical_names, orb_true_r. cbn [orb].
  match goal with H : existsb names r = false |- _ => revert H end.
  assert (∀ prev, existsb names r = false → (prev = true ∨ r ≠ []) →
    has_injected prev (r ++ [inj]) = true ∧ drop_injected prev (r ++ [inj]) = r) as Hgen.
  { clear -Hc Hr. induction Hr as [|l r Hl Hr IH]; intros prev Hn Hp.
    - destruct Hp as [->|]; [|done]. cbn. unfold is_canonical. rewrite Hc. by vm_compute.
    - cbn in Hn. bsplit. assert (is_canonical l = false) as Hl'.
      { destruct (is_canonical l) eqn:El; [|done]. apply bool_decide_eq_true in El.
        enough (names l = true) by congruence. unfold names, says, line_semantic. rewrite El. by vm_compute. }
      cbn. rewrite Hl', andb_false_r. cbn. rewrite Hl. destruct (IH true) as [-> ->]; auto. }
  intros Hn. destruct r as [|l r].
  - cbn. done.
  - destruct (Hgen false Hn) as [-> ->]; auto.
Qed.
End canonical.

(** The line with an ending, or without one at the end of a file. *)
Definition line_ending (e : bytes) : Prop := e = [newline] ∨ e = [carriage_return; newline].

Lemma canonical_line e : line_ending e → strip_eol (PAM_LINE ++ e) = PAM_LINE.
Proof. intros [-> | ->]; vm_compute; done. Qed.

Lemma canonical_bare : strip_eol PAM_LINE = PAM_LINE.
Proof. by vm_compute. Qed.

Lemma injected_lines A B e : Lines (A ++ B) → Forall (λ l, ∃ u, l = u ++ [newline]) A → line_ending e →
  physical_lines (concat A ++ PAM_LINE ++ e ++ concat B) = A ++ (PAM_LINE ++ e) :: B.
Proof.
  intros Hls HA He. rewrite <- (physical_lines_unique (A ++ (PAM_LINE ++ e) :: B)).
  - f_equal. rewrite concat_app. cbn [concat]. by rewrite <- app_assoc.
  - destruct He as [-> | ->].
    + apply Lines_insert; [done..|by vm_compute].
    + change (PAM_LINE ++ [carriage_return; newline]) with ((PAM_LINE ++ [carriage_return]) ++ [newline]).
      apply Lines_insert; [done..|by vm_compute].
Qed.

(** Removal undoes the injection of the line at any border between two lines: where the command
    puts it now, and where older releases broke a continued rule with it. *)
Lemma removal_undoes_injection d A B e :
  has_facelock_rule d = false → physical_lines d = A ++ B →
  Forall (λ l, ∃ u, l = u ++ [newline]) A → line_ending e →
  with_facelock_removed (concat A ++ PAM_LINE ++ e ++ concat B) = d.
Proof.
  intros Hd Hl HA He. rewrite has_facelock_rule_lines, Hl in Hd.
  rewrite <- (physical_lines_concat (with_facelock_removed _)), removed_lines, injected_lines;
    [|rewrite <- Hl; apply physical_lines_shape|done..].
  rewrite (kept_inject _ (canonical_line e He)), <- Hl by done. apply physical_lines_concat.
Qed.

Lemma position_lookup p b k : position p b = Some k → ∃ c, b !! k = Some c ∧ p c = true.
Proof.
  revert k. induction b as [|c b IH]; intros k; cbn; [done|]. destruct (p c) eqn:E.
  - intros [= <-]. by exists c.
  - destruct (position p b) as [k'|]; [|done]. intros [= <-]. by apply IH.
Qed.

Lemma slice_one b i c : b !! i = Some c → slice b i (i + 1) = [c].
Proof.
  intros H. unfold slice. replace (i + 1 - i)%nat with 1%nat by lia.
  rewrite (drop_S _ _ _ H). cbn. by rewrite take_0.
Qed.

Lemma slice_two b i c c' : b !! i = Some c → b !! S i = Some c' → slice b i (S i + 1) = [c; c'].
Proof.
  intros H H'. unfold slice. replace (S i + 1 - i)%nat with 2%nat by lia.
  rewrite (drop_S _ _ _ H), (drop_S _ _ _ H'). cbn. by rewrite take_0.
Qed.

Lemma line_ending_from_spec b from e : line_ending_from b from = Some e → line_ending e.
Proof.
  unfold line_ending_from. destruct (position _ _) as [k|] eqn:E; [|done].
  apply position_lookup in E as (c & Hk & Hc). rewrite lookup_drop in Hk. apply Ascii.eqb_eq in Hc as <-.
  destruct (_ && _) eqn:Eb.
  - bsplit. match goal with H : byte_is _ _ _ = true |- _ => unfold byte_is in H; rename H into Hb end.
    destruct (b !! (from + k - 1)%nat) as [c|] eqn:Ec; [|done]. apply Ascii.eqb_eq in Hb as ->.
    intros [= <-]. right. replace (from + k)%nat with (S (from + k - 1)) in Hk |- * by lia.
    replace (S (from + k - 1) - 1)%nat with (from + k - 1)%nat by lia. by apply slice_two.
  - intros [= <-]. left. by apply slice_one.
Qed.

Lemma chosen_ending b i j : line_ending (default [newline] (or_else (line_ending_from b i) (line_ending_from b j))).
Proof.
  destruct (line_ending_from b i) eqn:Ei; [by eapply line_ending_from_spec|].
  destruct (line_ending_from b j) eqn:Ej; [by eapply line_ending_from_spec|]. by left.
Qed.

(** Where the code finds the first auth rule. *)
Definition auth_segment (s : Segment) : bool :=
  match s with Gap _ => false | Rule r => is_auth_rule (concat r) end.

Lemma find_auth_rule s off :
  match lr_start <$> find_map (λ rule, if is_auth_rule (lr_bytes rule) then Some rule else None) (rule_spans off s) with
  | Some k => ∃ S1 r S2, s = S1 ++ Rule r :: S2 ∧ Forall (λ s, auth_segment s = false) S1 ∧
                auth_segment (Rule r) = true ∧ k = (off + length (concat (lines_of S1)))%nat
  | None => Forall (λ s, auth_segment s = false) s
  end.
Proof.
  revert off. induction s as [|x s IH]; intros off; [constructor|]. destruct x as [l|r]; cbn [rule_spans find_map].
  - specialize (IH (off + length l)%nat). destruct (_ <$> _) as [k|].
    + destruct IH as (S1 & r & S2 & -> & H1 & H2 & ->). exists (Gap l :: S1), r, S2.
      split; [done|]. split; [by constructor|]. split; [done|].
      change (lines_of (Gap l :: S1)) with (l :: lines_of S1). cbn [concat]. rewrite length_app. lia.
    + by constructor.
  - cbn [lr_bytes]. destruct (is_auth_rule (concat r)) eqn:Er.
    + exists [], r, s. cbn. rewrite Nat.add_0_r. repeat split; [constructor|done].
    + specialize (IH (off + length (concat r))%nat). destruct (_ <$> _) as [k|].
      * destruct IH as (S1 & r' & S2 & -> & H1 & H2 & ->). exists (Rule r :: S1), r', S2.
        split; [done|]. split; [by constructor|]. split; [done|].
        change (lines_of (Rule r :: S1)) with (r ++ lines_of S1). rewrite concat_app, length_app. lia.
      * by constructor.
Qed.

Lemma auth_insertion_offset_spec d :
  match auth_insertion_offset d with
  | Some k => ∃ S1 r S2, segments (physical_lines d) = S1 ++ Rule r :: S2 ∧ Forall (λ s, auth_segment s = false) S1 ∧
                auth_segment (Rule r) = true ∧ k = length (concat (lines_of S1))
  | None => Forall (λ s, auth_segment s = false) (segments (physical_lines d))
  end.
Proof. unfold auth_insertion_offset. rewrite logical_rules_spec. apply find_auth_rule. Qed.

Lemma pam_header_end_spec d :
  pam_header_end d = match physical_lines d with
                     | l :: _ => if bytes_eqb (strip_eol l) pam_header then Some (length l) else None
                     | [] => None
                     end.
Proof.
  unfold pam_header_end. pose proof (physical_line_at_spec [] (physical_lines d) (physical_lines_shape d)) as H.
  cbn [app length] in H. rewrite physical_lines_concat in H. rewrite H.
  pose proof (physical_lines_shape d) as Hs. destruct (physical_lines d) as [|l ls]; [done|].
  rewrite content_line_at by done. done.
Qed.

(** What insertion does, case by case. *)
Inductive Inserted (d : bytes) : bytes → Prop :=
  | Inserted_empty : d = [] → Inserted d PAM_LINE
  | Inserted_header : d = pam_header → Inserted d (pam_header ++ newline :: PAM_LINE)
  | Inserted_border S1 S2 e :
      d ≠ [] → segments (physical_lines d) = S1 ++ S2 → line_ending e →
      Forall (λ l, ∃ u, l = u ++ [newline]) (lines_of S1) →
      Forall (λ s, auth_segment s = false) S1 →
      (∀ inj, strip_eol inj = PAM_LINE → segments (lines_of S1 ++ inj :: lines_of S2) = S1 ++ Rule [inj] :: S2) →
      Inserted d (concat (lines_of S1) ++ PAM_LINE ++ e ++ concat (lines_of S2)).

Lemma segments_split d S1 S2 : segments (physical_lines d) = S1 ++ S2 →
  d = concat (lines_of S1) ++ concat (lines_of S2) ∧ physical_lines d = lines_of S1 ++ lines_of S2.
Proof.
  intros E. apply (f_equal lines_of) in E. rewrite segments_lines, lines_of_app in E.
  split; [|done]. by rewrite <- concat_app, <- E, physical_lines_concat.
Qed.

Lemma bytes_strip_suffix_app suf u : bytes_strip_suffix suf (u ++ suf) = Some u.
Proof.
  unfold bytes_strip_suffix. rewrite length_app.
  replace (length u + length suf - length suf)%nat with (length u) by lia.
  rewrite drop_app_length, take_app_length. unfold bytes_eqb. rewrite bool_decide_eq_true_2 by done.
  destruct (Nat.leb_spec (length suf) (length u + length suf)); [done|lia].
Qed.

Lemma header_is_gap l : strip_eol l = pam_header → line_has l = false.
Proof. unfold line_has, line_semantic. intros ->. by vm_compute. Qed.

Lemma inserted_at_auth d k S1 r S2 : auth_insertion_offset d = Some k →
  segments (physical_lines d) = S1 ++ Rule r :: S2 → Forall (λ s, auth_segment s = false) S1 →
  k = length (concat (lines_of S1)) → Inserted d (with_facelock_inserted d).
Proof.
  intros Ek Es Hs ->. destruct (segments_split _ _ _ Es) as [Ed El].
  pose proof (segments_good (physical_lines d)) as Hg. rewrite Es in Hg.
  apply Forall_app in Hg as [_ Hg]. apply Forall_cons in Hg as [[Hr _] _]. destruct r as [|l r]; [done|].
  assert (d ≠ []) as Hd by (intros ->; by destruct S1).
  unfold with_facelock_inserted. rewrite Ek. cbn [is_some default or_else from_option].
  rewrite bool_decide_eq_false_2 by done. cbn [andb]. cbn beta iota zeta.
  pose proof (chosen_ending d (length (concat (lines_of S1))) 0) as He.
  set (e := default _ _) in *. cbn [id] in *.
  replace (match d with [] => _ | _ :: _ => (take (length (concat (lines_of S1))) d ++ PAM_LINE) ++ e end)
    with ((take (length (concat (lines_of S1))) d ++ PAM_LINE) ++ e) by (by destruct d).
  rewrite Ed at 2 3. rewrite take_app_length, drop_app_length, <- !app_assoc.
  apply Inserted_border; [done|done|done| |done|].
  - pose proof (physical_lines_shape d) as Hshape. rewrite El in Hshape. by apply (Lines_terminated _ l) in Hshape.
  - intros inj Hinj. by eapply segments_inject_border.
Qed.

(** The header counts as an unterminated last line exactly when it is all of the file. *)
Lemma header_terminated body ls : Lines ls →
  bool_decide (Some (length (body ++ [newline])) = Some (length ((body ++ [newline]) ++ concat ls))) &&
  negb (is_some (bytes_strip_suffix [newline] ((body ++ [newline]) ++ concat ls))) = false.
Proof.
  intros Hls. destruct ls as [|l' ls]; [cbn [concat]; by rewrite app_nil_r, bytes_strip_suffix_app, andb_false_r|].
  rewrite bool_decide_eq_false_2; [done|]. cbn [concat]. rewrite (length_app (body ++ _)), length_app.
  assert (length l' ≠ 0)%nat by (inversion Hls; subst; [by destruct l'|rewrite length_app; cbn; lia]).
  intros [= E]. rewrite length_app in E. lia.
Qed.

Lemma inserted_after_header body ls e :
  existsb eqb_nl body = false → Lines ls → strip_eol (body ++ [newline]) = pam_header → line_ending e →
  Inserted ((body ++ [newline]) ++ concat ls) ((((body ++ [newline]) ++ PAM_LINE) ++ e) ++ concat ls).
Proof.
  intros Hb Hls Eh He.
  pose proof (Inserted_border ((body ++ [newline]) ++ concat ls) [Gap (body ++ [newline])] (segments ls) e) as H.
  rewrite segments_lines in H. cbn [lines_of map concat segment_lines app] in H. rewrite app_nil_r in H.
  rewrite <- !app_assoc. rewrite <- !app_assoc in H. apply H; [by destruct body| |done| | |].
  - change (body ++ [newline] ++ concat ls) with (body ++ newline :: concat ls). rewrite physical_lines_body by done.
    cbn [segments]. by rewrite header_is_gap, physical_lines_unique.
  - constructor; [by exists body|constructor].
  - by repeat constructor.
  - intros inj Hinj. cbn [app segments]. rewrite header_is_gap by done.
    by rewrite (canonical_has inj), (canonical_ends inj).
Qed.

Lemma with_facelock_inserted_spec d : Inserted d (with_facelock_inserted d).
Proof.
  pose proof (auth_insertion_offset_spec d) as Ha. destruct (auth_insertion_offset d) as [k|] eqn:Ek.
  { destruct Ha as (S1 & r & S2 & Es & Hs & _ & Hk). by eapply inserted_at_auth. }
  unfold with_facelock_inserted. rewrite Ek. cbn [is_some or_else]. rewrite pam_header_end_spec.
  pose proof (physical_lines_concat d) as Ed. pose proof (physical_lines_shape d) as Hshape.
  pose proof (chosen_ending d 0 0) as He. set (e := default [newline] _) in *.
  destruct (physical_lines d) as [|l ls] eqn:El; [subst d; by apply Inserted_empty|].
  assert (d ≠ []) as Hd by (intros ->; done).
  assert (∀ x : bytes, match d with [] => x | _ :: _ => x ++ e end = x ++ e) as Hmatch by (intros x; by destruct d).
  destruct (bytes_eqb (strip_eol l) pam_header) eqn:Eh.
  - apply bool_decide_eq_true in Eh. cbn [default from_option id]. rewrite Hmatch. clear Hmatch.
    inversion Hshape as [|? Hne Hl|body ls' Hb Hls]; subst.
    + rewrite strip_eol_unterminated in Eh by done. subst l. cbn [concat] in *. subst e. by apply Inserted_header.
    + cbn [concat]. rewrite header_terminated, take_app_length, drop_app_length by done. by apply inserted_after_header.
  - rewrite bool_decide_eq_false_2 by done. cbn [default from_option id andb]. rewrite Hmatch, take_0, drop_0.
    pose proof (Inserted_border d [] (segments (l :: ls)) e) as H. rewrite El, segments_lines, Ed in H.
    rewrite <- !app_assoc. apply H; [done|done|done|constructor|constructor|].
    intros inj Hinj. by apply segments_inject_first.
Qed.

(** ** What the edits promise *)
Lemma rule_spans_bytes s : ∀ off, lr_bytes <$> rule_spans off s =
  omap (λ s, match s with Gap _ => None | Rule r => Some (concat r) end) s.
Proof.
  induction s as [|[l|r] s IH]; intros off; [done| |]; cbn [rule_spans fmap list_fmap omap list_omap]; [apply IH|].
  by rewrite <- (IH (off + length (concat r))%nat).
Qed.

Lemma logical_rules_bytes d : lr_bytes <$> logical_rules d =
  omap (λ s, match s with Gap _ => None | Rule r => Some (concat r) end) (segments (physical_lines d)).
Proof. rewrite logical_rules_spec. apply rule_spans_bytes. Qed.

Lemma insertion_undone d : has_facelock_rule d = false →
  with_facelock_removed (with_facelock_inserted d) = if bytes_eqb d pam_header then d ++ [newline] else d.
Proof.
  intros Hd. destruct (bytes_eqb d pam_header) eqn:Eh.
  - apply bool_decide_eq_true in Eh as ->. vm_compute. reflexivity.
  - destruct (with_facelock_inserted_spec d) as [->| ->|S1 S2 e Hne Es He Ht Ha Hb]; [vm_compute; reflexivity|done|].
    destruct (segments_split _ _ _ Es) as [_ El]. by eapply removal_undoes_injection.
Qed.

Lemma insertion_names d : has_facelock_rule (with_facelock_inserted d) = true.
Proof.
  destruct (with_facelock_inserted_spec d) as [->| ->|S1 S2 e Hne Es He Ht Ha Hb]; [vm_compute; reflexivity..|].
  destruct (segments_split _ _ _ Es) as [_ El]. rewrite has_facelock_rule_lines, injected_lines
    by (done || rewrite <- El; apply physical_lines_shape).
  rewrite existsb_app. cbn [existsb]. rewrite (canonical_names _ (canonical_line e He)). by rewrite orb_true_r.
Qed.

(** A comment line in front of a file changes neither what its rules say nor what removal does. *)
Lemma comment_before l d : existsb eqb_nl l = false → bytes_starts_hash l = true →
  physical_lines (l ++ newline :: d) = (l ++ [newline]) :: physical_lines d ∧
  segments (physical_lines (l ++ newline :: d)) = Gap (l ++ [newline]) :: segments (physical_lines d).
Proof.
  intros Hl Hh. rewrite physical_lines_body by done. split; [done|]. cbn [segments].
  assert (line_has (l ++ [newline]) = false) as ->; [|done].
  unfold line_has, line_semantic. rewrite strip_eol_terminated. destruct l as [|a l]; [done|].
  apply Ascii.eqb_eq in Hh as ->. assert (drop_cr (hash :: l) = hash :: drop_cr l ∨ drop_cr (hash :: l) = [hash]) as [-> | ->].
  { unfold drop_cr. destruct l as [|b l]; [by right|]. left. change (last (hash :: b :: l)) with (last (b :: l)).
    destruct (last (b :: l)); [|done]. by destruct (Ascii.eqb _ _). }
  - unfold uncommented. cbn. done.
  - done.
Qed.

Lemma removed_after_comment l d : existsb eqb_nl l = false → bytes_starts_hash l = true →
  with_facelock_removed (l ++ newline :: d) = l ++ newline :: with_facelock_removed d.
Proof.
  intros Hl Hh. rewrite !with_facelock_removed_spec. destruct (comment_before l d Hl Hh) as [_ ->].
  unfold kept_bytes. cbn. by rewrite <- app_assoc.
Qed.

(** C32.  Adding the module to a service file that lacks it makes it an active rule; removing it
    again gives the file back, byte for byte, whatever its line endings, continuations,
    comments and last line are. The one exception is a file that is nothing but a header
    without a line feed: adding supplies the line feed, and removing leaves it there. *)
Theorem removal_inverts_insertion d :
  has_facelock_rule d = false →
  has_facelock_rule (with_facelock_inserted d) = true ∧
  with_facelock_removed (with_facelock_inserted d) = if bytes_eqb d pam_header then d ++ [newline] else d.
Proof. intros Hd. split; [apply insertion_names|by apply insertion_undone]. Qed.

(** A service file of the kind distributions ship, with a continued rule and comments. *)
Definition sample_service : bytes :=
  bytes_of (String.concat (String newline "") ["#%PAM-1.0"; "account required \"; "  pam_unix.so"; "# local";
    "-AUTH include system-auth"]).

Lemma removal_inverts_insertion_witness :
  has_facelock_rule (with_facelock_inserted sample_service) = true ∧
  with_facelock_removed (with_facelock_inserted sample_service) = sample_service.
Proof. apply (removal_inverts_insertion sample_service). vm_compute. reflexivity. Defined.

(** The file is the line alone, and every part of the statement evaluates. *)
Ltac alone :=
  split; [vm_compute; reflexivity|]; split; [vm_compute; reflexivity|]; split; [constructor|];
  split; [vm_compute; reflexivity|]; split; [vm_compute; reflexivity|]; left; reflexivity.

(** Insertion changes no rule and puts the module's rule before every authentication rule:
    the rules of the new file are those of the old one with the module's rule in one place, and
    none of the rules before it authenticates. *)
Theorem inserted_rule_is_first d : ∃ R1 R2 e,
  lr_bytes <$> logical_rules d = R1 ++ R2 ∧
  lr_bytes <$> logical_rules (with_facelock_inserted d) = R1 ++ (PAM_LINE ++ e) :: R2 ∧
  Forall (λ rule, is_auth_rule rule = false) R1 ∧
  is_auth_rule (PAM_LINE ++ e) = true ∧ is_facelock_rule (PAM_LINE ++ e) = true ∧
  (e = [] ∨ line_ending e).
Proof.
  destruct (with_facelock_inserted_spec d) as [->| ->|S1 S2 e Hne Es He Ht Ha Hb].
  - exists [], [], []. rewrite app_nil_r. alone.
  - exists [], [], []. rewrite app_nil_r. alone.
  - destruct (segments_split _ _ _ Es) as [_ El]. rewrite !logical_rules_bytes.
    rewrite (injected_lines (lines_of S1) (lines_of S2)) by (done || rewrite <- El; apply physical_lines_shape).
    rewrite Hb, Es, !omap_app by (by apply canonical_line). cbn [omap list_omap concat]. rewrite app_nil_r.
    eexists _, _, e. split; [done|]. split; [done|].
    split; [|destruct He as [-> | ->]; (split; [by vm_compute|]; split; [by vm_compute|]; right; by constructor)].
    clear -Ha. induction Ha as [|[l|r] S1 Hx Ha IH]; cbn; [constructor|done|]. by constructor.
Qed.

Lemma existsb_sublist {A} (p : A → bool) l l' : sublist l l' → existsb p l' = false → existsb p l = false.
Proof. induction 1; cbn; intros Hp; bsplit; [done|apply orb_false_iff; auto|auto]. Qed.

(** C33.  Removal keeps, in order and byte for byte, every line outside the rules that name the
    module, and takes each of those rules out whole; of a rule that an older release broke
    with its own line it takes out that line alone. What is left names the module exactly when
    such a broken rule named it once more. *)
Theorem removal_keeps_the_rest d :
  physical_lines (with_facelock_removed d) = concat (map kept (segments (physical_lines d))) ∧
  has_facelock_rule (with_facelock_removed d)
    = existsb (λ s, match s with
                    | Gap _ => false
                    | Rule r => has_injected false r && existsb names (drop_injected false r)
                    end) (segments (physical_lines d)).
Proof.
  split; [apply removed_lines|]. rewrite has_facelock_rule_lines, removed_lines.
  pose proof (segments_good (physical_lines d)) as Hg. induction Hg as [|x s Hx Hg IH]; [done|].
  cbn [map concat existsb]. rewrite existsb_app, IH. f_equal. destruct x as [l|r]; cbn.
  - cbn in Hx. by rewrite gap_not_names.
  - destruct (has_injected false r) eqn:Hi; destruct (existsb names r) eqn:Hn; cbn; try done.
    by rewrite (existsb_sublist _ _ _ (drop_injected_sublist false r) Hn).
Qed.
