(* ===== verification/PamFiles.v ===== *)
(** * PamFiles: the paths and files the PAM commands look at

    [facelock-cli/src/commands/pam.rs]: service names and paths, the search path [PamDirs], and
    opening a service file. What the kernel answers to each system call is the record [Files];
    a call is answered by the path it names, so two different calls may see two different
    moments of the file system. *)

From S2P Require Import Prelude Text Sealing PamDocument.

(** ** Paths

    [Path::components] on Unix. A path that the code derives from another one is written with
    single separators, which name the same file. *)
Inductive Component := RootDir | CurDir | ParentDir | Normal (name : string).

#[export] Instance Component_eq_dec : EqDecision Component.
Proof. solve_decision. Defined.

Definition component_of (part : string) : option Component :=
  if String.eqb part "" || String.eqb part "." then None
  else if String.eqb part ".." then Some ParentDir else Some (Normal part).

Definition is_absolute (p : string) : bool := starts_with "/" p.

Definition components (p : string) : list Component :=
  (if is_absolute p then [RootDir]
   else match split_on slash p with "."%string :: _ => [CurDir] | _ => [] end)
  ++ omap component_of (split_on slash p).

(** [PathBuf]'s equality *)
Definition path_eqb (p q : string) : bool := bool_decide (components p = components q).

Definition join (base name : string) : string :=
  if is_absolute name || is_empty_str base then name
  else if ends_with "/" base then base +:+ name else base +:+ "/" +:+ name.

Definition component_text (c : Component) : string :=
  match c with RootDir => "/" | CurDir => "." | ParentDir => ".." | Normal name => name end.

Definition path_of (cs : list Component) : string := fold_left (λ p c, join p (component_text c)) cs "".

Definition file_name (p : string) : option string :=
  match last (components p) with Some (Normal name) => Some name | _ => None end.

Definition parent (p : string) : option string :=
  match last (components p) with
  | Some RootDir | None => None
  | Some _ => Some (path_of (removelast (components p)))
  end.

(** A service name is one path component. *)
Definition confined (service : string) : bool :=
  match components service with
  | [Normal name] => String.eqb name service && negb (str_has_char nul service)
  | _ => false
  end.

(** ** Answers of the kernel *)
Inductive IoKind := NotFound | InvalidInput | InvalidData | PermissionDenied | AlreadyExists | Interrupted | OtherKind.

#[export] Instance IoKind_eq_dec : EqDecision IoKind.
Proof. solve_decision. Defined.

(** [io_ambiguous] marks an error that wraps the [AmbiguousPublication] of the rollback state. *)
Record IoError := { io_kind : IoKind; io_text : string; io_ambiguous : bool }.

Definition io_error (kind : IoKind) (text : string) : IoError :=
  {| io_kind := kind; io_text := text; io_ambiguous := false |}.
Definition is_not_found (e : IoError) : bool := bool_decide (io_kind e = NotFound).

Inductive FileType := IsRegular | IsDirectory | IsSymlink | IsSpecial.

#[export] Instance FileType_eq_dec : EqDecision FileType.
Proof. solve_decision. Defined.

Record Metadata := {
  file_type : FileType; dev : Z; ino : Z; nlink : Z; mode : Z; uid : Z; gid : Z; len : Z }.

(** An open regular file: what [fstat] says of it and what reading it yields. *)
Record OpenFile := { file_metadata : result Metadata IoError; file_bytes : result bytes IoError }.

Record DirEntry := { entry_name : option string; entry_type : result FileType IoError }.

Record Files := {
  symlink_metadata : string → result Metadata IoError;
  metadata : string → result Metadata IoError;
  read_link : string → result string IoError;
  canonicalize : string → result string IoError;
  open_directory : string → result Metadata IoError;
  open_at : string → string → result OpenFile IoError;
  read_dir : string → result (list DirEntry) IoError;
  read_file : string → result bytes IoError;
  access_write : string → result unit IoError;
  effective_user : Z * Z }.

(** ** Opening files *)
Definition MAX_BACKUP_BYTES : Z := 1024 * 1024.
Definition MAX_RECORD_BYTES : Z := 16 * 1024.

Record FileIdentity := {
  device : Z; inode : Z; links : Z; id_sha256 : string; id_mode : Z; id_uid : Z; id_gid : Z }.

#[export] Instance FileIdentity_eq_dec : EqDecision FileIdentity.
Proof. solve_decision. Defined.

Definition identity_matches (expected actual : FileIdentity) : bool := bool_decide (expected = actual).

Definition open_directory_nofollow (fs : Files) (path : string) : result Metadata IoError :=
  if str_has_char nul path then Err (io_error InvalidInput "Invalid argument") else open_directory fs path.

(** The file and the metadata that were checked. *)
Definition open_regular_at (fs : Files) (directory name : string) : result OpenFile IoError :=
  if str_has_char nul name then Err (io_error InvalidInput "file name contains NUL")
  else
    let? file := open_at fs directory name in
    let? m := file_metadata file in
    if negb (bool_decide (file_type m = IsRegular))
    then Err (io_error InvalidData "PAM service is not a regular file")
    else if negb (nlink m =? 1)
    then Err (io_error InvalidData ("PAM service has " +:+ show_Z (nlink m) +:+ " hard links"))
    else Ok file.

Definition read_open_bounded (file : OpenFile) (limit : Z) : result bytes IoError :=
  let? m := file_metadata file in
  if limit <? len m then Err (io_error InvalidData "state file exceeds size limit")
  else
    let? content := file_bytes file in
    if limit <? Z.of_nat (length content) then Err (io_error InvalidData "state file exceeds size limit")
    else Ok content.

Section hashed.
Context `{Sha256}.

Definition sha256_hex (content : bytes) : string :=
  String.concat "" (map hex_byte (sha256 (map (λ a, Z.of_nat (Ascii.nat_of_ascii a)) content))).

Definition identity_for_bytes (m : Metadata) (content : bytes) : FileIdentity :=
  {| device := dev m; inode := ino m; links := nlink m; id_sha256 := sha256_hex content;
     id_mode := mode m; id_uid := uid m; id_gid := gid m |}.

Definition read_regular_nofollow (fs : Files) (path : string) : result (bytes * FileIdentity) IoError :=
  match parent path, file_name path with
  | None, _ => Err (io_error InvalidInput "PAM path has no parent")
  | Some _, None => Err (io_error InvalidInput "PAM path has no file name")
  | Some directory, Some name =>
      let? _ := open_directory_nofollow fs directory in
      let? file := open_regular_at fs directory name in
      let? m := file_metadata file in
      let? content := read_open_bounded file MAX_BACKUP_BYTES in
      Ok (content, identity_for_bytes m content)
  end.
End hashed.

(** ** The search path *)
Definition PAM_DIR : string := "/etc/pam.d".
Definition PAM_SYSTEM_DIRS : list string := [PAM_DIR; "/usr/lib/pam.d"].
Definition PAM_CLEANUP_DIRS : list string := [PAM_DIR; "/usr/lib/pam.d"; "/etc/authselect"].
Definition PAM_BACKUPS_DIR : string := "/var/lib/facelock/pam-backups".

Record PamAuthUpdateRoots := { profiles : string; state : string; pam : string }.

Definition system_roots : PamAuthUpdateRoots :=
  {| profiles := "/usr/share/pam-configs"; state := "/var/lib/pam"; pam := "/etc/pam.d" |}.

Definition is_system (r : PamAuthUpdateRoots) : bool :=
  path_eqb (profiles r) (profiles system_roots) && path_eqb (state r) (state system_roots)
  && path_eqb (pam r) (pam system_roots).

Record PamDirs := { dirs : list string; backup_dir : string; pam_auth_update : option PamAuthUpdateRoots }.

Definition default_dirs : PamDirs :=
  {| dirs := PAM_SYSTEM_DIRS; backup_dir := PAM_BACKUPS_DIR; pam_auth_update := None |}.

Definition PamDirs_new (fs : Files) (ds : list string) : PamDirs :=
  match ds with
  | [] => default_dirs
  | first :: later =>
      if existsb (λ d, negb (is_absolute d)) ds then default_dirs
      else
        let canonical d := match canonicalize fs d with Ok c => c | Err _ => d end in
        if existsb (λ d, path_eqb (canonical d) (canonical first)) later then default_dirs
        else {| dirs := ds; backup_dir := PAM_BACKUPS_DIR; pam_auth_update := None |}
  end.

Definition from_config (fs : Files) (config_dirs : list string) : PamDirs := PamDirs_new fs config_dirs.

(** [config] is the search path of the configuration file, when the file parses. *)
Definition system (fs : Files) (config : option (list string)) : PamDirs :=
  let d := match config with None => default_dirs | Some ds => from_config fs ds end in
  {| dirs := dirs d; backup_dir := backup_dir d; pam_auth_update := Some system_roots |}.

Definition system_cleanup : PamDirs :=
  {| dirs := PAM_CLEANUP_DIRS; backup_dir := PAM_BACKUPS_DIR; pam_auth_update := None |}.

Definition overrides (d : PamDirs) : string := match dirs d with [] => PAM_DIR | first :: _ => first end.
