(* ===== verification/PamBackup.v ===== *)
(** * PamBackup: the rollback state of the PAM editor, as it is read

    [facelock-cli/src/commands/pam.rs], [BackupStore]: the names and records kept in the state
    directory, which of them are valid, and which backup of a service is the newest. Decoding
    JSON is the parameter [Json]. *)

From S2P Require Import Prelude Text Config Sealing PamDocument PamFiles.

Inductive ProvenanceState := Prepared | Committed.

#[export] Instance ProvenanceState_eq_dec : EqDecision ProvenanceState.
Proof. solve_decision. Defined.

Record ProvenanceRecord := {
  pr_version : Z; pr_sequence : Z; pr_state : ProvenanceState; pr_service : string; pr_backup : string;
  pr_original_sha256 : string; pr_installed_sha256 : string }.

Record PreparedBackup := {
  pb_root : string; pb_backup : string; pb_record : string; provenance : ProvenanceRecord;
  backup_identity : option FileIdentity; record_identity : option FileIdentity }.

Class Json := { decode_record : bytes → option ProvenanceRecord }.

Definition PROVENANCE_VERSION : Z := 1.

(** ** Names *)
Definition valid_sha256 (h : string) : bool := (String.length h =? 64)%nat && str_forall is_ascii_hexdigit h.

Definition valid_backup_name (service name : string) : bool :=
  match strip_prefix (service +:+ ".") name with
  | None => false
  | Some timestamp =>
      match split_once "-" timestamp with
      | (_, None) => false
      | (seconds, Some nanoseconds) =>
          negb (is_empty_str seconds) && str_forall is_ascii_digit seconds
          && is_some (parse_unsigned (2 ^ 64) seconds)
          && (String.length nanoseconds =? 9)%nat && str_forall is_ascii_digit nanoseconds
          && match parse_unsigned (2 ^ 32) nanoseconds with Some v => v <? 1000000000 | None => false end
      end
  end.

Definition valid_provenance_record (name : string) (r : ProvenanceRecord) : bool :=
  match strip_suffix ".json" name with
  | None => false
  | Some backup =>
      (pr_version r =? PROVENANCE_VERSION) && negb (pr_sequence r =? 0) && confined (pr_service r)
      && bool_decide (file_name (pr_backup r) = Some (pr_backup r))
      && String.eqb (pr_backup r) backup && valid_backup_name (pr_service r) backup
      && valid_sha256 (pr_original_sha256 r) && valid_sha256 (pr_installed_sha256 r)
  end.

(** ** The state directory *)
Record BackupStore := { root : string; expected_owner : Z * Z }.

Definition PAM_BACKUPS_DIR_MODE : Z := 448. (* 0o700 *)
Definition S_IFMT : Z := 61440.
Definition S_IFDIR : Z := 16384.

Definition expected_state_owner (fs : Files) (root : string) : Z * Z :=
  if path_eqb root PAM_BACKUPS_DIR then (0, 0) else effective_user fs.

Definition state_directory_attributes_match (mode uid gid : Z) (owner : Z * Z) : bool :=
  (Z.land mode S_IFMT =? S_IFDIR) && (Z.land mode 4095 =? PAM_BACKUPS_DIR_MODE)
  && bool_decide ((uid, gid) = owner).

Definition open_existing_read_only (fs : Files) (root : string) : result (option BackupStore) IoError :=
  match symlink_metadata fs root with
  | Err e => if is_not_found e then Ok None else Err e
  | Ok m =>
      if negb (bool_decide (file_type m = IsDirectory))
      then Err (io_error InvalidInput (root +:+ " is not a directory"))
      else
        let owner := expected_state_owner fs root in
        let? m := open_directory_nofollow fs root in
        if negb (state_directory_attributes_match (mode m) (uid m) (gid m) owner)
        then Err (io_error PermissionDenied "PAM backup state directory owner or mode is not trusted")
        else Ok (Some {| root := root; expected_owner := owner |})
  end.

(** [secured] is what making a directory the trusted owner's answers when it is not yet: the
    metadata after the attempt, or the attempt's error. *)
Definition open_existing (fs : Files) (secured : result Metadata IoError) (root : string)
    : result (option BackupStore) IoError :=
  match symlink_metadata fs root with
  | Err e => if is_not_found e then Ok None else Err e
  | Ok m =>
      if negb (bool_decide (file_type m = IsDirectory))
      then Err (io_error InvalidInput (root +:+ " is not a directory"))
      else
        let owner := expected_state_owner fs root in
        let? m := open_directory_nofollow fs root in
        let? m := (if state_directory_attributes_match (mode m) (uid m) (gid m) owner then Ok m else secured) in
        if negb (state_directory_attributes_match (mode m) (uid m) (gid m) owner)
        then Err (io_error PermissionDenied "PAM backup state directory owner or mode is not trusted")
        else Ok (Some {| root := root; expected_owner := owner |})
  end.

Definition owned_state_file (owner : Z * Z) (m : Metadata) : bool :=
  (Z.land (mode m) 4095 =? 384) && bool_decide ((uid m, gid m) = owner).

Section scan.
Context `{Json, Sha256}.

(** One entry of the directory: [Ok None] is an entry that is passed over. *)
Definition scan_record (fs : Files) (st : BackupStore) (entry : DirEntry) : result (option PreparedBackup) IoError :=
  match entry_name entry with
  | None => Ok None
  | Some name =>
      if negb (ends_with ".json" name) then Ok None
      else
        match open_regular_at fs (root st) name with
        | Err _ => Ok None
        | Ok file =>
            let? record_metadata := file_metadata file in
            if negb (owned_state_file (expected_owner st) record_metadata) then Ok None
            else
              match read_open_bounded file MAX_RECORD_BYTES with
              | Err _ => Ok None
              | Ok encoded =>
                  match decode_record encoded with
                  | None => Ok None
                  | Some r =>
                      if negb (valid_provenance_record name r) then Ok None
                      else
                        match open_regular_at fs (root st) (pr_backup r) with
                        | Err _ => Ok None
                        | Ok backup =>
                            let? backup_metadata := file_metadata backup in
                            if negb (owned_state_file (expected_owner st) backup_metadata) then Ok None
                            else
                              match read_open_bounded backup MAX_BACKUP_BYTES with
                              | Err _ => Ok None
                              | Ok original =>
                                  if negb (String.eqb (sha256_hex original) (pr_original_sha256 r)) then Ok None
                                  else Ok (Some {|
                                    pb_root := root st; pb_backup := pr_backup r; pb_record := name;
                                    provenance := r;
                                    backup_identity := Some (identity_for_bytes backup_metadata original);
                                    record_identity := Some (identity_for_bytes record_metadata encoded) |})
                              end
                        end
                  end
              end
        end
  end.

Fixpoint scan_entries (fs : Files) (st : BackupStore) (entries : list DirEntry)
    : result (list PreparedBackup) IoError :=
  match entries with
  | [] => Ok []
  | entry :: entries =>
      let? r := scan_record fs st entry in
      let? rs := scan_entries fs st entries in
      Ok (match r with Some r => r :: rs | None => rs end)
  end.

Definition scanned_record_pairs (fs : Files) (st : BackupStore) : result (list PreparedBackup) IoError :=
  let? _ := open_directory_nofollow fs (root st) in
  let? entries := read_dir fs (root st) in
  scan_entries fs st entries.

Definition sequence (p : PreparedBackup) : Z := pr_sequence (provenance p).

Definition sequence_count (s : Z) (l : list PreparedBackup) : nat :=
  length (List.filter (λ p, sequence p =? s) l).

(** [sort_by_key(Reverse(sequence))], which keeps equal keys in order. *)
Fixpoint insert_newest (p : PreparedBackup) (l : list PreparedBackup) : list PreparedBackup :=
  match l with
  | [] => [p]
  | q :: l' => if sequence p <? sequence q then q :: insert_newest p l' else p :: l
  end.

Definition newest_first (l : list PreparedBackup) : list PreparedBackup := foldr insert_newest [] l.

Definition validated_records (fs : Files) (st : BackupStore) (service : string)
    : result (list PreparedBackup) IoError :=
  let? records := scanned_record_pairs fs st in
  Ok (newest_first (List.filter (λ p, String.eqb (pr_service (provenance p)) service
                                      && (sequence_count (sequence p) records =? 1)%nat) records)).

Definition validated_committed_records (fs : Files) (st : BackupStore) (service : string)
    : result (list PreparedBackup) IoError :=
  let? records := validated_records fs st service in
  Ok (List.filter (λ p, bool_decide (pr_state (provenance p) = Committed)) records).

Definition latest_committed (fs : Files) (st : BackupStore) (service : string) : result (option string) IoError :=
  let? records := validated_committed_records fs st service in
  Ok (match records with [] => None | p :: _ => Some (join (pb_root p) (pb_backup p)) end).

(** ** The next sequence number *)
Definition scanned_sequences (fs : Files) (st : BackupStore) : result (list Z) IoError :=
  let? records := scanned_record_pairs fs st in Ok (map sequence records).

Definition next_sequence (fs : Files) (st : BackupStore) : result Z IoError :=
  let? seqs := scanned_sequences fs st in
  let next := fold_right Z.max 0 seqs + 1 in
  if next <? 2 ^ 64 then Ok next else Err (io_error InvalidData "PAM backup sequence exhausted").

Definition sequence_in_use (fs : Files) (st : BackupStore) (s : Z) : result bool IoError :=
  if s =? 0 then Ok true
  else let? seqs := scanned_sequences fs st in Ok (existsb (Z.eqb s) seqs).

(** ** A new backup's name *)
Definition MAX_TIMESTAMP_COLLISION_PROBES : nat := 4096.

(** A [Duration] in nanoseconds; adding one fails past [u64::MAX] seconds. *)
Definition duration_bound : Z := 2 ^ 64 * 1000000000.

Definition nine_digits (n : Z) : string :=
  String.concat "" (map (λ k, show_Z (n / 10 ^ k mod 10)) [8; 7; 6; 5; 4; 3; 2; 1; 0]).

Definition backup_name_at (service : string) (since_epoch : Z) : string :=
  service +:+ "." +:+ show_Z (since_epoch / 1000000000) +:+ "-" +:+ nine_digits (since_epoch mod 1000000000).

Definition occupied (fs : Files) (st : BackupStore) (candidate : string) : bool :=
  is_ok (symlink_metadata fs (join (root st) candidate))
  || is_ok (symlink_metadata fs (join (root st) (candidate +:+ ".json"))).

Fixpoint probe_name (probes : nat) (fs : Files) (st : BackupStore) (service : string) (since_epoch : Z) : option string :=
  match probes with
  | O => None
  | S probes =>
      let candidate := backup_name_at service since_epoch in
      if negb (occupied fs st candidate) then Some candidate
      else probe_name probes fs st service (if since_epoch + 1 <? duration_bound then since_epoch + 1 else since_epoch)
  end.

Definition plan_at_unlocked (fs : Files) (st : BackupStore) (service : string) (original installed : bytes)
    (since_epoch : Z) : result PreparedBackup IoError :=
  if negb (confined service) then Err (io_error InvalidInput "invalid PAM service name")
  else
    let? next := next_sequence fs st in
    match probe_name MAX_TIMESTAMP_COLLISION_PROBES fs st service since_epoch with
    | None => Err (io_error AlreadyExists "PAM backup timestamp collision probe limit exhausted")
    | Some backup =>
        Ok {| pb_root := root st; pb_backup := backup; pb_record := backup +:+ ".json";
              provenance := {| pr_version := PROVENANCE_VERSION; pr_sequence := next; pr_state := Prepared;
                               pr_service := service; pr_backup := backup;
                               pr_original_sha256 := sha256_hex original;
                               pr_installed_sha256 := sha256_hex installed |};
              backup_identity := None; record_identity := None |}
    end.
End scan.
