(* ===== verification/PamService.v ===== *)
(** * PamService: which file a PAM command touches, and what it plans for it

    [facelock-cli/src/commands/pam.rs]: resolving service names on the search path, the sensitive
    services, phase one of [pam add] and [pam remove], copies of package-owned files, the
    detection of a selected [pam-auth-update] profile, [pam status] and the scan behind
    [pam status --all]. Messages are values; printing them is not modelled. *)

From stdpp Require Import sorting.
From S2P Require Import Prelude Text Sealing PamDocument PamFiles PamBackup.

(** ** Requests *)
Inductive PamAction := ActionAdd | ActionRemove | ActionStatus.
Inductive WriteAction := Add | Remove.

#[export] Instance WriteAction_eq_dec : EqDecision WriteAction.
Proof. solve_decision. Defined.

Definition WriteAction_of (a : PamAction) : option WriteAction :=
  match a with ActionAdd => Some Add | ActionRemove => Some Remove | ActionStatus => None end.

Record PamRequest := {
  action : PamAction; shared_profile_status : bool; services : list string; all : bool; no_confirm : bool;
  allow_sensitive : bool; if_present : bool; dry_run : bool; keep_backup : bool; json : bool }.

Record WriteRequest := { wr_action : WriteAction; request : PamRequest; remedy : string }.

Definition SENSITIVE_SERVICES : list string :=
  ["common-auth"; "login"; "password-auth"; "password-auth-ac"; "sshd"; "system-auth"; "system-auth-ac";
   "system-login"].

Definition DEFAULT_PAM_SERVICE : string := "sudo".

Definition STATUS_PRESENT : Z := 0.
Definition STATUS_MISSING : Z := 1.
Definition STATUS_ERROR : Z := 2.
Definition WRITE_OK : Z := 0.
Definition WRITE_FAILED : Z := 1.

(** What a command fails with before it has written anything. *)
Inductive PamError :=
  | PamInvalidServiceName (service : string)
  | PamServiceSymlinkedOutside (path target dir : string)
  | PamServiceHardLinked (path links : string)
  | PamSensitiveRefused (service remedy : string)
  | PamFileNotFound (paths : string)
  | PamOverrideDirUnwritable (dir path error : string)
  | PamReadFailed (display : string) (error : IoError)
  | PamAuthUpdateProfileActive
  | PamAuthUpdateUninspectable (error : string).

(** [Vec::contains] and the duplicates it drops, in order. *)
Definition list_has (s : string) (l : list string) : bool := existsb (String.eqb s) l.

Fixpoint dedup (seen l : list string) : list string :=
  match l with
  | [] => seen
  | s :: l => dedup (if list_has s seen then seen else seen ++ [s]) l
  end.

Definition requested_services (services : list string) : list string :=
  match dedup [] services with [] => [DEFAULT_PAM_SERVICE] | l => l end.

(** ** Outcomes and reports *)
Inductive Outcome :=
  | Installed | Overridden | Removed | VendorOnly | Unchanged | Absent | Declined
  | Failed (error : string) | CleanupFailed (error : string)
  | Present | Missing | Unknown (error : string).

#[export] Instance Outcome_eq_dec : EqDecision Outcome.
Proof. solve_decision. Defined.

Record ServiceReport := {
  sr_service : string; sr_path : option string; outcome : Outcome; backup : option string;
  shadows : option string }.

(** ** Targets *)
Inductive Plan :=
  | Rewrite (content : bytes)
  | Override (content : bytes)
  | DeleteOverride (content : bytes)
  | RetainVendorOverride (vendor : string)
  | PlanVendorOnly
  | NoChange
  | PlanAbsent.

Inductive Origin := Local | Vendor (override_path : string) | Nowhere (tried : list string).

Record Target := {
  service : string; path : string; origin : Origin; shadowed : option string;
  identity : option FileIdentity; plan : Plan }.

Inductive Rejected :=
  | RejectedName
  | OutOfBase (link target base : string)
  | HardLinked (link : string) (links : Z).

Definition rejected_reason (r : Rejected) : string :=
  match r with
  | RejectedName => "invalid service name"
  | OutOfBase _ _ _ => "symlinked outside /etc/pam.d"
  | HardLinked _ _ => "hard-linked service file"
  end.

Definition rejected_message (r : Rejected) (service : string) : PamError :=
  match r with
  | RejectedName => PamInvalidServiceName service
  | OutOfBase link target base => PamServiceSymlinkedOutside link target base
  | HardLinked link links => PamServiceHardLinked link (show_Z links)
  end.

Definition rejected_link (r : Rejected) : option string :=
  match r with RejectedName => None | OutOfBase link _ _ | HardLinked link _ => Some link end.

Definition write_target (path : string) (origin : Origin) : string :=
  match origin with Vendor override_path => override_path | Local | Nowhere _ => path end.

Definition write_path (t : Target) : string := write_target (path t) (origin t).

Definition reported_path (t : Target) : string :=
  match plan t with Override _ => write_path t | _ => path t end.

Definition exists_anywhere (t : Target) : bool :=
  match origin t with Nowhere _ => false | _ => true end.

Definition tried_paths (t : Target) : string :=
  match origin t with Nowhere tried => String.concat ", " tried | _ => path t end.

(** ** Resolution *)
Definition hard_link_checked (fs : Files) (p : string) : result string Rejected :=
  match metadata fs p with
  | Err _ => Ok p
  | Ok m => if bool_decide (file_type m = IsRegular) && (1 <? nlink m) then Err (HardLinked p (nlink m)) else Ok p
  end.

Definition resolve_in (fs : Files) (base entry : string) : option (result string Rejected) :=
  match symlink_metadata fs entry with
  | Err e => if is_not_found e then None else Some (Ok entry)
  | Ok m =>
      if negb (bool_decide (file_type m = IsSymlink)) then Some (hard_link_checked fs entry)
      else Some (Err (OutOfBase entry (match read_link fs entry with Ok t => t | Err _ => entry end) base))
  end.

Fixpoint resolve_from (fs : Files) (over : string) (service : string) (bases tried : list string)
    : result (string * Origin) Rejected :=
  match bases with
  | [] => Ok (join over service, Nowhere tried)
  | base :: bases =>
      let entry := join base service in
      match resolve_in fs base entry with
      | None => resolve_from fs over service bases (tried ++ [entry])
      | Some (Err r) => Err r
      | Some (Ok p) => Ok (p, if path_eqb base over then Local else Vendor (join over service))
      end
  end.

Definition resolve_service_path (fs : Files) (d : PamDirs) (service : string) : result (string * Origin) Rejected :=
  resolve_from fs (overrides d) service (dirs d) [].

Definition shadowed_vendor (fs : Files) (d : PamDirs) (service : string) (o : Origin) : option string :=
  match o with
  | Local => find_map (λ base, let p := join base service in
                               if is_ok (symlink_metadata fs p) then Some p else None) (tail (dirs d))
  | _ => None
  end.

Definition locate (fs : Files) (d : PamDirs) (service : string) : result Target Rejected :=
  if negb (confined service) then Err RejectedName
  else
    let? po := resolve_service_path fs d service in
    Ok {| service := service; path := fst po; origin := snd po; shadowed := shadowed_vendor fs d service (snd po);
          identity := None; plan := NoChange |}.

(** ** Copies of package-owned files *)
Definition VENDOR_OVERRIDE_HEADER_SUFFIX : bytes :=
  bytes_of ("# This local override shadows the vendor file and will not track vendor updates." +:+ String newline "").

(** [version] is the package's version, [date] the day of the local clock. *)
Definition provenance_header (vendor version date : string) : bytes :=
  bytes_of ("# Copied from " +:+ vendor +:+ " by facelock " +:+ version +:+ " on " +:+ date +:+ "." +:+
            String newline "") ++ VENDOR_OVERRIDE_HEADER_SUFFIX.

(** [windows(4).rposition(|part| part == b" on ")] *)
Fixpoint rposition_from (needle : bytes) (b : bytes) (i : nat) (found : option nat) : option nat :=
  let found := if bytes_eqb (take (length needle) b) needle then Some i else found in
  match b with [] => found | _ :: b => rposition_from needle b (S i) found end.

Definition rposition (needle b : bytes) : option nat := rposition_from needle b O None.

Definition is_ascii_alphanumeric (a : ascii) : bool :=
  let n := Ascii.nat_of_ascii a in
  ((48 <=? n) && (n <=? 57) || (65 <=? n) && (n <=? 90) || (97 <=? n) && (n <=? 122))%nat.

Definition version_byte (a : ascii) : bool :=
  is_ascii_alphanumeric a || existsb (Ascii.eqb a) (bytes_of ".-+").

Definition date_shape (date : bytes) : bool :=
  (length date =? 10)%nat &&
  forallb (λ p, let '(i, a) := p in
                if (i =? 4)%nat || (i =? 7)%nat then Ascii.eqb a "-" else is_ascii_digit a) (imap pair date).

Definition vendor_override_payload (content : bytes) (vendor : string) : option bytes :=
  match position (Ascii.eqb newline) content with
  | None => None
  | Some k =>
      let first_end := S k in
      match position (Ascii.eqb newline) (drop first_end content) with
      | None => None
      | Some k' =>
          let second_end := (first_end + k' + 1)%nat in
          if negb (bytes_eqb (slice content first_end second_end) VENDOR_OVERRIDE_HEADER_SUFFIX) then None
          else
            match bytes_strip_prefix (bytes_of ("# Copied from " +:+ vendor +:+ " by facelock ")) (take first_end content) with
            | None => None
            | Some rest =>
                match bytes_strip_suffix (bytes_of ("." +:+ String newline "")) rest with
                | None => None
                | Some rest =>
                    match rposition (bytes_of " on ") rest with
                    | None => None
                    | Some separator =>
                        let version := take separator rest in
                        let date := drop (separator + 4) rest in
                        let version_ok := negb (bytes_eqb version []) && forallb version_byte version in
                        if version_ok && date_shape date then Some (drop second_end content) else None
                    end
                end
            end
      end
  end.

Record ResolvedVendor := { rv_path : string; rv_content : bytes; rv_identity : FileIdentity }.

Inductive VendorOverrideDisposition := NotFacelock | DispositionUnchanged | Drifted | SourceAbsent (vendor : string).

Fixpoint normalize_components (cs : list Component) (normalized : list string) : option (list string) :=
  match cs with
  | [] => Some normalized
  | (RootDir | CurDir) :: cs => normalize_components cs normalized
  | Normal name :: cs => normalize_components cs (normalized ++ [name])
  | ParentDir :: cs =>
      match normalized with [] => None | _ => normalize_components cs (removelast normalized) end
  end.

Definition normalized_configured_path (p : string) : option string :=
  if negb (is_absolute p) then None
  else (λ names, fold_left join names "/"%string) <$> normalize_components (components p) [].

Section hashed.
Context `{Json, Sha256}.

Fixpoint resolve_vendor_in (fs : Files) (service : string) (roots : list string)
    : result (option ResolvedVendor) IoError :=
  match roots with
  | [] => Ok None
  | root :: roots =>
      match open_directory_nofollow fs root with
      | Err e => if is_not_found e then resolve_vendor_in fs service roots else Err e
      | Ok _ =>
          match open_regular_at fs root service with
          | Err e => if is_not_found e then resolve_vendor_in fs service roots else Err e
          | Ok file =>
              let? content := read_open_bounded file MAX_BACKUP_BYTES in
              let? m := file_metadata file in
              Ok (Some {| rv_path := join root service; rv_content := content;
                          rv_identity := identity_for_bytes m content |})
          end
      end
  end.

Definition resolve_current_vendor (fs : Files) (d : PamDirs) (service : string)
    : result (option ResolvedVendor) IoError :=
  if negb (confined service) then Err (io_error InvalidInput "invalid PAM service name")
  else resolve_vendor_in fs service (tail (dirs d)).

Definition configured_vendor_header_source (d : PamDirs) (service : string) (content : bytes) : option string :=
  let without_line := with_facelock_removed content in
  find_map (λ root, match normalized_configured_path (join root service) with
                    | None => None
                    | Some candidate => (λ _, candidate) <$> vendor_override_payload without_line candidate
                    end) (tail (dirs d)).

Definition exact_vendor_override_shape (content : bytes) (id : FileIdentity) (vendor : ResolvedVendor) : bool :=
  let without_line := with_facelock_removed content in
  match vendor_override_payload without_line (rv_path vendor) with
  | None => false
  | Some payload =>
      let header_len := (length without_line - length payload)%nat in
      let emitted := take header_len without_line ++ with_facelock_inserted (rv_content vendor) in
      (bytes_eqb content without_line || bytes_eqb content emitted)
      && bytes_eqb payload (rv_content vendor)
      && negb (has_facelock_rule (rv_content vendor))
      && bool_decide ((id_mode id, id_uid id, id_gid id)
                      = (id_mode (rv_identity vendor), id_uid (rv_identity vendor), id_gid (rv_identity vendor)))
  end.

Definition classify_vendor_override (fs : Files) (d : PamDirs) (t : Target) (content : bytes) (id : FileIdentity)
    : VendorOverrideDisposition :=
  match resolve_current_vendor fs d (service t) with
  | Ok (Some vendor) => if exact_vendor_override_shape content id vendor then DispositionUnchanged else Drifted
  | Ok None =>
      match configured_vendor_header_source d (service t) content with
      | None => NotFacelock
      | Some vendor => SourceAbsent vendor
      end
  | Err _ => if is_some (shadowed t) then Drifted else NotFacelock
  end.

(** ** Debian's shared profile *)
Definition PAM_AUTH_UPDATE_PROFILE : bytes :=
  bytes_of (String.concat (String newline "")
    ["Name: Facelock face authentication"; "Default: no"; "Priority: 900"; "Auth-Type: Primary"; "Auth:";
     String tab "[success=end default=ignore]" +:+ String tab "pam_facelock.so"; ""]).

Definition trusted_owner (m : Metadata) (owner : Z * Z) : bool :=
  bool_decide ((uid m, gid m) = owner) && (Z.land (mode m) 18 =? 0).

Definition read_pam_auth_update_file (fs : Files) (root name : string) (owner : Z * Z)
    : result (option bytes) IoError :=
  match open_directory_nofollow fs root with
  | Err e => if is_not_found e then Ok None else Err e
  | Ok m =>
      if negb (trusted_owner m owner)
      then Err (io_error PermissionDenied (root +:+ " has untrusted ownership or permissions"))
      else
        match open_regular_at fs root name with
        | Err e => if is_not_found e then Ok None else Err e
        | Ok file =>
            let? m := file_metadata file in
            if negb (trusted_owner m owner)
            then Err (io_error PermissionDenied (root +:+ "/" +:+ name +:+ " has untrusted ownership or permissions"))
            else let? content := read_open_bounded file MAX_RECORD_BYTES in Ok (Some content)
        end
  end.

(** [content.split(|byte| *byte == b'\n')], each line without a carriage return at its end. *)
Fixpoint split_lines (b : bytes) : list bytes :=
  match b with
  | [] => [[]]
  | c :: b => if Ascii.eqb c newline then [] :: split_lines b
              else match split_lines b with [] => [[c]] | l :: ls => (c :: l) :: ls end
  end.

Definition without_cr (l : bytes) : bytes := default l (bytes_strip_suffix [carriage_return] l).

Definition pam_auth_update_state_selects_facelock (content : bytes) : bool :=
  existsb (λ l, bytes_eqb (without_cr l) (bytes_of "Module: facelock")) (split_lines content).

Definition bytes_starts_with (pre b : bytes) : bool := is_some (bytes_strip_prefix pre b).

Fixpoint managed_facelock_in (lines : list bytes) (primary : bool) : bool :=
  match lines with
  | [] => false
  | line :: lines =>
      let sem := without_cr line in
      if bytes_starts_with (bytes_of "# here are the per-package modules") sem && has_window (bytes_of "Primary") sem
      then managed_facelock_in lines true
      else if primary && bytes_starts_with (bytes_of "# here's the fallback if no module succeeds") sem then false
      else if primary && is_facelock_rule sem then true
      else managed_facelock_in lines primary
  end.

Definition common_auth_has_managed_facelock (content : bytes) : bool :=
  managed_facelock_in (split_lines content) false.

Definition active_pam_auth_update_profile (fs : Files) (r : PamAuthUpdateRoots) : result bool IoError :=
  let owner := if is_system r then (0, 0) else effective_user fs in
  let? state := read_pam_auth_update_file fs (state r) "auth" owner in
  let selected := is_some_and pam_auth_update_state_selects_facelock state in
  let? common_auth := read_pam_auth_update_file fs (pam r) "common-auth" owner in
  let live := is_some_and common_auth_has_managed_facelock common_auth in
  if negb selected && live
  then Err (io_error InvalidData "live PAM graph contains an unselected Facelock profile")
  else if negb selected then Ok false
  else
    match common_auth with
    | None => Err (io_error NotFound "selected Facelock profile has no common-auth graph")
    | Some _ =>
        if negb live then Err (io_error InvalidData "selected Facelock profile does not match the live PAM graph")
        else
          let? profile := read_pam_auth_update_file fs (profiles r) "facelock" owner in
          match profile with
          | None => Err (io_error NotFound "selected Facelock profile metadata is missing")
          | Some p =>
              if bytes_eqb p PAM_AUTH_UPDATE_PROFILE then Ok true
              else Err (io_error InvalidData
                "selected Facelock profile metadata does not match the packaged profile")
          end
    end.

Definition guard_direct_add (fs : Files) (d : PamDirs) (a : WriteAction) : result unit PamError :=
  match a, pam_auth_update d with
  | Add, Some roots =>
      match active_pam_auth_update_profile fs roots with
      | Err e => Err (PamAuthUpdateUninspectable (io_text e))
      | Ok true => Err PamAuthUpdateProfileActive
      | Ok false => Ok tt
      end
  | _, _ => Ok tt
  end.

Definition shared_profile_exit (fs : Files) (r : PamAuthUpdateRoots) : Z :=
  match active_pam_auth_update_profile fs r with
  | Ok true => STATUS_PRESENT
  | Ok false => STATUS_MISSING
  | Err _ => STATUS_ERROR
  end.

(** ** Phase one *)
Definition gate_sensitive (name : string) (w : WriteRequest) : result unit PamError :=
  if negb (bool_decide (wr_action w = Add)) || allow_sensitive (request w) || negb (list_has name SENSITIVE_SERVICES)
  then Ok tt else Err (PamSensitiveRefused name (remedy w)).

Definition file_name_of (p : string) : string := default "" (file_name p).

Definition writable_override_dir (fs : Files) (override_path : string) : result unit PamError :=
  let dir := default "/" (parent override_path) in
  if str_has_char nul dir
  then Err (PamOverrideDirUnwritable dir override_path "path contains embedded NUL")
  else map_err (λ e, PamOverrideDirUnwritable dir override_path (io_text e)) (access_write fs dir).

Definition plan_for (fs : Files) (d : PamDirs) (w : WriteRequest) (located : Target)
    (content : option bytes) (id : option FileIdentity) : result Plan PamError :=
  match content, origin located with
  | None, _ => Ok PlanAbsent
  | Some content, Vendor override_path =>
      match wr_action w with
      | Remove => Ok PlanVendorOnly
      | Add =>
          if has_facelock_rule content then Ok NoChange
          else let? _ := writable_override_dir fs override_path in Ok (Override content)
      end
  | Some content, (Local | Nowhere _) =>
      let present := has_facelock_rule content in
      match wr_action w with
      | Remove =>
          let disposition := match id with
                             | None => NotFacelock
                             | Some id => classify_vendor_override fs d located content id
                             end in
          Ok (match disposition with
              | DispositionUnchanged => DeleteOverride content
              | SourceAbsent vendor => if negb present then RetainVendorOverride vendor else Rewrite content
              | _ => if present then Rewrite content else NoChange
              end)
      | Add => Ok (if present then NoChange else Rewrite content)
      end
  end.

Definition plan_service (fs : Files) (d : PamDirs) (w : WriteRequest) (s : string) : result Target PamError :=
  let? _ := gate_sensitive s w in
  let? located := map_err (λ why, rejected_message why s) (locate fs d s) in
  let? _ := gate_sensitive (file_name_of (path located)) w in
  let? read :=
    match read_regular_nofollow fs (path located) with
    | Ok (content, id) => Ok (Some content, Some id)
    | Err e =>
        if is_not_found e then
          if negb (if_present (request w)) then Err (PamFileNotFound (tried_paths located)) else Ok (None, None)
        else Err (PamReadFailed (path located) e)
    end in
  let? p := plan_for fs d w located (fst read) (snd read) in
  Ok {| service := service located; path := path located; origin := origin located; shadowed := shadowed located;
        identity := snd read; plan := p |}.

Fixpoint plan_services (fs : Files) (d : PamDirs) (w : WriteRequest) (ss : list string) : result (list Target) PamError :=
  match ss with
  | [] => Ok []
  | s :: ss => let? t := plan_service fs d w s in let? ts := plan_services fs d w ss in Ok (t :: ts)
  end.

Definition plan_writes (fs : Files) (d : PamDirs) (w : WriteRequest) : result (list Target) PamError :=
  plan_services fs d w (requested_services (services (request w))).

(** What [--dry-run] reports. *)
Definition report_plan (t : Target) (a : WriteAction) : Outcome :=
  match plan t, a with
  | Rewrite _, Add => Installed
  | Rewrite _, Remove => Removed
  | DeleteOverride _, Remove => Removed
  | DeleteOverride _, Add => Unchanged
  | RetainVendorOverride _, _ => Unchanged
  | Override _, _ => Overridden
  | PlanVendorOnly, _ => VendorOnly
  | NoChange, _ => Unchanged
  | PlanAbsent, _ => Absent
  end.

(** The bytes phase two writes for a plan. *)
Definition written_bytes (t : Target) (version date : string) : option bytes :=
  match plan t with
  | Rewrite content => Some (with_facelock_inserted content)
  | Override content =>
      Some (provenance_header (default (path t) (normalized_configured_path (path t))) version date
            ++ with_facelock_inserted content)
  | _ => None
  end.

(** ** What is configured *)
Inductive DirState := Scanned | DirAbsent | Unreadable (error : string).

Record DirectoryScan := { ds_path : string; ds_state : DirState }.
Record Scan := { names : list string; directories : list DirectoryScan }.

Definition dir_error (s : DirState) : option string :=
  match s with Unreadable e => Some e | Scanned | DirAbsent => None end.

Definition unreadable (s : Scan) : list (string * string) :=
  omap (λ d, (λ e, (ds_path d, e)) <$> dir_error (ds_state d)) (directories s).

Definition answered (s : Scan) : list string :=
  map ds_path (List.filter (λ d, negb (is_some (dir_error (ds_state d)))) (directories s)).

Definition NON_SERVICE_SUFFIXES : list string :=
  [".facelock-backup"; ".pacnew"; ".pacsave"; ".pacorig"; ".rpmnew"; ".rpmsave"; ".rpmorig"; ".dpkg-old";
   ".dpkg-new"; ".dpkg-dist"; ".pam-old"; "~"].

Definition is_service_name (name : string) : bool :=
  negb (starts_with "." name) && negb (existsb (λ suffix, ends_with suffix name) NON_SERVICE_SUFFIXES)
  && confined name.

Definition worth_reporting (fs : Files) (p : string) : bool :=
  let skip := match metadata fs p with
              | Ok m => negb (bool_decide (file_type m = IsRegular))
              | Err e => is_not_found e
              end in
  if skip then false
  else match read_file fs p with
       | Ok content => has_facelock_rule content
       | Err e => negb (is_not_found e)
       end.

Definition scan_entry (fs : Files) (base : string) (names : list string) (e : DirEntry) : list string :=
  match entry_type e with
  | Ok IsDirectory => names
  | _ =>
      match entry_name e with
      | None => names
      | Some name =>
          if negb (is_service_name name) || negb (worth_reporting fs (join base name)) then names
          else if list_has name names then names else names ++ [name]
      end
  end.

Definition scan_directory (fs : Files) (names : list string) (base : string) : list string * DirectoryScan :=
  match read_dir fs base with
  | Ok entries => (fold_left (scan_entry fs base) entries names, {| ds_path := base; ds_state := Scanned |})
  | Err e => (names, {| ds_path := base; ds_state := if is_not_found e then DirAbsent else Unreadable (io_text e) |})
  end.

Fixpoint scan_bases (fs : Files) (bases : list string) (names : list string) (found : list DirectoryScan) : Scan :=
  match bases with
  | [] => {| names := merge_sort String.le names; directories := found |}
  | base :: bases =>
      let '(names, d) := scan_directory fs names base in scan_bases fs bases names (found ++ [d])
  end.

Definition scan_directories (fs : Files) (d : PamDirs) : Scan := scan_bases fs (dirs d) [] [].

(** ** Status *)
Definition existing_backup_for (fs : Files) (p : string) : option string :=
  let b := p +:+ ".facelock-backup" in
  match symlink_metadata fs b with
  | Ok m => if bool_decide (file_type m = IsRegular) && (nlink m =? 1) then Some b else None
  | Err _ => None
  end.

Section status.
Context (fs : Files) (secured : result Metadata IoError) (d : PamDirs).

Definition reported_backup (t : Target) : option string :=
  let committed :=
    match open_existing fs secured (backup_dir d) with
    | Ok (Some st) => match latest_committed fs st (service t) with Ok b => b | Err _ => None end
    | _ => None
    end in
  or_else committed (existing_backup_for fs (write_path t)).

Definition status_outcome (t : Target) : Outcome :=
  match read_regular_nofollow fs (path t) with
  | Ok (content, _) =>
      if has_facelock_rule content then Present
      else match origin t with Vendor _ => VendorOnly | _ => Missing end
  | Err e => if is_not_found e then Absent else Unknown (io_text e)
  end.

Definition status_report (s : string) : ServiceReport :=
  match locate fs d s with
  | Err why =>
      {| sr_service := s; sr_path := rejected_link why; outcome := Unknown (rejected_reason why);
         backup := match rejected_link why with None => None | Some l => existing_backup_for fs l end;
         shadows := None |}
  | Ok t =>
      {| sr_service := service t; sr_path := Some (path t); outcome := status_outcome t;
         backup := reported_backup t; shadows := shadowed t |}
  end.

Definition status_reports (ss : list string) : list ServiceReport := map status_report ss.

Definition status_code (o : Outcome) (if_present : bool) : Z :=
  match o with
  | Present => STATUS_PRESENT
  | Missing => STATUS_MISSING
  | Absent => if if_present then STATUS_PRESENT else STATUS_ERROR
  | Unknown _ => STATUS_ERROR
  | VendorOnly => STATUS_MISSING
  | Installed | Overridden | Removed | Unchanged | Declined | Failed _ | CleanupFailed _ => STATUS_ERROR
  end.

(** [Iterator::max], with the code for an empty report. *)
Definition worst (reports : list ServiceReport) (if_present : bool) : Z :=
  match map (λ r, status_code (outcome r) if_present) reports with
  | [] => STATUS_PRESENT
  | c :: cs => fold_left Z.max cs c
  end.

Definition status_all_in (r : PamRequest) : Z :=
  let scan := scan_directories fs d in
  let reports := status_reports (names scan) in
  let nothing_configured := match reports with [] => STATUS_MISSING | _ => STATUS_PRESENT end in
  let unread := match unreadable scan with [] => STATUS_PRESENT | _ => STATUS_ERROR end in
  Z.max (Z.max (worst reports (if_present r)) nothing_configured) unread.

Definition status_in (r : PamRequest) : Z :=
  if all r then status_all_in r
  else worst (status_reports (requested_services (services r))) (if_present r).

(** ** What other commands ask *)
Definition service_exists (s : string) : bool :=
  match locate fs d s with Ok t => exists_anywhere t | Err _ => false end.

Definition is_configured (s : string) : bool :=
  match locate fs d s with
  | Err _ => false
  | Ok t => match read_regular_nofollow fs (path t) with
            | Ok (content, _) => has_facelock_rule content
            | Err _ => false
            end
  end.

Record ConfiguredService := { cs_service : string; cs_path : string; cs_shadows : option string }.
Record NotChecked := { nc_path : string; nc_error : string }.
Record ConfiguredScan := { cs_services : list ConfiguredService; not_checked : list NotChecked }.

Definition configured_scan : ConfiguredScan :=
  let scan := scan_directories fs d in
  let reports := status_reports (names scan) in
  {| cs_services := map (λ r, {| cs_service := sr_service r; cs_path := default "" (sr_path r); cs_shadows := shadows r |})
       (List.filter (λ r, bool_decide (outcome r = Present)) reports);
     not_checked := map (λ p, {| nc_path := fst p; nc_error := snd p |}) (unreadable scan)
       ++ omap (λ r, match outcome r with
                     | Unknown e => Some {| nc_path := default (sr_service r) (sr_path r); nc_error := e |}
                     | _ => None
                     end) reports |}.
End status.
End hashed.

(** Reading an exit code or a result off the rows of phase two. *)
Fixpoint first_failure (reports : list ServiceReport) : result unit string :=
  match reports with
  | [] => Ok tt
  | r :: reports => match outcome r with Failed e | CleanupFailed e => Err e | _ => first_failure reports end
  end.

Definition add_left_the_line (o : Outcome) : bool :=
  match o with Installed | Overridden | Unchanged => true | _ => false end.
