(* ===== verification/PamServiceProofs.v ===== *)
(** * PamServiceProofs: names are confined, writes stay where they may land, answers are true *)

From stdpp Require Import sorting.
From S2P Require Import Prelude Text Sealing PamDocument PamDocumentProofs PamFiles PamBackup PamService.

(** ** Paths *)
Lemma split_on_app c a b : split_on c (a +:+ String c b) = split_on c a ++ split_on c b.
Proof.
  induction a as [|x a IH].
  - change (split_on c (String c b) = EmptyString :: split_on c b). cbn. by rewrite Ascii.eqb_refl.
  - rewrite string_app_cons. cbn [split_on]. rewrite IH. destruct (Ascii.eqb x c); [done|].
    destruct (split_on c a) eqn:E; [|done]. by destruct a as [|y a]; cbn in E; [|destruct (Ascii.eqb y c), (split_on c a)].
Qed.

Lemma split_on_nonempty c s : split_on c s ≠ [].
Proof. destruct s as [|a s]; cbn; [done|]. destruct (Ascii.eqb a c); [done|]. by destruct (split_on c s). Qed.

Lemma split_on_single c s : str_has_char c s = false → split_on c s = [s].
Proof.
  induction s as [|a s IH]; cbn; intros H; [done|]. bsplit.
  match goal with H : Ascii.eqb a c = false |- _ => rewrite H end. by rewrite IH.
Qed.

Lemma split_on_parts c s p : p ∈ split_on c s → str_has_char c p = false.
Proof.
  revert p. induction s as [|a s IH]; cbn; intros p Hp.
  - by apply list_elem_of_singleton in Hp as ->.
  - destruct (Ascii.eqb a c) eqn:Ea; [apply elem_of_cons in Hp as [->|Hp]; auto|].
    destruct (split_on c s) as [|q qs]; [apply list_elem_of_singleton in Hp as ->; cbn; by rewrite Ea|].
    apply elem_of_cons in Hp as [->|Hp]; cbn; rewrite ?Ea; [apply IH, list_elem_of_here|].
    apply IH. apply elem_of_cons. by right.
Qed.

Lemma is_absolute_cons a s : is_absolute (String a s) = Ascii.eqb a slash.
Proof.
  unfold is_absolute, starts_with. cbn -[ascii_dec]. destruct (ascii_dec "/" a) as [<-|Hne]; [by destruct s|].
  symmetry. apply Ascii.eqb_neq. by intros ->.
Qed.

Lemma normal_component p name : Normal name ∈ components p → str_has_char slash name = false ∧ name ≠ ""%string ∧
  name ≠ "."%string ∧ name ≠ ".."%string.
Proof.
  unfold components. intros [H|H]%elem_of_app.
  - exfalso. destruct (is_absolute p); [by apply list_elem_of_singleton in H|].
    destruct (split_on slash p) as [|q qs]; [by apply elem_of_nil in H|].
    assert (∀ o : list Component, o = [] ∨ o = [CurDir] → Normal name ∉ o) as Hno.
    { intros o [-> | ->]; [apply not_elem_of_nil|]. by intros ?%list_elem_of_singleton. }
    eapply Hno, H. destruct q as [|a q]; [by left|]. destruct a as [[][][][][][][][]]; destruct q; auto.
  - apply list_elem_of_omap in H as (part & Hin & Hc). unfold component_of in Hc.
    destruct (String.eqb part "" || String.eqb part ".") eqn:E1; [done|].
    destruct (String.eqb part "..") eqn:E2; [done|]. injection Hc as ->. bsplit. by apply split_on_parts in Hin.
Qed.

(** A service name that passes is a plain name; what is refused would reach another directory, no
    file, or be cut short by the kernel. *)
Lemma confined_spec s : confined s = true ↔
  s ≠ ""%string ∧ s ≠ "."%string ∧ s ≠ ".."%string ∧ str_has_char slash s = false ∧ str_has_char nul s = false.
Proof.
  split.
  - unfold confined. destruct (components s) as [|[| | |name] [|? ?]] eqn:E; try done. intros H. bsplit. subst name.
    destruct (normal_component s s) as (? & ? & ? & ?); [rewrite E; apply list_elem_of_here|]. done.
  - intros (H1 & H2 & H3 & H4 & H5). unfold confined, components.
    assert (is_absolute s = false) as ->.
    { destruct s as [|a s]; [done|]. cbn in H4. bsplit. by rewrite is_absolute_cons. }
    rewrite split_on_single by done.
    assert (omap component_of [s] = [Normal s]) as ->.
    { cbn. unfold component_of. by rewrite (proj2 (String.eqb_neq _ _) H1), (proj2 (String.eqb_neq _ _) H2),
        (proj2 (String.eqb_neq _ _) H3). }
    assert (match s with "."%string => [CurDir] | _ => [] end = []) as E.
    { destruct s as [|a s]; [done|]. destruct a as [[][][][][][][][]]; destruct s; done. }
    rewrite E. cbn. by rewrite String.eqb_refl, H5.
Qed.

(** The path of a service is the directory's with the name at its end. *)
Lemma split_on_cons_head c a s : ∃ h t, split_on c (String a s) = h :: t ∧
  ∀ s', split_on c (String a s +:+ String c s') = h :: t ++ split_on c s'.
Proof.
  destruct (split_on c (String a s)) as [|h t] eqn:E; [by apply split_on_nonempty in E|].
  exists h, t. split; [done|]. intros s'. by rewrite split_on_app, E.
Qed.

Definition lead (p : string) : list Component :=
  if is_absolute p then [RootDir] else match split_on slash p with "."%string :: _ => [CurDir] | _ => [] end.

Lemma components_lead p : components p = lead p ++ omap component_of (split_on slash p).
Proof. done. Qed.

Lemma lead_app base s : base ≠ ""%string → lead (base +:+ String slash s) = lead base.
Proof.
  destruct base as [|a base]; [done|]. intros _. unfold lead.
  assert (is_absolute (String a base +:+ String slash s) = is_absolute (String a base)) as ->.
  { by rewrite string_app_cons, !is_absolute_cons. }
  destruct (split_on_cons_head slash a base) as (h & t & -> & H). by rewrite H.
Qed.

Lemma omap_component_confined s : confined s = true → omap component_of (split_on slash s) = [Normal s].
Proof.
  intros (H1 & H2 & H3 & H4 & _)%confined_spec. rewrite split_on_single by done. cbn. unfold component_of.
  by rewrite (proj2 (String.eqb_neq _ _) H1), (proj2 (String.eqb_neq _ _) H2), (proj2 (String.eqb_neq _ _) H3).
Qed.

Lemma confined_relative s : confined s = true → is_absolute s = false.
Proof.
  intros (H1 & _ & _ & H4 & _)%confined_spec. destruct s as [|a s]; [done|]. cbn in H4. bsplit. by rewrite is_absolute_cons.
Qed.

Lemma components_join base s : confined s = true → base ≠ ""%string →
  components (join base s) = components base ++ [Normal s].
Proof.
  intros Hs Hb. unfold join. rewrite (confined_relative s Hs).
  assert (is_empty_str base = false) as -> by (by apply String.eqb_neq).
  cbn [orb]. rewrite !components_lead, <- app_assoc, <- (omap_component_confined s Hs), <- omap_app.
  destruct (ends_with "/" base) eqn:Ee.
  - apply ends_with_spec in Ee as [t ->]. rewrite string_app_assoc. change ("/" +:+ s) with (String slash s).
    change "/"%string with (String slash ""). rewrite !split_on_app. destruct (decide (t = ""%string)) as [->|Ht].
    + unfold lead. change (is_absolute ("" +:+ String slash s)) with (is_absolute (String slash s)).
      rewrite is_absolute_cons, Ascii.eqb_refl. done.
    + rewrite !lead_app by done. f_equal. rewrite !omap_app. cbn. by rewrite app_nil_r.
  - change ("/" +:+ s) with (String slash s). by rewrite lead_app, split_on_app.
Qed.

Lemma file_name_join base s : confined s = true → base ≠ ""%string → file_name (join base s) = Some s.
Proof. intros Hs Hb. unfold file_name. by rewrite components_join, last_snoc. Qed.

(** ** Resolution *)
Definition wf_dirs (d : PamDirs) : Prop := dirs d ≠ [] ∧ Forall (λ x, is_absolute x = true) (dirs d).

Lemma default_dirs_wf : wf_dirs default_dirs.
Proof. split; [done|]. repeat constructor. Qed.

Lemma PamDirs_new_wf fs ds : wf_dirs (PamDirs_new fs ds).
Proof.
  unfold PamDirs_new. destruct ds as [|first later]; [apply default_dirs_wf|].
  destruct (existsb _ (first :: later)) eqn:Ea; [apply default_dirs_wf|].
  destruct (existsb _ later); [apply default_dirs_wf|]. split; [done|]. cbn [dirs].
  apply Forall_forall. intros x Hx. destruct (is_absolute x) eqn:Ex; [done|].
  assert (existsb (λ d, negb (is_absolute d)) (first :: later) = true) as E; [|congruence].
  apply existsb_Exists. exists x. by rewrite Ex.
Qed.

Lemma system_wf fs config : wf_dirs (system fs config).
Proof. destruct config; [apply PamDirs_new_wf|apply default_dirs_wf]. Qed.

Lemma absolute_nonempty p : is_absolute p = true → p ≠ ""%string.
Proof. by intros H ->. Qed.

Lemma overrides_absolute d : wf_dirs d → is_absolute (overrides d) = true.
Proof. intros [Hne H]. unfold overrides. destruct (dirs d); [done|]. by apply Forall_cons in H as [? _]. Qed.

(** Where a write for a service would land: directly in the override directory. *)
Definition lands_in (d : PamDirs) (s p : string) : Prop := components p = components (overrides d) ++ [Normal s].

Lemma resolve_in_path fs base entry p : resolve_in fs base entry = Some (Ok p) → p = entry.
Proof.
  unfold resolve_in. destruct (symlink_metadata fs entry) as [m|e]; [|by destruct (is_not_found e); [|intros [= ->]]].
  destruct (negb _); [|done]. unfold hard_link_checked. destruct (metadata fs entry); [|by intros [= ->]].
  destruct (_ && _); [done|by intros [= ->]].
Qed.

Lemma resolve_from_spec fs over s bases : confined s = true → over ≠ ""%string →
  Forall (λ x, is_absolute x = true) bases → ∀ tried p o, resolve_from fs over s bases tried = Ok (p, o) →
  components (write_target p o) = components over ++ [Normal s] ∧ file_name p = Some s.
Proof.
  intros Hs Ho Hb. induction Hb as [|base bases Hx Hb IH]; intros tried p o; cbn [resolve_from].
  - intros [= <- <-]. cbn [write_target]. by rewrite components_join, file_name_join.
  - pose proof (absolute_nonempty _ Hx) as Hne.
    destruct (resolve_in fs base (join base s)) as [[p'|r]|] eqn:E; [|done|apply IH].
    apply resolve_in_path in E as ->. intros [= <- <-]. split; [|by apply file_name_join].
    destruct (path_eqb base over) eqn:Eo; cbn [write_target]; [|by apply components_join].
    apply bool_decide_eq_true in Eo. by rewrite components_join, Eo.
Qed.

Lemma locate_spec fs d s t : wf_dirs d → locate fs d s = Ok t →
  confined s = true ∧ service t = s ∧ lands_in d s (write_path t) ∧ file_name (path t) = Some s.
Proof.
  intros Hd. unfold locate. destruct (confined s) eqn:Hs; [|done]. cbn [negb]. unfold resolve_service_path.
  destruct (resolve_from _ _ _ _ _) as [[p o]|] eqn:E; [|done]. intros [= <-]. cbn.
  apply resolve_from_spec in E as [E1 E2]; [done..|apply absolute_nonempty, overrides_absolute, Hd|apply Hd].
Qed.

(** ** Phase one *)
Section plans.
Context `{Json, Sha256} (fs : Files) (d : PamDirs) (w : WriteRequest) (Hd : wf_dirs d).

Definition allowed (name : string) : Prop :=
  wr_action w = Add → allow_sensitive (request w) = false → name ∉ SENSITIVE_SERVICES.

Lemma list_has_spec s l : list_has s l = true ↔ s ∈ l.
Proof.
  unfold list_has. rewrite existsb_Exists. split.
  - by intros (x & Hx & ->%String.eqb_eq).
  - intros Hs. exists s. by rewrite String.eqb_refl.
Qed.

Lemma gate_sensitive_spec name u : gate_sensitive name w = Ok u → allowed name.
Proof.
  unfold gate_sensitive. destruct (_ || _) eqn:E; [|done]. intros _ Ha Hs Hin. apply list_has_spec in Hin.
  by rewrite Hs, Hin, (bool_decide_eq_true_2 _ Ha) in E.
Qed.

(** What a plan says about the file it was made from. *)
Definition plan_fits (t : Target) : Prop :=
  match plan t with
  | Rewrite c => (∃ id, read_regular_nofollow fs (path t) = Ok (c, id) ∧ identity t = Some id) ∧
                 has_facelock_rule c = bool_decide (wr_action w = Remove)
  | Override c => (∃ id, read_regular_nofollow fs (path t) = Ok (c, id) ∧ identity t = Some id) ∧
                  has_facelock_rule c = false ∧ wr_action w = Add
  | DeleteOverride c => (∃ id, read_regular_nofollow fs (path t) = Ok (c, id) ∧ identity t = Some id) ∧
                        wr_action w = Remove
  | RetainVendorOverride _ => wr_action w = Remove ∧
      ∃ c id, read_regular_nofollow fs (path t) = Ok (c, id) ∧ has_facelock_rule c = false
  | PlanVendorOnly => wr_action w = Remove
  | NoChange => ∃ c id, read_regular_nofollow fs (path t) = Ok (c, id) ∧
                has_facelock_rule c = bool_decide (wr_action w = Add)
  | PlanAbsent => if_present (request w) = true ∧
                  ∃ e, read_regular_nofollow fs (path t) = Err e ∧ is_not_found e = true
  end.

Lemma plan_for_fits t c id p : read_regular_nofollow fs (path t) = Ok (c, id) →
  plan_for fs d w t (Some c) (Some id) = Ok p →
  plan_fits {| service := service t; path := path t; origin := origin t; shadowed := shadowed t;
               identity := Some id; plan := p |}.
Proof.
  intros Hr. unfold plan_for. destruct (wr_action w) eqn:Ha; destruct (origin t) as [|o|tried];
    destruct (has_facelock_rule c) eqn:Hc; cbn [negb];
    try (destruct (writable_override_dir _ _); [|done]);
    try (destruct (classify_vendor_override _ _ _ _ _)); intros [= <-]; unfold plan_fits; cbn [plan path identity]; rewrite ?Ha;
    repeat (first [done | split | exists c, id | (exists id) | by rewrite Hc | rewrite bool_decide_eq_true_2 by done
      | rewrite bool_decide_eq_false_2 by done]).
Qed.

Lemma plan_service_spec s t : plan_service fs d w s = Ok t →
  confined s = true ∧ service t = s ∧ lands_in d s (write_path t) ∧ allowed s ∧
  allowed (file_name_of (path t)) ∧ plan_fits t.
Proof using Hd.
  unfold plan_service. destruct (gate_sensitive s w) as [u|] eqn:Hg; [|done].
  destruct (locate fs d s) as [l|r] eqn:Hl; [|done]. cbn [map_err].
  destruct (gate_sensitive (file_name_of (path l)) w) as [u'|] eqn:Hg'; [|done].
  apply gate_sensitive_spec in Hg, Hg'. apply locate_spec in Hl as (H1 & H2 & H3 & _); [|done].
  destruct (read_regular_nofollow fs (path l)) as [[c id]|e] eqn:Hr; cbn [fst snd].
  - destruct (plan_for fs d w l (Some c) (Some id)) as [p|] eqn:Hp; [|done]. intros [= <-].
    pose proof (plan_for_fits l c id p Hr Hp) as Hf. done.
  - destruct (is_not_found e) eqn:He; [|done]. destruct (if_present (request w)) eqn:Hi; [|done]. cbn.
    intros [= <-]. unfold plan_fits. cbn. eauto 10.
Qed.

Lemma plan_services_spec ss ts : plan_services fs d w ss = Ok ts →
  Forall2 (λ s t, plan_service fs d w s = Ok t) ss ts.
Proof.
  revert ts. induction ss as [|s ss IH]; cbn [plan_services]; intros ts; [by intros [= <-]|].
  destruct (plan_service fs d w s) as [t|] eqn:E; [|done]. destruct (plan_services fs d w ss); [|done].
  intros [= <-]. constructor; auto.
Qed.
End plans.

(** ** The header of a copy *)
Lemma bytes_of_app a b : bytes_of (a +:+ b) = bytes_of a ++ bytes_of b.
Proof. induction a as [|c a IH]; [done|]. rewrite string_app_cons. cbn. f_equal. apply IH. Qed.

Lemma existsb_bytes_of c s : existsb (Ascii.eqb c) (bytes_of s) = str_has_char c s.
Proof. induction s as [|a s IH]; [done|]. change (bytes_of (String a s)) with (a :: bytes_of s). cbn. by rewrite IH, Ascii.eqb_sym. Qed.

Lemma bytes_strip_prefix_app pre b : bytes_strip_prefix pre (pre ++ b) = Some b.
Proof. unfold bytes_strip_prefix. rewrite take_app_length, drop_app_length. unfold bytes_eqb. by rewrite bool_decide_eq_true_2. Qed.

(** A byte that cannot start the separator leaves the search where it was. *)
Lemma rposition_skip a b i found : a ≠ space →
  rposition_from (bytes_of " on ") (a :: b) i found = rposition_from (bytes_of " on ") b (S i) found.
Proof.
  intros Ha. cbn [rposition_from]. assert (bytes_eqb (take (length (bytes_of " on ")) (a :: b)) (bytes_of " on ") = false) as ->; [|done].
  apply bool_decide_eq_false_2. cbn. intros [= -> _]. by destruct Ha.
Qed.

Lemma rposition_none b i found : space ∉ b → rposition_from (bytes_of " on ") b i found = found.
Proof.
  revert i found. induction b as [|a b IH]; intros i found Hb.
  - cbn. done.
  - apply not_elem_of_cons in Hb as [Ha Hb]. rewrite rposition_skip by done. by apply IH.
Qed.

Lemma rposition_separator v dt : space ∉ v → space ∉ dt → head dt ≠ Some "o"%char →
  rposition (bytes_of " on ") (v ++ bytes_of " on " ++ dt) = Some (length v).
Proof.
  intros Hv Hd Ho. unfold rposition.
  assert (∀ i found, rposition_from (bytes_of " on ") (v ++ bytes_of " on " ++ dt) i found
    = rposition_from (bytes_of " on ") (bytes_of " on " ++ dt) (i + length v)%nat found) as ->.
  { induction v as [|a v IH]; intros i found; [by rewrite Nat.add_0_r|]. apply not_elem_of_cons in Hv as [Ha Hv].
    cbn [app]. rewrite rposition_skip, IH by done. cbn [length]. f_equal. lia. }
  cbn [Nat.add]. change (bytes_of " on " ++ dt) with (space :: "o"%char :: "n"%char :: space :: dt).
  cbn [rposition_from]. change (length (bytes_of " on ")) with 4%nat. cbn [take].
  assert (bytes_eqb (space :: "o"%char :: "n"%char :: space :: take 0 dt) (bytes_of " on ") = true) as ->.
  { apply bool_decide_eq_true_2. by rewrite take_0. }
  assert (∀ x, bytes_eqb ("o"%char :: x) (bytes_of " on ") = false) as -> by (intros x; by apply bool_decide_eq_false_2).
  assert (∀ x, bytes_eqb ("n"%char :: x) (bytes_of " on ") = false) as -> by (intros x; by apply bool_decide_eq_false_2).
  assert (bytes_eqb (space :: take 3 dt) (bytes_of " on ") = false) as ->.
  { apply bool_decide_eq_false_2. destruct dt as [|a dt]; [done|]. cbn. intros [= -> _]. by destruct Ho. }
  by rewrite rposition_none.
Qed.

Lemma date_bytes dt : date_shape dt = true →
  length dt = 10%nat ∧ Forall (λ a, is_ascii_digit a || Ascii.eqb a "-" = true) dt.
Proof.
  unfold date_shape. intros H. bsplit. split; [done|]. apply Forall_lookup. intros i a Hi.
  match goal with H : forallb _ _ = true |- _ => rewrite forallb_Forall, Forall_forall in H; rename H into Hf end.
  specialize (Hf (i, a)). cbn in Hf. rewrite orb_true_iff.
  destruct ((i =? 4)%nat || (i =? 7)%nat); [right|left]; apply Hf, list_elem_of_lookup; exists i; by rewrite list_lookup_imap, Hi.
Qed.

Lemma Forall_no_space (p : ascii → bool) b : p space = false → Forall (λ a, p a = true) b → space ∉ b.
Proof. intros Hp Hb Hin. rewrite Forall_forall in Hb. specialize (Hb _ Hin). congruence. Qed.

(** The lines of the header of a copy, as the code writes and reads them. *)
Definition header_line (vendor version date : string) : bytes :=
  bytes_of ("# Copied from " +:+ vendor +:+ " by facelock " +:+ version +:+ " on " +:+ date +:+ ".").
Definition header_note : bytes :=
  bytes_of "# This local override shadows the vendor file and will not track vendor updates.".

Section header.
Context (vendor version date : string)
  (Hvendor : str_has_char newline vendor = false)
  (Hversion : version ≠ ""%string) (Hversion' : Forall (λ a, version_byte a = true) (bytes_of version))
  (Hdate : date_shape (bytes_of date) = true).

Lemma provenance_header_lines c :
  provenance_header vendor version date ++ c = header_line vendor version date ++ newline :: header_note ++ newline :: c.
Proof using.
  unfold provenance_header, VENDOR_OVERRIDE_HEADER_SUFFIX, header_line, header_note.
  rewrite !bytes_of_app, <- !app_assoc. done.
Qed.

Lemma no_newline (p : ascii → bool) b : p newline = false → Forall (λ a, p a = true) b → existsb (Ascii.eqb newline) b = false.
Proof using.
  intros Hp Hb. destruct (existsb (Ascii.eqb newline) b) eqn:E; [|done].
  apply existsb_Exists in E as (a & Ha & <-%Ascii.eqb_eq). rewrite Forall_forall in Hb. by rewrite (Hb _ Ha) in Hp.
Qed.

Lemma header_line_no_newline : existsb (Ascii.eqb newline) (header_line vendor version date) = false.
Proof using Hvendor Hversion' Hdate.
  unfold header_line. rewrite !bytes_of_app, !existsb_app, (existsb_bytes_of newline vendor), Hvendor.
  rewrite (no_newline version_byte (bytes_of version)) by done.
  rewrite (no_newline (λ a, is_ascii_digit a || Ascii.eqb a "-") (bytes_of date)) by (done || by apply date_bytes).
  by vm_compute.
Qed.

Lemma header_note_no_newline : existsb (Ascii.eqb newline) header_note = false.
Proof using. by vm_compute. Qed.

(** Reading the header of a copy back gives the bytes under it. *)
Lemma vendor_override_payload_header c :
  vendor_override_payload (provenance_header vendor version date ++ c) vendor = Some c.
Proof using Hvendor Hversion Hversion' Hdate.
  unfold vendor_override_payload. rewrite provenance_header_lines.
  rewrite position_app by (apply header_line_no_newline || apply Ascii.eqb_refl).
  replace (S (length (header_line vendor version date))) with (length (header_line vendor version date ++ [newline]))
    by (rewrite length_app; cbn; lia).
  replace (header_line vendor version date ++ newline :: header_note ++ newline :: c)
    with ((header_line vendor version date ++ [newline]) ++ header_note ++ newline :: c) by (by rewrite <- app_assoc).
  rewrite drop_app_length, position_app by (apply header_note_no_newline || apply Ascii.eqb_refl).
  rewrite take_app_length.
  set (h := header_line vendor version date ++ [newline]).
  replace (h ++ header_note ++ newline :: c) with (h ++ (header_note ++ [newline]) ++ c) by (by rewrite <- (app_assoc header_note)).
  replace (length h + length header_note + 1)%nat with (length (h ++ (header_note ++ [newline])))
    by (rewrite !length_app; cbn; lia).
  rewrite slice_app_mid. change (header_note ++ [newline]) with VENDOR_OVERRIDE_HEADER_SUFFIX at 1.
  unfold bytes_eqb at 1. rewrite bool_decide_eq_true_2 by done. cbn [negb].
  replace (drop (length (h ++ (header_note ++ [newline]))) (h ++ (header_note ++ [newline]) ++ c)) with c
    by (by rewrite (app_assoc h (header_note ++ [newline]) c), drop_app_length).
  subst h. unfold header_line.
  replace (bytes_of ("# Copied from " +:+ vendor +:+ " by facelock " +:+ version +:+ " on " +:+ date +:+ ".") ++ [newline])
    with (bytes_of ("# Copied from " +:+ vendor +:+ " by facelock ") ++
      (bytes_of version ++ bytes_of " on " ++ bytes_of date) ++ bytes_of ("." +:+ String newline ""))
    by (rewrite !bytes_of_app, <- !app_assoc; done).
  rewrite bytes_strip_prefix_app, bytes_strip_suffix_app.
  destruct (date_bytes _ Hdate) as [Hlen Hdb].
  rewrite rposition_separator.
  - rewrite take_app_length. replace (length (bytes_of version) + 4)%nat
      with (length (bytes_of version ++ bytes_of " on ")) by (by rewrite length_app).
    rewrite app_assoc, drop_app_length, Hdate. rewrite (proj2 (forallb_Forall _ _) Hversion').
    unfold bytes_eqb. rewrite bool_decide_eq_false_2; [done|]. by destruct version.
  - eapply Forall_no_space, Hversion'. by vm_compute.
  - eapply Forall_no_space, Hdb. by vm_compute.
  - destruct (bytes_of date) as [|a dt]; [done|]. intros [= ->]. apply Forall_cons in Hdb as [Hdb _]. by vm_compute in Hdb.
Qed.

Lemma removed_after_header c :
  with_facelock_removed (provenance_header vendor version date ++ c)
  = provenance_header vendor version date ++ with_facelock_removed c.
Proof using Hvendor Hversion' Hdate.
  rewrite !provenance_header_lines.
  rewrite removed_after_comment by (apply header_line_no_newline || done).
  by rewrite removed_after_comment by (apply header_note_no_newline || done).
Qed.
End header.

(** ** Exit codes *)
Lemma fold_max_zero l a : fold_left Z.max l a = 0 → Forall (λ c, 0 ≤ c) (a :: l) → Forall (λ c, c = 0) (a :: l).
Proof.
  revert a. induction l as [|c l IH]; cbn; intros a E Hp; apply Forall_cons in Hp as [Ha Hp].
  - by constructor.
  - apply Forall_cons in Hp as [Hc Hp]. apply IH in E; [|constructor; [lia|done]].
    apply Forall_cons in E as [E1 E2]. repeat constructor; [lia|lia|done].
Qed.

Lemma fold_max_zeros l : Forall (λ c, c = 0) l → fold_left Z.max l 0 = 0.
Proof. induction 1 as [|c l -> H IH]; [done|]. exact IH. Qed.

Lemma status_code_range o b : 0 ≤ status_code o b.
Proof. by destruct o, b. Qed.

Lemma status_code_present o : status_code o false = 0 ↔ o = Present.
Proof. by destruct o. Qed.

Lemma worst_zero reports : worst reports false = 0 ↔ Forall (λ r, outcome r = Present) reports.
Proof.
  unfold worst. destruct reports as [|r reports]; [done|]. cbn [map].
  setoid_rewrite <- status_code_present. split.
  - intros E. apply fold_max_zero in E.
    + change (Forall (λ c, c = 0) (map (λ r, status_code (outcome r) false) (r :: reports))) in E. by rewrite Forall_map in E.
    + change (Forall (λ c, 0 ≤ c) (map (λ r, status_code (outcome r) false) (r :: reports))). apply Forall_map, Forall_true.
      intros x. apply status_code_range.
  - intros H. apply Forall_cons in H as [-> H]. apply fold_max_zeros, Forall_map, H.
Qed.

Lemma worst_range reports b : 0 ≤ worst reports b.
Proof.
  unfold worst. destruct reports as [|r reports]; [done|]. cbn [map].
  assert (∀ l a, 0 ≤ a → 0 ≤ fold_left Z.max l a) as H; [|apply H, status_code_range].
  induction l as [|c l IH]; cbn; intros a Ha; [done|]. apply IH. lia.
Qed.

Section status.
Context `{Json, Sha256} (fs : Files) (secured : result Metadata IoError) (d : PamDirs).

Lemma status_report_present s :
  outcome (status_report fs secured d s) = Present ↔ is_configured fs d s = true.
Proof.
  unfold status_report, is_configured. destruct (locate fs d s) as [t|why]; [|done]. cbn [outcome].
  unfold status_outcome. destruct (read_regular_nofollow fs (path t)) as [[c id]|e].
  - destruct (has_facelock_rule c); [done|]. by destruct (origin t).
  - by destruct (is_not_found e).
Qed.

(** *** The scan finds every file that names the module *)
Definition found (base : string) (e : DirEntry) (name : string) : Prop :=
  entry_name e = Some name ∧ entry_type e ≠ Ok IsDirectory ∧ is_service_name name = true ∧
  worth_reporting fs (join base name) = true.

Lemma scan_entry_keeps base ns e s : s ∈ ns → s ∈ scan_entry fs base ns e.
Proof.
  intros Hs. unfold scan_entry. destruct (entry_type e) as [[]|]; try done;
    destruct (entry_name e); try done; destruct (_ || _); try done; destruct (list_has _ _); try done; apply elem_of_app; by left.
Qed.

Lemma scan_entry_finds base ns e name : found base e name → name ∈ scan_entry fs base ns e.
Proof.
  intros (Hn & Ht & Hs & Hw). unfold scan_entry. rewrite Hn, Hs, Hw. cbn [negb orb].
  assert (name ∈ (if list_has name ns then ns else ns ++ [name])) as Hin.
  { destruct (list_has name ns) eqn:El; [by apply list_has_spec|]. apply elem_of_app. right. by apply list_elem_of_singleton. }
  by destruct (entry_type e) as [[]|].
Qed.

Lemma scan_entries_find base entries : ∀ ns,
  (∀ s, s ∈ ns → s ∈ fold_left (scan_entry fs base) entries ns) ∧
  (∀ e name, e ∈ entries → found base e name → name ∈ fold_left (scan_entry fs base) entries ns).
Proof.
  induction entries as [|e entries IH]; intros ns; cbn [fold_left].
  - split; [done|]. intros e name He. by apply elem_of_nil in He.
  - destruct (IH (scan_entry fs base ns e)) as [IH1 IH2]. split.
    + intros s Hs. by apply IH1, scan_entry_keeps.
    + intros e' name [->|He]%elem_of_cons Hf; [|by eapply IH2]. by apply IH1, scan_entry_finds.
Qed.

Definition scan_state (base : string) : DirState :=
  match read_dir fs base with
  | Ok _ => Scanned
  | Err e => if is_not_found e then DirAbsent else Unreadable (io_text e)
  end.

Lemma scan_bases_spec bases : ∀ ns seen,
  let scan := scan_bases fs bases ns seen in
  directories scan = seen ++ map (λ b, {| ds_path := b; ds_state := scan_state b |}) bases ∧
  (∀ s, s ∈ ns → s ∈ names scan) ∧
  (∀ base entries e name, base ∈ bases → read_dir fs base = Ok entries → e ∈ entries → found base e name →
     name ∈ names scan).
Proof.
  induction bases as [|b bases IH]; intros ns seen; cbn [scan_bases].
  - split; [by rewrite app_nil_r|]. split; [|intros base entries e name Hb; by apply elem_of_nil in Hb].
    intros s Hs. cbn [names]. by rewrite merge_sort_Permutation.
  - unfold scan_directory. destruct (read_dir fs b) as [entries|err] eqn:Er.
    + destruct (scan_entries_find b entries ns) as [H1 H2].
      destruct (IH (fold_left (scan_entry fs b) entries ns) (seen ++ [{| ds_path := b; ds_state := Scanned |}])) as (E & I1 & I2).
      split; [rewrite E, <- app_assoc; cbn; unfold scan_state at 2; by rewrite Er|]. split; [auto|].
      intros base entries' e name [->|Hb]%elem_of_cons Hr He Hf; [|by eapply I2].
      rewrite Er in Hr. injection Hr as <-. eauto.
    + destruct (IH ns (seen ++ [{| ds_path := b; ds_state := if is_not_found err then DirAbsent else Unreadable (io_text err) |}]))
        as (E & I1 & I2).
      split; [rewrite E, <- app_assoc; cbn; unfold scan_state at 2; by rewrite Er|]. split; [auto|].
      intros base entries' e name [->|Hb]%elem_of_cons Hr He Hf; [congruence|by eapply I2].
Qed.

Lemma unreadable_nil scan : unreadable scan = [] →
  Forall (λ x, dir_error (ds_state x) = None) (directories scan).
Proof.
  unfold unreadable. induction (directories scan) as [|x l IH]; [constructor|].
  cbn [omap list_omap]. destruct (dir_error (ds_state x)) eqn:E; cbn; [done|]. intros Hl. constructor; auto.
Qed.
End status.

(** ** A machine to evaluate on

    [/etc/pam.d] has [sudo]; [/usr/lib/pam.d] has [polkit-1]; nothing else exists. *)
Definition sum_digest : Sha256 := {| sha256 := λ l, [fold_right Z.add 0 l mod 256] |}.
Definition no_json : Json := {| decode_record := λ _, None |}.
#[local] Existing Instance sum_digest.
#[local] Existing Instance no_json.

Definition plain_file : Metadata :=
  {| file_type := IsRegular; dev := 1; ino := 7; nlink := 1; mode := 33188; uid := 0; gid := 0; len := 100 |}.
Definition plain_dir : Metadata :=
  {| file_type := IsDirectory; dev := 1; ino := 2; nlink := 2; mode := 16877; uid := 0; gid := 0; len := 0 |}.

Definition sudo_file : bytes :=
  bytes_of (String.concat (String newline "") ["#%PAM-1.0"; "auth include system-auth"; ""]).

(** The service files by path. *)
Definition machine (contents : list (string * bytes)) : Files :=
  let file p := snd <$> find (λ x, String.eqb (fst x) p) contents in
  let absent := io_error NotFound "No such file or directory" in
  {| symlink_metadata := λ p, match file p with Some _ => Ok plain_file | None => Err absent end;
     metadata := λ p, match file p with Some _ => Ok plain_file | None => Err absent end;
     read_link := λ _, Err absent; canonicalize := λ p, Ok p; open_directory := λ _, Ok plain_dir;
     open_at := λ dir name, match file (join dir name) with
                            | Some c => Ok {| file_metadata := Ok plain_file; file_bytes := Ok c |}
                            | None => Err absent
                            end;
     read_dir := λ dir, Ok (omap (λ x, match strip_prefix (dir +:+ "/") (fst x) with
                                       | Some name => Some {| entry_name := Some name; entry_type := Ok IsRegular |}
                                       | None => None
                                       end) contents);
     read_file := λ p, match file p with Some c => Ok c | None => Err absent end;
     access_write := λ _, Ok tt; effective_user := (0, 0) |}.

Definition sample_machine : Files :=
  machine [("/etc/pam.d/sudo"%string, sudo_file); ("/usr/lib/pam.d/polkit-1"%string, sudo_file)].

Definition sample_request (ss : list string) : PamRequest :=
  {| action := ActionAdd; shared_profile_status := false; services := ss; all := false; no_confirm := true;
     allow_sensitive := false; if_present := false; dry_run := false; keep_backup := false; json := false |}.
Definition sample_write (a : WriteAction) (ss : list string) : WriteRequest :=
  {| wr_action := a; request := sample_request ss; remedy := "--allow-sensitive" |}.

(** C31.  Phase one of [pam add] and [pam remove] answers for the whole request or refuses it. When
    it answers, there is one target per requested service, in order; each name is a plain file
    name, each write would land under that name directly in the override directory, never in a
    package's directory; a sensitive service, by its name or by the file it reached, is there
    only when that was allowed; and each plan fits the file that was read: the line is added
    only where it is missing, removed only where it is. *)
Theorem phase_one_is_safe `{Json, Sha256} fs d w ts : wf_dirs d →
  plan_writes fs d w = Ok ts →
  map service ts = requested_services (services (request w)) ∧
  Forall (λ t, confined (service t) = true ∧ lands_in d (service t) (write_path t) ∧
               allowed w (service t) ∧ allowed w (file_name_of (path t)) ∧ plan_fits fs w t) ts.
Proof.
  intros Hd Hp. apply plan_services_spec in Hp. induction Hp as [|s t ss ts Hst Hp [IH1 IH2]]; [done|].
  apply plan_service_spec in Hst as (H1 & H2 & H3 & H4 & H5 & H6); [|done]. cbn [map]. subst s.
  split; [by f_equal|]. by constructor.
Qed.

Lemma phase_one_is_safe_witness : ∃ ts,
  plan_writes sample_machine default_dirs (sample_write Add ["sudo"; "polkit-1"]) = Ok ts ∧
  map service ts = ["sudo"; "polkit-1"]%string ∧
  Forall (λ t, confined (service t) = true ∧ lands_in default_dirs (service t) (write_path t)) ts.
Proof.
  destruct (plan_writes sample_machine default_dirs (sample_write Add ["sudo"; "polkit-1"])) as [ts|e] eqn:E;
    [|exfalso; vm_compute in E; discriminate].
  exists ts. split; [reflexivity|].
  destruct (phase_one_is_safe sample_machine default_dirs _ ts default_dirs_wf E) as [H1 H2].
  split; [exact H1|]. eapply Forall_impl; [exact H2|]. cbn. intros t (A & B & _). split; assumption.
Defined.

(** What deleting an override needs: the bytes of the current vendor file under a header. *)
Lemma delete_override_exact `{Json, Sha256} fs d w t content id c' :
  plan_for fs d w t (Some content) (Some id) = Ok (DeleteOverride c') →
  c' = content ∧ ∃ v, resolve_current_vendor fs d (service t) = Ok (Some v) ∧
    vendor_override_payload (with_facelock_removed content) (rv_path v) = Some (rv_content v) ∧
    has_facelock_rule (rv_content v) = false.
Proof.
  unfold plan_for. destruct (origin t) as [|o|tried]; destruct (wr_action w);
    try (destruct (has_facelock_rule content); [done|]; try destruct (writable_override_dir _ _); done);
    destruct (classify_vendor_override fs d t content id) eqn:Ec; try (by destruct (has_facelock_rule content));
    intros [= <-]; (split; [done|]); unfold classify_vendor_override in Ec;
    (destruct (resolve_current_vendor fs d (service t)) as [[v|]|] eqn:Ev;
      [|by destruct (configured_vendor_header_source _ _ _)|by destruct (is_some (shadowed t))]);
    (exists v; split; [done|]); (destruct (exact_vendor_override_shape content id v) eqn:Es; [|done]);
    unfold exact_vendor_override_shape in Es;
    (destruct (vendor_override_payload (with_facelock_removed content) (rv_path v)) as [p|]; [|done]); bsplit;
    (match goal with H : bytes_eqb p _ = true |- _ => apply bool_decide_eq_true in H as -> end); done.
Qed.

(** A copy of a package-owned service file that the command made is taken away again by
    [pam remove], and only such a copy is: the file that [pam add] writes, with the owner and
    mode of the vendor's file, is planned for deletion; and whatever is planned for deletion
    is, but for the module's line, a header over the bytes of the vendor file that becomes
    authoritative again. *)
Theorem vendor_copy_is_retired `{Json, Sha256} fs d w t id v version date :
  wr_action w = Remove → origin t = Local →
  resolve_current_vendor fs d (service t) = Ok (Some v) →
  has_facelock_rule (rv_content v) = false → rv_content v ≠ pam_header →
  str_has_char newline (rv_path v) = false →
  version ≠ ""%string → Forall (λ a, version_byte a = true) (bytes_of version) →
  date_shape (bytes_of date) = true →
  (id_mode id, id_uid id, id_gid id)
    = (id_mode (rv_identity v), id_uid (rv_identity v), id_gid (rv_identity v)) →
  let copy := provenance_header (rv_path v) version date ++ with_facelock_inserted (rv_content v) in
  plan_for fs d w t (Some copy) (Some id) = Ok (DeleteOverride copy) ∧
  ∀ content c', plan_for fs d w t (Some content) (Some id) = Ok (DeleteOverride c') →
    c' = content ∧
    vendor_override_payload (with_facelock_removed content) (rv_path v) = Some (rv_content v).
Proof.
  intros Hw Ho Hv Hc Hh Hp Hver Hver' Hdate Hid copy. split.
  - unfold plan_for. rewrite Ho, Hw. unfold classify_vendor_override. rewrite Hv.
    assert (exact_vendor_override_shape copy id v = true) as ->; [|done].
    assert (with_facelock_removed copy = provenance_header (rv_path v) version date ++ rv_content v) as Er.
    { subst copy. rewrite removed_after_header, insertion_undone by done.
      unfold bytes_eqb. by rewrite bool_decide_eq_false_2. }
    unfold exact_vendor_override_shape. rewrite Er, vendor_override_payload_header by done.
    replace (length (provenance_header (rv_path v) version date ++ rv_content v) - length (rv_content v))%nat
      with (length (provenance_header (rv_path v) version date)) by (rewrite length_app; lia).
    rewrite take_app_length. fold copy. unfold bytes_eqb. rewrite (bool_decide_eq_true_2 (copy = copy)) by done.
    rewrite orb_true_r, Hc, (bool_decide_eq_true_2 (rv_content v = _)) by done. by apply bool_decide_eq_true_2.
  - intros content c' Hplan. apply delete_override_exact in Hplan as (-> & v' & Hv' & H1 & _).
    rewrite Hv in Hv'. injection Hv' as <-. done.
Qed.

(** The copy of [polkit-1] on the sample machine. *)
Definition sample_copy : bytes :=
  provenance_header "/usr/lib/pam.d/polkit-1" "0.3.0" "2026-01-31" ++ with_facelock_inserted sudo_file.

Definition copied_machine : Files :=
  machine [("/etc/pam.d/polkit-1"%string, sample_copy); ("/usr/lib/pam.d/polkit-1"%string, sudo_file)].

Definition sample_target : Target :=
  {| service := "polkit-1"; path := "/etc/pam.d/polkit-1"; origin := Local;
     shadowed := Some "/usr/lib/pam.d/polkit-1"%string; identity := None; plan := NoChange |}.

Definition sample_vendor : ResolvedVendor :=
  {| rv_path := "/usr/lib/pam.d/polkit-1"; rv_content := sudo_file; rv_identity := identity_for_bytes plain_file sudo_file |}.

Lemma vendor_copy_is_retired_witness :
  plan_for copied_machine default_dirs (sample_write Remove ["polkit-1"]) sample_target (Some sample_copy)
    (Some (identity_for_bytes plain_file sample_copy)) = Ok (DeleteOverride sample_copy).
Proof.
  refine (proj1 (vendor_copy_is_retired copied_machine default_dirs (sample_write Remove ["polkit-1"]) sample_target
    (identity_for_bytes plain_file sample_copy) sample_vendor "0.3.0" "2026-01-31" _ _ _ _ _ _ _ _ _ _)).
  - reflexivity.
  - reflexivity.
  - vm_compute. reflexivity.
  - vm_compute. reflexivity.
  - vm_compute. discriminate.
  - vm_compute. reflexivity.
  - discriminate.
  - repeat constructor.
  - vm_compute. reflexivity.
  - reflexivity.
Defined.

(** [pam status] exits 0 exactly when every service it was asked about is configured: the file
    that Linux-PAM would read for it has an active rule that names the module. *)
Theorem status_zero_iff_configured `{Json, Sha256} fs secured d r :
  all r = false → if_present r = false →
  status_in fs secured d r = STATUS_PRESENT ↔
  ∀ s, s ∈ requested_services (services r) → is_configured fs d s = true.
Proof.
  intros Ha Hi. unfold status_in. rewrite Ha, Hi. unfold STATUS_PRESENT, status_reports.
  rewrite worst_zero, Forall_map, Forall_forall.
  split; intros Hs s Hin; apply (status_report_present fs secured d s); by apply Hs.
Qed.

Lemma status_zero_iff_configured_witness :
  status_in sample_machine (Ok plain_dir) default_dirs (sample_request ["sudo"]) = STATUS_PRESENT ↔
  ∀ s, s ∈ requested_services ["sudo"%string] → is_configured sample_machine default_dirs s = true.
Proof. exact (status_zero_iff_configured sample_machine (Ok plain_dir) default_dirs (sample_request ["sudo"]) eq_refl eq_refl). Defined.

(** [pam status --all] exits 0 only when the whole answer is known and good: no directory of
    the search path was unreadable, some service is configured, and every service whose file in
    any of the directories names the module, or could not be read, is configured. *)
Theorem status_all_zero_is_complete `{Json, Sha256} fs secured d r :
  all r = true → if_present r = false →
  status_in fs secured d r = STATUS_PRESENT →
  (∃ s, s ∈ names (scan_directories fs d)) ∧
  (∀ base, base ∈ dirs d → match read_dir fs base with
                           | Ok entries => ∀ e name, e ∈ entries → found fs base e name → is_configured fs d name = true
                           | Err e => is_not_found e = true
                           end).
Proof.
  intros Ha Hi. unfold status_in, status_all_in. rewrite Ha, Hi. unfold STATUS_PRESENT.
  destruct (scan_bases_spec fs (dirs d) [] []) as (Hdirs & _ & Hfind).
  change (scan_bases fs (dirs d) [] []) with (scan_directories fs d) in *. cbn [app] in Hdirs.
  set (scan := scan_directories fs d) in *. unfold status_reports.
  pose proof (worst_range (map (status_report fs secured d) (names scan)) false). intros E.
  assert (unreadable scan = []) as Hun by (destruct (unreadable scan); [done|]; unfold STATUS_ERROR in E; lia).
  assert (worst (map (status_report fs secured d) (names scan)) false = 0) as Hw
    by (destruct (unreadable scan), (map _ _); unfold STATUS_MISSING in E; lia).
  apply worst_zero in Hw. rewrite Forall_map, Forall_forall in Hw. split.
  - destruct (names scan) as [|s ns] eqn:En; [|exists s; apply list_elem_of_here].
    exfalso. rewrite Hun in E. by vm_compute in E.
  - intros base Hb. apply unreadable_nil in Hun. rewrite Hdirs, Forall_map, Forall_forall in Hun.
    specialize (Hun base Hb). cbn in Hun. unfold scan_state in Hun.
    destruct (read_dir fs base) as [entries|err] eqn:Er; [|by destruct (is_not_found err)].
    intros e name He Hf. apply (status_report_present fs secured d name). apply Hw. by eapply Hfind.
Qed.

Definition configured_machine : Files := machine [("/etc/pam.d/sudo"%string, with_facelock_inserted sudo_file)].
Definition all_request : PamRequest :=
  {| action := ActionStatus; shared_profile_status := false; services := []; all := true; no_confirm := true;
     allow_sensitive := false; if_present := false; dry_run := false; keep_backup := false; json := false |}.

Lemma status_all_zero_is_complete_witness : ∃ s, s ∈ names (scan_directories configured_machine default_dirs).
Proof.
  refine (proj1 (status_all_zero_is_complete configured_machine (Ok plain_dir) default_dirs all_request eq_refl eq_refl _)).
  vm_compute. reflexivity.
Defined.
