(* ===== verification/PamWorld.v ===== *)
(** * PamWorld: the file system the PAM editor changes

    [facelock-cli/src/commands/pam.rs] changes two directories, the one the services live in
    and the one of the rollback state, by creating, renaming, exchanging and unlinking names.
    This file has the file system as a map from names to files, a monad [Io] in which every
    system call is one step, and a program logic for it.

    Before each step other processes may change the world, the step itself may fail, and the
    process may be killed: these are the [Event]s a run is given. A killed process leaves the
    world as its last step left it; that the kernel's own caches survive is assumed, so the
    calls that sync a file or a directory are steps that may fail and change nothing. A
    descriptor stands for the file it was opened on, read as it was then; a file that was
    opened for writing is written as long as its name still holds it. *)

From stdpp Require Import gmap.
From S2P Require Import Prelude Text Sealing PamDocument PamFiles.

(** ** Files and directories *)
Record Entry := {
  e_type : FileType; e_dev : Z; e_ino : Z; e_links : Z; e_mode : Z; e_uid : Z; e_gid : Z; e_bytes : bytes }.

Definition fstat (e : Entry) : Metadata :=
  {| file_type := e_type e; dev := e_dev e; ino := e_ino e; nlink := e_links e; mode := e_mode e;
     uid := e_uid e; gid := e_gid e; len := Z.of_nat (length (e_bytes e)) |}.

(** A name is a directory's path and a basename. [ours] and [removed] are history: the inodes
    this process created, and what it unlinked. *)
Abbreviation Name := (string * string)%type.

Record World := {
  entries : gmap Name Entry;
  directories_of : gmap string Metadata;
  next_ino : Z;
  clock : Z; (* nanoseconds since the epoch *)
  user : Z * Z; (* effective user and group *)
  umask : Z;
  process_id : Z;
  ours : list Z;
  removed : list (Name * Entry) }.

Definition with_entries (m : gmap Name Entry) (w : World) : World :=
  {| entries := m; directories_of := directories_of w; next_ino := next_ino w; clock := clock w;
     user := user w; umask := umask w; process_id := process_id w; ours := ours w; removed := removed w |}.

(** ** What the system calls that change nothing answer *)
Definition not_found : IoError := io_error NotFound "No such file or directory (os error 2)".
Definition loop_error : IoError := io_error OtherKind "Too many levels of symbolic links (os error 40)".

Definition entry_at (w : World) (path : string) : option Entry :=
  match parent path, file_name path with
  | Some d, Some n => entries w !! (d, n)
  | _, _ => None
  end.

Definition stat_at (w : World) (path : string) : result Metadata IoError :=
  match directories_of w !! path with
  | Some m => Ok m
  | None => match entry_at w path with Some e => Ok (fstat e) | None => Err not_found end
  end.

Definition opened (e : Entry) : OpenFile := {| file_metadata := Ok (fstat e); file_bytes := Ok (e_bytes e) |}.

Definition names_in (w : World) (d : string) : list DirEntry :=
  omap (λ '((d', n), e), if String.eqb d' d then Some {| entry_name := Some n; entry_type := Ok (e_type e) |} else None)
    (map_to_list (entries w)).

(** Links are not followed: where one leads is outside these two directories. *)
Definition files_of (w : World) : Files := {|
  symlink_metadata := stat_at w;
  metadata path := let? m := stat_at w path in
                   if bool_decide (file_type m = IsSymlink) then Err loop_error else Ok m;
  read_link path := match entry_at w path with None => Err not_found | Some _ => Err (io_error InvalidInput "Invalid argument (os error 22)") end;
  canonicalize path := let? _ := stat_at w path in Ok path;
  open_directory path := match directories_of w !! path with Some m => Ok m | None => Err not_found end;
  open_at d n := match entries w !! (d, n) with
                 | None => Err not_found
                 | Some e => if bool_decide (e_type e = IsSymlink) then Err loop_error else Ok (opened e)
                 end;
  read_dir d := match directories_of w !! d with Some _ => Ok (names_in w d) | None => Err not_found end;
  read_file path := match entry_at w path with None => Err not_found | Some e => Ok (e_bytes e) end;
  access_write path := let? _ := stat_at w path in Ok tt;
  effective_user := user w |}.

(** ** Runs *)
Record Event := {
  before : World → World; (* what other processes do first *)
  killed : bool;
  answers : Files → Files; (* which reads of the step fail *)
  failure : option (IoError * nat) (* the change fails, a write after that many bytes *) }.

Definition calm : Event := {| before := id; killed := false; answers := id; failure := None |}.

Inductive Out (A : Type) : Type :=
  | Done (r : result A IoError)
  | Killed.
Arguments Done {A} _.
Arguments Killed {A}.

(** A run past the end of its events is undisturbed. *)
Definition Io (A : Type) : Type := World → list Event → Out A * World * list Event.

#[export] Instance Io_ret : MRet Io := λ A a w s, (Done (Ok a), w, s).

#[export] Instance Io_bind : MBind Io := λ A B k c w s,
  match c w s with
  | (Done (Ok a), w, s) => k a w s
  | (Done (Err e), w, s) => (Done (Err e), w, s)
  | (Killed, w, s) => (Killed, w, s)
  end.

Definition raise {A} (e : IoError) : Io A := λ w s, (Done (Err e), w, s).

(** The result as a value, for code that looks at an error: [match c { Ok .. Err .. }],
    [let _ = c]. *)
Definition catch {A} (c : Io A) : Io (result A IoError) := λ w s,
  match c w s with
  | (Done r, w, s) => (Done (Ok r), w, s)
  | (Killed, w, s) => (Killed, w, s)
  end.

Definition lift {A} (r : result A IoError) : Io A := λ w s, (Done r, w, s).

Definition ignore {A} (c : Io A) : Io unit := catch c ≫= λ _, mret tt.

(** [result.map_err(..)] *)
Definition map_error {A} (f : IoError → IoError) (c : Io A) : Io A :=
  catch c ≫= λ r, lift (map_err f r).

Definition step {A} (act : Event → World → result A IoError * World) : Io A := λ w s,
  let '(e, s) := match s with [] => (calm, []) | e :: s => (e, s) end in
  if killed e then (Killed, before e w, s)
  else let '(r, w) := act e (before e w) in (Done r, w, s).

Definition observe {A} (f : Files → result A IoError) : Io A :=
  step (λ e w, (f (answers e (files_of w)), w)).

Definition change {A} (f : World → result A IoError * World) : Io A :=
  step (λ e w, match failure e with Some (err, _) => (Err err, w) | None => f w end).

(** ** The system calls that change names and files *)
Definition exists_error : IoError := io_error AlreadyExists "File exists (os error 17)".

Definition check_name (name : string) : Io unit :=
  if str_has_char nul name then raise (io_error InvalidInput "state name contains NUL") else mret tt.

(** [renameat2] with [RENAME_NOREPLACE] below one directory *)
Definition rename_noreplace (d source destination : string) : Io unit :=
  change (λ w,
    match entries w !! (d, source), entries w !! (d, destination) with
    | None, _ => (Err not_found, w)
    | Some _, Some _ => (Err exists_error, w)
    | Some e, None => (Ok tt, with_entries (<[(d, destination) := e]> (delete (d, source) (entries w))) w)
    end).

(** [renameat2] with [RENAME_EXCHANGE] *)
Definition rename_exchange (d left right : string) : Io unit :=
  change (λ w,
    match entries w !! (d, left), entries w !! (d, right) with
    | Some l, Some r => (Ok tt, with_entries (<[(d, left) := r]> (<[(d, right) := l]> (entries w))) w)
    | _, _ => (Err not_found, w)
    end).

Definition unlinkat (d name : string) : Io unit :=
  change (λ w,
    match entries w !! (d, name) with
    | None => (Err not_found, w)
    | Some e =>
        if bool_decide (e_type e = IsDirectory) then (Err (io_error OtherKind "Is a directory (os error 21)"), w)
        else (Ok tt, {| entries := delete (d, name) (entries w); directories_of := directories_of w;
                        next_ino := next_ino w; clock := clock w; user := user w; umask := umask w;
                        process_id := process_id w; ours := ours w;
                        removed := removed w ++ [((d, name), e)] |})
    end).

(** [sync_all] on a file or directory. *)
Definition sync_all : Io unit := change (λ w, (Ok tt, w)).

(** A file this process created and holds open for writing. *)
Record Handle := { h_dir : string; h_name : string; h_ino : Z }.

Definition S_IFREG : Z := 32768.

(** [openat] with [O_CREAT | O_EXCL]: the mode is masked. *)
Definition create_excl (d name : string) (m : Z) : Io Handle :=
  change (λ w,
    match directories_of w !! d, entries w !! (d, name) with
    | None, _ => (Err not_found, w)
    | Some _, Some _ => (Err exists_error, w)
    | Some dm, None =>
        let e := {| e_type := IsRegular; e_dev := dev dm; e_ino := next_ino w; e_links := 1;
                    e_mode := Z.lor S_IFREG (Z.land (Z.land m 4095) (Z.lnot (umask w)));
                    e_uid := fst (user w); e_gid := snd (user w); e_bytes := [] |} in
        (Ok {| h_dir := d; h_name := name; h_ino := next_ino w |},
         {| entries := <[(d, name) := e]> (entries w); directories_of := directories_of w;
            next_ino := next_ino w + 1; clock := clock w; user := user w; umask := umask w;
            process_id := process_id w; ours := next_ino w :: ours w; removed := removed w |})
    end).

(** The file behind a handle, while its name holds it. *)
Definition behind (w : World) (h : Handle) : option Entry :=
  match entries w !! (h_dir h, h_name h) with
  | Some e => if e_ino e =? h_ino h then Some e else None
  | None => None
  end.

Definition update (h : Handle) (f : Entry → Entry) (w : World) : World :=
  match behind w h with
  | Some e => with_entries (<[(h_dir h, h_name h) := f e]> (entries w)) w
  | None => w
  end.

Definition set_bytes (b : bytes) (e : Entry) : Entry :=
  {| e_type := e_type e; e_dev := e_dev e; e_ino := e_ino e; e_links := e_links e; e_mode := e_mode e;
     e_uid := e_uid e; e_gid := e_gid e; e_bytes := b |}.

Definition set_mode (m : Z) (e : Entry) : Entry :=
  {| e_type := e_type e; e_dev := e_dev e; e_ino := e_ino e; e_links := e_links e; e_mode := m;
     e_uid := e_uid e; e_gid := e_gid e; e_bytes := e_bytes e |}.

Definition set_owner (u g : Z) (e : Entry) : Entry :=
  {| e_type := e_type e; e_dev := e_dev e; e_ino := e_ino e; e_links := e_links e; e_mode := e_mode e;
     e_uid := u; e_gid := g; e_bytes := e_bytes e |}.

(** [write_all] on a new file: a failed write leaves the bytes written before it. *)
Definition write_all (h : Handle) (content : bytes) : Io unit :=
  step (λ e w,
    match failure e with
    | Some (err, n) => (Err err, update h (set_bytes (take n content)) w)
    | None => (Ok tt, update h (set_bytes content) w)
    end).

(** [fchown], which takes the set-user and set-group bits away *)
Definition fchown (h : Handle) (u g : Z) : Io unit :=
  change (λ w, (Ok tt, update h (λ e, set_owner u g (set_mode (Z.land (e_mode e) (Z.lnot 3072)) e)) w)).

Definition fchmod (h : Handle) (m : Z) : Io unit :=
  change (λ w, (Ok tt, update h (λ e, set_mode (Z.lor (Z.land (e_mode e) 61440) (Z.land m 4095)) e) w)).

(** ** The state directory *)
Definition with_directories (m : gmap string Metadata) (w : World) : World :=
  {| entries := entries w; directories_of := m; next_ino := next_ino w; clock := clock w;
     user := user w; umask := umask w; process_id := process_id w; ours := ours w; removed := removed w |}.

Definition mkdir (d : string) (m : Z) : Io unit :=
  change (λ w,
    match directories_of w !! d with
    | Some _ => (Err exists_error, w)
    | None =>
        (Ok tt, with_directories
           (<[d := {| file_type := IsDirectory; dev := 0; ino := next_ino w; nlink := 2;
                      mode := Z.lor 16384 (Z.land (Z.land m 4095) (Z.lnot (umask w)));
                      uid := fst (user w); gid := snd (user w); len := 0 |}]> (directories_of w)) w)
    end).

Definition alter_directory (d : string) (f : Metadata → Metadata) : Io unit :=
  change (λ w, match directories_of w !! d with
               | Some m => (Ok tt, with_directories (<[d := f m]> (directories_of w)) w)
               | None => (Err not_found, w)
               end).

Definition chown_directory (d : string) (u g : Z) : Io unit :=
  alter_directory d (λ m, {| file_type := file_type m; dev := dev m; ino := ino m; nlink := nlink m;
                             mode := mode m; uid := u; gid := g; len := len m |}).

Definition chmod_directory (d : string) (p : Z) : Io unit :=
  alter_directory d (λ m, {| file_type := file_type m; dev := dev m; ino := ino m; nlink := nlink m;
                             mode := Z.lor (Z.land (mode m) 61440) (Z.land p 4095);
                             uid := uid m; gid := gid m; len := len m |}).

(** [flock], which waits until no other process holds the lock. *)
Definition flock : Io unit := change (λ w, (Ok tt, w)).

(** The file behind a handle, to be read. *)
Definition closed_error : IoError := io_error OtherKind "the name no longer holds the open file".

Definition file_of (h : Handle) : Io OpenFile :=
  observe (λ fs,
    let? file := open_at fs (h_dir h) (h_name h) in
    match file_metadata file with
    | Ok m => if ino m =? h_ino h then Ok file else Err closed_error
    | Err _ => Ok file
    end).

(** [file.metadata()] *)
Definition metadata_of (h : Handle) : Io Metadata := file ← file_of h; lift (file_metadata file).

(** ** A program logic

    What a read may answer: the truth, or an error that does not claim that a name is absent. *)
Definition io_failure (e : IoError) : Prop := is_not_found e = false ∧ io_ambiguous e = false.

Definition honest_result {A} (same : A → A → Prop) (t a : result A IoError) : Prop :=
  match t, a with
  | Ok x, Ok y => same x y
  | Err e, Err e' => e' = e ∨ io_failure e'
  | Ok _, Err e => io_failure e
  | Err _, Ok _ => False
  end.

Definition honest_file (t a : OpenFile) : Prop :=
  honest_result eq (file_metadata t) (file_metadata a) ∧ honest_result eq (file_bytes t) (file_bytes a).

Record honest (t a : Files) : Prop := {
  honest_symlink_metadata p : honest_result eq (symlink_metadata t p) (symlink_metadata a p);
  honest_metadata p : honest_result eq (metadata t p) (metadata a p);
  honest_read_link p : honest_result eq (read_link t p) (read_link a p);
  honest_canonicalize p : honest_result eq (canonicalize t p) (canonicalize a p);
  honest_open_directory p : honest_result eq (open_directory t p) (open_directory a p);
  honest_open_at d n : honest_result honest_file (open_at t d n) (open_at a d n);
  honest_read_dir d : honest_result (≡ₚ) (read_dir t d) (read_dir a d);
  honest_read_file p : honest_result eq (read_file t p) (read_file a p);
  honest_access_write p : honest_result eq (access_write t p) (access_write a p);
  honest_user : effective_user a = effective_user t }.

Lemma honest_result_refl {A} (same : A → A → Prop) (Hs : ∀ x, same x x) t : honest_result same t t.
Proof. destruct t; cbn; auto. Qed.

Lemma honest_refl t : honest t t.
Proof.
  split; intros; try reflexivity; apply honest_result_refl; try done.
  intros f. split; by apply honest_result_refl.
Qed.

(** [rely] is what the other processes may do between two steps. *)
Section logic.
Context (rely : World → World → Prop).

Record ok_event (e : Event) : Prop := {
  ok_before w : rely w (before e w);
  ok_answers t : honest t (answers e t);
  ok_failure err n : failure e = Some (err, n) → io_ambiguous err = false }.

Definition wp {A} (c : Io A) (Q : Out A → World → Prop) (w : World) : Prop :=
  ∀ s, Forall ok_event s → let '(o, w', s') := c w s in Q o w' ∧ Forall ok_event s'.

(** [{P} c {Q}], with [K] what a killed process leaves behind. *)
Definition triple {A} (P : World → Prop) (c : Io A) (Q : result A IoError → World → Prop) (K : World → Prop) : Prop :=
  ∀ w, P w → wp c (λ o w', match o with Done r => Q r w' | Killed => K w' end) w.

Lemma triple_conseq {A} P P' (c : Io A) Q Q' (K K' : World → Prop) :
  triple P' c Q' K' → (∀ w, P w → P' w) → (∀ r w, Q' r w → Q r w) → (∀ w, K' w → K w) → triple P c Q K.
Proof.
  intros H HP HQ HK w Hw s Hs. specialize (H w (HP w Hw) s Hs).
  destruct (c w s) as [[[r|] w'] s']; destruct H; split; auto.
Qed.

Lemma triple_ret {A} (P : World → Prop) (a : A) Q K : (∀ w, P w → Q (Ok a) w) → triple P (mret a) Q K.
Proof. intros H w Hw s Hs. split; [by apply H|done]. Qed.

Lemma triple_lift {A} (P : World → Prop) (r : result A IoError) Q K : (∀ w, P w → Q r w) → triple P (lift r) Q K.
Proof. intros H w Hw s Hs. split; [by apply H|done]. Qed.

Lemma triple_raise {A} (P : World → Prop) e (Q : result A IoError → World → Prop) K :
  (∀ w, P w → Q (Err e) w) → triple P (raise e) Q K.
Proof. intros H w Hw s Hs. split; [by apply H|done]. Qed.

Lemma triple_bind {A B} P (c : Io A) (k : A → Io B) M Q K :
  triple P c M K → (∀ a, triple (M (Ok a)) (k a) Q K) → (∀ e w, M (Err e) w → Q (Err e) w) →
  triple P (c ≫= k) Q K.
Proof.
  intros Hc Hk He w Hw s Hs. specialize (Hc w Hw s Hs). unfold mbind, Io_bind.
  destruct (c w s) as [[[[a|e]|] w'] s'], Hc as [H1 H2].
  - by apply Hk.
  - split; [by apply He|done].
  - done.
Qed.

Lemma triple_catch {A} P (c : Io A) (Q : result (result A IoError) IoError → World → Prop) K :
  triple P c (λ r, Q (Ok r)) K → triple P (catch c) Q K.
Proof.
  intros Hc w Hw s Hs. specialize (Hc w Hw s Hs). unfold catch.
  by destruct (c w s) as [[[r|] w'] s'].
Qed.

Context `{!Reflexive rely}.

Lemma calm_ok : ok_event calm.
Proof. split; [done|intros; apply honest_refl|done]. Qed.

Lemma triple_step {A} P (act : Event → World → result A IoError * World) Q K :
  (∀ w w', P w → rely w w' → K w') →
  (∀ e w w', ok_event e → P w → rely w w' → let '(r, w'') := act e w' in Q r w'') →
  triple P (step act) Q K.
Proof.
  intros HK HQ w Hw s Hs. unfold step.
  assert (∃ e s', ok_event e ∧ Forall ok_event s' ∧
    match s with [] => (calm, []) | e :: s' => (e, s') end = (e, s')) as (e & s' & He & Hs' & ->).
  { destruct Hs as [|e s He Hs]; [exists calm, []|exists e, s]; auto using calm_ok. }
  pose proof (ok_before _ He w) as Hr. destruct (killed e); [split; [by eapply HK|done]|].
  specialize (HQ e w (before e w) He Hw Hr). by destruct (act e (before e w)).
Qed.

Lemma triple_observe {A} P (f : Files → result A IoError) Q K :
  (∀ w w', P w → rely w w' → K w') →
  (∀ w w' fs, P w → rely w w' → honest (files_of w') fs → Q (f fs) w') →
  triple P (observe f) Q K.
Proof. intros HK HQ. apply triple_step; [done|]. intros e w w' He Hw Hr. eapply HQ; eauto. apply He. Qed.

Lemma triple_change {A} P (f : World → result A IoError * World) Q K :
  (∀ w w', P w → rely w w' → K w') →
  (∀ w w' err, P w → rely w w' → io_ambiguous err = false → Q (Err err) w') →
  (∀ w w', P w → rely w w' → let '(r, w'') := f w' in Q r w'') →
  triple P (change f) Q K.
Proof.
  intros HK He HQ. apply triple_step; [done|]. intros e w w' Hok Hw Hr.
  destruct (failure e) as [[err n]|] eqn:Hf; [|by eapply HQ].
  eapply He; eauto. by eapply ok_failure.
Qed.
End logic.
