(* ===== verification/PamState.v ===== *)
(** * PamState: the files of the rollback state and the atomic replacement of a service

    [facelock-cli/src/commands/pam.rs]: the intents and publication bindings that make a change
    of a PAM service restartable, their names and validity, the publication of a state file, and
    the primitives that replace, create and retire a service file without ever leaving it short.
    The hooks the source's tests use to stop between two steps are gone: a run may be stopped
    between any two. The SELinux label of a file is not modelled. *)

From stdpp Require Import gmap.
From S2P Require Import Prelude Text Sealing PamDocument PamFiles PamBackup PamService PamWorld.

(** ** Intents and bindings *)
Inductive IntentRole := IPrepare | ICommit | ICleanup | IPamReplace | IPamRemove | IVendorCreate.
Inductive PublicationRole := PCommit | PPamReplace | PPamRemove | PVendorCreate.

#[export] Instance IntentRole_eq_dec : EqDecision IntentRole.
Proof. solve_decision. Defined.
#[export] Instance PublicationRole_eq_dec : EqDecision PublicationRole.
Proof. solve_decision. Defined.

Definition intent_role (r : PublicationRole) : IntentRole :=
  match r with
  | PCommit => ICommit | PPamReplace => IPamReplace | PPamRemove => IPamRemove | PVendorCreate => IVendorCreate
  end.

Record StateIntent := {
  si_version : Z; si_role : IntentRole; si_sequence : Z; si_service : string; si_backup : string;
  si_original_sha256 : string; si_installed_sha256 : string;
  record_sha256 : option string; replacement_record_sha256 : option string;
  original_device : option Z; original_inode : option Z; original_links : option Z;
  original_mode : option Z; original_uid : option Z; original_gid : option Z }.

Record PublicationBinding := {
  b_version : Z; b_role : PublicationRole; b_sequence : Z; b_service : string; b_backup : string;
  intent_sha256 : string; b_device : Z; b_inode : Z; b_links : Z; b_sha256 : string; b_mode : Z;
  b_uid : Z; b_gid : Z }.

(** [serde_json] on the state's documents. *)
Class StateJson := {
  encode_record : ProvenanceRecord → option bytes;
  encode_intent : StateIntent → option bytes;
  decode_intent : bytes → option StateIntent;
  encode_binding : PublicationBinding → option bytes;
  decode_binding : bytes → option PublicationBinding }.

Definition to_vec_pretty {A} (encode : A → option bytes) (a : A) : result bytes IoError :=
  match encode a with Some b => Ok b | None => Err (io_error InvalidData "cannot be encoded") end.

(** ** Names *)
Definition intent_name (role : IntentRole) (backup : string) : string :=
  let role := match role with
              | IPrepare => "prepare" | ICommit => "commit" | ICleanup => "cleanup"
              | IPamReplace => "pam-replace" | IPamRemove => "pam-remove" | IVendorCreate => "vendor-create"
              end in
  ".facelock-intent-" +:+ role +:+ "-" +:+ backup +:+ ".json".

Definition quarantine_name (role backup : string) : string := ".facelock-quarantine-" +:+ role +:+ "-" +:+ backup.
Definition pam_replace_name (backup : string) : string := ".facelock-pam-replace-" +:+ backup.
Definition pam_remove_name (operation : string) : string := ".facelock-pam-remove-" +:+ operation.
Definition vendor_retire_name (operation : string) : string := ".facelock-vendor-retire-" +:+ operation.
Definition vendor_create_name (operation : string) : string := ".facelock-vendor-create-" +:+ operation.

Definition publication_name (role : PublicationRole) (backup : string) : string :=
  let role := match role with
              | PCommit => "commit" | PPamReplace => "pam-replace" | PPamRemove => "pam-remove"
              | PVendorCreate => "vendor-create"
              end in
  ".facelock-publication-" +:+ role +:+ "-" +:+ backup +:+ ".json".

(** ** Validity *)
Definition regular_mode (m : Z) : bool := Z.land m S_IFMT =? S_IFREG.

Definition is_valid_sha256 (h : option string) : bool := is_some_and valid_sha256 h.

Definition valid_state_intent (i : StateIntent) : bool :=
  let no_identity :=
    match original_device i, original_inode i, original_links i, original_mode i, original_uid i, original_gid i with
    | None, None, None, None, None, None => true
    | _, _, _, _, _, _ => false
    end in
  let exact_identity :=
    match original_device i, original_inode i, original_links i, original_mode i, original_uid i, original_gid i with
    | Some _, Some _, Some l, Some m, Some _, Some _ => (l =? 1) && regular_mode m
    | _, _, _, _, _, _ => false
    end in
  let expected_metadata :=
    match original_device i, original_inode i, original_links i, original_mode i, original_uid i, original_gid i with
    | None, None, None, Some m, Some _, Some _ => regular_mode m
    | _, _, _, _, _, _ => false
    end in
  let record_hash := is_valid_sha256 (record_sha256 i) in
  let role_fields :=
    match si_role i with
    | IPrepare | ICleanup => record_hash && negb (is_some (replacement_record_sha256 i)) && no_identity
    | ICommit => record_hash && is_valid_sha256 (replacement_record_sha256 i) && no_identity
    | IPamReplace => record_hash && negb (is_some (replacement_record_sha256 i)) && exact_identity
    | IPamRemove => negb (is_some (record_sha256 i)) && negb (is_some (replacement_record_sha256 i)) && exact_identity
    | IVendorCreate => negb (is_some (record_sha256 i)) && negb (is_some (replacement_record_sha256 i)) && expected_metadata
    end in
  (si_version i =? PROVENANCE_VERSION) && negb (si_sequence i =? 0) && confined (si_service i)
  && valid_backup_name (si_service i) (si_backup i) && valid_sha256 (si_original_sha256 i)
  && valid_sha256 (si_installed_sha256 i) && role_fields.

Definition valid_publication_binding (b : PublicationBinding) : bool :=
  (b_version b =? PROVENANCE_VERSION) && negb (b_sequence b =? 0) && confined (b_service b)
  && valid_backup_name (b_service b) (b_backup b) && valid_sha256 (intent_sha256 b) && valid_sha256 (b_sha256 b)
  && (b_links b =? 1) && regular_mode (b_mode b).

(** ** Identities *)
Definition binding_identity (b : PublicationBinding) : FileIdentity :=
  {| device := b_device b; inode := b_inode b; links := b_links b; id_sha256 := b_sha256 b;
     id_mode := b_mode b; id_uid := b_uid b; id_gid := b_gid b |}.

Definition binding_identity_matches (b : PublicationBinding) (actual : FileIdentity) : bool :=
  bool_decide (binding_identity b = actual).

Definition exact_original_intent_identity (i : StateIntent) (id : FileIdentity) : bool :=
  String.eqb (id_sha256 id) (si_original_sha256 i)
  && bool_decide (Some (device id) = original_device i) && bool_decide (Some (inode id) = original_inode i)
  && bool_decide (Some (links id) = original_links i) && bool_decide (Some (id_mode id) = original_mode i)
  && bool_decide (Some (id_uid id) = original_uid i) && bool_decide (Some (id_gid id) = original_gid i).

Definition state_identity_matches (owner : Z * Z) (id : FileIdentity) (expected_sha256 : string) : bool :=
  String.eqb (id_sha256 id) expected_sha256 && (links id =? 1) && (Z.land (id_mode id) 4095 =? 384)
  && bool_decide ((id_uid id, id_gid id) = owner).

Definition ambiguous_publication (message : string) : IoError :=
  {| io_kind := OtherKind; io_text := message; io_ambiguous := true |}.

Definition other_error (message : string) : IoError := io_error OtherKind message.

Section hashed.
Context `{Sha256}.

Definition publication_binding_for (role : PublicationRole) (i : StateIntent) (intent_encoded : bytes)
    (replacement : FileIdentity) : PublicationBinding :=
  {| b_version := PROVENANCE_VERSION; b_role := role; b_sequence := si_sequence i; b_service := si_service i;
     b_backup := si_backup i; intent_sha256 := sha256_hex intent_encoded; b_device := device replacement;
     b_inode := inode replacement; b_links := links replacement; b_sha256 := id_sha256 replacement;
     b_mode := id_mode replacement; b_uid := id_uid replacement; b_gid := id_gid replacement |}.

Definition identity_of_open_bounded (file : OpenFile) (limit : Z) : result FileIdentity IoError :=
  let? m := file_metadata file in
  let? content := read_open_bounded file limit in
  Ok (identity_for_bytes m content).

Definition identity_of_open (file : OpenFile) : result FileIdentity IoError :=
  identity_of_open_bounded file (2 ^ 64 - 1).

Definition open_identity_at (fs : Files) (d name : string) (limit : Z) : result (option FileIdentity) IoError :=
  match open_regular_at fs d name with
  | Ok file => let? id := identity_of_open_bounded file limit in Ok (Some id)
  | Err e => if is_not_found e then Ok None else Err e
  end.

(** What [open_regular_at(..).and_then(|file| identity_of_open(&file))] finds. *)
Definition identity_at (fs : Files) (d name : string) : result FileIdentity IoError :=
  let? file := open_regular_at fs d name in identity_of_open file.

Definition identity_at_bounded (fs : Files) (d name : string) (limit : Z) : result FileIdentity IoError :=
  let? file := open_regular_at fs d name in identity_of_open_bounded file limit.

Definition read_regular_at_bounded (fs : Files) (d name : string) (limit : Z)
    : result (option (bytes * FileIdentity)) IoError :=
  match open_regular_at fs d name with
  | Ok file =>
      let? content := read_open_bounded file limit in
      let? m := file_metadata file in
      Ok (Some (content, identity_for_bytes m content))
  | Err e => if is_not_found e then Ok None else Err e
  end.

Definition entry_exists_at (fs : Files) (d name : string) : result bool IoError :=
  if str_has_char nul name then Err (io_error InvalidInput "state name contains NUL")
  else match symlink_metadata fs (join d name) with
       | Ok _ => Ok true
       | Err e => if is_not_found e then Ok false else Err e
       end.

(** ** Steps on the state's names *)
Definition look {A} (f : World → A) : Io A := λ w s, (Done (Ok (f w)), w, s).

Definition rename_exchange_at (d left right : string) : Io unit :=
  check_name left;; check_name right;; rename_exchange d left right;; sync_all.

Definition rename_noreplace_at (d source destination : string) : Io unit :=
  check_name source;; check_name destination;; rename_noreplace d source destination;; sync_all.

Definition unlink_at_if_identity_matches (d name : string) (expected : FileIdentity) (limit : Z) : Io unit :=
  actual ← observe (λ fs, identity_at_bounded fs d name limit);
  if negb (identity_matches expected actual)
  then raise (other_error "state entry changed before owned cleanup")
  else check_name name;; unlinkat d name.

Definition unlink_state_if_identity_matches (root name : string) (expected : FileIdentity) : Io unit :=
  _ ← observe (λ fs, open_directory_nofollow fs root);
  unlink_at_if_identity_matches root name expected
    (if ends_with ".json" name then MAX_RECORD_BYTES else MAX_BACKUP_BYTES);;
  sync_all.

Definition cleanup_unpublished_temp_at (d name : string) (expected : FileIdentity) (limit : Z)
    (message : string) : Io unit :=
  map_error (λ _, ambiguous_publication message) (unlink_at_if_identity_matches d name expected limit);;
  map_error (λ _, ambiguous_publication message) sync_all.

Definition cleanup_unpublished_temp (d name : string) (expected : FileIdentity) (limit : Z)
    (message : string) : Io unit :=
  map_error (λ _, ambiguous_publication message) (observe (λ fs, open_directory_nofollow fs d));;
  cleanup_unpublished_temp_at d name expected limit message.

Definition cleanup_unpublished_temp_below (destination name : string) (expected : FileIdentity) (limit : Z)
    (message : string) : Io unit :=
  match parent destination with
  | None => raise (ambiguous_publication message)
  | Some d => cleanup_unpublished_temp d name expected limit message
  end.

(** ** Creating files *)
Definition apply_owner_then_mode (h : Handle) (u g m : Z) : Io unit :=
  current ← metadata_of h;
  (if bool_decide ((u, g) = (uid current, gid current)) then mret tt else fchown h u g);;
  fchmod h m.

Definition identity_of_handle (h : Handle) : Io FileIdentity :=
  file ← file_of h; lift (identity_of_open file).

(** The state file's bytes and metadata, before it has its name. *)
Definition fill_state_temp (h : Handle) (content : bytes) : Io unit :=
  write_all h content;;
  current ← metadata_of h;
  effective ← look user;
  let owner := if fst effective =? 0 then (0, 0) else (uid current, gid current) in
  apply_owner_then_mode h (fst owner) (snd owner) 384;;
  sync_all.

Definition discard_state_temp (root temp_name : string) (owned : option FileIdentity) : Io unit :=
  match owned with
  | None => mret tt
  | Some id => ignore (unlink_at_if_identity_matches root temp_name id MAX_BACKUP_BYTES);; ignore sync_all
  end.

Definition state_temp_name (name : string) (content : bytes) (pid now : Z) : string :=
  ".facelock-tmp-" +:+ name +:+ "-" +:+ sha256_hex content +:+ "-" +:+ show_Z pid +:+ "-" +:+ show_Z now.

Definition option_of {A} (r : result A IoError) : option A := match r with Ok a => Some a | Err _ => None end.

Definition atomic_state_publish (root name : string) (content : bytes) : Io FileIdentity :=
  if negb (bool_decide (file_name name = Some name))
  then raise (io_error InvalidInput "state name is not a basename")
  else
    pid ← look process_id;
    now ← look clock;
    let temp_name := state_temp_name name content pid now in
    _ ← observe (λ fs, open_directory_nofollow fs root);
    if str_has_char nul temp_name then raise (io_error InvalidInput "state temp contains NUL")
    else if str_has_char nul name then raise (io_error InvalidInput "state destination contains NUL")
    else
      file ← create_excl root temp_name 384;
      prepared ← catch (fill_state_temp file content);
      match prepared with
      | Err e =>
          owned ← catch (identity_of_handle file);
          discard_state_temp root temp_name (option_of owned);; raise e
      | Ok _ =>
          identity ← identity_of_handle file;
          renamed ← catch (rename_noreplace root temp_name name);
          match renamed with
          | Err e => discard_state_temp root temp_name (Some identity);; raise e
          | Ok _ =>
              synced ← catch sync_all;
              match synced with
              | Err _ => raise (ambiguous_publication "state publication parent sync failed after rename")
              | Ok _ => mret identity
              end
          end
      end.

Definition atomic_state_create (root name : string) (content : bytes) : Io FileIdentity :=
  atomic_state_publish root name content.

(** The new file beside the service, before it is published. *)
Definition fill_temp (h : Handle) (content : bytes) (model : FileIdentity) : Io FileIdentity :=
  write_all h content;;
  apply_owner_then_mode h (id_uid model) (id_gid model) (id_mode model);;
  sync_all;;
  identity ← identity_of_handle h;
  if negb (links identity =? 1) || negb (String.eqb (id_sha256 identity) (sha256_hex content))
     || negb (id_mode identity =? id_mode model) || negb (id_uid identity =? id_uid model)
     || negb (id_gid identity =? id_gid model)
  then raise (other_error "created PAM temp does not match its requested content and metadata")
  else mret identity.

Definition create_temp_at (d destination : string) (content : bytes) (model : FileIdentity)
    (fixed_name : option string) : Io (string * FileIdentity) :=
  pid ← look process_id;
  now ← look clock;
  let name := default ("." +:+ destination +:+ ".facelock-" +:+ show_Z pid +:+ "-" +:+ show_Z now) fixed_name in
  if str_has_char nul name then raise (io_error InvalidInput "temporary name contains NUL")
  else
    file ← create_excl d name (id_mode model);
    filled ← catch (fill_temp file content model);
    match filled with
    | Ok identity => mret (name, identity)
    | Err e =>
        cleanup ← catch (identity_of_handle file);
        match option_of cleanup with
        | None => raise (ambiguous_publication "created PAM temp identity became ambiguous after an error")
        | Some id =>
            cleanup_unpublished_temp_at d name id MAX_BACKUP_BYTES
              "created PAM temp became ambiguous during error cleanup";;
            raise e
        end
    end.

(** ** Replacing a service file *)
Definition expect_identity (expected : FileIdentity) (message : string) (found : result FileIdentity IoError)
    : result unit IoError :=
  let? actual := found in
  if identity_matches expected actual then Ok tt else Err (other_error message).

Definition planned_message : string := "PAM service changed after it was planned".

(** Anything but the expected file at [name] is ambiguous. *)
Definition check_published (d name : string) (expected : FileIdentity) (unreadable changed : string) : Io unit :=
  published ← map_error (λ _, ambiguous_publication unreadable) (observe (λ fs, identity_at fs d name));
  if identity_matches expected published then mret tt else raise (ambiguous_publication changed).

(** The file that the exchange displaced is not the planned one: put it back. *)
Definition undo_exchange (d name temp : string) (replacement : FileIdentity) : Io unit :=
  undone ← catch (rename_exchange d temp name);
  match undone with
  | Err e => raise (other_error ("PAM service changed after it was planned and rollback failed: " +:+ io_text e))
  | Ok _ =>
      restored ← catch (observe (λ fs, open_regular_at fs d temp));
      (match restored with
       | Err _ => mret tt
       | Ok file =>
           id ← lift (identity_of_open file);
           if identity_matches replacement id then ignore (unlinkat d temp) else mret tt
       end);;
      sync_all;;
      raise (other_error planned_message)
  end.

(** The planned file is there, and the new one beside it: the directory, both names, and the new
    file's identity. *)
Record Staged := { st_dir : string; st_name : string; st_temp : string; st_replacement : FileIdentity }.

Definition stage_temp (d name : string) (content : bytes) (expected : FileIdentity) (fixed_temp : option string)
    (unreadable changed : string) : Io Staged :=
  created ← create_temp_at d name content expected fixed_temp;
  replacement ← map_error (λ _, ambiguous_publication unreadable) (observe (λ fs, identity_at fs d (fst created)));
  if negb (identity_matches (snd created) replacement) then raise (ambiguous_publication changed)
  else mret {| st_dir := d; st_name := name; st_temp := fst created; st_replacement := replacement |}.

Definition stage_replacement (path : string) (expected : FileIdentity) (content : bytes)
    (fixed_temp : option string) : Io Staged :=
  match parent path, file_name path with
  | None, _ => raise (io_error InvalidInput "PAM path has no parent")
  | Some _, None => raise (io_error InvalidInput "PAM path has no file name")
  | Some d, Some name =>
      _ ← observe (λ fs, open_directory_nofollow fs d);
      _ ← observe (λ fs, expect_identity expected planned_message (identity_at fs d name));
      stage_temp d name content expected fixed_temp "created PAM temp became ambiguous before binding"
        "created PAM temp changed before publication binding"
  end.

(** From the second look at the planned file to the removal of the file it displaced. *)
Definition publish_replacement (after_exchange : Io unit) (expected : FileIdentity) (st : Staged) : Io unit :=
  let '{| st_dir := d; st_name := name; st_temp := temp; st_replacement := replacement |} := st in
  check ← catch (observe (λ fs, expect_identity expected planned_message (identity_at fs d name)));
  match check with
  | Err e =>
      cleanup_unpublished_temp_at d temp replacement MAX_BACKUP_BYTES
        "unpublished PAM temp became ambiguous after source drift";;
      raise e
  | Ok _ =>
      if str_has_char nul name then raise (io_error InvalidInput "file name contains NUL")
      else
        exchanged ← catch (rename_exchange d temp name);
        match exchanged with
        | Err e =>
            cleanup_unpublished_temp_at d temp replacement MAX_BACKUP_BYTES
              "unpublished PAM temp became ambiguous after exchange failure";;
            raise e
        | Ok _ =>
            after_exchange;;
            check_published d name replacement "published PAM service became ambiguous"
              "published PAM service changed before final validation";;
            displaced ← catch (observe (λ fs, identity_at fs d temp));
            if negb (is_some_and (identity_matches expected) (option_of displaced))
            then undo_exchange d name temp replacement
            else
              check_published d name replacement "published PAM service became ambiguous"
                "published PAM service changed before displaced cleanup";;
              unlinkat d temp;;
              sync_all
        end
  end.

(** [after_temp] is what the caller does between the two, such as recording the new file's
    identity; what it made is known even when the rest fails. *)
Definition with_staged {P} (stage : Io Staged) (after_temp : Staged → Io P) (publish : Staged → Io unit)
    : Io (option P * result unit IoError) :=
  staged ← catch stage;
  match staged with
  | Err e => mret (None, Err e)
  | Ok st =>
      made ← catch (after_temp st);
      match made with
      | Err e => mret (None, Err e)
      | Ok p => published ← catch (publish st); mret (Some p, published)
      end
  end.

Definition replace_existing_verified {P} (path : string) (expected : FileIdentity) (content : bytes)
    (fixed_temp : option string) (after_temp : Staged → Io P) (after_exchange : Io unit)
    : Io (option P * result unit IoError) :=
  with_staged (stage_replacement path expected content fixed_temp) after_temp (publish_replacement after_exchange expected).

(** ** Creating an override *)
Definition vendor_changed : string := "vendor PAM service changed after it was planned".

Definition stage_override (t : Target) (expected : FileIdentity) (content : bytes) (fixed_temp : option string)
    : Io Staged :=
  match parent (path t), file_name (path t) with
  | None, _ => raise (io_error InvalidInput "vendor path has no parent")
  | Some _, None => raise (io_error InvalidInput "vendor path has no file name")
  | Some source_dir, Some source_name =>
      _ ← observe (λ fs, open_directory_nofollow fs source_dir);
      _ ← observe (λ fs, expect_identity expected vendor_changed (identity_at fs source_dir source_name));
      match parent (write_path t), file_name (write_path t) with
      | None, _ => raise (io_error InvalidInput "override path has no parent")
      | Some _, None => raise (io_error InvalidInput "override path has no file name")
      | Some d, Some name =>
          _ ← observe (λ fs, open_directory_nofollow fs d);
          stage_temp d name content expected fixed_temp "created vendor temp became ambiguous before binding"
            "created vendor temp changed before publication binding"
      end
  end.

Definition publish_override (t : Target) (expected : FileIdentity) (st : Staged) : Io unit :=
  let '{| st_dir := d; st_name := name; st_temp := temp; st_replacement := replacement |} := st in
  check ← catch (observe (λ fs, expect_identity expected vendor_changed
                                 (identity_at fs (default "" (parent (path t))) (file_name_of (path t)))));
  match check with
  | Err e =>
      cleanup_unpublished_temp_at d temp replacement MAX_BACKUP_BYTES
        "unpublished vendor temp became ambiguous after source drift";;
      raise e
  | Ok _ =>
      if str_has_char nul name then raise (io_error InvalidInput "override name contains NUL")
      else
        renamed ← catch (rename_noreplace d temp name);
        match renamed with
        | Err e =>
            cleanup_unpublished_temp_at d temp replacement MAX_BACKUP_BYTES
              "unpublished vendor temp became ambiguous after publication failure";;
            raise e
        | Ok _ =>
            check_published d name replacement "published vendor override became ambiguous"
              "published vendor override changed before final validation";;
            sync_all
        end
  end.

Definition create_override_verified {P} (t : Target) (expected : FileIdentity) (content : bytes)
    (fixed_temp : option string) (after_temp : Staged → Io P) : Io (option P * result unit IoError) :=
  with_staged (stage_override t expected content fixed_temp) after_temp (publish_override t expected).

(** The published service is still the one that was bound. *)
Definition validate_published_path (path : string) (b : PublicationBinding) (limit : Z) (message : string) : Io unit :=
  match parent path, file_name path with
  | None, _ => raise (other_error "published path has no parent")
  | Some _, None => raise (other_error "published path has no file name")
  | Some d, Some name =>
      _ ← observe (λ fs, open_directory_nofollow fs d);
      published ← map_error (λ _, ambiguous_publication message)
                    (observe (λ fs, identity_at_bounded fs d name limit));
      if binding_identity_matches b published then mret tt else raise (ambiguous_publication message)
  end.

(** ** Retiring an unchanged copy of a package's file *)
Definition current_vendor_override_matches (fs : Files) (d : PamDirs) (service : string) (content : bytes)
    (id : FileIdentity) (require_restart_shape : bool) : result bool IoError :=
  let? vendor := resolve_current_vendor fs d service in
  match vendor with
  | None => Ok false
  | Some vendor =>
      Ok (exact_vendor_override_shape content id vendor
          && (negb require_restart_shape || negb (has_facelock_rule content)))
  end.

Definition restore_vendor_quarantine (d service quarantine : string) (expected : FileIdentity) : Io unit :=
  found ← map_error (λ _, ambiguous_publication "vendor override canonical name became ambiguous during restore")
            (observe (λ fs, open_identity_at fs d service MAX_BACKUP_BYTES));
  match found with
  | Some _ => raise (ambiguous_publication "vendor override could not be restored without overwriting a concurrent file")
  | None =>
      map_error (λ _, ambiguous_publication "vendor override quarantine could not be restored durably")
        (rename_noreplace_at d quarantine service);;
      restored ← map_error (λ _, ambiguous_publication "restored vendor override could not be verified")
                   (observe (λ fs, open_identity_at fs d service MAX_BACKUP_BYTES));
      match restored with
      | None => raise (ambiguous_publication "restored vendor override disappeared")
      | Some restored =>
          if identity_matches expected restored then mret tt
          else raise (ambiguous_publication "restored vendor override identity became ambiguous")
      end
  end.

Definition validate_vendor_quarantine (fs : Files) (dirs : PamDirs) (d service quarantine : string)
    (expected : FileIdentity) : result bool IoError :=
  let? found := read_regular_at_bounded fs d quarantine MAX_BACKUP_BYTES in
  match found with
  | None => Ok false
  | Some (content, quarantined) =>
      if negb (identity_matches expected quarantined) then Ok false
      else
        let? canonical := open_identity_at fs d service MAX_BACKUP_BYTES in
        if is_some canonical then Ok false
        else current_vendor_override_matches fs dirs service content quarantined true
  end.

Definition decline_vendor_retirement (d service quarantine : string) (expected : FileIdentity) (reason : string) : Io unit :=
  quarantined ← map_error (λ _, ambiguous_publication "vendor override quarantine could not be authenticated for restore")
                  (observe (λ fs, open_identity_at fs d quarantine MAX_BACKUP_BYTES));
  canonical ← map_error (λ _, ambiguous_publication "vendor override canonical name became ambiguous before restore")
                (observe (λ fs, open_identity_at fs d service MAX_BACKUP_BYTES));
  if negb (is_some canonical) && is_some_and (identity_matches expected) quarantined
  then restore_vendor_quarantine d service quarantine expected;; raise (other_error reason)
  else raise (ambiguous_publication "vendor override quarantine state became ambiguous").

(** The copy is moved aside, or was when an earlier run stopped: [false] when there is nothing
    to retire. *)
Definition quarantine_vendor_override (d service quarantine : string) (expected : FileIdentity) : Io bool :=
  existing ← map_error (λ _, ambiguous_publication "vendor override quarantine could not be inspected")
               (observe (λ fs, read_regular_at_bounded fs d quarantine MAX_BACKUP_BYTES));
  match existing with
  | Some (_, quarantined) =>
      if identity_matches expected quarantined then mret true
      else raise (ambiguous_publication "vendor override quarantine is not the published removal inode")
  | None =>
      current ← map_error (λ _, ambiguous_publication "vendor override canonical name could not be inspected")
                  (observe (λ fs, open_identity_at fs d service MAX_BACKUP_BYTES));
      match current with
      | None => mret false
      | Some current =>
          if negb (identity_matches expected current)
          then raise (ambiguous_publication "vendor override changed before quarantine")
          else
            map_error (λ e, ambiguous_publication
                              (if bool_decide (io_kind e = AlreadyExists)
                               then "vendor override quarantine name already exists"
                               else "vendor override could not be quarantined durably"))
              (rename_noreplace_at d service quarantine);;
            mret true
      end
  end.

Definition retire_vendor_override (dirs : PamDirs) (service operation : string) (expected : FileIdentity) : Io unit :=
  if negb (confined service) then raise (io_error InvalidInput "invalid service")
  else if negb (valid_backup_name service operation)
  then raise (io_error InvalidInput "invalid vendor-retirement operation")
  else
    let d := overrides dirs in
    let quarantine := vendor_retire_name operation in
    _ ← map_error (λ _, ambiguous_publication "vendor override root could not be reopened for quarantine")
          (observe (λ fs, open_directory_nofollow fs d));
    moved ← quarantine_vendor_override d service quarantine expected;
    if negb moved then mret tt
    else
      initially ← catch (observe (λ fs, validate_vendor_quarantine fs dirs d service quarantine expected));
      match initially with
      | Ok true =>
          finally ← catch (observe (λ fs, validate_vendor_quarantine fs dirs d service quarantine expected));
          match finally with
          | Ok true =>
              map_error (λ _, ambiguous_publication "vendor override quarantine could not be authenticated")
                (unlink_at_if_identity_matches d quarantine expected MAX_BACKUP_BYTES);;
              map_error (λ _, ambiguous_publication "vendor override quarantine deletion was not durable") sync_all
          | _ => decline_vendor_retirement d service quarantine expected
                   "vendor override or current vendor source changed before final cleanup"
          end
      | _ => decline_vendor_retirement d service quarantine expected
               "vendor override or current vendor source changed before cleanup"
      end.
End hashed.
