(* ===== verification/PamStore.v ===== *)
(** * PamStore: the write-ahead protocol of the PAM editor's rollback state

    [facelock-cli/src/commands/pam.rs], [BackupStore]: every change of a service is declared by an
    intent before it is made and bound to the exact file it publishes, so that a run that was
    stopped anywhere can be finished or undone by the next one. [PamRecovery.v] has the recovery. *)

From stdpp Require Import gmap.
From S2P Require Import Prelude Text Sealing PamDocument PamFiles PamBackup PamService PamWorld PamState.

Record PamMutationPlan := {
  pm_root : string; pm_operation : string; pm_sequence : Z; pm_service : string;
  pm_original_sha256 : string; pm_installed_sha256 : string }.

Record CreatedPublication := { cp_name : string; state_identity : FileIdentity; binding : PublicationBinding }.

(** ** The directory and its lock *)
Definition secure_state_directory (root : string) (owner : Z * Z) : Io unit :=
  m ← observe (λ fs, open_directory fs root);
  (if state_directory_attributes_match (mode m) (uid m) (gid m) owner then mret tt
   else
     current ← observe (λ fs, open_directory fs root);
     (if bool_decide (owner = (uid current, gid current)) then mret tt
      else chown_directory root (fst owner) (snd owner));;
     chmod_directory root PAM_BACKUPS_DIR_MODE);;
  m ← observe (λ fs, open_directory fs root);
  if negb (state_directory_attributes_match (mode m) (uid m) (gid m) owner)
  then raise (io_error PermissionDenied "PAM backup state directory owner or mode is not trusted")
  else sync_all.

Definition create_state_directory (root : string) : Io unit := mkdir root PAM_BACKUPS_DIR_MODE.

Definition open_store (root : string) : Io BackupStore :=
  found ← catch (observe (λ fs, symlink_metadata fs root));
  (match found with
   | Ok m => if bool_decide (file_type m = IsDirectory) then mret tt
             else raise (io_error InvalidInput (root +:+ " is not a directory"))
   | Err e => if is_not_found e then create_state_directory root else raise e
   end);;
  owner ← observe (λ fs, Ok (expected_state_owner fs root));
  _ ← observe (λ fs, open_directory_nofollow fs root);
  secure_state_directory root owner;;
  mret {| root := root; expected_owner := owner |}.

Definition lock_exclusive (st : BackupStore) : Io unit :=
  _ ← observe (λ fs, open_directory_nofollow fs (root st));
  flock;;
  secure_state_directory (root st) (expected_owner st).

Section store.
Context `{Json, StateJson, Sha256}.

(** ** Planning *)
Definition plan_backup (st : BackupStore) (service : string) (original installed : bytes) : Io PreparedBackup :=
  now ← look clock;
  observe (λ fs, plan_at_unlocked fs st service original installed now).

Definition plan_mutation (st : BackupStore) (service : string) (original installed : bytes) : Io PamMutationPlan :=
  p ← plan_backup st service original installed;
  mret {| pm_root := pb_root p; pm_operation := pb_backup p; pm_sequence := pr_sequence (provenance p);
          pm_service := pr_service (provenance p); pm_original_sha256 := pr_original_sha256 (provenance p);
          pm_installed_sha256 := pr_installed_sha256 (provenance p) |}.

(** ** Intents and bindings on disk *)
Definition bare_intent (role : IntentRole) (p : ProvenanceRecord) (backup original_sha256 : string)
    (record_hash replacement_hash : option string) : StateIntent :=
  {| si_version := PROVENANCE_VERSION; si_role := role; si_sequence := pr_sequence p; si_service := pr_service p;
     si_backup := backup; si_original_sha256 := original_sha256; si_installed_sha256 := pr_installed_sha256 p;
     record_sha256 := record_hash; replacement_record_sha256 := replacement_hash;
     original_device := None; original_inode := None; original_links := None; original_mode := None;
     original_uid := None; original_gid := None |}.

(** The intent of replacing the file [expected]. *)
Definition exact_intent (role : IntentRole) (seq : Z) (service backup installed_sha256 : string)
    (record_hash : option string) (expected : FileIdentity) : StateIntent :=
  {| si_version := PROVENANCE_VERSION; si_role := role; si_sequence := seq; si_service := service;
     si_backup := backup; si_original_sha256 := id_sha256 expected; si_installed_sha256 := installed_sha256;
     record_sha256 := record_hash; replacement_record_sha256 := None;
     original_device := Some (device expected); original_inode := Some (inode expected);
     original_links := Some (links expected); original_mode := Some (id_mode expected);
     original_uid := Some (id_uid expected); original_gid := Some (id_gid expected) |}.

Definition vendor_intent (m : PamMutationPlan) (installed_sha256 : string) (expected : FileIdentity) : StateIntent :=
  {| si_version := PROVENANCE_VERSION; si_role := IVendorCreate; si_sequence := pm_sequence m;
     si_service := pm_service m; si_backup := pm_operation m; si_original_sha256 := id_sha256 expected;
     si_installed_sha256 := installed_sha256; record_sha256 := None; replacement_record_sha256 := None;
     original_device := None; original_inode := None; original_links := None;
     original_mode := Some (id_mode expected); original_uid := Some (id_uid expected);
     original_gid := Some (id_gid expected) |}.

(** A durable intent: its name, its bytes and the identity of its file. *)
Definition declare (st : BackupStore) (i : StateIntent) : Io (string * bytes * FileIdentity) :=
  let name := intent_name (si_role i) (si_backup i) in
  encoded ← lift (to_vec_pretty encode_intent i);
  identity ← atomic_state_create (root st) name encoded;
  mret (name, encoded, identity).

Definition create_publication_binding (st : BackupStore) (role : PublicationRole) (i : StateIntent)
    (intent_encoded : bytes) (replacement : FileIdentity) : Io CreatedPublication :=
  let b := publication_binding_for role i intent_encoded replacement in
  let name := publication_name role (si_backup i) in
  encoded ← lift (to_vec_pretty encode_binding b);
  identity ← atomic_state_create (root st) name encoded;
  mret {| cp_name := name; state_identity := identity; binding := b |}.

(** The binding is the last thing to go. *)
Definition finish_publication_state (st : BackupStore) (intent_name : string) (intent_identity : FileIdentity)
    (publication : option CreatedPublication) : Io unit :=
  unlink_state_if_identity_matches (root st) intent_name intent_identity;;
  match publication with
  | None => mret tt
  | Some p => unlink_state_if_identity_matches (root st) (cp_name p) (state_identity p)
  end.

(** Giving up before anything was published, unless the state is ambiguous. *)
Definition unless_ambiguous {A} (e : IoError) (clean_up : Io unit) : Io A :=
  if io_ambiguous e then raise e else clean_up;; raise e.

(** ** Backing a service up *)
Definition persist (st : BackupStore) (p : PreparedBackup) (original : bytes) : Io unit :=
  let r := provenance p in
  if negb (path_eqb (pb_root p) (root st)) || negb (String.eqb (sha256_hex original) (pr_original_sha256 r))
  then raise (io_error InvalidInput "prepared backup does not match this store or original")
  else if MAX_BACKUP_BYTES <? Z.of_nat (length original)
  then raise (io_error InvalidData "PAM backup exceeds the state size limit")
  else
    used ← observe (λ fs, sequence_in_use fs st (pr_sequence r));
    if (used : bool) then raise (io_error AlreadyExists "PAM backup sequence was allocated concurrently")
    else
      encoded ← lift (to_vec_pretty encode_record r);
      if MAX_RECORD_BYTES <? Z.of_nat (length encoded)
      then raise (io_error InvalidData "PAM provenance exceeds the state size limit")
      else
        declared ← declare st (bare_intent IPrepare r (pb_backup p) (pr_original_sha256 r)
                                 (Some (sha256_hex encoded)) None);
        let '(intent_name, _, intent_identity) := declared in
        backup ← catch (atomic_state_create (root st) (pb_backup p) original);
        match backup with
        | Err e => unless_ambiguous e
                     (ignore (unlink_state_if_identity_matches (root st) intent_name intent_identity))
        | Ok backup_identity =>
            record ← catch (atomic_state_create (root st) (pb_record p) encoded);
            match record with
            | Err e => unless_ambiguous e
                (ignore (unlink_state_if_identity_matches (root st) (pb_backup p) backup_identity);;
                 ignore (unlink_state_if_identity_matches (root st) intent_name intent_identity);;
                 ignore sync_all)
            | Ok _ => unlink_state_if_identity_matches (root st) intent_name intent_identity
            end
        end.

(** ** Committing a record *)
Definition committed (r : ProvenanceRecord) : ProvenanceRecord :=
  {| pr_version := pr_version r; pr_sequence := pr_sequence r; pr_state := Committed;
     pr_service := pr_service r; pr_backup := pr_backup r; pr_original_sha256 := pr_original_sha256 r;
     pr_installed_sha256 := pr_installed_sha256 r |}.

Definition exchange_name (backup : string) : string := quarantine_name "commit" backup +:+ ".json".

(** The record's name holds the committed record, or the state is ambiguous. *)
Definition check_committed (st : BackupStore) (p : PreparedBackup) (replacement : FileIdentity) (changed : string) : Io unit :=
  published ← map_error (λ _, ambiguous_publication "committed provenance became ambiguous")
                (observe (λ fs, identity_at_bounded fs (root st) (pb_record p) MAX_RECORD_BYTES));
  if identity_matches replacement published then mret tt else raise (ambiguous_publication changed).

Definition undo_commit (st : BackupStore) (p : PreparedBackup) (exchange intent_name : string)
    (intent_identity replacement : FileIdentity) (publication : CreatedPublication) : Io unit :=
  rename_exchange_at (root st) exchange (pb_record p);;
  restored ← catch (observe (λ fs, open_regular_at fs (root st) exchange));
  (match restored with
   | Err _ => mret tt
   | Ok file =>
       id ← lift (identity_of_open_bounded file MAX_RECORD_BYTES);
       if identity_matches replacement id then unlink_state_if_identity_matches (root st) exchange replacement
       else mret tt
   end);;
  ignore (finish_publication_state st intent_name intent_identity (Some publication));;
  raise (other_error "prepared provenance changed during commit").

(** From the exchange of the two records to the end. *)
Definition publish_commit (st : BackupStore) (p : PreparedBackup) (exchange intent_name : string)
    (intent_identity current replacement : FileIdentity) (publication : CreatedPublication) : Io unit :=
  rename_exchange_at (root st) exchange (pb_record p);;
  check_committed st p replacement "committed provenance changed before final validation";;
  displaced ← observe (λ fs, identity_at_bounded fs (root st) exchange MAX_RECORD_BYTES);
  if negb (identity_matches current displaced)
  then undo_commit st p exchange intent_name intent_identity replacement publication
  else
    check_committed st p replacement "committed provenance changed before displaced cleanup";;
    unlink_state_if_identity_matches (root st) exchange displaced;;
    check_committed st p replacement "committed provenance changed before intent cleanup";;
    finish_publication_state st intent_name intent_identity (Some publication).

Definition commit_unlocked (st : BackupStore) (p : PreparedBackup) : Io unit :=
  if negb (path_eqb (pb_root p) (root st))
  then raise (io_error InvalidInput "prepared backup belongs to another store")
  else
    replacement ← lift (to_vec_pretty encode_record (committed (provenance p)));
    prepared_encoded ← lift (to_vec_pretty encode_record (provenance p));
    let i := bare_intent ICommit (provenance p) (pb_backup p) (pr_original_sha256 (provenance p))
               (Some (sha256_hex prepared_encoded)) (Some (sha256_hex replacement)) in
    declared ← declare st i;
    let '(intent_name, intent_encoded, intent_identity) := declared in
    _ ← observe (λ fs, open_directory_nofollow fs (root st));
    current ← observe (λ fs, identity_at_bounded fs (root st) (pb_record p) MAX_RECORD_BYTES);
    if negb (state_identity_matches (expected_owner st) current (sha256_hex prepared_encoded))
    then
      ignore (unlink_state_if_identity_matches (root st) intent_name intent_identity);;
      raise (other_error "prepared provenance changed before commit")
    else
      let exchange := exchange_name (pb_backup p) in
      created ← catch (atomic_state_create (root st) exchange replacement);
      match created with
      | Err e => unless_ambiguous e
                   (ignore (unlink_state_if_identity_matches (root st) intent_name intent_identity))
      | Ok replacement_identity =>
          bound ← catch (create_publication_binding st PCommit i intent_encoded replacement_identity);
          match bound with
          | Err e => unless_ambiguous e
              (cleanup_unpublished_temp (root st) exchange replacement_identity MAX_RECORD_BYTES
                 "unpublished committed provenance became ambiguous";;
               unlink_state_if_identity_matches (root st) intent_name intent_identity)
          | Ok publication =>
              publish_commit st p exchange intent_name intent_identity current replacement_identity publication
          end
      end.

(** ** Replacing and creating a service file *)

(** Recording the staged file's identity, before it gets the service's name. *)
Definition bind_staged (st : BackupStore) (role : PublicationRole) (i : StateIntent) (intent_encoded : bytes)
    (message : string) (staged : Staged) : Io CreatedPublication :=
  created ← catch (create_publication_binding st role i intent_encoded (st_replacement staged));
  match created with
  | Ok p => mret p
  | Err e => unless_ambiguous e
               (cleanup_unpublished_temp (st_dir staged) (st_temp staged) (st_replacement staged)
                  MAX_BACKUP_BYTES message)
  end.

Definition validate_publication (path : string) (publication : option CreatedPublication) (missing changed : string) : Io unit :=
  match publication with
  | None => raise (ambiguous_publication missing)
  | Some p => validate_published_path path (binding p) MAX_BACKUP_BYTES changed
  end.

(** The evidence is kept as long as what happened is not known. *)
Definition finish_mutation (st : BackupStore) (intent_name : string) (intent_identity : FileIdentity)
    (publication : option CreatedPublication) (outcome : result unit IoError) (failed : string) : Io unit :=
  let keep_evidence := match outcome with
                       | Err e => bool_decide (io_kind e = Interrupted) || io_ambiguous e
                       | Ok _ => false
                       end in
  if keep_evidence then lift outcome
  else
    cleanup ← catch (finish_publication_state st intent_name intent_identity publication);
    match cleanup, outcome with
    | Err c, Ok _ => raise c
    | Err c, Err e => raise (other_error (io_text e +:+ failed +:+ io_text c))
    | Ok _, _ => lift outcome
    end.

(** [after_exchange] is what follows the exchange of the two files: removing the rule from every
    service stops there and keeps the evidence of all. *)
Definition replace_pam_with_intent_hook (st : BackupStore) (p : PreparedBackup) (path : string)
    (expected : FileIdentity) (content : bytes) (after_exchange : Io unit) : Io unit :=
  let r := provenance p in
  if negb (path_eqb (pb_root p) (root st)) || negb (String.eqb (id_sha256 expected) (pr_original_sha256 r))
     || negb (String.eqb (sha256_hex content) (pr_installed_sha256 r))
  then raise (io_error InvalidInput "PAM replacement does not match prepared provenance")
  else
    prepared_encoded ← lift (to_vec_pretty encode_record r);
    let i := exact_intent IPamReplace (pr_sequence r) (pr_service r) (pb_backup p) (sha256_hex content)
               (Some (sha256_hex prepared_encoded)) expected in
    declared ← declare st i;
    let '(intent_name, intent_encoded, intent_identity) := declared in
    replaced ← replace_existing_verified path expected content (Some (pam_replace_name (pb_backup p)))
                 (bind_staged st PPamReplace i intent_encoded "unpublished PAM replacement temp became ambiguous")
                 after_exchange;
    outcome ← match snd replaced with
              | Err e => mret (Err e)
              | Ok _ => catch (validate_publication path (fst replaced) "PAM publication identity is missing"
                                 "published PAM service changed before intent cleanup")
              end;
    finish_mutation st intent_name intent_identity (fst replaced) outcome
      "; also failed to clean PAM replacement intent: ".

Definition replace_pam_with_intent (st : BackupStore) (p : PreparedBackup) (path : string)
    (expected : FileIdentity) (content : bytes) : Io unit :=
  replace_pam_with_intent_hook st p path expected content (mret tt).

(** [after_published] is what follows the removal of the rule in the same transaction. *)
Definition remove_pam_with_intent (st : BackupStore) (m : PamMutationPlan) (path : string)
    (expected : FileIdentity) (content : bytes) (after_published : FileIdentity → Io unit) : Io FileIdentity :=
  if negb (path_eqb (pm_root m) (root st)) || negb (String.eqb (id_sha256 expected) (pm_original_sha256 m))
     || negb (String.eqb (sha256_hex content) (pm_installed_sha256 m))
  then raise (io_error InvalidInput "PAM removal does not match its transaction plan")
  else
    let i := exact_intent IPamRemove (pm_sequence m) (pm_service m) (pm_operation m) (sha256_hex content)
               None expected in
    declared ← declare st i;
    let '(intent_name, intent_encoded, intent_identity) := declared in
    replaced ← replace_existing_verified path expected content (Some (pam_remove_name (pm_operation m)))
                 (bind_staged st PPamRemove i intent_encoded "unpublished PAM removal temp became ambiguous")
                 (mret tt);
    outcome ← match snd replaced with
              | Err e => mret (Err e)
              | Ok _ => catch (
                  validate_publication path (fst replaced) "PAM publication identity is missing"
                    "published PAM service changed before intent cleanup";;
                  match fst replaced with
                  | None => raise (ambiguous_publication "PAM publication identity is missing")
                  | Some p => after_published (binding_identity (binding p))
                  end)
              end;
    finish_mutation st intent_name intent_identity (fst replaced) outcome
      "; also failed to clean PAM removal intent: ";;
    match fst replaced with
    | None => raise (ambiguous_publication "PAM publication identity is missing")
    | Some p => mret (binding_identity (binding p))
    end.

Definition create_vendor_with_intent (st : BackupStore) (m : PamMutationPlan) (t : Target)
    (expected : FileIdentity) (content : bytes) : Io unit :=
  if negb (path_eqb (pm_root m) (root st)) || negb (String.eqb (pm_service m) (service t))
     || negb (String.eqb (id_sha256 expected) (pm_original_sha256 m))
     || negb (String.eqb (sha256_hex content) (pm_installed_sha256 m))
     || match origin t with Vendor _ => false | _ => true end
  then raise (io_error InvalidInput "vendor creation does not match its transaction plan")
  else
    let i := vendor_intent m (sha256_hex content) expected in
    declared ← declare st i;
    let '(intent_name, intent_encoded, intent_identity) := declared in
    created ← create_override_verified t expected content (Some (vendor_create_name (pm_operation m)))
                (bind_staged st PVendorCreate i intent_encoded "unpublished vendor override temp became ambiguous");
    outcome ← match snd created with
              | Err e => mret (Err e)
              | Ok _ => catch (validate_publication (write_path t) (fst created) "vendor publication identity is missing"
                                 "published vendor override changed before intent cleanup")
              end;
    finish_mutation st intent_name intent_identity (fst created) outcome
      "; also failed to clean vendor creation intent: ".

(** ** Removing a committed backup *)
Definition quarantine_or_undo (d source quarantine : string) (expected : FileIdentity) (limit : Z)
    (on_rename_error on_change : Io unit) (changed : string) : Io FileIdentity :=
  moved ← catch (rename_noreplace_at d source quarantine);
  match moved with
  | Err e => on_rename_error;; raise e
  | Ok _ =>
      found ← observe (λ fs, identity_at_bounded fs d quarantine limit);
      if identity_matches expected found then mret found
      else on_change;; raise (other_error changed)
  end.

Definition cleanup_one_at (st : BackupStore) (p : PreparedBackup) : Io unit :=
  let d := root st in
  backup ← observe (λ fs, open_regular_at fs d (pb_backup p));
  record ← observe (λ fs, open_regular_at fs d (pb_record p));
  match backup_identity p, record_identity p with
  | None, _ => raise (io_error InvalidInput "cleanup backup has no captured identity")
  | Some _, None => raise (io_error InvalidInput "cleanup record has no captured identity")
  | Some expected_backup, Some expected_record =>
      backup ← lift (identity_of_open_bounded backup MAX_BACKUP_BYTES);
      unchanged ← (if negb (identity_matches expected_backup backup) then mret false
                   else record ← lift (identity_of_open_bounded record MAX_RECORD_BYTES);
                        mret (identity_matches expected_record record));
      if negb unchanged then raise (other_error "PAM backup state changed before cleanup")
      else
        declared ← declare st (bare_intent ICleanup (provenance p) (pb_backup p) (id_sha256 expected_backup)
                                 (Some (id_sha256 expected_record)) None);
        let '(intent_name, _, intent_identity) := declared in
        let backup_quarantine := quarantine_name "backup" (pb_backup p) in
        let record_quarantine := quarantine_name "record" (pb_backup p) +:+ ".json" in
        let restore_backup := ignore (rename_noreplace_at d backup_quarantine (pb_backup p)) in
        quarantined_backup ← quarantine_or_undo d (pb_backup p) backup_quarantine expected_backup MAX_BACKUP_BYTES
                               (mret tt) restore_backup "PAM backup changed during quarantine";
        quarantined_record ← quarantine_or_undo d (pb_record p) record_quarantine expected_record MAX_RECORD_BYTES
                               restore_backup
                               (ignore (rename_noreplace_at d record_quarantine (pb_record p));; restore_backup)
                               "PAM provenance changed during quarantine";
        unlink_state_if_identity_matches d backup_quarantine quarantined_backup;;
        unlink_state_if_identity_matches d record_quarantine quarantined_record;;
        unlink_state_if_identity_matches d intent_name intent_identity
  end.

Fixpoint for_each {A} (f : A → Io unit) (l : list A) : Io unit :=
  match l with
  | [] => mret tt
  | a :: l => f a;; for_each f l
  end.

Definition cleanup (st : BackupStore) (service : string) : Io unit :=
  lock_exclusive st;;
  _ ← observe (λ fs, open_directory_nofollow fs (root st));
  committed_records ← observe (λ fs, validated_committed_records fs st service);
  for_each (cleanup_one_at st) committed_records;;
  sync_all.
End store.
