(* ===== verification/PamRecovery.v ===== *)
(** * PamRecovery: finishing or undoing what a stopped run of the PAM editor left

    [facelock-cli/src/commands/pam.rs], the recovery of [BackupStore]: which intents and bindings
    on disk are trusted, what each leads to, and the records that are still only prepared. *)

From stdpp Require Import gmap.
From S2P Require Import Prelude Text Sealing PamDocument PamFiles PamBackup PamService PamWorld PamState PamStore.

Record ValidIntent := { vi_name : string; vi_intent : StateIntent; vi_identity : FileIdentity }.
Record ValidPublication := { vp_name : string; vp_binding : PublicationBinding; vp_identity : FileIdentity }.

Definition all_digits (s : string) : bool := negb (is_empty_str s) && str_forall is_ascii_digit s.

Definition owned_temp_parts (name : string) : option (string * string) :=
  match strip_prefix ".facelock-tmp-" name with
  | None => None
  | Some rest =>
      match rsplit_once "-" rest with
      | None => None
      | Some (destination_hash_pid, nanoseconds) =>
          match rsplit_once "-" destination_hash_pid with
          | None => None
          | Some (destination_hash, pid) =>
              match rsplit_once "-" destination_hash with
              | None => None
              | Some (destination, hash) =>
                  if valid_sha256 hash && all_digits pid && all_digits nanoseconds && negb (is_empty_str destination)
                  then Some (destination, hash) else None
              end
          end
      end
  end.

Definition backup_service (name : string) : option string :=
  match rsplit_once "." name with
  | None => None
  | Some (service, _) => if confined service && valid_backup_name service name then Some service else None
  end.

Section recovery.
Context `{Json, StateJson, Sha256}.

Definition quarantined_commit (destination : string) : option string :=
  match strip_prefix ".facelock-quarantine-commit-" destination with
  | None => None
  | Some rest =>
      match strip_suffix ".json" rest with
      | None => None
      | Some backup => if is_some (backup_service backup) then Some backup else None
      end
  end.

(** Each [if let] of the source that matches returns; one that does not falls through. *)
Definition valid_owned_temp_destination (destination : string) (content : bytes) : bool :=
  if is_some (backup_service destination) then true
  else
    match (match strip_suffix ".json" destination with
           | Some backup => if is_some (backup_service backup) then decode_record content else None
           | None => None
           end) with
    | Some record => valid_provenance_record destination record
    | None =>
        match (if starts_with ".facelock-intent-" destination then decode_intent content else None) with
        | Some i => String.eqb destination (intent_name (si_role i) (si_backup i)) && valid_state_intent i
        | None =>
            match (if starts_with ".facelock-publication-" destination then decode_binding content else None) with
            | Some b => String.eqb destination (publication_name (b_role b) (b_backup b)) && valid_publication_binding b
            | None =>
                match quarantined_commit destination with
                | Some backup =>
                    match decode_record content with
                    | Some record => valid_provenance_record (backup +:+ ".json") record
                                     && bool_decide (pr_state record = Committed)
                    | None => false
                    end
                | None => false
                end
            end
        end
    end.

(** ** What is trusted *)

(** A file of the state directory that only its owner could have written: its metadata and
    bytes. [Ok None] passes over it. *)
Definition owned_content (fs : Files) (st : BackupStore) (name : string) (limit : Z)
    : result (option (Metadata * bytes)) IoError :=
  match open_regular_at fs (root st) name with
  | Err _ => Ok None
  | Ok file =>
      let? m := file_metadata file in
      if negb (owned_state_file (expected_owner st) m) then Ok None
      else match read_open_bounded file limit with Err _ => Ok None | Ok content => Ok (Some (m, content)) end
  end.

Definition valid_intent_entry (fs : Files) (st : BackupStore) (entry : DirEntry) : result (option ValidIntent) IoError :=
  match entry_name entry with
  | None => Ok None
  | Some name =>
      if negb (starts_with ".facelock-intent-" name) || negb (ends_with ".json" name) then Ok None
      else
        let? found := owned_content fs st name MAX_RECORD_BYTES in
        Ok (match found with
            | None => None
            | Some (m, encoded) =>
                match decode_intent encoded with
                | None => None
                | Some i =>
                    if negb (String.eqb name (intent_name (si_role i) (si_backup i))) || negb (valid_state_intent i)
                    then None
                    else Some {| vi_name := name; vi_intent := i; vi_identity := identity_for_bytes m encoded |}
                end
            end)
  end.

Definition valid_publication_entry (fs : Files) (st : BackupStore) (entry : DirEntry)
    : result (option ValidPublication) IoError :=
  match entry_name entry with
  | None => Ok None
  | Some name =>
      if negb (starts_with ".facelock-publication-" name) || negb (ends_with ".json" name) then Ok None
      else
        let? found := owned_content fs st name MAX_RECORD_BYTES in
        Ok (match found with
            | None => None
            | Some (m, encoded) =>
                match decode_binding encoded with
                | None => None
                | Some b =>
                    if negb (String.eqb name (publication_name (b_role b) (b_backup b))) || negb (valid_publication_binding b)
                    then None
                    else Some {| vp_name := name; vp_binding := b; vp_identity := identity_for_bytes m encoded |}
                end
            end)
  end.

(** The entries of the state directory for which [f] finds something, in order. *)
Fixpoint filter_entries {A} (f : DirEntry → result (option A) IoError) (l : list DirEntry) : result (list A) IoError :=
  match l with
  | [] => Ok []
  | entry :: l =>
      let? a := f entry in
      let? rest := filter_entries f l in
      Ok (match a with Some a => a :: rest | None => rest end)
  end.

Definition scan_state {A} (f : Files → DirEntry → result (option A) IoError) (fs : Files) (st : BackupStore)
    : result (list A) IoError :=
  let? _ := open_directory_nofollow fs (root st) in
  let? entries := read_dir fs (root st) in
  filter_entries (f fs) entries.

Definition validated_intents (fs : Files) (st : BackupStore) : result (list ValidIntent) IoError :=
  scan_state (λ fs, valid_intent_entry fs st) fs st.

Definition validated_publications (fs : Files) (st : BackupStore) : result (list ValidPublication) IoError :=
  scan_state (λ fs, valid_publication_entry fs st) fs st.

Definition publication_matches_intent (b : PublicationBinding) (vi : ValidIntent) : bool :=
  let i := vi_intent vi in
  bool_decide (intent_role (b_role b) = si_role i) && (b_sequence b =? si_sequence i)
  && String.eqb (b_service b) (si_service i) && String.eqb (b_backup b) (si_backup i)
  && String.eqb (intent_sha256 b) (id_sha256 (vi_identity vi))
  && match b_role b with
     | PCommit => is_some_and (λ hash, String.eqb hash (b_sha256 b)) (replacement_record_sha256 i)
     | PPamReplace | PPamRemove | PVendorCreate => String.eqb (si_installed_sha256 i) (b_sha256 b)
     end.

Definition matching_state_entry (fs : Files) (st : BackupStore) (name expected_sha256 : string) (limit : Z)
    : result (option FileIdentity) IoError :=
  match open_regular_at fs (root st) name with
  | Err e => if is_not_found e then Ok None else Err e
  | Ok file =>
      let? id := identity_of_open_bounded file limit in
      if negb (state_identity_matches (expected_owner st) id expected_sha256)
      then Err (other_error "reserved state entry does not match its durable intent")
      else Ok (Some id)
  end.

(** ** Bindings *)
Definition finish_recovered_publication (st : BackupStore) (i : option ValidIntent) (p : ValidPublication) : Io unit :=
  (match i with
   | Some i => unlink_state_if_identity_matches (root st) (vi_name i) (vi_identity i)
   | None => mret tt
   end);;
  unlink_state_if_identity_matches (root st) (vp_name p) (vp_identity p).

Definition recover_commit_publication (st : BackupStore) (p : ValidPublication) (i : option ValidIntent) : Io unit :=
  let b := vp_binding p in
  let record := b_backup b +:+ ".json" in
  let exchange := exchange_name (b_backup b) in
  _ ← observe (λ fs, open_directory_nofollow fs (root st));
  canonical ← observe (λ fs, open_identity_at fs (root st) record MAX_RECORD_BYTES);
  temp ← observe (λ fs, open_identity_at fs (root st) exchange MAX_RECORD_BYTES);
  let is_published := is_some_and (binding_identity_matches b) in
  let prepared_hash := default "" (i ≫= λ i, record_sha256 (vi_intent i)) in
  let is_prepared := is_some_and (λ id, state_identity_matches (expected_owner st) id prepared_hash) in
  let finish := finish_recovered_publication st i p;; sync_all in
  match i, canonical, temp with
  | Some _, Some _, Some temp_identity =>
      if is_prepared canonical && is_published temp || is_published canonical && is_prepared temp
      then unlink_state_if_identity_matches (root st) exchange temp_identity;; finish
      else mret tt
  | _, Some _, None => if is_published canonical then finish else mret tt
  | _, _, _ => mret tt
  end.

(** The rule's removal may have been the first half of a copy's retirement. *)
Definition resume_retirement (dirs : PamDirs) (b : PublicationBinding) : Io unit :=
  let d := overrides dirs in
  let installed id := binding_identity_matches b id in
  quarantine_exists ← observe (λ fs, entry_exists_at fs d (vendor_retire_name (b_backup b)));
  should_retire ←
    (if (quarantine_exists : bool) then mret true
     else
       current ← observe (λ fs, read_regular_at_bounded fs d (b_service b) MAX_BACKUP_BYTES);
       match current with
       | Some (content, current) =>
           if installed current
           then matches ← catch (observe (λ fs, current_vendor_override_matches fs dirs (b_service b) content current true));
                mret (default false (option_of matches))
           else mret false
       | None => mret false
       end);
  if negb should_retire then mret tt
  else
    retired ← catch (retire_vendor_override dirs (b_service b) (b_backup b) (binding_identity b));
    match retired with
    | Err e => if io_ambiguous e || bool_decide (io_kind e = Interrupted) then raise e else mret tt
    | Ok _ => mret tt
    end.

Definition recover_pam_publication (st : BackupStore) (dirs : PamDirs) (p : ValidPublication)
    (i : option ValidIntent) (temp_name : string) : Io unit :=
  let b := vp_binding p in
  let d := overrides dirs in
  _ ← observe (λ fs, open_directory_nofollow fs d);
  canonical ← observe (λ fs, open_identity_at fs d (b_service b) MAX_BACKUP_BYTES);
  temp ← observe (λ fs, open_identity_at fs d temp_name MAX_BACKUP_BYTES);
  let installed id := binding_identity_matches b id in
  let original id := is_some_and (λ i, exact_original_intent_identity (vi_intent i) id) i in
  let removal := bool_decide (b_role b = PPamRemove) in
  settled ←
    match i, canonical, temp with
    | Some _, Some current, Some other =>
        if original current && installed other || installed current && original other
        then unlink_at_if_identity_matches d temp_name other MAX_BACKUP_BYTES;; mret true
        else mret false
    | _, Some current, None => mret (installed current)
    | _, None, None => mret removal
    | _, _, _ => mret false
    end;
  if negb settled then mret tt
  else
    sync_all;;
    (if removal then resume_retirement dirs b else mret tt);;
    finish_recovered_publication st i p.

Definition recover_vendor_publication (st : BackupStore) (dirs : PamDirs) (p : ValidPublication)
    (i : option ValidIntent) : Io unit :=
  let b := vp_binding p in
  let d := overrides dirs in
  let temp_name := vendor_create_name (b_backup b) in
  _ ← observe (λ fs, open_directory_nofollow fs d);
  canonical ← observe (λ fs, open_identity_at fs d (b_service b) MAX_BACKUP_BYTES);
  temp ← observe (λ fs, open_identity_at fs d temp_name MAX_BACKUP_BYTES);
  settled ←
    match i, canonical, temp with
    | Some _, None, Some replacement =>
        if binding_identity_matches b replacement
        then unlink_at_if_identity_matches d temp_name replacement MAX_BACKUP_BYTES;; mret true
        else mret false
    | _, Some installed, None => mret (binding_identity_matches b installed)
    | _, _, _ => mret false
    end;
  if negb settled then mret tt else sync_all;; finish_recovered_publication st i p.

Definition recover_publication (st : BackupStore) (dirs : PamDirs) (intents : list ValidIntent)
    (p : ValidPublication) : Io unit :=
  let b := vp_binding p in
  let i := find (publication_matches_intent b) intents in
  unproven ← (if is_some i then mret false
              else observe (λ fs, entry_exists_at fs (root st) (intent_name (intent_role (b_role b)) (b_backup b))));
  if (unproven : bool) then mret tt
  else
    match b_role b with
    | PCommit => recover_commit_publication st p i
    | PPamReplace => recover_pam_publication st dirs p i (pam_replace_name (b_backup b))
    | PPamRemove => recover_pam_publication st dirs p i (pam_remove_name (b_backup b))
    | PVendorCreate => recover_vendor_publication st dirs p i
    end.

Definition recover_publications (st : BackupStore) (dirs : PamDirs) : Io unit :=
  intents ← observe (λ fs, validated_intents fs st);
  _ ← observe (λ fs, open_directory_nofollow fs (root st));
  publications ← observe (λ fs, validated_publications fs st);
  for_each (recover_publication st dirs intents) publications.

(** ** Intents without a binding *)
Definition forget_intent (st : BackupStore) (v : ValidIntent) : Io unit :=
  unlink_state_if_identity_matches (root st) (vi_name v) (vi_identity v).

Definition recover_prepare_intent (st : BackupStore) (v : ValidIntent) : Io unit :=
  let i := vi_intent v in
  match record_sha256 i with
  | None => mret tt
  | Some record_hash =>
      let record := si_backup i +:+ ".json" in
      backup ← catch (observe (λ fs, matching_state_entry fs st (si_backup i) (si_original_sha256 i) MAX_BACKUP_BYTES));
      provenance ← catch (observe (λ fs, matching_state_entry fs st record record_hash MAX_RECORD_BYTES));
      match backup, provenance with
      | Ok backup, Ok provenance =>
          (match backup, provenance with
           | Some id, None => unlink_state_if_identity_matches (root st) (si_backup i) id
           | None, Some id => unlink_state_if_identity_matches (root st) record id
           | _, _ => mret tt
           end);;
          forget_intent st v;;
          sync_all
      | _, _ => mret tt
      end
  end.

Definition recover_commit_intent (st : BackupStore) (v : ValidIntent) : Io unit :=
  let i := vi_intent v in
  match record_sha256 i, replacement_record_sha256 i with
  | Some record_hash, Some _ =>
      canonical ← catch (observe (λ fs, matching_state_entry fs st (si_backup i +:+ ".json") record_hash MAX_RECORD_BYTES));
      exchange ← observe (λ fs, open_identity_at fs (root st) (exchange_name (si_backup i)) MAX_RECORD_BYTES);
      if is_some (option_of canonical ≫= id) && negb (is_some exchange)
      then forget_intent st v;; sync_all
      else mret tt
  | _, _ => mret tt
  end.

Definition resume_quarantine (st : BackupStore) (canonical quarantine expected_sha256 : string) (limit : Z)
    : Io (option FileIdentity) :=
  canonical_identity ← observe (λ fs, matching_state_entry fs st canonical expected_sha256 limit);
  quarantine_identity ← observe (λ fs, matching_state_entry fs st quarantine expected_sha256 limit);
  match canonical_identity, quarantine_identity with
  | Some expected, None =>
      rename_noreplace_at (root st) canonical quarantine;;
      moved ← observe (λ fs, matching_state_entry fs st quarantine expected_sha256 limit);
      match moved with
      | None => raise (other_error "quarantined state disappeared")
      | Some moved =>
          if identity_matches expected moved then mret (Some moved)
          else
            ignore (rename_noreplace_at (root st) quarantine canonical);;
            raise (other_error "state entry changed during recovery quarantine")
      end
  | None, Some identity => mret (Some identity)
  | None, None => mret None
  | Some _, Some _ => raise (other_error "both canonical and quarantine state entries exist")
  end.

Definition unlink_quarantined (st : BackupStore) (name : string) (id : option FileIdentity) : Io unit :=
  match id with Some id => unlink_state_if_identity_matches (root st) name id | None => mret tt end.

Definition recover_cleanup_intent (st : BackupStore) (v : ValidIntent) : Io unit :=
  let i := vi_intent v in
  match record_sha256 i with
  | None => mret tt
  | Some record_hash =>
      let backup_quarantine := quarantine_name "backup" (si_backup i) in
      let record_quarantine := quarantine_name "record" (si_backup i) +:+ ".json" in
      backup ← catch (resume_quarantine st (si_backup i) backup_quarantine (si_original_sha256 i) MAX_BACKUP_BYTES);
      match backup with
      | Err _ => mret tt
      | Ok backup =>
          record ← catch (resume_quarantine st (si_backup i +:+ ".json") record_quarantine record_hash MAX_RECORD_BYTES);
          match record with
          | Err _ => mret tt
          | Ok record =>
              unlink_quarantined st backup_quarantine backup;;
              unlink_quarantined st record_quarantine record;;
              forget_intent st v;;
              sync_all
          end
      end
  end.

(** What two names of the service directory hold; [None] when either could not be opened. *)
Definition service_and_temp (dirs : PamDirs) (service temp : string) : Io (option (option FileIdentity * option FileIdentity)) :=
  let d := overrides dirs in
  let look_at name (k : option FileIdentity → Io (option (option FileIdentity * option FileIdentity))) :=
    found ← catch (observe (λ fs, open_regular_at fs d name));
    match found with
    | Ok file => id ← lift (identity_of_open_bounded file MAX_BACKUP_BYTES); k (Some id)
    | Err e => if is_not_found e then k None else mret None
    end in
  look_at service (λ canonical, look_at temp (λ temp, mret (Some (canonical, temp)))).

Definition recover_existing_pam_mutation_intent (st : BackupStore) (dirs : PamDirs) (v : ValidIntent)
    (temp_name : string) : Io unit :=
  _ ← observe (λ fs, open_directory_nofollow fs (overrides dirs));
  found ← service_and_temp dirs (si_service (vi_intent v)) temp_name;
  match found with
  | Some (Some current, None) =>
      if exact_original_intent_identity (vi_intent v) current then sync_all;; forget_intent st v else mret tt
  | _ => mret tt
  end.

Definition recover_pam_replace_intent (st : BackupStore) (dirs : PamDirs) (v : ValidIntent) : Io unit :=
  let i := vi_intent v in
  match record_sha256 i with
  | None => mret tt
  | Some record_hash =>
      _ ← observe (λ fs, open_directory_nofollow fs (root st));
      record ← catch (observe (λ fs, matching_state_entry fs st (si_backup i +:+ ".json") record_hash MAX_RECORD_BYTES));
      if is_some (option_of record ≫= id)
      then recover_existing_pam_mutation_intent st dirs v (pam_replace_name (si_backup i))
      else mret tt
  end.

Definition recover_pam_remove_intent (st : BackupStore) (dirs : PamDirs) (v : ValidIntent) : Io unit :=
  recover_existing_pam_mutation_intent st dirs v (pam_remove_name (si_backup (vi_intent v))).

Definition recover_vendor_create_intent (st : BackupStore) (dirs : PamDirs) (v : ValidIntent) : Io unit :=
  _ ← observe (λ fs, open_directory_nofollow fs (overrides dirs));
  found ← service_and_temp dirs (si_service (vi_intent v)) (vendor_create_name (si_backup (vi_intent v)));
  match found with
  | Some (None, None) => sync_all;; forget_intent st v
  | _ => mret tt
  end.

Definition recover_intent (st : BackupStore) (dirs : PamDirs) (v : ValidIntent) : Io unit :=
  match si_role (vi_intent v) with
  | IPrepare => recover_prepare_intent st v
  | ICommit => recover_commit_intent st v
  | ICleanup => recover_cleanup_intent st v
  | IPamReplace => recover_pam_replace_intent st dirs v
  | IPamRemove => recover_pam_remove_intent st dirs v
  | IVendorCreate => recover_vendor_create_intent st dirs v
  end.

Definition recover_intents (st : BackupStore) (dirs : PamDirs) : Io unit :=
  _ ← observe (λ fs, open_directory_nofollow fs (root st));
  intents ← observe (λ fs, validated_intents fs st);
  for_each (recover_intent st dirs) intents.

(** ** Temporary files of an unfinished publication *)
Definition owned_temp (fs : Files) (st : BackupStore) (entry : DirEntry) : result (option (string * FileIdentity)) IoError :=
  match entry_name entry with
  | None => Ok None
  | Some name =>
      match owned_temp_parts name with
      | None => Ok None
      | Some (destination, expected_hash) =>
          let? found := owned_content fs st name MAX_BACKUP_BYTES in
          Ok (match found with
              | None => None
              | Some (m, content) =>
                  let id := identity_for_bytes m content in
                  if negb (String.eqb (id_sha256 id) expected_hash) || negb (valid_owned_temp_destination destination content)
                  then None else Some (name, id)
              end)
      end
  end.

Definition recover_owned_temps (st : BackupStore) : Io unit :=
  _ ← observe (λ fs, open_directory_nofollow fs (root st));
  names ← observe (λ fs, read_dir fs (root st));
  for_each (λ entry,
    owned ← observe (λ fs, owned_temp fs st entry);
    match owned with
    | Some (name, id) => unlink_state_if_identity_matches (root st) name id
    | None => mret tt
    end) names;;
  sync_all.

(** ** Records that are only prepared *)
Definition hinted_service (fs : Files) (st : BackupStore) (entry : DirEntry) : result (option string) IoError :=
  Ok (match entry_name entry with
      | None => None
      | Some name =>
          if negb (ends_with ".json" name) then None
          else match open_regular_at fs (root st) name with
               | Err _ => None
               | Ok file =>
                   match read_open_bounded file MAX_RECORD_BYTES with
                   | Err _ => None
                   | Ok encoded =>
                       match decode_record encoded with
                       | Some r => if valid_provenance_record name r then Some (pr_service r) else None
                       | None => None
                       end
                   end
               end
      end).

Definition hinted_services (fs : Files) (st : BackupStore) : result (list string) IoError :=
  let? found := scan_state (λ fs, hinted_service fs st) fs st in Ok (dedup [] found).

Definition settle_prepared (st : BackupStore) (dirs : PamDirs) (s : string) (p : PreparedBackup) : Io unit :=
  if negb (bool_decide (pr_state (provenance p) = Prepared)) then mret tt
  else
    pending ← catch (observe (λ fs, symlink_metadata fs (join (root st) (intent_name IPamReplace (pb_backup p)))));
    if is_ok pending then mret tt
    else
      found ← catch (observe (λ fs, read_regular_nofollow fs (join (overrides dirs) s)));
      match found with
      | Err _ => mret tt
      | Ok (content, _) =>
          let current := sha256_hex content in
          if String.eqb current (pr_installed_sha256 (provenance p)) then commit_unlocked st p
          else if String.eqb current (pr_original_sha256 (provenance p))
          then cleanup_one_at st p;; sync_all
          else mret tt
      end.

Definition recover_unlocked (st : BackupStore) (dirs : PamDirs) : Io unit :=
  recover_owned_temps st;;
  recover_publications st dirs;;
  recover_intents st dirs;;
  services ← observe (λ fs, hinted_services fs st);
  for_each (λ s,
    records ← observe (λ fs, validated_records fs st s);
    for_each (settle_prepared st dirs s) records) services.

Definition recover (st : BackupStore) (dirs : PamDirs) : Io unit :=
  lock_exclusive st;; recover_unlocked st dirs.
End recovery.
