(* ===== verification/PamRemoveAll.v ===== *)
(** * PamRemoveAll: taking the rule out of every service as one transaction

    [facelock-cli/src/commands/pam.rs]: the journal that names every service of the batch, the
    commit that decides it, and what the next run does with what it finds: without a commit every
    service gets its old file back, with one the rest is finished. The transaction every write to
    a service runs in recovers both first. *)

From stdpp Require Import gmap.
From S2P Require Import Prelude Text Sealing PamDocument PamFiles PamBackup PamService PamWorld PamState PamStore PamRecovery.

(** ** Documents *)
Record RemoveAllJournalTarget := {
  jt_service : string; jt_backup : string; jt_original : FileIdentity; jt_installed_sha256 : string;
  jt_delete_override : option bool }.

Record RemoveAllJournal := {
  ja_version : Z; ja_operation : string; ja_keep_backup : bool; ja_targets : list RemoveAllJournalTarget }.

Record RemoveAllCommittedTarget := {
  ct_service : string; ct_backup : string; ct_installed : FileIdentity; ct_delete_override : option bool }.

Record RemoveAllCommit := {
  co_version : Z; co_operation : string; co_journal_sha256 : string; co_keep_backup : bool;
  co_targets : list RemoveAllCommittedTarget }.

Class RemoveAllJson := {
  encode_journal : RemoveAllJournal → option bytes;
  decode_journal : bytes → option RemoveAllJournal;
  encode_commit : RemoveAllCommit → option bytes;
  decode_commit : bytes → option RemoveAllCommit }.

Definition REMOVE_ALL_VERSION : Z := 2.
Definition REMOVE_ALL_LEGACY_VERSION : Z := 1.
Definition MAX_REMOVE_ALL_TARGETS : nat := 1024.
Definition MAX_REMOVE_ALL_JOURNAL_BYTES : Z := 4 * 1024 * 1024.

Definition remove_all_journal_name (operation : string) : string := ".facelock-remove-all-" +:+ operation +:+ ".json".
Definition remove_all_commit_name (operation : string) : string :=
  ".facelock-remove-all-commit-" +:+ operation +:+ ".json".

Definition valid_remove_all_operation (operation : string) : bool :=
  match split_once "-" operation with
  | (_, None) => false
  | (seconds, Some nanoseconds) =>
      negb (is_empty_str seconds) && str_forall is_ascii_digit seconds
      && is_some (parse_unsigned (2 ^ 64) seconds)
      && (String.length nanoseconds =? 9)%nat && str_forall is_ascii_digit nanoseconds
      && match parse_unsigned (2 ^ 32) nanoseconds with Some v => v <? 1000000000 | None => false end
  end.

(** A file the batch replaces or has installed. *)
Definition valid_remove_all_file (service backup : string) (id : FileIdentity) : bool :=
  confined service && valid_backup_name service backup && (links id =? 1) && regular_mode (id_mode id)
  && valid_sha256 (id_sha256 id).

Definition valid_remove_all_target (t : RemoveAllJournalTarget) : bool :=
  valid_remove_all_file (jt_service t) (jt_backup t) (jt_original t) && valid_sha256 (jt_installed_sha256 t).

(** The second version says of every target whether its file goes away; the first one of none. *)
Definition valid_remove_all_version (version : Z) (delete_override : list (option bool)) : bool :=
  if version =? REMOVE_ALL_VERSION then forallb is_some delete_override
  else if version =? REMOVE_ALL_LEGACY_VERSION then forallb (λ d, negb (is_some d)) delete_override
  else false.

Definition distinct_services (services : list string) : bool :=
  (length (dedup [] services) =? length services)%nat.

Definition valid_remove_all_journal (j : RemoveAllJournal) : bool :=
  valid_remove_all_version (ja_version j) (map jt_delete_override (ja_targets j))
  && valid_remove_all_operation (ja_operation j)
  && negb (bool_decide (ja_targets j = [])) && (length (ja_targets j) <=? MAX_REMOVE_ALL_TARGETS)%nat
  && forallb valid_remove_all_target (ja_targets j)
  && distinct_services (map jt_service (ja_targets j)).

Definition valid_remove_all_commit (c : RemoveAllCommit) : bool :=
  valid_remove_all_version (co_version c) (map ct_delete_override (co_targets c))
  && valid_remove_all_operation (co_operation c) && valid_sha256 (co_journal_sha256 c)
  && negb (bool_decide (co_targets c = [])) && (length (co_targets c) <=? MAX_REMOVE_ALL_TARGETS)%nat
  && forallb (λ t, valid_remove_all_file (ct_service t) (ct_backup t) (ct_installed t)) (co_targets c)
  && distinct_services (map ct_service (co_targets c)).

Section remove_all.
Context `{Json, StateJson, RemoveAllJson, Sha256}.
Context (st : BackupStore).

(** ** Writing the journal *)
Definition operation_at (since_epoch : Z) : string :=
  show_Z (since_epoch / 1000000000) +:+ "-" +:+ nine_digits (since_epoch mod 1000000000).

Fixpoint create_journal_from (probes : nat) (keep_backup : bool) (targets : list RemoveAllJournalTarget)
    (since_epoch : Z) : Io (RemoveAllJournal * string * bytes * FileIdentity) :=
  match probes with
  | O => raise (io_error AlreadyExists "remove-all journal collision probe limit exhausted")
  | S probes =>
      let next :=
        if since_epoch + 1 <? duration_bound then create_journal_from probes keep_backup targets (since_epoch + 1)
        else raise (io_error InvalidData "remove-all clock overflow") in
      let operation := operation_at since_epoch in
      let name := remove_all_journal_name operation in
      taken ← observe (λ fs, Ok (is_ok (symlink_metadata fs (join (root st) name))
                                 || is_ok (symlink_metadata fs (join (root st) (remove_all_commit_name operation)))));
      if (taken : bool) then next
      else
        let journal := {| ja_version := REMOVE_ALL_VERSION; ja_operation := operation; ja_keep_backup := keep_backup;
                          ja_targets := targets |} in
        encoded ← lift (to_vec_pretty encode_journal journal);
        if MAX_REMOVE_ALL_JOURNAL_BYTES <? Z.of_nat (length encoded)
        then raise (io_error InvalidData "remove-all journal exceeds its size limit")
        else
          created ← catch (atomic_state_create (root st) name encoded);
          match created with
          | Ok id => mret (journal, name, encoded, id)
          | Err e => if bool_decide (io_kind e = AlreadyExists) then next else raise e
          end
  end.

Definition create_remove_all_journal (keep_backup : bool) (targets : list RemoveAllJournalTarget)
    : Io (RemoveAllJournal * string * bytes * FileIdentity) :=
  now ← look clock;
  create_journal_from MAX_TIMESTAMP_COLLISION_PROBES keep_backup targets now.

Definition unlink_remove_all_state (name : string) (id : FileIdentity) : Io unit :=
  _ ← observe (λ fs, open_directory_nofollow fs (root st));
  unlink_at_if_identity_matches (root st) name id MAX_REMOVE_ALL_JOURNAL_BYTES;;
  sync_all.

(** ** Evidence of a target's publication *)
Definition exact_batch_publication (t : RemoveAllJournalTarget) : Io (option (ValidIntent * ValidPublication)) :=
  intents ← observe (λ fs, validated_intents fs st);
  publications ← observe (λ fs, validated_publications fs st);
  let intent_name := intent_name IPamReplace (jt_backup t) in
  let publication_name := publication_name PPamReplace (jt_backup t) in
  _ ← observe (λ fs, open_directory_nofollow fs (root st));
  let intent := List.find (λ v, String.eqb (vi_name v) intent_name
                                && String.eqb (si_service (vi_intent v)) (jt_service t)
                                && String.eqb (si_original_sha256 (vi_intent v)) (id_sha256 (jt_original t))
                                && String.eqb (si_installed_sha256 (vi_intent v)) (jt_installed_sha256 t)) intents in
  let publication := List.find (λ p, String.eqb (vp_name p) publication_name
                                     && String.eqb (b_service (vp_binding p)) (jt_service t)
                                     && String.eqb (b_sha256 (vp_binding p)) (jt_installed_sha256 t)) publications in
  let incomplete := other_error "remove-all publication evidence is incomplete or invalid" in
  match intent, publication with
  | Some i, Some p => if publication_matches_intent (vp_binding p) i then mret (Some (i, p)) else raise incomplete
  | None, None =>
      intent_exists ← observe (λ fs, entry_exists_at fs (root st) intent_name);
      if (intent_exists : bool) then raise incomplete
      else
        publication_exists ← observe (λ fs, entry_exists_at fs (root st) publication_name);
        if (publication_exists : bool) then raise incomplete else mret None
  | _, _ => raise incomplete
  end.

Definition prepared_for_remove_all_target (fs : Files) (t : RemoveAllJournalTarget) : result PreparedBackup IoError :=
  let? records := validated_records fs st (jt_service t) in
  match List.find (λ p, String.eqb (pb_backup p) (jt_backup t)
                        && bool_decide (pr_state (provenance p) = Prepared)
                        && String.eqb (pr_original_sha256 (provenance p)) (id_sha256 (jt_original t))
                        && String.eqb (pr_installed_sha256 (provenance p)) (jt_installed_sha256 t)) records with
  | Some p => Ok p
  | None => Err (other_error "remove-all rollback pair is missing or invalid")
  end.

(** An intent of a replacement that never began is all that is left of it. *)
Definition recover_unstarted_remove_all_publication (dirs : PamDirs) (t : RemoveAllJournalTarget)
    (current : FileIdentity) : Io bool :=
  let wanted := intent_name IPamReplace (jt_backup t) in
  _ ← observe (λ fs, open_directory_nofollow fs (root st));
  published ← observe (λ fs, entry_exists_at fs (root st) (publication_name PPamReplace (jt_backup t)));
  if (published : bool) then mret false
  else
    intents ← observe (λ fs, validated_intents fs st);
    match List.find (λ v, String.eqb (vi_name v) wanted
                          && bool_decide (si_role (vi_intent v) = IPamReplace)
                          && String.eqb (si_service (vi_intent v)) (jt_service t)
                          && String.eqb (si_backup (vi_intent v)) (jt_backup t)
                          && String.eqb (si_original_sha256 (vi_intent v)) (id_sha256 (jt_original t))
                          && String.eqb (si_installed_sha256 (vi_intent v)) (jt_installed_sha256 t)
                          && exact_original_intent_identity (vi_intent v) (jt_original t)) intents with
    | None => mret false
    | Some v =>
        prepared ← observe (λ fs, prepared_for_remove_all_target fs t);
        match record_identity prepared with
        | None => raise (other_error "remove-all record identity is missing")
        | Some record =>
            if negb (si_sequence (vi_intent v) =? pr_sequence (provenance prepared))
               || negb (bool_decide (record_sha256 (vi_intent v) = Some (id_sha256 record)))
            then mret false
            else if negb (identity_matches (jt_original t) current) then mret false
            else
              _ ← observe (λ fs, open_directory_nofollow fs (overrides dirs));
              staged ← observe (λ fs, entry_exists_at fs (overrides dirs) (pam_replace_name (jt_backup t)));
              if (staged : bool) then mret false
              else
                unlink_state_if_identity_matches (root st) (vi_name v) (vi_identity v);;
                mret true
        end
    end.

(** ** Removing a target's backup and record *)
Definition pair_state_names (t : RemoveAllJournalTarget) : list string :=
  [jt_backup t; jt_backup t +:+ ".json"; quarantine_name "backup" (jt_backup t);
   quarantine_name "record" (jt_backup t) +:+ ".json"; intent_name ICleanup (jt_backup t)].

Fixpoint all_absent (names : list string) : Io bool :=
  match names with
  | [] => mret true
  | name :: names =>
      found ← observe (λ fs, entry_exists_at fs (root st) name);
      if (found : bool) then mret false else all_absent names
  end.

Definition remove_all_pair_state_is_absent (t : RemoveAllJournalTarget) : Io bool := all_absent (pair_state_names t).

Definition cleanup_remove_all_pair (t : RemoveAllJournalTarget) : Io unit :=
  let cleanup_name := intent_name ICleanup (jt_backup t) in
  intents ← observe (λ fs, validated_intents fs st);
  match List.find (λ v, String.eqb (vi_name v) cleanup_name
                        && bool_decide (si_role (vi_intent v) = ICleanup)
                        && String.eqb (si_service (vi_intent v)) (jt_service t)
                        && String.eqb (si_backup (vi_intent v)) (jt_backup t)
                        && String.eqb (si_original_sha256 (vi_intent v)) (id_sha256 (jt_original t))
                        && String.eqb (si_installed_sha256 (vi_intent v)) (jt_installed_sha256 t)) intents with
  | Some v =>
      recover_cleanup_intent st v;;
      absent ← remove_all_pair_state_is_absent t;
      if (absent : bool) then mret tt
      else raise (other_error "remove-all rollback pair cleanup remains incomplete or ambiguous")
  | None =>
      invalid ← observe (λ fs, entry_exists_at fs (root st) cleanup_name);
      if (invalid : bool) then raise (other_error "remove-all rollback pair has invalid cleanup evidence")
      else
        backup_quarantined ← observe (λ fs, entry_exists_at fs (root st) (quarantine_name "backup" (jt_backup t)));
        conflicting ← (if (backup_quarantined : bool) then mret true
                       else observe (λ fs, entry_exists_at fs (root st) (quarantine_name "record" (jt_backup t) +:+ ".json")));
        if (conflicting : bool) then raise (other_error "remove-all rollback pair has conflicting quarantine state")
        else
          prepared ← catch (observe (λ fs, prepared_for_remove_all_target fs t));
          match prepared with
          | Ok p => cleanup_one_at st p
          | Err _ =>
              absent ← remove_all_pair_state_is_absent t;
              if (absent : bool) then mret tt
              else raise (other_error "remove-all rollback pair is partial, substituted, or conflicting")
          end
  end.

Definition cleanup_remove_all_pairs (j : RemoveAllJournal) : Io unit :=
  _ ← observe (λ fs, open_directory_nofollow fs (root st));
  for_each cleanup_remove_all_pair (ja_targets j);;
  sync_all.

(** ** Rolling a batch back *)
Definition service_identity (dirs : PamDirs) (service : string) : Io FileIdentity :=
  current ← observe (λ fs, open_identity_at fs (overrides dirs) service MAX_BACKUP_BYTES);
  match current with
  | None => raise (other_error "rolled-back PAM service is missing")
  | Some current => mret current
  end.

Definition finish_rolled_back_remove_all_publication (dirs : PamDirs) (t : RemoveAllJournalTarget)
    (p : ValidPublication) (temp_name : string) : Io unit :=
  let d := overrides dirs in
  _ ← observe (λ fs, open_directory_nofollow fs d);
  current ← service_identity dirs (jt_service t);
  if negb (identity_matches (jt_original t) current)
  then raise (other_error "rolled-back PAM service no longer matches its original identity")
  else
    temp ← observe (λ fs, open_identity_at fs d temp_name MAX_BACKUP_BYTES);
    (match temp with
     | None => mret tt
     | Some temp =>
         if negb (binding_identity_matches (vp_binding p) temp)
         then raise (other_error "rolled-back PAM replacement temp is ambiguous")
         else unlink_at_if_identity_matches d temp_name temp MAX_BACKUP_BYTES;; sync_all
     end);;
    unlink_state_if_identity_matches (root st) (vp_name p) (vp_identity p);;
    current ← service_identity dirs (jt_service t);
    unstarted ← recover_unstarted_remove_all_publication dirs t current;
    if (unstarted : bool) then mret tt
    else raise (other_error "rolled-back PAM intent is not exact unstarted evidence").

(** One target, and what is ambiguous about it. An error of the last step ends the batch. *)
Definition rollback_target (dirs : PamDirs) (t : RemoveAllJournalTarget) : Io (list string) :=
  let d := overrides dirs in
  let because (e : IoError) : Io (list string) := mret [jt_service t +:+ ": " +:+ io_text e] in
  current ← catch (observe (λ fs, read_regular_nofollow fs (join d (jt_service t))));
  match current with
  | Err e => because e
  | Ok (_, current) =>
      unstarted ← catch (recover_unstarted_remove_all_publication dirs t current);
      match unstarted with
      | Err e => because e
      | Ok true => mret []
      | Ok false =>
          publication ← catch (exact_batch_publication t);
          match publication with
          | Err e => because e
          | Ok None =>
              mret (if identity_matches (jt_original t) current then [] else [jt_service t +:+ " changed after preflight"])
          | Ok (Some (_, p)) =>
              let installed := binding_identity (vp_binding p) in
              let temp_name := pam_replace_name (jt_backup t) in
              opened ← catch (observe (λ fs, open_directory_nofollow fs d));
              match opened with
              | Err e => because e
              | Ok _ =>
                  temp ← catch (observe (λ fs, open_identity_at fs d temp_name MAX_BACKUP_BYTES));
                  match temp with
                  | Err e => because e
                  | Ok temp =>
                      if identity_matches installed current && is_some_and (identity_matches (jt_original t)) temp
                      then
                        exchanged ← catch (rename_exchange_at d temp_name (jt_service t));
                        match exchanged with
                        | Err e => mret [jt_service t +:+ " rollback failed: " +:+ io_text e]
                        | Ok _ => finish_rolled_back_remove_all_publication dirs t p temp_name;; mret []
                        end
                      else if negb (identity_matches (jt_original t) current)
                              || is_some_and (λ temp, negb (identity_matches installed temp)) temp
                      then mret [jt_service t +:+ " changed before rollback"]
                      else finish_rolled_back_remove_all_publication dirs t p temp_name;; mret []
                  end
              end
          end
      end
  end.

Fixpoint rollback_targets (dirs : PamDirs) (targets : list RemoveAllJournalTarget) : Io (list string) :=
  match targets with
  | [] => mret []
  | t :: targets =>
      ambiguous ← rollback_target dirs t;
      rest ← rollback_targets dirs targets;
      mret (ambiguous ++ rest)
  end.

Definition rollback_remove_all (dirs : PamDirs) (j : RemoveAllJournal) (journal_name : string)
    (journal_identity : FileIdentity) : Io unit :=
  ambiguous ← rollback_targets dirs (rev (ja_targets j));
  if negb (bool_decide (ambiguous = []))
  then raise (other_error ("remove-all rollback retained evidence: " +:+ String.concat "; " ambiguous))
  else
    cleanup_remove_all_pairs j;;
    unlink_remove_all_state journal_name journal_identity.

(** ** Finishing a committed batch *)
Fixpoint committed_remove_all_targets (targets : list RemoveAllJournalTarget) : Io (list RemoveAllCommittedTarget) :=
  match targets with
  | [] => mret []
  | t :: targets =>
      publication ← exact_batch_publication t;
      match publication with
      | None => raise (other_error "remove-all publication binding disappeared before commit")
      | Some (_, p) =>
          rest ← committed_remove_all_targets targets;
          mret ({| ct_service := jt_service t; ct_backup := jt_backup t; ct_installed := binding_identity (vp_binding p);
                   ct_delete_override := jt_delete_override t |} :: rest)
      end
  end.

Definition journal_vendor_service_matches (dirs : PamDirs) (t : RemoveAllJournalTarget) : Io bool :=
  prepared ← observe (λ fs, prepared_for_remove_all_target fs t);
  _ ← observe (λ fs, open_directory_nofollow fs (root st));
  reopened ← observe (λ fs,
    let? backup := open_regular_at fs (root st) (pb_backup prepared) in
    let? original := read_open_bounded backup MAX_BACKUP_BYTES in
    let? m := file_metadata backup in
    Ok (original, identity_for_bytes m original));
  let '(original, reopened_backup) := reopened in
  match backup_identity prepared with
  | None => raise (other_error "journaled backup identity is missing")
  | Some expected =>
      if negb (identity_matches expected reopened_backup)
      then raise (other_error "journaled backup changed before vendor validation")
      else
        vendor ← observe (λ fs, resolve_current_vendor fs dirs (jt_service t));
        match vendor with
        | None => mret false
        | Some vendor =>
            mret (exact_vendor_override_shape original (jt_original t) vendor
                  && String.eqb (sha256_hex (with_facelock_removed original)) (jt_installed_sha256 t))
        end
  end.

Definition BACKUP_SUFFIX : string := ".facelock-backup".

Definition remove_legacy_backup (dirs : PamDirs) (service : string) : Io unit :=
  if negb (confined service) then raise (io_error InvalidInput "invalid service")
  else
    let d := overrides dirs in
    let name := service +:+ BACKUP_SUFFIX in
    _ ← observe (λ fs, open_directory_nofollow fs d);
    initial ← catch (observe (λ fs, open_regular_at fs d name));
    match initial with
    | Err e => if is_not_found e then mret tt else raise e
    | Ok initial =>
        expected ← lift (identity_of_open initial);
        current ← observe (λ fs, identity_at fs d name);
        if negb (identity_matches expected current) then raise (other_error "legacy PAM backup changed before cleanup")
        else if str_has_char nul name then raise (io_error InvalidInput "legacy name contains NUL")
        else unlinkat d name;; sync_all
    end.

Definition deletes_override (t : RemoveAllCommittedTarget) : bool := default false (ct_delete_override t).

(** Nothing is finished while a service is not what the batch installed. *)
Definition check_installed (dirs : PamDirs) (t : RemoveAllCommittedTarget) : Io unit :=
  let changed := other_error (ct_service t +:+ " changed before remove-all cleanup") in
  current ← catch (observe (λ fs, read_regular_nofollow fs (join (overrides dirs) (ct_service t))));
  match current with
  | Ok (_, current) => if identity_matches (ct_installed t) current then mret tt else raise changed
  | Err e => if deletes_override t && is_not_found e then mret tt else raise changed
  end.

Definition check_finalized (t : RemoveAllCommittedTarget) : Io unit :=
  let left := other_error "remove-all publication evidence could not be finalized" in
  intent ← observe (λ fs, entry_exists_at fs (root st) (intent_name IPamReplace (ct_backup t)));
  if (intent : bool) then raise left
  else
    bound ← observe (λ fs, entry_exists_at fs (root st) (publication_name PPamReplace (ct_backup t)));
    if (bound : bool) then raise left else mret tt.

Definition retire_committed (dirs : PamDirs) (journal : option RemoveAllJournal) (t : RemoveAllCommittedTarget) : Io unit :=
  if negb (deletes_override t) then mret tt
  else
    match journal with
    | None =>
        let d := overrides dirs in
        _ ← observe (λ fs, open_directory_nofollow fs d);
        canonical ← observe (λ fs, entry_exists_at fs d (ct_service t));
        quarantine ← observe (λ fs, entry_exists_at fs d (vendor_retire_name (ct_backup t)));
        if negb canonical && negb quarantine then mret tt
        else raise (other_error (ct_service t +:+ " retains vendor-retirement state without its journal"))
    | Some j =>
        match List.find (λ planned, String.eqb (jt_service planned) (ct_service t)) (ja_targets j) with
        | None => raise (other_error (ct_service t +:+ " has no journaled vendor source"))
        | Some planned =>
            matching ← journal_vendor_service_matches dirs planned;
            if negb matching then raise (other_error (ct_service t +:+ " no longer matches its journaled vendor service"))
            else retire_vendor_override dirs (ct_service t) (ct_backup t) (ct_installed t)
        end
    end.

Definition settle_committed (dirs : PamDirs) (keep_backup : bool) (t : RemoveAllCommittedTarget) : Io unit :=
  records ← observe (λ fs, validated_records fs st (ct_service t));
  if keep_backup then
    match List.find (λ p, String.eqb (pb_backup p) (ct_backup t)) records with
    | None => raise (other_error "remove-all rollback pair disappeared before commit")
    | Some p => if bool_decide (pr_state (provenance p) = Prepared) then commit_unlocked st p else mret tt
    end
  else
    for_each (cleanup_one_at st) records;;
    remove_legacy_backup dirs (ct_service t).

Definition finish_committed_remove_all (dirs : PamDirs) (journal : option (RemoveAllJournal * string * FileIdentity))
    (c : RemoveAllCommit) (commit_name : string) (commit_identity : FileIdentity) : Io unit :=
  for_each (check_installed dirs) (co_targets c);;
  recover_publications st dirs;;
  recover_intents st dirs;;
  _ ← observe (λ fs, open_directory_nofollow fs (root st));
  for_each check_finalized (co_targets c);;
  for_each (retire_committed dirs ((λ j, fst (fst j)) <$> journal)) (co_targets c);;
  for_each (settle_committed dirs (co_keep_backup c)) (co_targets c);;
  sync_all;;
  (match journal with
   | Some (_, name, id) => unlink_remove_all_state name id
   | None => mret tt
   end);;
  unlink_remove_all_state commit_name commit_identity.

(** ** What an earlier run left *)
Record LoadedRemoveAll (A : Type) := {
  loaded_name : string; loaded_value : A; loaded_encoded : bytes; loaded_identity : FileIdentity }.
Arguments loaded_name {A} _.
Arguments loaded_value {A} _.
Arguments loaded_encoded {A} _.
Arguments loaded_identity {A} _.

Definition LoadedRemoveAllState : Type :=
  option (LoadedRemoveAll RemoveAllJournal) * option (LoadedRemoveAll RemoveAllCommit).

(** The operation between a prefix and [.json], when it is one. *)
Definition operation_between (pre name : string) : option string :=
  match strip_prefix pre name with
  | None => None
  | Some rest => match strip_suffix ".json" rest with
                 | Some operation => if valid_remove_all_operation operation then Some operation else None
                 | None => None
                 end
  end.

Definition load_entry (fs : Files) (loaded : LoadedRemoveAllState) (entry : DirEntry)
    : result LoadedRemoveAllState IoError :=
  match entry_name entry with
  | None => Ok loaded
  | Some name =>
      let commit_operation := operation_between ".facelock-remove-all-commit-" name in
      let journal_operation := operation_between ".facelock-remove-all-" name in
      match or_else commit_operation journal_operation with
      | None => Ok loaded
      | Some operation =>
          let? file := map_err (λ e, other_error ("reserved remove-all state is invalid: " +:+ io_text e))
                         (open_regular_at fs (root st) name) in
          let? m := file_metadata file in
          let? encoded := read_open_bounded file MAX_REMOVE_ALL_JOURNAL_BYTES in
          let id := identity_for_bytes m encoded in
          let found {A} (value : A) :=
            {| loaded_name := name; loaded_value := value; loaded_encoded := encoded; loaded_identity := id |} in
          if negb (state_identity_matches (expected_owner st) id (id_sha256 id))
          then Err (other_error "reserved remove-all state owner or mode is invalid")
          else if is_some commit_operation then
            match decode_commit encoded with
            | None => Err (other_error "remove-all commit is corrupt")
            | Some value =>
                if negb (String.eqb operation (co_operation value)) || negb (valid_remove_all_commit value)
                then Err (other_error "remove-all commit is invalid")
                else if is_some (snd loaded) then Err (other_error "multiple remove-all commits require manual review")
                else Ok (fst loaded, Some (found value))
            end
          else
            match decode_journal encoded with
            | None => Err (other_error "remove-all journal is corrupt")
            | Some value =>
                if negb (String.eqb operation (ja_operation value)) || negb (valid_remove_all_journal value)
                then Err (other_error "remove-all journal is invalid")
                else if is_some (fst loaded) then Err (other_error "multiple remove-all journals require manual review")
                else Ok (Some (found value), snd loaded)
            end
      end
  end.

Fixpoint load_entries (fs : Files) (loaded : LoadedRemoveAllState) (entries : list DirEntry)
    : result LoadedRemoveAllState IoError :=
  match entries with
  | [] => Ok loaded
  | entry :: entries => let? loaded := load_entry fs loaded entry in load_entries fs loaded entries
  end.

Definition target_corresponds (committed : RemoveAllCommittedTarget) (planned : RemoveAllJournalTarget) : bool :=
  String.eqb (ct_service committed) (jt_service planned) && String.eqb (ct_backup committed) (jt_backup planned)
  && String.eqb (id_sha256 (ct_installed committed)) (jt_installed_sha256 planned)
  && bool_decide (ct_delete_override committed = jt_delete_override planned).

Definition corresponding (c : RemoveAllCommit) (j : LoadedRemoveAll RemoveAllJournal) : bool :=
  let planned := loaded_value j in
  String.eqb (co_operation c) (ja_operation planned)
  && Bool.eqb (co_keep_backup c) (ja_keep_backup planned)
  && String.eqb (co_journal_sha256 c) (sha256_hex (loaded_encoded j))
  && (length (co_targets c) =? length (ja_targets planned))%nat
  && forallb (λ '(c, p), target_corresponds c p) (combine (co_targets c) (ja_targets planned)).

Definition load_remove_all_state (fs : Files) : result LoadedRemoveAllState IoError :=
  let? _ := open_directory_nofollow fs (root st) in
  let? entries := read_dir fs (root st) in
  let? loaded := load_entries fs (None, None) entries in
  match loaded with
  | (Some j, Some c) =>
      if corresponding (loaded_value c) j then Ok loaded
      else Err (other_error "remove-all journal and commit do not describe one transaction")
  | _ => Ok loaded
  end.

Definition recover_remove_all_locked (dirs : PamDirs) : Io unit :=
  loaded ← observe load_remove_all_state;
  match loaded with
  | (journal, Some c) =>
      finish_committed_remove_all dirs
        ((λ j, (loaded_value j, loaded_name j, loaded_identity j)) <$> journal)
        (loaded_value c) (loaded_name c) (loaded_identity c)
  | (Some j, None) => rollback_remove_all dirs (loaded_value j) (loaded_name j) (loaded_identity j)
  | (None, None) => mret tt
  end.

(** What every write to a service runs in: the lock, then everything an earlier run left. *)
Definition transaction (dirs : PamDirs) : Io unit :=
  lock_exclusive st;;
  recover_remove_all_locked dirs;;
  recover_unlocked st dirs.
End remove_all.
