(* ===== verification/PamApply.v ===== *)
(** * PamApply: phase two of the PAM editor

    [facelock-cli/src/commands/pam.rs]: what is done with a planned target, the confirmation and
    the outcomes included, the batch of targets of one command, and the machine-wide removal.
    What is printed is not modelled. The text of a serializer's own error is left out. *)

From stdpp Require Import gmap sorting.
From S2P Require Import Prelude Text Sealing PamDocument PamFiles PamBackup PamService PamWorld PamState PamStore PamRecovery PamRemoveAll.

(** The terminal: which streams are one, and what the confirmation of a service's change reads. *)
Record Terminal := { stdin_is_tty : bool; stderr_is_tty : bool; interact : string → result bool IoError }.

(** What the header of a copy says besides the file. *)
Record Build := { version : string; today : string }.

Definition should_prompt (no_confirm stdin_is_tty stderr_is_tty : bool) : bool :=
  negb no_confirm && stdin_is_tty && stderr_is_tty.

(** [BackupStore::open_existing] *)
Definition open_existing_store (root : string) : Io (option BackupStore) :=
  found ← catch (observe (λ fs, symlink_metadata fs root));
  match found with
  | Ok m =>
      if bool_decide (file_type m = IsDirectory) then
        owner ← observe (λ fs, Ok (expected_state_owner fs root));
        _ ← observe (λ fs, open_directory_nofollow fs root);
        secure_state_directory root owner;;
        mret (Some {| root := root; expected_owner := owner |})
      else raise (io_error InvalidInput (root +:+ " is not a directory"))
  | Err e => if is_not_found e then mret None else raise e
  end.

(** A step of phase two: its error becomes the target's outcome. *)
Definition attempt {A} (what : string) (c : Io A) (k : A → Io Outcome) : Io Outcome :=
  r ← catch c;
  match r with Ok a => k a | Err e => mret (Failed (what +:+ io_text e)) end.

Definition no_identity : IoError := io_error InvalidData "PAM service has no planned file identity".

Section apply.
Context `{Json, StateJson, RemoveAllJson, Sha256}.
Context (dirs : PamDirs).

(** The store's lock and what an earlier run left, before anything is changed. *)
Definition begin (k : BackupStore → Io Outcome) : Io Outcome :=
  attempt "failed to open PAM backup state: " (open_store (backup_dir dirs)) (λ st,
  attempt "failed to recover PAM backup state: " (transaction st dirs) (λ _, k st)).

(** [Ok false] is a target the operator declined. *)
Definition confirm (term : Terminal) (no_confirm : bool) (t : Target) : result bool IoError :=
  if should_prompt no_confirm (stdin_is_tty term) (stderr_is_tty term) then interact term (service t) else Ok true.

(** ** Adding the rule *)
Definition install_prepared (st : BackupStore) (t : Target) (p : PreparedBackup) (content written : bytes) : Io Outcome :=
  let where_ := reported_path t in
  attempt ("failed to back up " +:+ where_ +:+ " to " +:+ join (pb_root p) (pb_backup p) +:+ ": ")
    (persist st p content) (λ _,
  attempt ("failed to write " +:+ where_ +:+ ": ")
    (match identity t with
     | Some expected => replace_pam_with_intent st p (path t) expected written
     | None => raise no_identity
     end) (λ _,
  attempt ("installed " +:+ where_ +:+ ", but failed to commit backup provenance: ")
    (commit_unlocked st p) (λ _, mret Installed))).

Definition unless_declined (term : Terminal) (no_confirm : bool) (t : Target) (k : Io Outcome) : Io Outcome :=
  match confirm term no_confirm t with
  | Err e => mret (Failed ("failed to read confirmation: " +:+ io_text e))
  | Ok false => mret Declined
  | Ok true => k
  end.

(** What follows the recovery, for a service with a file of its own. *)
Definition install_in_place (st : BackupStore) (term : Terminal) (no_confirm : bool) (t : Target) (content written : bytes)
    : Io Outcome :=
  attempt ("failed to plan backup for " +:+ reported_path t +:+ ": ") (plan_backup st (service t) content written) (λ p,
  unless_declined term no_confirm t (install_prepared st t p content written)).

Definition apply_add (build : Build) (term : Terminal) (no_confirm : bool) (t : Target) : Io Outcome :=
  let where_ := reported_path t in
  match plan t, written_bytes t (version build) (today build) with
  | Rewrite content, Some written =>
      begin (λ st, install_in_place st term no_confirm t content written)
  | Override content, Some written =>
      begin (λ st,
      attempt ("failed to plan vendor override for " +:+ where_ +:+ ": ")
        (plan_mutation st (service t) content written) (λ m,
      unless_declined term no_confirm t
        (attempt ("failed to write " +:+ where_ +:+ ": ")
          (match identity t with
           | Some expected => create_vendor_with_intent st m t expected written
           | None => raise (io_error InvalidData "vendor PAM service has no planned file identity")
           end) (λ _, mret Overridden))))
  | PlanAbsent, _ => mret Absent
  | PlanVendorOnly, _ => mret VendorOnly
  | _, _ => mret Unchanged
  end.

(** ** Removing the rule *)
Definition apply_remove (t : Target) : Io Outcome :=
  match plan t with
  | PlanAbsent => mret Absent
  | PlanVendorOnly | Override _ => mret VendorOnly
  | NoChange | RetainVendorOverride _ => mret Unchanged
  | Rewrite content =>
      let installed := with_facelock_removed content in
      begin (λ st,
      attempt ("failed to plan removal for " +:+ path t +:+ ": ") (plan_mutation st (service t) content installed) (λ m,
      attempt ("failed to write " +:+ path t +:+ ": ")
        (match identity t with
         | Some expected => remove_pam_with_intent st m (path t) expected installed (λ _, mret tt)
         | None => raise no_identity
         end) (λ _, mret Removed)))
  | DeleteOverride content =>
      let installed := with_facelock_removed content in
      match identity t with
      | None => mret (Failed ("failed to remove " +:+ path t +:+ ": PAM service has no planned file identity"))
      | Some expected =>
          begin (λ st,
          attempt ("failed to plan removal for " +:+ path t +:+ ": ") (plan_mutation st (service t) content installed) (λ m,
          attempt ("failed to remove unchanged vendor override " +:+ path t +:+ ": ")
            (remove_pam_with_intent st m (path t) expected installed
               (λ installed_identity, retire_vendor_override dirs (service t) (pm_operation m) installed_identity))
            (λ _, mret Removed)))
      end
  end.

(** ** The targets of a command *)
Definition cleanup_backups (service : string) : Io unit :=
  found ← open_existing_store (backup_dir dirs);
  (match found with Some st => cleanup st service | None => mret tt end);;
  remove_legacy_backup dirs service.

(** [reported_backup] *)
Definition report_backup (t : Target) : Io (option string) :=
  found ← catch (open_existing_store (backup_dir dirs));
  committed ← (match found with
               | Ok (Some st) => catch (observe (λ fs, latest_committed fs st (service t)))
               | _ => mret (Ok None)
               end);
  legacy ← observe (λ fs, Ok (existing_backup_for fs (write_path t)));
  mret (or_else (match committed with Ok b => b | Err _ => None end) legacy).

Definition recover_existing (dry_run : bool) : Io unit :=
  if dry_run then mret tt
  else
    found ← open_existing_store (backup_dir dirs);
    match found with Some st => recover st dirs | None => mret tt end.

(** What becomes of one target when what an earlier run left was, or was not, recovered. *)
Definition apply_target (build : Build) (term : Terminal) (recovery : result unit IoError) (w : WriteRequest) (t : Target)
    : Io Outcome :=
  match recovery with
  | Err e => mret (Failed ("failed to recover PAM backup state: " +:+ io_text e))
  | Ok _ =>
      if dry_run (request w) then mret (report_plan t (wr_action w))
      else match wr_action w with
           | Add => apply_add build term (no_confirm (request w)) t
           | Remove => apply_remove t
           end
  end.

Definition is_failed (o : Outcome) : bool := match o with Failed _ => true | _ => false end.

Definition clean_up_target (w : WriteRequest) (t : Target) (o : Outcome) : Io Outcome :=
  if bool_decide (wr_action w = Remove) && negb (dry_run (request w)) && negb (keep_backup (request w)) && negb (is_failed o)
  then
    cleaned ← catch (cleanup_backups (service t));
    match cleaned with
    | Ok _ => mret o
    | Err e => mret (CleanupFailed ("failed to clean backups for " +:+ service t +:+ ": " +:+ io_text e))
    end
  else mret o.

Definition report_target (w : WriteRequest) (t : Target) (o : Outcome) : Io ServiceReport :=
  kept ← (if dry_run (request w) then mret None
          else match o with Overridden => mret None | _ => report_backup t end);
  mret {| sr_service := service t; sr_path := Some (reported_path t); outcome := o; backup := kept;
          shadows := match o, plan t with
                     | Overridden, _ => Some (path t)
                     | Removed, DeleteOverride _ => None
                     | _, _ => shadowed t
                     end |}.

Fixpoint apply_targets (build : Build) (term : Terminal) (recovery : result unit IoError) (w : WriteRequest)
    (targets : list Target) : Io (list ServiceReport) :=
  match targets with
  | [] => mret []
  | t :: targets =>
      o ← apply_target build term recovery w t;
      o ← clean_up_target w t o;
      report ← report_target w t o;
      rest ← apply_targets build term recovery w targets;
      mret (report :: rest)
  end.

Definition apply_all (build : Build) (term : Terminal) (targets : list Target) (w : WriteRequest) : Io (list ServiceReport) :=
  recovery ← catch (recover_existing (dry_run (request w)));
  apply_targets build term recovery w targets.

(** Phase one and, when it accepts every target, phase two. *)
Definition write_services (build : Build) (term : Terminal) (w : WriteRequest) (guarded : bool)
    : Io (result (list ServiceReport) PamError) :=
  guard ← observe (λ fs, Ok (if guarded then guard_direct_add fs dirs (wr_action w) else Ok tt));
  match guard with
  | Err e => mret (Err e)
  | Ok _ =>
      planned ← observe (λ fs, Ok (plan_writes fs dirs w));
      match planned with
      | Err e => mret (Err e)
      | Ok targets => reports ← apply_all build term targets w; mret (Ok reports)
      end
  end.

Definition write_request (a : WriteAction) (r : PamRequest) : WriteRequest :=
  {| wr_action := a; request := r; remedy := "--allow-sensitive" |}.

(** [status_in], whose look at the backups may repair the state directory's mode. *)
Definition status_row (s : string) : Io ServiceReport :=
  located ← observe (λ fs, Ok (locate fs dirs s));
  match located with
  | Err why =>
      legacy ← observe (λ fs, Ok (match rejected_link why with None => None | Some l => existing_backup_for fs l end));
      mret {| sr_service := s; sr_path := rejected_link why; outcome := Unknown (rejected_reason why);
              backup := legacy; shadows := None |}
  | Ok t =>
      o ← observe (λ fs, Ok (status_outcome fs t));
      b ← report_backup t;
      mret {| sr_service := service t; sr_path := Some (path t); outcome := o; backup := b; shadows := shadowed t |}
  end.

Fixpoint status_rows (ss : list string) : Io (list ServiceReport) :=
  match ss with
  | [] => mret []
  | s :: ss => row ← status_row s; rest ← status_rows ss; mret (row :: rest)
  end.

Definition status_here (r : PamRequest) : Io Z :=
  if all r then
    scan ← observe (λ fs, Ok (scan_directories fs dirs));
    rows ← status_rows (names scan);
    let nothing_configured := match rows with [] => STATUS_MISSING | _ => STATUS_PRESENT end in
    let unread := match unreadable scan with [] => STATUS_PRESENT | _ => STATUS_ERROR end in
    mret (Z.max (Z.max (worst rows (if_present r)) nothing_configured) unread)
  else rows ← status_rows (requested_services (services r)); mret (worst rows (if_present r)).

(** The exit code and the rows. *)
Definition write_in (build : Build) (term : Terminal) (r : PamRequest) : Io (result (Z * list ServiceReport) PamError) :=
  match WriteAction_of (action r) with
  | None =>
      code ← status_here r;
      mret (Ok (code, []))
  | Some a =>
      reports ← write_services build term (write_request a r) true;
      mret (match reports with
            | Err e => Err e
            | Ok reports => Ok (if is_ok (first_failure reports) then WRITE_OK else WRITE_FAILED, reports)
            end)
  end.

(** What the setup wizard's command asks for: the first failure decides. *)
Definition for_setup (build : Build) (term : Terminal) (a : WriteAction) (r : PamRequest)
    : Io (result (result (list ServiceReport) string) PamError) :=
  reports ← write_services build term (write_request a r) (bool_decide (a = Add));
  mret (match reports with
        | Err e => Err e
        | Ok reports => Ok (match first_failure reports with Ok _ => Ok reports | Err e => Err e end)
        end).

Definition install_one_in (build : Build) (term : Terminal) (r : PamRequest) : Io (result (result bool string) PamError) :=
  reports ← for_setup build term Add r;
  mret (match reports with
        | Ok (Ok reports) => Ok (Ok (existsb (λ r, add_left_the_line (outcome r)) reports))
        | Ok (Err e) => Ok (Err e)
        | Err e => Err e
        end).

(** ** Every service of the machine *)
Definition strict_record_names_for_service (fs : Files) (root service : string) : result (list string) IoError :=
  match read_dir fs root with
  | Err e => if is_not_found e then Ok [] else Err e
  | Ok entries =>
      Ok (omap (λ entry,
            match entry_name entry with
            | None => None
            | Some name =>
                match strip_suffix ".json" name with
                | None => None
                | Some backup => if bool_decide (backup_service backup = Some service) then Some name else None
                end
            end) entries)
  end.

Definition REMOVE_ALL_REMEDY : string :=
  "remove that line with `facelock pam remove --service <name>` or by hand, then retry".

Definition remove_all_reference_is_owned (fs : Files) (store : option BackupStore) (service : string) (content : bytes)
    : result bool IoError :=
  match store with
  | None => Ok (has_only_exact_legacy_facelock_rules content)
  | Some st =>
      let? strict_names := strict_record_names_for_service fs (root st) service in
      let? records := validated_records fs st service in
      if negb (length strict_names =? length records)%nat
      then Err (other_error ("corrupt PAM provenance for service " +:+ service))
      else if bool_decide (length records = 0%nat) then Ok (has_only_exact_legacy_facelock_rules content)
      else
        let current := sha256_hex content in
        if existsb (λ r, bool_decide (pr_state (provenance r) = Committed)
                         && String.eqb (pr_installed_sha256 (provenance r)) current) records
        then Ok true
        else if is_service_name service then Ok (has_only_exact_legacy_facelock_rules content)
        else Err (other_error ("PAM service " +:+ service +:+ " no longer matches its Facelock provenance; "
                               +:+ REMOVE_ALL_REMEDY))
  end.

Definition remove_all_name_is_candidate (fs : Files) (store : option BackupStore) (service : string) : result bool IoError :=
  if is_service_name service then Ok true
  else if negb (confined service) then Ok false
  else match store with
       | None => Ok false
       | Some st =>
           let? names := strict_record_names_for_service fs (root st) service in
           Ok (negb (bool_decide (length names = 0%nat)))
       end.

Definition symlink_is_covered_by_later_root (fs : Files) (base service : string) (later_roots : list string)
    : result bool IoError :=
  let? target := read_link fs (join base service) in
  Ok (is_absolute target && existsb (λ r, path_eqb target (join r service)) later_roots).

Definition covered (fs : Files) (base service : string) (later_roots : list string) : bool :=
  match symlink_is_covered_by_later_root fs base service later_roots with Ok b => b | Err _ => false end.

(** The services found so far and what stands in the way of removing from all. *)
Record Found := { found_services : list string; blockers : list string }.

Definition take_service (s : string) (f : Found) : Found :=
  {| found_services := found_services f ++ [s]; blockers := blockers f |}.
Definition block (why : string) (f : Found) : Found :=
  {| found_services := found_services f; blockers := blockers f ++ [why] |}.

(** A regular file of the first directory. *)
Definition judge_service (fs : Files) (store : option BackupStore) (include_intermediates candidate : bool)
    (base service : string) (content : bytes) (id : FileIdentity) (f : Found) : result Found IoError :=
  let has_rule := has_facelock_rule content in
  let t := {| PamService.service := service; path := join base service; origin := Local;
              shadowed := shadowed_vendor fs dirs service Local; identity := Some id; plan := NoChange |} in
  let disposition := classify_vendor_override fs dirs t content id in
  match disposition with
  | DispositionUnchanged => Ok (if has_rule || include_intermediates then take_service service f else f)
  | _ =>
      if negb candidate || negb has_rule then Ok f
      else match remove_all_reference_is_owned fs store service content with
           | Ok true => Ok (take_service service f)
           | Ok false =>
               let source := match disposition with
                             | SourceAbsent vendor => " (configured vendor source " +:+ vendor +:+ " is absent)"
                             | _ => ""
                             end in
               Ok (block (join base service +:+ " is an administrator-managed PAM reference" +:+ source +:+ "; "
                          +:+ REMOVE_ALL_REMEDY) f)
           | Err e => Ok (block (io_text e) f)
           end
  end.

Definition is_loop (e : IoError) : bool := String.eqb (io_text e) (io_text loop_error).

Definition scan_service (fs : Files) (store : option BackupStore) (include_intermediates : bool) (first : bool)
    (base : string) (later_roots : list string) (f : Found) (entry : DirEntry) : result Found IoError :=
  match entry_name entry with
  | None => Ok (block (base +:+ " contains a PAM entry with a non-UTF-8 name") f)
  | Some service =>
      let unmanaged why := Ok (block (join base service +:+ " is unmanaged: " +:+ why) f) in
      let? candidate := remove_all_name_is_candidate fs store service in
      match symlink_metadata fs (join base service) with
      | Err e => if is_not_found e || negb candidate then Ok f else unmanaged (io_text e)
      | Ok m =>
          if bool_decide (file_type m = IsDirectory) then Ok f
          else if negb candidate && (negb first || negb (bool_decide (file_type m = IsRegular))) then Ok f
          else if bool_decide (file_type m = IsSymlink) then
            if covered fs base service later_roots then Ok f else unmanaged "PAM service is a symlink"
          else if negb (bool_decide (file_type m = IsRegular)) then unmanaged "PAM service is not a regular file"
          else
            match open_regular_at fs base service with
            | Err e => if is_not_found e || (is_loop e && covered fs base service later_roots) then Ok f
                       else unmanaged (io_text e)
            | Ok file =>
                match read_open_bounded file MAX_BACKUP_BYTES with
                | Err e => unmanaged (io_text e)
                | Ok content =>
                    if negb first then
                      Ok (if has_facelock_rule content
                          then block (join base service +:+ " is an unmanaged reference outside the writable PAM root") f
                          else f)
                    else
                      let? m := file_metadata file in
                      judge_service fs store include_intermediates candidate base service content
                        (identity_for_bytes m content) f
                end
            end
      end
  end.

Fixpoint scan_all {A} (scan : Found → A → result Found IoError) (f : Found) (l : list A) : result Found IoError :=
  match l with
  | [] => Ok f
  | a :: l => let? f := scan f a in scan_all scan f l
  end.

Definition scan_root (fs : Files) (store : option BackupStore) (include_intermediates first : bool) (base : string)
    (later_roots : list string) (f : Found) : result Found IoError :=
  let unscanned e := Ok (block (base +:+ " could not be scanned: " +:+ io_text e) f) in
  match open_directory_nofollow fs base with
  | Err e => if is_not_found e then Ok f else unscanned e
  | Ok _ =>
      match read_dir fs base with
      | Err e => unscanned e
      | Ok entries => scan_all (scan_service fs store include_intermediates first base later_roots) f entries
      end
  end.

Fixpoint scan_roots (fs : Files) (store : option BackupStore) (include_intermediates first : bool) (roots : list string)
    (f : Found) : result Found IoError :=
  match roots with
  | [] => Ok f
  | base :: roots =>
      let? f := scan_root fs store include_intermediates first base roots f in
      scan_roots fs store include_intermediates false roots f
  end.

Definition remove_all_services_with_store (fs : Files) (store : option BackupStore) (include_intermediates : bool)
    : result (list string) IoError :=
  let? f := scan_roots fs store include_intermediates true (PamFiles.dirs dirs) {| found_services := []; blockers := [] |} in
  if negb (bool_decide (length (blockers f) = 0%nat)) then Err (other_error (String.concat "; " (blockers f)))
  else Ok (dedup [] (merge_sort String.le (found_services f))).

Definition remove_all_services : Io (list string) :=
  store ← open_existing_store (backup_dir dirs);
  observe (λ fs, remove_all_services_with_store fs store true).

Definition remove_all_active_references : Io (list string) :=
  store ← open_existing_store (backup_dir dirs);
  observe (λ fs, remove_all_services_with_store fs store false).

Definition remove_all_services_read_only : Io (list string) :=
  observe (λ fs, let? store := open_existing_read_only fs (backup_dir dirs) in
                 remove_all_services_with_store fs store true).

Record PlannedRemoval := {
  rm_target : Target; rm_installed : bytes; rm_prepared : PreparedBackup; rm_expected : FileIdentity;
  rm_delete_override : bool }.

(** Every target is backed up before the journal that names them all is written. *)
Definition plan_removal (st : BackupStore) (t : Target) : Io PlannedRemoval :=
  rewritten ← lift (match plan t with
                    | Rewrite content => Ok (content, false)
                    | DeleteOverride content => Ok (content, true)
                    | _ => Err (other_error ("remove-all target " +:+ service t +:+ " no longer needs a rewrite"))
                    end);
  let '(content, delete_override) := rewritten in
  match identity t with
  | None => raise (other_error ("remove-all target " +:+ service t +:+ " has no captured identity"))
  | Some expected =>
      let installed := with_facelock_removed content in
      p ← plan_backup st (service t) content installed;
      persist st p content;;
      mret {| rm_target := t; rm_installed := installed; rm_prepared := p; rm_expected := expected;
              rm_delete_override := delete_override |}
  end.

Fixpoint plan_removals (st : BackupStore) (targets : list Target) : Io (list PlannedRemoval) :=
  match targets with
  | [] => mret []
  | t :: targets => p ← plan_removal st t; rest ← plan_removals st targets; mret (p :: rest)
  end.

Definition journal_target (p : PlannedRemoval) : RemoveAllJournalTarget :=
  {| jt_service := service (rm_target p); jt_backup := pb_backup (rm_prepared p); jt_original := rm_expected p;
     jt_installed_sha256 := sha256_hex (rm_installed p); jt_delete_override := Some (rm_delete_override p) |}.

Definition HELD : string := "remove-all publication retained for batch commit".

(** Undoing the batch because of an error, which is reported with what undoing it met. *)
Definition roll_back_for {A} (st : BackupStore) (j : RemoveAllJournal) (name : string) (id : FileIdentity) (e : IoError) : Io A :=
  undone ← catch (rollback_remove_all st dirs j name id);
  match undone with
  | Ok _ => raise (other_error (io_text e))
  | Err u => raise (other_error (io_text e +:+ "; " +:+ io_text u))
  end.

(** Each replacement is held right after the exchange, with its intent and its binding. *)
Definition hold_replacement (st : BackupStore) (j : RemoveAllJournal) (name : string) (id : FileIdentity)
    (p : PlannedRemoval) : Io unit :=
  replaced ← catch (replace_pam_with_intent_hook st (rm_prepared p) (path (rm_target p)) (rm_expected p) (rm_installed p)
                      (raise (io_error Interrupted HELD)));
  match replaced with
  | Err e =>
      if bool_decide (io_kind e = Interrupted) && String.eqb (io_text e) HELD then mret tt
      else if io_ambiguous e then raise e
      else roll_back_for st j name id e
  | Ok _ => raise (other_error "remove-all publication finalized without retained recovery evidence")
  end.

Definition commit_remove_all (st : BackupStore) (j : RemoveAllJournal) (name : string) (encoded : bytes) (id : FileIdentity) : Io unit :=
  remaining ← catch (remove_all_active_references);
  (match remaining with
   | Ok [] => mret tt
   | Ok _ => roll_back_for st j name id (other_error "remove-all final scan still found active references")
   | Err e => roll_back_for st j name id e
   end);;
  targets ← committed_remove_all_targets st (ja_targets j);
  let c := {| co_version := REMOVE_ALL_VERSION; co_operation := ja_operation j; co_journal_sha256 := sha256_hex encoded;
              co_keep_backup := ja_keep_backup j; co_targets := targets |} in
  commit_encoded ← lift (to_vec_pretty encode_commit c);
  if MAX_REMOVE_ALL_JOURNAL_BYTES <? Z.of_nat (length commit_encoded)
  then raise (other_error "remove-all commit exceeds its size limit")
  else
    let commit_name := remove_all_commit_name (ja_operation j) in
    created ← catch (atomic_state_create (root st) commit_name commit_encoded);
    match created with
    | Err e => if io_ambiguous e then raise e else roll_back_for st j name id e
    | Ok commit_identity => finish_committed_remove_all st dirs (Some (j, name, id)) c commit_name commit_identity
    end.

Definition removal_report (keep_backup : bool) (p : PlannedRemoval) : Io ServiceReport :=
  let t := rm_target p in
  kept ← (if keep_backup then report_backup t else mret None);
  mret {| sr_service := service t; sr_path := Some (reported_path t); outcome := Removed; backup := kept;
          shadows := match plan t with DeleteOverride _ => None | _ => shadowed t end |}.

Fixpoint removal_reports (keep_backup : bool) (planned : list PlannedRemoval) : Io (list ServiceReport) :=
  match planned with
  | [] => mret []
  | p :: planned =>
      r ← removal_report keep_backup p; rest ← removal_reports keep_backup planned; mret (r :: rest)
  end.

Definition too_many (services : list string) : bool := (MAX_REMOVE_ALL_TARGETS <? length services)%nat.

Definition named (r : PamRequest) (ss : list string) : PamRequest :=
  {| action := action r; shared_profile_status := shared_profile_status r; services := ss; all := false;
     no_confirm := no_confirm r; allow_sensitive := allow_sensitive r; if_present := if_present r;
     dry_run := dry_run r; keep_backup := keep_backup r; json := json r |}.

(** The batch, once the targets are planned. *)
Definition remove_targets (st : BackupStore) (keep_backup : bool) (targets : list Target) : Io (list ServiceReport) :=
  planned ← plan_removals st targets;
  created ← create_remove_all_journal st keep_backup (map journal_target planned);
  let '(j, name, encoded, id) := created in
  for_each (hold_replacement st j name id) planned;;
  commit_remove_all st j name encoded id;;
  removal_reports keep_backup planned.

Definition store_for_removal : Io (option BackupStore) :=
  found ← open_existing_store (backup_dir dirs);
  match found with
  | Some st => mret (Some st)
  | None =>
      found ← remove_all_services;
      match found with [] => mret None | _ => st ← open_store (backup_dir dirs); mret (Some st) end
  end.

Definition nothing_to_do : result (Z * list ServiceReport) PamError := Ok (WRITE_OK, []).

Definition remove_all_in (build : Build) (term : Terminal) (r : PamRequest)
    : Io (result (Z * list ServiceReport) PamError) :=
  if dry_run r then
    found ← remove_all_services_read_only;
    match found with
    | [] => mret nothing_to_do
    | _ => if too_many found then raise (other_error "remove-all target limit exceeded")
           else write_in build term (named r found)
    end
  else
    store ← store_for_removal;
    match store with
    | None => mret nothing_to_do
    | Some st =>
        transaction st dirs;;
        found ← remove_all_services;
        match found with
        | [] => mret nothing_to_do
        | _ =>
            if too_many found then raise (other_error "remove-all target limit exceeded")
            else
              planned ← observe (λ fs, Ok (plan_writes fs dirs (write_request Remove (named r found))));
              match planned with
              | Err e => mret (Err e)
              | Ok targets => reports ← remove_targets st (keep_backup r) targets; mret (Ok (WRITE_OK, reports))
              end
        end
    end.
End apply.
