(* ===== verification/PamMachine.v ===== *)
(** * PamMachine: a machine to run the PAM editor on

    Concrete instances of what the model leaves open (the digest and the encoding of the state's
    documents) and a small file system, for evaluating commands on concrete inputs. *)

From stdpp Require Import gmap.
From S2P Require Import Prelude Text Config Sealing PamDocument PamFiles PamBackup PamService PamWorld PamState PamStore PamRecovery PamRemoveAll.

(** ** A digest of 32 bytes *)
Definition digest_step (h b : Z) : Z := (h * 1000003 + b + 1) mod (2 ^ 61 - 1).
Definition toy_sha256 : Sha256 :=
  {| sha256 := λ l, let h := fold_left digest_step l 7 in
                    map (λ k, h / 256 ^ (k mod 7) mod 256) (map Z.of_nat (seq 0 32)) |}.

(** ** Documents, one field a line *)
Definition document (fields : list string) : bytes := bytes_of (String.concat (String newline "") fields).
Definition fields_of (b : bytes) : list string := map String.string_of_list_ascii (split_lines b).

Definition of_option {A} (show : A → string) (o : option A) : string :=
  match o with None => "-" | Some a => "+" +:+ show a end.
Definition to_option {A} (parse : string → option A) (s : string) : option (option A) :=
  match s with
  | String "-"%char EmptyString => Some None
  | String "+"%char s => Some <$> parse s
  | _ => None
  end.

Definition to_Z (s : string) : option Z := parse_unsigned (2 ^ 64) s.
Definition of_bool (b : bool) : string := if b then "yes" else "no".
Definition to_bool (s : string) : option bool :=
  if String.eqb s "yes" then Some true else if String.eqb s "no" then Some false else None.

Definition of_role (r : IntentRole) : string :=
  match r with IPrepare => "0" | ICommit => "1" | ICleanup => "2" | IPamReplace => "3" | IPamRemove => "4" | IVendorCreate => "5" end.
Definition to_role (s : string) : option IntentRole :=
  List.find (λ r, String.eqb (of_role r) s) [IPrepare; ICommit; ICleanup; IPamReplace; IPamRemove; IVendorCreate].
Definition of_publication_role (r : PublicationRole) : string :=
  match r with PCommit => "0" | PPamReplace => "1" | PPamRemove => "2" | PVendorCreate => "3" end.
Definition to_publication_role (s : string) : option PublicationRole :=
  List.find (λ r, String.eqb (of_publication_role r) s) [PCommit; PPamReplace; PPamRemove; PVendorCreate].

Definition of_identity (i : FileIdentity) : list string :=
  [show_Z (device i); show_Z (inode i); show_Z (links i); id_sha256 i; show_Z (id_mode i); show_Z (id_uid i); show_Z (id_gid i)].
Definition to_identity (d i l h m u g : string) : option FileIdentity :=
  match to_Z d, to_Z i, to_Z l, to_Z m, to_Z u, to_Z g with
  | Some d, Some i, Some l, Some m, Some u, Some g =>
      Some {| device := d; inode := i; links := l; id_sha256 := h; id_mode := m; id_uid := u; id_gid := g |}
  | _, _, _, _, _, _ => None
  end.

Definition toy_json : Json := {|
  decode_record b :=
    match fields_of b with
    | [v; n; s; service; backup; original; installed] =>
        match to_Z v, to_Z n, to_bool s with
        | Some v, Some n, Some s =>
            Some {| pr_version := v; pr_sequence := n; pr_state := if s then Committed else Prepared; pr_service := service;
                    pr_backup := backup; pr_original_sha256 := original; pr_installed_sha256 := installed |}
        | _, _, _ => None
        end
    | _ => None
    end |}.

Definition toy_state_json : StateJson := {|
  encode_record r :=
    Some (document [show_Z (pr_version r); show_Z (pr_sequence r); of_bool (bool_decide (pr_state r = Committed));
                    pr_service r; pr_backup r; pr_original_sha256 r; pr_installed_sha256 r]);
  encode_intent i :=
    Some (document [show_Z (si_version i); of_role (si_role i); show_Z (si_sequence i); si_service i; si_backup i;
                    si_original_sha256 i; si_installed_sha256 i; of_option id (record_sha256 i);
                    of_option id (replacement_record_sha256 i); of_option show_Z (original_device i);
                    of_option show_Z (original_inode i); of_option show_Z (original_links i);
                    of_option show_Z (original_mode i); of_option show_Z (original_uid i); of_option show_Z (original_gid i)]);
  decode_intent b :=
    match fields_of b with
    | [v; r; n; service; backup; original; installed; rec; repl; dv; ino; ln; md; ui; gi] =>
        match to_Z v, to_role r, to_Z n, to_option Some rec, to_option Some repl, to_option to_Z dv, to_option to_Z ino,
              to_option to_Z ln, to_option to_Z md, to_option to_Z ui, to_option to_Z gi with
        | Some v, Some r, Some n, Some rec, Some repl, Some dv, Some ino, Some ln, Some md, Some ui, Some gi =>
            Some {| si_version := v; si_role := r; si_sequence := n; si_service := service; si_backup := backup;
                    si_original_sha256 := original; si_installed_sha256 := installed; record_sha256 := rec;
                    replacement_record_sha256 := repl; original_device := dv; original_inode := ino;
                    original_links := ln; original_mode := md; original_uid := ui; original_gid := gi |}
        | _, _, _, _, _, _, _, _, _, _, _ => None
        end
    | _ => None
    end;
  encode_binding p :=
    Some (document ([show_Z (b_version p); of_publication_role (b_role p); show_Z (b_sequence p); b_service p; b_backup p;
                     intent_sha256 p] ++ of_identity (binding_identity p)));
  decode_binding b :=
    match fields_of b with
    | [v; r; n; service; backup; intent; dv; ino; ln; h; md; ui; gi] =>
        match to_Z v, to_publication_role r, to_Z n, to_identity dv ino ln h md ui gi with
        | Some v, Some r, Some n, Some id =>
            Some {| b_version := v; b_role := r; b_sequence := n; b_service := service; b_backup := backup;
                    intent_sha256 := intent; b_device := device id; b_inode := inode id; b_links := links id;
                    b_sha256 := id_sha256 id; b_mode := id_mode id; b_uid := id_uid id; b_gid := id_gid id |}
        | _, _, _, _ => None
        end
    | _ => None
    end |}.

(** A target is ten fields: two names, an identity and the flag of an override. *)
Definition of_file (service backup : string) (id : FileIdentity) (delete : option bool) : list string :=
  [service; backup] ++ of_identity id ++ [of_option of_bool delete].

Fixpoint to_committed (l : list string) : option (list RemoveAllCommittedTarget) :=
  match l with
  | [] => Some []
  | s :: b :: dv :: ino :: ln :: h :: md :: ui :: gi :: dl :: l =>
      match to_identity dv ino ln h md ui gi, to_option to_bool dl, to_committed l with
      | Some id, Some dl, Some l =>
          Some ({| ct_service := s; ct_backup := b; ct_installed := id; ct_delete_override := dl |} :: l)
      | _, _, _ => None
      end
  | _ => None
  end.

Fixpoint to_journaled (l : list string) : option (list RemoveAllJournalTarget) :=
  match l with
  | [] => Some []
  | s :: b :: dv :: ino :: ln :: h :: md :: ui :: gi :: dl :: installed :: l =>
      match to_identity dv ino ln h md ui gi, to_option to_bool dl, to_journaled l with
      | Some id, Some dl, Some l =>
          Some ({| jt_service := s; jt_backup := b; jt_original := id; jt_installed_sha256 := installed;
                   jt_delete_override := dl |} :: l)
      | _, _, _ => None
      end
  | _ => None
  end.

Definition toy_remove_all_json : RemoveAllJson := {|
  encode_journal j :=
    Some (document ([show_Z (ja_version j); ja_operation j; of_bool (ja_keep_backup j)]
      ++ List.concat (map (λ t, of_file (jt_service t) (jt_backup t) (jt_original t) (jt_delete_override t)
                                ++ [jt_installed_sha256 t]) (ja_targets j))));
  decode_journal b :=
    match fields_of b with
    | v :: operation :: keep :: targets =>
        match to_Z v, to_bool keep, to_journaled targets with
        | Some v, Some keep, Some targets =>
            Some {| ja_version := v; ja_operation := operation; ja_keep_backup := keep; ja_targets := targets |}
        | _, _, _ => None
        end
    | _ => None
    end;
  encode_commit c :=
    Some (document ([show_Z (co_version c); co_operation c; co_journal_sha256 c; of_bool (co_keep_backup c)]
      ++ List.concat (map (λ t, of_file (ct_service t) (ct_backup t) (ct_installed t) (ct_delete_override t)) (co_targets c))));
  decode_commit b :=
    match fields_of b with
    | v :: operation :: h :: keep :: targets =>
        match to_Z v, to_bool keep, to_committed targets with
        | Some v, Some keep, Some targets =>
            Some {| co_version := v; co_operation := operation; co_journal_sha256 := h; co_keep_backup := keep;
                    co_targets := targets |}
        | _, _, _ => None
        end
    | _ => None
    end |}.

(** ** A machine *)
Definition directory (i mode : Z) : Metadata :=
  {| file_type := IsDirectory; dev := 1; ino := i; nlink := 2; mode := mode; uid := 0; gid := 0; len := 4096 |}.
Definition service_file (i : Z) (content : bytes) : Entry :=
  {| e_type := IsRegular; e_dev := 1; e_ino := i; e_links := 1; e_mode := 33188; e_uid := 0; e_gid := 0; e_bytes := content |}.

Definition toy_root : string := "/var/lib/facelock/pam-backups".

Fixpoint with_services (i : Z) (services : list (string * bytes)) : gmap Name Entry :=
  match services with
  | [] => ∅
  | (s, content) :: services => <[(PAM_DIR, s) := service_file i content]> (with_services (i + 1) services)
  end.

Definition toy_world (services : list (string * bytes)) : World := {|
  entries := with_services 10 services;
  directories_of := <[PAM_DIR := directory 2 16877]> (<[toy_root := directory 3 16832]> ∅);
  next_ino := 1000; clock := 1700000000000000000; user := (0, 0); umask := 18; process_id := 42;
  ours := []; removed := [] |}.

Definition toy_dirs : PamDirs := {| dirs := [PAM_DIR]; backup_dir := toy_root; pam_auth_update := None |}.
Definition toy_store : BackupStore := {| root := toy_root; expected_owner := (0, 0) |}.

Definition quiet_request (a : PamAction) (services : list string) (everything : bool) : PamRequest :=
  {| action := a; shared_profile_status := false; services := services; all := everything; no_confirm := true;
     allow_sensitive := false; if_present := false; dry_run := false; keep_backup := true; json := false |}.

Definition stopped : Event := {| before := id; killed := true; answers := id; failure := None |}.

(** A run that is stopped before its [n]th step. *)
Definition killed_at (n : nat) : list Event := repeat calm n ++ [stopped].
