(* ===== verification/PamLogic.v ===== *)
(** * PamLogic: reasoning about runs of the PAM editor

    Rules for invariants of the file system that a run keeps at every step, whatever fails and
    wherever the process is killed, and the specifications of the calls that create files. *)

From stdpp Require Import gmap.
From S2P Require Import Prelude Text Sealing PamDocument PamFiles PamBackup PamService PamWorld PamState.

(** The names in [P] and what happened to them are the same in both worlds. *)
Record agree (P : Name → Prop) (w w' : World) : Prop := {
  agree_user : user w' = user w;
  agree_entries k : P k → entries w' !! k = entries w !! k;
  agree_directories : directories_of w' = directories_of w;
  agree_removed : ∃ l, removed w' = removed w ++ l ∧ Forall (λ x, ¬ P x.1) l;
  agree_ours : ∃ l, ours w' = l ++ ours w }.

Lemma agree_refl P w : agree P w w.
Proof. split; try done; [exists []; by rewrite app_nil_r|by exists []]. Qed.

Lemma agree_trans P w1 w2 w3 : agree P w1 w2 → agree P w2 w3 → agree P w1 w3.
Proof.
  intros [U1 E1 D1 (l1 & R1 & F1) (o1 & O1)] [U2 E2 D2 (l2 & R2 & F2) (o2 & O2)]. split.
  - congruence.
  - intros k Hk. by rewrite E2, E1.
  - congruence.
  - exists (l1 ++ l2). rewrite R2, R1, app_assoc. split; [done|]. by apply Forall_app.
  - exists (o2 ++ o1). by rewrite O2, O1, app_assoc.
Qed.

Lemma agree_insert (P : Name → Prop) w k e : ¬ P k → agree P w (with_entries (<[k := e]> (entries w)) w).
Proof.
  intros Hk. split; try done; cbn.
  - intros k' Hk'. rewrite lookup_insert_ne; [done|]. by intros ->.
  - exists []. by rewrite app_nil_r.
  - by exists [].
Qed.

(** Only the clock and the inode numbers move between two steps. *)
Record quiet (w w' : World) : Prop := {
  quiet_entries : entries w' = entries w;
  quiet_directories : directories_of w' = directories_of w;
  quiet_user : user w' = user w;
  quiet_removed : removed w' = removed w;
  quiet_ours : ours w' = ours w }.

#[export] Instance quiet_reflexive : Reflexive quiet.
Proof. intros w. by split. Qed.

Section keeps.
Context (rely : World → World → Prop) `{!Reflexive rely}.

(** [J] is about the names in [P], and the other processes do not disturb it. *)
Record about (P : Name → Prop) (J : World → Prop) : Prop := {
  about_rely w w' : J w → rely w w' → J w';
  about_agree w w' : J w → agree P w w' → J w' }.

Definition keeps {A} (J : World → Prop) (c : Io A) (R : result A IoError → Prop) : Prop :=
  triple rely J c (λ r w, J w ∧ R r) J.

Definition any {A} : result A IoError → Prop := λ _, True.

Section rules.
Context (P : Name → Prop) (J : World → Prop) (HJ : about P J).

Lemma keeps_weaken {A} (c : Io A) R R' : keeps J c R' → (∀ r, R' r → R r) → keeps J c R.
Proof. intros Hc HR. eapply triple_conseq; [exact Hc|done| |done]. cbn. intros r w [? ?]. eauto. Qed.

Lemma keeps_ret {A} (a : A) (R : result A IoError → Prop) : R (Ok a) → keeps J (mret a) R.
Proof. intros HR. apply triple_ret. done. Qed.

Lemma keeps_lift {A} (r : result A IoError) (R : result A IoError → Prop) : R r → keeps J (lift r) R.
Proof. intros HR. apply triple_lift. done. Qed.

Lemma keeps_raise {A} e (R : result A IoError → Prop) : R (Err e) → keeps J (raise e) R.
Proof. intros HR. apply triple_raise. done. Qed.

Lemma keeps_bind {A B} (c : Io A) (k : A → Io B) R1 (R : result B IoError → Prop) :
  keeps J c R1 → (∀ a, R1 (Ok a) → keeps J (k a) R) → (∀ e, R1 (Err e) → R (Err e)) → keeps J (c ≫= k) R.
Proof.
  intros Hc Hk He. eapply triple_bind; [exact Hc| |].
  - intros a w [Hw HR] s Hs. by apply (Hk a HR w Hw s Hs).
  - intros e w [Hw HR]. split; [done|by apply He].
Qed.

Lemma keeps_then {A B} (c : Io A) (k : A → Io B) :
  keeps J c any → (∀ a, keeps J (k a) any) → keeps J (c ≫= k) any.
Proof. intros Hc Hk. eapply keeps_bind; eauto. Qed.

Lemma keeps_catch {A} (c : Io A) R :
  keeps J c R → keeps J (catch c) (λ r, match r with Ok r => R r | Err _ => False end).
Proof. intros Hc. by apply triple_catch. Qed.

Lemma keeps_catch_any {A} (c : Io A) : keeps J c any → keeps J (catch c) any.
Proof. intros Hc. eapply keeps_weaken; [by apply keeps_catch|done]. Qed.

Lemma keeps_catch_then {A B} (c : Io A) (k : result A IoError → Io B) :
  keeps J c any → (∀ r, keeps J (k r) any) → keeps J (catch c ≫= k) any.
Proof. intros Hc Hk. eapply keeps_bind; [by apply keeps_catch|auto|done]. Qed.

Lemma keeps_ignore {A} (c : Io A) : keeps J c any → keeps J (ignore c) (λ r, r = Ok tt).
Proof.
  intros Hc. unfold ignore. eapply keeps_bind; [by apply keeps_catch| |done].
  intros. by apply keeps_ret.
Qed.

Lemma keeps_map_error {A} (f : IoError → IoError) (c : Io A) R :
  keeps J c R → keeps J (map_error f c)
    (λ r, match r with Ok a => R (Ok a) | Err e => ∃ e', R (Err e') ∧ e = f e' end).
Proof.
  intros Hc. unfold map_error. eapply keeps_bind; [by apply keeps_catch| |done].
  intros [a|e] HR; apply keeps_lift; [done|by exists e].
Qed.

Lemma keeps_ignore_any {A} (c : Io A) : keeps J c any → keeps J (ignore c) any.
Proof. intros Hc. eapply keeps_weaken; [by apply keeps_ignore|done]. Qed.

Lemma keeps_map_error_any {A} (f : IoError → IoError) (c : Io A) : keeps J c any → keeps J (map_error f c) any.
Proof. intros Hc. eapply keeps_weaken; [by apply keeps_map_error|done]. Qed.

Lemma keeps_look {A} (f : World → A) (R : result A IoError → Prop) : (∀ a, R (Ok a)) → keeps J (look f) R.
Proof. intros HR w Hw s Hs. split; [by split|done]. Qed.

Lemma keeps_observe {A} (f : Files → result A IoError) (R : result A IoError → Prop) :
  (∀ w fs, J w → honest (files_of w) fs → R (f fs)) → keeps J (observe f) R.
Proof using HJ Reflexive0.
  intros HR. apply triple_observe; [done| |].
  - intros w w' Hw Hr. by eapply about_rely.
  - intros w w' fs Hw Hr Hfs. assert (J w') by (by eapply about_rely). eauto.
Qed.

Lemma keeps_observe_any {A} (f : Files → result A IoError) : keeps J (observe f) any.
Proof using HJ Reflexive0. by apply keeps_observe. Qed.

Lemma keeps_change {A} (f : World → result A IoError * World) (R : result A IoError → Prop) :
  (∀ e, io_ambiguous e = false → R (Err e)) →
  (∀ w, J w → let '(r, w') := f w in J w' ∧ R r) → keeps J (change f) R.
Proof using HJ Reflexive0.
  intros He Hf. apply triple_change; [done| | |].
  - intros w w' Hw Hr. by eapply about_rely.
  - intros w w' e Hw Hr Ha. split; [by eapply about_rely|auto].
  - intros w w' Hw Hr. apply Hf. by eapply about_rely.
Qed.

(** *** Calls *)
Lemma keeps_change_outside {A} (f : World → result A IoError * World) :
  (∀ w, agree P w (f w).2) → keeps J (change f) any.
Proof using HJ Reflexive0.
  intros Hf. apply keeps_change; [done|]. intros w Hw. specialize (Hf w). destruct (f w) as [r w']. split; [|done].
  by eapply about_agree.
Qed.

Lemma keeps_sync_all : keeps J sync_all any.
Proof using HJ Reflexive0. apply keeps_change_outside. intros w. apply agree_refl. Qed.

Lemma keeps_flock : keeps J flock any.
Proof using HJ Reflexive0. apply keeps_change_outside. intros w. apply agree_refl. Qed.

Lemma keeps_check_name n : keeps J (check_name n) any.
Proof. unfold check_name. destruct (str_has_char nul n); [by apply keeps_raise|by apply keeps_ret]. Qed.

Lemma keeps_unlinkat d n : ¬ P (d, n) → keeps J (unlinkat d n) any.
Proof using HJ Reflexive0.
  intros Hn. apply keeps_change_outside. intros w. destruct (entries w !! (d, n)) as [e|]; [|apply agree_refl].
  case_bool_decide; [apply agree_refl|]. split; cbn; try done.
  - intros k Hk. rewrite lookup_delete_ne; [done|]. by intros <-.
  - exists [((d, n), e)]. split; [done|]. by constructor.
  - by exists [].
Qed.

Lemma keeps_rename_noreplace d a b : ¬ P (d, a) → ¬ P (d, b) → keeps J (rename_noreplace d a b) any.
Proof using HJ Reflexive0.
  intros Ha Hb. apply keeps_change_outside. intros w. destruct (entries w !! (d, a)) as [e|]; [|apply agree_refl].
  destruct (entries w !! (d, b)); [apply agree_refl|]. split; cbn; try done.
  - intros k Hk. rewrite lookup_insert_ne, lookup_delete_ne; [done| |]; by intros <-.
  - exists []. by rewrite app_nil_r.
  - by exists [].
Qed.

Lemma keeps_rename_exchange d a b : ¬ P (d, a) → ¬ P (d, b) → keeps J (rename_exchange d a b) any.
Proof using HJ Reflexive0.
  intros Ha Hb. apply keeps_change_outside. intros w. destruct (entries w !! (d, a)) as [e|]; [|apply agree_refl].
  destruct (entries w !! (d, b)); [|apply agree_refl]. split; cbn; try done.
  - intros k Hk. rewrite !lookup_insert_ne; [done| |]; by intros <-.
  - exists []. by rewrite app_nil_r.
  - by exists [].
Qed.

Lemma agree_update h f w : ¬ P (h_dir h, h_name h) → agree P w (update h f w).
Proof.
  intros Hh. unfold update. destruct (behind w h); [by apply agree_insert|apply agree_refl].
Qed.

Lemma keeps_create_excl d n m : ¬ P (d, n) →
  keeps J (create_excl d n m) (λ r, match r with Ok h => h_dir h = d ∧ h_name h = n | Err _ => True end).
Proof using HJ Reflexive0.
  intros Hn. apply keeps_change; [done|]. intros w Hw.
  destruct (directories_of w !! d); [|done]. destruct (entries w !! (d, n)) eqn:E; [done|]. split; [|done].
  eapply about_agree; [done|done|]. split; cbn; try done.
  - intros k Hk. rewrite lookup_insert_ne; [done|]. by intros <-.
  - exists []. by rewrite app_nil_r.
  - by eexists [_].
Qed.

Lemma keeps_write_all h b : ¬ P (h_dir h, h_name h) → keeps J (write_all h b) any.
Proof using HJ Reflexive0.
  intros Hh. apply triple_step; [done| |].
  - intros w w' Hw Hr. by eapply about_rely.
  - intros e w w' He Hw Hr. assert (J w') by (by eapply about_rely).
    destruct (failure e) as [[err n]|]; (split; [|done]); eapply about_agree; eauto; by apply agree_update.
Qed.

Lemma keeps_fchown h u g : ¬ P (h_dir h, h_name h) → keeps J (fchown h u g) any.
Proof using HJ Reflexive0. intros Hh. apply keeps_change_outside. intros w. by apply agree_update. Qed.

Lemma keeps_fchmod h m : ¬ P (h_dir h, h_name h) → keeps J (fchmod h m) any.
Proof using HJ Reflexive0. intros Hh. apply keeps_change_outside. intros w. by apply agree_update. Qed.
End rules.
End keeps.

Arguments keeps {rely} {A} J c R.

Lemma triple_pre {rely A} (P P' : World → Prop) (c : Io A) Q K :
  (∀ w, P w → P' w) → triple rely P' c Q K → triple rely P c Q K.
Proof. intros HP Hc. by eapply triple_conseq. Qed.

(** A step that keeps an assertion, in front of one that uses it. *)
Lemma triple_keeps {rely A B} (J : World → Prop) (c : Io A) (k : A → Io B) R Q (K : World → Prop) :
  keeps (rely:=rely) J c R → (∀ w, J w → K w) → (∀ e w, J w → R (Err e) → Q (Err e) w) →
  (∀ a, R (Ok a) → triple rely J (k a) Q K) → triple rely J (c ≫= k) Q K.
Proof.
  intros Hc HK He Hk. eapply triple_bind; [eapply triple_conseq; [exact Hc|done|intros r w H; exact H|exact HK]| |].
  - intros a w [Hw HR]. by apply Hk.
  - intros e w [Hw HR]. by apply He.
Qed.

Lemma triple_catch_bind {rely A B} (P : World → Prop) (c : Io A) (k : result A IoError → Io B) N Q (K : World → Prop) :
  triple rely P c N K → (∀ r, triple rely (N r) (k r) Q K) → triple rely P (catch c ≫= k) Q K.
Proof.
  intros Hc Hk. eapply triple_bind with (M := λ r w, match r with Ok r => N r w | Err _ => False end).
  - by apply triple_catch.
  - exact Hk.
  - done.
Qed.

(** ** Walking through a program *)
Ltac keep_call := fail.

Ltac keep_side := first [eassumption | typeclasses eauto].

Ltac keep_step :=
  match goal with
  | |- keeps _ (mret _) any => apply keeps_ret; exact I
  | |- keeps _ (raise _) any => apply keeps_raise; exact I
  | |- keeps _ (lift _) any => apply keeps_lift; exact I
  | |- keeps _ (look _) any => apply keeps_look; done
  | |- keeps _ (check_name _) any => apply keeps_check_name
  | |- keeps _ (observe _) any => eapply keeps_observe_any; keep_side
  | |- keeps _ sync_all any => eapply keeps_sync_all; keep_side
  | |- keeps _ flock any => eapply keeps_flock; keep_side
  | |- keeps _ (catch _ ≫= _) any => apply keeps_catch_then; [|intros ?]
  | |- keeps _ (catch _) any => apply keeps_catch_any
  | |- keeps _ (ignore _) any => apply keeps_ignore_any
  | |- keeps _ (map_error _ _) any => apply keeps_map_error_any
  | |- keeps _ (_ ≫= _) any => apply keeps_then; [|intros ?]
  | |- keeps _ (unlinkat _ _) any => eapply keeps_unlinkat; try keep_side
  | |- keeps _ (rename_noreplace _ _ _) any => eapply keeps_rename_noreplace; try keep_side
  | |- keeps _ (rename_exchange _ _ _) any => eapply keeps_rename_exchange; try keep_side
  | |- keeps _ (write_all _ _) any => eapply keeps_write_all; try keep_side
  | |- keeps _ (fchown _ _ _) any => eapply keeps_fchown; try keep_side
  | |- keeps _ (fchmod _ _) any => eapply keeps_fchmod; try keep_side
  | |- keeps _ (match ?x with _ => _ end) any => destruct x
  | |- keeps _ (let '_ := ?x in _) any => destruct x
  end.

Ltac keep := repeat (keep_step || keep_call).


Lemma mode_type_chown m : Z.land (Z.land m (Z.lnot 3072)) 61440 = Z.land m 61440.
Proof. rewrite <- Z.land_assoc. by replace (Z.land (Z.lnot 3072) 61440) with 61440. Qed.

Lemma mode_type_chmod m p : Z.land (Z.lor (Z.land m 61440) (Z.land p 4095)) 61440 = Z.land m 61440.
Proof.
  rewrite Z.land_lor_distr_l, <- !Z.land_assoc.
  replace (Z.land 4095 61440) with 0 by done. rewrite Z.land_0_r, Z.lor_0_r. by rewrite Z.land_diag.
Qed.

Lemma mode_bits_chmod m p : Z.land (Z.lor (Z.land m 61440) (Z.land p 4095)) 4095 = Z.land p 4095.
Proof.
  rewrite Z.land_lor_distr_l, <- !Z.land_assoc.
  replace (Z.land 61440 4095) with 0 by done. by rewrite Z.land_0_r, Z.lor_0_l, Z.land_diag.
Qed.

Lemma mode_type_created m u : Z.land (Z.lor S_IFREG (Z.land (Z.land m 4095) u)) 61440 = S_IFREG.
Proof.
  rewrite Z.land_lor_distr_l. replace (Z.land S_IFREG 61440) with S_IFREG by done.
  rewrite (Z.land_comm m), <- !Z.land_assoc, (Z.land_comm 4095), <- !Z.land_assoc.
  replace (Z.land 4095 61440) with 0 by done. by rewrite !Z.land_0_r, Z.lor_0_r.
Qed.
