(* ===== verification/PamStateProofs.v ===== *)
(** * PamStateProofs: what the primitives of the rollback state do

    State files appear under their name complete or not at all; a service is the old file or the
    new one at every step of its replacement. *)

From stdpp Require Import gmap.
From S2P Require Import Prelude Text Sealing PamDocument PamFiles PamBackup PamService PamWorld PamState PamLogic.

Definition plain_file (e : Entry) : Prop :=
  e_type e = IsRegular ∧ e_links e = 1 ∧ Z.land (e_mode e) S_IFMT = S_IFREG.

Definition held (h : Handle) (F : Entry → Prop) (w : World) : Prop :=
  ∃ e, entries w !! (h_dir h, h_name h) = Some e ∧ e_ino e = h_ino h ∧ F e.

Lemma plain_chmod m e : plain_file e → plain_file (set_mode (Z.lor (Z.land (e_mode e) 61440) (Z.land m 4095)) e).
Proof. intros (? & ? & Hm). split_and!; try done. cbn. by rewrite mode_type_chmod. Qed.

Lemma plain_chown u g e : plain_file e → plain_file (set_owner u g (set_mode (Z.land (e_mode e) (Z.lnot 3072)) e)).
Proof. intros (? & ? & Hm). split_and!; try done. cbn -[Z.land]. by rewrite mode_type_chown. Qed.

Lemma held_update h f w (F F' : Entry → Prop) :
  held h F w → (∀ e, F e → e_ino (f e) = e_ino e ∧ F' (f e)) → held h F' (update h f w).
Proof.
  intros (e & He & Hi & HF) Hf. destruct (Hf e HF) as [Hi' HF'].
  unfold update, behind. rewrite He, Hi, Z.eqb_refl. exists (f e). cbn. rewrite lookup_insert, decide_True by done.
  split; [done|]. split; [congruence|done].
Qed.

(** ** What reads tell *)
Section reads.
Context `{Sha256}.

Lemma read_honest e f limit content : honest_file (opened e) f → read_open_bounded f limit = Ok content → content = e_bytes e.
Proof.
  intros [Hm Hb] Hr. unfold read_open_bounded in Hr. destruct (file_metadata f); [|done].
  destruct (limit <? len a); [done|]. cbn in Hb. destruct (file_bytes f); [|done].
  destruct (limit <? Z.of_nat (length a0)); [done|]. cbn in Hb. congruence.
Qed.

Lemma metadata_honest e f m : honest_file (opened e) f → file_metadata f = Ok m → m = fstat e.
Proof. intros [Hm _] E. rewrite E in Hm. symmetry. exact Hm. Qed.

Lemma identity_honest e f limit id : honest_file (opened e) f → identity_of_open_bounded f limit = Ok id →
  id = identity_for_bytes (fstat e) (e_bytes e).
Proof.
  intros Hf Hi. unfold identity_of_open_bounded in Hi. destruct (file_metadata f) as [m|] eqn:Em; [|done].
  destruct (read_open_bounded f limit) as [c|] eqn:Er; [|done]. injection Hi as <-.
  by rewrite (metadata_honest e f m), (read_honest e f limit c).
Qed.

(** A regular file with one name was opened there, or a failure says nothing about the name. *)
Lemma open_regular_honest w fs d n : honest (files_of w) fs →
  match open_regular_at fs d n with
  | Ok f => ∃ e, entries w !! (d, n) = Some e ∧ e_type e = IsRegular ∧ e_links e = 1 ∧ honest_file (opened e) f
  | Err err => io_ambiguous err = false ∧ (is_not_found err = true → entries w !! (d, n) = None)
  end.
Proof.
  intros Hfs. unfold open_regular_at. destruct (str_has_char nul n); [done|].
  pose proof (honest_open_at _ _ Hfs d n) as Ha. cbn [files_of open_at] in Ha.
  destruct (entries w !! (d, n)) as [e|] eqn:E.
  - destruct (open_at fs d n) as [f|err].
    + destruct (bool_decide (e_type e = IsSymlink)); [done|]. cbn [honest_result] in Ha.
      destruct (file_metadata f) as [m|err] eqn:Em.
      * assert (m = fstat e) as -> by (by eapply metadata_honest). cbn [fstat file_type nlink].
        case_bool_decide as Ht; cbn [negb]; [|done]. destruct (Z.eqb_spec (e_links e) 1); cbn [negb]; [|done]. by exists e.
      * destruct Ha as [Hm _]. rewrite Em in Hm. destruct Hm as [Hm ?]. by rewrite Hm.
    + case_bool_decide; cbn in Ha; [destruct Ha as [->|[Ha ?]]|destruct Ha as [Ha ?]]; try done; by rewrite Ha.
  - destruct (open_at fs d n) as [f|err]; cbn in Ha; [done|]. split; [|done].
    by destruct Ha as [->|[_ ?]].
Qed.

Lemma identity_at_honest w fs d n limit id : honest (files_of w) fs → identity_at_bounded fs d n limit = Ok id →
  ∃ e, entries w !! (d, n) = Some e ∧ e_type e = IsRegular ∧ e_links e = 1 ∧
       id = identity_for_bytes (fstat e) (e_bytes e).
Proof.
  intros Hfs Hi. unfold identity_at_bounded in Hi. pose proof (open_regular_honest w fs d n Hfs) as Ho.
  destruct (open_regular_at fs d n) as [f|]; [|done]. destruct Ho as (e & ? & ? & ? & ?).
  exists e. split_and!; try done. by eapply identity_honest.
Qed.
End reads.

(** A fact about a value, beside an assertion on the world. *)
Lemma triple_assume {rely A} (P : World → Prop) (F : Prop) (c : Io A) Q K :
  (F → triple rely P c Q K) → triple rely (λ w, P w ∧ F) c Q K.
Proof. intros Hc w [Hw HF]. by apply Hc. Qed.

Lemma triple_fact {rely A} (F : Prop) (P : World → Prop) (c : Io A) Q K :
  (F → triple rely P c Q K) → triple rely (λ w, F ∧ P w) c Q K.
Proof. intros Hc w [HF Hw]. by apply Hc. Qed.

Section created.
Context (rely : World → World → Prop) `{!Reflexive rely}.
Context (P : Name → Prop) (J : World → Prop) (HJ : about rely P J).
Context (h : Handle) (Hh : ¬ P (h_dir h, h_name h))
        (Hstill : ∀ w w', rely w w' → entries w' !! (h_dir h, h_name h) = entries w !! (h_dir h, h_name h)).

Definition with_held (F : Entry → Prop) (w : World) : Prop := J w ∧ held h F w.

Lemma about_held F : about rely (λ k, P k ∨ k = (h_dir h, h_name h)) (with_held F).
Proof using HJ Hstill.
  split.
  - intros w w' [Hw (e & He & ?)] Hr. split; [by eapply about_rely|]. exists e. by rewrite (Hstill w w').
  - intros w w' [Hw (e & He & ?)] [U E D (l & R & F1) O]. split.
    + eapply about_agree; [done|done|]. split; auto. exists l. split; [done|].
      eapply Forall_impl; [exact F1|]. cbn. tauto.
    + exists e. rewrite (E (h_dir h, h_name h)) by auto. done.
Qed.

Lemma with_held_weaken (F F' : Entry → Prop) w : (∀ e, F e → F' e) → with_held F w → with_held F' w.
Proof. intros HF [Hw (e & ? & ? & ?)]. split; [done|]. exists e. auto. Qed.

Lemma update_held f (F F' : Entry → Prop) w :
  with_held F w → (∀ e, F e → e_ino (f e) = e_ino e ∧ F' (f e)) → with_held F' (update h f w).
Proof using HJ Hh.
  intros [Hw Hheld] Hf. split; [|by eapply held_update].
  eapply about_agree; [done|done|]. by eapply agree_update.
Qed.

Lemma change_held f (F F' : Entry → Prop) :
  (∀ e, F e → e_ino (f e) = e_ino e ∧ F' (f e)) →
  triple rely (with_held F) (change (λ w, (Ok tt, update h f w)))
    (λ r, with_held (match r with Ok _ => F' | Err _ => F end)) J.
Proof using HJ Hh Hstill Reflexive0.
  intros Hf. pose proof (about_held F) as HF. apply triple_change; [done| | |].
  - intros w w' Hw Hr. by eapply (about_rely _ _ _ HF) in Hr as [? _].
  - intros w w' err Hw Hr _. by eapply about_rely.
  - intros w w' Hw Hr. eapply update_held; [|done]. by eapply about_rely.
Qed.

Lemma write_held b e :
  triple rely (with_held (eq e)) (write_all h b)
    (λ r, with_held (match r with Ok _ => eq (set_bytes b e) | Err _ => λ e', ∃ n, e' = set_bytes (take n b) e end)) J.
Proof using HJ Hh Hstill Reflexive0.
  pose proof (about_held (eq e)) as HF. apply triple_step; [done| |].
  - intros w w' Hw Hr. by eapply (about_rely _ _ _ HF) in Hr as [? _].
  - intros ev w w' Hev Hw Hr. assert (with_held (eq e) w') as Hw' by (by eapply about_rely).
    destruct (failure ev) as [[err n]|]; (eapply update_held; [exact Hw'|]); intros e' <-; (split; [done|]); eauto.
Qed.

(** Reading through the handle answers for the file it holds. *)
Lemma file_of_held (F : Entry → Prop) :
  keeps (rely:=rely) (with_held F) (file_of h)
    (λ r, match r with Ok f => ∃ e, F e ∧ honest_file (opened e) f | Err e => io_ambiguous e = false end).
Proof using HJ Hstill Reflexive0.
  eapply keeps_observe; [done|apply about_held|]. intros w fs [_ (e & He & Hi & HF)] Hfs.
  pose proof (honest_open_at _ _ Hfs (h_dir h) (h_name h)) as Ha. cbn [files_of open_at] in Ha. rewrite He in Ha.
  case_bool_decide; destruct (open_at fs (h_dir h) (h_name h)) as [f|err]; cbn in Ha; try done.
  - destruct Ha as [->|[_ ?]]; done.
  - destruct Ha as [Hm Hb]. destruct (file_metadata f) as [m|err] eqn:Em.
    + cbn in Hm. subst m. cbn. rewrite Hi, Z.eqb_refl. exists e. split; [done|]. split; [by rewrite Em|done].
    + exists e. split; [done|]. split; [by rewrite Em|done].
  - by destruct Ha.
Qed.

Definition filled (b : bytes) (e : Entry) : Prop := plain_file e ∧ e_bytes e = b.

Definition attributed (b : bytes) (u g m : Z) (e : Entry) : Prop :=
  filled b e ∧ e_uid e = u ∧ e_gid e = g ∧ Z.land (e_mode e) 4095 = Z.land m 4095.

Lemma triple_held {A} (F : Entry → Prop) (c : Io A) Q K :
  (∀ e, F e → triple rely (with_held (eq e)) c Q K) → triple rely (with_held F) c Q K.
Proof.
  intros Hc w [Hw (e & He & Hi & HF)]. apply (Hc e HF). split; [done|]. by exists e.
Qed.

Lemma fchmod_held m e : plain_file e →
  triple rely (with_held (eq e)) (fchmod h m)
    (λ r, with_held (match r with
                     | Ok _ => λ e', plain_file e' ∧ e_bytes e' = e_bytes e ∧ e_uid e' = e_uid e ∧ e_gid e' = e_gid e ∧
                                     Z.land (e_mode e') 4095 = Z.land m 4095
                     | Err _ => eq e end)) J.
Proof using HJ Hh Hstill Reflexive0.
  intros He. refine (change_held _ _ _ _). intros e' <-. split; [done|].
  split_and!; try done; [by apply plain_chmod|apply mode_bits_chmod].
Qed.

Lemma fchown_held u g e : plain_file e →
  triple rely (with_held (eq e)) (fchown h u g)
    (λ r, with_held (match r with
                     | Ok _ => λ e', plain_file e' ∧ e_bytes e' = e_bytes e ∧ e_uid e' = u ∧ e_gid e' = g
                     | Err _ => eq e end)) J.
Proof using HJ Hh Hstill Reflexive0.
  intros He. refine (change_held _ _ _ _). intros e' <-. split; [done|]. split_and!; try done. by apply plain_chown.
Qed.

Lemma metadata_held (e : Entry) :
  keeps (rely:=rely) (with_held (eq e)) (metadata_of h)
    (λ r, match r with Ok m => m = fstat e | Err _ => True end).
Proof using HJ Hstill Reflexive0.
  eapply keeps_bind; [apply file_of_held| |done].
  intros f (e' & <- & Hm & _). apply keeps_lift. destruct (file_metadata f); [symmetry; exact Hm|done].
Qed.

Lemma apply_owner_then_mode_held b u g m :
  triple rely (with_held (filled b)) (apply_owner_then_mode h u g m)
    (λ r, with_held (match r with Ok _ => attributed b u g m | Err _ => filled b end)) J.
Proof using HJ Hh Hstill Reflexive0.
  apply triple_held. intros e He.
  destruct He as [Hp Hb]. eapply triple_bind.
  { eapply triple_conseq; [apply (metadata_held e)|done| |by intros w [? _]]. intros r w H. exact H. }
  2:{ intros err w [Hw _]. eapply with_held_weaken; [|exact Hw]. by intros ? <-. }
  intros current. cbn beta.
  apply triple_assume. intros ->. eapply triple_bind with (M := λ r, with_held (match r with
    | Ok _ => λ e', filled b e' ∧ e_uid e' = u ∧ e_gid e' = g | Err _ => filled b end)); [| |done].
  - case_bool_decide as Ho; cbn in Ho.
    + apply triple_ret. intros w. apply with_held_weaken. intros ? <-. unfold filled. injection Ho as -> ->. done.
    + eapply triple_conseq; [by apply fchown_held|done| |done]. intros [[]|err] w; apply with_held_weaken.
      * intros e' (? & ? & ? & ?). unfold filled. by subst.
      * by intros ? <-.
  - intros _. apply triple_held. intros e' [[Hp' Hb'] [Hu Hg]].
    eapply triple_conseq; [by apply fchmod_held|done| |done]. intros [[]|err] w; apply with_held_weaken.
    + intros e'' (? & ? & ? & ? & ?). unfold attributed, filled. split_and!; congruence || done.
    + by intros ? <-.
Qed.


Section identities.
Context `{Sha256}.

Lemma identity_of_handle_held (F : Entry → Prop) :
  keeps (rely:=rely) (with_held F) (identity_of_handle h)
    (λ r, match r with Ok id => ∃ e, F e ∧ id = identity_for_bytes (fstat e) (e_bytes e) | Err e => True end).
Proof using HJ Hstill Reflexive0.
  unfold identity_of_handle. eapply keeps_bind; [apply file_of_held| |done].
  intros f (e & HF & Hf). apply keeps_lift. destruct (identity_of_open f) as [id|] eqn:E; [|done].
  exists e. split; [done|]. by eapply identity_honest.
Qed.
End identities.
End created.

(** ** Composite steps that keep an invariant about other names *)
Section composite.
Context (rely : World → World → Prop) `{!Reflexive rely} `{Sha256}.
Context (P : Name → Prop) (J : World → Prop) (HJ : about rely P J).

Lemma keeps_rename_noreplace_at d a b : ¬ P (d, a) → ¬ P (d, b) → keeps (rely:=rely) J (rename_noreplace_at d a b) any.
Proof using HJ Reflexive0. intros. unfold rename_noreplace_at. keep; done. Qed.

Lemma keeps_rename_exchange_at d a b : ¬ P (d, a) → ¬ P (d, b) → keeps (rely:=rely) J (rename_exchange_at d a b) any.
Proof using HJ Reflexive0. intros. unfold rename_exchange_at. keep; done. Qed.

Lemma keeps_unlink_at d n id limit : ¬ P (d, n) →
  keeps (rely:=rely) J (unlink_at_if_identity_matches d n id limit) any.
Proof using HJ Reflexive0. intros. unfold unlink_at_if_identity_matches. keep; done. Qed.

Lemma keeps_unlink_state root n id : ¬ P (root, n) →
  keeps (rely:=rely) J (unlink_state_if_identity_matches root n id) any.
Proof using HJ Reflexive0.
  intros. unfold unlink_state_if_identity_matches. keep. by apply keeps_unlink_at.
Qed.

Lemma keeps_cleanup_temp_at d n id limit msg : ¬ P (d, n) →
  keeps (rely:=rely) J (cleanup_unpublished_temp_at d n id limit msg) any.
Proof using HJ Reflexive0. intros. unfold cleanup_unpublished_temp_at. keep. by apply keeps_unlink_at. Qed.

Lemma keeps_cleanup_temp d n id limit msg : ¬ P (d, n) →
  keeps (rely:=rely) J (cleanup_unpublished_temp d n id limit msg) any.
Proof using HJ Reflexive0. intros. unfold cleanup_unpublished_temp. keep. by apply keeps_cleanup_temp_at. Qed.

Lemma keeps_discard root n id : ¬ P (root, n) → keeps (rely:=rely) J (discard_state_temp root n id) any.
Proof using HJ Reflexive0. intros. unfold discard_state_temp. keep. by apply keeps_unlink_at. Qed.

Lemma keeps_metadata_of h : keeps (rely:=rely) J (metadata_of h) any.
Proof using HJ Reflexive0. unfold metadata_of, file_of. keep. Qed.

Lemma keeps_identity_of_handle h : keeps (rely:=rely) J (identity_of_handle h) any.
Proof using HJ Reflexive0. unfold identity_of_handle, file_of. keep. Qed.

(** *** Pinning an entry *)
Lemma about_pin k e : (∀ w w', rely w w' → entries w' !! k = entries w !! k) →
  about rely (λ k', P k' ∨ k' = k) (λ w, J w ∧ entries w !! k = Some e).
Proof using HJ.
  intros Hk. split.
  - intros w w' [Hw He] Hr. split; [by eapply about_rely|]. by rewrite (Hk w w').
  - intros w w' [Hw He] [U E D (l & R & F1) O]. split.
    + eapply about_agree; [done|done|]. split; auto. exists l. split; [done|].
      eapply Forall_impl; [exact F1|]. cbn. tauto.
    + rewrite E by auto. done.
Qed.
End composite.

Definition state_owner (u : Z * Z) : Z * Z := if fst u =? 0 then (0, 0) else u.

(** What a state file is once it has its name. *)
Definition state_entry (b : bytes) (u : Z * Z) (e : Entry) : Prop :=
  plain_file e ∧ e_bytes e = b ∧ Z.land (e_mode e) 4095 = 384 ∧ (e_uid e, e_gid e) = state_owner u.

Section publish.
Context (rely : World → World → Prop) `{!Reflexive rely} `{Sha256}.
Context (P : Name → Prop) (J : World → Prop) (HJ : about rely P J).
Context (u : Z * Z) (Hu : ∀ w, J w → user w = u).
Context (root : string) (Hroot : ∀ w w' n, rely w w' → entries w' !! (root, n) = entries w !! (root, n)).

(** Filling the temporary file. *)
Lemma fill_state_temp_held h content : h_dir h = root → ¬ P (h_dir h, h_name h) →
  triple rely (with_held J h (λ e, plain_file e ∧ (e_uid e, e_gid e) = u)) (fill_state_temp h content)
    (λ r, match r with Ok _ => with_held J h (state_entry content u) | Err _ => J end) J.
Proof using HJ Hu Hroot Reflexive0.
  intros Hd Hh. assert (∀ w w', rely w w' → entries w' !! (h_dir h, h_name h) = entries w !! (h_dir h, h_name h)) as Hstill
    by (rewrite Hd; auto).
  unfold fill_state_temp. apply triple_held. intros e [Hp Ho].
  eapply triple_bind; [by eapply write_held| |].
  2:{ by intros err w [? _]. }
  intros []. cbn beta iota. eapply triple_bind.
  { eapply triple_conseq; [eapply (metadata_held rely P J HJ h Hstill)|done| |by intros w [? _]]. intros r w Hr. exact Hr. }
  2:{ by intros err w [[? _] _]. }
  intros current. cbn beta. apply triple_assume. intros ->.
  eapply triple_bind with (M := λ r w, with_held J h (eq (set_bytes content e)) w ∧ r = Ok u); [|intros v|by intros ? ? [? [=]]].
  { intros w Hw s Hs. split; [|done]. split; [done|]. by rewrite (Hu w (proj1 Hw)). }
  apply triple_assume. intros [= ->]. cbn [fstat uid gid set_bytes e_uid e_gid]. rewrite Ho.
  change (if fst u =? 0 then (0, 0) else u) with (state_owner u).
  eapply triple_bind.
  { eapply triple_conseq; [by eapply (apply_owner_then_mode_held rely P J HJ h Hh Hstill content)| |intros r w Hr; exact Hr|done].
    intros w. apply with_held_weaken. intros ? <-. done. }
  2:{ by intros err w [? _]. }
  intros []. cbn beta iota. eapply triple_conseq.
  { eapply (keeps_sync_all rely _ _ (about_held rely P J HJ h Hstill (attributed content (fst (state_owner u)) (snd (state_owner u)) 384))). }
  - done.
  - intros [[]|err] w [Hw _]; [|exact (proj1 Hw)]. eapply with_held_weaken; [|exact Hw].
    intros e' ((Hp' & Hb') & Hu' & Hg' & Hm'). split_and!; try done. rewrite Hu', Hg'. by destruct (state_owner u).
  - by intros w [? _].
Qed.

(** The name appears with the whole file behind it, or the invariant is all that is known. *)
Definition published_as (k : Name) (content : bytes) (id : FileIdentity) (w : World) : Prop :=
  ∃ e, entries w !! k = Some e ∧ state_entry content u e ∧ id = identity_for_bytes (fstat e) content.

Lemma create_excl_held d n m : ¬ P (d, n) →
  triple rely J (create_excl d n m)
    (λ r w, match r with
            | Ok h => h_dir h = d ∧ h_name h = n ∧ with_held J h (λ e, plain_file e ∧ (e_uid e, e_gid e) = u) w
            | Err _ => J w end) J.
Proof using HJ Hu Reflexive0.
  intros Hn. apply triple_change; [done| | |].
  - intros w w' Hw Hr. by eapply about_rely.
  - intros w w' e Hw Hr _. by eapply about_rely.
  - intros w w' Hw Hr. assert (J w') as Hw' by (by eapply about_rely).
    destruct (directories_of w' !! d) as [dm|]; [|done]. destruct (entries w' !! (d, n)) eqn:E; [done|].
    cbn [h_dir h_name]. split; [done|]. split; [done|]. split.
    + eapply about_agree; [done|done|]. split; cbn; try done.
      * intros k Hk. rewrite lookup_insert_ne; [done|]. by intros <-.
      * exists []. by rewrite app_nil_r.
      * by eexists [_].
    + eexists. cbn -[Z.land Z.lor S_IFREG]. rewrite lookup_insert, decide_True by done. split_and!; try done.
      * split_and!; try done. cbn -[Z.land Z.lor S_IFREG S_IFMT]. apply mode_type_created.
      * cbn. rewrite (Hu w' Hw'). by destruct u.
Qed.

Lemma rename_held d h name e : h_dir h = d → ¬ P (h_dir h, h_name h) → ¬ P (d, name) →
  (∀ w w', rely w w' → entries w' !! (h_dir h, h_name h) = entries w !! (h_dir h, h_name h)) →
  triple rely (with_held J h (eq e)) (rename_noreplace d (h_name h) name)
    (λ r w, J w ∧ (is_ok r = true → entries w !! (d, name) = Some e)) J.
Proof using HJ Reflexive0.
  intros Hd Hh Hn Hstill. pose proof (about_held rely P J HJ h Hstill (eq e)) as HF. apply triple_change; [done| | |].
  - intros w w' Hw Hr. by eapply (about_rely _ _ _ HF) in Hr as [? _].
  - intros w w' err Hw Hr _. by eapply (about_rely _ _ _ HF) in Hr as [? _].
  - intros w w' Hw Hr. eapply (about_rely _ _ _ HF) in Hr as [Hw' (e' & He & _ & <-)]; [|done].
    rewrite Hd in He, Hh. rewrite He. destruct (entries w' !! (d, name)) eqn:E; [done|]. split.
    + eapply about_agree; [done|done|]. split; cbn; try done.
      * intros k Hk. rewrite lookup_insert_ne, lookup_delete_ne; [done| |]; by intros <-.
      * exists []. by rewrite app_nil_r.
      * by exists [].
    + intros _. cbn. by rewrite lookup_insert, decide_True.
Qed.

Lemma publish_spec name content : ¬ P (root, name) → (∀ pid now, ¬ P (root, state_temp_name name content pid now)) →
  triple rely J (atomic_state_publish root name content)
    (λ r w, J w ∧ ∀ id, r = Ok id → published_as (root, name) content id w) J.
Proof using HJ Hu Hroot Reflexive0.
  intros Hname Htemp. unfold atomic_state_publish.
  assert (∀ e (c : Io unit), keeps (rely:=rely) J c any →
    triple rely J (c;; raise e) (λ r w, J w ∧ ∀ id : FileIdentity, r = Ok id → published_as (root, name) content id w) J) as Hgive.
  { intros e c Hc. eapply triple_keeps; [exact Hc|done|done|intros a _]. by apply triple_raise. }
  destruct (negb _); [by apply triple_raise|].
  eapply triple_keeps; [by apply (keeps_look _ _ _ any)|done|done|intros pid _].
  eapply triple_keeps; [by apply (keeps_look _ _ _ any)|done|done|intros now _].
  set (temp := state_temp_name name content pid now). cbn zeta.
  eapply triple_keeps; [eapply keeps_observe_any; eassumption|done|done|intros _ _].
  destruct (str_has_char nul temp); [by apply triple_raise|]. destruct (str_has_char nul name); [by apply triple_raise|].
  eapply triple_bind; [apply create_excl_held, Htemp|intros h|by intros].
  apply triple_fact. intros Hd. apply triple_fact. intros Hn.
  assert (¬ P (h_dir h, h_name h)) as Hh by (rewrite Hd, Hn; apply Htemp).
  assert (∀ w w', rely w w' → entries w' !! (h_dir h, h_name h) = entries w !! (h_dir h, h_name h)) as Hstill
    by (rewrite Hd; auto).
  eapply triple_catch_bind; [by apply fill_state_temp_held|]. intros [[]|e]; cbn beta iota.
  2:{ eapply triple_keeps with (R := any); [|done|done|intros o _]; [|apply Hgive; eapply keeps_discard; eauto].
      apply keeps_catch_any. eapply keeps_identity_of_handle; eauto. }
  apply triple_held. intros e He.
  eapply triple_bind.
  { eapply triple_conseq; [eapply (identity_of_handle_held rely P J HJ h Hstill (eq e))|done| |by intros w [? _]]. intros r w H'. exact H'. }
  2:{ by intros err w [[? _] _]. }
  intros id. cbn beta. apply triple_assume. intros (? & <- & ->).
  eapply triple_catch_bind; [rewrite <- Hn; by apply rename_held|]. intros [[]|err]; cbn [is_ok].
  2:{ eapply triple_pre; [|apply Hgive; eapply keeps_discard; eauto]. by intros w [? _]. }
  assert (about rely (λ k, P k ∨ k = (root, name)) (λ w, J w ∧ entries w !! (root, name) = Some e)) as Hpin
    by (eapply about_pin; eauto).
  apply triple_pre with (λ w, J w ∧ entries w !! (root, name) = Some e); [intros w [? ?]; auto|].
  eapply triple_keeps with (R := any); [apply keeps_catch_any; by eapply keeps_sync_all|by intros ? [? ?]|by intros ? ? [? ?]|].
  intros [[]|err] _; [apply triple_ret|apply triple_raise]; intros w [Hw Hw']; (split; [done|]); [|done].
  intros ? [= <-]. exists e. destruct He as (Hp & Hb & ?). rewrite Hb. split_and!; done.
Qed.
End publish.

Lemma keeps_publish (rely : World → World → Prop) `{!Reflexive rely} `{Sha256} P J u root name content :
  about rely P J → (∀ w, J w → user w = u) →
  (∀ w w' n, rely w w' → entries w' !! (root, n) = entries w !! (root, n)) →
  ¬ P (root, name) → (∀ pid now, ¬ P (root, state_temp_name name content pid now)) →
  keeps (rely:=rely) J (atomic_state_publish root name content) any.
Proof.
  intros HJ Hu Hroot Hn Ht. eapply triple_conseq; [by eapply publish_spec|done| |done].
  by intros r w [? _].
Qed.

(** ** Replacing a service *)
Definition new_file (content : bytes) (model : FileIdentity) (e : Entry) : Prop :=
  plain_file e ∧ e_bytes e = content ∧ e_mode e = id_mode model ∧ e_uid e = id_uid model ∧ e_gid e = id_gid model.

Section replace.
Context (rely : World → World → Prop) `{!Reflexive rely} `{Sha256}.
Context (P : Name → Prop) (J : World → Prop) (HJ : about rely P J) (u : Z * Z) (Hu : ∀ w, J w → user w = u).
Context (d name temp : string) (Hname : ¬ P (d, name)) (Htemp : ¬ P (d, temp)) (Hne : name ≠ temp).
Context (Hstill : ∀ w w', rely w w' → entries w' !! (d, temp) = entries w !! (d, temp)).

Lemma fill_temp_held h content model : h_dir h = d → h_name h = temp →
  triple rely (with_held J h plain_file) (fill_temp h content model)
    (λ r w, match r with
            | Ok id => with_held J h (λ e, new_file content model e ∧ id = identity_for_bytes (fstat e) content) w
            | Err _ => J w end) J.
Proof using HJ Htemp Hstill Reflexive0.
  intros Hd Hn. assert (¬ P (h_dir h, h_name h)) as Hh by (by rewrite Hd, Hn).
  assert (∀ w w', rely w w' → entries w' !! (h_dir h, h_name h) = entries w !! (h_dir h, h_name h)) as Hst
    by (by rewrite Hd, Hn).
  unfold fill_temp. apply triple_held. intros e Hp. eapply triple_bind; [by eapply write_held| |by intros err w [? _]].
  intros []. cbn beta iota. eapply triple_bind.
  { eapply triple_pre; [|by eapply (apply_owner_then_mode_held rely P J HJ h Hh Hst content)].
    intros w. apply with_held_weaken. by intros ? <-. }
  2:{ by intros err w [? _]. }
  intros []. cbn beta iota. eapply triple_keeps with (R := any); [|by intros w [? _]|by intros ? w [? _]|intros [] _].
  { eapply keeps_sync_all; [done|]. by apply about_held. }
  apply triple_held. intros e' He'. eapply triple_keeps; [by eapply (identity_of_handle_held rely P J HJ h Hst (eq e'))|by intros w [? _]|by intros ? w [? _]|].
  intros id (? & <- & ->). cbn [identity_for_bytes links id_sha256 id_mode id_uid id_gid fstat nlink mode uid gid].
  destruct (negb (e_links e' =? 1)) eqn:E1; [apply triple_raise; by intros w [? _]|].
  destruct (negb (String.eqb _ _)); [apply triple_raise; by intros w [? _]|].
  destruct (negb (e_mode e' =? _)) eqn:E2; [apply triple_raise; by intros w [? _]|].
  destruct (negb (e_uid e' =? _)) eqn:E3; [apply triple_raise; by intros w [? _]|].
  destruct (negb (e_gid e' =? _)) eqn:E4; [apply triple_raise; by intros w [? _]|].
  bsplit. cbn. apply triple_ret. intros w. apply with_held_weaken. intros ? <-. destruct He' as ((? & Hb) & _).
  split; [|by rewrite Hb]. split_and!; try done; lia.
Qed.

Lemma create_temp_spec destination content model :
  triple rely J (create_temp_at d destination content model (Some temp))
    (λ r w, J w ∧ ∀ p, r = Ok p → fst p = temp ∧ ∃ e, entries w !! (d, temp) = Some e ∧
                       new_file content model e ∧ snd p = identity_for_bytes (fstat e) content) J.
Proof using HJ Hu Htemp Hstill Reflexive0.
  unfold create_temp_at. eapply triple_keeps; [by apply (keeps_look _ _ _ any)|done|done|intros pid _].
  eapply triple_keeps; [by apply (keeps_look _ _ _ any)|done|done|intros now _]. cbn [default from_option id].
  destruct (str_has_char nul temp); [by apply triple_raise|].
  eapply triple_bind; [by eapply (create_excl_held rely P J HJ u Hu)|intros h|by intros].
  apply triple_fact. intros Hd. apply triple_fact. intros Hn.
  eapply triple_catch_bind; [eapply triple_pre; [|by apply fill_temp_held]; intros w; apply with_held_weaken; by intros e [? _]|].
  intros [id|e]; cbn beta iota.
  - apply triple_ret. intros w [Hw (e & He & _ & Hnew & Hid)]. split; [done|]. intros p [= <-]. split; [done|].
    exists e. rewrite Hd, Hn in He. done.
  - eapply triple_keeps with (R := any); [apply keeps_catch_any; eapply keeps_identity_of_handle; eassumption|done|done|intros o _].
    destruct (option_of o); [|by apply triple_raise].
    eapply triple_keeps with (R := any); [eapply keeps_cleanup_temp_at; eassumption|done|done|intros ? _]. by apply triple_raise.
Qed.

(** The temporary file beside the service, and the service. *)
Definition pinned (k : Name) (e : Entry) (w : World) : Prop := entries w !! k = Some e.
Definition one (e : Entry) (w : World) : Prop := J w ∧ pinned (d, name) e w.
Definition both (a b : Entry) (w : World) : Prop := one a w ∧ pinned (d, temp) b w.

Context (Hservice : ∀ w w', rely w w' → entries w' !! (d, name) = entries w !! (d, name)).

Lemma about_one e : about rely (λ k, P k ∨ k = (d, name)) (one e).
Proof using HJ Hservice. by apply about_pin. Qed.

Lemma about_both a b : about rely (λ k, (P k ∨ k = (d, name)) ∨ k = (d, temp)) (both a b).
Proof using HJ Hservice Hstill. apply about_pin; [apply about_one|done]. Qed.

Lemma temp_outside : ¬ (P (d, temp) ∨ (d, temp) = (d, name)).
Proof using Htemp Hne. intros [?|[= ?]]; congruence. Qed.

Lemma exchange_both a b :
  triple rely (both a b) (rename_exchange d temp name)
    (λ r, match r with Ok _ => both b a | Err _ => both a b end) (both a b).
Proof using HJ Hname Htemp Hne Hservice Hstill Reflexive0.
  pose proof (about_both a b) as HB. apply triple_change; [done| | |].
  - intros w w' Hw Hr. by eapply about_rely.
  - intros w w' err Hw Hr _. by eapply about_rely.
  - intros w w' Hw Hr. eapply (about_rely _ _ _ HB) in Hr as [[Hw' Ha] Hb]; [|done]. unfold pinned in *.
    rewrite Hb, Ha. unfold both, one, pinned. split; [split|]; cbn.
    + eapply about_agree; [done|done|]. split; cbn; try done.
      * intros k Hk. rewrite !lookup_insert_ne; [done| |]; by intros <-.
      * exists []. by rewrite app_nil_r.
      * by exists [].
    + rewrite lookup_insert_ne by (intros [= ?]; congruence). by rewrite lookup_insert, decide_True.
    + by rewrite lookup_insert, decide_True.
Qed.

Lemma keeps_check_published e id m1 m2 a b : keeps (rely:=rely) (both a b) (check_published d e id m1 m2) any.
Proof using HJ Hservice Hstill Reflexive0. pose proof (about_both a b). unfold check_published. keep. Qed.

(** Undoing the exchange leaves the service with one of the two files. *)
Lemma undo_exchange_spec a b id :
  triple rely (both b a) (undo_exchange d name temp id) (λ r w, is_ok r = false ∧ (one a w ∨ one b w)) (λ w, one a w ∨ one b w).
Proof using HJ Hname Htemp Hne Hservice Hstill Reflexive0.
  pose proof (about_one a) as H1. unfold undo_exchange.
  eapply triple_catch_bind; [eapply triple_conseq; [apply exchange_both|done|intros r w Hr; exact Hr|]; intros w [? _]; auto|].
  intros [[]|err]; cbn beta iota; [|apply triple_raise; intros w [? _]; auto].
  eapply triple_keeps with (R := any); [|intros w [? _]; auto|intros ? w [? _]; auto|intros restored _].
  { apply keeps_catch_any. eapply keeps_observe_any; [done|apply about_both]. }
  apply triple_pre with (one a); [by intros w [? _]|].
  eapply triple_keeps with (R := any); [|auto|auto|intros [] _].
  { keep; apply temp_outside. }
  eapply triple_keeps with (R := any); [by eapply keeps_sync_all|auto|auto|intros [] _].
  apply triple_raise. auto.
Qed.

Lemma publish_replacement_spec after a b expected id : keeps (rely:=rely) (both b a) after any →
  triple rely (both a b) (publish_replacement after expected {| st_dir := d; st_name := name; st_temp := temp; st_replacement := id |})
    (λ r w, if is_ok r then one b w else one a w ∨ one b w) (λ w, one a w ∨ one b w).
Proof using HJ Hname Htemp Hne Hservice Hstill Reflexive0.
  intros Hafter. unfold publish_replacement.
  assert (∀ e1 e2 (c : Io unit) err, keeps (rely:=rely) (one e1) c any → e1 = a ∨ e1 = b →
    triple rely (both e1 e2) (c;; raise err) (λ r w, if is_ok (A:=unit) r then one b w else one a w ∨ one b w)
      (λ w, one a w ∨ one b w)) as Hgive.
  { intros e1 e2 c err Hc He. apply triple_pre with (one e1); [by intros w [? _]|].
    eapply triple_keeps; [exact Hc| | |intros ? _; apply triple_raise]; destruct He as [->| ->]; cbn; auto. }
  assert (∀ msg, keeps (rely:=rely) (one a) (cleanup_unpublished_temp_at d temp id MAX_BACKUP_BYTES msg) any) as Hclean.
  { intros msg. eapply keeps_cleanup_temp_at; [done|apply about_one|apply temp_outside]. }
  eapply triple_keeps with (R := any); [|intros w [? _]; auto|cbn; intros ? w [? _]; auto|intros check _].
  { apply keeps_catch_any. eapply keeps_observe_any; [done|apply about_both]. }
  destruct check as [[]|err]; [|by apply Hgive; auto].
  destruct (str_has_char nul name); [apply triple_raise; intros w [? _]; cbn; auto|].
  eapply triple_catch_bind; [eapply triple_conseq; [apply exchange_both|done|intros r w Hr; exact Hr|]; intros w [? _]; auto|].
  intros [[]|err]; cbn beta iota; [|by apply Hgive; auto].
  eapply triple_keeps; [exact Hafter|intros w [? _]; auto|cbn; intros ? w [? _]; auto|intros [] _].
  eapply triple_keeps; [apply keeps_check_published|intros w [? _]; auto|cbn; intros ? w [? _]; auto|intros [] _].
  eapply triple_keeps with (R := any); [|intros w [? _]; auto|cbn; intros ? w [? _]; auto|intros displaced _].
  { apply keeps_catch_any. eapply keeps_observe_any; [done|apply about_both]. }
  destruct (negb _).
  { eapply triple_conseq; [apply (undo_exchange_spec a b)|done| |done]. intros r w [Hr ?]. by rewrite Hr. }
  eapply triple_keeps; [apply keeps_check_published|intros w [? _]; auto|cbn; intros ? w [? _]; auto|intros [] _].
  apply triple_pre with (one b); [by intros w [? _]|].
  assert (keeps (rely:=rely) (one b) (unlinkat d temp;; sync_all) any) as Hk
    by (pose proof (about_one b); keep; apply temp_outside).
  eapply triple_conseq; [exact Hk|done| |auto]. cbn. intros r w [Hw _]. destruct (is_ok r); auto.
Qed.
End replace.
