(* ===== verification/PamStoreProofs.v ===== *)
(** * PamStoreProofs: an installation is all or nothing, and never without its way back

    The write-ahead protocol of [PamStore.v], run with any failures and stopped anywhere: the
    service holds its old file or the complete new one, and while it holds the new one the
    rollback state holds the old one's bytes. *)

From stdpp Require Import gmap.
From S2P Require Import Prelude Text Sealing PamDocument PamFiles PamBackup PamService PamWorld PamState PamStore PamLogic PamStateProofs.

(** Names that only the rollback protocol uses. *)
Definition reserved (n : string) : bool := starts_with ".facelock-" n.

Lemma starts_with_app pre s t : starts_with pre s = true → starts_with pre (s +:+ t) = true.
Proof. apply prefix_app_long. Qed.

Lemma reserved_intent role b : reserved (intent_name role b) = true.
Proof. by destruct role. Qed.
Lemma reserved_publication role b : reserved (publication_name role b) = true.
Proof. by destruct role. Qed.
Lemma reserved_quarantine r b : reserved (quarantine_name r b) = true.
Proof. done. Qed.
Lemma reserved_exchange b : reserved (exchange_name b) = true.
Proof. done. Qed.
Lemma reserved_temp `{Sha256} n c pid now : reserved (state_temp_name n c pid now) = true.
Proof. done. Qed.

Create HintDb reserved.
#[export] Hint Resolve reserved_intent reserved_publication reserved_quarantine reserved_exchange reserved_temp : reserved.

Lemma triple_ex {rely A X} (P : X → World → Prop) (c : Io A) Q K :
  (∀ x, triple rely (P x) c Q K) → triple rely (λ w, ∃ x, P x w) c Q K.
Proof. intros Hc w [x Hw]. by apply (Hc x). Qed.

Lemma triple_or {rely A} (P1 P2 : World → Prop) (c : Io A) Q K :
  triple rely P1 c Q K → triple rely P2 c Q K → triple rely (λ w, P1 w ∨ P2 w) c Q K.
Proof. intros H1 H2 w [Hw|Hw]; [by apply H1|by apply H2]. Qed.

Lemma about_user u : about quiet (λ _, False) (λ w, user w = u).
Proof. split; [intros w w' <- Hq; apply Hq|intros w w' <- Ha; apply Ha]. Qed.

Lemma quiet_still w w' (k : Name) : quiet w w' → entries w' !! k = entries w !! k.
Proof. intros Hq. by rewrite (quiet_entries _ _ Hq). Qed.

#[export] Hint Resolve quiet_reflexive quiet_still about_user : reserved.

(** A binding is created beside an invariant that does not speak of its name. *)
Lemma binding_names_at `{StateJson, Sha256} st P J u role i enc id :
  about quiet P J → (∀ w, J w → user w = u) → ¬ P (root st, publication_name role (si_backup i)) →
  (∀ n c pid now, ¬ P (root st, state_temp_name n c pid now)) →
  keeps (rely:=quiet) J (create_publication_binding st role i enc id)
    (λ r, match r with Ok p => cp_name p = publication_name role (si_backup i) | Err _ => True end).
Proof.
  intros HJ Hu Hn Ht. unfold create_publication_binding.
  eapply keeps_bind; [by apply (keeps_lift _ _ _ any)| |done]. intros b _.
  eapply keeps_bind with (R1 := any); [eapply keeps_publish; eauto with reserved| |done]. intros id' _.
  by apply keeps_ret.
Qed.

(** ** State files beside an invariant that only speaks of ordinary names *)
Section state.
Context `{Json, StateJson, Sha256}.
Context (st : BackupStore) (P : Name → Prop) (J : World → Prop) (HJ : about quiet P J).
Context (u : Z * Z) (Hu : ∀ w, J w → user w = u).
Context (Hres : ∀ n, reserved n = true → ¬ P (root st, n)).

Lemma keeps_declare i : keeps (rely:=quiet) J (declare st i) any.
Proof using HJ Hu Hres.
  unfold declare. keep. unfold atomic_state_create.
  eapply keeps_publish; eauto with reserved.
Qed.

Lemma publish_state name content : ¬ P (root st, name) →
  triple quiet J (atomic_state_create (root st) name content)
    (λ r w, J w ∧ ∀ id, r = Ok id → published_as u (root st, name) content id w) J.
Proof using HJ Hu Hres.
  intros Hn. eapply publish_spec; eauto with reserved.
Qed.

Lemma keeps_unlink_reserved n id : reserved n = true → keeps (rely:=quiet) J (unlink_state_if_identity_matches (root st) n id) any.
Proof using HJ Hres. intros. eapply keeps_unlink_state; eauto with reserved. Qed.

Lemma keeps_finish_publication n id pub : reserved n = true →
  (∀ p, pub = Some p → reserved (cp_name p) = true) →
  keeps (rely:=quiet) J (finish_publication_state st n id pub) any.
Proof using HJ Hres.
  intros Hn Hp. unfold finish_publication_state. keep; apply keeps_unlink_reserved; auto.
Qed.

(** The names of what was declared and bound. *)
Lemma declare_names i : keeps (rely:=quiet) J (declare st i)
  (λ r, match r with Ok (n, _, _) => n = intent_name (si_role i) (si_backup i) | Err _ => True end).
Proof using HJ Hu Hres.
  unfold declare. eapply keeps_bind; [by apply (keeps_lift _ _ _ any)| |done]. intros enc _.
  eapply keeps_bind with (R1 := any); [eapply keeps_publish; eauto with reserved| |done]. intros id _.
  by apply keeps_ret.
Qed.

Lemma binding_names role i enc id : keeps (rely:=quiet) J (create_publication_binding st role i enc id)
  (λ r, match r with Ok p => cp_name p = publication_name role (si_backup i) | Err _ => True end).
Proof using HJ Hu Hres. eapply binding_names_at; eauto with reserved. Qed.

Lemma keeps_validate path pub m1 m2 : keeps (rely:=quiet) J (validate_publication path pub m1 m2) any.
Proof using HJ. unfold validate_publication, validate_published_path. keep. Qed.

(** Finishing reports what happened, and success only when all succeeded. *)
Lemma keeps_finish_mutation n id pub outcome failed : reserved n = true →
  (∀ p, pub = Some p → reserved (cp_name p) = true) →
  keeps (rely:=quiet) J (finish_mutation st n id pub outcome failed) (λ r, r = Ok tt → outcome = Ok tt).
Proof using HJ Hres.
  intros Hn Hp. unfold finish_mutation.
  destruct (match outcome with Ok _ => false | Err e => _ end); [by apply keeps_lift|].
  eapply keeps_bind with (R1 := any); [apply keeps_catch_any; by apply keeps_finish_publication| |done].
  intros [[]|c] _; [by apply keeps_lift|]. destruct outcome as [[]|e]; [by apply keeps_raise|by apply keeps_raise].
Qed.
End state.

(** What follows the exchange of two files changes no file. *)
Definition idle (c : Io unit) : Prop := ∀ Q W, about quiet Q W → keeps (rely:=quiet) W c any.

Lemma idle_ret : idle (mret tt).
Proof. intros Q W _. by apply keeps_ret. Qed.
Lemma idle_raise err : idle (raise err).
Proof. intros Q W _. by apply keeps_raise. Qed.

(** ** The bound replacement of a service

    [J] is what else has to stay as it is, such as a backup and its record. *)
Section replacing.
Context `{Json, StateJson, Sha256}.
Context (st : BackupStore) (P : Name → Prop) (J : World → Prop) (HJ : about quiet P J).
Context (u : Z * Z) (Hu : ∀ w, J w → user w = u) (Hres : ∀ n, reserved n = true → ¬ P (root st, n)).
Context (path d name temp : string) (Hparent : parent path = Some d) (Hname : file_name path = Some name).
Context (Hd : d ≠ root st) (Hservice : ¬ P (d, name)) (Htemp : ¬ P (d, temp)) (Hne : name ≠ temp).
Context (expected : FileIdentity) (content : bytes) (e : Entry).

Definition holds (x : Entry) (w : World) : Prop := one J d name x w.

(** The complete new file, where the planned one was. *)
Definition planned : Prop := expected = identity_for_bytes (fstat e) (e_bytes e).
Definition is_new (w : World) : Prop := planned ∧ ∃ x, new_file content expected x ∧ holds x w.
Definition old_or_new (w : World) : Prop := holds e w ∨ is_new w.

Lemma about_holds x : about quiet (λ k, P k ∨ k = (d, name)) (holds x).
Proof using HJ. apply about_one; [done|]. intros w w'. apply quiet_still. Qed.

Lemma user_holds x w : holds x w → user w = u.
Proof using Hu. intros [? _]. auto. Qed.

Lemma holds_reserved n : reserved n = true → ¬ (P (root st, n) ∨ (root st, n) = (d, name)).
Proof using Hres Hd. intros Hn [?|[= ? ?]]; [by eapply Hres|congruence]. Qed.

Lemma both_reserved n : reserved n = true → ¬ ((P (root st, n) ∨ (root st, n) = (d, name)) ∨ (root st, n) = (d, temp)).
Proof using Hres Hd. intros Hn [?|[= ? ?]]; [by eapply holds_reserved|congruence]. Qed.

Lemma about_new : about quiet (λ k, P k ∨ k = (d, name)) is_new.
Proof using HJ.
  split; intros w w' (Hpl & x & Hnew & Hx) Hr; (split; [done|]); exists x; (split; [done|]); [by eapply (about_rely _ _ _ (about_holds x))|].
  by eapply (about_agree _ _ _ (about_holds x)).
Qed.

Lemma about_old_or_new : about quiet (λ k, P k ∨ k = (d, name)) old_or_new.
Proof using HJ.
  split; intros w w' [Hw|Hw] Hr.
  - left. by eapply (about_rely _ _ _ (about_holds e)).
  - right. by eapply (about_rely _ _ _ about_new).
  - left. by eapply (about_agree _ _ _ (about_holds e)).
  - right. by eapply (about_agree _ _ _ about_new).
Qed.

Lemma stage_replacement_spec :
  triple quiet (holds e) (stage_replacement path expected content (Some temp))
    (λ r w, holds e w ∧ ∀ s, r = Ok s → planned ∧ ∃ x, new_file content expected x ∧ pinned (d, temp) x w ∧
       s = {| st_dir := d; st_name := name; st_temp := temp; st_replacement := identity_for_bytes (fstat x) content |})
    (holds e).
Proof using HJ Hu Hparent Hname Hservice Htemp Hne.
  pose proof (about_holds e) as Hh. unfold stage_replacement. rewrite Hparent, Hname.
  eapply triple_keeps with (R := any); [keep|done|done|intros ? _].
  eapply triple_keeps with (R := λ r, is_ok r = true → planned); [|done|done|intros [] Hpl].
  { eapply keeps_observe; [apply _|exact Hh|]. intros w fs [_ Hw] Hfs. unfold expect_identity.
    destruct (identity_at fs d name) as [id|] eqn:Ei; [|done]. unfold identity_matches.
    case_bool_decide as Heq; [|done]. intros _. unfold planned. rewrite Heq.
    destruct (identity_at_honest w fs d name _ id Hfs Ei) as (e' & He' & _ & _ & ->). unfold pinned in Hw. congruence. }
  specialize (Hpl eq_refl). unfold stage_temp.
  eapply triple_bind.
  { apply (create_temp_spec quiet _ _ Hh u (user_holds e) d temp); [|intros w w'; apply quiet_still].
    intros [?|[= ?]]; [by apply Htemp|congruence]. }
  2:{ intros err w [Hw _]. split; [done|]. done. }
  intros cr. eapply triple_pre with (λ w, ∃ x, (holds e w ∧ pinned (d, temp) x w) ∧ (new_file content expected x ∧
      cr = (temp, identity_for_bytes (fstat x) content))).
  { intros w [Hw Hc]. destruct (Hc cr eq_refl) as (Ht & x & Hx & Hnew & Hid). exists x. split; [done|]. split; [done|].
    destruct cr; cbn in *; congruence. }
  apply triple_ex. intros x. apply triple_assume. intros [Hnew ->]. cbn [fst snd].
  pose proof (about_both quiet P J HJ d name temp (λ w w', quiet_still w w' _) (λ w w', quiet_still w w' _) e x) as Hb.
  eapply (triple_keeps (both J d name temp e x)) with (R := any).
  { apply keeps_map_error_any. eapply keeps_observe_any; [apply _|exact Hb]. }
  { by intros w [? _]. }
  { intros err w [? _] _. by split. }
  intros rep _. destruct (negb _) eqn:E; [apply triple_raise; intros w [? _]; by split|].
  apply triple_ret. intros w [Hw Hx]. split; [done|]. intros s [= <-]. split; [done|]. exists x. split; [done|]. split; [done|].
  apply negb_false_iff, bool_decide_eq_true in E. by subst rep.
Qed.

Lemma bind_staged_spec role i enc msg x :
  triple quiet (both J d name temp e x)
    (bind_staged st role i enc msg {| st_dir := d; st_name := name; st_temp := temp; st_replacement := identity_for_bytes (fstat x) content |})
    (λ r w, match r with
            | Ok pub => reserved (cp_name pub) = true ∧ both J d name temp e x w
            | Err _ => holds e w end) (holds e).
Proof using HJ Hu Hres Hd Htemp Hne.
  pose proof (about_both quiet P J HJ d name temp (λ w w', quiet_still w w' _) (λ w w', quiet_still w w' _) e x) as Hb.
  unfold bind_staged. cbn [st_replacement st_dir st_temp].
  eapply (triple_keeps _ (catch _)).
  { apply keeps_catch. apply (binding_names st _ _ Hb u (λ w Hw, user_holds e w (proj1 Hw)) both_reserved). }
  { by intros w [? _]. }
  { done. }
  intros [pub|err] Hr; cbn in Hr.
  { apply triple_ret. intros w Hw. rewrite Hr. split; [apply reserved_publication|done]. }
  apply triple_pre with (holds e); [by intros w [? _]|]. unfold unless_ambiguous.
  destruct (io_ambiguous err); [by apply triple_raise|].
  eapply triple_keeps with (R := any); [|done|done|intros ? _; by apply triple_raise].
  eapply keeps_cleanup_temp; [apply _|apply (about_holds e)|]. intros [?|[= ?]]; [by apply Htemp|congruence].
Qed.

Lemma replace_bound_spec role i enc msg after : idle after →
  triple quiet (holds e) (replace_existing_verified path expected content (Some temp) (bind_staged st role i enc msg) after)
    (λ r w, match r with
            | Ok (pub, res) => (∀ p, pub = Some p → reserved (cp_name p) = true) ∧ old_or_new w ∧
                               (is_ok res = true → is_some pub = true ∧ is_new w)
            | Err _ => False end) old_or_new.
Proof using HJ Hu Hres Hparent Hname Hd Hservice Htemp Hne.
  intros Hidle. unfold replace_existing_verified, with_staged.
  eapply triple_catch_bind; [eapply triple_conseq; [apply stage_replacement_spec|done|intros r w Hr; exact Hr|by left]|].
  intros [s|err]; cbn beta iota; [|apply triple_ret; intros w [Hw _]; split; [done|]; split; [by left|done]].
  eapply triple_pre with (λ w, ∃ x, both J d name temp e x w ∧ (planned ∧ new_file content expected x ∧
    s = {| st_dir := d; st_name := name; st_temp := temp; st_replacement := identity_for_bytes (fstat x) content |})).
  { intros w [Hw Hs]. destruct (Hs s eq_refl) as (Hpl & x & Hnew & Hx & ->). exists x. done. }
  apply triple_ex. intros x. apply triple_assume. intros (Hpl & Hnew & ->).
  eapply triple_catch_bind; [eapply triple_conseq; [apply bind_staged_spec|done|intros r w Hr; exact Hr|by left]|].
  intros [pub|err]; cbn beta iota; [|apply triple_ret; intros w Hw; split; [done|]; split; [by left|done]].
  apply triple_fact. intros Hpub.
  eapply triple_catch_bind.
  { eapply triple_conseq; [apply (publish_replacement_spec quiet P J HJ d name temp Hservice Htemp Hne (λ w w', quiet_still w w' _) (λ w w', quiet_still w w' _) after e x);
      eapply Hidle, about_both; eauto with reserved|done|intros r w Hr; exact Hr|].
    intros w [Hw|Hw]; [by left|right; split; [done|]; by exists x]. }
  intros r. apply triple_ret. intros w Hw. split; [by intros ? [= <-]|]. split.
  - destruct (is_ok r); [|destruct Hw as [Hw|Hw]; [by left|]]; right; (split; [done|]); by exists x.
  - intros Hok. rewrite Hok in Hw. split; [done|]. split; [done|]. by exists x.
Qed.

(** The rest of the protocol, once the replacement has been tried: [after] is what follows a
    replacement that went well. *)
Lemma finish_replacement_spec (replaced : option CreatedPublication * result unit IoError) n iid failed (after : Io unit) :
  reserved n = true →
  (∀ W, about quiet (λ k, P k ∨ k = (d, name)) W → keeps (rely:=quiet) W after any) →
  triple quiet
    (λ w, (∀ p, fst replaced = Some p → reserved (cp_name p) = true) ∧ old_or_new w ∧
          (is_ok (snd replaced) = true → is_some (fst replaced) = true ∧ is_new w))
    (outcome ← match snd replaced with Err err => mret (Err err) | Ok _ => catch after end;
     finish_mutation st n iid (fst replaced) outcome failed)
    (λ r w, old_or_new w ∧ (r = Ok tt → is_new w)) old_or_new.
Proof using HJ Hres Hd.
  intros Hn Hafter. destruct replaced as [pub res]. cbn [fst snd]. apply triple_fact. intros Hpub.
  pose proof holds_reserved as Hr.
  assert (∀ W outcome, about quiet (λ k, P k ∨ k = (d, name)) W →
    keeps (rely:=quiet) W (finish_mutation st n iid pub outcome failed) (λ r, r = Ok tt → outcome = Ok tt)) as Hfin.
  { intros W outcome HW. by apply (keeps_finish_mutation st _ _ HW Hr). }
  destruct res as [[]|err].
  - apply triple_pre with is_new; [intros w [_ Hw]; by apply Hw|].
    eapply triple_keeps with (R := any); [apply keeps_catch_any, Hafter, about_new|by right|by split; [right|]|intros o _].
    eapply triple_conseq; [apply Hfin, about_new|done| |by right]. intros r w [Hw _]. split; [by right|done].
  - apply triple_pre with old_or_new; [by intros w [Hw _]|].
    eapply triple_keeps with (R := λ r, r = Ok (Err err)); [by apply keeps_ret|done|done|intros o [= ->]].
    eapply triple_conseq; [apply Hfin, about_old_or_new|done| |done]. intros r w [Hw Hok]. split; [done|].
    intros ->. by specialize (Hok eq_refl).
Qed.
End replacing.

(** A dot does not complete the reserved prefix. *)
Lemma prefix_split q s t : String.prefix q (s +:+ t) = true →
  String.prefix q s = true ∨ ∃ q', q = s +:+ q' ∧ q' ≠ "" ∧ String.prefix q' t = true.
Proof.
  revert q. induction s as [|a s IH]; intros q Hq.
  - destruct q as [|b q]; [by left|]. right. by exists (String b q).
  - destruct q as [|b q]; [by left|]. rewrite string_app_cons in Hq. cbn in Hq |- *.
    destruct (ascii_dec b a) as [->|]; [|done]. destruct (IH q Hq) as [?|(q' & -> & ? & ?)]; [by left|].
    right. by exists q'.
Qed.

Lemma reserved_dot s t : reserved s = false → s ≠ "" → reserved (s +:+ "." +:+ t) = false.
Proof.
  intros Hs Hne. destruct (reserved (s +:+ "." +:+ t)) eqn:E; [|done]. exfalso. unfold reserved, starts_with in *.
  apply prefix_split in E as [?|(q' & Eq & Hq & Hp)]; [congruence|].
  destruct q' as [|c q']; [done|]. rewrite string_app_cons in Hp. cbn in Hp.
  destruct (ascii_dec c ".") as [->|]; [|done]. clear -Eq Hne.
  destruct s as [|a s]; [done|]. rewrite string_app_cons in Eq. injection Eq as <- Eq.
  do 9 (destruct s as [|? s]; [discriminate Eq|rewrite string_app_cons in Eq; injection Eq as <- Eq]).
  by destruct s.
Qed.

(** ** Installing a rule in place *)
Section install.
Context `{Json, StateJson, Sha256}.
Context (st : BackupStore) (p : PreparedBackup) (u : Z * Z).
Context (path d name : string) (Hparent : parent path = Some d) (Hname : file_name path = Some name).
Context (Hd : d ≠ root st) (Hservice : reserved name = false) (Hbackup : reserved (pb_backup p) = false).
Context (Hrecord : pb_record p = pb_backup p +:+ ".json").

Definition service_name : Name := (d, name).
Definition backup_name : Name := (root st, pb_backup p).
Definition record_name : Name := (root st, pb_record p).
Definition the_user (w : World) : Prop := user w = u.

Lemma reserved_record : reserved (pb_record p) = false.
Proof using Hbackup Hrecord.
  rewrite Hrecord. destruct (decide (pb_backup p = "")) as [->|]; [done|]. by apply (reserved_dot _ "json").
Qed.

Lemma record_not_backup : pb_record p ≠ pb_backup p.
Proof using Hrecord.
  rewrite Hrecord. intros E. apply (f_equal String.length) in E. rewrite string_length_app in E. cbn in E. lia.
Qed.

(** The old file of the service is the only thing that is known. *)
Definition service_is (e : Entry) (w : World) : Prop := the_user w ∧ entries w !! service_name = Some e.

Lemma about_service e : about quiet (λ k, False ∨ k = service_name) (service_is e).
Proof. apply about_pin; [apply about_user|intros; by apply quiet_still]. Qed.

(** The service, and the pair of backup and record. *)
Definition with_backup (e eb : Entry) (w : World) : Prop := service_is e w ∧ entries w !! backup_name = Some eb.

Lemma about_with_backup e eb : about quiet (λ k, (False ∨ k = service_name) ∨ k = backup_name) (with_backup e eb).
Proof. apply about_pin; [apply about_service|intros; by apply quiet_still]. Qed.

Lemma outside_service n : (root st, n) ≠ service_name.
Proof using Hd. unfold service_name. congruence. Qed.

Lemma reserved_outside n : reserved n = true → (root st, n) ≠ backup_name ∧ (root st, n) ≠ record_name.
Proof using Hbackup Hrecord.
  unfold backup_name, record_name. pose proof reserved_record. split; intros [= ->]; congruence.
Qed.

(** *** The backup is complete before anything else happens *)
Definition backed_up (original enc : bytes) (e : Entry) (w : World) : Prop :=
  ∃ eb er, with_backup e eb w ∧ entries w !! record_name = Some er ∧
           state_entry original u eb ∧ state_entry enc u er.

Lemma persist_pair_spec original e :
  triple quiet (service_is e) (persist st p original)
    (λ r w, service_is e w ∧ (r = Ok tt → ∃ enc, encode_record (provenance p) = Some enc ∧ backed_up original enc e w))
    (service_is e).
Proof using Hd Hbackup Hrecord.
  pose proof (about_service e) as Hs. unfold persist. cbn zeta.
  destruct (_ || _); [by apply triple_raise|]. destruct (MAX_BACKUP_BYTES <? _); [by apply triple_raise|].
  eapply triple_keeps with (R := any); [keep|done|done|intros used _]. destruct used; [by apply triple_raise|].
  eapply triple_keeps with (R := λ r, ∀ enc, r = Ok enc → encode_record (provenance p) = Some enc); [|done|done|intros enc Henc].
  { apply keeps_lift. intros enc. unfold to_vec_pretty. destruct (encode_record (provenance p)); [|done]. by intros [= ->]. }
  specialize (Henc enc eq_refl). destruct (MAX_RECORD_BYTES <? _); [by apply triple_raise|].
  assert (∀ w, service_is e w → user w = u) as Hu by (by intros w [? _]).
  assert (∀ n, ¬ (False ∨ (root st, n) = service_name)) as Hout by (intros n [[]|E]; by apply (outside_service n)).
  eapply triple_keeps; [apply (declare_names st _ _ Hs u Hu (λ n _, Hout n))|done|done|intros [[n ienc] iid] ->].
  cbn beta iota. cbn [bare_intent si_role si_backup].
  eapply triple_catch_bind; [apply (publish_state st _ _ Hs u Hu (λ n _, Hout n)), Hout|]. intros [bid|err]; cbn beta iota.
  2:{ unfold unless_ambiguous. apply triple_pre with (service_is e); [by intros w [? _]|].
      destruct (io_ambiguous err); [by apply triple_raise|].
      eapply triple_keeps with (R := any); [keep; apply (keeps_unlink_state quiet _ _ Hs), Hout|done|done|intros ? _].
      by apply triple_raise. }
  eapply triple_pre with (λ w, ∃ eb, with_backup e eb w ∧ state_entry original u eb).
  { intros w [Hw Hp]. destruct (Hp bid eq_refl) as (eb & He & Hst & _). exists eb. split; [by split|done]. }
  apply triple_ex. intros eb. apply triple_assume. intros Hstate.
  pose proof (about_with_backup e eb) as Hb.
  assert (∀ w, with_backup e eb w → user w = u) as Hub by (by intros w [[? _] _]).
  assert (¬ ((False ∨ (root st, pb_record p) = service_name) ∨ (root st, pb_record p) = backup_name)) as Hrec.
  { intros [?|[= E]]; [by eapply Hout|]. by apply record_not_backup. }
  assert (∀ n, reserved n = true → ¬ ((False ∨ (root st, n) = service_name) ∨ (root st, n) = backup_name)) as Hres.
  { intros n Hn [?|?]; [by eapply Hout|]. by apply (proj1 (reserved_outside n Hn)). }
  eapply triple_catch_bind.
  { eapply triple_conseq; [apply (publish_state st _ _ Hb u Hub Hres), Hrec|done|intros r w Hr; exact Hr|by intros w [? _]]. }
  intros [rid|err]; cbn beta iota.
  - eapply triple_pre with (λ w, ∃ er, (with_backup e eb w ∧ entries w !! record_name = Some er) ∧ state_entry enc u er).
    { intros w [Hw Hp]. destruct (Hp rid eq_refl) as (er & He & Hst & _). exists er. done. }
    apply triple_ex. intros er. apply triple_assume. intros Hster.
    assert (about quiet (λ k, ((False ∨ k = service_name) ∨ k = backup_name) ∨ k = record_name)
      (λ w, with_backup e eb w ∧ entries w !! record_name = Some er)) as Hpin
      by (apply about_pin; [done|intros; by apply quiet_still]).
    assert (keeps (rely:=quiet) (λ w, with_backup e eb w ∧ entries w !! record_name = Some er)
      (unlink_state_if_identity_matches (root st) (intent_name IPrepare (pb_backup p)) iid) any) as Hk.
    { apply (keeps_unlink_state quiet _ _ Hpin). intros [?|?]; [by apply (Hres (intent_name IPrepare (pb_backup p)) (reserved_intent _ _))|].
      by eapply (proj2 (reserved_outside (intent_name IPrepare (pb_backup p)) (reserved_intent _ _))). }
    eapply triple_conseq; [exact Hk|done| |by intros w [[? _] _]]. intros r w [[Hw Her] _]. split; [by destruct Hw|].
    intros _. exists enc. split; [done|]. exists eb, er. done.
  - apply triple_pre with (service_is e); [by intros w [[? _] _]|]. unfold unless_ambiguous.
    destruct (io_ambiguous err); [by apply triple_raise|].
    eapply triple_keeps with (R := any); [|done|done|intros ? _; by apply triple_raise].
    keep; apply (keeps_unlink_state quiet _ _ Hs), Hout.
Qed.

(** *** The service changes at one instant, with the backup in place *)
Definition keeping (eb er : Entry) (w : World) : Prop :=
  (the_user w ∧ entries w !! backup_name = Some eb) ∧ entries w !! record_name = Some er.

Definition kept_names (k : Name) : Prop := (False ∨ k = backup_name) ∨ k = record_name.

Lemma about_keeping eb er : about quiet kept_names (keeping eb er).
Proof. apply about_pin; [apply about_pin; [apply about_user|]|]; intros; by apply quiet_still. Qed.

Lemma kept_reserved n : reserved n = true → ¬ kept_names (root st, n).
Proof using Hbackup Hrecord.
  intros Hn [[[]|E]|E]; [by apply (proj1 (reserved_outside n Hn))|by apply (proj2 (reserved_outside n Hn))].
Qed.

Lemma kept_service n : ¬ kept_names (d, n).
Proof using Hd. unfold kept_names, backup_name, record_name. intros [[[]|[= ? ?]]|[= ? ?]]; congruence. Qed.

Lemma replace_spec expected written after e eb er : idle after →
  triple quiet (holds (keeping eb er) d name e) (replace_pam_with_intent_hook st p path expected written after)
    (λ r w, old_or_new (keeping eb er) d name expected written e w ∧
            (r = Ok tt → is_new (keeping eb er) d name expected written e w))
    (old_or_new (keeping eb er) d name expected written e).
Proof using Hparent Hname Hd Hservice Hbackup Hrecord.
  intros Hidle. pose proof (about_keeping eb er) as HJ.
  assert (∀ w, keeping eb er w → user w = u) as Hu by (by intros w [[? _] _]).
  assert (name ≠ pam_replace_name (pb_backup p)) as Hne by (by intros ->).
  unfold replace_pam_with_intent_hook. cbn zeta. destruct (_ || _); [apply triple_raise; intros w Hw; by split; [left|]|].
  eapply triple_keeps with (R := any); [by apply keeps_lift|by left|by split; [left|]|intros enc _].
  eapply triple_keeps; [|by left|by split; [left|]|intros [[n ienc] iid] Hn].
  { apply (declare_names st _ _ (about_holds _ _ HJ d name e) u (user_holds _ u Hu d name e)
      (holds_reserved st _ kept_reserved d name Hd)). }
  cbn beta iota in Hn |- *.
  eapply triple_bind.
  { apply (replace_bound_spec st _ _ HJ u Hu kept_reserved path d name (pam_replace_name (pb_backup p)) Hparent Hname Hd
      (kept_service _) (kept_service _) Hne); exact Hidle. }
  2:{ by intros. }
  intros [pub res]. cbn beta iota. cbn [fst snd].
  apply (finish_replacement_spec st _ _ HJ kept_reserved d name Hd expected written e (pub, res)).
  - rewrite Hn. apply reserved_intent.
  - intros W HW. eapply keeps_validate; exact HW.
Qed.

(** *** The record is the prepared one or the committed one *)
Section commit.
Context (P : Name → Prop) (J : World → Prop) (HJ : about quiet P J) (Hu : ∀ w, J w → user w = u).
Context (Hres : ∀ n, reserved n = true → ¬ P (root st, n)) (Hrec : ¬ P record_name).

Definition record_is : Entry → World → Prop := one J (root st) (pb_record p).
Definition records (a b : Entry) : World → Prop := both J (root st) (pb_record p) (exchange_name (pb_backup p)) a b.

Lemma exchange_not_record : pb_record p ≠ exchange_name (pb_backup p).
Proof using Hbackup Hrecord. intros E. pose proof reserved_record as Hr. rewrite E in Hr. discriminate Hr. Qed.

Lemma about_record a : about quiet (λ k, P k ∨ k = record_name) (record_is a).
Proof using HJ. apply about_one; [done|]. intros w w'. apply quiet_still. Qed.

Lemma about_records a b :
  about quiet (λ k, (P k ∨ k = record_name) ∨ k = (root st, exchange_name (pb_backup p))) (records a b).
Proof using HJ. apply about_both; [done| |]; intros w w'; apply quiet_still. Qed.

Lemma reserved_not_record n : reserved n = true → ¬ (P (root st, n) ∨ (root st, n) = record_name).
Proof using Hres Hbackup Hrecord. intros Hn [?|?]; [by eapply Hres|by apply (proj2 (reserved_outside n Hn))]. Qed.

Lemma longer_reserved role : intent_name role (pb_backup p) ≠ exchange_name (pb_backup p) ∧
  publication_name PCommit (pb_backup p) ≠ exchange_name (pb_backup p).
Proof. by destruct role. Qed.

Lemma exchange_records a b :
  triple quiet (records a b) (rename_exchange_at (root st) (exchange_name (pb_backup p)) (pb_record p))
    (λ r w, if is_ok r then records b a w else records a b w ∨ records b a w) (λ w, records a b w ∨ records b a w).
Proof using HJ Hres Hrec Hbackup Hrecord.
  unfold rename_exchange_at.
  eapply triple_keeps with (R := any); [apply keeps_check_name|auto|cbn; auto|intros ? _].
  eapply triple_keeps with (R := any); [apply keeps_check_name|auto|cbn; auto|intros ? _].
  eapply triple_bind.
  { eapply triple_conseq; [apply (exchange_both quiet P J HJ (root st) (pb_record p) _ Hrec (Hres _ (reserved_exchange _)) exchange_not_record
      (λ w w', quiet_still w w' _) (λ w w', quiet_still w w' _) a b)|done|intros r w Hr; exact Hr|by left]. }
  2:{ cbn. by left. }
  intros []. cbn beta iota. pose proof (about_records b a) as Hb.
  assert (keeps (rely:=quiet) (records b a) sync_all any) as Hk by keep.
  eapply triple_conseq; [exact Hk|done| |by right]. intros r w [Hw _]. destruct (is_ok r); auto.
Qed.

Lemma keeps_check_committed a b id msg : keeps (rely:=quiet) (records a b) (check_committed st p id msg) any.
Proof using HJ. pose proof (about_records a b). unfold check_committed. keep. Qed.

Lemma keeps_check_committed_one a id msg : keeps (rely:=quiet) (record_is a) (check_committed st p id msg) any.
Proof using HJ. pose proof (about_record a). unfold check_committed. keep. Qed.

Lemma undo_commit_spec a b n iid id pub : reserved n = true → reserved (cp_name pub) = true →
  triple quiet (records b a) (undo_commit st p (exchange_name (pb_backup p)) n iid id pub)
    (λ r w, is_ok r = false ∧ (record_is a w ∨ record_is b w)) (λ w, record_is a w ∨ record_is b w).
Proof using HJ Hres Hrec Hbackup Hrecord.
  intros Hn Hp. unfold undo_commit.
  eapply triple_bind; [eapply triple_conseq; [apply exchange_records|done|intros r w Hr; exact Hr|]| |].
  { intros w [[? _]|[? _]]; auto. }
  2:{ cbn. intros e w [[? _]|[? _]]; auto. }
  intros []. cbn [is_ok]. eapply triple_keeps with (R := any); [|intros w [? _]; auto|intros ? w [? _]; auto|intros r _].
  { apply keeps_catch_any. eapply keeps_observe_any; [apply _|apply about_records]. }
  apply triple_pre with (record_is a); [by intros w [? _]|]. pose proof (about_record a) as Ha.
  eapply triple_keeps with (R := any); [|by auto|by auto|intros ? _].
  { keep. eapply (keeps_unlink_state quiet _ _ Ha). by apply reserved_not_record. }
  eapply triple_keeps with (R := any); [|by auto|by auto|intros ? _; apply triple_raise; by auto].
  apply keeps_ignore_any, (keeps_finish_publication st _ _ Ha reserved_not_record); [done|]. by intros ? [= <-].
Qed.

Lemma publish_commit_spec a b n iid cur id pub : reserved n = true → reserved (cp_name pub) = true →
  triple quiet (records a b) (publish_commit st p (exchange_name (pb_backup p)) n iid cur id pub)
    (λ r w, if is_ok r then record_is b w else record_is a w ∨ record_is b w) (λ w, record_is a w ∨ record_is b w).
Proof using HJ Hres Hrec Hbackup Hrecord.
  intros Hn Hp. unfold publish_commit. pose proof (about_record b) as Hb.
  eapply triple_bind; [eapply triple_conseq; [apply exchange_records|done|intros r w Hr; exact Hr|]| |].
  { intros w [[? _]|[? _]]; auto. }
  2:{ cbn. intros e w [[? _]|[? _]]; auto. }
  intros []. cbn [is_ok].
  eapply triple_keeps; [apply keeps_check_committed|intros w [? _]; auto|cbn; intros ? w [? _]; auto|intros ? _].
  eapply triple_keeps with (R := any); [|intros w [? _]; auto|cbn; intros ? w [? _]; auto|intros displaced _].
  { eapply keeps_observe_any; [apply _|apply about_records]. }
  destruct (negb _).
  { eapply triple_conseq; [by apply (undo_commit_spec a b)|done| |done]. intros r w [Hr ?]. by rewrite Hr. }
  eapply triple_keeps; [apply keeps_check_committed|intros w [? _]; auto|cbn; intros ? w [? _]; auto|intros ? _].
  apply triple_pre with (record_is b); [by intros w [? _]|].
  eapply triple_keeps; [eapply (keeps_unlink_state quiet _ _ Hb); apply reserved_not_record, reserved_exchange|by auto|cbn; by auto|intros ? _].
  eapply triple_keeps; [apply keeps_check_committed_one|by auto|cbn; by auto|intros ? _].
  eapply triple_conseq; [apply (keeps_finish_publication st _ _ Hb reserved_not_record n iid (Some pub) Hn)|done| |by auto].
  - by intros ? [= <-].
  - cbn. intros r w [Hw _]. destruct (is_ok r); auto.
Qed.

Definition committed_record (w : World) : Prop :=
  ∃ enc x, encode_record (committed (provenance p)) = Some enc ∧ state_entry enc u x ∧ record_is x w.

Lemma commit_spec a :
  triple quiet (record_is a) (commit_unlocked st p)
    (λ r w, if is_ok r then committed_record w else record_is a w ∨ committed_record w)
    (λ w, record_is a w ∨ committed_record w).
Proof using HJ Hu Hres Hrec Hbackup Hrecord.
  pose proof (about_record a) as Ha. unfold commit_unlocked.
  assert (∀ w, record_is a w → user w = u) as Hua by (intros w [? _]; auto).
  destruct (negb (path_eqb _ _)); [apply triple_raise; cbn; auto|].
  eapply triple_keeps with (R := λ r, ∀ enc, r = Ok enc → encode_record (committed (provenance p)) = Some enc);
    [|by auto|cbn; by auto|intros encC HC].
  { apply keeps_lift. intros enc. unfold to_vec_pretty. destruct (encode_record _); [|done]. by intros [= ->]. }
  specialize (HC encC eq_refl).
  eapply triple_keeps with (R := any); [by apply keeps_lift|by auto|cbn; by auto|intros encP _]. cbn zeta.
  eapply triple_keeps; [apply (declare_names st _ _ Ha u Hua reserved_not_record)|by auto|cbn; by auto|intros [[n ienc] iid] Hn].
  cbn beta iota in Hn |- *. assert (reserved n = true) as Hnr by (rewrite Hn; apply reserved_intent).
  eapply triple_keeps with (R := any); [keep|by auto|cbn; by auto|intros ? _].
  eapply triple_keeps with (R := any); [keep|by auto|cbn; by auto|intros cur _].
  assert (∀ (c : Io unit) e, keeps (rely:=quiet) (record_is a) c any →
    triple quiet (record_is a) (c;; raise e) (λ r w, if is_ok (A:=unit) r then committed_record w else record_is a w ∨ committed_record w)
      (λ w, record_is a w ∨ committed_record w)) as Hgive.
  { intros c e Hc. eapply triple_keeps; [exact Hc|by auto|cbn; by auto|intros ? _]. apply triple_raise. cbn. auto. }
  destruct (negb _).
  { apply Hgive. keep. eapply (keeps_unlink_state quiet _ _ Ha). by apply reserved_not_record. }
  eapply triple_catch_bind.
  { eapply triple_conseq; [apply (publish_state st _ _ Ha u Hua reserved_not_record), reserved_not_record, reserved_exchange|done|intros r w Hr; exact Hr|by auto]. }
  intros [rid|err]; cbn beta iota.
  2:{ apply triple_pre with (record_is a); [by intros w [? _]|]. unfold unless_ambiguous.
      destruct (io_ambiguous err); [apply triple_raise; cbn; auto|]. apply Hgive. keep.
      eapply (keeps_unlink_state quiet _ _ Ha). by apply reserved_not_record. }
  eapply triple_pre with (λ w, ∃ x, records a x w ∧ state_entry encC u x).
  { intros w [Hw Hp]. destruct (Hp rid eq_refl) as (x & Hx & Hst & _). exists x. done. }
  apply triple_ex. intros x. apply triple_assume. intros Hx. pose proof (about_records a x) as Hr.
  assert (∀ n, reserved n = true → n ≠ exchange_name (pb_backup p) →
    ¬ ((P (root st, n) ∨ (root st, n) = record_name) ∨ (root st, n) = (root st, exchange_name (pb_backup p)))) as Hout.
  { intros m Hm Hne [?|[= ?]]; [by apply (reserved_not_record m)|done]. }
  eapply (triple_keeps _ (catch _)).
  { apply keeps_catch. apply (binding_names_at st _ _ u _ _ _ _ Hr (λ w Hw, Hua w (proj1 Hw)));
      [apply Hout; [apply reserved_publication|apply (longer_reserved IPrepare)]|]. intros. by apply Hout. }
  { intros w [? _]. by left. }
  { done. }
  intros [pub|err] Hpub; cbn in Hpub.
  - eapply triple_conseq; [apply (publish_commit_spec a x n iid cur rid pub Hnr)|done| |].
    + rewrite Hpub. apply reserved_publication.
    + cbn beta. intros r w. destruct (is_ok r); [intros ?; by exists encC, x|]. intros [?|?]; [by left|right; by exists encC, x].
    + intros w [?|?]; [by left|right]. by exists encC, x.
  - apply triple_pre with (record_is a); [by intros w [? _]|]. unfold unless_ambiguous.
    destruct (io_ambiguous err); [apply triple_raise; cbn; auto|]. apply Hgive.
    eapply keeps_then; [eapply keeps_cleanup_temp; [apply _|exact Ha|apply reserved_not_record, reserved_exchange]|intros ?].
    eapply (keeps_unlink_state quiet _ _ Ha). by apply reserved_not_record.
Qed.
End commit.
End install.
