(* ===== verification/PamApplyProofs.v ===== *)
(** * PamApplyProofs: what phase two of the PAM editor guarantees

    Installing the rule in place is one atomic step to everyone who reads the service, and it is
    never there without its way back, whatever fails and wherever the run is stopped. *)

From stdpp Require Import gmap sets.
From S2P Require Import Prelude Text Sealing PamDocument PamFiles PamBackup PamService PamWorld PamState PamStore PamRecovery PamRemoveAll PamApply PamMachine PamLogic PamStateProofs PamStoreProofs.

(** ** Installing a prepared change *)
Section install.
Context `{Json, StateJson, Sha256}.
Context (st : BackupStore) (t : Target) (p : PreparedBackup) (u : Z * Z) (content written : bytes).
Context (d name : string) (expected : FileIdentity) (e : Entry).

(** The service still is the file it was. *)
Definition untouched (w : World) : Prop := entries w !! (d, name) = Some e.

(** The service is the complete new file, the old file is the one the change was planned for, and
    the rollback state holds its bytes under a record written by [encode]. *)
Definition rule_installed (states : list ProvenanceRecord) (w : World) : Prop :=
  expected = identity_for_bytes (fstat e) (e_bytes e) ∧ sha256_hex content = sha256_hex (e_bytes e) ∧
  (∃ x, new_file written expected x ∧ entries w !! (d, name) = Some x) ∧
  (∃ b, state_entry content u b ∧ entries w !! (root st, pb_backup p) = Some b) ∧
  ∃ r enc b, r ∈ states ∧ encode_record r = Some enc ∧ state_entry enc u b ∧
             entries w !! (root st, pb_record p) = Some b.

Definition settled (w : World) : Prop :=
  untouched w ∨ rule_installed [provenance p; committed (provenance p)] w.

(** What a run that is not stopped says and leaves. *)
Definition reported (r : result Outcome IoError) (w : World) : Prop :=
  settled w ∧ match r with
              | Ok Installed => rule_installed [committed (provenance p)] w
              | Ok (Failed _) => True
              | _ => False
              end.

Context (Hparent : parent (path t) = Some d) (Hname : file_name (path t) = Some name).
Context (Hd : d ≠ root st) (Hservice : reserved name = false) (Hbackup : reserved (pb_backup p) = false).
Context (Hrecord : pb_record p = pb_backup p +:+ ".json") (Hidentity : identity t = Some expected).

Lemma settled_old w : service_is u d name e w → settled w.
Proof. intros [_ Hw]. by left. Qed.

(** The two guards that compare what was planned with what is given. *)
Lemma persist_guard : sha256_hex content ≠ pr_original_sha256 (provenance p) →
  keeps (rely:=quiet) (service_is u d name e) (persist st p content) (λ r, is_ok r = false).
Proof.
  intros Hne. unfold persist. cbn zeta.
  assert (String.eqb (sha256_hex content) (pr_original_sha256 (provenance p)) = false) as -> by by apply String.eqb_neq.
  rewrite orb_true_r. by apply keeps_raise.
Qed.

Lemma replace_guard J : id_sha256 expected ≠ pr_original_sha256 (provenance p) →
  keeps (rely:=quiet) J (replace_pam_with_intent st p (path t) expected written) (λ r, is_ok r = false).
Proof.
  intros Hne. unfold replace_pam_with_intent, replace_pam_with_intent_hook. cbn zeta.
  assert (String.eqb (id_sha256 expected) (pr_original_sha256 (provenance p)) = false) as -> by by apply String.eqb_neq.
  rewrite orb_true_r. by apply keeps_raise.
Qed.

Lemma failed_spec (P : World → Prop) m : (∀ w, P w → settled w) → triple quiet P (mret (Failed m)) reported settled.
Proof. intros HP. apply triple_ret. intros w Hw. split; [by apply HP|done]. Qed.

(** The record is the last thing to change. *)
Lemma commit_installed eb er x enc : sha256_hex content = sha256_hex (e_bytes e) →
  expected = identity_for_bytes (fstat e) (e_bytes e) → new_file written expected x → state_entry content u eb →
  state_entry enc u er → encode_record (provenance p) = Some enc → 
  triple quiet (λ w, keeping st p u eb er w ∧ pinned (d, name) x w)
    (attempt ("installed " +:+ reported_path t +:+ ", but failed to commit backup provenance: ")
       (commit_unlocked st p) (λ _, mret Installed)) reported settled.
Proof using All.
  intros Hsha Hexp Hx Heb Her Henc.
  set (J w := (the_user u w ∧ pinned (root st, pb_backup p) eb w) ∧ pinned (d, name) x w).
  assert (about quiet (λ k, (False ∨ k = (root st, pb_backup p)) ∨ k = (d, name)) J) as HJ.
  { apply about_pin; [apply about_pin; [apply about_user|]|]; intros; by apply quiet_still. }
  assert (∀ n, reserved n = true → ¬ ((False ∨ (root st, n) = (root st, pb_backup p)) ∨ (root st, n) = (d, name))) as Hres.
  { intros n Hn [[[]|[= E]]|[= E _]]; congruence. }
  assert (¬ ((False ∨ record_name st p = (root st, pb_backup p)) ∨ record_name st p = (d, name))) as Hrec.
  { intros [[[]|[= E]]|[= E _]]; [|congruence]. by eapply record_not_backup. }
  assert (∀ r b en, (r = provenance p ∨ r = committed (provenance p)) → encode_record r = Some en → state_entry en u b →
            ∀ w, record_is st p J b w → rule_installed [r] w) as Hin.
  { intros r b en Hr Hen Hb w [[[_ Hbk] Hs] Hrc]. split; [done|]. split; [done|]. split; [by exists x|].
    split; [by exists eb|]. exists r, en, b. split; [by left|done]. }
  assert (∀ r w, (r = provenance p ∨ r = committed (provenance p)) → rule_installed [r] w → settled w) as Hset.
  { intros r w Hr (? & ? & ? & ? & r' & en & b & Hr' & ?). right. do 4 (split; [done|]). exists r', en, b. split; [|done].
    apply list_elem_of_singleton in Hr' as ->. destruct Hr as [->| ->]; [left|right; left]. }
  assert (∀ w, record_is st p J er w ∨ committed_record st p u J w → settled w) as Hboth.
  { intros w [Hw|(en & b & Hen & Hb & Hw)]; [apply (Hset (provenance p)); [auto|]; by eapply Hin; eauto|].
    apply (Hset (committed (provenance p))); [auto|]. by eapply Hin; eauto. }
  unfold attempt. eapply triple_catch_bind.
  { eapply triple_conseq; [apply (commit_spec st p u Hbackup Hrecord _ J HJ) with (a := er); try done|intros w Hw|intros r w Hr; exact Hr|exact Hboth].
    - by intros w [[? _] _].
    - destruct Hw as [[[? ?] ?] ?]. by split; [split; [split|]|]. }
  intros [[]|err]; cbn beta iota; [|apply failed_spec; cbn; auto].
  apply triple_ret. cbn. intros w Hw. split; [apply Hboth; by right|].
  destruct Hw as (en & b & Hen & Hb & Hw). by eapply Hin; eauto.
Qed.

(** After a replacement that went well or not. *)
Lemma replaced_installed eb er enc : sha256_hex content = pr_original_sha256 (provenance p) →
  state_entry content u eb → state_entry enc u er → encode_record (provenance p) = Some enc →
  triple quiet (holds (keeping st p u eb er) d name e)
    (attempt ("failed to write " +:+ reported_path t +:+ ": ")
       (replace_pam_with_intent st p (path t) expected written) (λ _,
     attempt ("installed " +:+ reported_path t +:+ ", but failed to commit backup provenance: ")
       (commit_unlocked st p) (λ _, mret Installed))) reported settled.
Proof using All.
  intros Hsha Heb Her Henc.
  destruct (decide (id_sha256 expected = pr_original_sha256 (provenance p))) as [Hx|Hx].
  2:{ unfold attempt at 1. eapply (triple_keeps _ (catch _)); [apply keeps_catch, (replace_guard _ Hx)| |done|].
      - intros w [_ Hw]. by left.
      - intros [[]|err] Hr; [done|]. apply failed_spec. intros w [_ Hw]. by left. }
  assert (planned expected e → sha256_hex content = sha256_hex (e_bytes e)) as Hbytes.
  { unfold planned. intros Hpl. rewrite Hsha, <- Hx, Hpl. done. }
  assert (∀ w, old_or_new (keeping st p u eb er) d name expected written e w → settled w) as Hset.
  { intros w [[_ Hw]|(Hpl & x & Hnew & [[[_ Hb] Hr] Hw])]; [by left|right]. split; [done|]. split; [auto|].
    split; [by exists x|]. split; [by exists eb|]. exists (provenance p), enc, er. split; [set_solver|done]. }
  unfold attempt at 1. eapply triple_catch_bind.
  { eapply triple_conseq; [eapply (replace_spec st p u (path t) d name); eauto using idle_ret|done|intros r w Hr; exact Hr|exact Hset]. }
  intros [[]|err]; cbn beta iota; [|apply failed_spec; intros w [Hw _]; auto].
  eapply triple_pre with (λ w, ∃ x, (keeping st p u eb er w ∧ pinned (d, name) x w) ∧ (planned expected e ∧ new_file written expected x)).
  { intros w [_ Hw]. destruct (Hw eq_refl) as (Hpl & x & Hnew & [Hk Hp]). by exists x. }
  apply triple_ex. intros x. apply triple_assume. intros [Hpl Hnew].
  by apply (commit_installed eb er x enc); auto.
Qed.

Lemma install_prepared_atomic :
  triple quiet (λ w, user w = u ∧ untouched w) (install_prepared st t p content written) reported settled.
Proof using All.
  unfold install_prepared. rewrite Hidentity.
  apply triple_pre with (service_is u d name e); [done|].
  destruct (decide (sha256_hex content = pr_original_sha256 (provenance p))) as [Hsha|Hsha].
  2:{ unfold attempt at 1. eapply (triple_keeps _ (catch _)); [apply keeps_catch, (persist_guard Hsha)|apply settled_old|done|].
      intros [[]|err] Hr; [done|]. apply failed_spec, settled_old. }
  unfold attempt at 1. eapply triple_catch_bind.
  { eapply triple_conseq; [eapply (persist_pair_spec st p u d name); eauto|done|intros r w Hr; exact Hr|apply settled_old]. }
  intros [[]|err]; cbn beta iota; [|apply failed_spec; intros w [Hw _]; by apply settled_old].
  eapply triple_pre with (λ w, ∃ x, holds (keeping st p u (fst (fst x)) (snd (fst x))) d name e w ∧
    (state_entry content u (fst (fst x)) ∧ state_entry (snd x) u (snd (fst x)) ∧ encode_record (provenance p) = Some (snd x))).
  { intros w [[Hu Hs] Hw]. destruct (Hw eq_refl) as (enc & Henc & eb & er & [_ Hb] & Hr & Heb & Her).
    exists (eb, er, enc). by split; [split; [split; [split|]|]|]. }
  apply triple_ex. intros [[eb er] enc]. cbn [fst snd]. apply triple_assume. intros (Heb & Her & Henc).
  by apply (replaced_installed eb er enc).
Qed.
End install.

(** ** What planning a backup names *)
Lemma plan_names `{Json, Sha256} fs st s original installed now p :
  plan_at_unlocked fs st s original installed now = Ok p → reserved s = false →
  reserved (pb_backup p) = false ∧ pb_record p = pb_backup p +:+ ".json" ∧
  pr_service (provenance p) = s ∧ pr_original_sha256 (provenance p) = sha256_hex original ∧
  pr_installed_sha256 (provenance p) = sha256_hex installed.
Proof.
  unfold plan_at_unlocked. intros Hp Hs. destruct (negb (confined s)) eqn:Hc; [done|].
  destruct (next_sequence fs st) as [n|]; [|done].
  destruct (probe_name _ fs st s now) as [b|] eqn:Hb; [|done]. injection Hp as <-. cbn. split; [|done].
  assert (∃ tail, b = s +:+ "." +:+ tail) as [tail ->].
  { clear Hc. revert now Hb. induction MAX_TIMESTAMP_COLLISION_PROBES as [|probes IH]; intros now Hb; [done|].
    cbn [probe_name] in Hb. destruct (negb _); [|by eapply IH]. injection Hb as <-. unfold backup_name_at. eauto. }
  apply reserved_dot; [done|]. intros ->. done.
Qed.

(** ** Installing in place, planning included *)
Section in_place.
Context `{Json, StateJson, Sha256}.
Context (st : BackupStore) (term : Terminal) (no_confirm : bool) (t : Target) (content written : bytes) (u : Z * Z).
Context (d name : string) (expected : FileIdentity) (e : Entry).

(** The record says which service was changed, from which bytes and to which. *)
Definition change_of (p : PreparedBackup) : Prop :=
  pr_service (provenance p) = service t ∧ pr_original_sha256 (provenance p) = sha256_hex content ∧
  pr_installed_sha256 (provenance p) = sha256_hex written.

Definition installed_by (states : PreparedBackup → list ProvenanceRecord) (w : World) : Prop :=
  ∃ p, change_of p ∧ rule_installed st p u content written d name expected e (states p) w.

(** The old file, or the new one with its way back. *)
Definition all_or_nothing (w : World) : Prop :=
  untouched d name e w ∨ installed_by (λ p, [provenance p; committed (provenance p)]) w.

Definition told_truly (r : result Outcome IoError) (w : World) : Prop :=
  match r with
  | Ok Installed => installed_by (λ p, [committed (provenance p)]) w
  | Ok Declined => untouched d name e w
  | Ok (Failed _) => all_or_nothing w
  | _ => False
  end.

(** C8.  Adding the rule to a service is all or nothing, and never without its way back.
    Whichever steps fail and wherever the run is killed, as long as no other process edits the files,
    the service is the file it was, or it is the complete new file with the old one's mode and
    owner, and then the rollback state holds a file with the old file's digest, private to its
    owner, under a record of this very change. A run that reports success has left the new file
    and a committed record; one that was declined has left the service alone. *)
Theorem installation_is_atomic :
  parent (path t) = Some d → file_name (path t) = Some name → d ≠ root st → reserved name = false →
  reserved (service t) = false → identity t = Some expected →
  triple quiet (λ w, user w = u ∧ untouched d name e w) (install_in_place st term no_confirm t content written)
    told_truly all_or_nothing.
Proof.
  intros Hparent Hname Hd Hfile Hservice Hid. unfold install_in_place.
  set (J w := user w = u ∧ untouched d name e w).
  assert (about quiet (λ k, False ∨ k = (d, name)) J) as HJ.
  { apply about_pin; [apply about_user|]. intros w w'. apply quiet_still. }
  assert (∀ w, J w → all_or_nothing w) as Hold by (intros w [_ Hw]; by left).
  unfold attempt. eapply (triple_keeps J (catch _)) with (R := λ r, match r with
    | Ok r => ∀ p, r = Ok p → (reserved (pb_backup p) = false ∧ pb_record p = pb_backup p +:+ ".json") ∧ change_of p
    | Err _ => False end); [|done|done|].
  { apply keeps_catch. unfold plan_backup.
    eapply keeps_bind with (R1 := any); [by apply keeps_look|intros now _|done].
    eapply keeps_observe; [apply _|exact HJ|]. intros w fs _ _ p Hp.
    destruct (plan_names _ _ _ _ _ _ _ Hp Hservice) as (? & ? & ? & ? & ?). done. }
  intros [p|err] Hp; [|apply triple_ret; intros w Hw; by apply Hold].
  destruct (Hp p eq_refl) as [[Hb Hr] Hc]. unfold unless_declined.
  destruct (confirm _ _ _) as [[]|err]; [|apply triple_ret; by intros w [_ Hw]|apply triple_ret; intros w Hw; by apply Hold].
  assert (∀ w, settled st p u content written d name expected e w → all_or_nothing w) as Hset.
  { intros w [Hw|Hw]; [by left|right; by exists p]. }
  eapply triple_conseq; [by apply (install_prepared_atomic st t p u content written d name expected e)|done| |exact Hset].
  intros [[]|err] w [Hw Hrep]; try done; [by exists p|by apply Hset].
Qed.
End in_place.

(** The change of [sudo] on the toy machine. *)
Definition sudo_before : bytes := bytes_of (String.concat (String newline "") ["#%PAM-1.0"; "auth include system-auth"; ""]).
Definition sudo_after : bytes := with_facelock_inserted sudo_before.
Definition sudo_target : Target :=
  {| service := "sudo"; path := "/etc/pam.d/sudo"; origin := Local; shadowed := None;
     identity := Some (@identity_for_bytes toy_sha256 (fstat (service_file 10 sudo_before)) sudo_before);
     plan := Rewrite sudo_before |}.
Definition no_terminal : Terminal := {| stdin_is_tty := false; stderr_is_tty := false; interact := λ _, Ok true |}.

Lemma installation_is_atomic_witness :
  let J := toy_json in let SJ := toy_state_json in let H := toy_sha256 in
  wp quiet (install_in_place toy_store no_terminal true sudo_target sudo_before sudo_after)
    (λ o w, match o with
            | Done r => told_truly toy_store sudo_target sudo_before sudo_after (0, 0) PAM_DIR "sudo"
                          (identity_for_bytes (fstat (service_file 10 sudo_before)) sudo_before) (service_file 10 sudo_before) r w
            | Killed => all_or_nothing toy_store sudo_target sudo_before sudo_after (0, 0) PAM_DIR "sudo"
                          (identity_for_bytes (fstat (service_file 10 sudo_before)) sudo_before) (service_file 10 sudo_before) w
            end)
    (toy_world [("sudo", sudo_before)]).
Proof. intros J SJ H. apply installation_is_atomic; [reflexivity|reflexivity|discriminate|reflexivity|reflexivity|reflexivity|]. split; reflexivity. Defined.
