(* ===== verification/PamRemoveAllProofs.v ===== *)
(** * PamRemoveAllProofs: what rolling back a machine-wide removal leaves

    A roll-back that reports success has put every service of the batch back to the very file the
    batch found, identity and bytes, however far the batch had come. *)

From stdpp Require Import gmap.
From S2P Require Import Prelude Text Sealing PamDocument PamFiles PamBackup PamService PamWorld PamState PamStore PamRecovery PamRemoveAll PamMachine PamLogic PamStateProofs PamStoreProofs PamServiceProofs.

(** ** Steps in the state directory keep what is known of the services *)
Section keep.
Context `{Json, StateJson, Sha256}.
Context (st : BackupStore) (P : Name → Prop) (J : World → Prop) (HJ : about quiet P J).
Context (u : Z * Z) (Hu : ∀ w, J w → user w = u) (Hroot : ∀ n, ¬ P (root st, n)).

Lemma keeps_unlink_in_root n id : keeps (rely:=quiet) J (unlink_state_if_identity_matches (root st) n id) any.
Proof using HJ Hroot. by eapply keeps_unlink_state; eauto with reserved. Qed.

Lemma keeps_publish_in_root n b : keeps (rely:=quiet) J (atomic_state_create (root st) n b) any.
Proof using HJ Hu Hroot. eapply keeps_publish; eauto with reserved. Qed.

Lemma keeps_for_each {A} (f : A → Io unit) l : (∀ a, keeps (rely:=quiet) J (f a) any) → keeps (rely:=quiet) J (for_each f l) any.
Proof using HJ. intros Hf. induction l as [|a l IH]; cbn [for_each]; [by apply keeps_ret|]. by apply keeps_then. Qed.

Lemma keeps_unlink_temp d n id limit : ¬ P (d, n) → keeps (rely:=quiet) J (unlink_at_if_identity_matches d n id limit) any.
Proof using HJ. intros. by eapply keeps_unlink_at; eauto with reserved. Qed.

Ltac keep_call ::= first
  [ apply keeps_unlink_in_root | apply keeps_publish_in_root | apply keeps_for_each; intros ? | apply keeps_unlink_temp
  | eapply keeps_rename_noreplace_at; [eauto with reserved|exact HJ|apply Hroot|apply Hroot] ].

Lemma keeps_declare_in_root i : keeps (rely:=quiet) J (declare st i) any.
Proof using HJ Hu Hroot. unfold declare. keep. Qed.

Lemma keeps_cleanup_one p : keeps (rely:=quiet) J (cleanup_one_at st p) any.
Proof using HJ Hu Hroot. unfold cleanup_one_at. cbn zeta. keep; try apply keeps_declare_in_root; unfold quarantine_or_undo; keep. Qed.

Lemma keeps_recover_cleanup v : keeps (rely:=quiet) J (recover_cleanup_intent st v) any.
Proof using HJ Hroot. unfold recover_cleanup_intent, resume_quarantine, unlink_quarantined, forget_intent. cbn zeta. keep. Qed.

Lemma keeps_all_absent l : keeps (rely:=quiet) J (all_absent st l) any.
Proof using HJ. induction l as [|n l IH]; cbn [all_absent]; [by apply keeps_ret|]. keep. apply IH. Qed.

Lemma keeps_cleanup_pairs j : keeps (rely:=quiet) J (cleanup_remove_all_pairs st j) any.
Proof using HJ Hu Hroot.
  unfold cleanup_remove_all_pairs. keep. unfold cleanup_remove_all_pair, remove_all_pair_state_is_absent. cbn zeta.
  keep; try apply keeps_recover_cleanup; try apply keeps_all_absent; apply keeps_cleanup_one.
Qed.

Lemma keeps_unlink_journal n id : keeps (rely:=quiet) J (unlink_remove_all_state st n id) any.
Proof using HJ Hroot. unfold unlink_remove_all_state. keep. apply Hroot. Qed.

Lemma keeps_exact_publication t : keeps (rely:=quiet) J (exact_batch_publication st t) any.
Proof using HJ. unfold exact_batch_publication. cbn zeta. keep. Qed.

(** A replacement that never began is only given up while the service is the original. *)
Lemma keeps_unstarted dirs t current : keeps (rely:=quiet) J (recover_unstarted_remove_all_publication st dirs t current)
  (λ r, r = Ok true → jt_original t = current).
Proof using HJ Hroot.
  unfold recover_unstarted_remove_all_publication. cbn zeta.
  assert (∀ A (c : Io A) k, keeps (rely:=quiet) J c any → (∀ a, keeps (rely:=quiet) J (k a) (λ r, r = Ok true → jt_original t = current)) →
    keeps (rely:=quiet) J (c ≫= k) (λ r, r = Ok true → jt_original t = current)) as Hthen.
  { intros A c k Hc Hk. eapply keeps_bind; eauto. done. }
  apply Hthen; [keep|intros _]. apply Hthen; [keep|intros []]; [by apply keeps_ret|].
  apply Hthen; [keep|intros intents]. destruct (List.find _ intents) as [v|]; [|by apply keeps_ret].
  apply Hthen; [keep|intros prepared]. destruct (record_identity prepared) as [record|]; [|by apply keeps_raise].
  destruct (_ || _); [by apply keeps_ret|].
  destruct (identity_matches (jt_original t) current) eqn:E; cbn [negb]; [|by apply keeps_ret].
  apply bool_decide_eq_true in E.
  apply Hthen; [keep|intros _]. apply Hthen; [keep|intros []]; [by apply keeps_ret|].
  apply Hthen; [keep|intros _]. by apply keeps_ret.
Qed.
End keep.

(** ** One target *)
Definition original_at (d : string) (t : RemoveAllJournalTarget) `{Sha256} (w : World) : Prop :=
  ∃ x, entries w !! (d, jt_service t) = Some x ∧ identity_for_bytes (fstat x) (e_bytes x) = jt_original t.

Lemma about_holding {P J} k o : about quiet P J → about quiet (λ k', P k' ∨ k' = k) (λ w, J w ∧ entries w !! k = o).
Proof.
  intros HJ. split.
  - intros w w' [Hw He] Hr. split; [by eapply about_rely|]. by rewrite (quiet_still w w').
  - intros w w' [Hw He] [U E D (l & R & F1) O]. split.
    + eapply about_agree; [done|done|]. split; auto. exists l. split; [done|].
      eapply Forall_impl; [exact F1|]. cbn. tauto.
    + rewrite E by auto. done.
Qed.

Section target.
Context `{Json, StateJson, Sha256}.
Context (st : BackupStore) (dirs : PamDirs) (t : RemoveAllJournalTarget).
Context (P : Name → Prop) (J : World → Prop) (HJ : about quiet P J) (u : Z * Z) (Hu : ∀ w, J w → user w = u).
Context (Hroot : ∀ n, ¬ P (root st, n)) (Hd : overrides dirs ≠ root st).
Context (Hservice : ¬ P (overrides dirs, jt_service t)) (Htemp : ∀ n, reserved n = true → ¬ P (overrides dirs, n)).
Context (Hplain : reserved (jt_service t) = false).
Context (Hparent : parent (join (overrides dirs) (jt_service t)) = Some (overrides dirs))
        (Hname : file_name (join (overrides dirs) (jt_service t)) = Some (jt_service t)).
Abbreviation d := (overrides dirs).

Section pinned.
Context (o : option Entry).

Definition at_service (w : World) : Prop := J w ∧ entries w !! (d, jt_service t) = o.
Definition was_original : Prop := ∃ x, o = Some x ∧ identity_for_bytes (fstat x) (e_bytes x) = jt_original t.

Lemma about_at_service : about quiet (λ k, P k ∨ k = (d, jt_service t)) at_service.
Proof using HJ. by apply about_holding. Qed.

Lemma at_service_user w : at_service w → user w = u.
Proof using Hu. intros [? _]. auto. Qed.

Lemma at_service_root n : ¬ (P (root st, n) ∨ (root st, n) = (d, jt_service t)).
Proof using Hroot Hd. intros [?|[= ? _]]; [by eapply Hroot|congruence]. Qed.

Lemma at_service_temp n : reserved n = true → ¬ (P (d, n) ∨ (d, n) = (d, jt_service t)).
Proof using Htemp Hplain. intros Hn [?|[= ?]]; [by eapply Htemp|congruence]. Qed.

Lemma original_when w : was_original → at_service w → original_at d t w.
Proof. intros (x & Ho & Hx) [_ Hw]. exists x. by rewrite <- Ho. Qed.

Lemma service_identity_pinned : keeps (rely:=quiet) at_service (service_identity dirs (jt_service t))
  (λ r, ∀ id, r = Ok id → jt_original t = id → was_original).
Proof using HJ.
  unfold service_identity.
  eapply keeps_bind with (R1 := λ r, ∀ id, r = Ok (Some id) → jt_original t = id → was_original); [| |done].
  - eapply keeps_observe; [apply _|apply about_at_service|]. intros w fs [_ Hw] Hfs id Hr He. unfold open_identity_at in Hr.
    pose proof (open_regular_honest w fs d (jt_service t) Hfs) as Ho.
    destruct (open_regular_at fs d (jt_service t)) as [f|]; [|by destruct (is_not_found _)]. destruct Ho as (x & Hx & _ & _ & Hf).
    destruct (identity_of_open_bounded f MAX_BACKUP_BYTES) as [id'|] eqn:Ei; [|done]. injection Hr as ->.
    exists x. split; [congruence|]. by rewrite He, (identity_honest x f _ id Hf Ei).
  - intros [id|] Hid; [apply keeps_ret; intros ? [= <-]; by apply Hid|by apply keeps_raise].
Qed.

Lemma read_service_pinned : keeps (rely:=quiet) at_service
  (observe (λ fs, read_regular_nofollow fs (join d (jt_service t))))
  (λ r, ∀ b id, r = Ok (b, id) → jt_original t = id → was_original).
Proof using HJ Hparent Hname.
  eapply keeps_observe; [apply _|apply about_at_service|]. intros w fs [_ Hw] Hfs b id Hr He.
  unfold read_regular_nofollow in Hr. rewrite Hparent, Hname in Hr.
  destruct (open_directory_nofollow fs d); [|done]. pose proof (open_regular_honest w fs d (jt_service t) Hfs) as Ho.
  destruct (open_regular_at fs d (jt_service t)) as [f|]; [|done]. destruct Ho as (x & Hx & _ & _ & Hf).
  destruct (file_metadata f) as [m|] eqn:Em; [|done]. destruct (read_open_bounded f MAX_BACKUP_BYTES) as [c|] eqn:Ec; [|done].
  injection Hr as <- <-. exists x. split; [congruence|].
  by rewrite He, (metadata_honest x f m Hf Em), (read_honest x f _ c Hf Ec).
Qed.

Lemma keeps_finish_rolled_back p temp : reserved temp = true →
  keeps (rely:=quiet) at_service (finish_rolled_back_remove_all_publication st dirs t p temp) (λ r, r = Ok tt → was_original).
Proof using HJ Hu Hroot Hd Htemp Hplain.
  intros Ht. unfold finish_rolled_back_remove_all_publication.
  pose proof about_at_service as Ha. pose proof at_service_root as Hr.
  eapply keeps_bind with (R1 := any); [keep|intros _ _|done].
  eapply keeps_bind; [apply service_identity_pinned|intros current Hcur|done]. specialize (Hcur current eq_refl).
  destruct (identity_matches (jt_original t) current) eqn:E; cbn [negb]; [|by apply keeps_raise].
  apply bool_decide_eq_true in E. specialize (Hcur E).
  eapply keeps_weaken with (R' := any); [|done].
  assert (∀ n id l, reserved n = true → keeps (rely:=quiet) at_service (unlink_at_if_identity_matches d n id l) any) as Hunlink.
  { intros n id l Hn. eapply keeps_unlink_temp; [exact Ha|by apply at_service_temp]. }
  keep; try (by apply Hunlink); try (eapply keeps_unlink_in_root; [exact Ha|exact Hr]).
  - unfold service_identity. keep.
  - eapply keeps_weaken; [by eapply keeps_unstarted|done].
Qed.
End pinned.

Definition told_original (r : result (list string) IoError) (w : World) : Prop :=
  J w ∧ (r = Ok [] → original_at d t w).

Lemma pin_service {A} (c : Io A) Q : (∀ o, triple quiet (at_service o) c Q J) → triple quiet J c Q J.
Proof.
  intros Hc. eapply triple_pre; [|apply (triple_ex at_service), Hc]. intros w Hw. by exists (entries w !! (d, jt_service t)).
Qed.

Lemma ambiguous_spec o reasons : (reasons = [] → was_original o) →
  triple quiet (at_service o) (mret reasons) told_original J.
Proof using HJ.
  intros Ho. apply triple_ret. intros w Hw. split; [by destruct Hw|]. intros [= ->]. apply (original_when o w); auto.
Qed.

Lemma finish_rolled_back_spec p :
  triple quiet J (finish_rolled_back_remove_all_publication st dirs t p (pam_replace_name (jt_backup t));; mret [])
    told_original J.
Proof using HJ Hu Hroot Hd Htemp Hplain.
  apply pin_service. intros o. eapply triple_keeps; [by apply (keeps_finish_rolled_back o)|by intros w [? _]| |].
  - intros e w [? _] _. split; [done|]. done.
  - intros [] Ho. apply ambiguous_spec. auto.
Qed.

Lemma catch_pinned {A B} o (c : Io A) (k : result A IoError → Io B) R Q :
  keeps (rely:=quiet) (at_service o) c R → (∀ r, R r → triple quiet (at_service o) (k r) Q J) →
  triple quiet (at_service o) (catch c ≫= k) Q J.
Proof.
  intros Hc Hk. eapply triple_keeps; [by apply keeps_catch|by intros w [? _]|done|auto].
Qed.

Lemma rollback_target_spec : triple quiet J (rollback_target st dirs t) told_original J.
Proof using All.
  apply pin_service. intros o. pose proof (about_at_service o) as Ha. pose proof at_service_root as Hr.
  unfold rollback_target. cbn zeta.
  eapply catch_pinned; [apply (read_service_pinned o)|intros [[b current]|e] Hcur; [|by apply ambiguous_spec]].
  specialize (Hcur b current eq_refl).
  eapply catch_pinned; [eapply keeps_unstarted; eauto|intros [[]|e] Hun; [| |by apply ambiguous_spec]].
  { apply ambiguous_spec. auto. }
  eapply catch_pinned; [eapply keeps_exact_publication; eauto|intros [[[i p]|]|e] _; [| |by apply ambiguous_spec]].
  2:{ apply ambiguous_spec. unfold identity_matches. case_bool_decide; [auto|done]. }
  eapply (catch_pinned _ _ _ any); [keep|intros [dir|e] _; [|by apply ambiguous_spec]].
  eapply (catch_pinned _ _ _ any); [keep|intros [temp|e] _; [|by apply ambiguous_spec]].
  destruct (_ && _).
  - apply triple_pre with J; [by intros w [? _]|]. eapply (triple_keeps J (catch _)) with (R := any); [|done|done|].
    + apply keeps_catch_any. eapply keeps_rename_exchange_at; eauto with reserved.
    + intros [[]|e] _; [apply finish_rolled_back_spec|]. apply pin_service. intros o'. by apply ambiguous_spec.
  - destruct (_ || _); [by apply ambiguous_spec|]. eapply triple_pre; [|apply finish_rolled_back_spec]. by intros w [? _].
Qed.
End target.

(** ** All targets *)
Lemma dedup_length seen l : (length (dedup seen l) ≤ length seen + length l)%nat.
Proof.
  revert seen. induction l as [|s l IH]; intros seen; cbn; [lia|]. etrans; [apply IH|].
  destruct (list_has s seen); rewrite ?length_app; cbn; lia.
Qed.

Lemma dedup_distinct seen l : length (dedup seen l) = (length seen + length l)%nat →
  NoDup l ∧ ∀ s, s ∈ l → list_has s seen = false.
Proof.
  revert seen. induction l as [|s l IH]; cbn; intros seen Hl; [split; [constructor|by intros s ?%elem_of_nil]|].
  destruct (list_has s seen) eqn:Es; [pose proof (dedup_length seen l); lia|].
  destruct (IH (seen ++ [s])) as [Hn Hs]; [rewrite Hl, length_app; cbn; lia|].
  assert (∀ x, x ∈ l → x ≠ s ∧ list_has x seen = false) as Hx.
  { intros x Hx%Hs. unfold list_has in *. rewrite existsb_app in Hx. apply orb_false_iff in Hx as [? Hx]. cbn in Hx. rewrite orb_false_r in Hx. split; [by apply String.eqb_neq|done]. }
  split.
  - constructor; [|done]. intros []%Hx. done.
  - intros x [->|Hin]%elem_of_cons; [done|by apply Hx].
Qed.

Lemma distinct_services_nodup l : distinct_services l = true → NoDup l.
Proof. intros Hl%Nat.eqb_eq. by apply (dedup_distinct []) in Hl as [? _]. Qed.

Lemma parent_join base s : confined s = true → base ≠ ""%string → path_of (components base) = base →
  parent (join base s) = Some base.
Proof.
  intros Hs Hb Hn. unfold parent. by rewrite components_join, last_snoc, removelast_last, Hn by done.
Qed.

Section batch.
Context `{Json, StateJson, Sha256}.
Context (st : BackupStore) (dirs : PamDirs) (u : Z * Z) (Hd : overrides dirs ≠ root st).
Context (Hne : overrides dirs ≠ ""%string) (Hnormal : path_of (components (overrides dirs)) = overrides dirs).
Abbreviation d := (overrides dirs).

Lemma rollback_targets_spec targets P J : about quiet P J → (∀ w, J w → user w = u) → (∀ n, ¬ P (root st, n)) →
  (∀ n, reserved n = true → ¬ P (d, n)) → NoDup (map jt_service targets) →
  (∀ t, t ∈ targets → confined (jt_service t) = true ∧ reserved (jt_service t) = false ∧ ¬ P (d, jt_service t)) →
  triple quiet J (rollback_targets st dirs targets)
    (λ r w, J w ∧ (r = Ok [] → ∀ t, t ∈ targets → original_at d t w)) J.
Proof using Hd Hne Hnormal.
  revert P J. induction targets as [|t targets IH]; cbn [rollback_targets map]; intros P J HJ Hu Hroot Htemp Hdup Ht.
  { apply triple_ret. intros w Hw. split; [done|]. by intros _ t ?%elem_of_nil. }
  apply NoDup_cons in Hdup as [Hfresh Hdup]. destruct (Ht t) as (Hc & Hplain & Hservice); [by left|].
  pose proof (λ t' Hin, Ht t' (proj2 (elem_of_cons targets t' t) (or_intror Hin))) as Hrest.
  eapply triple_bind.
  { eapply rollback_target_spec; eauto; [by apply parent_join|by apply file_name_join]. }
  2:{ intros e w [Hw _]. split; [done|]. done. }
  intros [|reason reasons].
  - eapply triple_pre with (λ w, ∃ x, (J w ∧ entries w !! (d, jt_service t) = Some x) ∧
      identity_for_bytes (fstat x) (e_bytes x) = jt_original t).
    { intros w [Hw Ho]. destruct (Ho eq_refl) as (x & Hx & Hi). by exists x. }
    apply (triple_ex (λ x w, (J w ∧ entries w !! (d, jt_service t) = Some x) ∧
      identity_for_bytes (fstat x) (e_bytes x) = jt_original t)). intros x.
    apply triple_assume. intros Hi. eapply triple_bind.
    { eapply triple_conseq; [apply (IH _ _ (about_holding (d, jt_service t) (Some x) HJ))|done|intros r w Hr; exact Hr|by intros w [? _]];
        [intros w [? _]; auto| | |done|].
      - intros n [?|[= ? _]]; [by eapply Hroot|congruence].
      - intros n Hn [?|[= ->]]; [by eapply Htemp|congruence].
      - intros t' Hin. destruct (Hrest t' Hin) as (? & ? & ?). split; [done|]. split; [done|].
        intros [?|[= E]]; [done|]. apply Hfresh. rewrite <- E. by apply list_elem_of_fmap_2. }
    + intros rest. apply triple_ret. cbn. intros w [[Hw Hx] Hr]. split; [done|]. intros [= ->] t' [->|Hin]%elem_of_cons; [by exists x|auto].
    + intros e w [[Hw _] _]. by split.
  - apply triple_pre with J; [by intros w [? _]|]. eapply triple_bind; [eapply IH; eauto|intros rest|].
    + apply triple_ret. intros w [Hw _]. by split.
    + intros e w [Hw _]. by split.
Qed.

(** ** The whole roll-back *)
Context (j : RemoveAllJournal) (before : World).

(** The files of the service directory that the batch is not about. *)
Definition rest_untouched (w : World) : Prop :=
  user w = u ∧ ∀ n, reserved n = false → n ∉ map jt_service (ja_targets j) → entries w !! (d, n) = entries before !! (d, n).

Definition other_names (k : Name) : Prop := k.1 = d ∧ reserved k.2 = false ∧ k.2 ∉ map jt_service (ja_targets j).

Lemma about_rest : about quiet other_names rest_untouched.
Proof.
  split; intros w w' [Hw He] Hr; (split; [rewrite <- Hw; apply Hr|]); intros n Hn Hin; rewrite <- He by done.
  - by apply quiet_still.
  - by apply Hr.
Qed.

Definition all_original (w : World) : Prop := rest_untouched w ∧ ∀ t, t ∈ ja_targets j → original_at d t w.

Lemma about_all_original : (∀ t, t ∈ ja_targets j → reserved (jt_service t) = false) →
  about quiet (λ k, k.1 = d ∧ reserved k.2 = false) all_original.
Proof.
  intros Hres. split; intros w w' [[Hw He] Ho] Hr; (split; [split; [rewrite <- Hw; apply Hr|]|]).
  - intros n Hn Hin. rewrite <- He by done. by apply quiet_still.
  - intros t Ht. destruct (Ho t Ht) as (x & Hx & Hi). exists x. by rewrite (quiet_still w w').
  - intros n Hn Hin. rewrite <- He by done. by apply Hr.
  - intros t Ht. destruct (Ho t Ht) as (x & Hx & Hi). exists x. split; [|done]. rewrite <- Hx. apply Hr. split; [done|by apply Hres].
Qed.

(** C9.  Rolling a machine-wide removal back puts everything back or says so. In a world where
    nobody else edits the files, however far the interrupted batch had come, whatever fails and
    wherever the roll-back itself is stopped, it leaves every file of the service directory alone
    that is neither a service of the batch nor of the protocol's own; and when it reports success,
    every service of the batch is the very file the batch found: inode, owner, mode and bytes. *)
Theorem rollback_restores journal_name journal_identity :
  valid_remove_all_journal j = true → (∀ t, t ∈ ja_targets j → reserved (jt_service t) = false) →
  triple quiet rest_untouched (rollback_remove_all st dirs j journal_name journal_identity)
    (λ r w, rest_untouched w ∧ (r = Ok tt → ∀ t, t ∈ ja_targets j → original_at d t w)) rest_untouched.
Proof using All.
  intros Hv Hres. unfold rollback_remove_all. unfold valid_remove_all_journal in Hv. bsplit.
  assert (∀ t, t ∈ ja_targets j → confined (jt_service t) = true) as Hconf.
  { intros t Ht. assert (valid_remove_all_target t = true) as Hvt.
    { eapply forallb_forall; [eassumption|]. by apply list_elem_of_In. }
    unfold valid_remove_all_target, valid_remove_all_file in Hvt. by bsplit. }
  eapply triple_bind.
  { apply (rollback_targets_spec (rev (ja_targets j)) other_names rest_untouched about_rest); [by intros w [? _]|..].
    - intros n [E _]. cbn in E. congruence.
    - intros n Hn (_ & E & _). cbn [snd] in E. congruence.
    - rewrite map_rev, <- Permutation_rev. by apply distinct_services_nodup.
    - intros t Ht. rewrite <- Permutation_rev in Ht. split_and!; [by apply Hconf|by apply Hres|].
      intros (_ & _ & E). cbn [snd] in E. apply E. by apply (list_elem_of_fmap_2 jt_service). }
  2:{ intros e w [Hw _]. by split. }
  intros ambiguous. destruct (bool_decide (ambiguous = [])) eqn:E; cbn [negb]; [|apply triple_raise; intros w [? _]; by split].
  apply bool_decide_eq_true in E as ->.
  apply triple_pre with all_original.
  { intros w [Hw Ho]. split; [done|]. intros t Ht. apply Ho; [done|]. by rewrite <- Permutation_rev. }
  pose proof (about_all_original Hres) as Ha.
  assert (∀ n, ¬ ((root st, n).1 = d ∧ reserved (root st, n).2 = false)) as Hr by (intros n [E _]; cbn in E; congruence).
  assert (∀ w, all_original w → user w = u) as Hua by (by intros w [[? _] _]).
  assert (keeps (rely:=quiet) all_original
    (cleanup_remove_all_pairs st j;; unlink_remove_all_state st journal_name journal_identity) any) as Hk.
  { apply keeps_then; [by eapply keeps_cleanup_pairs|intros _; by eapply keeps_unlink_journal]. }
  eapply triple_conseq; [exact Hk|done| |by intros w [? _]]. intros r w [[Hw Ho] _]. by split.
Qed.
End batch.

(** A batch of one service on the toy machine. *)
Definition batch_before : bytes := bytes_of "auth include system-auth".
Definition toy_batch : RemoveAllJournal :=
  {| ja_version := 2; ja_operation := "1700000000-000000000"; ja_keep_backup := true;
     ja_targets := [{| jt_service := "sudo"; jt_backup := "sudo.1700000000-000000000";
                       jt_original := @identity_for_bytes toy_sha256 (fstat (service_file 10 batch_before)) batch_before;
                       jt_installed_sha256 := @sha256_hex toy_sha256 []; jt_delete_override := Some false |}] |}.
Definition batch_world : World := toy_world [("sudo", batch_before); ("su", [])].

Lemma rollback_restores_witness :
  let J := toy_json in let SJ := toy_state_json in let H := toy_sha256 in
  wp quiet (rollback_remove_all toy_store toy_dirs toy_batch "journal"
      (identity_for_bytes (fstat (service_file 12 [])) []))
    (λ o w, match o with
            | Done r => rest_untouched toy_dirs (0, 0) toy_batch batch_world w
                        ∧ (r = Ok tt → ∀ t, t ∈ ja_targets toy_batch → original_at (overrides toy_dirs) t w)
            | Killed => rest_untouched toy_dirs (0, 0) toy_batch batch_world w
            end) batch_world.
Proof.
  intros J SJ H. apply rollback_restores; [discriminate|discriminate|reflexivity|vm_compute; reflexivity| |by split].
  intros t ->%list_elem_of_singleton. reflexivity.
Defined.
