(* ===== verification/KeyFile.v ===== *)
(** * The encryption key file ([crates/facelock-tpm/src/sealing.rs], [facelock-core/src/fs_security.rs])

    Reading, replacing and creating the 32-byte key at [encryption.key_path]. Creating it is a
    sequence of filesystem calls that several processes can run at once, so it is a program
    counter with one step per call; a process may stop after any of them. What a call answers
    is the [Io] it is given. *)

From stdpp Require Import gmap.
From S2P Require Import Prelude Float32 Types Store Sealing.

(** The names of one directory tree and what they refer to. *)
Inductive Node := Link | File (content : list Z).
Abbreviation Dir := (gmap string Node).

(** What the outside decides in one call: whether it fails, and the process id and clock a
    staging name is made of. *)
Record Io := { io_fault : option string; io_pid : Z; io_unique : string }.

Definition is_symlink (d : Dir) (path : string) : bool :=
  match d !! path with Some Link => true | _ => false end.

Definition symlink_key_refusal (path : string) : string :=
  "refusing to use a symlink as the encryption key file: " +:+ path +:+
  " is a symbolic link. Replace it with the key file itself, or point encryption.key_path at the real file.".

(** ** Reading *)
Definition from_key_file (fault : option string) (d : Dir) (path : string) :
    result SoftwareSealer FacelockError :=
  let failed e := Err (Encryption ("failed to read key file " +:+ path +:+ ": " +:+ e)) in
  match fault, d !! path with
  | _, Some Link => Err (Encryption (symlink_key_refusal path))
  | Some e, _ => failed e
  | None, None => failed "No such file or directory (os error 2)"
  | None, Some (File content) =>
      let data := take (AES_KEY_SIZE + 1) content in
      if negb (length data =? AES_KEY_SIZE)%nat then
        Err (Encryption ("key file " +:+ path +:+ " must be exactly 32 bytes, got " +:+
          (if (AES_KEY_SIZE <? length data)%nat then "more than 32" else show_nat (length data))))
      else Ok (from_key data)
  end.

(** ** Replacing *)

(** [write_all] then [sync_all]: the fault, if any, strikes after [n] bytes. *)
Definition write_key_file (open_fault : option string) (write_fault : option (nat * string))
    (d : Dir) (path : string) (key : list Z) : result unit FacelockError * Dir :=
  if is_symlink d path then (Err (Encryption (symlink_key_refusal path)), d)
  else
    match open_fault with
    | Some e => (Err (Encryption ("failed to create key file " +:+ path +:+ ": " +:+ e)), d)
    | None =>
        match write_fault with
        | Some (n, e) => (Err (Encryption ("failed to write key file " +:+ path +:+ ": " +:+ e)),
                          <[path := File (take n key)]> d)
        | None => (Ok tt, <[path := File key]> d)
        end
    end.

(** [key] is what the random generator filled the key with. *)
Definition generate_key_file (open_fault : option string) (write_fault : option (nat * string))
    (d : Dir) (path : string) (key : list Z) : result unit FacelockError * Dir :=
  write_key_file open_fault write_fault d path key.

(** ** Creating, without replacing *)
Definition STAGE_ATTEMPTS : nat := 8.

(** [rsplit_once('/')]: the directory with its slash, and the last component. *)
Fixpoint split_path (path : string) : string * string :=
  match path with
  | EmptyString => (EmptyString, EmptyString)
  | String a s =>
      let '(dir, name) := split_path s in
      if is_empty_str dir && negb (Ascii.eqb a "/") then (EmptyString, String a name)
      else (String a dir, name)
  end.

Definition staged_name (path : string) (pid : Z) (unique : string) (attempt : nat) : string :=
  let '(dir, name) := split_path path in
  dir +:+ "." +:+ name +:+ ".new-" +:+ show_Z pid +:+ "-" +:+ unique +:+ "-" +:+ show_nat attempt.

Inductive Pc :=
  | PStart
  | PStage (attempt : nat)
  | PWrite (staged : string) (written : nat)
  | PRename (staged : string)
  | PSyncDir
  | PCleanup (staged : string) (r : result bool FacelockError)
  | PDone (r : result bool FacelockError) (published : bool).

(** A process inside [create_key_file_exclusive], and the key its random generator gave it. *)
Record Proc := { p_key : list Z; p_pc : Pc }.

Definition at_pc (p : Proc) (pc : Pc) : Proc := {| p_key := p_key p; p_pc := pc |}.

Definition proc_step (path : string) (io : Io) (p : Proc) (d : Dir) : Proc * Dir :=
  let err s := Err (Encryption s) in
  match p_pc p with
  | PStart =>
      if is_symlink d path then (at_pc p (PDone (err (symlink_key_refusal path)) false), d)
      else (at_pc p (PStage 0), d)
  | PStage attempt =>
      if (STAGE_ATTEMPTS <=? attempt)%nat then
        (at_pc p (PDone (err ("failed to create a staging file for " +:+ path +:+ " after " +:+
           show_nat STAGE_ATTEMPTS +:+ " attempts")) false), d)
      else
        let staged := staged_name path (io_pid io) (io_unique io) attempt in
        match io_fault io, d !! staged with
        | Some e, _ => (at_pc p (PDone (err ("failed to create the staged key file " +:+ staged +:+
                           ": " +:+ e)) false), d)
        | None, Some _ => (at_pc p (PStage (S attempt)), d)
        | None, None => (at_pc p (PWrite staged 0), <[staged := File []]> d)
        end
  | PWrite staged n =>
      match io_fault io with
      | Some e => (at_pc p (PCleanup staged (err ("failed to write the staged key file " +:+ staged +:+
                      ": " +:+ e))), d)
      | None =>
          if (n <? length (p_key p))%nat
          then (at_pc p (PWrite staged (S n)), <[staged := File (take (S n) (p_key p))]> d)
          else (at_pc p (PRename staged), d)
      end
  | PRename staged =>
      let failed e := (at_pc p (PCleanup staged (err ("failed to move the staged key into place at " +:+
                         path +:+ ": " +:+ e))), d) in
      match io_fault io with
      | Some e => failed e
      | None =>
          match d !! staged, d !! path with
          | None, _ => failed "No such file or directory (os error 2)"
          | Some _, Some _ => (at_pc p (PCleanup staged (Ok false)), d)
          | Some node, None => (at_pc p PSyncDir, <[path := node]> (delete staged d))
          end
      end
  | PSyncDir =>
      match io_fault io with
      | Some e => (at_pc p (PDone (err ("failed to flush the directory holding " +:+ path +:+ ": " +:+ e))
                     true), d)
      | None => (at_pc p (PDone (Ok true) true), d)
      end
  | PCleanup staged r =>
      (at_pc p (PDone r false), match io_fault io with Some _ => d | None => delete staged d end)
  | PDone _ _ => (p, d)
  end.

Fixpoint run_proc (path : string) (ios : nat → Io) (fuel n : nat) (p : Proc) (d : Dir) : Proc * Dir :=
  match fuel with
  | O => (p, d)
  | S fuel' => let '(p', d') := proc_step path (ios n) p d in run_proc path ios fuel' (S n) p' d'
  end.

(** The call: its process run until it returns, which takes at most the attempts to stage, the
    bytes of the key and seven more steps ([create_returns]). *)
Definition create_fuel (key : list Z) : nat := STAGE_ATTEMPTS + length key + 7.

Definition create_run (ios : nat → Io) (key : list Z) (d : Dir) (path : string) : Proc * Dir :=
  run_proc path ios (create_fuel key) 0 {| p_key := key; p_pc := PStart |} d.

Definition create_key_file_exclusive (ios : nat → Io) (key : list Z) (d : Dir) (path : string) :
    result bool FacelockError * Dir :=
  let '(p, d') := create_run ios key d path in
  (match p_pc p with PDone r _ => r | _ => Err (Encryption "") end, d').

(** ** Several processes *)
Record Race := { dir : Dir; procs : list Proc }.

Definition race_step (path : string) (i : nat) (io : Io) (r : Race) : Race :=
  match procs r !! i with
  | None => r
  | Some p => let '(p', d') := proc_step path io p (dir r) in
              {| dir := d'; procs := <[i := p']> (procs r) |}
  end.

Inductive reachable (path : string) (r0 : Race) : Race → Prop :=
  | reach_start : reachable path r0 r0
  | reach_step r i io : reachable path r0 r → reachable path r0 (race_step path i io r).

(** ** Creation ends *)
Lemma split_path_app path : path = fst (split_path path) +:+ snd (split_path path).
Proof.
  induction path as [|a s IH]; [done|]. cbn [split_path]. destruct (split_path s) as [dr nm].
  cbn [fst snd] in IH. destruct (is_empty_str dr) eqn:He; cbn [andb].
  - apply String.eqb_eq in He as ->. destruct (negb _); cbn; by rewrite IH.
  - cbn. by rewrite IH.
Qed.

Lemma staged_not_path path pid unique attempt : staged_name path pid unique attempt ≠ path.
Proof.
  intros He. apply (f_equal String.length) in He. rewrite (split_path_app path) in He at 2.
  unfold staged_name in He. destruct (split_path path) as [dr nm]. cbn [fst snd] in He.
  rewrite !string_length_app in He. cbn in He. lia.
Qed.

(** How many steps a process is from returning, at most. *)
Definition steps_left (key_len : nat) (pc : Pc) : nat :=
  match pc with
  | PStart => STAGE_ATTEMPTS + key_len + 7
  | PStage a => (STAGE_ATTEMPTS - a) + key_len + 6
  | PWrite _ n => (key_len - n) + 4
  | PRename _ => 3
  | PSyncDir => 1
  | PCleanup _ _ => 1
  | PDone _ _ => 0
  end.

Ltac step_cases :=
  repeat match goal with
  | |- context [match io_fault ?io with _ => _ end] => destruct (io_fault io) eqn:?
  | |- context [match ?d !! ?k with _ => _ end] => destruct (d !! k) eqn:?
  | |- context [if ?b then _ else _] => destruct b eqn:?
  end.

Lemma proc_step_key path io p d : p_key (fst (proc_step path io p d)) = p_key p.
Proof. unfold proc_step. destruct (p_pc p); cbn zeta; step_cases; done. Qed.

Lemma proc_step_progress path io p d :
  (steps_left (length (p_key p)) (p_pc (fst (proc_step path io p d))) ≤
   Nat.pred (steps_left (length (p_key p)) (p_pc p)))%nat.
Proof.
  unfold proc_step, STAGE_ATTEMPTS. destruct (p_pc p) as [|a|st n|st| |st r|r b] eqn:Hp; cbn zeta; step_cases;
    cbn [fst at_pc p_pc steps_left]; rewrite ?Hp; cbn [steps_left];
    repeat match goal with
    | H : (_ <=? _)%nat = _ |- _ => apply Nat.leb_gt in H || apply Nat.leb_le in H
    | H : (_ <? _)%nat = _ |- _ => apply Nat.ltb_lt in H || apply Nat.ltb_ge in H
    end; unfold STAGE_ATTEMPTS in *; lia.
Qed.

Lemma run_proc_ends path ios fuel n p d : (steps_left (length (p_key p)) (p_pc p) ≤ fuel)%nat →
  ∃ r b, p_pc (fst (run_proc path ios fuel n p d)) = PDone r b.
Proof.
  revert n p d. induction fuel as [|fuel IH]; intros n p d Hle.
  - cbn [run_proc fst]. destruct (p_pc p); cbn in Hle; try lia. by eexists _, _.
  - cbn [run_proc]. pose proof (proc_step_progress path (ios n) p d) as Hp.
    pose proof (proc_step_key path (ios n) p d) as Hk.
    destruct (proc_step path (ios n) p d) as [p' d']. cbn [fst] in *. apply IH. rewrite Hk. lia.
Qed.

Lemma create_returns ios key d path : ∃ r b, p_pc (fst (create_run ios key d path)) = PDone r b.
Proof. apply run_proc_ends. cbn [p_key p_pc steps_left]. done. Qed.

(** ** The race invariant *)
Definition owns (pc : Pc) : option string :=
  match pc with
  | PWrite st _ | PRename st | PCleanup st _ => Some st
  | _ => None
  end.

Definition published (pc : Pc) : bool :=
  match pc with PSyncDir => true | PDone _ b => b | _ => false end.

Definition lost (pc : Pc) : bool :=
  match pc with PCleanup _ (Ok false) | PDone (Ok false) _ => true | _ => false end.

(** What a process knows of the directory. *)
Definition proc_ok (path : string) (d : Dir) (p : Proc) : Prop :=
  (∀ st, owns (p_pc p) = Some st → st ≠ path ∧ is_Some (d !! st)) ∧
  (∀ st n, p_pc p = PWrite st n → (n ≤ length (p_key p))%nat ∧ d !! st = Some (File (take n (p_key p)))) ∧
  (∀ st, p_pc p = PRename st → d !! st = Some (File (p_key p))) ∧
  (published (p_pc p) = true → d !! path = Some (File (p_key p))) ∧
  (lost (p_pc p) = true → is_Some (d !! path)) ∧
  (∀ b, p_pc p = PDone (Ok true) b → b = true) ∧
  (∀ st, p_pc p ≠ PCleanup st (Ok true)).

Record race_ok (path : string) (d0 : Dir) (r : Race) : Prop := {
  ro_procs : ∀ i p, procs r !! i = Some p → proc_ok path (dir r) p;
  ro_owners : ∀ i j p q st, procs r !! i = Some p → procs r !! j = Some q →
    owns (p_pc p) = Some st → owns (p_pc q) = Some st → i = j;
  ro_winner : ∀ i j p q, procs r !! i = Some p → procs r !! j = Some q →
    published (p_pc p) = true → published (p_pc q) = true → i = j;
  ro_path : dir r !! path = d0 !! path ∨
    d0 !! path = None ∧ ∃ i p, procs r !! i = Some p ∧ published (p_pc p) = true;
  ro_fresh : (∃ i p, procs r !! i = Some p ∧ published (p_pc p) = true) → d0 !! path = None;
}.

(** What one call does to the rest of the directory. *)
Record step_effect (path : string) (p : Proc) (d : Dir) (p' : Proc) (d' : Dir) : Prop := {
  se_ok : proc_ok path d' p';
  se_frame : ∀ name, owns (p_pc p) = Some name ∨ d !! name = None ∨ d' !! name = d !! name;
  se_owns : ∀ st, owns (p_pc p') = Some st → owns (p_pc p) = Some st ∨ d !! st = None;
  se_publish : published (p_pc p') = true → published (p_pc p) = true ∨ d !! path = None;
  se_keep : published (p_pc p) = true → published (p_pc p') = true;
  se_path : d' !! path = d !! path ∨ d !! path = None ∧ published (p_pc p') = true;
}.

(** A call that only moves the program counter. *)
Lemma effect_pc path p d pc' : proc_ok path d (at_pc p pc') →
  (∀ st, owns pc' = Some st → owns (p_pc p) = Some st) → published pc' = published (p_pc p) →
  step_effect path p d (at_pc p pc') d.
Proof. intros Hok Ho Hp. split; cbn [at_pc p_pc]; rewrite ?Hp; auto. Qed.

(** A call that returns an error, or that ends an attempt, before anything was published. *)
Lemma ok_failed path d p e : proc_ok path d (at_pc p (PDone (Err e) false)).
Proof. unfold proc_ok. split_and!; done. Qed.

Lemma effect_failed path p d e : published (p_pc p) = false →
  step_effect path p d (at_pc p (PDone (Err e) false)) d.
Proof. intros Hp. apply effect_pc; [apply ok_failed|done|done]. Qed.

Lemma step_start path d p : p_pc p = PStart → ∀ io,
  step_effect path p d (fst (proc_step path io p d)) (snd (proc_step path io p d)).
Proof.
  intros He io. unfold proc_step. rewrite He. destruct (is_symlink d path); cbn [fst snd].
  - apply effect_failed. by rewrite He.
  - apply effect_pc; [by unfold proc_ok; split_and!|done|by rewrite He].
Qed.

Lemma step_stage path d p a : p_pc p = PStage a → ∀ io,
  step_effect path p d (fst (proc_step path io p d)) (snd (proc_step path io p d)).
Proof.
  intros He io. unfold proc_step. rewrite He. cbn zeta.
  set (st := staged_name path (io_pid io) (io_unique io) a).
  assert (Hne : st ≠ path) by apply staged_not_path.
  destruct (_ <=? _)%nat; [apply effect_failed; by rewrite He|].
  destruct (io_fault io); [apply effect_failed; by rewrite He|].
  destruct (d !! st) eqn:Hst; cbn [fst snd].
  { apply effect_pc; [by unfold proc_ok; split_and!|done|by rewrite He]. }
  split; cbn [at_pc p_pc p_key owns published lost].
  - unfold proc_ok; cbn [at_pc p_pc p_key owns published lost]. split_and!; try done.
    + intros st' [= <-]. by rewrite lookup_insert_eq.
    + intros st' n [= <- <-]. rewrite lookup_insert_eq. split; [lia|done].
  - intros name. destruct (decide (name = st)) as [->|]; [auto|].
    right. right. by rewrite lookup_insert_ne.
  - intros st' [= <-]. auto.
  - done.
  - by rewrite He.
  - left. by rewrite lookup_insert_ne.
Qed.

Lemma step_write path d p st n : proc_ok path d p → p_pc p = PWrite st n → ∀ io,
  step_effect path p d (fst (proc_step path io p d)) (snd (proc_step path io p d)).
Proof.
  intros (Hown & Hw & _) He io. unfold proc_step. rewrite He. cbn zeta.
  destruct (Hown st) as [Hne Hin]; [by rewrite He|]. destruct (Hw st n He) as [Hn Hst].
  destruct (io_fault io); [|destruct (Nat.ltb_spec n (length (p_key p))) as [Hlt|Hge]]; cbn [fst snd].
  - apply effect_pc; [|by rewrite He|by rewrite He].
    unfold proc_ok; cbn [at_pc p_pc p_key owns published lost]. split_and!; try done.
    by intros st' [= <-].
  - split; cbn [at_pc p_pc p_key owns published lost].
    + unfold proc_ok; cbn [at_pc p_pc p_key owns published lost]. split_and!; try done.
      * intros st' [= <-]. by rewrite lookup_insert_eq.
      * intros st' n' [= <- <-]. rewrite lookup_insert_eq. split; [lia|done].
    + intros name. rewrite He. cbn [owns]. destruct (decide (name = st)) as [->|]; [auto|].
      right. right. by rewrite lookup_insert_ne.
    + intros st' [= <-]. left. by rewrite He.
    + done.
    + by rewrite He.
    + left. by rewrite lookup_insert_ne.
  - apply effect_pc; [|by rewrite He|by rewrite He].
    unfold proc_ok; cbn [at_pc p_pc p_key owns published lost]. split_and!; try done.
    + by intros st' [= <-].
    + intros st' [= <-]. rewrite Hst, take_ge by lia. done.
Qed.

Lemma step_rename path d p st : proc_ok path d p → p_pc p = PRename st → ∀ io,
  step_effect path p d (fst (proc_step path io p d)) (snd (proc_step path io p d)).
Proof.
  intros (Hown & _ & Hr & _) He io. unfold proc_step. rewrite He. cbn zeta.
  destruct (Hown st) as [Hne Hin]; [by rewrite He|]. rewrite (Hr st He).
  assert (Hclean : ∀ r, (lost (PCleanup st r) = true → is_Some (d !! path)) → r ≠ Ok true →
    step_effect path p d (at_pc p (PCleanup st r)) d).
  { intros r Hl Hnt. apply effect_pc; [|by rewrite He|by rewrite He].
    unfold proc_ok; cbn [at_pc p_pc p_key owns published]. split_and!; try done.
    - by intros st' [= <-].
    - intros st' [= <-]. done. }
  destruct (io_fault io); [by apply Hclean|].
  destruct (d !! path) eqn:Hpath; cbn [fst snd]; [by apply Hclean|].
  split; cbn [at_pc p_pc p_key owns published lost].
  - unfold proc_ok; cbn [at_pc p_pc p_key owns published lost]. split_and!; try done.
    intros _. by rewrite lookup_insert_eq.
  - intros name. rewrite He. cbn [owns]. destruct (decide (name = st)) as [->|]; [auto|].
    destruct (decide (name = path)) as [->|]; [auto|]. right. right.
    by rewrite lookup_insert_ne, lookup_delete_ne.
  - done.
  - auto.
  - by rewrite He.
  - auto.
Qed.

Lemma step_sync path d p : proc_ok path d p → p_pc p = PSyncDir → ∀ io,
  step_effect path p d (fst (proc_step path io p d)) (snd (proc_step path io p d)).
Proof.
  intros (_ & _ & _ & Hp & _) He io. unfold proc_step. rewrite He. rewrite He in Hp.
  destruct (io_fault io); cbn [fst snd]; apply effect_pc; try done; try (by rewrite He);
    unfold proc_ok; cbn [at_pc p_pc p_key owns published lost]; split_and!; auto; try done.
  by intros b [= <-].
Qed.

Lemma step_cleanup path d p st r : proc_ok path d p → p_pc p = PCleanup st r → ∀ io,
  step_effect path p d (fst (proc_step path io p d)) (snd (proc_step path io p d)).
Proof.
  intros (Hown & _ & _ & _ & Hl & _ & Hc) He io. unfold proc_step. rewrite He.
  destruct (Hown st) as [Hne _]; [by rewrite He|].
  assert (Hok : ∀ d', d' !! path = d !! path → proc_ok path d' (at_pc p (PDone r false))).
  { intros d' Hd. unfold proc_ok; cbn [at_pc p_pc p_key owns published]. rewrite Hd. split_and!; try done.
    - intros Hlost. apply Hl. rewrite He. by destruct r as [[]|].
    - intros b [= ->]. by destruct (Hc st). }
  destruct (io_fault io); cbn [fst snd].
  - apply effect_pc; [by apply Hok|done|by rewrite He].
  - split; cbn [at_pc p_pc owns published]; rewrite ?He; cbn [owns published]; try done.
    + apply Hok. by rewrite lookup_delete_ne.
    + intros name. destruct (decide (name = st)) as [->|]; [auto|]. right. right.
      by rewrite lookup_delete_ne.
    + left. by rewrite lookup_delete_ne.
Qed.

Lemma proc_step_effect path io p d : proc_ok path d p →
  step_effect path p d (fst (proc_step path io p d)) (snd (proc_step path io p d)).
Proof.
  intros Hok. destruct (p_pc p) as [|a|st n|st| |st r|r b] eqn:He.
  - by apply step_start.
  - by eapply step_stage.
  - by eapply step_write.
  - by eapply step_rename.
  - by apply step_sync.
  - by eapply step_cleanup.
  - unfold proc_step. rewrite He. cbn [fst snd]. split; auto.
Qed.

Lemma proc_ok_frame path d d' q : proc_ok path d q →
  (∀ st, owns (p_pc q) = Some st → d' !! st = d !! st) →
  (is_Some (d !! path) → d' !! path = d !! path) → proc_ok path d' q.
Proof.
  intros (Hown & Hw & Hr & Hp & Hl & Ht & Hc) Hf Hpath. unfold proc_ok. split_and!; try done.
  - intros st Hst. rewrite (Hf st Hst). by apply Hown.
  - intros st n He. rewrite (Hf st) by (by rewrite He). by apply Hw.
  - intros st He. rewrite (Hf st) by (by rewrite He). by apply Hr.
  - intros H. rewrite Hpath; [by apply Hp|]. by rewrite Hp.
  - intros H. rewrite Hpath; by apply Hl.
Qed.

Lemma lookup_updated (l : list Proc) i j (p q : Proc) : <[i := p]> l !! j = Some q →
  j = i ∧ q = p ∨ j ≠ i ∧ l !! j = Some q.
Proof.
  intros Hj. destruct (decide (j = i)) as [->|Hne].
  - left. split; [done|]. apply lookup_lt_Some in Hj as Hl. rewrite length_insert in Hl.
    rewrite list_lookup_insert_eq in Hj by done. by injection Hj.
  - right. by rewrite list_lookup_insert_ne in Hj.
Qed.

Section RaceStep.
Variables (path : string) (d0 : Dir) (r : Race) (i : nat) (p p' : Proc) (d' : Dir).
Hypothesis Hr : race_ok path d0 r.
Hypothesis Hi : procs r !! i = Some p.
Hypothesis He : step_effect path p (dir r) p' d'.
#[local] Abbreviation r' := ({| dir := d'; procs := <[i := p']> (procs r) |}).

Lemma race_self : procs r' !! i = Some p'.
Proof. cbn [procs]. apply list_lookup_insert_eq. by eapply lookup_lt_Some. Qed.

(** What process [i] owned or created is not another's. *)
Lemma race_frame j q : j ≠ i → procs r !! j = Some q → proc_ok path d' q.
Proof.
  intros Hne Hj. pose proof (ro_procs _ _ _ Hr j q Hj) as Hq. apply (proc_ok_frame _ (dir r)); [done| |].
  - intros st Hst. destruct (se_frame _ _ _ _ _ He st) as [Ho|[Hn|]]; [| |done].
    + by destruct (Hne (ro_owners _ _ _ Hr j i q p st Hj Hi Hst Ho)).
    + destruct Hq as [Hq _]. destruct (Hq st Hst) as [_ [x Hx]]. congruence.
  - intros [x Hx]. destruct (se_frame _ _ _ _ _ He path) as [Ho|[Hn|]]; [|congruence|done].
    destruct (ro_procs _ _ _ Hr i p Hi) as [Hp _]. by destruct (Hp path Ho).
Qed.

Lemma race_owner j q st : j ≠ i → procs r !! j = Some q →
  owns (p_pc p') = Some st → owns (p_pc q) = Some st → False.
Proof.
  intros Hne Hj Ho Hq. destruct (se_owns _ _ _ _ _ He st Ho) as [Hp|Hn].
  - by destruct (Hne (ro_owners _ _ _ Hr j i q p st Hj Hi Hq Hp)).
  - destruct (ro_procs _ _ _ Hr j q Hj) as [Hw _]. destruct (Hw st Hq) as [_ [x Hx]]. congruence.
Qed.

Lemma race_winner j q : j ≠ i → procs r !! j = Some q →
  published (p_pc p') = true → published (p_pc q) = true → False.
Proof.
  intros Hne Hj Hp Hq. destruct (se_publish _ _ _ _ _ He Hp) as [Hp0|Hn].
  - by destruct (Hne (ro_winner _ _ _ Hr j i q p Hj Hi Hq Hp0)).
  - destruct (ro_procs _ _ _ Hr j q Hj) as (_ & _ & _ & Hw & _). rewrite Hw in Hn; done.
Qed.

Lemma race_step_ok : race_ok path d0 r'.
Proof.
  split; cbn [dir procs].
  - intros j q [[-> ->]|[Hne Hj]]%lookup_updated; [by eapply se_ok|by eapply race_frame].
  - intros j k q s st Hj Hk Hq Hs. apply lookup_updated in Hj, Hk.
    destruct Hj as [[-> ->]|[Hjn Hj]], Hk as [[-> ->]|[Hkn Hk]]; [done| | |].
    + by destruct (race_owner k s st Hkn Hk Hq Hs).
    + by destruct (race_owner j q st Hjn Hj Hs Hq).
    + by eapply ro_owners.
  - intros j k q s Hj Hk Hq Hs. apply lookup_updated in Hj, Hk.
    destruct Hj as [[-> ->]|[Hjn Hj]], Hk as [[-> ->]|[Hkn Hk]]; [done| | |].
    + by destruct (race_winner k s Hkn Hk Hq Hs).
    + by destruct (race_winner j q Hjn Hj Hs Hq).
    + by eapply ro_winner.
  - destruct (se_path _ _ _ _ _ He) as [->|[Hn Hp]].
    + destruct (ro_path _ _ _ Hr) as [Hd|(H0 & j & q & Hj & Hq)]; [by left|right]. split; [done|].
      destruct (decide (j = i)) as [->|Hne].
      * exists i, p'. split; [apply race_self|]. eapply se_keep; [done|]. by simplify_eq.
      * exists j, q. by rewrite list_lookup_insert_ne.
    + right. split; [|exists i, p'; split; [apply race_self|done]].
      destruct (ro_path _ _ _ Hr) as [Hd|[? _]]; [congruence|done].
  - intros (j & q & Hj & Hq). apply lookup_updated in Hj as [[-> ->]|[Hne Hj]].
    + destruct (se_publish _ _ _ _ _ He Hq) as [Hp|Hn].
      * apply (ro_fresh _ _ _ Hr). by exists i, p.
      * destruct (ro_path _ _ _ Hr) as [Hd|[? _]]; [congruence|done].
    + apply (ro_fresh _ _ _ Hr). by exists j, q.
Qed.
End RaceStep.

Definition started (r : Race) : Prop := Forall (λ p, p_pc p = PStart) (procs r).

Lemma started_ok path r : started r → race_ok path (dir r) r.
Proof.
  intros Hs. assert (Hpc : ∀ i p, procs r !! i = Some p → p_pc p = PStart)
    by (intros i p Hi; exact (Forall_lookup_1 _ _ _ _ Hs Hi)).
  split.
  - intros i p Hi. unfold proc_ok. rewrite (Hpc i p Hi). split_and!; done.
  - intros i j p q st Hi Hj. by rewrite (Hpc i p Hi).
  - intros i j p q Hi Hj. by rewrite (Hpc i p Hi).
  - by left.
  - intros (i & p & Hi & Hp). by rewrite (Hpc i p Hi) in Hp.
Qed.

Lemma reachable_ok path r0 r : started r0 → reachable path r0 r → race_ok path (dir r0) r.
Proof.
  intros Hs Hr. induction Hr as [|r i io Hr IH]; [by apply started_ok|].
  unfold race_step. destruct (procs r !! i) as [p|] eqn:Hi; [|done].
  destruct (proc_step path io p (dir r)) as [p' d'] eqn:Hp. eapply race_step_ok; [done|done|].
  pose proof (proc_step_effect path io p (dir r) (ro_procs _ _ _ IH i p Hi)) as He.
  by rewrite Hp in He.
Qed.

Lemma race_step_keys path i io r : p_key <$> procs (race_step path i io r) = p_key <$> procs r.
Proof.
  unfold race_step. destruct (procs r !! i) as [p|] eqn:Hi; [|done].
  pose proof (proc_step_key path io p (dir r)) as Hk.
  destruct (proc_step path io p (dir r)) as [p' d']. cbn [procs]. rewrite list_fmap_insert.
  apply list_insert_id. rewrite list_lookup_fmap, Hi. cbn in *. by rewrite Hk.
Qed.

Lemma reachable_keys path r0 r : reachable path r0 r → p_key <$> procs r = p_key <$> procs r0.
Proof. induction 1 as [|r i io Hr IH]; [done|]. by rewrite race_step_keys. Qed.

(** C39.  Processes that create the key at once never damage it: whatever was at the path
    stays exactly as it was; a path that was free holds nothing or the complete key of one of
    the processes, however the calls interleave, fail or stop; at most one process reports
    having created the key, and then the file holds its key; and a process told that another
    won finds a key there. *)
Theorem key_creation_race path r0 r : started r0 → reachable path r0 r →
  (is_Some (dir r0 !! path) → dir r !! path = dir r0 !! path) ∧
  (dir r0 !! path = None → dir r !! path = None ∨
     ∃ i p0, procs r0 !! i = Some p0 ∧ dir r !! path = Some (File (p_key p0))) ∧
  (∀ i p b, procs r !! i = Some p → p_pc p = PDone (Ok true) b →
     dir r !! path = Some (File (p_key p)) ∧
     ∀ j q b', procs r !! j = Some q → p_pc q = PDone (Ok true) b' → j = i) ∧
  (∀ i p b, procs r !! i = Some p → p_pc p = PDone (Ok false) b → is_Some (dir r !! path)).
Proof.
  intros Hs Hr. pose proof (reachable_ok _ _ _ Hs Hr) as Hok. split_and!.
  - intros [x Hx]. destruct (ro_path _ _ _ Hok) as [|[Hn _]]; [done|congruence].
  - intros Hn. destruct (ro_path _ _ _ Hok) as [->|(_ & i & p & Hi & Hp)]; [by left|right].
    assert (Hk : (p_key <$> procs r0) !! i = Some (p_key p))
      by (by rewrite <- (reachable_keys _ _ _ Hr), list_lookup_fmap, Hi).
    rewrite list_lookup_fmap, fmap_Some in Hk. destruct Hk as (p0 & H0 & Hk). exists i, p0.
    split; [done|]. rewrite <- Hk. by apply (ro_procs _ _ _ Hok i p Hi).
  - intros i p b Hi Hp. destruct (ro_procs _ _ _ Hok i p Hi) as (_ & _ & _ & Hpub & _ & Ht & _).
    assert (Hpi : published (p_pc p) = true) by (rewrite Hp; cbn; by eapply Ht).
    split; [by apply Hpub|]. intros j q b' Hj Hq. apply (ro_winner _ _ _ Hok j i q p Hj Hi); [|done].
    destruct (ro_procs _ _ _ Hok j q Hj) as (_ & _ & _ & _ & _ & Hqt & _). rewrite Hq. cbn. by eapply Hqt.
  - intros i p b Hi Hp. apply (ro_procs _ _ _ Hok i p Hi). by rewrite Hp.
Qed.

(** A call made alone is a race of one. *)
Lemma run_proc_reachable path ios fuel n p d r0 : reachable path r0 {| dir := d; procs := [p] |} →
  let '(p', d') := run_proc path ios fuel n p d in reachable path r0 {| dir := d'; procs := [p'] |}.
Proof.
  revert n p d. induction fuel as [|fuel IH]; intros n p d Hr; [done|]. cbn [run_proc].
  destruct (proc_step path (ios n) p d) as [p' d'] eqn:Hp. apply IH.
  apply (reach_step _ _ _ 0%nat (ios n)) in Hr. unfold race_step in Hr.
  cbn [procs dir lookup list_lookup] in Hr. rewrite Hp in Hr. exact Hr.
Qed.

Lemma create_spec ios key d path r d' : create_key_file_exclusive ios key d path = (r, d') →
  (d' !! path = d !! path ∨ d !! path = None ∧ d' !! path = Some (File key)) ∧
  (r = Ok true → d !! path = None ∧ d' !! path = Some (File key)).
Proof.
  intros Hc. unfold create_key_file_exclusive in Hc.
  destruct (create_returns ios key d path) as (r' & b & Hpc).
  set (p0 := {| p_key := key; p_pc := PStart |}).
  pose proof (run_proc_reachable path ios (create_fuel key) 0 p0 d _ (reach_start path {| dir := d; procs := [p0] |})) as Hr.
  fold (create_run ios key d path) in Hr. change (run_proc _ _ _ _ _ _) with (create_run ios key d path) in Hr.
  destruct (create_run ios key d path) as [p d1]. cbn [fst] in Hpc. rewrite Hpc in Hc.
  injection Hc as -> ->.
  assert (Hk : p_key p = key) by (pose proof (reachable_keys _ _ _ Hr) as Hk; by injection Hk).
  assert (Hok : race_ok path d {| dir := d'; procs := [p] |})
    by (apply (reachable_ok path {| dir := d; procs := [p0] |}); [by repeat constructor|done]).
  destruct (ro_procs _ _ _ Hok 0%nat p eq_refl) as (_ & _ & _ & Hpub & _ & Ht & _). cbn [dir] in Hpub.
  rewrite Hk in Hpub. split.
  - destruct (ro_path _ _ _ Hok) as [|(Hn & i & q & Hi & Hq)]; [by left|right]. split; [done|].
    destruct i as [|i]; [|done]. injection Hi as ->. auto.
  - intros ->. specialize (Ht b Hpc) as ->. rewrite Hpc in Hpub. split; [|by apply Hpub].
    apply (ro_fresh _ _ _ Hok). exists 0%nat, p. by rewrite Hpc.
Qed.

Definition quiet_io : Io := {| io_fault := None; io_pid := 42; io_unique := "1f" |}.

Lemma key_creation_race_witness :
  let r0 := {| dir := ∅; procs := [{| p_key := repeat 1 32; p_pc := PStart |};
                                   {| p_key := repeat 2 32; p_pc := PStart |}] |} in
  let r := race_step "/etc/facelock/encryption.key" 1 quiet_io
             (race_step "/etc/facelock/encryption.key" 0 quiet_io r0) in
  dir r0 !! "/etc/facelock/encryption.key" = None ∧
  (dir r !! "/etc/facelock/encryption.key" = None ∨
     ∃ i p0, procs r0 !! i = Some p0 ∧ dir r !! "/etc/facelock/encryption.key" = Some (File (p_key p0))).
Proof.
  intros r0 r. split; [reflexivity|].
  apply (key_creation_race "/etc/facelock/encryption.key" r0 r).
  - repeat constructor.
  - apply reach_step, reach_step, reach_start.
  - reflexivity.
Defined.
