(* ===== verification/Keyring.v ===== *)
(** * Key policy and keyring ([crates/facelock-daemon/src/key_policy.rs], [keyring.rs])

    Which key seals new templates, which other keys can still open old ones, and when a
    missing key may be replaced by a new one. The directory the key files are in and the
    answers of the calls on it come from [KeyEnv]. *)

From stdpp Require Import gmap.
From S2P Require Import Prelude Float32 Types DeviceBinding Config Store StoreProofs Sealing KeyFile.

(** [W_OK] on the key's directory after a failed creation: fine, refused with a description,
    or another error. *)
Inductive ParentAccess := Writable | NotWritable (desc : string) | AccessFailed.

Record KeyEnv := {
  first_stat_fault : option string;  (* inspecting the path fails, with something else than "not found" *)
  while_waiting : Dir → Dir;         (* what others do before the store's lock is taken *)
  stat_fault : option string;        (* the same inspection, under the lock *)
  create_ios : nat → Io;
  random_key : list Z;
  parent_access : ParentAccess;
  read_fault : option string;
  link_target : string → option (list Z);   (* the file a link at a path resolves to *)
}.

Inductive KeyfileDecision := Present | Created | NotApplicable | Refused (message : string).

Definition refusal (d : KeyfileDecision) : option string :=
  match d with Refused m => Some m | _ => None end.

Definition configured_key_artifact (c : Config) : string :=
  match method (encryption c) with
  | EncTpm => sealed_key_path (encryption c)
  | EncKeyfile | EncNone => key_path (encryption c)
  end.

(** [cause], ended as a sentence. *)
Fixpoint last_char (s : string) : option ascii :=
  match s with
  | EmptyString => None
  | String a EmptyString => Some a
  | String _ s' => last_char s'
  end.

Definition sentence (cause : string) : string :=
  match last_char cause with
  | Some "."%char | Some "!"%char | Some "?"%char => cause
  | _ => cause +:+ "."
  end.

Fixpoint trim_end_dots (s : string) : string :=
  match s with
  | EmptyString => EmptyString
  | String a s' =>
      let t := trim_end_dots s' in
      if is_empty_str t && Ascii.eqb a "." then EmptyString else String a t
  end.

(** [Path::parent], for a path that has one. *)
Definition parent_dir (path : string) : string :=
  let d := fst (split_path path) in
  if String.eqb d "/" then d else substring 0 (String.length d - 1) d.

Definition key_creation_failure (path cause : string) (access : ParentAccess) : string :=
  let failure := "no encryption key could be created at " +:+ path +:+ ": " +:+ cause in
  match access with
  | NotWritable desc =>
      trim_end_dots failure +:+ ". " +:+ parent_dir path +:+ " is not writable by this process (" +:+ desc +:+
      "); the packaged daemon unit runs with ProtectSystem=strict, which keeps /etc read-only to the daemon by design. Create the key with `sudo facelock setup`, then retry; the daemon picks it up on the next enrollment attempt."
  | _ => failure
  end.

Section Policy.
Context `{ShowSqlite} `{RowOrder}.

Definition encrypted_rows_at_risk (c : Config) (s : FaceStore) : option string * FaceStore :=
  match embedding_blob_shapes s with
  | (Err e, s') =>
      (Some ("the face database could not be read (" +:+ store_error_to_string e +:+
         "), so facelock cannot tell whether encrypted templates would be orphaned. Fix access to " +:+
         db_path (storage c) +:+ " and retry, or clear the enrollments with `facelock clear`."), s')
  | (Ok shapes, s') =>
      let software := length (List.filter (λ x, is_software_encrypted_shape (fst x) (snd x)) shapes) in
      let tpm := length (List.filter (λ x, is_sealed_shape (fst x) (snd x)) shapes) in
      if (software =? 0)%nat && (tpm =? 0)%nat then (None, s')
      else
        let q s := dq +:+ s +:+ dq in
        let found :=
          (if (0 <? software)%nat then
             [show_nat software +:+ " row(s) are software-encrypted (method " +:+ q "keyfile" +:+
              ", key file " +:+ key_path (encryption c) +:+ ")"] else []) ++
          (if (0 <? tpm)%nat then
             [show_nat tpm +:+ " row(s) are TPM-sealed (method " +:+ q "tpm" +:+ ", sealed key " +:+
              sealed_key_path (encryption c) +:+ ")"] else []) in
        (Some (String.concat "; " found +:+
           ". A new key cannot read them, and writing one makes a later restore of the original useless. Restore the key artifacts for the encryption method that wrote those rows, or clear the encrypted enrollments with `facelock clear` and enroll again. The daemon re-checks the key on the next authentication or enrollment attempt."), s')
  end.

Definition key_creation_refusal (c : Config) (s : FaceStore) : option string * FaceStore :=
  match encrypted_rows_at_risk c s with
  | (None, s') => (None, s')
  | (Some at_risk, s') =>
      (Some ("refusing to write an encryption key at " +:+ configured_key_artifact c +:+ ": " +:+ at_risk), s')
  end.

Definition unlockable_store_refusal (c : Config) (e : StoreError) : string :=
  let target := configured_key_artifact c in
  let db := db_path (storage c) in
  match e with
  | Busy _ _ =>
      "refusing to write an encryption key at " +:+ target +:+ ": the face database at " +:+ db +:+
      " is held by another process (" +:+ store_error_to_string e +:+
      "), so facelock cannot rule out an enrollment sealing a template under the key this would replace. Retry once it is free."
  | _ =>
      "refusing to write an encryption key at " +:+ target +:+ ": the face database at " +:+ db +:+
      " could not be read (" +:+ store_error_to_string e +:+
      "), so facelock cannot tell whether existing templates would be orphaned. Fix access to it and retry, or clear the enrollments with `facelock clear`."
  end.

Definition decide_and_create (env : KeyEnv) (c : Config) (s : FaceStore) (d : Dir) :
    KeyfileDecision * FaceStore * Dir :=
  let path := key_path (encryption c) in
  match stat_fault env, d !! path with
  | Some e, _ =>
      (Refused ("refusing to write an encryption key at " +:+ path +:+
         ": the path could not be inspected (" +:+ e +:+ "), so facelock cannot tell whether a key is already there."), s, d)
  | None, Some Link => (Refused (symlink_key_refusal path), s, d)
  | None, Some (File _) => (Present, s, d)
  | None, None =>
      match key_creation_refusal c s with
      | (Some m, s') => (Refused m, s', d)
      | (None, s') =>
          match create_key_file_exclusive (create_ios env) (random_key env) d path with
          | (Ok true, d') => (Created, s', d')
          | (Ok false, d') => (Present, s', d')
          | (Err e, d') =>
              (Refused (key_creation_failure path (facelock_error_to_string e) (parent_access env)), s', d')
          end
      end
  end.

(** The exclusive section is [FaceStore::with_exclusive] around a closure that never fails;
    what the closure wrote to the directory stays when the section cannot be closed. *)
Definition ensure_encrypt_by_default_key (env : KeyEnv) (c : Config) (s : FaceStore) (d : Dir) :
    KeyfileDecision * FaceStore * Dir :=
  if negb (bool_decide (method (encryption c) = EncKeyfile)) then (NotApplicable, s, d)
  else
    match first_stat_fault env, d !! key_path (encryption c) with
    | None, Some (File _) => (Present, s, d)
    | _, _ =>
        match begin_tx s with
        | (Err e, s1) => (Refused (unlockable_store_refusal c e), s1, while_waiting env d)
        | (Ok _, s1) =>
            let '(dec, s2, d') := decide_and_create env c s1 (while_waiting env d) in
            match commit s2 with
            | (Ok _, s3) => (dec, s3, d')
            | (Err e, s3) => (Refused (unlockable_store_refusal c e), s3, d')
            end
        end
    end.
End Policy.

(** ** The keyring *)

(** [std::fs::read] and [Path::exists] follow a link. *)
Definition read_following (env : KeyEnv) (d : Dir) (path : string) : result (list Z) string :=
  match read_fault env, match d !! path with
                        | Some (File content) => Some content
                        | Some Link => link_target env path
                        | None => None
                        end with
  | Some e, _ => Err e
  | None, Some content => Ok content
  | None, None => Err "No such file or directory (os error 2)"
  end.

Definition path_exists (env : KeyEnv) (d : Dir) (path : string) : bool :=
  match d !! path with
  | Some (File _) => true
  | Some Link => is_some (link_target env path)
  | None => false
  end.

Record SealingKeys := {
  primary : option SoftwareSealer;
  primary_error : option string;
  secondary : list (string * SoftwareSealer);
}.

Definition keys_none : SealingKeys := {| primary := None; primary_error := None; secondary := [] |}.

Section Keys.
Context `{ShowSqlite} `{RowOrder} `{Sha256} `{TpmDevice}.

Definition resolve_keyfile_sealer (env : KeyEnv) (c : Config) (s : FaceStore) (d : Dir) :
    result SoftwareSealer string * FaceStore * Dir :=
  let path := key_path (encryption c) in
  let '(dec, s1, d1) := ensure_encrypt_by_default_key env c s d in
  match refusal dec with
  | Some r => (Err r, s1, d1)
  | None =>
      match from_key_file (read_fault env) d1 path with
      | Ok sealer => (Ok sealer, s1, d1)
      | Err e =>
          let complaint := path +:+ " keyfile could not be read: " +:+ facelock_error_to_string e in
          match encrypted_rows_at_risk c s1 with
          | (Some at_risk, s2) => (Err (complaint +:+ " — " +:+ at_risk), s2, d1)
          | (None, s2) => (Err complaint, s2, d1)
          end
      end
  end.

Definition unseal_tpm_primary (env : KeyEnv) (c : Config) (d : Dir) : result SoftwareSealer string :=
  let path := sealed_key_path (encryption c) in
  if compiled then
    let? _ := map_err (λ e, "TPM initialization failed: " +:+ facelock_error_to_string e)
                (tpm_sealer_new (tcti (tpm c))) in
    let? key := map_err (λ e, "failed to unseal AES key from " +:+ path +:+ ": " +:+ facelock_error_to_string e)
                  (unseal_key_from_file (read_following env d path) path) in
    Ok (from_key key)
  else Err "encryption method is 'tpm' but TPM support is not compiled in (rebuild with --features tpm)".

Definition load_tpm_secondary (env : KeyEnv) (c : Config) (d : Dir) (prim : option SoftwareSealer) :
    list (string * SoftwareSealer) :=
  let path := sealed_key_path (encryption c) in
  if negb (path_exists env d path) then []
  else if compiled then
    match (let? _ := tpm_sealer_new (tcti (tpm c)) in
           unseal_key_from_file (read_following env d path) path) with
    | Ok key =>
        let sealer := from_key key in
        let id := sealer_key_id sealer in
        if is_some_and (λ p, String.eqb (sealer_key_id p) id) prim then [] else [(id, sealer)]
    | Err _ => []
    end
  else [].

Definition load_keyfile_secondary (env : KeyEnv) (c : Config) (d : Dir) (prim : SoftwareSealer) :
    list (string * SoftwareSealer) :=
  let path := key_path (encryption c) in
  if negb (path_exists env d path) then []
  else
    match from_key_file (read_fault env) d path with
    | Ok sealer =>
        let id := sealer_key_id sealer in
        if String.eqb (sealer_key_id prim) id then [] else [(id, sealer)]
    | Err _ => []
    end.

(** The keyring of a TPM primary. Without the [tpm] feature there is no such primary. *)
Definition tpm_keys (env : KeyEnv) (c : Config) (d : Dir) (prim : SoftwareSealer) : SealingKeys :=
  {| primary := Some prim; primary_error := None;
     secondary := if compiled then load_keyfile_secondary env c d prim else [] |}.

Definition keyfile_keys (env : KeyEnv) (c : Config) (d : Dir) (r : result SoftwareSealer string) :
    SealingKeys :=
  let '(prim, err) := match r with Ok s => (Some s, None) | Err m => (None, Some m) end in
  {| primary := prim; primary_error := err; secondary := load_tpm_secondary env c d prim |}.

Definition load (env : KeyEnv) (c : Config) (s : FaceStore) (d : Dir) :
    result SealingKeys string * FaceStore * Dir :=
  match method (encryption c) with
  | EncNone => (Ok keys_none, s, d)
  | EncKeyfile =>
      let '(r, s1, d1) := resolve_keyfile_sealer env c s d in (Ok (keyfile_keys env c d1 r), s1, d1)
  | EncTpm => (let? prim := unseal_tpm_primary env c d in Ok (tpm_keys env c d prim), s, d)
  end.

Definition load_existing (env : KeyEnv) (c : Config) (d : Dir) : SealingKeys :=
  match method (encryption c) with
  | EncNone => keys_none
  | EncKeyfile =>
      let path := key_path (encryption c) in
      keyfile_keys env c d
        (map_err (λ e, path +:+ " keyfile could not be read: " +:+ facelock_error_to_string e)
          (from_key_file (read_fault env) d path))
  | EncTpm =>
      match unseal_tpm_primary env c d with
      | Ok prim => tpm_keys env c d prim
      | Err m => {| primary := None; primary_error := Some m; secondary := [] |}
      end
  end.

Definition refresh_primary (env : KeyEnv) (c : Config) (k : SealingKeys) (s : FaceStore) (d : Dir) :
    SealingKeys * FaceStore * Dir :=
  if negb (bool_decide (method (encryption c) = EncKeyfile)) || is_some (primary k) then (k, s, d)
  else
    match resolve_keyfile_sealer env c s d with
    | (Ok sealer, s1, d1) =>
        let id := sealer_key_id sealer in
        ({| primary := Some sealer; primary_error := None;
            secondary := List.filter (λ x, negb (String.eqb (fst x) id)) (secondary k) |}, s1, d1)
    | (Err m, s1, d1) =>
        ({| primary := primary k; primary_error := Some m; secondary := secondary k |}, s1, d1)
    end.

Definition primary_key_id (k : SealingKeys) : option string := sealer_key_id <$> primary k.
Definition secondary_key_ids (k : SealingKeys) : list string := map fst (secondary k).

Definition by_key_id (k : SealingKeys) (id : string) : option SoftwareSealer :=
  match primary k with
  | Some p => if String.eqb (sealer_key_id p) id then Some p
              else snd <$> List.find (λ x, String.eqb (fst x) id) (secondary k)
  | None => snd <$> List.find (λ x, String.eqb (fst x) id) (secondary k)
  end.

Definition candidates_for_legacy_row (k : SealingKeys) : list SoftwareSealer :=
  match primary k with Some p => [p] | None => [] end ++ map snd (secondary k).

Definition any_loaded (k : SealingKeys) : bool :=
  is_some (primary k) || negb (match secondary k with [] => true | _ => false end).
End Keys.

(** ** A new key never replaces one that rows need *)
Section Gate.
Context `{ShowSqlite} `{RowOrder}.

Lemma step_rows_same {A B} (conv : A → result B RusqliteError) rows s r s' :
  step_rows conv rows s = (r, s') → db s' = db s ∧ same_conn s s'.
Proof.
  revert s r s'. induction rows as [|x rows IH]; intros s r s'; cbn [step_rows].
  { by intros [= <- <-]. }
  unfold bind. pose proof (exec_inside (λ d, let? y := conv x in Ok (y, d)) s) as Hi.
  destruct (exec _ s) as [[y|e] s1] eqn:E1; cbn [snd] in Hi.
  2: { intros [= <- <-]. split; [by eapply exec_err|done]. }
  apply exec_ok in E1. destruct (conv x) as [y'|]; [|done]. injection E1 as _ E1.
  destruct (step_rows conv rows s1) as [[ys|e] s2] eqn:E2; apply IH in E2 as [Hd Hc];
    intros [= <- <-]; (split; [congruence|by etrans]).
Qed.

Lemma step_rows_ok {A B} (conv : A → result B RusqliteError) rows s ys s' :
  step_rows conv rows s = (Ok ys, s') → Forall2 (λ x y, conv x = Ok y) rows ys.
Proof.
  revert s ys s'. induction rows as [|x rows IH]; intros s ys s'; cbn [step_rows].
  { intros [= <- <-]. constructor. }
  intros (y & s1 & E1 & E2)%bind_ok. apply bind_ok in E2 as (zs & s2 & E2 & E3).
  injection E3 as <- _. apply exec_ok in E1. destruct (conv x) as [y'|] eqn:Ec; [|done].
  injection E1 as -> _. constructor; [done|by eapply IH].
Qed.

(** A query reads rows and changes nothing. *)
Lemma query_map_same {A B} (select : Db → list A) (conv : A → result B RusqliteError) s r s' :
  query_map select conv s = (r, s') → db s' = db s ∧ same_conn s s'.
Proof.
  unfold query_map, bind. pose proof (exec_inside (λ d, Ok (select d, d)) s) as Hi.
  destruct (exec _ s) as [[rows|e] s1] eqn:E1; cbn [snd] in Hi.
  2: { intros [= <- <-]. split; [by eapply exec_err|done]. }
  apply exec_ok in E1. injection E1 as _ E1. intros [Hd Hc]%step_rows_same.
  split; [congruence|by etrans].
Qed.

Lemma query_map_ok {A B} (select : Db → list A) (conv : A → result B RusqliteError) s ys s' :
  query_map select conv s = (Ok ys, s') → Forall2 (λ x y, conv x = Ok y) (select (db s)) ys.
Proof.
  intros (rows & s1 & E1 & E2)%bind_ok. apply exec_ok in E1. injection E1 as <- _.
  by eapply step_rows_ok.
Qed.

Lemma at_risk_same c s r s' : encrypted_rows_at_risk c s = (r, s') → db s' = db s ∧ same_conn s s'.
Proof.
  unfold encrypted_rows_at_risk. destruct (embedding_blob_shapes s) as [[shapes|e] s1] eqn:E1;
    apply query_map_same in E1; [|by intros [= _ <-]].
  by destruct (_ && _); intros [= _ <-].
Qed.

Lemma creation_refusal_same c s r s' : key_creation_refusal c s = (r, s') → db s' = db s ∧ same_conn s s'.
Proof.
  unfold key_creation_refusal. destruct (encrypted_rows_at_risk c s) as [[m|] s1] eqn:E1;
    apply at_risk_same in E1; by intros [= _ <-].
Qed.

Lemma filter_length_zero {A} (f : A → bool) l : (length (List.filter f l) =? 0)%nat = true →
  ∀ x, x ∈ l → f x = false.
Proof.
  intros Hl x Hx. apply Nat.eqb_eq, length_zero_iff_nil in Hl. destruct (f x) eqn:Hf; [|done].
  assert (Hin : x ∈ List.filter f l) by (by apply elem_of_filterb). rewrite Hl in Hin. by inversion Hin.
Qed.

(** The database had no encrypted row when the question was answered with "none". *)
Lemma at_risk_none c s s' : encrypted_rows_at_risk c s = (None, s') →
  ∀ e, e ∈ face_embeddings (db s) → is_encrypted (e_embedding e) = false.
Proof.
  unfold encrypted_rows_at_risk. destruct (embedding_blob_shapes s) as [[shapes|er] s1] eqn:E1; [|done].
  apply query_map_ok in E1.
  destruct ((_ =? 0)%nat && _) eqn:Hz; [|done]. intros _ e He. apply andb_true_iff in Hz as [Hs Ht].
  rewrite <- (scan_perm _ (face_embeddings (db s))) in He.
  apply list_elem_of_lookup in He as [i Hi]. destruct (Forall2_lookup_l _ _ _ _ _ E1 Hi) as (x & Hx & Hc).
  injection Hc as <-. apply list_elem_of_lookup_2 in Hx.
  pose proof (filter_length_zero _ _ Hs _ Hx) as H1. pose proof (filter_length_zero _ _ Ht _ Hx) as H2.
  cbn [fst snd] in H1, H2. unfold is_encrypted, is_sealed, is_software_encrypted. by rewrite H1, H2.
Qed.

(** What a decision may have done to the directory: nothing at the key's path, or a new key
    where there was no file, over a database without encrypted rows. *)
Definition key_safe (c : Config) (key : list Z) (rows : list EmbeddingRow) (before after : Dir) : Prop :=
  let path := key_path (encryption c) in
  after !! path = before !! path ∨
  before !! path = None ∧ after !! path = Some (File key) ∧
  ∀ e, e ∈ rows → is_encrypted (e_embedding e) = false.

Lemma decide_spec env c s d dec s' d' : decide_and_create env c s d = (dec, s', d') →
  db s' = db s ∧ same_conn s s' ∧ key_safe c (random_key env) (face_embeddings (db s)) d d' ∧
  (dec = Created → d !! key_path (encryption c) = None ∧
     d' !! key_path (encryption c) = Some (File (random_key env)) ∧
     ∀ e, e ∈ face_embeddings (db s) → is_encrypted (e_embedding e) = false).
Proof.
  unfold decide_and_create, key_safe. destruct (stat_fault env).
  { intros [= <- <- <-]. split_and!; try done. by left. }
  destruct (d !! key_path (encryption c)) as [[|content]|] eqn:Hp; cbn iota.
  1,2: intros [= <- <- <-]; split_and!; try done; by left.
  unfold key_creation_refusal. destruct (encrypted_rows_at_risk c s) as [[m|] s1] eqn:Er.
  { intros [= <- <- <-]. apply at_risk_same in Er as [? ?]. split_and!; try done. left. by rewrite Hp. }
  pose proof (at_risk_none _ _ _ Er) as Hno. apply at_risk_same in Er as [Hdb Hc].
  destruct (create_key_file_exclusive _ _ d _) as [r d1] eqn:Ec. apply create_spec in Ec as [Hd Ht].
  assert (Hsafe : d1 !! key_path (encryption c) = d !! key_path (encryption c) ∨
    d !! key_path (encryption c) = None ∧ d1 !! key_path (encryption c) = Some (File (random_key env)) ∧
    ∀ e, e ∈ face_embeddings (db s) → is_encrypted (e_embedding e) = false).
  { destruct Hd as [->|[? ?]]; [by left|by right]. }
  rewrite Hp in *. destruct r as [[]|e]; intros [= <- <- <-]; split_and!; try done.
  intros _. by destruct (Ht eq_refl).
Qed.
End Gate.

Lemma ensure_key_spec `{ShowSqlite} `{RowOrder} env c s d dec s' d' :
  saved s = None → ensure_encrypt_by_default_key env c s d = (dec, s', d') →
  db s' = db s ∧ saved s' = None ∧
  let path := key_path (encryption c) in
  let minted := method (encryption c) = EncKeyfile ∧ while_waiting env d !! path = None ∧
    d' !! path = Some (File (random_key env)) ∧
    (∀ e, e ∈ face_embeddings (db s) → is_encrypted (e_embedding e) = false) in
  (d' = d ∨ d' !! path = while_waiting env d !! path ∨ minted) ∧ (dec = Created → minted).
Proof.
  intros Hs. unfold ensure_encrypt_by_default_key. cbn zeta. case_bool_decide as Hm; cbn [negb].
  2: { intros [= <- <- <-]. split_and!; try done. by left. }
  assert (Hlocked : match begin_tx s with
    | (Err e, s1) => (Refused (unlockable_store_refusal c e), s1, while_waiting env d)
    | (Ok _, s1) =>
        let '(dec, s2, d') := decide_and_create env c s1 (while_waiting env d) in
        match commit s2 with
        | (Ok _, s3) => (dec, s3, d')
        | (Err e, s3) => (Refused (unlockable_store_refusal c e), s3, d')
        end
    end = (dec, s', d') → db s' = db s ∧ saved s' = None ∧
      (d' !! key_path (encryption c) = while_waiting env d !! key_path (encryption c) ∨
       while_waiting env d !! key_path (encryption c) = None ∧
       d' !! key_path (encryption c) = Some (File (random_key env)) ∧
       ∀ e, e ∈ face_embeddings (db s) → is_encrypted (e_embedding e) = false) ∧
      (dec = Created → while_waiting env d !! key_path (encryption c) = None ∧
       d' !! key_path (encryption c) = Some (File (random_key env)) ∧
       ∀ e, e ∈ face_embeddings (db s) → is_encrypted (e_embedding e) = false)).
  { unfold begin_tx. pose proof (exec_inside (λ d, Ok (tt, d)) s) as (Hb & _ & _).
    destruct (exec _ s) as [[[]|e] s1] eqn:E1; cbn [snd] in Hb.
    2: { intros [= <- <- <-]. apply exec_err in E1. split_and!; [done|congruence|by left|done]. }
    apply exec_ok in E1. injection E1 as E1. rewrite Hb, Hs.
    destruct (decide_and_create env c _ _) as [[dec2 s2] d2] eqn:Ed.
    apply decide_spec in Ed as (Hdb & (Hsv & _ & _) & Hsafe & Hcr). cbn [db set_saved saved] in *.
    rewrite <- E1 in *. unfold commit. pose proof (exec_inside (λ d, Ok (tt, d)) s2) as (Hc & _ & _).
    destruct (exec _ s2) as [[[]|e] s3] eqn:E3; cbn [snd] in Hc.
    - apply exec_ok in E3. injection E3 as E3. intros [= <- <- <-]. cbn. split_and!; [congruence|done|done|done].
    - apply exec_err in E3. rewrite Hsv in Hc. destruct (rollback_saved s3 _ Hc) as [Hr1 Hr2].
      intros [= <- <- <-]. split_and!; [by rewrite Hr2|done|done|done]. }
  destruct (first_stat_fault env); [|destruct (d !! key_path (encryption c)) as [[|content]|]].
  3: { intros [= <- <- <-]. split_and!; try done. by left. }
  all: intros (Hdb & Hsv & Hor & Hcr)%Hlocked; split_and!; [done|done|right|intros Hd; by destruct (Hcr Hd) as (?&?&?)].
  all: destruct Hor as [|(?&?&?)]; [by left|by right].
Qed.

(** C38.  A key is never minted over rows that need another one: taking the encrypt-by-default
    decision leaves the database as it was with no transaction open, and leaves the key's path
    as other processes made it, unless the method is the key file, the path was free under the
    store's lock, and no stored row is encrypted in either format; then the path holds the
    complete new key. A decision that reports a created key is of that second kind. *)
Theorem no_key_over_encrypted_rows `{ShowSqlite} `{RowOrder} env c s d dec s' d' :
  saved s = None → ensure_encrypt_by_default_key env c s d = (dec, s', d') →
  db s' = db s ∧ saved s' = None ∧
  let path := key_path (encryption c) in
  let minted := method (encryption c) = EncKeyfile ∧ while_waiting env d !! path = None ∧
    d' !! path = Some (File (random_key env)) ∧
    (∀ e, e ∈ face_embeddings (db s) → is_encrypted (e_embedding e) = false) in
  (d' = d ∨ d' !! path = while_waiting env d !! path ∨ minted) ∧ (dec = Created → minted).
Proof. apply ensure_key_spec. Qed.

(** ** Looking keys up *)
Section Lookup.
Context `{ShowSqlite} `{RowOrder} `{Sha256} `{TpmDevice}.

(** The keyrings a process can hold under a configuration. *)
Inductive held (c : Config) : SealingKeys → Prop :=
  | held_load env s d k s' d' : load env c s d = (Ok k, s', d') → held c k
  | held_existing env d : held c (load_existing env c d)
  | held_refresh env k s d k' s' d' :
      held c k → refresh_primary env c k s d = (k', s', d') → held c k'.

Record keys_ok (c : Config) (k : SealingKeys) : Prop := {
  ko_ids : ∀ id s, (id, s) ∈ secondary k → id = sealer_key_id s;
  ko_fresh : ∀ p id s, primary k = Some p → (id, s) ∈ secondary k → sealer_key_id p ≠ id;
  ko_one : (length (secondary k) ≤ 1)%nat;
  ko_error : method (encryption c) ≠ EncNone → primary k = None ↔ is_Some (primary_error k);
  ko_none : method (encryption c) = EncNone → primary k = None ∧ secondary k = [];
}.

Lemma tpm_secondary_ok env c d prim id s : (id, s) ∈ load_tpm_secondary env c d prim →
  id = sealer_key_id s ∧ ∀ p, prim = Some p → sealer_key_id p ≠ id.
Proof.
  unfold load_tpm_secondary. destruct (negb _); [by intros ?%elem_of_nil|].
  destruct compiled; [|by intros ?%elem_of_nil].
  destruct (tpm_sealer_new _); cbn iota; [|by intros ?%elem_of_nil].
  destruct (unseal_key_from_file _ _) as [key|]; [|by intros ?%elem_of_nil].
  destruct (is_some_and _ prim) eqn:Hp; [by intros ?%elem_of_nil|].
  intros [= -> ->]%list_elem_of_singleton. split; [done|]. intros p ->. cbn in Hp.
  by apply String.eqb_neq in Hp.
Qed.

Lemma tpm_secondary_one env c d prim : (length (load_tpm_secondary env c d prim) ≤ 1)%nat.
Proof.
  unfold load_tpm_secondary. destruct (negb _); [cbn; lia|]. destruct compiled; [|cbn; lia].
  destruct (tpm_sealer_new _); cbn iota; [|cbn; lia].
  destruct (unseal_key_from_file _ _); [|cbn; lia]. destruct (is_some_and _ _); cbn; lia.
Qed.

Lemma keyfile_secondary_ok env c d p id s : (id, s) ∈ load_keyfile_secondary env c d p →
  id = sealer_key_id s ∧ sealer_key_id p ≠ id.
Proof.
  unfold load_keyfile_secondary. destruct (negb _); [by intros ?%elem_of_nil|].
  destruct (from_key_file _ _ _) as [k|]; [|by intros ?%elem_of_nil].
  destruct (String.eqb_spec (sealer_key_id p) (sealer_key_id k)); [by intros ?%elem_of_nil|].
  by intros [= -> ->]%list_elem_of_singleton.
Qed.

Lemma keyfile_secondary_one env c d p : (length (load_keyfile_secondary env c d p) ≤ 1)%nat.
Proof.
  unfold load_keyfile_secondary. destruct (negb _); [cbn; lia|].
  destruct (from_key_file _ _ _); [|cbn; lia]. destruct (String.eqb _ _); cbn; lia.
Qed.

Lemma keyfile_keys_ok env c d r : method (encryption c) = EncKeyfile → keys_ok c (keyfile_keys env c d r).
Proof.
  intros Hm. unfold keyfile_keys. split.
  - intros id s Hin. destruct r; by eapply tpm_secondary_ok.
  - intros p id s Hp Hin. destruct r; [|done]. by eapply tpm_secondary_ok.
  - destruct r; apply tpm_secondary_one.
  - intros _. destruct r; cbn [primary primary_error]; (split; [done|by intros []]).
  - by rewrite Hm.
Qed.

Lemma tpm_keys_ok env c d p : method (encryption c) = EncTpm → keys_ok c (tpm_keys env c d p).
Proof.
  intros Hm. unfold tpm_keys. split; cbn [primary primary_error secondary].
  - intros id s Hin. destruct compiled; [by eapply keyfile_secondary_ok|by inversion Hin].
  - intros q id s [= <-] Hin. destruct compiled; [by eapply keyfile_secondary_ok|by inversion Hin].
  - destruct compiled; [apply keyfile_secondary_one|cbn; lia].
  - intros _. split; [done|by intros []].
  - by rewrite Hm.
Qed.

Lemma keys_none_ok c : method (encryption c) = EncNone → keys_ok c keys_none.
Proof.
  intros Hm. split; cbn [secondary primary primary_error keys_none].
  - intros id s Hin. by inversion Hin.
  - done.
  - cbn. lia.
  - by rewrite Hm.
  - done.
Qed.

Lemma refresh_ok env c k s d k' s' d' : keys_ok c k → refresh_primary env c k s d = (k', s', d') → keys_ok c k'.
Proof.
  intros Hk. unfold refresh_primary. destruct (negb _ || _) eqn:Hb; [by intros [= <- _ _]|].
  destruct (resolve_keyfile_sealer env c s d) as [[[sealer|m] s1] d1]; intros [= <- _ _];
    split; cbn [primary primary_error secondary]; try apply Hk.
  - intros id x [Hin _]%elem_of_filterb. by eapply ko_ids.
  - intros p id x [= <-] [_ Hne]%elem_of_filterb. apply negb_true_iff, String.eqb_neq in Hne. cbn in Hne. congruence.
  - pose proof (ko_one _ _ Hk). pose proof (sublist_length _ _ (filterb_sublist
      (λ x : string * SoftwareSealer, negb (String.eqb (fst x) (sealer_key_id sealer))) (secondary k))). lia.
  - intros _. split; [done|by intros []].
  - intros Hm. rewrite Hm in Hb. by rewrite bool_decide_eq_false_2 in Hb.
  - intros _. split; [done|intros _]. apply orb_false_iff in Hb as [_ Hb]. by destruct (primary k).
Qed.

Lemma held_ok c k : held c k → keys_ok c k.
Proof.
  induction 1 as [env s d k s' d' Hl|env d|env k s d k' s' d' _ IH Hr].
  - unfold load in Hl. destruct (method (encryption c)) eqn:Hm.
    + injection Hl as <- _ _. by apply keys_none_ok.
    + destruct (resolve_keyfile_sealer env c s d) as [[r s1] d1]. injection Hl as <- _ _.
      by apply keyfile_keys_ok.
    + destruct (unseal_tpm_primary env c d); [|done]. injection Hl as <- _ _. by apply tpm_keys_ok.
  - unfold load_existing. destruct (method (encryption c)) eqn:Hm.
    + by apply keys_none_ok.
    + by apply keyfile_keys_ok.
    + destruct (unseal_tpm_primary env c d); [by apply tpm_keys_ok|].
      split; cbn [secondary primary primary_error].
      * intros id s Hin. by inversion Hin.
      * done.
      * cbn. lia.
      * intros _. by split.
      * by rewrite Hm.
  - by eapply refresh_ok.
Qed.

Lemma short_list {A} (l : list A) : (length l ≤ 1)%nat → l = [] ∨ ∃ x, l = [x].
Proof. destruct l as [|x [|y l]]; [by left|right; by exists x|cbn; lia]. Qed.

Lemma by_key_id_spec c k id s : keys_ok c k →
  by_key_id k id = Some s ↔ s ∈ candidates_for_legacy_row k ∧ sealer_key_id s = id.
Proof.
  intros Hk. pose proof (ko_ids _ _ Hk) as Hids. pose proof (ko_fresh _ _ Hk) as Hfr.
  unfold by_key_id, candidates_for_legacy_row.
  destruct (short_list _ (ko_one _ _ Hk)) as [Hs|[[i x] Hs]]; rewrite Hs in *;
    cbn [List.find map fst snd]; destruct (primary k) as [p|]; cbn [app].
  - destruct (String.eqb_spec (sealer_key_id p) id); rewrite list_elem_of_singleton; naive_solver.
  - split; [done|]. by intros [?%elem_of_nil _].
  - specialize (Hids i x ltac:(by apply list_elem_of_singleton)) as ->.
    specialize (Hfr p _ x eq_refl ltac:(by apply list_elem_of_singleton)).
    destruct (String.eqb_spec (sealer_key_id p) id), (String.eqb_spec (sealer_key_id x) id); cbn;
      rewrite elem_of_cons, list_elem_of_singleton; naive_solver.
  - specialize (Hids i x ltac:(by apply list_elem_of_singleton)) as ->.
    destruct (String.eqb_spec (sealer_key_id x) id); cbn; rewrite list_elem_of_singleton; naive_solver.
Qed.
End Lookup.

(** The keyring hands every row its own key: whatever was loaded or refreshed, looking an id
    up returns a sealer exactly when that sealer is loaded and its key has that id; no two
    loaded keys share an id, so the trial for a row without an id tries no key twice; a
    configuration that encrypts lacks a primary key exactly when it records why; and one that
    does not encrypt holds no key. *)
Theorem keyring_lookup `{ShowSqlite} `{RowOrder} `{Sha256} `{TpmDevice} c k : held c k →
  (∀ id s, by_key_id k id = Some s ↔ s ∈ candidates_for_legacy_row k ∧ sealer_key_id s = id) ∧
  NoDup (map sealer_key_id (candidates_for_legacy_row k)) ∧
  (method (encryption c) ≠ EncNone → primary k = None ↔ is_Some (primary_error k)) ∧
  (method (encryption c) = EncNone → candidates_for_legacy_row k = []).
Proof.
  intros Hk%held_ok. pose proof (ko_ids _ _ Hk) as Hids. pose proof (ko_fresh _ _ Hk) as Hfr.
  unfold by_key_id, candidates_for_legacy_row. split_and!.
  3: apply (ko_error _ _ Hk). 3: { intros Hm. by destruct (ko_none _ _ Hk Hm) as [-> ->]. }
  - intros id s. by apply (by_key_id_spec c).
  - destruct (short_list _ (ko_one _ _ Hk)) as [Hs|[[i x] Hs]]; rewrite Hs in *;
      destruct (primary k) as [p|]; cbn; repeat constructor; try (by intros ?%elem_of_nil).
    specialize (Hids i x ltac:(by apply list_elem_of_singleton)) as ->.
    specialize (Hfr p _ x eq_refl ltac:(by apply list_elem_of_singleton)).
    by intros ?%list_elem_of_singleton.
Qed.

(** ** A concrete host *)
#[local] Instance show_sqlite_plain : ShowSqlite := λ _, "sqlite error".
#[local] Instance sum_hash : Sha256 := {| sha256 l := repeat (foldl Z.add 0 l mod 256) 32 |}.
#[local] Instance no_tpm : TpmDevice := {|
  compiled := false; tpm_connect _ := Err "no TPM"; tpm_create _ _ := Err (Tpm "no TPM");
  tpm_unseal _ _ _ := Err (Tpm "no TPM") |}.

Definition calm_env : KeyEnv :=
  {| first_stat_fault := None; while_waiting d := d; stat_fault := None; create_ios _ := quiet_io;
     random_key := repeat 7 32; parent_access := Writable; read_fault := None; link_target _ := None |}.

Lemma triple_eta {A B C} (x : A * B * C) : x = (fst (fst x), snd (fst x), snd x).
Proof. by destruct x as [[? ?] ?]. Qed.

Lemma no_key_over_encrypted_rows_witness :
  let out := ensure_encrypt_by_default_key calm_env config_default (fresh_store (λ _, None)) ∅ in
  fst (fst out) = Created ∧
  snd out !! key_path (encryption config_default) = Some (File (repeat 7 32)).
Proof.
  intros out. split; [vm_compute; reflexivity|].
  destruct (no_key_over_encrypted_rows calm_env config_default (fresh_store (λ _, None)) ∅
    (fst (fst out)) (snd (fst out)) (snd out) eq_refl
    (triple_eta out))
    as (_ & _ & _ & Hcr).
  destruct (Hcr ltac:(vm_compute; reflexivity)) as (_ & _ & Hd & _). exact Hd.
Defined.

Lemma keyring_lookup_witness :
  let k := load_existing calm_env config_default {[ key_path (encryption config_default) := File (repeat 7 32) ]} in
  by_key_id k (key_id_for (repeat 7 32)) = Some (from_key (repeat 7 32)).
Proof.
  intros k. apply (keyring_lookup config_default k (held_existing _ _ _)). split; [|reflexivity].
  vm_compute. apply list_elem_of_here.
Defined.
