(* ===== verification/Embeddings.v ===== *)
(** * Decrypting stored templates ([crates/facelock-daemon/src/embeddings.rs])

    One loop over a user's raw rows: software-encrypted blobs open under the key their row
    names, TPM-sealed blobs through the TPM, plaintext blobs by a size check. The first row that
    fails ends the load, and the buffer it leaves behind is wiped. *)

From stdpp Require Import sorting.
From S2P Require Import Prelude Float32 Types DeviceBinding Config Store StoreProofs Sealing KeyFile Keyring.

(** How the loop reaches a TPM sealer. *)
Inductive TpmAccess := Held (available : bool) | Lazy (tcti : string) (connected : bool).

Section Decrypt.
Context `{Aead} `{Sha256} `{TpmDevice}.

Definition access_sealer (t : TpmAccess) : result TpmAccess string :=
  match t with
  | Held true => Ok t
  | Held false => Err "TPM-sealed embeddings exist but TPM is not available"
  | Lazy tcti true => Ok t
  | Lazy tcti false =>
      let? _ := map_err (λ e, "TPM initialization failed: " +:+ facelock_error_to_string e)
                  (tpm_sealer_new tcti) in
      Ok (Lazy tcti true)
  end.

Definition needs_raw_rows (c : Config) (software_sealer_active sealer_unavailable : bool) : bool :=
  software_sealer_active || seal_database (tpm c) || sealer_unavailable.

Definition software_decrypt_error (id : Z) (cause : string) (dev : option string) (aad_present : bool) :
    string :=
  let message := "software decryption failed for embedding " +:+ show_Z id +:+ ": " +:+ cause in
  if aad_present then
    message +:+ "; if this template predates security.bind_device_aad, re-enroll to bind it"
  else if is_some_and (λ d, negb (is_empty_str d)) dev then
    message +:+ "; if this template was sealed under security.bind_device_aad, re-enable it or re-enroll"
  else message.

Definition other_key_artifact (c : Config) : string :=
  match method (encryption c) with
  | EncTpm => key_path (encryption c)
  | EncKeyfile | EncNone =>
      if compiled then sealed_key_path (encryption c)
      else sealed_key_path (encryption c) +:+ " under a build with the tpm feature (this one has none)"
  end.

(** The trial of every loaded key; the last error is the one reported. *)
Fixpoint try_candidates (blob : list Z) (aad : option string) (last : option string)
    (candidates : list SoftwareSealer) : result FaceEmbedding (option string) :=
  match candidates with
  | [] => Err last
  | s :: rest =>
      match unseal_embedding_with_aad s blob aad with
      | Ok e => Ok e
      | Err e => try_candidates blob aad (Some (facelock_error_to_string e)) rest
      end
  end.

Definition decrypt_software_row (id : Z) (blob : list Z) (dev key : option string) (c : Config)
    (k : SealingKeys) : result FaceEmbedding string :=
  let aad := device_aad (security c) dev in
  match key with
  | Some wanted =>
      match by_key_id k wanted with
      | None => Err ("embedding " +:+ show_Z id +:+ " was sealed under key " +:+ wanted +:+
                  ", which is not loadable: restore " +:+ other_key_artifact c +:+
                  " (the artifact for the other encryption method) or re-enroll")
      | Some s =>
          map_err (λ e, software_decrypt_error id (facelock_error_to_string e) dev (is_some aad))
            (unseal_embedding_with_aad s blob aad)
      end
  | None =>
      if negb (any_loaded k)
      then Err ("embedding " +:+ show_Z id +:+ " is software-encrypted but no key is configured")
      else
        map_err (λ last, software_decrypt_error id (unwrap_or "no loadable key could open it" last) dev
                           (is_some aad) +:+ "; or sealed under a key that is no longer loadable")
          (try_candidates blob aad None (candidates_for_legacy_row k))
  end.

(** One row; the sealer of the next row is the one this row left. [cast_slice] also requires
    the blob to be aligned for [f32], which the allocator gives a vector of this size. *)
Definition decrypt_row (c : Config) (k : SealingKeys) (t : TpmAccess) (row : RawEmbeddingRow) :
    result (FaceEmbedding * TpmAccess) string :=
  let id := raw_model_id row in
  let blob := raw_blob row in
  if raw_sealed row && is_software_encrypted blob then
    let? e := decrypt_software_row id blob (raw_device_id row) (raw_key_id row) c k in Ok (e, t)
  else if raw_sealed row then
    let? t' := access_sealer t in
    let? e := map_err (λ e, "TPM unseal failed for embedding " +:+ show_Z id +:+ ": " +:+
                            facelock_error_to_string e) (tpm_unseal_embedding blob) in
    Ok (e, t')
  else if negb (length blob =? 512 * 4)%nat then
    Err ("invalid raw embedding size for id " +:+ show_Z id +:+ ": expected 2048 bytes, got " +:+
         show_nat (length blob))
  else Ok (floats_of_bytes blob, t).

(** The loop, with the contents of its buffer: the rows on success, wiped ones on failure. *)
Fixpoint decrypt_rows_into (c : Config) (k : SealingKeys) (t : TpmAccess)
    (out : list (Z * FaceEmbedding)) (rows : list RawEmbeddingRow) :
    result unit string * list (Z * FaceEmbedding) :=
  match rows with
  | [] => (Ok tt, out)
  | row :: rest =>
      match decrypt_row c k t row with
      | Err e => (Err e, zeroize_stored_embeddings out)
      | Ok (e, t') => decrypt_rows_into c k t' (out ++ [(raw_model_id row, e)]) rest
      end
  end.

Definition decrypt_user_embeddings (rows : list RawEmbeddingRow) (c : Config) (k : SealingKeys)
    (t : TpmAccess) : result (list (Z * FaceEmbedding)) string :=
  match decrypt_rows_into c k t [] rows with
  | (Ok _, out) => Ok out
  | (Err e, _) => Err e
  end.

(** The models reported as legacy unbound: sorted, each once. *)
Definition unbound_model_ids (rows : list RawEmbeddingRow) (c : Config) : list Z :=
  merge_sort Z.le (remove_dups (map raw_model_id
    (List.filter (λ r, match classify_device_binding c (raw_device_id r) with
                       | LegacyUnbound => true | Bound => false end) rows))).
End Decrypt.

(** ** All or nothing *)
Section AllOrNothing.
Context `{Aead} `{Sha256} `{TpmDevice} (c : Config) (k : SealingKeys).

(** What a row opens to, from a given state of the TPM access. *)
Definition opened (t : TpmAccess) (row : RawEmbeddingRow) : result FaceEmbedding string :=
  let? x := decrypt_row c k t row in Ok (fst x).

Fixpoint map_result {A B E} (f : A → result B E) (l : list A) : result (list B) E :=
  match l with
  | [] => Ok []
  | x :: l' => let? y := f x in let? ys := map_result f l' in Ok (y :: ys)
  end.

(** Reaching the TPM once does not change whether it can be reached. *)
Lemma access_stable t t' : access_sealer t = Ok t' → access_sealer t' = Ok t'.
Proof.
  destruct t as [[]|tcti []]; cbn; try done; try (by intros [= <-]).
  destruct (tpm_sealer_new tcti); cbn; [by intros [= <-]|done].
Qed.

Lemma opened_stable t row e t' : decrypt_row c k t row = Ok (e, t') → ∀ row', opened t' row' = opened t row'.
Proof.
  intros Hd row'. assert (Ht : t' = t ∨ access_sealer t = Ok t').
  { revert Hd. unfold decrypt_row. destruct (_ && _).
    { destruct (decrypt_software_row _ _ _ _ _ _); [|done]. intros [= _ <-]. by left. }
    destruct (raw_sealed row).
    { destruct (access_sealer t) as [t1|]; [|done]. destruct (tpm_unseal_embedding _); [|done].
      intros [= _ <-]. by right. }
    destruct (negb _); [done|]. intros [= _ <-]. by left. }
  destruct Ht as [->|Ht]; [done|]. unfold opened, decrypt_row. destruct (_ && _).
  { by destruct (decrypt_software_row _ _ _ _ _ _). }
  destruct (raw_sealed row').
  { rewrite Ht, (access_stable _ _ Ht). by destruct (tpm_unseal_embedding _). }
  by destruct (negb _).
Qed.

Lemma zeroize_stored_wiped l : Forall wiped (zeroize_stored_embeddings l).
Proof.
  apply Forall_forall. intros x ([i y] & -> & _)%list_elem_of_fmap. unfold wiped. cbn [secret wipe_stored].
  by apply Forall_replicate.
Qed.

Lemma decrypt_rows_spec rows : ∀ t out,
  match map_result (opened t) rows with
  | Ok es => decrypt_rows_into c k t out rows = (Ok tt, out ++ zip (map raw_model_id rows) es)
  | Err e => ∃ left, decrypt_rows_into c k t out rows = (Err e, left) ∧ Forall wiped left
  end.
Proof.
  induction rows as [|row rows IH]; intros t out; cbn [map_result decrypt_rows_into].
  { by rewrite app_nil_r. }
  unfold opened at 1. destruct (decrypt_row c k t row) as [[e t']|er] eqn:Hd; cbn [fst].
  2: { exists (zeroize_stored_embeddings out). split; [done|apply zeroize_stored_wiped]. }
  specialize (IH t' (out ++ [(raw_model_id row, e)])).
  assert (Hext : map_result (opened t') rows = map_result (opened t) rows).
  { clear IH. induction rows as [|r rows IHr]; [done|]. cbn [map_result].
    by rewrite (opened_stable t row e t' Hd r), IHr. }
  rewrite Hext in IH. destruct (map_result (opened t) rows) as [es|er]; [|done].
  rewrite IH. cbn [map zip]. by rewrite <- app_assoc.
Qed.
End AllOrNothing.

(** A compare set is loaded whole or not at all: the load returns one embedding per row, in
    row order and under the row's model id, exactly when every row opens by itself, the TPM
    being reachable or not throughout; otherwise it fails with the error of the first row that
    does not open, and everything decrypted until then is wiped. *)
Theorem decrypt_is_all_or_nothing `{Aead} `{Sha256} `{TpmDevice} c k t rows :
  (∀ l, decrypt_user_embeddings rows c k t = Ok l ↔
     ∃ es, map_result (opened c k t) rows = Ok es ∧ l = zip (map raw_model_id rows) es) ∧
  (∀ e, decrypt_user_embeddings rows c k t = Err e ↔ map_result (opened c k t) rows = Err e) ∧
  (∀ e left, decrypt_rows_into c k t [] rows = (Err e, left) → Forall wiped left).
Proof.
  pose proof (decrypt_rows_spec c k rows t []) as Hs. unfold decrypt_user_embeddings.
  destruct (map_result (opened c k t) rows) as [es|er]; [|destruct Hs as (left & Hs & Hw)]; rewrite Hs; cbn [app].
  - split_and!; [|by intros e|done]. intros l. split; [intros [= <-]; by exists es|by intros (es' & [= ->] & ->)].
  - split_and!; [|intros e; split; congruence|by intros e l [= <- <-]]. intros l. split; [done|by intros (es' & ? & _)].
Qed.

(** ** Templates open under the key that sealed them *)
Section RowsOpen.
Context `{ShowSqlite} `{RowOrder} `{AeadLaws} `{Sha256} `{TpmDevice} `{NanEncoding}.

(** A row of a template that [s] sealed on the device [dev]. *)
Definition sealed_row (s : SoftwareSealer) (aad dev key : option string) (id : Z)
    (e : FaceEmbedding) (row : RawEmbeddingRow) : Prop :=
  wf_embedding e ∧ raw_model_id row = id ∧ raw_sealed row = true ∧ raw_device_id row = dev ∧
  raw_key_id row = key ∧
  ∃ nonce, length nonce = AES_NONCE_SIZE ∧ seal_embedding_with_aad s nonce e aad = Ok (raw_blob row).

Lemma sealed_row_opens c k t s aad dev key id e row : held c k → method (encryption c) ≠ EncNone →
  require_device_aad c dev = Ok aad →
  (key = Some (sealer_key_id s) ∧ s ∈ candidates_for_legacy_row k ∨ key = None ∧ primary k = Some s) →
  sealed_row s aad dev key id e row → opened c k t row = Ok e.
Proof.
  intros Hk Hm Ha Hkey (He & _ & Hsl & Hdev & Hrk & nonce & Hn & Hseal).
  destruct (sealed_recognized _ _ _ _ _ He Hn Hseal) as (Hopen & Hrec & _).
  apply require_aad_opens in Ha; [|done].
  unfold opened, decrypt_row. rewrite Hsl, Hrec. cbn [andb]. unfold decrypt_software_row.
  rewrite Hdev, Ha, Hrk. destruct Hkey as [[-> Hs]|[-> Hp]].
  - by rewrite (proj2 (by_key_id_spec c k _ s (held_ok _ _ Hk)) (conj Hs eq_refl)), Hopen.
  - unfold any_loaded, candidates_for_legacy_row. rewrite Hp. cbn. by rewrite Hopen.
Qed.

Lemma sealed_rows_map c k t s aad dev key id es rows : held c k → method (encryption c) ≠ EncNone →
  require_device_aad c dev = Ok aad →
  (key = Some (sealer_key_id s) ∧ s ∈ candidates_for_legacy_row k ∨ key = None ∧ primary k = Some s) →
  Forall2 (sealed_row s aad dev key id) es rows →
  map_result (opened c k t) rows = Ok es ∧ zip (map raw_model_id rows) es = map (pair id) es.
Proof.
  intros Hk Hm Ha Hkey. induction 1 as [|e row es rows Hr _ [IH1 IH2]]; [done|].
  cbn [map_result map zip]. rewrite (sealed_row_opens c k t s aad dev key id e row) by done.
  rewrite IH1, IH2. split; [done|]. destruct Hr as (_ & -> & _). done.
Qed.

(** What enrollment sealed, a later load opens: rows sealed under the device data the
    configuration requires load to the embeddings they were made from, in order, when they
    name a key that is loaded, whether as the primary or kept from an earlier configuration,
    and also when they name none and the key is the primary. *)
Theorem sealed_templates_load c k t s aad dev key id es rows :
  held c k → method (encryption c) ≠ EncNone → require_device_aad c dev = Ok aad →
  (key = Some (sealer_key_id s) ∧ s ∈ candidates_for_legacy_row k ∨ key = None ∧ primary k = Some s) →
  Forall2 (sealed_row s aad dev key id) es rows →
  decrypt_user_embeddings rows c k t = Ok (map (pair id) es).
Proof.
  intros Hk Hm Ha Hkey Hrows.
  destruct (sealed_rows_map c k t s aad dev key id es rows Hk Hm Ha Hkey Hrows) as [Hmap Hzip].
  pose proof (decrypt_rows_spec c k rows t []) as Hs. rewrite Hmap in Hs.
  unfold decrypt_user_embeddings. by rewrite Hs, Hzip.
Qed.
End RowsOpen.

#[local] Existing Instance show_sqlite_plain.
#[local] Existing Instance sum_hash.
#[local] Existing Instance no_tpm.
#[local] Existing Instance toy_aead.
#[local] Existing Instance toy_aead_laws.
#[local] Existing Instance nan_x86.

Definition one_embedding : FaceEmbedding := repeat f32_one 512.

Lemma one_embedding_wf : wf_embedding one_embedding.
Proof.
  split; [reflexivity|]. apply Forall_forall. intros x Hx.
  by apply list_elem_of_In, repeat_spec in Hx as ->.
Qed.

(** Method and key file of the default configuration, with its key on disk. *)
Definition seven_keys : SealingKeys :=
  load_existing calm_env config_default {[ key_path (encryption config_default) := File (repeat 7 32) ]}.

Lemma sealed_templates_load_witness :
  let s := from_key (repeat 7 32) in
  let blob := SOFTWARE_ENCRYPTED_VERSION_BYTE ::
    repeat 5 12 ++ embedding_to_bytes one_embedding ++ toy_tag (repeat 7 32) (repeat 5 12) "" in
  let row := {| raw_model_id := 3; raw_blob := blob; raw_sealed := true; raw_device_id := Some "046d:085e";
                raw_key_id := Some (sealer_key_id s) |} in
  decrypt_user_embeddings [row] config_default seven_keys (Held false) = Ok [(3, one_embedding)].
Proof.
  intros s blob row.
  apply (sealed_templates_load config_default seven_keys (Held false) s None (Some "046d:085e")
           (Some (sealer_key_id s)) 3 [one_embedding] [row]).
  - apply held_existing.
  - discriminate.
  - reflexivity.
  - left. split; [reflexivity|]. apply list_elem_of_here.
  - constructor; [|constructor]. split; [apply one_embedding_wf|].
    split; [reflexivity|]. split; [reflexivity|]. split; [reflexivity|]. split; [reflexivity|].
    exists (repeat 5 12). split; reflexivity.
Defined.
