(* ===== verification/Enroll.v ===== *)
(** * Enrollment ([crates/facelock-daemon/src/quality.rs], [enroll.rs])

    The quality score of a frame, the capture loop with its rejection tally, and the one write
    at its end. As in the authentication loop, every iteration reads a [Shot]: the clock, the
    cancellation flag, the captured frame and the detected faces. [None] is a panic. *)

From S2P Require Import Prelude Float32 Types Matching DeviceBinding Config Store StoreProofs Gates Auth Sealing KeyFile Keyring Embeddings.

Definition MIN_QUALITY_SCORE : f32 := f32_lit 35 100.
Definition MAX_EMBEDDING_SIMILARITY : f32 := f32_lit 95 100.

Record FrameQuality := {
  centering : f32;
  face_size : f32;
  brightness : f32;
  sharpness : f32;
  overall : f32;
}.

(** ** Scores *)
Definition two : f32 := f32_of_Z 2.

Definition score_centering (b : BoundingBox) (frame_width frame_height : Z) : f32 :=
  let face_cx := f32_add (bbox_x b) (f32_div (bbox_width b) two) in
  let face_cy := f32_add (bbox_y b) (f32_div (bbox_height b) two) in
  let frame_cx := f32_div (f32_of_Z frame_width) two in
  let frame_cy := f32_div (f32_of_Z frame_height) two in
  let dx := f32_div (f32_abs (f32_sub face_cx frame_cx)) frame_cx in
  let dy := f32_div (f32_abs (f32_sub face_cy frame_cy)) frame_cy in
  f32_clamp f32_zero f32_one (f32_sub f32_one (f32_div (f32_add dx dy) two)).

Definition score_face_size (b : BoundingBox) (frame_width frame_height : Z) : f32 :=
  let face_area := f32_mul (bbox_width b) (bbox_height b) in
  let frame_area := f32_mul (f32_of_Z frame_width) (f32_of_Z frame_height) in
  let ratio := f32_div face_area frame_area in
  if f32_lt ratio (f32_lit 5 100) then f32_div ratio (f32_lit 5 100)
  else if f32_gt ratio (f32_lit 40 100) then
    f32_max (f32_sub f32_one (f32_div (f32_sub ratio (f32_lit 40 100)) (f32_lit 60 100))) f32_zero
  else f32_one.

Definition usize (z : Z) : Z := z mod 2 ^ 64.

(** [&l[a..b]] *)
Definition slice (l : list Z) (a b : Z) : option (list Z) :=
  if (a <=? b) && (b <=? Z.of_nat (length l))
  then Some (take (Z.to_nat (b - a)) (drop (Z.to_nat a) l)) else None.

Fixpoint face_rows (gray : list Z) (x_start w frame_width : Z) (ys : list Z) : option (list Z) :=
  match ys with
  | [] => Some []
  | y :: ys' =>
      let len := Z.of_nat (length gray) in
      let row_start := usize (usize (y * frame_width) + x_start) in
      let row_end := Z.min (usize (row_start + w)) len in
      if row_start <? len then
        row ← slice gray row_start row_end;
        rest ← face_rows gray x_start w frame_width ys';
        Some (row ++ rest)
      else face_rows gray x_start w frame_width ys'
  end.

Definition extract_face_pixels (gray : list Z) (b : BoundingBox) (frame_width : Z) : option (list Z) :=
  let len := Z.of_nat (length gray) in
  let x_start := Z.min (f32_to_uint usize_max (bbox_x b)) len in
  let y_start := Z.min (f32_to_uint usize_max (bbox_y b)) len in
  let w := f32_to_uint usize_max (bbox_width b) in
  let h := f32_to_uint usize_max (bbox_height b) in
  if isize_max <? usize (w * h) then None
  else face_rows gray x_start w frame_width (range y_start (usize (y_start + h))).

Definition score_brightness (gray : list Z) (b : BoundingBox) (frame_width : Z) : option f32 :=
  pixels ← extract_face_pixels gray b frame_width;
  Some
    match pixels with
    | [] => f32_lit 5 10
    | _ =>
        let mean := f32_div (f32_div (f32_of_Z (foldr Z.add 0 pixels))
                       (f32_of_Z (Z.of_nat (length pixels)))) (f32_of_Z 255) in
        if f32_lt mean (f32_lit 1 10) then f32_div mean (f32_lit 1 10)
        else if f32_gt mean (f32_lit 9 10) then f32_div (f32_sub f32_one mean) (f32_lit 1 10)
        else f32_one
    end.

(** *** Sharpness: the mean absolute Laplacian of the face, in double precision *)
Definition f64_add : f64 → f64 → f64 := SFadd 53 1024.
Definition f64_sub : f64 → f64 → f64 := SFsub 53 1024.
Definition f64_mul : f64 → f64 → f64 := SFmul 53 1024.
Definition f64_div : f64 → f64 → f64 := SFdiv 53 1024.

Definition pixel (gray : list Z) (idx : Z) : f64 := f64_of_Z (nth (Z.to_nat idx) gray 0).

(** The pixels of a row that have all four neighbours in the buffer; the guards keep every
    index in bounds. *)
Definition laplacian (gray : list Z) (frame_width idx : Z) : f64 :=
  SFabs (f64_sub (f64_add (f64_add (f64_add (pixel gray (idx - 1)) (pixel gray (idx + 1)))
                   (pixel gray (idx - frame_width))) (pixel gray (idx + frame_width)))
           (f64_mul (f64_of_Z 4) (pixel gray idx))).

Fixpoint sharp_row (gray : list Z) (frame_width row : Z) (xs : list Z) (acc : f64 * Z) : f64 * Z :=
  match xs with
  | [] => acc
  | x :: xs' =>
      let idx := row + x in
      if (Z.of_nat (length gray) <=? idx + frame_width) || (idx <? frame_width)
      then sharp_row gray frame_width row xs' acc
      else sharp_row gray frame_width row xs'
             (f64_add (fst acc) (laplacian gray frame_width idx), snd acc + 1)
  end.

Fixpoint sharp_rows (gray : list Z) (frame_width x_start w : Z) (ys : list Z) (acc : f64 * Z) : f64 * Z :=
  match ys with
  | [] => acc
  | y :: ys' =>
      let row := y * frame_width in
      if Z.of_nat (length gray) <? row + (x_start + w) then acc
      else sharp_rows gray frame_width x_start w ys'
             (sharp_row gray frame_width row
                (range (x_start + 1) (saturating_sub (as_u32 (x_start + w)) 1)) acc)
  end.

Definition score_sharpness (gray : list Z) (b : BoundingBox) (frame_width : Z) : f32 :=
  let x_start := Z.min (f32_to_uint u32_max (bbox_x b)) (saturating_sub frame_width 1) in
  let y_start := Z.min (f32_to_uint u32_max (bbox_y b)) (saturating_sub frame_width 1) in
  let w := Z.min (f32_to_uint u32_max (bbox_width b)) (frame_width - x_start) in
  let h := f32_to_uint u32_max (bbox_height b) in
  if (w <? 3) || (h <? 3) then f32_zero
  else
    let '(variance_sum, count) :=
      sharp_rows gray frame_width x_start w
        (range (y_start + 1) (saturating_sub (as_u32 (y_start + h)) 1)) (S754_zero false, 0) in
    if count =? 0 then f32_zero
    else f32_clamp f32_zero f32_one
           (f32_div (f32_of_f64 (f64_div variance_sum (f64_of_Z count))) (f32_of_Z 15)).

Definition score_frame (d : Detection) (gray : list Z) (frame_width frame_height : Z) :
    option FrameQuality :=
  brightness ← score_brightness gray (bbox d) frame_width;
  let centering := score_centering (bbox d) frame_width frame_height in
  let face_size := score_face_size (bbox d) frame_width frame_height in
  let sharpness := score_sharpness gray (bbox d) frame_width in
  let weighted x n := f32_mul x (f32_lit n 10) in
  Some {| centering := centering; face_size := face_size; brightness := brightness;
          sharpness := sharpness;
          overall := f32_add (f32_add (f32_add (weighted centering 2) (weighted face_size 3))
                       (weighted brightness 2)) (weighted sharpness 3) |}.

Definition meets_quality_threshold (q : FrameQuality) : bool := f32_ge (overall q) MIN_QUALITY_SCORE.

Definition quality_hint (q : FrameQuality) : option string :=
  if f32_lt (centering q) (f32_lit 3 10) then Some "Center your face in the frame"
  else if f32_lt (face_size q) (f32_lit 2 10) then Some "Move closer to the camera"
  else if f32_gt (face_size q) (f32_lit 8 10) then Some "Move further from the camera"
  else if f32_lt (brightness q) (f32_lit 2 10) then Some "Improve lighting conditions"
  else if f32_lt (sharpness q) (f32_lit 2 10) then Some "Hold still for a sharper image"
  else None.

(** Every pair [i < j]. *)
Fixpoint any_pair {A} (f : A → A → bool) (l : list A) : bool :=
  match l with
  | [] => false
  | x :: l' => existsb (f x) l' || any_pair f l'
  end.

Definition check_angle_diversity (embeddings : list FaceEmbedding) : bool :=
  if (length embeddings <? 2)%nat then true
  else any_pair (λ a b, f32_lt (cosine_similarity a b) MAX_EMBEDDING_SIMILARITY) embeddings.

(** ** The capture loop *)
Inductive EnrollOutcome :=
  | Enrolled (model_id embedding_count : Z)
  | EnrollError (message : string)
  | EnrollCancelled.

Definition MIN_CAPTURES : nat := MIN_EMBEDDINGS_PER_MODEL.
Definition MAX_CAPTURES : nat := 10.

Record RejectionStats := {
  dark : Z;
  no_face : Z;
  multiple_faces : Z;
  low_quality : Z;
  capture_errors : Z;
  last_capture_error : option string;
  engine_errors : Z;
  last_engine_error : option string;
}.

Definition no_rejections : RejectionStats :=
  {| dark := 0; no_face := 0; multiple_faces := 0; low_quality := 0; capture_errors := 0;
     last_capture_error := None; engine_errors := 0; last_engine_error := None |}.

Definition total (r : RejectionStats) : Z :=
  as_u32 (dark r + no_face r + multiple_faces r + low_quality r + capture_errors r + engine_errors r).

Definition hint (r : RejectionStats) : option string :=
  let majority := as_u32 (total r / 2 + 1) in
  if majority <=? dark r then Some "Hint: the scene is too dark — improve lighting and retry"
  else if majority <=? capture_errors r then
    Some "Hint: the camera is not delivering usable frames — check device.path and the camera format (see docs/troubleshooting.md)"
  else if majority <=? engine_errors r then
    Some "Hint: the face engine is failing on captured frames — check the model files and recognition.execution_provider (see docs/troubleshooting.md)"
  else if majority <=? no_face r then
    Some "Hint: no face was detected — face the camera directly and check `facelock preview`"
  else None.

Definition summary (r : RejectionStats) : string :=
  if total r =? 0 then ""
  else
    let count n what := if 0 <? n then [show_Z n +:+ " " +:+ what] else [] in
    let errors n what last :=
      if 0 <? n then
        [show_Z n +:+ " " +:+ what +:+ match last with Some e => " (last: " +:+ e +:+ ")" | None => "" end]
      else [] in
    " — rejected frames: " +:+
    String.concat ", " (count (dark r) "too dark" ++ count (no_face r) "no face" ++
      count (multiple_faces r) "multiple faces" ++ count (low_quality r) "low quality" ++
      errors (capture_errors r) "capture errors" (last_capture_error r) ++
      errors (engine_errors r) "engine errors" (last_engine_error r)) +:+
    match hint r with Some h => ". " +:+ h | None => "" end.

(** One iteration's readings: the clock at the loop condition, the cancellation flag, the
    capture and the face engine. The sleep between accepted frames only moves the clock. *)
Record Shot := {
  sh_clock : Z;
  sh_cancelled : bool;
  sh_capture : result Frame string;
  sh_faces : result (list (Detection * FaceEmbedding)) string;
}.

Record EnrollState := { accepted : list FaceEmbedding; rejections : RejectionStats }.

Definition enroll_init : EnrollState := {| accepted := []; rejections := no_rejections |}.

Definition reject (f : RejectionStats → RejectionStats) (st : EnrollState) : EnrollState :=
  {| accepted := accepted st; rejections := f (rejections st) |}.

Definition bump (n : Z) : Z := as_u32 (n + 1).

Definition count_rejection (which : nat) (error : option string) (r : RejectionStats) : RejectionStats :=
  let at_ i n := if (which =? i)%nat then bump n else n in
  {| dark := at_ 0%nat (dark r); no_face := at_ 1%nat (no_face r);
     multiple_faces := at_ 2%nat (multiple_faces r); low_quality := at_ 3%nat (low_quality r);
     capture_errors := at_ 4%nat (capture_errors r);
     last_capture_error := if (which =? 4)%nat then error else last_capture_error r;
     engine_errors := at_ 5%nat (engine_errors r);
     last_engine_error := if (which =? 5)%nat then error else last_engine_error r |}.

(** The embedding a frame contributes, or why it contributes none. *)
Inductive FrameVerdict :=
  | Accept (e : FaceEmbedding)
  | Reject (which : nat) (error : option string)
  | FramePanic.

Definition judge_frame (c : Config) (sh : Shot) : FrameVerdict :=
  match sh_capture sh with
  | Err e => Reject 4 (Some e)
  | Ok frame =>
      if is_dark_with_config frame (dark_threshold (device c)) (dark_pixel_value (device c))
      then Reject 0 None
      else
        match sh_faces sh with
        | Err e => Reject 5 (Some e)
        | Ok [] => Reject 1 None
        | Ok [(det, embedding)] =>
            match score_frame det (gray frame) (width frame) (height frame) with
            | None => FramePanic
            | Some q => if negb (meets_quality_threshold q) then Reject 3 None else Accept embedding
            end
        | Ok (_ :: _ :: _) => Reject 2 None
        end
  end.

Inductive CaptureEnd := CaptureDone (st : EnrollState) | CaptureCancelled | CapturePanicked.

Fixpoint capture_loop (c : Config) (deadline : Z) (env : nat → Shot) (fuel n : nat) (st : EnrollState) :
    option CaptureEnd :=
  match fuel with
  | O => None
  | S fuel' =>
      let sh := env n in
      if negb ((sh_clock sh <? deadline) && (length (accepted st) <? MAX_CAPTURES)%nat)
      then Some (CaptureDone st)
      else if sh_cancelled sh then Some CaptureCancelled
      else
        match judge_frame c sh with
        | FramePanic => Some CapturePanicked
        | Reject which error =>
            capture_loop c deadline env fuel' (S n) (reject (count_rejection which error) st)
        | Accept e =>
            capture_loop c deadline env fuel' (S n)
              {| accepted := accepted st ++ [e]; rejections := rejections st |}
        end
  end.

(** ** The write *)

(** [EmbeddingSealer]: sealing the n-th embedding of a set. *)
Definition Sealer : Type := nat → FaceEmbedding → option string → result (list Z) FacelockError.

Definition software_sealer `{Aead} `{NanEncoding} (s : SoftwareSealer) (nonces : nat → list Z) : Sealer :=
  λ i e aad, seal_embedding_with_aad s (nonces i) e aad.

Fixpoint seal_all (sealer : Sealer) (aad : option string) (i : nat) (es : list FaceEmbedding) :
    result (list (list Z)) FacelockError :=
  match es with
  | [] => Ok []
  | e :: es' =>
      let? b := sealer i e aad in
      let? bs := seal_all sealer aad (S i) es' in
      Ok (b :: bs)
  end.

Section Persist.
Context `{ShowSqlite} `{NanEncoding}.

Definition persist_enrollment (clock : option Z) (embedder user label : string) (sealer : option Sealer)
    (dev key aad : option string) (accepted : list FaceEmbedding) (cancelled : bool) (s : FaceStore) :
    EnrollOutcome * FaceStore :=
  let blobs :=
    match sealer with
    | Some seal => seal_all seal aad 0 accepted
    | None => Ok (map embedding_to_bytes accepted)
    end in
  match blobs with
  | Err e => (EnrollError ("encryption error: " +:+ facelock_error_to_string e), s)
  | Ok blobs =>
      if cancelled then (EnrollCancelled, s)
      else
        match replace_model_with_embeddings clock user label blobs (is_some sealer) embedder dev key s with
        | (Ok mid, s') => (Enrolled mid (Z.of_nat (length accepted)), s')
        | (Err e, s') => (EnrollError ("storage error: " +:+ store_error_to_string e), s')
        end
  end.

(** [armed] is the clock when the deadline is set; the two flags are the cancellation token
    after the loop and right before the write. *)
Record EnrollEnv := {
  en_armed : Z;
  en_shots : nat → Shot;
  en_cancelled_after : bool;
  en_cancelled_commit : bool;
  en_wall : option Z;
}.

Inductive EnrollEnd := EnrollEnded (o : EnrollOutcome) (s : FaceStore) | EnrollPanicked.

(** From the accepted set to the outcome. *)
Definition after_capture (c : Config) (user label : string) (sealer : option Sealer)
    (dev key aad : option string) (env : EnrollEnv) (st : EnrollState) (s : FaceStore) : option EnrollEnd :=
  let n := length (accepted st) in
  if en_cancelled_after env then Some (EnrollEnded EnrollCancelled s)
  else if (MIN_CAPTURES <=? n)%nat && negb (check_angle_diversity (accepted st))
  then Some (EnrollEnded (EnrollError
         "insufficient angle diversity: please move your head to different angles during enrollment") s)
  else if (n <? MIN_CAPTURES)%nat
  then Some (EnrollEnded (EnrollError ("only captured " +:+ show_nat n +:+ " frames, need at least " +:+
         show_nat MIN_CAPTURES +:+ summary (rejections st))) s)
  else
    let '(o, s') := persist_enrollment (en_wall env) (rec_embedder_model (recognition c)) user label
                      sealer dev key aad (accepted st) (en_cancelled_commit env) s in
    Some (EnrollEnded o s').

Definition enroll (c : Config) (user label : string) (sealer : option Sealer) (dev key : option string)
    (env : EnrollEnv) (fuel : nat) (s : FaceStore) : option EnrollEnd :=
  match require_device_aad c dev with
  | Err refusal => Some (EnrollEnded (EnrollError (binding_error_to_string refusal)) s)
  | Ok aad =>
      let deadline := en_armed env + nanos (enroll_timeout_secs c) in
      match capture_loop c deadline (en_shots env) fuel 0 enroll_init with
      | None => None
      | Some CapturePanicked => Some EnrollPanicked
      | Some CaptureCancelled => Some (EnrollEnded EnrollCancelled s)
      | Some (CaptureDone st) => after_capture c user label sealer dev key aad env st s
      end
  end.
End Persist.
