(* ===== verification/EnrollProofs.v ===== *)
(** * What enrollment guarantees

    The gates every stored embedding passed, the atomicity of the write, termination, and the
    round trip from an enrollment to a later load of the same template. *)

From stdpp Require Import gmap sorting.
From S2P Require Import Prelude Float32 Types Matching DeviceBinding Config Store StoreProofs Gates Auth Sealing KeyFile Keyring Embeddings Enroll.

(** A frame that shows one face, well enough, in the light. *)
Definition good_shot (c : Config) (sh : Shot) (e : FaceEmbedding) : Prop :=
  ∃ frame det q, sh_capture sh = Ok frame ∧
    is_dark_with_config frame (dark_threshold (device c)) (dark_pixel_value (device c)) = false ∧
    sh_faces sh = Ok [(det, e)] ∧
    score_frame det (gray frame) (width frame) (height frame) = Some q ∧
    f32_le MIN_QUALITY_SCORE (overall q) = true.

Lemma judge_accept c sh e : judge_frame c sh = Accept e → good_shot c sh e.
Proof.
  unfold judge_frame, good_shot. destruct (sh_capture sh) as [frame|er]; [|done].
  destruct (is_dark_with_config _ _ _) eqn:Hd; [done|].
  destruct (sh_faces sh) as [[|[det emb] [|x l]]|er]; [done| |done|done].
  destruct (score_frame _ _ _ _) as [q|] eqn:Hq; [|done].
  destruct (meets_quality_threshold q) eqn:Hm; [|done]. intros [= <-].
  exists frame, det, q. split_and!; done.
Qed.

(** The accepted embeddings come from distinct iterations, in order, each of which showed a
    good shot before the deadline and uncancelled. *)
Definition captured (c : Config) (deadline : Z) (env : nat → Shot) (n : nat) (es : list FaceEmbedding) :
    Prop :=
  (length es ≤ MAX_CAPTURES)%nat ∧
  ∃ ks, StronglySorted lt ks ∧ Forall (λ k, (k < n)%nat) ks ∧
    Forall2 (λ k e, good_shot c (env k) e ∧ sh_cancelled (env k) = false ∧ sh_clock (env k) < deadline) ks es.

Lemma captured_skip c deadline env n es : captured c deadline env n es → captured c deadline env (S n) es.
Proof.
  intros (Hl & ks & Hs & Hf & Hg). split; [done|]. exists ks. split_and!; [done| |done].
  eapply Forall_impl; [exact Hf|]. cbn. lia.
Qed.

Lemma StronglySorted_snoc ks (n : nat) : StronglySorted lt ks → Forall (λ k, (k < n)%nat) ks →
  StronglySorted lt (ks ++ [n]).
Proof.
  induction 1 as [|k ks Hs IH Hk]; intros Hf; [repeat constructor|].
  apply Forall_cons in Hf as [Hlt Hf]. cbn. constructor; [by apply IH|].
  apply Forall_app. split; [done|]. by repeat constructor.
Qed.

Lemma captured_take c deadline env n es e : captured c deadline env n es →
  (length es < MAX_CAPTURES)%nat → sh_clock (env n) < deadline → sh_cancelled (env n) = false →
  good_shot c (env n) e → captured c deadline env (S n) (es ++ [e]).
Proof.
  intros (Hl & ks & Hs & Hf & Hg) Hlt Hc Hn Hgood. split; [rewrite length_app; cbn; lia|].
  exists (ks ++ [n]). split_and!.
  - by apply StronglySorted_snoc.
  - apply Forall_app. split; [|by repeat constructor]. eapply Forall_impl; [exact Hf|]. cbn. lia.
  - by apply Forall2_app; [|repeat constructor].
Qed.

Lemma capture_loop_captured c deadline env fuel : ∀ n st st',
  captured c deadline env n (accepted st) → capture_loop c deadline env fuel n st = Some (CaptureDone st') →
  ∃ m, captured c deadline env m (accepted st').
Proof.
  induction fuel as [|fuel IH]; intros n st st' Hc; cbn [capture_loop]; [done|].
  destruct (negb _) eqn:Hg; [intros [= <-]; by exists n|]. apply negb_false_iff in Hg. bsplit.
  destruct (sh_cancelled (env n)) eqn:Hcan; [done|].
  destruct (judge_frame c (env n)) as [e|which er|] eqn:Hj; [| |done].
  - apply judge_accept in Hj. intros Hl. eapply IH; [|exact Hl]. cbn [accepted].
    by apply captured_take.
  - intros Hl. eapply IH; [|exact Hl]. cbn [reject accepted]. by apply captured_skip.
Qed.

Lemma capture_loop_more c deadline env fuel fuel' n st r : (fuel ≤ fuel')%nat →
  capture_loop c deadline env fuel n st = Some r → capture_loop c deadline env fuel' n st = Some r.
Proof.
  revert fuel' n st. induction fuel as [|fuel IH]; intros fuel' n st Hle; [done|].
  destruct fuel' as [|fuel']; [lia|]. cbn [capture_loop]. destruct (negb _); [done|].
  destruct (sh_cancelled _); [done|].
  destruct (judge_frame c (env n)); [| |done]; intros Hl; (eapply IH; [lia|exact Hl]).
Qed.

Lemma capture_loop_deadline c deadline env j : ∀ n st, deadline ≤ sh_clock (env (n + j)%nat) →
  is_Some (capture_loop c deadline env (S j) n st).
Proof.
  induction j as [|j IH]; intros n st Hd; cbn [capture_loop].
  - rewrite Nat.add_0_r in Hd. rewrite (proj2 (Z.ltb_ge _ _) Hd). done.
  - destruct (negb _); [done|]. destruct (sh_cancelled _); [done|].
    assert (Hd' : deadline ≤ sh_clock (env (S n + j)%nat)) by (by rewrite Nat.add_succ_comm).
    destruct (judge_frame c (env n)); [by apply IH|by apply IH|done].
Qed.

(** ** The write *)

(** The blobs an accepted set is stored as. *)
Definition stored_as `{NanEncoding} (sealer : option Sealer) (aad : option string)
    (es : list FaceEmbedding) (blobs : list (list Z)) : Prop :=
  match sealer with
  | Some seal => seal_all seal aad 0 es = Ok blobs
  | None => blobs = map embedding_to_bytes es
  end.

Lemma seal_all_length seal aad es : ∀ i bs, seal_all seal aad i es = Ok bs → length bs = length es.
Proof.
  induction es as [|e es IH]; intros i bs; cbn [seal_all]; [by intros [= <-]|].
  destruct (seal i e aad) as [b|]; [|done]. destruct (seal_all seal aad (S i) es) as [bs'|] eqn:Hb; [|done].
  intros [= <-]. cbn. f_equal. by eapply IH.
Qed.

Section Persisted.
Context `{ShowSqlite} `{NanEncoding}.

Lemma persist_spec clock em user label sealer dev key aad es can s o s' : store_wf s →
  model_seq (db s) < u32_max →
  persist_enrollment clock em user label sealer dev key aad es can s = (o, s') →
  store_wf s' ∧ rate_limit_rows (db s') = rate_limit_rows (db s) ∧
  match o with
  | Enrolled id n =>
      n = Z.of_nat (length es) ∧ can = false ∧ id = model_seq (db s) + 1 ∧
      ∃ blobs, stored_as sealer aad es blobs ∧
        templates (db s') = <[(user, label) := {| t_id := id; t_embedder := em; t_device := dev;
          t_key := key; t_blobs := map (λ b, (b, is_some sealer)) blobs |}]> (templates (db s))
  | _ => db s' = db s
  end.
Proof.
  intros Hwf Hseq. pose proof (proj2 Hwf) as Hsv. unfold persist_enrollment, stored_as.
  assert (Hgo : ∀ blobs, (if can then (EnrollCancelled, s) else
      match replace_model_with_embeddings clock user label blobs (is_some sealer) em dev key s with
      | (Ok mid, s') => (Enrolled mid (Z.of_nat (length es)), s')
      | (Err e, s') => (EnrollError ("storage error: " +:+ store_error_to_string e), s')
      end) = (o, s') →
      store_wf s' ∧ rate_limit_rows (db s') = rate_limit_rows (db s) ∧
      match o with
      | Enrolled id n => n = Z.of_nat (length es) ∧ can = false ∧ id = model_seq (db s) + 1 ∧
          templates (db s') = <[(user, label) := {| t_id := id; t_embedder := em; t_device := dev;
            t_key := key; t_blobs := map (λ b, (b, is_some sealer)) blobs |}]> (templates (db s))
      | _ => db s' = db s
      end).
  { intros blobs. destruct can; [by intros [= <- <-]|].
    pose proof (replace_model_spec clock user label blobs (is_some sealer) em dev key s Hwf Hseq) as Hr.
    pose proof (run_op_wf s (OpReplace clock user label blobs (is_some sealer) em dev key) Hwf) as Hs2.
    cbn [run_op] in Hs2. unfold refines in Hr.
    destruct (replace_model_with_embeddings _ _ _ _ _ _ _ _ s) as [[mid|e] s1]; cbn [snd] in Hs2.
    - destruct Hr as (Hs1 & Hrl & _ & -> & Ht). intros [= <- <-]. by split_and!.
    - destruct Hr as (Hs1 & Hrl & Hd). intros [= <- <-]. by split_and!. }
  destruct sealer as [seal|].
  - destruct (seal_all seal aad 0 es) as [blobs|e]; [|by intros [= <- <-]].
    intros (H1 & H2 & H3)%Hgo. split; [done|]. split; [done|]. destruct o; try done.
    destruct H3 as (? & ? & ? & ?). split_and!; try done. by exists blobs.
  - intros (H1 & H2 & H3)%Hgo. split; [done|]. split; [done|]. destruct o; try done.
    destruct H3 as (? & ? & ? & ?). split_and!; try done. by eexists.
Qed.
End Persisted.

(** What a successful enrollment proves. *)
Record enrolled_from `{NanEncoding} (c : Config) (user label : string) (sealer : option Sealer)
    (dev key : option string) (env : EnrollEnv) (s s' : FaceStore) (id n : Z) : Prop := {
  ef_set : ∃ es blobs aad m,
    captured c (en_armed env + nanos (enroll_timeout_secs c)) (en_shots env) m es ∧
    n = Z.of_nat (length es) ∧ (3 ≤ length es)%nat ∧ check_angle_diversity es = true ∧
    require_device_aad c dev = Ok aad ∧ stored_as sealer aad es blobs ∧
    templates (db s') = <[(user, label) := {| t_id := id; t_embedder := rec_embedder_model (recognition c);
      t_device := dev; t_key := key; t_blobs := map (λ b, (b, is_some sealer)) blobs |}]> (templates (db s));
  ef_id : id = model_seq (db s) + 1;
  ef_live : en_cancelled_after env = false ∧ en_cancelled_commit env = false;
}.

(** C36.  Enrollment stores a template only when everything it asks for was there, and otherwise
    stores nothing: a reported model holds exactly the accepted embeddings, between three and
    ten, of which every one comes from its own frame, captured before the deadline and
    uncancelled, light enough, with exactly one face and sufficient quality, not all of them
    alike, sealed under the device data the configuration requires, replacing the template of
    the same label and no other; a refusal, a failure at any point of the write or a
    cancellation noticed before it leaves the database as it was. *)
Theorem enrollment_is_gated_and_atomic `{ShowSqlite} `{NanEncoding} c user label sealer dev key env fuel s o s' :
  store_wf s → model_seq (db s) < u32_max →
  enroll c user label sealer dev key env fuel s = Some (EnrollEnded o s') →
  saved s' = None ∧ rate_limit_rows (db s') = rate_limit_rows (db s) ∧
  match o with
  | Enrolled id n => enrolled_from c user label sealer dev key env s s' id n
  | EnrollError _ | EnrollCancelled => db s' = db s
  end.
Proof.
  intros Hwf Hseq. pose proof (proj2 Hwf) as Hsv. unfold enroll.
  destruct (require_device_aad c dev) as [aad|e] eqn:Ha; [|by intros [= <- <-]].
  destruct (capture_loop _ _ _ _ _ _) as [[st| |]|] eqn:Hl; [|by intros [= <- <-]|done|done].
  unfold after_capture. destruct (en_cancelled_after env) eqn:Hca; [by intros [= <- <-]|].
  destruct (_ && _) eqn:Hdiv; [by intros [= <- <-]|].
  destruct (Nat.ltb_spec (length (accepted st)) MIN_CAPTURES) as [|Hmin]; [by intros [= <- <-]|].
  destruct (persist_enrollment _ _ _ _ _ _ _ _ _ _ _) as [o1 s1] eqn:Hp. intros [= <- <-].
  apply persist_spec in Hp as ([_ H1] & H2 & H3); [|done|done]. split; [done|]. split; [done|].
  destruct o1 as [id n|msg|]; [|done|done]. destruct H3 as (-> & Hcc & Hid & blobs & Hst & Ht).
  apply capture_loop_captured in Hl as [m Hm]; [|].
  2: { split; [cbn; lia|]. exists []. by repeat constructor. }
  split; [|done|done]. exists (accepted st), blobs, aad, m. split_and!; try done.
  rewrite (proj2 (Nat.leb_le _ _) Hmin) in Hdiv. by destruct (check_angle_diversity _).
Qed.

(** An enrollment ends: if the clock advances by at least [delta] per iteration, it ends
    within [enroll_timeout_secs / delta + 1] iterations, and more fuel never changes how. *)
Theorem enrollment_terminates `{ShowSqlite} `{NanEncoding} c user label sealer dev key env s delta :
  0 < delta → (∀ k, en_armed env + Z.of_nat k * delta ≤ sh_clock (en_shots env k)) →
  ∃ e, ∀ fuel, (Z.to_nat (nanos (enroll_timeout_secs c) / delta + 1) < fuel)%nat →
    enroll c user label sealer dev key env fuel s = Some e.
Proof.
  intros Hd Hclk. unfold enroll. destruct (require_device_aad c dev) as [aad|e]; [|by eexists].
  set (T := nanos _). set (j := Z.to_nat (T / delta + 1)).
  assert (HT : 0 ≤ T) by (unfold T, nanos, enroll_timeout_secs; lia).
  assert (Hj : en_armed env + T ≤ sh_clock (en_shots env (0 + j)%nat)).
  { etrans; [|apply Hclk]. unfold j. cbn. rewrite Z2Nat.id by (pose proof (Z.div_pos T delta HT Hd); lia).
    pose proof (Z.div_mod T delta ltac:(lia)). pose proof (Z.mod_pos_bound T delta Hd). nia. }
  destruct (capture_loop_deadline c _ _ j 0 enroll_init Hj) as [e He].
  assert (Hmore : ∀ fuel, (j < fuel)%nat →
    capture_loop c (en_armed env + T) (en_shots env) fuel 0 enroll_init = Some e)
    by (intros fuel Hf; eapply capture_loop_more; [|exact He]; lia).
  assert (Hend : ∀ o : option CaptureEnd, o = Some e → ∃ x, match o with
    | None => None
    | Some CapturePanicked => Some EnrollPanicked
    | Some CaptureCancelled => Some (EnrollEnded EnrollCancelled s)
    | Some (CaptureDone st) => after_capture c user label sealer dev key aad env st s
    end = Some x).
  { intros o ->. destruct e as [st| |]; [|by eexists|by eexists]. unfold after_capture.
    destruct (en_cancelled_after env); [by eexists|]. destruct (_ && _); [by eexists|].
    destruct (_ <? _)%nat; [by eexists|]. destruct (persist_enrollment _ _ _ _ _ _ _ _ _ _ _). by eexists. }
  destruct (Hend _ He) as [x Hx]. exists x. intros fuel Hf. rewrite <- Hx, (Hmore fuel Hf), He. done.
Qed.

(** ** From enrollment to a later load *)

(** The rows of a user's query that belong to one model. *)
Definition rows_of (id : Z) (rows : list RawEmbeddingRow) : list RawEmbeddingRow :=
  List.filter (λ r, raw_model_id r =? id) rows.

(** A row of the join, read without a conversion error. *)
Definition as_raw (x : ModelRow * EmbeddingRow) : RawEmbeddingRow :=
  {| raw_model_id := m_id (fst x); raw_blob := e_embedding (snd x);
     raw_sealed := negb (e_sealed (snd x) =? 0);
     raw_device_id := m_device_id (fst x); raw_key_id := m_key_id (fst x) |}.

Lemma raw_rows_read l rows : Forall2 (λ x y, raw_row x = Ok y) l rows → rows = map as_raw l.
Proof.
  induction 1 as [|x y l rows Hx _ IH]; [done|]. cbn [map]. f_equal; [|done].
  unfold raw_row, get_u32 in Hx. destruct (_ && _); [|done]. by injection Hx as <-.
Qed.

Lemma Permutation_filterb {A} (p : A → bool) (l l' : list A) : l ≡ₚ l' → List.filter p l ≡ₚ List.filter p l'.
Proof.
  induction 1 as [|x l l' _ IH|x y l|l l' l'' _ IH1 _ IH2]; cbn [List.filter]; [done| | |by etrans].
  - destruct (p x); [by constructor|done].
  - destruct (p x), (p y); [by constructor|done..].
Qed.

Lemma filter_map_as_raw id l : rows_of id (map as_raw l) =
  map as_raw (List.filter (λ x, m_id (fst x) =? id) l).
Proof.
  unfold rows_of. induction l as [|x l IH]; [done|]. cbn [map List.filter].
  change (raw_model_id (as_raw x)) with (m_id (fst x)). destruct (_ =? id); cbn [map]; by rewrite IH.
Qed.

Lemma bind_pair (m : ModelRow) (l : list EmbeddingRow) : (e ← l; [(m, e)]) = map (pair m) l.
Proof. induction l as [|e l IH]; [done|]. rewrite bind_cons. cbn [app map]. by rewrite IH. Qed.

Definition join_rows (fe : list EmbeddingRow) (ms : list ModelRow) : list (ModelRow * EmbeddingRow) :=
  m ← ms; e ← List.filter (λ e, e_model_id e =? m_id m) fe; [(m, e)].

Definition model_rows (fe : list EmbeddingRow) (m : ModelRow) : list (ModelRow * EmbeddingRow) :=
  map (pair m) (List.filter (λ e, e_model_id e =? m_id m) fe).

Lemma join_rows_cons fe m ms : join_rows fe (m :: ms) = model_rows fe m ++ join_rows fe ms.
Proof. unfold join_rows. rewrite bind_cons. by rewrite bind_pair. Qed.

Lemma model_rows_filter fe m id : List.filter (λ x, m_id (fst x) =? id) (model_rows fe m) =
  if m_id m =? id then model_rows fe m else [].
Proof.
  unfold model_rows. destruct (m_id m =? id) eqn:He.
  - apply filterb_all. intros x (e & -> & _)%list_elem_of_fmap. done.
  - apply filterb_none. intros x (e & -> & _)%list_elem_of_fmap. done.
Qed.

(** In a join over models with unique ids, the rows of one model are its embeddings. *)
Lemma join_one_model fe ms m : NoDup (map m_id ms) → m ∈ ms →
  List.filter (λ x, m_id (fst x) =? m_id m) (join_rows fe ms) = model_rows fe m.
Proof.
  induction ms as [|m' ms IH]; intros Hn Hm; [by apply elem_of_nil in Hm|].
  apply NoDup_cons in Hn as [Hnot Hn]. rewrite join_rows_cons, List.filter_app, model_rows_filter.
  apply elem_of_cons in Hm as [->|Hm].
  - rewrite Z.eqb_refl. clear IH. replace (List.filter _ _) with (@nil (ModelRow * EmbeddingRow)); [apply app_nil_r|].
    symmetry. apply filterb_none. intros x Hx. apply Z.eqb_neq. intros Heq. apply Hnot. rewrite <- Heq.
    apply list_elem_of_bind in Hx as (m0 & Hx & Hm0). rewrite bind_pair in Hx.
    apply list_elem_of_fmap in Hx as (e & -> & _). apply list_elem_of_fmap. by exists m0.
  - destruct (Z.eqb_spec (m_id m') (m_id m)) as [He|]; [|by apply IH].
    exfalso. apply Hnot. rewrite He. apply list_elem_of_fmap. by exists m.
Qed.

(** Reading a user's rows back yields, for one stored template, its blobs. *)
Lemma template_rows_read `{ShowSqlite} `{RowOrder} user label t s s' rows : db_wf (db s) →
  templates (db s) !! (user, label) = Some t →
  get_user_embeddings_raw_with_device user s = (Ok rows, s') →
  rows_of (t_id t) rows ≡ₚ map (λ b, {| raw_model_id := t_id t; raw_blob := fst b; raw_sealed := snd b;
    raw_device_id := t_device t; raw_key_id := t_key t |}) (t_blobs t).
Proof.
  intros Hwf (m & Hm & Hk & ->)%templates_lookup Hq; [|by apply wf_labels].
  apply query_map_ok, raw_rows_read in Hq as ->. rewrite filter_map_as_raw. cbn [template t_id t_blobs t_device t_key].
  assert (Hu : m ∈ List.filter (of_user user) (face_models (db s))).
  { apply elem_of_filterb. split; [done|]. unfold of_user. injection Hk as -> _. apply String.eqb_refl. }
  assert (Hn : NoDup (map m_id (List.filter (of_user user) (face_models (db s)))))
    by (apply NoDup_map_filterb, wf_ids, Hwf).
  pose proof (scan_perm _ (sql_join (of_user user) (db s))) as Hp.
  assert (Hf : List.filter (λ x, m_id (fst x) =? m_id m) (scan (sql_join (of_user user) (db s))) ≡ₚ
    model_rows (face_embeddings (db s)) m).
  { rewrite <- (join_one_model _ _ m Hn Hu). by apply Permutation_filterb. }
  rewrite Hf. unfold model_rows. rewrite !map_map. reflexivity.
Qed.

(** Sealing a set with a software sealer leaves one row per embedding that opens to it. *)
Lemma sealed_set_rows `{AeadLaws} `{NanEncoding} p nonces aad dev key id es : ∀ i blobs,
  Forall wf_embedding es → (∀ n, length (nonces n) = AES_NONCE_SIZE) →
  seal_all (software_sealer p nonces) aad i es = Ok blobs →
  Forall2 (sealed_row p aad dev key id) es
    (map (λ b, {| raw_model_id := id; raw_blob := fst b; raw_sealed := snd b;
       raw_device_id := dev; raw_key_id := key |}) (map (λ b, (b, true)) blobs)).
Proof.
  induction es as [|e es IH]; intros i blobs Hes Hn; cbn [seal_all]; [by intros [= <-]; constructor|].
  apply Forall_cons in Hes as [He Hes]. unfold software_sealer at 1.
  destruct (seal_embedding_with_aad p (nonces i) e aad) as [b|] eqn:Hb; [|done].
  destruct (seal_all _ aad (S i) es) as [bs|] eqn:Hbs; [|done]. intros [= <-]. cbn [map].
  constructor; [|by eapply IH]. unfold sealed_row. split_and!; try done. by exists (nonces i).
Qed.

(** C37.  What was enrolled can be authenticated against: after a successful enrollment under a
    software key, whatever the user's other templates are, reading the user's rows back and
    decrypting those of the new model gives exactly the embeddings that were accepted, for any
    keyring that holds the key, as its primary or from an earlier configuration. *)
Theorem enrolled_template_loads `{ShowSqlite} `{RowOrder} `{AeadLaws} `{Sha256} `{TpmDevice} `{NanEncoding}
    c k t p nonces user label dev env fuel s s1 s2 id n rows :
  held c k → method (encryption c) ≠ EncNone → p ∈ candidates_for_legacy_row k →
  (∀ i, length (nonces i) = AES_NONCE_SIZE) →
  (∀ i faces, sh_faces (en_shots env i) = Ok faces → Forall (λ x, wf_embedding (snd x)) faces) →
  store_wf s → model_seq (db s) < u32_max →
  enroll c user label (Some (software_sealer p nonces)) dev (Some (sealer_key_id p)) env fuel s
    = Some (EnrollEnded (Enrolled id n) s1) →
  get_user_embeddings_raw_with_device user s1 = (Ok rows, s2) →
  ∃ es m l, captured c (en_armed env + nanos (enroll_timeout_secs c)) (en_shots env) m es ∧
    n = Z.of_nat (length es) ∧
    decrypt_user_embeddings (rows_of id rows) c k t = Ok l ∧ l ≡ₚ map (pair id) es.
Proof.
  intros Hk Hm Hp Hn Hfaces Hwf Hseq Hen Hrows. revert Hen. unfold enroll.
  destruct (require_device_aad c dev) as [aad|] eqn:Ha; [|done].
  destruct (capture_loop _ _ _ _ _ _) as [[st| |]|] eqn:Hl; [|done..]. unfold after_capture.
  destruct (en_cancelled_after env); [done|]. destruct (_ && _); [done|]. destruct (_ <? _)%nat; [done|].
  destruct (persist_enrollment _ _ _ _ _ _ _ _ _ _ _) as [o1 s1'] eqn:Hpe. intros [= -> ->].
  apply persist_spec in Hpe as ([Hwf1 _] & _ & -> & _ & Hid & blobs & Hst & Ht); [|done|done].
  apply capture_loop_captured in Hl as [m Hcap].
  2: { split; [cbn; lia|]. exists []. by repeat constructor. }
  assert (Hes : Forall wf_embedding (accepted st)).
  { destruct Hcap as (_ & ks & _ & _ & Hg). clear -Hg Hfaces. induction Hg as [|i e ks es Hi _ IH]; [done|].
    constructor; [|done]. destruct Hi as ((frame & det & q & _ & _ & Hf & _) & _).
    apply Hfaces in Hf. by apply Forall_cons in Hf as [? _]. }
  assert (Hlook : templates (db s1) !! (user, label) = Some
    {| t_id := id; t_embedder := rec_embedder_model (recognition c); t_device := dev;
       t_key := Some (sealer_key_id p); t_blobs := map (λ b, (b, true)) blobs |})
    by (rewrite Ht; by rewrite lookup_insert_eq).
  pose proof (template_rows_read _ _ _ _ _ _ Hwf1 Hlook Hrows) as Hperm. cbn [t_id t_device t_key t_blobs] in Hperm.
  pose proof (sealed_set_rows p nonces aad dev (Some (sealer_key_id p)) id _ 0 blobs Hes Hn Hst) as Hsealed.
  destruct (Permutation_Forall2 (P := λ r e, sealed_row p aad dev (Some (sealer_key_id p)) id e r)
    (symmetry Hperm) (proj1 (Forall2_flip _ _ _) Hsealed)) as (es' & Hes' & Hf).
  exists (accepted st), m, (map (pair id) es'). split_and!; [done|done| |by rewrite Hes'].
  destruct (sealed_rows_map c k t p aad dev (Some (sealer_key_id p)) id es' _ Hk Hm Ha
    (or_introl (conj eq_refl Hp)) (proj2 (Forall2_flip _ _ _) Hf)) as [Hmap Hzip].
  pose proof (decrypt_rows_spec c k (rows_of id rows) t []) as Hs. rewrite Hmap in Hs.
  unfold decrypt_user_embeddings. by rewrite Hs, Hzip.
Qed.

(** ** A concrete enrollment: ten good frames of one face turning its head *)
#[local] Existing Instance show_sqlite_plain.
#[local] Existing Instance sum_hash.
#[local] Existing Instance no_tpm.
#[local] Existing Instance toy_aead.
#[local] Existing Instance toy_aead_laws.
#[local] Existing Instance nan_x86.

Definition angle (i : nat) : FaceEmbedding := <[i := f32_one]> (replicate 512 f32_zero).

Definition good_frame : Frame := {| rgb := []; gray := repeat 128 64; width := 8; height := 8 |}.

Definition good_face : Detection :=
  {| bbox := {| bbox_x := f32_of_Z 2; bbox_y := f32_of_Z 2; bbox_width := f32_of_Z 4; bbox_height := f32_of_Z 4 |};
     confidence := f32_one; landmarks := [] |}.

Definition turning_env : EnrollEnv :=
  {| en_armed := 0;
     en_shots i := {| sh_clock := Z.of_nat i * 200000000; sh_cancelled := false; sh_capture := Ok good_frame;
                      sh_faces := Ok [(good_face, angle i)] |};
     en_cancelled_after := false; en_cancelled_commit := false; en_wall := Some 5 |}.

Definition seven_key : SoftwareSealer := from_key (repeat 7 32).

#[local] Abbreviation example_sealer := (Some (software_sealer seven_key (λ _, repeat 5 12))).
#[local] Abbreviation example_key := (Some (sealer_key_id seven_key)).
#[local] Abbreviation empty_store := (fresh_store (λ _, None)).
#[local] Abbreviation example_enroll :=
  (λ fuel, enroll config_default "alice" "default" example_sealer (Some "046d:085e") example_key
    turning_env fuel empty_store).

Definition enrolled_result (r : option EnrollEnd) : option (Z * Z) :=
  match r with Some (EnrollEnded (Enrolled id n) _) => Some (id, n) | _ => None end.

Definition enrolled_store_of (r : option EnrollEnd) : FaceStore :=
  match r with Some (EnrollEnded _ s) => s | _ => fresh_store (λ _, None) end.

Definition example_after : FaceStore :=
  enrolled_store_of (enroll config_default "alice" "default" example_sealer (Some "046d:085e") example_key
    turning_env 11 empty_store).

Lemma example_enrolls :
  enroll config_default "alice" "default" example_sealer (Some "046d:085e") example_key turning_env 11 empty_store
  = Some (EnrollEnded (Enrolled 1 10) example_after).
Proof.
  assert (He : enrolled_result (enroll config_default "alice" "default" example_sealer (Some "046d:085e")
    example_key turning_env 11 empty_store) = Some (1, 10)) by (vm_compute; reflexivity).
  unfold example_after. revert He. generalize (enroll config_default "alice" "default" example_sealer
    (Some "046d:085e") example_key turning_env 11 empty_store).
  intros [[[id n|m|] s|]|]; cbn; try done. by intros [= -> ->].
Qed.

Lemma fresh_store_wf fs : store_wf (fresh_store fs).
Proof. split; [apply db_empty_wf|done]. Qed.

Lemma enrollment_is_gated_and_atomic_witness :
  enrolled_from config_default "alice" "default" example_sealer (Some "046d:085e") example_key turning_env
    empty_store example_after 1 10.
Proof.
  exact (proj2 (proj2 (enrollment_is_gated_and_atomic config_default "alice" "default" example_sealer
    (Some "046d:085e") example_key turning_env 11 empty_store (Enrolled 1 10) example_after
    (fresh_store_wf _) eq_refl example_enrolls))).
Defined.

Lemma enrollment_terminates_witness :
  ∃ e, ∀ fuel, (76 < fuel)%nat →
    enroll config_default "alice" "default" example_sealer (Some "046d:085e") example_key turning_env fuel
      empty_store = Some e.
Proof.
  refine (enrollment_terminates config_default "alice" "default" example_sealer (Some "046d:085e") example_key
    turning_env empty_store 200000000 _ _).
  - lia.
  - intros k. cbn. lia.
Defined.

Lemma angle_wf i : wf_embedding (angle i).
Proof.
  split; [apply length_insert|]. apply Forall_insert; [|done]. by apply Forall_replicate.
Qed.

Definition rows_read (r : result (list RawEmbeddingRow) StoreError * FaceStore) : list RawEmbeddingRow :=
  match fst r with Ok rows => rows | Err _ => [] end.

Definition example_rows : list RawEmbeddingRow :=
  rows_read (get_user_embeddings_raw_with_device "alice" example_after).

Lemma example_rows_read : get_user_embeddings_raw_with_device "alice" example_after =
  (Ok example_rows, snd (get_user_embeddings_raw_with_device "alice" example_after)).
Proof.
  assert (Hok : is_ok (fst (get_user_embeddings_raw_with_device "alice" example_after)) = true)
    by (vm_compute; reflexivity).
  unfold example_rows, rows_read. revert Hok.
  generalize (get_user_embeddings_raw_with_device "alice" example_after). by intros [[rows|e] s].
Qed.

Lemma enrolled_template_loads_witness :
  length example_rows = 10%nat ∧
  ∃ es m l, captured config_default (0 + nanos (enroll_timeout_secs config_default)) (en_shots turning_env) m es ∧
    10 = Z.of_nat (length es) ∧
    decrypt_user_embeddings (rows_of 1 example_rows) config_default seven_keys (Embeddings.Held false) = Ok l ∧
    l ≡ₚ map (pair 1) es.
Proof.
  split; [vm_compute; reflexivity|].
  refine (enrolled_template_loads config_default seven_keys (Embeddings.Held false) seven_key (λ _, repeat 5 12)
    "alice" "default" (Some "046d:085e") turning_env 11 empty_store example_after _ 1 10 example_rows
    (held_existing _ _ _) _ _ _ _ (fresh_store_wf _) eq_refl example_enrolls example_rows_read).
  - discriminate.
  - apply list_elem_of_here.
  - reflexivity.
  - intros i faces [= <-]. constructor; [apply angle_wf|constructor].
Defined.
