(* ===== verification/Handler.v ===== *)
(** * The request handler and the camera lease ([crates/facelock-daemon/src/handler.rs])

    One request at a time runs under the daemon's mutex: the handler's state goes in and comes
    out of every call. What the camera, the face engine, the clocks, the cancellation token and
    the key file's directory answer during a request is its [RequestEnv]. A poll tick between
    requests closes the camera when its warm hold has run out. *)

From stdpp Require Import gmap.
From S2P Require Import Prelude Float32 Types Matching DeviceBinding Config Store StoreProofs RateLimit Gates AuditLog Auth Sealing KeyFile Keyring Embeddings Enroll.

(** ** Intents and endings *)
Inductive AuthIntent := IntentAuthenticate | IntentTest.

Definition charges_rate_limit (i : AuthIntent) : bool :=
  match i with IntentAuthenticate => true | IntentTest => false end.

Definition pre_check_context (i : AuthIntent) : PreCheckContext :=
  match i with IntentAuthenticate => ctx_enforced | IntentTest => ctx_test end.

Definition audit_source (i : AuthIntent) : AuditSource :=
  match i with IntentAuthenticate => SourceDaemon | IntentTest => SourceTest end.

(** [Outcome]: what a finished request means for the camera stream. *)
Inductive Outcome := OutSuccess | OutFailure | OutCancelled | OutError.

Definition hold_secs (o : Outcome) (d : DeviceConfig) : Z :=
  match o with
  | OutFailure => camera_release_secs d
  | OutSuccess => camera_release_after_success_secs d
  | OutCancelled | OutError => 0
  end.

Definition outcome_of_auth (o : AuthOutcome) : Outcome :=
  match o with
  | AuthResult r => if matched r then OutSuccess else OutFailure
  | Suppressed => OutError
  | AuthError _ _ => OutError
  | Cancelled => OutCancelled
  end.

Definition outcome_of_enroll (o : EnrollOutcome) : Outcome :=
  match o with
  | Enrolled _ _ => OutSuccess
  | EnrollError _ => OutError
  | EnrollCancelled => OutCancelled
  end.

(** ** Requests and replies *)
Inductive DaemonRequest :=
  | ReqAuthenticate (user : string)
  | ReqEnroll (user label : string)
  | ReqListModels (user : string)
  | ReqRemoveModel (user : string) (mid : Z)
  | ReqClearModels (user : string)
  | ReqPreviewFrame
  | ReqPreviewDetectFrame (user : string)
  | ReqListDevices
  | ReqReleaseCamera
  | ReqPing
  | ReqShutdown.

Record PreviewFace := {
  pf_x : f32; pf_y : f32; pf_width : f32; pf_height : f32;
  pf_confidence : f32; pf_similarity : f32; pf_recognized : bool;
}.

(** Device descriptions ([facelock-core/src/ipc.rs]). *)
Record IpcFormatInfo := { fmt_fourcc : string; fmt_description : string; fmt_sizes : list (Z * Z) }.

Record IpcDeviceInfo := {
  dev_path : string; dev_name : string; dev_driver : string; dev_is_ir : bool;
  dev_formats : list IpcFormatInfo; dev_modalias : option string; dev_node_name : option string;
}.

Section Handler.
Context `{ShowSqlite} `{RowOrder} `{NanEncoding} `{Subtle} `{Aead} `{Sha256} `{TpmDevice}.

Inductive DaemonResponse :=
  | RespAuthResult (r : MatchResult)
  | RespEnrolled (mid : Z) (embedding_count : Z)
  | RespModels (l : list FaceModelInfo)
  | RespRemoved
  | RespFrame (jpeg_data : list Z)
  | RespDetectFrame (jpeg_data : list Z) (faces : list PreviewFace)
  | RespDevices (l : list IpcDeviceInfo)
  | RespOk
  | RespSuppressed
  | RespError (message : string).

Definition response_of_auth (o : AuthOutcome) : DaemonResponse :=
  match o with
  | AuthResult r => RespAuthResult r
  | Suppressed => RespSuppressed
  | AuthError _ message => RespError message
  | Cancelled => RespError CANCELLED_MESSAGE
  end.

Definition response_of_enroll (o : EnrollOutcome) : DaemonResponse :=
  match o with
  | Enrolled mid n => RespEnrolled mid n
  | EnrollError message => RespError message
  | EnrollCancelled => RespError CANCELLED_MESSAGE
  end.

(** ** The camera lease *)

(** An open stream: what it says of itself and the frames it will settle on its own. *)
Record OpenCamera := { cam_caps : CameraCaps; pending_settle_frames : Z }.

(** Instants are nanoseconds; [factory] is whether the handler can open a camera at all. *)
Record CameraLease := {
  camera : option OpenCamera;
  deadline : option Z;
  factory : bool;
  warmup_frames_override : option Z;
}.

Definition MMAP_BUFFERS : Z := 4.
Definition PREVIEW_MIN_HOLD : Z := nanos 2.

Definition lease_new (factory : bool) (warmup : option Z) : CameraLease :=
  {| camera := None; deadline := None; factory := factory; warmup_frames_override := warmup |}.

Definition set_camera (c : option OpenCamera) (l : CameraLease) : CameraLease :=
  {| camera := c; deadline := deadline l; factory := factory l;
     warmup_frames_override := warmup_frames_override l |}.

Definition set_deadline (d : option Z) (l : CameraLease) : CameraLease :=
  {| camera := camera l; deadline := d; factory := factory l;
     warmup_frames_override := warmup_frames_override l |}.

(** What one request reads. The cancellation token is read when the camera is acquired, before
    every discarded frame, and after a failed discard. *)
Record RequestEnv := {
  rq_cancelled : bool;
  rq_open : result OpenCamera string;
  rq_discard : nat → bool * result unit string;
  rq_cancelled_after : bool;
  rq_capture : result Frame string;
  rq_faces : result (list (Detection * FaceEmbedding)) string;
  rq_jpeg : Frame → result (list Z) string;
  rq_devices : result (list IpcDeviceInfo) string;
  rq_now : Z;                         (* when the request gives the camera back *)
  rq_keys : KeyEnv;
  rq_host : Host;
  rq_wall_at : Z → option Z;
  rq_attempt_started : Z;             (* before the camera is acquired *)
  rq_acquire_failed : Z;
  rq_auth_cancelled : bool;           (* the token when the scan begins *)
  rq_start : Z;
  rq_armed : Z;
  rq_ticks : nat → Tick;
  rq_enroll : EnrollEnv;
  rq_nonces : nat → list Z;
  rq_wall : option Z;                 (* when a failure is recorded *)
  rq_fuel : nat;
}.

Fixpoint discard_frames (fr : nat → bool * result unit string) (i count : nat) : result unit string :=
  match count with
  | O => Ok tt
  | S count' =>
      let '(cancelled, captured) := fr i in
      if cancelled then Err CANCELLED_MESSAGE
      else let? _ := captured in discard_frames fr (S i) count'
  end.

Definition has_unverified_y16_scale (c : OpenCamera) : bool :=
  bool_decide (ir_texture_scale (cam_caps c) = UnverifiedY16).

Inductive AcquisitionPurpose := ForCapture | ForAuthentication.

Definition may_discard_from (p : AcquisitionPurpose) (c : OpenCamera) : bool :=
  match p with ForCapture => true | ForAuthentication => negb (has_unverified_y16_scale c) end.

Definition warmup_discard_count (c : OpenCamera) (warmup : Z) : Z :=
  Z.max 0 (warmup - pending_settle_frames c).

Definition close (l : CameraLease) : CameraLease := set_camera None l.

Definition acquire_for (env : RequestEnv) (config : Config) (p : AcquisitionPurpose) (l0 : CameraLease) :
    result OpenCamera string * CameraLease :=
  let l := set_deadline None l0 in
  if rq_cancelled env then (Err CANCELLED_MESSAGE, close l)
  else
    match camera l with
    | Some cam =>
        match (if negb (may_discard_from p cam) then Ok tt
               else discard_frames (rq_discard env) 0 (Z.to_nat (MMAP_BUFFERS - 1))) with
        | Ok _ => (Ok cam, l)
        | Err e =>
            if rq_cancelled_after env then (Err CANCELLED_MESSAGE, close l)
            else (Err ("capture error: " +:+ e), set_camera None l)
        end
    | None =>
        if negb (factory l) then (Err "no camera available", l)
        else
          match rq_open env with
          | Err e => (Err ("failed to open camera: " +:+ e), l)
          | Ok cam =>
              let warmup := warmup_discard_count cam
                (unwrap_or (warmup_frames (device config)) (warmup_frames_override l)) in
              let discarded :=
                if may_discard_from p cam
                then discard_frames (rq_discard env) 0 (Z.to_nat warmup) else Ok tt in
              match discarded with
              | Err _ =>
                  if rq_cancelled_after env then (Err CANCELLED_MESSAGE, l)
                  else (Ok cam, set_camera (Some cam) l)
              | Ok _ => (Ok cam, set_camera (Some cam) l)
              end
          end
    end.

Definition acquire (env : RequestEnv) (config : Config) := acquire_for env config ForCapture.
Definition acquire_for_authentication (env : RequestEnv) (config : Config) :=
  acquire_for env config ForAuthentication.

Definition lease_finish (now : Z) (o : Outcome) (config : Config) (l : CameraLease) : CameraLease :=
  let hold := hold_secs o (device config) in
  if hold =? 0 then close l else set_deadline (Some (now + nanos hold)) l.

Definition touch_preview (now : Z) (config : Config) (l : CameraLease) : CameraLease :=
  set_deadline (Some (now + Z.max (nanos (camera_release_secs (device config))) PREVIEW_MIN_HOLD)) l.

Definition expire (now : Z) (l : CameraLease) : CameraLease :=
  if is_some_and (λ d, d <=? now) (deadline l) then close (set_deadline None l) else l.

Definition release (l : CameraLease) : CameraLease := close (set_deadline None l).

Definition holds_camera (l : CameraLease) : bool := is_some (camera l).

(** ** The handler *)

(** [tpm_sealer] is whether the held TPM connection exists; [dir] is the directory tree of
    the key files. The JPEG buffer is cleared before each use and taken by each reply. *)
Record Handler := {
  config : Config;
  store : FaceStore;
  rate_limiter : RateLimiter;
  device_caps : CameraCaps;
  shutdown_requested : bool;
  lease : CameraLease;
  tpm_sealer : bool;
  keys : SealingKeys;
  preview_embeddings : option (string * list (Z * FaceEmbedding));
  files : Dir;
}.

Definition with_lease (l : CameraLease) (h : Handler) : Handler :=
  {| config := config h; store := store h; rate_limiter := rate_limiter h; device_caps := device_caps h;
     shutdown_requested := shutdown_requested h; lease := l; tpm_sealer := tpm_sealer h; keys := keys h;
     preview_embeddings := preview_embeddings h; files := files h |}.

Definition with_store (s : FaceStore) (h : Handler) : Handler :=
  {| config := config h; store := s; rate_limiter := rate_limiter h; device_caps := device_caps h;
     shutdown_requested := shutdown_requested h; lease := lease h; tpm_sealer := tpm_sealer h; keys := keys h;
     preview_embeddings := preview_embeddings h; files := files h |}.

Definition with_preview (p : option (string * list (Z * FaceEmbedding))) (h : Handler) : Handler :=
  {| config := config h; store := store h; rate_limiter := rate_limiter h; device_caps := device_caps h;
     shutdown_requested := shutdown_requested h; lease := lease h; tpm_sealer := tpm_sealer h; keys := keys h;
     preview_embeddings := p; files := files h |}.

Definition with_keys (k : SealingKeys) (d : Dir) (h : Handler) : Handler :=
  {| config := config h; store := store h; rate_limiter := rate_limiter h; device_caps := device_caps h;
     shutdown_requested := shutdown_requested h; lease := lease h; tpm_sealer := tpm_sealer h; keys := k;
     preview_embeddings := preview_embeddings h; files := d |}.

Definition with_shutdown (h : Handler) : Handler :=
  {| config := config h; store := store h; rate_limiter := rate_limiter h; device_caps := device_caps h;
     shutdown_requested := true; lease := lease h; tpm_sealer := tpm_sealer h; keys := keys h;
     preview_embeddings := preview_embeddings h; files := files h |}.

Definition handler_new (env : KeyEnv) (c : Config) (s : FaceStore) (rl : RateLimiter) (caps : CameraCaps)
    (camera_factory : bool) (warmup : option Z) (d : Dir) : result Handler string :=
  let held := seal_database (tpm c) &&
    match tpm_sealer_new (tcti (tpm c)) with Ok _ => true | Err _ => false end in
  let '(loaded, s1, d1) := load env c s d in
  let? k := loaded in
  Ok {| config := c; store := s1; rate_limiter := rl; device_caps := caps; shutdown_requested := false;
        lease := lease_new camera_factory warmup; tpm_sealer := held; keys := k;
        preview_embeddings := None; files := d1 |}.

Definition refresh_software_sealer (env : KeyEnv) (h : Handler) : Handler :=
  if negb (is_some (primary_error (keys h))) ||
     negb (bool_decide (method (encryption (config h)) = EncKeyfile))
  then h
  else
    let '(k, s, d) := refresh_primary env (config h) (keys h) (store h) (files h) in
    let h1 := with_keys k d (with_store s h) in
    if is_some (primary_error k) then h1 else with_preview None h1.

Definition expire_camera (now : Z) (h : Handler) : Handler :=
  let h1 := with_lease (expire now (lease h)) h in
  if negb (holds_camera (lease h1)) then with_preview None h1 else h1.

(** The error is the message of the reply. *)
Definition load_embeddings (c : Config) (k : SealingKeys) (held : bool) (user : string) :
    M string (list (Z * FaceEmbedding)) := λ s,
  if negb (needs_raw_rows c (any_loaded k) (is_some (primary_error k))) then
    match get_user_embeddings user s with
    | (Ok l, s1) => (Ok l, s1)
    | (Err e, s1) => (Err ("storage error: " +:+ store_error_to_string e), s1)
    end
  else
    match get_user_embeddings_raw_with_device user s with
    | (Err e, s1) => (Err ("storage error: " +:+ store_error_to_string e), s1)
    | (Ok rows, s1) =>
        (map_err (λ m, match primary_error k with Some reason => m +:+ " — " +:+ reason | None => m end)
           (decrypt_user_embeddings rows c k (Held held)), s1)
    end.

Definition load_user_embeddings (user : string) (h : Handler) :
    result (list (Z * FaceEmbedding)) string * Handler :=
  let '(r, s) := load_embeddings (config h) (keys h) (tpm_sealer h) user (store h) in
  (r, with_store s h).

(** ** Requests *)

(** How a call on the handler ends. A panic leaves the state as it was at that point: the
    daemon recovers the mutex. *)
Inductive HandlerEnd :=
  | Replied (r : DaemonResponse) (effects : list Effect) (h : Handler)
  | HandlerPanicked (h : Handler).

Definition reply (r : DaemonResponse) (h : Handler) : option HandlerEnd := Some (Replied r [] h).

Definition preview_face (threshold : f32) (stored : list (Z * FaceEmbedding)) (x : Detection * FaceEmbedding) :
    PreviewFace :=
  let '(det, embedding) := x in
  let best_sim := fst (best_match embedding stored) in
  {| pf_x := bbox_x (bbox det); pf_y := bbox_y (bbox det);
     pf_width := bbox_width (bbox det); pf_height := bbox_height (bbox det);
     pf_confidence := confidence det; pf_similarity := best_sim;
     pf_recognized := f32_ge best_sim threshold |}.

Definition detect_and_match (faces : result (list (Detection * FaceEmbedding)) string) (user : string)
    (h : Handler) : list PreviewFace * Handler :=
  match faces with
  | Err _ => ([], h)
  | Ok detections =>
      let h1 :=
        if match preview_embeddings h with Some (u, _) => negb (String.eqb u user) | None => true end
        then
          match load_user_embeddings user h with
          | (Ok es, h') => with_preview (Some (user, es)) h'
          | (Err _, h') => with_preview None h'
          end
        else h in
      let stored := match preview_embeddings h1 with Some (_, es) => es | None => [] end in
      let threshold := threshold (recognition (config h1)) in
      (map (preview_face threshold stored) detections, h1)
  end.

Definition preflight_authenticate_with_context (env : RequestEnv) (user : string) (i : AuthIntent)
    (ctx : PreCheckContext) (h : Handler) : option (DaemonResponse * list Effect) * Handler :=
  match pre_check_audited_with_context (rq_host env) (config h) user (rate_limiter h) (device_caps h)
          (audit_source i) ctx (store h) with
  | (None, s) => (None, with_store s h)
  | (Some (o, e), s) => (Some (response_of_auth o, [WriteAudit e]), with_store s h)
  end.

Definition preflight_authenticate (env : RequestEnv) (user : string) (i : AuthIntent) (h : Handler) :=
  preflight_authenticate_with_context env user i (pre_check_context i) h.

(** Charging a failed attempt; an error is only logged. *)
Definition charge (env : RequestEnv) (user : string) (i : AuthIntent) (o : AuthOutcome) (h : Handler) :
    Handler :=
  match o with
  | AuthResult mr =>
      if negb (matched mr) && face_detected mr && charges_rate_limit i
      then with_store (snd (record_failure (rate_limiter h) (rq_wall env) user (store h))) h
      else h
  | _ => h
  end.

Definition handle_authenticate_prechecked (env : RequestEnv) (user : string) (i : AuthIntent)
    (h0 : Handler) : option HandlerEnd :=
  let h := refresh_software_sealer (rq_keys env) h0 in
  match list_models user (store h) with
  | (Err e, s) => reply (RespError ("storage error: " +:+ store_error_to_string e)) (with_store s h)
  | (Ok models, s) =>
      match load_user_embeddings user (with_store s h) with
      | (Err message, h1) => reply (RespError message) h1
      | (Ok stored, h1) =>
          let '(acquired, l) := acquire_for_authentication env (config h1) (lease h1) in
          let h2 := with_lease l h1 in
          match acquired with
          | Err message =>
              if String.eqb message CANCELLED_MESSAGE then
                let '(o, es) := cancelled (config h2) user (audit_source i) (rq_wall_at env)
                                  (rq_attempt_started env) (rq_acquire_failed env) 0 in
                Some (Replied (response_of_auth o) es h2)
              else reply (RespError message) h2
          | Ok cam =>
              match authenticate_with_embeddings (cam_caps cam) models (config h2) user (audit_source i)
                      (rq_wall_at env) stored (rq_auth_cancelled env) (rq_start env) (rq_armed env)
                      (rq_ticks env) (rq_fuel env) with
              | None => None
              | Some Panicked => Some (HandlerPanicked h2)
              | Some (Finished o es) =>
                  let h3 := with_lease (lease_finish (rq_now env) (outcome_of_auth o) (config h2) (lease h2)) h2 in
                  Some (Replied (response_of_auth o) es (charge env user i o h3))
              end
          end
      end
  end.

Definition handle_authenticate (env : RequestEnv) (user : string) (i : AuthIntent) (h : Handler) :
    option HandlerEnd :=
  match preflight_authenticate env user i h with
  | (Some (r, es), h1) => Some (Replied r es h1)
  | (None, h1) => handle_authenticate_prechecked env user i h1
  end.

Definition handle_enroll (env : RequestEnv) (user label : string) (h0 : Handler) : option HandlerEnd :=
  match ensure_enroll_encryption_allowed (config h0) with
  | Err message => reply (RespError message) h0
  | Ok _ =>
      let h := refresh_software_sealer (rq_keys env) h0 in
      let c := config h in
      if negb (bool_decide (method (encryption c) = EncNone)) && negb (is_some (primary (keys h))) then
        let cause := unwrap_or "the configured encryption sealer could not be initialized"
                       (primary_error (keys h)) in
        reply (RespError ("refusing to enroll: " +:+ sentence cause +:+
          " Storing your face would otherwise fall back to plaintext. Fix the keyfile path/permissions (or set encryption.method = " +:+
          dq +:+ "none" +:+ dq +:+ " with security.allow_plaintext = true to intentionally store plaintext).")) h
      else
        let '(acquired, l) := acquire env c (lease h) in
        let h1 := with_lease l h in
        match acquired with
        | Err message => reply (RespError message) h1
        | Ok cam =>
            let fp := fingerprint (cam_caps cam) in
            match ensure_enrollment_binding_allowed c fp with
            | Err refusal =>
                reply (RespError (binding_error_to_string refusal))
                  (with_lease (lease_finish (rq_now env) OutError c (lease h1)) h1)
            | Ok _ =>
                match enroll c user label ((λ p, software_sealer p (rq_nonces env)) <$> primary (keys h1))
                        (canonical_for_storage fp) (primary_key_id (keys h1)) (rq_enroll env)
                        (rq_fuel env) (store h1) with
                | None => None
                | Some EnrollPanicked => Some (HandlerPanicked h1)
                | Some (EnrollEnded o s) =>
                    let h2 := with_lease (lease_finish (rq_now env) (outcome_of_enroll o) c (lease h1))
                                (with_store s h1) in
                    reply (response_of_enroll o) (with_preview None h2)
                end
            end
        end
  end.

Definition handle_preview_frame (env : RequestEnv) (h : Handler) : option HandlerEnd :=
  let '(acquired, l) := acquire env (config h) (lease h) in
  let h1 := with_lease l h in
  match acquired with
  | Err message => reply (RespError message) h1
  | Ok _ =>
      match rq_capture env with
      | Ok frame =>
          let h2 := with_lease (touch_preview (rq_now env) (config h1) (lease h1)) h1 in
          match rq_jpeg env frame with
          | Ok jpeg => reply (RespFrame jpeg) h2
          | Err e => reply (RespError ("JPEG encode error: " +:+ e)) h2
          end
      | Err e =>
          reply (RespError ("capture error: " +:+ e))
            (with_lease (lease_finish (rq_now env) OutError (config h1) (lease h1)) h1)
      end
  end.

Definition handle_preview_detect_frame (env : RequestEnv) (user : string) (h : Handler) :
    option HandlerEnd :=
  let '(acquired, l) := acquire env (config h) (lease h) in
  let h1 := with_lease l h in
  match acquired with
  | Err message => reply (RespError message) h1
  | Ok _ =>
      match rq_capture env with
      | Ok frame =>
          let h2 := with_lease (touch_preview (rq_now env) (config h1) (lease h1)) h1 in
          let '(faces, h3) := detect_and_match (rq_faces env) user h2 in
          match rq_jpeg env frame with
          | Ok jpeg => reply (RespDetectFrame jpeg faces) h3
          | Err e => reply (RespError ("JPEG encode error: " +:+ e)) h3
          end
      | Err e =>
          reply (RespError ("capture error: " +:+ e))
            (with_lease (lease_finish (rq_now env) OutError (config h1) (lease h1)) h1)
      end
  end.

Definition storage_reply {A} (ok : A → DaemonResponse) (x : result A StoreError * FaceStore) (h : Handler) :
    option HandlerEnd :=
  match x with
  | (Ok a, s) => reply (ok a) (with_store s h)
  | (Err e, s) => reply (RespError ("storage error: " +:+ store_error_to_string e)) (with_store s h)
  end.

Definition handle_with_cancel (env : RequestEnv) (request : DaemonRequest) (h : Handler) :
    option HandlerEnd :=
  match request with
  | ReqPing => reply RespOk h
  | ReqShutdown => reply RespOk (with_shutdown (with_preview None (with_lease (release (lease h)) h)))
  | ReqReleaseCamera => reply RespOk (with_preview None (with_lease (release (lease h)) h))
  | ReqAuthenticate user => handle_authenticate env user IntentAuthenticate h
  | ReqEnroll user label => handle_enroll env user label h
  | ReqListModels user => storage_reply RespModels (list_models user (store h)) h
  | ReqRemoveModel user mid =>
      let h1 := with_preview None h in
      storage_reply (λ _, RespRemoved) (remove_model user mid (store h1)) h1
  | ReqClearModels user =>
      let h1 := with_preview None h in
      storage_reply (λ _, RespRemoved) (clear_user user (store h1)) h1
  | ReqListDevices =>
      match rq_devices env with
      | Ok l => reply (RespDevices l) h
      | Err e => reply (RespError ("device enumeration failed: " +:+ e)) h
      end
  | ReqPreviewFrame => handle_preview_frame env h
  | ReqPreviewDetectFrame user => handle_preview_detect_frame env user h
  end.

(** ** Sequences of calls *)

(** A request of the server, an authentication it admitted after its own pre-flight context,
    or a tick of the poll timer. *)
Inductive Event :=
  | EvRequest (env : RequestEnv) (request : DaemonRequest)
  | EvAuthenticate (env : RequestEnv) (user : string) (i : AuthIntent) (ctx : PreCheckContext)
  | EvTick (now : Z).

Definition step (e : Event) (h : Handler) : option HandlerEnd :=
  match e with
  | EvRequest env request => handle_with_cancel env request h
  | EvAuthenticate env user i ctx =>
      match preflight_authenticate_with_context env user i ctx h with
      | (Some (r, es), h1) => Some (Replied r es h1)
      | (None, h1) => handle_authenticate_prechecked env user i h1
      end
  | EvTick now => reply RespOk (expire_camera now h)
  end.

(** The handlers reachable through calls that return. *)
Inductive reached (h0 : Handler) : list Event → Handler → Prop :=
  | reached_start : reached h0 [] h0
  | reached_step es e h r effects h' : reached h0 es h → step e h = Some (Replied r effects h') →
      reached h0 (es ++ [e]) h'.
End Handler.
