(* ===== verification/HandlerProofs.v ===== *)
(** * Properties of the request handler

    The camera lease as the policy it implements, the preview cache against the store it was
    loaded from, and what an authentication charges, over every sequence of calls that return. *)

From stdpp Require Import gmap.
From S2P Require Import Prelude Float32 Types Matching DeviceBinding Config Store StoreProofs RateLimit Gates AuditLog Auth Sealing KeyFile Keyring Embeddings Enroll EnrollProofs Handler.

(** ** The lease *)

Section Lease.

(** A lease no request is using: the camera is open exactly while a deadline is set. *)
Definition lease_ok (l : CameraLease) : Prop := is_some (camera l) = is_some (deadline l).

Definition closed (l : CameraLease) : Prop := camera l = None ∧ deadline l = None.

Lemma closed_ok l : closed l → lease_ok l.
Proof. intros [H1 H2]. unfold lease_ok. by rewrite H1, H2. Qed.

(** Acquiring takes the deadline away, and leaves a camera only when it hands it out. *)
Lemma acquire_for_spec env c p l r l' : acquire_for env c p l = (r, l') →
  deadline l' = None ∧ camera l' = match r with Ok cam => Some cam | Err _ => None end.
Proof.
  unfold acquire_for, close. destruct (rq_cancelled env); [by intros [= <- <-]|].
  destruct (camera (set_deadline None l)) as [cam|] eqn:Ec; cbn in Ec.
  - destruct (if negb _ then _ else _) as [[]|e].
    { intros [= <- <-]. by rewrite <- Ec. }
    by destruct (rq_cancelled_after env); intros [= <- <-].
  - destruct (factory _); cbn [negb]; [|by intros [= <- <-]].
    destruct (rq_open env) as [cam|e]; [|by intros [= <- <-]].
    destruct (if may_discard_from p cam then _ else _) as [[]|e]; [by intros [= <- <-]|].
    by destruct (rq_cancelled_after env); intros [= <- <-].
Qed.

Lemma expire_spec now l : lease_ok l → lease_ok (expire now l) ∧
  (expire now l = l ∨ closed (expire now l)) ∧
  ((∀ d, deadline l = Some d → d ≤ now) → closed (expire now l)).
Proof.
  unfold lease_ok, closed, expire, close. destruct (deadline l) as [d|] eqn:Ed; cbn [is_some_and is_some].
  - intros Hc. destruct (d <=? now) eqn:El; cbn.
    + split_and!; [done|by right|done].
    + split_and!; [by rewrite Ed|by left|]. intros Hd. apply Z.leb_gt in El.
      specialize (Hd d eq_refl). lia.
  - intros Hc. split_and!; [by rewrite Ed|by left|]. intros _. by destruct (camera l).
Qed.
End Lease.

Section Steps.
Context `{ShowSqlite} `{RowOrder} `{NanEncoding} `{Subtle} `{Aead} `{Sha256} `{TpmDevice}.

(** ** The policy the lease implements *)
Definition event_clock (e : Event) : Z :=
  match e with
  | EvRequest env _ | EvAuthenticate env _ _ _ => rq_now env
  | EvTick now => now
  end.

Definition is_preview (e : Event) : bool :=
  match e with
  | EvRequest _ ReqPreviewFrame | EvRequest _ (ReqPreviewDetectFrame _) => true
  | _ => false
  end.

(** How long the stream may stay open after a call, by what was answered. *)
Inductive hold_allowed (d : DeviceConfig) (e : Event) : DaemonResponse → Z → Prop :=
  | hold_for_retry mr : matched mr = false → camera_release_secs d ≠ 0 →
      hold_allowed d e (RespAuthResult mr) (nanos (camera_release_secs d))
  | hold_after_match mr : matched mr = true → camera_release_after_success_secs d ≠ 0 →
      hold_allowed d e (RespAuthResult mr) (nanos (camera_release_after_success_secs d))
  | hold_after_enroll mid n : camera_release_after_success_secs d ≠ 0 →
      hold_allowed d e (RespEnrolled mid n) (nanos (camera_release_after_success_secs d))
  | hold_preview r : is_preview e = true →
      hold_allowed d e r (Z.max (nanos (camera_release_secs d)) PREVIEW_MIN_HOLD).

(** A reply that rests on a captured frame. *)
Definition from_capture (r : DaemonResponse) : bool :=
  match r with
  | RespAuthResult mr => matched mr || face_detected mr
  | RespEnrolled _ _ | RespFrame _ | RespDetectFrame _ _ => true
  | _ => false
  end.

(** A call leaves a lease it did not need, closes the camera, or holds it as allowed. *)
Definition lease_effect (d : DeviceConfig) (e : Event) (r : DaemonResponse) (l l' : CameraLease) : Prop :=
  l' = l ∧ from_capture r = false ∨ closed l' ∨
  ∃ cam hold, camera l' = Some cam ∧ deadline l' = Some (event_clock e + hold) ∧ hold_allowed d e r hold.

Lemma effect_ok d e r l l' : lease_ok l → lease_effect d e r l l' → lease_ok l'.
Proof.
  intros Hok [[-> _]|[Hc|(cam & hold & Hc & Hd & _)]]; [done|by apply closed_ok|].
  unfold lease_ok. by rewrite Hc, Hd.
Qed.

Lemma finish_effect e c o r l0 l cam : camera l = Some cam → deadline l = None →
  (hold_secs o (device c) ≠ 0 → hold_allowed (device c) e r (nanos (hold_secs o (device c)))) →
  lease_effect (device c) e r l0 (lease_finish (event_clock e) o c l).
Proof.
  intros Hc Hd Hh. unfold lease_finish. destruct (hold_secs o (device c) =? 0) eqn:E; right.
  - left. by split.
  - right. exists cam, (nanos (hold_secs o (device c))). split_and!; [done|done|].
    by apply Hh, Z.eqb_neq.
Qed.

Lemma auth_hold c e o : hold_secs (outcome_of_auth o) (device c) ≠ 0 →
  hold_allowed (device c) e (response_of_auth o) (nanos (hold_secs (outcome_of_auth o) (device c))).
Proof. destruct o as [mr| | |]; cbn; [|done..]. destruct (matched mr) eqn:Em; by constructor. Qed.

Lemma enroll_hold c e o : hold_secs (outcome_of_enroll o) (device c) ≠ 0 →
  hold_allowed (device c) e (response_of_enroll o) (nanos (hold_secs (outcome_of_enroll o) (device c))).
Proof. destruct o; cbn; [|done..]. by constructor. Qed.

(** ** What a call leaves alone *)
Definition same_setup (h h' : Handler) : Prop :=
  config h' = config h ∧ rate_limiter h' = rate_limiter h ∧ tpm_sealer h' = tpm_sealer h.

#[export] Instance same_setup_preorder : PreOrder same_setup.
Proof. split; [by intros h|]. intros a b c (A1 & A2 & A3) (B1 & B2 & B3). split_and!; congruence. Qed.

Lemma refresh_fields env h : same_setup h (refresh_software_sealer env h) ∧
  lease (refresh_software_sealer env h) = lease h.
Proof.
  unfold refresh_software_sealer. destruct (_ || _); [done|].
  destruct (refresh_primary env (config h) (keys h) (store h) (files h)) as [[k s] d].
  by destruct (is_some _).
Qed.

Lemma load_fields user h r h' : load_user_embeddings user h = (r, h') →
  ∃ s, h' = with_store s h.
Proof.
  unfold load_user_embeddings. destruct (load_embeddings _ _ _ user (store h)) as [r0 s].
  intros [= _ <-]. by exists s.
Qed.

Lemma charge_fields env user i o h : same_setup h (charge env user i o h) ∧
  lease (charge env user i o h) = lease h ∧ keys (charge env user i o h) = keys h ∧
  preview_embeddings (charge env user i o h) = preview_embeddings h.
Proof. unfold charge. by repeat case_match. Qed.

Lemma detect_fields faces user h l h' : detect_and_match faces user h = (l, h') →
  same_setup h h' ∧ lease h' = lease h ∧ keys h' = keys h.
Proof.
  unfold detect_and_match. destruct faces as [detections|]; [|by intros [= _ <-]].
  destruct (match preview_embeddings h with Some _ => _ | None => _ end).
  - destruct (load_user_embeddings user h) as [[es|e] h1] eqn:E; apply load_fields in E as [s ->];
      by intros [= _ <-].
  - by intros [= _ <-].
Qed.

Lemma preflight_fields env user i ctx h r h' : preflight_authenticate_with_context env user i ctx h = (r, h') →
  same_setup h h' ∧ lease h' = lease h ∧ keys h' = keys h ∧ preview_embeddings h' = preview_embeddings h ∧
  match r with Some (resp, _) => from_capture resp = false | None => True end.
Proof.
  unfold preflight_authenticate_with_context, pre_check_audited_with_context, pre_check_with_context.
  destruct (disabled _); [by intros [= <- <-]|]. destruct (_ && _ && _); [by intros [= <- <-]|].
  destruct (if _ && _ then _ else _); [by intros [= <- <-]|].
  destruct (has_models user (store h)) as [[[]|e] s1]; [|by destruct (suppress_unknown _); intros [= <- <-]|by intros [= <- <-]].
  destruct (check _ _ user s1) as [[[]|e] s2]; [|by intros [= <- <-]..].
  destruct (bool_decide _); [by intros [= <- <-]|]. by destruct (_ && _); intros [= <- <-].
Qed.

(** ** Every call follows the policy *)
Definition call_ok (e : Event) (h : Handler) (r : DaemonResponse) (h' : Handler) : Prop :=
  same_setup h h' ∧ lease_effect (device (config h)) e r (lease h) (lease h').

Lemma call_left e h r h' : same_setup h h' → lease h' = lease h → from_capture r = false →
  call_ok e h r h'.
Proof. intros Hs Hl Hr. split; [done|]. rewrite Hl. by left. Qed.

Lemma call_closed e h r h' : same_setup h h' → closed (lease h') → call_ok e h r h'.
Proof. intros Hs Hl. split; [done|]. right. by left. Qed.

(** From a handler that differs only in what a refresh or a load changes. *)
Lemma call_from e h0 h r h' : same_setup h0 h → lease h = lease h0 → call_ok e h r h' → call_ok e h0 r h'.
Proof.
  intros Hs Hl [Hs' He]. split; [by etrans|]. destruct Hs as (Hc & _). by rewrite <- Hc, <- Hl.
Qed.

Lemma prechecked_ok e env user i h r fx h' : event_clock e = rq_now env →
  handle_authenticate_prechecked env user i h = Some (Replied r fx h') → call_ok e h r h'.
Proof.
  intros He. unfold handle_authenticate_prechecked.
  destruct (refresh_fields (rq_keys env) h) as [Hs Hl].
  set (h1 := refresh_software_sealer (rq_keys env) h) in *. clearbody h1.
  destruct (list_models user (store h1)) as [[models|err] s].
  2: { intros [= <- _ <-]. by apply call_left. }
  destruct (load_user_embeddings user (with_store s h1)) as [[stored|m] h2] eqn:Eload; apply load_fields in Eload as [s2 ->].
  2: { intros [= <- _ <-]. by apply call_left. }
  unfold acquire_for_authentication.
  destruct (acquire_for _ _ _ _) as [acq l] eqn:Eacq; apply acquire_for_spec in Eacq as [Hd Hc].
  destruct acq as [cam|m].
  2: { destruct (String.eqb m CANCELLED_MESSAGE); intros [= <- _ <-]; by apply call_closed. }
  destruct (authenticate_with_embeddings _ _ _ _ _ _ _ _ _ _ _ _) as [[o es|]|]; [|done..].
  intros [= <- _ <-]. set (h3 := with_lease _ _).
  destruct (charge_fields env user i o h3) as (Hs3 & Hl3 & _).
  apply (call_from e h h1); [done|done|]. split; [exact Hs3|]. rewrite Hl3.
  cbn [lease with_lease h3 config with_store]. rewrite <- He. by apply (finish_effect _ _ _ _ _ _ cam), auth_hold.
Qed.

Lemma enroll_call_ok env user label h r fx h' :
  handle_enroll env user label h = Some (Replied r fx h') →
  call_ok (EvRequest env (ReqEnroll user label)) h r h'.
Proof.
  unfold handle_enroll. destruct (ensure_enroll_encryption_allowed _) as [[]|m].
  2: { intros [= <- _ <-]. by apply call_left. }
  destruct (refresh_fields (rq_keys env) h) as [Hs Hl].
  set (h1 := refresh_software_sealer (rq_keys env) h) in *. clearbody h1.
  destruct (negb _ && negb _). { intros [= <- _ <-]. by apply call_left. }
  unfold acquire. destruct (acquire_for env (config h1) _ (lease h1)) as [acq l] eqn:Eacq.
  apply acquire_for_spec in Eacq as [Hd Hc]. destruct acq as [cam|m].
  2: { intros [= <- _ <-]. by apply call_closed. }
  destruct (ensure_enrollment_binding_allowed _ _) as [[]|m].
  2: { intros [= <- _ <-]. by apply call_closed. }
  destruct (enroll _ _ _ _ _ _ _ _ _) as [[o s|]|]; [|done..]. intros [= <- _ <-].
  apply (call_from _ h h1); [done|done|]. split; [done|].
  by apply (finish_effect (EvRequest env (ReqEnroll user label)) _ _ _ _ _ cam), enroll_hold.
Qed.

Lemma touch_effect e r c l0 l cam : is_preview e = true → camera l = Some cam →
  lease_effect (device c) e r l0 (touch_preview (event_clock e) c l).
Proof.
  intros Hp Hc. right. right. exists cam, (Z.max (nanos (camera_release_secs (device c))) PREVIEW_MIN_HOLD).
  split_and!; [done|done|by apply hold_preview].
Qed.

Lemma preview_call_ok env h r fx h' : handle_preview_frame env h = Some (Replied r fx h') →
  call_ok (EvRequest env ReqPreviewFrame) h r h'.
Proof.
  unfold handle_preview_frame, acquire.
  destruct (acquire_for env (config h) _ (lease h)) as [acq l] eqn:Eacq.
  apply acquire_for_spec in Eacq as [Hd Hc]. destruct acq as [cam|m].
  2: { intros [= <- _ <-]. by apply call_closed. }
  destruct (rq_capture env) as [frame|m].
  2: { intros [= <- _ <-]. by apply call_closed. }
  destruct (rq_jpeg env frame); intros [= <- _ <-]; (split; [done|]);
    by apply (touch_effect (EvRequest env ReqPreviewFrame) _ _ _ _ cam).
Qed.

Lemma preview_detect_call_ok env user h r fx h' :
  handle_preview_detect_frame env user h = Some (Replied r fx h') →
  call_ok (EvRequest env (ReqPreviewDetectFrame user)) h r h'.
Proof.
  unfold handle_preview_detect_frame, acquire.
  destruct (acquire_for env (config h) _ (lease h)) as [acq l] eqn:Eacq.
  apply acquire_for_spec in Eacq as [Hd Hc]. destruct acq as [cam|m].
  2: { intros [= <- _ <-]. by apply call_closed. }
  destruct (rq_capture env) as [frame|m].
  2: { intros [= <- _ <-]. by apply call_closed. }
  destruct (detect_and_match _ _ _) as [faces h3] eqn:Edet. apply detect_fields in Edet as (Hs & Hl & _).
  destruct (rq_jpeg env frame); intros [= <- _ <-]; (split; [exact Hs|]); rewrite Hl;
    by apply (touch_effect (EvRequest env (ReqPreviewDetectFrame user)) _ _ _ _ cam).
Qed.

Lemma storage_reply_ok {A} e (ok : A → DaemonResponse) x h0 h r fx h' : (∀ a, from_capture (ok a) = false) →
  same_setup h0 h → lease h = lease h0 →
  storage_reply ok x h = Some (Replied r fx h') → call_ok e h0 r h'.
Proof.
  intros Hok Hs Hl. unfold storage_reply. destruct x as [[a|err] s]; intros [= <- _ <-]; by apply call_left.
Qed.

Lemma tick_call_ok now h : lease_ok (lease h) → call_ok (EvTick now) h RespOk (expire_camera now h).
Proof.
  intros Hok. unfold expire_camera. destruct (expire_spec now (lease h) Hok) as (_ & Hor & _).
  assert (call_ok (EvTick now) h RespOk (with_lease (expire now (lease h)) h)) as [Hs He].
  { destruct Hor as [Hl|Hc]; [by apply call_left|by apply call_closed]. }
  destruct (negb _); by split.
Qed.

Lemma step_call_ok e h r fx h' : lease_ok (lease h) → step e h = Some (Replied r fx h') → call_ok e h r h'.
Proof.
  intros Hok. destruct e as [env request|env user i ctx|now]; cbn [step].
  - destruct request; cbn [handle_with_cancel].
    + unfold handle_authenticate, preflight_authenticate.
      destruct (preflight_authenticate_with_context _ _ _ _ h) as [[[r1 fx1]|] h1] eqn:Ep;
        apply preflight_fields in Ep as (Hs & Hl & _ & _ & Hr).
      * intros [= <- _ <-]. by apply call_left.
      * intros Hp. apply (call_from _ h h1); [done|done|]. by eapply prechecked_ok.
    + apply enroll_call_ok.
    + by apply storage_reply_ok.
    + by apply storage_reply_ok.
    + by apply storage_reply_ok.
    + apply preview_call_ok.
    + apply preview_detect_call_ok.
    + destruct (rq_devices env); intros [= <- _ <-]; by apply call_left.
    + intros [= <- _ <-]. by apply call_closed.
    + intros [= <- _ <-]. by apply call_left.
    + intros [= <- _ <-]. by apply call_closed.
  - destruct (preflight_authenticate_with_context _ _ _ _ h) as [[[r1 fx1]|] h1] eqn:Ep;
      apply preflight_fields in Ep as (Hs & Hl & _ & _ & Hr).
    + intros [= <- _ <-]. by apply call_left.
    + intros Hp. apply (call_from _ h h1); [done|done|]. by eapply prechecked_ok.
  - intros [= <- _ <-]. by apply tick_call_ok.
Qed.

(** ** Sequences of calls *)
Definition max_hold (d : DeviceConfig) : Z :=
  nanos (Z.max 2 (Z.max (camera_release_secs d) (camera_release_after_success_secs d))).

Lemma hold_le d e r hold : hold_allowed d e r hold → hold ≤ max_hold d.
Proof. unfold max_hold, nanos. destruct 1; unfold PREVIEW_MIN_HOLD, nanos; lia. Qed.

(** The deadline in force was set by a call of the past, with an allowed hold. *)
Definition deadline_from (es : list Event) (h : Handler) : Prop :=
  ∀ d, deadline (lease h) = Some d → ∃ e, e ∈ es ∧ d ≤ event_clock e + max_hold (device (config h)).

Lemma new_handler kenv c s rl caps fac warm d h0 :
  handler_new kenv c s rl caps fac warm d = Ok h0 →
  config h0 = c ∧ closed (lease h0) ∧ preview_embeddings h0 = None ∧
  store h0 = snd (fst (load kenv c s d)).
Proof.
  unfold handler_new. destruct (load kenv c s d) as [[[k|m] s1] d1]; [|done]. by intros [= <-].
Qed.

Lemma reached_lease h0 es h : closed (lease h0) → reached h0 es h →
  same_setup h0 h ∧ lease_ok (lease h) ∧ deadline_from es h.
Proof.
  intros [Hc Hd]. induction 1 as [|es e h r fx h' Hr (Hs & Hok & Hdl) Hst].
  - split_and!; [done|by apply closed_ok|]. intros x. by rewrite Hd.
  - destruct (step_call_ok _ _ _ _ _ Hok Hst) as [Hs' He].
    split_and!; [by etrans|by eapply effect_ok|]. intros x Hx. destruct Hs' as (Hcf & _). rewrite Hcf.
    destruct He as [[Hl _]|[[_ Hn]|(cam & hold & _ & Hsome & Hh)]].
    + rewrite Hl in Hx. destruct (Hdl x Hx) as (e' & Hin & Hle). exists e'. split; [|done]. set_solver.
    + congruence.
    + rewrite Hx in Hsome. injection Hsome as ->. exists e. split; [set_solver|].
      apply hold_le in Hh. lia.
Qed.
End Steps.

(** C30.  The camera is on only while a request runs or its warm hold lasts. After every sequence
    of calls that returned, the camera is open exactly while a deadline is set; every call leaves
    a lease it did not need as it was, closes the camera, or holds it for the time its answer is
    worth and no other: a failed match for [camera_release_secs], a match or an enrollment for
    [camera_release_after_success_secs], a preview frame for at least two seconds; an error, a
    refusal and a cancellation never hold. And a poll tick that comes when the longest of these
    holds has passed since every call finds or makes the camera closed and wipes the preview's
    templates. *)
Theorem camera_follows_lease_policy `{ShowSqlite} `{RowOrder} `{NanEncoding} `{Subtle} `{Aead} `{Sha256}
    `{TpmDevice} kenv c s rl caps fac warm d h0 es h :
  handler_new kenv c s rl caps fac warm d = Ok h0 → reached h0 es h →
  is_some (camera (lease h)) = is_some (deadline (lease h)) ∧
  (∀ e r fx h', step e h = Some (Replied r fx h') → lease_effect (device c) e r (lease h) (lease h')) ∧
  (∀ now, (∀ e, e ∈ es → event_clock e + max_hold (device c) ≤ now) →
     closed (lease (expire_camera now h)) ∧ preview_embeddings (expire_camera now h) = None).
Proof.
  intros (Hc & Hcl & _ & _)%new_handler Hr. destruct (reached_lease _ _ _ Hcl Hr) as ((Hcf & _) & Hok & Hdl).
  split_and!; [done| |].
  - intros e r fx h' Hs. destruct (step_call_ok _ _ _ _ _ Hok Hs) as [_ He]. by rewrite Hcf, Hc in He.
  - intros now Hnow. destruct (expire_spec now (lease h) Hok) as (_ & _ & Hx).
    assert (closed (expire now (lease h))) as [Hca Hde].
    { apply Hx. intros x Hdx. destruct (Hdl x Hdx) as (e & Hin & Hle). rewrite Hcf, Hc in Hle.
      specialize (Hnow e Hin). lia. }
    unfold expire_camera, holds_camera. cbn [lease with_lease]. rewrite Hca. by split.
Qed.

(** ** The preview cache *)

Section Cache.
Context `{ShowSqlite} `{RowOrder} `{NanEncoding} `{Subtle} `{Aead} `{Sha256} `{TpmDevice}.

(** Stores with the same templates, and no transaction opened or closed between them. *)
Definition same_templates (s s' : FaceStore) : Prop :=
  face_models (db s') = face_models (db s) ∧ face_embeddings (db s') = face_embeddings (db s) ∧
  saved s' = saved s.

#[export] Instance same_templates_preorder : PreOrder same_templates.
Proof. split; [by intros s|]. intros a b c (A1 & A2 & A3) (B1 & B2 & B3). split_and!; congruence. Qed.

Lemma same_db s s' : db s' = db s → same_conn s s' → same_templates s s'.
Proof. intros Hd (Hs & _ & _). unfold same_templates. by rewrite Hd. Qed.

(** A statement that leaves the templates alone. *)
Lemma exec_templates {A} (f : Db → result (A * Db) RusqliteError) s r s' :
  (∀ d a d', f d = Ok (a, d') → face_models d' = face_models d ∧ face_embeddings d' = face_embeddings d) →
  exec f s = (r, s') → same_templates s s'.
Proof.
  intros Hf He. pose proof (exec_inside f s) as (Hs & _ & _). rewrite He in Hs. cbn [snd] in Hs.
  destruct r as [a|e].
  - apply exec_ok in He. apply Hf in He as [? ?]. done.
  - apply exec_err in He. unfold same_templates. by rewrite He.
Qed.

Lemma query_count_templates count s r s' : query_count count s = (r, s') → same_templates s s'.
Proof.
  apply exec_templates. intros d a d'. destruct (get_u32 0 _); [|done]. by intros [= _ <-].
Qed.

Lemma cleanup_templates clock w s : same_templates s (snd (cleanup_rate_limit clock w s)).
Proof.
  unfold cleanup_rate_limit. destruct (exec _ s) as [r s1] eqn:E. revert E.
  apply exec_templates. by intros d a d' [= _ <-].
Qed.

Lemma has_models_templates user s r s' : has_models user s = (r, s') → same_templates s s'.
Proof.
  unfold has_models, bind. destruct (query_count _ s) as [[n|e] s1] eqn:E; apply query_count_templates in E;
    by intros [= _ <-].
Qed.

Lemma check_templates rl clock user s r s' : check rl clock user s = (r, s') → same_templates s s'.
Proof.
  unfold check, ignore, string_err, check_rate_limit, bind.
  pose proof (cleanup_templates clock (limiter_window_secs rl) s) as Hc.
  set (s1 := snd _) in *. clearbody s1.
  destruct (query_count _ s1) as [[n|e] s2] eqn:E; apply query_count_templates in E;
    intros [= _ <-]; by etrans.
Qed.

Lemma record_templates rl clock user s : same_templates s (snd (record_failure rl clock user s)).
Proof.
  unfold record_failure, bind, string_err, record_auth_attempt, ignore, ret.
  destruct (exec _ s) as [r s1] eqn:E. apply exec_templates in E; [|by intros d a d' [= _ <-]].
  destruct r; cbn [map_err]; [|done]. etrans; [done|]. apply cleanup_templates.
Qed.

Lemma preflight_templates env user i ctx h r h' : preflight_authenticate_with_context env user i ctx h = (r, h') →
  same_templates (store h) (store h').
Proof.
  unfold preflight_authenticate_with_context, pre_check_audited_with_context, pre_check_with_context.
  destruct (disabled _); [by intros [= _ <-]|]. destruct (_ && _ && _); [by intros [= _ <-]|].
  destruct (if _ && _ then _ else _); [by intros [= _ <-]|].
  destruct (has_models user (store h)) as [[[]|e] s1] eqn:Em; apply has_models_templates in Em;
    [|by destruct (suppress_unknown _); intros [= _ <-]|by intros [= _ <-]].
  destruct (check _ _ user s1) as [[[]|e] s2] eqn:Ec; apply check_templates in Ec;
    assert (same_templates (store h) s2) as Hs by (by etrans); [|by intros [= _ <-]..].
  destruct (bool_decide _); [by intros [= _ <-]|]. by destruct (_ && _); intros [= _ <-].
Qed.

Lemma collect_same rows : ∀ acc s r s', collect_embeddings acc rows s = (r, s') →
  db s' = db s ∧ same_conn s s'.
Proof.
  induction rows as [|x rows IH]; intros acc s r s'; cbn [collect_embeddings]; [by intros [= _ <-]|].
  unfold bind. pose proof (exec_inside (λ d, let? y := id_and_blob x in Ok (y, d)) s) as Hi.
  destruct (exec _ s) as [[y|e] s1] eqn:E; cbn [snd] in Hi.
  2: { intros [= _ <-]. split; [by eapply exec_err|done]. }
  apply exec_ok in E. destruct (id_and_blob x); [|done]. injection E as _ E.
  destruct (_ =? _)%nat; [|intros [= _ <-]; split; [by symmetry|done]].
  intros [Hd Hc]%IH. split; [congruence|by etrans].
Qed.

(** A computation that only reads. *)
Definition same_store (s s' : FaceStore) : Prop := db s' = db s ∧ saved s' = saved s.

Lemma same_store_templates s s' : same_store s s' → same_templates s s'.
Proof. intros [Hd Hs]. unfold same_templates. by rewrite Hd. Qed.

Lemma same_conn_store s s' : db s' = db s → same_conn s s' → same_store s s'.
Proof. by intros Hd (Hs & _ & _). Qed.

Lemma load_same c k held user s r s' : load_embeddings c k held user s = (r, s') → same_store s s'.
Proof.
  unfold load_embeddings. destruct (negb _).
  - unfold get_user_embeddings, bind.
    pose proof (exec_inside (λ d, Ok (scan (sql_join (of_user user) d), d)) s) as Hi.
    destruct (exec _ s) as [[rows|e] s1] eqn:E; cbn [snd] in Hi.
    2: { intros [= _ <-]. apply exec_err in E. by apply same_conn_store. }
    apply exec_ok in E. injection E as _ E.
    destruct (collect_embeddings [] rows s1) as [[l|e] s2] eqn:Ec; apply collect_same in Ec as [Hd Hc];
      intros [= _ <-]; (apply same_conn_store; [congruence|by etrans]).
  - destruct (get_user_embeddings_raw_with_device user s) as [[rows|e] s1] eqn:E;
      apply query_map_same in E as [Hd Hc]; intros [= _ <-]; by apply same_conn_store.
Qed.

(** The keyring's refresh reads the store, and keeps the keys unless it finds the primary. *)
Lemma resolve_same env c s d r s' d' : saved s = None →
  resolve_keyfile_sealer env c s d = (r, s', d') → same_store s s'.
Proof.
  intros Hs. unfold resolve_keyfile_sealer.
  destruct (ensure_encrypt_by_default_key env c s d) as [[dec s1] d1] eqn:E.
  apply ensure_key_spec in E as (Hd & Hs1 & _); [|done].
  assert (same_store s s1) as [H01 H02] by (split; congruence).
  destruct (refusal dec); [by intros [= _ <- _]|].
  destruct (from_key_file _ d1 _); [by intros [= _ <- _]|].
  destruct (encrypted_rows_at_risk c s1) as [[m|] s2] eqn:Er; apply at_risk_same in Er as [Hd2 (Hc2 & _)];
    intros [= _ <- _]; split; congruence.
Qed.

Definition same_keys (k k' : SealingKeys) : Prop := primary k' = primary k ∧ secondary k' = secondary k.

Lemma refresh_same env h : saved (store h) = None →
  let h' := refresh_software_sealer env h in
  same_store (store h) (store h') ∧
  (preview_embeddings h' = None ∨
   preview_embeddings h' = preview_embeddings h ∧ same_keys (keys h) (keys h')).
Proof.
  intros Hs. unfold refresh_software_sealer, refresh_primary. destruct (_ || _) eqn:Eg.
  { split; [done|]. right. done. }
  apply orb_false_iff in Eg as [He Hm]. rewrite Hm. cbn [orb].
  destruct (is_some (primary (keys h))) eqn:Ep.
  { destruct (is_some (primary_error (keys h))); (split; [done|]); [right; done|by left]. }
  destruct (resolve_keyfile_sealer env (config h) (store h) (files h)) as [[[p|m] s] d] eqn:Er;
    apply resolve_same in Er; [|done| |done]; cbn [is_some primary_error].
  - split; [done|by left].
  - split; [done|]. right. done.
Qed.

(** The cached templates are what a load of [user] gives on the store's templates and keys. *)
Definition current (h : Handler) (user : string) (l : list (Z * FaceEmbedding)) : Prop :=
  ∃ s k, same_templates (store h) s ∧ same_keys (keys h) k ∧
    fst (load_embeddings (config h) k (tpm_sealer h) user s) = Ok l.

Record cache_ok (h : Handler) : Prop := {
  ok_saved : saved (store h) = None;
  ok_current : ∀ u l, preview_embeddings h = Some (u, l) → current h u l;
}.

Lemma cache_empty h : saved (store h) = None → preview_embeddings h = None → cache_ok h.
Proof. intros Hs Hp. split; [done|]. intros u l. by rewrite Hp. Qed.

Lemma cache_kept h h' : cache_ok h → same_setup h h' → same_templates (store h) (store h') →
  preview_embeddings h' = None ∨ preview_embeddings h' = preview_embeddings h ∧ same_keys (keys h) (keys h') →
  cache_ok h'.
Proof.
  intros [Hs Hcur] (Hc & _ & Ht) Hst Hp. assert (saved (store h') = None) as Hs'.
  { destruct Hst as (_ & _ & ->). done. }
  destruct Hp as [Hp|[Hp [Hk1 Hk2]]]; [by apply cache_empty|]. split; [done|].
  intros u l. rewrite Hp. intros (s & k & (S1 & S2 & S3) & [K1 K2] & Hl)%Hcur.
  destruct Hst as (T1 & T2 & T3). exists s, k. rewrite Hc, Ht. unfold same_templates, same_keys.
  split_and!; congruence.
Qed.

Lemma cache_refresh env h : cache_ok h → cache_ok (refresh_software_sealer env h).
Proof.
  intros Hok. destruct (refresh_same env h (ok_saved _ Hok)) as [Hst%same_store_templates Hp].
  destruct (refresh_fields env h) as [Hs _]. by eapply cache_kept.
Qed.

Lemma cache_load user h r h' : cache_ok h → load_user_embeddings user h = (r, h') → cache_ok h'.
Proof.
  intros Hok. unfold load_user_embeddings. destruct (load_embeddings _ _ _ user (store h)) as [r0 s] eqn:E.
  apply load_same, same_store_templates in E. intros [= _ <-]. apply (cache_kept h); [done|done|done|by right].
Qed.

Lemma cache_detect faces user h l h' : cache_ok h → detect_and_match faces user h = (l, h') → cache_ok h'.
Proof.
  intros Hok. unfold detect_and_match. destruct faces as [detections|]; [|by intros [= _ <-]].
  destruct (match preview_embeddings h with Some _ => _ | None => _ end); [|by intros [= _ <-]].
  unfold load_user_embeddings. destruct (load_embeddings _ _ _ user (store h)) as [r s] eqn:E.
  pose proof (same_store_templates _ _ (load_same _ _ _ _ _ _ _ E)) as Hst.
  assert (saved s = None) as Hs by (destruct Hst as (_ & _ & ->); by apply ok_saved).
  destruct r as [es|e]; intros [= _ <-]; [|by apply cache_empty].
  split; [done|]. intros u l0 [= <- <-]. exists (store h), (keys h).
  split_and!; [|done|by cbn [config tpm_sealer with_preview with_store]; rewrite E]. destruct Hst as (S1 & S2 & S3). by split_and!.
Qed.

Lemma enroll_saved c user label sealer dev key env fuel s o s' : saved s = None →
  enroll c user label sealer dev key env fuel s = Some (EnrollEnded o s') → saved s' = None.
Proof.
  intros Hs. unfold enroll. destruct (require_device_aad c dev) as [aad|]; [|by intros [= _ <-]].
  destruct (capture_loop _ _ _ _ _ _) as [[st| |]|]; [|by intros [= _ <-]|done|done].
  unfold after_capture. destruct (en_cancelled_after env); [by intros [= _ <-]|].
  destruct (_ && _); [by intros [= _ <-]|]. destruct (_ <? _)%nat; [by intros [= _ <-]|].
  unfold persist_enrollment. destruct (match sealer with Some _ => _ | None => _ end) as [blobs|]; [|by intros [= _ <-]].
  destruct (en_cancelled_commit env); [by intros [= _ <-]|].
  unfold replace_model_with_embeddings. destruct (_ <? _)%nat; [by intros [= _ <-]|].
  destruct (in_tx _ s) as [r s1] eqn:E. apply in_tx_spec in E as [Hs1 _]; [|auto 6 with store|done].
  by destruct r; intros [= _ <-].
Qed.

Lemma cache_prechecked env user i h r fx h' : cache_ok h →
  handle_authenticate_prechecked env user i h = Some (Replied r fx h') → cache_ok h'.
Proof.
  intros Hok0. unfold handle_authenticate_prechecked. pose proof (cache_refresh (rq_keys env) h Hok0) as Hok.
  set (h1 := refresh_software_sealer (rq_keys env) h) in *. clearbody h1.
  destruct (list_models user (store h1)) as [lm s] eqn:El. apply query_map_same in El as [Hd Hc].
  assert (cache_ok (with_store s h1)) as Hok1.
  { apply (cache_kept h1); [done|done|by apply same_db|by right]. }
  destruct lm as [models|]; [|by intros [= _ _ <-]].
  destruct (load_user_embeddings user (with_store s h1)) as [[stored|m] h2] eqn:E2;
    apply cache_load in E2; [|done| |done]; [|by intros [= _ _ <-]].
  destruct (acquire_for_authentication _ _ _) as [acq l].
  assert (∀ l', cache_ok (with_lease l' h2)) as Hl by (intros l'; by apply (cache_kept h2); [| | |right]).
  destruct acq as [cam|m]; [|destruct (String.eqb _ _); by intros [= _ _ <-]].
  destruct (authenticate_with_embeddings _ _ _ _ _ _ _ _ _ _ _ _) as [[o es|]|]; [|done..].
  intros [= _ _ <-]. cbn [lease with_lease]. set (h3 := with_lease _ _).
  destruct (charge_fields env user i o h3) as (Hs3 & _ & Hk3 & Hp3).
  apply (cache_kept h3); [by apply Hl|done| |right; by rewrite Hp3, Hk3].
  unfold charge. repeat case_match; try done. apply record_templates.
Qed.

Lemma cache_enroll env user label h r fx h' : cache_ok h →
  handle_enroll env user label h = Some (Replied r fx h') → cache_ok h'.
Proof.
  intros Hok0. unfold handle_enroll. destruct (ensure_enroll_encryption_allowed _); [|by intros [= _ _ <-]].
  pose proof (cache_refresh (rq_keys env) h Hok0) as Hok.
  set (h1 := refresh_software_sealer (rq_keys env) h) in *. clearbody h1.
  destruct (negb _ && negb _); [by intros [= _ _ <-]|]. destruct (acquire _ _ _) as [acq l].
  assert (∀ l', cache_ok (with_lease l' h1)) as Hl by (intros l'; by apply (cache_kept h1); [| | |right]).
  destruct acq as [cam|]; [|by intros [= _ _ <-]].
  destruct (ensure_enrollment_binding_allowed _ _); [|intros [= _ _ <-]; apply Hl].
  destruct (enroll _ _ _ _ _ _ _ _ _) as [[o s|]|] eqn:E; [|done..]. intros [= _ _ <-].
  apply cache_empty; [|done]. apply enroll_saved in E; [done|by apply ok_saved].
Qed.

Lemma cache_storage {A} (ok : A → DaemonResponse) (m : M StoreError A) h r fx h' : inside m →
  saved (store h) = None → preview_embeddings h = None →
  storage_reply ok (m (store h)) h = Some (Replied r fx h') → cache_ok h'.
Proof.
  intros Hm Hs Hp. unfold storage_reply. specialize (Hm (store h)) as (Hsv & _).
  destruct (m (store h)) as [[a|e] s]; intros [= _ _ <-]; (apply cache_empty; [cbn in *; congruence|done]).
Qed.

Lemma cache_step e h r fx h' : cache_ok h → step e h = Some (Replied r fx h') → cache_ok h'.
Proof.
  intros Hok. assert (∀ l', cache_ok (with_lease l' h)) as Hl
    by (intros l'; by apply (cache_kept h); [| | |right]).
  pose proof (ok_saved _ Hok) as Hs.
  assert (∀ env user i ctx h1 x, preflight_authenticate_with_context env user i ctx h = (x, h1) → cache_ok h1) as Hpre.
  { intros env user i ctx h1 x E. pose proof (preflight_templates _ _ _ _ _ _ _ E) as Ht.
    apply preflight_fields in E as (Hs1 & _ & Hk & Hp & _). apply (cache_kept h); [done|done|done|right].
    by rewrite Hp, Hk. }
  destruct e as [env request|env user i ctx|now]; cbn [step].
  - destruct request; cbn [handle_with_cancel].
    + unfold handle_authenticate, preflight_authenticate.
      destruct (preflight_authenticate_with_context _ _ _ _ h) as [[[r1 fx1]|] h1] eqn:Ep; apply Hpre in Ep;
        [by intros [= _ _ <-]|by apply cache_prechecked].
    + by apply cache_enroll.
    + unfold storage_reply. destruct (list_models user (store h)) as [[l|m] s] eqn:El;
        apply query_map_same in El as [Hd Hc]; intros [= _ _ <-];
        (apply (cache_kept h); [done|done|by apply same_db|by right]).
    + apply cache_storage; [unfold remove_model; auto with store|done|done].
    + apply cache_storage; [unfold clear_user; auto with store|done|done].
    + unfold handle_preview_frame. destruct (acquire _ _ _) as [[cam|m] l]; [|intros [= _ _ <-]; apply Hl].
      destruct (rq_capture env) as [f|m]; [|intros [= _ _ <-]; apply Hl].
      destruct (rq_jpeg env f); intros [= _ _ <-]; apply Hl.
    + unfold handle_preview_detect_frame. destruct (acquire _ _ _) as [[cam|m] l]; [|intros [= _ _ <-]; apply Hl].
      destruct (rq_capture env) as [f|m]; [|intros [= _ _ <-]; apply Hl].
      destruct (detect_and_match _ _ _) as [faces h3] eqn:Ed. apply cache_detect in Ed; [|apply Hl].
      by destruct (rq_jpeg env f); intros [= _ _ <-].
    + by destruct (rq_devices env); intros [= _ _ <-].
    + intros [= _ _ <-]. by apply cache_empty.
    + by intros [= _ _ <-].
    + intros [= _ _ <-]. by apply cache_empty.
  - destruct (preflight_authenticate_with_context _ _ _ _ h) as [[[r1 fx1]|] h1] eqn:Ep; apply Hpre in Ep;
      [by intros [= _ _ <-]|by apply cache_prechecked].
  - intros [= _ _ <-]. unfold expire_camera. destruct (negb _); [by apply cache_empty|apply Hl].
Qed.

Lemma reached_cache h0 es h : cache_ok h0 → reached h0 es h → cache_ok h.
Proof. intros Hok. induction 1; [done|by eapply cache_step]. Qed.

Lemma new_saved kenv c s rl caps fac warm d h0 : saved s = None →
  handler_new kenv c s rl caps fac warm d = Ok h0 → cache_ok h0.
Proof.
  intros Hs (_ & _ & Hp & Hst)%new_handler. apply cache_empty; [|done]. rewrite Hst. unfold load.
  destruct (method (encryption c)); [done| |done].
  destruct (resolve_keyfile_sealer kenv c s d) as [[r s1] d1] eqn:E.
  apply resolve_same in E as (_ & Hsv); [|done]. cbn. congruence.
Qed.

(** Which set a preview frame's faces are compared with. *)
Lemma detect_compares dets user h l h' : cache_ok h → detect_and_match (Ok dets) user h = (l, h') →
  ∃ stored, l = map (preview_face (threshold (recognition (config h))) stored) dets ∧
    (current h' user stored ∨ preview_embeddings h' = None ∧ stored = []).
Proof.
  intros Hok Hd. pose proof (cache_detect _ _ _ _ _ Hok Hd) as [_ Hcur]. revert Hd.
  unfold detect_and_match. destruct (preview_embeddings h) as [[u es0]|] eqn:Ep.
  - destruct (String.eqb u user) eqn:Eu; cbn [negb].
    + intros [= <- <-]. rewrite Ep. exists es0. split; [done|]. left.
      apply String.eqb_eq in Eu as ->. by apply Hcur.
    + destruct (load_user_embeddings user h) as [[es|e] h1] eqn:El; apply load_fields in El as [s ->];
        intros [= <- <-]; (eexists; split; [done|]); [left; by apply Hcur|by right].
  - destruct (load_user_embeddings user h) as [[es|e] h1] eqn:El; apply load_fields in El as [s ->];
      intros [= <- <-]; (eexists; split; [done|]); [left; by apply Hcur|by right].
Qed.
End Cache.

(** A preview never compares against stale templates: after every sequence of calls that
    returned, the templates cached for preview frames are what loading that user's templates
    from the store as it is now, with the keys held now, gives. So every face in the reply to a
    preview request is compared with exactly the requesting user's current templates, or with
    nothing when they could not be loaded, and then nothing is cached. *)
Theorem preview_compares_current_templates `{ShowSqlite} `{RowOrder} `{NanEncoding} `{Subtle} `{Aead}
    `{Sha256} `{TpmDevice} kenv c s rl caps fac warm d h0 es h :
  saved s = None → handler_new kenv c s rl caps fac warm d = Ok h0 → reached h0 es h →
  (∀ u l, preview_embeddings h = Some (u, l) → current h u l) ∧
  (∀ env user jpeg faces dets fx h', rq_faces env = Ok dets →
     step (EvRequest env (ReqPreviewDetectFrame user)) h = Some (Replied (RespDetectFrame jpeg faces) fx h') →
     ∃ stored, faces = map (preview_face (threshold (recognition c)) stored) dets ∧
       (current h' user stored ∨ preview_embeddings h' = None ∧ stored = [])).
Proof.
  intros Hs Hnew Hr. pose proof (new_saved _ _ _ _ _ _ _ _ _ Hs Hnew) as Hok0.
  pose proof (reached_cache _ _ _ Hok0 Hr) as Hok. apply new_handler in Hnew as (Hc & Hcl & _).
  destruct (reached_lease _ _ _ Hcl Hr) as ((Hcf & _) & _ & _). split; [apply Hok|].
  intros env user jpeg faces dets fx h' Hf. cbn [step handle_with_cancel]. unfold handle_preview_detect_frame.
  destruct (acquire _ _ _) as [[cam|m] l]; [|done]. destruct (rq_capture env) as [f|m]; [|done].
  rewrite Hf. destruct (detect_and_match _ _ _) as [l0 h3] eqn:Ed.
  apply detect_compares in Ed; [|by apply (cache_kept h); [| | |right]].
  cbn [config with_lease] in Ed. rewrite Hcf, Hc in Ed.
  destruct (rq_jpeg env f); [|done]. intros [= _ <- _ <-]. exact Ed.
Qed.

(** ** What an authentication charges *)

Section Charge.
Context `{ShowSqlite} `{RowOrder} `{NanEncoding} `{Subtle} `{Aead} `{Sha256} `{TpmDevice}.

(** The calls that authenticate, with their user and intent. *)
Definition authenticates (e : Event) : option (RequestEnv * string * AuthIntent) :=
  match e with
  | EvRequest env (ReqAuthenticate user) => Some (env, user, IntentAuthenticate)
  | EvAuthenticate env user i _ => Some (env, user, i)
  | _ => None
  end.

(** A real attempt in which a face was seen and not recognised. *)
Definition wrong_guess (i : AuthIntent) (r : DaemonResponse) : bool :=
  match i, r with
  | IntentAuthenticate, RespAuthResult mr => negb (matched mr) && face_detected mr
  | _, _ => false
  end.

#[local] Abbreviation attempts s := (rate_limit_rows (db s)).

(** What was charged: one failure of the user, or nothing. *)
Definition charged_as (env : RequestEnv) (rl : RateLimiter) (user : string) (i : AuthIntent)
    (r : DaemonResponse) (s s' : FaceStore) : Prop :=
  if wrong_guess i r
  then ∃ s0, attempts s0 `sublist_of` attempts s ∧ s' = snd (record_failure rl (rq_wall env) user s0)
  else attempts s' `sublist_of` attempts s.

Lemma check_shrinks rl clock user s r s' : check rl clock user s = (r, s') →
  attempts s' `sublist_of` attempts s.
Proof.
  unfold check, ignore, string_err, check_rate_limit, cleanup_rate_limit, bind.
  assert (attempts (snd (exec (sql_delete_attempts (unix_now clock - as_i64 (limiter_window_secs rl))) s))
            `sublist_of` attempts s) as Hc.
  { destruct (exec _ s) as [[u|e] s1] eqn:E; cbn [snd].
    - apply exec_ok in E. injection E as _ <-. apply filterb_sublist.
    - by rewrite (exec_err _ _ _ _ E). }
  set (s1 := snd _) in *. clearbody s1. unfold query_count.
  destruct (exec _ s1) as [[n|e] s2] eqn:E; intros [= _ <-].
  - apply exec_ok in E. destruct (get_u32 0 _); [|done]. injection E as _ <-. done.
  - by rewrite (exec_err _ _ _ _ E).
Qed.

Lemma has_models_same user s r s' : has_models user s = (r, s') → db s' = db s.
Proof.
  unfold has_models, bind, query_count. destruct (exec _ s) as [[n|e] s1] eqn:E; intros [= _ <-].
  - apply exec_ok in E. destruct (get_u32 0 _); [|done]. by injection E as _ <-.
  - by apply exec_err in E.
Qed.

Lemma preflight_shrinks env user i ctx h r h' : preflight_authenticate_with_context env user i ctx h = (r, h') →
  attempts (store h') `sublist_of` attempts (store h).
Proof.
  unfold preflight_authenticate_with_context, pre_check_audited_with_context, pre_check_with_context.
  destruct (disabled _); [by intros [= _ <-]|]. destruct (_ && _ && _); [by intros [= _ <-]|].
  destruct (if _ && _ then _ else _); [by intros [= _ <-]|].
  destruct (has_models user (store h)) as [[[]|e] s1] eqn:Em; apply has_models_same in Em; rewrite <- Em;
    [|by destruct (suppress_unknown _); intros [= _ <-]|by intros [= _ <-]].
  destruct (check _ _ user s1) as [[[]|e] s2] eqn:Ec; apply check_shrinks in Ec; [|by intros [= _ <-]..].
  destruct (bool_decide _); [by intros [= _ <-]|]. by destruct (_ && _); intros [= _ <-].
Qed.

Lemma uncharged env rl user i r s s' : wrong_guess i r = false → same_store s s' →
  same_templates s s' ∧ charged_as env rl user i r s s'.
Proof.
  intros Hw Hd. split; [by apply same_store_templates|]. destruct Hd as [Hd _].
  unfold charged_as. by rewrite Hw, Hd.
Qed.

Lemma prechecked_charges env user i h r fx h' : saved (store h) = None →
  handle_authenticate_prechecked env user i h = Some (Replied r fx h') →
  same_templates (store h) (store h') ∧ charged_as env (rate_limiter h) user i r (store h) (store h').
Proof.
  intros Hs. unfold handle_authenticate_prechecked.
  destruct (refresh_fields (rq_keys env) h) as [(_ & Hrl & _) _].
  destruct (refresh_same (rq_keys env) h Hs) as [[Hd1 Hs1] _].
  set (h1 := refresh_software_sealer (rq_keys env) h) in *. clearbody h1.
  destruct (list_models user (store h1)) as [lm s] eqn:El. apply query_map_same in El as [Hd2 (Hs2 & _)].
  destruct lm as [models|]; [|intros [= <- _ <-]; apply uncharged; [by destruct i|cbn; split; cbn; congruence]].
  unfold load_user_embeddings.
  destruct (load_embeddings _ _ _ user _) as [ld s2] eqn:E2. apply load_same in E2 as [Hd3 Hs3].
  cbn [store with_store] in Hd3, Hs3. assert (same_store (store h) s2) as Hst by (split; congruence).
  pose proof Hst as [Hd _].
  destruct ld as [stored|m]; [|by intros [= <- _ <-]; apply uncharged; [destruct i|]].
  destruct (acquire_for_authentication _ _ _) as [[cam|m] l].
  2: { destruct (String.eqb _ _); intros [= <- _ <-]; by apply uncharged; [destruct i|]. }
  destruct (authenticate_with_embeddings _ _ _ _ _ _ _ _ _ _ _ _) as [[o es|]|]; [|done..].
  intros [= <- _ <-]. unfold charge. destruct o as [mr| |k m|]; [|by apply uncharged; destruct i..].
  assert (wrong_guess i (RespAuthResult mr) = negb (matched mr) && face_detected mr && charges_rate_limit i) as Hw
    by (destruct i; cbn; by rewrite ?andb_true_r, ?andb_false_r).
  destruct (_ && _ && _) eqn:Ew; [|by apply uncharged]. unfold charged_as. cbn [response_of_auth].
  rewrite Hw. cbn [store with_store with_lease rate_limiter]. split.
  - etrans; [by apply same_store_templates|apply record_templates].
  - exists s2. rewrite Hd, Hrl. by split.
Qed.

Lemma charged_from env rl user i r s s1 s' : attempts s1 `sublist_of` attempts s →
  charged_as env rl user i r s1 s' → charged_as env rl user i r s s'.
Proof.
  intros Hsub. unfold charged_as. destruct (wrong_guess i r); [|intros; by etrans].
  intros (s0 & Hs0 & ->). exists s0. split; [by etrans|done].
Qed.

Lemma admitted_charges env user i ctx h r fx h' : saved (store h) = None →
  match preflight_authenticate_with_context env user i ctx h with
  | (Some (r, es), h1) => Some (Replied r es h1)
  | (None, h1) => handle_authenticate_prechecked env user i h1
  end = Some (Replied r fx h') →
  same_templates (store h) (store h') ∧ charged_as env (rate_limiter h) user i r (store h) (store h').
Proof.
  intros Hs. destruct (preflight_authenticate_with_context env user i ctx h) as [x h1] eqn:E.
  pose proof (preflight_shrinks _ _ _ _ _ _ _ E) as Hsub.
  pose proof (preflight_templates _ _ _ _ _ _ _ E) as Htm.
  apply preflight_fields in E as ((_ & Hrl & _) & _ & _ & _ & Hcap). destruct x as [[r1 fx1]|].
  - intros [= <- _ <-]. split; [done|]. unfold charged_as. replace (wrong_guess i r1) with false; [done|].
    destruct i, r1 as [mr| | | | | | | | |]; try done. cbn in *. apply orb_false_iff in Hcap as [_ ->].
    by rewrite andb_false_r.
  - intros Hp. apply prechecked_charges in Hp as [Ht Hc]; [|by destruct Htm as (_ & _ & ->)].
    split; [by etrans|]. apply (charged_from _ _ _ _ _ _ (store h1)); [done|]. by rewrite <- Hrl.
Qed.
End Charge.

(** Only a wrong guess is charged. An authentication that returns leaves the stored
    templates as they were, and the failure table without anything new, except when it was a
    real attempt (not a test) whose scan saw a face and matched none: then exactly one failure
    is recorded, for the user who was asked for, at the time of the attempt. A refusal, a
    cancellation, a camera or storage error, an empty chair and a match are free. *)
Theorem only_wrong_guesses_are_charged `{ShowSqlite} `{RowOrder} `{NanEncoding} `{Subtle} `{Aead} `{Sha256}
    `{TpmDevice} e env user i h r fx h' :
  saved (store h) = None → authenticates e = Some (env, user, i) → step e h = Some (Replied r fx h') →
  same_templates (store h) (store h') ∧ charged_as env (rate_limiter h) user i r (store h) (store h').
Proof.
  intros Hs Ha. destruct e as [env' request|env' user' i' ctx|now]; [destruct request|..]; try done;
    cbn in Ha; injection Ha as -> -> <-; cbn [step handle_with_cancel]; by apply admitted_charges.
Qed.

(** ** A concrete daemon: a key is minted, alice enrolls, a preview frame is shown, a stranger tries *)
#[local] Existing Instance show_sqlite_plain.
#[local] Existing Instance sum_hash.
#[local] Existing Instance no_tpm.
#[local] Existing Instance toy_aead.
#[local] Existing Instance nan_x86.
#[local] Existing Instance subtle_reference.

Fixpoint run_all `{ShowSqlite} `{RowOrder} `{NanEncoding} `{Subtle} `{Aead} `{Sha256} `{TpmDevice}
    (es : list Event) (h : Handler) : option Handler :=
  match es with
  | [] => Some h
  | e :: es' => match step e h with Some (Replied _ _ h') => run_all es' h' | _ => None end
  end.

Lemma run_all_reached `{ShowSqlite} `{RowOrder} `{NanEncoding} `{Subtle} `{Aead} `{Sha256} `{TpmDevice}
    h0 es h : run_all es h0 = Some h → reached h0 es h.
Proof.
  assert (∀ es1 h1, reached h0 es1 h1 → run_all es h1 = Some h → reached h0 (es1 ++ es) h) as Hgo.
  2: { apply (Hgo []). constructor. }
  induction es as [|e es IH]; intros es1 h1 Hr; cbn [run_all].
  { intros [= <-]. by rewrite app_nil_r. }
  destruct (step e h1) as [[r fx h'|]|] eqn:Es; [|done..]. intros Hrun.
  rewrite (cons_middle e es1 es), (app_assoc es1 [e] es). apply (IH _ h'); [|done]. by eapply reached_step.
Qed.

Definition infrared : CameraCaps :=
  {| is_ir := true; fingerprint := {| vid := Some "046d"; pid := Some "085e"; serial := None; by_path := None |};
     applied_quirks := []; ir_texture_scale := NotY16 |}.

Definition stranger_tick (k : nat) : Tick :=
  {| t_loop := nanos (2 * Z.of_nat k); t_cancelled := false; t_no_face := nanos (2 * Z.of_nat k);
     t_capture := Ok good_frame; t_faces := Ok [(good_face, angle 20)]; t_done := nanos (2 * Z.of_nat k) |}.

Definition daily_env_with (ticks : nat → Tick) (now : Z) : RequestEnv :=
  {| rq_cancelled := false; rq_open := Ok {| cam_caps := infrared; pending_settle_frames := 0 |};
     rq_discard _ := (false, Ok tt); rq_cancelled_after := false; rq_capture := Ok good_frame;
     rq_faces := Ok [(good_face, angle 0)]; rq_jpeg _ := Ok [0]; rq_devices := Ok []; rq_now := nanos now;
     rq_keys := calm_env; rq_host := {| env_var _ := None; procfs_lid := LidIsAbsent; wall := Some now |};
     rq_wall_at _ := Some now; rq_attempt_started := 0; rq_acquire_failed := 0; rq_auth_cancelled := false;
     rq_start := 0; rq_armed := 0; rq_ticks := ticks; rq_enroll := turning_env;
     rq_nonces _ := repeat 5 12; rq_wall := Some now; rq_fuel := 20 |}.

Definition daily_env : Z → RequestEnv := daily_env_with stranger_tick.

#[local] Abbreviation first_daemon :=
  (handler_new calm_env config_default (fresh_store (λ _, None)) {| max_failures := 5; limiter_window_secs := 60 |}
     infrared true None ∅).
#[local] Abbreviation morning :=
  [EvRequest (daily_env 10) (ReqEnroll "alice" "default"); EvRequest (daily_env 20) (ReqPreviewDetectFrame "alice")].
#[local] Abbreviation knock := (EvRequest (daily_env 30) (ReqAuthenticate "alice")).

(** What the sequence leaves: an open camera, and how many templates the preview holds. *)
Definition left_open (h : Handler) : bool := holds_camera (lease h).
Definition previewed (h : Handler) : option (string * nat) :=
  match preview_embeddings h with Some (u, l) => Some (u, length l) | None => None end.

Lemma morning_runs : ∃ h0 h, first_daemon = Ok h0 ∧ run_all morning h0 = Some h ∧
  left_open h = true ∧ previewed h = Some ("alice", 10%nat) ∧ saved (store h) = None.
Proof.
  assert (match first_daemon with
    | Ok h0 => match run_all morning h0 with
               | Some h => Some (left_open h, previewed h, is_some (saved (store h)))
               | None => None end
    | Err _ => None end = Some (true, Some ("alice", 10%nat), false)) as Hc by (vm_compute; reflexivity).
  revert Hc. destruct first_daemon as [h0|]; [|done]. destruct (run_all morning h0) as [h|] eqn:Er; [|done].
  intros [= H1 H2 H3]. exists h0, h. split_and!; try done. by destruct (saved (store h)).
Qed.

Lemma camera_follows_lease_policy_witness : ∃ h0 h, first_daemon = Ok h0 ∧ run_all morning h0 = Some h ∧
  left_open h = true ∧ closed (lease (expire_camera (nanos 23) h)).
Proof.
  destruct morning_runs as (h0 & h & Hn & Hr & Ho & _ & _). exists h0, h.
  split; [exact Hn|]. split; [exact Hr|]. split; [exact Ho|].
  destruct (camera_follows_lease_policy calm_env config_default (fresh_store (λ _, None))
    {| max_failures := 5; limiter_window_secs := 60 |} infrared true None ∅ h0 morning h Hn
    (run_all_reached h0 morning h Hr)) as (_ & _ & Htick). apply (Htick (nanos 23)).
  intros e He. apply elem_of_cons in He as [->|He]; [vm_compute; discriminate|].
  apply list_elem_of_singleton in He as ->. vm_compute. discriminate.
Defined.

Lemma preview_compares_current_templates_witness : ∃ h0 h l, first_daemon = Ok h0 ∧ run_all morning h0 = Some h ∧
  length l = 10%nat ∧ current h "alice" l.
Proof.
  destruct morning_runs as (h0 & h & Hn & Hr & _ & Hp & _).
  destruct (preview_compares_current_templates calm_env config_default (fresh_store (λ _, None))
    {| max_failures := 5; limiter_window_secs := 60 |} infrared true None ∅ h0 morning h eq_refl Hn
    (run_all_reached h0 morning h Hr)) as [Hc _].
  unfold previewed in Hp. destruct (preview_embeddings h) as [[u l]|]; [|discriminate]. injection Hp as -> Hl.
  exists h0, h, l. split; [exact Hn|]. split; [exact Hr|]. split; [exact Hl|]. exact (Hc "alice" l eq_refl).
Defined.

(** The stranger's attempt on the same daemon. *)
Lemma knock_is_wrong : ∃ h0 h r fx h', first_daemon = Ok h0 ∧ run_all morning h0 = Some h ∧
  saved (store h) = None ∧ step knock h = Some (Replied r fx h') ∧ wrong_guess IntentAuthenticate r = true.
Proof.
  assert (match first_daemon with
    | Ok h0 => match run_all morning h0 with
               | Some h => match step knock h with
                           | Some (Replied r _ _) => (wrong_guess IntentAuthenticate r, is_some (saved (store h)))
                           | _ => (false, true) end
               | None => (false, true) end
    | Err _ => (false, true) end = (true, false)) as Hc by (vm_compute; reflexivity).
  revert Hc. destruct first_daemon as [h0|]; [|done]. destruct (run_all morning h0) as [h|] eqn:Er; [|done].
  destruct (step knock h) as [[r fx h'|]|] eqn:Es; [|done..]. intros [= H1 H2].
  exists h0, h, r, fx, h'. split_and!; try done. by destruct (saved (store h)).
Qed.

Lemma only_wrong_guesses_are_charged_witness : ∃ h h' s0,
  same_templates (store h) (store h') ∧
  store h' = snd (record_failure (rate_limiter h) (Some 30) "alice" s0).
Proof.
  destruct knock_is_wrong as (h0 & h & r & fx & h' & _ & _ & Hs & Hk & Hw).
  destruct (only_wrong_guesses_are_charged knock (daily_env 30) "alice" IntentAuthenticate h r fx h' Hs eq_refl Hk)
    as [Ht Hc].
  unfold charged_as in Hc. rewrite Hw in Hc. destruct Hc as (s0 & _ & Hc). exists h, h', s0. by split.
Defined.
