(* ===== verification/Current.v ===== *)
(** * The request in flight and the capture slot ([crates/facelock-daemon/src/server.rs])

    Every D-Bus call runs in its own task. A call that captures first claims the [CaptureSlot],
    an atomic flag; an authentication or enrollment then publishes its cancel token in
    [CurrentRequest], which suspend, [ReleaseCamera] and shutdown reach without the handler
    mutex. This file interleaves those calls at the granularity of their atomic operations: one
    step is one access to an atomic or one critical section of [CurrentRequest]'s own mutex.
    Counters are unbounded here: they would have to wrap a [u64] to differ.

    Requests are numbered, and request [i] owns token [i]. *)

From stdpp Require Import gmap fin_maps functions.
From S2P Require Import Prelude.

(** Where a request is. [cp] is the cancellation epoch an authentication read at its
    checkpoint; [g] is a generation; a refused installation has none. *)
Inductive Pc :=
  | AuthStart | AuthAdmitted | AuthPreflight (cp : nat) | AuthClaimed (cp : nat)
  | AuthRunning (cp : nat) (g : option nat) | AuthFinishing
  | EnrollStart | EnrollClaimed | EnrollNumbered (g : nat) | EnrollRunning (g : nat)
  | EnrollReleased (g : nat)
  | PreviewStart | PreviewRunning
  | Ended.

Record Shared := {
  busy : bool;                          (* CaptureSlot::busy *)
  slot : option (nat * nat);            (* generation and token of the request in flight *)
  generation : nat;
  cancellation_epoch : nat;
  cancelled : gset nat;                 (* the tokens that are set *)
  departed : gset nat;                  (* callers whose connection is gone *)
  pcs : nat → Pc;
}.

(** ** The operations *)

Definition goto (i : nat) (pc : Pc) (s : Shared) : Shared :=
  {| busy := busy s; slot := slot s; generation := generation s;
     cancellation_epoch := cancellation_epoch s; cancelled := cancelled s; departed := departed s;
     pcs := <[i := pc]> (pcs s) |}.

Definition set_slot (x : option (nat * nat)) (s : Shared) : Shared :=
  {| busy := busy s; slot := x; generation := generation s;
     cancellation_epoch := cancellation_epoch s; cancelled := cancelled s; departed := departed s;
     pcs := pcs s |}.

Definition set_busy (b : bool) (s : Shared) : Shared :=
  {| busy := b; slot := slot s; generation := generation s;
     cancellation_epoch := cancellation_epoch s; cancelled := cancelled s; departed := departed s;
     pcs := pcs s |}.

(** [CancelToken::cancel] *)
Definition cancel_token (i : nat) (s : Shared) : Shared :=
  {| busy := busy s; slot := slot s; generation := generation s;
     cancellation_epoch := cancellation_epoch s; cancelled := {[i]} ∪ cancelled s;
     departed := departed s; pcs := pcs s |}.

(** [generation.fetch_add(1) + 1] *)
Definition next_generation (s : Shared) : nat * Shared :=
  let g := S (generation s) in
  (g, {| busy := busy s; slot := slot s; generation := g;
         cancellation_epoch := cancellation_epoch s; cancelled := cancelled s; departed := departed s;
         pcs := pcs s |}).

(** [CaptureSlot::try_acquire]: the compare-and-exchange. *)
Definition try_acquire (s : Shared) : option Shared :=
  if busy s then None else Some (set_busy true s).

(** [CurrentRequest::cancel] *)
Definition cancel (s : Shared) : Shared :=
  let s := {| busy := busy s; slot := slot s; generation := generation s;
              cancellation_epoch := S (cancellation_epoch s); cancelled := cancelled s;
              departed := departed s; pcs := pcs s |} in
  match slot s with Some (_, token) => cancel_token token s | None => s end.

Definition install_unless_cancelled_since (token checkpoint : nat) (s : Shared) : option nat * Shared :=
  if negb (cancellation_epoch s =? checkpoint)%nat then (None, cancel_token token s)
  else let '(g, s) := next_generation s in (Some g, set_slot (Some (g, token)) s).

(** Dropping a [CurrentRequestGuard]. *)
Definition drop_current_guard (g : nat) (s : Shared) : Shared :=
  if is_some_and (λ '(installed, _), (installed =? g)%nat) (slot s) then set_slot None s else s.

(** [caller_departed]: a [NameOwnerChanged] that means the watched caller is gone. *)
Definition caller_departed (watched name : string) (new_owner : option string) : bool :=
  String.eqb name watched && match new_owner with None => true | Some o => is_empty_str o end.

(** The next atomic step of request [i]. A capture may end at any step of the others, by
    returning or by a panic that unwinds: the guards are dropped alike. *)
Definition advance (i : nat) (s : Shared) : Shared :=
  match pcs s i with
  | AuthStart => if busy s then goto i Ended s else goto i AuthAdmitted s   (* the early busy check *)
  | AuthAdmitted => goto i (AuthPreflight (cancellation_epoch s)) s
  | AuthPreflight cp =>
      match try_acquire s with None => goto i Ended s | Some s => goto i (AuthClaimed cp) s end
  | AuthClaimed cp =>
      let '(g, s) := install_unless_cancelled_since i cp s in goto i (AuthRunning cp g) s
  | AuthRunning cp g =>
      goto i AuthFinishing (match g with Some g => drop_current_guard g s | None => s end)
  | AuthFinishing => goto i Ended (set_busy false s)
  | EnrollStart =>
      match try_acquire s with None => goto i Ended s | Some s => goto i EnrollClaimed s end
  | EnrollClaimed => let '(g, s) := next_generation s in goto i (EnrollNumbered g) s
  | EnrollNumbered g => goto i (EnrollRunning g) (set_slot (Some (g, i)) s)
  | EnrollRunning g => goto i (EnrollReleased g) (set_busy false s)
  | EnrollReleased g => goto i Ended (drop_current_guard g s)
  | PreviewStart =>
      match try_acquire s with None => goto i Ended s | Some s => goto i PreviewRunning s end
  | PreviewRunning => goto i Ended (set_busy false s)
  | Ended => s
  end.

(** A request ended before it captured: a gate of the preflight answered. *)
Definition answer_early (i : nat) (s : Shared) : Shared :=
  match pcs s i with AuthPreflight _ => goto i Ended s | _ => s end.

(** The caller of request [i] leaves the bus: its watch sets its token. *)
Definition depart (i : nat) (s : Shared) : Shared :=
  let s := cancel_token i s in
  {| busy := busy s; slot := slot s; generation := generation s;
     cancellation_epoch := cancellation_epoch s; cancelled := cancelled s;
     departed := {[i]} ∪ departed s; pcs := pcs s |}.

(** ** Interleavings *)

Inductive step : Shared → Shared → Prop :=
  | step_advance i s : step s (advance i s)
  | step_answer i s : step s (answer_early i s)
  | step_cancel s : step s (cancel s)
  | step_depart i s : step s (depart i s).

(** Any calls, none begun. *)
Definition initial (s : Shared) : Prop :=
  busy s = false ∧ slot s = None ∧ cancelled s = ∅ ∧
  ∀ i, pcs s i = AuthStart ∨ pcs s i = EnrollStart ∨ pcs s i = PreviewStart.

Inductive reachable : Shared → Prop :=
  | reachable_initial s : initial s → reachable s
  | reachable_step s s' : reachable s → step s s' → reachable s'.

(** ** The invariant *)

(** The request holds the capture guard. *)
Definition holds_capture (pc : Pc) : bool :=
  match pc with
  | AuthClaimed _ | AuthRunning _ _ | AuthFinishing | EnrollClaimed | EnrollNumbered _ | EnrollRunning _
  | PreviewRunning => true
  | _ => false
  end.

(** The generation a request drew. *)
Definition drawn (pc : Pc) : option nat :=
  match pc with
  | AuthRunning _ g => g
  | EnrollNumbered g | EnrollRunning g | EnrollReleased g => Some g
  | _ => None
  end.

(** The generation under which it is published, while its capture runs. *)
Definition published (pc : Pc) : option nat :=
  match pc with AuthRunning _ g => g | EnrollRunning g => Some g | _ => None end.

Definition checkpoint (pc : Pc) : option nat :=
  match pc with AuthPreflight cp | AuthClaimed cp | AuthRunning cp _ => Some cp | _ => None end.

Definition begun (pc : Pc) : bool :=
  match pc with AuthStart | AuthAdmitted | EnrollStart | PreviewStart => false | _ => true end.

Record Inv (s : Shared) : Prop := {
  inv_busy : ∀ i, holds_capture (pcs s i) = true → busy s = true;
  inv_alone : ∀ i j, holds_capture (pcs s i) = true → holds_capture (pcs s j) = true → i = j;
  inv_free : busy s = true → ∃ i, holds_capture (pcs s i) = true;
  inv_drawn : ∀ i g, drawn (pcs s i) = Some g → (g ≤ generation s)%nat;
  inv_unique : ∀ i j g, drawn (pcs s i) = Some g → drawn (pcs s j) = Some g → i = j;
  inv_published : ∀ i g, published (pcs s i) = Some g → slot s = Some (g, i);
  inv_slot : ∀ g i, slot s = Some (g, i) → drawn (pcs s i) = Some g;
  inv_checkpoint : ∀ i cp, checkpoint (pcs s i) = Some cp → (cp ≤ cancellation_epoch s)%nat;
  inv_refused : ∀ i cp, pcs s i = AuthRunning cp None → i ∈ cancelled s ∧ (cp < cancellation_epoch s)%nat;
  inv_seen : ∀ i cp g, pcs s i = AuthRunning cp g → (cp < cancellation_epoch s)%nat → i ∈ cancelled s;
  inv_cause : ∀ i cp, checkpoint (pcs s i) = Some cp → i ∈ cancelled s →
    i ∈ departed s ∨ (cp < cancellation_epoch s)%nat;
  inv_fresh : ∀ i, begun (pcs s i) = false → i ∈ cancelled s → i ∈ departed s;
}.

Lemma initial_inv s : initial s → Inv s.
Proof.
  intros (Hb & Hs & Hc & Hpc).
  assert (∀ i, holds_capture (pcs s i) = false ∧ drawn (pcs s i) = None ∧ published (pcs s i) = None ∧
    checkpoint (pcs s i) = None) as Hnone.
  { intros i. by destruct (Hpc i) as [->|[->| ->]]. }
  split; intros; try (destruct (Hnone i) as (?&?&?&?)); try congruence.
  - destruct (Hpc i) as [E|[E|E]]; rewrite E in *; congruence.
  - destruct (Hpc i) as [E|[E|E]]; rewrite E in *; congruence.
  - rewrite Hc in *. set_solver.
Qed.

(** Case analysis on who the stepping request is. *)
Ltac who :=
  repeat match goal with
  | H : context [decide (?i = ?j)] |- _ => destruct (decide (i = j)) as [<-|?]; simplify_eq/=
  | |- context [decide (?i = ?j)] => destruct (decide (i = j)) as [<-|?]; simplify_eq/=
  end.

Ltac use_inv I :=
  destruct I as [Ibusy Ialone Ifree Idrawn Iunique Ipub Islot Icp Iref Iseen Icause Ifresh].

(** A running authentication is published, or its token is set. *)
Lemma running_published s i cp g : Inv s → pcs s i = AuthRunning cp g →
  (∃ g0, g = Some g0 ∧ slot s = Some (g0, i)) ∨ i ∈ cancelled s.
Proof.
  intros I E. destruct g as [g|].
  - left. exists g. split; [done|]. apply (inv_published s I). by rewrite E.
  - right. by apply (inv_refused s I i cp).
Qed.

Lemma checkpoint_le s i cp : Inv s → checkpoint (pcs s i) = Some cp → (cp ≤ cancellation_epoch s)%nat.
Proof. intros I. apply (inv_checkpoint s I). Qed.

Lemma cancel_inv s : Inv s → Inv (cancel s).
Proof.
  intros I. assert (cancelled s ⊆ cancelled (cancel s)) as Hsub.
  { unfold cancel, cancel_token. destruct (slot _) as [[??]|]; cbn; set_solver. }
  assert (cancellation_epoch (cancel s) = S (cancellation_epoch s)) as He.
  { unfold cancel, cancel_token. by destruct (slot _) as [[??]|]. }
  assert (∀ i, i ∈ cancelled (cancel s) → i ∈ cancelled s ∨ ∃ g, slot s = Some (g, i)) as Hnew.
  { intros i. unfold cancel, cancel_token. destruct (slot _) as [[g t]|] eqn:Es; cbn in Es |- *; [|auto].
    intros [->%elem_of_singleton|]%elem_of_union; [right; by exists g|by left]. }
  assert (∀ g i, slot s = Some (g, i) → i ∈ cancelled (cancel s)) as Hslot.
  { intros g i Es. unfold cancel, cancel_token. cbn. rewrite Es. cbn. set_solver. }
  assert (busy (cancel s) = busy s ∧ slot (cancel s) = slot s ∧ generation (cancel s) = generation s ∧
    departed (cancel s) = departed s ∧ pcs (cancel s) = pcs s) as (Hb & Hs & Hg & Hd & Hp).
  { unfold cancel, cancel_token. cbn. by destruct (slot s) as [[??]|]. }
  pose proof (running_published s) as Hrun. use_inv I.
  split; rewrite ?Hb, ?Hs, ?Hg, ?Hd, ?Hp, ?He; try done.
  - intros i cp Ec. apply Icp in Ec. lia.
  - intros i cp Ec. destruct (Iref i cp Ec). auto with lia.
  - intros i cp g Ec _. destruct (Hrun i cp g) as [(g0 & _ & Es)|]; eauto. by split.
  - intros i cp Ec _. apply Icp in Ec. right. lia.
  - intros i Eb [Hc|[g Es]]%Hnew; [auto|]. apply Islot in Es. by destruct (pcs s i).
Qed.

Lemma depart_inv i s : Inv s → Inv (depart i s).
Proof.
  intros I. use_inv I. split; cbn; eauto.
  - intros j cp Ec. destruct (Iref j cp Ec). set_solver.
  - intros j cp g Ec Hlt. specialize (Iseen j cp g Ec Hlt). set_solver.
  - intros j cp Ec [->%elem_of_singleton|Hc]%elem_of_union; [set_solver|].
    destruct (Icause j cp Ec Hc); [set_solver|auto].
  - intros j Eb [->%elem_of_singleton|Hc]%elem_of_union; [set_solver|]. specialize (Ifresh j Eb Hc). set_solver.
Qed.

(** A request that moves on without the slot or a guard. *)
Lemma goto_inv i pc s : Inv s → holds_capture pc = holds_capture (pcs s i) →
  drawn pc = None → drawn (pcs s i) = None →
  (∀ cp, checkpoint pc = Some cp → checkpoint (pcs s i) = Some cp ∨
    begun (pcs s i) = false ∧ cp = cancellation_epoch s) →
  (begun pc = false → begun (pcs s i) = false) → (∀ cp g, pc ≠ AuthRunning cp g) → Inv (goto i pc s).
Proof.
  intros I Hh Hd Hd0 Hcp Hbe Hnr. use_inv I.
  assert (published pc = None) as Hp by (destruct pc; cbn in *; try done; by destruct (Hnr cp g)).
  split; cbn; unfold insert, fn_insert; intros; who; rewrite ?Hh, ?Hd, ?Hp in *; try done; eauto.
  - destruct (Ifree ltac:(done)) as [j Hj]. exists j. destruct (decide (i = j)) as [->|]; [by rewrite Hh|done].
  - exfalso. match goal with H : slot s = _ |- _ => apply Islot in H end. congruence.
  - destruct (Hcp cp) as [?|[_ ->]]; eauto.
  - exfalso. by eapply Hnr.
  - exfalso. by eapply Hnr.
  - destruct (Hcp cp) as [?|[Hb ->]]; eauto.
Qed.

Lemma claim_inv i pc s : Inv s → busy s = false →
  holds_capture pc = true → drawn pc = None → drawn (pcs s i) = None → begun pc = true →
  (∀ cp, checkpoint pc = Some cp → checkpoint (pcs s i) = Some cp) → (∀ cp g, pc ≠ AuthRunning cp g) →
  Inv (goto i pc (set_busy true s)).
Proof.
  intros I Hfree Hh Hd Hd0 Hbe Hcp Hnr. use_inv I.
  assert (published pc = None) as Hp by (destruct pc; cbn in *; try done; by destruct (Hnr cp g)).
  assert (∀ j, holds_capture (pcs s j) = false) as Hno.
  { intros j. destruct (holds_capture (pcs s j)) eqn:E; [|done]. apply Ibusy in E. congruence. }
  split; cbn; unfold insert, fn_insert; intros; who; rewrite ?Hno, ?Hd, ?Hp in *; try done; eauto.
  - exists i. by rewrite decide_True by done.
  - exfalso. match goal with E : slot s = _ |- _ => apply Islot in E end. congruence.
  - exfalso. by eapply Hnr.
  - exfalso. by eapply Hnr.
  - congruence.
Qed.

(** Giving the capture guard back: [pc] may still hold the guard of [CurrentRequest]. *)
Lemma release_inv i pc s : Inv s → holds_capture (pcs s i) = true → holds_capture pc = false →
  drawn pc = drawn (pcs s i) → published pc = None → checkpoint pc = None → begun pc = true →
  Inv (goto i pc (set_busy false s)).
Proof.
  intros I Hh0 Hh Hd Hp Hcp Hbe. use_inv I.
  assert (∀ j, i ≠ j → holds_capture (pcs s j) = false) as Hno.
  { intros j Hij. destruct (holds_capture (pcs s j)) eqn:E; [|done]. destruct Hij. by apply Ialone. }
  split; cbn; unfold insert, fn_insert; intros; who; rewrite ?Hd, ?Hp, ?Hno in * by done; try done; eauto.
  - destruct pc; cbn in *; congruence.
Qed.

(** Taking a number that nobody has. *)
Lemma draw_inv i s : Inv s → pcs s i = EnrollClaimed →
  Inv (let '(g, s) := next_generation s in goto i (EnrollNumbered g) s).
Proof.
  intros I Ei. use_inv I. unfold next_generation.
  assert (∀ j, drawn (pcs s j) ≠ Some (S (generation s))) as Hnew.
  { intros j Hj. apply Idrawn in Hj. lia. }
  split; cbn; unfold insert, fn_insert; intros; who; try done; try (by eauto).
  - apply Ibusy with i. by rewrite Ei.
  - apply Ialone; [done|by rewrite Ei].
  - apply Ialone; [by rewrite Ei|done].
  - exists i. by rewrite decide_True by done.
  - by destruct (Hnew i0).
  - by destruct (Hnew j).
  - match goal with E : slot s = _ |- _ => apply Islot in E end. rewrite Ei in *. done.
Qed.

(** Publishing under a number of one's own, holding the capture guard. *)
Lemma publish_inv i g s : Inv s → pcs s i = EnrollNumbered g →
  Inv (goto i (EnrollRunning g) (set_slot (Some (g, i)) s)).
Proof.
  intros I Ei. use_inv I.
  assert (∀ j, i ≠ j → published (pcs s j) = None) as Hno.
  { intros j Hij. destruct (published (pcs s j)) as [g'|] eqn:E; [|done]. destruct Hij.
    apply Ialone; [by rewrite Ei|]. by destruct (pcs s j). }
  split; cbn; unfold insert, fn_insert; intros; who; rewrite ?Hno in * by done; try done; try (by eauto).
  all: try (by (apply Ialone || apply Ibusy with i); rewrite ?Ei).
  all: try (by symmetry; apply Ialone; rewrite ?Ei).
  - destruct (Ifree ltac:(done)) as [j Hj]. exists j. destruct (decide (i = j)) as [->|]; [done|done].
  - apply Idrawn with i. by rewrite Ei.
  - match goal with E : drawn _ = _ |- _ => apply (Iunique _ i) in E; [congruence|by rewrite Ei] end.
  - match goal with E : drawn _ = _ |- _ => eapply (Iunique i) in E; [congruence|by rewrite Ei] end.
Qed.

Lemma install_inv i cp s : Inv s → pcs s i = AuthClaimed cp →
  Inv (let '(g, s) := install_unless_cancelled_since i cp s in goto i (AuthRunning cp g) s).
Proof.
  intros I Ei. pose proof (checkpoint_le s i cp I ltac:(by rewrite Ei)) as Hle. use_inv I.
  assert (∀ j, drawn (pcs s j) ≠ Some (S (generation s))) as Hnew.
  { intros j Hj. apply Idrawn in Hj. lia. }
  assert (∀ j, i ≠ j → published (pcs s j) = None) as Hno.
  { intros j Hij. destruct (published (pcs s j)) as [g'|] eqn:E; [|done]. destruct Hij.
    apply Ialone; [by rewrite Ei|]. by destruct (pcs s j). }
  unfold install_unless_cancelled_since. destruct (Nat.eqb_spec (cancellation_epoch s) cp) as [He|He]; cbn [negb].
  - split; cbn; unfold insert, fn_insert; intros; who; rewrite ?Hno in * by done; try done; try (by eauto).
    + apply Ibusy with i. by rewrite Ei.
    + apply Ialone; [done|by rewrite Ei].
    + apply Ialone; [by rewrite Ei|done].
    + exists i. by rewrite decide_True by done.
    + by destruct (Hnew i0).
    + by destruct (Hnew j).
    + lia.
    + apply Icause; [by rewrite Ei|done].
  - split; cbn; unfold insert, fn_insert; intros; who; rewrite ?Hno in * by done; try done; try (by eauto).
    + apply Ibusy with i. by rewrite Ei.
    + apply Ialone; [done|by rewrite Ei].
    + apply Ialone; [by rewrite Ei|done].
    + exists i. by rewrite decide_True by done.
    + match goal with E : slot s = _ |- _ => apply Islot in E end. rewrite Ei in *. done.
    + split; [set_solver|lia].
    + destruct (Iref i0 cp0); [done|]. set_solver.
    + set_solver.
    + match goal with E : pcs s _ = _ |- _ => specialize (Iseen _ _ _ E) end. set_solver.
    + right. lia.
    + match goal with E : checkpoint _ = _ |- _ => apply (Icause i0) in E; set_solver end.
    + apply Ifresh; [done|]. set_solver.
Qed.

(** Dropping one's guard of [CurrentRequest] clears one's own entry and no other. *)
Lemma drop_inv i pc s : Inv s → holds_capture pc = holds_capture (pcs s i) →
  drawn pc = None → published pc = None → checkpoint pc = None → begun pc = true →
  Inv (goto i pc (match drawn (pcs s i) with Some g => drop_current_guard g s | None => s end)).
Proof.
  intros I Hh Hd Hp Hcp Hbe. use_inv I.
  set (s1 := match drawn (pcs s i) with Some g => drop_current_guard g s | None => s end).
  assert (∀ g j, slot s1 = Some (g, j) ↔ slot s = Some (g, j) ∧ i ≠ j) as Hslot.
  { intros g j. subst s1. destruct (drawn (pcs s i)) as [g0|] eqn:Ed.
    - unfold drop_current_guard. destruct (slot s) as [[g1 t]|] eqn:Es; cbn.
      + destruct (Nat.eqb_spec g1 g0) as [->|Hg]; cbn; rewrite ?Es.
        * split; [done|]. intros [[= <- <-] Hij]. destruct Hij. eapply Iunique; [done|]. by apply Islot.
        * split; [|by intros [? _]]. intros E. split; [done|]. intros <-. simplify_eq.
          specialize (Islot g i eq_refl). congruence.
      + rewrite Es. split; [done|by intros [? _]].
    - split; [|by intros [? _]]. intros E. split; [done|]. intros <-. apply Islot in E. congruence. }
  assert (busy s1 = busy s ∧ generation s1 = generation s ∧ cancellation_epoch s1 = cancellation_epoch s ∧
    cancelled s1 = cancelled s ∧ departed s1 = departed s ∧ pcs s1 = pcs s) as (Hb & Hg & He & Hc & Hde & Hps).
  { subst s1. destruct (drawn (pcs s i)); [|by repeat split]. unfold drop_current_guard.
    destruct (is_some_and _ _); by repeat split. }
  clearbody s1. split; cbn; rewrite ?Hb, ?Hg, ?He, ?Hc, ?Hde, ?Hps; unfold insert, fn_insert; intros; who;
    rewrite ?Hh, ?Hd, ?Hp, ?Hcp, ?Hbe in *; try done; try (by eauto).
  - destruct (Ifree ltac:(done)) as [j Hj]. exists j. destruct (decide (i = j)) as [->|]; [by rewrite Hh|done].
  - apply Hslot. eauto.
  - by match goal with E : slot s1 = _ |- _ => apply Hslot in E as [_ ?] end.
  - match goal with E : slot s1 = _ |- _ => apply Hslot in E as [E _] end. eauto.
Qed.

Lemma advance_inv i s : Inv s → Inv (advance i s).
Proof.
  intros I. unfold advance, try_acquire. destruct (pcs s i) eqn:Ei.
  - destruct (busy s); apply goto_inv; rewrite ?Ei; cbn; (done || auto).
  - apply goto_inv; rewrite ?Ei; cbn; try done. intros cp [= <-]. by right.
  - destruct (busy s) eqn:Eb; [apply goto_inv|apply claim_inv]; rewrite ?Ei; cbn; (done || auto).
  - by apply install_inv.
  - pose proof (drop_inv i AuthFinishing s I) as Hd. rewrite Ei in Hd. cbn in Hd. auto.
  - apply release_inv; rewrite ?Ei; done.
  - destruct (busy s) eqn:Eb; [apply goto_inv|apply claim_inv]; rewrite ?Ei; cbn; (done || auto).
  - by apply draw_inv.
  - by apply publish_inv.
  - apply release_inv; rewrite ?Ei; done.
  - pose proof (drop_inv i Ended s I) as Hd. rewrite Ei in Hd. cbn in Hd. auto.
  - destruct (busy s) eqn:Eb; [apply goto_inv|apply claim_inv]; rewrite ?Ei; cbn; (done || auto).
  - apply release_inv; rewrite ?Ei; done.
  - done.
Qed.

Lemma answer_early_inv i s : Inv s → Inv (answer_early i s).
Proof.
  intros I. unfold answer_early. destruct (pcs s i) eqn:Ei; try done.
  apply goto_inv; rewrite ?Ei; cbn; done.
Qed.

Lemma reachable_inv s : reachable s → Inv s.
Proof.
  induction 1 as [s Hi|s s' _ IH Hs]; [by apply initial_inv|].
  destruct Hs; [by apply advance_inv|by apply answer_early_inv|by apply cancel_inv|by apply depart_inv].
Qed.

(** A cancellation reaches what is published. *)
Lemma cancel_reaches s i g : Inv s → published (pcs s i) = Some g → i ∈ cancelled (cancel s).
Proof.
  intros I Hp. apply (inv_published s I) in Hp. unfold cancel, cancel_token. cbn. rewrite Hp. cbn. set_solver.
Qed.

(** ** Properties *)

(** C25.  No cancellation is lost, and none is misdirected, however the calls interleave: at
    any moment at most one call captures, exactly while the slot is busy; a suspend, a
    [ReleaseCamera] or a shutdown sets the token of a published capture; an authentication that
    captures has its token set if any of these came after its checkpoint; and its token is set
    only by one of these or because its own caller left. *)
Theorem cancellation_reaches_the_capture s : reachable s →
  (∀ i j, holds_capture (pcs s i) = true → holds_capture (pcs s j) = true → i = j) ∧
  (busy s = true ↔ ∃ i, holds_capture (pcs s i) = true) ∧
  (∀ i g, published (pcs s i) = Some g → i ∈ cancelled (cancel s)) ∧
  (∀ i cp g, pcs s i = AuthRunning cp g →
     ((cp < cancellation_epoch s)%nat → i ∈ cancelled s) ∧
     (i ∈ cancelled s → i ∈ departed s ∨ (cp < cancellation_epoch s)%nat)).
Proof.
  intros Hr. apply reachable_inv in Hr as I. split; [apply (inv_alone s I)|].
  split; [split; [apply (inv_free s I)|intros [i Hi]; by apply (inv_busy s I i)]|].
  split; [intros i g; by apply cancel_reaches|]. intros i cp g E. split; [apply (inv_seen s I i cp g E)|].
  apply (inv_cause s I). by rewrite E.
Qed.

(** ** Witness: an enrollment ends late, under its successor *)

Definition two_calls : Shared := {|
  busy := false; slot := None; generation := 0; cancellation_epoch := 0; cancelled := ∅; departed := ∅;
  pcs i := if (i =? 0)%nat then EnrollStart else AuthStart |}.

(** Request 0 enrolls and gives the capture back; request 1 authenticates, is published; only
    then request 0 drops its guard, and a suspend arrives. *)
Definition late_guard : Shared :=
  let enrolled := Nat.iter 4 (advance 0) two_calls in
  let both := Nat.iter 4 (advance 1) enrolled in
  advance 0 both.

Lemma iter_reachable i n s : reachable s → reachable (Nat.iter n (advance i) s).
Proof. intros Hr. induction n as [|n IH]; [done|]. cbn. eapply reachable_step; [exact IH|constructor]. Qed.

Lemma late_guard_reachable : reachable late_guard.
Proof.
  eapply reachable_step; [|constructor]. apply iter_reachable, iter_reachable, reachable_initial.
  split; [done|]. split; [done|]. split; [done|]. intros i. cbn. destruct (i =? 0)%nat; auto.
Qed.

Lemma cancellation_reaches_the_capture_witness :
  slot late_guard = Some (2%nat, 1%nat) ∧ 1%nat ∈ cancelled (cancel late_guard).
Proof.
  split; [vm_compute; reflexivity|].
  destruct (cancellation_reaches_the_capture late_guard late_guard_reachable) as (_ & _ & Hc & _).
  apply (Hc 1%nat 2%nat). vm_compute. reflexivity.
Defined.
