(* ===== verification/Daemon.v ===== *)
(** * The handler behind its mutex ([crates/facelock-daemon/src/server.rs])

    Requests, the poll loop and the suspend watcher reach the handler through one
    [std::sync::Mutex]. A call that panics poisons it, and nothing in the daemon clears the
    poison: each of the three decides for itself what a poisoned lock means. A lock that is
    merely busy makes a caller wait or give up and changes nothing, so the calls that get the
    lock are a sequence. *)

From stdpp Require Import gmap.
From S2P Require Import Prelude Float32 Types Matching DeviceBinding Config Store StoreProofs RateLimit Gates AuditLog Auth Sealing KeyFile Keyring Embeddings Enroll EnrollProofs Handler HandlerProofs.

Section Daemon.
Context `{ShowSqlite} `{RowOrder} `{NanEncoding} `{Subtle} `{Aead} `{Sha256} `{TpmDevice}.

Record Daemon := { guarded : Handler; poisoned : bool }.

(** [try_lock], when nobody holds the lock. *)
Inductive TryLock := Locked (h : Handler) | Poisoned (h : Handler).

Definition try_lock (d : Daemon) : TryLock :=
  if poisoned d then Poisoned (guarded d) else Locked (guarded d).

(** [lock_handler_with_timeout_before_capture] on a free lock: poison is ignored. *)
Definition lock_handler_with_timeout (d : Daemon) : Handler :=
  match try_lock d with Locked h => h | Poisoned h => h end.

(** A request under the lock. The guard is dropped at the end; dropped by a panic, it poisons. *)
Definition serve (e : Event) (d : Daemon) : option Daemon :=
  match step e (lock_handler_with_timeout d) with
  | Some (Replied _ _ h) => Some {| guarded := h; poisoned := poisoned d |}
  | Some (HandlerPanicked h) => Some {| guarded := h; poisoned := true |}
  | None => None
  end.

(** One iteration of [poll_shutdown]: whether the loop ends, and what it did. [now_secs] and
    [last_activity] are in seconds, [now] is the instant. *)
Definition poll_iteration (idle_timeout_secs now_secs last_activity now : Z) (d : Daemon) : bool * Daemon :=
  if (0 <? idle_timeout_secs) && (idle_timeout_secs <=? Z.max 0 (now_secs - last_activity)) then (true, d)
  else
    match try_lock d with
    | Locked h =>
        if shutdown_requested h then (true, d)
        else (false, {| guarded := expire_camera now h; poisoned := poisoned d |})
    | Poisoned _ => (false, d)
    end.

(** [watch_sleep_signals], once the lock is free. *)
Definition suspend (d : Daemon) : Daemon :=
  let release h := with_preview None (with_lease (release (lease h)) h) in
  match try_lock d with
  | Locked h => {| guarded := release h; poisoned := poisoned d |}
  | Poisoned h => {| guarded := release h; poisoned := poisoned d |}
  end.

(** A history of the daemon: requests (ticks come from the poll loop only), iterations of the
    poll loop that did not end it, suspensions. *)
Inductive history : Daemon → Daemon → Prop :=
  | history_start d : history d d
  | history_serve d d1 d2 env request : history d d1 → serve (EvRequest env request) d1 = Some d2 → history d d2
  | history_authenticate d d1 d2 env user i ctx : history d d1 →
      serve (EvAuthenticate env user i ctx) d1 = Some d2 → history d d2
  | history_poll d d1 d2 idle s last now : history d d1 →
      poll_iteration idle s last now d1 = (false, d2) → history d d2
  | history_suspend d d1 : history d d1 → history d (suspend d1).

Lemma serve_poisoned e d d' : serve e d = Some d' → poisoned d = true → poisoned d' = true.
Proof. unfold serve. destruct (step e _) as [[r fx h|h]|]; [|by intros [= <-]|done]. by intros [= <-]. Qed.

Lemma poll_poisoned idle s last now d : poisoned d = true →
  poll_iteration idle s last now d = ((0 <? idle) && (idle <=? Z.max 0 (s - last)), d).
Proof. intros Hp. unfold poll_iteration, try_lock. rewrite Hp. by destruct (_ && _). Qed.

Lemma history_poisoned d d' : history d d' → poisoned d = true → poisoned d' = true.
Proof.
  induction 1 as [| |d d1 d2 env user i ctx _ IH Hs|d d1 d2 idle s last now _ IH Hp|]; intros Hd.
  - done.
  - eapply serve_poisoned; [done|auto].
  - eapply serve_poisoned; [done|auto].
  - specialize (IH Hd). rewrite poll_poisoned in Hp by done. by injection Hp as _ <-.
  - unfold suspend. destruct (try_lock d1); cbn; auto.
Qed.

(** While nothing has panicked, the poll loop is the tick the lease policy relies on, and it
    ends at the first iteration that sees a shutdown request. *)
Lemma poll_healthy idle s last now d : poisoned d = false → (idle = 0 ∨ s - last < idle) →
  poll_iteration idle s last now d =
    (shutdown_requested (guarded d),
     if shutdown_requested (guarded d) then d
     else {| guarded := expire_camera now (guarded d); poisoned := false |}).
Proof.
  intros Hp Hi. unfold poll_iteration, try_lock. rewrite Hp.
  replace ((0 <? idle) && (idle <=? Z.max 0 (s - last))) with false.
  - by destruct (shutdown_requested (guarded d)).
  - symmetry. apply andb_false_iff. destruct (Z.ltb_spec 0 idle); [right|by left].
    apply Z.leb_gt. lia.
Qed.
End Daemon.

(** C40.  One panic disables the poll loop for the daemon's life. Requests recover the poisoned
    handler and are served, but from the call that panicked on, through every later history, an
    iteration of the poll loop does nothing: an expired warm hold does not close the camera, the
    preview's templates are not wiped, and a [Shutdown] request that was answered does not end
    the daemon; only the idle timeout, when one is configured, does. While nothing has panicked
    the same iteration closes an expired camera and ends on a shutdown request. *)
Theorem panic_disables_poll `{ShowSqlite} `{RowOrder} `{NanEncoding} `{Subtle} `{Aead} `{Sha256}
    `{TpmDevice} e d h d' :
  step e (guarded d) = Some (HandlerPanicked h) →
  (∃ d1, serve e d = Some d1 ∧ guarded d1 = h ∧ (history d1 d' →
     ∀ idle s last now, idle = 0 ∨ s - last < idle → poll_iteration idle s last now d' = (false, d'))) ∧
  (poisoned d = false → ∀ idle s last now, idle = 0 ∨ s - last < idle →
     poll_iteration idle s last now d =
       (shutdown_requested (guarded d),
        if shutdown_requested (guarded d) then d
        else {| guarded := expire_camera now (guarded d); poisoned := false |})).
Proof.
  intros Hs. split; [|intros Hp; intros; by apply poll_healthy].
  exists {| guarded := h; poisoned := true |}. split_and!; [|done|].
  - unfold serve, lock_handler_with_timeout, try_lock. by destruct (poisoned d); rewrite Hs.
  - intros Hh idle s last now Hi. rewrite poll_poisoned by (by eapply history_poisoned).
    f_equal. apply andb_false_iff. destruct (Z.ltb_spec 0 idle); [right|by left]. apply Z.leb_gt. lia.
Qed.

(** ** A detection with a negative width panics in the infrared texture check *)
#[local] Existing Instance show_sqlite_plain.
#[local] Existing Instance sum_hash.
#[local] Existing Instance no_tpm.
#[local] Existing Instance toy_aead.
#[local] Existing Instance nan_x86.
#[local] Existing Instance subtle_reference.

Definition folded_face : Detection :=
  {| bbox := {| bbox_x := f32_of_Z 4; bbox_y := f32_of_Z 2; bbox_width := f32_of_Z (-2); bbox_height := f32_of_Z 4 |};
     confidence := f32_one; landmarks := [] |}.

Definition folded_tick (k : nat) : Tick :=
  {| t_loop := nanos (Z.of_nat k); t_cancelled := false; t_no_face := nanos (Z.of_nat k);
     t_capture := Ok good_frame; t_faces := Ok [(folded_face, angle 0)]; t_done := nanos (Z.of_nat k) |}.

#[local] Abbreviation enrolled_daemon :=
  (match handler_new calm_env config_default (fresh_store (λ _, None)) {| max_failures := 5; limiter_window_secs := 60 |}
     infrared true None ∅ with
   | Ok h0 => run_all [EvRequest (daily_env 10) (ReqEnroll "alice" "default")] h0
   | Err _ => None
   end).
#[local] Abbreviation bad_scan := (EvRequest (daily_env_with folded_tick 20) (ReqAuthenticate "alice")).

Lemma bad_scan_panics : ∃ h hp, step bad_scan h = Some (HandlerPanicked hp) ∧ left_open hp = true.
Proof.
  assert (match enrolled_daemon with
    | Some h => match step bad_scan h with Some (HandlerPanicked hp) => left_open hp | _ => false end
    | None => false end = true) as Hc by (vm_compute; reflexivity).
  revert Hc. destruct enrolled_daemon as [h|]; [|done].
  destruct (step bad_scan h) as [[| hp]|] eqn:Es; [done| |done]. intros Ho. by exists h, hp.
Qed.

Lemma panic_disables_poll_witness : ∃ d d1, serve bad_scan d = Some d1 ∧ left_open (guarded d1) = true ∧
  ∀ now, poll_iteration 0 0 0 now d1 = (false, d1).
Proof.
  destruct bad_scan_panics as (h & hp & Hs & Ho). set (d := {| guarded := h; poisoned := false |}).
  destruct (panic_disables_poll bad_scan d hp {| guarded := hp; poisoned := true |} Hs) as [(d1 & Hd & Hg & Hp) _].
  exists d, d1. split; [exact Hd|]. split; [rewrite Hg; exact Ho|]. intros now.
  assert (d1 = {| guarded := hp; poisoned := true |}) as ->.
  { unfold serve, lock_handler_with_timeout, try_lock in Hd. cbn [poisoned guarded d] in Hd. rewrite Hs in Hd.
    by injection Hd as <-. }
  apply Hp; [apply history_start|]. left. reflexivity.
Defined.
