(* ===== verification/Server.v ===== *)
(** * The D-Bus methods ([crates/facelock-daemon/src/server.rs], [facelock-core/src/dbus_interface.rs])

    What each method does around the handler: authorization by the caller's UID, the ingress
    limiter, the capture slot, live reload, the handler's mutex, the environment gates of an
    authentication, and the encoding of the reply. A call runs against the shared [Service];
    while it waits (for the bus, for a lock, for a rebuild) other calls may change it, and what
    they did is an argument of the call's [CallEnv]. The interleaving of the capture slot and
    the cancel tokens themselves is [Current.v]. *)

From stdpp Require Import gmap.
From S2P Require Import Prelude Text Pam Provenance Ingress Float32 Types Matching DeviceBinding Config Store StoreProofs RateLimit Gates AuditLog Auth Sealing KeyFile Keyring Embeddings Enroll EnrollProofs Handler HandlerProofs Daemon.

(** ** Methods and who may call them *)
Inductive Method :=
  | MAuthenticate | MAuthenticateSilent | MTestAuthenticate | MEnroll | MListModels | MRemoveModel
  | MClearModels | MPreviewFrame | MPreviewDetectFrame | MListDevices | MReleaseCamera | MPing | MShutdown.

Definition method_name (m : Method) : string :=
  match m with
  | MAuthenticate => "Authenticate" | MAuthenticateSilent => "AuthenticateSilent"
  | MTestAuthenticate => "TestAuthenticate" | MEnroll => "Enroll" | MListModels => "ListModels"
  | MRemoveModel => "RemoveModel" | MClearModels => "ClearModels" | MPreviewFrame => "PreviewFrame"
  | MPreviewDetectFrame => "PreviewDetectFrame" | MListDevices => "ListDevices"
  | MReleaseCamera => "ReleaseCamera" | MPing => "Ping" | MShutdown => "Shutdown"
  end.

Definition is_authentication (m : Method) : bool :=
  match m with MAuthenticate | MAuthenticateSilent => true | _ => false end.

Inductive Scope := ScopeRoot | UserScoped.

Definition scope (m : Method) : Scope :=
  match m with
  | MAuthenticate | MAuthenticateSilent => UserScoped
  | MTestAuthenticate => ScopeRoot
  | _ => ScopeRoot
  end.

(** The bus errors the service answers with: [fdo::Error::Failed] and [AccessDenied]. *)
Inductive BusError := Failed (message : string) | AccessDenied (message : string).

Record CallerIdentity := { ci_uid : Z; username : option string }.

Definition display_name (c : CallerIdentity) : string :=
  match username c with Some n => n | None => "UID " +:+ show_Z (ci_uid c) end.

Definition require_root (c : CallerIdentity) (operation : string) : result unit BusError :=
  if ci_uid c =? 0 then Ok tt
  else Err (AccessDenied (operation +:+ " requires root (caller: '" +:+ display_name c +:+ "', UID " +:+
              show_Z (ci_uid c) +:+ ")")).

Definition require_user_authorized (c : CallerIdentity) (user operation : string) : result unit BusError :=
  if ci_uid c =? 0 then Ok tt
  else
    match username c with
    | None => Err (Failed ("failed to resolve UID " +:+ show_Z (ci_uid c) +:+ " to username"))
    | Some caller_name =>
        if String.eqb caller_name user then Ok tt
        else Err (AccessDenied (operation +:+ " not authorized: caller '" +:+ caller_name +:+ "' (UID " +:+
                    show_Z (ci_uid c) +:+ ") cannot act as '" +:+ user +:+ "'"))
    end.

Definition authorize_method (c : CallerIdentity) (m : Method) (target_user : option string) :
    result unit BusError :=
  match scope m with
  | ScopeRoot => require_root c (method_name m)
  | UserScoped =>
      match target_user with
      | None => Err (Failed (method_name m +:+ " requires a target user"))
      | Some user => require_user_authorized c user (method_name m)
      end
  end.

(** ** The wire *)

(** [dbus_interface::AuthResult]. *)
Record AuthReply := { ar_matched : bool; ar_model_id : Z; ar_label : string; ar_similarity : f64 }.

Definition f64_zero : f64 := f64_of_Z 0.

Definition redact_similarity_unless_root (caller_is_root : bool) (r : AuthReply) : AuthReply :=
  if negb caller_is_root then
    {| ar_matched := ar_matched r; ar_model_id := ar_model_id r; ar_label := ar_label r;
       ar_similarity := f64_zero |}
  else r.

Record PreviewFaceInfo := {
  pfi_x : f64; pfi_y : f64; pfi_width : f64; pfi_height : f64;
  pfi_confidence : f64; pfi_similarity : f64; pfi_recognized : bool;
}.

Definition redact_face_unless_root (caller_is_root : bool) (f : PreviewFaceInfo) : PreviewFaceInfo :=
  if negb caller_is_root then
    {| pfi_x := pfi_x f; pfi_y := pfi_y f; pfi_width := pfi_width f; pfi_height := pfi_height f;
       pfi_confidence := pfi_confidence f; pfi_similarity := f64_zero; pfi_recognized := pfi_recognized f |}
  else f.

Definition preview_face_info (f : PreviewFace) : PreviewFaceInfo :=
  {| pfi_x := f64_of_f32 (pf_x f); pfi_y := f64_of_f32 (pf_y f);
     pfi_width := f64_of_f32 (pf_width f); pfi_height := f64_of_f32 (pf_height f);
     pfi_confidence := f64_of_f32 (pf_confidence f); pfi_similarity := f64_of_f32 (pf_similarity f);
     pfi_recognized := pf_recognized f |}.

Definition sanitize_preview_jpeg (jpeg_data : list Z) (allow_frames : bool) : list Z :=
  if allow_frames then jpeg_data else [].

Definition NO_MATCH_NO_FACE : Z := -1.
Definition NO_MATCH_FACE_SEEN : Z := -4.

Definition recoverable_auth_error (message : string) : AuthReply :=
  {| ar_matched := false; ar_model_id := -2; ar_label := message; ar_similarity := f64_zero |}.

Definition suppressed_reply : AuthReply :=
  {| ar_matched := false; ar_model_id := -3; ar_label := ""; ar_similarity := f64_zero |}.

Definition wire_model_id (r : MatchResult) : Z :=
  match mr_model_id r with
  | Some id => as_i32 id
  | None => if face_detected r && negb (matched r) then NO_MATCH_FACE_SEEN else NO_MATCH_NO_FACE
  end.

Definition auth_reply (r : MatchResult) : AuthReply :=
  {| ar_matched := matched r; ar_model_id := wire_model_id r; ar_label := default "" (mr_label r);
     ar_similarity := f64_of_f32 (similarity r) |}.

(** [ModelInfo]: an absent device or key is the empty string. *)
Record ModelInfo := {
  wi_id : Z; wi_user : string; wi_label : string; wi_created_at : Z; wi_embedder_model : string;
  wi_device_id : string; wi_key_id : string;
}.

Definition wire_model (m : FaceModelInfo) : ModelInfo :=
  {| wi_id := model_id m; wi_user := model_user m; wi_label := model_label m; wi_created_at := created_at m;
     wi_embedder_model := embedder_model m; wi_device_id := default "" (device_id m);
     wi_key_id := default "" (key_id m) |}.

(** [DeviceInfo]: without the formats. *)
Record WireDevice := { wd_path : string; wd_name : string; wd_driver : string; wd_is_ir : bool }.

Definition wire_device (d : IpcDeviceInfo) : WireDevice :=
  {| wd_path := dev_path d; wd_name := dev_name d; wd_driver := dev_driver d; wd_is_ir := dev_is_ir d |}.

(** [notify_auth_outcome]: the notification an outcome sends, if any. *)
Definition notify_auth_outcome (c : NotificationConfig) (r : MatchResult) (silent : bool) :
    option NotifyEvent :=
  let policy := if matched r then notify_on_success c else notify_on_failure c in
  if negb (policy_enabled policy silent) then None
  else
    let event :=
      if matched r then NotifySuccess (mr_label r) (similarity r) else NotifyFailure "no match" in
    if should_notify_desktop c event then Some event else None.

Section Server.
Context `{ShowSqlite} `{RowOrder} `{NanEncoding} `{Subtle} `{Aead} `{Sha256} `{TpmDevice} `{HashOrder}.
Context `{ShowBus} `{ShowDebug}.

(** The service's shared state. The capture slot and the cancellation epoch are the atomics of
    [Current.v]; whether the lock on [config_mtime] is poisoned is kept like the handler's. *)
Record Service := {
  daemon : Daemon;
  last_activity : Z;
  config_mtime : option Z;
  mtime_poisoned : bool;
  capture_busy : bool;
  limiter : IngressState;
  epoch : Z;
}.

Definition with_daemon (d : Daemon) (s : Service) : Service :=
  {| daemon := d; last_activity := last_activity s; config_mtime := config_mtime s;
     mtime_poisoned := mtime_poisoned s; capture_busy := capture_busy s; limiter := limiter s; epoch := epoch s |}.
Definition with_activity (t : Z) (s : Service) : Service :=
  {| daemon := daemon s; last_activity := t; config_mtime := config_mtime s;
     mtime_poisoned := mtime_poisoned s; capture_busy := capture_busy s; limiter := limiter s; epoch := epoch s |}.
Definition with_mtime (m : option Z) (s : Service) : Service :=
  {| daemon := daemon s; last_activity := last_activity s; config_mtime := m;
     mtime_poisoned := mtime_poisoned s; capture_busy := capture_busy s; limiter := limiter s; epoch := epoch s |}.
Definition with_busy (b : bool) (s : Service) : Service :=
  {| daemon := daemon s; last_activity := last_activity s; config_mtime := config_mtime s;
     mtime_poisoned := mtime_poisoned s; capture_busy := b; limiter := limiter s; epoch := epoch s |}.
Definition with_limiter (l : IngressState) (s : Service) : Service :=
  {| daemon := daemon s; last_activity := last_activity s; config_mtime := config_mtime s;
     mtime_poisoned := mtime_poisoned s; capture_busy := capture_busy s; limiter := l; epoch := epoch s |}.
Definition with_epoch (e : Z) (s : Service) : Service :=
  {| daemon := daemon s; last_activity := last_activity s; config_mtime := config_mtime s;
     mtime_poisoned := mtime_poisoned s; capture_busy := capture_busy s; limiter := limiter s; epoch := e |}.

(** [FacelockService::new]. *)
Definition service_new (h : Handler) (startup_config_mtime : option Z) (now_secs : Z) : Service :=
  {| daemon := {| guarded := h; poisoned := false |}; last_activity := now_secs;
     config_mtime := startup_config_mtime; mtime_poisoned := false; capture_busy := false;
     limiter := ingress_default; epoch := 0 |}.

Definition busy_error (operation : string) : BusError :=
  Failed ("daemon busy: another capture operation is in progress (" +:+ operation +:+ " rejected)").

Definition try_acquire (operation : string) (s : Service) : result Service BusError :=
  if capture_busy s then Err (busy_error operation) else Ok (with_busy true s).

(** ** Waiting for the handler

    What each attempt of the polling loop meets: the lock free (poisoned or not) or held, the
    capture slot, and the clock, in nanoseconds. *)
Record LockPoll := { lp_held : bool; lp_slot_busy : bool; lp_now : Z }.

Definition HANDLER_LOCK_TIMEOUT : Z := nanos 10.
Definition LOCK_POLL_INTERVAL : Z := 50000000.

Fixpoint lock_loop (polls : nat → LockPoll) (capture : option string) (deadline : Z) (n fuel : nat) :
    option (result unit BusError) :=
  match fuel with
  | O => None
  | S fuel' =>
      let p := polls n in
      if negb (lp_held p) then Some (Ok tt)
      else
        match (if lp_slot_busy p then capture else None) with
        | Some operation => Some (Err (busy_error operation))
        | None =>
            if deadline <=? lp_now p then Some (Err (Failed "daemon busy: previous operation timed out"))
            else lock_loop polls capture deadline (S n) fuel'
        end
  end.

(** How one acquisition went: when it began and what its attempts met. *)
Record LockRun := { lk_start : Z; lk_polls : nat → LockPoll; lk_fuel : nat }.

Definition lock_before_capture (l : LockRun) (capture : option string) : option (result unit BusError) :=
  lock_loop (lk_polls l) capture (lk_start l + HANDLER_LOCK_TIMEOUT) 0 (lk_fuel l).

(** ** Live reload

    [claim_mtime] and [install_handler] are the two critical sections of
    [maybe_reload_handler_at]; the rebuild between them runs without a lock. *)
Definition claim_mtime (current_mtime : option Z) (s : Service) : option Service :=
  if mtime_poisoned s then None
  else
    match config_mtime s, current_mtime with
    | Some old, Some new => if old <? new then Some (with_mtime current_mtime s) else None
    | _, _ => None
    end.

Definition install_handler (current_mtime : option Z) (new_handler : Handler) (s : Service) : Service :=
  if mtime_poisoned s then s
  else if negb (bool_decide (config_mtime s = current_mtime)) then s
  else with_daemon {| guarded := new_handler; poisoned := poisoned (daemon s) |} s.

(** [rebuild] is the recipe's result, [None] without a recipe; [during] is what other calls do
    meanwhile. *)
Definition maybe_reload_handler (current_mtime : option Z) (rebuild : option (result Handler string))
    (during : Service → Service) (s : Service) : Service :=
  match rebuild with
  | None => s
  | Some rebuilt =>
      match claim_mtime current_mtime s with
      | None => s
      | Some s =>
          let s := during s in
          match rebuilt with Err _ => s | Ok h => install_handler current_mtime h s end
      end
  end.

(** ** Tokens

    [handle] gives a request a token nobody can cancel; a refused installation hands the capture
    a token that is already set. *)
Definition with_token (cancelled_ cancelled_after : bool) (discard : nat → bool * result unit string)
    (e : RequestEnv) : RequestEnv := {|
  rq_cancelled := cancelled_; rq_open := rq_open e; rq_discard := discard; rq_cancelled_after := cancelled_after;
  rq_capture := rq_capture e; rq_faces := rq_faces e; rq_jpeg := rq_jpeg e; rq_devices := rq_devices e;
  rq_now := rq_now e; rq_keys := rq_keys e; rq_host := rq_host e; rq_wall_at := rq_wall_at e;
  rq_attempt_started := rq_attempt_started e; rq_acquire_failed := rq_acquire_failed e;
  rq_auth_cancelled := rq_auth_cancelled e || cancelled_; rq_start := rq_start e; rq_armed := rq_armed e;
  rq_ticks := rq_ticks e; rq_enroll := rq_enroll e; rq_nonces := rq_nonces e; rq_wall := rq_wall e;
  rq_fuel := rq_fuel e;
|}.

Definition with_fresh_token (e : RequestEnv) : RequestEnv :=
  with_token false false (λ n, (false, snd (rq_discard e n))) e.

Definition with_cancelled_token (e : RequestEnv) : RequestEnv := with_token true true (rq_discard e) e.

(** ** Authentication *)

Record AuthCall := {
  ac_ingress_now : Z;
  ac_now_secs : Z;
  ac_mtime : option Z;
  ac_rebuild : option (result Handler string);
  ac_during_reload : Service → Service;
  ac_first_lock : LockRun;
  ac_before_snapshot : Service → Service;   (* other calls, until the first lock is taken *)
  ac_session_check : BoundedCheck;
  ac_lid_check : BoundedCheck;
  ac_second_lock : LockRun;
  ac_meanwhile : Service → Service;         (* other calls, from there to the second lock *)
  ac_late_cancel : bool;                    (* a cancellation during the preflight *)
  ac_request : RequestEnv;
  ac_join_error : string;
}.

Definition PROCESS_PROVENANCE_DENIED_MESSAGE : string :=
  "Authenticate requires a live local caller process".

(** What a finished call did outside the service: the handler's effects and a notification. *)
Inductive ServerEffect := HandlerEffect (e : Effect) | SendNotification (e : NotifyEvent).

Definition join_error (text : string) : BusError := Failed ("task join error: " +:+ text).

(** The [Debug] text of a response a method does not expect. *)
Context (debug_response : DaemonResponse → string).

Definition unexpected (r : DaemonResponse) : BusError := Failed ("unexpected response: " +:+ debug_response r).

Definition finish_authentication (c : NotificationConfig) (silent : bool) (r : DaemonResponse) :
    result AuthReply BusError * option NotifyEvent :=
  match r with
  | RespAuthResult m => (Ok (auth_reply m), notify_auth_outcome c m silent)
  | RespSuppressed => (Ok suppressed_reply, None)
  | RespError message => (Ok (recoverable_auth_error message), None)
  | other => (Err (unexpected other), None)
  end.

Definition session_gate (m : Method) (h : Handler) (provenance : option (result bool CheckFailure)) :
    result unit BusError :=
  if is_authentication m && abort_if_ssh (security (Handler.config h)) then
    match provenance with
    | Some (Ok false) => Ok tt
    | Some (Ok true) => Err (AccessDenied PROCESS_PROVENANCE_DENIED_MESSAGE)
    | Some (Err _) => Err (AccessDenied PROCESS_PROVENANCE_DENIED_MESSAGE)
    | None => Err (AccessDenied PROCESS_PROVENANCE_DENIED_MESSAGE)
    end
  else Ok tt.

Definition lid_was_cancelled (lid : option (result bool CheckFailure)) : bool :=
  match lid with Some (Err CheckCancelled) => true | _ => false end.

Definition lid_source_of (lid : option (result bool CheckFailure)) : LidSource :=
  match lid with
  | Some (Ok closed) => Resolved closed
  | Some (Err (Unresolved _)) => Unavailable
  | Some (Err CheckCancelled) | None => Unavailable
  end.

Definition context_of (m : Method) (i : AuthIntent) (lid : option (result bool CheckFailure)) : PreCheckContext :=
  if is_authentication m then ctx_daemon_authenticate (lid_source_of lid) else pre_check_context i.

Definition set_handler (h : Handler) (s : Service) : Service :=
  with_daemon {| guarded := h; poisoned := poisoned (daemon s) |} s.

Definition server_effects (fx : list Effect) (n : option NotifyEvent) : list ServerEffect :=
  map HandlerEffect fx ++ match n with Some e => [SendNotification e] | None => [] end.

(** The reply, what happened outside, and the service. *)
Definition Answer (R : Type) : Type := result R BusError * list ServerEffect * Service.

(** The second blocking section, with the handler's lock held from the gates to the end of the
    capture. *)
Definition gated_attempt (ac : AuthCall) (user : string) (m : Method) (i : AuthIntent) (silent : bool)
    (provenance lid : option (result bool CheckFailure)) (checkpoint : Z) (s : Service) :
    option (Answer AuthReply) :=
  let h := lock_handler_with_timeout (daemon s) in
  match session_gate m h provenance with
  | Err e => Some (Err e, [], s)
  | Ok _ =>
      if lid_was_cancelled lid && abort_if_lid_closed (security (Handler.config h))
      then Some (Ok (recoverable_auth_error CANCELLED_MESSAGE), [], s)
      else
        let answered r fx h' s' :=
          let '(reply, event) := finish_authentication (notification (Handler.config h')) silent r in
          Some (reply, server_effects fx event, set_handler h' s') in
        match preflight_authenticate_with_context (ac_request ac) user i (context_of m i lid) h with
        | (Some (r, fx), h1) => answered r fx h1 s
        | (None, h1) =>
            match try_acquire (method_name m) (set_handler h1 s) with
            | Err e => Some (Err e, [], set_handler h1 s)
            | Ok s2 =>
                let env := if negb (epoch s2 =? checkpoint) || ac_late_cancel ac
                           then with_cancelled_token (ac_request ac) else ac_request ac in
                match handle_authenticate_prechecked env user i h1 with
                | None => None
                | Some (Replied r fx h2) => answered r fx h2 (with_busy false s2)
                | Some (HandlerPanicked h2) =>
                    Some (Err (join_error (ac_join_error ac)), [],
                          with_daemon {| guarded := h2; poisoned := true |} (with_busy false s2))
                end
            end
        end
  end.

(** The first blocking section: which environment gates are installed. *)
Definition snapshot_gates (ac : AuthCall) (m : Method) (s : Service) : option (result (bool * bool) BusError) :=
  if is_authentication m then
    match lock_before_capture (ac_first_lock ac) (Some (method_name m)) with
    | None => None
    | Some (Err e) => Some (Err e)
    | Some (Ok _) =>
        let h := lock_handler_with_timeout (daemon s) in
        Some (Ok (abort_if_ssh (security (Handler.config h)), abort_if_lid_closed (security (Handler.config h))))
    end
  else Some (Ok (false, false)).

Definition redacted (caller_is_root : bool) (a : Answer AuthReply) : Answer AuthReply :=
  let '(r, fx, s) := a in
  (match r with Ok reply => Ok (redact_similarity_unless_root caller_is_root reply) | Err e => Err e end, fx, s).

(** From the ingress check on. *)
Definition run_admitted (ac : AuthCall) (caller : CallerIdentity) (user : string) (m : Method)
    (i : AuthIntent) (silent : bool) (s : Service) : option (Answer AuthReply) :=
  if capture_busy s then Some (Err (busy_error (method_name m)), [], s)
  else
    let checkpoint := epoch s in
    let s := maybe_reload_handler (ac_mtime ac) (ac_rebuild ac) (ac_during_reload ac)
               (with_activity (ac_now_secs ac) s) in
    let s := ac_before_snapshot ac s in
    match snapshot_gates ac m s with
    | None => None
    | Some (Err e) => Some (Err e, [], s)
    | Some (Ok (provenance_required, lid_required)) =>
        let provenance := maybe_check provenance_required "caller session provenance" (ac_session_check ac) in
        let lid := maybe_check lid_required "lid state" (ac_lid_check ac) in
        let s := ac_meanwhile ac s in
        match lock_before_capture (ac_second_lock ac) (Some (method_name m)) with
        | None => None
        | Some (Err e) => Some (Err e, [], s)
        | Some (Ok _) =>
            redacted (ci_uid caller =? 0) <$> gated_attempt ac user m i silent provenance lid checkpoint s
        end
    end.

Definition run_authentication (ac : AuthCall) (caller : CallerIdentity) (user : string) (m : Method)
    (i : AuthIntent) (silent : bool) (s : Service) : option (Answer AuthReply) :=
  match authorize_method caller m (Some user) with
  | Err e => Some (Err e, [], s)
  | Ok _ =>
      if is_authentication m && negb (ci_uid caller =? 0) then
        let '(admitted, l) := check_and_charge_at (ci_uid caller) (ac_ingress_now ac) (limiter s) in
        let s := with_limiter l s in
        if negb admitted then Some (Ok (recoverable_auth_error (render RateLimited "")), [], s)
        else run_admitted ac caller user m i silent s
      else run_admitted ac caller user m i silent s
  end.

Definition test_authenticate_as (ac : AuthCall) (caller : CallerIdentity) (user : string) (s : Service) :=
  run_authentication ac caller user MTestAuthenticate IntentTest false s.

(** ** The bus glue of [Authenticate] *)

Record Glue := {
  gl_sender : option string;
  gl_proxy : result unit ZbusError;
  gl_unix_user : result Z FdoError;
  gl_username : Z → option string;
  gl_bus : SystemBus;                            (* during the session check *)
  gl_session_answered : option Z;                (* when that check is done *)
  gl_session_cancelled : option Z;
  gl_lid_proxy : result unit ZbusError;
  gl_lid_closed : result bool ZbusError;
  gl_lid_answered : option Z;
  gl_lid_cancelled : option Z;
}.

Definition resolve_caller_identity (g : Glue) : result CallerIdentity BusError :=
  match gl_sender g with
  | None => Err (Failed "no sender in D-Bus message")
  | Some _ =>
      let? _ := map_err (λ e, Failed ("failed to create DBus proxy: " +:+ show_zbus e)) (gl_proxy g) in
      let? uid := map_err (λ e, Failed ("failed to get caller UID: " +:+ show_fdo e)) (gl_unix_user g) in
      Ok {| ci_uid := uid; username := gl_username g uid |}
  end.

Definition logind_lid_is_closed (g : Glue) : result bool string :=
  let? _ := context "create logind manager proxy" (gl_lid_proxy g) in
  context "read logind LidClosed property" (gl_lid_closed g).

Definition session_check (g : Glue) (uid : Z) : BoundedCheck := {|
  check_answer := (λ t, (t, caller_session_is_remote (gl_bus g) (gl_sender g) uid)) <$> gl_session_answered g;
  check_cancelled_at := gl_session_cancelled g;
  check_timeout := PROCESS_PROVENANCE_TIMEOUT |}.

Definition lid_check (g : Glue) : BoundedCheck := {|
  check_answer := (λ t, (t, logind_lid_is_closed g)) <$> gl_lid_answered g;
  check_cancelled_at := gl_lid_cancelled g;
  check_timeout := LID_STATE_TIMEOUT |}.

Definition with_checks (session lid : BoundedCheck) (ac : AuthCall) : AuthCall := {|
  ac_ingress_now := ac_ingress_now ac; ac_now_secs := ac_now_secs ac; ac_mtime := ac_mtime ac;
  ac_rebuild := ac_rebuild ac; ac_during_reload := ac_during_reload ac; ac_first_lock := ac_first_lock ac;
  ac_before_snapshot := ac_before_snapshot ac; ac_session_check := session; ac_lid_check := lid;
  ac_second_lock := ac_second_lock ac; ac_meanwhile := ac_meanwhile ac; ac_late_cancel := ac_late_cancel ac;
  ac_request := ac_request ac; ac_join_error := ac_join_error ac |}.

(** The [AuthAttempted] signal: the user and the outcome, for every answer that is not an error. *)
Definition auth_attempted (user : string) (r : result AuthReply BusError) : option (string * bool) :=
  match r with Ok reply => Some (user, ar_matched reply) | Err _ => None end.

Definition authenticate_request (g : Glue) (ac : AuthCall) (user : string) (silent : bool) (s : Service) :
    option (Answer AuthReply * option (string * bool)) :=
  match resolve_caller_identity g with
  | Err e => Some ((Err e, [], s), None)
  | Ok caller =>
      match run_authentication (with_checks (session_check g (ci_uid caller)) (lid_check g) ac) caller user
              (if silent then MAuthenticateSilent else MAuthenticate) IntentAuthenticate silent s with
      | None => None
      | Some (r, fx, s') => Some ((r, fx, s'), auth_attempted user r)
      end
  end.

(** ** The other methods *)

Record Call := {
  c_now_secs : Z;
  c_mtime : option Z;
  c_rebuild : option (result Handler string);
  c_during_reload : Service → Service;
  c_lock : LockRun;
  c_waiting : Service → Service;            (* other calls, until the lock is taken *)
  c_request : RequestEnv;
  c_join_error : string;
}.

(** A blocking section that serves one request; a capture guard, when held, ends with it. *)
Definition under_lock {R} (c : Call) (captures : bool) (env : RequestEnv) (request : DaemonRequest)
    (decode : DaemonResponse → result R BusError) (s : Service) : option (Answer R) :=
  let leave s := if captures then with_busy false s else s in
  let s := c_waiting c s in
  match lock_before_capture (c_lock c) None with
  | None => None
  | Some (Err e) => Some (Err e, [], leave s)
  | Some (Ok _) =>
      match handle_with_cancel env request (lock_handler_with_timeout (daemon s)) with
      | None => None
      | Some (Replied r fx h) => Some (decode r, map HandlerEffect fx, leave (set_handler h s))
      | Some (HandlerPanicked h) =>
          Some (Err (join_error (c_join_error c)), [], leave (with_daemon {| guarded := h; poisoned := true |} s))
      end
  end.

Definition authorized {R} (caller : CallerIdentity) (m : Method) (c : Call) (s : Service)
    (k : Service → option (Answer R)) : option (Answer R) :=
  match authorize_method caller m None with
  | Err e => Some (Err e, [], s)
  | Ok _ => k (with_activity (c_now_secs c) s)
  end.

Definition capturing {R} (m : Method) (s : Service) (k : Service → option (Answer R)) : option (Answer R) :=
  match try_acquire (method_name m) s with
  | Err e => Some (Err e, [], s)
  | Ok s => k s
  end.

Definition decode_with {R} (expected : DaemonResponse → option R) (r : DaemonResponse) : result R BusError :=
  match expected r with
  | Some x => Ok x
  | None => match r with RespError message => Err (Failed message) | other => Err (unexpected other) end
  end.

(** The token of an enrollment is its caller's. *)
Definition enroll_as (c : Call) (caller : CallerIdentity) (user label : string) (s : Service) :
    option (Answer (Z * Z)) :=
  authorized caller MEnroll c s (λ s,
    capturing MEnroll (maybe_reload_handler (c_mtime c) (c_rebuild c) (c_during_reload c) s) (λ s,
      under_lock c true (c_request c) (ReqEnroll user label)
        (decode_with (λ r, match r with RespEnrolled id n => Some (id, n) | _ => None end)) s)).

Definition list_models_as (c : Call) (caller : CallerIdentity) (user : string) (s : Service) :
    option (Answer (list ModelInfo)) :=
  authorized caller MListModels c s (λ s,
    under_lock c false (with_fresh_token (c_request c)) (ReqListModels user)
      (decode_with (λ r, match r with RespModels l => Some (map wire_model l) | _ => None end)) s).

Definition remove_model_as (c : Call) (caller : CallerIdentity) (user : string) (mid : Z) (s : Service) :
    option (Answer unit) :=
  authorized caller MRemoveModel c s (λ s,
    under_lock c false (with_fresh_token (c_request c)) (ReqRemoveModel user mid)
      (decode_with (λ r, match r with RespRemoved => Some tt | _ => None end)) s).

Definition clear_models_as (c : Call) (caller : CallerIdentity) (user : string) (s : Service) :
    option (Answer unit) :=
  authorized caller MClearModels c s (λ s,
    under_lock c false (with_fresh_token (c_request c)) (ReqClearModels user)
      (decode_with (λ r, match r with RespRemoved => Some tt | _ => None end)) s).

Definition preview_frame_as (c : Call) (caller : CallerIdentity) (s : Service) : option (Answer (list Z)) :=
  authorized caller MPreviewFrame c s (λ s,
    capturing MPreviewFrame s (λ s,
      under_lock c true (with_fresh_token (c_request c)) ReqPreviewFrame
        (decode_with (λ r, match r with RespFrame jpeg => Some jpeg | _ => None end)) s)).

Definition preview_detect_frame_as (c : Call) (caller : CallerIdentity) (user : string) (s : Service) :
    option (Answer (list Z * list PreviewFaceInfo)) :=
  authorized caller MPreviewDetectFrame c s (λ s,
    let caller_is_root := ci_uid caller =? 0 in
    capturing MPreviewDetectFrame s (λ s,
      under_lock c true (with_fresh_token (c_request c)) (ReqPreviewDetectFrame user)
        (decode_with (λ r,
           match r with
           | RespDetectFrame jpeg faces =>
               Some (sanitize_preview_jpeg jpeg caller_is_root,
                     map (λ f, redact_face_unless_root caller_is_root (preview_face_info f)) faces)
           | _ => None
           end)) s)).

Definition list_devices_as (c : Call) (caller : CallerIdentity) (s : Service) :
    option (Answer (list WireDevice)) :=
  authorized caller MListDevices c s (λ s,
    under_lock c false (with_fresh_token (c_request c)) ReqListDevices
      (decode_with (λ r, match r with RespDevices l => Some (map wire_device l) | _ => None end)) s).

Definition release_camera_as (c : Call) (caller : CallerIdentity) (s : Service) : option (Answer unit) :=
  authorized caller MReleaseCamera c s (λ s,
    under_lock c false (with_fresh_token (c_request c)) ReqReleaseCamera
      (decode_with (λ r, match r with RespOk => Some tt | _ => None end)) (with_epoch (epoch s + 1) s)).

Definition ping_as (c : Call) (caller : CallerIdentity) (s : Service) : option (Answer string) :=
  authorized caller MPing c s (λ s, Some (Ok "pong", [], s)).

Definition shutdown_as (c : Call) (caller : CallerIdentity) (s : Service) : option (Answer unit) :=
  authorized caller MShutdown c s (λ s,
    under_lock c false (with_fresh_token (c_request c)) ReqShutdown
      (decode_with (λ r, match r with RespOk => Some tt | _ => None end)) (with_epoch (epoch s + 1) s)).
End Server.
