(* ===== verification/ServerProofs.v ===== *)
(** * Properties of the D-Bus methods ([crates/facelock-daemon/src/server.rs])

    Who may call what and what a refused call costs; that a positive answer of [Authenticate]
    passed every gate of the configuration that governed its capture; that the reply means to
    the PAM module what it meant to the handler; that no method meets a reply it does not
    expect. *)

From stdpp Require Import gmap.
From S2P Require Import Prelude Text Pam Provenance Ingress Float32 Types Matching DeviceBinding Config Store StoreProofs RateLimit Gates AuditLog Auth AuthProofs Sealing KeyFile Keyring Embeddings Enroll EnrollProofs Handler HandlerProofs Daemon Server.

Section Server.
Context `{ShowSqlite} `{RowOrder} `{NanEncoding} `{Subtle} `{Aead} `{Sha256} `{TpmDevice} `{HashOrder}.
Context `{ShowBus} `{ShowDebug}.

(** ** A call of the service, whichever method *)
Inductive ServerCall :=
  | CallAuthenticate (ac : AuthCall) (user : string) (silent : bool)
  | CallTest (ac : AuthCall) (user : string)
  | CallEnroll (c : Call) (user label : string)
  | CallListModels (c : Call) (user : string)
  | CallRemoveModel (c : Call) (user : string) (mid : Z)
  | CallClearModels (c : Call) (user : string)
  | CallPreviewFrame (c : Call)
  | CallPreviewDetectFrame (c : Call) (user : string)
  | CallListDevices (c : Call)
  | CallReleaseCamera (c : Call)
  | CallPing (c : Call)
  | CallShutdown (c : Call).

(** What a caller is sent. *)
Inductive Sent :=
  | SentAuth (r : AuthReply) | SentEnrolled (x : Z * Z) | SentModels (l : list ModelInfo) | SentUnit
  | SentFrame (jpeg : list Z) | SentDetections (x : list Z * list PreviewFaceInfo)
  | SentDevices (l : list WireDevice) | SentText (s : string) | SentError (e : BusError).

Definition sent {R} (f : R → Sent) (a : Answer R) : Sent * list ServerEffect * Service :=
  let '(r, fx, s) := a in (match r with Ok x => f x | Err e => SentError e end, fx, s).

Definition auth_method (silent : bool) : Method := if silent then MAuthenticateSilent else MAuthenticate.

Definition serve_call (debug : DaemonResponse → string) (call : ServerCall) (caller : CallerIdentity)
    (s : Service) : option (Sent * list ServerEffect * Service) :=
  match call with
  | CallAuthenticate ac user silent =>
      sent SentAuth <$> run_authentication debug ac caller user (auth_method silent) IntentAuthenticate silent s
  | CallTest ac user => sent SentAuth <$> test_authenticate_as debug ac caller user s
  | CallEnroll c user label => sent SentEnrolled <$> enroll_as debug c caller user label s
  | CallListModels c user => sent SentModels <$> list_models_as debug c caller user s
  | CallRemoveModel c user mid => sent (λ _, SentUnit) <$> remove_model_as debug c caller user mid s
  | CallClearModels c user => sent (λ _, SentUnit) <$> clear_models_as debug c caller user s
  | CallPreviewFrame c => sent SentFrame <$> preview_frame_as debug c caller s
  | CallPreviewDetectFrame c user => sent SentDetections <$> preview_detect_frame_as debug c caller user s
  | CallListDevices c => sent SentDevices <$> list_devices_as debug c caller s
  | CallReleaseCamera c => sent (λ _, SentUnit) <$> release_camera_as debug c caller s
  | CallPing c => sent SentText <$> ping_as c caller s
  | CallShutdown c => sent (λ _, SentUnit) <$> shutdown_as debug c caller s
  end.

(** The user an authentication of one's own is for. *)
Definition own_authentication (caller : CallerIdentity) (call : ServerCall) : Prop :=
  match call with CallAuthenticate _ user _ => username caller = Some user | _ => False end.

(** ** Waiting for the handler ends

    With a clock that passes the polling interval between attempts, 202 attempts are enough. *)
Lemma lock_returns l capture : (∀ k, lp_now (lk_polls l k) + LOCK_POLL_INTERVAL ≤ lp_now (lk_polls l (S k))) →
  lk_start l ≤ lp_now (lk_polls l 0) → (202 ≤ lk_fuel l)%nat → is_some (lock_before_capture l capture) = true.
Proof.
  intros Hc Hs Hf. unfold lock_before_capture.
  assert (∀ fuel n, lk_start l + HANDLER_LOCK_TIMEOUT ≤ lp_now (lk_polls l n) + LOCK_POLL_INTERVAL * (Z.of_nat fuel - 1) →
    (0 < fuel)%nat →
    is_some (lock_loop (lk_polls l) capture (lk_start l + HANDLER_LOCK_TIMEOUT) n fuel) = true) as Hgo.
  { induction fuel as [|fuel IH]; intros n Hd Hp; [lia|]. cbn [lock_loop].
    destruct (negb _); [done|]. destruct (if lp_slot_busy _ then _ else _); [done|].
    destruct (Z.leb_spec (lk_start l + HANDLER_LOCK_TIMEOUT) (lp_now (lk_polls l n))); [done|].
    specialize (Hc n). apply IH; unfold LOCK_POLL_INTERVAL in *; lia. }
  apply Hgo; [|lia]. unfold HANDLER_LOCK_TIMEOUT, nanos, LOCK_POLL_INTERVAL in *. lia.
Qed.

(** ** Authorization *)
Lemma require_root_denies c op : ci_uid c ≠ 0 → ∃ m, require_root c op = Err (AccessDenied m).
Proof. intros Hu. unfold require_root. destruct (Z.eqb_spec (ci_uid c) 0); [done|eauto]. Qed.

Lemma authorize_root c m t : scope m = ScopeRoot → ci_uid c ≠ 0 →
  ∃ e, authorize_method c m t = Err e.
Proof.
  intros Hs Hu. unfold authorize_method. rewrite Hs. destruct (require_root_denies c (method_name m) Hu) as [x ->]. eauto.
Qed.

Lemma authorize_user c m user : scope m = UserScoped → ci_uid c ≠ 0 →
  authorize_method c m (Some user) = Ok tt ↔ username c = Some user.
Proof.
  intros Hs Hu. unfold authorize_method, require_user_authorized. rewrite Hs.
  destruct (Z.eqb_spec (ci_uid c) 0); [done|]. destruct (username c) as [nm|]; [|done].
  destruct (String.eqb_spec nm user) as [->|]; [done|]. split; [done|]. congruence.
Qed.

Lemma authorized_denies {R} caller m c s (k : Service → option (Answer R)) : scope m = ScopeRoot →
  ci_uid caller ≠ 0 → ∃ e, authorized caller m c s k = Some (Err e, [], s).
Proof.
  intros Hs Hu. destruct (authorize_root caller m None Hs Hu) as [e E]. exists e. unfold authorized. by rewrite E.
Qed.

Lemma run_authentication_denies debug ac caller user m i silent s e :
  authorize_method caller m (Some user) = Err e →
  run_authentication debug ac caller user m i silent s = Some (Err e, [], s).
Proof. unfold run_authentication. by intros ->. Qed.

Lemma denied debug call caller s : ci_uid caller ≠ 0 → ¬ own_authentication caller call →
  ∃ e, serve_call debug call caller s = Some (SentError e, [], s).
Proof.
  intros Hu Hown.
  assert (∀ R (f : R → Sent) m c k, scope m = ScopeRoot →
    ∃ e, sent f <$> authorized caller m c s k = Some (SentError e, [], s)) as Hroot.
  { intros R f m c k Hs. destruct (authorized_denies caller m c s k Hs Hu) as [e ->]. by exists e. }
  assert (∀ ac user m i silent e, authorize_method caller m (Some user) = Err e →
    ∃ e, sent SentAuth <$> run_authentication debug ac caller user m i silent s = Some (SentError e, [], s)) as Hauth.
  { intros ac user m i silent e E. rewrite (run_authentication_denies debug ac caller user m i silent s e E). by exists e. }
  destruct call; cbn [serve_call own_authentication] in *; try (by apply Hroot).
  - destruct (authorize_method caller (auth_method silent) (Some user)) as [[]|e] eqn:E; [|by eapply Hauth].
    destruct Hown. by apply (authorize_user caller (auth_method silent) user) in E; [|destruct silent|].
  - destruct (authorize_root caller MTestAuthenticate (Some user) eq_refl Hu) as [e E]. by eapply Hauth.
Qed.

(** Over its budget, an authentication of one's own costs a token check and nothing else. *)
Lemma over_budget debug ac caller user silent s l : ci_uid caller ≠ 0 → username caller = Some user →
  check_and_charge_at (ci_uid caller) (ac_ingress_now ac) (limiter s) = (false, l) →
  run_authentication debug ac caller user (auth_method silent) IntentAuthenticate silent s =
    Some (Ok (recoverable_auth_error (render RateLimited "")), [], with_limiter l s).
Proof.
  intros Hu Hn Hc. unfold run_authentication.
  assert (authorize_method caller (auth_method silent) (Some user) = Ok tt) as -> by (by apply authorize_user; [destruct silent|..]).
  assert (is_authentication (auth_method silent) = true) as -> by (by destruct silent).
  destruct (Z.eqb_spec (ci_uid caller) 0); [done|]. cbn. by rewrite Hc.
Qed.

(** ** A positive answer *)

Lemma preflight_admits env user i ctx h h1 :
  preflight_authenticate_with_context env user i ctx h = (None, h1) →
  admitted (rq_host env) (Handler.config h) user (rate_limiter h) (device_caps h) ctx (db (store h)) ∧
  same_setup h h1.
Proof.
  intros E. split; [|by apply preflight_fields in E as [? _]].
  unfold preflight_authenticate_with_context, pre_check_audited_with_context in E.
  destruct (pre_check_with_context _ _ _ _ _ _ _) as [[o|] s1] eqn:Ep; [|by eapply pre_check_none].
  by destruct (match o with AuthResult r => _ | _ => _ end).
Qed.

Lemma preflight_no_match env user i ctx h r fx h1 mr :
  preflight_authenticate_with_context env user i ctx h = (Some (r, fx), h1) → r = RespAuthResult mr →
  matched mr = false.
Proof.
  unfold preflight_authenticate_with_context, pre_check_audited_with_context.
  destruct (pre_check_with_context _ _ _ _ _ _ _) as [[o|] s1] eqn:Ep; [|done].
  destruct (match o with AuthResult r => _ | _ => _ end). intros [= <- _ _] Hr.
  destruct o as [mr'| | |]; try done. injection Hr as ->.
  eapply (pre_check_unmatched (rq_host env) (Handler.config h) user). by rewrite Ep.
Qed.

(** The scan behind a match of the handler: its configuration, user and environment. *)
Definition scan_matched (c : Config) (user : string) (i : AuthIntent) (env : RequestEnv) (mr : MatchResult) : Prop :=
  ∃ cam models stored effects,
    authenticate_with_embeddings (cam_caps cam) models c user (audit_source i) (rq_wall_at env) stored
      (rq_auth_cancelled env) (rq_start env) (rq_armed env) (rq_ticks env) (rq_fuel env)
    = Some (Finished (AuthResult mr) effects).

Lemma prechecked_scan env user i h mr fx h' : matched mr = true →
  handle_authenticate_prechecked env user i h = Some (Replied (RespAuthResult mr) fx h') →
  scan_matched (Handler.config h) user i env mr ∧ rq_cancelled env = false.
Proof.
  intros Hm. unfold handle_authenticate_prechecked.
  destruct (refresh_fields (rq_keys env) h) as [(Hc & _) _]. rewrite <- Hc.
  set (h1 := refresh_software_sealer (rq_keys env) h) in *. clearbody h1.
  destruct (list_models user (store h1)) as [[models|err] s]; [|done].
  destruct (load_user_embeddings user (with_store s h1)) as [[stored|m] h2] eqn:Eload;
    apply load_fields in Eload as [s2 ->]; [|done].
  unfold acquire_for_authentication, acquire_for. destruct (rq_cancelled env); [done|].
  destruct (match camera (set_deadline None _) with Some _ => _ | None => _ end) as [[cam|m] l].
  2: { by destruct (String.eqb m CANCELLED_MESSAGE). }
  destruct (authenticate_with_embeddings _ _ _ _ _ _ _ _ _ _ _ _) as [[o es|]|] eqn:Ea; [|done..].
  intros [= Ho _ _]. destruct o as [mr'| | |]; try done. injection Ho as ->.
  split; [|done]. by exists cam, models, stored, es.
Qed.

(** The lid was read to be open, or could not be read and [/proc] reports it open. *)
Definition lid_is_open (g : Glue) (env : RequestEnv) : Prop :=
  gl_lid_closed g = Ok false ∨ procfs_lid (rq_host env) = LidIsOpen.

Lemma lid_read_open g b : run_bounded_check "lid state" (lid_check g) = Ok b → gl_lid_closed g = Ok b.
Proof.
  intros (t & E & _)%run_bounded_check_ok. unfold lid_check in E. cbn in E.
  destruct (gl_lid_answered g); [|done]. injection E as _ E. unfold logind_lid_is_closed in E.
  destruct (context _ (gl_lid_proxy g)); [|done]. by apply map_err_ok in E.
Qed.

Lemma session_read_local g uid : run_bounded_check "caller session provenance" (session_check g uid) = Ok false →
  local_evidence (gl_bus g) uid.
Proof.
  intros (t & E & _)%run_bounded_check_ok. unfold session_check in E. cbn in E.
  destruct (gl_session_answered g); [|done]. injection E as _ E. by apply local_answer in E.
Qed.

(** What a match of [gated_attempt] passed, under the handler it ran on. *)
Lemma gated_match debug ac user m i silent provenance lid cp s reply fx s' :
  gated_attempt debug ac user m i silent provenance lid cp s = Some (Ok reply, fx, s') →
  ar_matched reply = true →
  let h := guarded (daemon s) in
  session_gate m h provenance = Ok tt ∧
  admitted (rq_host (ac_request ac)) (Handler.config h) user (rate_limiter h) (device_caps h)
    (context_of m i lid) (db (store h)) ∧
  capture_busy s = false ∧
  ∃ mr, matched mr = true ∧ reply = auth_reply mr ∧ rq_cancelled (ac_request ac) = false ∧
    epoch s = cp ∧ ac_late_cancel ac = false ∧ scan_matched (Handler.config h) user i (ac_request ac) mr.
Proof.
  unfold gated_attempt. replace (lock_handler_with_timeout (daemon s)) with (guarded (daemon s))
    by (unfold lock_handler_with_timeout, try_lock; by destruct (poisoned (daemon s))).
  destruct (session_gate m _ provenance) as [[]|e] eqn:Eg; [|done].
  destruct (lid_was_cancelled lid && _); [by intros [= <- _ _]|].
  destruct (preflight_authenticate_with_context _ _ _ _ _) as [[[r fx1]|] h1] eqn:Ep.
  { intros E Hm. destruct r as [mr| | | | | | | | | ]; cbn in E; try discriminate; injection E as <- _ _; try done.
    cbn in Hm. by rewrite (preflight_no_match _ _ _ _ _ _ _ _ mr Ep eq_refl) in Hm. }
  destruct (preflight_admits _ _ _ _ _ _ Ep) as [Hadm [Hcfg _]].
  unfold try_acquire. change (capture_busy (set_handler h1 s)) with (capture_busy s).
  destruct (capture_busy s) eqn:Eb; [done|].
  set (refused := negb _ || _). change (epoch (with_busy true (set_handler h1 s))) with (epoch s) in refused.
  destruct (handle_authenticate_prechecked _ _ _ _) as [[r fx1 h2|h2]|] eqn:Eh; [|done..].
  intros E Hm. destruct r as [mr| | | | | | | | | ]; cbn in E; try discriminate; injection E as <- _ _; try done.
  apply (prechecked_scan _ _ _ _ mr) in Eh as [Hscan Hcan]; [|done].
  assert (refused = false) as Hr by (by destruct refused). rewrite Hr in Hscan, Hcan.
  unfold refused in Hr. apply orb_false_iff in Hr as [He Hl]. apply negb_false_iff, Z.eqb_eq in He.
  split; [done|]. split; [done|]. split; [done|]. exists mr. rewrite Hcfg in Hscan. done.
Qed.

(** The gates that were snapshotted, and what their checks answered. *)
Lemma admitted_match debug ac caller user m i silent s reply fx s' :
  run_admitted debug ac caller user m i silent s = Some (Ok reply, fx, s') → ar_matched reply = true →
  ∃ before ssh lid_on reply0,
    reply = redact_similarity_unless_root (ci_uid caller =? 0) reply0 ∧
    gated_attempt debug ac user m i silent
      (maybe_check ssh "caller session provenance" (ac_session_check ac))
      (maybe_check lid_on "lid state" (ac_lid_check ac)) (epoch s) (ac_meanwhile ac before)
    = Some (Ok reply0, fx, s') ∧ ar_matched reply0 = true.
Proof.
  unfold run_admitted. destruct (capture_busy s); [done|].
  set (before := ac_before_snapshot ac _). destruct (snapshot_gates ac m before) as [[[ssh lid_on]|e]|]; [|done..].
  destruct (lock_before_capture _ _) as [[[]|e]|]; [|done..].
  destruct (gated_attempt _ _ _ _ _ _ _ _ _ _) as [[[r fx1] s1]|] eqn:E; [|done].
  cbn. destruct r as [reply0|e]; intros [= <- <- <-] Hm.
  exists before, ssh, lid_on, reply0. split; [done|]. split; [done|]. by destruct (ci_uid caller =? 0).
Qed.

Lemma gate_local ac caller g m h ssh : is_authentication m = true →
  session_gate m h (maybe_check ssh "caller session provenance"
    (ac_session_check (with_checks (session_check g (ci_uid caller)) (lid_check g) ac))) = Ok tt →
  abort_if_ssh (security (Handler.config h)) = true → local_evidence (gl_bus g) (ci_uid caller).
Proof.
  intros Hm Hg Ha. unfold session_gate in Hg. rewrite Hm, Ha in Hg. unfold maybe_check in Hg. cbn in Hg.
  destruct (negb ssh); [done|]. destruct (run_bounded_check _ _) as [[]|] eqn:E; [done| |done].
  by apply session_read_local in E.
Qed.

Lemma gate_lid ac g sess host config user rl caps d m i lid_on : is_authentication m = true →
  admitted host config user rl caps
    (context_of m i (maybe_check lid_on "lid state" (ac_lid_check (with_checks sess (lid_check g) ac)))) d →
  abort_if_lid_closed (security config) = true →
  gl_lid_closed g = Ok false ∨ procfs_lid host = LidIsOpen.
Proof.
  intros Hm [_ _ Hl _ _ _ _] Ha. unfold context_of in Hl. rewrite Hm in Hl. cbn in Hl.
  destruct Hl as [Hl|[Hl|Hl]]; [done|congruence|]. unfold lid_source_of, maybe_check in Hl.
  destruct (negb lid_on); [right; by destruct (procfs_lid host)|].
  destruct (run_bounded_check _ _) as [b|[]] eqn:E; cbn in Hl.
  - left. apply lid_read_open in E. by destruct b.
  - right. by destruct (procfs_lid host).
  - right. by destruct (procfs_lid host).
Qed.

Lemma run_authentication_admitted debug ac caller user silent s reply fx s' :
  run_authentication debug ac caller user (auth_method silent) IntentAuthenticate silent s = Some (Ok reply, fx, s') →
  ar_matched reply = true →
  (ci_uid caller = 0 ∨ username caller = Some user) ∧
  ∃ l, run_admitted debug ac caller user (auth_method silent) IntentAuthenticate silent (with_limiter l s)
       = Some (Ok reply, fx, s') ∧
       (ci_uid caller ≠ 0 → check_and_charge_at (ci_uid caller) (ac_ingress_now ac) (limiter s) = (true, l)).
Proof.
  unfold run_authentication. destruct (authorize_method _ _ _) as [[]|] eqn:Ea; [|done].
  assert (is_authentication (auth_method silent) = true) as -> by (by destruct silent).
  destruct (Z.eqb_spec (ci_uid caller) 0) as [Hz|Hz]; cbn [negb andb].
  - intros E _. split; [by left|]. exists (limiter s). split; [by destruct s|done].
  - destruct (check_and_charge_at _ _ _) as [[] l] eqn:Ec; cbn [negb]; [|by intros [= <- _ _]].
    intros E _. split; [right; by apply (authorize_user caller (auth_method silent)) in Ea; [|destruct silent|]|].
    exists l. by split.
Qed.

(** ** What an attempt may answer *)

(** An unmatched result names no model, and scores zero when nobody was seen. *)
Definition unmatched_ok (mr : MatchResult) : Prop :=
  matched mr = false → mr_model_id mr = None ∧ (face_detected mr = false → similarity mr = f32_zero).

Definition response_ok (r : DaemonResponse) : Prop :=
  match r with RespAuthResult mr => unmatched_ok mr | RespSuppressed | RespError _ => True | _ => False end.

Definition quiet (st : ScanState) : Prop := seen_face st = false → best_similarity st = f32_zero.

Lemma compare_faces_seen caps c set frame faces : ∀ st fm st',
  compare_faces caps c set frame faces st fm = Some st' → seen_face st' = seen_face st.
Proof.
  induction faces as [|[det e] rest IH]; intros st fm st'; cbn; [by intros [= <-]|].
  destruct (if is_ir caps then _ else _) as [[]|]; [|apply IH|done].
  unfold compare_face. destruct (best_match e set) as [sim id].
  set (st1 := if f32_gt sim _ then _ else st). assert (seen_face st1 = seen_face st) as <- by (by subst st1; destruct (f32_gt sim _)).
  by destruct (f32_ge sim _ && negb fm); intros ->%IH.
Qed.

Definition outcome_ok (o : AuthOutcome) : Prop :=
  match o with AuthResult mr => unmatched_ok mr | _ => True end.

Lemma gates_seen c wall source user models start now st :
  match gates models c user source wall start now st with
  | SContinue st' => seen_face st' = seen_face st
  | SReturn o _ => outcome_ok o
  | _ => False
  end.
Proof.
  unfold gates. destruct (require_frame_variance _).
  - destruct (passes _ _); [|done]. by destruct (landmarks_block c (pass_variance st)).
  - destruct (f32_ge _ _); [|done]. by destruct (landmarks_block c st).
Qed.

Lemma step_quiet caps c wall source user models set start deadline nfd t st : quiet st →
  match scan_step caps models c user source wall set start deadline nfd t st with
  | SContinue st' | SBreak st' => quiet st'
  | SReturn o _ => outcome_ok o
  | SPanic => True
  end.
Proof.
  intros Hq. unfold scan_step. destruct (negb _); [done|]. destruct (t_cancelled t); [done|].
  destruct (_ && is_some_and _ _); [done|]. destruct (t_capture t) as [frame|]; [|done].
  destruct (is_dark_with_config _ _ _); [done|]. destruct (t_faces t) as [[|[det0 e0] rest]|]; [done| |done].
  destruct (if is_ir caps then _ else _) as [[]|]; [done| |done].
  destruct (compare_faces _ _ _ _ _ _ _) as [st1|] eqn:Ec; [|done]. apply compare_faces_seen in Ec.
  pose proof (gates_seen c wall source user models start (t_done t) st1) as Hg.
  destruct (gates _ _ _ _ _ _ _ _); try done. intros Hs. rewrite Hg, Ec in Hs. done.
Qed.

Lemma finish_ok c wall source user start now st : quiet st → outcome_ok (finish c user source wall start now st).1.
Proof.
  intros Hq. unfold finish. destruct (_ && _); [done|]. cbn. intros _. by split.
Qed.

Lemma loop_ok caps c wall source user models set start deadline nfd env fuel : ∀ n st o es, quiet st →
  scan_loop caps models c user source wall set start deadline nfd env fuel n st = Some (Finished o es) → outcome_ok o.
Proof.
  induction fuel as [|fuel IH]; intros n st o es Hq; [done|]. cbn.
  pose proof (step_quiet caps c wall source user models set start deadline nfd (env n) st Hq) as Hs.
  destruct (scan_step _ _ _ _ _ _ _ _ _ _ _ _) as [st'|st'|o' es'|]; [by apply IH| | |done].
  - pose proof (finish_ok c wall source user start (t_done (env n)) st' Hs) as Hf.
    destruct (finish _ _ _ _ _ _ _) as [o' es']. by intros [= <- _].
  - by intros [= <- _].
Qed.

Lemma attempt_ok caps models c user source wall stored cancel0 start armed env fuel o es :
  authenticate_with_embeddings caps models c user source wall stored cancel0 start armed env fuel = Some (Finished o es) →
  outcome_ok o.
Proof.
  unfold authenticate_with_embeddings. destruct cancel0; [by intros [= <- _]|].
  destruct (bool_decide _); [by intros [= <- _]|]. by apply loop_ok.
Qed.

Lemma outcome_response o : outcome_ok o → response_ok (response_of_auth o).
Proof. by destruct o. Qed.

Lemma preflight_response env user i ctx h r fx h1 :
  preflight_authenticate_with_context env user i ctx h = (Some (r, fx), h1) → response_ok r.
Proof.
  unfold preflight_authenticate_with_context, pre_check_audited_with_context, pre_check_with_context.
  destruct (disabled _); [by intros [= <- _ _]|]. destruct (_ && _ && _); [by intros [= <- _ _]|].
  destruct (if _ && _ then _ else _); [by intros [= <- _ _]|].
  destruct (has_models user (store h)) as [[[]|e] s1];
    [|by destruct (suppress_unknown _); intros [= <- _ _]|by intros [= <- _ _]].
  destruct (check _ _ user s1) as [[[]|e] s2]; [|by intros [= <- _ _]..].
  destruct (bool_decide _); [by intros [= <- _ _]|]. by destruct (_ && _); intros [= <- _ _].
Qed.

Lemma prechecked_response env user i h r fx h' :
  handle_authenticate_prechecked env user i h = Some (Replied r fx h') → response_ok r.
Proof.
  unfold handle_authenticate_prechecked. set (h1 := refresh_software_sealer _ h). clearbody h1.
  destruct (list_models user (store h1)) as [[models|err] s]; [|by intros [= <- _ _]].
  destruct (load_user_embeddings user (with_store s h1)) as [[stored|m] h2]; [|by intros [= <- _ _]].
  destruct (acquire_for_authentication _ _ _) as [[cam|m] l].
  2: { by destruct (String.eqb m CANCELLED_MESSAGE); intros [= <- _ _]. }
  destruct (authenticate_with_embeddings _ _ _ _ _ _ _ _ _ _ _ _) as [[o es|]|] eqn:Ea; [|done..].
  apply attempt_ok in Ea. intros [= <- _ _]. by apply outcome_response.
Qed.

Lemma attempt_response env user i ctx h r fx h' :
  step (EvAuthenticate env user i ctx) h = Some (Replied r fx h') → response_ok r.
Proof.
  cbn. destruct (preflight_authenticate_with_context _ _ _ _ _) as [[[r1 fx1]|] h1] eqn:Ep.
  - intros [= <- _ _]. by eapply preflight_response.
  - by apply prechecked_response.
Qed.

(** ** The wire *)

(** The PAM module's reading of a reply. *)
Definition decode (r : AuthReply) : AuthResponse :=
  parse_auth_reply (ar_matched r, ar_model_id r, ar_label r, ar_similarity r).

(** What the handler meant, to a caller that may see scores and to one that may not. *)
Definition meaning (root : bool) (r : DaemonResponse) : AuthResponse :=
  let shown sim := if root then sim else f32_zero in
  match r with
  | RespAuthResult mr =>
      if matched mr then Matched (shown (similarity mr))
      else if face_detected mr then NoMatchFaceSeen else NoMatch (shown (similarity mr))
  | RespSuppressed => SuppressedReply
  | RespError message => ErrorReply message
  | _ => ErrorReply ""
  end.

Lemma decode_auth root mr : unmatched_ok mr →
  decode (redact_similarity_unless_root root (auth_reply mr)) =
  (let sim := if root then f32_of_f64 (f64_of_f32 (similarity mr)) else f32_zero in
   if matched mr then Matched sim else if face_detected mr then NoMatchFaceSeen else NoMatch sim).
Proof.
  intros Hok. unfold decode, auth_reply, redact_similarity_unless_root, wire_model_id, unmatched_ok in *.
  destruct (matched mr) eqn:Em.
  - by destruct root; cbn; rewrite ?Em.
  - destruct (Hok eq_refl) as [-> _]. by destruct root; cbn; rewrite ?Em; destruct (face_detected mr).
Qed.

Lemma redacted_code mr oneshot : unmatched_ok mr →
  answer_daemon (Ok (decode (redact_similarity_unless_root false (auth_reply mr)))) oneshot =
  answer_daemon (Ok (decode (redact_similarity_unless_root true (auth_reply mr)))) oneshot.
Proof.
  intros Hok. rewrite !decode_auth by done. destruct (matched mr) eqn:Em; [done|].
  destruct (face_detected mr) eqn:Ef; [done|]. destruct (Hok Em) as [_ Hz]. by rewrite (Hz Ef).
Qed.

(** ** No method meets a response it does not expect *)

Definition fits (request : DaemonRequest) (r : DaemonResponse) : bool :=
  match r, request with
  | RespError _, _ => true
  | (RespAuthResult _ | RespSuppressed), ReqAuthenticate _ => true
  | RespEnrolled _ _, ReqEnroll _ _ => true
  | RespModels _, ReqListModels _ => true
  | RespRemoved, (ReqRemoveModel _ _ | ReqClearModels _) => true
  | RespFrame _, ReqPreviewFrame => true
  | RespDetectFrame _ _, ReqPreviewDetectFrame _ => true
  | RespDevices _, ReqListDevices => true
  | RespOk, (ReqReleaseCamera | ReqPing | ReqShutdown) => true
  | _, _ => false
  end.

Lemma storage_reply_fits {A} (ok : A → DaemonResponse) x h r fx h' request :
  (∀ a, fits request (ok a) = true) → storage_reply ok x h = Some (Replied r fx h') → fits request r = true.
Proof. intros Hok. destruct x as [[a|e] s]; intros [= <- _ _]; [apply Hok|by destruct request]. Qed.

Lemma enroll_fits env user label h r fx h' :
  handle_enroll env user label h = Some (Replied r fx h') → fits (ReqEnroll user label) r = true.
Proof.
  unfold handle_enroll. destruct (ensure_enroll_encryption_allowed _); [|by intros [= <- _ _]].
  set (h1 := refresh_software_sealer _ h). clearbody h1. destruct (negb _ && _); [by intros [= <- _ _]|].
  destruct (acquire _ _ _) as [[cam|m] l]; [|by intros [= <- _ _]].
  destruct (ensure_enrollment_binding_allowed _ _); [|by intros [= <- _ _]].
  destruct (enroll _ _ _ _ _ _ _ _ _) as [[o s|]|]; [|done..]. intros [= <- _ _]. by destruct o.
Qed.

Lemma preview_fits env h r fx h' : handle_preview_frame env h = Some (Replied r fx h') → fits ReqPreviewFrame r = true.
Proof.
  unfold handle_preview_frame. destruct (acquire _ _ _) as [[cam|m] l]; [|by intros [= <- _ _]].
  destruct (rq_capture env) as [f|e]; [|by intros [= <- _ _]]. by destruct (rq_jpeg env f); intros [= <- _ _].
Qed.

Lemma detect_fits env user h r fx h' : handle_preview_detect_frame env user h = Some (Replied r fx h') →
  fits (ReqPreviewDetectFrame user) r = true.
Proof.
  unfold handle_preview_detect_frame. destruct (acquire _ _ _) as [[cam|m] l]; [|by intros [= <- _ _]].
  destruct (rq_capture env) as [f|e]; [|by intros [= <- _ _]].
  destruct (detect_and_match _ _ _) as [faces h3]. by destruct (rq_jpeg env f); intros [= <- _ _].
Qed.

Lemma handler_fits env request h r fx h' : (∀ user, request ≠ ReqAuthenticate user) →
  handle_with_cancel env request h = Some (Replied r fx h') → fits request r = true.
Proof.
  intros Hna. destruct request; cbn [handle_with_cancel]; try (by intros [= <- _ _]).
  - by destruct (Hna user).
  - apply enroll_fits.
  - by apply storage_reply_fits.
  - by apply storage_reply_fits.
  - by apply storage_reply_fits.
  - apply preview_fits.
  - apply detect_fits.
  - by destruct (rq_devices env); intros [= <- _ _].
Qed.

Lemma under_lock_decode {R} c cap env request (d1 d2 : DaemonResponse → result R BusError) s :
  (∀ user, request ≠ ReqAuthenticate user) → (∀ r, fits request r = true → d1 r = d2 r) →
  under_lock c cap env request d1 s = under_lock c cap env request d2 s.
Proof.
  intros Hna Hd. unfold under_lock. destruct (lock_before_capture _ _) as [[]|]; [|done..].
  destruct (handle_with_cancel _ _ _) as [[r fx h|h]|] eqn:E; [|done..].
  by rewrite (Hd r (handler_fits _ _ _ _ _ _ Hna E)).
Qed.

Lemma gated_debug d1 d2 ac user m i silent provenance lid cp s :
  gated_attempt d1 ac user m i silent provenance lid cp s = gated_attempt d2 ac user m i silent provenance lid cp s.
Proof.
  assert (∀ c r, response_ok r → finish_authentication d1 c silent r = finish_authentication d2 c silent r) as Hf
    by (intros c r; by destruct r).
  unfold gated_attempt. destruct (session_gate _ _ _); [|done]. destruct (_ && _); [done|].
  destruct (preflight_authenticate_with_context _ _ _ _ _) as [[[r fx]|] h1] eqn:Ep.
  { apply preflight_response in Ep. by rewrite Hf. }
  destruct (try_acquire _ _); [|done].
  destruct (handle_authenticate_prechecked _ _ _ _) as [[r fx h2|h2]|] eqn:E; [|done..].
  apply prechecked_response in E. by rewrite Hf.
Qed.

Lemma run_debug d1 d2 ac caller user m i silent s :
  run_authentication d1 ac caller user m i silent s = run_authentication d2 ac caller user m i silent s.
Proof.
  assert (∀ s, run_admitted d1 ac caller user m i silent s = run_admitted d2 ac caller user m i silent s) as Ha.
  { intros s0. unfold run_admitted. destruct (capture_busy s0); [done|].
    destruct (snapshot_gates _ _ _) as [[[ssh lid]|]|]; [|done..].
    destruct (lock_before_capture _ _) as [[]|]; [|done..]. by rewrite (gated_debug d1 d2). }
  unfold run_authentication. destruct (authorize_method _ _ _); [|done]. destruct (_ && _); [|apply Ha].
  destruct (check_and_charge_at _ _ _) as [[] l]; [apply Ha|done].
Qed.
End Server.

(** C24.  Root may call every method; anyone else may only authenticate as themselves. Every
    other call is refused with an error, does nothing outside and leaves the service exactly as
    it was: no activity, no reload, no capture slot, no lock. And an authentication of one's own
    that is over the ingress budget costs the token check and nothing else. *)
Theorem only_root_but_own_authentication `{ShowSqlite} `{RowOrder} `{NanEncoding} `{Subtle} `{Aead} `{Sha256}
    `{TpmDevice} `{HashOrder} `{ShowBus} `{ShowDebug} debug call caller s : ci_uid caller ≠ 0 →
  (¬ own_authentication caller call → ∃ e, serve_call debug call caller s = Some (SentError e, [], s)) ∧
  (∀ ac user silent l, call = CallAuthenticate ac user silent → own_authentication caller call →
     check_and_charge_at (ci_uid caller) (ac_ingress_now ac) (limiter s) = (false, l) →
     serve_call debug call caller s =
       Some (SentAuth (recoverable_auth_error (render RateLimited "")), [], with_limiter l s)).
Proof.
  intros Hu. split; [by apply denied|]. intros ac user silent l -> Hown Hc. cbn in Hown |- *.
  by rewrite (over_budget debug ac caller user silent s l).
Qed.

(** C23.  A positive answer of [Authenticate] is earned, whatever other calls, reloads of the
    configuration and cancellations were interleaved with it: the caller is root or the user;
    the handler whose lock was held from the gates to the reply admitted the attempt under its
    own configuration (enabled, enrolled, not rate limited, infrared); where that configuration
    refuses remote sessions there is local evidence for the caller, even when the gate was
    switched on mid-call, and where it refuses a closed lid the lid was shown to be open; no
    other capture held the slot; nothing had cancelled the request since its checkpoint; and the
    reply is that of a scan of this call's frames under that configuration. *)
Theorem positive_reply_is_earned `{ShowSqlite} `{RowOrder} `{NanEncoding} `{Subtle} `{Aead} `{Sha256}
    `{TpmDevice} `{HashOrder} `{ShowBus} `{ShowDebug} debug g ac user silent s reply fx s' signal :
  authenticate_request debug g ac user silent s = Some ((Ok reply, fx, s'), signal) →
  ar_matched reply = true →
  ∃ caller before ctx, resolve_caller_identity g = Ok caller ∧
    (ci_uid caller = 0 ∨ username caller = Some user) ∧
    let at_capture := ac_meanwhile ac before in
    let h := guarded (daemon at_capture) in
    let c := Handler.config h in
    admitted (rq_host (ac_request ac)) c user (rate_limiter h) (device_caps h) ctx (db (store h)) ∧
    (abort_if_ssh (security c) = true → local_evidence (gl_bus g) (ci_uid caller)) ∧
    (abort_if_lid_closed (security c) = true → lid_is_open g (ac_request ac)) ∧
    capture_busy at_capture = false ∧
    epoch at_capture = epoch s ∧ rq_cancelled (ac_request ac) = false ∧
    ∃ mr, matched mr = true ∧ reply = redact_similarity_unless_root (ci_uid caller =? 0) (auth_reply mr) ∧
      scan_matched c user IntentAuthenticate (ac_request ac) mr.
Proof.
  unfold authenticate_request. destruct (resolve_caller_identity g) as [caller|e]; [|done].
  fold (auth_method silent). set (ac1 := with_checks _ _ ac).
  destruct (run_authentication debug ac1 caller user (auth_method silent) IntentAuthenticate silent s)
    as [[[r fx1] s1]|] eqn:E; [|done].
  intros [= -> <- <- _] Hm.
  apply run_authentication_admitted in E as (Hwho & l & E & _); [|done].
  apply admitted_match in E as (before & ssh & lid_on & reply0 & -> & E & Hm0); [|done].
  apply gated_match in E as (Hg & Hadm & Hb & mr & Hmr & -> & Hcan & He & _ & Hscan); [|done].
  assert (is_authentication (auth_method silent) = true) as Ham by (by destruct silent).
  exists caller, before, (context_of (auth_method silent) IntentAuthenticate
    (maybe_check lid_on "lid state" (ac_lid_check ac1))).
  split; [done|]. split; [done|]. cbn zeta. split; [exact Hadm|].
  split; [intros Ha; by eapply gate_local|]. split; [intros Ha; by eapply gate_lid|].
  split; [exact Hb|]. split; [exact He|]. split; [exact Hcan|]. by exists mr.
Qed.

(** The reply means to the PAM module what it meant to the handler. Every response an
    attempt can give is encoded as a reply, never as an unexpected one; decoding it gives back
    the response: a match, a face that was seen and refused, nobody seen, no enrolled model, or
    the error message, with the score for root and zero for anyone else; and hiding the score
    does not change the code the module returns. *)
Theorem wire_reply_roundtrip `{ShowSqlite} `{RowOrder} `{NanEncoding} `{Subtle} `{Aead} `{Sha256}
    `{TpmDevice} debug c silent env user i ctx h r fx h' oneshot :
  step (EvAuthenticate env user i ctx) h = Some (Replied r fx h') →
  ∃ reply, fst (finish_authentication debug c silent r) = Ok reply ∧
    decode (redact_similarity_unless_root false reply) = meaning false r ∧
    ((∀ mr, r = RespAuthResult mr → f32_valid (similarity mr)) →
       decode (redact_similarity_unless_root true reply) = meaning true r) ∧
    answer_daemon (Ok (decode (redact_similarity_unless_root false reply))) oneshot =
    answer_daemon (Ok (decode (redact_similarity_unless_root true reply))) oneshot.
Proof.
  intros Hr%attempt_response. destruct r as [mr| | | | | | | | |m]; try done; cbn [finish_authentication fst].
  - exists (auth_reply mr). split; [done|]. split; [by rewrite decode_auth|]. split; [|by apply redacted_code].
    intros Hv. rewrite decode_auth by done. by rewrite f64_of_f32_back by (by apply Hv).
  - by exists suppressed_reply.
  - by exists (recoverable_auth_error m).
Qed.

(** Every method is answered with a response it expects, so the error for an unexpected
    one, which would print a whole response (templates' labels, frames, scores), is never sent:
    no reply of any method depends on how such a response would be printed. *)
Theorem replies_fit_requests `{ShowSqlite} `{RowOrder} `{NanEncoding} `{Subtle} `{Aead} `{Sha256}
    `{TpmDevice} `{HashOrder} d1 d2 call caller s : serve_call d1 call caller s = serve_call d2 call caller s.
Proof.
  assert (∀ R (f : R → Sent) m c k1 k2, (∀ s, k1 s = k2 s) →
    sent f <$> authorized caller m c s k1 = sent f <$> authorized caller m c s k2) as Hauth.
  { intros R f m c k1 k2 Hk. unfold authorized. destruct (authorize_method _ _ _); [|done]. by rewrite Hk. }
  destruct call; cbn [serve_call]; unfold test_authenticate_as; try (by rewrite (run_debug d1 d2)); try done;
    apply Hauth; intros s1; unfold capturing; repeat (destruct (try_acquire _ _); [|done]);
    apply under_lock_decode; (done || by intros []).
Qed.

(** ** Witnesses: alice, enrolled, unlocks her session *)
#[local] Existing Instance show_sqlite_plain.
#[local] Existing Instance sum_hash.
#[local] Existing Instance no_tpm.
#[local] Existing Instance toy_aead.
#[local] Existing Instance nan_x86.
#[local] Existing Instance subtle_reference.
#[local] Existing Instance key_order.
#[local] Existing Instance show_bus_plain.
#[local] Existing Instance show_debug_plain.

Definition textured_frame : Frame :=
  {| rgb := []; gray := concat (repeat [64; 200] 32); width := 8; height := 8 |}.

Definition turning_tick (k : nat) : Tick :=
  {| t_loop := nanos (Z.of_nat k); t_cancelled := false; t_no_face := nanos (Z.of_nat k);
     t_capture := Ok textured_frame; t_faces := Ok [(good_face, angle k)]; t_done := nanos (Z.of_nat k) |}.

Definition quick_lock : LockRun :=
  {| lk_start := 0; lk_polls _ := {| lp_held := false; lp_slot_busy := false; lp_now := 0 |}; lk_fuel := 1 |}.

Definition no_check : BoundedCheck := {| check_answer := None; check_cancelled_at := None; check_timeout := 0 |}.

Definition evening_call : AuthCall := {|
  ac_ingress_now := 0; ac_now_secs := 100; ac_mtime := None; ac_rebuild := None; ac_during_reload s := s;
  ac_first_lock := quick_lock; ac_before_snapshot s := s; ac_session_check := no_check; ac_lid_check := no_check;
  ac_second_lock := quick_lock; ac_meanwhile s := s; ac_late_cancel := false;
  ac_request := daily_env_with turning_tick 40; ac_join_error := "panic" |}.

Definition alice_glue : Glue := {|
  gl_sender := Some ":1.7"; gl_proxy := Ok tt; gl_unix_user := Ok 1000; gl_username _ := Some "alice";
  gl_bus := manager_bus; gl_session_answered := Some 1000; gl_session_cancelled := None;
  gl_lid_proxy := Ok tt; gl_lid_closed := Ok false; gl_lid_answered := Some 1000; gl_lid_cancelled := None |}.

#[local] Abbreviation no_debug := (λ _ : DaemonResponse, "").
#[local] Abbreviation enrolled_handler :=
  (match handler_new calm_env config_default (fresh_store (λ _, None)) {| max_failures := 5; limiter_window_secs := 60 |}
     infrared true None ∅ with
   | Ok h0 => run_all [EvRequest (daily_env 10) (ReqEnroll "alice" "default")] h0
   | Err _ => None
   end).
#[local] Abbreviation evening h :=
  (authenticate_request no_debug alice_glue evening_call "alice" false (service_new h None 0)).

Lemma evening_matches : ∃ h reply fx s' signal,
  enrolled_handler = Some h ∧ evening h = Some ((Ok reply, fx, s'), signal) ∧ ar_matched reply = true.
Proof.
  assert (match enrolled_handler with
    | Some h => match evening h with Some ((Ok reply, _, _), _) => ar_matched reply | _ => false end
    | None => false end = true) as Hc by (vm_compute; reflexivity).
  revert Hc. destruct enrolled_handler as [h|]; [|done].
  destruct (evening h) as [[[[[reply|] fx] s'] signal]|] eqn:E; [|done..]. intros Hm.
  by exists h, reply, fx, s', signal.
Qed.

Lemma positive_reply_is_earned_witness : ∃ h reply fx s' signal mr,
  evening h = Some ((Ok reply, fx, s'), signal) ∧ matched mr = true ∧
  reply = redact_similarity_unless_root false (auth_reply mr).
Proof.
  destruct evening_matches as (h & reply & fx & s' & signal & Hh & E & Hm).
  destruct (positive_reply_is_earned no_debug alice_glue evening_call "alice" false (service_new h None 0)
    reply fx s' signal E Hm)
    as (caller & before & ctx & Hc & _ & _ & _ & _ & _ & _ & _ & mr & Hmr & Hr & _).
  injection Hc as <-. exists h, reply, fx, s', signal, mr. split; [exact E|]. split; [exact Hmr|exact Hr].
Defined.

Definition bare_call : Call := {| c_now_secs := 0; c_mtime := None; c_rebuild := None; c_during_reload s := s;
  c_lock := quick_lock; c_waiting s := s; c_request := daily_env 1; c_join_error := "" |}.

Lemma only_root_but_own_authentication_witness : ∃ h e,
  serve_call no_debug (CallPreviewFrame bare_call) {| ci_uid := 1000; username := Some "alice" |}
    (service_new h None 0) = Some (SentError e, [], service_new h None 0).
Proof.
  destruct evening_matches as (h & _). exists h.
  apply (only_root_but_own_authentication no_debug); [vm_compute; discriminate|]. intros [].
Defined.

(** The attempt of the same call, at the handler. *)
Lemma evening_attempt : ∃ h r fx h', step (EvAuthenticate (daily_env_with turning_tick 40) "alice" IntentAuthenticate
    (ctx_daemon_authenticate (Resolved false))) h = Some (Replied r fx h') ∧
  match r with RespAuthResult mr => matched mr && valid_binary 24 128 (similarity mr) | _ => false end = true.
Proof.
  assert (match enrolled_handler with
    | Some h => match step (EvAuthenticate (daily_env_with turning_tick 40) "alice" IntentAuthenticate
                        (ctx_daemon_authenticate (Resolved false))) h with
                | Some (Replied (RespAuthResult mr) _ _) => matched mr && valid_binary 24 128 (similarity mr)
                | _ => false end
    | None => false end = true) as Hc by (vm_compute; reflexivity).
  revert Hc. destruct enrolled_handler as [h|]; [|done].
  destruct (step _ h) as [[r fx h'|]|] eqn:E; [|done..]. intros Hm. exists h, r, fx, h'. split; [done|].
  by destruct r.
Qed.

Lemma wire_reply_roundtrip_witness : ∃ r reply,
  fst (finish_authentication no_debug notification_default false r) = Ok reply ∧
  decode (redact_similarity_unless_root true reply) = meaning true r ∧
  answer_daemon (Ok (decode (redact_similarity_unless_root false reply))) None = Some PAM_SUCCESS.
Proof.
  destruct evening_attempt as (h & r & fx & h' & E & Hm).
  destruct (wire_reply_roundtrip no_debug notification_default false _ _ _ _ h r fx h' None E)
    as (reply & Hf & Hd & Hr & _).
  exists r, reply. split; [exact Hf|].
  destruct r as [mr| | | | | | | | | ]; try discriminate Hm. apply andb_true_iff in Hm as [Hm Hv]. split.
  - apply Hr. intros mr' [= <-]. exact Hv.
  - rewrite Hd. cbn. rewrite Hm. reflexivity.
Defined.
