(* ===== verification/Capabilities.v ===== *)
(** * Giving up capabilities before serving ([crates/facelock-daemon/src/server.rs])

    At startup, while the process has one thread, the daemon narrows its Linux capabilities to
    the two the notification helper needs, reads back what it really holds, and refuses to serve
    over anything more. The kernel is a parameter: what [prctl], [capget] and [capset] answer
    and do to the calling thread. A mask is a [Z] whose bit [n] is capability [n]. *)

From S2P Require Import Prelude.

Definition retained_capability_mask : Z := Z.lor (Z.shiftl 1 7) (Z.shiftl 1 6).

Definition capabilities_to_keep (permitted : Z) : Z := as_u32 (Z.land permitted retained_capability_mask).

Definition CAP_CHOWN : Z := 0.

Record HeldCapabilities := { effective : Z; permitted : Z; inheritable : Z }.

Definition capabilities_beyond_retained (held : HeldCapabilities) : Z :=
  Z.ldiff (Z.lor (Z.lor (effective held) (permitted held)) (inheritable held)) retained_capability_mask.

(** [{mask:#018x}]: [0x] and sixteen hexadecimal digits. *)
Definition hex_digit (n : Z) : ascii :=
  Ascii.ascii_of_nat (Z.to_nat (if n <? 10 then 48 + n else 87 + n)).

Fixpoint hex_digits (digits : nat) (n : Z) (acc : string) : string :=
  match digits with
  | O => acc
  | S digits' => hex_digits digits' (n / 16) (String (hex_digit (n mod 16)) acc)
  end.

Definition describe_capability_mask (mask : Z) : string :=
  if negb (Z.land mask (Z.shiftl 1 CAP_CHOWN) =? 0)
  then "0x" +:+ hex_digits 16 mask "" +:+ " (includes CAP_CHOWN)"
  else "0x" +:+ hex_digits 16 mask "".

(** One of the two words of [_LINUX_CAPABILITY_VERSION_3]: capabilities 0-31, then 32-63. *)
Record CapData := { cd_effective : Z; cd_permitted : Z; cd_inheritable : Z }.

Definition cap_data (mask : Z) : CapData :=
  {| cd_effective := mask; cd_permitted := mask; cd_inheritable := mask |}.

(** The calling thread as the kernel keeps it; an error carries the text of [errno]. *)
Class Kernel := {
  Thread : Type;
  prctl_no_new_privs : Thread → result unit string * Thread;
  sys_capget : Thread → result (CapData * CapData) string;
  sys_capset : CapData * CapData → Thread → result unit string * Thread;
}.

Section Drop.
Context `{Kernel}.

Definition drop_capabilities (keep : Z) (t : Thread) : result unit string * Thread :=
  match prctl_no_new_privs t with
  | (Err e, t) => (Err ("prctl(PR_SET_NO_NEW_PRIVS) failed: " +:+ e), t)
  | (Ok _, t) =>
      match sys_capset (cap_data keep, cap_data 0) t with
      | (Err e, t) => (Err ("capset syscall failed: " +:+ e), t)
      | (Ok _, t) => (Ok tt, t)
      end
  end.

Definition word (lo hi : Z) : Z := Z.lor lo (Z.shiftl hi 32).

Definition read_capabilities (t : Thread) : result HeldCapabilities string :=
  match sys_capget t with
  | Err e => Err ("capget syscall failed: " +:+ e)
  | Ok (lo, hi) =>
      Ok {| effective := word (cd_effective lo) (cd_effective hi);
            permitted := word (cd_permitted lo) (cd_permitted hi);
            inheritable := word (cd_inheritable lo) (cd_inheritable hi) |}
  end.

(** [Ok] is the token [CapabilitiesDropped] without which the server does not run. *)
Definition drop_capabilities_or_refuse (t : Thread) : result unit string * Thread :=
  match read_capabilities t with
  | Err e => (Err ("could not read the capabilities to drop: " +:+ e), t)
  | Ok before =>
      let '(dropped, t) := drop_capabilities (capabilities_to_keep (permitted before)) t in
      match read_capabilities t with
      | Err e => (Err ("could not verify that capabilities were dropped: " +:+ e), t)
      | Ok held =>
          let extra := capabilities_beyond_retained held in
          if negb (extra =? 0) then
            let why := match dropped with
                       | Ok _ => "the drop reported success"
                       | Err e => "the drop failed: " +:+ e
                       end in
            (Err ("still holding capabilities that must be dropped before serving: " +:+
                  describe_capability_mask extra +:+ " (" +:+ why +:+ ")"), t)
          else (Ok tt, t)
      end
  end.

(** ** The kernel's documented behaviour

    [capset] accepts a request within the permitted set, wholesale, and it is then what
    [capget] reports; [PR_SET_NO_NEW_PRIVS] succeeds and changes no capability. *)
Definition subset_of (a b : Z) : Prop := ∀ n, 0 ≤ n → Z.testbit a n = true → Z.testbit b n = true.

Record kernel_laws : Prop := {
  prctl_succeeds t : fst (prctl_no_new_privs t) = Ok tt ∧
    sys_capget (snd (prctl_no_new_privs t)) = sys_capget t;
  capset_subset lo hi mask t : sys_capget t = Ok (lo, hi) → subset_of mask (word (cd_permitted lo) (cd_permitted hi)) →
    fst (sys_capset (cap_data mask, cap_data 0) t) = Ok tt ∧
    sys_capget (snd (sys_capset (cap_data mask, cap_data 0) t)) = Ok (cap_data mask, cap_data 0);
}.

(** ** Lemmas *)
Lemma mask_bits n : 0 ≤ n → Z.testbit retained_capability_mask n = true ↔ n = 6 ∨ n = 7.
Proof.
  intros Hn. unfold retained_capability_mask. rewrite Z.lor_spec, !Z.shiftl_spec by done.
  destruct (decide (n = 6)) as [->|H6]; [split; [by left|done]|].
  destruct (decide (n = 7)) as [->|H7]; [split; [by right|done]|].
  assert (∀ k, k ≠ 0 → Z.testbit 1 k = false) as H1.
  { intros k Hk. destruct k as [|p|p]; [done|by destruct p|done]. }
  rewrite !H1 by lia. split; [done|lia].
Qed.

Lemma keep_bits p n : 0 ≤ n →
  Z.testbit (capabilities_to_keep p) n = Z.testbit p n && Z.testbit retained_capability_mask n.
Proof.
  intros Hn. unfold capabilities_to_keep, as_u32. rewrite <- Z.land_ones by lia.
  rewrite !Z.land_spec, Z.testbit_ones by lia. destruct (Z.testbit retained_capability_mask n) eqn:E.
  - apply mask_bits in E; [|done]. rewrite andb_true_r. destruct E as [->| ->]; by rewrite andb_true_r.
  - by rewrite andb_false_r.
Qed.

Lemma beyond_zero held n : capabilities_beyond_retained held = 0 → 0 ≤ n →
  Z.testbit (effective held) n = true ∨ Z.testbit (permitted held) n = true ∨
  Z.testbit (inheritable held) n = true → n = 6 ∨ n = 7.
Proof.
  intros Hz Hn Hb. apply mask_bits; [done|].
  assert (Z.testbit (capabilities_beyond_retained held) n = false) as E by (rewrite Hz; apply Z.testbit_0_l).
  unfold capabilities_beyond_retained in E. rewrite Z.ldiff_spec, !Z.lor_spec in E.
  destruct (Z.testbit retained_capability_mask n); [done|]. rewrite andb_true_r in E.
  destruct Hb as [Hb|[Hb|Hb]]; rewrite Hb in E; by rewrite ?orb_true_r in E.
Qed.

Lemma word_low m : word m 0 = m.
Proof. unfold word. by rewrite Z.shiftl_0_l, Z.lor_0_r. Qed.

Lemma beyond_keep p : capabilities_beyond_retained
  {| effective := capabilities_to_keep p; permitted := capabilities_to_keep p; inheritable := capabilities_to_keep p |} = 0.
Proof.
  unfold capabilities_beyond_retained. cbn [effective permitted inheritable]. rewrite !Z.lor_diag.
  apply Z.bits_inj'. intros n Hn. rewrite Z.ldiff_spec, keep_bits, Z.testbit_0_l by done.
  by destruct (Z.testbit p n), (Z.testbit retained_capability_mask n).
Qed.

Lemma dropped_means t t' : drop_capabilities_or_refuse t = (Ok tt, t') →
  ∃ held, read_capabilities t' = Ok held ∧ capabilities_beyond_retained held = 0.
Proof.
  unfold drop_capabilities_or_refuse. destruct (read_capabilities t) as [before|]; [|done].
  destruct (drop_capabilities _ t) as [dropped t1]. destruct (read_capabilities t1) as [held|] eqn:E; [|done].
  destruct (Z.eqb_spec (capabilities_beyond_retained held) 0); [|done]. intros [= <-]. by exists held.
Qed.

Lemma drop_serves t lo hi : kernel_laws → sys_capget t = Ok (lo, hi) →
  let keep := capabilities_to_keep (word (cd_permitted lo) (cd_permitted hi)) in
  fst (drop_capabilities_or_refuse t) = Ok tt ∧
  sys_capget (snd (drop_capabilities_or_refuse t)) = Ok (cap_data keep, cap_data 0).
Proof.
  intros [Hp Hc] Hg keep.
  enough (∃ t2, drop_capabilities_or_refuse t = (Ok tt, t2) ∧ sys_capget t2 = Ok (cap_data keep, cap_data 0))
    as (t2 & -> & ?) by done.
  unfold drop_capabilities_or_refuse, read_capabilities. rewrite Hg. cbn [permitted]. fold keep.
  unfold drop_capabilities. destruct (Hp t) as [Hp1 Hp2]. destruct (prctl_no_new_privs t) as [r1 t1].
  cbn in Hp1, Hp2. subst r1. rewrite Hg in Hp2. destruct (Hc lo hi keep t1 Hp2) as [Hc1 Hc2].
  { intros n Hn. subst keep. rewrite keep_bits by done. by intros [? _]%andb_true_iff. }
  destruct (sys_capset _ t1) as [r2 t2]. cbn in Hc1, Hc2. subst r2. exists t2. split; [|done].
  rewrite Hc2. cbn [cap_data cd_effective cd_permitted cd_inheritable]. rewrite word_low.
  subst keep. by rewrite beyond_keep.
Qed.
End Drop.

(** Whatever the kernel does, the daemon serves only over a read-back with nothing beyond
    CAP_SETGID and CAP_SETUID in any of its three sets, so without CAP_CHOWN; a failed drop that
    left more, and a read-back that failed, refuse. And under the kernel's documented behaviour
    a start from any set is served: the request stays within what is permitted, so it is never
    rejected, and exactly the retained capabilities among the permitted ones are kept. *)
Theorem serves_without_other_capabilities `{Kernel} t t' :
  (drop_capabilities_or_refuse t = (Ok tt, t') →
   ∃ held, read_capabilities t' = Ok held ∧ ∀ n, 0 ≤ n →
     Z.testbit (effective held) n = true ∨ Z.testbit (permitted held) n = true ∨
     Z.testbit (inheritable held) n = true → n = 6 ∨ n = 7) ∧
  (∀ lo hi, kernel_laws → sys_capget t = Ok (lo, hi) →
   let keep := capabilities_to_keep (word (cd_permitted lo) (cd_permitted hi)) in
   fst (drop_capabilities_or_refuse t) = Ok tt ∧
   sys_capget (snd (drop_capabilities_or_refuse t)) = Ok (cap_data keep, cap_data 0) ∧
   ∀ n, 0 ≤ n → Z.testbit keep n =
     Z.testbit (word (cd_permitted lo) (cd_permitted hi)) n && Z.testbit retained_capability_mask n).
Proof.
  split.
  - intros (held & E & Hz)%dropped_means. exists held. split; [done|]. intros n Hn. by apply beyond_zero.
  - intros lo hi Hl Hg keep. destruct (drop_serves t lo hi Hl Hg) as [H1 H2].
    split; [done|]. split; [done|]. intros n Hn. by apply keep_bits.
Qed.

(** ** Witness: a kernel that honours every request within the permitted set *)
Definition subset_bits (a b : Z) : bool := Z.ldiff a b =? 0.

Definition plain_kernel : Kernel := {|
  Thread := CapData * CapData;
  prctl_no_new_privs t := (Ok tt, t);
  sys_capget t := Ok t;
  sys_capset new t :=
    if subset_bits (word (cd_permitted new.1) (cd_permitted new.2)) (word (cd_permitted t.1) (cd_permitted t.2))
    then (Ok tt, new) else (Err "Operation not permitted", t);
|}.
#[local] Existing Instance plain_kernel.

Lemma plain_kernel_laws : kernel_laws.
Proof.
  split; [by intros t|]. intros lo hi mask t [= ->] Hs. cbn [sys_capset plain_kernel cap_data fst snd cd_permitted].
  rewrite word_low. unfold subset_bits. assert (Z.ldiff mask (word (cd_permitted lo) (cd_permitted hi)) = 0) as ->.
  { apply Z.bits_inj'. intros n Hn. rewrite Z.ldiff_spec, Z.testbit_0_l.
    destruct (Z.testbit mask n) eqn:E; [|done]. by rewrite (Hs n Hn E). }
  by split.
Qed.

(** The shipped unit's bounding set at startup: CAP_CHOWN, CAP_SETGID, CAP_SETUID. *)
Lemma serves_without_other_capabilities_witness :
  let t : Thread := (cap_data 193, cap_data 0) in
  fst (drop_capabilities_or_refuse t) = Ok tt ∧
  sys_capget (snd (drop_capabilities_or_refuse t)) = Ok (cap_data 192, cap_data 0).
Proof.
  intros t. destruct (proj2 (serves_without_other_capabilities t t) (cap_data 193) (cap_data 0)
    plain_kernel_laws eq_refl) as (H1 & H2 & _). split; [exact H1|exact H2].
Defined.
