(* ===== verification/Purge.v ===== *)
(** * Purge: what the purge engine decides on

    [facelock-core/src/purge/]: file identities ([fd.rs]), the mount table ([mounts.rs]), the
    classification of configured paths ([config_scan.rs]), the report ([report.rs]), and which
    objects the engine trusts ([engine.rs]). The traversal is in [PurgeEngine.v]. Strings are
    byte strings; a name that is not UTF-8 is shown with replacement characters. *)

From stdpp Require Import gmap.
From S2P Require Import Prelude Text.

(** ** UTF-8 ([str::from_utf8], [String::from_utf8_lossy]) *)
Definition byte_of (a : ascii) : Z := Z.of_nat (Ascii.nat_of_ascii a).
Definition between (lo hi b : Z) : bool := (lo <=? b) && (b <=? hi).

(** The ranges the bytes after a lead byte must lie in, or nothing for a byte that leads none. *)
Definition continuation (lead : Z) : option (list (Z * Z)) :=
  if between 0 127 lead then Some []
  else if between 194 223 lead then Some [(128, 191)]
  else if lead =? 224 then Some [(160, 191); (128, 191)]
  else if between 225 236 lead || between 238 239 lead then Some [(128, 191); (128, 191)]
  else if lead =? 237 then Some [(128, 159); (128, 191)]
  else if lead =? 240 then Some [(144, 191); (128, 191); (128, 191)]
  else if between 241 243 lead then Some [(128, 191); (128, 191); (128, 191)]
  else if lead =? 244 then Some [(128, 143); (128, 191); (128, 191)]
  else None.

(** How many of the bytes that should follow do. *)
Fixpoint followers (ranges : list (Z * Z)) (s : string) : nat :=
  match ranges, s with
  | (lo, hi) :: ranges, String a s => if between lo hi (byte_of a) then S (followers ranges s) else O
  | _, _ => O
  end.

Fixpoint take_str (n : nat) (s : string) : string :=
  match n, s with S n, String a s => String a (take_str n s) | _, _ => EmptyString end.
Fixpoint drop_str (n : nat) (s : string) : string :=
  match n, s with S n, String _ s => drop_str n s | _, _ => s end.

Definition replacement_character : string :=
  String (Ascii.ascii_of_nat 239) (String (Ascii.ascii_of_nat 191) (String (Ascii.ascii_of_nat 189) EmptyString)).

(** The text with every maximal ill-formed prefix replaced; [None] when it should be refused
    instead. *)
Fixpoint utf8 (lossy : bool) (fuel : nat) (s : string) : option string :=
  match fuel, s with
  | _, EmptyString => Some EmptyString
  | O, _ => None
  | S fuel, String a rest =>
      let ranges := default [] (continuation (byte_of a)) in
      let n := followers ranges rest in
      let well_formed := is_some (continuation (byte_of a)) && (n =? length ranges)%nat in
      if negb (well_formed || lossy) then None
      else
        let shown := if well_formed then String a (take_str n rest) else replacement_character in
        append shown <$> utf8 lossy fuel (drop_str n rest)
  end.

Definition from_utf8 (s : string) : option string := utf8 false (String.length s) s.
Definition lossy_name (s : string) : string := default EmptyString (utf8 true (String.length s) s).

(** ** Identities ([fd.rs]) *)
Record Stat := { st_dev : Z; st_ino : Z; st_mode : Z; st_nlink : Z; st_uid : Z; st_gid : Z; st_size : Z }.

#[export] Instance Stat_eq_dec : EqDecision Stat.
Proof. solve_decision. Defined.

Definition S_IFMT : Z := 61440.
Definition S_IFDIR : Z := 16384.
Definition S_IFREG : Z := 32768.
Definition S_IFLNK : Z := 40960.

Definition file_type (st : Stat) : Z := Z.land (st_mode st) S_IFMT.
Definition is_dir (st : Stat) : bool := file_type st =? S_IFDIR.
Definition is_regular (st : Stat) : bool := file_type st =? S_IFREG.
Definition is_symlink (st : Stat) : bool := file_type st =? S_IFLNK.

Definition same_directory_identity (a b : Stat) : bool :=
  (st_dev a =? st_dev b) && (st_ino a =? st_ino b) && (st_mode a =? st_mode b)
  && (st_uid a =? st_uid b) && (st_gid a =? st_gid b).
Definition same_identity (a b : Stat) : bool :=
  (st_dev a =? st_dev b) && (st_ino a =? st_ino b) && (st_mode a =? st_mode b) && (st_nlink a =? st_nlink b)
  && (st_uid a =? st_uid b) && (st_gid a =? st_gid b).

(** ** The mount table ([mounts.rs]) *)
Record MountTable := { mount_ids : gset Z; mountpoints : gset string }.

(** [&str::parse::<u64>] *)
Definition parse_u64 (s : string) : option Z :=
  match s with
  | String "+"%char rest => parse_unsigned (2 ^ 64) rest
  | _ => parse_unsigned (2 ^ 64) s
  end.

Definition octal_digit (a : ascii) : option Z :=
  let b := byte_of a in if between 48 55 b then Some (b - 48) else None.

Definition backslash : ascii := Ascii.ascii_of_nat 92.

(** Three octal digits after a backslash, when they are a byte. *)
Definition octal_escape (s : string) : option (Z * string) :=
  match s with
  | String a (String b (String c rest)) =>
      match octal_digit a, octal_digit b, octal_digit c with
      | Some x, Some y, Some z => let v := (x * 8 + y) * 8 + z in if v <=? 255 then Some (v, rest) else None
      | _, _, _ => None
      end
  | _ => None
  end.

Fixpoint decode_from (fuel : nat) (raw : string) : string :=
  match fuel, raw with
  | S fuel, String a tail =>
      match (if Ascii.eqb a backslash then octal_escape tail else None) with
      | Some (v, rest) => String (Ascii.ascii_of_nat (Z.to_nat v)) (decode_from fuel rest)
      | None => String a (decode_from fuel tail)
      end
  | _, _ => EmptyString
  end.

Definition decode_mount_path (raw : string) : string := decode_from (String.length raw) raw.

Definition empty_table : MountTable := {| mount_ids := ∅; mountpoints := ∅ |}.

Definition add_mount_line (t : MountTable) (line : string) : MountTable :=
  match split_on " "%char line with
  | f0 :: _ :: _ :: _ :: f4 :: _ :: _ =>
      {| mount_ids := match from_utf8 f0 ≫= parse_u64 with Some id => {[ id ]} ∪ mount_ids t | None => mount_ids t end;
         mountpoints := {[ decode_mount_path f4 ]} ∪ mountpoints t |}
  | _ => t
  end.

(** [MountTable::load] on what the file holds. *)
Definition load_mounts (raw : string) : MountTable := fold_left add_mount_line (split_on newline raw) empty_table.

Definition contains_id (t : MountTable) (id : Z) : bool := bool_decide (id ∈ mount_ids t).
Definition is_mountpoint_path (t : MountTable) (path : string) : bool := bool_decide (path ∈ mountpoints t).

(** ** The compiled roots ([mod.rs]) *)
Definition PURGE_ROOTS : list string := ["/etc/facelock"; "/var/lib/facelock"; "/var/log/facelock"].
Definition MAX_TRAVERSAL_DEPTH : Z := 64.
Definition MAX_TRAVERSAL_NODES : Z := 10000.
Definition PAM_BACKUPS_LOGICAL : string := "/var/lib/facelock/pam-backups".
Definition ENROLLED_DIR_LOGICAL : string := "/var/lib/facelock/enrolled".

(** ** Configured paths ([config_scan.rs]) *)

(** A parsed TOML document, as far as the scan looks into one. *)
Inductive TomlValue := TomlString (s : string) | TomlTable (fields : list (string * TomlValue)) | TomlOther.

Definition toml_get (key : string) (t : list (string * TomlValue)) : option TomlValue :=
  snd <$> List.find (λ f, String.eqb (fst f) key) t.

Class Toml := parse_toml : string → option (list (string * TomlValue)).

Definition EXTERNAL_PATH_FIELDS : list (string * string) :=
  [("daemon", "model_dir"); ("storage", "db_path"); ("encryption", "key_path"); ("encryption", "sealed_key_path");
   ("audit", "path"); ("snapshots", "dir")].

Record ConfigFindings := { f_external : list (string * string); f_notes : list string }.

(** The parts of a path with [.] and [..] resolved. *)
Definition normal_part (parts : list string) (part : string) : list string :=
  if String.eqb part "" || String.eqb part "." then parts
  else if String.eqb part ".." then removelast parts
  else parts ++ [part].

Definition normalize_absolute (path : string) : option string :=
  if negb (starts_with "/" path) then None
  else Some ("/" +:+ String.concat "/" (fold_left normal_part (split_on slash path) [])).

Definition is_compiled_path (path : string) : bool :=
  match normalize_absolute path with
  | None => false
  | Some normalized =>
      existsb (λ root, String.eqb normalized root || is_some_and (starts_with "/") (strip_prefix root normalized)) PURGE_ROOTS
  end.

Definition note (n : string) (f : ConfigFindings) : ConfigFindings :=
  {| f_external := f_external f; f_notes := f_notes f ++ [n] |}.

Definition classify_field (table : list (string * TomlValue)) (f : ConfigFindings) (at_ : string * string) : ConfigFindings :=
  let '(section, key) := at_ in
  let field := section +:+ "." +:+ key in
  match toml_get section table with
  | None => f
  | Some (TomlTable section_table) =>
      match toml_get key section_table with
      | None => f
      | Some (TomlString path) =>
          if is_compiled_path path then f
          else {| f_external := f_external f ++ [(field, path)]; f_notes := f_notes f |}
      | Some _ => note ("unsupported " +:+ field +:+ " value") f
      end
  | Some _ => note ("unsupported " +:+ section +:+ " table") f
  end.

Definition classify_config `{Toml} (raw : string) : ConfigFindings :=
  let none := {| f_external := []; f_notes := [] |} in
  match from_utf8 raw with
  | None => note "configuration is not valid UTF-8" none
  | Some text =>
      match parse_toml text with
      | None => note "configuration is not valid TOML" none
      | Some table => fold_left (classify_field table) EXTERNAL_PATH_FIELDS none
      end
  end.

(** ** The report ([report.rs]) *)
Inductive RemnantKind :=
  | SymbolicLink | HardLink | NonRegular | UntrustedOwnershipOrMode | MountBoundary | DepthLimitExceeded
  | NodeLimitExceeded | ChangedDuringTraversal | QuarantineCollision | QuarantineRetained
  | RestoredAfterQuarantine | PamRollbackState | MountTopologyUnavailable | ExternalHardLink | Inaccessible
  | Interrupted.

Record Remnant := { rem_logical : string; rem_kind : RemnantKind; rem_detail : string }.
Record ExternalRemnant := { ext_field : string; ext_path : string }.
Inductive RemovedKind := RemovedFile | RemovedDirectory.
Record Removed := { gone_logical : string; gone_kind : RemovedKind }.

Record PurgeReport := {
  removed : list Removed; remnants : list Remnant; external : list ExternalRemnant; config_note : option string }.

Definition is_complete (r : PurgeReport) : bool :=
  match remnants r, external r, config_note r with [], [], None => true | _, _, _ => false end.

(** [seen] has the keys of what was reported. *)
Inductive SeenKey := SeenRemnant (logical : string) | SeenHardlink (logical : string) | SeenExternal (field path : string).

#[export] Instance SeenKey_eq_dec : EqDecision SeenKey.
Proof. solve_decision. Defined.

Record Reporter := { report : PurgeReport; protected : list string; seen : list SeenKey }.

Definition new_reporter : Reporter :=
  {| report := {| removed := []; remnants := []; external := []; config_note := None |}; protected := []; seen := [] |}.

Definition add_remnant (x : Remnant) (r : PurgeReport) : PurgeReport :=
  {| removed := removed r; remnants := remnants r ++ [x]; external := external r; config_note := config_note r |}.

Definition remnant (logical : string) (kind : RemnantKind) (detail : string) (r : Reporter) : Reporter :=
  let protected := logical :: protected r in
  if bool_decide (SeenRemnant logical ∈ seen r)
  then {| report := report r; protected := protected; seen := seen r |}
  else {| report := add_remnant {| rem_logical := logical; rem_kind := kind; rem_detail := detail |} (report r);
          protected := protected; seen := SeenRemnant logical :: seen r |}.

Definition external_hardlink (logical : string) (r : Reporter) : Reporter :=
  if bool_decide (SeenHardlink logical ∈ seen r) then r
  else {| report := add_remnant {| rem_logical := logical; rem_kind := ExternalHardLink;
                                   rem_detail := "inode remains linked after quarantine unlink" |} (report r);
          protected := protected r; seen := SeenHardlink logical :: seen r |}.

Definition report_external (field path : string) (r : Reporter) : Reporter :=
  if bool_decide (SeenExternal field path ∈ seen r) then r
  else {| report := {| removed := removed (report r); remnants := remnants (report r);
                       external := external (report r) ++ [{| ext_field := field; ext_path := path |}];
                       config_note := config_note (report r) |};
          protected := protected r; seen := SeenExternal field path :: seen r |}.

Definition report_config_note (reason : string) (r : Reporter) : Reporter :=
  match config_note (report r) with
  | Some _ => r
  | None => {| report := {| removed := removed (report r); remnants := remnants (report r);
                            external := external (report r); config_note := Some reason |};
               protected := protected r; seen := seen r |}
  end.

Definition report_removed (logical : string) (kind : RemovedKind) (r : Reporter) : Reporter :=
  {| report := {| removed := removed (report r) ++ [{| gone_logical := logical; gone_kind := kind |}];
                  remnants := remnants (report r); external := external (report r);
                  config_note := config_note (report r) |};
     protected := protected r; seen := seen r |}.

Definition is_protected (logical : string) (r : Reporter) : bool := bool_decide (logical ∈ protected r).

(** [sanitize_for_display]; a character is a code point, those above ASCII being the bytes of its
    encoding: the control characters among them are the ones of two bytes that begin with 0xC2. *)
Definition hex_digit_of (n : Z) : ascii :=
  Ascii.ascii_of_nat (Z.to_nat (if n <? 10 then 48 + n else 87 + n)).
Definition hex2 (b : Z) : string := String (hex_digit_of (b / 16)) (String (hex_digit_of (b mod 16)) EmptyString).

Fixpoint sanitize_for_display (text : string) : string :=
  match text with
  | EmptyString => EmptyString
  | String a rest =>
      let b := byte_of a in
      if (b <? 32) || (b =? 127) then String backslash ("x" +:+ hex2 b +:+ sanitize_for_display rest)
      else match rest with
           | String a2 rest2 =>
               if (b =? 194) && between 128 159 (byte_of a2)
               then String backslash ("x" +:+ hex2 (byte_of a2) +:+ sanitize_for_display rest2)
               else String a (sanitize_for_display rest)
           | EmptyString => String a EmptyString
           end
  end.

Definition remnant_to_string (r : Remnant) : string :=
  sanitize_for_display (rem_logical r) +:+ " (" +:+ sanitize_for_display (rem_detail r) +:+ ")".
Definition external_to_string (e : ExternalRemnant) : string :=
  sanitize_for_display (ext_field e) +:+ "=" +:+ sanitize_for_display (ext_path e).

(** ** What may be deleted ([engine.rs]) *)
Definition is_direct_enrollment_marker (logical : string) : bool :=
  match strip_prefix ENROLLED_DIR_LOGICAL logical ≫= strip_prefix "/" with
  | Some name => negb (is_empty_str name) && negb (str_has_char slash name)
  | None => false
  end.

Definition trusted_directory (st : Stat) (trusted_uid trusted_gid : Z) : bool :=
  is_dir st && (st_uid st =? trusted_uid) && (st_gid st =? trusted_gid) && (Z.land (st_mode st) 18 (* 0o022 *) =? 0).

Definition trusted_regular (logical : string) (st : Stat) (trusted_uid trusted_gid : Z) : bool :=
  if negb (is_regular st) || negb (st_nlink st =? 1) then false
  else if is_direct_enrollment_marker logical then Z.land (st_mode st) 63 (* 0o077 *) =? 0
  else (st_uid st =? trusted_uid) && (st_gid st =? trusted_gid) && (Z.land (st_mode st) 18 =? 0).

Definition parent_logical (logical : string) : string :=
  match rsplit_once slash logical with Some (parent, _) => parent | None => EmptyString end.

(** [{:x}] *)
Fixpoint hex_from (fuel : nat) (n : Z) : string :=
  match fuel with
  | O => EmptyString
  | S fuel => (if n <? 16 then EmptyString else hex_from fuel (n / 16)) +:+ String (hex_digit_of (n mod 16)) EmptyString
  end.
Definition hex_of (n : Z) : string := hex_from 16 n.

Definition quarantine_candidate (st : Stat) (attempt : Z) : string :=
  ".facelock-purge-" +:+ hex_of (st_dev st) +:+ "-" +:+ hex_of (st_ino st) +:+ "-" +:+ hex2 attempt.
