(* ===== verification/PurgeEngine.v ===== *)
(** * PurgeEngine: the traversal that destroys what may be destroyed

    [facelock-core/src/purge/engine.rs] with the system calls of [fd.rs]. The file system is a
    graph of nodes; a descriptor is the node it was opened on and keeps it alive. Before every
    call other processes may act, and every call may fail. Nothing here is an error to the
    caller: what is not deleted is a remnant of the report. *)

From stdpp Require Import gmap.
From S2P Require Import Prelude Text Purge.

(** ** The file system

    A node is an inode on a mount: what another mount shows of a directory is another node.
    [anchors] are the absolute paths of the directories a traversal may start from. [unlinked] is
    history: the directory, the name and the node of every name that was removed. *)
Record Node := { n_stat : Stat; n_entries : list (string * Z); n_mount : Z; n_content : string }.

Record World := { nodes : gmap Z Node; anchors : gmap string Z; mountinfo : string; unlinked : list (Z * string * Z) }.

Inductive ErrnoKind := ENOENT | EEXIST | OtherErrno.

#[export] Instance ErrnoKind_eq_dec : EqDecision ErrnoKind.
Proof. solve_decision. Defined.

Record Errno := { errno : ErrnoKind; errno_text : string }.

Definition no_entry : Errno := {| errno := ENOENT; errno_text := "No such file or directory (os error 2)" |}.
Definition file_exists : Errno := {| errno := EEXIST; errno_text := "File exists (os error 17)" |}.
Definition too_many_links : Errno := {| errno := OtherErrno; errno_text := "Too many levels of symbolic links (os error 40)" |}.
Definition not_a_directory : Errno := {| errno := OtherErrno; errno_text := "Not a directory (os error 20)" |}.
Definition is_a_directory : Errno := {| errno := OtherErrno; errno_text := "Is a directory (os error 21)" |}.
Definition not_empty : Errno := {| errno := OtherErrno; errno_text := "Directory not empty (os error 39)" |}.
Definition busy : Errno := {| errno := OtherErrno; errno_text := "Device or resource busy (os error 16)" |}.
Definition stale : Errno := {| errno := OtherErrno; errno_text := "Bad file descriptor (os error 9)" |}.

Definition entries_of (w : World) (n : Z) : list (string * Z) := default [] (n_entries <$> nodes w !! n).

Definition find_entry (name : string) (l : list (string * Z)) : option Z :=
  snd <$> List.find (λ e, String.eqb (fst e) name) l.
Definition lookup_at (w : World) (parent : Z) (name : string) : option Z := find_entry name (entries_of w parent).

Definition with_nodes (f : gmap Z Node → gmap Z Node) (w : World) : World :=
  {| nodes := f (nodes w); anchors := anchors w; mountinfo := mountinfo w; unlinked := unlinked w |}.

Definition set_entries (l : list (string * Z)) (n : Node) : Node :=
  {| n_stat := n_stat n; n_entries := l; n_mount := n_mount n; n_content := n_content n |}.
Definition lose_link (n : Node) : Node :=
  let st := n_stat n in
  {| n_stat := {| st_dev := st_dev st; st_ino := st_ino st; st_mode := st_mode st; st_nlink := st_nlink st - 1;
                  st_uid := st_uid st; st_gid := st_gid st; st_size := st_size st |};
     n_entries := n_entries n; n_mount := n_mount n; n_content := n_content n |}.

Definition change_entries (f : list (string * Z) → list (string * Z)) (parent : Z) : World → World :=
  with_nodes (alter (λ n, set_entries (f (n_entries n)) n) parent).

Definition rename_entry (from to : string) : list (string * Z) → list (string * Z) :=
  map (λ e, if String.eqb (fst e) from then (to, snd e) else e).
Definition drop_entry (name : string) : list (string * Z) → list (string * Z) :=
  List.filter (λ e, negb (String.eqb (fst e) name)).

Definition log_unlinked (x : Z * string * Z) (w : World) : World :=
  {| nodes := nodes w; anchors := anchors w; mountinfo := mountinfo w; unlinked := unlinked w ++ [x] |}.

(** ** Runs *)
Record Event := { before_call : World → World; fails : option Errno; interrupt : bool }.
Definition calm : Event := {| before_call := id; fails := None; interrupt := false |}.

Record State := { world : World; reporter : Reporter }.

Definition Op (A : Type) : Type := State → list Event → A * State * list Event.

#[export] Instance Op_ret : MRet Op := λ A a s es, (a, s, es).
#[export] Instance Op_bind : MBind Op := λ A B f c s es, let '(a, s, es) := c s es in f a s es.

Definition set_world (w : World) (s : State) : State := {| world := w; reporter := reporter s |}.
Definition set_reporter (r : Reporter) (s : State) : State := {| world := world s; reporter := r |}.

Definition tell (f : Reporter → Reporter) : Op unit := λ s es, (tt, set_reporter (f (reporter s)) s, es).
Definition ask {A} (f : Reporter → A) : Op A := λ s es, (f (reporter s), s, es).

(** One system call. Events that are not given are calm. *)
Definition syscall {A} (f : World → result A Errno * World) : Op (result A Errno) := λ s es,
  let e := default calm (head es) in
  let w := before_call e (world s) in
  match fails e with
  | Some err => (Err err, set_world w s, tail es)
  | None => let '(r, w) := f w in (r, set_world w s, tail es)
  end.

(** Reading the caller's flag. *)
Definition load_interrupt : Op bool := λ s es,
  let e := default calm (head es) in (interrupt e, set_world (before_call e (world s)) s, tail es).

Definition look {A} (f : World → result A Errno) : Op (result A Errno) := syscall (λ w, (f w, w)).

Notation "'let!' x := c 'else' r 'in' k" := (c ≫= λ o, match o with Some x => k | None => r end)
  (at level 10, x pattern, c at level 200, r at level 200, k at level 200, only parsing).

(** *** System calls ([fd.rs]) *)
Definition stat_of (w : World) (n : Z) : result Stat Errno :=
  match nodes w !! n with Some x => Ok (n_stat x) | None => Err stale end.

Definition lstat_path (path : string) : Op (result Stat Errno) :=
  look (λ w, match anchors w !! path with Some n => stat_of w n | None => Err no_entry end).
Definition lstat_at (parent : Z) (name : string) : Op (result Stat Errno) :=
  look (λ w, match lookup_at w parent name with Some n => stat_of w n | None => Err no_entry end).
Definition fstat (fd : Z) : Op (result Stat Errno) := look (λ w, stat_of w fd).

Definition open_directory_node (w : World) (n : Z) : result Z Errno :=
  let? st := stat_of w n in
  if is_symlink st then Err too_many_links else if is_dir st then Ok n else Err not_a_directory.

Definition open_dir (path : string) : Op (result Z Errno) :=
  look (λ w, match anchors w !! path with Some n => open_directory_node w n | None => Err no_entry end).
Definition open_dir_at (parent : Z) (name : string) : Op (result Z Errno) :=
  look (λ w, match lookup_at w parent name with Some n => open_directory_node w n | None => Err no_entry end).
Definition open_file_at (parent : Z) (name : string) : Op (result Z Errno) :=
  look (λ w, match lookup_at w parent name with
             | Some n => let? st := stat_of w n in if is_symlink st then Err too_many_links else Ok n
             | None => Err no_entry
             end).
Definition read_to_end (fd : Z) (limit : Z) : Op (result string Errno) :=
  look (λ w, match nodes w !! fd with Some x => Ok (take_str (Z.to_nat limit) (n_content x)) | None => Err stale end).

Definition rename_noreplace (parent : Z) (from to : string) : Op (result unit Errno) :=
  syscall (λ w,
    match lookup_at w parent from, lookup_at w parent to with
    | None, _ => (Err no_entry, w)
    | Some _, Some _ => (Err file_exists, w)
    | Some n, None =>
        if bool_decide (n_mount <$> nodes w !! n = n_mount <$> nodes w !! parent)
        then (Ok tt, change_entries (rename_entry from to) parent w)
        else (Err busy, w)
    end).

Definition unlink_at (parent : Z) (name : string) (remove_dir : bool) : Op (result unit Errno) :=
  syscall (λ w,
    match lookup_at w parent name with
    | None => (Err no_entry, w)
    | Some n =>
        let gone w := log_unlinked (parent, name, n) (with_nodes (alter lose_link n) (change_entries (drop_entry name) parent w)) in
        match nodes w !! n, nodes w !! parent with
        | Some x, Some p =>
            if remove_dir then
              if negb (is_dir (n_stat x)) then (Err not_a_directory, w)
              else if negb (bool_decide (n_entries x = [])) then (Err not_empty, w)
              else if negb (n_mount x =? n_mount p) then (Err busy, w)
              else (Ok tt, with_nodes (alter lose_link parent) (gone w))
            else if is_dir (n_stat x) then (Err is_a_directory, w)
            else if negb (n_mount x =? n_mount p) then (Err busy, w)
            else (Ok tt, gone w)
        | _, _ => (Err stale, w)
        end
    end).

(** The mount a descriptor is on, from [/proc/self/fdinfo]. *)
Definition mount_id (fd : Z) : Op (option Z) :=
  r ← look (λ w, match nodes w !! fd with Some x => Ok (n_mount x) | None => Err stale end);
  mret (match r with Ok id => Some id | Err _ => None end).

(** A directory stream gives the names the directory had when it was opened or rewound. *)
Definition dir_stream (fd : Z) : Op (result (list string) Errno) :=
  look (λ w, match nodes w !! fd with Some x => Ok (map fst (n_entries x)) | None => Err stale end).
Definition next_entry (stream : list string) : Op (result (option (string * list string)) Errno) :=
  look (λ _, Ok (match stream with [] => None | name :: stream => Some (name, stream) end)).
Definition rewind (fd : Z) (stream : list string) : Op (list string) :=
  λ s es, let w := before_call (default calm (head es)) (world s) in
          (match nodes w !! fd with Some x => map fst (n_entries x) | None => stream end, set_world w s, tail es).
Definition finish_stream : Op (result unit Errno) := look (λ _, Ok tt).

(** ** Options *)
Record PurgeOptions := {
  prefix : option string; trusted_uid : Z; trusted_gid : Z; max_depth : Z; max_nodes : Z }.

Definition production : PurgeOptions :=
  {| prefix := None; trusted_uid := 0; trusted_gid := 0; max_depth := MAX_TRAVERSAL_DEPTH; max_nodes := MAX_TRAVERSAL_NODES |}.

Definition anchor (o : PurgeOptions) : string := default "/" (prefix o).

(** ** The engine *)
Record ChainLink := { l_parent : Z; l_handle : Z; l_name : string; l_before : Stat; l_mount : Z }.

Record OpenedRoot := {
  base_path : string; base : Z; base_before : Stat; base_mount : Z; chain : list ChainLink;
  root : Z; root_before : Stat; root_mount : Z; root_dev : Z; root_logical : string }.

Record Frame := {
  f_handle : Z; f_stream : list string; f_parent : option Z; f_name : option string; f_logical : string;
  f_before : Stat; f_depth : Z; f_children_removed : bool; f_path_chain : list ChainLink }.

Inductive ChildOutcome := Kept | Refused | Descend (f : Frame) | AbortRoot.
Inductive EntryFlavor := EntryFile | EntryDirectory.
Inductive Mode := Report | Purge_.

Definition noun (f : EntryFlavor) : string := match f with EntryFile => "entry" | EntryDirectory => "directory" end.
Definition flavor_same (f : EntryFlavor) : Stat → Stat → bool :=
  match f with EntryFile => same_identity | EntryDirectory => same_directory_identity end.

(** What a call found is the one that was expected. *)
Definition found (same : Stat → Stat → bool) (expected : Stat) (r : result Stat Errno) : bool :=
  match r with Ok st => same expected st | Err _ => false end.

Definition INTERRUPTED_DETAIL : string :=
  "purge interrupted; entries in this root that were not yet processed are retained".
Definition MAX_CONFIG_BYTES : Z := 1024 * 1024.
Definition MAX_QUARANTINE_ATTEMPTS : nat := 32.

Section engine.
Context (o : PurgeOptions) (mounts : MountTable).

Definition report_remnant (logical : string) (kind : RemnantKind) (detail : string) : Op unit :=
  tell (remnant logical kind detail).

(** A remnant and the end of the function. *)
Definition refuse {A} (a : A) (logical : string) (kind : RemnantKind) (detail : string) : Op A :=
  report_remnant logical kind detail;; mret a.

Definition proven_mount_id (fd : Z) : Op (option Z) :=
  id ← mount_id fd;
  mret (match id with
        | Some id => if is_some (prefix o) || contains_id mounts id then Some id else None
        | None => None
        end).

Definition is_mountpoint (logical : string) : bool := is_mountpoint_path mounts (default "" (prefix o) +:+ logical).

Definition is_trusted_directory (st : Stat) : bool := trusted_directory st (trusted_uid o) (trusted_gid o).
Definition is_trusted_regular (logical : string) (st : Stat) : bool :=
  trusted_regular logical st (trusted_uid o) (trusted_gid o).

(** *** Opening a root *)
Fixpoint open_components (logical : string) (parts : list string) (component_logical : string)
    (parent parent_mount : Z) (links : list ChainLink) : Op (option (list ChainLink * Z)) :=
  match parts with
  | [] => mret (Some (links, parent_mount))
  | name :: parts =>
      let component_logical := component_logical +:+ "/" +:+ name in
      before ← lstat_at parent name;
      match before with
      | Err e =>
          if bool_decide (errno e = ENOENT) then mret None
          else refuse None component_logical Inaccessible ("cannot inspect fixed path component: " +:+ errno_text e)
      | Ok before =>
          if is_symlink before then refuse None component_logical SymbolicLink "fixed path component is a symbolic link"
          else if negb (is_trusted_directory before)
          then refuse None component_logical UntrustedOwnershipOrMode "fixed path component is not a trusted directory"
          else
            handle ← open_dir_at parent name;
            match handle with
            | Err e => refuse None component_logical Inaccessible ("cannot open fixed path component: " +:+ errno_text e)
            | Ok handle =>
                opened ← fstat handle;
                let changed := refuse None component_logical ChangedDuringTraversal "fixed path component changed while it was opened" in
                match opened with
                | Err _ => changed
                | Ok opened =>
                    if negb (same_directory_identity before opened) then changed
                    else
                      let! mount := proven_mount_id handle
                      else refuse None component_logical MountBoundary "cannot prove fixed path component mount identity" in
                      if bool_decide (parts = []) && (negb (mount =? parent_mount) || is_mountpoint logical)
                      then refuse None logical MountBoundary "root is a mount point"
                      else
                        open_components logical parts component_logical handle mount
                          (links ++ [{| l_parent := parent; l_handle := handle; l_name := name; l_before := opened;
                                        l_mount := mount |}])
                end
            end
      end
  end.

Definition parts_of (logical : string) : list string := List.filter (λ p, negb (is_empty_str p)) (split_on slash logical).

Definition open_fixed_root (logical : string) : Op (option OpenedRoot) :=
  base_before ← lstat_path (anchor o);
  match base_before with
  | Err e => refuse None logical Inaccessible ("cannot inspect fixed traversal anchor: " +:+ errno_text e)
  | Ok base_before =>
      if is_symlink base_before || negb (is_trusted_directory base_before)
      then refuse None logical UntrustedOwnershipOrMode "fixed traversal anchor is not a trusted directory"
      else
        base ← open_dir (anchor o);
        match base with
        | Err e => refuse None logical Inaccessible ("cannot open fixed traversal anchor: " +:+ errno_text e)
        | Ok base =>
            opened ← fstat base;
            let changed := refuse None logical ChangedDuringTraversal "fixed traversal anchor changed while it was opened" in
            match opened with
            | Err _ => changed
            | Ok opened =>
                if negb (same_directory_identity base_before opened) then changed
                else
                  let! base_mount := proven_mount_id base
                  else refuse None logical MountBoundary "cannot prove fixed traversal anchor mount identity" in
                  let! pinned := open_components logical (parts_of logical) "" base base_mount [] else mret None in
                  mret (match last (fst pinned) with
                        | None => None
                        | Some link =>
                            Some {| base_path := anchor o; base := base; base_before := opened; base_mount := base_mount;
                                    chain := fst pinned; root := l_handle link; root_before := l_before link;
                                    root_mount := snd pinned; root_dev := st_dev (l_before link); root_logical := logical |}
                        end)
            end
        end
  end.

(** *** Proving that nothing moved *)
Fixpoint links_are_current (logical : string) (links : list ChainLink) : Op bool :=
  match links with
  | [] => mret true
  | link :: links =>
      public ← lstat_at (l_parent link) (l_name link);
      opened ← fstat (l_handle link);
      if negb (found same_directory_identity (l_before link) public && found same_directory_identity (l_before link) opened)
      then refuse false logical ChangedDuringTraversal "fixed path chain changed before deletion"
      else
        current ← open_dir_at (l_parent link) (l_name link);
        match current with
        | Err _ => refuse false logical ChangedDuringTraversal "fixed path chain cannot be reopened before deletion"
        | Ok current =>
            st ← fstat current;
            mount ← proven_mount_id current;
            if negb (found same_directory_identity (l_before link) st && bool_decide (mount = Some (l_mount link)))
            then refuse false logical ChangedDuringTraversal "fixed path chain mount changed before deletion"
            else links_are_current logical links
        end
  end.

Definition fixed_root_is_current (r : OpenedRoot) : Op bool :=
  public ← lstat_path (base_path r);
  opened ← fstat (base r);
  mount ← proven_mount_id (base r);
  if negb (found same_directory_identity (base_before r) public && found same_directory_identity (base_before r) opened
           && bool_decide (mount = Some (base_mount r)))
  then refuse false (root_logical r) ChangedDuringTraversal "fixed traversal anchor changed before deletion"
  else links_are_current (root_logical r) (chain r).

Fixpoint traversal_chain_is_current (links : list ChainLink) (logical : string) : Op bool :=
  match links with
  | [] => mret true
  | link :: links =>
      public ← lstat_at (l_parent link) (l_name link);
      opened ← fstat (l_handle link);
      mount ← proven_mount_id (l_handle link);
      if found same_directory_identity (l_before link) public && found same_directory_identity (l_before link) opened
         && bool_decide (mount = Some (l_mount link))
      then traversal_chain_is_current links logical
      else refuse false logical ChangedDuringTraversal "opened descendant path changed before deletion"
  end.

(** Both, the second only after the first. *)
Definition chains_are_current (r : OpenedRoot) (links : list ChainLink) (logical : string) : Op bool :=
  current ← fixed_root_is_current r;
  if (current : bool) then traversal_chain_is_current links logical else mret false.

Definition opened_on_root_mount (fd : Z) (r : OpenedRoot) (logical : string) : Op (option Z) :=
  st ← fstat fd;
  mount ← proven_mount_id fd;
  match st, mount with
  | Ok st, Some mount =>
      if (st_dev st =? root_dev r) && (mount =? root_mount r) && negb (is_mountpoint logical)
      then mret (Some mount)
      else refuse None logical MountBoundary "mount boundary"
  | _, _ => refuse None logical MountBoundary "mount boundary"
  end.

(** *** Quarantine *)
Fixpoint quarantine_from (tries : nat) (attempt : Z) (parent : Z) (name logical : string) (before : Stat) : Op (option string) :=
  match tries with
  | O => refuse None logical QuarantineCollision "no collision-free quarantine name is available"
  | S tries =>
      let candidate := quarantine_candidate before attempt in
      if String.eqb candidate name then quarantine_from tries (attempt + 1) parent name logical before
      else
        moved ← rename_noreplace parent name candidate;
        match moved with
        | Ok _ => mret (Some candidate)
        | Err e =>
            if bool_decide (errno e = EEXIST) then
              report_remnant (parent_logical logical +:+ "/" +:+ lossy_name candidate) QuarantineCollision
                "quarantine name collision";;
              quarantine_from tries (attempt + 1) parent name logical before
            else refuse None logical Inaccessible ("cannot quarantine entry atomically: " +:+ errno_text e)
        end
  end.

Definition quarantine_entry (parent : Z) (name logical : string) (before : Stat) : Op (option string) :=
  quarantine_from MAX_QUARANTINE_ATTEMPTS 0 parent name logical before.

Definition restore_quarantined (parent : Z) (name qname logical : string) (identity : Stat) (flavor : EntryFlavor) : Op unit :=
  let q_logical := parent_logical logical +:+ "/" +:+ lossy_name qname in
  let noun := noun flavor in
  moved ← rename_noreplace parent qname name;
  match moved with
  | Err e =>
      if bool_decide (errno e = EEXIST) then
        report_remnant logical ChangedDuringTraversal
          ("replacement appeared while the verified " +:+ noun +:+ " was quarantined");;
        report_remnant q_logical QuarantineRetained ("quarantined " +:+ noun +:+ " retained for recovery")
      else
        report_remnant q_logical QuarantineRetained
          ("cannot restore quarantined " +:+ noun +:+ " atomically: " +:+ errno_text e)
  | Ok _ =>
      restored ← lstat_at parent name;
      if found (flavor_same flavor) identity restored
      then report_remnant logical RestoredAfterQuarantine (noun +:+ " changed during quarantine and was restored")
      else report_remnant logical ChangedDuringTraversal ("restored " +:+ noun +:+ " identity is ambiguous")
  end.

Definition ok_or {A} (r : result A Errno) (d : A) : A := match r with Ok a => a | Err _ => d end.

(** What the quarantine name holds is opened and proven once more; the descriptor that proves it. *)
Definition prove_quarantined (flavor : EntryFlavor) (parent : Z) (qname q_logical : string) (before : Stat) (r : OpenedRoot)
    (q_public : result Stat Errno) : Op (option Z) :=
  if negb (found (flavor_same flavor) before q_public) then mret None
  else
    qfd ← (match flavor with EntryFile => open_file_at parent qname | EntryDirectory => open_dir_at parent qname end);
    match qfd with
    | Err _ => mret None
    | Ok qfd =>
        st ← fstat qfd;
        if negb (found (flavor_same flavor) before st) then mret None
        else
          mount ← opened_on_root_mount qfd r q_logical;
          mret (match mount with Some _ => Some qfd | None => None end)
    end.

(** From the admitted name to the deletion: the steps a file and a directory share. The quarantined
    object is deleted only when every proof holds; the result is the descriptor it was proven on. *)
Definition delete_quarantined (flavor : EntryFlavor) (parent : Z) (name qname logical q_logical failed : string)
    (before : Stat) (r : OpenedRoot) (links : list ChainLink) : Op (option Z) :=
  let restore identity := restore_quarantined parent name qname logical identity flavor;; mret None in
  q_public ← lstat_at parent qname;
  let q_identity := ok_or q_public before in
  let! qfd := prove_quarantined flavor parent qname q_logical before r q_public else restore q_identity in
  current ← chains_are_current r links logical;
  if negb current then restore q_identity
  else
    final ← lstat_at parent qname;
    if negb (found (flavor_same flavor) before final) then restore (ok_or final q_identity)
    else
      gone ← unlink_at parent qname (match flavor with EntryFile => false | EntryDirectory => true end);
      match gone with
      | Ok _ => mret (Some qfd)
      | Err e =>
          still ← lstat_at parent qname;
          match still with
          | Ok st => if flavor_same flavor before st then restore st
                     else refuse None q_logical Inaccessible (failed +:+ errno_text e)
          | Err _ => refuse None q_logical Inaccessible (failed +:+ errno_text e)
          end
      end.

(** *** Files *)
Definition purge_regular_entry (frame : Frame) (name logical : string) (before : Stat) (r : OpenedRoot) : Op bool :=
  let parent := f_handle frame in
  if negb (st_nlink before =? 1) then refuse false logical HardLink "hard-linked regular file"
  else if negb (is_trusted_regular logical before)
  then refuse false logical UntrustedOwnershipOrMode "wrong owner or unsafe mode"
  else
    opened ← open_file_at parent name;
    match opened with
    | Err e => refuse false logical Inaccessible ("cannot open regular file: " +:+ errno_text e)
    | Ok fd =>
        st ← fstat fd;
        if negb (found same_identity before st)
        then refuse false logical ChangedDuringTraversal "regular file changed while it was opened"
        else
          let! mount := opened_on_root_mount fd r logical else mret false in
          current ← lstat_at parent name;
          if negb (found same_identity before current)
          then refuse false logical ChangedDuringTraversal "changed before unlink"
          else
            fixed ← chains_are_current r (f_path_chain frame) logical;
            if negb fixed then mret false
            else
              let! qname := quarantine_entry parent name logical before else mret false in
              let q_logical := f_logical frame +:+ "/" +:+ lossy_name qname in
              let! qfd := delete_quarantined EntryFile parent name qname logical q_logical "unlink failed: " before r
                            (f_path_chain frame)
              else mret false in
              st ← fstat qfd;
              (if match st with Ok st => st_nlink st =? 0 | Err _ => false end then mret tt
               else tell (external_hardlink logical));;
              tell (report_removed logical RemovedFile);;
              mret true
    end.

(** *** Directories *)
Definition finish_frame (f : Frame) (r : OpenedRoot) : Op bool :=
  let logical := f_logical f in
  closed ← finish_stream;
  match closed with
  | Err e => refuse false logical Inaccessible ("cannot finish reading directory: " +:+ errno_text e)
  | Ok _ =>
      if f_depth f =? 0 then fixed_root_is_current r
      else if negb (f_children_removed f) then mret false
      else
        match f_parent f, f_name f with
        | Some parent, Some name =>
            opened ← fstat (f_handle f);
            public ← lstat_at parent name;
            if negb (found same_directory_identity (f_before f) opened && found same_directory_identity (f_before f) public)
            then refuse false logical ChangedDuringTraversal "directory changed before removal"
            else
              let parent_chain := removelast (f_path_chain f) in
              fixed ← chains_are_current r parent_chain logical;
              if negb fixed then mret false
              else
                let! qname := quarantine_entry parent name logical (f_before f) else mret false in
                let q_logical := parent_logical logical +:+ "/" +:+ lossy_name qname in
                let! qfd := delete_quarantined EntryDirectory parent name qname logical q_logical
                              "directory removal failed: " (f_before f) r parent_chain
                else mret false in
                tell (report_removed logical RemovedDirectory);;
                mret true
        | _, _ => mret false
        end
  end.

(** *** One entry *)
Definition process_child (frame : Frame) (name child_logical : string) (r : OpenedRoot) : Op ChildOutcome :=
  before ← lstat_at (f_handle frame) name;
  match before with
  | Err e =>
      if bool_decide (errno e = ENOENT) then mret Kept
      else refuse Refused child_logical Inaccessible ("cannot inspect: " +:+ errno_text e)
  | Ok before =>
      if String.eqb child_logical PAM_BACKUPS_LOGICAL && negb (is_dir before)
      then refuse Refused child_logical PamRollbackState "PAM rollback state path is not a trusted empty directory"
      else if is_symlink before then refuse Refused child_logical SymbolicLink "symbolic link"
      else if is_regular before then
        gone ← purge_regular_entry frame name child_logical before r;
        mret (if (gone : bool) then Kept else Refused)
      else if negb (is_dir before) then refuse Refused child_logical NonRegular "non-regular object"
      else if negb (is_trusted_directory before)
      then refuse Refused child_logical UntrustedOwnershipOrMode "wrong owner or unsafe directory mode"
      else
        let child_depth := f_depth frame + 1 in
        if max_depth o <? child_depth
        then refuse Refused child_logical DepthLimitExceeded ("depth limit exceeded (" +:+ show_Z (max_depth o) +:+ ")")
        else
          handle ← open_dir_at (f_handle frame) name;
          match handle with
          | Err e => refuse Refused child_logical Inaccessible ("cannot open directory: " +:+ errno_text e)
          | Ok handle =>
              opened ← fstat handle;
              let changed := refuse Refused child_logical ChangedDuringTraversal "directory changed while it was opened" in
              match opened with
              | Err _ => changed
              | Ok opened =>
                  if negb (same_directory_identity before opened) then changed
                  else
                    let! mount := opened_on_root_mount handle r child_logical else mret Refused in
                    stream ← dir_stream handle;
                    match stream with
                    | Err e => refuse Refused child_logical Inaccessible ("cannot enumerate directory: " +:+ errno_text e)
                    | Ok stream =>
                        let descend stream :=
                          mret (Descend {|
                            f_handle := handle; f_stream := stream; f_parent := Some (f_handle frame); f_name := Some name;
                            f_logical := child_logical; f_before := before; f_depth := child_depth;
                            f_children_removed := true;
                            f_path_chain := f_path_chain frame ++
                              [{| l_parent := f_handle frame; l_handle := handle; l_name := name; l_before := opened;
                                  l_mount := mount |}] |}) in
                        if negb (String.eqb child_logical PAM_BACKUPS_LOGICAL) then descend stream
                        else
                          entry ← next_entry stream;
                          match entry with
                          | Err e => refuse Refused child_logical PamRollbackState ("cannot inspect PAM rollback state: " +:+ errno_text e)
                          | Ok (Some _) =>
                              refuse Refused child_logical PamRollbackState "PAM rollback state remains after removal cleanup"
                          | Ok None => stream ← rewind handle stream; descend stream
                          end
                    end
              end
          end
  end.

(** *** The traversal *)
Definition refuse_child (f : Frame) : Frame :=
  {| f_handle := f_handle f; f_stream := f_stream f; f_parent := f_parent f; f_name := f_name f; f_logical := f_logical f;
     f_before := f_before f; f_depth := f_depth f; f_children_removed := false; f_path_chain := f_path_chain f |}.
Definition set_stream (l : list string) (f : Frame) : Frame :=
  {| f_handle := f_handle f; f_stream := l; f_parent := f_parent f; f_name := f_name f; f_logical := f_logical f;
     f_before := f_before f; f_depth := f_depth f; f_children_removed := f_children_removed f; f_path_chain := f_path_chain f |}.

Definition refuse_top (stack : list Frame) : list Frame :=
  match stack with f :: stack => refuse_child f :: stack | [] => [] end.

Definition visit (frame : Frame) (name : string) (nodes_seen : Z) (r : OpenedRoot) : Op (ChildOutcome * Z) :=
  let child_logical := f_logical frame +:+ "/" +:+ lossy_name name in
  held ← ask (is_protected child_logical);
  if (held : bool) then mret (Refused, nodes_seen)
  else
    let nodes_seen := nodes_seen + 1 in
    if max_nodes o <? nodes_seen
    then refuse (AbortRoot, nodes_seen) (root_logical r) NodeLimitExceeded ("node limit exceeded (" +:+ show_Z (max_nodes o) +:+ ")")
    else outcome ← process_child frame name child_logical r; mret (outcome, nodes_seen).

(** [None] when the fuel is used up. The top of the stack is the head of the list. *)
Fixpoint traverse (fuel : nat) (r : OpenedRoot) (nodes_seen : Z) (stack : list Frame) : Op (option unit) :=
  match fuel, stack with
  | _, [] => mret (Some tt)
  | O, _ => mret None
  | S fuel, top :: below =>
      interrupted ← load_interrupt;
      if (interrupted : bool) then refuse (Some tt) (root_logical r) Interrupted INTERRUPTED_DETAIL
      else
        entry ← next_entry (f_stream top);
        match entry with
        | Err e => refuse (Some tt) (f_logical top) Inaccessible ("cannot continue reading directory: " +:+ errno_text e)
        | Ok None =>
            gone ← finish_frame top r;
            traverse fuel r nodes_seen (if (gone : bool) then below else refuse_top below)
        | Ok (Some (name, stream)) =>
            let top := set_stream stream top in
            outcome ← visit top name nodes_seen r;
            match outcome with
            | (Kept, nodes_seen) => traverse fuel r nodes_seen (top :: below)
            | (Refused, nodes_seen) => traverse fuel r nodes_seen (refuse_child top :: below)
            | (Descend f, nodes_seen) => traverse fuel r nodes_seen (f :: top :: below)
            | (AbortRoot, _) => mret (Some tt)
            end
        end
  end.

Definition root_frame (r : OpenedRoot) (stream : list string) : Frame :=
  {| f_handle := root r; f_stream := stream; f_parent := None; f_name := None; f_logical := root_logical r;
     f_before := root_before r; f_depth := 0; f_children_removed := true; f_path_chain := [] |}.

Definition purge_root (fuel : nat) (r : OpenedRoot) : Op (option unit) :=
  current ← fixed_root_is_current r;
  if negb current then mret (Some tt)
  else
    stream ← dir_stream (root r);
    match stream with
    | Err e => refuse (Some tt) (root_logical r) Inaccessible ("cannot enumerate opened root: " +:+ errno_text e)
    | Ok stream => traverse fuel r 0 [root_frame r stream]
    end.

(** *** The configuration *)
Fixpoint tell_all (fs : list (Reporter → Reporter)) : Op unit :=
  match fs with [] => mret tt | f :: fs => tell f;; tell_all fs end.

Definition inspect_external_configuration `{Toml} : Op unit :=
  let! r := open_fixed_root "/etc/facelock" else mret tt in
  let logical := "/etc/facelock/config.toml" in
  before ← lstat_at (root r) "config.toml";
  match before with
  | Err e =>
      if bool_decide (errno e = ENOENT) then mret tt
      else report_remnant logical Inaccessible ("cannot inspect configuration: " +:+ errno_text e)
  | Ok before =>
      if negb (is_trusted_regular logical before) || (MAX_CONFIG_BYTES <? st_size before)
      then report_remnant logical UntrustedOwnershipOrMode "configuration is not a trusted single-link regular file"
      else
        file ← open_file_at (root r) "config.toml";
        match file with
        | Err e => report_remnant logical Inaccessible ("cannot open configuration: " +:+ errno_text e)
        | Ok file =>
            opened ← fstat file;
            if negb (found same_identity before opened)
            then report_remnant logical ChangedDuringTraversal "configuration changed while it was inspected"
            else
              let! mount := opened_on_root_mount file r logical else mret tt in
              raw ← read_to_end file (MAX_CONFIG_BYTES + 1);
              match raw with
              | Err e => report_remnant logical Inaccessible ("cannot read configuration: " +:+ errno_text e)
              | Ok raw =>
                  if MAX_CONFIG_BYTES <? Z.of_nat (String.length raw)
                  then tell (report_config_note "configuration exceeds the classification size limit")
                  else
                    let findings := classify_config raw in
                    tell_all (map report_config_note (f_notes findings));;
                    tell_all (map (λ '(field, path), report_external field path) (f_external findings))
              end
        end
  end.
End engine.

(** ** A pass *)
Definition load_mount_table : Op (result MountTable Errno) := look (λ w, Ok (load_mounts (mountinfo w))).

Fixpoint purge_roots (o : PurgeOptions) (mounts : MountTable) (fuel : nat) (roots : list string) : Op (option unit) :=
  match roots with
  | [] => mret (Some tt)
  | logical :: roots =>
      interrupted ← load_interrupt;
      if (interrupted : bool) then
        report_remnant logical Interrupted INTERRUPTED_DETAIL;;
        purge_roots o mounts fuel roots
      else
        held ← ask (is_protected logical);
        if (held : bool) then purge_roots o mounts fuel roots
        else
          opened ← open_fixed_root o mounts logical;
          match opened with
          | None => purge_roots o mounts fuel roots
          | Some r =>
              let! _ := purge_root o mounts fuel r else mret None in
              purge_roots o mounts fuel roots
          end
  end.

Definition run `{Toml} (o : PurgeOptions) (mode : Mode) (fuel : nat) : Op (option unit) :=
  interrupted ← load_interrupt;
  if (interrupted : bool) then
    tell_all (match mode with
              | Purge_ => map (λ logical, remnant logical Interrupted INTERRUPTED_DETAIL) PURGE_ROOTS
              | Report => []
              end);;
    mret (Some tt)
  else
    mounts ← load_mount_table;
    match mounts with
    | Err e =>
        let detail := "mount topology is unavailable: " +:+ errno_text e in
        tell_all (match mode with
                  | Purge_ => map (λ logical, remnant logical MountTopologyUnavailable detail) PURGE_ROOTS
                  | Report => [report_config_note detail]
                  end);;
        mret (Some tt)
    | Ok mounts =>
        inspect_external_configuration o mounts;;
        match mode with
        | Report => mret (Some tt)
        | Purge_ => purge_roots o mounts fuel PURGE_ROOTS
        end
    end.

Definition start (w : World) : State := {| world := w; reporter := new_reporter |}.

(** [purge_with_interrupt]; [purge] and [report_remnants] read a flag that is never set. *)
Definition purge_with_interrupt `{Toml} (o : PurgeOptions) (fuel : nat) (w : World) (es : list Event) :
    option PurgeReport * World :=
  let '(done, s, _) := run o Purge_ fuel (start w) es in
  ((λ _ : unit, report (reporter s)) <$> done, world s).

Definition never (e : Event) : Event := {| before_call := before_call e; fails := fails e; interrupt := false |}.
Definition purge `{Toml} (o : PurgeOptions) (fuel : nat) (w : World) (es : list Event) : option PurgeReport * World :=
  purge_with_interrupt o fuel w (map never es).
Definition report_remnants `{Toml} (o : PurgeOptions) (w : World) (es : list Event) : PurgeReport * World :=
  let '(_, s, _) := run o Report 0 (start w) (map never es) in (report (reporter s), world s).
