(* ===== verification/PurgeLogic.v ===== *)
(** * PurgeLogic: reasoning about a purge

    What other processes may do while the engine runs, what every call then tells of the file
    system the run began with, and the rules to put calls together. An assertion speaks of the
    entries [E] of the trusted directories, the names [L] that were unlinked, the names [D] the
    report lists as removed, and whether the report can still be complete ([b]). *)

From stdpp Require Import gmap.
From S2P Require Import Prelude Text Purge PurgeEngine.

Section logic.
Context (o : PurgeOptions) (w0 : World).

Definition trusts (st : Stat) : bool := trusted_directory st (trusted_uid o) (trusted_gid o).

(** What nobody changes of an inode: its type and owner, and the mode of what root owns. *)
Record fixed (a b : Stat) : Prop := {
  fixed_dev : st_dev b = st_dev a; fixed_ino : st_ino b = st_ino a; fixed_type : file_type b = file_type a;
  fixed_uid : st_uid b = st_uid a; fixed_gid : st_gid b = st_gid a;
  fixed_mode : st_uid a = trusted_uid o → st_mode b = st_mode a }.

Lemma fixed_refl a : fixed a a.
Proof. by split. Qed.
Lemma fixed_trans a b c : fixed a b → fixed b c → fixed a c.
Proof. intros [] []. split; try congruence. intros. rewrite fixed_mode1, fixed_mode0; congruence. Qed.

Lemma fixed_trusts a b : fixed a b → trusts b = trusts a.
Proof.
  intros F. unfold trusts, trusted_directory, is_dir. rewrite (fixed_type _ _ F), (fixed_uid _ _ F), (fixed_gid _ _ F).
  destruct (Z.eqb_spec (st_uid a) (trusted_uid o)) as [E|E]; [by rewrite (fixed_mode _ _ F E)|].
  by rewrite !andb_false_r.
Qed.

(** Trusted directories are changed by nobody else. Of every other object the contents, the links
    and, unless it is root's, the mode may change; untrusted directories may change in any way. *)
Definition others_may (w w' : World) : Prop :=
  anchors w' !! anchor o = anchors w !! anchor o ∧ unlinked w' = unlinked w ∧
  ∀ n x, nodes w !! n = Some x →
    ∃ x', nodes w' !! n = Some x' ∧ fixed (n_stat x) (n_stat x') ∧ n_mount x' = n_mount x ∧ (trusts (n_stat x) = true → x' = x).

(** A failure is never the answer that there is no such name, or that there is one. *)
Definition ok_event (e : Event) : Prop :=
  (∀ w, others_may w (before_call e w)) ∧ match fails e with Some err => errno err = OtherErrno | None => True end.

(** A trusted directory of the beginning. *)
Definition T (n : Z) : Prop := ∃ x, nodes w0 !! n = Some x ∧ trusts (n_stat x) = true.

Record well_formed : Prop := {
  wf_names n x : nodes w0 !! n = Some x → trusts (n_stat x) = true → NoDup (map fst (n_entries x));
  wf_targets n x e : nodes w0 !! n = Some x → trusts (n_stat x) = true → e ∈ n_entries x → is_Some (nodes w0 !! e.2);
  wf_anchor a : anchors w0 !! anchor o = Some a → is_Some (nodes w0 !! a);
  wf_log : unlinked w0 = [] }.

Abbreviation Listing := (Z → list (string * Z)).
Definition E0 : Listing := entries_of w0.
Definition targets (E : Listing) (n : Z) : list Z := map snd (E n).

Record looks (E : Listing) (L : list (Z * string * Z)) (w : World) : Prop := {
  looks_anchor : anchors w !! anchor o = anchors w0 !! anchor o;
  looks_log : unlinked w = L;
  looks_nodes n x0 : nodes w0 !! n = Some x0 → ∃ x, nodes w !! n = Some x ∧ fixed (n_stat x0) (n_stat x) ∧
    n_mount x = n_mount x0 ∧ (T n → n_entries x = E n) }.

(** Directories that may change, and directories that were emptied. *)
Context (may_change emptied : Z → Prop).

(** What a run may have made of the listings. *)
Record sound (E : Listing) (L : list (Z * string * Z)) : Prop := {
  sound_names n : T n → NoDup (map fst (E n));
  sound_old n t : T n → t ∈ targets E n → t ∈ targets E0 n;
  sound_kept n t : T n → t ∈ targets E0 n → t ∈ targets E n ∨ ∃ name, (n, name, t) ∈ L;
  sound_frame n : T n → ¬ may_change n → E n = E0 n;
  sound_length n : T n → (length (E n) ≤ length (E0 n))%nat;
  sound_emptied n : emptied n → E n = [] }.

Record tidy (D : list Removed) (b : bool) (r : Reporter) : Prop := {
  tidy_removed : removed (report r) = D;
  tidy_incomplete : b = false → is_complete (report r) = false;
  tidy_seen : protected r ≠ [] ∨ seen r ≠ [] → is_complete (report r) = false }.

Record at_ (E : Listing) (L : list (Z * string * Z)) (D : list Removed) (b : bool) (s : State) : Prop := {
  at_looks : looks E L (world s); at_sound : sound E L; at_tidy : tidy D b (reporter s) }.

Definition triple {A} (P : State → Prop) (c : Op A) (Q : A → State → Prop) : Prop :=
  ∀ s es, Forall ok_event es → P s → let '(a, s', es') := c s es in Q a s' ∧ Forall ok_event es'.

(** ** Rules *)
Lemma trip_ret {A} (a : A) (P : State → Prop) (Q : A → State → Prop) : (∀ s, P s → Q a s) → triple P (mret a) Q.
Proof. intros H s es Hes Hs. split; [by apply H|done]. Qed.

Lemma trip_bind {A B} (c : Op A) (f : A → Op B) P M Q :
  triple P c M → (∀ a, triple (M a) (f a) Q) → triple P (c ≫= f) Q.
Proof.
  intros Hc Hf s es Hes Hs. unfold mbind, Op_bind. specialize (Hc s es Hes Hs). destruct (c s es) as [[a s1] es1].
  destruct Hc as [Ha Hes1]. by apply Hf.
Qed.

Lemma trip_conseq {A} (c : Op A) (P P' : State → Prop) (Q Q' : A → State → Prop) :
  triple P' c Q' → (∀ s, P s → P' s) → (∀ a s, Q' a s → Q a s) → triple P c Q.
Proof.
  intros Hc HP HQ s es Hes Hs. specialize (Hc s es Hes (HP s Hs)). destruct (c s es) as [[a s1] es1].
  destruct Hc as [Ha Hes1]. auto.
Qed.

Lemma trip_post {A} (c : Op A) (P : State → Prop) (Q Q' : A → State → Prop) :
  triple P c Q' → (∀ a s, Q' a s → Q a s) → triple P c Q.
Proof. intros Hc HQ. eapply trip_conseq; eauto. Qed.

Lemma trip_pure {A} (c : Op A) (F : Prop) (P : State → Prop) Q : (F → triple P c Q) → triple (λ s, P s ∧ F) c Q.
Proof. intros Hc s es Hes [Hs HF]. by apply Hc. Qed.

Lemma trip_exists {A X} (c : Op A) (P : X → State → Prop) Q : (∀ x, triple (P x) c Q) → triple (λ s, ∃ x, P x s) c Q.
Proof. intros Hc s es Hes [x Hs]. by apply (Hc x). Qed.

Lemma trip_or {A} (c : Op A) (P P' : State → Prop) Q : triple P c Q → triple P' c Q → triple (λ s, P s ∨ P' s) c Q.
Proof. intros H H' s es Hes [Hs|Hs]; [by apply H|by apply H']. Qed.

(** ** Assertions *)
Lemma others_refl w : others_may w w.
Proof. split_and!; [done|done|]. intros n x Hx. by exists x. Qed.

Lemma looks_others E L w w' : looks E L w → others_may w w' → looks E L w'.
Proof.
  intros [Ha Hl Hn] (Ha' & Hl' & Hn'). split; [congruence|congruence|].
  intros n x0 H0. destruct (Hn n x0 H0) as (x & Hx & F & Hm & He). destruct (Hn' n x Hx) as (x' & Hx' & F' & Hm' & Ht).
  exists x'. split_and!; [done|by eapply fixed_trans|congruence|].
  intros HT. rewrite <- He by done. destruct HT as (y & Hy & Hty). assert (y = x0) as -> by congruence.
  f_equal. apply Ht. by rewrite (fixed_trusts _ _ F).
Qed.

Lemma looks_start : well_formed → looks E0 [] w0.
Proof.
  intros W. split; [done|apply (wf_log W)|]. intros n x0 H0. exists x0. split; [done|]. split; [apply fixed_refl|]. split; [done|].
  intros _. unfold E0, entries_of. by rewrite H0.
Qed.

Lemma sound_start : well_formed → (∀ n, ¬ emptied n) → sound E0 [].
Proof.
  intros W He. split; try done.
  - intros n (x & Hx & Ht). unfold E0, entries_of. rewrite Hx. by eapply wf_names.
  - auto.
  - intros n Hn. by destruct (He n).
Qed.

Lemma tidy_start : tidy [] true new_reporter.
Proof. split; [done|done|]. intros [?|?]; done. Qed.

Lemma tidy_weaken D b b' r : tidy D b r → (b' = false → b = false) → tidy D b' r.
Proof. intros [] H. split; auto. Qed.

Lemma at_weaken E L D b b' s : at_ E L D b s → (b' = false → b = false) → at_ E L D b' s.
Proof. intros [] H. split; [done|done|]. by eapply tidy_weaken. Qed.

Lemma looks_ext E E' L w : looks E L w → (∀ n, E n = E' n) → looks E' L w.
Proof.
  intros [Ha Hl Hn] H. split; [done|done|]. intros n x0 H0. destruct (Hn n x0 H0) as (x & ? & ? & ? & He).
  exists x. split_and!; try done. intros HT. rewrite He by done. apply H.
Qed.

(** ** Reporting *)
Lemma incomplete_remnants r x : is_complete (add_remnant x r) = false.
Proof. unfold is_complete, add_remnant. cbn. by destruct (remnants r). Qed.

Lemma tidy_remnant D b l k d r : tidy D b r → tidy D false (remnant l k d r).
Proof.
  intros [Hr Hb Hs]. unfold remnant. case_bool_decide as Hin; cbn.
  - assert (is_complete (report r) = false) as Hc by (apply Hs; right; by intros E; rewrite E in Hin; apply elem_of_nil in Hin).
    by split.
  - pose proof (incomplete_remnants (report r) {| rem_logical := l; rem_kind := k; rem_detail := d |}) as Hc. by split.
Qed.

Lemma trip_tell {A} (f : Reporter → Reporter) (k : Op A) E L D b D' b' Q :
  (∀ r, tidy D b r → tidy D' b' (f r)) → triple (at_ E L D' b') k Q → triple (at_ E L D b) (tell f;; k) Q.
Proof.
  intros Hf Hk. eapply trip_bind with (M := λ _, at_ E L D' b'); [|done].
  intros s es Hes [Hl Hs Ht]. split; [|done]. split; [done|done|]. cbn. auto.
Qed.

Lemma trip_tell_last (f : Reporter → Reporter) E L D b D' b' :
  (∀ r, tidy D b r → tidy D' b' (f r)) → triple (at_ E L D b) (tell f) (λ _, at_ E L D' b').
Proof. intros Hf s es Hes [Hl Hs Ht]. split; [|done]. split; [done|done|]. cbn. auto. Qed.

Lemma refuse_spec {A} (a : A) l k d E L D b :
  triple (at_ E L D b) (refuse a l k d) (λ r s, r = a ∧ at_ E L D false s).
Proof.
  unfold refuse, report_remnant. eapply trip_tell; [intros r; apply tidy_remnant|]. by apply trip_ret.
Qed.

Lemma report_remnant_spec l k d E L D b : triple (at_ E L D b) (report_remnant l k d) (λ _, at_ E L D false).
Proof. apply trip_tell_last. intros r. apply tidy_remnant. Qed.

(** ** Looking *)
Lemma syscall_spec {A} (f : World → result A Errno * World) E L D b (Q : result A Errno → State → Prop) :
  (∀ err s, errno err = OtherErrno → at_ E L D b s → Q (Err err) s) →
  (∀ s, at_ E L D b s → let '(r, w) := f (world s) in Q r (set_world w s)) →
  triple (at_ E L D b) (syscall f) Q.
Proof.
  intros Hfail Hf s es Hes [Hl Hs Ht]. unfold syscall.
  assert (ok_event (default calm (head es)) ∧ Forall ok_event (tail es)) as [[Hb He] Hes'].
  { destruct es as [|e es]; cbn.
    - split; [|constructor]. split; [intros; apply others_refl|done].
    - by apply Forall_cons in Hes. }
  set (e := default calm (head es)) in *. 
  assert (at_ E L D b (set_world (before_call e (world s)) s)) as Hat.
  { split; [|done|done]. cbn. by eapply looks_others. }
  destruct (fails e) as [err|].
  - split; [|done]. by apply Hfail.
  - specialize (Hf _ Hat). cbn in Hf. destruct (f (before_call e (world s))) as [r w]. by split.
Qed.

Lemma look_spec {A} (f : World → result A Errno) E L D b (R : result A Errno → Prop) :
  (∀ err, errno err = OtherErrno → R (Err err)) → (∀ w, looks E L w → R (f w)) →
  triple (at_ E L D b) (look f) (λ r s, at_ E L D b s ∧ R r).
Proof.
  intros Hfail Hf. apply syscall_spec; [by auto|]. intros s Hs. destruct s as [w r]. split; [done|]. by apply Hf, Hs.
Qed.

(** A look whose answer does not matter. *)
Lemma look_any {A} (f : World → result A Errno) E L D b : triple (at_ E L D b) (look f) (λ _, at_ E L D b).
Proof. eapply trip_post; [by apply (look_spec f E L D b (λ _, True))|]. by intros a s [? _]. Qed.

Lemma looks_lookup E L w p name : looks E L w → T p → lookup_at w p name = find_entry name (E p).
Proof.
  intros Hl HT. pose proof HT as (x0 & H0 & _). destruct (looks_nodes _ _ _ Hl p x0 H0) as (x & Hx & _ & _ & He).
  unfold lookup_at, entries_of. by rewrite Hx, <- He.
Qed.

Lemma find_entry_elem name l t : find_entry name l = Some t → (name, t) ∈ l.
Proof.
  unfold find_entry. destruct (List.find _ l) as [[n' t']|] eqn:E; [|done]. intros [= <-].
  apply find_some in E as [Hin Heq]. apply String.eqb_eq in Heq. cbn in Heq. subst n'. by apply list_elem_of_In.
Qed.

Lemma sound_target (W : well_formed) E L p name t : sound E L → T p → find_entry name (E p) = Some t →
  t ∈ targets E0 p ∧ is_Some (nodes w0 !! t).
Proof.
  intros Hs HT Hf. apply find_entry_elem in Hf.
  assert (t ∈ targets E0 p) as Ht.
  { eapply sound_old; [done|done|]. unfold targets. change t with (snd (name, t)). by apply list_elem_of_fmap_2. }
  split; [done|]. unfold targets in Ht. apply list_elem_of_fmap in Ht as ([n' t'] & -> & Hin).
  destruct HT as (x & Hx & Htr). unfold E0, entries_of in Hin. rewrite Hx in Hin. by eapply (wf_targets W p x).
Qed.

Lemma looks_stat E L w n x0 st : looks E L w → nodes w0 !! n = Some x0 → stat_of w n = Ok st → fixed (n_stat x0) st.
Proof.
  intros Hl H0 Hst. destruct (looks_nodes _ _ _ Hl n x0 H0) as (x & Hx & F & _). unfold stat_of in Hst. rewrite Hx in Hst.
  by injection Hst as <-.
Qed.

Section calls.
Context (W : well_formed) (E : Listing) (L : list (Z * string * Z)) (D : list Removed) (b : bool).

Definition seen_at (p : Z) (name : string) (r : result Stat Errno) : Prop :=
  match r with
  | Ok st => ∃ t x0, find_entry name (E p) = Some t ∧ nodes w0 !! t = Some x0 ∧ fixed (n_stat x0) st
  | Err e => errno e = ENOENT → find_entry name (E p) = None
  end.

Lemma lstat_at_spec p name : sound E L → T p →
  triple (at_ E L D b) (lstat_at p name) (λ r s, at_ E L D b s ∧ seen_at p name r).
Proof using W.
  intros Hs HT. apply look_spec; [by intros err He; cbn; rewrite He|].
  intros w Hl. rewrite (looks_lookup E L w p name) by done. unfold seen_at.
  destruct (find_entry name (E p)) as [t|] eqn:Hf; [|done].
  destruct (sound_target W E L p name t) as [_ [x0 H0]]; [done..|].
  destruct (looks_nodes _ _ _ Hl t x0 H0) as (x & Hx & F & _). unfold stat_of. rewrite Hx. by exists t, x0.
Qed.

Lemma fstat_spec n x0 : nodes w0 !! n = Some x0 →
  triple (at_ E L D b) (fstat n) (λ r s, at_ E L D b s ∧ match r with Ok st => fixed (n_stat x0) st | Err _ => True end).
Proof.
  intros H0. apply look_spec; [done|]. intros w Hl. destruct (stat_of w n) eqn:Hst; [|done]. by eapply looks_stat.
Qed.

Definition opened_at (p : Z) (name : string) (r : result Z Errno) : Prop :=
  match r with Ok h => find_entry name (E p) = Some h | Err _ => True end.

Lemma open_directory_node_ok w n h : open_directory_node w n = Ok h → h = n.
Proof.
  unfold open_directory_node. destruct (stat_of w n); [|done]. destruct (is_symlink _); [done|].
  destruct (is_dir _); [by intros [= ->]|done].
Qed.

Lemma open_dir_at_spec p name : T p →
  triple (at_ E L D b) (open_dir_at p name) (λ r s, at_ E L D b s ∧ opened_at p name r).
Proof.
  intros HT. apply look_spec; [done|]. intros w Hl. rewrite (looks_lookup E L w p name) by done. unfold opened_at.
  destruct (find_entry name (E p)) as [t|]; [|done].
  destruct (open_directory_node w t) as [h|] eqn:Eh; [|done]. by apply open_directory_node_ok in Eh as ->.
Qed.

Lemma open_file_at_spec p name : T p →
  triple (at_ E L D b) (open_file_at p name) (λ r s, at_ E L D b s ∧ opened_at p name r).
Proof.
  intros HT. apply look_spec; [done|]. intros w Hl. rewrite (looks_lookup E L w p name) by done. unfold opened_at.
  destruct (find_entry name (E p)) as [t|]; [|done]. destruct (stat_of w t); [|done]. by destruct (is_symlink _).
Qed.

Lemma mount_id_spec n x0 : nodes w0 !! n = Some x0 →
  triple (at_ E L D b) (mount_id n) (λ r s, at_ E L D b s ∧ ∀ m, r = Some m → m = n_mount x0).
Proof.
  intros H0. unfold mount_id. eapply trip_bind with (M := λ r s, at_ E L D b s ∧ ∀ m, r = Ok m → m = n_mount x0).
  - apply look_spec; [done|]. intros w Hl m. destruct (looks_nodes _ _ _ Hl n x0 H0) as (x & -> & _ & <- & _). by intros [= <-].
  - intros r. apply trip_ret. intros s [Hs Hr]. split; [done|]. destruct r as [id|]; [|done]. intros m [= ->]. by apply Hr.
Qed.

Lemma proven_mount_id_spec mounts n x0 : nodes w0 !! n = Some x0 →
  triple (at_ E L D b) (proven_mount_id o mounts n) (λ r s, at_ E L D b s ∧ ∀ m, r = Some m → m = n_mount x0).
Proof.
  intros H0. unfold proven_mount_id. eapply trip_bind; [by apply mount_id_spec|]. intros r. apply trip_ret.
  intros s [Hs Hr]. split; [done|]. destruct r as [id|]; [|done]. destruct (_ || _); [|done]. intros m [= ->]. by apply Hr.
Qed.

Lemma proven_mount_id_any mounts n : triple (at_ E L D b) (proven_mount_id o mounts n) (λ _, at_ E L D b).
Proof.
  unfold proven_mount_id, mount_id. eapply trip_bind with (M := λ _, at_ E L D b).
  - eapply trip_bind; [apply look_any|]. intros r. by apply trip_ret.
  - intros r. by apply trip_ret.
Qed.

Lemma dir_stream_spec n : T n →
  triple (at_ E L D b) (dir_stream n) (λ r s, at_ E L D b s ∧ ∀ l, r = Ok l → l = map fst (E n)).
Proof.
  intros HT. apply look_spec; [done|]. intros w Hl l. pose proof HT as (x0 & H0 & _).
  destruct (looks_nodes _ _ _ Hl n x0 H0) as (x & -> & _ & _ & He). intros [= <-]. by rewrite He.
Qed.

Lemma rewind_spec n l : T n →
  triple (at_ E L D b) (rewind n l) (λ r s, at_ E L D b s ∧ r = map fst (E n)).
Proof.
  intros HT s es Hes [Hl Hs Ht]. unfold rewind.
  assert (ok_event (default calm (head es)) ∧ Forall ok_event (tail es)) as [[Hb _] Hes'].
  { destruct es as [|e es]; cbn; [split; [split; [intros; apply others_refl|done]|constructor]|by apply Forall_cons in Hes]. }
  assert (looks E L (before_call (default calm (head es)) (world s))) as Hl' by by eapply looks_others.
  split; [|done]. split; [by split|]. pose proof HT as (x0 & H0 & _).
  destruct (looks_nodes _ _ _ Hl' n x0 H0) as (x & -> & _ & _ & He). by rewrite He.
Qed.

Lemma load_interrupt_spec : triple (at_ E L D b) load_interrupt (λ _, at_ E L D b).
Proof.
  intros s es Hes [Hl Hs Ht]. unfold load_interrupt.
  assert (ok_event (default calm (head es)) ∧ Forall ok_event (tail es)) as [[Hb _] Hes'].
  { destruct es as [|e es]; cbn; [split; [split; [intros; apply others_refl|done]|constructor]|by apply Forall_cons in Hes]. }
  split; [|done]. split; [by eapply looks_others|done|done].
Qed.
End calls.
End logic.
