(* ===== verification/PurgeSteps.v ===== *)
(** * PurgeSteps: what the steps of a purge do to the listings

    Listings and their changes, the calls that rename and unlink, the proofs that nothing moved,
    and the way of one entry from its name to its deletion, in the logic of [PurgeLogic.v]. *)

From stdpp Require Import gmap.
From S2P Require Import Prelude Text Purge PurgeEngine PurgeLogic.

Abbreviation Listing := (Z → list (string * Z)).

(** ** Listings *)
Definition upd (E : Listing) (p : Z) (f : list (string * Z) → list (string * Z)) : Listing :=
  λ n, if n =? p then f (E p) else E n.

Lemma upd_same E p f : upd E p f p = f (E p).
Proof. unfold upd. by rewrite Z.eqb_refl. Qed.
Lemma upd_other E p f n : n ≠ p → upd E p f n = E n.
Proof. intros H. unfold upd. by destruct (Z.eqb_spec n p). Qed.

Lemma find_entry_none name l : find_entry name l = None ↔ name ∉ map fst l.
Proof.
  unfold find_entry. destruct (List.find _ l) as [[n t]|] eqn:E; cbn.
  - split; [done|]. apply find_some in E as [Hin Heq]. apply String.eqb_eq in Heq. cbn in Heq. subst n.
    intros H. exfalso. apply H. change name with (fst (name, t)). by apply list_elem_of_fmap_2, list_elem_of_In.
  - split; [|done]. intros _ [[n t] [-> Hin]]%list_elem_of_fmap. apply list_elem_of_In in Hin.
    pose proof (find_none _ _ E _ Hin) as Hne. cbn in Hne. by rewrite String.eqb_refl in Hne.
Qed.

Lemma find_entry_unique name t l : NoDup (map fst l) → (name, t) ∈ l → find_entry name l = Some t.
Proof.
  unfold find_entry. induction l as [|[n' t'] l IH]; [by intros _ ?%elem_of_nil|].
  cbn [map fst List.find]. intros [Hn Hd]%NoDup_cons [[= <- <-]|Hin]%elem_of_cons; [by rewrite String.eqb_refl|].
  destruct (String.eqb_spec n' name) as [->|]; [|by apply IH].
  exfalso. apply Hn. change name with (fst (name, t)). by apply list_elem_of_fmap_2.
Qed.

Lemma find_drop name q l : find_entry name (drop_entry q l) = if String.eqb name q then None else find_entry name l.
Proof.
  unfold find_entry, drop_entry. induction l as [|[n t] l IH]; cbn [List.filter List.find fst]; [by destruct (String.eqb name q)|].
  destruct (String.eqb_spec n q) as [->|Hq]; cbn [negb].
  - rewrite IH. destruct (String.eqb_spec name q) as [->|Hn]; [done|].
    destruct (String.eqb_spec q name); [congruence|done].
  - cbn [List.find fst]. destruct (String.eqb_spec n name) as [->|]; [|exact IH].
    by destruct (String.eqb_spec name q).
Qed.

Lemma drop_rename name q l : q ∉ map fst l → drop_entry q (rename_entry name q l) = drop_entry name l.
Proof.
  unfold drop_entry, rename_entry. induction l as [|[n t] l IH]; [done|]. cbn [map fst List.filter snd].
  intros [Hn Hl]%not_elem_of_cons. destruct (String.eqb_spec n name) as [->|Hne]; cbn [fst].
  - rewrite String.eqb_refl. cbn [negb]. by apply IH.
  - destruct (String.eqb_spec n q) as [->|]; [done|]. cbn [negb]. f_equal. by apply IH.
Qed.

Lemma rename_targets name q l : map snd (rename_entry name q l) = map snd l.
Proof. unfold rename_entry. rewrite map_map. apply map_ext. intros [n t]. cbn. by destruct (String.eqb n name). Qed.

Lemma rename_names name q l : NoDup (map fst l) → q ∉ map fst l → NoDup (map fst (rename_entry name q l)).
Proof.
  intros Hd Hq. unfold rename_entry. rewrite map_map.
  rewrite (map_ext _ (λ e, if String.eqb (fst e) name then q else fst e)) by (intros [n t]; cbn; by destruct (String.eqb n name)).
  induction l as [|[n t] l IH]; cbn; [constructor|]. cbn in Hd, Hq. apply NoDup_cons in Hd as [Hn Hd].
  apply not_elem_of_cons in Hq as [Hqn Hq]. constructor; [|by apply IH].
  intros [[n' t'] [E Hin]]%list_elem_of_fmap. cbn in E. assert (n' ∈ map fst l) as Hin' by (change n' with (fst (n', t')); by apply list_elem_of_fmap_2).
  destruct (String.eqb_spec n name) as [->|]; destruct (String.eqb_spec n' name) as [->|]; subst; done.
Qed.

Lemma rename_find_new name q l t : q ∉ map fst l → find_entry name l = Some t → find_entry q (rename_entry name q l) = Some t.
Proof.
  unfold find_entry, rename_entry. induction l as [|[n t'] l IH]; [done|]. cbn [map fst snd List.find].
  intros [Hn Hl]%not_elem_of_cons. destruct (String.eqb_spec n name) as [->|Hne]; cbn [fst].
  - rewrite String.eqb_refl. done.
  - destruct (String.eqb_spec n q) as [->|]; [done|]. intros Hf. by apply IH.
Qed.

Lemma drop_elem q l e : e ∈ drop_entry q l ↔ e ∈ l ∧ fst e ≠ q.
Proof.
  unfold drop_entry. rewrite !list_elem_of_In, filter_In. by rewrite negb_true_iff, String.eqb_neq.
Qed.

Lemma drop_names q l : NoDup (map fst l) → NoDup (map fst (drop_entry q l)).
Proof.
  induction l as [|[n t] l IH]; [done|]. cbn [map fst]. intros [Hn Hd]%NoDup_cons.
  unfold drop_entry. cbn [List.filter fst]. fold (drop_entry q l).
  destruct (String.eqb n q); cbn [negb map fst]; [by apply IH|]. constructor; [|by apply IH].
  intros [e [-> [Hin _]%drop_elem]]%list_elem_of_fmap. by apply Hn, list_elem_of_fmap_2.
Qed.

Section engine.
Context (o : PurgeOptions) (mounts : MountTable) (w0 : World) (W : well_formed o w0).
Context (may_change emptied : Z → Prop).
Abbreviation At := (at_ o w0 may_change emptied).
Abbreviation trip := (triple o).
Abbreviation Tr := (T o w0).

(** What is removed under which name: trusted directories and files, and enrollment markers. *)
Definition removable (kind : RemovedKind) (logical : string) (st : Stat) : Prop :=
  match kind with
  | RemovedDirectory => trusts o st = true
  | RemovedFile => is_regular st = true ∧ (is_direct_enrollment_marker logical = true ∨
      st_uid st = trusted_uid o ∧ st_gid st = trusted_gid o ∧ Z.land (st_mode st) 18 = 0)
  end.

(** ** The two calls that change a directory *)
Lemma looks_change E L w p f : looks o w0 E L w → Tr p →
  looks o w0 (upd E p f) L (change_entries f p w).
Proof.
  intros [Ha Hl Hn] HT. split; [done|done|]. intros n x0 H0. destruct (Hn n x0 H0) as (x & Hx & F & Hm & He).
  cbn. destruct (decide (n = p)) as [->|Hne].
  - rewrite lookup_alter_eq, Hx. eexists. split; [done|]. split; [done|]. split; [done|]. intros _. cbn.
    by rewrite upd_same, He.
  - rewrite lookup_alter_ne by done. exists x. rewrite upd_other by done. done.
Qed.

Lemma fixed_lose_link a x : fixed o a (n_stat x) → fixed o a (n_stat (lose_link x)).
Proof. intros []. by split. Qed.

Lemma looks_lose_link E L w t : looks o w0 E L w → looks o w0 E L (with_nodes (alter lose_link t) w).
Proof.
  intros [Ha Hl Hn]. split; [done|done|]. intros n x0 H0. destruct (Hn n x0 H0) as (x & Hx & F & Hm & He). cbn.
  destruct (decide (n = t)) as [->|Hne].
  - rewrite lookup_alter_eq, Hx. eexists. split; [done|]. split; [by apply fixed_lose_link|]. done.
  - rewrite lookup_alter_ne by done. by exists x.
Qed.

Lemma looks_logged E L w x : looks o w0 E L w → looks o w0 E (L ++ [x]) (log_unlinked x w).
Proof. intros [Ha Hl Hn]. split; [done|by cbn; rewrite Hl|done]. Qed.

Abbreviation Sound := (sound o w0 may_change emptied).

Lemma sound_rename E L p name q : Sound E L → may_change p → Tr p → q ∉ map fst (E p) → Sound (upd E p (rename_entry name q)) L.
Proof.
  intros [Sn So Sk Sf Sl Se] Hp HT Hq.
  assert (∀ n, targets (upd E p (rename_entry name q)) n = targets E n) as Ht.
  { intros n. unfold targets. destruct (decide (n = p)) as [->|]; [by rewrite upd_same, rename_targets|by rewrite upd_other]. }
  split; intros n; rewrite ?Ht; auto.
  - intros Hn. destruct (decide (n = p)) as [->|]; [rewrite upd_same; apply rename_names; auto|rewrite upd_other; auto].
  - intros Hn Hm. rewrite upd_other by (by intros ->). auto.
  - intros Hn. destruct (decide (n = p)) as [->|]; [rewrite upd_same; unfold rename_entry; rewrite length_map; auto|rewrite upd_other; auto].
  - intros Hn. destruct (decide (n = p)) as [->|]; [by rewrite upd_same, Se|rewrite upd_other; auto].
Qed.

Lemma sound_drop E L p q t : Sound E L → may_change p → Tr p → find_entry q (E p) = Some t →
  Sound (upd E p (drop_entry q)) (L ++ [(p, q, t)]).
Proof.
  intros [Sn So Sk Sf Sl Se] Hp HT Hq. split.
  - intros n Hn. destruct (decide (n = p)) as [->|]; [rewrite upd_same; apply drop_names; auto|rewrite upd_other; auto].
  - intros n t' Hn. unfold targets. destruct (decide (n = p)) as [->|]; [|rewrite upd_other by done; by apply So].
    rewrite upd_same. intros [e [-> [He _]%drop_elem]]%list_elem_of_fmap. apply So; [done|]. by apply list_elem_of_fmap_2.
  - intros n t' Hn Ht. destruct (Sk n t' Hn Ht) as [Hin|[name Hin]]; [|right; exists name; by apply elem_of_app; left].
    unfold targets in *. destruct (decide (n = p)) as [->|]; [|left; by rewrite upd_other].
    rewrite upd_same. apply list_elem_of_fmap in Hin as [[n' t''] [-> Hin]]. cbn.
    destruct (decide (n' = q)) as [->|Hne].
    + right. exists q. apply elem_of_app. right. apply list_elem_of_singleton.
      rewrite (find_entry_unique q t'' (E p)) in Hq by auto. by injection Hq as <-.
    + left. change t'' with (snd (n', t'')). by apply list_elem_of_fmap_2, drop_elem.
  - intros n Hn Hm. rewrite upd_other by (by intros ->). auto.
  - intros n Hn. destruct (decide (n = p)) as [->|]; [|rewrite upd_other; auto].
    rewrite upd_same. etrans; [|by apply Sl]. unfold drop_entry. apply List.filter_length_le.
  - intros n Hn. destruct (decide (n = p)) as [->|]; [by rewrite upd_same, Se|rewrite upd_other; auto].
Qed.

Lemma rename_spec E L D b p from to : Tr p → may_change p →
  trip (At E L D b) (rename_noreplace p from to)
    (λ r s, match r with
            | Ok _ => ((∃ t, find_entry from (E p) = Some t) ∧ to ∉ map fst (E p)) ∧ At (upd E p (rename_entry from to)) L D b s
            | Err _ => At E L D b s
            end).
Proof using W.
  intros HT Hp. apply syscall_spec; [done|]. intros s [Hl Hs Ht].
  rewrite !(looks_lookup o w0 E L _ p) by done.
  assert (At E L D b s) as Hsame by done. destruct s as [w r]. cbn in *.
  destruct (find_entry from (E p)) as [t|] eqn:Ef; [|done]. destruct (find_entry to (E p)) as [t'|] eqn:Et; [done|].
  case_bool_decide; [|done]. apply find_entry_none in Et. split; [split; [by exists t|done]|].
  split; [by apply looks_change|by apply sound_rename|done].
Qed.

Lemma unlink_spec E L D b p name d : Tr p → may_change p →
  trip (At E L D b) (unlink_at p name d)
    (λ r s, match r with
            | Ok _ => ∃ t, find_entry name (E p) = Some t ∧ At (upd E p (drop_entry name)) (L ++ [(p, name, t)]) D b s
            | Err _ => At E L D b s
            end).
Proof using W.
  intros HT Hp. apply syscall_spec; [done|]. intros s [Hl Hs Ht].
  rewrite (looks_lookup o w0 E L _ p) by done.
  assert (At E L D b s) as Hsame by done. destruct s as [w r]. cbn in *.
  destruct (find_entry name (E p)) as [t|] eqn:Ef; [|done].
  destruct (nodes w !! t) as [x|]; [|done]. destruct (nodes w !! p) as [y|]; [|done].
  assert (looks o w0 (upd E p (drop_entry name)) (L ++ [(p, name, t)])
    (log_unlinked (p, name, t) (with_nodes (alter lose_link t) (change_entries (drop_entry name) p w)))) as Hgone.
  { by apply looks_logged, looks_lose_link, looks_change. }
  assert (Sound (upd E p (drop_entry name)) (L ++ [(p, name, t)])) as Hsound by by apply sound_drop.
  destruct d.
  - destruct (is_dir (n_stat x)); cbn [negb]; [|done]. case_bool_decide; cbn [negb]; [|done].
    destruct (n_mount x =? n_mount y); cbn [negb]; [|done]. exists t. split; [done|].
    split; [by apply looks_lose_link|done|done].
  - destruct (is_dir (n_stat x)); [done|]. destruct (n_mount x =? n_mount y); cbn [negb]; [|done].
    exists t. split; [done|]. by split.
Qed.

(** ** Proofs that nothing moved: they only look *)
Lemma refused {A} (a : A) l k d E L D b (Q : A → State → Prop) :
  (∀ s, At E L D false s → Q a s) → trip (At E L D b) (refuse a l k d) Q.
Proof. intros HQ. eapply trip_post; [apply refuse_spec|]. intros r s [-> Hs]. by apply HQ. Qed.

Ltac looking := eapply trip_bind; [first [apply look_any | apply proven_mount_id_any]|intros ?].

Lemma weakened E L D b b' s : At E L D b s → (b' = false → b = false) → At E L D b' s.
Proof. apply at_weaken. Qed.

Lemma links_are_current_spec logical links E L D b :
  trip (At E L D b) (links_are_current o mounts logical links) (λ r s, At E L D (b && r) s).
Proof.
  induction links as [|link links IH]; cbn [links_are_current]; [apply trip_ret; intros s Hs; by rewrite andb_true_r|].
  assert (∀ l k d, trip (At E L D b) (refuse false l k d) (λ r s, At E L D (b && r) s)) as Hno.
  { intros. apply refused. intros s Hs. by rewrite andb_false_r. }
  do 2 looking. destruct (negb _); [apply Hno|]. looking. destruct a1 as [current|]; [|apply Hno].
  do 2 looking. destruct (negb _); [apply Hno|apply IH].
Qed.

Lemma fixed_root_is_current_spec r E L D b :
  trip (At E L D b) (fixed_root_is_current o mounts r) (λ c s, At E L D (b && c) s).
Proof.
  unfold fixed_root_is_current. do 3 looking. destruct (negb _); [|apply links_are_current_spec].
  apply refused. intros s Hs. by rewrite andb_false_r.
Qed.

Lemma traversal_chain_is_current_spec links logical E L D b :
  trip (At E L D b) (traversal_chain_is_current o mounts links logical) (λ c s, At E L D (b && c) s).
Proof.
  induction links as [|link links IH]; cbn [traversal_chain_is_current]; [apply trip_ret; intros s Hs; by rewrite andb_true_r|].
  do 3 looking. destruct (_ && _ && _); [apply IH|]. apply refused. intros s Hs. by rewrite andb_false_r.
Qed.

Lemma chains_are_current_spec r links logical E L D b :
  trip (At E L D b) (chains_are_current o mounts r links logical) (λ c s, At E L D (b && c) s).
Proof.
  unfold chains_are_current. eapply trip_bind; [apply fixed_root_is_current_spec|]. intros [].
  - rewrite andb_true_r. apply traversal_chain_is_current_spec.
  - apply trip_ret. done.
Qed.

(** ** The mount of a descriptor is the root's *)
Definition on_root_mount (r : OpenedRoot) (x : Node) : Prop := st_dev (n_stat x) = root_dev r ∧ n_mount x = root_mount r.

Lemma opened_on_root_mount_spec n x0 r logical E L D b : nodes w0 !! n = Some x0 →
  trip (At E L D b) (opened_on_root_mount o mounts n r logical)
    (λ (m : option Z) s, At E L D (b && is_some m) s ∧ (m ≠ None → on_root_mount r x0)).
Proof.
  intros H0. unfold opened_on_root_mount. eapply trip_bind; [by apply fstat_spec|]. intros st. apply trip_pure. intros Hst.
  eapply trip_bind; [by apply proven_mount_id_spec|]. intros mount. apply trip_pure. intros Hm.
  assert (∀ l k d, trip (At E L D b) (refuse (@None Z) l k d) (λ (m : option Z) s, At E L D (b && is_some m) s ∧ (m ≠ None → on_root_mount r x0))) as Hno.
  { intros. apply refused. intros s Hs. by rewrite andb_false_r. }
  destruct st as [st|]; [|apply Hno]. destruct mount as [m|]; [|apply Hno].
  destruct (_ && _) eqn:Ec; [|apply Hno]. apply trip_ret. intros s Hs. rewrite andb_true_r. split; [done|]. intros _.
  apply andb_true_iff in Ec as [Ec _]. apply andb_true_iff in Ec as [Ed Em]. apply Z.eqb_eq in Ed, Em.
  split; [by rewrite <- Ed, (fixed_dev _ _ _ Hst)|]. rewrite <- Em. symmetry. by apply Hm.
Qed.

(** ** Quarantine *)
Lemma quarantine_from_spec tries attempt p name logical before E L D b : Tr p → may_change p →
  trip (At E L D b) (quarantine_from tries attempt p name logical before)
    (λ q s, match q with
            | Some q => (is_Some (find_entry name (E p)) ∧ q ∉ map fst (E p)) ∧ At (upd E p (rename_entry name q)) L D b s
            | None => At E L D false s
            end).
Proof using W.
  intros HT Hp. revert attempt b. induction tries as [|tries IH]; intros attempt b; cbn [quarantine_from]; [by apply refused|].
  destruct (String.eqb _ name); [apply IH|].
  eapply trip_bind; [by apply rename_spec|]. intros [|e]; cbn.
  - by apply trip_ret.
  - case_bool_decide; [|by apply refused].
    eapply trip_bind; [apply report_remnant_spec|]. intros ?. eapply trip_conseq; [apply (IH _ false)|done|].
    intros [q|] s; [|done]. intros [Hq Hs]. split; [done|]. by eapply weakened.
Qed.

Lemma restore_quarantined_spec p name q logical identity flavor E L D b : Tr p → may_change p →
  trip (At E L D b) (restore_quarantined p name q logical identity flavor) (λ _ s, ∃ E', At E' L D false s).
Proof using W.
  intros HT Hp. unfold restore_quarantined. eapply trip_bind; [by apply rename_spec|]. intros [|e]; cbn.
  - apply (trip_conseq o _ _ (At (upd E p (rename_entry q name)) L D b) _ (λ _, At (upd E p (rename_entry q name)) L D false));
      [|by intros s [_ Hs]|by eauto].
    looking. destruct (found _ _ _); apply report_remnant_spec.
  - apply (trip_post o _ _ _ (λ _, At E L D false)); [|by eauto].
    case_bool_decide; [|apply report_remnant_spec]. eapply trip_bind; [apply report_remnant_spec|]. intros ?.
    eapply trip_conseq; [apply report_remnant_spec|done|done].
Qed.

Lemma with_sound {A} (c : Op A) E L D b Q : (Sound E L → trip (At E L D b) c Q) → trip (At E L D b) c Q.
Proof. intros H s es Hes Hs. apply H; [|done..]. by destruct Hs. Qed.

(** What a node was found to be by a descriptor that was opened on it. *)
Definition proven (flavor : EntryFlavor) (before : Stat) (r : OpenedRoot) (fd : Z) : Prop :=
  ∃ x0 st, nodes w0 !! fd = Some x0 ∧ on_root_mount r x0 ∧ fixed o (n_stat x0) st ∧ flavor_same flavor before st = true.

Lemma prove_quarantined_spec flavor p q q_logical before r q_public E L D b : Tr p →
  trip (At E L D b) (prove_quarantined o mounts flavor p q q_logical before r q_public)
    (λ fd s, At E L D b s ∧ match fd with Some t => find_entry q (E p) = Some t ∧ proven flavor before r t | None => True end).
Proof using W.
  intros HT. unfold prove_quarantined. apply with_sound. intros Hs0.
  assert (trip (At E L D b) (mret None) (λ fd s, At E L D b s ∧ match fd with Some t => find_entry q (E p) = Some t ∧ proven flavor before r t | None => True end)) as Hno
    by by apply trip_ret.
  destruct (negb _); [done|].
  eapply trip_bind with (M := λ fd s, At E L D b s ∧ opened_at E p q fd).
  { destruct flavor; [by apply open_file_at_spec|by apply open_dir_at_spec]. }
  intros fd. apply trip_pure. intros Hfd. destruct fd as [t|]; [|done]. cbn in Hfd.
  destruct (sound_target o w0 may_change emptied W E L p q t) as [_ [x0 H0]]; [done..|].
  eapply trip_bind; [by apply fstat_spec|]. intros st. apply trip_pure. intros Hst.
  destruct (found _ before st) eqn:Ef; cbn [negb]; [|done].
  eapply trip_bind; [by apply opened_on_root_mount_spec|]. intros m. apply trip_ret. intros s [Hs Hm].
  split; [by eapply weakened; [done|intros ->]|]. destruct m as [m|]; [|done]. split; [done|].
  destruct st as [st|]; [|done]. exists x0, st. split_and!; [done|by apply Hm|done|done].
Qed.

Definition deletion flavor p q before r E L D b (fd : option Z) (s : State) : Prop :=
  match fd with
  | Some t => (find_entry q (E p) = Some t ∧ proven flavor before r t) ∧ At (upd E p (drop_entry q)) (L ++ [(p, q, t)]) D b s
  | None => ∃ E', At E' L D false s
  end.

Lemma delete_quarantined_spec flavor p name q logical q_logical failed before r links E L D b : Tr p → may_change p →
  trip (At E L D b) (delete_quarantined o mounts flavor p name q logical q_logical failed before r links)
    (deletion flavor p q before r E L D b).
Proof using W.
  intros HT Hp. unfold delete_quarantined. 
  assert (∀ identity b', trip (At E L D b') (restore_quarantined p name q logical identity flavor;; mret None)
    (deletion flavor p q before r E L D b)) as Hrestore.
  { intros identity b'. eapply trip_bind; [by apply restore_quarantined_spec|]. intros []. by apply trip_ret. }
  looking. eapply trip_bind; [by apply prove_quarantined_spec|]. intros fd. apply trip_pure. intros Hfd.
  destruct fd as [t|]; [|apply Hrestore]. destruct Hfd as [Hq Ht].
  eapply trip_bind; [apply chains_are_current_spec|]. intros []; cbn [negb]; [|apply Hrestore].
  rewrite andb_true_r. looking. destruct (negb _); [apply Hrestore|].
  eapply trip_bind; [by apply unlink_spec|]. intros [|e]; cbn.
  - apply trip_ret. intros s (t' & Hq' & Hs). assert (t' = t) as -> by congruence. done.
  - assert (trip (At E L D b) (refuse (@None Z) q_logical Inaccessible (failed +:+ errno_text e))
      (deletion flavor p q before r E L D b)) as Hno by (apply refused; cbn; by eauto).
    looking. destruct a1 as [st|]; [|done]. destruct (flavor_same _ _ _); [apply Hrestore|done].
Qed.

(** ** One entry, from its name to its deletion *)
Lemma at_ext E E' L D b s : At E L D b s → (∀ n, E n = E' n) → At E' L D b s.
Proof.
  intros [Hl [Sn So Sk Sf Sl Se] Ht] H. split; [by eapply looks_ext| |done].
  split; intros n; unfold targets in *; rewrite <- ?H; eauto.
Qed.

Lemma upd_quarantined E p name q n : q ∉ map fst (E p) →
  upd (upd E p (rename_entry name q)) p (drop_entry q) n = upd E p (drop_entry name) n.
Proof. intros Hq. unfold upd. destruct (n =? p); [|done]. rewrite Z.eqb_refl. by apply drop_rename. Qed.

Definition removed_by (kind : RemovedKind) (logical : string) (r : OpenedRoot) (t : Z) : Prop :=
  ∃ x, nodes w0 !! t = Some x ∧ on_root_mount r x ∧ removable kind logical (n_stat x).

(** The entry is gone and reported, or the report is not complete. *)
Definition removal kind p name logical r E L D b (gone : bool) (s : State) : Prop :=
  if gone
  then ∃ q t, removed_by kind logical r t ∧
    At (upd E p (drop_entry name)) (L ++ [(p, q, t)]) (D ++ [{| gone_logical := logical; gone_kind := kind |}]) b s
  else ∃ E', At E' L D false s.

Lemma report_removed_spec E L D b logical kind :
  trip (At E L D b) (tell (report_removed logical kind))
    (λ _, At E L (D ++ [{| gone_logical := logical; gone_kind := kind |}]) b).
Proof. apply trip_tell_last. intros r [Hr Hb Hs]. split; cbn; [by rewrite Hr|exact Hb|exact Hs]. Qed.

Lemma external_hardlink_spec E L D b logical :
  trip (At E L D b) (tell (external_hardlink logical)) (λ _, At E L D b).
Proof.
  apply trip_tell_last. intros r [Hr Hb Hs]. unfold external_hardlink. case_bool_decide; [done|].
  split; cbn; [done|..]; intros _; apply incomplete_remnants.
Qed.

(** The steps a file and a directory share. *)
Lemma entry_gone flavor kind p name logical q_logical failed before r links E L D b (after : Z → Op bool) :
  Tr p → may_change p →
  (∀ x st, fixed o (n_stat x) st → flavor_same flavor before st = true → removable kind logical (n_stat x)) →
  (∀ t E L, trip (At E L D b) (after t) (λ g s, g = true ∧ At E L (D ++ [{| gone_logical := logical; gone_kind := kind |}]) b s)) →
  trip (At E L D b)
    (let! qname := quarantine_entry p name logical before else mret false in
     let! qfd := delete_quarantined o mounts flavor p name qname logical (q_logical qname) failed before r links else mret false in
     after qfd)
    (removal kind p name logical r E L D b).
Proof using W.
  intros HT Hp Hkind Hafter. eapply trip_bind; [by apply quarantine_from_spec|].
  intros [q|]; cbn; [|apply trip_ret; intros s Hs; by exists E].
  intros s es Hes [[_ Hq] Hs]. revert s es Hes Hs.
  eapply trip_bind; [by apply delete_quarantined_spec|]. intros [t|]; cbn; [|by apply trip_ret].
  intros s es Hes [[_ Ht] Hs]. revert s es Hes Hs.
  eapply trip_post; [apply Hafter|]. intros ? s [-> Hs]. exists q, t. split.
  - destruct Ht as (x & st & Hx & Hm & Hf & Hsame). exists x. by eauto.
  - eapply at_ext; [exact Hs|]. intros n. by apply upd_quarantined.
Qed.

Lemma trusted_file x st before logical : fixed o (n_stat x) st → same_identity before st = true →
  is_trusted_regular o logical before = true → removable RemovedFile logical (n_stat x).
Proof.
  intros F Hi Ht. unfold same_identity in Hi. rewrite !andb_true_iff, !Z.eqb_eq in Hi.
  destruct Hi as [[[[[_ _] Hm] _] Hu] Hg]. unfold is_trusted_regular, trusted_regular in Ht.
  destruct (is_regular before) eqn:Er; [|done]. split.
  { unfold is_regular in *. rewrite <- (fixed_type _ _ _ F). unfold file_type in *. by rewrite <- Hm. }
  cbn in Ht. destruct (negb _); [done|]. destruct (is_direct_enrollment_marker logical); [by left|]. right.
  rewrite !andb_true_iff, !Z.eqb_eq in Ht. destruct Ht as [[Hu' Hg'] Hm'].
  pose proof (fixed_uid _ _ _ F). pose proof (fixed_gid _ _ _ F).
  split_and!; [congruence..|]. rewrite <- (fixed_mode _ _ _ F) by congruence. by rewrite <- Hm.
Qed.

Lemma purge_regular_entry_spec f name logical before r E L D b : Tr (f_handle f) → may_change (f_handle f) →
  trip (At E L D b) (purge_regular_entry o mounts f name logical before r)
    (removal RemovedFile (f_handle f) name logical r E L D b).
Proof using W.
  intros HT Hp. unfold purge_regular_entry. apply with_sound. intros Hs0.
  assert (∀ l k d, trip (At E L D b) (refuse false l k d) (removal RemovedFile (f_handle f) name logical r E L D b)) as Hno.
  { intros. apply refused. intros s Hs. by exists E. }
  assert (∀ b', trip (At E L D (b' && false)) (mret false) (removal RemovedFile (f_handle f) name logical r E L D b)) as Hno'.
  { intros. apply trip_ret. intros s Hs. exists E. by rewrite andb_false_r in Hs. }
  destruct (negb (st_nlink before =? 1)); [apply Hno|].
  destruct (is_trusted_regular o logical before) eqn:Et; cbn [negb]; [|apply Hno].
  eapply trip_bind; [by apply open_file_at_spec|]. intros fd. apply trip_pure. intros Hfd.
  destruct fd as [fd|]; [|apply Hno]. cbn in Hfd.
  destruct (sound_target o w0 may_change emptied W E L (f_handle f) name fd) as [_ [x0 H0]]; [done..|].
  looking. destruct (negb _); [apply Hno|].
  eapply trip_bind; [by apply opened_on_root_mount_spec|]. intros m. apply trip_pure. intros _.
  destruct m as [m|]; [|apply Hno']. cbn [is_some]. rewrite andb_true_r.
  looking. destruct (negb _); [apply Hno|].
  eapply trip_bind; [apply chains_are_current_spec|]. intros []; cbn [negb]; [|apply Hno'].
  rewrite andb_true_r. apply (entry_gone EntryFile); [done..| |].
  - intros x st Hx Hsame. by eapply trusted_file.
  - intros t E' L'. looking. eapply trip_bind with (M := λ _, At E' L' D b).
    { destruct (match a1 with Ok st => _ | Err _ => _ end); [by apply trip_ret|apply external_hardlink_spec]. }
    intros ?. eapply trip_bind; [apply report_removed_spec|]. intros ?. by apply trip_ret.
Qed.

Lemma finish_child_spec f p name r E L D b : f_depth f ≠ 0 → f_parent f = Some p → f_name f = Some name →
  Tr p → may_change p → trusts o (f_before f) = true → (b = true → f_children_removed f = true) →
  trip (At E L D b) (finish_frame o mounts f r) (removal RemovedDirectory p name (f_logical f) r E L D b).
Proof using W.
  intros Hd Hparent Hname HT Hp Ht Hc. unfold finish_frame. rewrite Hparent, Hname.
  assert (∀ l k d, trip (At E L D b) (refuse false l k d) (removal RemovedDirectory p name (f_logical f) r E L D b)) as Hno.
  { intros. apply refused. intros s Hs. by exists E. }
  looking. destruct a as [|]; [|apply Hno]. destruct (Z.eqb_spec (f_depth f) 0); [done|].
  destruct (f_children_removed f); cbn [negb].
  2: { destruct b; [by specialize (Hc eq_refl)|]. apply trip_ret. intros s Hs. by exists E. }
  do 2 looking. destruct (negb _); [apply Hno|].
  eapply trip_bind; [apply chains_are_current_spec|]. intros []; cbn [negb].
  2: { apply trip_ret. intros s Hs. exists E. by rewrite andb_false_r in Hs. }
  rewrite andb_true_r. apply (entry_gone EntryDirectory); [done..| |].
  - intros x st F Hsame. cbn in Hsame |- *. unfold same_directory_identity in Hsame. rewrite !andb_true_iff, !Z.eqb_eq in Hsame.
    destruct Hsame as [[[[_ _] Hm] Hu] Hg]. rewrite <- Ht, <- (fixed_trusts o _ _ F). unfold trusts, trusted_directory, is_dir, file_type.
    by rewrite Hm, Hu, Hg.
  - intros t E' L'. eapply trip_bind; [apply report_removed_spec|]. intros ?. by apply trip_ret.
Qed.

Lemma finish_root_spec f r E L D b : f_depth f = 0 →
  trip (At E L D b) (finish_frame o mounts f r) (λ c s, At E L D (b && c) s).
Proof.
  intros Hd. unfold finish_frame. looking. destruct a as [|].
  - rewrite Hd. cbn. apply fixed_root_is_current_spec.
  - apply refused. intros s Hs. by rewrite andb_false_r.
Qed.
End engine.
