(* ===== verification/PurgeProofs.v ===== *)
(** * PurgeProofs: a purge stays inside its roots, and a complete one has emptied them

    The engine of [PurgeEngine.v], run beside other processes that leave trusted directories alone
    but do anything else, with any calls failing and the caller's flag rising at any time. *)

From stdpp Require Import gmap.
From S2P Require Import Prelude Text Purge PurgeEngine PurgeLogic PurgeSteps.

(** ** Roots and what is inside them *)
Fixpoint resolves (w : World) (n : Z) (parts : list string) : option Z :=
  match parts with [] => Some n | name :: parts => lookup_at w n name ≫= λ m, resolves w m parts end.

Definition root_node (o : PurgeOptions) (w : World) (logical : string) : option Z :=
  anchors w !! anchor o ≫= λ a, resolves w a (parts_of logical).

Definition same_mount (w : World) (a b : Z) : Prop :=
  ∃ x y, nodes w !! a = Some x ∧ nodes w !! b = Some y ∧ st_dev (n_stat x) = st_dev (n_stat y) ∧ n_mount x = n_mount y.

(** Reached from the root through trusted directories of the root's mount. *)
Inductive inside (o : PurgeOptions) (w : World) (rt : Z) : Z → Prop :=
  | inside_root : inside o w rt rt
  | inside_child d t : inside o w rt d → t ∈ targets (entries_of w) d → T o w t → same_mount w rt t → inside o w rt t.

Definition inside_a_root (o : PurgeOptions) (w : World) (n : Z) : Prop :=
  ∃ logical rt, logical ∈ PURGE_ROOTS ∧ root_node o w logical = Some rt ∧ inside o w rt n.

(** The directories above the roots are not below one: what a tree of directories is. *)
Definition apart (o : PurgeOptions) (w : World) : Prop :=
  ∀ logical parts rest a n, logical ∈ PURGE_ROOTS → parts_of logical = parts ++ rest → rest ≠ [] →
    anchors w !! anchor o = Some a → resolves w a parts = Some n → ¬ inside_a_root o w n.

(** What the report says of an unlinked name: in a directory inside a root, an object of that
    root's mount that may be removed under the reported path, which is below the root's. *)
Definition accounts (o : PurgeOptions) (w : World) (x : Z * string * Z) (g : Removed) : Prop :=
  let '(p, _, t) := x in
  ∃ logical rt rest n, logical ∈ PURGE_ROOTS ∧ root_node o w logical = Some rt ∧ inside o w rt p ∧ same_mount w rt t ∧
    gone_logical g = logical +:+ String slash rest ∧ nodes w !! t = Some n ∧
    removable o (gone_kind g) (gone_logical g) (n_stat n).

Lemma resolves_app w n ps qs : resolves w n (ps ++ qs) = resolves w n ps ≫= λ m, resolves w m qs.
Proof.
  revert n. induction ps as [|p ps IH]; intros n; [done|]. cbn. destruct (lookup_at w n p) as [m|]; [apply IH|done].
Qed.

Section traversal.
Context (o : PurgeOptions) (mounts : MountTable) (w0 : World) (W : well_formed o w0) (Apart : apart o w0).
Context (emptied : Z → Prop).
Abbreviation may_change := (inside_a_root o w0).
Abbreviation At := (at_ o w0 may_change emptied).
Abbreviation trip := (triple o).
Abbreviation Tr := (T o w0).
Abbreviation accounted := (Forall2 (accounts o w0)).

Ltac looking := eapply trip_bind; [first [apply look_any | apply proven_mount_id_any]|intros ?].

Lemma trusted_T n x st : nodes w0 !! n = Some x → fixed o (n_stat x) st → is_trusted_directory o st = true → Tr n.
Proof. intros Hx F Ht. exists x. split; [done|]. by rewrite <- (fixed_trusts _ _ _ F). Qed.

(** ** Opening a root *)
Lemma open_components_spec logical a parts : ∀ walked component_logical parent m links E L D b,
  logical ∈ PURGE_ROOTS → anchors w0 !! anchor o = Some a → parts_of logical = walked ++ parts →
  resolves w0 a walked = Some parent → Tr parent →
  (parts = [] → ∃ link x, last links = Some link ∧ l_handle link = parent ∧ nodes w0 !! parent = Some x ∧
     st_dev (n_stat x) = st_dev (l_before link) ∧ n_mount x = m) →
  trip (At E L D b) (open_components o mounts logical parts component_logical parent m links)
    (λ res s, match res with
              | Some (links', m') => At E L D b s ∧ ∃ link x, last links' = Some link ∧
                  resolves w0 a (parts_of logical) = Some (l_handle link) ∧ Tr (l_handle link) ∧
                  nodes w0 !! l_handle link = Some x ∧ st_dev (n_stat x) = st_dev (l_before link) ∧ n_mount x = m'
              | None => At E L D false s ∨ At E L D b s ∧ resolves w0 a (parts_of logical) = None
              end).
Proof using W Apart.
  induction parts as [|name parts IH]; intros walked cl parent m links E L D b Hl Ha Hp Hr HT Hlast; cbn [open_components].
  - apply trip_ret. intros s Hs. split; [done|]. destruct (Hlast eq_refl) as (link & x & ? & Hh & ? & ? & ?). exists link, x.
    rewrite app_nil_r in Hp. rewrite Hp, Hh. done.
  - match goal with |- trip _ _ ?Q => assert (∀ l k d, trip (At E L D b) (refuse None l k d) Q) as Hno
      by (intros; apply refused; by left) end.
    apply (with_sound o w0 may_change emptied). intros Hs0.
    assert (E parent = E0 w0 parent) as HE.
    { apply (sound_frame o w0 _ _ _ _ Hs0); [done|]. by eapply (Apart logical walked (name :: parts)). }
    eapply trip_bind; [by apply lstat_at_spec|]. intros before. apply trip_pure. intros Hb. destruct before as [before|e].
    2: { case_bool_decide as He; [|apply Hno]. apply trip_ret. intros s Hs. right. split; [done|].
         rewrite Hp, resolves_app, Hr. cbn. unfold lookup_at. change (entries_of w0 parent) with (E0 w0 parent).
         by rewrite <- HE, (Hb He). }
    destruct (is_symlink before); [apply Hno|].
    destruct (is_trusted_directory o before) eqn:Et; cbn [negb]; [|apply Hno].
    destruct Hb as (t & x & Hf & Hx & F). pose proof (trusted_T _ _ _ Hx F Et) as HTt.
    eapply trip_bind; [by apply open_dir_at_spec|]. intros h. apply trip_pure. intros Hh.
    destruct h as [h|]; [|apply Hno]. cbn in Hh. assert (h = t) as -> by congruence.
    eapply trip_bind; [by apply fstat_spec|]. intros opened. apply trip_pure. intros Ho.
    destruct opened as [opened|]; [|apply Hno]. destruct (negb _); [apply Hno|].
    eapply trip_bind; [by apply proven_mount_id_spec|]. intros mount. apply trip_pure. intros Hm.
    destruct mount as [mount|]; [|apply Hno]. destruct (_ && _); [apply Hno|].
    assert (resolves w0 a (walked ++ [name]) = Some t) as Hr'.
    { rewrite resolves_app, Hr. cbn. unfold lookup_at. change (entries_of w0 parent) with (E0 w0 parent). by rewrite <- HE, Hf. }
    apply (IH (walked ++ [name])); [done|done|by rewrite <- app_assoc|done|done|].
    intros _. eexists _, x. rewrite last_snoc. split_and!; [done|done|done| |symmetry; by apply Hm].
    cbn. by rewrite (fixed_dev _ _ _ Ho).
Qed.

Record root_ok (logical : string) (r : OpenedRoot) : Prop := {
  ok_logical : root_logical r = logical;
  ok_node : root_node o w0 logical = Some (root r);
  ok_trusted : Tr (root r);
  ok_mount : ∃ x, nodes w0 !! root r = Some x ∧ on_root_mount r x }.

Lemma parts_nonempty logical : logical ∈ PURGE_ROOTS → parts_of logical ≠ [].
Proof. unfold PURGE_ROOTS. rewrite !elem_of_cons, elem_of_nil. by intros [->|[->|[->|[]]]]. Qed.

Lemma open_fixed_root_spec logical E L D b : logical ∈ PURGE_ROOTS →
  trip (At E L D b) (open_fixed_root o mounts logical)
    (λ r s, match r with
            | Some r => At E L D b s ∧ root_ok logical r
            | None => At E L D false s ∨ At E L D b s ∧ root_node o w0 logical = None
            end).
Proof using W Apart.
  intros Hl. unfold open_fixed_root.
  match goal with |- trip _ _ ?Q => assert (∀ l k d, trip (At E L D b) (refuse None l k d) Q) as Hno
      by (intros; apply refused; by left) end.
  eapply trip_bind with (M := λ st s, At E L D b s ∧ ∀ st', st = Ok st' →
    ∃ a x, anchors w0 !! anchor o = Some a ∧ nodes w0 !! a = Some x ∧ fixed o (n_stat x) st').
  { apply look_spec; [done|]. intros w Hlk st. rewrite (looks_anchor _ _ _ _ _ Hlk).
    destruct (anchors w0 !! anchor o) as [a|] eqn:Ha; [|done]. intros Hst. destruct (wf_anchor _ _ W a Ha) as [x Hx].
    exists a, x. split_and!; [done|done|]. by eapply looks_stat. }
  intros st. apply trip_pure. intros Hst. destruct st as [st|]; [|apply Hno].
  destruct (Hst st eq_refl) as (a & x & Ha & Hx & F).
  destruct (is_symlink st); cbn [orb]; [apply Hno|]. destruct (is_trusted_directory o st) eqn:Et; cbn [negb]; [|apply Hno].
  pose proof (trusted_T _ _ _ Hx F Et) as HTa.
  eapply trip_bind with (M := λ h s, At E L D b s ∧ ∀ h', h = Ok h' → h' = a).
  { apply look_spec; [done|]. intros w Hlk h. rewrite (looks_anchor _ _ _ _ _ Hlk), Ha. apply open_directory_node_ok. }
  intros h. apply trip_pure. intros Hh. destruct h as [h|]; [|apply Hno]. rewrite (Hh h eq_refl).
  looking. destruct a0 as [opened|]; [|apply Hno]. destruct (negb _); [apply Hno|].
  looking. destruct a0 as [m|]; [|apply Hno].
  eapply trip_bind.
  { apply (open_components_spec logical a (parts_of logical) []); [done..|]. intros Hn. by apply parts_nonempty in Hn. }
  assert (root_node o w0 logical = resolves w0 a (parts_of logical)) as Hroot by (unfold root_node; by rewrite Ha).
  intros [[links m']|]; apply trip_ret; [|by rewrite Hroot].
  intros s [Hs (link & y & Hlast & Hr & HT & Hy & Hd & Hm)]. cbn [fst snd]. rewrite Hlast. split; [done|].
  split; cbn; [done|by rewrite Hroot|done|]. exists y. split; [done|]. by split.
Qed.

(** ** Frames *)
Definition below (r : OpenedRoot) (logical : string) : Prop := ∃ rest, logical = root_logical r +:+ String slash rest.

Definition top_frame (r : OpenedRoot) (f : Frame) : Prop := f_depth f = 0 ∧ f_logical f = root_logical r ∧ f_handle f = root r.

Definition child_frame (r : OpenedRoot) (f : Frame) : Prop :=
  0 < f_depth f ∧ below r (f_logical f) ∧ trusts o (f_before f) = true ∧ is_Some (f_name f).

Record frame_ok (r : OpenedRoot) (f : Frame) : Prop := {
  frame_trusted : Tr (f_handle f);
  frame_inside : inside o w0 (root r) (f_handle f);
  frame_place : top_frame r f ∨ child_frame r f }.

Lemma frame_below r f name : frame_ok r f → below r (f_logical f +:+ "/" +:+ name).
Proof.
  intros [_ _ [(_ & -> & _)|(_ & [rest ->] & _)]]; [by exists name|]. exists (rest +:+ "/" +:+ name).
  by rewrite string_app_assoc.
Qed.

Lemma frame_may_change logical r f : logical ∈ PURGE_ROOTS → root_ok logical r → frame_ok r f → may_change (f_handle f).
Proof. intros Hl Hr Hf. exists logical, (root r). split_and!; [done|apply Hr|apply Hf]. Qed.

Lemma root_same_mount logical r t x : root_ok logical r → nodes w0 !! t = Some x → on_root_mount r x → same_mount w0 (root r) t.
Proof.
  intros Hr Hx [Hd Hm]. destruct (ok_mount _ _ Hr) as (y & Hy & Hyd & Hym). exists y, x. split_and!; [done|done|congruence..].
Qed.

(** A removal is accounted for. *)
Lemma removal_accounts logical r p q t kind shown : logical ∈ PURGE_ROOTS → root_ok logical r → inside o w0 (root r) p → below r shown →
  removed_by o w0 kind shown r t → accounts o w0 (p, q, t) {| gone_logical := shown; gone_kind := kind |}.
Proof.
  intros Hl Hr Hp [rest Hrest] (x & Hx & Hm & Hk). exists logical, (root r), rest, x. cbn.
  split_and!; [done|apply Hr|done|by eapply root_same_mount| |done|done]. by rewrite Hrest, (ok_logical _ _ Hr).
Qed.

Definition names (E : Listing) (n : Z) : list string := map fst (E n).
Definition shrinks (E E' : Listing) : Prop := ∀ n name, name ∈ names E' n → name ∈ names E n.

Lemma drop_shrinks E p name : shrinks E (upd E p (drop_entry name)).
Proof.
  intros n q. unfold names. destruct (decide (n = p)) as [->|Hn]; [|by rewrite upd_other].
  rewrite upd_same. intros [e [-> [He _]%drop_elem]]%list_elem_of_fmap. by apply list_elem_of_fmap_2.
Qed.

Lemma drop_gone E p name : name ∉ names (upd E p (drop_entry name)) p.
Proof. unfold names. rewrite upd_same. by intros [e [-> [_ He]%drop_elem]]%list_elem_of_fmap. Qed.

(** ** One entry *)
Definition left_behind (s : State) : Prop := ∃ E L D, At E L D false s ∧ accounted L D.

Definition gone_from (p : Z) (name : string) E b (s : State) : Prop :=
  ∃ E' L' D', At E' L' D' b s ∧ accounted L' D' ∧ shrinks E E' ∧ name ∉ names E' p.

Definition child_outcome (r : OpenedRoot) (f : Frame) (name : string) E L D b (out : ChildOutcome) (s : State) : Prop :=
  match out with
  | Kept => gone_from (f_handle f) name E b s
  | Refused | AbortRoot => left_behind s
  | Descend g => (At E L D b s ∧ accounted L D) ∧ frame_ok r g ∧ child_frame r g ∧ f_parent g = Some (f_handle f) ∧
      f_name g = Some name ∧ f_children_removed g = true ∧ (∀ n, n ∈ names E (f_handle g) → n ∈ f_stream g) ∧
      (length (f_stream g) ≤ length (E0 w0 (f_handle g)))%nat
  end.

Lemma removal_gone logical r p name kind shown E L D b (gone : bool) s : logical ∈ PURGE_ROOTS → root_ok logical r →
  inside o w0 (root r) p → below r shown → accounted L D → removal o w0 may_change emptied kind p name shown r E L D b gone s →
  if gone then gone_from p name E b s else left_behind s.
Proof.
  intros Hl Hr Hp Hb Hacc. destruct gone; cbn.
  - intros (q & t & Ht & Hs). eexists _, _, _. split_and!; [exact Hs| |apply drop_shrinks|apply drop_gone].
    apply Forall2_app; [done|]. constructor; [|constructor]. by eapply removal_accounts.
  - intros [E' Hs]. by exists E', L, D.
Qed.

Lemma process_child_spec logical r f name E L D b : logical ∈ PURGE_ROOTS → root_ok logical r → frame_ok r f → accounted L D →
  trip (At E L D b) (process_child o mounts f name (f_logical f +:+ "/" +:+ lossy_name name) r) (child_outcome r f name E L D b).
Proof using W.
  intros Hl Hr Hf Hacc. pose proof (frame_trusted _ _ Hf) as HT. pose proof (frame_may_change _ _ _ Hl Hr Hf) as Hmay.
  pose proof (frame_below r f (lossy_name name) Hf) as Hbelow. set (shown := f_logical f +:+ "/" +:+ lossy_name name) in *.
  assert (∀ l k d, trip (At E L D b) (refuse Refused l k d) (child_outcome r f name E L D b)) as Hno.
  { intros. apply refused. intros s Hs. by exists E, L, D. }
  apply (with_sound o w0 may_change emptied). intros Hs0. unfold process_child.
  eapply trip_bind; [by apply lstat_at_spec|]. intros before. apply trip_pure. intros Hb. destruct before as [before|e].
  2: { case_bool_decide as He; [|apply Hno]. apply trip_ret. intros s Hs. exists E, L, D. split_and!; [done|done|by intros ?|].
       unfold names. by apply find_entry_none, Hb. }
  destruct (_ && _); [apply Hno|]. destruct (is_symlink before); [apply Hno|]. destruct (is_regular before).
  { eapply trip_bind; [by apply purge_regular_entry_spec|]. intros gone. apply trip_ret. intros s Hs.
    eapply (removal_gone logical) in Hs; [|done|done|apply Hf|done|done]. by destruct gone. }
  destruct (negb (is_dir before)); [apply Hno|].
  destruct (is_trusted_directory o before) eqn:Et; cbn [negb]; [|apply Hno].
  destruct (max_depth o <? f_depth f + 1); [apply Hno|].
  destruct Hb as (t & x & Hfind & Hx & F). pose proof (trusted_T _ _ _ Hx F Et) as HTt.
  eapply trip_bind; [by apply open_dir_at_spec|]. intros h. apply trip_pure. intros Hh.
  destruct h as [h|]; [|apply Hno]. cbn in Hh. assert (h = t) as -> by congruence.
  looking. destruct a as [opened|]; [|apply Hno]. destruct (negb _); [apply Hno|].
  eapply trip_bind; [by apply opened_on_root_mount_spec|]. intros m. apply trip_pure. intros Hm.
  destruct m as [m|]; [|apply trip_ret; intros s Hs; rewrite andb_false_r in Hs; by exists E, L, D].
  cbn [is_some]. rewrite andb_true_r.
  eapply trip_bind; [by apply dir_stream_spec|]. intros stream. apply trip_pure. intros Hstream.
  destruct stream as [stream|]; [|apply Hno]. rewrite (Hstream stream eq_refl).
  assert (∀ g, f_handle g = t → f_stream g = map fst (E t) → f_depth g = f_depth f + 1 → f_logical g = shown → f_before g = before →
    f_name g = Some name → f_parent g = Some (f_handle f) → f_children_removed g = true →
    trip (At E L D b) (mret (Descend g)) (child_outcome r f name E L D b)) as Hdescend.
  { intros g Hgh Hgs Hgd Hgl Hgb Hgn Hgp Hgc. apply trip_ret. intros s Hs. cbn.
    assert (child_frame r g) as Hchild.
    { split_and!; [|by rewrite Hgl|by rewrite Hgb|by rewrite Hgn]. rewrite Hgd.
      destruct (frame_place _ _ Hf) as [[-> _]|[? _]]; lia. }
    split; [done|]. split.
    { split; [by rewrite Hgh| |by right]. rewrite Hgh. eapply inside_child; [apply Hf| |done|].
      - by eapply sound_target.
      - eapply root_same_mount; [done|done|]. by apply Hm. }
    rewrite Hgs, Hgh. unfold names. split_and!; [done|done|done|done|done|]. rewrite length_map. by apply Hs0. }
  destruct (String.eqb _ _); cbn [negb].
  - looking. destruct a as [[[n' stream']|]|]; [apply Hno| |apply Hno].
    eapply trip_bind; [by apply (rewind_spec o w0)|]. intros stream'. apply trip_pure. intros ->. by apply Hdescend.
  - by apply Hdescend.
Qed.

Lemma ask_spec shown E L D b : trip (At E L D b) (ask (is_protected shown)) (λ held s, At E L D (b && negb held) s).
Proof.
  intros s es Hes [Hlk Hs Ht]. cbn. split; [|done]. split; [done|done|]. unfold is_protected. case_bool_decide as Hin; cbn.
  - rewrite andb_false_r. split; [apply Ht| |apply Ht]. intros _. apply (tidy_seen _ _ _ Ht). left. intros Hn. rewrite Hn in Hin.
    by apply elem_of_nil in Hin.
  - by rewrite andb_true_r.
Qed.

(** Only what is counted is descended into. *)
Lemma visit_spec logical r f name seen E L D b : logical ∈ PURGE_ROOTS → root_ok logical r → frame_ok r f → accounted L D →
  trip (At E L D b) (visit o mounts f name seen r)
    (λ '(out, seen') s, child_outcome r f name E L D b out s ∧ seen ≤ seen' ∧
       match out with Descend _ => seen' = seen + 1 ∧ seen' ≤ max_nodes o | _ => True end).
Proof using W.
  intros Hl Hr Hf Hacc. unfold visit. eapply trip_bind; [apply ask_spec|]. intros [].
  - apply trip_ret. intros s Hs. rewrite andb_false_r in Hs. split; [by exists E, L, D|]. by split; [lia|].
  - cbn [negb]. rewrite andb_true_r. destruct (Z.ltb_spec (max_nodes o) (seen + 1)).
    + apply refused. intros s Hs. split; [by exists E, L, D|]. by split; [lia|].
    + eapply trip_bind; [by eapply process_child_spec|]. intros out. apply trip_ret. intros s Hs.
      split; [done|]. split; [lia|]. by destruct out.
Qed.

(** ** The traversal

    Every frame but the last hangs below the next; while the report can be complete, what a
    directory still lists was not read yet, or is the directory above it on the stack. *)
Fixpoint linked (stack : list Frame) : Prop :=
  match stack with
  | [] => True
  | f :: rest =>
      match rest with [] => f_depth f = 0 | g :: _ => 0 < f_depth f ∧ f_parent f = Some (f_handle g) end ∧ linked rest
  end.

Fixpoint covered (E : Listing) (above : option string) (stack : list Frame) : Prop :=
  match stack with
  | [] => True
  | f :: rest =>
      f_children_removed f = true ∧ (∀ n, n ∈ names E (f_handle f) → n ∈ f_stream f ∨ above = Some n) ∧ covered E (f_name f) rest
  end.

Lemma covered_shrinks E E' above stack : shrinks E E' → covered E above stack → covered E' above stack.
Proof.
  intros Hs. revert above. induction stack as [|f stack IH]; intros above; [done|]. cbn. intros (Hc & Hn & Hr).
  split_and!; [done| |by apply IH]. intros n Hin. apply Hn. by apply Hs.
Qed.

Lemma frame_refused r f : frame_ok r f → frame_ok r (refuse_child f).
Proof. by intros []. Qed.
Lemma frame_advanced r f l : frame_ok r f → frame_ok r (set_stream l f).
Proof. by intros []. Qed.
Lemma refused_stack r stack : Forall (frame_ok r) stack ∧ linked stack →
  Forall (frame_ok r) (refuse_top stack) ∧ linked (refuse_top stack).
Proof.
  destruct stack as [|f stack]; [done|]. intros [Hf Hl]. apply Forall_cons in Hf as [Hf Hfs]. split; [|exact Hl].
  constructor; [by apply frame_refused|done].
Qed.

(** Every step reads a name, or leaves a directory; only a counted one opens another. *)
Definition work (M : nat) (seen : Z) (stack : list Frame) : nat :=
  (sum_list_with (λ f, S (length (f_stream f))) stack + Z.to_nat (max_nodes o - seen) * S M)%nat.
#[local] Arguments work : simpl never.

Definition finished (r : OpenedRoot) (b : bool) (done : option unit) (s : State) : Prop :=
  ∃ E L D b', At E L D b' s ∧ accounted L D ∧ (b = false → b' = false) ∧ (done = Some tt → b' = true → E (root r) = []).

Lemma left_finished r b done s : left_behind s → finished r b done s.
Proof. intros (E & L & D & Hs & Hacc). exists E, L, D, false. by split_and!. Qed.
Lemma finished_weaken r b b2 done s : finished r b done s → (b2 = false → b = false) → finished r b2 done s.
Proof. intros (E & L & D & b' & Hs & Hacc & Hb & He) H. exists E, L, D, b'. split_and!; auto. Qed.

Context (M : nat) (HM : ∀ n, Tr n → (length (E0 w0 n) ≤ M)%nat).

Lemma next_entry_spec stream E L D b :
  trip (At E L D b) (next_entry stream) (λ e s, At E L D b s ∧
    ∀ e', e = Ok e' → e' = match stream with [] => None | name :: stream => Some (name, stream) end).
Proof. apply look_spec; [done|]. by intros w _ e' [= <-]. Qed.

Definition traversed (logical : string) (r : OpenedRoot) (fuel : nat) : Prop := ∀ seen stack E L D b,
  accounted L D → Forall (frame_ok r) stack ∧ linked stack →
  (b = true → covered E None stack ∧ (stack = [] → E (root r) = [])) →
  trip (At E L D b) (traverse o mounts fuel r seen stack)
    (λ res s, ((work M seen stack < fuel)%nat → res = Some tt) ∧ finished r b res s).

Lemma traverse_left logical r fuel seen stack k b : traversed logical r fuel → Forall (frame_ok r) stack ∧ linked stack →
  (work M seen stack < k → work M seen stack < fuel)%nat →
  trip left_behind (traverse o mounts fuel r seen stack)
    (λ res s, ((work M seen stack < k)%nat → res = Some tt) ∧ finished r b res s).
Proof.
  intros IH Hst Hk s es Hes (E & L & D & Hs & Hacc). revert s es Hes Hs.
  eapply trip_post; [by apply IH|]. cbn. intros res s [Hres Hfin]. split; [auto|]. by eapply finished_weaken.
Qed.

Lemma work_refused seen stack : work M seen (refuse_top stack) = work M seen stack.
Proof. by destruct stack. Qed.
Lemma work_pop seen f stack : work M seen (f :: stack) = S (length (f_stream f) + work M seen stack).
Proof. unfold work. cbn. lia. Qed.
Lemma work_seen seen seen' stack : seen ≤ seen' → (work M seen' stack ≤ work M seen stack)%nat.
Proof. intros H. unfold work. apply Nat.add_le_mono_l, Nat.mul_le_mono_r. lia. Qed.
Lemma work_descend seen g stack : seen + 1 ≤ max_nodes o → (length (f_stream g) ≤ M)%nat →
  (work M (seen + 1) (g :: stack) ≤ work M seen stack)%nat.
Proof.
  intros Hs Hg. rewrite work_pop. unfold work.
  assert (Z.to_nat (max_nodes o - seen) = S (Z.to_nat (max_nodes o - (seen + 1)))) as -> by lia. cbn. lia.
Qed.

Lemma finish_step logical r fuel seen f stack E L D b : logical ∈ PURGE_ROOTS → root_ok logical r → traversed logical r fuel →
  accounted L D → Forall (frame_ok r) (f :: stack) ∧ linked (f :: stack) → (b = true → covered E None (f :: stack)) → f_stream f = [] →
  trip (At E L D b)
    (gone ← finish_frame o mounts f r; traverse o mounts fuel r seen (if (gone : bool) then stack else refuse_top stack))
    (λ res s, ((work M seen (f :: stack) < S fuel)%nat → res = Some tt) ∧ finished r b res s).
Proof using W HM.
  intros Hl Hr IH Hacc Hst Hcov Hempty. pose proof (work_pop seen f stack) as Hw. rewrite Hempty in Hw. cbn in Hw.
  pose proof Hst as [[Hf Hfs]%Forall_cons [Hlink Hlinks]]. destruct stack as [|g stack].
  - eapply trip_bind; [by apply finish_root_spec|]. intros c.
    assert ((if c then [] else refuse_top []) = @nil Frame) as -> by by destruct c.
    eapply trip_post; [apply IH; [done|by split|]|].
    + intros [Hb _]%andb_true_iff. split; [done|]. intros _. specialize (Hcov Hb) as (_ & Hn & _).
      destruct (frame_place _ _ Hf) as [(_ & _ & Hh)|[? _]]; [|lia]. rewrite Hh in Hn. unfold names in Hn.
      destruct (E (root r)) as [|[n t] l]; [done|]. destruct (Hn n) as [Hin|]; [by left| |done].
      rewrite Hempty in Hin. by apply elem_of_nil in Hin.
    + cbn. intros res s [Hres Hfin]. split; [|by eapply finished_weaken; [exact Hfin|intros ->]]. intros ?. apply Hres. lia.
  - destruct Hlink as [Hd Hparent]. destruct (frame_place _ _ Hf) as [[? _]|(_ & Hbelow & Htrust & [name Hname])]; [lia|].
    pose proof Hfs as [Hg _]%Forall_cons.
    eapply trip_bind.
    { apply (finish_child_spec o mounts w0 W may_change emptied f (f_handle g) name); [lia|done|done|apply Hg| |done|].
      - by eapply frame_may_change.
      - intros Hb. by destruct (Hcov Hb). }
    intros gone s es Hes Hs. eapply (removal_gone logical) in Hs; [|done|done|apply Hg|done|done]. destruct gone.
    + destruct Hs as (E' & L' & D' & Hs & Hacc' & Hshrink & Hn). revert s es Hes Hs.
      eapply trip_post; [apply IH; [done|done|]|].
      * intros Hb. split; [|done]. destruct (Hcov Hb) as (_ & _ & Hgc & Hgn & Hrest). rewrite Hname in Hgn.
        cbn. split_and!; [done| |by eapply covered_shrinks]. intros n Hin.
        destruct (Hgn n) as [|[= ->]]; [by apply Hshrink|by left|done].
      * cbn. intros res s [Hres Hfin]. split; [|done]. intros ?. apply Hres. lia.
    + revert s es Hes Hs. eapply trip_post; [apply (traverse_left logical) with (k := fuel)|]; [done|by apply refused_stack|done|].
      cbn. intros res s [Hres Hfin]. split; [|done]. intros ?. apply Hres. change (work M seen (g :: stack) < fuel)%nat. lia.
Qed.

Lemma visit_step logical r fuel seen f name stream stack E L D b : logical ∈ PURGE_ROOTS → root_ok logical r → traversed logical r fuel →
  accounted L D → Forall (frame_ok r) (f :: stack) ∧ linked (f :: stack) → (b = true → covered E None (f :: stack)) →
  f_stream f = name :: stream →
  trip (At E L D b)
    (let top := set_stream stream f in
     outcome ← visit o mounts top name seen r;
     match outcome with
     | (Kept, seen) => traverse o mounts fuel r seen (top :: stack)
     | (Refused, seen) => traverse o mounts fuel r seen (refuse_child top :: stack)
     | (Descend g, seen) => traverse o mounts fuel r seen (g :: top :: stack)
     | (AbortRoot, _) => mret (Some tt)
     end)
    (λ res s, ((work M seen (f :: stack) < S fuel)%nat → res = Some tt) ∧ finished r b res s).
Proof using W HM.
  intros Hl Hr IH Hacc Hst Hcov Hstream. cbv zeta. set (top := set_stream stream f).
  pose proof (work_pop seen f stack) as Hw. rewrite Hstream in Hw. cbn [length] in Hw.
  pose proof (λ seen, work_pop seen top stack) as Hw'. cbn [f_stream top set_stream] in Hw'.
  assert (Forall (frame_ok r) (top :: stack) ∧ linked (top :: stack)) as Htop.
  { destruct Hst as [[Hf Hfs]%Forall_cons Hlink]. split; [|exact Hlink]. constructor; [by apply frame_advanced|done]. }
  eapply trip_bind; [apply (visit_spec logical); [done|done| |done]; by destruct Htop as [[? ?]%Forall_cons _]|].
  intros [out seen'] s es Hes (Hs & Hseen & Hcount). destruct out as [| |g|].
  - destruct Hs as (E' & L' & D' & Hs & Hacc' & Hshrink & Hn). revert s es Hes Hs.
    eapply trip_post; [apply IH; [done|done|]|].
    + intros Hb. split; [|done]. destruct (Hcov Hb) as (Hc & Hin & Hrest). cbn. split_and!; [done| |by eapply covered_shrinks].
      intros n Hn'. left. destruct (Hin n) as [Hin'|]; [by apply Hshrink| |done]. rewrite Hstream in Hin'.
      apply elem_of_cons in Hin' as [->|]; done.
    + cbn. intros res s [Hres Hfin]. split; [|done]. intros ?. apply Hres.
      pose proof (work_seen _ _ (top :: stack) Hseen). rewrite (Hw' seen) in *. lia.
  - revert s es Hes Hs. eapply trip_post; [apply (traverse_left logical) with (k := fuel); [done| |done]|].
    + by apply (refused_stack r (top :: stack)).
    + cbn. intros res s [Hres Hfin]. split; [|done]. intros ?. apply Hres.
      pose proof (work_seen _ _ (top :: stack) Hseen). rewrite (Hw' seen) in *.
      change (work M seen' (top :: stack) < fuel)%nat. lia.
  - destruct Hcount as [-> Hmax]. destruct Hs as ([Hs _] & Hg & Hchild & Hparent & Hname & Hgc & Hgn & Hlen). revert s es Hes Hs.
    eapply trip_post; [apply IH; [done| |]|].
    + destruct Htop as [Hfs Hlink]. split; [by constructor|]. split; [|exact Hlink]. by destruct Hchild.
    + intros Hb. split; [|done]. destruct (Hcov Hb) as (Hc & Hin & Hrest). cbn. rewrite Hname. split_and!; [done| |done| |done].
      * intros n Hn. left. by apply Hgn.
      * intros n Hn. destruct (Hin n Hn) as [Hin'|]; [|done]. rewrite Hstream in Hin'. apply elem_of_cons in Hin' as [->|]; auto.
    + cbn. intros res s [Hres Hfin]. split; [|done]. intros ?. apply Hres.
      assert (length (f_stream g) ≤ M)%nat by (etrans; [exact Hlen|apply HM; by apply (frame_trusted _ _ Hg)]).
      pose proof (work_descend seen g (top :: stack)) as Hd. rewrite (Hw' seen) in Hd. lia.
  - split; [|done]. split; [done|]. by apply left_finished.
Qed.

Lemma traverse_spec logical r fuel : logical ∈ PURGE_ROOTS → root_ok logical r → traversed logical r fuel.
Proof using W HM.
  intros Hl Hr. induction fuel as [|fuel IH]; intros seen stack E L D b Hacc Hst Hcov.
  - destruct stack as [|f stack]; cbn; apply trip_ret; intros s Hs.
    + split; [done|]. exists E, L, D, b. split_and!; [done|done|done|]. intros _ Hb. by apply Hcov.
    + split; [lia|]. by exists E, L, D, b.
  - destruct stack as [|f stack]; cbn [traverse].
    { apply trip_ret; intros s Hs. split; [done|]. exists E, L, D, b. split_and!; [done|done|done|]. intros _ Hb. by apply Hcov. }
    assert (∀ l k d, trip (At E L D b) (refuse (Some tt) l k d)
      (λ res s, ((work M seen (f :: stack) < S fuel)%nat → res = Some tt) ∧ finished r b res s)) as Hno.
    { intros. apply refused. intros s Hs. split; [done|]. apply left_finished. by exists E, L, D. }
    eapply trip_bind; [by apply load_interrupt_spec|]. intros []; [apply Hno|].
    eapply trip_bind; [apply next_entry_spec|]. intros e. apply trip_pure. intros He.
    destruct e as [e|]; [|apply Hno]. rewrite (He e eq_refl).
    destruct (f_stream f) as [|name stream] eqn:Estream.
    + apply (finish_step logical r fuel seen f stack E L D b); try done. intros Hb. by apply Hcov.
    + apply (visit_step logical r fuel seen f name stream stack E L D b); try done. intros Hb. by apply Hcov.
Qed.

(** Steps enough for one root. *)
Definition budget : nat := S (S (Z.to_nat (max_nodes o)) * S M).

Lemma purge_root_spec logical r fuel E L D b : logical ∈ PURGE_ROOTS → root_ok logical r → accounted L D →
  trip (At E L D b) (purge_root o mounts fuel r) (λ res s, ((budget ≤ fuel)%nat → res = Some tt) ∧ finished r b res s).
Proof using W HM.
  intros Hl Hr Hacc. unfold purge_root.
  eapply trip_bind; [apply fixed_root_is_current_spec|]. intros []; cbn [negb].
  2: { apply trip_ret. intros s Hs. rewrite andb_false_r in Hs. split; [done|]. apply left_finished. by exists E, L, D. }
  rewrite andb_true_r. pose proof (ok_trusted _ _ Hr) as HT.
  apply (with_sound o w0 may_change emptied). intros Hs0.
  eapply trip_bind; [by apply dir_stream_spec|]. intros stream. apply trip_pure. intros Hstream.
  destruct stream as [stream|]; [|apply refused; intros s Hs; split; [done|]; apply left_finished; by exists E, L, D].
  rewrite (Hstream stream eq_refl).
  eapply trip_post; [apply (traverse_spec logical); [done|done|done| |]|].
  - split; [|done]. constructor; [|constructor]. split; cbn; [done|apply inside_root|by left].
  - intros Hb. split; [|done]. cbn. split_and!; [done| |done]. intros n Hn. by left.
  - cbn. intros res s [Hres Hfin]. split; [|done]. intros Hfuel. apply Hres.
    rewrite work_pop. cbn. rewrite length_map. pose proof (sound_length _ _ _ _ _ _ Hs0 _ HT). specialize (HM _ HT).
    unfold work, budget in *. cbn in *. rewrite Z.sub_0_r. lia.
Qed.
End traversal.

(** ** All the roots *)
Section pass.
Context (o : PurgeOptions) (mounts : MountTable) (w0 : World) (W : well_formed o w0) (Apart : apart o w0).
Abbreviation AtE emptied := (at_ o w0 (inside_a_root o w0) emptied).
Abbreviation accounted := (Forall2 (accounts o w0)).
Context (M : nat) (HM : ∀ n, T o w0 n → (length (E0 w0 n) ≤ M)%nat).

Lemma at_emptied (emptied emptied' : Z → Prop) E L D b s : AtE emptied E L D b s → (∀ n, emptied' n → emptied n ∨ E n = []) →
  AtE emptied' E L D b s.
Proof.
  intros [Hl [Sn So Sk Sf Sl Se] Ht] H. split; [done| |done]. split; auto. intros n Hn. destruct (H n Hn); auto.
Qed.

Definition all_emptied (roots : list string) (E : Listing) : Prop :=
  ∀ logical rt, logical ∈ roots → root_node o w0 logical = Some rt → T o w0 rt ∧ E rt = [].

Definition roots_done emptied (roots : list string) (b : bool) (res : option unit) (s : State) : Prop :=
  ∃ E L D b', AtE emptied E L D b' s ∧ accounted L D ∧ (b = false → b' = false) ∧ (res = Some tt → b' = true → all_emptied roots E).

Lemma purge_roots_spec fuel roots : ∀ emptied E L D b, (∀ logical, logical ∈ roots → logical ∈ PURGE_ROOTS) → accounted L D →
  triple o (AtE emptied E L D b) (purge_roots o mounts fuel roots)
    (λ res s, ((budget o M ≤ fuel)%nat → res = Some tt) ∧ roots_done emptied roots b res s).
Proof using W Apart HM.
  induction roots as [|logical roots IH]; intros emptied E L D b Hroots Hacc; cbn [purge_roots].
  { apply trip_ret. intros s Hs. split; [done|]. exists E, L, D, b. split_and!; [done|done|done|]. intros _ _ l rt Hin.
    by apply elem_of_nil in Hin. }
  assert (∀ l, l ∈ roots → l ∈ PURGE_ROOTS) as Hrest by (intros l Hin; apply Hroots; by right).
  assert (logical ∈ PURGE_ROOTS) as Hl by (apply Hroots; by left).
  assert (∀ E L D, accounted L D → triple o (AtE emptied E L D false) (purge_roots o mounts fuel roots)
    (λ res s, ((budget o M ≤ fuel)%nat → res = Some tt) ∧ roots_done emptied (logical :: roots) b res s)) as Hleft.
  { intros E' L' D' Hacc'. eapply trip_post; [by apply IH|]. intros res s [Hres (E2 & L2 & D2 & b2 & Hs & Hacc2 & Hb & _)].
    split; [done|]. specialize (Hb eq_refl) as ->. by exists E2, L2, D2, false. }
  eapply trip_bind; [by apply load_interrupt_spec|]. intros [].
  { eapply trip_bind; [apply report_remnant_spec|]. intros ?. by apply Hleft. }
  eapply trip_bind; [apply ask_spec|]. intros []; [rewrite andb_false_r; by apply Hleft|]. cbn [negb]. rewrite andb_true_r.
  eapply trip_bind; [by apply open_fixed_root_spec|]. intros [r|].
  - intros s es Hes [Hs Hr]. revert s es Hes Hs.
    eapply trip_bind; [by apply (purge_root_spec o mounts w0 W emptied M HM logical r fuel)|]. intros res s es Hes [Hres Hfin].
    destruct res as [[]|].
    2: { split; [|done]. split; [by intros ?%Hres|]. destruct Hfin as (E' & L' & D' & b' & Hs & Hacc' & Hb & _).
         by exists E', L', D', b'. }
    destruct Hfin as (E' & L' & D' & b' & Hs & Hacc' & Hb & He). destruct b'; [|by eapply Hleft].
    specialize (He eq_refl eq_refl).
    apply (at_emptied _ (λ n, emptied n ∨ n = root r)) in Hs; [|intros n [Hn| ->]; auto].
    revert s es Hes Hs. eapply trip_post; [by apply IH|]. intros res s [Hres' (E2 & L2 & D2 & b2 & Hs & Hacc2 & Hb2 & He2)].
    split; [done|]. exists E2, L2, D2, b2. split_and!; [|done|by intros ->; discriminate Hb|].
    + eapply at_emptied; [exact Hs|]. auto.
    + intros Hr' Hb' l rt Hin Hrt. apply elem_of_cons in Hin as [->|Hin]; [|by eapply He2].
      rewrite (ok_node _ _ _ _ Hr) in Hrt. injection Hrt as <-. split; [apply Hr|].
      apply (sound_emptied _ _ _ _ _ _ (at_sound _ _ _ _ _ _ _ _ _ Hs)). by right.
  - apply trip_or; [by apply Hleft|]. apply trip_pure. intros Hnone.
    eapply trip_post; [by apply IH|]. intros res s [Hres (E2 & L2 & D2 & b2 & Hs & Hacc2 & Hb2 & He2)].
    split; [done|]. exists E2, L2, D2, b2. split_and!; [done|done|done|].
    intros Hr' Hb' l rt Hin Hrt. apply elem_of_cons in Hin as [->|Hin]; [congruence|by eapply He2].
Qed.

(** ** A pass *)
Abbreviation At := (AtE (λ _, False)).

Lemma tell_all_spec fs E L D b : Forall (λ f, ∀ r, tidy D b r → tidy D b (f r)) fs →
  triple o (At E L D b) (tell_all fs) (λ _, At E L D b).
Proof.
  induction fs as [|f fs IH]; intros Hfs; cbn [tell_all]; [by apply trip_ret|].
  apply Forall_cons in Hfs as [Hf Hfs]. eapply trip_tell; [exact Hf|by apply IH].
Qed.

Lemma tidy_config_note D b reason r : tidy D b r → tidy D b (report_config_note reason r).
Proof.
  intros Ht. unfold report_config_note. destruct (config_note (report r)); [done|]. destruct Ht as [Hr Hb Hs].
  assert (∀ l k e, is_complete {| removed := l; remnants := k; external := e; config_note := Some reason |} = false) as Hc.
  { intros l k e. unfold is_complete. cbn. by destruct k, e. }
  split; cbn; [done|..]; intros _; apply Hc.
Qed.

Lemma tidy_external D b field path r : tidy D b r → tidy D b (report_external field path r).
Proof.
  intros Ht. unfold report_external. case_bool_decide; [done|]. destruct Ht as [Hr Hb Hs].
  assert (∀ l k e c, is_complete {| removed := l; remnants := k; external := e ++ [{| ext_field := field; ext_path := path |}];
    config_note := c |} = false) as Hc by (intros l k e c; unfold is_complete; cbn; by destruct k, e).
  split; cbn; [done|..]; intros _; apply Hc.
Qed.

Lemma tidy_remnant_weak D b l k d r : tidy D b r → tidy D b (remnant l k d r).
Proof. intros Ht. eapply tidy_weaken; [by eapply tidy_remnant|done]. Qed.

Lemma report_remnant_weak l k d E L D b : triple o (At E L D b) (report_remnant l k d) (λ _, At E L D b).
Proof. apply trip_tell_last. intros r. apply tidy_remnant_weak. Qed.

(** Looking at the configuration removes nothing. *)
Lemma inspect_external_configuration_spec `{Toml} E L D b :
  triple o (At E L D b) (inspect_external_configuration o mounts) (λ _, At E L D b).
Proof using W Apart.
  unfold inspect_external_configuration.
  eapply trip_bind; [apply open_fixed_root_spec; [done|done|by left]|]. intros [r|].
  2: { apply trip_ret. intros s [Hs|[Hs _]]; [|done]. by eapply at_weaken. }
  intros s es Hes [Hs _]. revert s es Hes Hs.
  eapply trip_bind; [apply look_any|]. intros [before|e].
  2: { case_bool_decide; [by apply trip_ret|apply report_remnant_weak]. }
  destruct (_ || _); [apply report_remnant_weak|].
  eapply trip_bind; [apply look_any|]. intros [file|e]; [|apply report_remnant_weak].
  eapply trip_bind; [apply look_any|]. intros st. destruct (negb _); [apply report_remnant_weak|].
  eapply trip_bind with (M := λ _, At E L D b).
  { unfold opened_on_root_mount. eapply trip_bind; [apply look_any|]. intros st'.
    eapply trip_bind; [apply proven_mount_id_any|]. intros m.
    assert (∀ l k d, triple o (At E L D b) (refuse (@None Z) l k d) (λ _, At E L D b)) as Hno.
    { intros. eapply trip_post; [apply refuse_spec|]. intros ? s [_ Hs]. by eapply at_weaken. }
    destruct st', m; try apply Hno. destruct (_ && _); [by apply trip_ret|apply Hno]. }
  intros [m|]; [|by apply trip_ret].
  eapply trip_bind; [apply look_any|]. intros [raw|e]; [|apply report_remnant_weak].
  destruct (_ <? _); [apply trip_tell_last; intros rp; apply tidy_config_note|].
  eapply trip_bind; [apply tell_all_spec|intros ?; apply tell_all_spec].
  - apply Forall_map, Forall_forall. intros n _ rp. apply tidy_config_note.
  - apply Forall_map, Forall_forall. intros [n p] _ rp. apply tidy_external.
Qed.

End pass.

Section runs.
Context (o : PurgeOptions) (w0 : World) (W : well_formed o w0) (Apart : apart o w0).
Abbreviation At := (at_ o w0 (inside_a_root o w0) (λ _, False)).
Abbreviation start_at := (At (E0 w0) [] []).

Lemma start_ok : start_at true (start w0).
Proof using W. split; [by apply looks_start|by apply sound_start; auto|apply tidy_start]. Qed.

Lemma run_report_spec `{Toml} fuel b : triple o (start_at b) (run o Report fuel) (λ _, start_at b).
Proof using W Apart.
  unfold run. eapply trip_bind; [apply load_interrupt_spec|]. intros []; [by apply trip_ret|].
  eapply trip_bind; [apply look_any|]. intros [mounts|e].
  - eapply trip_bind; [by apply inspect_external_configuration_spec|]. intros ?. by apply trip_ret.
  - eapply trip_bind with (M := λ _, start_at b); [|intros ?; by apply trip_ret]. cbn [tell_all].
    eapply trip_tell; [intros r; apply tidy_config_note|]. by apply trip_ret.
Qed.

Context (M : nat) (HM : ∀ n, T o w0 n → (length (E0 w0 n) ≤ M)%nat).

Lemma run_purge_spec `{Toml} fuel :
  triple o (start_at true) (run o Purge_ fuel)
    (λ res s, ((budget o M ≤ fuel)%nat → res = Some tt) ∧ roots_done o w0 (λ _, False) PURGE_ROOTS true res s).
Proof using W Apart HM.
  unfold run.
  assert (∀ k detail, triple o (start_at true)
    (tell_all (map (λ logical, remnant logical k detail) PURGE_ROOTS);; mret (Some tt))
    (λ res s, ((budget o M ≤ fuel)%nat → res = Some tt) ∧ roots_done o w0 (λ _, False) PURGE_ROOTS true res s)) as Hno.
  { intros k detail. eapply trip_bind with (M := λ _, start_at false).
    - unfold PURGE_ROOTS. cbn [map tell_all]. do 3 (eapply trip_tell; [intros r; apply tidy_remnant|]). by apply trip_ret.
    - intros ?. apply trip_ret. intros s Hs. split; [done|]. exists (E0 w0), [], [], false. by split_and!. }
  eapply trip_bind; [apply load_interrupt_spec|]. intros []; [apply Hno|].
  eapply trip_bind; [apply look_any|]. intros [mounts|e]; [|apply Hno].
  eapply trip_bind; [by apply inspect_external_configuration_spec|]. intros ?. by apply purge_roots_spec.
Qed.
End runs.

(** A bound for the listings always exists. *)
Lemma listings_bounded o w0 : ∃ M, ∀ n, T o w0 n → (length (E0 w0 n) ≤ M)%nat.
Proof.
  exists (sum_list_with (λ nx, length (n_entries nx.2)) (map_to_list (nodes w0))). intros n (x & Hx & _).
  unfold E0, entries_of. rewrite Hx. cbn. apply elem_of_map_to_list in Hx.
  by apply (sum_list_with_in (n, x) (λ nx, length (n_entries nx.2))).
Qed.

Lemma looks_entries o w0 E L w n : looks o w0 E L w → T o w0 n → entries_of w n = E n.
Proof.
  intros Hl HT. pose proof HT as (x & Hx & _). destruct (looks_nodes _ _ _ _ _ Hl n x Hx) as (x' & Hx' & _ & _ & He).
  unfold entries_of. rewrite Hx'. by apply He.
Qed.

(** C10.  Whatever other processes do outside trusted directories, whatever calls fail and whenever
    the purge is interrupted: every name that was unlinked is accounted for in the report, in order,
    as a trusted directory, a trusted file or an enrollment marker, on the mount of a compiled root
    and inside it; trusted directories that are not inside a root list what they listed before; and
    the others list what they listed except what was unlinked. *)
Theorem purge_is_contained `{Toml} o fuel w es : well_formed o w → apart o w → Forall (ok_event o) es →
  let '(result, w') := purge_with_interrupt o fuel w es in
  (∃ gone, Forall2 (accounts o w) (unlinked w') gone ∧ ∀ report, result = Some report → removed report = gone) ∧
  (∀ n, T o w n → ¬ inside_a_root o w n → entries_of w' n = entries_of w n) ∧
  (∀ n t, T o w n → t ∈ targets (entries_of w') n → t ∈ targets (entries_of w) n) ∧
  (∀ n t, T o w n → t ∈ targets (entries_of w) n →
     t ∈ targets (entries_of w') n ∨ ∃ name, (n, name, t) ∈ unlinked w').
Proof.
  intros W Ap Hes. destruct (listings_bounded o w) as [M HM].
  pose proof (run_purge_spec o w W Ap M HM fuel (start w) es Hes (start_ok o w W)) as Hrun.
  unfold purge_with_interrupt. destruct (run o Purge_ fuel (start w) es) as [[res s] es'].
  destruct Hrun as [[_ (E & L & D & b & [Hl Hs Ht] & Hacc & _)] _].
  assert (∀ n, T o w n → targets (entries_of (world s)) n = targets E n) as Htargets.
  { intros n HT. unfold targets. by rewrite (looks_entries o w E L). }
  rewrite (looks_log _ _ _ _ _ Hl). split_and!.
  - exists D. split; [done|]. destruct res; [|done]. intros rep [= <-]. apply Ht.
  - intros n HT Hn. rewrite (looks_entries o w E L) by done. by apply Hs.
  - intros n t HT. rewrite Htargets by done. by apply Hs.
  - intros n t HT. rewrite Htargets by done. by apply Hs.
Qed.

(** C11.  A purge whose report says it is complete has emptied every compiled root that there is:
    the report does not claim success while an entry is left behind. *)
Theorem complete_purge_empties_roots `{Toml} o fuel w es report : well_formed o w → apart o w → Forall (ok_event o) es →
  fst (purge_with_interrupt o fuel w es) = Some report → is_complete report = true →
  ∀ logical rt, logical ∈ PURGE_ROOTS → root_node o w logical = Some rt →
    entries_of (snd (purge_with_interrupt o fuel w es)) rt = [].
Proof.
  intros W Ap Hes Hrep Hc logical rt Hl Hrt. destruct (listings_bounded o w) as [M HM].
  pose proof (run_purge_spec o w W Ap M HM fuel (start w) es Hes (start_ok o w W)) as Hrun. revert Hrep.
  unfold purge_with_interrupt. destruct (run o Purge_ fuel (start w) es) as [[res s] es']. cbn.
  destruct Hrun as [[_ (E & L & D & b & [Hlk Hs Ht] & _ & _ & He)] _]. destruct res as [[]|]; [|done]. intros [= <-].
  destruct b; [|by rewrite (tidy_incomplete _ _ _ Ht eq_refl) in Hc].
  destruct (He eq_refl eq_refl logical rt Hl Hrt) as [HT He']. by rewrite (looks_entries o w E L).
Qed.

(** A pass that only reports removes nothing. *)
Theorem report_only_looks `{Toml} o w es : well_formed o w → apart o w → Forall (ok_event o) es →
  let '(report, w') := report_remnants o w es in
  removed report = [] ∧ unlinked w' = [] ∧ ∀ n, T o w n → entries_of w' n = entries_of w n.
Proof.
  intros W Ap Hes. assert (Forall (ok_event o) (map never es)) as Hes'.
  { apply Forall_map. eapply Forall_impl; [exact Hes|]. by intros e [Hb Hf]. }
  pose proof (run_report_spec o w W Ap 0 true (start w) _ Hes' (start_ok o w W)) as Hrun.
  unfold report_remnants. destruct (run o Report 0 (start w) (map never es)) as [[res s] es''].
  destruct Hrun as [[Hl Hs Ht] _]. split_and!; [apply Ht|apply Hl|]. intros n HT. by rewrite (looks_entries o w (E0 w) []).
Qed.

(** ** A machine with an installation *)
Definition closed (w : World) (inner : gset Z) : bool :=
  forallb (λ n, forallb (λ t, bool_decide (t ∈ inner)) (targets (entries_of w) n)) (elements inner).

(** The directories above a root, down the path to it. *)
Definition ancestors (o : PurgeOptions) (w : World) (logical : string) : list Z :=
  omap (λ k, anchors w !! anchor o ≫= λ a, resolves w a (take k (parts_of logical))) (seq 0 (length (parts_of logical))).

Lemma apart_by o w (inner : gset Z) : closed w inner = true →
  forallb (λ logical, match root_node o w logical with Some rt => bool_decide (rt ∈ inner) | None => true end &&
                      forallb (λ n, bool_decide (n ∉ inner)) (ancestors o w logical)) PURGE_ROOTS = true →
  apart o w.
Proof.
  unfold closed. rewrite !forallb_forall. intros Hclosed Hroots.
  assert (∀ n, inside_a_root o w n → n ∈ inner) as Hin.
  { intros n (logical & rt & Hl & Hrt & Hn). apply list_elem_of_In, Hroots, andb_prop in Hl as [Hr _]. rewrite Hrt in Hr.
    apply bool_decide_eq_true in Hr. induction Hn as [|d t Hd IH Ht HT Hm]; [done|].
    apply elem_of_elements, list_elem_of_In, Hclosed in IH. rewrite forallb_forall in IH.
    by apply list_elem_of_In, IH, bool_decide_eq_true in Ht. }
  intros logical parts rest a n Hl Hparts Hrest Ha Hn Hinside. apply Hin in Hinside.
  apply list_elem_of_In, Hroots, andb_prop in Hl as [_ Hanc]. rewrite forallb_forall in Hanc.
  assert (n ∈ ancestors o w logical) as Hmem.
  { unfold ancestors. apply list_elem_of_omap. exists (length parts). split.
    - apply elem_of_seq. rewrite Hparts, length_app. destruct rest; [done|]. cbn. lia.
    - rewrite Ha. cbn. by rewrite Hparts, take_app_length. }
  by apply list_elem_of_In, Hanc, bool_decide_eq_true in Hmem.
Qed.

Definition home_stat (ino mode uid : Z) : Stat :=
  {| st_dev := 1; st_ino := ino; st_mode := mode; st_nlink := 1; st_uid := uid; st_gid := 0; st_size := 10 |}.
Definition home_dir (ino : Z) (l : list (string * Z)) : Node :=
  {| n_stat := home_stat ino 16877 0; n_entries := l; n_mount := 1; n_content := "" |}.
Definition home_file (ino mode uid : Z) : Node :=
  {| n_stat := home_stat ino mode uid; n_entries := []; n_mount := 1; n_content := "" |}.

Definition home : World := {|
  nodes := list_to_map [
    (0, home_dir 0 [("etc", 1); ("var", 2)]); (1, home_dir 1 [("facelock", 3)]); (2, home_dir 2 [("lib", 4); ("log", 5)]);
    (3, home_dir 3 [("config.toml", 7)]); (4, home_dir 4 [("facelock", 6)]); (5, home_dir 5 []);
    (6, home_dir 6 [("facelock.db", 8); ("enrolled", 9); ("pam-backups", 11)]); (7, home_file 7 33188 0);
    (8, home_file 8 33152 0); (9, home_dir 9 [("1000", 10)]); (10, home_file 10 33152 1000); (11, home_dir 11 [])];
  anchors := {[ "/" := 0 ]}; mountinfo := "1 0 0:1 / / rw x"; unlinked := [] |}.

Definition small : PurgeOptions := {| prefix := None; trusted_uid := 0; trusted_gid := 0; max_depth := 8; max_nodes := 20 |}.
Definition no_tables : Toml := λ _, Some [].

(** The 41st call fails, and one object is left behind. *)
Definition rough : list Event :=
  replicate 40 calm ++ [{| before_call := id; fails := Some busy; interrupt := false |}].

Lemma home_well_formed : well_formed small home.
Proof.
  assert (map_Forall (λ _ x, trusts small (n_stat x) = true →
    NoDup (map fst (n_entries x)) ∧ Forall (λ e, is_Some (nodes home !! e.2)) (n_entries x)) (nodes home)) as H.
  { apply (bool_decide_unpack _). vm_compute. exact I. }
  split.
  - intros n x Hx Ht. by apply (H n x Hx Ht).
  - intros n x e Hx Ht He. destruct (H n x Hx Ht) as [_ Hf]. by eapply Forall_forall in Hf.
  - intros a Ha. vm_compute in Ha. injection Ha as <-. vm_compute. by eexists.
  - done.
Qed.

Lemma home_apart : apart small home.
Proof. by apply (apart_by small home {[3; 6; 7; 8; 9; 10; 11]}); vm_compute. Qed.

Lemma calm_allowed o : ok_event o calm.
Proof. split; [intros w; apply others_refl|done]. Qed.

Lemma rough_ok : Forall (ok_event small) rough.
Proof.
  unfold rough. apply Forall_app. split; [apply Forall_replicate, calm_allowed|]. constructor; [|done].
  split; [intros w; apply others_refl|done].
Qed.

Lemma purge_is_contained_witness :
  length (unlinked (snd (purge_with_interrupt (H := no_tables) small 200 home rough))) = 4%nat ∧
  ∃ gone, Forall2 (accounts small home) (unlinked (snd (purge_with_interrupt (H := no_tables) small 200 home rough))) gone.
Proof.
  split; [by vm_compute|].
  pose proof (purge_is_contained (H := no_tables) small 200 home rough home_well_formed home_apart rough_ok) as H.
  destruct (purge_with_interrupt small 200 home rough) as [res w']. destruct H as [[gone [H _]] _]. by exists gone.
Defined.

Lemma complete_purge_empties_roots_witness :
  entries_of (snd (purge_with_interrupt (H := no_tables) small 200 home [])) 6 = [].
Proof.
  refine (complete_purge_empties_roots (H := no_tables) small 200 home []
    (default (report new_reporter) (fst (purge_with_interrupt (H := no_tables) small 200 home [])))
    home_well_formed home_apart _ _ _ "/var/lib/facelock" 6 _ _); [done|by vm_compute|by vm_compute| |by vm_compute].
  by apply (bool_decide_unpack _); vm_compute.
Defined.
