(* ===== verification/PurgeTermination.v ===== *)
(** * PurgeTermination: a purge ends

    Whatever other processes do, trusted directories included, and whatever calls fail: a pass of
    the engine takes no more turns than the node limit and the longest listing allow. *)

From stdpp Require Import gmap.
From S2P Require Import Prelude Text Purge PurgeEngine PurgeLogic PurgeProofs.

(** ** Listings that stay short *)
Section short.
Context (M : nat).

Definition short (w : World) : Prop := ∀ n, (length (entries_of w n) ≤ M)%nat.

(** Other processes may do anything at all that leaves no directory with more than [M] names; the
    call after it may fail in any way. *)
Definition short_event (e : Event) : Prop := ∀ w, short w → short (before_call e w).

(** From short listings a program leads to short listings, with a result that fits [Q]. *)
Definition fits {A} (c : Op A) (Q : A → Prop) : Prop :=
  ∀ s es, short (world s) → Forall short_event es →
    let '(a, s', es') := c s es in short (world s') ∧ Forall short_event es' ∧ Q a.

Lemma fits_ret {A} (a : A) (Q : A → Prop) : Q a → fits (mret a) Q.
Proof. by intros Ha s es Hs Hes. Qed.

Lemma fits_bind {A B} (c : Op A) (f : A → Op B) P Q : fits c P → (∀ a, P a → fits (f a) Q) → fits (c ≫= f) Q.
Proof.
  intros Hc Hf s es Hs Hes. unfold mbind, Op_bind. specialize (Hc s es Hs Hes). destruct (c s es) as [[a s1] es1].
  destruct Hc as (Hs1 & Hes1 & Ha). by apply Hf.
Qed.

Lemma fits_weaken {A} (c : Op A) (P Q : A → Prop) : fits c P → (∀ a, P a → Q a) → fits c Q.
Proof. intros Hc HPQ s es Hs Hes. specialize (Hc s es Hs Hes). destruct (c s es) as [[a s1] es1]. naive_solver. Qed.

Lemma fits_tell f (Q : unit → Prop) : Q tt → fits (tell f) Q.
Proof. by intros HQ s es Hs Hes. Qed.
Lemma fits_ask {A} (f : Reporter → A) : fits (ask f) (λ _, True).
Proof. by intros s es Hs Hes. Qed.

Lemma next_short w es : short w → Forall short_event es → short (before_call (default calm (head es)) w) ∧ Forall short_event (tail es).
Proof. intros Hw Hes. destruct Hes as [|e es He Hes]; [done|]. split; [by apply He|done]. Qed.

Lemma fits_syscall {A} (f : World → result A Errno * World) (Q : result A Errno → Prop) :
  (∀ w, short w → short (snd (f w)) ∧ Q (fst (f w))) → (∀ e, Q (Err e)) → fits (syscall f) Q.
Proof.
  intros Hf He s es Hs Hes. unfold syscall. destruct (next_short _ _ Hs Hes) as [Hw Hes'].
  destruct (fails _); [by split|]. specialize (Hf _ Hw). destruct (f _) as [r w']. cbn in *. naive_solver.
Qed.

Lemma fits_look {A} (f : World → result A Errno) : fits (look f) (λ _, True).
Proof. by apply fits_syscall. Qed.

Lemma fits_interrupt : fits load_interrupt (λ _, True).
Proof. intros s es Hs Hes. unfold load_interrupt. destruct (next_short _ _ Hs Hes). by split. Qed.

(** *** Calls that change a listing *)
Lemma short_links (f : Node → Node) n w : (∀ x, n_entries (f x) = n_entries x) → short w → short (with_nodes (alter f n) w).
Proof.
  intros Hf Hw m. specialize (Hw m). unfold entries_of in *. cbn. destruct (decide (m = n)) as [->|Hn]; [|by rewrite lookup_alter_ne].
  rewrite lookup_alter_eq. destruct (nodes w !! n); cbn in *; [by rewrite Hf|done].
Qed.

Lemma short_entries f n w : (∀ l, (length (f l) ≤ length l)%nat) → short w → short (change_entries f n w).
Proof.
  intros Hf Hw m. specialize (Hw m). unfold entries_of in *. cbn. destruct (decide (m = n)) as [->|Hn]; [|by rewrite lookup_alter_ne].
  rewrite lookup_alter_eq. destruct (nodes w !! n); cbn in *; [etrans; [apply Hf|exact Hw]|done].
Qed.

Lemma fits_rename parent from to : fits (rename_noreplace parent from to) (λ _, True).
Proof.
  apply fits_syscall; [|done]. intros w Hw. split; [|done]. destruct (lookup_at w parent from); [|done].
  destruct (lookup_at w parent to); [done|]. destruct (bool_decide _); [|done]. apply short_entries; [|done].
  intros l. unfold rename_entry. by rewrite length_map.
Qed.

Lemma fits_unlink parent name d : fits (unlink_at parent name d) (λ _, True).
Proof.
  apply fits_syscall; [|done]. intros w Hw. split; [|done]. destruct (lookup_at w parent name) as [n|]; [|done].
  assert (short (log_unlinked (parent, name, n) (with_nodes (alter lose_link n) (change_entries (drop_entry name) parent w)))) as Hgone.
  { intros m. apply short_links; [done|]. apply short_entries; [|done]. intros l. apply List.filter_length_le. }
  destruct (nodes w !! n), (nodes w !! parent); try done. destruct d; destruct (is_dir _); cbn; try done.
  - destruct (bool_decide _); cbn; [|done]. destruct (_ =? _); cbn; [|done]. by apply short_links.
  - by destruct (_ =? _).
Qed.

(** *** Calls that read one *)
Lemma fits_stream fd : fits (dir_stream fd) (λ r, match r with Ok l => (length l ≤ M)%nat | Err _ => True end).
Proof.
  apply fits_syscall; [|done]. intros w Hw. split; [done|]. specialize (Hw fd). unfold entries_of in Hw. cbn.
  destruct (nodes w !! fd); cbn in *; [by rewrite length_map|done].
Qed.

Lemma fits_rewind fd stream : (length stream ≤ M)%nat → fits (rewind fd stream) (λ l, (length l ≤ M)%nat).
Proof.
  intros Hl s es Hs Hes. unfold rewind. destruct (next_short _ _ Hs Hes) as [Hw Hes']. split_and!; [done..|].
  specialize (Hw fd). unfold entries_of in Hw. destruct (nodes _ !! fd); cbn in *; [by rewrite length_map|done].
Qed.

Lemma fits_next stream : fits (next_entry stream)
  (λ r, match r with Ok e => e = match stream with [] => None | name :: rest => Some (name, rest) end | Err _ => True end).
Proof. by apply fits_syscall. Qed.

(** Programs of such calls keep listings short. *)
Ltac fits_with known := repeat first
  [ known | apply fits_ret; done | apply fits_tell; done | apply fits_ask | apply fits_interrupt | apply fits_rename | apply fits_unlink
  | apply fits_look
  | match goal with
    | |- fits (match ?x with _ => _ end) _ => destruct x
    | |- fits (let '_ := ?x in _) _ => destruct x
    end
  | apply (fits_bind _ _ (λ _, True)); [|intros ? _] ].
Ltac fits := fits_with fail.

(** ** The engine's steps *)
Section steps.
Context (o : PurgeOptions) (mounts : MountTable).

Lemma fits_components logical parts : ∀ shown parent pm links,
  fits (open_components o mounts logical parts shown parent pm links) (λ _, True).
Proof. induction parts as [|name parts IH]; intros; cbn [open_components]; cbv zeta; fits_with ltac:(apply IH). Qed.

Lemma fits_open_root logical : fits (open_fixed_root o mounts logical) (λ _, True).
Proof. unfold open_fixed_root. fits_with ltac:(apply fits_components). Qed.

Lemma fits_links logical links : fits (links_are_current o mounts logical links) (λ _, True).
Proof. induction links; cbn [links_are_current]; fits_with assumption. Qed.

Lemma fits_root_current r : fits (fixed_root_is_current o mounts r) (λ _, True).
Proof. unfold fixed_root_is_current. fits_with ltac:(apply fits_links). Qed.

Lemma fits_chain links logical : fits (traversal_chain_is_current o mounts links logical) (λ _, True).
Proof. induction links; cbn [traversal_chain_is_current]; fits_with assumption. Qed.

Lemma fits_chains r links logical : fits (chains_are_current o mounts r links logical) (λ _, True).
Proof. unfold chains_are_current. fits_with ltac:(first [apply fits_root_current|apply fits_chain]). Qed.

Lemma fits_quarantine tries : ∀ attempt parent name logical before,
  fits (quarantine_from tries attempt parent name logical before) (λ _, True).
Proof. induction tries as [|tries IH]; intros; cbn [quarantine_from]; cbv zeta; fits_with ltac:(apply IH). Qed.

Lemma fits_restore parent name qname logical st flavor : fits (restore_quarantined parent name qname logical st flavor) (λ _, True).
Proof. unfold restore_quarantined. cbv zeta. fits. Qed.

Lemma fits_prove flavor parent qname shown before r st : fits (prove_quarantined o mounts flavor parent qname shown before r st) (λ _, True).
Proof. unfold prove_quarantined, opened_on_root_mount. fits. Qed.

Lemma fits_delete flavor parent name qname logical shown failed before r links :
  fits (delete_quarantined o mounts flavor parent name qname logical shown failed before r links) (λ _, True).
Proof.
  unfold delete_quarantined. cbv zeta. fits_with ltac:(first [apply fits_restore|apply fits_prove|apply fits_chains]).
Qed.

Lemma fits_regular f name logical before r : fits (purge_regular_entry o mounts f name logical before r) (λ _, True).
Proof.
  unfold purge_regular_entry, opened_on_root_mount, quarantine_entry. cbv zeta.
  fits_with ltac:(first [apply fits_quarantine|apply fits_delete|apply fits_chains]).
Qed.

Lemma fits_finish f r : fits (finish_frame o mounts f r) (λ _, True).
Proof.
  unfold finish_frame, quarantine_entry. cbv zeta.
  fits_with ltac:(first [apply fits_quarantine|apply fits_delete|apply fits_chains|apply fits_root_current]).
Qed.

(** A directory that is entered was counted, and its names are no more than [M]. *)
Definition entered (out : ChildOutcome) : Prop := match out with Descend g => (length (f_stream g) ≤ M)%nat | _ => True end.

Lemma fits_child f name logical r : fits (process_child o mounts f name logical r) entered.
Proof.
  unfold process_child, opened_on_root_mount. cbv zeta.
  fits_with ltac:(first
    [ match goal with |- fits (dir_stream _ ≫= _) _ => eapply fits_bind; [apply fits_stream|intros [stream|?] ?] end
    | match goal with |- fits (next_entry _ ≫= _) _ => eapply fits_bind; [apply fits_next|intros ? ?] end
    | match goal with |- fits (rewind _ _ ≫= _) _ => eapply fits_bind; [apply fits_rewind|intros ? ?] end
    | apply fits_ret; assumption | apply fits_regular ]).
  - by destruct a0.
  - assumption.
Qed.

Lemma fits_visit f name seen r : fits (visit o mounts f name seen r)
  (λ '(out, seen'), seen ≤ seen' ∧ entered out ∧ match out with Descend _ => seen' = seen + 1 ∧ seen' ≤ max_nodes o | _ => True end).
Proof.
  unfold visit. eapply fits_bind; [apply fits_ask|]. intros [] _; [apply fits_ret; by split|]. cbv zeta.
  destruct (Z.ltb_spec (max_nodes o) (seen + 1)).
  - eapply (fits_bind _ _ (λ _, True)); [fits|]. intros ? _. apply fits_ret. by split; [lia|].
  - eapply fits_bind; [apply fits_child|]. intros out Hout. apply fits_ret. destruct out; split_and!; try done; lia.
Qed.

(** Each turn reads a name or leaves a directory. *)
Lemma fits_traverse r fuel : ∀ seen stack, (work o M seen stack < fuel)%nat →
  fits (traverse o mounts fuel r seen stack) (λ res, res = Some tt).
Proof.
  induction fuel as [|fuel IH]; intros seen [|f stack] Hf; try lia; cbn [traverse]; [by apply fits_ret|].
  pose proof (work_pop o M seen f stack) as Hw.
  eapply fits_bind; [apply fits_interrupt|]. intros [] _; [fits|].
  eapply fits_bind; [apply fits_next|]. intros [e|e] He; [|fits]. subst e.
  destruct (f_stream f) as [|name stream]; cbn [length] in Hw.
  - eapply fits_bind; [apply fits_finish|]. intros [] _; apply IH; rewrite ?work_refused; lia.
  - set (top := set_stream stream f). pose proof (λ n, work_pop o M n top stack) as Htop. cbn [f_stream top set_stream] in Htop.
    eapply fits_bind; [apply fits_visit|]. intros [out seen'] (Hseen & Hout & Hcount). pose proof (work_seen o M _ _ stack Hseen).
    destruct out as [| |g|]; [| | |by apply fits_ret].
    + apply IH. rewrite Htop. lia.
    + apply IH. change (refuse_child top :: stack) with (refuse_top (top :: stack)). rewrite work_refused, Htop. lia.
    + destruct Hcount as [-> Hmax]. apply IH. pose proof (work_descend o M seen g (top :: stack) Hmax Hout). rewrite Htop in *. lia.
Qed.

Lemma fits_root r fuel : (budget o M ≤ fuel)%nat → fits (purge_root o mounts fuel r) (λ res, res = Some tt).
Proof.
  intros Hf. unfold purge_root. eapply fits_bind; [apply fits_root_current|]. intros [] _; cbn [negb]; [|fits].
  eapply fits_bind; [apply fits_stream|]. intros [stream|e] Hs; [|fits]. apply fits_traverse. rewrite work_pop.
  unfold work, budget in *. cbn. rewrite Z.sub_0_r. cbn in *. lia.
Qed.

Lemma fits_roots fuel roots : (budget o M ≤ fuel)%nat → fits (purge_roots o mounts fuel roots) (λ res, res = Some tt).
Proof.
  intros Hf. induction roots as [|logical roots IH]; cbn [purge_roots]; [by apply fits_ret|].
  fits_with ltac:(first [exact IH | apply fits_open_root
    | match goal with |- fits (purge_root _ _ _ _ ≫= _) _ => eapply fits_bind; [by apply fits_root|intros ? ->] end ]).
Qed.

Lemma fits_tell_all fs : fits (tell_all fs) (λ _, True).
Proof. induction fs; cbn [tell_all]; fits_with assumption. Qed.

Lemma fits_configuration `{Toml} : fits (inspect_external_configuration o mounts) (λ _, True).
Proof.
  unfold inspect_external_configuration, opened_on_root_mount. cbv zeta.
  fits_with ltac:(first [apply fits_open_root | apply fits_tell_all]).
Qed.
End steps.

Lemma fits_run `{Toml} o fuel : (budget o M ≤ fuel)%nat → fits (run o Purge_ fuel) (λ res, res = Some tt).
Proof.
  intros Hf. unfold run, load_mount_table. eapply fits_bind; [apply fits_interrupt|]. intros [] _.
  - eapply fits_bind; [apply fits_tell_all|]. intros ? _. by apply fits_ret.
  - eapply fits_bind; [apply fits_look|]. intros [mounts|e] _; cbv zeta.
    + eapply fits_bind; [apply fits_configuration|]. intros ? _. by apply fits_roots.
    + eapply fits_bind; [apply fits_tell_all|]. intros ? _. by apply fits_ret.
Qed.
End short.

(** C12.  A purge ends with a report whatever other processes do before each call, in trusted directories as anywhere, and
    whatever calls fail, as long as no directory ever lists more than a given number of names: that number and the node limit
    bound the turns of the traversal. *)
Theorem purge_terminates `{Toml} o fuel w es (longest : nat) : short longest w → Forall (short_event longest) es →
  (S (S (Z.to_nat (max_nodes o)) * S longest) ≤ fuel)%nat →
  is_Some (fst (purge_with_interrupt o fuel w es)).
Proof.
  intros Hw Hes Hf. pose proof (fits_run longest o fuel Hf (start w) es Hw Hes) as Hrun. unfold purge_with_interrupt.
  destruct (run o Purge_ fuel (start w) es) as [[res s] es']. destruct Hrun as (_ & _ & ->). by eexists.
Qed.

(** ** A purge beside a process that empties and refills its directories *)
Module Disturbed.
(** A name comes into every directory that lists none, and every other directory is emptied. *)
Definition churn (w : World) : World :=
  with_nodes (fmap (λ x, set_entries (match n_entries x with [] => [("new", 8)]%string | _ => [] end) x)) w.

Definition events : list Event :=
  concat (replicate 20 [{| before_call := churn; fails := None; interrupt := false |};
                        {| before_call := id; fails := Some no_entry; interrupt := false |};
                        {| before_call := churn; fails := Some file_exists; interrupt := false |}; calm]).

Lemma churn_short w : short 3 (churn w).
Proof. intros n. unfold entries_of, churn. cbn. rewrite lookup_fmap. destruct (nodes w !! n) as [x|]; cbn; [destruct (n_entries x)|]; cbn; lia. Qed.

Lemma events_short : Forall (short_event 3) events.
Proof.
  apply Forall_concat, Forall_replicate.
  assert (∀ f i, short_event 3 {| before_call := churn; fails := f; interrupt := i |}) as Hc by (intros f i w _; apply churn_short).
  assert (∀ f i, short_event 3 {| before_call := id; fails := f; interrupt := i |}) as Hi by by intros f i w Hw.
  rewrite !Forall_cons. by split_and!; [apply Hc|apply Hi|apply Hc|apply Hi|].
Qed.

Lemma home_short : short 3 home.
Proof.
  intros n. unfold entries_of. destruct (nodes home !! n) as [x|] eqn:Hx; cbn; [|lia].
  assert (map_Forall (λ _ x, (length (n_entries x) ≤ 3)%nat) (nodes home)) as H by (apply (bool_decide_unpack _); by vm_compute).
  by apply (H n x).
Qed.
End Disturbed.

Lemma purge_terminates_witness : is_Some (fst (purge_with_interrupt (H := no_tables) small 100 home Disturbed.events)).
Proof.
  refine (purge_terminates (H := no_tables) small 100 home Disturbed.events 3 Disturbed.home_short Disturbed.events_short _).
  by vm_compute; lia.
Defined.
