(* ===== verification/KeyCommands.v ===== *)
(** * The commands that manage the encryption key

    [facelock tpm] ([facelock-cli/src/commands/tpm.rs]) with the encryption and decryption of
    stored templates in place ([encrypt.rs]), the key files it seals, unseals and re-seals
    ([sealing.rs]), the PCR values it shows ([facelock-tpm/src/pcr.rs]) and the line of the
    configuration it rewrites ([setup.rs]). An error is the chain of its contexts, the outermost
    first; what the commands print is left out, but for what [tpm status] reports. *)

From stdpp Require Import gmap sorting.
From S2P Require Import Prelude Text Float32 Types DeviceBinding Config Store StoreProofs Sealing KeyFile Keyring.

(** [anyhow::Error] *)
Abbreviation Failure := (list string).
Definition context {A} (m : string) (r : result A Failure) : result A Failure := map_err (cons m) r.
Definition tpm_failure (e : FacelockError) : Failure := [facelock_error_to_string e].

(** ** PCR values ([pcr.rs]) *)
Record PcrBaseline := { values : list (Z * list Z) }.

(** A TPM's registers: parsing its name and connecting, each with its context, and reading the
    SHA-256 bank, where a selection is a set of registers and the answer is their digests. *)
Class PcrBank := {
  pcr_connect : string → result unit Failure;
  pcr_read : gset Z → result (list (list Z)) string }.

Definition pcr_index_to_slot (index : Z) : result Z FacelockError :=
  if (0 <=? index) && (index <=? 23) then Ok index
  else Err (Tpm ("invalid PCR index: " +:+ show_Z index +:+ " (must be 0-23)")).

Fixpoint pcr_slots (indices : list Z) : result (list Z) FacelockError :=
  match indices with
  | [] => Ok []
  | i :: indices => let? slot := pcr_index_to_slot i in let? slots := pcr_slots indices in Ok (slot :: slots)
  end.

Definition read_current `{PcrBank} (indices : list Z) : result (list (Z * list Z)) FacelockError :=
  match indices with
  | [] => Ok []
  | _ =>
      let? slots := pcr_slots indices in
      let? digests := map_err (λ e, Tpm ("PCR read failed: " +:+ e)) (pcr_read (list_to_set slots)) in
      if negb (length digests =? length indices)%nat
      then Err (Tpm ("PCR read returned " +:+ show_nat (length digests) +:+ " digests but expected " +:+
                     show_nat (length indices)))
      else Ok (zip indices digests)
  end.

Definition capture_baseline `{PcrBank} (indices : list Z) : result PcrBaseline FacelockError :=
  let? values := read_current indices in Ok {| values := values |}.

Definition verify_against_baseline `{PcrBank} (baseline : PcrBaseline) : result bool FacelockError :=
  match values baseline with
  | [] => Ok true
  | vs =>
      let? current := read_current (map fst vs) in
      Ok (forallb (λ '(v, c), bool_decide (snd v = snd c)) (zip vs current))
  end.

(** Without the [tpm] feature nothing is read. *)
Definition read_current_stub : result (list (Z * list Z)) FacelockError :=
  Err (Tpm "TPM PCR reading not available (compile with 'tpm' feature)").

Definition verify_against_baseline_stub (pcr_indices : list Z) (baseline : PcrBaseline) : result bool FacelockError :=
  if negb (length (values baseline) =? length pcr_indices)%nat
  then Err (Tpm ("baseline has " +:+ show_nat (length (values baseline)) +:+ " entries but " +:+
                 show_nat (length pcr_indices) +:+ " PCR indices configured"))
  else Err (Tpm "TPM PCR verification not available (compile with 'tpm' feature)").

(** ** Which key each encrypted model depends on *)
Inductive KeyState := KeyPrimary | KeySecondary | KeyNotLoadable | KeyLegacy.

#[export] Instance KeyState_eq_dec : EqDecision KeyState.
Proof. solve_decision. Defined.

Definition key_state_label (s : KeyState) : string :=
  match s with
  | KeyPrimary => "primary"
  | KeySecondary => "secondary"
  | KeyNotLoadable => "not loadable"
  | KeyLegacy => "no key id"
  end.

Record KeyGroup := { g_key_id : option string; g_state : KeyState; g_models : Z }.

Definition count_for (by_key : list (option string * Z)) (id : string) : Z :=
  default 0 (snd <$> List.find (λ x, bool_decide (fst x = Some id)) by_key).

Definition loaded_key (prim : option string) (secondary : list string) (id : string) : bool :=
  bool_decide (prim = Some id) || existsb (String.eqb id) secondary.

Definition group_by_key (by_key : list (option string * Z)) (prim : option string) (secondary : list string) : list KeyGroup :=
  match prim with
  | Some id => [{| g_key_id := Some id; g_state := KeyPrimary; g_models := count_for by_key id |}]
  | None => []
  end ++
  map (λ id, {| g_key_id := Some id; g_state := KeySecondary; g_models := count_for by_key id |})
    (List.filter (λ id, negb (bool_decide (prim = Some id))) secondary) ++
  omap (λ '(key, models),
    match key with
    | Some id => if loaded_key prim secondary id then None
                 else Some {| g_key_id := Some id; g_state := KeyNotLoadable; g_models := models |}
    | None => None
    end) by_key ++
  match List.find (λ x, bool_decide (fst x = None)) by_key with
  | Some (_, models) => if 0 <? models then [{| g_key_id := None; g_state := KeyLegacy; g_models := models |}] else []
  | None => []
  end.

(** A sum of [u32] counts. *)
Definition unloadable_models (groups : list KeyGroup) : Z :=
  as_u32 (foldr Z.add 0 (map g_models (List.filter (λ g, bool_decide (g_state g = KeyNotLoadable)) groups))).

(** ** The host a command runs on *)
Record Host := { store : FaceStore; dir : Dir; config_text : option string }.

Definition set_store (s : FaceStore) (h : Host) : Host := {| store := s; dir := dir h; config_text := config_text h |}.
Definition set_dir (d : Dir) (h : Host) : Host := {| store := store h; dir := d; config_text := config_text h |}.
Definition set_config_text (t : string) (h : Host) : Host := {| store := store h; dir := dir h; config_text := Some t |}.

(** What the outside decides in a run: opening the store, the files a key is read from and
    written to, the numbers the random generator gives. A fault of a write strikes after [n]
    bytes of a file that was truncated first. *)
Record CommandEnv := {
  key_env : KeyEnv;
  store_opens : option StoreError;
  nonces : nat → list Z;
  key_open_fault : option string;
  key_write_fault : option (nat * string);
  sealed_open_fault : option string;
  sealed_write_fault : option (nat * string);
  config_read_fault : option string;
  config_open_fault : option string;
  config_write_fault : option (nat * string);
}.

Definition Command (A : Type) : Type := Host → result A Failure * Host.
Definition done {A} (a : A) : Command A := λ h, (Ok a, h).
Definition bail {A} (m : string) : Command A := λ h, (Err [m], h).
Definition fail {A} (e : Failure) : Command A := λ h, (Err e, h).
Definition and_then {A B} (c : Command A) (k : A → Command B) : Command B := λ h,
  match c h with (Ok a, h) => k a h | (Err e, h) => (Err e, h) end.
Notation "'try!' x ':=' c 'in' k" := (and_then c (λ x, k))
  (at level 10, x name, c at level 200, k at level 200,
   format "'[v' 'try!'  x  ':='  c  'in' '/' k ']'") : rust_scope.

(** A step that reads the host, and one on the store. *)
Definition ask {A} (f : Host → result A Failure) : Command A := λ h, (f h, h).
Definition on_store {A} (f : StoreError → Failure) (m : M StoreError A) : Command A := λ h,
  let '(r, s) := m (store h) in (map_err f r, set_store s h).
Definition store_context (m : string) (e : StoreError) : Failure := [m; store_error_to_string e].

(** A row as [get_all_embeddings_raw] gives it. *)
Abbreviation RawRow := (Z * string * list Z * bool * Z)%type.

Section Commands.
Context `{ShowSqlite} `{RowOrder} `{Sha256} `{Aead} `{TpmDevice}.
Context (env : CommandEnv) (c : Config).

Definition key_file : string := key_path (encryption c).
Definition sealed_file : string := sealed_key_path (encryption c).
Definition exists_at (path : string) (h : Host) : bool := path_exists (key_env env) (dir h) path.
Definition read_at (path : string) (h : Host) : result (list Z) string := read_following (key_env env) (dir h) path.

(** [tpm.pcr_binding]'s selection. *)
Definition pcr_selection : option (list Z) := if pcr_binding (tpm c) then Some (pcr_indices (tpm c)) else None.

(** *** Key files ([sealing.rs]) *)

(** [create_truncate_file] follows a link: then what it leads to is written, not the name. *)
Definition seal_key_to_file (key : list Z) (path : string) (pcr : option (list Z)) (d : Dir) : result unit FacelockError * Dir :=
  match tpm_seal_bytes key pcr with
  | Err e => (Err e, d)
  | Ok sealed =>
      match sealed_open_fault env with
      | Some e => (Err (Tpm ("failed to create sealed key file " +:+ path +:+ ": " +:+ e)), d)
      | None =>
          let write content := if is_symlink d path then d else <[path := File content]> d in
          match sealed_write_fault env with
          | Some (n, e) => (Err (Tpm ("failed to write sealed key to " +:+ path +:+ ": " +:+ e)), write (take n sealed))
          | None => (Ok tt, write sealed)
          end
      end
  end.

Definition generate_and_seal_key (path : string) (pcr : option (list Z)) (d : Dir) : result unit FacelockError * Dir :=
  seal_key_to_file (random_key (key_env env)) path pcr d.

Definition on_dir {A} (f : FacelockError → Failure) (step : Dir → result A FacelockError * Dir) : Command A := λ h,
  let '(r, d) := step (dir h) in (map_err f r, set_dir d h).

Definition tpm_context (m : string) (e : FacelockError) : Failure := [m; facelock_error_to_string e].
Definition connect (m : string) : Command unit := ask (λ _, map_err (tpm_context m) (tpm_sealer_new (tcti (tpm c)))).

(** *** The [method] line of the configuration ([setup.rs]) *)
Record EditState := { e_out : string; e_inside : bool; e_written : bool }.

Definition method_line (method : string) : string := "method = " +:+ dq +:+ method +:+ dq +:+ String newline "".

Definition edit_line (method : string) (st : EditState) (line : string) : EditState :=
  let keep s := s +:+ line +:+ String newline "" in
  if String.eqb (trim line) "[encryption]"
  then {| e_out := keep (e_out st); e_inside := true; e_written := e_written st |}
  else if e_inside st && starts_with "method" (trim_start line)
  then {| e_out := e_out st +:+ method_line method; e_inside := e_inside st; e_written := true |}
  else if e_inside st && starts_with "[" line
  then {| e_out := keep (if e_written st then e_out st else e_out st +:+ method_line method); e_inside := false;
          e_written := e_written st |}
  else {| e_out := keep (e_out st); e_inside := e_inside st; e_written := e_written st |}.

Definition edit_method (method content : string) : string :=
  if str_contains "[encryption]" content then
    let st := fold_left (edit_line method) (str_lines content) {| e_out := ""; e_inside := false; e_written := false |} in
    if e_inside st && negb (e_written st) then e_out st +:+ method_line method else e_out st
  else
    (if ends_with (String newline "") content then content else content +:+ String newline "") +:+
    String newline "" +:+ "[encryption]" +:+ String newline "" +:+ method_line method +:+
    "key_path = " +:+ dq +:+ key_file +:+ dq +:+ String newline "".

Definition update_config_encryption (method : string) : Command unit := λ h,
  match config_text h with
  | None => (Ok tt, h)
  | Some content =>
      match config_read_fault env with
      | Some e => (Err ["failed to read the configuration"; e], h)
      | None =>
          let new := edit_method method content in
          match config_open_fault env, config_write_fault env with
          | Some e, _ => (Err [e], h)
          | None, Some (n, e) => (Err [e], set_config_text (substring 0 n new) h)
          | None, None => (Ok tt, set_config_text new h)
          end
      end
  end.

(** *** Moving a key between its files ([tpm.rs]) *)
Definition key_of_bytes (data : list Z) (wrong : string) : result (list Z) Failure :=
  if negb (length data =? 32)%nat then Err [wrong] else Ok data.

Definition seal_existing_keyfile : Command unit :=
  try! data := ask (λ h, context ("failed to read key file " +:+ key_file) (map_err (λ e, [e]) (read_at key_file h))) in
  try! key := ask (λ _, key_of_bytes data
    ("key file " +:+ key_file +:+ " must be exactly 32 bytes, got " +:+ show_nat (length data) +:+
     ": it is not an AES-256 key facelock can seal. Restore the real key, or remove it and re-run to have a new key generated (any embeddings the original sealed become unreadable, so clear them with `facelock clear` if you take that route).")) in
  try! _ := connect "failed to initialize TPM" in
  on_dir (tpm_context "failed to seal key with TPM") (seal_key_to_file key sealed_file pcr_selection).

Definition NO_TPM : string := "TPM support not compiled in (missing 'tpm' feature).".
Definition NO_TPM_REBUILD : string := NO_TPM +:+ String newline "Rebuild with: cargo build --features tpm".

Definition seal_key : Command unit := λ h,
  if negb compiled then (Err [NO_TPM_REBUILD], h)
  else if negb (exists_at key_file h)
  then (Err ["No plaintext key file found at " +:+ key_file +:+ "." +:+ String newline "Generate one first with: sudo facelock tpm encrypt --generate-key"], h)
  else if exists_at sealed_file h
  then (Err ["Sealed key already exists at " +:+ sealed_file +:+ "." +:+ String newline "Remove it first if you want to re-seal."], h)
  else (try! _ := seal_existing_keyfile in update_config_encryption "tpm") h.

Definition unseal_into_keyfile : Command unit :=
  try! _ := connect "failed to initialize TPM" in
  try! key := ask (λ h, map_err (tpm_context "failed to unseal key from TPM")
                          (unseal_key_from_file (read_at sealed_file h) sealed_file)) in
  on_dir (tpm_context "failed to write unsealed key")
    (λ d, write_key_file (key_open_fault env) (key_write_fault env) d key_file key).

Definition unseal_key : Command unit := λ h,
  if negb compiled then (Err [NO_TPM_REBUILD], h)
  else if negb (exists_at sealed_file h) then (Err ["No sealed key found at " +:+ sealed_file +:+ "."], h)
  else if exists_at key_file h
  then (Err ["Plaintext key already exists at " +:+ key_file +:+ "." +:+ String newline "Remove it first if you want to overwrite."], h)
  else (try! _ := unseal_into_keyfile in update_config_encryption "keyfile") h.

Definition debug_method : string :=
  match method (encryption c) with EncNone => "None" | EncKeyfile => "Keyfile" | EncTpm => "Tpm" end.

Definition unseal_check : Command unit := λ h,
  if negb (bool_decide (method (encryption c) = EncTpm))
  then (Err ["encryption.method is not " +:+ dq +:+ "tpm" +:+ dq +:+ " (current: " +:+ debug_method +:+ "); nothing to unseal."], h)
  else if negb compiled then (Err [NO_TPM], h)
  else if negb (exists_at sealed_file h) then (Err ["no sealed key found at " +:+ sealed_file +:+ "."], h)
  else
    (try! _ := connect "failed to initialize TPM" in
     ask (λ h, match unseal_key_from_file (read_at sealed_file h) sealed_file with
               | Ok _ => Ok tt
               | Err e => Err ["sealed key does NOT unseal (" +:+ sealed_file +:+ "): " +:+ facelock_error_to_string e +:+
                   String newline "If a bound PCR changed (firmware/kernel update), run: sudo facelock tpm reseal"]
               end)) h.

(** The key a re-sealing carries over: the sealed one, or the backup when it does not unseal. *)
Definition recover_key (h : Host) : result (list Z) Failure :=
  match unseal_key_from_file (read_at sealed_file h) sealed_file with
  | Ok k => Ok k
  | Err _ =>
      if exists_at key_file h then
        let? data := context ("failed to read key backup " +:+ key_file) (map_err (λ e, [e]) (read_at key_file h)) in
        key_of_bytes data ("key backup at " +:+ key_file +:+ " is " +:+ show_nat (length data) +:+ " bytes, expected 32")
      else
        Err ["cannot recover the AES key: the sealed blob no longer unseals under the current PCRs and there is no plaintext backup at " +:+ key_file +:+ "." +:+
             String newline "Password login still works. Restore a key backup to " +:+ key_file +:+
             ", then re-run `sudo facelock tpm reseal`, or clear and re-enroll: sudo facelock clear --yes"]
  end.

Definition run_reseal : Command unit := λ h,
  if negb (bool_decide (method (encryption c) = EncTpm))
  then (Err ["`facelock tpm reseal` only applies when encryption.method = " +:+ dq +:+ "tpm" +:+ dq +:+ " (current: " +:+
             debug_method +:+ "). Nothing to reseal."], h)
  else if negb compiled then (Err [NO_TPM_REBUILD], h)
  else if negb (exists_at sealed_file h) then (Err ["no sealed key found at " +:+ sealed_file +:+ " to re-seal."], h)
  else
    (try! _ := connect "failed to initialize TPM" in
     try! key := ask recover_key in
     on_dir (tpm_context "failed to re-seal key under current PCRs") (seal_key_to_file key sealed_file pcr_selection)) h.

(** *** [tpm status] *)
Record TpmStatus := {
  device_found : bool; st_pcr_binding : bool; sealed_key_present : bool; st_method : EncryptionMethod;
  encrypted_rows : Z; plaintext_rows : Z; primary_problem : option string; groups : list KeyGroup; unloadable : Z }.

Definition device_path : string := default (tcti (tpm c)) (strip_prefix "device:" (tcti (tpm c))).

Definition status : Command TpmStatus :=
  try! device_exists := ask (λ h, Ok (exists_at device_path h)) in
  try! _ := ask (λ _, match store_opens env with
                      | Some e => Err (store_context "failed to open face database" e)
                      | None => Ok tt
                      end) in
  try! counts := on_store (store_context "failed to count sealed embeddings") count_sealed in
  try! sealed_exists := ask (λ h, Ok (exists_at sealed_file h)) in
  try! by_key := on_store (store_context "failed to count encrypted models by key id") count_sealed_models_by_key_id in
  λ h,
    let keys := load_existing (key_env env) c (dir h) in
    let groups := group_by_key by_key (primary_key_id keys) (secondary_key_ids keys) in
    (Ok {| device_found := device_exists; st_pcr_binding := pcr_binding (tpm c); sealed_key_present := sealed_exists;
           st_method := method (encryption c); encrypted_rows := fst counts; plaintext_rows := snd counts;
           primary_problem := primary_error keys; groups := groups; unloadable := unloadable_models groups |}, h).

(** *** Encrypting and decrypting in place ([encrypt.rs]) *)
Definition obtain_sealer (h : Host) : result SoftwareSealer Failure :=
  match method (encryption c) with
  | EncKeyfile =>
      map_err (tpm_context "failed to load encryption key") (from_key_file (read_fault (key_env env)) (dir h) key_file)
  | EncTpm =>
      if compiled then
        let? _ := map_err (tpm_context "failed to initialize TPM") (tpm_sealer_new (tcti (tpm c))) in
        let? key := map_err (tpm_context ("failed to unseal key from " +:+ sealed_file))
                      (unseal_key_from_file (read_at sealed_file h) sealed_file) in
        Ok (from_key key)
      else Err ["encryption method is 'tpm' but TPM support is not compiled in (rebuild with --features tpm)"]
  | EncNone => Err ["no encryption method configured. Set [encryption] method in config."]
  end.

Definition write_key_artifact : Command unit :=
  match method (encryption c) with
  | EncTpm =>
      if compiled then
        try! _ := connect "failed to initialize TPM" in
        on_dir (tpm_context "failed to generate and seal key") (generate_and_seal_key sealed_file pcr_selection)
      else bail "encryption method is 'tpm' but TPM support is not compiled in"
  | EncKeyfile | EncNone =>
      on_dir (tpm_context "failed to generate encryption key")
        (λ d, generate_key_file (key_open_fault env) (key_write_fault env) d key_file (random_key (key_env env)))
  end.

(** The refusal and the write are one exclusive section; what was written to the directory stays
    when the section fails to close. *)
Definition generate_key_serialized : Command unit := λ h,
  match store_opens env with
  | Some (Absent _) => write_key_artifact h
  | Some e =>
      (Err ["refusing to write an encryption key: the face database at " +:+ db_path (storage c) +:+ " could not be read (" +:+
            store_error_to_string e +:+ "), so facelock cannot tell whether existing templates would be orphaned. Fix access to it and retry, or clear the enrollments with `facelock clear`."], h)
  | None =>
      match begin_tx (store h) with
      | (Err e, s1) => (Err [store_error_to_string e], set_store s1 h)
      | (Ok _, s1) =>
          match key_creation_refusal c s1 with
          | (Some refusal, s2) => (Err [refusal], set_store (rollback s2) h)
          | (None, s2) =>
              match write_key_artifact (set_store s2 h) with
              | (Err e, h3) => (Err e, set_store (rollback (store h3)) h3)
              | (Ok _, h3) =>
                  match commit (store h3) with
                  | (Ok _, s4) => (Ok tt, set_store s4 h3)
                  | (Err e, s4) => (Err [store_error_to_string e], set_store s4 h3)
                  end
              end
          end
      end
  end.

Definition key_was_generated (d : KeyfileDecision) : bool := match d with Created => true | _ => false end.

Definition is_unencrypted (row : RawRow) : bool :=
  let '(_, _, blob, sealed, _) := row in negb sealed && negb (is_software_encrypted blob).

Fixpoint encrypt_rows (sealer : SoftwareSealer) (n : nat) (sealed_models : gset Z) (rows : list RawRow) : Command nat :=
  match rows with
  | [] => done n
  | (id, _, blob, _, model_id) :: rows =>
      try! encrypted := ask (λ _, map_err (tpm_context ("failed to encrypt embedding " +:+ show_Z id))
                                   (seal_bytes_with_aad sealer (nonces env n) blob None)) in
      try! _ := (if bool_decide (model_id ∈ sealed_models) then done tt
                 else on_store (store_context ("failed to record the sealing key for model " +:+ show_Z model_id))
                        (set_model_key_id model_id (Some (sealer_key_id sealer)))) in
      try! _ := on_store (store_context ("failed to update embedding " +:+ show_Z id)) (update_embedding_sealed id encrypted true) in
      encrypt_rows sealer (S n) ({[ model_id ]} ∪ sealed_models) rows
  end.

Definition opened : Command unit := ask (λ _,
  match store_opens env with Some e => Err (store_context "failed to open face database" e) | None => Ok tt end).

(** The key file is created through the gate that is shared with the daemon. *)
Definition ensure_key : Command unit := λ h,
  if bool_decide (method (encryption c) = EncKeyfile) then
    let '(decision, s, d) := ensure_encrypt_by_default_key (key_env env) c (store h) (dir h) in
    let h := set_dir d (set_store s h) in
    match refusal decision with Some m => (Err [m], h) | None => (Ok tt, h) end
  else (Ok tt, h).

Definition run_encrypt (generate_key : bool) : Command unit :=
  if generate_key then generate_key_serialized
  else if hard_binding_active c
  then bail "refusing to encrypt in place: security.bind_device_aad = true seals each template under its enrolling camera's device id, which this command cannot supply. Re-enroll to bind these templates, or set security.bind_device_aad = false before running `facelock tpm encrypt`."
  else
    try! _ := opened in
    try! _ := ensure_key in
    try! sealer := ask (λ h, context "failed to obtain encryption sealer" (obtain_sealer h)) in
    try! rows := on_store (store_context "failed to read embeddings") get_all_embeddings_raw in
    match List.filter is_unencrypted rows with
    | [] => done tt
    | unencrypted => try! _ := encrypt_rows sealer 0 ∅ unencrypted in done tt
    end.

(** One kind of encrypted row after the other; the models of the rows that were opened. *)
Fixpoint decrypt_rows (unseal : list Z → result (list Z) FacelockError) (what : string) (unsealed : gset Z) (rows : list RawRow) :
    Command (gset Z) :=
  match rows with
  | [] => done unsealed
  | (id, _, blob, _, model_id) :: rows =>
      try! raw := ask (λ _, map_err (tpm_context (what +:+ show_Z id)) (unseal blob)) in
      try! _ := on_store (store_context ("failed to update embedding " +:+ show_Z id)) (update_embedding_sealed id raw false) in
      decrypt_rows unseal what ({[ model_id ]} ∪ unsealed) rows
  end.

Fixpoint clear_key_ids (models : list Z) : Command unit :=
  match models with
  | [] => done tt
  | m :: models =>
      try! _ := on_store (store_context ("failed to clear the sealing key for model " +:+ show_Z m)) (set_model_key_id m None) in
      clear_key_ids models
  end.

Definition row_blob (row : RawRow) : list Z := let '(_, _, blob, _, _) := row in blob.

Definition run_decrypt : Command unit :=
  try! _ := opened in
  try! rows := on_store (store_context "failed to read embeddings") get_all_embeddings_raw in
  let sw_encrypted := List.filter (λ r, is_software_encrypted (row_blob r)) rows in
  let tpm_sealed := List.filter (λ r, is_sealed (row_blob r)) rows in
  match sw_encrypted, tpm_sealed with
  | [], [] => done tt
  | _, _ =>
      try! unsealed :=
        match sw_encrypted with
        | [] => done ∅
        | _ =>
            try! sealer := ask (λ h, context "failed to obtain encryption sealer" (obtain_sealer h)) in
            decrypt_rows (λ blob, unseal_bytes_with_aad sealer blob None) "failed to decrypt software-encrypted embedding " ∅ sw_encrypted
        end in
      try! unsealed :=
        match tpm_sealed with
        | [] => done unsealed
        | _ =>
            if compiled then
              try! _ := connect "failed to initialize TPM for unsealing" in
              decrypt_rows tpm_unseal_bytes "failed to unseal TPM embedding " unsealed tpm_sealed
            else
              bail ("found " +:+ show_nat (length tpm_sealed) +:+
                    " TPM-sealed embedding(s) but TPM support is not compiled in (rebuild with --features tpm)")
        end in
      clear_key_ids (merge_sort Z.le (elements unsealed))
  end.

(** *** The [tpm] group *)
Inductive TpmCommand :=
  | TpmStatusCmd | SealKey | UnsealKey | UnsealCheck | PcrBaselineCmd | Encrypt (generate_key : bool) | Decrypt | Reseal.

Definition sudo_hint (command : TpmCommand) : string :=
  match command with
  | TpmStatusCmd => "sudo facelock tpm status"
  | SealKey => "sudo facelock tpm seal-key"
  | UnsealKey => "sudo facelock tpm unseal-key"
  | UnsealCheck => "sudo facelock tpm unseal-check"
  | PcrBaselineCmd => "sudo facelock tpm pcr-baseline"
  | Encrypt _ => "sudo facelock tpm encrypt"
  | Decrypt => "sudo facelock tpm decrypt"
  | Reseal => "sudo facelock tpm reseal"
  end.

(** The values it shows. *)
Definition pcr_baseline `{PcrBank} : Command (list (Z * list Z)) :=
  if compiled then
    try! _ := ask (λ _, pcr_connect (tcti (tpm c))) in
    ask (λ _, map_err (tpm_context "failed to read PCR values") (read_current (pcr_indices (tpm c))))
  else done [].

Definition run_tpm `{PcrBank} (command : TpmCommand) : Command unit :=
  match command with
  | TpmStatusCmd => try! _ := status in done tt
  | SealKey => seal_key
  | UnsealKey => unseal_key
  | UnsealCheck => unseal_check
  | PcrBaselineCmd => try! _ := pcr_baseline in done tt
  | Encrypt generate_key => run_encrypt generate_key
  | Decrypt => run_decrypt
  | Reseal => run_reseal
  end.
End Commands.
