(* ===== verification/KeyCommandsProofs.v ===== *)
(** * KeyCommandsProofs: no command loses a template or the key that opens it *)

From stdpp Require Import gmap sorting.
From S2P Require Import Prelude Text Float32 Types DeviceBinding Config Store StoreProofs Sealing KeyFile Keyring KeyCommands.

(** ** Rules for commands: what holds after a success and after a failure *)
Definition holds {A} (P : Host → Prop) (m : Command A) (Q : A → Host → Prop) (E : Host → Prop) : Prop :=
  ∀ h, P h → match m h with (Ok a, h') => Q a h' | (Err _, h') => E h' end.

Lemma holds_done {A} (a : A) (P : Host → Prop) (Q : A → Host → Prop) E : (∀ h, P h → Q a h) → holds P (done a) Q E.
Proof. by intros H h Hh; apply H. Qed.

Lemma holds_then {A B} (m : Command A) (k : A → Command B) P R Q E :
  holds P m R E → (∀ a, holds (R a) (k a) Q E) → holds P (and_then m k) Q E.
Proof.
  intros Hm Hk h Hh. specialize (Hm h Hh). unfold and_then. destruct (m h) as [[a|e] h']; [by apply Hk|done].
Qed.

Lemma holds_ask {A} (f : Host → result A Failure) (P : Host → Prop) (Q : A → Host → Prop) (E : Host → Prop) :
  (∀ h a, P h → f h = Ok a → Q a h) → (∀ h, P h → E h) → holds P (ask f) Q E.
Proof. intros HQ HE h Hh. unfold ask. destruct (f h) as [a|e] eqn:Hf; eauto. Qed.

Lemma holds_conseq {A} (m : Command A) (P P' : Host → Prop) (Q Q' : A → Host → Prop) (E E' : Host → Prop) :
  holds P' m Q' E' → (∀ h, P h → P' h) → (∀ a h, Q' a h → Q a h) → (∀ h, E' h → E h) → holds P m Q E.
Proof.
  intros Hm HP HQ HE h Hh. specialize (Hm h (HP h Hh)). destruct (m h) as [[a|e] h']; auto.
Qed.

Definition rows_of (h : Host) : Db := db (store h).

(** A statement on the store changes the database as told when it succeeds, and nothing else. *)
Lemma on_store_holds {A} (f : StoreError → Failure) (m : M StoreError A) (next : Db → Db) (P : Host → Prop) (Q : A → Host → Prop) (E : Host → Prop) :
  (∀ s a s', m s = (Ok a, s') → db s' = next (db s)) → (∀ s e s', m s = (Err e, s') → db s' = db s) →
  (∀ h a h', P h → dir h' = dir h → config_text h' = config_text h → rows_of h' = next (rows_of h) → Q a h') →
  (∀ h h', P h → dir h' = dir h → config_text h' = config_text h → rows_of h' = rows_of h → E h') →
  holds P (on_store f m) Q E.
Proof.
  intros Hok Herr HQ HE h Hh. unfold on_store. destruct (m (store h)) as [[a|e] s] eqn:Em; cbn.
  - apply Hok in Em. by eapply HQ.
  - apply Herr in Em. by eapply HE.
Qed.

(** ** The two updates *)
Definition name_key (mid : Z) (key : option string) (d : Db) : Db :=
  match sql_update_key_id mid key d with Ok (_, d') => d' | Err _ => d end.
Definition set_blob (eid : Z) (data : list Z) (sealed : bool) (d : Db) : Db :=
  match sql_update_embedding eid data (sealed_int sealed) d with Ok (_, d') => d' | Err _ => d end.

Lemma map_no_hit {A} (p : A → bool) (f : A → A) l : length (List.filter p l) = 0%nat → map (λ x, if p x then f x else x) l = l.
Proof.
  intros Hl. rewrite <- (map_id l) at 2. apply map_ext_in. intros x Hx. destruct (p x) eqn:Hp; [|done].
  apply length_zero_iff_nil in Hl. assert (In x (List.filter p l)) as Hin by by apply filter_In. by rewrite Hl in Hin.
Qed.

Section updates.
Context `{ShowSqlite}.

Lemma set_model_key_id_ok mid key s u s' : set_model_key_id mid key s = (Ok u, s') → db s' = name_key mid key (db s).
Proof.
  unfold set_model_key_id. intros (n & s1 & E1 & E2)%bind_ok. apply exec_ok in E1. unfold name_key. rewrite E1.
  destruct (n =? 0)%nat; [done|]. by injection E2 as _ <-.
Qed.

Lemma set_model_key_id_err mid key s e s' : set_model_key_id mid key s = (Err e, s') → db s' = db s.
Proof.
  unfold set_model_key_id, bind. destruct (exec _ s) as [[n|e'] s1] eqn:E1.
  - apply exec_ok in E1. destruct (Nat.eqb_spec n 0) as [->|]; [|done]. intros [= _ <-].
    unfold sql_update_key_id in E1. injection E1 as Hn Hd. rewrite <- Hd, (map_no_hit (has_id mid)) by done. by destruct (db s).
  - intros [= _ <-]. by eapply exec_err.
Qed.

Lemma update_embedding_ok eid data se s u s' : update_embedding_sealed eid data se s = (Ok u, s') → db s' = set_blob eid data se (db s).
Proof.
  unfold update_embedding_sealed. intros (n & s1 & E1 & E2)%bind_ok. apply exec_ok in E1. unfold set_blob. rewrite E1.
  destruct (n =? 0)%nat; [done|]. by injection E2 as _ <-.
Qed.

Lemma update_embedding_err eid data se s e s' : update_embedding_sealed eid data se s = (Err e, s') → db s' = db s.
Proof.
  unfold update_embedding_sealed, bind. destruct (exec _ s) as [[n|e'] s1] eqn:E1.
  - apply exec_ok in E1. destruct (Nat.eqb_spec n 0) as [->|]; [|done]. intros [= _ <-].
    unfold sql_update_embedding in E1. injection E1 as Hn Hd.
    rewrite <- Hd, (map_no_hit (λ e, e_id e =? eid)) by done. by destruct (db s).
  - intros [= _ <-]. by eapply exec_err.
Qed.
End updates.

(** ** Encrypting *)
Definition same_template (m m' : ModelRow) : Prop :=
  m_id m' = m_id m ∧ m_user m' = m_user m ∧ m_label m' = m_label m ∧ m_created_at m' = m_created_at m ∧
  m_embedder_model m' = m_embedder_model m ∧ m_device_id m' = m_device_id m.

(** The model names the key. *)
Definition names_key (key_id : string) (d : Db) (mid : Z) : Prop :=
  ∀ m, m ∈ face_models d → m_id m = mid → m_key_id m = Some key_id.

Section encryption.
Context {SQ : ShowSqlite} {RO : RowOrder} {SH : Sha256} {AE : Aead} {TD : TpmDevice}.
Context (env : CommandEnv) (c : Config) (sealer : SoftwareSealer).
Abbreviation kid := (sealer_key_id sealer).

(** A row is what it was, or was plain and is sealed, under a key its model names. *)
Definition sealed_as (d : Db) (e e' : EmbeddingRow) : Prop :=
  e_id e' = e_id e ∧ e_model_id e' = e_model_id e ∧ e_sealed e = 0 ∧ e_sealed e' = 1 ∧
  is_software_encrypted (e_embedding e) = false ∧ names_key kid d (e_model_id e) ∧
  ∃ n, seal_bytes_with_aad sealer (nonces env n) (e_embedding e) None = Ok (e_embedding e').

Definition encrypted_row (d : Db) (e e' : EmbeddingRow) : Prop := e' = e ∨ sealed_as d e e'.

Record encrypted_from (d0 d : Db) : Prop := {
  ef_models : Forall2 (λ m m', same_template m m' ∧ (m_key_id m' = m_key_id m ∨ m_key_id m' = Some kid)) (face_models d0) (face_models d);
  ef_rows : Forall2 (λ e e', e ∈ face_embeddings d0 ∧ encrypted_row d e e') (face_embeddings d0) (face_embeddings d);
  ef_rest : rate_limit_rows d = rate_limit_rows d0 ∧ model_seq d = model_seq d0 ∧ embedding_seq d = embedding_seq d0 }.

Lemma Forall2_self {A} (R : A → A → Prop) l : (∀ x, x ∈ l → R x x) → Forall2 R l l.
Proof. induction l as [|x l IH]; intros HR; constructor; [by apply HR; left|apply IH; intros; apply HR; by right]. Qed.

Lemma encrypted_from_refl d : encrypted_from d d.
Proof.
  split; [|apply Forall2_self; intros e He; split; [done|by left]|done].
  apply Forall2_self. intros m _. split; [by split_and!|by left].
Qed.

Lemma map_Forall2_r {A B} (R S : A → B → Prop) (g : B → B) l k : Forall2 R l k → (∀ x y, R x y → S x (g y)) → Forall2 S l (map g k).
Proof. intros HF HS. induction HF; constructor; auto. Qed.

Lemma name_key_encrypted d0 d mid : encrypted_from d0 d →
  encrypted_from d0 (name_key mid (Some kid) d) ∧ names_key kid (name_key mid (Some kid) d) mid ∧
  ∀ m, names_key kid d m → names_key kid (name_key mid (Some kid) d) m.
Proof.
  intros [Hm Hr Ha].
  assert (∀ i, names_key kid d i ∨ i = mid → names_key kid (name_key mid (Some kid) d) i) as Hnames.
  { intros i Hi m' [m [-> Hin]]%list_elem_of_fmap Hid. unfold has_id in *. destruct (Z.eqb_spec (m_id m) mid) as [E|E]; [done|].
    destruct Hi as [Hi| ->]; [by apply Hi|done]. }
  split_and!; [split|by apply Hnames; right|intros; by apply Hnames; left].
  - eapply map_Forall2_r; [exact Hm|]. cbn. intros m m' [Hs Hk]. destruct (has_id mid m'); [|done]. split; [exact Hs|by right].
  - eapply Forall2_impl; [exact Hr|]. intros e e' [He [->|(H1 & H2 & H3 & H4 & H5 & H6 & H7)]]; split; try done; [by left|].
    right. split_and!; try done. apply Hnames. by left.
  - done.
Qed.

Lemma names_key_blob d eid data se i : names_key kid d i → names_key kid (set_blob eid data se d) i.
Proof. done. Qed.

Lemma eid_unique d e e' : NoDup (map e_id (face_embeddings d)) → e ∈ face_embeddings d → e' ∈ face_embeddings d → e_id e = e_id e' → e = e'.
Proof.
  intros Hnd He He' Hid. apply list_elem_of_lookup in He as [i Hi]. apply list_elem_of_lookup in He' as [j Hj].
  assert (i = j) as ->; [|congruence].
  eapply (NoDup_lookup (map e_id (face_embeddings d))); [done|..].
  - change (map e_id) with (fmap (M := list) e_id). by rewrite list_lookup_fmap, Hi.
  - change (map e_id) with (fmap (M := list) e_id). by rewrite list_lookup_fmap, Hj, Hid.
Qed.

Lemma set_blob_encrypted d0 d e n blob : NoDup (map e_id (face_embeddings d0)) → encrypted_from d0 d → e ∈ face_embeddings d0 →
  e_sealed e = 0 → is_software_encrypted (e_embedding e) = false → names_key kid d (e_model_id e) →
  seal_bytes_with_aad sealer (nonces env n) (e_embedding e) None = Ok blob →
  encrypted_from d0 (set_blob (e_id e) blob true d).
Proof.
  intros Hnd [Hm Hr Ha] He Hs Hp Hn Hseal. split; [done| |done].
  cbn. eapply map_Forall2_r; [exact Hr|]. cbn. intros e1 e2 [He1 Hrow]. split; [done|].
  assert (e_id e2 = e_id e1) as Hid by (destruct Hrow as [->|(Hid & _)]; done).
  rewrite Hid. destruct (Z.eqb_spec (e_id e1) (e_id e)) as [E|E]; [|done].
  assert (e1 = e) as -> by by eapply (eid_unique d0). right.
  assert (e_model_id e2 = e_model_id e) by (destruct Hrow as [->|(_ & Hmid & _)]; done).
  split_and!; try done. by exists n.
Qed.

(** What is known of the rows a pass still has to seal. *)
Definition pending (d0 : Db) (row : RawRow) : Prop :=
  let '(id, _, blob, _, mid) := row in
  ∃ e, e ∈ face_embeddings d0 ∧ e_id e = id ∧ e_embedding e = blob ∧ e_model_id e = mid ∧ e_sealed e = 0 ∧
    is_software_encrypted (e_embedding e) = false.

Definition row_id (row : RawRow) : Z := let '(id, _, _, _, _) := row in id.

Definition sealed_already (ids : list Z) (d : Db) : Prop :=
  ∀ e, e ∈ face_embeddings d → e_id e ∈ ids → e_sealed e = 1.

Lemma sealed_already_blob ids eid blob d : sealed_already ids d → sealed_already (eid :: ids) (set_blob eid blob true d).
Proof.
  intros Hs e [e1 [-> Hin]]%list_elem_of_fmap. destruct (Z.eqb_spec (e_id e1) eid) as [E|E]; [done|].
  intros [?|Hi]%elem_of_cons; [done|by apply Hs].
Qed.

Lemma encrypt_rows_spec d0 dr rows : NoDup (map e_id (face_embeddings d0)) → Forall (pending d0) rows →
  ∀ n (models : gset Z) ids,
  holds (λ h, (encrypted_from d0 (rows_of h) ∧ dir h = dr) ∧ (∀ m, m ∈ models → names_key kid (rows_of h) m) ∧ sealed_already ids (rows_of h))
    (encrypt_rows env sealer n models rows)
    (λ _ h, (encrypted_from d0 (rows_of h) ∧ dir h = dr) ∧ sealed_already (reverse (map row_id rows) ++ ids) (rows_of h))
    (λ h, encrypted_from d0 (rows_of h) ∧ dir h = dr).
Proof.
  intros Hnd. induction rows as [|[[[[id u] blob] se] mid] rows IH]; intros Hrows n models ids; cbn [encrypt_rows].
  { apply holds_done. by intros h (H1 & _ & H3). }
  apply Forall_cons in Hrows as [(e & He & <- & <- & <- & Hse & Hpl) Hrows].
  eapply holds_then.
  { apply (holds_ask _ _ (λ blob h, ((encrypted_from d0 (rows_of h) ∧ dir h = dr) ∧ (∀ m, m ∈ models → names_key kid (rows_of h) m) ∧
      sealed_already ids (rows_of h)) ∧ seal_bytes_with_aad sealer (nonces env n) (e_embedding e) None = Ok blob)).
    - intros h a Hh Ha. split; [done|]. destruct (seal_bytes_with_aad _ _ _ _) as [b|]; [by injection Ha as ->|done].
    - by intros h [? _]. }
  intros encrypted. eapply holds_then with (R := λ _ h,
    ((encrypted_from d0 (rows_of h) ∧ dir h = dr) ∧ (∀ m, m ∈ ({[ e_model_id e ]} : gset Z) ∪ models → names_key kid (rows_of h) m) ∧
      sealed_already ids (rows_of h)) ∧ seal_bytes_with_aad sealer (nonces env n) (e_embedding e) None = Ok encrypted).
  { case_bool_decide as Hin.
    - apply holds_done. intros h (([H1 H1'] & H2 & H3) & H4). split_and!; try done. 
      intros m [->%elem_of_singleton|Hm]%elem_of_union; auto.
    - eapply on_store_holds; [apply set_model_key_id_ok|apply set_model_key_id_err|..].
      + intros h _ h' (([H1 H1'] & H2 & H3) & H4) Hd Hc Hr. rewrite Hr. destruct (name_key_encrypted d0 (rows_of h) (e_model_id e) H1) as (G1 & G2 & G3).
        split_and!; [done|congruence| |done|done].
        intros m [->%elem_of_singleton|Hm]%elem_of_union; auto.
      + intros h h' (([H1 H1'] & _ & _) & _) Hd Hc ->. split; [done|congruence]. }
  intros ?. eapply holds_then with (R := λ _ h,
    (encrypted_from d0 (rows_of h) ∧ dir h = dr) ∧ (∀ m, m ∈ ({[ e_model_id e ]} : gset Z) ∪ models → names_key kid (rows_of h) m) ∧
      sealed_already (e_id e :: ids) (rows_of h)).
  { eapply on_store_holds; [apply update_embedding_ok|apply update_embedding_err|..].
    - intros h _ h' (([H1 H1'] & H2 & H3) & H4) Hd Hc Hr. rewrite Hr. split_and!; [|congruence|done|by apply sealed_already_blob].
      eapply set_blob_encrypted; try done. apply H2. set_solver.
    - intros h h' (([H1 H1'] & _ & _) & _) Hd Hc ->. split; [done|congruence]. }
  intros ?. eapply holds_conseq; [by apply (IH Hrows (S n) ({[ e_model_id e ]} ∪ models) (e_id e :: ids))|done| |done].
  intros res h [H1 H2]. split; [done|]. cbn [map row_id]. by rewrite reverse_cons, <- app_assoc.
Qed.

(** The rows a pass reads are the rows of the table. *)
Lemma join_elem d m e : (m, e) ∈ sql_join (λ _, true) d ↔ m ∈ face_models d ∧ e ∈ face_embeddings d ∧ e_model_id e = m_id m.
Proof.
  unfold sql_join. rewrite list_elem_of_bind. split.
  - intros (m' & Hin & [Hm _]%elem_of_filterb). apply list_elem_of_bind in Hin as (e' & Hin & [He Hid]%elem_of_filterb).
    apply list_elem_of_singleton in Hin as [= -> ->]. by apply Z.eqb_eq in Hid.
  - intros (Hm & He & Hid). exists m. split; [|by apply elem_of_filterb]. apply list_elem_of_bind. exists e.
    split; [by apply list_elem_of_singleton|]. apply elem_of_filterb. split; [done|]. by apply Z.eqb_eq.
Qed.

Definition row_of (m : ModelRow) (e : EmbeddingRow) : RawRow :=
  (e_id e, m_user m, e_embedding e, negb (e_sealed e =? 0), m_id m).

Lemma rows_read s rows s' : get_all_embeddings_raw s = (Ok rows, s') → db_wf (db s) →
  (∀ row, row ∈ rows → ∃ m e, row = row_of m e ∧ e ∈ face_embeddings (db s) ∧ e_model_id e = m_id m) ∧
  (∀ e, e ∈ face_embeddings (db s) → ∃ m, row_of m e ∈ rows ∧ e_model_id e = m_id m).
Proof.
  intros Hq%query_map_ok Hwf.
  assert (∀ m e row, all_row (m, e) = Ok row → row = row_of m e) as Hrow.
  { intros m e row. unfold all_row. destruct (get_u32 0 _) as [i|] eqn:E1; [|done]. destruct (get_u32 4 _) as [j|] eqn:E2; [|done].
    unfold get_u32 in *. destruct (_ && _) in E1; [|done]. destruct (_ && _) in E2; [|done].
    injection E1 as <-. injection E2 as <-. by intros [= <-]. }
  split.
  - intros row [k Hk]%list_elem_of_lookup. destruct (Forall2_lookup_r _ _ _ _ _ Hq Hk) as ([m e] & Hme & Ha).
    apply Hrow in Ha as ->. apply list_elem_of_lookup_2 in Hme. rewrite scan_perm in Hme. apply join_elem in Hme as (_ & He & Hid).
    by exists m, e.
  - intros e He. pose proof (wf_foreign _ Hwf e He) as [m [Hid Hm]]%list_elem_of_fmap.
    assert ((m, e) ∈ scan (sql_join (λ _, true) (db s))) as Hin by (rewrite scan_perm; by apply join_elem).
    apply list_elem_of_lookup in Hin as [k Hk]. destruct (Forall2_lookup_l _ _ _ _ _ Hq Hk) as (row & Hr & Ha).
    apply Hrow in Ha as ->. exists m. split; [|done]. by eapply list_elem_of_lookup_2.
Qed.

Lemma unencrypted_pending s rows s' : get_all_embeddings_raw s = (Ok rows, s') → db_wf (db s) →
  Forall (pending (db s)) (List.filter is_unencrypted rows) ∧
  ∀ e, e ∈ face_embeddings (db s) → e_sealed e = 0 → is_software_encrypted (e_embedding e) = false →
    e_id e ∈ map row_id (List.filter is_unencrypted rows).
Proof.
  intros Hq Hwf. destruct (rows_read _ _ _ Hq Hwf) as [H1 H2]. split.
  - apply Forall_forall. intros row [Hin Hu]%elem_of_filterb. destruct (H1 row Hin) as (m & e & -> & He & Hid).
    unfold is_unencrypted, row_of in Hu. apply andb_true_iff in Hu as [Hs Hp]. apply negb_true_iff in Hs, Hp.
    apply negb_false_iff, Z.eqb_eq in Hs. exists e. split_and!; done.
  - intros e He Hs Hp. destruct (H2 e He) as (m & Hin & Hid). change (e_id e) with (row_id (row_of m e)).
    apply list_elem_of_fmap_2, elem_of_filterb. split; [done|]. unfold is_unencrypted, row_of. by rewrite Hs, Hp.
Qed.

Lemma obtain_sealer_dir h h' : dir h' = dir h → obtain_sealer env c h' = obtain_sealer env c h.
Proof. intros Hd. unfold obtain_sealer, read_at. by rewrite Hd. Qed.
End encryption.

Section commands.
Context {SQ : ShowSqlite} {RO : RowOrder} {SH : Sha256} {AE : Aead} {TD : TpmDevice}.

Definition all_encrypted (d : Db) : Prop :=
  ∀ e, e ∈ face_embeddings d → e_sealed e ≠ 0 ∨ is_software_encrypted (e_embedding e) = true.

(** What a run leaves: the tables as they were, or rows sealed under the key the host has now. *)
Definition encrypted_or_same env c (d0 : Db) (h : Host) : Prop :=
  rows_of h = d0 ∨ ∃ sealer, obtain_sealer env c h = Ok sealer ∧ encrypted_from env sealer d0 (rows_of h).

Lemma run_encrypt_spec env c h : store_wf (store h) →
  match run_encrypt env c false h with
  | (Ok _, h') => encrypted_or_same env c (rows_of h) h' ∧ all_encrypted (rows_of h')
  | (Err _, h') => encrypted_or_same env c (rows_of h) h'
  end.
Proof.
  intros [Hwf Hsaved]. set (d0 := rows_of h).
  assert (holds (λ h0, h0 = h) (run_encrypt env c false)
    (λ _ h', encrypted_or_same env c d0 h' ∧ all_encrypted (rows_of h')) (encrypted_or_same env c d0)) as Hrun; [|by specialize (Hrun h eq_refl)].
  unfold run_encrypt. destruct (hard_binding_active c).
  { intros h0 ->. by left. }
  eapply holds_then with (R := λ _ h0, h0 = h); [by apply holds_ask; [|intros h0 ->; left]|].
  intros ?. eapply holds_then with (R := λ _ h0, rows_of h0 = d0).
  { intros h0 ->. unfold ensure_key. case_bool_decide; [|done].
    destruct (ensure_encrypt_by_default_key _ _ _ _) as [[dec s] d] eqn:Ek. apply ensure_key_spec in Ek as (Hdb & _ & _); [|done].
    destruct (refusal dec); [left|]; done. }
  intros ?. eapply holds_then with (R := λ sealer h0, rows_of h0 = d0 ∧ obtain_sealer env c h0 = Ok sealer).
  { apply holds_ask; [|by left]. intros h0 sealer Hd Ho. split; [done|].
    destruct (obtain_sealer env c h0) as [x|]; [|done]. by injection Ho as ->. }
  intros sealer h1 [Hd1 Ho]. unfold and_then at 1, on_store.
  destruct (get_all_embeddings_raw (store h1)) as [[rows|e] s2] eqn:Eq; cbn [map_err].
  2: { apply query_map_same in Eq as [Hdb _]. left. unfold rows_of in *. cbn. congruence. }
  pose proof (query_map_same _ _ _ _ _ Eq) as [Hdb _].
  assert (db_wf (db (store h1))) as Hwf1 by (unfold rows_of in Hd1; by rewrite Hd1).
  destruct (unencrypted_pending _ _ _ Eq Hwf1) as [Hpend Hall]. unfold rows_of in Hd1. rewrite Hd1 in Hpend, Hall.
  set (h2 := set_store s2 h1) in *.
  assert (rows_of h2 = d0) as Hd2 by (unfold rows_of, h2; cbn; congruence).
  destruct (List.filter is_unencrypted rows) as [|row unenc] eqn:Eu.
  { cbn. split; [by left|]. intros e He. destruct (Z.eq_dec (e_sealed e) 0) as [Hs|]; [|by left].
    destruct (is_software_encrypted (e_embedding e)) eqn:Hp; [by right|]. rewrite Hd2 in He.
    specialize (Hall e He Hs Hp). by apply elem_of_nil in Hall. }
  rewrite <- Eu in *.
  pose proof (encrypt_rows_spec env sealer d0 (dir h1) (List.filter is_unencrypted rows) (wf_eids _ Hwf) Hpend 0 ∅ [] h2) as Hspec.
  unfold and_then. destruct (encrypt_rows env sealer 0 ∅ _ h2) as [[n|e] h3].
  - destruct Hspec as [[Hef Hdir] Hsealed].
    { rewrite Hd2. split_and!; [apply encrypted_from_refl|reflexivity|set_solver|]. by intros e _ ?%elem_of_nil. }
    cbn. split; [right; exists sealer; split; [by erewrite obtain_sealer_dir|done]|].
    intros e' He'. apply list_elem_of_lookup in He' as [k Hk].
    destruct (Forall2_lookup_r _ _ _ _ _ (ef_rows _ _ _ _ Hef) Hk) as (e & He & Hin & [->|Hse]).
    + destruct (Z.eq_dec (e_sealed e) 0) as [Hs|]; [|by left].
      destruct (is_software_encrypted (e_embedding e)) eqn:Hp; [by right|]. left.
      rewrite (Hsealed e); [done|by eapply list_elem_of_lookup_2|]. rewrite app_nil_r. apply elem_of_reverse. by apply Hall.
    + left. destruct Hse as (_ & _ & _ & -> & _). done.
  - destruct Hspec as [Hef Hdir].
    { rewrite Hd2. split_and!; [apply encrypted_from_refl|reflexivity|set_solver|]. by intros e' _ ?%elem_of_nil. }
    right. exists sealer. split; [by erewrite obtain_sealer_dir|done].
Qed.
End commands.

Lemma Forall2_with {A B} (R : A → B → Prop) l k : Forall2 R l k → Forall2 (λ x y, x ∈ l ∧ R x y) l k.
Proof.
  intros HF. assert (∀ l' : list A, (∀ x, x ∈ l → x ∈ l') → Forall2 (λ x y, x ∈ l' ∧ R x y) l k) as Hall; [|by apply Hall].
  intros l' Hl. induction HF as [|x y l k HR _ IH]; constructor; [split; [apply Hl; by left|done]|]. apply IH. intros; apply Hl. by right.
Qed.

Lemma Forall2_map_eq {A B} (f : A → B) l k : Forall2 (λ x y, f y = f x) l k → map f k = map f l.
Proof. induction 1 as [|x y l k Hxy _ IH]; cbn; congruence. Qed.

Section round_trip.
Context {SQ : ShowSqlite} {RO : RowOrder} {SH : Sha256} {AE : Aead} {AL : AeadLaws} {TD : TpmDevice}.

Lemma encrypted_from_wf env sealer d0 d : encrypted_from env sealer d0 d → db_wf d0 → db_wf d.
Proof.
  intros [Hm Hr (_ & Hms & Hes)] [W1 W2 W3 W4 W5 W6 W7 W8].
  assert (∀ B (f : ModelRow → B), (∀ m m', same_template m m' → f m' = f m) → map f (face_models d) = map f (face_models d0)) as Hmf.
  { intros B f Hf. apply Forall2_map_eq. eapply Forall2_impl; [exact Hm|]. intros m m' [? _]. by apply Hf. }
  assert (∀ B (f : EmbeddingRow → B), (∀ e e', e_id e' = e_id e → e_model_id e' = e_model_id e → f e' = f e) →
    map f (face_embeddings d) = map f (face_embeddings d0)) as Hrf.
  { intros B f Hf. apply Forall2_map_eq. eapply Forall2_impl; [exact Hr|]. intros e e' [_ [->|(? & ? & _)]]; auto. }
  assert (map m_id (face_models d) = map m_id (face_models d0)) as Hids by (apply Hmf; by intros m m' (? & _)).
  assert (map e_id (face_embeddings d) = map e_id (face_embeddings d0)) as Heids by (apply Hrf; auto).
  split; rewrite ?Hms, ?Hes, ?Hids, ?Heids; auto.
  - rewrite (Hmf _ label_key); [done|]. intros m m' (_ & H1 & H2 & _). unfold label_key. congruence.
  - intros m Hin. assert (m_id m ∈ map m_id (face_models d0)) as [m' [-> Hin']]%list_elem_of_fmap; [|by apply W3].
    rewrite <- Hids. by apply list_elem_of_fmap_2.
  - intros e Hin. assert (e_model_id e ∈ map e_model_id (face_embeddings d0)) as [e' [-> Hin']]%list_elem_of_fmap; [|by apply W5].
    rewrite <- (Hrf _ e_model_id) by auto. by apply list_elem_of_fmap_2.
  - intros e Hin. assert (e_id e ∈ map e_id (face_embeddings d0)) as [e' [-> Hin']]%list_elem_of_fmap; [|by apply W7].
    rewrite <- Heids. by apply list_elem_of_fmap_2.
Qed.

(** A row of a plain template. *)
Definition plain (e : EmbeddingRow) : Prop := length (e_embedding e) = RAW_EMBEDDING_SIZE ∧ e_sealed e = 0.

Lemma plain_shape e : plain e → is_software_encrypted (e_embedding e) = false ∧ is_sealed (e_embedding e) = false.
Proof.
  intros [Hl _]. unfold is_software_encrypted, is_sealed, is_software_encrypted_shape, is_sealed_shape.
  by rewrite Hl, Nat.eqb_refl, !andb_false_r.
Qed.

Lemma sealed_plain s nonce data blob : length nonce = AES_NONCE_SIZE → length data = RAW_EMBEDDING_SIZE →
  seal_bytes_with_aad s nonce data None = Ok blob →
  unseal_bytes_with_aad s blob None = Ok data ∧ is_software_encrypted blob = true ∧ is_sealed blob = false.
Proof using AL.
  intros Hn Hl (ct & Hc & ->)%seal_unfold. assert (length ct = 2064%nat) as Hlc by by rewrite (aead_tag _ _ _ _ _ Hc), Hl.
  assert ((length (SOFTWARE_ENCRYPTED_VERSION_BYTE :: nonce ++ ct) =? RAW_EMBEDDING_SIZE)%nat = false) as Hneq.
  { apply Nat.eqb_neq. cbn [length]. by rewrite length_app, Hn, Hlc. }
  unfold is_software_encrypted, is_sealed, is_software_encrypted_shape, is_sealed_shape. rewrite Hneq.
  split_and!; [|done|done]. rewrite unseal_shape by (done || lia). by rewrite (aead_decrypts _ _ _ _ _ Hc).
Qed.

(** The row holds the template, or what opens to it. *)
Definition opens (sealer : SoftwareSealer) (e0 e : EmbeddingRow) : Prop :=
  e = e0 ∨ e_id e = e_id e0 ∧ e_model_id e = e_model_id e0 ∧ e_sealed e = 1 ∧
    is_software_encrypted (e_embedding e) = true ∧ is_sealed (e_embedding e) = false ∧
    unseal_bytes_with_aad sealer (e_embedding e) None = Ok (e_embedding e0).

Lemma encrypted_opens env sealer d0 d : (∀ n, length (nonces env n) = AES_NONCE_SIZE) →
  (∀ e, e ∈ face_embeddings d0 → plain e) → encrypted_from env sealer d0 d →
  Forall2 (opens sealer) (face_embeddings d0) (face_embeddings d).
Proof using AL.
  intros Hn Hp [_ Hr _]. eapply Forall2_impl; [exact Hr|]. intros e0 e [He0 [->|(H1 & H2 & _ & H4 & _ & _ & n & Hs)]]; [by left|].
  right. destruct (sealed_plain _ _ _ _ (Hn n) (proj1 (Hp e0 He0)) Hs) as (? & ? & ?). by split_and!.
Qed.

Section decryption.
Context (sealer : SoftwareSealer) (d0 d1 : Db) (Hids : NoDup (map e_id (face_embeddings d0)))
  (Hplain : ∀ e, e ∈ face_embeddings d0 → plain e) (dr : Dir).

Record decrypted_to (d : Db) : Prop := {
  dt_rows : Forall2 (λ e0 e, e0 ∈ face_embeddings d0 ∧ opens sealer e0 e) (face_embeddings d0) (face_embeddings d);
  dt_left : ∀ e, e ∈ face_embeddings d → e_sealed e ≠ 0 → e ∈ face_embeddings d1 }.

Definition opened_already (ids : list Z) (d : Db) : Prop := ∀ e, e ∈ face_embeddings d → e_id e ∈ ids → e_sealed e = 0.

Definition closed_row (row : RawRow) : Prop :=
  let '(id, _, blob, _, _) := row in
  ∃ e0, e0 ∈ face_embeddings d0 ∧ e_id e0 = id ∧ unseal_bytes_with_aad sealer blob None = Ok (e_embedding e0).

Lemma set_blob_decrypted d e0 : decrypted_to d → e0 ∈ face_embeddings d0 →
  decrypted_to (set_blob (e_id e0) (e_embedding e0) false d).
Proof using Hids Hplain.
  intros [Hr Hl] He0. split; cbn.
  - eapply map_Forall2_r; [exact Hr|]. cbn. intros e1 e [He1 Ho]. split; [done|].
    assert (e_id e = e_id e1 ∧ e_model_id e = e_model_id e1) as [Hid Hmid] by (destruct Ho as [->|(? & ? & _)]; done).
    rewrite Hid. destruct (Z.eqb_spec (e_id e1) (e_id e0)) as [E|E]; [|done].
    assert (e1 = e0) as -> by by eapply (eid_unique d0). left. destruct (Hplain e0 He0) as [_ Hs].
    rewrite Hmid. destruct e0. cbn in *. by rewrite Hs.
  - intros e [e' [-> Hin]]%list_elem_of_fmap. destruct (e_id e' =? e_id e0); [done|]. by apply Hl.
Qed.

Lemma decrypt_pass_spec what rows : Forall closed_row rows → ∀ (models : gset Z) ids,
  holds (λ h, (decrypted_to (rows_of h) ∧ dir h = dr) ∧ opened_already ids (rows_of h))
    (decrypt_rows (λ blob, unseal_bytes_with_aad sealer blob None) what models rows)
    (λ _ h, (decrypted_to (rows_of h) ∧ dir h = dr) ∧ opened_already (reverse (map row_id rows) ++ ids) (rows_of h))
    (λ h, decrypted_to (rows_of h) ∧ dir h = dr).
Proof using Hids Hplain.
  induction rows as [|[[[[id u] blob] se] mid] rows IH]; intros Hrows models ids; cbn [decrypt_rows]; [by apply holds_done|].
  apply Forall_cons in Hrows as [(e0 & He0 & <- & Hopen) Hrows].
  eapply holds_then with (R := λ raw h, ((decrypted_to (rows_of h) ∧ dir h = dr) ∧ opened_already ids (rows_of h)) ∧ raw = e_embedding e0).
  { apply holds_ask; [|by intros h [? _]]. intros h raw Hh Hraw. split; [done|]. rewrite Hopen in Hraw. by injection Hraw. }
  intros raw. eapply holds_then with (R := λ _ h, (decrypted_to (rows_of h) ∧ dir h = dr) ∧ opened_already (e_id e0 :: ids) (rows_of h)).
  { eapply on_store_holds; [apply update_embedding_ok|apply update_embedding_err|..].
    - intros h _ h' (([H1 H1'] & H2) & ->) Hd Hc Hr. rewrite Hr. split_and!; [by apply set_blob_decrypted|congruence|].
      intros e [e' [-> Hin]]%list_elem_of_fmap. destruct (Z.eqb_spec (e_id e') (e_id e0)) as [E|E]; [done|].
      intros [?|Hi]%elem_of_cons; [done|by apply H2].
    - intros h h' (([H1 H1'] & _) & _) Hd Hc ->. split; [done|congruence]. }
  intros ?. eapply holds_conseq; [by apply (IH Hrows ({[ mid ]} ∪ models) (e_id e0 :: ids))|done| |done].
  intros res h [H1 H2]. split; [done|]. cbn [map row_id]. by rewrite reverse_cons, <- app_assoc.
Qed.

Lemma clear_key_ids_spec (R : list EmbeddingRow → Prop) models :
  holds (λ h, R (face_embeddings (rows_of h))) (clear_key_ids models) (λ _ h, R (face_embeddings (rows_of h))) (λ h, R (face_embeddings (rows_of h))).
Proof.
  induction models as [|m models IH]; cbn [clear_key_ids]; [by apply holds_done|].
  eapply holds_then; [|intros ?; exact IH]. eapply on_store_holds; [apply set_model_key_id_ok|apply set_model_key_id_err|..].
  - intros h _ h' Hh _ _ ->. exact Hh.
  - by intros h h' Hh _ _ ->.
Qed.

Lemma all_opened d : decrypted_to d → (∀ e, e ∈ face_embeddings d → e_sealed e = 0) → face_embeddings d = face_embeddings d0.
Proof.
  intros [Hr _]. revert Hr. generalize (face_embeddings d0) at 2 3. intros l0 Hr.
  induction Hr as [|e0 e l0 l [_ Ho] _ IH]; intros Hs; [done|]. f_equal; [|apply IH; intros; apply Hs; by right].
  destruct Ho as [->|(_ & _ & Hse & _)]; [done|]. rewrite (Hs e) in Hse by by left. done.
Qed.

End decryption.

Lemma no_tpm_rows sealer d0 d : (∀ e, e ∈ face_embeddings d0 → plain e) → Forall2 (opens sealer) (face_embeddings d0) (face_embeddings d) →
  ∀ e, e ∈ face_embeddings d → is_sealed (e_embedding e) = false.
Proof.
  intros Hp Hr e [k Hk]%list_elem_of_lookup. destruct (Forall2_lookup_r _ _ _ _ _ Hr Hk) as (e0 & He0 & Ho).
  destruct Ho as [->|(_ & _ & _ & _ & H & _)]; [|done]. apply plain_shape, Hp. by eapply list_elem_of_lookup_2.
Qed.

(** What a decryption leaves when every row is a template or sealed under [sealer]. *)
Lemma run_decrypt_spec env c sealer d0 h : db_wf d0 → (∀ e, e ∈ face_embeddings d0 → plain e) → db_wf (rows_of h) →
  Forall2 (opens sealer) (face_embeddings d0) (face_embeddings (rows_of h)) →
  (face_embeddings (rows_of h) = face_embeddings d0 ∨ obtain_sealer env c h = Ok sealer) →
  match run_decrypt env c h with
  | (Ok _, h') => face_embeddings (rows_of h') = face_embeddings d0
  | (Err _, h') => Forall2 (opens sealer) (face_embeddings d0) (face_embeddings (rows_of h'))
  end.
Proof.
  intros Hwf0 Hp Hwf Hr Hkey. unfold run_decrypt, and_then at 1, opened, ask at 1.
  destruct (store_opens env); [done|]. unfold and_then at 1, on_store.
  destruct (get_all_embeddings_raw (store h)) as [[rows|e] s2] eqn:Eq; cbn [map_err].
  2: { apply query_map_same in Eq as [Hdb _]. unfold rows_of. cbn. by rewrite Hdb. }
  pose proof (query_map_same _ _ _ _ _ Eq) as [Hdb _]. destruct (rows_read _ _ _ Eq Hwf) as [H1 H2].
  set (h2 := set_store s2 h). assert (rows_of h2 = rows_of h) as Hd2 by exact Hdb.
  assert (List.filter (λ r, is_sealed (row_blob r)) rows = []) as ->.
  { apply filterb_none. intros row (m & e & -> & He & _)%H1. by eapply no_tpm_rows. }
  destruct (List.filter (λ r, is_software_encrypted (row_blob r)) rows) as [|row sw] eqn:Esw.
  { cbn. rewrite Hd2. clear Hkey. assert (∀ e, e ∈ face_embeddings (rows_of h) → is_software_encrypted (e_embedding e) = false) as Hno.
    { intros e He. destruct (H2 e He) as (m & Hin & _). destruct (is_software_encrypted (e_embedding e)) eqn:Hsw; [|done].
      assert (row_of m e ∈ List.filter (λ r, is_software_encrypted (row_blob r)) rows) as Hf by by apply elem_of_filterb.
      rewrite Esw in Hf. by apply elem_of_nil in Hf. }
    clear -Hr Hno. induction Hr as [|e0 e l0 l Ho _ IH]; [done|]. f_equal; [|apply IH; intros; apply Hno; by right].
    destruct Ho as [->|(_ & _ & _ & Hsw & _)]; [done|]. rewrite (Hno e) in Hsw by by left. done. }
  assert (∃ e, e ∈ face_embeddings (rows_of h) ∧ is_software_encrypted (e_embedding e) = true) as (e1 & He1 & Hsw1).
  { assert (row ∈ List.filter (λ r, is_software_encrypted (row_blob r)) rows) as [Hin Hsw]%elem_of_filterb by (rewrite Esw; left).
    apply H1 in Hin as (m & e & -> & He & _). by exists e. }
  assert (obtain_sealer env c h2 = Ok sealer) as Ho.
  { destruct Hkey as [Heq|Ho]; [|by erewrite obtain_sealer_dir]. rewrite Heq in He1. apply Hp, plain_shape in He1 as [He1 _]. congruence. }
  rewrite <- Esw in *. clear row sw Esw.
  set (sw := List.filter _ rows) in *.
  assert (Forall (closed_row sealer d0) sw) as Hclosed.
  { apply Forall_forall. intros row [(m & e & -> & He & _)%H1 Hsw]%elem_of_filterb. unfold row_of in Hsw. cbn in Hsw.
    apply list_elem_of_lookup in He as [k Hk]. destruct (Forall2_lookup_r _ _ _ _ _ Hr Hk) as (e0 & He0 & Hop).
    apply list_elem_of_lookup_2 in He0. exists e0. split; [done|].
    destruct Hop as [->|(-> & _ & _ & _ & _ & Hop)]; [|done]. apply Hp, plain_shape in He0 as [He0 _]. congruence. }
  pose proof (decrypt_pass_spec sealer d0 (rows_of h) (wf_eids _ Hwf0) Hp (dir h) "failed to decrypt software-encrypted embedding "
    sw Hclosed ∅ [] h2) as Hspec.
  unfold and_then, ask. rewrite Ho. cbn [context map_err].
  assert (decrypted_to sealer d0 (rows_of h) (rows_of h2)) as Hstart.
  { rewrite Hd2. split; [|done]. by apply Forall2_with. }
  destruct (decrypt_rows _ _ ∅ sw h2) as [[u|e] h3].
  - destruct Hspec as [[Hdt _] Hdone]; [split_and!; [done|done|by intros e _ ?%elem_of_nil]|].
    assert (face_embeddings (rows_of h3) = face_embeddings d0) as Hall.
    { eapply all_opened; [exact Hdt|]. intros e He. destruct (Z.eq_dec (e_sealed e) 0) as [|Hne]; [done|].
      apply (Hdone e He). rewrite app_nil_r. apply elem_of_reverse.
      pose proof (dt_left _ _ _ _ Hdt e He Hne) as Hin. destruct (H2 e Hin) as (m & Hrow & _).
      change (e_id e) with (row_id (row_of m e)). apply list_elem_of_fmap_2, elem_of_filterb. split; [done|]. cbn.
      apply list_elem_of_lookup in Hin as [k Hk]. destruct (Forall2_lookup_r _ _ _ _ _ Hr Hk) as (e0 & He0 & Hop).
      destruct Hop as [->|(_ & _ & _ & Hsw & _)]; [|done]. apply list_elem_of_lookup_2, Hp in He0 as [_ ?]. done. }
    cbn. pose proof (clear_key_ids_spec (λ l, l = face_embeddings d0) (merge_sort Z.le (elements u)) h3 Hall) as Hclear.
    destruct (clear_key_ids _ h3) as [[?|?] h4]; rewrite Hclear; [done|].
    apply Forall2_self. intros x _. by left.
  - destruct Hspec as [[Hdt _] _]; [split_and!; [done|done|by intros ? _ ?%elem_of_nil]|].
    eapply Forall2_impl; [exact Hdt|]. by intros ? ? [_ ?].
Qed.
End round_trip.

(** C18.  Encrypting stored templates in place loses none, wherever it fails: without a failure or
    with one, the tables are as before but for rows that were plain and are sealed under the key
    the host has now, each in a model that names this key; a success leaves no plain row. *)
Theorem encryption_keeps_templates `{ShowSqlite} `{RowOrder} `{Sha256} `{Aead} `{TpmDevice} env c h : store_wf (store h) →
  let '(r, h') := run_encrypt env c false h in
  (rows_of h' = rows_of h ∨
   ∃ sealer, obtain_sealer env c h' = Ok sealer ∧ encrypted_from env sealer (rows_of h) (rows_of h')) ∧
  (r = Ok tt → all_encrypted (rows_of h')).
Proof.
  intros Hwf. pose proof (run_encrypt_spec env c h Hwf) as Hrun. destruct (run_encrypt env c false h) as [[[]|e] h'].
  - destruct Hrun as [Hsame Hall]. by split.
  - by split.
Qed.

(** C19.  Decrypting inverts encrypting: over plain templates, whatever an encryption left behind,
    finished or not, a decryption with the same key that succeeds brings back every row, and one
    that fails leaves every row as it was or sealed so that the key still opens it. *)
Theorem decryption_inverts_encryption `{ShowSqlite} `{RowOrder} `{Sha256} `{AeadLaws} `{TpmDevice} env c env' c' h sealer :
  store_wf (store h) → (∀ e, e ∈ face_embeddings (rows_of h) → plain e) →
  (∀ n, length (nonces env n) = AES_NONCE_SIZE) →
  let h1 := snd (run_encrypt env c false h) in
  obtain_sealer env c h1 = Ok sealer → obtain_sealer env' c' h1 = Ok sealer →
  let '(r, h2) := run_decrypt env' c' h1 in
  Forall2 (opens sealer) (face_embeddings (rows_of h)) (face_embeddings (rows_of h2)) ∧
  (r = Ok tt → face_embeddings (rows_of h2) = face_embeddings (rows_of h)).
Proof.
  intros Hwf Hp Hn h1 Ho Ho'. pose proof (run_encrypt_spec env c h Hwf) as Hrun.
  assert (encrypted_or_same env c (rows_of h) h1) as Hsame.
  { unfold h1. destruct (run_encrypt env c false h) as [[?|?] ?]; [apply Hrun|done]. }
  assert (db_wf (rows_of h1) ∧ Forall2 (opens sealer) (face_embeddings (rows_of h)) (face_embeddings (rows_of h1))) as [Hwf1 Hop].
  { destruct Hsame as [->|(s & Hs & Hef)]; [split; [apply Hwf|apply Forall2_self; intros e _; by left]|].
    assert (s = sealer) as -> by congruence. split; [by eapply encrypted_from_wf; [|apply Hwf]|by eapply encrypted_opens]. }
  pose proof (run_decrypt_spec env' c' sealer (rows_of h) h1 (proj1 Hwf) Hp Hwf1 Hop (or_intror Ho')) as Hdec.
  destruct (run_decrypt env' c' h1) as [[[]|e] h2]; [|by split].
  rewrite Hdec. split; [|done]. apply Forall2_self. intros e _. by left.
Qed.

(** ** Keys and their files *)

(** What sealing relies on: the TPM unseals what it created, while the selected registers hold
    what they held, and its areas are bytes. *)
Class TpmLaws `{TpmDevice} := {
  tpm_unseals : ∀ data pcr pub priv, tpm_create data pcr = Ok (pub, priv) → tpm_unseal pcr pub priv = Ok data;
  tpm_areas : ∀ data pcr pub priv, tpm_create data pcr = Ok (pub, priv) →
    Forall is_byte pub ∧ Forall is_byte priv ∧ is_u32 (Z.of_nat (length pub)) }.

Definition selection_fits (pcr : option (list Z)) : Prop :=
  match pcr with Some indices => Forall is_u32 indices ∧ (length indices ≤ 255)%nat | None => True end.

Lemma sealed_key_unseals `{TpmLaws} key pcr blob : compiled = true → selection_fits pcr →
  tpm_seal_bytes key pcr = Ok blob → tpm_unseal_bytes blob = Ok key.
Proof.
  intros Hc Hfit. unfold tpm_seal_bytes, tpm_unseal_bytes. rewrite Hc.
  destruct (tpm_create key pcr) as [[pub priv]|e] eqn:Ec; [|done]. intros [= <-]. cbn [fst snd].
  destruct (tpm_areas _ _ _ _ Ec) as (Hpub & Hpriv & Hlen).
  assert (Forall is_byte (encode_sealed_blob pcr pub priv)) as Hb.
  { unfold encode_sealed_blob. rewrite !Forall_app. split_and!; [|apply le_bytes_byte|done|done].
    destruct pcr as [ixs|]; [|by repeat constructor]. constructor; [done|]. constructor; [by apply Z.mod_pos_bound|].
    apply Forall_bind, Forall_forall. intros i _. apply le_bytes_byte. }
  destruct (sealed_blob_roundtrip (encode_sealed_blob pcr pub priv) Hb) as [_ Hp].
  assert (parse_sealed_blob (encode_sealed_blob pcr pub priv) = Some (Ok (pcr, pub, priv))) as ->.
  { apply Hp. split; [done|]. by split. }
  cbn. by apply tpm_unseals.
Qed.

Section keys.
Context {SQ : ShowSqlite} {RO : RowOrder} {SH : Sha256} {AE : Aead} {TD : TpmDevice} {TL : TpmLaws}.

Lemma and_then_ok {A B} (m : Command A) (k : A → Command B) h b h' :
  and_then m k h = (Ok b, h') ↔ ∃ a h1, m h = (Ok a, h1) ∧ k a h1 = (Ok b, h').
Proof.
  unfold and_then. destruct (m h) as [[a|e] h1]; split; try done.
  - intros Hk. by exists a, h1.
  - by intros (a' & h1' & [= <- <-] & Hk).
  - by intros (a' & h1' & ? & _).
Qed.

Lemma ask_ok {A} (f : Host → result A Failure) h a h' : ask f h = (Ok a, h') ↔ f h = Ok a ∧ h' = h.
Proof. unfold ask. split; [by intros [= -> <-]|by intros [-> ->]]. Qed.

Lemma map_err_is_ok {A E F} (f : E → F) (r : result A E) a : map_err f r = Ok a ↔ r = Ok a.
Proof. destruct r; cbn; split; congruence. Qed.

Lemma key_of_bytes_ok data wrong key : key_of_bytes data wrong = Ok key → key = data ∧ length data = 32%nat.
Proof. unfold key_of_bytes. destruct (Nat.eqb_spec (length data) 32); [by intros [= ->]|done]. Qed.

Lemma seal_to_file_ok env key path pcr d d' : is_symlink d path = false → seal_key_to_file env key path pcr d = (Ok tt, d') →
  ∃ blob, tpm_seal_bytes key pcr = Ok blob ∧ d' = <[path := File blob]> d.
Proof.
  intros Hl. unfold seal_key_to_file. destruct (tpm_seal_bytes key pcr) as [blob|e]; [|done].
  destruct (sealed_open_fault env); [done|]. rewrite Hl. destruct (sealed_write_fault env) as [[n e]|]; [done|].
  intros [= <-]. by exists blob.
Qed.

Lemma seal_to_file_err env key path pcr d e d' : is_symlink d path = false → seal_key_to_file env key path pcr d = (Err e, d') →
  d' = d ∨ ∃ n msg blob, sealed_write_fault env = Some (n, msg) ∧ tpm_seal_bytes key pcr = Ok blob ∧ d' = <[path := File (take n blob)]> d.
Proof.
  intros Hl. unfold seal_key_to_file. destruct (tpm_seal_bytes key pcr) as [blob|e']; [|intros [= _ <-]; by left].
  destruct (sealed_open_fault env); [intros [= _ <-]; by left|]. rewrite Hl.
  destruct (sealed_write_fault env) as [[n msg]|]; [|done]. intros [= _ <-]. right. by exists n, msg, blob.
Qed.

Lemma seal_existing_keyfile_ok env c h u h' : is_symlink (dir h) (sealed_file c) = false → seal_existing_keyfile env c h = (Ok u, h') →
  ∃ key blob, read_at env (key_file c) h = Ok key ∧ length key = 32%nat ∧ tpm_seal_bytes key (pcr_selection c) = Ok blob ∧
    h' = set_dir (<[sealed_file c := File blob]> (dir h)) h.
Proof.
  intros Hl. unfold seal_existing_keyfile. intros (data & h1 & [Hr ->]%ask_ok & Hk)%and_then_ok.
  apply map_err_is_ok, map_err_is_ok in Hr. apply and_then_ok in Hk as (key & h1 & [[-> Hlen]%key_of_bytes_ok ->]%ask_ok & Hk).
  apply and_then_ok in Hk as (? & h1 & [_ ->]%ask_ok & Hk). unfold on_dir in Hk.
  destruct (seal_key_to_file _ _ _ _ _) as [[[]|e] d] eqn:Es; [|done]. injection Hk as _ <-.
  apply seal_to_file_ok in Es as (blob & Hb & ->); [|done]. by exists data, blob.
Qed.

Lemma update_config_dir env c m h r h' : update_config_encryption env c m h = (r, h') → dir h' = dir h ∧ store h' = store h.
Proof.
  unfold update_config_encryption. destruct (config_text h); [|by intros [= _ <-]].
  destruct (config_read_fault env); [by intros [= _ <-]|]. destruct (config_open_fault env); [by intros [= _ <-]|].
  destruct (config_write_fault env) as [[n e]|]; by intros [= _ <-].
Qed.

Lemma unseal_key_ok read path key : compiled = true → unseal_key_from_file read path = Ok key →
  ∃ blob, read = Ok blob ∧ tpm_unseal_bytes blob = Ok key ∧ length key = 32%nat.
Proof.
  intros Hc. unfold unseal_key_from_file. rewrite Hc. destruct read as [blob|e]; [|done]. cbn [map_err].
  destruct (tpm_unseal_bytes blob) as [k|e] eqn:Eu; [|done]. destruct (Nat.eqb_spec (length k) 32); [|done].
  intros [= <-]. by exists blob.
Qed.

(** The plaintext key is removed between the two migrations. *)
Definition without (path : string) (h : Host) : Host := set_dir (delete path (dir h)) h.

Lemma read_inserted env path content d l : read_following (key_env env) (<[path := File content]> d) path = Ok l → l = content.
Proof. unfold read_following. rewrite lookup_insert_eq. by destruct (read_fault (key_env env)); [|intros [= ->]]. Qed.
End keys.

(** A key survives its migrations: sealing the key file with the TPM, removing it, and unsealing
    the key again writes the same thirty-two bytes to the key file, and the sealed file still
    unseals to them. *)
Theorem key_migration_roundtrip `{ShowSqlite} `{RowOrder} `{TpmLaws} env env' c h u h1 u' h2 :
  selection_fits (pcr_selection c) → is_symlink (dir h) (sealed_file c) = false → sealed_file c ≠ key_file c →
  seal_key env c h = (Ok u, h1) → unseal_key env' c (without (key_file c) h1) = (Ok u', h2) →
  ∃ key blob, read_at env (key_file c) h = Ok key ∧ length key = 32%nat ∧
    dir h2 !! key_file c = Some (File key) ∧ dir h2 !! sealed_file c = Some (File blob) ∧ tpm_unseal_bytes blob = Ok key.
Proof.
  intros Hfit Hl Hne Hseal Hunseal. unfold seal_key in Hseal. destruct compiled eqn:Hc; cbn [negb] in Hseal; [|done].
  destruct (negb (exists_at env (key_file c) h)); [done|]. destruct (exists_at env (sealed_file c) h); [done|].
  apply and_then_ok in Hseal as (v & h3 & Hs & Hcfg). apply seal_existing_keyfile_ok in Hs as (key & blob & Hr & Hlen & Hb & ->); [|done].
  apply update_config_dir in Hcfg as [Hd1 _]. cbn [dir set_dir] in Hd1.
  pose proof (sealed_key_unseals _ _ _ Hc Hfit Hb) as Hopen.
  exists key, blob. unfold unseal_key in Hunseal. rewrite Hc in Hunseal. cbn [negb] in Hunseal.
  destruct (negb (exists_at env' (sealed_file c) _)); [done|]. destruct (exists_at env' (key_file c) _); [done|].
  apply and_then_ok in Hunseal as (v' & h4 & Hu & Hcfg). apply update_config_dir in Hcfg as [Hd2 _].
  unfold unseal_into_keyfile in Hu. apply and_then_ok in Hu as (? & h5 & [_ ->]%ask_ok & Hu).
  apply and_then_ok in Hu as (key' & h5 & [Hk ->]%ask_ok & Hw). apply map_err_is_ok in Hk.
  apply unseal_key_ok in Hk as (blob' & Hr' & Hu' & _); [|done].
  assert (blob' = blob) as ->.
  { unfold read_at, without in Hr'. cbn [dir set_dir] in Hr'. rewrite Hd1, delete_insert_ne in Hr' by done. by eapply read_inserted. }
  assert (key' = key) as -> by congruence.
  unfold on_dir, write_key_file in Hw. destruct (is_symlink _ (key_file c)); [done|].
  destruct (key_open_fault env'); [done|]. destruct (key_write_fault env') as [[n e]|]; [done|]. injection Hw as _ <-.
  cbn [dir set_dir] in Hd2. rewrite Hd2. split_and!; [done|done|by rewrite lookup_insert_eq| |done].
  rewrite lookup_insert_ne by done. unfold without. cbn [dir set_dir]. rewrite lookup_delete_ne by done. by rewrite Hd1, lookup_insert_eq.
Qed.

(** Re-sealing carries the key over: when it succeeds the sealed file unseals to the key that
    was recovered and nothing else changed; when it fails nothing changed, unless the write of
    the sealed file itself failed, which leaves a prefix of the new file in place of the old. *)
Theorem reseal_keeps_key `{ShowSqlite} `{RowOrder} `{TpmLaws} env c h :
  selection_fits (pcr_selection c) → is_symlink (dir h) (sealed_file c) = false →
  match run_reseal env c h with
  | (Ok _, h') => ∃ key blob, recover_key env c h = Ok key ∧ tpm_unseal_bytes blob = Ok key ∧
      h' = set_dir (<[sealed_file c := File blob]> (dir h)) h
  | (Err _, h') => h' = h ∨ ∃ n e blob, sealed_write_fault env = Some (n, e) ∧
      h' = set_dir (<[sealed_file c := File (take n blob)]> (dir h)) h
  end.
Proof.
  intros Hfit Hl. unfold run_reseal. destruct (negb (bool_decide _)); [by left|].
  destruct compiled eqn:Hc; cbn [negb]; [|by left]. destruct (negb _); [by left|].
  unfold and_then, connect, ask. destruct (map_err _ (tpm_sealer_new _)); [|by left].
  destruct (recover_key env c h) as [key|e]; [|by left]. unfold on_dir.
  assert (∀ d, d = dir h → set_dir d h = h) as Hsame by (intros d ->; by destruct h).
  destruct (seal_key_to_file _ _ _ _ _) as [[[]|e] d] eqn:Es; cbn [map_err].
  - apply seal_to_file_ok in Es as (blob & Hb & ->); [|done]. exists key, blob. split_and!; [done| |done]. by eapply sealed_key_unseals.
  - apply seal_to_file_err in Es as [->|(n & msg & blob & Hw & _ & ->)]; [| |done].
    + left. by apply Hsame.
    + right. by exists n, msg, blob.
Qed.

(** ** A new key orphans nothing *)
Lemma write_key_artifact_store `{ShowSqlite} `{RowOrder} `{Sha256} `{TpmDevice} env c h r h' : write_key_artifact env c h = (r, h') → store h' = store h.
Proof.
  unfold write_key_artifact. assert (∀ A (f : FacelockError → Failure) (step : Dir → result A FacelockError * Dir) h r h', on_dir f step h = (r, h') → store h' = store h) as Hdir.
  { intros A f step h0 r0 h0'. unfold on_dir. destruct (step (dir h0)) as [x d]. intros E. apply (f_equal snd) in E. cbn in E. by rewrite <- E. }
  destruct (method (encryption c)); [by eauto|by eauto|].
  destruct compiled; [|by intros [= _ <-]]. unfold and_then, connect, ask.
  destruct (map_err _ _); [by eauto|by intros [= _ <-]].
Qed.

(** A replaced key file is a file of a host with no encrypted rows, or with no store at all. *)
Theorem new_key_orphans_nothing `{ShowSqlite} `{RowOrder} `{Sha256} `{Aead} `{TpmDevice} env c h : store_wf (store h) →
  let '(r, h') := run_encrypt env c true h in
  rows_of h' = rows_of h ∧ saved (store h') = None ∧
  (dir h' = dir h ∨ (∃ p, store_opens env = Some (Absent p)) ∨ ∀ e, e ∈ face_embeddings (rows_of h) → is_encrypted (e_embedding e) = false).
Proof.
  intros [_ Hsv]. cbn [run_encrypt]. unfold generate_key_serialized.
  destruct (store_opens env) as [e|].
  { destruct e; try (split_and!; [done|done|by left]).
    destruct (write_key_artifact env c h) as [r h'] eqn:Ew. apply write_key_artifact_store in Ew. unfold rows_of. rewrite Ew.
    split_and!; [done|done|]. right. left. by eexists. }
  unfold begin_tx. pose proof (exec_inside (λ d, Ok (tt, d)) (store h)) as (Hb & _ & _).
  destruct (exec _ (store h)) as [[[]|e] s1] eqn:E1; cbn [snd] in Hb.
  2: { apply exec_err in E1. unfold rows_of. cbn. split_and!; [done|congruence|by left]. }
  apply exec_ok in E1. injection E1 as E1. rewrite Hb, Hsv.
  set (s2 := set_saved (Some (db s1)) s1). destruct (key_creation_refusal c s2) as [[m|] s3] eqn:Er.
  { apply creation_refusal_same in Er as [Hdb (Hs & _ & _)]. destruct (rollback_saved s3 (db s1)) as [G1 G2]; [by rewrite Hs|].
    unfold rows_of. cbn. rewrite G2. split_and!; [done|done|by left]. }
  pose proof (creation_refusal_same _ _ _ _ Er) as [Hdb (Hs & _ & _)].
  assert (∀ e, e ∈ face_embeddings (rows_of h) → is_encrypted (e_embedding e) = false) as Hplain.
  { unfold key_creation_refusal in Er. destruct (encrypted_rows_at_risk c s2) as [[m|] s4] eqn:Ea; [done|].
    pose proof (at_risk_none _ _ _ Ea) as Hrisk. cbn in Hrisk. unfold rows_of. by rewrite E1. }
  destruct (write_key_artifact env c (set_store s3 h)) as [[u|e] h3] eqn:Ew; apply write_key_artifact_store in Ew; cbn in Ew; rewrite Ew.
  2: { destruct (rollback_saved s3 (db s1)) as [G1 G2]; [by rewrite Hs|]. unfold rows_of. cbn. rewrite G2. split_and!; [done|done|by right; right]. }
  unfold commit. pose proof (exec_inside (λ d, Ok (tt, d)) s3) as (Hc & _ & _).
  destruct (exec _ s3) as [[[]|e] s4] eqn:E3; cbn [snd] in Hc.
  - apply exec_ok in E3. injection E3 as E3. unfold rows_of. cbn. split_and!; [by rewrite <- E3, Hdb|done|by right; right].
  - destruct (rollback_saved s4 (db s1)) as [G1 G2]; [by rewrite Hc, Hs|]. unfold rows_of. cbn. rewrite G2. split_and!; [done|done|by right; right].
Qed.

(** ** Baselines *)
Lemma read_current_indices `{PcrBank} indices vs : read_current indices = Ok vs → map fst vs = indices.
Proof.
  unfold read_current. destruct indices as [|i indices]; [by intros [= <-]|]. destruct (pcr_slots _); [|done].
  destruct (map_err _ _) as [digests|]; [|done]. destruct (Nat.eqb_spec (length digests) (length (i :: indices))) as [E|]; [|done].
  intros E'. apply (f_equal (λ r, match r with Ok l => map fst l | Err _ => [] end)) in E'. rewrite <- E'. clear E'.
  revert digests E. generalize (i :: indices). intros l.
  induction l as [|j l IH]; intros [|d digests] E; cbn in *; try done. f_equal. apply IH. lia.
Qed.

Lemma digests_agree (l cur : list (Z * list Z)) : map fst l = map fst cur →
  forallb (λ '(v, c), bool_decide (snd v = snd c)) (zip l cur) = true ↔ cur = l.
Proof.
  revert cur. induction l as [|[i d] l IH]; intros [|[i' d'] cur]; cbn; try done. intros [= <- Hl].
  rewrite andb_true_iff, bool_decide_eq_true, IH by done. split; [by intros [-> ->]|by intros [= -> ->]].
Qed.

(** A baseline verifies exactly against registers that hold the digests it was captured with. *)
Lemma baseline_verifies (before after : PcrBank) indices b : capture_baseline (H := before) indices = Ok b →
  ∀ ok, verify_against_baseline (H := after) b = Ok ok → ok = true ↔ capture_baseline (H := after) indices = Ok b.
Proof.
  unfold capture_baseline. destruct (read_current (H := before) indices) as [vs|] eqn:Eb; [|done]. intros [= <-] ok Hv.
  pose proof (read_current_indices (H := before) indices vs Eb) as Hidx. unfold verify_against_baseline in Hv. cbn [values] in Hv.
  destruct vs as [|v vs].
  { cbn in Hidx. subst indices. by injection Hv as <-. }
  remember (v :: vs) as l eqn:El. rewrite Hidx in Hv. destruct (read_current (H := after) indices) as [cur|] eqn:Ea; [|done].
  pose proof (read_current_indices (H := after) indices cur Ea) as Hidx'. injection Hv as <-.
  etransitivity; [apply digests_agree; congruence|]. split; [by intros ->|by intros [= ->]].
Qed.

(** The TPM answers a selection, which has no order: a list of registers that is not ascending is
    given the digests of other registers. *)
Definition ascending_bank : PcrBank :=
  {| pcr_connect _ := Ok tt; pcr_read sel := Ok (map (λ i, [i]) (merge_sort Z.le (elements sel))) |}.

Example registers_are_mislabelled : read_current (H := ascending_bank) [7; 0] = Ok [(7, [0]); (0, [7])].
Proof. by vm_compute. Qed.

(** A section header with a comment is found by the one test and missed by the other: the method
    stays what it was, and no error is reported. *)
Example method_is_not_updated :
  let text := "[encryption] # at rest" +:+ String newline "" +:+ "method = " +:+ dq +:+ "keyfile" +:+ dq +:+ String newline "" in
  edit_method config_default "tpm" text = text.
Proof. by vm_compute. Qed.

(** ** A concrete host *)
#[local] Instance show_sqlite_plain : ShowSqlite := λ _, "sqlite error".
#[local] Instance sum_hash : Sha256 := {| sha256 l := repeat (foldl Z.add 0 l mod 256) 32 |}.
#[local] Existing Instance toy_aead.
#[local] Existing Instance toy_aead_laws.
#[local] Existing Instance nan_x86.

(** A TPM that keeps nothing: the private area is what was sealed. *)
#[local] Instance open_tpm : TpmDevice := {|
  compiled := true; tpm_connect _ := Ok tt;
  tpm_create data pcr := if bool_decide (Forall is_byte data) then Ok ([], data) else Err (Tpm "not bytes");
  tpm_unseal _ _ priv := Ok priv |}.

Lemma open_tpm_laws : TpmLaws.
Proof.
  split; cbn; intros data pcr pub priv; case_bool_decide; try done; intros [= <- <-]; [done|].
  split_and!; [constructor|done|unfold is_u32; cbn; lia].
Qed.
#[local] Existing Instance open_tpm_laws.

Definition calm_commands : CommandEnv :=
  {| key_env := calm_env; store_opens := None; nonces n := repeat (Z.of_nat n mod 256) 12; key_open_fault := None;
     key_write_fault := None; sealed_open_fault := None; sealed_write_fault := None; config_read_fault := None;
     config_open_fault := None; config_write_fault := None |}.

Definition enrolled_store : FaceStore :=
  run_op (fresh_store (λ _, None))
    (OpReplace (Some 5) "alice" "default" (repeat (repeat 1 RAW_EMBEDDING_SIZE) 3) false "m" None None).
Definition enrolled_host : Host := {| store := enrolled_store; dir := ∅; config_text := None |}.

Lemma enrolled_wf : store_wf (store enrolled_host).
Proof. apply run_op_wf. exact (conj db_empty_wf eq_refl). Qed.

Lemma encryption_keeps_templates_witness :
  let out := run_encrypt calm_commands config_default false enrolled_host in
  fst out = Ok tt ∧ all_encrypted (rows_of (snd out)).
Proof.
  intros out. assert (fst out = Ok tt) as Hok by (vm_compute; reflexivity). split; [exact Hok|].
  pose proof (encryption_keeps_templates calm_commands config_default enrolled_host enrolled_wf) as Hkeep.
  fold out in Hkeep. destruct out as [r h']. exact (proj2 Hkeep Hok).
Defined.

(** An update fails in the middle: one row is sealed and two are not. *)
Definition faulty_host : Host :=
  {| store := run_op (fresh_store (fails_at 19)) (OpReplace (Some 5) "alice" "default" (repeat (repeat 1 RAW_EMBEDDING_SIZE) 3) false "m" None None);
     dir := ∅; config_text := None |}.

Lemma faulty_wf : store_wf (store faulty_host).
Proof. unfold faulty_host. cbn [store]. apply run_op_wf. exact (conj db_empty_wf eq_refl). Qed.

Lemma faulty_plain e : e ∈ face_embeddings (rows_of faulty_host) → plain e.
Proof.
  assert (forallb (λ e, Nat.eqb (length (e_embedding e)) RAW_EMBEDDING_SIZE && (e_sealed e =? 0)) (face_embeddings (rows_of faulty_host)) = true)
    as Hall by (vm_compute; reflexivity).
  rewrite forallb_forall in Hall. intros He. apply list_elem_of_In, Hall, andb_true_iff in He as [H1 H2].
  split; [by apply Nat.eqb_eq|by apply Z.eqb_eq].
Qed.

Lemma decryption_inverts_encryption_witness :
  let mid := run_encrypt calm_commands config_default false faulty_host in
  let out := run_decrypt calm_commands config_default (snd mid) in
  fst mid ≠ Ok tt ∧ map e_sealed (face_embeddings (rows_of (snd mid))) = [1; 0; 0] ∧
  face_embeddings (rows_of (snd out)) = face_embeddings (rows_of faulty_host).
Proof.
  intros mid out. split; [vm_compute; discriminate|]. split; [vm_compute; reflexivity|].
  assert (fst out = Ok tt) as Hok by (vm_compute; reflexivity).
  assert (obtain_sealer calm_commands config_default (snd mid) = Ok (from_key (repeat 7 32))) as Hkey by (vm_compute; reflexivity).
  assert (∀ n, length (nonces calm_commands n) = AES_NONCE_SIZE) as Hn by (intros n; apply repeat_length).
  pose proof (decryption_inverts_encryption calm_commands config_default calm_commands config_default faulty_host (from_key (repeat 7 32))
    faulty_wf faulty_plain Hn Hkey Hkey) as Hback.
  fold mid in Hback. fold out in Hback. destruct out as [r h2]. destruct Hback as [_ H].
  exact (H Hok).
Defined.

(** A host whose key is a file, and one whose key is sealed. *)
Definition key_host : Host :=
  {| store := enrolled_store; dir := {[ key_file config_default := File (repeat 7 32) ]}; config_text := Some "" |}.

Lemma key_migration_roundtrip_witness :
  let h1 := snd (seal_key calm_commands config_default key_host) in
  let out := unseal_key calm_commands config_default (without (key_file config_default) h1) in
  fst out = Ok tt ∧ ∃ key, dir (snd out) !! key_file config_default = Some (File key) ∧ length key = 32%nat.
Proof.
  intros h1 out. assert (fst out = Ok tt) as Hok by (vm_compute; reflexivity). split; [exact Hok|].
  destruct (key_migration_roundtrip calm_commands calm_commands config_default key_host tt h1 tt (snd out) I
    ltac:(vm_compute; reflexivity) ltac:(vm_compute; discriminate)) as (key & blob & _ & Hlen & Hk & _).
  - vm_compute. reflexivity.
  - rewrite <- Hok. fold out. by destruct out.
  - exists key. split; [exact Hk|exact Hlen].
Defined.

Definition tpm_config : Config :=
  {| device := device_default; recognition := recognition_default; daemon := daemon_default;
     storage := storage_default; security := security_default; notification := notification_default;
     snapshots := snapshots_default; tpm := tpm_default;
     encryption := {| method := EncTpm; key_path := "/etc/facelock/encryption.key"; sealed_key_path := "/etc/facelock/encryption.key.sealed" |};
     audit := audit_default; polkit := polkit_default; pam := pam_default |}.
Definition sealed_host : Host := snd (seal_key calm_commands tpm_config key_host).

Lemma reseal_keeps_key_witness :
  let out := run_reseal calm_commands tpm_config sealed_host in
  fst out = Ok tt ∧ ∃ key blob, recover_key calm_commands tpm_config sealed_host = Ok key ∧
    tpm_unseal_bytes blob = Ok key ∧ snd out = set_dir (<[sealed_file tpm_config := File blob]> (dir sealed_host)) sealed_host.
Proof.
  intros out. assert (fst out = Ok tt) as Hok by (vm_compute; reflexivity). split; [exact Hok|].
  pose proof (reseal_keeps_key calm_commands tpm_config sealed_host I ltac:(vm_compute; reflexivity)) as Hkeep.
  fold out in Hkeep. destruct out as [[u|e] h']; [exact Hkeep|discriminate Hok].
Defined.

Lemma new_key_orphans_nothing_witness :
  let out := run_encrypt calm_commands config_default true enrolled_host in
  fst out = Ok tt ∧ rows_of (snd out) = rows_of enrolled_host.
Proof.
  intros out. assert (fst out = Ok tt) as Hok by (vm_compute; reflexivity). split; [exact Hok|].
  pose proof (new_key_orphans_nothing calm_commands config_default enrolled_host enrolled_wf) as Hnew.
  fold out in Hnew. destruct out as [r h']. exact (proj1 Hnew).
Defined.
