(* ===== verification/Markers.v ===== *)
(** * Markers: the state directory and the enrollment markers in it

    [facelock-cli/src/state_layout.rs] and [commands/enrollment_marker.rs], with the calls of
    [facelock-core/src/fs_security.rs] they make, over the file system and the failing,
    interruptible steps of [PamWorld.v]; and what [facelock is-enrolled] ([is_enrolled.rs]) reads.
    A link is not followed inside this world: what it leads to is elsewhere. *)

From stdpp Require Import gmap.
From S2P Require Import Prelude Text Provenance Config Store Sealing PamDocument PamFiles PamWorld PamState.

(** ** System calls on paths ([fs_security.rs]) *)

(** A path that names an entry of a directory. *)
Definition entry_of_path (p : string) : option Name :=
  match parent p, file_name p with Some d, Some n => Some (d, n) | _, _ => None end.

Definition is_directory_error : IoError := io_error OtherKind "Is a directory (os error 21)".

(** [mkdir]: a directory needs one above it. *)
Definition create_dir (d : string) (m : Z) : Io unit :=
  change (λ w,
    match directories_of w !! d, entry_at w d with
    | None, None =>
        if is_some_and (λ p, negb (is_empty_str p) && negb (is_some (directories_of w !! p))) (parent d) then (Err not_found, w)
        else
          (Ok tt, with_directories
             (<[d := {| file_type := IsDirectory; dev := 0; ino := next_ino w; nlink := 2;
                        mode := Z.lor 16384 (Z.land (Z.land m 4095) (Z.lnot (umask w)));
                        uid := fst (user w); gid := snd (user w); len := 0 |}]> (directories_of w)) w)
    | _, _ => (Err exists_error, w)
    end).

Definition is_directory (p : string) : Io bool :=
  observe (λ fs, Ok (match metadata fs p with Ok m => bool_decide (file_type m = IsDirectory) | Err _ => false end)).

(** [std::fs::create_dir_all], on the components of a path, the last one first. *)
Fixpoint create_dir_all_rev (rcs : list Component) : Io unit :=
  match rcs with
  | [] => mret tt
  | c :: up =>
      let d := path_of (rev rcs) in
      made ← catch (create_dir d 511);
      match made with
      | Ok _ => mret tt
      | Err e =>
          if is_not_found e then
            match c, up with
            | RootDir, [] => raise (other_error "failed to create whole tree")
            | _, _ => create_dir_all_rev up
            end;;
            again ← catch (create_dir d 511);
            match again with
            | Ok _ => mret tt
            | Err e => there ← is_directory d; if (there : bool) then mret tt else raise e
            end
          else there ← is_directory d; if (there : bool) then mret tt else raise e
      end
  end.
Definition create_dir_all (d : string) : Io unit := create_dir_all_rev (rev (components d)).

(** [chmod] and [chown] follow links out of this world. *)
Definition alter_entry (k : Name) (f : Entry → Entry) : Io unit :=
  change (λ w,
    match entries w !! k with
    | None => (Err not_found, w)
    | Some e => (Ok tt, if bool_decide (e_type e = IsSymlink) then w else with_entries (<[k := f e]> (entries w)) w)
    end).

Definition mode_bits (m : Z) (e : Entry) : Entry := set_mode (Z.lor (Z.land (e_mode e) 61440) (Z.land m 4095)) e.
Definition owned_by (u g : Z) (e : Entry) : Entry := set_owner u g (set_mode (Z.land (e_mode e) (Z.lnot 3072)) e).

Definition set_permissions (p : string) (m : Z) : Io unit :=
  d ← look (λ w, is_some (directories_of w !! p));
  if (d : bool) then chmod_directory p m
  else match entry_of_path p with Some k => alter_entry k (mode_bits m) | None => raise not_found end.

Definition chown_path (p : string) (u g : Z) : Io unit :=
  d ← look (λ w, is_some (directories_of w !! p));
  if (d : bool) then chown_directory p u g
  else match entry_of_path p with Some k => alter_entry k (owned_by u g) | None => raise not_found end.

Definition ensure_mode (p : string) (m : Z) : Io unit :=
  there ← observe (λ fs, Ok (is_ok (metadata fs p)));
  if (there : bool) then set_permissions p m else mret tt.

Definition ensure_dir (p : string) (m : Z) : Io unit := create_dir_all p;; ensure_mode p m.

Definition is_shared_system_dir (p : string) : bool :=
  existsb (path_eqb p) ["/"; "/tmp"; "/var/tmp"; "/var"; "/etc"; "/var/lib"; "/var/log"; "/run"; "/home"; "/root"; "/usr"; "/opt"].

Definition ensure_private_dir (p : string) (m : Z) : Io unit :=
  if is_shared_system_dir p
  then raise (io_error InvalidInput ("refusing to manage shared system directory " +:+ p +:+ "; configure a dedicated facelock path"))
  else ensure_dir p m.

(** [open] with [O_CREAT | O_TRUNC]. A link's target is opened elsewhere: the handle is no file of
    this world. *)
Definition open_truncate (d n : string) (m : Z) : Io Handle :=
  change (λ w,
    match directories_of w !! d, entries w !! (d, n) with
    | None, _ => (Err not_found, w)
    | Some dm, None =>
        let e := {| e_type := IsRegular; e_dev := dev dm; e_ino := next_ino w; e_links := 1;
                    e_mode := Z.lor S_IFREG (Z.land (Z.land m 4095) (Z.lnot (umask w)));
                    e_uid := fst (user w); e_gid := snd (user w); e_bytes := [] |} in
        (Ok {| h_dir := d; h_name := n; h_ino := next_ino w |},
         {| entries := <[(d, n) := e]> (entries w); directories_of := directories_of w;
            next_ino := next_ino w + 1; clock := clock w; user := user w; umask := umask w;
            process_id := process_id w; ours := next_ino w :: ours w; removed := removed w |})
    | Some _, Some e =>
        match e_type e with
        | IsDirectory => (Err is_directory_error, w)
        | IsSymlink => (Ok {| h_dir := d; h_name := n; h_ino := -1 |}, w)
        | _ => (Ok {| h_dir := d; h_name := n; h_ino := e_ino e |}, with_entries (<[(d, n) := set_bytes [] e]> (entries w)) w)
        end
    end).

Definition exists_at (d n : string) : Io bool := observe (λ fs, Ok (is_ok (open_at fs d n))).

Definition create_truncate_file (d n : string) (m : Z) : Io Handle :=
  create_dir_all d;;
  h ← open_truncate d n m;
  there ← exists_at d n;
  (if (there : bool) then alter_entry (d, n) (mode_bits m) else mret tt);;
  mret h.

Definition write_file (d n : string) (content : bytes) (m : Z) : Io unit :=
  h ← create_truncate_file d n m;
  write_all h content;;
  sync_all.

Definition chown_to (d n : string) (u g : Z) : Io unit := alter_entry (d, n) (owned_by u g).

(** [rename], which replaces its destination *)
Definition rename (d source destination : string) : Io unit :=
  change (λ w,
    match entries w !! (d, source), directories_of w !! (d +:+ "/" +:+ destination) with
    | None, _ => (Err not_found, w)
    | Some _, Some _ => (Err is_directory_error, w)
    | Some e, None =>
        if is_some_and (λ o, bool_decide (e_type o = IsDirectory)) (entries w !! (d, destination))
        then (Err is_directory_error, w)
        else (Ok tt, with_entries (<[(d, destination) := e]> (delete (d, source) (entries w))) w)
    end).

(** ** The layout ([state_layout.rs]) *)
Definition ENROLLED_DIR_NAME : string := "enrolled".
Definition MODELS_DIR_NAME : string := "models".
Definition PAM_BACKUPS_DIR : string := "/var/lib/facelock/pam-backups".
Definition STATE_DIR_MODE : Z := 457. (* 0o711 *)
Definition MODELS_DIR_MODE : Z := 493. (* 0o755 *)
Definition ENROLLED_DIR_MODE : Z := 457. (* 0o711 *)
Definition PAM_BACKUPS_DIR_MODE : Z := 448. (* 0o700 *)
Definition DB_FILE_MODE : Z := 384. (* 0o600 *)
Definition SIDECAR_SUFFIXES : list string := ["-wal"; "-shm"].

Definition state_dir_for_db (db_path : string) : option string :=
  match parent db_path with Some p => if is_empty_str p then None else Some p | None => None end.

Record StateLayout := { state_dir : string; models_dir : string; enrolled_dir : string; pam_backups_dir : string; l_db_path : string }.

Definition from_db_path (db_path : string) : option StateLayout :=
  (λ d, {| state_dir := d; models_dir := join d MODELS_DIR_NAME; enrolled_dir := join d ENROLLED_DIR_NAME;
           pam_backups_dir := PAM_BACKUPS_DIR; l_db_path := db_path |}) <$> state_dir_for_db db_path.

Definition layout_from_config (c : Config) : option StateLayout :=
  (λ l, {| state_dir := state_dir l; models_dir := model_dir (daemon c); enrolled_dir := enrolled_dir l;
           pam_backups_dir := pam_backups_dir l; l_db_path := l_db_path l |}) <$> from_db_path (db_path (storage c)).

(** [Path::starts_with] *)
Definition path_starts_with (p base : string) : bool :=
  bool_decide (take (length (components base)) (components p) = components base).

Definition dir_specs (l : StateLayout) : list (string * Z) :=
  [(state_dir l, STATE_DIR_MODE)] ++
  (if path_starts_with (models_dir l) (state_dir l) then [(models_dir l, MODELS_DIR_MODE)] else []) ++
  [(enrolled_dir l, ENROLLED_DIR_MODE); (pam_backups_dir l, PAM_BACKUPS_DIR_MODE)].

Definition db_files (l : StateLayout) : list string := l_db_path l :: map (λ s, l_db_path l +:+ s) SIDECAR_SUFFIXES.

Definition chown_root (p : string) : Io unit :=
  map_error (λ e, other_error ("failed to chown " +:+ p +:+ " to root:root: " +:+ io_text e)) (chown_path p 0 0).

Definition apply_dir (p : string) (m : Z) (enforce_owner : bool) : Io unit :=
  current ← observe (λ fs, Ok (match metadata fs p with
    | Ok md => if bool_decide (file_type md = IsDirectory) then Some md else None
    | Err _ => None
    end));
  (if is_some_and (λ md, Z.land (mode md) 4095 =? m) current then mret tt
   else map_error (λ e, other_error ("failed to create or secure " +:+ p +:+ ": " +:+ io_text e)) (ensure_private_dir p m));;
  if negb enforce_owner || is_some_and (λ md, (uid md =? 0) && (gid md =? 0)) current then mret tt else chown_root p.

Definition apply_file (p : string) (m : Z) (enforce_owner : bool) : Io unit :=
  found ← observe (λ fs, Ok (metadata fs p));
  match found with
  | Err _ => mret tt
  | Ok md =>
      if negb (bool_decide (file_type md = IsRegular)) then mret tt
      else
        (if Z.land (mode md) 4095 =? m then mret tt
         else map_error (λ e, other_error ("failed to chmod " +:+ p +:+ ": " +:+ io_text e)) (set_permissions p m));;
        if enforce_owner && negb ((uid md =? 0) && (gid md =? 0)) then chown_root p else mret tt
  end.

Fixpoint each {A} (f : A → Io unit) (l : list A) : Io unit :=
  match l with [] => mret tt | a :: l => f a;; each f l end.

Definition apply_layout (l : StateLayout) : Io unit :=
  me ← look (λ w, fst (user w));
  let enforce_owner := me =? 0 in
  each (λ '(p, m), apply_dir p m enforce_owner) (dir_specs l);;
  each (λ p, apply_file p DB_FILE_MODE enforce_owner) (db_files l).

Definition ensure_state_layout (c : Config) : Io unit :=
  match layout_from_config c with Some l => apply_layout l | None => mret tt end.

Definition ensure_state_layout_best_effort (c : Config) : Io unit := ignore (ensure_state_layout c).

(** ** Markers ([enrollment_marker.rs]) *)
Definition DEFAULT_MARKER_DIR : string := "/var/lib/facelock/enrolled".
Definition MARKER_FILE_MODE : Z := 384. (* 0o600 *)

Record Marker := { mk_models : Z; mk_updated : string }.

Inductive MarkerState := Enrolled (m : Marker) | Absent | Unreadable (reason : string).

(** [serde_json] on a marker, [chrono]'s rendering of the clock, and the accounts of the system. *)
Class MarkerJson := {
  marker_to_vec : Marker → result bytes string;
  marker_from_slice : bytes → result Marker string }.
Class Rfc3339 := rfc3339_secs : Z → string.
Class Accounts := from_name : string → result (option (Z * Z)) string.

Definition marker_dir_for_db (db_path : string) : option string :=
  (λ d, join d ENROLLED_DIR_NAME) <$> state_dir_for_db db_path.
Definition marker_dir (c : Config) : string := default DEFAULT_MARKER_DIR (marker_dir_for_db (db_path (storage c))).
Definition marker_dir_or_default (loaded : result Config string) : string :=
  match loaded with Ok c => marker_dir c | Err _ => DEFAULT_MARKER_DIR end.

Section markers.
Context {SD : ShowDebug} {MJ : MarkerJson} {RF : Rfc3339} {AC : Accounts}.

Definition marker_path (base user : string) : result Name IoError :=
  if is_empty_str user || String.eqb user "." || String.eqb user ".." || str_has_char slash user || str_has_char nul user
  then Err (io_error InvalidInput ("invalid user name: " +:+ debug_str user))
  else Ok (base, user).

Definition read_error_state (e : IoError) : MarkerState :=
  match io_kind e with NotFound | PermissionDenied => Absent | _ => Unreadable (io_text e) end.

Definition read_marker_in (base user : string) : Io MarkerState :=
  match marker_path base user with
  | Err e => mret (Unreadable (io_text e))
  | Ok (d, n) =>
      read ← observe (λ fs, Ok (let? file := open_at fs d n in file_bytes file));
      mret match read with
           | Err e => read_error_state e
           | Ok content =>
               match marker_from_slice content with
               | Ok marker => if mk_models marker =? 0 then Absent else Enrolled marker
               | Err e => Unreadable ("malformed marker " +:+ join d n +:+ ": " +:+ e)
               end
           end
  end.

Definition resolve_owner (user : string) : option (Z * Z) :=
  match from_name user with Ok (Some owner) => Some owner | _ => None end.

Definition marker_temp (user : string) (pid : Z) : string := "." +:+ user +:+ "." +:+ show_Z pid +:+ ".tmp".

Definition commit_marker (base tmp user : string) (body : bytes) (owner : option (Z * Z)) : Io unit :=
  write_file base tmp body MARKER_FILE_MODE;;
  match owner with Some (u, g) => chown_to base tmp u g | None => mret tt end;;
  rename base tmp user.

Definition write_marker_in (base user : string) (models : Z) (owner : option (Z * Z)) : Io unit :=
  final ← lift (marker_path base user);
  ensure_private_dir base ENROLLED_DIR_MODE;;
  now ← look clock;
  body ← lift (map_err other_error (marker_to_vec {| mk_models := models; mk_updated := rfc3339_secs now |}));
  pid ← look process_id;
  let tmp := marker_temp user pid in
  commit ← catch (commit_marker base tmp user body owner);
  (if is_ok commit then mret tt else ignore (unlinkat base tmp));;
  lift commit.

Definition remove_marker_in (base user : string) : Io unit :=
  final ← lift (marker_path base user);
  removed ← catch (unlinkat (fst final) (snd final));
  match removed with
  | Ok _ => mret tt
  | Err e => if is_not_found e then mret tt else raise e
  end.

Definition set_marker_in (base user : string) (models : Z) (owner : option (Z * Z)) : Io unit :=
  if models =? 0 then remove_marker_in base user else write_marker_in base user models owner.

(** The hooks: best effort. *)
Definition set_marker (c : Config) (user : string) (models : Z) : Io unit :=
  ignore (set_marker_in (marker_dir c) user models (resolve_owner user)).
Definition forget (c : Config) (user : string) : Io unit := ignore (remove_marker_in (marker_dir c) user).

(** [count] is what the caller's backend says, if it can. *)
Definition refresh (count : option Z) (c : Config) (user : string) : Io unit :=
  match count with None => mret tt | Some models => set_marker c user models end.

(** *** Rebuilding every marker from the database *)
Definition prune_entry (base : string) (keep : list string) (e : DirEntry) : Io unit :=
  match entry_name e with
  | None => mret tt
  | Some name =>
      if starts_with "." name then mret tt
      else if existsb (String.eqb name) keep then mret tt
      else ignore (unlinkat base name)
  end.

Definition prune_markers_in (base : string) (keep : list string) : Io unit :=
  entries ← catch (observe (λ fs, read_dir fs base));
  match entries with
  | Err e => if is_not_found e then mret tt else raise e
  | Ok entries => each (prune_entry base keep) entries
  end.

Context {SQ : ShowSqlite} {RO : RowOrder}.

Fixpoint reconcile_users (base : string) (wanted users : list string) (s : FaceStore) : Io (list string * FaceStore) :=
  match users with
  | [] => mret (wanted, s)
  | user :: users =>
      match list_models user s with
      | (Err _, s) => reconcile_users base wanted users s
      | (Ok models, s) =>
          let n := as_u32 (Z.of_nat (length models)) in
          if n =? 0 then reconcile_users base wanted users s
          else match resolve_owner user with
               | None => reconcile_users base wanted users s
               | Some owner =>
                   ignore (write_marker_in base user n (Some owner));;
                   reconcile_users base (wanted ++ [user]) users s
               end
      end
  end.

(** [opens] is why the database does not open. *)
Definition reconcile_all (c : Config) (db_exists : bool) (opens : option StoreError) (s : FaceStore) : Io FaceStore :=
  let base := marker_dir c in
  if negb db_exists then ensure_private_dir base ENROLLED_DIR_MODE;; mret s
  else
    match opens with
    | Some e => raise (other_error ("failed to open database: " +:+ store_error_to_string e))
    | None =>
        match list_users s with
        | (Err e, _) => raise (other_error ("failed to list enrolled users: " +:+ store_error_to_string e))
        | (Ok users, s) =>
            ensure_private_dir base ENROLLED_DIR_MODE;;
            done ← reconcile_users base [] users s;
            prune_markers_in base (fst done);;
            mret (snd done)
        end
    end.

Definition reconcile_enrollment_markers (c : Config) (db_exists : bool) (opens : option StoreError) (s : FaceStore) : Io unit :=
  ignore (reconcile_all c db_exists opens s).

(** ** [facelock is-enrolled] *)
Definition EXIT_ENROLLED : Z := 0.
Definition EXIT_NOT_ENROLLED : Z := 1.
Definition EXIT_ERROR : Z := 2.

Definition exit_code (s : MarkerState) : Z :=
  match s with Enrolled _ => EXIT_ENROLLED | Absent => EXIT_NOT_ENROLLED | Unreadable _ => EXIT_ERROR end.

(** The exit code for the resolved user. *)
Definition run_is_enrolled (loaded : result Config string) (user : string) : Io Z :=
  state ← read_marker_in (marker_dir_or_default loaded) user; mret (exit_code state).
End markers.
