(* ===== verification/MarkersProofs.v ===== *)
(** * MarkersProofs: a marker is whole, private and its user's, or it is not there *)

From stdpp Require Import gmap sorting.
From S2P Require Import Prelude Text Float32 Provenance Config Store StoreProofs Sealing KeyFile Keyring PamDocument PamFiles PamWorld PamState PamLogic Markers.

(** ** Walking through the calls *)
Section rules.
Context (rely : World → World → Prop) `{!Reflexive rely} (J : World → Prop) (HJ : ∀ w w', J w → rely w w' → J w').

Lemma steady_observe {A} (f : Files → result A IoError) : keeps (rely:=rely) J (observe f) any.
Proof using HJ Reflexive0.
  apply triple_observe; [done|by intros; eapply HJ|]. intros w w' fs Hw Hr _. split; [by eapply HJ|done].
Qed.

Lemma steady_change {A} (f : World → result A IoError * World) : (∀ w, J w → J (snd (f w))) → keeps (rely:=rely) J (change f) any.
Proof using HJ Reflexive0.
  intros Hf. apply triple_change; [done|by intros; eapply HJ|..].
  - intros w w' e Hw Hr _. split; [by eapply HJ|done].
  - intros w w' Hw Hr. assert (J w') as Hw' by by eapply HJ. specialize (Hf w' Hw'). by destruct (f w') as [r w''].
Qed.

Lemma each_steady {A} (f : A → Io unit) l : (∀ a, keeps (rely:=rely) J (f a) any) → keeps (rely:=rely) J (each f l) any.
Proof. intros Hf. induction l as [|a l IH]; [by apply keeps_ret|]. cbn [each]. apply keeps_then; [apply Hf|intros ?; exact IH]. Qed.

(** *** Directories *)
Context (HD : ∀ w m, J w → (∀ d, is_Some (directories_of w !! d) → is_Some (m !! d)) → J (with_directories m w)).

Lemma steady_create_dir d m : keeps (rely:=rely) J (create_dir d m) any.
Proof using HJ HD Reflexive0.
  apply steady_change. intros w Hw. destruct (directories_of w !! d) eqn:Ed; [done|]. destruct (entry_at w d); [done|].
  destruct (is_some_and _ (parent d)); [done|]. apply HD; [done|]. intros d' [x Hx]. destruct (decide (d' = d)) as [->|]; [by rewrite lookup_insert_eq|].
  rewrite lookup_insert_ne by done. by exists x.
Qed.

Lemma steady_create_dir_all d : keeps (rely:=rely) J (create_dir_all d) any.
Proof using HJ HD Reflexive0.
  unfold create_dir_all. induction (rev (components d)) as [|c up IH]; [by apply keeps_ret|].
  cbn [create_dir_all_rev]. apply keeps_catch_then; [apply steady_create_dir|]. intros [x|e]; [by apply keeps_ret|].
  assert (∀ e, keeps (rely:=rely) J (there ← is_directory (path_of (rev (c :: up))); if (there : bool) then mret tt else raise e) any) as Hthere.
  { intros e'. apply keeps_then; [apply steady_observe|]. intros []; [by apply keeps_ret|by apply keeps_raise]. }
  destruct (is_not_found e); [|apply Hthere]. apply keeps_then.
  - destruct c, up; first [by apply keeps_raise|exact IH].
  - intros _. apply keeps_catch_then; [apply steady_create_dir|]. intros [x|e']; [by apply keeps_ret|apply Hthere].
Qed.

Lemma steady_alter_directory d f : keeps (rely:=rely) J (alter_directory d f) any.
Proof using HJ HD Reflexive0.
  apply steady_change. intros w Hw. destruct (directories_of w !! d); [|done]. apply HD; [done|].
  intros d' [x Hx]. destruct (decide (d' = d)) as [->|]; [by rewrite lookup_insert_eq|]. rewrite lookup_insert_ne by done. by exists x.
Qed.

(** [J] says that the directory is there, or leaves entries open to changes in place. *)
Context (base : string) (HS : (∀ w, J w → is_Some (directories_of w !! base)) ∨
  ∀ w k f, J w → is_Some (entries w !! k) → J (with_entries (alter f k (entries w)) w)).

Lemma steady_set_permissions m : keeps (rely:=rely) J (set_permissions base m) any.
Proof using All.
  unfold set_permissions. destruct HS as [Hdir|Halter].
  - intros w Hw s Hs. unfold look, mbind, Io_bind. destruct (Hdir w Hw) as [x ->]. cbn [is_some]. by apply steady_alter_directory.
  - apply keeps_then; [by apply keeps_look|]. intros []; [apply steady_alter_directory|].
    destruct (entry_of_path base) as [k|]; [|by apply keeps_raise]. apply steady_change. intros w Hw.
    destruct (entries w !! k) as [e|] eqn:Ee; [|done]. case_bool_decide; [done|]. cbn [snd].
    replace (<[k := mode_bits m e]> (entries w)) with (alter (mode_bits m) k (entries w)); [by apply Halter|].
    apply map_eq. intros k'. destruct (decide (k' = k)) as [->|]; [by rewrite lookup_alter_eq, Ee, lookup_insert_eq|].
    by rewrite lookup_alter_ne, lookup_insert_ne.
Qed.

Lemma steady_ensure_private_dir m : keeps (rely:=rely) J (ensure_private_dir base m) any.
Proof using All.
  unfold ensure_private_dir. destruct (is_shared_system_dir base); [by apply keeps_raise|].
  apply keeps_then; [apply steady_create_dir_all|]. intros _. unfold ensure_mode.
  apply keeps_then; [by apply steady_observe|]. intros []; [apply steady_set_permissions|by apply keeps_ret].
Qed.
End rules.

Section whole.
Context {SD : ShowDebug} {MJ : MarkerJson} {RF : Rfc3339} {AC : Accounts} {SQ : ShowSqlite} {RO : RowOrder}.
Context (base : string) (pid : Z).

(** No permission beyond the owner's to read and write. *)
Definition private (e : Entry) : Prop := Z.land (Z.land (e_mode e) 4095) (Z.lnot MARKER_FILE_MODE) = 0.

(** A marker: a regular private file of its user with a complete document. *)
Definition marker_of (u : string) (e : Entry) : Prop :=
  e_type e = IsRegular ∧ private e ∧ (∀ o, resolve_owner u = Some o → (e_uid e, e_gid e) = o) ∧
  ∃ m, marker_to_vec m = Ok (e_bytes e).

(** Every name that is not hidden holds a marker of the user it names. *)
Definition whole (w : World) : Prop :=
  ∀ u e, starts_with "." u = false → entries w !! (base, u) = Some e → marker_of u e.

(** What a process that was stopped may leave: its own temporary files. *)
Definition temps_regular (w : World) : Prop :=
  ∀ u e, entries w !! (base, marker_temp u pid) = Some e → e_type e = IsRegular ∧ private e.

Record usual (w : World) : Prop := {
  u_whole : whole w;
  u_temps : temps_regular w;
  u_dir : is_Some (directories_of w !! base);
  u_pid : process_id w = pid }.

(** The other processes run the same code: they leave whole what is whole, the directory in
    place, and this process's temporary files alone. *)
Record others (w w' : World) : Prop := {
  o_whole : whole w → whole w';
  o_temps u : entries w' !! (base, marker_temp u pid) = entries w !! (base, marker_temp u pid);
  o_dir : is_Some (directories_of w !! base) → is_Some (directories_of w' !! base);
  o_pid : process_id w' = process_id w }.

#[local] Instance others_reflexive : Reflexive others.
Proof. intros w. by split. Qed.

Lemma usual_others w w' : usual w → others w w' → usual w'.
Proof.
  intros [H1 H2 H3 H4] [O1 O2 O3 O4]. split; [auto| |auto|congruence]. intros u e. rewrite O2. apply H2.
Qed.

Definition tmp (u : string) : Name := (base, marker_temp u pid).

(** What a run knows of the temporary file of [u]. *)
Definition at_temp (u : string) (X : option Entry → Prop) (w : World) : Prop := usual w ∧ X (entries w !! tmp u).

Lemma at_temp_others u X w w' : at_temp u X w → others w w' → at_temp u X w'.
Proof. intros [Hu HX] Ho. split; [by eapply usual_others|]. unfold tmp. by rewrite (o_temps _ _ Ho). Qed.

Definition fills {A} (u : string) (X : option Entry → Prop) (c : Io A) (Y : A → option Entry → Prop) : Prop :=
  triple others (at_temp u X) c (λ r w, match r with Ok a => at_temp u (Y a) w | Err _ => usual w end) usual.

Lemma fills_bind {A B} u X (c : Io A) Y (k : A → Io B) Z : fills u X c Y → (∀ a, fills u (Y a) (k a) Z) → fills u X (c ≫= k) Z.
Proof. intros Hc Hk. eapply triple_bind; [exact Hc|exact Hk|done]. Qed.

Lemma fills_keeps {A} u X (c : Io A) : keeps (rely:=others) (at_temp u X) c any → fills u X c (λ _, X).
Proof. intros Hc. eapply triple_conseq; [exact Hc|done| |by intros w [? _]]. intros [a|e] w [[H1 H2] _]; [by split|done]. Qed.

Lemma fills_change {A} u X Y (f : World → result A IoError * World) :
  (∀ w, at_temp u X w → match f w with (Ok a, w') => at_temp u (Y a) w' | (Err _, w') => usual w' end) → fills u X (change f) Y.
Proof.
  intros Hf. apply triple_change; [typeclasses eauto|..].
  - intros w w' [Hw _] Ho. by eapply usual_others.
  - intros w w' e [Hw _] Ho _. by eapply usual_others.
  - intros w w' Hw Ho. specialize (Hf w' (at_temp_others _ _ _ _ Hw Ho)). by destruct (f w') as [[a|e] w''].
Qed.

Lemma fills_assume {A} u (X : option Entry → Prop) (c : Io A) Y :
  (∀ o, X o → fills u (eq o) c Y) → fills u X c Y.
Proof. intros H w [Hw HX] s Hs. by apply (H _ HX w (conj Hw eq_refl) s Hs). Qed.

Lemma at_temp_directories u X w m : at_temp u X w → (∀ d, is_Some (directories_of w !! d) → is_Some (m !! d)) → at_temp u X (with_directories m w).
Proof. intros [[H1 H2 H3 H4] HX] Hm. split; [|done]. split; auto. Qed.

(** *** The temporary file *)
Definition regular_private (e : Entry) : Prop := e_type e = IsRegular ∧ private e.

Lemma temp_hidden u : starts_with "." (marker_temp u pid) = true.
Proof. unfold marker_temp, starts_with. cbn. by destruct (u +:+ _). Qed.

(** Changing a temporary file to a regular private one leaves the rest usual. *)
Lemma usual_temp u w w' : usual w → (∀ e, entries w' !! tmp u = Some e → regular_private e) →
  (∀ k, k ≠ tmp u → entries w' !! k = entries w !! k) → directories_of w' = directories_of w → process_id w' = process_id w → usual w'.
Proof.
  intros [H1 H2 H3 H4] He Hk Hd Hp. split; [| |by rewrite Hd|congruence].
  - intros v e Hv. rewrite Hk; [by apply H1|]. intros [= ->]. by rewrite temp_hidden in Hv.
  - intros v e. destruct (decide (marker_temp v pid = marker_temp u pid)) as [E|E]; [rewrite E; apply He|].
    rewrite Hk; [apply H2|]. unfold tmp. congruence.
Qed.

Lemma private_created x : Z.land (Z.land (Z.lor S_IFREG (Z.land (Z.land MARKER_FILE_MODE 4095) x)) 4095) (Z.lnot MARKER_FILE_MODE) = 0.
Proof.
  rewrite Z.land_lor_distr_l. replace (Z.land S_IFREG 4095) with 0 by done. rewrite Z.lor_0_l.
  apply Z.bits_inj'. intros n Hn. rewrite !Z.land_spec, Z.lnot_spec, Z.bits_0 by done.
  by destruct (Z.testbit MARKER_FILE_MODE n); rewrite ?andb_false_r.
Qed.

Lemma private_mode_bits e : private (mode_bits MARKER_FILE_MODE e).
Proof. unfold private, mode_bits. cbn [e_mode set_mode]. by rewrite mode_bits_chmod. Qed.

Lemma private_owned u g e : private e → private (owned_by u g e).
Proof.
  unfold private, owned_by. cbn [e_mode set_mode set_owner]. intros He. apply Z.bits_inj'. intros n Hn.
  assert (Z.testbit (Z.land (Z.land (e_mode e) 4095) (Z.lnot MARKER_FILE_MODE)) n = false) as Hb by by rewrite He, Z.bits_0.
  revert Hb. rewrite !Z.land_spec, !Z.lnot_spec, Z.bits_0 by done. by destruct (Z.testbit (e_mode e) n), (Z.testbit 4095 n), (Z.testbit 3072 n).
Qed.

Definition present (F : Entry → Prop) (o : option Entry) : Prop := ∃ e, o = Some e ∧ regular_private e ∧ F e.

Lemma fills_rewrite {A} u F (G : A → Entry → Prop) (c : Io A) (act : A) (f : Entry → Entry) :
  c = change (λ w, match entries w !! tmp u with
                   | None => (Err not_found, w)
                   | Some e => (Ok act, if bool_decide (e_type e = IsSymlink) then w else with_entries (<[tmp u := f e]> (entries w)) w)
                   end) →
  (∀ e, regular_private e → F e → regular_private (f e) ∧ G act (f e)) → fills u (present F) c (λ a, present (G a)).
Proof.
  intros -> Hf. apply fills_change. intros w [Hw (e & He & [Ht Hp] & HF)]. rewrite He.
  rewrite bool_decide_eq_false_2 by congruence. destruct (Hf e (conj Ht Hp) HF) as [Hr HG]. split; [|exists (f e); cbn; by rewrite lookup_insert_eq].
  eapply (usual_temp u w); try done; cbn.
  - intros e'. rewrite lookup_insert_eq. by intros [= <-].
  - intros k Hk. by rewrite lookup_insert_ne.
Qed.

Definition opened_on (u : string) (h : Handle) (e : Entry) : Prop :=
  h_dir h = base ∧ h_name h = marker_temp u pid ∧ h_ino h = e_ino e.

Lemma open_temp u : fills u (λ o, ∀ e, o = Some e → regular_private e) (open_truncate base (marker_temp u pid) MARKER_FILE_MODE)
  (λ h, present (λ e, opened_on u h e ∧ e_bytes e = [])).
Proof.
  apply fills_change. intros w [Hw HX]. destruct (directories_of w !! base) as [dm|] eqn:Ed; [|done]. fold (tmp u).
  destruct (entries w !! tmp u) as [e|] eqn:Ee.
  - destruct (HX e eq_refl) as [Ht Hp]. rewrite Ht. assert (regular_private (set_bytes [] e)) as Hr by done.
    split; [|exists (set_bytes [] e); cbn; by rewrite lookup_insert_eq].
    eapply (usual_temp u w); try done; cbn; [by intros e'; rewrite lookup_insert_eq; intros [= <-]|].
    intros k Hk. by rewrite lookup_insert_ne.
  - cbv zeta. match goal with |- context [<[tmp u := ?x]> _] => set (new := x) end.
    assert (regular_private new) as Hr by (split; [done|apply private_created]).
    split; [|exists new; cbn; by rewrite lookup_insert_eq].
    eapply (usual_temp u w); try done; cbn; [by intros e'; rewrite lookup_insert_eq; intros [= <-]|].
    intros k Hk. by rewrite lookup_insert_ne.
Qed.

Lemma create_temp u : fills u (λ o, ∀ e, o = Some e → regular_private e) (create_truncate_file base (marker_temp u pid) MARKER_FILE_MODE)
  (λ h, present (λ e, opened_on u h e ∧ e_bytes e = [])).
Proof.
  unfold create_truncate_file. eapply fills_bind.
  { apply fills_keeps, steady_create_dir_all; [typeclasses eauto|apply at_temp_others|apply at_temp_directories]. }
  intros ?. eapply fills_bind; [apply open_temp|]. intros h. eapply fills_bind.
  { apply fills_keeps, steady_observe; [typeclasses eauto|apply at_temp_others]. }
  intros there. eapply fills_bind with (Y := λ _, present (λ e, opened_on u h e ∧ e_bytes e = [])).
  - destruct there; [|by apply triple_ret].
    eapply (fills_rewrite u _ (λ _ e, opened_on u h e ∧ e_bytes e = []) _ tt (mode_bits MARKER_FILE_MODE)); [reflexivity|].
    intros e [Ht _] HF. split; [|done]. split; [done|apply private_mode_bits].
  - intros ?. by apply triple_ret.
Qed.

Lemma write_temp u h content : fills u (present (λ e, opened_on u h e ∧ e_bytes e = [])) (write_all h content) (λ _, present (λ e, e_bytes e = content)).
Proof.
  apply triple_step; [typeclasses eauto|intros w w' [Hw _] Ho; by eapply usual_others|].
  intros ev w0 w _ Hw0 Ho. destruct (at_temp_others _ _ _ _ Hw0 Ho) as [Hw (e & He & Hr & (Hd & Hn & Hi) & _)].
  assert (∀ b, usual (update h (set_bytes b) w) ∧ entries (update h (set_bytes b) w) !! tmp u = Some (set_bytes b e)) as Hup.
  { intros b. unfold update, behind. rewrite Hd, Hn. fold (tmp u). rewrite He, Hi, Z.eqb_refl. cbn. rewrite lookup_insert_eq. split; [|done].
    eapply (usual_temp u w); try done; cbn; [by intros e'; rewrite lookup_insert_eq; intros [= <-]|].
    intros k Hk. by rewrite lookup_insert_ne. }
  destruct (failure ev) as [[err n]|]; [apply Hup|]. destruct (Hup content) as [H1 H2].
  split; [done|]. exists (set_bytes content e). by rewrite H2.
Qed.

Lemma temp_owned u content owner : fills u (present (λ e, e_bytes e = content))
  (match owner with Some (x, g) => chown_to base (marker_temp u pid) x g | None => mret tt end)
  (λ _, present (λ e, e_bytes e = content ∧ ∀ o, owner = Some o → (e_uid e, e_gid e) = o)).
Proof.
  destruct owner as [[x g]|].
  - eapply (fills_rewrite u _ (λ _ e, e_bytes e = content ∧ ∀ o, Some (x, g) = Some o → (e_uid e, e_gid e) = o) _ tt (owned_by x g)); [reflexivity|].
    intros e [Ht Hp] Hb. split; [split; [done|by apply private_owned]|]. split; [done|]. intros o [= <-]. done.
  - apply triple_ret. intros w [Hw (e & He & Hr & Hb)]. split; [done|]. exists e. by split_and!.
Qed.

(** The rename puts a marker in the place of a marker. *)
Lemma rename_usual u body : starts_with "." u = false → (∃ m, marker_to_vec m = Ok body) →
  triple others (at_temp u (present (λ e, e_bytes e = body ∧ ∀ o, resolve_owner u = Some o → (e_uid e, e_gid e) = o)))
    (rename base (marker_temp u pid) u) (λ _, usual) usual.
Proof.
  intros Hu Hm. eapply triple_conseq; [apply fills_change with (Y := λ _ _, True)|done|by intros [a|e] w; [intros [? _]|]|done].
  intros w [Hw (e & He & [Ht Hp] & Hb & Ho)]. fold (tmp u). rewrite He.
  destruct (directories_of w !! _); [exact Hw|]. destruct (is_some_and _ (entries w !! (base, u))); [exact Hw|]. split; [|done].
  destruct Hw as [H1 H2 H3 H4].
  split; cbn; [| |done|done].
  - intros v e' Hv. cbn. destruct (decide (v = u)) as [->|Hvu].
    + rewrite lookup_insert_eq. intros [= <-]. split_and!; [done|done|done|]. destruct Hm as [m Hm]. exists m. congruence.
    + rewrite lookup_insert_ne by congruence. intros [_ Hl]%lookup_delete_Some. by apply (H1 v).
  - intros v e'. cbn. rewrite lookup_insert_ne; [intros [_ Hl]%lookup_delete_Some; by eapply H2|].
    intros [= ->]. by rewrite temp_hidden in Hu.
Qed.

Definition steadily {A} (c : Io A) : Prop := keeps (rely:=others) usual c any.

Lemma commit_usual u body : starts_with "." u = false → (∃ m, marker_to_vec m = Ok body) →
  steadily (commit_marker base (marker_temp u pid) u body (resolve_owner u)).
Proof.
  intros Hu Hm. eapply triple_conseq with (P' := at_temp u (λ o, ∀ e, o = Some e → regular_private e)) (Q' := λ _, usual) (K' := usual);
    [|intros w Hw; split; [done|intros e; apply (u_temps w Hw)]|done|done].
  unfold commit_marker. eapply triple_bind; [|intros ?|].
  { unfold write_file. eapply fills_bind; [apply create_temp|]. intros h. eapply fills_bind; [apply write_temp|]. intros ?.
    apply fills_keeps, steady_change; [typeclasses eauto|apply at_temp_others|done]. }
  2: done.
  eapply triple_bind; [apply temp_owned|intros ?|done]. by apply rename_usual.
Qed.

Lemma steady_unlink n : steadily (unlinkat base n).
Proof.
  apply steady_change; [typeclasses eauto|apply usual_others|]. intros w Hw. destruct (entries w !! (base, n)); [|done].
  case_bool_decide; [done|]. destruct Hw as [H1 H2 H3 H4]. split; [| |done|done]; unfold whole, temps_regular; cbn.
  - intros v e' Hv [_ Hl]%lookup_delete_Some. by eapply H1.
  - intros v e' [_ Hl]%lookup_delete_Some. by eapply H2.
Qed.

Lemma usual_directories w m : usual w → (∀ d, is_Some (directories_of w !! d) → is_Some (m !! d)) → usual (with_directories m w).
Proof. intros [H1 H2 H3 H4] Hm. by split; auto. Qed.

Lemma write_marker_usual u models : starts_with "." u = false → steadily (write_marker_in base u models (resolve_owner u)).
Proof.
  intros Hu. unfold write_marker_in. apply keeps_then; [by apply keeps_lift|intros final].
  apply keeps_then; [apply steady_ensure_private_dir; [typeclasses eauto|apply usual_others|apply usual_directories|left; apply u_dir]|intros ?].
  apply keeps_then; [by apply keeps_look|intros now].
  eapply keeps_bind with (R1 := λ r, ∀ b, r = Ok b → ∃ m, marker_to_vec m = Ok b); [| |by intros].
  { apply keeps_lift. intros b. destruct (marker_to_vec _) as [b'|err] eqn:Em; [|done]. intros [= <-]. by eexists. }
  intros body Hbody. eapply triple_bind with (M := λ r w, usual w ∧ r = Ok pid); [| |by intros err w [_ [=]]].
  { intros w Hw s Hs. split; [|done]. split; [done|]. cbn. f_equal. apply (u_pid w Hw). }
  intros pid' w [Hw [= ->]] s Hs. revert w Hw s Hs. cbv zeta.
  apply keeps_catch_then; [apply commit_usual; [done|by apply Hbody]|]. intros r. apply keeps_then; [|intros ?; by apply keeps_lift].
  destruct (is_ok r); [by apply keeps_ret|]. apply keeps_ignore_any, steady_unlink.
Qed.

Lemma remove_marker_usual u : steadily (remove_marker_in base u).
Proof.
  unfold remove_marker_in. eapply keeps_bind with (R1 := λ r, ∀ k, r = Ok k → fst k = base); [| |by intros].
  { apply keeps_lift. intros k. unfold marker_path. destruct (_ || _); [done|]. by intros [= <-]. }
  intros k Hk. rewrite (Hk k eq_refl). apply keeps_catch_then; [apply steady_unlink|]. intros [x|err]; [by apply keeps_ret|].
  destruct (is_not_found err); [by apply keeps_ret|by apply keeps_raise].
Qed.

Lemma set_marker_usual u models : starts_with "." u = false → steadily (set_marker_in base u models (resolve_owner u)).
Proof. intros Hu. unfold set_marker_in. destruct (models =? 0); [apply remove_marker_usual|by apply write_marker_usual]. Qed.

Lemma prune_usual keep : steadily (prune_markers_in base keep).
Proof.
  unfold prune_markers_in. apply keeps_catch_then; [apply steady_observe; [typeclasses eauto|apply usual_others]|]. intros [entries|err].
  - apply each_steady. intros x. unfold prune_entry. destruct (entry_name x) as [n|]; [|by apply keeps_ret].
    destruct (starts_with "." n); [by apply keeps_ret|]. destruct (existsb _ keep); [by apply keeps_ret|].
    apply keeps_ignore_any, steady_unlink.
  - destruct (is_not_found err); [by apply keeps_ret|by apply keeps_raise].
Qed.

Lemma reconcile_users_usual users : Forall (λ u, starts_with "." u = false) users → ∀ wanted s, steadily (reconcile_users base wanted users s).
Proof.
  induction 1 as [|u users Hu _ IH]; intros wanted s; cbn [reconcile_users]; [by apply keeps_ret|].
  destruct (list_models u s) as [[models|err] s']; [|apply IH]. cbv zeta. destruct (_ =? 0); [apply IH|].
  pose proof (λ n, write_marker_usual u n Hu) as Hw. destruct (resolve_owner u) as [o|]; [|apply IH].
  apply keeps_then; [apply keeps_ignore_any, Hw|intros ?; apply IH].
Qed.

(** *** The hooks *)
Definition visible_users (d : Db) : Prop := ∀ m, m ∈ face_models d → starts_with "." (m_user m) = false.

Lemma list_users_visible s users s' : list_users s = (Ok users, s') → visible_users (db s) → Forall (λ u, starts_with "." u = false) users.
Proof.
  intros Hq%query_map_ok Hv. apply Forall_forall. intros u Hin. apply list_elem_of_lookup in Hin as [i Hi].
  destruct (Forall2_lookup_r _ _ _ _ _ Hq Hi) as (u' & Hu' & [= <-]). apply list_elem_of_lookup_2 in Hu'.
  rewrite merge_sort_Permutation in Hu'. apply elem_of_remove_dups, list_elem_of_fmap in Hu' as (m & -> & Hm). by apply Hv.
Qed.

Lemma list_models_same u s r s' : list_models u s = (r, s') → db s' = db s ∧ same_conn s s'.
Proof. apply query_map_same. Qed.

Lemma list_users_same s r s' : list_users s = (r, s') → db s' = db s ∧ same_conn s s'.
Proof. apply query_map_same. Qed.
End whole.

(** What the program does to markers. *)
Inductive Hook :=
  | HookSet (user : string) (models : Z)
  | HookForget (user : string)
  | HookReconcile (db_exists : bool) (opens : option StoreError) (s : FaceStore).

Definition run_hook `{ShowDebug} `{MarkerJson} `{Rfc3339} `{Accounts} `{ShowSqlite} `{RowOrder} (c : Config) (h : Hook) : Io unit :=
  match h with
  | HookSet user models => set_marker c user models
  | HookForget user => forget c user
  | HookReconcile db_exists opens s => reconcile_enrollment_markers c db_exists opens s
  end.

Definition visible_hook (h : Hook) : Prop :=
  match h with HookSet u _ => starts_with "." u = false | HookForget _ => True | HookReconcile _ _ s => visible_users (db s) end.

(** [serde_json] reads what it wrote. *)
Class MarkerJsonLaws `{MarkerJson} := marker_json_inverse m b : marker_to_vec m = Ok b → marker_from_slice b = Ok m.

(** The user has an answer that is not an error. *)
Definition always_answered `{ShowDebug} `{MarkerJson} (base : string) (w : World) : Prop :=
  ∀ u k, starts_with "." u = false → marker_path base u = Ok k →
    ∃ st, read_marker_in base u w [] = (Done (Ok st), w, []) ∧ exit_code st ≠ EXIT_ERROR.

Section hooks.
Context {SD : ShowDebug} {MJ : MarkerJson} {RF : Rfc3339} {AC : Accounts} {SQ : ShowSqlite} {RO : RowOrder}.

Lemma hook_usual c pid h : visible_hook h → steadily (marker_dir c) pid (run_hook c h).
Proof.
  intros Hv. destruct h as [u n|u|ex opens s]; cbn [run_hook].
  - apply keeps_ignore_any. by apply set_marker_usual.
  - apply keeps_ignore_any. apply remove_marker_usual.
  - apply keeps_ignore_any. unfold reconcile_all.
    assert (steadily (marker_dir c) pid (ensure_private_dir (marker_dir c) ENROLLED_DIR_MODE)) as Hdir.
    { apply steady_ensure_private_dir; [intros w; by split|apply usual_others|apply usual_directories|left; apply u_dir]. }
    destruct (negb ex); [apply keeps_then; [exact Hdir|intros ?; by apply keeps_ret]|].
    destruct opens; [by apply keeps_raise|]. destruct (list_users s) as [[users|e] s'] eqn:El; [|by apply keeps_raise].
    apply keeps_then; [exact Hdir|intros ?]. apply keeps_then; [apply reconcile_users_usual; by eapply list_users_visible|intros [wanted s2]].
    apply keeps_then; [apply prune_usual|intros ?; by apply keeps_ret].
Qed.

Lemma usual_answered {ML : MarkerJsonLaws} base pid w : usual base pid w → always_answered base w.
Proof.
  intros Hw u k Hu Hk. unfold read_marker_in. rewrite Hk. unfold marker_path in Hk. destruct (_ || _); [done|]. injection Hk as <-.
  unfold observe, step, mbind, Io_bind, catch. cbn. destruct (entries w !! (base, u)) as [e|] eqn:Ee; cbn.
  - destruct (u_whole _ _ _ Hw u e Hu Ee) as (Ht & _ & _ & m & Hm). rewrite bool_decide_eq_false_2 by congruence. cbn.
    rewrite (marker_json_inverse _ _ Hm). eexists. split; [done|]. by destruct (mk_models m =? 0).
  - by eexists.
Qed.

(** C20.  Whatever hooks run, with other processes running them too, with any call failing and the
    process killed at any point: every marker is at every moment a complete, private file of its
    user or absent, so that a query of any user is answered and never an error. *)
Theorem markers_stay_whole {ML : MarkerJsonLaws} c pid hooks : Forall visible_hook hooks →
  let base := marker_dir c in
  triple (others base pid) (usual base pid) (each (run_hook c) hooks)
    (λ _ w, usual base pid w ∧ always_answered base w) (λ w, usual base pid w ∧ always_answered base w).
Proof.
  intros Hv base. assert (steadily base pid (each (run_hook c) hooks)) as Hrun.
  { induction Hv as [|h hooks Hh _ IH]; [by apply keeps_ret|]. cbn [each]. apply keeps_then; [by apply hook_usual|intros ?; exact IH]. }
  eapply triple_conseq; [exact Hrun|done| |]; cbn beta.
  - intros r w [Hw _]. split; [done|by eapply usual_answered].
  - intros w Hw. split; [done|by eapply usual_answered].
Qed.

(** *** Reconciling keeps what is enrolled *)
Section kept.
Context (base user : string) (Hvis : starts_with "." user = false).

Definition kept_here (w : World) : Prop := is_Some (entries w !! (base, user)).

(** The other processes do not take the marker away. *)
Definition leave_it (w w' : World) : Prop := kept_here w → kept_here w'.
#[local] Instance leave_it_reflexive : Reflexive leave_it.
Proof. by intros w H. Qed.
Abbreviation keeping c := (keeps (rely:=leave_it) kept_here c any).

Lemma kept_rely w w' : kept_here w → leave_it w w' → kept_here w'.
Proof. auto. Qed.

Lemma kept_insert w k e : kept_here w → kept_here (with_entries (<[k := e]> (entries w)) w).
Proof using.
  intros Hk. unfold kept_here. cbn. destruct (decide (k = (base, user))) as [->|]; [by rewrite lookup_insert_eq|]. by rewrite lookup_insert_ne.
Qed.

Lemma kept_alter w k f : kept_here w → is_Some (entries w !! k) → kept_here (with_entries (alter f k (entries w)) w).
Proof using.
  intros Hk [e He]. unfold kept_here. cbn. destruct (decide (k = (base, user))) as [->|]; [rewrite lookup_alter_eq, He; by eexists|].
  by rewrite lookup_alter_ne.
Qed.

Lemma keeping_change {A} (f : World → result A IoError * World) : (∀ w, kept_here w → kept_here (snd (f w))) → keeping (change f).
Proof using. apply steady_change; [typeclasses eauto|apply kept_rely]. Qed.

Lemma keeping_observe {A} (f : Files → result A IoError) : keeping (observe f).
Proof using. apply steady_observe; [typeclasses eauto|apply kept_rely]. Qed.

Lemma keeping_alter_entry k f : keeping (alter_entry k f).
Proof using.
  apply keeping_change. intros w Hw. destruct (entries w !! k); [|done]. cbn. case_bool_decide; [done|by apply kept_insert].
Qed.

Lemma keeping_dir d : keeping (create_dir_all d).
Proof using. apply steady_create_dir_all; [typeclasses eauto|apply kept_rely|by intros w m Hw _]. Qed.

Lemma keeping_private_dir m : keeping (ensure_private_dir base m).
Proof using.
  apply steady_ensure_private_dir; [typeclasses eauto|apply kept_rely|by intros w m' Hw _|right; intros; by apply kept_alter].
Qed.

Lemma keeping_unlink n : n ≠ user → keeping (unlinkat base n).
Proof using.
  intros Hn. apply keeping_change. intros w Hw. destruct (entries w !! (base, n)); [|done]. case_bool_decide; [done|].
  unfold kept_here. cbn. rewrite lookup_delete_ne by congruence. exact Hw.
Qed.

Lemma keeping_update h f w : kept_here w → kept_here (update h f w).
Proof using. intros Hw. unfold update. destruct (behind w h); [by apply kept_insert|done]. Qed.

Lemma keeping_write_all h content : keeping (write_all h content).
Proof using.
  apply triple_step; [typeclasses eauto|intros w w' Hw Hr; by apply Hr|]. intros ev w0 w _ Hw0 Hr. specialize (Hr Hw0).
  destruct (failure ev) as [[err n]|]; (split; [by apply keeping_update|done]).
Qed.

Lemma temp_is_not_user u pid : marker_temp u pid ≠ user.
Proof using Hvis. intros E. by rewrite <- E, temp_hidden in Hvis. Qed.

Lemma keeping_rename u pid v : keeping (rename base (marker_temp u pid) v).
Proof using Hvis.
  apply keeping_change. intros w Hw. destruct (entries w !! (base, marker_temp u pid)) as [e|]; [|done].
  destruct (directories_of w !! _); [done|]. destruct (is_some_and _ _); [done|]. unfold kept_here. cbn.
  destruct (decide (v = user)) as [->|]; [by rewrite lookup_insert_eq|]. rewrite lookup_insert_ne by congruence.
  rewrite lookup_delete_ne; [exact Hw|]. intros [= E]. by eapply temp_is_not_user.
Qed.

Lemma keeping_write u n owner : keeping (write_marker_in base u n owner).
Proof using Hvis.
  unfold write_marker_in. apply keeps_then; [by apply keeps_lift|intros final]. apply keeps_then; [apply keeping_private_dir|intros ?].
  apply keeps_then; [by apply keeps_look|intros now]. apply keeps_then; [by apply keeps_lift|intros body].
  apply keeps_then; [by apply keeps_look|intros pid]. cbv zeta. apply keeps_catch_then.
  - unfold commit_marker, write_file, create_truncate_file. apply keeps_then.
    + apply keeps_then; [|intros h; apply keeps_then; [apply keeping_write_all|intros ?; by apply keeping_change]].
      apply keeps_then; [apply keeping_dir|intros ?]. apply keeps_then.
      * apply keeping_change. intros w Hw. destruct (directories_of w !! base), (entries w !! (base, marker_temp u pid)) as [e|]; try done;
          [destruct (e_type e); try done; by apply kept_insert|]. cbn. by apply (kept_insert w (base, marker_temp u pid)).
      * intros h. apply keeps_then; [apply keeping_observe|]. intros there. apply keeps_then; [|intros ?; by apply keeps_ret].
        destruct there; [apply keeping_alter_entry|by apply keeps_ret].
    + intros ?. apply keeps_then; [|intros ?; apply keeping_rename]. destruct owner as [[x g]|]; [apply keeping_alter_entry|by apply keeps_ret].
  - intros r. apply keeps_then; [|intros ?; by apply keeps_lift]. destruct (is_ok r); [by apply keeps_ret|].
    apply keeps_ignore_any, keeping_unlink, temp_is_not_user.
Qed.

(** The user is enrolled, and no read of the models fails. *)
Definition listed (s : FaceStore) : Prop :=
  ∀ s', db s' = db s → same_conn s s' → ∃ models, fst (list_models user s') = Ok models ∧ 0 < as_u32 (Z.of_nat (length models)).

Lemma listed_same s s' : listed s → db s' = db s → same_conn s s' → listed s'.
Proof using.
  intros Hl Hd Hc t Ht Hct. apply Hl; [congruence|by etrans].
Qed.

Lemma listed_user s users s' : listed s → list_users s = (Ok users, s') → user ∈ users.
Proof using.
  clear Hvis. intros Hl Hq. destruct (Hl s eq_refl ltac:(by split_and!)) as (models & Hm & Hn).
  destruct (list_models user s) as [r s1] eqn:E. cbn in Hm. subst r. apply query_map_ok in E. apply query_map_ok in Hq.
  destruct models as [|x models]; [done|]. destruct (Forall2_lookup_r _ _ _ 0%nat x E eq_refl) as (m & Hm & _).
  apply list_elem_of_lookup_2 in Hm. rewrite scan_perm in Hm. apply elem_of_filterb in Hm as [Hm Hu].
  match type of Hq with Forall2 _ ?l _ => assert (m_user m ∈ l) as Hin end.
  { rewrite merge_sort_Permutation. apply elem_of_remove_dups. by apply list_elem_of_fmap_2. }
  apply String.eqb_eq in Hu as <-. apply list_elem_of_lookup in Hin as [i Hi].
  destruct (Forall2_lookup_l _ _ _ _ _ Hq Hi) as (u & Hi' & [= ->]). by eapply list_elem_of_lookup_2.
Qed.

Lemma reconcile_users_kept users : resolve_owner user ≠ None → ∀ wanted s, listed s →
  keeps (rely:=leave_it) kept_here (reconcile_users base wanted users s)
    (λ r, ∀ x, r = Ok x → user ∈ users ∨ user ∈ wanted → user ∈ fst x).
Proof using Hvis.
  intros Ho. induction users as [|u users IH]; intros wanted s Hl; cbn [reconcile_users].
  { apply keeps_ret. intros x [= <-] [?%elem_of_nil|?]; done. }
  destruct (list_models u s) as [r s'] eqn:E. pose proof (list_models_same _ _ _ _ E) as [Hd Hc].
  assert (listed s') as Hl' by by eapply listed_same.
  assert (u = user → ∃ models, r = Ok models ∧ 0 < as_u32 (Z.of_nat (length models))) as Huser.
  { intros ->. destruct (Hl s eq_refl ltac:(by split_and!)) as (models & Hm & Hn). rewrite E in Hm. by exists models. }
  assert (∀ wanted', (u = user → False) → (user ∈ wanted → user ∈ wanted') →
    keeps (rely:=leave_it) kept_here (reconcile_users base wanted' users s')
      (λ r, ∀ x, r = Ok x → user ∈ u :: users ∨ user ∈ wanted → user ∈ fst x)) as Hskip.
  { intros wanted' Hne Hw. eapply keeps_weaken; [by apply IH|]. intros r' Hr x Hx [[->|Hin]%elem_of_cons|Hin]; [done| |]; apply (Hr x Hx); auto. }
  destruct r as [models|e]; [|apply Hskip; [intros Hu; destruct (Huser Hu) as (? & ? & _); done|done]]. cbv zeta.
  destruct (Z.eqb_spec (as_u32 (Z.of_nat (length models))) 0) as [Hz|Hz].
  { apply Hskip; [|done]. intros Hu. destruct (Huser Hu) as (m' & [= <-] & ?). lia. }
  destruct (resolve_owner u) as [o|] eqn:Eo; [|apply Hskip; [intros ->; done|done]].
  eapply keeps_bind with (R1 := any); [apply keeps_ignore_any, keeping_write| |by intros].
  intros ? _. eapply keeps_weaken; [by apply IH|]. intros r' Hr x Hx Hin. apply (Hr x Hx). destruct Hin as [[->|Hin]%elem_of_cons|Hin]; [|by left|];
    right; apply elem_of_app; [right; by apply list_elem_of_singleton|by left].
Qed.

Lemma keeping_prune keep : user ∈ keep → keeping (prune_markers_in base keep).
Proof using.
  intros Hin. unfold prune_markers_in. apply keeps_catch_then; [apply keeping_observe|]. intros [entries|err].
  - apply each_steady. intros x. unfold prune_entry. destruct (entry_name x) as [n|]; [|by apply keeps_ret].
    destruct (starts_with "." n); [by apply keeps_ret|]. destruct (existsb (String.eqb n) keep) eqn:Ek; [by apply keeps_ret|].
    apply keeps_ignore_any, keeping_unlink. intros ->. assert (existsb (String.eqb user) keep = true) as Hk; [|congruence].
    apply existsb_exists. exists user. split; [by apply list_elem_of_In|by apply String.eqb_eq].
  - destruct (is_not_found err); [by apply keeps_ret|by apply keeps_raise].
Qed.
End kept.

(** Reconciling never takes an enrolled user's marker away: if the user has an account and the
    models can be read, the marker is there at every moment and afterwards, whatever calls fail,
    wherever the process is killed, and whatever else the database holds. *)
Theorem reconcile_keeps_enrolled c user db_exists opens s :
  starts_with "." user = false → resolve_owner user ≠ None → listed user s →
  let here := kept_here (marker_dir c) user in
  triple (leave_it (marker_dir c) user) here (reconcile_all c db_exists opens s) (λ _, here) here.
Proof.
  intros Hv Ho Hl here. assert (keeps (rely:=leave_it (marker_dir c) user) here (reconcile_all c db_exists opens s) any) as Hrun.
  { unfold reconcile_all. pose proof (keeping_private_dir (marker_dir c) user ENROLLED_DIR_MODE) as Hdir.
    destruct (negb db_exists); [apply keeps_then; [exact Hdir|intros ?; by apply keeps_ret]|].
    destruct opens; [by apply keeps_raise|]. destruct (list_users s) as [[users|e] s'] eqn:El; [|by apply keeps_raise].
    pose proof (list_users_same _ _ _ El) as [Hd Hc]. apply keeps_then; [exact Hdir|intros ?].
    eapply keeps_bind; [apply (reconcile_users_kept _ _ Hv users Ho [] s'); by eapply listed_same| |by intros].
    intros x Hx. apply keeps_then; [|intros ?; by apply keeps_ret]. apply keeping_prune, (Hx x eq_refl). left. by eapply listed_user. }
  eapply triple_conseq; [exact Hrun|done|by intros r w [? _]|done].
Qed.
End hooks.

(** ** Undisturbed runs *)
Definition calmly {A} (c : Io A) (w : World) (a : A) (w' : World) : Prop := c w [] = (Done (Ok a), w', []).

Lemma calm_bind {A B} (c : Io A) (k : A → Io B) w a w1 b w2 : calmly c w a w1 → calmly (k a) w1 b w2 → calmly (c ≫= k) w b w2.
Proof. unfold calmly, mbind, Io_bind. by intros -> ->. Qed.

Lemma calm_catch {A} (c : Io A) w a w' : calmly c w a w' → calmly (catch c) w (Ok a) w'.
Proof. unfold calmly, catch. by intros ->. Qed.

Lemma calm_ignore {A} (c : Io A) w r w' : c w [] = (Done r, w', []) → calmly (ignore c) w tt w'.
Proof. unfold calmly, ignore, catch, mbind, Io_bind. by intros ->. Qed.

Lemma calm_change {A} (f : World → result A IoError * World) w a w' : f w = (Ok a, w') → calmly (change f) w a w'.
Proof. unfold calmly, change, step. cbn. by intros ->. Qed.

Lemma calm_change_err {A} (f : World → result A IoError * World) w e w' : f w = (Err e, w') → calmly (catch (change f)) w (Err e) w'.
Proof. unfold calmly, catch, change, step. cbn. by intros ->. Qed.

Lemma calm_observe {A} (f : Files → result A IoError) w a : f (files_of w) = Ok a → calmly (observe f) w a w.
Proof. unfold calmly, observe, step. cbn. by intros ->. Qed.

Lemma calm_ret {A} (a : A) w : calmly (mret a) w a w.
Proof. done. Qed.

Lemma calm_look {A} (f : World → A) w : calmly (look f) w (f w) w.
Proof. done. Qed.

Section calm.
Context {SD : ShowDebug} {MJ : MarkerJson} {RF : Rfc3339} {AC : Accounts} {SQ : ShowSqlite} {RO : RowOrder}.
Context (base : string) (Hbase : path_of (components base) = base) (Hshared : is_shared_system_dir base = false)
  (Hnonempty : components base ≠ []).

(** The directory is there and holds regular files. *)
Record ready (w : World) : Prop := {
  r_dir : ∃ m, directories_of w !! base = Some m ∧ file_type m = IsDirectory;
  r_flat u : directories_of w !! (base +:+ "/" +:+ u) = None;
  r_files n e : entries w !! (base, n) = Some e → e_type e = IsRegular }.

Record same_moment (w w' : World) : Prop := { sm_clock : clock w' = clock w; sm_pid : process_id w' = process_id w }.

Lemma calm_create_dir_all w : ready w → calmly (create_dir_all base) w tt w.
Proof using Hbase Hnonempty.
  intros [(m & Hm & Ht) _ _]. unfold calmly, create_dir_all. destruct (rev (components base)) as [|c up] eqn:Er.
  { destruct (components base) as [|x l]; [done|]. by apply (f_equal length) in Er; rewrite length_rev in Er. }
  cbn [create_dir_all_rev]. rewrite <- Er, rev_involutive, Hbase.
  eapply calm_bind; [apply calm_change_err with (e := exists_error); by rewrite Hm|]. cbn beta iota. change (is_not_found exists_error) with false.
  cbn iota. eapply calm_bind; [apply calm_observe with (a := true)|apply calm_ret].
  cbn. unfold stat_at. rewrite Hm. cbn. rewrite bool_decide_eq_false_2 by congruence. by rewrite bool_decide_eq_true_2.
Qed.

Lemma calm_private_dir w : ready w → ∃ w', calmly (ensure_private_dir base ENROLLED_DIR_MODE) w tt w' ∧
  ready w' ∧ entries w' = entries w ∧ same_moment w w'.
Proof using Hbase Hnonempty Hshared.
  intros Hw. pose proof Hw as [(m & Hm & Ht) Hflat Hfiles]. unfold ensure_private_dir. rewrite Hshared.
  set (m' := {| file_type := file_type m; dev := dev m; ino := ino m; nlink := nlink m;
                mode := Z.lor (Z.land (mode m) 61440) (Z.land ENROLLED_DIR_MODE 4095); uid := uid m; gid := gid m; len := len m |}).
  exists (with_directories (<[base := m']> (directories_of w)) w). split; [|split; [split|by split]].
  - eapply calm_bind; [by apply calm_create_dir_all|]. unfold ensure_mode. eapply calm_bind; [apply calm_observe with (a := true)|].
    { cbn. unfold stat_at. rewrite Hm. cbn. by rewrite bool_decide_eq_false_2 by congruence. }
    cbn iota. unfold set_permissions. eapply calm_bind; [apply calm_look|]. rewrite Hm. cbn [is_some]. apply calm_change. by rewrite Hm.
  - exists m'. cbn. by rewrite lookup_insert_eq.
  - intros u. cbn. destruct (decide (base +:+ "/" +:+ u = base)) as [E|E]; [|by rewrite lookup_insert_ne].
    specialize (Hflat u). rewrite E, Hm in Hflat. done.
  - exact Hfiles.
Qed.

(** What an undisturbed write leaves. *)
Definition written (u : string) (models : Z) (w w' : World) : Prop :=
  ready w' ∧ same_moment w w' ∧ ∃ e, marker_to_vec {| mk_models := models; mk_updated := rfc3339_secs (clock w) |} = Ok (e_bytes e) ∧
    entries w' = <[(base, u) := e]> (delete (base, marker_temp u (process_id w)) (entries w)).

Lemma ready_entries w m : ready w → (∀ n e, m !! (base, n) = Some e → e_type e = IsRegular) → ready (with_entries m w).
Proof using. intros [H1 H2 H3] Hm. by split. Qed.

Lemma calm_temp w n : ready w → ∃ h w', calmly (create_truncate_file base n MARKER_FILE_MODE) w h w' ∧ ready w' ∧ same_moment w w' ∧
  h_dir h = base ∧ h_name h = n ∧ (∃ e, entries w' !! (base, n) = Some e ∧ e_ino e = h_ino h) ∧
  ∀ k, k ≠ (base, n) → entries w' !! k = entries w !! k.
Proof using Hbase Hnonempty.
  intros Hw. pose proof Hw as [(m & Hm & Ht) Hflat Hfiles].
  assert (∃ h w1 e, calmly (open_truncate base n MARKER_FILE_MODE) w h w1 ∧ ready w1 ∧ same_moment w w1 ∧ h_dir h = base ∧ h_name h = n ∧
    entries w1 !! (base, n) = Some e ∧ e_type e = IsRegular ∧ e_ino e = h_ino h ∧ ∀ k, k ≠ (base, n) → entries w1 !! k = entries w !! k)
    as (h & w1 & e & Ho & Hr1 & Hs1 & Hd & Hn & He & Hte & Hi & Hk).
  { destruct (entries w !! (base, n)) as [e|] eqn:Ee.
    - pose proof (Hfiles n e Ee) as Hte. eexists _, _, (set_bytes [] e). split; [apply calm_change; rewrite Hm, Ee, Hte; reflexivity|].
      split_and!; try done; cbn; [|by rewrite lookup_insert_eq|by intros k Hk; rewrite lookup_insert_ne].
      apply ready_entries; [done|]. intros n' e'. destruct (decide (n' = n)) as [->|]; [rewrite lookup_insert_eq; by intros [= <-]|].
      rewrite lookup_insert_ne by congruence. apply Hfiles.
    - eexists _, _, _. split; [apply calm_change; rewrite Hm, Ee; reflexivity|].
      split_and!; try done; cbn; [|by rewrite lookup_insert_eq|done|done|by intros k Hk; rewrite lookup_insert_ne].
      split; cbn; [by exists m|done|]. intros n' e'. destruct (decide (n' = n)) as [->|]; [rewrite lookup_insert_eq; by intros [= <-]|].
      rewrite lookup_insert_ne by congruence. apply Hfiles. }
  exists h, (with_entries (<[(base, n) := mode_bits MARKER_FILE_MODE e]> (entries w1)) w1). split.
  - unfold create_truncate_file. eapply calm_bind; [by apply calm_create_dir_all|]. eapply calm_bind; [exact Ho|].
    eapply calm_bind; [apply calm_observe with (a := true); cbn; rewrite He; by rewrite bool_decide_eq_false_2 by congruence|].
    eapply calm_bind; [|apply calm_ret]. cbn iota. apply calm_change. rewrite He. by rewrite bool_decide_eq_false_2 by congruence.
  - split_and!; try done.
    + apply ready_entries; [done|]. intros n' e'. destruct (decide (n' = n)) as [->|]; [rewrite lookup_insert_eq; by intros [= <-]|].
      rewrite lookup_insert_ne by congruence. apply Hr1.
    + destruct Hs1. by split.
    + exists (mode_bits MARKER_FILE_MODE e). cbn. by rewrite lookup_insert_eq.
    + intros k Hk'. cbn. rewrite lookup_insert_ne by done. by apply Hk.
Qed.

Lemma calm_write u models owner w k : ready w → marker_path base u = Ok k → starts_with "." u = false →
  is_ok (marker_to_vec {| mk_models := models; mk_updated := rfc3339_secs (clock w) |}) = true →
  ∃ w', calmly (write_marker_in base u models owner) w tt w' ∧ written u models w w'.
Proof using Hbase Hnonempty Hshared.
  intros Hw Hp Hu Hj. destruct (marker_to_vec _) as [body|] eqn:Hb; [|done]. unfold write_marker_in.
  destruct (calm_private_dir w Hw) as (w1 & Hc1 & Hr1 & He1 & [Hck1 Hp1]). set (n := marker_temp u (process_id w)).
  destruct (calm_temp w1 n Hr1) as (h & w2 & Hc2 & Hr2 & [Hck2 Hp2] & Hd & Hn & (e & He & Hi) & Hk).
  assert (∀ e' : Entry, e_type e' = IsRegular → ready (with_entries (<[(base, n) := e']> (entries w2)) w2)) as Hready.
  { intros e' Ht. apply ready_entries; [done|]. intros n' e''. destruct (decide (n' = n)) as [->|]; [rewrite lookup_insert_eq; by intros [= <-]|].
    rewrite lookup_insert_ne by congruence. apply Hr2. }
  pose proof (r_files _ Hr2 _ _ He) as Hte. set (w3 := with_entries (<[(base, n) := set_bytes body e]> (entries w2)) w2).
  assert (calmly (write_file base n body MARKER_FILE_MODE) w1 tt w3) as Hwf.
  { eapply calm_bind; [exact Hc2|]. eapply calm_bind; [|by apply calm_change].
    unfold calmly, write_all, step. cbn. unfold update, behind. rewrite Hd, Hn, He, Hi, Z.eqb_refl. done. }
  assert (∃ e3, calmly (match owner with Some (x, g) => chown_to base n x g | None => mret tt end) w3 tt
    (with_entries (<[(base, n) := e3]> (entries w2)) w2) ∧ e_type e3 = IsRegular ∧ e_bytes e3 = body) as (e3 & Hc3 & Ht3 & Hb3).
  { destruct owner as [[x g]|]; [|by exists (set_bytes body e)]. exists (owned_by x g (set_bytes body e)). split; [|done].
    apply calm_change. cbn. rewrite lookup_insert_eq, bool_decide_eq_false_2 by (cbn; congruence). by rewrite insert_insert_eq. }
  set (w4 := with_entries (<[(base, n) := e3]> (entries w2)) w2) in *.
  exists (with_entries (<[(base, u) := e3]> (delete (base, n) (entries w4))) w4). split.
  - rewrite Hp. eapply calm_bind; [done|]. eapply calm_bind; [exact Hc1|]. eapply calm_bind; [apply calm_look|].
    eapply calm_bind; [rewrite Hck1, Hb; done|]. eapply calm_bind; [apply calm_look|]. cbv zeta. rewrite Hp1. fold n.
    eapply calm_bind; [apply calm_catch|].
    { eapply calm_bind; [exact Hwf|]. eapply calm_bind; [exact Hc3|]. apply calm_change. cbn. rewrite lookup_insert_eq.
      rewrite (r_flat _ Hr2 u). destruct (is_some_and _ _) eqn:Hdir; [|done].
      destruct (<[(base, n) := e3]> (entries w2) !! (base, u)) as [o|] eqn:Eo; [|done]. cbn in Hdir.
      apply bool_decide_eq_true in Hdir. pose proof (r_files _ (Hready e3 Ht3) u o Eo). congruence. }
    cbn [is_ok]. eapply calm_bind; [apply calm_ret|]. done.
  - assert (entries w4 = <[(base, n) := e3]> (entries w2)) as E4 by done. split; [|split; [split; cbn; congruence|]].
    + apply ready_entries; [by apply Hready|]. intros n' e'. destruct (decide (n' = u)) as [->|]; [rewrite lookup_insert_eq; by intros [= <-]|].
      rewrite lookup_insert_ne by congruence. intros [_ Hl]%lookup_delete_Some. by eapply (Hready e3 Ht3).
    + exists e3. rewrite Hb3. split; [done|]. cbn. apply map_eq. intros k'. fold n. rewrite <- He1.
      destruct (decide (k' = (base, u))) as [->|]; [by rewrite !lookup_insert_eq|]. rewrite !(lookup_insert_ne _ (base, u)) by done.
      destruct (decide (k' = (base, n))) as [->|]; [by rewrite !lookup_delete_eq|]. rewrite !lookup_delete_ne, lookup_insert_ne by done. by apply Hk.
Qed.

(** [serde_json] can write the marker. *)
Definition writable (w : World) (n : Z) : Prop :=
  is_ok (marker_to_vec {| mk_models := n; mk_updated := rfc3339_secs (clock w) |}) = true.

(** The marker of [u] says [models] and was written at the moment of [w]. *)
Definition says (w : World) (u : string) (models : Z) : Prop :=
  ∃ e, entries w !! (base, u) = Some e ∧ e_type e = IsRegular ∧
    marker_to_vec {| mk_models := models; mk_updated := rfc3339_secs (clock w) |} = Ok (e_bytes e).

Lemma marker_path_base u k : marker_path base u = Ok k → k = (base, u).
Proof using. unfold marker_path. destruct (_ || _); [done|]. by intros [= <-]. Qed.

Lemma calm_unlink n w : ready w → ∃ w', calmly (ignore (unlinkat base n)) w tt w' ∧ ready w' ∧ same_moment w w' ∧
  entries w' = delete (base, n) (entries w).
Proof using.
  intros Hw. destruct (entries w !! (base, n)) as [e|] eqn:Ee.
  - eexists. split; [eapply calm_ignore; unfold unlinkat, change, step; cbn; rewrite Ee, bool_decide_eq_false_2 by (by rewrite (r_files _ Hw _ _ Ee)); reflexivity|].
    split_and!; [|done|done]. destruct Hw as [H1 H2 H3]. split; cbn; [done|done|]. intros n' e' [_ Hl]%lookup_delete_Some. by eapply H3.
  - exists w. split; [eapply calm_ignore; unfold unlinkat, change, step; cbn; rewrite Ee; reflexivity|]. split_and!; [done|done|by rewrite delete_id].
Qed.

Lemma calm_remove u k w : ready w → marker_path base u = Ok k → ∃ w', calmly (remove_marker_in base u) w tt w' ∧ ready w' ∧ same_moment w w' ∧
  entries w' = delete (base, u) (entries w).
Proof using.
  intros Hw Hp. pose proof (marker_path_base _ _ Hp) as ->. unfold remove_marker_in. rewrite Hp.
  destruct (entries w !! (base, u)) as [e|] eqn:Ee.
  - eexists. split.
    + eapply calm_bind; [done|]. eapply calm_bind with (a := Ok tt); [|apply calm_ret].
      apply calm_catch, calm_change. cbn [fst snd]. rewrite Ee, bool_decide_eq_false_2 by (by rewrite (r_files _ Hw _ _ Ee)). reflexivity.
    + split_and!; [|done|done]. destruct Hw as [H1 H2 H3]. split; cbn; [done|done|]. intros n' e' [_ Hl]%lookup_delete_Some. by eapply H3.
  - exists w. split; [|split_and!; [done|done|by rewrite delete_id]].
    eapply calm_bind; [done|]. eapply calm_bind; [apply calm_change_err with (e := not_found); cbn [fst snd]; by rewrite Ee|]. apply calm_ret.
Qed.

Lemma written_says u n w w' : starts_with "." u = false → written u n w w' → says w' u n ∧
  ∀ v, starts_with "." v = false → v ≠ u → entries w' !! (base, v) = entries w !! (base, v).
Proof using.
  intros Hu (Hr & [Hc Hp] & e & Hb & He). split.
  - exists e. rewrite Hc, He, lookup_insert_eq. split_and!; [done| |done]. eapply (r_files _ Hr u). by rewrite He, lookup_insert_eq.
  - intros v Hv Hne. rewrite He, lookup_insert_ne, lookup_delete_ne; [done| |]; intros [= E]; [|done].
    rewrite <- E, temp_hidden in Hv. done.
Qed.

(** *** Reconciling *)
Definition models_of (u : string) (d : Db) : Z := as_u32 (Z.of_nat (length (List.filter (of_user u) (face_models d)))).
Definition wants (d : Db) (u : string) : Prop := models_of u d ≠ 0 ∧ resolve_owner u ≠ None.
Definition readable (s : FaceStore) : Prop :=
  ∀ u s', db s' = db s → same_conn s s' → is_ok (fst (list_models u s')) = true.

Lemma list_models_count u s l s' : list_models u s = (Ok l, s') → as_u32 (Z.of_nat (length l)) = models_of u (db s).
Proof using. intros Hq%query_map_ok. apply Forall2_length in Hq. unfold models_of. by rewrite <- Hq, scan_perm. Qed.

Lemma calm_reconcile_users d users : Forall (λ u, starts_with "." u = false) users → ∀ wanted s w,
  ready w → (∀ u, writable w (models_of u d)) → readable s → db s = d →
  ∃ wanted' s' w', calmly (reconcile_users base wanted users s) w (wanted', s') w' ∧ ready w' ∧ same_moment w w' ∧ db s' = d ∧
    (∀ u, u ∈ wanted' ↔ u ∈ wanted ∨ (u ∈ users ∧ wants d u)) ∧
    (∀ u k, marker_path base u = Ok k → u ∈ users → wants d u → says w' u (models_of u d)) ∧
    (∀ v, starts_with "." v = false → ¬ (v ∈ users ∧ wants d v) → entries w' !! (base, v) = entries w !! (base, v)).
Proof using Hbase Hnonempty Hshared.
  induction 1 as [|u users Hu _ IH]; intros wanted s w Hw Hj Hs Hd; cbn [reconcile_users].
  { exists wanted, s, w. split_and!; try done.
    - intros u. rewrite elem_of_nil. tauto.
    - by intros u k _ ?%elem_of_nil. }
  destruct (list_models u s) as [r s1] eqn:El. pose proof (list_models_same _ _ _ _ El) as [Hd1 Hc1].
  assert (is_ok r = true) as Hr by (specialize (Hs u s eq_refl ltac:(by split_and!)); by rewrite El in Hs).
  destruct r as [models|]; [|done]. pose proof (list_models_count _ _ _ _ El) as Hn. rewrite Hd in Hn. cbv zeta. rewrite Hn.
  assert (readable s1) as Hs1 by (intros u' t Ht Hct; apply Hs; [congruence|by etrans]).
  assert (db s1 = d) as Hd1' by congruence.
  assert (¬ wants d u → ∃ wanted' s' w', calmly (reconcile_users base wanted users s1) w (wanted', s') w' ∧ ready w' ∧ same_moment w w' ∧ db s' = d ∧
    (∀ v, v ∈ wanted' ↔ v ∈ wanted ∨ (v ∈ u :: users ∧ wants d v)) ∧
    (∀ v k, marker_path base v = Ok k → v ∈ u :: users → wants d v → says w' v (models_of v d)) ∧
    (∀ v, starts_with "." v = false → ¬ (v ∈ u :: users ∧ wants d v) → entries w' !! (base, v) = entries w !! (base, v))) as Hskip.
  { intros Hnot. destruct (IH wanted s1 w Hw Hj Hs1 Hd1') as (wd & s2 & w2 & Hc & Hr2 & Hm2 & Hds & Hel & Hsay & Hrest).
    exists wd, s2, w2. split_and!; try done.
    - intros v. rewrite Hel, elem_of_cons. split; [tauto|]. intros [?|[[->|?] ?]]; [by left|done|by right].
    - intros v k Hk [->|Hv]%elem_of_cons Hwv; [done|by eapply Hsay].
    - intros v Hv Hnv. apply Hrest; [done|]. intros [? ?]. apply Hnv. split; [by right|done]. }
  destruct (Z.eqb_spec (models_of u d) 0) as [Hz|Hz]; [apply Hskip; by intros [? _]|].
  destruct (resolve_owner u) as [o|] eqn:Eo; [|apply Hskip; by intros [_ ?]].
  assert (wants d u) as Hwu by by split; [|rewrite Eo].
  assert (∃ w1, calmly (ignore (write_marker_in base u (models_of u d) (Some o))) w tt w1 ∧ ready w1 ∧ same_moment w w1 ∧
    (∀ k, marker_path base u = Ok k → says w1 u (models_of u d)) ∧
    ∀ v, starts_with "." v = false → v ≠ u → entries w1 !! (base, v) = entries w !! (base, v)) as (w1 & Hc & Hr1 & Hm1 & Hsay1 & Hrest1).
  { destruct (marker_path base u) as [k|err] eqn:Ep.
    - destruct (calm_write u (models_of u d) (Some o) w k Hw Ep Hu (Hj _)) as (w1 & Hc & Hwr).
      destruct (written_says _ _ _ _ Hu Hwr) as [H1 H2]. destruct Hwr as (Hr1 & Hm1 & _). exists w1.
      split_and!; [by eapply calm_ignore|done|done|done|done].
    - exists w. split_and!; try done. eapply calm_ignore. unfold write_marker_in. rewrite Ep. reflexivity. }
  assert (∀ u, writable w1 (models_of u d)) as Hj1 by (intros x; unfold writable; rewrite (sm_clock _ _ Hm1); apply Hj).
  destruct (IH (wanted ++ [u]) s1 w1 Hr1 Hj1 Hs1 Hd1') as (wd & s2 & w2 & Hc2 & Hr2 & [Hm2 Hp2] & Hds & Hel & Hsay & Hrest).
  exists wd, s2, w2. split_and!.
  - by eapply calm_bind.
  - done.
  - destruct Hm1. split; congruence.
  - done.
  - intros v. rewrite Hel, elem_of_app, list_elem_of_singleton, elem_of_cons. split; [intros [[?| ->]|[? ?]]; tauto|].
    intros [?|[[->|?] ?]]; tauto.
  - intros v k Hk Hv Hwv. destruct (decide (v ∈ users)) as [Hin|Hnin]; [by eapply Hsay|].
    apply elem_of_cons in Hv as [->|?]; [|done]. destruct (Hsay1 k Hk) as (e & He & Ht & Hb). exists e.
    rewrite Hm2, Hrest; [done|done|]. by intros [? _].
  - intros v Hv Hnv. rewrite Hrest; [|done|].
    + apply Hrest1; [done|]. intros ->. apply Hnv. split; [by left|done].
    + intros [? ?]. apply Hnv. split; [by right|done].
Qed.

Lemma calm_prune_entries keep l : ∀ w, ready w → ∃ w', calmly (each (prune_entry base keep) l) w tt w' ∧ ready w' ∧ same_moment w w' ∧
  ∀ n, entries w' !! (base, n) =
    if bool_decide (Some n ∈ map entry_name l) && negb (starts_with "." n) && negb (existsb (String.eqb n) keep) then None else entries w !! (base, n).
Proof using.
  induction l as [|x l IH]; intros w Hw; cbn [each].
  { exists w. by split_and!. }
  assert (∃ w1, calmly (prune_entry base keep x) w tt w1 ∧ ready w1 ∧ same_moment w w1 ∧ ∀ n, entries w1 !! (base, n) =
    if bool_decide (Some n = entry_name x) && negb (starts_with "." n) && negb (existsb (String.eqb n) keep) then None else entries w !! (base, n))
    as (w1 & Hc1 & Hr1 & Hm1 & He1).
  { unfold prune_entry. destruct (entry_name x) as [n|].
    2: { exists w. by split_and!. }
    destruct (starts_with "." n) eqn:Eh.
    { exists w. split_and!; try done. intros n'. case_bool_decide as E; [injection E as ->; by rewrite Eh|done]. }
    destruct (existsb (String.eqb n) keep) eqn:Ek.
    { exists w. split_and!; try done. intros n'. case_bool_decide as E; [injection E as ->; by rewrite Ek, andb_false_r|done]. }
    destruct (calm_unlink n w Hw) as (w1 & Hc & Hr & Hm & He). exists w1. split_and!; try done. intros n'. rewrite He.
    case_bool_decide as E; [injection E as ->; by rewrite Eh, Ek, lookup_delete_eq|]. rewrite lookup_delete_ne by congruence. done. }
  destruct (IH w1 Hr1) as (w2 & Hc2 & Hr2 & [Hm2 Hp2] & He2). exists w2. split_and!.
  - by eapply calm_bind.
  - done.
  - destruct Hm1. split; congruence.
  - intros n. rewrite He2, He1. cbn [map]. rewrite (bool_decide_ext (Some n ∈ entry_name x :: map entry_name l) (Some n = entry_name x ∨ Some n ∈ map entry_name l)) by apply elem_of_cons.
    rewrite bool_decide_or. by destruct (bool_decide (Some n = _)), (bool_decide (Some n ∈ _)), (starts_with "." n), (existsb _ keep).
Qed.

Lemma listed_names w n e : entries w !! (base, n) = Some e → Some n ∈ map entry_name (names_in w base).
Proof using.
  intros He. apply list_elem_of_fmap. exists {| entry_name := Some n; entry_type := Ok (e_type e) |}. split; [done|].
  apply list_elem_of_omap. exists ((base, n), e). split; [by apply elem_of_map_to_list|]. by rewrite String.eqb_refl.
Qed.

Lemma calm_prune keep w : ready w → ∃ w', calmly (prune_markers_in base keep) w tt w' ∧ ready w' ∧ same_moment w w' ∧
  ∀ n, starts_with "." n = false → entries w' !! (base, n) = if existsb (String.eqb n) keep then entries w !! (base, n) else None.
Proof using.
  intros Hw. destruct (calm_prune_entries keep (names_in w base) w Hw) as (w' & Hc & Hr & Hm & He).
  exists w'. split_and!; try done.
  - unfold prune_markers_in. eapply calm_bind; [apply calm_catch, calm_observe|exact Hc]. cbn. destruct (r_dir _ Hw) as (m & -> & _). done.
  - intros n Hn. rewrite He, Hn, andb_true_r. destruct (existsb (String.eqb n) keep); [by rewrite andb_false_r|]. rewrite andb_true_r.
    case_bool_decide as Hin; [done|]. destruct (entries w !! (base, n)) as [e|] eqn:Ee; [|done]. exfalso. by eapply Hin, listed_names.
Qed.

(** What [is-enrolled] answers. *)
Definition answers_with (w : World) (u : string) (st : MarkerState) : Prop := calmly (read_marker_in base u) w st w.

Lemma says_answers {ML : MarkerJsonLaws} w u k n : marker_path base u = Ok k → says w u n → n ≠ 0 →
  answers_with w u (Enrolled {| mk_models := n; mk_updated := rfc3339_secs (clock w) |}).
Proof using.
  intros Hp (e & He & Ht & Hb) Hn. pose proof (marker_path_base _ _ Hp) as ->. unfold answers_with, read_marker_in. rewrite Hp.
  eapply calm_bind; [apply calm_observe; cbn; rewrite He, bool_decide_eq_false_2 by congruence; reflexivity|].
  unfold calmly, mret, Io_ret. cbn. rewrite (marker_json_inverse _ _ Hb). cbn. by destruct (Z.eqb_spec n 0).
Qed.

Lemma none_answers w u k : marker_path base u = Ok k → entries w !! (base, u) = None → answers_with w u Absent.
Proof using.
  intros Hp He. pose proof (marker_path_base _ _ Hp) as ->. unfold answers_with, read_marker_in. rewrite Hp.
  unfold calmly, catch, observe, step, mbind, Io_bind. cbn. by rewrite He.
Qed.
End calm.

Section converge.
Context {SD : ShowDebug} {MJ : MarkerJson} {ML : MarkerJsonLaws} {RF : Rfc3339} {AC : Accounts} {SQ : ShowSqlite} {RO : RowOrder}.

(** A marker directory the markers of a configuration live in. *)
Record plain_dir (base : string) : Prop := {
  pd_normal : path_of (components base) = base;
  pd_own : is_shared_system_dir base = false;
  pd_some : components base ≠ [] }.

(** Setting a marker and asking for it agree: after an undisturbed write the user is answered
    with the count and the time it was written, or as not enrolled for none, and every other user is
    answered as before. *)
Theorem marker_roundtrip c u k models w : let base := marker_dir c in
  plain_dir base → ready base w → writable w models → marker_path base u = Ok k → starts_with "." u = false →
  ∃ w', calmly (set_marker c u models) w tt w' ∧ ready base w' ∧
    answers_with base w' u (if models =? 0 then Absent else Enrolled {| mk_models := models; mk_updated := rfc3339_secs (clock w) |}) ∧
    ∀ v, v ≠ u → starts_with "." v = false → entries w' !! (base, v) = entries w !! (base, v).
Proof.
  intros base [Hb1 Hb2 Hb3] Hw Hj Hp Hu. unfold set_marker, set_marker_in. fold base. destruct (Z.eqb_spec models 0) as [->|Hn].
  - destruct (calm_remove base u k w Hw Hp) as (w' & Hc & Hr & Hm & He). exists w'. split_and!; [by eapply calm_ignore|done| |].
    + eapply none_answers; [done|]. by rewrite He, lookup_delete_eq.
    + intros v Hv _. rewrite He, lookup_delete_ne; congruence.
  - destruct (calm_write base Hb1 Hb2 Hb3 u models (resolve_owner u) w k Hw Hp Hu Hj) as (w' & Hc & Hwr).
    destruct (written_says base u models w w' Hu Hwr) as [Hs Ho]. destruct Hwr as (Hr & [Hck _] & _). exists w'. split_and!; [by eapply calm_ignore|done| |].
    + rewrite <- Hck. by eapply says_answers.
    + intros v Hv Hvis. by apply Ho.
Qed.

(** C21.  Reconciling converges: after an undisturbed run over a database that can be read, a user
    with an account is answered as enrolled with the number of models exactly when the database has
    some, and every other as not enrolled, whatever markers were there before. *)
Theorem reconcile_converges c s w : let base := marker_dir c in
  plain_dir base → ready base w → (∀ u, writable w (models_of u (db s))) → readable s → visible_users (db s) → is_ok (fst (list_users s)) = true →
  ∃ s' w', calmly (reconcile_all c true None s) w s' w' ∧ db s' = db s ∧
    ∀ u k, marker_path base u = Ok k → starts_with "." u = false →
      answers_with base w' u
        (if decide (models_of u (db s) ≠ 0 ∧ resolve_owner u ≠ None)
         then Enrolled {| mk_models := models_of u (db s); mk_updated := rfc3339_secs (clock w) |} else Absent).
Proof.
  intros base [Hb1 Hb2 Hb3] Hw Hj Hs Hv Hl. unfold reconcile_all. cbn [negb]. fold base.
  destruct (list_users s) as [r s1] eqn:El. destruct r as [users|]; [|done]. pose proof (list_users_same _ _ _ El) as [Hd1 Hc1].
  destruct (calm_private_dir base Hb1 Hb2 Hb3 w Hw) as (w1 & Hcd & Hr1 & He1 & [Hck1 Hp1]).
  assert (∀ u, writable w1 (models_of u (db s))) as Hj1 by (intros x; unfold writable; rewrite Hck1; apply Hj).
  assert (readable s1) as Hs1 by (intros u t Ht Hct; apply Hs; [congruence|by etrans]).
  destruct (calm_reconcile_users base Hb1 Hb2 Hb3 (db s) users (list_users_visible _ _ _ El Hv) [] s1 w1 Hr1 Hj1 Hs1 Hd1)
    as (wd & s2 & w2 & Hc2 & Hr2 & [Hck2 Hp2] & Hds & Hel & Hsay & _).
  destruct (calm_prune base wd w2 Hr2) as (w3 & Hc3 & Hr3 & [Hck3 Hp3] & Hpr).
  assert (∀ u, wants (db s) u → u ∈ users) as Hall.
  { intros u [Hn _]. apply (listed_user u s users s1); [|done]. intros t Ht Hct. specialize (Hs u t Ht Hct).
    destruct (list_models u t) as [[l|] t'] eqn:Et; [|done]. exists l. split; [done|]. rewrite (list_models_count u t l t' Et), Ht.
    pose proof (as_u32_range (Z.of_nat (length (List.filter (of_user u) (face_models (db s)))))) as [? _]. unfold models_of in *. lia. }
  assert (∀ u, existsb (String.eqb u) wd = true ↔ wants (db s) u) as Hwd.
  { intros u. rewrite existsb_exists. split.
    - intros (x & Hx & ->%String.eqb_eq). apply list_elem_of_In, Hel in Hx as [?%elem_of_nil|[_ ?]]; done.
    - intros Hwu. exists u. split; [|by apply String.eqb_refl]. apply list_elem_of_In, Hel. right. auto. }
  exists s2, w3. split; [|split; [done|]].
  - eapply calm_bind; [exact Hcd|]. eapply calm_bind; [exact Hc2|]. eapply calm_bind; [exact Hc3|]. done.
  - intros u k Hk Hu. destruct (decide _) as [Hwu|Hnwu].
    + assert (says base w2 u (models_of u (db s))) as (e & He & Ht & Hbe) by (eapply Hsay; [done|by apply Hall|done]).
      rewrite <- Hck1, <- Hck2, <- Hck3. apply (says_answers base w3 u k); [done| |apply Hwu]. exists e. rewrite (Hpr u Hu), (proj2 (Hwd u) Hwu), Hck3. done.
    + eapply none_answers; [done|]. rewrite (Hpr u Hu). destruct (existsb (String.eqb u) wd) eqn:E; [|done].
      exfalso. apply Hnwu, Hwd, E.
Qed.
End converge.

(** ** A concrete host *)
#[local] Instance show_sqlite_plain : ShowSqlite := λ _, "sqlite error".
#[local] Existing Instance nan_x86.
#[local] Instance quote_debug : ShowDebug := {| debug_str s := dq +:+ s +:+ dq |}.
#[local] Instance one_account : Accounts := λ u, Ok (if String.eqb u "alice" then Some (1000, 1000) else None).
#[local] Instance fixed_time : Rfc3339 := λ _, "2023-11-14T22:13:20Z".

(** A count and a time on two lines. *)
Definition encode_marker (m : Marker) : bytes := bytes_of (show_Z (mk_models m) +:+ String newline (mk_updated m)).
Definition decode_marker (b : bytes) : option Marker :=
  match split_on newline (String.string_of_list_ascii b) with
  | [n; t] => (λ n, {| mk_models := n; mk_updated := t |}) <$> parse_unsigned (2 ^ 32) n
  | _ => None
  end.

#[local] Instance Marker_eq_dec : EqDecision Marker.
Proof. solve_decision. Defined.

#[local] Instance lines_json : MarkerJson := {|
  marker_to_vec m := if bool_decide (decode_marker (encode_marker m) = Some m) then Ok (encode_marker m) else Err "cannot be written";
  marker_from_slice b := match decode_marker b with Some m => Ok m | None => Err "expected a count" end |}.

Lemma lines_json_laws : MarkerJsonLaws.
Proof.
  intros m b. cbn. case_bool_decide as E; [|done]. intros [= <-]. by rewrite E.
Qed.
#[local] Existing Instance lines_json_laws.

Definition markers_at : string := marker_dir config_default.
Definition enrolled_db : FaceStore :=
  run_op (fresh_store (λ _, None)) (OpReplace (Some 5) "alice" "default" [[1]; [2]; [3]] false "m" None None).
Definition marker_world (markers : gmap Name Entry) : World :=
  {| entries := markers;
     directories_of := <[markers_at := {| file_type := IsDirectory; dev := 1; ino := 2; nlink := 2; mode := 16841; uid := 0; gid := 0; len := 0 |}]> ∅;
     next_ino := 10; clock := 1700000000000000000; user := (0, 0); umask := 18; process_id := 42; ours := []; removed := [] |}.
Definition marker_entry (m : Marker) : Entry :=
  {| e_type := IsRegular; e_dev := 1; e_ino := 3; e_links := 1; e_mode := 33152; e_uid := 1000; e_gid := 1000; e_bytes := encode_marker m |}.
Definition stale_world : World :=
  marker_world {[ (markers_at, "alice") := marker_entry {| mk_models := 2; mk_updated := "2023-01-01T00:00:00Z" |} ]}.

Lemma marker_world_usual m : (∀ u e, m !! (markers_at, u) = Some e → u = "alice" ∧ marker_of "alice" e) → usual markers_at 42 (marker_world m).
Proof.
  intros Hm. split; [| |by eexists|done].
  - intros u e _ He. by destruct (Hm u e He) as [-> ?].
  - intros u e He. destruct (Hm _ e He) as [E _]. apply (f_equal (starts_with ".")) in E. by rewrite temp_hidden in E.
Qed.

Lemma stale_entry u e : entries stale_world !! (markers_at, u) = Some e → u = "alice" ∧ e = marker_entry {| mk_models := 2; mk_updated := "2023-01-01T00:00:00Z" |}.
Proof. unfold stale_world, marker_world. cbn [entries]. intros [[= <-] <-]%lookup_singleton_Some. done. Qed.

Lemma stale_usual : usual markers_at 42 stale_world.
Proof.
  apply marker_world_usual. intros u e [-> ->]%stale_entry. split; [done|]. split_and!; [done|vm_compute; reflexivity|by intros o [= <-]|].
  exists {| mk_models := 2; mk_updated := "2023-01-01T00:00:00Z" |}. vm_compute. reflexivity.
Qed.

Lemma stale_ready : ready markers_at stale_world.
Proof.
  split; [by eexists|intros u; apply lookup_insert_None; split; [done|vm_compute; by intros]|by intros n e [-> ->]%stale_entry].
Qed.

Lemma markers_plain : plain_dir markers_at.
Proof. split; vm_compute; done. Qed.

(** The process is killed before its [n]-th call. *)
Definition stopped_at (n : nat) : list Event := repeat calm n ++ [{| before := id; killed := true; answers := id; failure := None |}].

Lemma stopped_ok rely `{!Reflexive rely} n : Forall (ok_event rely) (stopped_at n).
Proof.
  apply Forall_app. split; [|constructor; [|constructor]].
  - apply Forall_forall. intros e He. apply list_elem_of_In, repeat_spec in He as ->. by apply calm_ok.
  - split; [done|intros; apply honest_refl|done].
Qed.

Lemma enrolled_db_wf : db_wf (db enrolled_db).
Proof. apply run_op_wf. exact (conj db_empty_wf eq_refl). Qed.

Lemma enrolled_visible : visible_users (db enrolled_db).
Proof.
  intros m Hm. assert (forallb (λ m, negb (starts_with "." (m_user m))) (face_models (db enrolled_db)) = true) as Hall by (vm_compute; reflexivity).
  rewrite forallb_forall in Hall. apply list_elem_of_In, Hall in Hm. by apply negb_true_iff.
Qed.

Definition some_hooks : list Hook := [HookSet "alice" 2; HookReconcile true None enrolled_db; HookForget "alice"].

(** The second hook is killed in the middle of its write. *)
Lemma markers_stay_whole_witness :
  let '(o, w, _) := each (run_hook config_default) some_hooks stale_world (stopped_at 19) in
  o = Killed ∧ always_answered markers_at w.
Proof.
  assert (Forall visible_hook some_hooks) as Hv by (repeat constructor; exact enrolled_visible).
  assert (fst (fst (each (run_hook config_default) some_hooks stale_world (stopped_at 19))) = Killed) as Hk by (vm_compute; reflexivity).
  pose proof (markers_stay_whole config_default 42 some_hooks Hv stale_world stale_usual (stopped_at 19)
    (stopped_ok _ (Reflexive0 := others_reflexive _ _) 19)) as Hrun.
  destruct (each (run_hook config_default) some_hooks stale_world (stopped_at 19)) as [[o w] s]. cbn in Hk. subst o.
  split; [reflexivity|exact (proj2 (proj1 Hrun))].
Defined.

Lemma enrolled_listed s' : db s' = db enrolled_db → same_conn enrolled_db s' → fst (list_models "alice" s') = fst (list_models "alice" enrolled_db).
Proof.
  destruct s' as [p d sv f t]. intros Hd (_ & _ & Hf). cbn [db faults] in Hd, Hf. rewrite Hd, Hf. vm_compute. reflexivity.
Qed.

Definition full_disk (n : nat) : list Event :=
  repeat calm n ++ repeat {| before := id; killed := false; answers := id; failure := Some (io_error OtherKind "No space left on device (os error 28)", 3%nat) |} 2.

(** The disk is full when the new marker is written: the old one stays. *)
Lemma reconcile_keeps_enrolled_witness :
  let '(o, w, _) := reconcile_all config_default true None enrolled_db stale_world (full_disk 8) in
  is_Some (entries w !! (markers_at, "alice")).
Proof.
  assert (Forall (ok_event (leave_it markers_at "alice")) (full_disk 8)) as Hs.
  { apply Forall_app. split; apply Forall_forall; intros e He; apply list_elem_of_In, repeat_spec in He as ->.
    - apply calm_ok. by intros w H.
    - split; [by intros w H|intros; apply honest_refl|by intros ? ? [= <- _]]. }
  assert (resolve_owner "alice" ≠ None) as Ho by (intros E; vm_compute in E; discriminate E).
  pose proof (reconcile_keeps_enrolled config_default "alice" true None enrolled_db eq_refl Ho) as Hrun.
  specialize (Hrun ltac:(intros s' Hd Hc; eexists; split; [rewrite (enrolled_listed s' Hd Hc); vm_compute; reflexivity|vm_compute; reflexivity])).
  specialize (Hrun stale_world ltac:(by eexists) (full_disk 8) Hs).
  destruct (reconcile_all _ _ _ _ _ _) as [[[r|] w] s]; exact (proj1 Hrun).
Defined.

(** Where the read of the models fails instead, the marker of an enrolled user is deleted. *)
Definition one_read_fails : FaceStore :=
  run_op (fresh_store (fails_at 9)) (OpReplace (Some 5) "alice" "default" [[1]; [2]; [3]] false "m" None None).

Example unread_models_lose_marker :
  let '(o, w, _) := reconcile_all config_default true None one_read_fails stale_world [] in
  is_ok (match o with Done r => r | Killed => Err not_found end) = true ∧ models_of "alice" (db one_read_fails) = 1 ∧ entries w !! (markers_at, "alice") = None.
Proof. by vm_compute. Qed.

Lemma marker_roundtrip_witness :
  ∃ w', calmly (set_marker config_default "alice" 2) stale_world tt w' ∧
    answers_with markers_at w' "alice" (Enrolled {| mk_models := 2; mk_updated := "2023-11-14T22:13:20Z" |}).
Proof.
  assert (writable stale_world 2) as Hj by (vm_compute; reflexivity).
  destruct (marker_roundtrip config_default "alice" (markers_at, "alice") 2 stale_world markers_plain stale_ready Hj eq_refl eq_refl) as (w' & Hc & _ & Ha & _).
  exists w'. split; [exact Hc|exact Ha].
Defined.

Lemma models_of_others u : u ≠ "alice" → models_of u (db enrolled_db) = 0.
Proof.
  intros Hu. assert (map m_user (face_models (db enrolled_db)) = ["alice"]) as Hn by (vm_compute; reflexivity).
  unfold models_of. destruct (face_models (db enrolled_db)) as [|m l]; [done|]. injection Hn as Hm Hl. destruct l; [|done].
  cbn. unfold of_user. rewrite Hm. by rewrite (proj2 (String.eqb_neq _ _)).
Qed.

Lemma enrolled_readable : readable enrolled_db.
Proof.
  intros u s' Hd (_ & _ & Hf). destruct s' as [p d sv f t]. cbn [db faults] in Hd, Hf. assert (faults enrolled_db = λ _, None) as Hcalm by (vm_compute; reflexivity).
  rewrite Hcalm in Hf. rewrite Hd, Hf. unfold list_models, query_map, bind, exec. cbn [faults tick db].
  destruct (decide (u = "alice")) as [->|Hu]; [vm_compute; reflexivity|].
  pose proof (models_of_others u Hu) as Hn. unfold models_of in Hn.
  assert (map m_user (face_models (db enrolled_db)) = ["alice"]) as Hm by (vm_compute; reflexivity).
  assert (List.filter (of_user u) (face_models (db enrolled_db)) = []) as ->; [|done].
  destruct (face_models (db enrolled_db)) as [|m [|? ?]]; [done| |done]. injection Hm as Hm. cbn. unfold of_user. rewrite Hm.
  by rewrite (proj2 (String.eqb_neq _ _)).
Qed.

Lemma reconcile_converges_witness :
  ∃ s' w', calmly (reconcile_all config_default true None enrolled_db) stale_world s' w' ∧
    answers_with markers_at w' "alice" (Enrolled {| mk_models := 1; mk_updated := "2023-11-14T22:13:20Z" |}) ∧
    answers_with markers_at w' "bob" Absent.
Proof.
  destruct (reconcile_converges config_default enrolled_db stale_world markers_plain stale_ready
    ltac:(intros u; destruct (decide (u = "alice")) as [->|Hu]; [|rewrite (models_of_others u Hu)]; vm_compute; reflexivity)
    enrolled_readable enrolled_visible ltac:(vm_compute; reflexivity)) as (s' & w' & Hc & _ & Ha).
  exists s', w'. split; [exact Hc|]. split; [exact (Ha "alice" (markers_at, "alice") eq_refl eq_refl)|exact (Ha "bob" (markers_at, "bob") eq_refl eq_refl)].
Defined.
