(* ===== verification/Direct.v ===== *)
(** * Direct: what the command line does without a daemon ([facelock-cli/src/direct.rs])

    Opening the store, resolving and opening the camera, loading the keys and a user's
    templates, the diagnostic authentication and the enrollment. What the camera crate, the
    face engine and the opened database answer is a [DirectEnv]; the state directory is brought
    to its layout in the monad of [PamWorld.v]. An error is the text of its whole chain. *)

From stdpp Require Import gmap.
From S2P Require Import Prelude PamFiles PamWorld Markers Float32 Types Matching DeviceBinding Config Store RateLimit Gates AuditLog Auth Sealing KeyFile Keyring Embeddings Enroll Handler.

(** A camera that was queried but not opened: what it says of itself, and the warm-up of its
    quirk. *)
Record ResolvedCamera := { res_caps : CameraCaps; quirk_warmup : option Z }.

(** [dv_opens] is why the database does not open. The cancellation token of these paths is never
    set. *)
Record DirectEnv := {
  dv_opens : option StoreError;
  dv_detect : result ResolvedCamera string;            (* no camera is configured *)
  dv_query : string → result ResolvedCamera string;
  dv_open : ResolvedCamera → result OpenCamera string;
  dv_engine : result unit string;
  dv_host : Host;
  dv_keys : KeyEnv;
  dv_start : Z;
  dv_armed : Z;
  dv_ticks : nat → Tick;
  dv_wall_at : Z → option Z;
  dv_enroll : EnrollEnv;
  dv_nonces : nat → list Z;
  dv_fuel : nat }.

(** [context] on an error *)
Definition in_context {A} (what : string) (r : result A string) : result A string :=
  map_err (λ e, what +:+ ": " +:+ e) r.

(** What a call leaves: its answer, the audit entries and snapshots it wrote, the store and the
    key files. *)
Record Aftermath A := { answer : A; effects : list Effect; store_after : FaceStore; keys_after : KeyFile.Dir }.
Arguments answer {A} _.
Arguments effects {A} _.
Arguments store_after {A} _.
Arguments keys_after {A} _.
Arguments Build_Aftermath {A} _ _ _ _.

(** A panic unwinds to the caller. *)
Inductive Ending A := Returned (x : Aftermath A) | Unwound (s : FaceStore) (d : KeyFile.Dir).
Arguments Returned {A} _.
Arguments Unwound {A} _ _.

Section direct.
Context `{ShowSqlite} `{RowOrder} `{NanEncoding} `{Subtle} `{Aead} `{Sha256} `{TpmDevice}.

Definition open_store (env : DirectEnv) (c : Config) : PamWorld.Io (result unit string) :=
  ensure_state_layout_best_effort c;;
  mret match dv_opens env with
       | Some e => Err ("failed to open database: " +:+ store_error_to_string e)
       | None => Ok tt
       end.

Definition open_store_existing (env : DirectEnv) (c : Config) : PamWorld.Io (result unit StoreError) :=
  ensure_state_layout_best_effort c;;
  mret match dv_opens env with Some e => Err e | None => Ok tt end.

Definition resolve_camera_device (env : DirectEnv) (c : Config) : result ResolvedCamera string :=
  match path (device c) with
  | Some p => in_context ("failed to query configured camera " +:+ p) (dv_query env p)
  | None => in_context "no camera device specified and auto-detection failed" (dv_detect env)
  end.

Inductive CameraPurpose := Authentication | Capture.

Definition warmup_capture_count (purpose : CameraPurpose) (scale : IrTextureScale) (requested : Z) : Z :=
  match purpose, scale with Authentication, UnverifiedY16 => 0 | _, _ => requested end.

(** With the number of frames that are captured and thrown away. *)
Definition open_resolved_camera (env : DirectEnv) (c : Config) (resolved : ResolvedCamera)
    (purpose : CameraPurpose) : result (OpenCamera * Z) string :=
  let warmup := unwrap_or (warmup_frames (device c)) (quirk_warmup resolved) in
  let? cam := in_context "failed to open camera" (dv_open env resolved) in
  Ok (cam, warmup_capture_count purpose (ir_texture_scale (cam_caps cam)) (warmup_discard_count cam warmup)).

Definition open_camera (env : DirectEnv) (c : Config) : result (OpenCamera * Z) string :=
  let? resolved := resolve_camera_device env c in open_resolved_camera env c resolved Capture.

Definition load_engine (env : DirectEnv) : result unit string := in_context "failed to load face engine" (dv_engine env).

Definition load_sealing_keys (env : KeyEnv) (c : Config) (s : FaceStore) (d : KeyFile.Dir) :
    result SealingKeys string * FaceStore * KeyFile.Dir :=
  load env c s d.

Definition load_user_embeddings (env : KeyEnv) (c : Config) (user : string) (s : FaceStore) (d : KeyFile.Dir) :
    result (list (Z * FaceEmbedding)) string * FaceStore * KeyFile.Dir :=
  let '(loaded, s, d) := load_sealing_keys env c s d in
  match loaded with
  | Err m => (Err m, s, d)
  | Ok k =>
      if negb (needs_raw_rows c (any_loaded k) (is_some (primary_error k))) then
        let '(r, s) := get_user_embeddings user s in
        (in_context "storage error loading embeddings" (map_err store_error_to_string r), s, d)
      else
        match get_user_embeddings_raw_with_device user s with
        | (Err e, s) => (Err ("storage error loading raw embeddings: " +:+ store_error_to_string e), s, d)
        | (Ok rows, s) =>
            (map_err (λ m, match primary_error k with Some reason => m +:+ " — " +:+ reason | None => m end)
               (decrypt_user_embeddings rows c k (Lazy (tcti (tpm c)) false)), s, d)
        end
  end.

Definition limiter_of (c : Config) : RateLimiter :=
  {| max_failures := max_attempts (rate_limit (security c)); limiter_window_secs := window_secs (rate_limit (security c)) |}.

(** How [authenticate] reads an outcome; before the camera is open nothing can have cancelled. *)
Definition gate_answer (o : AuthOutcome) : result MatchResult string :=
  match o with
  | AuthResult mr => Ok mr
  | Suppressed => Ok no_models_result
  | AuthError _ message => Err message
  | Cancelled => Err "authentication cancelled"
  end.

Definition scan_answer (o : AuthOutcome) : result MatchResult string :=
  match o with
  | AuthResult mr => Ok mr
  | AuthError _ message => Err message
  | Suppressed => Err "unexpected auth response"
  | Cancelled => Err "authentication cancelled"
  end.

Definition returned {A} (r : result A string) (es : list Effect) (s : FaceStore) (d : KeyFile.Dir) : option (Ending (result A string)) :=
  Some (Returned {| answer := r; effects := es; store_after := s; keys_after := d |}).

(** From the gates on. *)
Definition authenticate_past_gates (env : DirectEnv) (c : Config) (user : string) (resolved : ResolvedCamera)
    (s : FaceStore) (d : KeyFile.Dir) : option (Ending (result MatchResult string)) :=
  match open_resolved_camera env c resolved Authentication with
  | Err e => returned (Err e) [] s d
  | Ok (cam, _) =>
      match load_engine env with
      | Err e => returned (Err e) [] s d
      | Ok _ =>
          match list_models user s with
          | (Err e, s) => returned (Err ("storage error listing face models: " +:+ store_error_to_string e)) [] s d
          | (Ok models, s) =>
              match load_user_embeddings (dv_keys env) c user s d with
              | (Err e, s, d) => returned (Err e) [] s d
              | (Ok stored, s, d) =>
                  match authenticate_with_embeddings (cam_caps cam) models c user SourceTest (dv_wall_at env) stored
                          false (dv_start env) (dv_armed env) (dv_ticks env) (dv_fuel env) with
                  | None => None
                  | Some Panicked => Some (Unwound s d)
                  | Some (Finished o es) => returned (scan_answer o) es s d
                  end
              end
          end
      end
  end.

Definition authenticate_in_store (env : DirectEnv) (c : Config) (user : string) (s : FaceStore) (d : KeyFile.Dir) :
    option (Ending (result MatchResult string)) :=
  match in_context "failed to resolve camera device" (resolve_camera_device env c) with
  | Err e => returned (Err e) [] s d
  | Ok resolved =>
      match pre_check_audited_with_context (dv_host env) c user (limiter_of c) (res_caps resolved) SourceTest ctx_test s with
      | (Some (resp, e), s) => returned (gate_answer resp) [WriteAudit e] s d
      | (None, s) => authenticate_past_gates env c user resolved s d
      end
  end.

Definition authenticate (env : DirectEnv) (c : Config) (user : string) (s : FaceStore) (d : KeyFile.Dir) :
    PamWorld.Io (option (Ending (result MatchResult string))) :=
  opened ← open_store env c;
  mret match opened with
       | Err e => returned (Err e) [] s d
       | Ok _ => authenticate_in_store env c user s d
       end.

Definition enroll_answer (o : EnrollOutcome) : result (Z * Z) string :=
  match o with
  | Enrolled mid n => Ok (mid, n)
  | EnrollError message => Err message
  | EnrollCancelled => Err "enrollment cancelled"
  end.

Definition no_sealer_refusal (k : SealingKeys) : string :=
  "refusing to enroll: " +:+ sentence (unwrap_or "the configured encryption sealer could not be initialized" (primary_error k)) +:+
  " Storing your face would otherwise fall back to plaintext. Fix the keyfile path/permissions (or set encryption.method = " +:+
  dq +:+ "none" +:+ dq +:+ " with security.allow_plaintext = true to intentionally store plaintext).".

(** Once the store is open. *)
Definition enroll_in_store (env : DirectEnv) (c : Config) (user label : string) (cam : OpenCamera)
    (s : FaceStore) (d : KeyFile.Dir) : option (Ending (result (Z * Z) string)) :=
  match load_engine env with
  | Err e => returned (Err e) [] s d
  | Ok _ =>
      match load_sealing_keys (dv_keys env) c s d with
      | (Err e, s, d) => returned (Err e) [] s d
      | (Ok k, s, d) =>
          if negb (bool_decide (method (encryption c) = EncNone)) && negb (is_some (primary k))
          then returned (Err (no_sealer_refusal k)) [] s d
          else
            match Enroll.enroll c user label ((λ p, software_sealer p (dv_nonces env)) <$> primary k)
                    (canonical_for_storage (fingerprint (cam_caps cam))) (primary_key_id k) (dv_enroll env) (dv_fuel env) s with
            | None => None
            | Some EnrollPanicked => Some (Unwound s d)
            | Some (EnrollEnded o s) => returned (enroll_answer o) [] s d
            end
      end
  end.

Definition enroll (env : DirectEnv) (c : Config) (user label : string) (s : FaceStore) (d : KeyFile.Dir) :
    PamWorld.Io (option (Ending (result (Z * Z) string))) :=
  match ensure_enroll_encryption_allowed c with
  | Err m => mret (returned (Err m) [] s d)
  | Ok _ =>
      match open_camera env c with
      | Err e => mret (returned (Err e) [] s d)
      | Ok (cam, _) =>
          match ensure_enrollment_binding_allowed c (fingerprint (cam_caps cam)) with
          | Err refusal => mret (returned (Err (binding_error_to_string refusal)) [] s d)
          | Ok _ =>
              opened ← open_store env c;
              mret match opened with
                   | Err e => returned (Err e) [] s d
                   | Ok _ => enroll_in_store env c user label cam s d
                   end
          end
      end
  end.
End direct.
