(* ===== verification/OneShot.v ===== *)
(** * OneShot: the child the PAM module runs ([facelock-cli/src/commands/auth.rs])

    [facelock auth] is one process per attempt: it resolves the camera, fixes the modes of the
    state directory, passes the daemon's gates, brings the user's enrollment marker into line
    with the store, starts the engine and then the camera, scans, and answers with an exit code.
    The calls on the state directory run in the monad of [PamWorld.v]; the rest is what the
    process was answered, a [OneShotEnv]. *)

From stdpp Require Import gmap.
From S2P Require Import Prelude Provenance PamFiles PamWorld Markers Float32 Types Matching DeviceBinding Config Store RateLimit Gates AuditLog Auth Sealing KeyFile Keyring Embeddings Enroll Handler Direct.

(** ** Exit codes *)
Definition EXIT_SUPPRESSED : Z := 4.

Definition oneshot_exit_code (k : ErrorKind) : Z :=
  match k with
  | RateLimited => 3
  | AllFramesDark => 5
  | Disabled | SshSession | LidClosed | LidUnavailable | Storage | RateLimitCheckFailed | IrRequired
  | Y16BitDepthRequired | Internal => 2
  end.

Definition preflight_exit_code (o : AuthOutcome) : Z :=
  match o with
  | AuthError k _ => oneshot_exit_code k
  | Suppressed => EXIT_SUPPRESSED
  | _ => 2
  end.

Definition scan_exit_code (o : AuthOutcome) : Z :=
  match o with
  | AuthResult mr => if matched mr then 0 else 1
  | Cancelled => 2
  | AuthError k _ => oneshot_exit_code k
  | Suppressed => 2
  end.

(** A panic of the main thread ends a Rust process with this code. *)
Definition EXIT_PANIC : Z := 101.

(** ** Start-up *)
Inductive StartupAbort := StartCancelled | StartEngine (e : string) | StartCamera (e : string).

(** [before] and [after] are the token before and after the engine is loaded. *)
Definition start_engine_then_camera {E C} (before after : bool) (load_engine : result E string)
    (open_camera : result C string) : result (E * C) StartupAbort :=
  if before then Err StartCancelled
  else
    let? engine := map_err StartEngine load_engine in
    if after then Err StartCancelled
    else let? camera := map_err StartCamera open_camera in Ok (engine, camera).

(** ** The environment *)

(** The token is read before and after the engine is loaded, before each warm-up frame, and when
    the scan begins; SIGTERM, SIGINT and SIGHUP set it. *)
Record OneShotEnv := {
  os_config : result Config string;
  os_detect : result string string;                     (* the path of the detected camera *)
  os_query : string → result ResolvedCamera string;
  os_fingerprint : string → DeviceFingerprint;          (* of a device that cannot be queried *)
  os_opens : option StoreError;
  os_host : Host;
  os_cancelled_before : bool;
  os_cancelled_after : bool;
  os_engine : result unit string;
  os_open : result CameraCaps string;
  os_cancelled_warmup : nat → bool;
  os_keys : KeyEnv;
  os_start : Z;                                         (* before the attempt *)
  os_cancelled_scan : bool;
  os_auth_start : Z;
  os_armed : Z;
  os_ticks : nat → Tick;
  os_wall_at : Z → option Z;
  os_ended : Z;                                         (* after the attempt *)
  os_wall : option Z;                                   (* when a failure is recorded *)
  os_fuel : nat }.

(** A call leaves an exit code, or has not ended. *)
Definition Exit : Type := option (Aftermath Z).
Definition exit_with (code : Z) (es : list Effect) (s : FaceStore) (d : KeyFile.Dir) : Exit :=
  Some {| answer := code; effects := es; store_after := s; keys_after := d |}.

Definition with_camera_path (p : string) (c : Config) : Config :=
  {| device := {| path := Some p; max_height := max_height (device c); rotation := rotation (device c);
                  warmup_frames := warmup_frames (device c); dark_threshold := dark_threshold (device c);
                  dark_pixel_value := dark_pixel_value (device c); ir_emitter := ir_emitter (device c);
                  ir_led := ir_led (device c); keep_format := keep_format (device c);
                  camera_release_secs := camera_release_secs (device c);
                  camera_release_after_success_secs := camera_release_after_success_secs (device c) |};
     recognition := recognition c; daemon := daemon c; storage := storage c; security := security c;
     notification := notification c; snapshots := snapshots c; tpm := tpm c; encryption := encryption c;
     audit := audit c; polkit := polkit c; pam := pam c |}.

(** The configuration with a camera, and the path of that camera. *)
Definition configured_camera (env : OneShotEnv) (c : Config) : result (Config * string) string :=
  match path (device c) with
  | Some p => Ok (c, p)
  | None => let? p := os_detect env in Ok (with_camera_path p c, p)
  end.

Definition resolved_camera (env : OneShotEnv) (p : string) : option ResolvedCamera :=
  match os_query env p with Ok r => Some r | Err _ => None end.

Definition live_caps (env : OneShotEnv) (p : string) : CameraCaps :=
  match resolved_camera env p with
  | Some r => res_caps r
  | None => unqueryable (os_fingerprint env p)
  end.

Section oneshot.
Context {SD : ShowDebug} {MJ : MarkerJson} {RF : Rfc3339} {AC : Accounts}.
Context `{ShowSqlite} `{RowOrder} `{NanEncoding} `{Subtle} `{Aead} `{Sha256} `{TpmDevice}.

(** ** The marker *)
Definition converge_enrollment_marker (c : Config) (user : string) (models : option Z) : PamWorld.Io unit :=
  match models with Some n => set_marker c user n | None => mret tt end.

Definition clear_marker_the_store_contradicts (c : Config) (user : string) (s : FaceStore) : PamWorld.Io FaceStore :=
  match has_models user s with
  | (Ok false, s) => forget c user;; mret s
  | (Ok true, s) => mret s
  | (Err _, s) => mret s
  end.

(** ** The attempt *)

(** The warm-up is cancelled before one of its frames. *)
Definition warmup_cancelled (env : OneShotEnv) (warmup : Z) : bool :=
  existsb (os_cancelled_warmup env) (seq 0 (Z.to_nat warmup)).

Definition error_entry (env : OneShotEnv) (c : Config) (user : string) (k : ErrorKind) (message : string) : AuditEntry :=
  {| ae_timestamp := now_iso8601 (os_wall_at env (os_ended env)); ae_user := user; ae_result := audit_result k;
     ae_source := Some SourceOneshot; ae_similarity := None; ae_frame_count := None;
     ae_duration_ms := Some (elapsed_ms (os_start env) (os_ended env)); ae_device := path (device c);
     ae_model_label := None; ae_error := Some message |}.

(** A wrong guess is charged; an error of the limiter is only logged. *)
Definition charge_guess (env : OneShotEnv) (c : Config) (user : string) (o : AuthOutcome) (s : FaceStore) : FaceStore :=
  match o with
  | AuthResult mr =>
      if negb (matched mr) && face_detected mr
      then snd (record_failure (limiter_of c) (os_wall env) user s) else s
  | _ => s
  end.

(** What is audited here: the scan has already audited every other ending. *)
Definition ending_effects (env : OneShotEnv) (c : Config) (user : string) (o : AuthOutcome) : list Effect :=
  match o with
  | AuthError AllFramesDark _ | AuthError Y16BitDepthRequired _ => []
  | AuthError k message => [WriteAudit (error_entry env c user k message)]
  | _ => []
  end.

Definition scan (env : OneShotEnv) (c : Config) (user : string) (caps : CameraCaps) (models : list FaceModelInfo)
    (stored : list (Z * FaceEmbedding)) (s : FaceStore) (d : KeyFile.Dir) : Exit :=
  match authenticate_with_embeddings caps models c user SourceOneshot (os_wall_at env) stored (os_cancelled_scan env)
          (os_auth_start env) (os_armed env) (os_ticks env) (os_fuel env) with
  | None => None
  | Some Panicked => exit_with EXIT_PANIC [] s d
  | Some (Finished o es) => exit_with (scan_exit_code o) (es ++ ending_effects env c user o) (charge_guess env c user o s) d
  end.

Definition attempt (env : OneShotEnv) (c : Config) (user : string) (p : string) (models : list FaceModelInfo)
    (s : FaceStore) (d : KeyFile.Dir) : Exit :=
  let warmup := unwrap_or (warmup_frames (device c)) (resolved_camera env p ≫= quirk_warmup) in
  match start_engine_then_camera (os_cancelled_before env) (os_cancelled_after env) (os_engine env) (os_open env) with
  | Err StartCancelled => exit_with 2 [] s d
  | Err (StartEngine _) => exit_with 2 [] s d
  | Err (StartCamera _) => exit_with 2 [] s d
  | Ok (_, caps) =>
      if negb (bool_decide (ir_texture_scale caps = UnverifiedY16)) && warmup_cancelled env warmup
      then exit_with 2 [] s d
      else
        match load_user_embeddings (os_keys env) c user s d with
        | (Err _, s, d) => exit_with (oneshot_exit_code Storage) [] s d
        | (Ok stored, s, d) => scan env c user caps models stored s d
        end
  end.

(** Once the gates are passed. *)
Definition run_admitted (env : OneShotEnv) (c : Config) (user : string) (p : string) (s : FaceStore) (d : KeyFile.Dir) :
    PamWorld.Io Exit :=
  let '(listed, s) := list_models user s in
  converge_enrollment_marker c user (match listed with Ok models => Some (as_u32 (Z.of_nat (length models))) | Err _ => None end);;
  mret match listed with
       | Err _ => exit_with (oneshot_exit_code Storage) [] s d
       | Ok models => attempt env c user p models s d
       end.

(** Once the store is open. *)
Definition run_in_store (env : OneShotEnv) (c : Config) (user : string) (p : string) (s : FaceStore) (d : KeyFile.Dir) :
    PamWorld.Io Exit :=
  match pre_check_audited (os_host env) c user (limiter_of c) (live_caps env p) SourceOneshot s with
  | (Some (resp, e), s) =>
      s ← clear_marker_the_store_contradicts c user s;
      mret (exit_with (preflight_exit_code resp) [WriteAudit e] s d)
  | (None, s) => run_admitted env c user p s d
  end.

Definition run (env : OneShotEnv) (user : string) (s : FaceStore) (d : KeyFile.Dir) : PamWorld.Io Exit :=
  match os_config env with
  | Err _ => mret (exit_with 2 [] s d)
  | Ok c =>
      match configured_camera env c with
      | Err _ => mret (exit_with 2 [] s d)
      | Ok (c, p) =>
          ensure_state_layout_best_effort c;;
          match os_opens env with
          | Some _ => mret (exit_with 2 [] s d)
          | None => run_in_store env c user p s d
          end
      end
  end.
End oneshot.
