(* ===== verification/OneShotProofs.v ===== *)
(** * OneShotProofs: what the one-shot child decides, and that it decides as the daemon does *)

From stdpp Require Import gmap.
From S2P Require Import Prelude PamFiles PamWorld Markers Float32 Types Matching DeviceBinding Config Store StoreProofs RateLimit Gates AuditLog Auth AuthProofs Provenance Ingress Pam Sealing KeyFile Keyring Embeddings Enroll EnrollProofs Handler HandlerProofs Daemon Server ServerProofs MarkersProofs Direct OneShot.

(** ** The state directory decides nothing *)
Section verdict.
Context {SD : ShowDebug} {MJ : MarkerJson} {RF : Rfc3339} {AC : Accounts}.
Context `{ShowSqlite} `{RowOrder} `{NanEncoding} `{Subtle} `{Aead} `{Sha256} `{TpmDevice}.

(** What the process decides, with the layout and the markers left out. *)
Definition verdict_admitted (env : OneShotEnv) (c : Config) (user : string) (p : string) (s : FaceStore) (d : KeyFile.Dir) : Exit :=
  match list_models user s with
  | (Err _, s) => exit_with (oneshot_exit_code Storage) [] s d
  | (Ok models, s) => OneShot.attempt env c user p models s d
  end.

Definition verdict_in_store (env : OneShotEnv) (c : Config) (user : string) (p : string) (s : FaceStore) (d : KeyFile.Dir) : Exit :=
  match pre_check_audited (os_host env) c user (limiter_of c) (live_caps env p) SourceOneshot s with
  | (Some (resp, e), s) => exit_with (preflight_exit_code resp) [WriteAudit e] (snd (has_models user s)) d
  | (None, s) => verdict_admitted env c user p s d
  end.

Definition verdict (env : OneShotEnv) (user : string) (s : FaceStore) (d : KeyFile.Dir) : Exit :=
  match os_config env with
  | Err _ => exit_with 2 [] s d
  | Ok c =>
      match configured_camera env c with
      | Err _ => exit_with 2 [] s d
      | Ok (c, p) => match os_opens env with Some _ => exit_with 2 [] s d | None => verdict_in_store env c user p s d end
      end
  end.

(** A computation that gives [a] if the process is not killed in it. *)
Definition gives {A} (c : PamWorld.Io A) (a : A) : Prop :=
  ∀ w es, match fst (fst (c w es)) with PamWorld.Done r => r = Ok a | Killed => True end.

Lemma gives_ret {A} (a : A) : gives (mret a) a.
Proof. by intros w es. Qed.

Lemma gives_ignore {A} (c : PamWorld.Io A) : gives (PamWorld.ignore c) tt.
Proof. intros w es. unfold PamWorld.ignore, catch, mbind, Io_bind. by destruct (c w es) as [[[[a|e]|] w'] es']. Qed.

Lemma gives_bind {A B} (c : PamWorld.Io A) (k : A → PamWorld.Io B) a b : gives c a → gives (k a) b → gives (c ≫= k) b.
Proof.
  intros Hc Hk w es. specialize (Hc w es). unfold mbind, Io_bind. destruct (c w es) as [[[r|] w'] es']; [|done].
  cbn in Hc. subst r. apply Hk.
Qed.

(** Nothing that fails in the state directory changes the exit code, what is audited, the store or
    the keys. *)
Theorem run_gives_verdict env user s d : gives (OneShot.run env user s d) (verdict env user s d).
Proof.
  unfold OneShot.run, verdict. destruct (os_config env) as [c|e]; [|apply gives_ret].
  destruct (configured_camera env c) as [[c' p]|e]; [|apply gives_ret].
  eapply gives_bind; [apply gives_ignore|]. destruct (os_opens env); [apply gives_ret|].
  unfold run_in_store, verdict_in_store. destruct (pre_check_audited _ _ _ _ _ _ s) as [[[resp e]|] s1].
  - eapply gives_bind; [|apply gives_ret]. unfold clear_marker_the_store_contradicts, forget.
    destruct (has_models user s1) as [[[]|e'] s2]; try apply gives_ret. eapply gives_bind; [apply gives_ignore|apply gives_ret].
  - unfold OneShot.run_admitted, verdict_admitted. destruct (list_models user s1) as [[models|e] s2].
    + eapply gives_bind; [apply gives_ignore|apply gives_ret].
    + eapply gives_bind; [apply gives_ret|apply gives_ret].
Qed.
End verdict.

(** ** Two connections to the same database

    Two processes that read and write one database without a fault: the statements of each are
    answered alike. *)
Section alike.
Context `{ShowSqlite} `{RowOrder}.

Record alike (s s' : FaceStore) : Prop := {
  al_path : store_path s = store_path s';
  al_db : db s = db s';
  al_saved : saved s = saved s';
  al_calm n : faults s n = None;
  al_calm' n : faults s' n = None }.

#[export] Instance alike_symmetric : Symmetric alike.
Proof. intros s s' []. by split. Qed.

#[export] Instance alike_transitive : Transitive alike.
Proof. intros a b c [] []. by split; [congruence..| |]. Qed.

(** A reading statement leaves the connection as it was, but for its count. *)
Lemma alike_read s s' t : alike s s' → db t = db s → same_conn s t → alike s t.
Proof. intros [Hp Hd Hs Hc _] Ht (Hs' & Hp' & Hf). split; [congruence..|done|]. intros n. by rewrite Hf. Qed.

Lemma pre_check_templates host c user rl caps ctx s o s' :
  pre_check_with_context host c user rl caps ctx s = (o, s') → same_templates s s'.
Proof.
  unfold pre_check_with_context. destruct (disabled _); [by intros [= _ <-]|]. destruct (_ && _ && _); [by intros [= _ <-]|].
  destruct (if _ && _ then _ else _); [by intros [= _ <-]|].
  destruct (has_models user s) as [[[]|e] s1] eqn:Em; apply has_models_templates in Em; [|by intros [= _ <-]..].
  destruct (check _ _ user s1) as [[[]|e] s2] eqn:Ec; apply check_templates in Ec;
    assert (same_templates s s2) as Hs by (by etrans); [|by intros [= _ <-]..].
  destruct (bool_decide _); [by intros [= _ <-]|]. by destruct (_ && negb _); intros [= _ <-].
Qed.

Definition agrees {A E} (x y : result A E * FaceStore) : Prop := fst x = fst y ∧ alike (snd x) (snd y).

(** A computation that cannot tell such connections apart: the proper ones. *)
Definition respects {A E} (m : M E A) : Prop := ∀ s s', alike s s' → agrees (m s) (m s').

Lemma respects_ret {A E} (a : A) : respects (E:=E) (ret a).
Proof. by intros s s'. Qed.

Lemma respects_bind {A B E} (m : M E A) (k : A → M E B) : respects m → (∀ a, respects (k a)) → respects (bind m k).
Proof.
  intros Hm Hk s s' Ha. destruct (Hm s s' Ha) as [Hr Ha1]. unfold bind.
  destruct (m s) as [r s1], (m s') as [r' s1']. cbn in Hr, Ha1. subst r'. destruct r; [by apply Hk|done].
Qed.

Lemma respects_exec {A} (f : Db → result (A * Db) RusqliteError) : respects (exec f).
Proof.
  intros s s' [Hp Hd Hs Hc Hc']. unfold exec. rewrite Hc, Hc', Hd, Hp. by destruct (f (db s')) as [[a d]|e].
Qed.

Lemma respects_ignore {A B E F} (m : M F A) (k : M E B) : respects m → respects k → respects (RateLimit.ignore m k).
Proof. intros Hm Hk s s' Ha. apply Hk, Hm, Ha. Qed.

Lemma respects_string {A} (m : M StoreError A) : respects m → respects (string_err m).
Proof.
  intros Hm s s' Ha. destruct (Hm s s' Ha) as [Hr Ha1]. unfold string_err.
  destruct (m s) as [r s1], (m s') as [r' s1']. cbn in Hr, Ha1. by subst r'.
Qed.

Lemma respects_throw {A} (f : string → StoreError) : respects (A:=A) (λ s, (Err (f (store_path s)), s)).
Proof. intros s s' Ha. split; [cbn; by rewrite (al_path _ _ Ha)|done]. Qed.

Lemma respects_rows {A B} (conv : A → result B RusqliteError) rows : respects (step_rows conv rows).
Proof.
  induction rows as [|r rows IH]; [apply respects_ret|]. cbn [step_rows].
  apply respects_bind; [apply respects_exec|intros ?]. apply respects_bind; [done|intros ?]. apply respects_ret.
Qed.

Lemma respects_query {A B} (select : Db → list A) (conv : A → result B RusqliteError) : respects (query_map select conv).
Proof. apply respects_bind; [apply respects_exec|intros ?; apply respects_rows]. Qed.

Lemma respects_has_models user : respects (has_models user).
Proof. apply respects_bind; [apply respects_exec|intros ?; apply respects_ret]. Qed.

Lemma respects_check rl clock user : respects (check rl clock user).
Proof. apply respects_ignore; [apply respects_exec|]. apply respects_string, respects_bind; [apply respects_exec|intros ?; apply respects_ret]. Qed.

Lemma respects_record rl clock user : respects (record_failure rl clock user).
Proof.
  apply respects_bind; [apply respects_string, respects_exec|intros ?]. apply respects_ignore; [apply respects_exec|apply respects_ret].
Qed.

Lemma respects_collect rows : ∀ acc, respects (collect_embeddings acc rows).
Proof.
  induction rows as [|r rows IH]; intros acc; [apply respects_ret|]. cbn [collect_embeddings].
  apply respects_bind; [apply respects_exec|intros x]. destruct (_ =? _)%nat; [apply IH|].
  apply (respects_throw (λ p, Corrupt p _)).
Qed.

Lemma respects_embeddings user : respects (get_user_embeddings user).
Proof. apply respects_bind; [apply respects_exec|intros ?; apply respects_collect]. Qed.

Lemma respects_gates host c user rl caps ctx s s' : alike s s' →
  let x := pre_check_with_context host c user rl caps ctx s in
  let y := pre_check_with_context host c user rl caps ctx s' in
  fst x = fst y ∧ alike (snd x) (snd y).
Proof.
  intros Ha. unfold pre_check_with_context. destruct (disabled _); [done|]. destruct (_ && _ && _); [done|].
  destruct (if _ && _ then _ else _); [done|]. destruct (respects_has_models user s s' Ha) as [Hr Ha1].
  destruct (has_models user s) as [r s1], (has_models user s') as [r' s1']. cbn in Hr, Ha1. subst r'. destruct r as [[]|e]; [|done..].
  destruct (respects_check rl (wall host) user s1 s1' Ha1) as [Hr Ha2].
  destruct (check rl (wall host) user s1) as [r s2], (check rl (wall host) user s1') as [r' s2']. cbn in Hr, Ha2. subst r'.
  destruct r as [[]|e]; [|done..]. destruct (bool_decide _); [done|]. by destruct (_ && _).
Qed.
End alike.

(** ** Who asks does not change what is seen *)
Section labels.
Context `{NanEncoding} `{Subtle} (caps : CameraCaps) (models : list FaceModelInfo) (c : Config) (user : string)
  (source source' : AuditSource) (wall : Z → option Z).

Definition ending_of (e : ScanEnd) : option AuthOutcome := match e with Finished o _ => Some o | Panicked => None end.

Definition step_outcome (r : StepResult) : StepResult := match r with SReturn o _ => SReturn o [] | r => r end.

Lemma gates_source start now st :
  step_outcome (gates models c user source wall start now st) = step_outcome (gates models c user source' wall start now st).
Proof.
  unfold gates. destruct (require_frame_variance _); [destruct (passes _ _); [|done]|destruct (f32_ge _ _); [|done]]; by destruct (landmarks_block _ _).
Qed.

Lemma step_source set start deadline nfd t st :
  step_outcome (scan_step caps models c user source wall set start deadline nfd t st)
  = step_outcome (scan_step caps models c user source' wall set start deadline nfd t st).
Proof.
  unfold scan_step. destruct (negb (t_loop t <? deadline)); [done|]. destruct (t_cancelled t); [done|].
  destruct (negb (seen_face st) && _); [done|]. destruct (t_capture t); [|done]. destruct (is_dark_with_config _ _ _); [done|].
  destruct (t_faces t) as [[|[det e] faces]|]; [done| |done]. destruct (if is_ir caps then _ else _) as [[]|]; [done| |done].
  destruct (compare_faces _ _ _ _ _ _ _); [|done]. apply gates_source.
Qed.

Lemma loop_source set start deadline nfd env fuel n st :
  ending_of <$> scan_loop caps models c user source wall set start deadline nfd env fuel n st
  = ending_of <$> scan_loop caps models c user source' wall set start deadline nfd env fuel n st.
Proof.
  revert n st. induction fuel as [|fuel IH]; intros n st; [done|]. cbn [scan_loop].
  pose proof (step_source set start deadline nfd (env n) st) as Hs.
  destruct (scan_step _ _ _ _ source _ _ _ _ _ _ _), (scan_step _ _ _ _ source' _ _ _ _ _ _ _); try done; injection Hs as ->; [apply IH| |done].
  by unfold finish; destruct (_ && _).
Qed.

Lemma attempt_source stored cancel0 start armed env fuel :
  ending_of <$> authenticate_with_embeddings caps models c user source wall stored cancel0 start armed env fuel
  = ending_of <$> authenticate_with_embeddings caps models c user source' wall stored cancel0 start armed env fuel.
Proof.
  unfold authenticate_with_embeddings. destruct cancel0; [done|]. destruct (bool_decide _); [done|]. apply loop_source.
Qed.
End labels.

(** ** Exit codes against replies *)

(** The PAM code of a daemon's response, and of an exit. *)
Definition code_of (r : DaemonResponse) : Z :=
  match r with
  | RespAuthResult mr => if matched mr then PAM_SUCCESS else if face_detected mr then PAM_AUTH_ERR else PAM_IGNORE
  | RespSuppressed => PAM_AUTHINFO_UNAVAIL
  | RespError m => fst (pam_code_for_daemon_error m)
  | _ => PAM_IGNORE
  end.

Definition exit_pam (code : Z) : Z := pam_code (classify_exit code).

(** Where the two part: a scan that saw nobody, and an error that is not a lockout but whose text
    names one. *)
Definition diverges (r : DaemonResponse) (code : Z) : bool :=
  match r with
  | RespAuthResult mr => negb (matched mr) && negb (face_detected mr) && (code =? 1)
  | RespError m => negb (code =? 3) && (str_contains "rate_limit" m || str_contains "rate limited" m)
  | _ => false
  end.

Definition parted (r : DaemonResponse) (code : Z) : Prop := exit_pam code = code_of r ↔ diverges r code = false.

Lemma error_parted m code : code = 2 ∨ code = 5 ∨ code = 3 ∧ m = render RateLimited "" → parted (RespError m) code.
Proof.
  intros [->|[->|[-> ->]]]; unfold parted, diverges, code_of, pam_code_for_daemon_error; [| |by vm_compute];
    (destruct (_ || _); cbn [negb andb Z.eqb fst]; [by vm_compute|]);
    destruct (str_contains "IR camera required" m || _); [by vm_compute|by destruct (String.eqb m _); vm_compute| |];
    try (by vm_compute); by destruct (String.eqb m _); vm_compute.
Qed.

Lemma kind_parted k m : (k = RateLimited → m = render RateLimited "") → parted (RespError m) (oneshot_exit_code k).
Proof. intros Hk. apply error_parted. destruct k; cbn; auto. Qed.

Lemma scan_parted mr : parted (RespAuthResult mr) (if matched mr then 0 else 1).
Proof. unfold parted, diverges, code_of. by destruct (matched mr), (face_detected mr); vm_compute. Qed.

(** Gates and scans word a lockout in one way. *)
Lemma gate_parted `{ShowSqlite} host c user rl caps ctx s o :
  fst (pre_check_with_context host c user rl caps ctx s) = Some o → parted (response_of_auth o) (preflight_exit_code o).
Proof.
  unfold pre_check_with_context. destruct (disabled _); [intros [= <-]; by apply kind_parted|].
  destruct (_ && _ && _); [intros [= <-]; by apply kind_parted|].
  destruct (if _ && _ then _ else _) as [k|] eqn:El.
  { intros [= <-]. cbn. apply kind_parted. intros ->. by destruct (_ && _), (lid_source ctx) as [|[]|], (procfs_lid host). }
  clear El.
  destruct (has_models user s) as [[[]|e] s1]; [|destruct (suppress_unknown _); intros [= <-]; by vm_compute|intros [= <-]; by apply kind_parted].
  destruct (check _ _ user s1) as [[[]|e] s2]; [|intros [= <-]; by apply kind_parted..].
  destruct (bool_decide _); [intros [= <-]; by apply kind_parted|]. destruct (_ && _); [intros [= <-]; by apply kind_parted|done].
Qed.

Section scan_words.
Context `{NanEncoding} `{Subtle}.

Definition scan_worded (o : AuthOutcome) : Prop :=
  match o with AuthError k m => (k = AllFramesDark ∨ k = Y16BitDepthRequired) ∧ m = render k "" | Suppressed => False | _ => True end.

Lemma step_worded caps models c user source wall set start deadline nfd t st o es :
  scan_step caps models c user source wall set start deadline nfd t st = SReturn o es → scan_worded o.
Proof.
  unfold scan_step. destruct (negb (t_loop t <? deadline)); [done|]. destruct (t_cancelled t); [by intros [= <- _]|].
  destruct (negb (seen_face st) && _); [done|]. destruct (t_capture t); [|done]. destruct (is_dark_with_config _ _ _); [done|].
  destruct (t_faces t) as [[|[det e] faces]|]; [done| |done]. destruct (if is_ir caps then _ else _) as [[]|]; [done| |done].
  destruct (compare_faces _ _ _ _ _ _ _); [|done]. unfold gates.
  destruct (require_frame_variance _); [destruct (passes _ _); [|done]|destruct (f32_ge _ _); [|done]];
    (destruct (landmarks_block _ _); [done|]); by intros [= <- _].
Qed.

Lemma loop_worded caps models c user source wall set start deadline nfd env fuel n st o es :
  scan_loop caps models c user source wall set start deadline nfd env fuel n st = Some (Finished o es) → scan_worded o.
Proof.
  revert n st. induction fuel as [|fuel IH]; intros n st; [done|]. cbn [scan_loop].
  destruct (scan_step _ _ _ _ _ _ _ _ _ _ _ st) as [st'|st'|o' es'|] eqn:Es; [apply IH| | |done].
  - unfold finish. destruct (_ && _); intros [= <- _]; [by split; [left|]|done].
  - intros [= <- _]. by eapply step_worded.
Qed.

Lemma attempt_worded caps models c user source wall stored cancel0 start armed env fuel o es :
  authenticate_with_embeddings caps models c user source wall stored cancel0 start armed env fuel = Some (Finished o es) → scan_worded o.
Proof.
  unfold authenticate_with_embeddings. destruct cancel0; [by intros [= <- _]|].
  destruct (bool_decide _); [intros [= <- _]; by split; [right|]|]. apply loop_worded.
Qed.
End scan_words.

Lemma outcome_parted o : scan_worded o → parted (response_of_auth o) (scan_exit_code o).
Proof.
  destruct o as [mr| |k m|]; [intros _; apply scan_parted|done| |intros _; by vm_compute].
  intros [Hk ->]. apply kind_parted. by destruct Hk as [->| ->].
Qed.

(** ** Both transports load the same templates *)
Section loading.
Context `{ShowSqlite} `{RowOrder} `{NanEncoding} `{Subtle} `{Aead} `{Sha256} `{TpmDevice}.

Definition same_ok {A E E'} (x : result A E) (y : result A E') : Prop :=
  match x, y with Ok a, Ok b => a = b | Err _, Err _ => True | _, _ => False end.

Lemma same_ok_map_err {A E E' F F'} (f : E → F) (g : E' → F') (x : result A E) (y : result A E') :
  same_ok x y → same_ok (map_err f x) (map_err g y).
Proof. by destruct x, y. Qed.

(** A row that only the TPM opens. *)
Definition needs_tpm (row : RawEmbeddingRow) : bool := raw_sealed row && negb (is_software_encrypted (raw_blob row)).

(** The TPM a daemon holds is the one a process reaches when it needs it, unless no row needs it. *)
Definition held_alike (held : bool) (tc : string) (row : RawEmbeddingRow) : Prop :=
  held = is_ok (tpm_sealer_new tc) ∨ needs_tpm row = false.

Lemma opened_access c k held tc row : held_alike held tc row →
  same_ok (opened c k (Held held) row) (opened c k (Lazy tc false) row).
Proof.
  intros Hr. unfold opened, decrypt_row. destruct (_ && is_software_encrypted _) eqn:Es; [by destruct (decrypt_software_row _ _ _ _ _ _)|].
  unfold held_alike, needs_tpm in Hr. destruct (raw_sealed row); [|clear; by destruct (negb (_ =? _)%nat)]. cbn [andb] in Es, Hr. rewrite Es in Hr.
  destruct Hr as [->|Hr]; [|done]. cbn [access_sealer].
  destruct (tpm_sealer_new tc) as [|e]; cbn; [|done]. by destruct (tpm_unseal_embedding _).
Qed.

Lemma map_result_same {A B E} (f g : A → result B E) l : Forall (λ a, same_ok (f a) (g a)) l → same_ok (map_result f l) (map_result g l).
Proof.
  induction 1 as [|a l Hf _ IH]; [done|]. cbn [map_result].
  destruct (f a), (g a); try done. cbn in Hf. subst. by destruct (map_result f l), (map_result g l); cbn in *; subst.
Qed.

Lemma decrypt_access rows c k held tc : Forall (held_alike held tc) rows →
  same_ok (decrypt_user_embeddings rows c k (Held held)) (decrypt_user_embeddings rows c k (Lazy tc false)).
Proof.
  intros Hr. unfold decrypt_user_embeddings.
  pose proof (map_result_same (opened c k (Held held)) (opened c k (Lazy tc false)) rows (Forall_impl _ _ _ Hr (opened_access c k held tc))) as Hm.
  pose proof (decrypt_rows_spec c k rows (Held held) []) as Hh.
  pose proof (decrypt_rows_spec c k rows (Lazy tc false) []) as Hl.
  destruct (map_result (opened c k (Held _)) rows), (map_result (opened c k (Lazy _ _)) rows); try done; cbn in Hm.
  - subst. by rewrite Hh, Hl.
  - destruct Hh as (l1 & -> & _), Hl as (l2 & -> & _). done.
Qed.

(** Such a row parts the transports when the daemon holds no TPM that a process could reach: the
    daemon opens its own only under [tpm.seal_database]. *)
Lemma sealed_row_parts c k tc row e : needs_tpm row = true → is_ok (tpm_sealer_new tc) = true →
  tpm_unseal_embedding (raw_blob row) = Ok e →
  is_ok (opened c k (Held false) row) = false ∧ opened c k (Lazy tc false) row = Ok e.
Proof.
  unfold needs_tpm, opened, decrypt_row. intros [Hs Hn]%andb_true_iff Ht Hu. rewrite Hs. apply negb_true_iff in Hn. rewrite Hn.
  cbn [andb access_sealer]. destruct (tpm_sealer_new tc); [|done]. cbn. by rewrite Hu.
Qed.

(** What both processes need of a user's rows: that the daemon holds the TPM whenever one of them is
    sealed by it. *)
Definition tpm_alike (c : Config) (held : bool) (user : string) (s : FaceStore) : Prop :=
  held = is_ok (tpm_sealer_new (tcti (tpm c))) ∨
  Forall (λ x, e_sealed (snd x) = 0 ∨ is_software_encrypted (e_embedding (snd x)) = true) (sql_join (of_user user) (db s)).

Lemma tpm_alike_later c held user s s' : same_templates s s' → tpm_alike c held user s → tpm_alike c held user s'.
Proof. intros (Hm & He & _) [Ht|Ht]; [by left|right]. unfold sql_join in *. by rewrite Hm, He. Qed.

Lemma rows_alike c held user s rows s' : tpm_alike c held user s →
  get_user_embeddings_raw_with_device user s = (Ok rows, s') → Forall (held_alike held (tcti (tpm c))) rows.
Proof.
  intros [->|Ht] Hq%query_map_ok; [by apply Forall_forall; left|].
  rewrite <- (scan_perm _ (sql_join (of_user user) (db s))) in Ht.
  induction Hq as [|x row xs rows Hx _ IH]; [done|]. apply Forall_cons in Ht as [Hx' Ht]. constructor; [|auto]. right.
  unfold raw_row in Hx. destruct (get_u32 0 _); [|done]. injection Hx as <-. unfold needs_tpm. cbn.
  destruct Hx' as [-> | ->]; [done|by rewrite andb_false_r].
Qed.

(** The keys a process loads are those the daemon holds, whichever of them asks. *)
Definition same_keyring (env : KeyEnv) (c : Config) (k : SealingKeys) (s : FaceStore) (d : KeyFile.Dir) : Prop :=
  ∀ s1 s', same_templates s s1 → alike s1 s' → ∃ s'' d', load env c s' d = (Ok k, s'', d') ∧ alike s1 s''.

Lemma same_keyring_later env c k s s1 d : same_templates s s1 → same_keyring env c k s d → same_keyring env c k s1 d.
Proof. intros Hs Hk s2 s' Ht. apply Hk. by etrans. Qed.

Lemma loads_alike env c k held user s s' d : alike s s' → same_keyring env c k s d → tpm_alike c held user s →
  let '(r, t) := load_embeddings c k held user s in
  let '(r', t', _) := Direct.load_user_embeddings env c user s' d in
  same_ok r r' ∧ alike t t'.
Proof.
  intros Ha Hk Ht. destruct (Hk s s' (reflexivity s) Ha) as (s2 & d' & Hl & Ha2). unfold Direct.load_user_embeddings, load_sealing_keys, load_embeddings. rewrite Hl.
  destruct (negb _).
  - destruct (respects_embeddings user s s2 Ha2) as [Hr Ht'].
    destruct (get_user_embeddings user s) as [r t], (get_user_embeddings user s2) as [r' t']. cbn in Hr, Ht'. subst r'. by destruct r; cbn.
  - destruct (respects_query (λ d, Store.scan (sql_join (of_user user) d)) raw_row s s2 Ha2) as [Hr Ht'].
    pose proof (rows_alike c held user s) as Hra. unfold get_user_embeddings_raw_with_device in *.
    destruct (query_map _ raw_row s) as [r t], (query_map _ raw_row s2) as [r' t']. cbn in Hr, Ht'. subst r'.
    destruct r as [rows|e]; [|done]. split; [|done]. apply same_ok_map_err, decrypt_access. by eapply Hra.
Qed.
End loading.

(** ** Both transports decide alike *)
Section transports.
Context {SD : ShowDebug} {MJ : MarkerJson} {RF : Rfc3339} {AC : Accounts}.
Context `{ShowSqlite} `{RowOrder} `{NanEncoding} `{Subtle} `{Aead} `{Sha256} `{TpmDevice}.

(** One attempt, made through either transport: the same configuration, gates, camera, keys and
    frames, at the same times. *)
Record same_attempt (env : OneShotEnv) (rq : RequestEnv) (c : Config) (p user : string) (h : Handler) (d : KeyFile.Dir) : Prop := {
  sa_config : Handler.config h = c;
  sa_limiter : rate_limiter h = limiter_of c;
  sa_caps : device_caps h = live_caps env p;
  sa_host : rq_host rq = os_host env;
  sa_keys : same_keyring (os_keys env) c (keys h) (store h) d;
  sa_primary : primary_error (keys h) = None;
  sa_tpm : tpm_alike c (tpm_sealer h) user (store h);
  sa_engine : os_engine env = Ok tt;
  sa_camera : ∃ cam l, acquire_for_authentication rq c (lease h) = (Ok cam, l) ∧ os_open env = Ok (cam_caps cam);
  sa_undisturbed : os_cancelled_before env = false ∧ os_cancelled_after env = false ∧ ∀ n, os_cancelled_warmup env n = false;
  sa_cancel : rq_auth_cancelled rq = os_cancelled_scan env;
  sa_start : rq_start rq = os_auth_start env;
  sa_armed : rq_armed rq = os_armed env;
  sa_ticks : rq_ticks rq = os_ticks env;
  sa_wall : rq_wall_at rq = os_wall_at env;
  sa_recorded : rq_wall rq = os_wall env;
  sa_fuel : rq_fuel rq = os_fuel env }.

(** Endings that answer PAM alike, or part where that is known, and leave the same database. *)
Definition same_ending (x : Aftermath Z) (r : DaemonResponse) (h' : Handler) : Prop :=
  parted r (answer x) ∧ db (store_after x) = db (store h').

Lemma same_ending_exit code r es s d h' x : exit_with code es s d = Some x → parted r code → db s = db (store h') → same_ending x r h'.
Proof. intros [= <-] Hp Hd. by split. Qed.

Lemma charges_alike env rq c user o s s' h : rate_limiter h = limiter_of c → rq_wall rq = os_wall env → store h = s → alike s s' →
  db (charge_guess env c user o s') = db (store (charge rq user IntentAuthenticate o h)).
Proof.
  intros Hl Hw Hs Ha. unfold charge_guess, charge. destruct o as [mr| | |]; try (rewrite Hs; by destruct Ha).
  cbn [charges_rate_limit]. rewrite andb_true_r. destruct (negb (matched mr) && face_detected mr); [|rewrite Hs; by destruct Ha].
  rewrite Hl, Hw, Hs. destruct (respects_record (limiter_of c) (os_wall env) user s s' Ha) as [_ Ha']. by destruct Ha'.
Qed.

Lemma warmup_goes_on env n : (∀ n, os_cancelled_warmup env n = false) → warmup_cancelled env n = false.
Proof.
  intros Hn. unfold warmup_cancelled. apply not_true_is_false. intros (i & _ & Hi)%existsb_exists. by rewrite Hn in Hi.
Qed.

Lemma scans_alike env rq c p user h d d' cam l models stored s s' h2 x r fx h' :
  same_attempt env rq c p user h d → store h2 = s → alike s s' → Handler.config h2 = c → rate_limiter h2 = limiter_of c → acquire_for_authentication rq c (lease h) = (Ok cam, l) →
  OneShot.scan env c user (cam_caps cam) models stored s' d' = Some x →
  match authenticate_with_embeddings (cam_caps cam) models c user (audit_source IntentAuthenticate) (rq_wall_at rq) stored
          (rq_auth_cancelled rq) (rq_start rq) (rq_armed rq) (rq_ticks rq) (rq_fuel rq) with
  | None => None
  | Some Panicked => Some (HandlerPanicked h2)
  | Some (Finished o es) =>
      let h3 := with_lease (lease_finish (rq_now rq) (outcome_of_auth o) c (lease h2)) h2 in
      Some (Replied (response_of_auth o) es (charge rq user IntentAuthenticate o h3))
  end = Some (Replied r fx h') →
  same_ending x r h'.
Proof.
  intros Hsa Hs2 Ha Hc2 Hl2 Hacq. destruct Hsa. rewrite sa_cancel0, sa_start0, sa_armed0, sa_ticks0, sa_wall0, sa_fuel0. unfold OneShot.scan.
  pose proof (attempt_source (cam_caps cam) models c user SourceOneshot (audit_source IntentAuthenticate) (os_wall_at env)
    stored (os_cancelled_scan env) (os_auth_start env) (os_armed env) (os_ticks env) (os_fuel env)) as Hsrc.
  destruct (authenticate_with_embeddings _ _ _ _ SourceOneshot _ _ _ _ _ _ _) as [[o es|]|] eqn:E1; [| |done].
  - destruct (authenticate_with_embeddings _ _ _ _ (audit_source _) _ _ _ _ _ _ _) as [[o' es'|]|] eqn:E2; try done.
    injection Hsrc as <-. intros Hx [= <- _ <-]. eapply same_ending_exit; [exact Hx| |].
    + by eapply outcome_parted, attempt_worded.
    + by apply charges_alike with (s := s).
  - by destruct (authenticate_with_embeddings _ _ _ _ (audit_source _) _ _ _ _ _ _ _) as [[o' es'|]|].
Qed.

Lemma admitted_alike env rq c p user h d s' x r fx h' :
  same_attempt env rq c p user h d → alike (store h) s' →
  verdict_admitted env c user p s' d = Some x →
  handle_authenticate_prechecked rq user IntentAuthenticate h = Some (Replied r fx h') →
  same_ending x r h'.
Proof.
  intros Hsa Ha. unfold verdict_admitted, handle_authenticate_prechecked.
  assert (refresh_software_sealer (rq_keys rq) h = h) as ->.
  { unfold refresh_software_sealer. by rewrite (sa_primary _ _ _ _ _ _ _ Hsa). }
  destruct (respects_query (λ d, Store.scan (List.filter (of_user user) (face_models d))) model_info (store h) s' Ha) as [Hr Ha1].
  unfold list_models. destruct (query_map _ model_info (store h)) as [rl t] eqn:Eq, (query_map _ model_info s') as [rl' t']. cbn in Hr, Ha1. subst rl'.
  destruct rl as [models|e].
  2: { intros Hx [= <- _ <-]. eapply same_ending_exit; [exact Hx|apply error_parted; by left|]. by destruct Ha1. }
  unfold Handler.load_user_embeddings. cbn [Handler.config keys tpm_sealer store with_store].
  rewrite (sa_config _ _ _ _ _ _ _ Hsa).
  unfold OneShot.attempt, start_engine_then_camera. destruct (sa_undisturbed _ _ _ _ _ _ _ Hsa) as (-> & -> & Hw).
  rewrite (sa_engine _ _ _ _ _ _ _ Hsa). destruct (sa_camera _ _ _ _ _ _ _ Hsa) as (cam & l & Hacq & ->). cbn [map_err].
  rewrite warmup_goes_on, andb_false_r by done.
  assert (same_keyring (os_keys env) c (keys h) t d) as Hk.
  { apply query_map_same in Eq as [Hd Hc]. apply (same_keyring_later _ _ _ (store h)); [by apply same_db|apply Hsa]. }
  assert (tpm_alike c (tpm_sealer h) user t) as Ht.
  { apply query_map_same in Eq as [Hd Hc]. apply (tpm_alike_later _ _ _ (store h)); [by apply same_db|apply Hsa]. }
  pose proof (loads_alike (os_keys env) c (keys h) (tpm_sealer h) user t t' d Ha1 Hk Ht) as Hld.
  destruct (load_embeddings _ _ _ user t) as [[stored|m] t2], (Direct.load_user_embeddings _ _ _ t' d) as [[[stored'|m'] t2'] d'];
    destruct Hld as [Hso Ha2]; try done; cbn in Hso.
  2: { intros Hx [= <- _ <-]. eapply same_ending_exit; [exact Hx|apply error_parted; by left|]. by destruct Ha2. }
  subst stored'. cbn [lease with_store Handler.config]. rewrite (sa_config _ _ _ _ _ _ _ Hsa), Hacq. cbn [with_lease Handler.config with_store].
  rewrite (sa_config _ _ _ _ _ _ _ Hsa). intros Hx. apply (scans_alike env rq c p user h d d' cam l models stored t2 t2' (with_lease l (with_store t2 (with_store t h)))); try done; apply Hsa.
Qed.

Lemma verdicts_alike env rq c p user h d s' x r fx h' :
  same_attempt env rq c p user h d → alike (store h) s' →
  verdict_in_store env c user p s' d = Some x →
  handle_authenticate rq user IntentAuthenticate h = Some (Replied r fx h') →
  same_ending x r h'.
Proof.
  intros Hsa Ha. unfold verdict_in_store, handle_authenticate, preflight_authenticate, preflight_authenticate_with_context.
  unfold pre_check_audited, pre_check_audited_with_context. cbn [pre_check_context].
  rewrite (sa_host _ _ _ _ _ _ _ Hsa), (sa_config _ _ _ _ _ _ _ Hsa), (sa_limiter _ _ _ _ _ _ _ Hsa), (sa_caps _ _ _ _ _ _ _ Hsa).
  destruct (respects_gates (os_host env) c user (limiter_of c) (live_caps env p) ctx_enforced (store h) s' Ha) as [Hr Ha1].
  pose proof (gate_parted (os_host env) c user (limiter_of c) (live_caps env p) ctx_enforced (store h)) as Hp.
  destruct (pre_check_with_context _ c user _ _ _ (store h)) as [o t] eqn:Eg, (pre_check_with_context _ c user _ _ _ s') as [o' t'].
  cbn in Hr, Ha1, Hp. subst o'. destruct o as [o|].
  - destruct (match o with AuthResult _ => _ | _ => _ end). intros Hx [= <- _ <-].
    eapply same_ending_exit; [exact Hx|by apply Hp|]. destruct (has_models user t') as [b t''] eqn:Em. apply has_models_same in Em.
    cbn. rewrite Em. by destruct Ha1.
  - intros Hx Hh. eapply (admitted_alike env rq c p user (with_store t h)); [|exact Ha1|exact Hx|exact Hh].
    apply pre_check_templates in Eg. destruct Hsa. split; try done; [by eapply same_keyring_later|by eapply tpm_alike_later].
Qed.

(** A lockout is told alike whatever its text. *)
Lemma lockouts_alike env rq c p user h d s' x r fx h' m :
  same_attempt env rq c p user h d → alike (store h) s' →
  verdict_in_store env c user p s' d = Some x →
  handle_authenticate rq user IntentAuthenticate h = Some (Replied r fx h') →
  fst (pre_check_with_context (os_host env) c user (limiter_of c) (live_caps env p) ctx_enforced (store h)) = Some (AuthError RateLimited m) →
  exit_pam (answer x) = code_of r.
Proof.
  intros Hsa Ha. unfold verdict_in_store, handle_authenticate, preflight_authenticate, preflight_authenticate_with_context.
  unfold pre_check_audited, pre_check_audited_with_context. cbn [pre_check_context].
  rewrite (sa_host _ _ _ _ _ _ _ Hsa), (sa_config _ _ _ _ _ _ _ Hsa), (sa_limiter _ _ _ _ _ _ _ Hsa), (sa_caps _ _ _ _ _ _ _ Hsa).
  destruct (respects_gates (os_host env) c user (limiter_of c) (live_caps env p) ctx_enforced (store h) s' Ha) as [Hr _].
  pose proof (gate_parted (os_host env) c user (limiter_of c) (live_caps env p) ctx_enforced (store h)) as Hp.
  destruct (pre_check_with_context _ c user _ _ _ (store h)) as [o t], (pre_check_with_context _ c user _ _ _ s') as [o' t'].
  cbn in Hr, Hp. subst o'. intros Hx Hh [= ->]. specialize (Hp _ eq_refl). cbn in Hx, Hh. destruct (has_models user t') as [b t''].
  injection Hx as <-. injection Hh as <- _ _. by apply Hp.
Qed.

Lemma replied_code debug n silent root r reply : response_ok r → fst (finish_authentication debug n silent r) = Ok reply →
  ∀ oneshot, answer_daemon (Ok (decode (redact_similarity_unless_root root reply))) oneshot = Some (code_of r).
Proof.
  intros Hr Hf oneshot. destruct r as [mr| | | | | | | | |m]; try done; cbn [finish_authentication fst] in Hf; injection Hf as <-.
  - assert (answer_daemon (Ok (decode (redact_similarity_unless_root false (auth_reply mr)))) oneshot = Some (code_of (RespAuthResult mr))) as Hc.
    { rewrite decode_auth by done. unfold code_of. by destruct (matched mr), (face_detected mr). }
    destruct root; [by rewrite <- redacted_code|done].
  - by destruct root.
  - by destruct root.
Qed.

(** The same two cases, on the reply: nobody was seen, or an error that is no lockout names one. *)
Definition parts (reply : AuthReply) (code : Z) : bool :=
  negb (ar_matched reply) &&
  ((ar_model_id reply =? NO_MATCH_NO_FACE) && (code =? 1) ||
   (ar_model_id reply =? -2) && negb (code =? 3) && (str_contains "rate_limit" (ar_label reply) || str_contains "rate limited" (ar_label reply))).

Lemma parts_diverges debug n silent root r reply code : response_ok r → fst (finish_authentication debug n silent r) = Ok reply →
  parts (redact_similarity_unless_root root reply) code = diverges r code.
Proof.
  intros Hr Hf. destruct r as [mr| | | | | | | | |m]; try done; cbn [finish_authentication fst] in Hf; injection Hf as <-.
  - cbn in Hr. unfold unmatched_ok in Hr. unfold parts, diverges.
    destruct root; cbn [negb ar_matched ar_model_id ar_label redact_similarity_unless_root auth_reply]; unfold wire_model_id;
      (destruct (matched mr); [done|]); destruct (Hr eq_refl) as [-> _]; destruct (face_detected mr); cbn; by rewrite ?orb_false_r.
  - by destruct root.
  - by destruct root.
Qed.
End transports.

(** ** One call of the daemon *)
Section calls.
Context {SD : ShowDebug} {MJ : MarkerJson} {RF : Rfc3339} {AC : Accounts}.
Context `{ShowSqlite} `{RowOrder} `{NanEncoding} `{Subtle} `{Aead} `{Sha256} `{TpmDevice} `{HashOrder} `{ShowBus}.

Definition lid_is_closed (l : LidState) : bool := match l with LidIsClosed => true | LidIsOpen | LidIsAbsent => false end.

(** A call of [Authenticate] that is the attempt a child makes: an entitled caller within the ingress
    budget, no other call and no newer configuration, the locks taken, and a session and a lid that
    logind reports as the child's environment and /proc do. *)
Record same_call (g : Glue) (ac : AuthCall) (caller : CallerIdentity) (env : OneShotEnv) (c : Config) (p user : string)
    (v : Service) (d : KeyFile.Dir) : Prop := {
  sc_attempt : same_attempt env (ac_request ac) c p user (guarded (daemon v)) d;
  sc_caller : resolve_caller_identity g = Ok caller;
  sc_entitled : ci_uid caller = 0 ∨ username caller = Some user;
  sc_ingress : ci_uid caller = 0 ∨ fst (check_and_charge_at (ci_uid caller) (ac_ingress_now ac) (limiter v)) = true;
  sc_idle : capture_busy v = false;
  sc_config : claim_mtime (ac_mtime ac) v = None;
  sc_alone t : ac_before_snapshot ac t = t ∧ ac_meanwhile ac t = t;
  sc_locks name : lock_before_capture (ac_first_lock ac) name = Some (Ok tt) ∧ lock_before_capture (ac_second_lock ac) name = Some (Ok tt);
  sc_uncancelled : ac_late_cancel ac = false;
  sc_session : abort_if_ssh (security c) = true →
    is_ssh_session (env_var (os_host env)) = false ∧
    run_bounded_check "caller session provenance" (session_check g (ci_uid caller)) = Ok false;
  sc_lid : abort_if_lid_closed (security c) = true →
    run_bounded_check "lid state" (lid_check g) = Ok (lid_is_closed (procfs_lid (os_host env))) }.

(** The gates of the daemon are those of the child where the session is local and the lids agree. *)
Lemma gates_agree host c user rl caps lid s :
  (abort_if_ssh (security c) = true → is_ssh_session (env_var host) = false) →
  (abort_if_lid_closed (security c) = true → lid = Resolved (lid_is_closed (procfs_lid host))) →
  pre_check_with_context host c user rl caps (ctx_daemon_authenticate lid) s = pre_check_with_context host c user rl caps ctx_enforced s.
Proof.
  intros Hs Hl. unfold pre_check_with_context. destruct (disabled _); [done|]. cbn [skip_ssh_gate skip_lid_gate lid_source ctx_daemon_authenticate ctx_enforced negb andb].
  destruct (abort_if_ssh _); cbn [andb]; [rewrite Hs by done|]; (destruct (abort_if_lid_closed _); [rewrite Hl by done|done]); by destruct (procfs_lid host).
Qed.

Lemma busy_and_idle b h1 h2 v : capture_busy v = b → set_handler h2 (with_busy b (with_busy true (set_handler h1 v))) = set_handler h2 v.
Proof. intros <-. by destruct v. Qed.

Lemma crashed_and_idle b h1 h2 v : capture_busy v = b →
  with_daemon {| guarded := h2; poisoned := true |} (with_busy b (with_busy true (set_handler h1 v))) = with_daemon {| guarded := h2; poisoned := true |} v.
Proof. intros <-. by destruct v. Qed.

(** The second blocking section of such a call makes the handler's attempt. *)
Lemma gated_is_attempt debug g ac caller user silent env c p v d u :
  same_call g ac caller env c p user v d → daemon u = daemon v → capture_busy u = false →
  gated_attempt debug ac user (auth_method silent) IntentAuthenticate silent
    (maybe_check (abort_if_ssh (security c)) "caller session provenance" (session_check g (ci_uid caller)))
    (maybe_check (abort_if_lid_closed (security c)) "lid state" (lid_check g)) (epoch u) u
  = match handle_authenticate (ac_request ac) user IntentAuthenticate (guarded (daemon v)) with
    | None => None
    | Some (Replied r fx h') =>
        let '(reply, event) := finish_authentication debug (notification (Handler.config h')) silent r in
        Some (reply, server_effects fx event, set_handler h' u)
    | Some (HandlerPanicked h') =>
        Some (Err (join_error (ac_join_error ac)), [], with_daemon {| guarded := h'; poisoned := true |} u)
    end.
Proof.
  intros Hc Hd Hb. pose proof (sa_config _ _ _ _ _ _ _ (sc_attempt _ _ _ _ _ _ _ _ _ Hc)) as Hcfg.
  pose proof (sa_host _ _ _ _ _ _ _ (sc_attempt _ _ _ _ _ _ _ _ _ Hc)) as Hhost.
  unfold gated_attempt. replace (lock_handler_with_timeout (daemon u)) with (guarded (daemon v))
    by (unfold lock_handler_with_timeout, try_lock; rewrite Hd; by destruct (poisoned (daemon v))).
  set (h := guarded (daemon v)) in *.
  assert (is_authentication (auth_method silent) = true) as Hm by by destruct silent.
  unfold session_gate, context_of. rewrite Hm, Hcfg. cbn [andb].
  assert ((if abort_if_ssh (security c) then match maybe_check (abort_if_ssh (security c)) "caller session provenance" (session_check g (ci_uid caller)) with
    | Some (Ok false) => Ok tt | Some (Ok true) | Some (Err _) | None => Err (AccessDenied PROCESS_PROVENANCE_DENIED_MESSAGE) end else Ok tt) = Ok tt) as ->.
  { pose proof (sc_session _ _ _ _ _ _ _ _ _ Hc) as Hs. destruct (abort_if_ssh _); [|done]. unfold maybe_check. cbn [negb]. by rewrite (proj2 (Hs eq_refl)). }
  set (lid := maybe_check (abort_if_lid_closed (security c)) "lid state" (lid_check g)).
  assert (lid_was_cancelled lid = false ∧ (abort_if_lid_closed (security c) = true → lid_source_of lid = Resolved (lid_is_closed (procfs_lid (os_host env))))) as [-> Hlid].
  { pose proof (sc_lid _ _ _ _ _ _ _ _ _ Hc) as Hl. unfold lid, maybe_check. destruct (abort_if_lid_closed _); [|done]. cbn [negb]. by rewrite Hl. }
  cbn [andb].
  assert (preflight_authenticate_with_context (ac_request ac) user IntentAuthenticate (ctx_daemon_authenticate (lid_source_of lid)) h
    = preflight_authenticate (ac_request ac) user IntentAuthenticate h) as ->.
  { unfold preflight_authenticate, preflight_authenticate_with_context, pre_check_audited_with_context. cbn [pre_check_context].
    rewrite gates_agree; [done| |]; rewrite Hcfg, Hhost; [|done]. intros Ha. by apply (sc_session _ _ _ _ _ _ _ _ _ Hc). }
  unfold handle_authenticate. destruct (preflight_authenticate _ _ _ h) as [[[r fx]|] h1]; [done|].
  unfold try_acquire. change (capture_busy (set_handler h1 u)) with (capture_busy u). rewrite Hb.
  change (epoch (with_busy true (set_handler h1 u))) with (epoch u). rewrite Z.eqb_refl, (sc_uncancelled _ _ _ _ _ _ _ _ _ Hc). cbn [negb orb].
  destruct (handle_authenticate_prechecked _ _ _ h1) as [[r fx h2|h2]|]; [|by rewrite crashed_and_idle|done].
  by rewrite busy_and_idle.
Qed.

(** From the ingress check on, nothing comes between. *)
Lemma run_is_attempt debug g ac caller user silent env c p v d u :
  same_call g ac caller env c p user v d → daemon u = daemon v → capture_busy u = false → claim_mtime (ac_mtime ac) u = None →
  Server.run_admitted debug (with_checks (session_check g (ci_uid caller)) (lid_check g) ac) caller user (auth_method silent) IntentAuthenticate silent u
  = redacted (ci_uid caller =? 0) <$> gated_attempt debug ac user (auth_method silent) IntentAuthenticate silent
      (maybe_check (abort_if_ssh (security c)) "caller session provenance" (session_check g (ci_uid caller)))
      (maybe_check (abort_if_lid_closed (security c)) "lid state" (lid_check g)) (epoch u) (with_activity (ac_now_secs ac) u).
Proof.
  intros Hc Hd Hb Hm. unfold Server.run_admitted. rewrite Hb. unfold maybe_reload_handler.
  cbn [with_checks ac_mtime ac_rebuild ac_during_reload ac_now_secs ac_before_snapshot ac_meanwhile ac_second_lock ac_session_check ac_lid_check].
  set (u1 := with_activity (ac_now_secs ac) u).
  assert (claim_mtime (ac_mtime ac) u1 = None) as ->.
  { revert Hm. unfold claim_mtime. cbn. destruct (mtime_poisoned u); [done|]. destruct (config_mtime u), (ac_mtime ac); try done. by destruct (_ <? _). }
  replace (match ac_rebuild ac with Some _ => u1 | None => u1 end) with u1 by by destruct (ac_rebuild ac).
  destruct (sc_alone _ _ _ _ _ _ _ _ _ Hc u1) as [-> ->].
  unfold snapshot_gates. replace (is_authentication (auth_method silent)) with true by by destruct silent. cbn [with_checks ac_first_lock].
  destruct (sc_locks _ _ _ _ _ _ _ _ _ Hc (Some (method_name (auth_method silent)))) as [-> ->].
  replace (Handler.config (lock_handler_with_timeout (daemon u1))) with c; [done|].
  change (daemon u1) with (daemon u). rewrite Hd. unfold lock_handler_with_timeout, try_lock.
  pose proof (sa_config _ _ _ _ _ _ _ (sc_attempt _ _ _ _ _ _ _ _ _ Hc)). by destruct (poisoned (daemon v)).
Qed.

(** Such a call answers with what the handler's attempt responds. *)
Lemma request_is_attempt debug g ac caller user silent env c p v d reply fx v' signal :
  same_call g ac caller env c p user v d →
  authenticate_request debug g ac user silent v = Some ((Ok reply, fx, v'), signal) →
  ∃ r fx' n reply', handle_authenticate (ac_request ac) user IntentAuthenticate (guarded (daemon v)) = Some (Replied r fx' (guarded (daemon v'))) ∧
    fst (finish_authentication debug n silent r) = Ok reply' ∧
    reply = redact_similarity_unless_root (ci_uid caller =? 0) reply'.
Proof.
  intros Hc. unfold authenticate_request. rewrite (sc_caller _ _ _ _ _ _ _ _ _ Hc). fold (auth_method silent).
  assert (∃ l, run_authentication debug (with_checks (session_check g (ci_uid caller)) (lid_check g) ac) caller user (auth_method silent) IntentAuthenticate silent v
    = Server.run_admitted debug (with_checks (session_check g (ci_uid caller)) (lid_check g) ac) caller user (auth_method silent) IntentAuthenticate silent (with_limiter l v)) as [l ->].
  { unfold run_authentication. replace (is_authentication (auth_method silent)) with true by by destruct silent.
    assert (authorize_method caller (auth_method silent) (Some user) = Ok tt) as ->.
    { unfold authorize_method. replace (scope (auth_method silent)) with UserScoped by by destruct silent. unfold require_user_authorized.
      destruct (sc_entitled _ _ _ _ _ _ _ _ _ Hc) as [-> | ->]; [done|]. rewrite String.eqb_refl. by destruct (_ =? 0). }
    destruct (Z.eqb_spec (ci_uid caller) 0) as [Hz|Hz]; cbn [negb andb]; [exists (limiter v); by destruct v|].
    destruct (sc_ingress _ _ _ _ _ _ _ _ _ Hc) as [?|Hi]; [done|]. change (ac_ingress_now (with_checks _ _ ac)) with (ac_ingress_now ac).
    destruct (check_and_charge_at _ _ _) as [[] l]; [|done]. by exists l. }
  assert (claim_mtime (ac_mtime ac) (with_limiter l v) = None) as Hm.
  { pose proof (sc_config _ _ _ _ _ _ _ _ _ Hc) as Hm. revert Hm. unfold claim_mtime. cbn. by repeat case_match. }
  pose proof (sc_idle _ _ _ _ _ _ _ _ _ Hc) as Hb.
  rewrite (run_is_attempt debug g ac caller user silent env c p v d) by done.
  change (epoch (with_limiter l v)) with (epoch (with_activity (ac_now_secs ac) (with_limiter l v))).
  rewrite (gated_is_attempt debug g ac caller user silent env c p v d) by done.
  destruct (handle_authenticate _ _ _ _) as [[r fx1 h1|h1]|]; [|done..].
  destruct (finish_authentication _ _ _ r) as [[reply'|e] event] eqn:Ef; [|done].
  intros [= <- <- <- <-]. exists r, fx1, (notification (Handler.config h1)), reply'. rewrite Ef. done.
Qed.

(** C4.  The one-shot child and the D-Bus service decide alike. Let one attempt be made by a child or
    by a call of [Authenticate] that its caller may make (entitled, within the ingress budget, beside
    no other call, of a local session and with a lid that logind reports as the child finds them),
    with the same configuration, loaded keys, camera, engine, frames and clock, not cancelled before
    the scan, over one database that answers. Whatever happens in the state directory, both leave the
    same database, and the PAM code of the child's exit is the PAM code of the reply, except in three
    cases: a scan that saw nobody, which fails the stack through the child and abstains through the
    daemon; an error whose text names the rate limit although it is no lockout (a lockout is told
    alike); and, left out by [sa_tpm], a template sealed by the TPM while the daemon holds no TPM that
    the child reaches, as with tpm.seal_database switched off, which the child opens and the daemon
    does not ([sealed_row_parts]). *)
Theorem transports_agree debug g ac caller user silent env c0 c p v d s w es x reply fx v' signal :
  os_config env = Ok c0 → configured_camera env c0 = Ok (c, p) → os_opens env = None →
  same_call g ac caller env c p user v d → alike (store (guarded (daemon v))) s →
  fst (fst (OneShot.run env user s d w es)) = PamWorld.Done (Ok (Some x)) →
  authenticate_request debug g ac user silent v = Some ((Ok reply, fx, v'), signal) →
  db (store_after x) = db (store (guarded (daemon v'))) ∧
  ∃ code, (∀ oneshot, answer_daemon (Ok (decode reply)) oneshot = Some code) ∧
    (exit_pam (answer x) = code ↔ parts reply (answer x) = false) ∧
    ∀ m, fst (pre_check_with_context (os_host env) c user (limiter_of c) (live_caps env p) ctx_enforced (store (guarded (daemon v)))) =
           Some (AuthError RateLimited m) → exit_pam (answer x) = code.
Proof.
  intros Hc0 Hcc Ho Hc Ha Hrun Hreq. pose proof (run_gives_verdict env user s d w es) as Hg. rewrite Hrun in Hg.
  injection Hg as Hv. symmetry in Hv. unfold verdict in Hv. rewrite Hc0, Hcc, Ho in Hv.
  pose proof (sc_attempt _ _ _ _ _ _ _ _ _ Hc) as Hsa.
  destruct (request_is_attempt _ _ _ _ _ _ _ _ _ _ _ _ _ _ _ Hc Hreq) as (r & fx' & n & reply' & Hh & Hf & ->).
  assert (response_ok r) as Hr by by eapply (attempt_response (ac_request ac) user IntentAuthenticate ctx_enforced (guarded (daemon v))).
  destruct (verdicts_alike _ _ _ _ _ _ _ _ _ _ _ _ Hsa Ha Hv Hh) as [Hp Hd]. split; [done|]. exists (code_of r).
  split; [by eapply replied_code|]. split; [by rewrite (parts_diverges debug n silent _ r)|]. intros m. by eapply lockouts_alike.
Qed.
End calls.

(** ** What an exit code stands for *)
Section meaning.
Context {SD : ShowDebug} {MJ : MarkerJson} {RF : Rfc3339} {AC : Accounts}.
Context `{ShowSqlite} `{RowOrder} `{NanEncoding} `{Subtle} `{Aead} `{Sha256} `{TpmDevice}.

#[local] Abbreviation failures s := (rate_limit_rows (db s)).

(** Reads: the templates stay, and no failure is added. *)
Definition only_read (s s' : FaceStore) : Prop := same_templates s s' ∧ failures s' `sublist_of` failures s.

#[local] Instance only_read_preorder : PreOrder only_read.
Proof. split; [by intros s|]. intros a b c [A1 A2] [B1 B2]. split; by etrans. Qed.

Lemma same_store_read s s' : same_store s s' → only_read s s'.
Proof. intros Hs. split; [by apply same_store_templates|]. by rewrite (proj1 Hs). Qed.

Lemma pre_check_reads host c user rl caps ctx s o s' :
  pre_check_with_context host c user rl caps ctx s = (o, s') → only_read s s'.
Proof.
  intros E. split; [by eapply pre_check_templates|]. revert E. unfold pre_check_with_context.
  destruct (disabled _); [by intros [= _ <-]|]. destruct (_ && _ && _); [by intros [= _ <-]|].
  destruct (if _ && _ then _ else _); [by intros [= _ <-]|].
  destruct (has_models user s) as [[[]|e] s1] eqn:Em; apply has_models_same in Em; rewrite <- Em; [|by intros [= _ <-]..].
  destruct (check _ _ user s1) as [[[]|e] s2] eqn:Ec; apply check_shrinks in Ec; [|by intros [= _ <-]..].
  destruct (bool_decide _); [by intros [= _ <-]|]. by destruct (_ && negb _); intros [= _ <-].
Qed.

Lemma keys_read env c s d r s' d' : saved s = None → load_sealing_keys env c s d = (r, s', d') → same_store s s'.
Proof.
  intros Hs. unfold load_sealing_keys, load. destruct (method (encryption c)); [by intros [= _ <- _]| |by intros [= _ <- _]].
  destruct (resolve_keyfile_sealer env c s d) as [[k s1] d1] eqn:E. intros [= _ <- _]. by eapply resolve_same.
Qed.

Lemma embeddings_read env c user s d r s' d' : saved s = None → Direct.load_user_embeddings env c user s d = (r, s', d') → same_store s s'.
Proof.
  intros Hs. unfold Direct.load_user_embeddings. destruct (load_sealing_keys env c s d) as [[[k|m] s1] d1] eqn:Ek; apply keys_read in Ek; [|done| |done].
  2: by intros [= _ <- _].
  intros El. assert (same_store s1 s') as Hl; [|split; destruct Ek, Hl; congruence].
  pose proof (load_same c k true user s1) as Hsame. unfold load_embeddings in Hsame. destruct (negb _).
  - destruct (get_user_embeddings user s1) as [x s2]. injection El as _ <- _. by destruct x; eapply Hsame.
  - destruct (get_user_embeddings_raw_with_device user s1) as [[rows|e] s2]; injection El as _ <- _; by eapply Hsame.
Qed.

(** An exit that claims nothing about the face, or the end of a scan. *)
Inductive concluded (env : OneShotEnv) (user : string) (s : FaceStore) : Aftermath Z → Prop :=
  | no_opinion code es s' d' : code ≠ 0 → code ≠ 1 → only_read s s' → concluded env user s (Build_Aftermath code es s' d')
  | scanned c0 c p caps models stored s1 s2 d1 d2 s' es o :
      os_config env = Ok c0 → configured_camera env c0 = Ok (c, p) →
      admitted (os_host env) c user (limiter_of c) (live_caps env p) ctx_enforced (db s) →
      os_engine env = Ok tt → os_open env = Ok caps → os_cancelled_before env = false → os_cancelled_after env = false →
      only_read s s1 → fst (list_models user s1) = Ok models →
      Direct.load_user_embeddings (os_keys env) c user s2 d1 = (Ok stored, s', d2) → only_read s s' →
      authenticate_with_embeddings caps models c user SourceOneshot (os_wall_at env) stored (os_cancelled_scan env)
        (os_auth_start env) (os_armed env) (os_ticks env) (os_fuel env) = Some (Finished o es) →
      concluded env user s (Build_Aftermath (scan_exit_code o) (es ++ ending_effects env c user o) (charge_guess env c user o s') d2).

Lemma early env user s code es s' d' x : exit_with code es s' d' = Some x → code ≠ 0 → code ≠ 1 → only_read s s' → concluded env user s x.
Proof. intros [= <-]. by constructor. Qed.

Lemma preflight_code o : preflight_exit_code o ≠ 0 ∧ preflight_exit_code o ≠ 1.
Proof. by destruct o as [| |[]|]. Qed.

Lemma verdict_concluded env user s d x : saved s = None → verdict env user s d = Some x → concluded env user s x.
Proof.
  intros Hs. unfold verdict. destruct (os_config env) as [c0|e] eqn:Ec0; [|intros Hx; by eapply early].
  destruct (configured_camera env c0) as [[c p]|e] eqn:Ecc; [|intros Hx; by eapply early].
  destruct (os_opens env); [intros Hx; by eapply early|]. unfold verdict_in_store, pre_check_audited, pre_check_audited_with_context.
  destruct (pre_check_with_context _ _ _ _ _ _ s) as [o s1] eqn:Eg. pose proof (pre_check_reads _ _ _ _ _ _ _ _ _ Eg) as Hr1. destruct o as [o|].
  { destruct (match o with AuthResult _ => _ | _ => _ end). destruct (has_models user s1) as [b s2] eqn:Em.
    intros Hx. destruct (preflight_code o). eapply early; [exact Hx|done..|]. cbn. etrans; [exact Hr1|]. split; [by eapply has_models_templates|].
    by rewrite (has_models_same _ _ _ _ Em). }
  apply pre_check_none in Eg. unfold verdict_admitted.
  destruct (list_models user s1) as [l s2] eqn:El. pose proof El as [Hd2 Hc2]%query_map_same.
  assert (only_read s s2) as Hr2 by (etrans; [exact Hr1|]; by apply same_store_read, same_conn_store).
  destruct l as [models|e]; [|intros Hx; by eapply early]. unfold OneShot.attempt, start_engine_then_camera.
  destruct (os_cancelled_before env) eqn:Eb; [intros Hx; by eapply early|].
  destruct (os_engine env) as [[]|e] eqn:Ee; cbn [map_err]; [|intros Hx; by eapply early].
  destruct (os_cancelled_after env) eqn:Ea; [intros Hx; by eapply early|].
  destruct (os_open env) as [caps|e] eqn:Eo; cbn [map_err]; [|intros Hx; by eapply early].
  destruct (negb _ && _); [intros Hx; by eapply early|].
  destruct (Direct.load_user_embeddings _ c user s2 d) as [[ld s3] d3] eqn:Eld. pose proof Eld as Hst.
  apply embeddings_read in Hst; [|destruct Hr2 as [(_ & _ & ->) _]; done].
  assert (only_read s s3) as Hr3 by (etrans; [exact Hr2|]; by apply same_store_read).
  destruct ld as [stored|e]; [|intros Hx; by eapply early]. unfold OneShot.scan.
  destruct (authenticate_with_embeddings _ _ _ _ _ _ _ _ _ _ _ _) as [[o es|]|] eqn:Es; [|intros Hx; by eapply early|done].
  intros [= <-]. eapply (scanned env user s c0 c p caps models stored s1 s2); try done. by rewrite El.
Qed.

(** The end of a scan that [x] reports, of the templates in [stored]. *)
Definition reports (env : OneShotEnv) (c : Config) (user : string) (caps : CameraCaps) (models : list FaceModelInfo)
    (stored : list (Z * FaceEmbedding)) (mr : MatchResult) : Prop :=
  ∃ es, authenticate_with_embeddings caps models c user SourceOneshot (os_wall_at env) stored (os_cancelled_scan env)
    (os_auth_start env) (os_armed env) (os_ticks env) (os_fuel env) = Some (Finished (AuthResult mr) es).

Lemma scan_code_result o : (scan_exit_code o = 0 → ∃ mr, o = AuthResult mr ∧ matched mr = true) ∧
  (scan_exit_code o = 1 → ∃ mr, o = AuthResult mr ∧ matched mr = false).
Proof. destruct o as [mr| |[]|]; cbn; try done. by destruct (matched mr) eqn:E; split; try done; exists mr. Qed.

Lemma unguessed env c user o s : scan_exit_code o ≠ 1 → charge_guess env c user o s = s.
Proof. destruct o as [mr| | |]; cbn; try done. by destruct (matched mr). Qed.

Lemma run_concluded env user s d w es x : saved s = None →
  fst (fst (OneShot.run env user s d w es)) = PamWorld.Done (Ok (Some x)) → concluded env user s x.
Proof.
  intros Hs Hr. pose proof (run_gives_verdict env user s d w es) as Hg. rewrite Hr in Hg. injection Hg as Hv.
  by apply (verdict_concluded env user s d x).
Qed.

(** C5.  Exit code 0 of the child is earned. Whatever happens in the state directory, a child
    that exits with 0 read a configuration whose gates admitted the user over the store it was
    started with; started the engine and then opened the camera, uncancelled; loaded the user's
    templates from that store, which it left as it was but for expired failures; and its scan
    reported a match, which, for well-formed templates and frames and a positive threshold, rests
    on a captured face that reaches the threshold against one of those templates. *)
Theorem oneshot_success_is_proved env user s d w es x :
  saved s = None → fst (fst (OneShot.run env user s d w es)) = PamWorld.Done (Ok (Some x)) → answer x = 0 →
  ∃ c0 c p caps models stored s1 s2 d1 r,
    os_config env = Ok c0 ∧ configured_camera env c0 = Ok (c, p) ∧
    admitted (os_host env) c user (limiter_of c) (live_caps env p) ctx_enforced (db s) ∧
    os_engine env = Ok tt ∧ os_open env = Ok caps ∧ os_cancelled_before env = false ∧ os_cancelled_after env = false ∧
    only_read s s1 ∧ fst (list_models user s1) = Ok models ∧
    Direct.load_user_embeddings (os_keys env) c user s2 d1 = (Ok stored, store_after x, keys_after x) ∧ only_read s (store_after x) ∧
    matched r = true ∧ reports env c user caps models stored r ∧
    (Forall stored_ok stored → (∀ k faces, t_faces (os_ticks env k) = Ok faces → Forall (λ f, Forall f32_valid f.2) faces) →
     f32_valid (threshold (recognition c)) → f32_lt f32_zero (threshold (recognition c)) = true →
     ∃ m, (m ≤ os_fuel env)%nat ∧ proved_match caps models c stored (os_ticks env) m r).
Proof.
  intros Hs Hr Hc. destruct (run_concluded env user s d w es x Hs Hr)
    as [|c0 c p caps models stored s1 s2 d1 d2 s' fx o Ec0 Ecc Had Hen Hop Hb Haf Hr1 Hm Hld Hr2 Hscan]; [done|].
  cbn [answer store_after keys_after] in *. destruct (scan_code_result o) as [Hok _]. destruct (Hok Hc) as (r & -> & Hmr).
  rewrite unguessed by (cbn; by rewrite Hmr). exists c0, c, p, caps, models, stored, s1, s2, d1, r.
  do 12 (split; [done|]). split; [by exists fx|]. intros Hst Hf Hv Hp.
  revert Hscan. unfold authenticate_with_embeddings. destruct (os_cancelled_scan env); [done|]. destruct (bool_decide _); [done|].
  intros Hl. exact (scan_loop_ok caps models c stored (os_ticks env) Hst Hf Hv Hp _ _ _ _ _ _ _ 0 _ _ _ (evidence_init _ _ _ _ _) Hl r eq_refl Hmr).
Qed.

(** The child charges a guess that was wrong, and nothing else. Whatever happens in the state
    directory, it leaves the templates as they were; unless it exits with 1 it adds no failure; and
    it exits with 1 only when its scan reported no match, where one failure is recorded for the user
    if the scan saw a face, and none if it did not. *)
Theorem oneshot_charges_wrong_guesses env user s d w es x :
  saved s = None → fst (fst (OneShot.run env user s d w es)) = PamWorld.Done (Ok (Some x)) →
  same_templates s (store_after x) ∧
  (answer x ≠ 1 → failures (store_after x) `sublist_of` failures s) ∧
  (answer x = 1 → ∃ c caps models stored s1 mr, only_read s s1 ∧ matched mr = false ∧ reports env c user caps models stored mr ∧
     store_after x = if face_detected mr then snd (record_failure (limiter_of c) (os_wall env) user s1) else s1).
Proof.
  intros Hs Hr. destruct (run_concluded env user s d w es x Hs Hr)
    as [code fx s' d' _ Hc [Ht Hf]|c0 c p caps models stored s1 s2 d1 d2 s' fx o _ _ _ _ _ _ _ _ _ _ [Ht Hf] Hscan];
    cbn [answer store_after]; [by split_and!|]. split_and!.
  - unfold charge_guess. destruct o as [mr| | |]; try done. destruct (_ && _); [|done]. etrans; [done|]. apply record_templates.
  - intros Hc. by rewrite unguessed.
  - intros Hc. destruct (scan_code_result o) as [_ Hno]. destruct (Hno Hc) as (mr & -> & Hmr).
    exists c, caps, models, stored, s', mr. split; [done|]. split; [done|]. split; [by exists fx|]. cbn. by rewrite Hmr.
Qed.
End meaning.

(** ** The marker after an attempt *)
Section marker.
Context {SD : ShowDebug} {MJ : MarkerJson} {ML : MarkerJsonLaws} {RF : Rfc3339} {AC : Accounts}.
Context `{ShowSqlite} `{RowOrder} `{NanEncoding} `{Subtle} `{Aead} `{Sha256} `{TpmDevice}.

(** A database that answers every statement, with ids that fit. *)
Definition serves (s : FaceStore) : Prop :=
  AuthProofs.answers s ∧ Forall (λ m, 0 ≤ m_id m ≤ u32_max) (face_models (db s)).

Lemma rows_answer {A B} (conv : A → result B RusqliteError) rows s :
  (∀ n, faults s n = None) → Forall (λ r, is_ok (conv r) = true) rows → ∃ l s', step_rows conv rows s = (Ok l, s').
Proof.
  intros Hf Hr. revert s Hf. induction Hr as [|r rows Hr _ IH]; intros s Hf; cbn [step_rows]; [by eexists _, _|].
  destruct (conv r) as [x|] eqn:Ex; [|done]. unfold bind. erewrite exec_no_fault; [|by apply Hf|reflexivity].
  destruct (IH (set_db (db s) (tick_on s)) Hf) as (l & s' & ->). by eexists _, _.
Qed.

Lemma list_answers user s : serves s → ∃ l s', list_models user s = (Ok l, s').
Proof.
  intros [[Hf _] Hids]. unfold list_models, query_map, bind. erewrite exec_no_fault; [|by apply Hf|reflexivity].
  apply rows_answer; [done|]. rewrite scan_perm. apply Forall_forall. intros m [Hm _]%elem_of_filterb.
  rewrite Forall_forall in Hids. destruct (Hids m Hm) as [Hlo Hhi]. unfold model_info, get_u32.
  by rewrite (proj2 (Z.leb_le _ _) Hlo), (proj2 (Z.leb_le _ _) Hhi).
Qed.

Lemma gates_serve host c user rl caps ctx s o s' : serves s →
  pre_check_with_context host c user rl caps ctx s = (o, s') → serves s' ∧ face_models (db s') = face_models (db s).
Proof.
  intros [(Hf & Hm & Hr) Hids] E. pose proof (pre_check_reads _ _ _ _ _ _ _ _ _ E) as [(Hfm & _) Hsub].
  destruct (respects_gates host c user rl caps ctx s s (Build_alike _ _ eq_refl eq_refl eq_refl Hf Hf)) as [_ Ha].
  rewrite E in Ha. split; [|done]. split; [|by rewrite Hfm]. split; [apply Ha|]. split; [by rewrite Hfm|].
  apply sublist_length in Hsub. cbn in Hsub. lia.
Qed.

Lemma none_enrolled user s : serves s → models_of user (db s) = 0 ↔ List.filter (of_user user) (face_models (db s)) = [].
Proof.
  intros [(_ & Hm & _) _]. unfold models_of, as_u32. pose proof (filterb_length (of_user user) (face_models (db s))).
  rewrite Z.mod_small by (unfold u32_max in Hm; lia). split; [|by intros ->]. by destruct (List.filter _ _).
Qed.

Lemma contradicts user s : serves s → fst (has_models user s) = Ok (negb (models_of user (db s) =? 0)).
Proof.
  intros Hs. pose proof (none_enrolled user s Hs) as Hn. destruct Hs as [(Hf & Hm & _) _].
  unfold has_models, bind. pose proof (filterb_length (of_user user) (face_models (db s))).
  rewrite query_count_answers; [|done|unfold of_user in *; lia]. cbn. f_equal. fold (of_user user).
  destruct (List.filter (of_user user) (face_models (db s))) as [|m l].
  - by rewrite (proj2 Hn).
  - cbn [length]. destruct (Z.eqb_spec (models_of user (db s)) 0) as [E|_]; [by apply Hn in E|]. apply Z.ltb_lt. lia.
Qed.

(** An attempt settles the user's marker. Undisturbed, over a database that answers, a child
    that has opened the store leaves the marker of a user with no model answering that there is
    none, whichever gate refused the attempt, and the marker of a user it admits answering the
    number of models and the time; and it touches the marker of nobody else. *)
Theorem attempt_settles_marker env c user p s d w k : let base := marker_dir c in
  plain_dir base → ready base w → marker_path base user = Ok k → starts_with "." user = false →
  writable w (models_of user (db s)) → serves s →
  ∃ x w', calmly (run_in_store env c user p s d) w x w' ∧ ready base w' ∧
    (models_of user (db s) = 0 → answers_with base w' user Markers.Absent) ∧
    (admitted (os_host env) c user (limiter_of c) (live_caps env p) ctx_enforced (db s) →
     models_of user (db s) ≠ 0 ∧
     answers_with base w' user (Markers.Enrolled {| mk_models := models_of user (db s); mk_updated := rfc3339_secs (PamWorld.clock w) |})) ∧
    ∀ v, v ≠ user → starts_with "." v = false → entries w' !! (base, v) = entries w !! (base, v).
Proof.
  intros base Hb Hw Hp Hu Hj Hs. unfold run_in_store, pre_check_audited, pre_check_audited_with_context.
  pose proof (pre_check_some (os_host env) c user (limiter_of c) (live_caps env p) ctx_enforced s (proj1 Hs)) as Hadm.
  destruct (pre_check_with_context _ _ _ _ _ _ s) as [o s1] eqn:Eg. cbn [pre_check_context fst] in Hadm.
  destruct (gates_serve _ _ _ _ _ _ _ _ _ Hs Eg) as [Hs1 Hfm].
  assert (models_of user (db s1) = models_of user (db s)) as Hcount by (unfold models_of; by rewrite Hfm).
  assert (admitted (os_host env) c user (limiter_of c) (live_caps env p) ctx_enforced (db s) → models_of user (db s) ≠ 0) as Hen.
  { intros [_ _ _ (m & Hm & Hmu) _ _ _] Hn%none_enrolled; [|done].
    assert (m ∈ List.filter (of_user user) (face_models (db s))) as Hin by (apply elem_of_filterb; unfold of_user; by rewrite Hmu, String.eqb_refl).
    rewrite Hn in Hin. by apply not_elem_of_nil in Hin. }
  destruct o as [o|].
  - destruct (match o with AuthResult _ => _ | _ => _ end). unfold clear_marker_the_store_contradicts.
    pose proof (contradicts user s1 Hs1) as Hc. destruct (has_models user s1) as [r s2]. cbn in Hc. subst r. rewrite Hcount.
    destruct (Z.eqb_spec (models_of user (db s)) 0) as [Hn|Hn]; cbn [negb].
    + destruct (calm_remove base user k w Hw Hp) as (w' & Hcm & Hr & _ & He). eexists _, w'. split.
      { eapply calm_bind; [|apply calm_ret]. eapply calm_bind; [by eapply calm_ignore|apply calm_ret]. }
      split; [done|]. split; [|split; [by intros Ha%Hadm|]].
      * intros _. eapply none_answers; [done|]. by rewrite He, lookup_delete_eq.
      * intros v Hv _. rewrite He, lookup_delete_ne; congruence.
    + eexists _, w. split; [eapply calm_bind; apply calm_ret|]. split; [done|]. by split; [|split; [intros Ha%Hadm|]].
  - unfold OneShot.run_admitted. destruct (list_answers user s1 Hs1) as (l & s2 & El). rewrite El. unfold converge_enrollment_marker.
    rewrite (list_models_count user s1 l s2 El), Hcount.
    destruct (marker_roundtrip c user k (models_of user (db s)) w Hb Hw Hj Hp Hu) as (w' & Hcm & Hr & Ha & Ho).
    eexists _, w'. split; [eapply calm_bind; [exact Hcm|apply calm_ret]|]. fold base in Hr, Ha, Ho.
    destruct (Z.eqb_spec (models_of user (db s)) 0) as [Hn|Hn].
    + split; [done|]. split; [done|]. split; [by intros Hne%Hen|done].
    + split; [done|]. split; [done|]. by split; [split; [apply Hen|]|].
Qed.
End marker.

(** ** Concrete attempts: alice at her door, and a stranger *)
#[local] Existing Instance show_sqlite_plain.
#[local] Existing Instance sum_hash.
#[local] Existing Instance no_tpm.
#[local] Existing Instance toy_aead.
#[local] Existing Instance nan_x86.
#[local] Existing Instance subtle_reference.
#[local] Existing Instance quote_debug.
#[local] Existing Instance one_account.
#[local] Existing Instance fixed_time.
#[local] Existing Instance lines_json.
#[local] Existing Instance lines_json_laws.
#[local] Existing Instance key_order.
#[local] Existing Instance show_bus_plain.

(** Templates are stored in the clear, and no camera is configured. *)
Definition plain_config : Config :=
  {| device := device_default; recognition := recognition_default; Config.daemon := daemon_default;
     storage := storage_default; security := security_default; notification := notification_default;
     snapshots := snapshots_default; tpm := tpm_default;
     encryption := {| method := EncNone; key_path := ""; sealed_key_path := "" |};
     audit := audit_default; polkit := polkit_default; pam := pam_default |}.
Definition door_config : Config := with_camera_path "/dev/video2" plain_config.

Definition door_store : FaceStore :=
  enrolled_store_of (Enroll.enroll plain_config "alice" "default" None (Some "046d:085e") None turning_env 20 (fresh_store (λ _, None))).

Definition door_host : Host := {| env_var _ := None; procfs_lid := LidIsAbsent; wall := Some 40 |}.

Definition door_env (ticks : nat → Tick) : OneShotEnv :=
  {| os_config := Ok plain_config; os_detect := Ok "/dev/video2";
     os_query _ := Ok {| res_caps := infrared; quirk_warmup := None |}; os_fingerprint _ := fingerprint_default;
     os_opens := None; os_host := door_host; os_cancelled_before := false; os_cancelled_after := false;
     os_engine := Ok tt; os_open := Ok infrared; os_cancelled_warmup _ := false; os_keys := calm_env; os_start := 0;
     os_cancelled_scan := false; os_auth_start := 0; os_armed := 0; os_ticks := ticks; os_wall_at _ := Some 40;
     os_ended := 0; os_wall := Some 40; os_fuel := 20 |}.

Definition door_handler : Handler :=
  {| Handler.config := door_config; store := door_store; rate_limiter := limiter_of door_config; device_caps := infrared;
     shutdown_requested := false; lease := lease_new true None; tpm_sealer := is_ok (tpm_sealer_new (tcti (tpm door_config)));
     keys := keys_none; preview_embeddings := None; files := ∅ |}.

Definition knock (ticks : nat → Tick) : PamWorld.Out Exit :=
  fst (fst (OneShot.run (door_env ticks) "alice" door_store ∅ stale_world (full_disk 3))).

Definition knocked (ticks : nat → Tick) : option Z :=
  match knock ticks with PamWorld.Done (Ok (Some x)) => Some (answer x) | _ => None end.

Lemma knock_exits ticks code : knocked ticks = Some code →
  ∃ x, fst (fst (OneShot.run (door_env ticks) "alice" door_store ∅ stale_world (full_disk 3))) = PamWorld.Done (Ok (Some x)) ∧ answer x = code.
Proof.
  unfold knocked, knock. destruct (fst (fst _)) as [[[x|]|e]|]; [|done..]. intros [= <-]. by exists x.
Qed.

Lemma door_calm : alike door_store door_store.
Proof. split; [done..| |]; assert (faults door_store = λ _, None) as -> by (vm_compute; reflexivity); done. Qed.

Lemma door_keyring ticks : same_keyring (os_keys (door_env ticks)) door_config keys_none door_store ∅.
Proof. intros s1 s' _ Ha. by exists s', ∅. Qed.

Lemma door_same ticks : same_attempt (door_env ticks) (daily_env_with ticks 40) door_config "/dev/video2" "alice" door_handler ∅.
Proof.
  split; try reflexivity.
  - apply door_keyring.
  - by left.
  - eexists {| cam_caps := infrared; pending_settle_frames := 0 |}, _. by split.
  - done.
Qed.

(** The same visit as a call of the service. *)
Definition door_call (ticks : nat → Tick) : AuthCall := {|
  ac_ingress_now := 0; ac_now_secs := 100; ac_mtime := None; ac_rebuild := None; ac_during_reload s := s;
  ac_first_lock := quick_lock; ac_before_snapshot s := s; ac_session_check := no_check; ac_lid_check := no_check;
  ac_second_lock := quick_lock; ac_meanwhile s := s; ac_late_cancel := false;
  ac_request := daily_env_with ticks 40; ac_join_error := "panic" |}.
Definition door_service : Service := service_new door_handler None 0.
Definition alice : CallerIdentity := {| ci_uid := 1000; username := Some "alice" |}.

Lemma door_same_call ticks : same_call alice_glue (door_call ticks) alice (door_env ticks) door_config "/dev/video2" "alice" door_service ∅.
Proof.
  split; [apply door_same|reflexivity|by right|right; vm_compute; reflexivity|reflexivity..|done|done|done| |].
  - intros _. split; [done|vm_compute; reflexivity].
  - intros _. vm_compute. reflexivity.
Qed.

(** What the service answers at the same door. *)
#[local] Abbreviation visit ticks := (authenticate_request (λ _, "") alice_glue (door_call ticks) "alice" false door_service).

Lemma door_replies ticks : match visit ticks with Some ((Ok _, _, _), _) => true | _ => false end = true →
  ∃ reply fx v' signal, visit ticks = Some ((Ok reply, fx, v'), signal).
Proof. destruct (visit ticks) as [[[[[reply|] fx] v'] signal]|]; [|done..]. by exists reply, fx, v', signal. Qed.

(** A disk that fails under the markers changes nothing: the stranger is turned away alike. *)
Lemma transports_agree_witness : ∃ x reply fx v' signal,
  visit stranger_tick = Some ((Ok reply, fx, v'), signal) ∧
  answer x = 1 ∧ db (store_after x) = db (store (guarded (daemon v'))).
Proof.
  destruct (knock_exits stranger_tick 1 ltac:(vm_compute; reflexivity)) as (x & Hx & Hc).
  destruct (door_replies stranger_tick ltac:(vm_compute; reflexivity)) as (reply & fx & v' & signal & Hr).
  exists x, reply, fx, v', signal. split; [exact Hr|]. split; [exact Hc|].
  exact (proj1 (transports_agree (λ _, "") alice_glue (door_call stranger_tick) alice "alice" false (door_env stranger_tick) plain_config door_config "/dev/video2"
    door_service ∅ door_store stale_world (full_disk 3) x reply fx v' signal eq_refl eq_refl eq_refl (door_same_call stranger_tick) door_calm Hx Hr)).
Defined.

Lemma door_idle : saved door_store = None.
Proof. vm_compute. reflexivity. Qed.

Lemma oneshot_success_is_proved_witness : ∃ x c stored caps models r,
  answer x = 0 ∧ matched r = true ∧ reports (door_env turning_tick) c "alice" caps models stored r.
Proof.
  destruct (knock_exits turning_tick 0 ltac:(vm_compute; reflexivity)) as (x & Hx & Hc).
  destruct (oneshot_success_is_proved (door_env turning_tick) "alice" door_store ∅ stale_world (full_disk 3) x door_idle Hx Hc)
    as (c0 & c & p & caps & models & stored & s1 & s2 & d1 & r & _ & _ & _ & _ & _ & _ & _ & _ & _ & _ & _ & Hm & Hrep & _).
  exists x, c, stored, caps, models, r. split; [exact Hc|]. split; [exact Hm|exact Hrep].
Defined.

Lemma oneshot_charges_wrong_guesses_witness : ∃ x c s1 mr,
  answer x = 1 ∧ matched mr = false ∧
  store_after x = if face_detected mr then snd (record_failure (limiter_of c) (Some 40) "alice" s1) else s1.
Proof.
  destruct (knock_exits stranger_tick 1 ltac:(vm_compute; reflexivity)) as (x & Hx & Hc).
  destruct (oneshot_charges_wrong_guesses (door_env stranger_tick) "alice" door_store ∅ stale_world (full_disk 3) x door_idle Hx)
    as (_ & _ & Hw).
  destruct (Hw Hc) as (c & caps & models & stored & s1 & mr & _ & Hm & _ & Hs).
  exists x, c, s1, mr. split; [exact Hc|]. split; [exact Hm|exact Hs].
Defined.

Lemma door_serves : serves door_store.
Proof.
  split; [split_and!|].
  - apply door_calm.
  - vm_compute. discriminate.
  - vm_compute. discriminate.
  - assert (forallb (λ m, (0 <=? m_id m) && (m_id m <=? u32_max)) (face_models (db door_store)) = true) as Hall by (vm_compute; reflexivity).
    apply Forall_forall. intros m Hm. rewrite forallb_forall in Hall. apply list_elem_of_In, Hall in Hm. apply andb_true_iff in Hm as [Hlo%Z.leb_le Hhi%Z.leb_le]. by split.
Qed.

Lemma attempt_settles_marker_witness : ∃ x w',
  calmly (run_in_store (door_env stranger_tick) plain_config "alice" "/dev/video2" door_store ∅) stale_world x w' ∧
  (models_of "alice" (db door_store) = 0 → answers_with markers_at w' "alice" Markers.Absent).
Proof.
  assert (writable stale_world (models_of "alice" (db door_store))) as Hj by (vm_compute; reflexivity).
  destruct (attempt_settles_marker (door_env stranger_tick) plain_config "alice" "/dev/video2" door_store ∅ stale_world (markers_at, "alice")
    markers_plain stale_ready eq_refl eq_refl Hj door_serves) as (x & w' & Hc & _ & Ha & _).
  exists x, w'. split; [exact Hc|exact Ha].
Defined.
