(* ===== verification/Quirks.v ===== *)
(** * Quirks: which camera is infrared

    The hardware quirks and the identity of a node ([facelock-camera/src/quirks.rs]), the
    classification of nodes and the choice of one ([device.rs]), and what a resolved camera says of
    itself ([caps.rs]). The answers of V4L2, [/sys] and the file system are a [Hardware]; TOML
    decoding and [str::to_lowercase] are parameters. *)

From stdpp Require Import sorting.
From S2P Require Import Prelude Text DeviceBinding.

(** ** Strings *)

(** [&s[n..]] *)
Fixpoint str_from (n : nat) (s : string) : string :=
  match n, s with
  | O, _ => s
  | S n', String _ s' => str_from n' s'
  | S _, EmptyString => EmptyString
  end.

(** [str::find] on a substring *)
Fixpoint find_str (p s : string) : option nat :=
  if starts_with p s then Some O
  else match s with EmptyString => None | String _ s' => S <$> find_str p s' end.

(** [str::split] on [.*] *)
Fixpoint split_wild (s : string) : list string :=
  match s with
  | EmptyString => [EmptyString]
  | String a s' =>
      let other := match split_wild s' with [] => [String a EmptyString] | p :: ps => String a p :: ps end in
      match s' with
      | String b s'' => if Ascii.eqb a "."%char && Ascii.eqb b "*"%char then EmptyString :: split_wild s'' else other
      | EmptyString => other
      end
  end.

(** [str::to_ascii_lowercase] *)
Fixpoint ascii_lowercase (s : string) : string :=
  match s with EmptyString => EmptyString | String a s' => String (to_ascii_lowercase a) (ascii_lowercase s') end.

(** [str::to_lowercase] *)
Class Lowercase := to_lowercase : string → string.

(** ** Devices and quirks *)
Record FormatInfo := { fourcc : string; description : string; sizes : list (Z * Z) }.

Record DeviceInfo := {
  dev_path : string;
  dev_name : string;
  driver : string;
  capabilities : list string;
  formats : list FormatInfo }.

Record Quirk := {
  vendor_id : option string;
  product_id : option string;
  name_pattern : option string;
  modalias : option string;
  node_name : option string;
  force_ir : option bool;
  emitter_xu_guid : option string;
  emitter_xu_selector : option Z;
  quirk_warmup_frames : option Z;
  format_preference : option string;
  y16_bit_depth : option Z;
  quirk_rotation : option Z;
  notes : option string }.

Inductive QuirkMatchKind := UsbId | PlatformId | NameOnly.

Record PlatformIdentity := { pl_modalias : string; pl_node_name : string }.

Definition QuirksDb : Type := list Quirk.

(** [hw_query] is what V4L2 says of a node; the others are what the file system answers. *)
Record Hardware := {
  hw_exists : string → bool;
  hw_query : string → result DeviceInfo string;
  hw_read : string → option string;
  hw_canonical : string → option string;
  hw_list : string → option (list string) }.

Section quirks.
Context `{Lowercase} (parse_quirks : string → result (list Quirk) string) (hw : Hardware).

(** ** Loading *)

(** [Path::extension] of a file name *)
Definition extension (name : string) : option string :=
  match rsplit_once "."%char name with
  | Some (stem, ext) => if is_empty_str stem then None else Some ext
  | None => None
  end.

(** The preference is normalized; a warning about half a platform identity is only logged. *)
Definition normalized (q : Quirk) : Quirk :=
  {| vendor_id := vendor_id q; product_id := product_id q; name_pattern := name_pattern q; modalias := modalias q;
     node_name := node_name q; force_ir := force_ir q; emitter_xu_guid := emitter_xu_guid q;
     emitter_xu_selector := emitter_xu_selector q; quirk_warmup_frames := quirk_warmup_frames q;
     format_preference := trim <$> format_preference q; y16_bit_depth := y16_bit_depth q;
     quirk_rotation := quirk_rotation q; notes := notes q |}.

Definition load_file (p : string) : result (list Quirk) string :=
  match hw_read hw p with
  | None => Err "read error"
  | Some content => let? quirks := map_err (λ e, "parse error: " +:+ e) (parse_quirks content) in Ok (map normalized quirks)
  end.

Definition load_dir (db : QuirksDb) (dir : string) : QuirksDb :=
  match hw_list hw dir with
  | None => db
  | Some entries =>
      let paths := merge_sort String.le (map (λ n, dir +:+ "/" +:+ n) (List.filter (λ n, bool_decide (extension n = Some "toml")) entries)) in
      fold_left (λ db p, match load_file p with Ok quirks => db ++ quirks | Err _ => db end) paths db
  end.

Definition load_quirks : QuirksDb :=
  fold_left load_dir ["/usr/share/facelock/quirks.d"; "/etc/facelock/quirks.d"] [].

(** ** Identities *)
Definition try_read_sysfs_attr (base attr : string) : option string :=
  match hw_read hw (base +:+ "/" +:+ attr) with
  | Some s => let t := trim s in if is_empty_str t then None else Some t
  | None => None
  end.

Definition or_else {A} (x y : option A) : option A := match x with Some _ => x | None => y end.

Definition read_modalias (parent : string) : option string :=
  or_else (try_read_sysfs_attr parent "modalias")
    (uevent ← try_read_sysfs_attr parent "uevent";
     line ← find_map (strip_prefix "MODALIAS=") (str_lines uevent);
     let t := trim line in if is_empty_str t then None else Some t).

(** The component after the first [c]. *)
Fixpoint component_after (c : string) (l : list string) : option string :=
  match l with [] => None | x :: l => if String.eqb x c then head l else component_after c l end.

Definition platform_identity_from_sysfs (class_dir : string) : option PlatformIdentity :=
  parent ← hw_canonical hw (class_dir +:+ "/device");
  if bool_decide (component_after "devices" (split_on slash parent) = Some "virtual") then None
  else
    m ← read_modalias parent;
    if starts_with "usb:" m then None
    else
      n ← try_read_sysfs_attr class_dir "name";
      Some {| pl_modalias := m; pl_node_name := n |}.

(** [Path::join] *)
Definition path_join (base p : string) : string := if starts_with "/" p then p else base +:+ "/" +:+ p.

Definition read_platform_identity (device_path : string) : option PlatformIdentity :=
  name ← strip_prefix "/dev/" device_path;
  platform_identity_from_sysfs (path_join "/sys/class/video4linux" name).

Definition read_v4l_by_path (device_path : string) : option string :=
  entries ← hw_list hw "/dev/v4l/by-path";
  target ← hw_canonical hw device_path;
  List.find (λ e, bool_decide (hw_canonical hw ("/dev/v4l/by-path/" +:+ e) = Some target)) entries.

Definition device_fingerprint (device_path : string) : DeviceFingerprint :=
  match strip_prefix "/dev/" device_path with
  | None => fingerprint_default
  | Some name =>
      let sysfs_base := "/sys/class/video4linux/" +:+ name +:+ "/device" in
      let read_attr attr := or_else (try_read_sysfs_attr sysfs_base attr) (try_read_sysfs_attr (sysfs_base +:+ "/..") attr) in
      {| vid := ascii_lowercase <$> read_attr "idVendor"; pid := ascii_lowercase <$> read_attr "idProduct";
         serial := read_attr "serial"; by_path := read_v4l_by_path device_path |}
  end.

Definition read_usb_ids (device_path : string) : option (string * string) :=
  let fp := device_fingerprint device_path in
  match vid fp, pid fp with Some v, Some p => Some (v, p) | _, _ => None end.

(** ** Matching a name *)

(** One part of the pattern, from [pos]: the position behind it. *)
Definition match_part (name : string) (starts_wild ends_wild is_first is_last : bool) (part : string) (pos : nat) : option nat :=
  if is_first && negb starts_wild then
    if starts_with part (str_from pos name) then
      let pos := (pos + String.length part)%nat in
      if is_last && negb ends_wild && negb (pos =? String.length name)%nat then None else Some pos
    else None
  else if is_last && negb ends_wild then
    if ((String.length name <? String.length part) || (String.length name - String.length part <? pos))%nat || negb (ends_with part name)
    then None else Some (String.length name)
  else (λ idx, (pos + idx + String.length part)%nat) <$> find_str part (str_from pos name).

Fixpoint match_parts (name : string) (starts_wild ends_wild is_first : bool) (parts : list string) (pos : nat) : bool :=
  match parts with
  | [] => true
  | part :: rest =>
      match match_part name starts_wild ends_wild is_first (match rest with [] => true | _ => false end) part pos with
      | None => false
      | Some pos => match_parts name starts_wild ends_wild false rest pos
      end
  end.

(** The pattern and the name, in lower case where the pattern says so. *)
Definition folded (pattern name : string) : string * string :=
  match strip_prefix "(?i)" pattern with
  | Some p => (to_lowercase p, to_lowercase name)
  | None => (pattern, name)
  end.

Definition name_matches (pattern name : string) : bool :=
  let '(pattern, name) := folded pattern name in
  let raw_parts := split_wild pattern in
  let starts_wild := (1 <? length raw_parts)%nat && is_some_and is_empty_str (head raw_parts) in
  let ends_wild := (1 <? length raw_parts)%nat && is_some_and is_empty_str (last raw_parts) in
  match_parts name starts_wild ends_wild true (List.filter (λ p, negb (is_empty_str p)) raw_parts) 0.

(** ** Finding the quirk of a device *)

(** [iter().rev().find(..)] *)
Definition find_last (f : Quirk → bool) (db : QuirksDb) : option Quirk := List.find f (rev db).

Definition usb_quirk (ids : string * string) (q : Quirk) : bool :=
  match vendor_id q, product_id q with
  | Some v, Some p => eq_ignore_ascii_case v ids.1 && eq_ignore_ascii_case p ids.2
  | _, _ => false
  end.

Definition platform_quirk (id : PlatformIdentity) (q : Quirk) : bool :=
  match modalias q, node_name q with
  | Some m, Some n => String.eqb m (pl_modalias id) && String.eqb n (pl_node_name id)
  | _, _ => false
  end.

Definition named_quirk (device : DeviceInfo) (q : Quirk) : bool :=
  is_some_and (λ p, name_matches p (dev_name device)) (name_pattern q).

Definition find_match_with_kind (db : QuirksDb) (device : DeviceInfo) (usb_ids : option (string * string))
    (platform : option PlatformIdentity) : option (Quirk * QuirkMatchKind) :=
  match usb_ids ≫= λ ids, find_last (usb_quirk ids) db with
  | Some q => Some (q, UsbId)
  | None =>
      match platform ≫= λ id, find_last (platform_quirk id) db with
      | Some q => Some (q, PlatformId)
      | None => (λ q, (q, NameOnly)) <$> find_last (named_quirk device) db
      end
  end.

Definition find_match_with_ids (db : QuirksDb) (device : DeviceInfo) (usb_ids : option (string * string)) : option Quirk :=
  fst <$> find_match_with_kind db device usb_ids None.

Definition find_match (db : QuirksDb) (device : DeviceInfo) : option Quirk :=
  fst <$> find_match_with_kind db device (read_usb_ids (dev_path device)) (read_platform_identity (dev_path device)).

(** ** Infrared *)
Inductive IrSource := SourceQuirk | SourceFormat | SourceNone.

#[export] Instance IrSource_eq_dec : EqDecision IrSource.
Proof. solve_decision. Defined.

Definition IR_TYPICAL_FOURCCS : list string := ["GREY"; "Y16"; "Y12"; "Y10"; "Y8"].
Definition is_ir_typical_fourcc (f : string) : bool := existsb (String.eqb (trim f)) IR_TYPICAL_FOURCCS.

(** In the order they are negotiated ([capture.rs]). *)
Definition DECODABLE_FORMATS : list string := ["GREY"; "Y16"; "YUYV"; "NV12"; "MJPG"].
Definition has_decodable_format (d : DeviceInfo) : bool :=
  existsb (λ f, existsb (String.eqb (trim (fourcc f))) DECODABLE_FORMATS) (formats d).

Definition has_native_ir_format (d : DeviceInfo) : bool := existsb (λ f, is_ir_typical_fourcc (fourcc f)) (formats d).

Definition has_mono_only_formats (d : DeviceInfo) : bool :=
  match formats d with [] => false | fs => forallb (λ f, is_ir_typical_fourcc (fourcc f)) fs end.

Definition has_queried_ir_evidence (d : DeviceInfo) : bool := has_mono_only_formats d.

Definition heuristic_ir_source (d : DeviceInfo) : IrSource := if has_queried_ir_evidence d then SourceFormat else SourceNone.

Definition corroborated (kind : QuirkMatchKind) (usb_ids : option (string * string)) (d : DeviceInfo) : bool :=
  match kind with
  | UsbId | PlatformId => true
  | NameOnly => is_some usb_ids || has_queried_ir_evidence d
  end.

Definition ir_source_with_quirks_and_identity (d : DeviceInfo) (quirks : option QuirksDb)
    (usb_ids : option (string * string)) (platform : option PlatformIdentity) : IrSource :=
  match quirks ≫= λ db, find_match_with_kind db d usb_ids platform with
  | Some (q, kind) =>
      match force_ir q with
      | Some false => SourceNone
      | Some true => if corroborated kind usb_ids d then SourceQuirk else heuristic_ir_source d
      | None => heuristic_ir_source d
      end
  | None => heuristic_ir_source d
  end.

Definition ir_source_with_quirks (d : DeviceInfo) (quirks : option QuirksDb) : IrSource :=
  ir_source_with_quirks_and_identity d quirks (read_usb_ids (dev_path d)) (read_platform_identity (dev_path d)).

(** *** Several nodes of one camera *)

(** The preference of the quirk the group matches counts where it is an infrared format itself. *)
Definition group_preference (quirks : option QuirksDb) (d : DeviceInfo) (ids : string * string) : option string :=
  quirks ≫= λ db, find_match_with_ids db d (Some ids) ≫= format_preference.

Definition node_has_ir_format (pref : option string) (d : DeviceInfo) : bool :=
  has_native_ir_format d ||
  is_some_and (λ p, is_ir_typical_fourcc p && existsb (λ f, String.eqb (trim (fourcc f)) (trim p)) (formats d)) pref.

(** The nodes at [j], where there is one, satisfy [f]. *)
Definition at_node (devices : list DeviceInfo) (f : DeviceInfo → bool) (j : nat) : bool := is_some_and f (devices !! j).

Definition is_quirk (sources : list IrSource) (j : nat) : bool := bool_decide (sources !! j = Some SourceQuirk).

Definition demote (devices : list DeviceInfo) (pref : option string) (sources : list IrSource) (j : nat) : list IrSource :=
  match devices !! j with
  | Some d => if node_has_ir_format pref d then sources else <[j := heuristic_ir_source d]> sources
  | None => sources
  end.

Definition ids_at (usb_ids : list (option (string * string))) (j : nat) : option (string * string) := mjoin (usb_ids !! j).

(** One round of the loop over the nodes, with the identities seen. *)
Definition disambiguate (devices : list DeviceInfo) (quirks : option QuirksDb) (usb_ids : list (option (string * string)))
    (st : list IrSource * list (string * string)) (i : nat) : list IrSource * list (string * string) :=
  let '(sources, seen) := st in
  if negb (is_quirk sources i) then (sources, seen)
  else
    match ids_at usb_ids i with
    | None => (sources, seen)
    | Some ids =>
        if bool_decide (ids ∈ seen) then (sources, seen)
        else
          let seen := seen ++ [ids] in
          let group := List.filter (λ j, is_quirk sources j && bool_decide (ids_at usb_ids j = Some ids)) (seq 0 (length devices)) in
          if (length group <? 2)%nat then (sources, seen)
          else
            let pref := devices !! i ≫= λ d, group_preference quirks d ids in
            if existsb (at_node devices (node_has_ir_format pref)) group
            then (fold_left (demote devices pref) group sources, seen)
            else (sources, seen)
    end.

Fixpoint node_sources (quirks : option QuirksDb) (devices : list DeviceInfo)
    (usb_ids : list (option (string * string))) (platform : list (option PlatformIdentity)) : list IrSource :=
  match devices, usb_ids, platform with
  | d :: devices, ids :: usb_ids, id :: platform =>
      ir_source_with_quirks_and_identity d quirks ids id :: node_sources quirks devices usb_ids platform
  | _, _, _ => []
  end.

Definition classify_ir_sources_with_identity (devices : list DeviceInfo) (quirks : option QuirksDb)
    (usb_ids : list (option (string * string))) (platform : list (option PlatformIdentity)) : list IrSource :=
  fst (fold_left (disambiguate devices quirks usb_ids) (seq 0 (length devices)) (node_sources quirks devices usb_ids platform, [])).

Definition classify_ir_sources (devices : list DeviceInfo) (quirks : option QuirksDb) : list IrSource :=
  classify_ir_sources_with_identity devices quirks
    (map (λ d, read_usb_ids (dev_path d)) devices) (map (λ d, read_platform_identity (dev_path d)) devices).

(** ** Choosing a node *)
Definition video_nodes : list string := map (λ i, "/dev/video" +:+ show_nat i) (seq 0 64).

Definition list_devices : list DeviceInfo :=
  omap (λ p, if hw_exists hw p then match hw_query hw p with Ok d => Some d | Err _ => None end else None) video_nodes.

(** A node that is asked for is the authority about itself. *)
Definition ir_source_resolved (d : DeviceInfo) (quirks : option QuirksDb) : IrSource :=
  let devices := List.filter (λ x, negb (String.eqb (dev_path x) (dev_path d))) list_devices ++ [d] in
  default SourceNone (last (classify_ir_sources devices quirks)).

Definition is_ir_camera_resolved (d : DeviceInfo) (quirks : option QuirksDb) : bool :=
  negb (bool_decide (ir_source_resolved d quirks = SourceNone)).

Definition is_ascii_alphanumeric (a : ascii) : bool :=
  let n := Ascii.nat_of_ascii a in ((48 <=? n) && (n <=? 57) || (65 <=? n) && (n <=? 90) || (97 <=? n) && (n <=? 122))%nat.

(** Split on whatever is not alphanumeric. *)
Fixpoint name_tokens (s : string) : list string :=
  match s with
  | EmptyString => [EmptyString]
  | String a s' =>
      if is_ascii_alphanumeric a
      then match name_tokens s' with [] => [String a EmptyString] | p :: ps => String a p :: ps end
      else EmptyString :: name_tokens s'
  end.

Definition has_ir_name_token (name : string) : bool :=
  existsb (λ tok, eq_ignore_ascii_case tok "ir" || eq_ignore_ascii_case tok "infrared") (name_tokens name).

Definition pick_auto_device (devices : list DeviceInfo) (sources : list IrSource) : option DeviceInfo :=
  let nodes := List.filter (λ x, has_decodable_format (fst x)) (zip devices sources) in
  let first f := fst <$> List.find f nodes in
  or_else (first (λ x, bool_decide (snd x = SourceQuirk) && has_native_ir_format (fst x)))
    (or_else (first (λ x, bool_decide (snd x = SourceQuirk)))
       (or_else (first (λ x, negb (bool_decide (snd x = SourceNone)) && has_ir_name_token (dev_name (fst x))))
          (or_else (first (λ x, negb (bool_decide (snd x = SourceNone))))
             (List.find has_decodable_format devices)))).

Definition format_listing (d : DeviceInfo) : string := String.concat ", " (map (λ f, trim (fourcc f)) (formats d)).

Definition auto_detect_device_with (db : QuirksDb) : result DeviceInfo string :=
  match list_devices with
  | [] => Err "no video devices found"
  | devices =>
      match pick_auto_device devices (classify_ir_sources devices (Some db)) with
      | Some d => Ok d
      | None =>
          Err ("no camera with a decodable pixel format (" +:+ String.concat "/" DECODABLE_FORMATS +:+ ") found; detected: " +:+
               String.concat "; " (map (λ d, dev_path d +:+ " " +:+ dq +:+ dev_name d +:+ dq +:+ " [" +:+ format_listing d +:+ "]") devices) +:+
               ". Raw sensor nodes (e.g. Intel IPU6/IPU7) are excluded from auto-detection — set device.path to a processed camera (see docs/compatibility.md)")
      end
  end.

Definition auto_detect_device : result DeviceInfo string := auto_detect_device_with load_quirks.

Definition validate_device (p : string) : result DeviceInfo string := hw_query hw p.
End quirks.

(** ** Formats and scales ([capture.rs], [preprocess.rs]) *)

(** The index of the first wanted format that is available. *)
Fixpoint index_of (f : string) (l : list string) : option nat :=
  match l with [] => None | x :: l => if String.eqb x f then Some O else S <$> index_of f l end.

Definition select_format (preferred available : list string) : option nat := find_map (λ p, index_of p available) preferred.

Definition quirk_format_preference (quirk : option Quirk) : option string :=
  pref ← quirk ≫= format_preference;
  let pref := trim pref in
  if existsb (String.eqb pref) DECODABLE_FORMATS then Some pref else None.

Definition select_format_for_quirk (quirk : option Quirk) (available : list string) : option nat :=
  select_format (option_list (quirk_format_preference quirk) ++ DECODABLE_FORMATS) available.

Definition y16_shift_from_bit_depth (bit_depth : Z) : option Z :=
  if (8 <=? bit_depth) && (bit_depth <=? 16) then Some (bit_depth - 8) else None.

Definition quirk_y16_shift (quirk : option Quirk) : option Z := (quirk ≫= y16_bit_depth) ≫= y16_shift_from_bit_depth.

Definition ir_texture_scale_for_format (format : string) (quirk : option Quirk) : IrTextureScale :=
  if negb (String.eqb format "Y16") then NotY16
  else match quirk ≫= y16_bit_depth with
       | Some bit_depth => if is_some (y16_shift_from_bit_depth bit_depth) then VerifiedY16 bit_depth else UnverifiedY16
       | None => UnverifiedY16
       end.

(** ** What a camera says of itself ([caps.rs]) *)
Record ResolvedCamera := { info : DeviceInfo; quirk : option Quirk; caps : CameraCaps }.

Definition quirk_id (q : Quirk) : string :=
  let base :=
    match vendor_id q, product_id q, modalias q, node_name q, name_pattern q with
    | Some vid, Some pid, _, _, _ => vid +:+ ":" +:+ pid
    | _, _, Some m, Some node, _ => "platform:" +:+ m +:+ "/" +:+ node
    | _, _, _, _, Some pattern => "name:" +:+ pattern
    | _, _, _, _, _ => "unidentified-quirk"
    end in
  match notes q with
  | Some n => if is_empty_str n then base else base +:+ " (" +:+ n +:+ ")"
  | None => base
  end.

Section caps.
Context `{Lowercase} (hw : Hardware).

Definition interrogate (d : DeviceInfo) (db : QuirksDb) : ResolvedCamera :=
  let quirk := find_match hw db d in
  let available := map (λ f, trim (fourcc f)) (formats d) in
  let selected := unwrap_or "" (select_format_for_quirk quirk available ≫= λ i, available !! i) in
  {| info := d; quirk := quirk;
     caps := {| is_ir := is_ir_camera_resolved hw d (Some db); fingerprint := device_fingerprint hw (dev_path d);
                applied_quirks := option_list (quirk_id <$> quirk);
                ir_texture_scale := ir_texture_scale_for_format selected quirk |} |}.

Definition resolve_camera (path : option string) (db : QuirksDb) : result ResolvedCamera string :=
  let? d := match path with Some p => validate_device hw p | None => auto_detect_device_with hw db end in
  Ok (interrogate d db).
End caps.
