(* ===== verification/Capture.v ===== *)
(** * Capture: opening a camera and what its frames decode to

    Pixel conversion ([facelock-camera/src/preprocess.rs]), the negotiation, the Y16 scale and the
    camera itself ([capture.rs]), and the infrared light ([ir_emitter.rs], [ir_led.rs]). What V4L2
    answers is a [Driver]; the [image] crate is an [Imaging]. [None] is a panic. *)

From S2P Require Import Prelude Text Float32 Types DeviceBinding Config Gates Quirks.

(** ** Pixels *)
Definition C_RV : Z := 1436.
Definition C_GU : Z := 352.
Definition C_GV : Z := 731.
Definition C_BU : Z := 1814.

(** [clamp(0, 255) as u8] *)
Definition clamp_u8 (x : Z) : Z := Z.max 0 (Z.min 255 x).

Definition chroma_q10 (u v : Z) : Z * Z * Z :=
  let u := u - 128 in
  let v := v - 128 in
  (C_RV * v, - (C_GU * u + C_GV * v), C_BU * u).

Definition yuv_to_rgb_px (y : Z) (chroma : Z * Z * Z) : list Z :=
  let '(cr, cg, cb) := chroma in
  let y := Z.shiftl y 10 in
  [clamp_u8 (Z.shiftr (y + cr) 10); clamp_u8 (Z.shiftr (y + cg) 10); clamp_u8 (Z.shiftr (y + cb) 10)].

(** A group of four bytes is two pixels; what does not fill a group is left out. *)
Fixpoint yuyv_to_rgb (data : list Z) : list Z :=
  match data with
  | y0 :: u :: y1 :: v :: rest =>
      let chroma := chroma_q10 u v in
      yuv_to_rgb_px y0 chroma ++ yuv_to_rgb_px y1 chroma ++ yuyv_to_rgb rest
  | _ => []
  end.

Definition div_ceil (a b : nat) : nat := ((a + (b - 1)) / b)%nat.

(** [Some None] is a buffer that is too short. *)
Definition nv12_to_rgb (data : list Z) (w h : nat) : option (option (list Z)) :=
  let y_len := (w * h)%nat in
  let uv_stride := (2 * div_ceil w 2)%nat in
  if (length data <? y_len + uv_stride * div_ceil h 2)%nat then Some None
  else
    let uv_plane := drop y_len data in
    rows ← mapM (λ row,
        let uv_row := drop (row / 2 * uv_stride)%nat uv_plane in
        pixels ← mapM (λ col,
            u ← uv_row !! (col / 2 * 2)%nat;
            v ← uv_row !! (col / 2 * 2 + 1)%nat;
            y ← data !! (row * w + col)%nat;
            Some (yuv_to_rgb_px y (chroma_q10 u v))) (seq 0 w);
        Some (concat pixels)) (seq 0 h);
    Some (Some (concat rows)).

(** The little-endian samples of a Y16 buffer. *)
Fixpoint samples (data : list Z) : list Z :=
  match data with lo :: hi :: rest => (lo + 256 * hi) :: samples rest | _ => [] end.

Definition y16_peak (data : list Z) : Z := foldr Z.max 0 (samples data).

Definition leading_zeros_u16 (p : Z) : Z := if p =? 0 then 16 else 15 - Z.log2 p.

Definition y16_shift_from_peak (peak : Z) : Z := saturating_sub (16 - leading_zeros_u16 peak) 8.

Inductive Y16Calibration := LowRange | Saturated | Normal.

Definition y16_calibration (peak : Z) : Z * Y16Calibration :=
  (y16_shift_from_peak peak, if peak =? 65535 then Saturated else if peak <? 256 then LowRange else Normal).

Definition y16_to_gray (data : list Z) (shift : Z) : list Z := map (λ s, Z.min (Z.shiftr s shift) 255) (samples data).

Fixpoint rgb_to_gray (rgb : list Z) : list Z :=
  match rgb with
  | r :: g :: b :: rest => Z.shiftr (77 * r + 150 * g + 29 * b) 8 mod 256 :: rgb_to_gray rest
  | _ => []
  end.

(** The first [height] chunks. *)
Fixpoint take_rows (stride height : nat) (buf : list Z) : list (list Z) :=
  match height, buf with
  | O, _ | _, [] => []
  | S height, _ => take stride buf :: take_rows stride height (drop stride buf)
  end.

Definition gray_px (p : Z) : list Z := [p; p; p].

Definition usize_bound : Z := 2 ^ 64.

(** [stride * (height - 1) + width], where it is a size. *)
Definition grey_needed (width height stride : nat) : option Z :=
  match height with
  | O => Some 0
  | S h =>
      let n := Z.of_nat stride * Z.of_nat h in
      if n <? usize_bound then if n + Z.of_nat width <? usize_bound then Some (n + Z.of_nat width) else None else None
  end.

Definition grey_to_rgb (buf : list Z) (width height stride : nat) : result (list Z) string :=
  let short := "GREY frame too short: " +:+ show_nat (length buf) +:+ " bytes for " +:+ show_nat width +:+ "x" +:+ show_nat height
    +:+ " (stride " +:+ show_nat stride +:+ ")" in
  if (stride <? width)%nat || negb (is_some_and (λ n, n <=? Z.of_nat (length buf)) (grey_needed width height stride))
  then Err short
  else
    foldr (λ row acc, if (length row <? width)%nat then Err short else let? rest := acc in Ok (concat (map gray_px (take width row)) ++ rest))
      (Ok []) (take_rows (Nat.max stride 1) height buf).

(** ** The infrared light *)
Record EmitterXuInfo := { xu_unit : Z; selector : Z }.

Definition hex_digit (a : ascii) : option Z :=
  let n := Z.of_nat (Ascii.nat_of_ascii a) in
  if (48 <=? n) && (n <=? 57) then Some (n - 48)
  else if (65 <=? n) && (n <=? 70) then Some (n - 55)
  else if (97 <=? n) && (n <=? 102) then Some (n - 87) else None.

Fixpoint hex_below (bound acc : Z) (s : string) : option Z :=
  match s with
  | EmptyString => Some acc
  | String a s' => d ← hex_digit a; if acc * 16 + d <? bound then hex_below bound (acc * 16 + d) s' else None
  end.

(** [u8::from_str_radix(_, 16)], which takes a plus sign *)
Definition u8_from_hex (s : string) : option Z :=
  match s with
  | EmptyString | String "+"%char EmptyString => None
  | String "+"%char s' => hex_below 256 0 s'
  | _ => hex_below 256 0 s
  end.

Definition parse_xu_unit_from_guid (guid : string) : option Z := u8_from_hex (trim (fst (split_once "-"%char guid))).

Definition xu_info_from_quirk (q : Quirk) : option EmitterXuInfo :=
  guid ← emitter_xu_guid q;
  sel ← emitter_xu_selector q;
  unit ← parse_xu_unit_from_guid guid;
  Some {| xu_unit := unit; selector := sel |}.

(** ** The driver *)
Record Format := { fm_width : Z; fm_height : Z; fm_fourcc : string; fm_stride : Z }.

(** [dr_mplane] is a node that has the multi-planar capability only; [dr_formats] are raw codes.
    [dr_led] is what an LED's [max_brightness] says. [dr_writes] is whether a write to a light
    succeeds. *)
Record Driver := {
  dr_open : string → result unit string;
  dr_caps : string → result (bool * bool) string;          (* capture, multi-planar capture *)
  dr_formats : string → result (list string) string;
  dr_get_format : string → result Format string;
  dr_set_format : string → string → Z → Z → result Format string;
  dr_stream : string → result unit string;
  dr_exists : string → bool;
  dr_led : string → option string;
  dr_led_write : string → string → result unit string;
  dr_emitter : string → EmitterXuInfo → Z → result unit string }.

(** What was switched: a write to an LED, or the emitter control of a node. *)
Inductive Light := LedWrite (dir value : string) | EmitterSet (device : string) (xu : EmitterXuInfo) (value : Z).

Definition LED_CLASS_DIR : string := "/sys/class/leds".

Section light.
Context (dr : Driver).

Definition write_brightness (dir value : string) : result unit string * list Light := (dr_led_write dr dir value, [LedWrite dir value]).

(** The directory of the LED that is lit. *)
Definition led_on_in (class_dir name : string) : result string string * list Light :=
  let dir := class_dir +:+ "/" +:+ name in
  match dr_led dr dir with
  | None => (Err (dir +:+ ": cannot read max_brightness"), [])
  | Some max =>
      let max := trim max in
      match parse_u32 max with
      | Ok v => if 0 <? v then let '(r, l) := write_brightness dir max in (let? _ := r in Ok dir, l)
                else (Err (dir +:+ ": unusable max_brightness " +:+ max), [])
      | Err _ => (Err (dir +:+ ": unusable max_brightness " +:+ max), [])
      end
  end.

Definition led_on (spec : string) : result string string * list Light :=
  match led_class_name spec with
  | None => (Err (spec +:+ " is not a /sys/class/leds/<name> path"), [])
  | Some name => led_on_in LED_CLASS_DIR name
  end.

Definition led_drop (dir : string) : list Light := snd (write_brightness dir "0").

Definition set_emitter_control (device : string) (xu : EmitterXuInfo) (value : Z) : result unit string * list Light :=
  (dr_emitter dr device xu value, [EmitterSet device xu value]).

Definition enable_emitter (device : string) (quirk : option Quirk) : result bool string * list Light :=
  if negb (dr_exists dr device) then (Err ("device not found: " +:+ device), [])
  else match quirk ≫= xu_info_from_quirk with
       | None => (Ok false, [])
       | Some xu => let '(r, l) := set_emitter_control device xu 1 in (let? _ := r in Ok true, l)
       end.

Definition disable_emitter_with_info (device : string) (xu : EmitterXuInfo) : result unit string * list Light :=
  if negb (dr_exists dr device) then (Err ("device not found: " +:+ device), []) else set_emitter_control device xu 0.
End light.

(** ** Negotiation *)
Definition is_platform_ir_quirk (q : Quirk) : bool :=
  bool_decide (force_ir q = Some true) && is_some (modalias q) && is_some (node_name q) &&
  negb (is_some (vendor_id q) && is_some (product_id q)).

Definition check_platform_ir_format (quirk : option Quirk) (is_ir : bool) (format device_path : string) : result unit string :=
  match quirk with
  | Some q =>
      if negb (is_platform_ir_quirk q) then Ok tt
      else if negb is_ir || is_ir_typical_fourcc format then Ok tt
      else Err (device_path +:+ ": negotiated " +:+ format +:+ ", which is not a mono format, but the node is IR only by the platform quirk "
        +:+ quirk_id q +:+ " — an IR sensor delivers a mono format, so this node is refused as IR; route the IR sensor to it (or set format_preference to its mono format) before authenticating (see docs/security.md)")
  | None => Ok tt
  end.

Definition Y16_CALIBRATION_FRAMES : Z := 8.
Definition Y16_CALIBRATION_BUDGET : Z := 10 ^ 9.

Definition y16_calibration_frames (warmup : Z) : Z := Z.max warmup Y16_CALIBRATION_FRAMES.

Definition pending_calibration_frames (format : string) (shift : option Z) (burst : Z) : Z :=
  if String.eqb format "Y16" && negb (is_some shift) then as_u32 burst else 0.

Definition warmup_top_up (burst_frames warmup : Z) : Z := saturating_sub warmup burst_frames.

Definition expected_stride (format : string) (width : Z) : option Z :=
  if String.eqb format "GREY" || String.eqb format "NV12" then Some width
  else if String.eqb format "Y16" || String.eqb format "YUYV" then Some (as_u32 (width * 2)) else None.

(** ** The camera *)
Record Camera := {
  cm_width : Z;
  cm_height : Z;
  cm_format : string;
  cm_stride : Z;
  cm_rotation : Z;
  cm_device : string;
  cm_emitter_active : bool;
  cm_emitter : option EmitterXuInfo;
  cm_led : option string;
  cm_caps : CameraCaps;
  cm_y16_shift : option Z;
  cm_calibration_frames : Z;
  cm_warmup : Z;
  cm_taken : nat }.                                   (* frames dequeued so far *)

Definition with_taken (n : nat) (c : Camera) : Camera :=
  {| cm_width := cm_width c; cm_height := cm_height c; cm_format := cm_format c; cm_stride := cm_stride c;
     cm_rotation := cm_rotation c; cm_device := cm_device c; cm_emitter_active := cm_emitter_active c;
     cm_emitter := cm_emitter c; cm_led := cm_led c; cm_caps := cm_caps c; cm_y16_shift := cm_y16_shift c;
     cm_calibration_frames := cm_calibration_frames c; cm_warmup := cm_warmup c; cm_taken := n |}.

Definition with_shift (shift : Z) (c : Camera) : Camera :=
  {| cm_width := cm_width c; cm_height := cm_height c; cm_format := cm_format c; cm_stride := cm_stride c;
     cm_rotation := cm_rotation c; cm_device := cm_device c; cm_emitter_active := cm_emitter_active c;
     cm_emitter := cm_emitter c; cm_led := cm_led c; cm_caps := cm_caps c; cm_y16_shift := Some shift;
     cm_calibration_frames := cm_calibration_frames c; cm_warmup := cm_warmup c; cm_taken := cm_taken c |}.

Definition with_scale (scale : IrTextureScale) (c : CameraCaps) : CameraCaps :=
  {| is_ir := is_ir c; fingerprint := fingerprint c; applied_quirks := applied_quirks c; ir_texture_scale := scale |}.

(** [device.path] set to the path of the resolved device *)
Definition at_path (p : string) (c : DeviceConfig) : DeviceConfig :=
  {| path := Some p; max_height := max_height c; rotation := rotation c; warmup_frames := warmup_frames c;
     dark_threshold := dark_threshold c; dark_pixel_value := dark_pixel_value c; ir_emitter := ir_emitter c;
     ir_led := ir_led c; keep_format := keep_format c; camera_release_secs := camera_release_secs c;
     camera_release_after_success_secs := camera_release_after_success_secs c |}.

Section camera.
Context `{Lowercase} (parse_quirks : string → result (list Quirk) string) (hw : Hardware) (dr : Driver).

Definition no_decodable_format (device : string) (available : list string) : string :=
  device +:+ ": no decodable pixel format — device advertises [" +:+ String.concat ", " available +:+ "] but facelock supports [" +:+
  String.concat ", " DECODABLE_FORMATS +:+ "]. Raw sensor nodes (e.g. Intel IPU6/IPU7) cannot be used directly; set device.path to a processed camera instead (see docs/compatibility.md)".

(** The format in use: the current one if the pipeline is configured outside, what the driver
    makes of a request for the selected one if not. *)
Definition negotiate (config : DeviceConfig) (device selected : string) (mplane_only : bool) : result Format string :=
  let max_h := Z.min (max_height config) 480 in
  let get := map_err (λ e, "failed to get format: " +:+ e) (dr_get_format dr device) in
  let set := map_err (λ e, "failed to set format: " +:+ e) (dr_set_format dr device selected 640 max_h) in
  if keep_format config then
    let? fmt := get in
    if existsb (String.eqb (trim (fm_fourcc fmt))) DECODABLE_FORMATS then Ok fmt
    else Err (device +:+ ": keep_format is set but the current format " +:+ trim (fm_fourcc fmt) +:+ " is not decodable")
  else if mplane_only then set
  else let? _ := get in set.

(** The lines are as wide as the converters take them to be. *)
Definition check_stride (device format : string) (fmt : Format) : result unit string :=
  match expected_stride format (fm_width fmt) with
  | Some expected =>
      if negb (fm_stride fmt =? expected) && negb (String.eqb format "GREY" && (expected <? fm_stride fmt))
      then Err (device +:+ ": " +:+ format +:+ " bytesperline is " +:+ show_Z (fm_stride fmt) +:+ " but facelock expects " +:+
                show_Z expected +:+ " for " +:+ show_Z (fm_width fmt) +:+ " pixels — padded strides are not supported")
      else Ok tt
  | None => Ok tt
  end.

(** What follows once the stream is there: the lights go on, and nothing fails any more. *)
Definition light_up (config : DeviceConfig) (quirk : option Quirk) (device format : string) (fmt : Format) (caps : CameraCaps) :
    Camera * list Light :=
  let '(emitted, l1) := if ir_emitter config then enable_emitter dr device quirk else (Ok false, []) in
  let '(led, l2) := match ir_led config with
                    | Some spec => let '(r, l) := led_on dr spec in (match r with Ok d => Some d | Err _ => None end, l)
                    | None => (None, [])
                    end in
  let warmup := unwrap_or (warmup_frames config) (quirk ≫= quirk_warmup_frames) in
  ({| cm_width := fm_width fmt; cm_height := fm_height fmt; cm_format := format; cm_stride := fm_stride fmt;
      cm_rotation := unwrap_or (rotation config) (quirk ≫= quirk_rotation); cm_device := device;
      cm_emitter_active := match emitted with Ok b => b | Err _ => false end;
      cm_emitter := quirk ≫= xu_info_from_quirk; cm_led := led; cm_caps := caps;
      cm_y16_shift := if String.eqb format "Y16" then quirk_y16_shift quirk else Some 0;
      cm_calibration_frames := y16_calibration_frames warmup; cm_warmup := warmup; cm_taken := 0 |}, l1 ++ l2).

(** From the capabilities of the node on. *)
Definition open_node (config : DeviceConfig) (quirk : option Quirk) (caps : CameraCaps) (device : string) :
    result Camera string * list Light :=
  match map_err (λ e, "failed to query caps for " +:+ device +:+ ": " +:+ e) (dr_caps dr device) with
  | Err e => (Err e, [])
  | Ok (capture, multi) =>
      let mplane_only := multi && negb capture in
      if negb mplane_only && negb capture then (Err (device +:+ ": not a video capture device"), [])
      else
        let negotiated :=
          let? codes := map_err (λ e, "failed to enum formats: " +:+ e) (dr_formats dr device) in
          match select_format_for_quirk quirk (map trim codes) ≫= λ i, codes !! i with
          | None => Err (no_decodable_format device (map trim codes))
          | Some selected =>
              let? fmt := negotiate config device selected mplane_only in
              let? _ := check_platform_ir_format quirk (is_ir caps) (trim (fm_fourcc fmt)) device in
              let? _ := check_stride device (trim (fm_fourcc fmt)) fmt in
              let? _ := map_err (λ e, "failed to create stream: " +:+ e) (dr_stream dr device) in
              Ok fmt
          end in
        match negotiated with
        | Err e => (Err e, [])
        | Ok fmt =>
            let format := trim (fm_fourcc fmt) in
            let '(camera, lights) := light_up config quirk device format fmt (with_scale (ir_texture_scale_for_format format quirk) caps) in
            (Ok camera, lights)
        end
  end.

Definition open_resolved (config : DeviceConfig) (quirk : option Quirk) (caps : CameraCaps) : result Camera string * list Light :=
  match (match path config with
         | Some p => Ok p
         | None => let? d := auto_detect_device parse_quirks hw in Ok (dev_path d)
         end) with
  | Err e => (Err e, [])
  | Ok device =>
      match map_err (λ e, "failed to open " +:+ device +:+ ": " +:+ e) (dr_open dr device) with
      | Err e => (Err e, [])
      | Ok _ => open_node config quirk caps device
      end
  end.

(** [ResolvedCamera::open] *)
Definition open_camera_resolved (r : ResolvedCamera) (config : DeviceConfig) : result Camera string * list Light :=
  open_resolved (at_path (dev_path (info r)) config) (quirk r) (caps r).

(** [Camera::open] *)
Definition open_configured (config : DeviceConfig) (db : QuirksDb) : result Camera string * list Light :=
  match resolve_camera hw (path config) db with
  | Err e => (Err e, [])
  | Ok r => open_camera_resolved r config
  end.

(** The LED first, then the emitter. *)
Definition camera_drop (c : Camera) : list Light :=
  match cm_led c with Some dir => led_drop dr dir | None => [] end ++
  (if cm_emitter_active c then match cm_emitter c with Some xu => snd (disable_emitter_with_info dr (cm_device c) xu) | None => [] end else []).
End camera.

(** ** Frames *)

(** The [image] crate: decoding a JPEG, and an image of the crate. *)
Record Imaging := {
  Img : Type;
  jpeg_to_rgb : list Z → result (list Z) string;
  from_raw : Z → Z → list Z → option Img;
  resize : Img → Z → Z → Img;
  rotate90 : Img → Img;
  rotate180 : Img → Img;
  rotate270 : Img → Img;
  img_width : Img → Z;
  img_height : Img → Z;
  into_raw : Img → list Z }.

Definition f64_to_u32 (x : f64) : Z := f32_to_uint u32_max x.

Section frames.
Context (im : Imaging) (frames : nat → result (list Z) string) (elapsed : nat → Z).

(** [frames] is what the attempts to dequeue a frame answer, one after the other.

    The burst, with [togo] frames to go: the brightest sample and the number of frames; before
    each it is asked how long it has run. *)
Fixpoint calibration_burst (togo taken got : nat) (peak : Z) : result (Z * nat) string * nat :=
  match togo with
  | O => (Ok (peak, got), taken)
  | S togo =>
      if elapsed got <? Y16_CALIBRATION_BUDGET then
        match frames taken with
        | Ok buf => calibration_burst togo (S taken) (S got) (Z.max peak (y16_peak buf))
        | Err e => (Err ("Y16 calibration failed after " +:+ show_nat got +:+ " frame(s): " +:+ e), S taken)
        end
      else (Ok (peak, got), taken)
  end.

Definition calibrate_y16_shift (device : string) (taken : nat) (target : Z) : result (Z * nat) string * nat :=
  let '(r, taken) := calibration_burst (Z.to_nat target) taken 0 0 in
  (let? x := map_err (λ e, device +:+ ": " +:+ e) r in
   match snd x with
   | O => Err (device +:+ ": Y16 calibration failed: no frame arrived within the calibration budget")
   | got => Ok (fst (y16_calibration (fst x)), got)
   end, taken).

(** [n] frames are thrown away. *)
Fixpoint discard (n taken : nat) : result unit string * nat :=
  match n with
  | O => (Ok tt, taken)
  | S n => match frames taken with
           | Ok _ => discard n (S taken)
           | Err e => (Err ("warmup after Y16 calibration failed: " +:+ e), S taken)
           end
  end.

(** The scale of an unverified Y16 stream is pinned once. *)
Definition pin_scale (c : Camera) : result unit string * Camera :=
  if String.eqb (cm_format c) "Y16" && negb (is_some (cm_y16_shift c)) then
    match calibrate_y16_shift (cm_device c) (cm_taken c) (cm_calibration_frames c) with
    | (Err e, taken) => (Err e, with_taken taken c)
    | (Ok (shift, got), taken) =>
        let '(r, taken) := discard (Z.to_nat (warmup_top_up (Z.of_nat got) (cm_warmup c))) taken in
        (r, with_taken taken (with_shift shift c))
    end
  else (Ok tt, c).

Definition decode_frame (c : Camera) (buf : list Z) : option (result (list Z) string) :=
  let w := Z.to_nat (cm_width c) in
  let h := Z.to_nat (cm_height c) in
  if String.eqb (cm_format c) "GREY" then Some (grey_to_rgb buf w h (Z.to_nat (cm_stride c)))
  else if String.eqb (cm_format c) "Y16" then
    match cm_y16_shift c with
    | None => Some (Err "Y16 conversion scale was not initialized")
    | Some shift => Some (Ok (concat (map gray_px (y16_to_gray buf shift))))
    end
  else if String.eqb (cm_format c) "YUYV" then Some (Ok (yuyv_to_rgb buf))
  else if String.eqb (cm_format c) "NV12" then
    (λ r, match r with
          | Some rgb => Ok rgb
          | None => Err ("NV12 frame too short: " +:+ show_nat (length buf) +:+ " bytes for " +:+ show_Z (cm_width c) +:+ "x" +:+ show_Z (cm_height c))
          end) <$> nv12_to_rgb buf w h
  else if String.eqb (cm_format c) "MJPG" then Some (map_err (λ e, "MJPG decode failed: " +:+ e) (jpeg_to_rgb im buf))
  else Some (Err ("unsupported format: " +:+ cm_format c)).

Definition downscaled (c : Camera) (rgb : list Z) (w h : Z) : result (list Z * Z * Z) string :=
  if cm_height c <? h then
    match from_raw im w h rgb with
    | None => Err "failed to create image for resize"
    | Some img =>
        let aspect := SFdiv 53 1024 (f64_of_Z w) (f64_of_Z h) in
        let new_h := cm_height c in
        let new_w := f64_to_u32 (SFmul 53 1024 (f64_of_Z new_h) aspect) in
        Ok (into_raw im (resize im img new_w new_h), new_w, new_h)
    end
  else Ok (rgb, w, h).

Definition rotated (c : Camera) (rgb : list Z) (w h : Z) : result (list Z * Z * Z) string :=
  if cm_rotation c =? 0 then Ok (rgb, w, h)
  else match from_raw im w h rgb with
       | None => Err "failed to create image for rotation"
       | Some img =>
           let img := if cm_rotation c =? 90 then rotate90 im img else if cm_rotation c =? 180 then rotate180 im img
                      else if cm_rotation c =? 270 then rotate270 im img else img in
           Ok (into_raw im img, img_width im img, img_height im img)
       end.

Definition capture_rgb (c : Camera) : option (result (list Z * Z * Z) string * Camera) :=
  match pin_scale c with
  | (Err e, c) => Some (Err e, c)
  | (Ok _, c) =>
      let answer := frames (cm_taken c) in
      let c := with_taken (S (cm_taken c)) c in
      match answer with
      | Err e => Some (Err ("capture failed: " +:+ e), c)
      | Ok buf =>
          match decode_frame c buf with
          | None => None
          | Some (Err e) => Some (Err e, c)
          | Some (Ok rgb) =>
              Some (let? x := downscaled c rgb (cm_width c) (cm_height c) in rotated c (fst (fst x)) (snd (fst x)) (snd x), c)
          end
      end
  end.

Definition capture_rgb_only (c : Camera) : option (result Frame string * Camera) :=
  r ← capture_rgb c;
  Some (let? x := fst r in Ok {| rgb := fst (fst x); gray := []; width := snd (fst x); height := snd x |}, snd r).

Definition capture (c : Camera) : option (result Frame string * Camera) :=
  r ← capture_rgb c;
  Some (let? x := fst r in Ok {| rgb := fst (fst x); gray := rgb_to_gray (fst (fst x)); width := snd (fst x); height := snd x |}, snd r).

Definition pending_settle_frames (c : Camera) : Z :=
  pending_calibration_frames (cm_format c) (cm_y16_shift c) (cm_calibration_frames c).
End frames.
