(* ===== verification/CameraProofs.v ===== *)
(** * CameraProofs: what it takes to count as infrared, and what a frame decodes to

    The matching of names is the glob it looks like; a camera is infrared on evidence that a name
    alone is not; decoded frames have the size and range the rest of the program indexes by. *)

From stdpp Require Import sorting.
From S2P Require Import Prelude Text Float32 Types DeviceBinding Config Store StoreProofs Gates Quirks Capture.

(** ** Names *)

(** A pattern as it reads: [.*] stands for anything, every other character for itself. *)
Inductive glob : string → string → Prop :=
  | glob_end : glob "" ""
  | glob_wild p gap n : glob p n → glob (".*" +:+ p) (gap +:+ n)
  | glob_char c p n : starts_with ".*" (String c p) = false → glob p n → glob (String c p) (String c n).

(** The same on segments: each follows the one before at some distance. *)
Fixpoint globs (segments : list string) (name : string) : Prop :=
  match segments with
  | [] => False
  | [s] => name = s
  | s :: rest => ∃ gap tail, name = s +:+ gap +:+ tail ∧ globs rest tail
  end.

Definition later (segments : list string) (t : string) : Prop := ∃ gap tail, t = gap +:+ tail ∧ globs segments tail.

Lemma globs_cons s r rest n : globs (s :: r :: rest) n ↔ ∃ t, n = s +:+ t ∧ later (r :: rest) t.
Proof.
  split.
  - intros (gap & tail & -> & Hg). exists (gap +:+ tail). split; [done|]. by exists gap, tail.
  - intros (t & -> & gap & tail & -> & Hg). by exists gap, tail.
Qed.

Lemma later_more segments z t : later segments t → later segments (z +:+ t).
Proof. intros (gap & tail & -> & Hg). exists (z +:+ gap), tail. by rewrite string_app_assoc. Qed.

Lemma split_wild_wild s : split_wild (".*" +:+ s) = "" :: split_wild s.
Proof. reflexivity. Qed.

Lemma split_wild_char c s : starts_with ".*" (String c s) = false →
  split_wild (String c s) = match split_wild s with [] => [String c ""] | p :: ps => String c p :: ps end.
Proof.
  intros Hs. destruct s as [|b s]; [done|]. cbn [split_wild].
  destruct (Ascii.eqb_spec c "."%char) as [->|]; [|done]. destruct (Ascii.eqb_spec b "*"%char) as [->|]; [|done].
  cbn in Hs. by destruct s.
Qed.

(** By the pattern, one wildcard or character at a time. *)
Lemma wild_ind (P : string → Prop) : P "" → (∀ s, P s → P (".*" +:+ s)) →
  (∀ c s, starts_with ".*" (String c s) = false → P s → P (String c s)) → ∀ s, P s.
Proof.
  intros Hn Hw Hc s. remember (String.length s) as n eqn:En. revert s En.
  induction (lt_wf n) as [n _ IH]. intros s ->. destruct s as [|c s]; [done|].
  destruct (starts_with ".*" (String c s)) eqn:Es.
  - apply prefix_spec in Es as [t Et]. rewrite Et. apply Hw. eapply IH; [|done]. rewrite Et, string_length_app. cbn. lia.
  - apply Hc; [done|]. eapply IH; [|done]. cbn. lia.
Qed.

Lemma split_wild_some s : ∃ p ps, split_wild s = p :: ps.
Proof.
  induction s as [|s [p [ps IH]]|c s Hc [p [ps IH]]] using wild_ind.
  - by exists "", [].
  - rewrite split_wild_wild. by eexists _, _.
  - rewrite split_wild_char, IH by done. by eexists _, _.
Qed.

Lemma glob_globs p n : glob p n ↔ globs (split_wild p) n.
Proof.
  revert n. induction p as [|p IH|c p Hc IH] using wild_ind; intros n.
  - cbn. split; [by inversion 1|intros ->; constructor].
  - rewrite split_wild_wild. destruct (split_wild_some p) as (s & ps & Es). rewrite Es, globs_cons. rewrite Es in IH. split.
    + inversion 1 as [|q gap m Hg|c q m Hs]; subst; [|cbn in Hs; by destruct p]. exists (gap +:+ m). split; [done|]. exists gap, m. split; [done|]. assert (q = p) as -> by assumption. by apply IH.
    + intros (t & -> & gap & tail & -> & Hg). change (glob (".*" +:+ p) (gap +:+ tail)). apply glob_wild. by apply IH.
  - rewrite split_wild_char by done. destruct (split_wild_some p) as (s & ps & Es). rewrite Es. rewrite Es in IH.
    assert (globs (String c s :: ps) n ↔ ∃ m, n = String c m ∧ globs (s :: ps) m) as ->.
    { destruct ps as [|r ps]; [cbn; split; [intros ->; by eexists|by intros (m & -> & ->)]|]. rewrite globs_cons. split.
      - intros (t & -> & Ht). exists (s +:+ t). split; [done|]. apply globs_cons. by eexists.
      - intros (m & -> & (t & -> & Ht)%globs_cons). by exists t. }
    split.
    + inversion 1 as [|q gap m Hg|c' q m Hs Hg]; subst; [cbn in Hc; by destruct q|]. exists m. split; [done|]. by apply IH.
    + intros (m & -> & Hg). apply glob_char; [done|]. by apply IH.
Qed.

(** *** The search *)
Lemma str_from_app pre t : str_from (String.length pre) (pre +:+ t) = t.
Proof. induction pre as [|a pre IH]; [by destruct t|]. exact IH. Qed.

Lemma find_str_some p t i : find_str p t = Some i → ∃ pre y, t = pre +:+ p +:+ y ∧ String.length pre = i.
Proof.
  revert i. induction t as [|a t IH]; intros i; cbn [find_str]; destruct (starts_with p _) eqn:Es; try done.
  1, 2: intros [= <-]; apply prefix_spec in Es as [y ->]; by exists "", y.
  intros (j & Hj & ->)%fmap_Some_1. destruct (IH _ Hj) as (pre & y & -> & <-). by exists (String a pre), y.
Qed.

Lemma find_str_first p gap y : ∃ i, find_str p (gap +:+ p +:+ y) = Some i ∧ (i ≤ String.length gap)%nat.
Proof.
  induction gap as [|a gap (i & Hi & Hl)].
  - exists O. split; [|done]. change ("" +:+ p +:+ y) with (p +:+ y). destruct (p +:+ y) eqn:E; cbn [find_str]; rewrite <- E;
      unfold starts_with; by rewrite prefix_app.
  - rewrite string_app_cons. cbn [find_str]. destruct (starts_with p _); [exists O; split; [done|cbn; lia]|].
    rewrite Hi. exists (S i). split; [done|cbn; lia].
Qed.

Lemma app_cut (a b c d : string) : (String.length a ≤ String.length c)%nat → a +:+ b = c +:+ d → ∃ z, b = z +:+ d.
Proof.
  revert c. induction a as [|x a IH]; intros c Hl He; [by exists c|]. destruct c as [|y c]; [cbn in Hl; lia|].
  injection He as _ He. apply (IH c); [cbn in Hl; lia|done].
Qed.

(** Taking the first occurrence loses nothing. *)
Lemma later_step p r rest t : later (p :: r :: rest) t ↔
  ∃ i, find_str p t = Some i ∧ later (r :: rest) (str_from (i + String.length p) t).
Proof.
  split.
  - intros (gap & tail & -> & (y & -> & Hy)%globs_cons). destruct (find_str_first p gap y) as (i & Hi & Hl). exists i. split; [done|].
    destruct (find_str_some _ _ _ Hi) as (pre & y' & E & Hpre). rewrite E, <- string_app_assoc, <- Hpre, <- string_length_app, str_from_app.
    destruct (app_cut (pre +:+ p) y' (gap +:+ p) y) as [z ->]; [rewrite !string_length_app; lia|by rewrite !string_app_assoc|]. by apply later_more.
  - intros (i & (pre & y & -> & <-)%find_str_some & Hl). revert Hl. rewrite <- string_app_assoc, <- string_length_app, str_from_app.
    intros Hl. exists pre, (p +:+ y). split; [by rewrite string_app_assoc|]. apply globs_cons. by exists y.
Qed.

Lemma ends_at part pre t : negb (((String.length (pre +:+ t) <? String.length part) || (String.length (pre +:+ t) - String.length part <? String.length pre))%nat
    || negb (ends_with part (pre +:+ t))) = true ↔ ∃ gap, t = gap +:+ part.
Proof.
  unfold ends_with. rewrite negb_orb, negb_involutive, negb_orb, !andb_true_iff, !negb_true_iff, !Nat.ltb_ge, string_length_app. split.
  - intros [[Hl1 Hl2] Hs]. destruct (strip_suffix part (pre +:+ t)) as [u|] eqn:E; [|done]. apply strip_suffix_spec in E.
    pose proof (f_equal String.length E) as El. rewrite !string_length_app in El.
    destruct (app_cut pre t u part) as [z ->]; [lia|done|]. by exists z.
  - intros [gap ->]. rewrite string_length_app. split; [split; lia|].
    destruct (strip_suffix part (pre +:+ gap +:+ part)) eqn:E; [done|]. exfalso.
    assert (strip_suffix part (pre +:+ gap +:+ part) = Some (pre +:+ gap)) as E'; [apply strip_suffix_spec; by rewrite string_app_assoc|]. congruence.
Qed.

#[local] Abbreviation nonempty := (λ p, negb (is_empty_str p)).

Lemma nonempty_spec p : nonempty p = true ↔ p ≠ "".
Proof. unfold is_empty_str. rewrite negb_true_iff. apply String.eqb_neq. Qed.

(** An empty segment between others asks for nothing. *)
Lemma later_filter mid l t : later (mid ++ [l]) t ↔ later (List.filter nonempty mid ++ [l]) t.
Proof.
  revert t. induction mid as [|m mid IH]; intros t; [done|]. cbn [List.filter app].
  assert (∀ ms, ∃ r rest, ms ++ [l] = r :: rest) as Hs by (intros [|r ms]; by eexists _, _).
  assert (∀ p ms u, later (p :: ms ++ [l]) u ↔ ∃ gap y, u = gap +:+ p +:+ y ∧ later (ms ++ [l]) y) as Hp.
  { intros p ms u. destruct (Hs ms) as (r & rest & ->). split.
    - intros (gap & tail & -> & (y & -> & Hy)%globs_cons). by exists gap, y.
    - intros (gap & y & -> & Hy). exists gap, (p +:+ y). split; [done|]. apply globs_cons. by exists y. }
  rewrite Hp. destruct (nonempty m) eqn:Em.
  - cbn [app]. rewrite Hp. by setoid_rewrite IH.
  - apply negb_false_iff, String.eqb_eq in Em as ->. rewrite <- IH. split.
    + intros (gap & y & -> & Hy). by apply later_more.
    + intros Hl. exists "", t. by split.
Qed.

(** The scan from the second part on, or from the first behind a wildcard. *)
Lemma parts_later name sw is_first mid l pre t : name = pre +:+ t → negb sw && is_first = false → Forall (λ p, nonempty p = true) mid →
  match_parts name sw (is_empty_str l) is_first (mid ++ List.filter nonempty [l]) (String.length pre) = true ↔ later (mid ++ [l]) t.
Proof.
  intros Hn Hf Hmid. revert pre t is_first Hn Hf. induction Hmid as [|p mid Hp _ IH]; intros pre t is_first Hn Hf.
  - cbn [app List.filter]. destruct (is_empty_str l) eqn:El; cbn [negb].
    + apply String.eqb_eq in El as ->. cbn. split; [intros _|done]. exists t, "". by rewrite string_app_nil_r.
    + cbn [match_parts]. unfold match_part. rewrite (andb_comm is_first), Hf. cbn [negb andb].
      assert (later [l] t ↔ ∃ gap, t = gap +:+ l) as ->.
      { split; [|intros [gap ->]; by exists gap, l]. intros (gap & tail & Ht & Hl). change (tail = l) in Hl. subst tail. by exists gap. }
      rewrite <- (ends_at l pre t), <- Hn. destruct (_ || _); split; done.
  - cbn [app match_parts]. unfold match_part. rewrite (andb_comm is_first), Hf.
    assert (match mid ++ List.filter nonempty [l] with [] => true | _ => false end && negb (is_empty_str l) = false) as ->.
    { destruct mid; [|done]. cbn [app List.filter]. by destruct (is_empty_str l). }
    rewrite Hn at 1. rewrite str_from_app.
    assert (∃ r rest, mid ++ [l] = r :: rest) as (r & rest & Er) by (destruct mid; by eexists _, _). rewrite Er, later_step, <- Er.
    destruct (find_str p t) as [i|] eqn:Ei; cbn [fmap option_fmap option_map]; [|split; [done|by intros (i & ? & _)]].
    destruct (find_str_some _ _ _ Ei) as (gap & y & Et & Hg).
    assert (String.length pre + i + String.length p = String.length (pre +:+ gap +:+ p))%nat as -> by (rewrite !string_length_app; lia).
    rewrite (IH _ y); [|by rewrite Hn, Et, !string_app_assoc|by rewrite andb_false_r].
    assert (str_from (i + String.length p) t = y) as Hy by (rewrite Et, <- string_app_assoc, <- Hg, <- string_length_app; apply str_from_app).
    split; [intros Hl; exists i; by rewrite Hy|]. intros (j & [= <-] & Hl). by rewrite Hy in Hl.
Qed.

(** A name pattern is the glob it looks like: after the marker for lower case is taken off, a
    pattern that is not empty matches exactly the whole names that read like it, with [.*] for
    anything; the leftmost search misses none, and no part matches inside a longer word unless a
    wildcard says so. *)
Theorem name_matches_is_glob {LC : Lowercase} pattern name : fst (folded pattern name) ≠ "" →
  name_matches pattern name = true ↔ glob (fst (folded pattern name)) (snd (folded pattern name)).
Proof.
  unfold name_matches. destruct (folded pattern name) as [p n]. cbn [fst snd]. intros Hp. rewrite glob_globs.
  destruct (split_wild_some p) as (s & ps & Es). rewrite Es. destruct ps as [|r ps].
  - assert (s ≠ "") as Hs.
    { intros ->. destruct p as [|c p]; [done|]. destruct (starts_with ".*" (String c p)) eqn:Ew.
      - apply prefix_spec in Ew as [q Eq]. rewrite Eq, split_wild_wild in Es. destruct (split_wild_some q) as (x & xs & Ex). by rewrite Ex in Es.
      - rewrite split_wild_char in Es by done. destruct (split_wild_some p) as (x & xs & Ex). by rewrite Ex in Es. }
    cbn [List.filter length Nat.ltb Nat.leb andb head last]. rewrite (proj2 (nonempty_spec s) Hs). cbn [match_parts]. unfold match_part. cbn [negb andb].
    change (str_from 0 n) with n. destruct (starts_with s n) eqn:Est; cbn [globs].
    + apply prefix_spec in Est as [t ->]. rewrite Nat.add_0_l, string_length_app. destruct t as [|a t].
      * by rewrite string_app_nil_r, Nat.add_0_r, Nat.eqb_refl.
      * split; [|intros E; exfalso; apply (f_equal String.length) in E; rewrite string_length_app in E; cbn in E; lia].
        destruct (Nat.eqb_spec (String.length s) (String.length s + String.length (String a t))); [cbn in *; lia|done].
    + split; [done|]. intros ->. exfalso. unfold starts_with in Est. by rewrite prefix_refl in Est.
  - assert (∃ mid l, r :: ps = mid ++ [l]) as (mid & l & El).
    { destruct (exists_last (l := r :: ps)) as (mid & l & El); [done|]. by exists mid, l. }
    rewrite globs_cons, El. assert (length (s :: mid ++ [l]) = S (S (length mid))) as Hlen by (cbn; rewrite length_app; cbn; lia).
    rewrite Hlen, (last_snoc l (s :: mid) : last (s :: mid ++ [l]) = Some l). cbn [Nat.ltb Nat.leb andb head is_some_and].
    assert (Forall (λ p, nonempty p = true) (List.filter nonempty mid)) as Hmid.
    { apply Forall_forall. by intros x [_ Hx]%elem_of_filterb. }
    setoid_rewrite later_filter. cbn [List.filter]. rewrite List.filter_app. destruct (nonempty s) eqn:Hs.
    + apply negb_true_iff in Hs as ->. cbn [match_parts]. unfold match_part. cbn [negb andb].
      assert (match List.filter nonempty mid ++ List.filter nonempty [l] with [] => true | _ => false end && negb (is_empty_str l) = false) as ->.
      { destruct (List.filter nonempty mid); [|done]. cbn [app List.filter]. by destruct (is_empty_str l). }
      change (str_from 0 n) with n. cbn [andb]. destruct (starts_with s n) eqn:Est.
      * apply prefix_spec in Est as [t Et]. rewrite Nat.add_0_l, (parts_later n _ false _ l s t Et) by (done || by rewrite andb_false_r). split.
        -- intros Ht. by exists t.
        -- intros (t' & E & Ht). rewrite Et in E. by apply (inj (String.app s)) in E as ->.
      * split; [done|]. intros (t & -> & _). unfold starts_with in Est. by rewrite prefix_app in Est.
    + apply negb_false_iff in Hs as Es'. rewrite Es'. apply String.eqb_eq in Es' as ->.
      rewrite (parts_later n _ true _ l "" n eq_refl) by done. split; [intros Ht; by exists n|by intros (t & -> & Ht)].
Qed.

(** ** Evidence *)

(** What may count a node as infrared: its own formats, which are all infrared formats; a quirk that
    names the hardware the kernel reports; or a quirk that names it by its name, where the node has
    a USB identity. *)
Inductive ir_evidence {LC : Lowercase} (db : QuirksDb) (d : DeviceInfo) (ids : option (string * string)) (id : option PlatformIdentity) : Prop :=
  | shown_by_formats : formats d ≠ [] → Forall (λ f, is_ir_typical_fourcc (fourcc f) = true) (formats d) → ir_evidence db d ids id
  | listed_by_usb q i : q ∈ db → force_ir q = Some true → ids = Some i → usb_quirk i q = true → ir_evidence db d ids id
  | listed_by_platform q i : q ∈ db → force_ir q = Some true → id = Some i → platform_quirk i q = true → ir_evidence db d ids id
  | listed_by_name q i : q ∈ db → force_ir q = Some true → ids = Some i → named_quirk d q = true → ir_evidence db d ids id.

Section evidence.
Context {LC : Lowercase}.

Lemma heuristic_evidence db d ids id : heuristic_ir_source d ≠ SourceNone → ir_evidence db d ids id.
Proof.
  unfold heuristic_ir_source, has_queried_ir_evidence, has_mono_only_formats. destruct (formats d) as [|f fs] eqn:Ef; [done|].
  destruct (forallb _ _) eqn:Ea; [|done]. intros _. apply shown_by_formats; rewrite Ef; [done|]. by apply forallb_Forall.
Qed.

Lemma find_last_some (f : Quirk → bool) db q : find_last f db = Some q → q ∈ db ∧ f q = true.
Proof.
  unfold find_last. intros [Hin Hf]%List.find_some. split; [|done]. by apply list_elem_of_In, in_rev.
Qed.

Lemma find_match_some db d ids id q kind : find_match_with_kind db d ids id = Some (q, kind) → q ∈ db ∧
  match kind with
  | UsbId => ∃ i, ids = Some i ∧ usb_quirk i q = true
  | PlatformId => ∃ i, id = Some i ∧ platform_quirk i q = true
  | NameOnly => named_quirk d q = true
  end.
Proof.
  unfold find_match_with_kind. destruct (ids ≫= _) as [q1|] eqn:E1.
  { intros [= <- <-]. apply bind_Some in E1 as (i & -> & [Hin Hf]%find_last_some). split; [done|]. by exists i. }
  destruct (id ≫= _) as [q2|] eqn:E2.
  { intros [= <- <-]. apply bind_Some in E2 as (i & -> & [Hin Hf]%find_last_some). split; [done|]. by exists i. }
  intros (q3 & [Hin Hf]%find_last_some & [= -> ->])%fmap_Some_1. done.
Qed.

Lemma node_evidence db d ids id : ir_source_with_quirks_and_identity d (Some db) ids id ≠ SourceNone → ir_evidence db d ids id.
Proof.
  unfold ir_source_with_quirks_and_identity. cbn [mbind option_bind].
  destruct (find_match_with_kind db d ids id) as [[q kind]|] eqn:Em; [|apply heuristic_evidence].
  apply find_match_some in Em as [Hin Hm]. destruct (force_ir q) as [[]|] eqn:Ef; [|done|apply heuristic_evidence].
  destruct (corroborated kind ids d) eqn:Ec; [|apply heuristic_evidence]. intros _. destruct kind; [destruct Hm as (i & Hi & Hq)..|].
  - by eapply listed_by_usb.
  - by eapply listed_by_platform.
  - cbn in Ec. destruct ids as [i|]; [by eapply listed_by_name|]. apply heuristic_evidence. unfold heuristic_ir_source. cbn in Ec. by rewrite Ec.
Qed.

(** *** The rounds of the classification *)
Context (devices : list DeviceInfo) (quirks : option QuirksDb) (usb_ids : list (option (string * string))).

Lemma demote_lookup pref sources k j :
  demote devices pref sources k !! j =
  match devices !! k with
  | Some d => if bool_decide (k = j) && negb (node_has_ir_format pref d) then (λ _, heuristic_ir_source d) <$> sources !! j else sources !! j
  | None => sources !! j
  end.
Proof using.
  unfold demote. destruct (devices !! k) as [d|]; [|done]. destruct (node_has_ir_format pref d); [by rewrite andb_false_r|]. cbn [negb].
  rewrite andb_true_r. case_bool_decide as Hk; [subst k|by apply list_lookup_insert_ne].
  destruct (sources !! j) as [s|] eqn:Es; [apply lookup_lt_Some in Es; by apply list_lookup_insert_eq|].
  rewrite list_insert_ge; [by rewrite Es|by apply lookup_ge_None].
Qed.

Lemma heuristic_not_quirk d : heuristic_ir_source d ≠ SourceQuirk.
Proof using. unfold heuristic_ir_source. by destruct (has_queried_ir_evidence d). Qed.

(** A node keeps its source or falls back to its formats. *)
Definition kept_or_demoted (sources out : list IrSource) (j : nat) : Prop :=
  out !! j = sources !! j ∨ sources !! j = Some SourceQuirk ∧ ∃ d, devices !! j = Some d ∧ out !! j = Some (heuristic_ir_source d).

Lemma demote_all pref group : ∀ sources j, (∀ k, k ∈ group → sources !! k = Some SourceQuirk ∨ ∃ d, devices !! k = Some d ∧ sources !! k = Some (heuristic_ir_source d)) →
  let out := fold_left (demote devices pref) group sources in
  kept_or_demoted sources out j ∧ (j ∉ group → out !! j = sources !! j) ∧
  (out !! j = Some SourceQuirk → j ∈ group → ∀ d, devices !! j = Some d → node_has_ir_format pref d = true).
Proof using.
  induction group as [|k group IH]; intros sources j Hg; cbn [fold_left].
  { split_and!; [by left|done|by intros _ ?%elem_of_nil]. }
  assert (kept_or_demoted sources (demote devices pref sources k) k) as Hk.
  { unfold kept_or_demoted. rewrite demote_lookup, bool_decide_eq_true_2 by done. cbn [andb]. destruct (devices !! k) as [d|] eqn:Ed; [|by left].
    destruct (negb _); [|by left]. destruct (Hg k) as [Hq|(d' & Ed' & Hh)]; [apply list_elem_of_here| |].
    - right. split; [done|]. exists d. by rewrite Hq.
    - left. rewrite Hh. cbn. congruence. }
  assert (∀ i, i ≠ k → demote devices pref sources k !! i = sources !! i) as Hne.
  { intros i Hi. rewrite demote_lookup, bool_decide_eq_false_2 by done. by destruct (devices !! k). }
  destruct (IH (demote devices pref sources k) j) as (Hj & Hout & Hq).
  { intros i Hi. destruct (decide (i = k)) as [->|Hik]; [|rewrite Hne by done; apply Hg; by apply list_elem_of_further].
    destruct Hk as [->|(_ & d & Hd & ->)]; [apply Hg, list_elem_of_here|right; by exists d]. }
  split_and!.
  - destruct (decide (j = k)) as [->|Hjk].
    + destruct Hk as [E|(Hs & d & Hd & E)]; destruct Hj as [E'|(Hs' & d' & Hd' & E')]; unfold kept_or_demoted; rewrite E'; try (rewrite E in *).
      * by left.
      * right. split; [done|]. by exists d'.
      * right. split; [done|]. by exists d.
      * right. split; [done|]. by exists d'.
    + unfold kept_or_demoted in *. by rewrite Hne in Hj by done.
  - intros [Hjk Hjg]%not_elem_of_cons. by rewrite Hout, Hne.
  - intros Ho Hin d Hd. apply elem_of_cons in Hin as [->|Hin]; [|by apply Hq].
    destruct (decide (k ∈ group)) as [Hkg|Hkg]; [by apply Hq|]. rewrite Hout, demote_lookup, Hd, bool_decide_eq_true_2 in Ho by done.
    cbn [andb] in Ho. destruct (node_has_ir_format pref d) eqn:En; [done|]. cbn [negb] in Ho.
    apply fmap_Some_1 in Ho as (s & _ & Hs). by destruct (heuristic_not_quirk d).
Qed.

(** A format that tells an infrared node: its own, or the preference of a quirk it advertises. *)
Definition tells_infrared (d : DeviceInfo) : Prop :=
  has_native_ir_format d = true ∨
  ∃ db q p f, quirks = Some db ∧ q ∈ db ∧ format_preference q = Some p ∧ is_ir_typical_fourcc p = true ∧
    f ∈ formats d ∧ trim (fourcc f) = trim p.

Lemma has_format_tells d0 ids d : node_has_ir_format (group_preference quirks d0 ids) d = true → tells_infrared d.
Proof using.
  unfold node_has_ir_format. intros [Hn|Hp]%orb_true_iff; [by left|right].
  destruct (group_preference quirks d0 ids) as [p|] eqn:Ep; [|done]. cbn in Hp. apply andb_true_iff in Hp as [Ht (f & Hf & He%String.eqb_eq)%existsb_Exists].
  unfold group_preference in Ep. apply bind_Some in Ep as (db & Hdb & (q & Hq & Hfp)%bind_Some).
  unfold find_match_with_ids in Hq. apply fmap_Some_1 in Hq as ([q' kind] & Hm & ->). apply find_match_some in Hm as [Hin _].
  by exists db, q', p, f.
Qed.

#[local] Abbreviation ids_of := (ids_at usb_ids).

(** Where a node of a camera with these ids was taken for infrared and has an infrared format, the
    nodes that still are have one. *)
Definition told_apart (base sources : list IrSource) (ids : string * string) : Prop :=
  ∀ i j di dj, ids_of i = Some ids → ids_of j = Some ids → devices !! i = Some di → devices !! j = Some dj →
    base !! i = Some SourceQuirk → has_native_ir_format di = true → sources !! j = Some SourceQuirk → tells_infrared dj.

Record rounds_done (base : list IrSource) (m : nat) (st : list IrSource * list (string * string)) : Prop := {
  rd_kept j : kept_or_demoted base (fst st) j;
  rd_unseen ids j : ids ∉ snd st → ids_of j = Some ids → fst st !! j = base !! j;
  rd_told ids : ids ∈ snd st → told_apart base (fst st) ids;
  rd_visited j ids : (j < m)%nat → fst st !! j = Some SourceQuirk → ids_of j = Some ids → ids ∈ snd st }.

Lemma still_quirk sources out j : kept_or_demoted sources out j → out !! j = Some SourceQuirk → sources !! j = Some SourceQuirk.
Proof using. intros [<-|(Hs & _)] Ho; done. Qed.

Lemma kept_trans a b c j : kept_or_demoted a b j → kept_or_demoted b c j → kept_or_demoted a c j.
Proof using.
  intros [E|(Hs & d & Hd & E)] [E'|(Hs' & d' & Hd' & E')].
  - left. congruence.
  - right. split; [congruence|]. by exists d'.
  - right. split; [done|]. exists d. by rewrite E'.
  - right. split; [done|]. by exists d'.
Qed.

Lemma elem_of_group sources ids j : (j < length devices)%nat →
  j ∈ List.filter (λ j, is_quirk sources j && bool_decide (ids_of j = Some ids)) (seq 0 (length devices)) ↔
  sources !! j = Some SourceQuirk ∧ ids_of j = Some ids.
Proof using.
  intros Hj. rewrite elem_of_filterb, andb_true_iff. unfold is_quirk. rewrite !bool_decide_eq_true, elem_of_seq. intuition lia.
Qed.

(** Which node of a camera is looked at first does not matter: the camera is told apart once. *)
Lemma round_tells base sources seen m ids : rounds_done base m (sources, seen) → ids ∉ seen → length base = length devices →
  let group := List.filter (λ j, is_quirk sources j && bool_decide (ids_of j = Some ids)) (seq 0 (length devices)) in
  ∀ pref out, (∀ d, node_has_ir_format pref d = true → tells_infrared d) →
  ((length group < 2)%nat ∨ existsb (at_node devices (node_has_ir_format pref)) group = false) ∧ out = sources ∨ out = fold_left (demote devices pref) group sources →
  (∀ j, kept_or_demoted sources out j) ∧ (∀ j, ids_of j ≠ Some ids → out !! j = sources !! j) ∧ told_apart base out ids.
Proof using.
  intros [_ Hu _ _] Hns Hlen group pref out Htell Hcase. cbn [fst snd] in Hu.
  assert (∀ j dj, devices !! j = Some dj → j ∈ group ↔ sources !! j = Some SourceQuirk ∧ ids_of j = Some ids) as Hin.
  { intros j dj Hj. apply elem_of_group. by eapply lookup_lt_Some. }
  assert (∀ j, j ∈ group → sources !! j = Some SourceQuirk ∧ ids_of j = Some ids) as Hin'.
  { intros j Hj. apply elem_of_filterb in Hj as Hj'. destruct Hj' as [Hs _]. apply elem_of_seq in Hs. apply elem_of_group in Hj; [done|lia]. }
  destruct Hcase as [[Hwhy ->]| ->].
  - split; [by left|]. split; [done|]. intros i j di dj Hi Hj Hdi Hdj Hb Hnat Hq.
    assert (i ∈ group) as Hig by (apply (Hin i di Hdi); by rewrite (Hu ids i Hns Hi)).
    destruct Hwhy as [Hl|Hx].
    + assert (j ∈ group) as Hjg by (by apply (Hin j dj Hdj)). destruct (decide (i = j)) as [->|Hne]; [left; congruence|]. exfalso.
      assert (NoDup group) as Hnd by (apply NoDup_ListNoDup, List.NoDup_filter, NoDup_ListNoDup, NoDup_seq).
      destruct group as [|x [|y l]]; [by apply not_elem_of_nil in Hig| |cbn in Hl; lia].
      apply list_elem_of_singleton in Hig, Hjg. congruence.
    + exfalso. apply not_true_iff_false in Hx. apply Hx, existsb_Exists. exists i. split; [done|]. unfold at_node. rewrite Hdi. cbn.
      unfold node_has_ir_format. by rewrite Hnat.
  - assert (∀ k, k ∈ group → sources !! k = Some SourceQuirk ∨ ∃ d, devices !! k = Some d ∧ sources !! k = Some (heuristic_ir_source d)) as Hg.
    { intros k [Hk _]%Hin'. by left. }
    split; [intros j; by apply demote_all|]. split.
    + intros j Hj. apply (demote_all pref group sources j Hg). intros [_ Hc]%Hin'. done.
    + intros i j di dj Hi Hj Hdi Hdj Hb Hnat Hq. apply Htell. destruct (demote_all pref group sources j Hg) as (Hk & _ & Hd).
      apply Hd; [done| |done]. apply (Hin j dj Hdj). split; [by eapply still_quirk|done].
Qed.

Lemma round_step base m st : length base = length devices → rounds_done base m st →
  rounds_done base (S m) (disambiguate devices quirks usb_ids st m).
Proof using.
  intros Hlen Hr. destruct st as [sources seen]. unfold disambiguate.
  assert (∀ sn, (sources !! m ≠ Some SourceQuirk ∨ ids_of m = None ∨ ∃ ids, ids_of m = Some ids ∧ ids ∈ seen) → sn = (sources, seen) → rounds_done base (S m) sn) as Hsame.
  { intros sn Hm ->. destruct Hr as [H1 H2 H3 H4]. split; [done..|]. intros j ids Hj Hq Hi. destruct (decide (j = m)) as [->|].
    - destruct Hm as [Hm|[Hm|(i & Hm & Hs)]]; [done|congruence|]. cbn. congruence.
    - eapply (H4 j); [lia|done..]. }
  destruct (is_quirk sources m) eqn:Eq; cbn [negb].
  2: { apply Hsame; [left|done]. by apply bool_decide_eq_false in Eq. }
  destruct (ids_of m) as [ids|] eqn:Ei; [|apply Hsame; auto]. case_bool_decide as Hseen; [apply Hsame; [right; right; by exists ids|done]|].
  set (group := List.filter _ _). set (pref := devices !! m ≫= _).
  assert (∀ d, node_has_ir_format pref d = true → tells_infrared d) as Htell.
  { intros d. unfold pref. destruct (devices !! m) as [d0|]; [apply has_format_tells|]. unfold node_has_ir_format. cbn. rewrite orb_false_r. by left. }
  assert (∀ out, ((length group < 2)%nat ∨ existsb (at_node devices (node_has_ir_format pref)) group = false) ∧ out = sources ∨
      out = fold_left (demote devices pref) group sources → rounds_done base (S m) (out, seen ++ [ids])) as Hgo.
  { intros out Hout. destruct (round_tells base sources seen m ids Hr Hseen Hlen pref out Htell Hout) as (Hk & Hother & Htold).
    destruct Hr as [H1 H2 H3 H4]. cbn [fst snd] in *. split; cbn [fst snd].
    - intros j. eapply kept_trans; [apply H1|apply Hk].
    - intros i j [Hi Hne%not_elem_of_cons]%not_elem_of_app Hj. rewrite Hother; [by eapply H2|]. destruct Hne. congruence.
    - intros i [Hi|Hi%list_elem_of_singleton]%elem_of_app; [|by subst i]. intros a b da db Ha Hb Hda Hdb Hba Hn Hq.
      eapply (H3 i Hi a b); try done. by eapply still_quirk.
    - intros j i Hj Hq Hi. apply elem_of_app. destruct (decide (j = m)) as [->|].
      + right. rewrite Ei in Hi. injection Hi as ->. apply list_elem_of_singleton. done.
      + left. eapply (H4 j); [lia| |done]. by eapply still_quirk. }
  destruct (Nat.ltb_spec (length group) 2); [apply Hgo; left; auto|].
  destruct (existsb _ group) eqn:Ex; apply Hgo; auto.
Qed.

Lemma all_rounds base : length base = length devices →
  rounds_done base (length devices) (fold_left (disambiguate devices quirks usb_ids) (seq 0 (length devices)) (base, [])).
Proof using.
  intros Hlen. cut (∀ n, rounds_done base n (fold_left (disambiguate devices quirks usb_ids) (seq 0 n) (base, []))); [done|]. intros n. induction n as [|n IH].
  - split; cbn; [by left|done|by intros ids ?%elem_of_nil|lia].
  - rewrite seq_S, fold_left_app. cbn [fold_left]. by apply round_step.
Qed.
End evidence.

Section infrared.
Context {LC : Lowercase} (parse_quirks : string → result (list Quirk) string) (hw : Hardware) (dr : Driver).

Lemma length_node_sources quirks devices usb_ids platform : length usb_ids = length devices → length platform = length devices →
  length (node_sources quirks devices usb_ids platform) = length devices.
Proof using.
  revert usb_ids platform. induction devices as [|d devices IH]; intros [|i usb_ids] [|p platform]; try done. cbn. intros [= Hi] [= Hp]. f_equal. by apply IH.
Qed.

Lemma node_sources_lookup quirks devices j :
  node_sources quirks devices (map (λ d, read_usb_ids hw (dev_path d)) devices) (map (λ d, read_platform_identity hw (dev_path d)) devices) !! j
  = (λ d, ir_source_with_quirks hw d quirks) <$> devices !! j.
Proof using. revert j. induction devices as [|d devices IH]; intros [|j]; [done..|]. apply IH. Qed.

Lemma classified devices quirks : let usb_ids := map (λ d, read_usb_ids hw (dev_path d)) devices in
  ∃ seen, rounds_done devices quirks usb_ids
    (node_sources quirks devices usb_ids (map (λ d, read_platform_identity hw (dev_path d)) devices)) (length devices)
    (classify_ir_sources hw devices quirks, seen).
Proof using.
  intros usb_ids. unfold classify_ir_sources, classify_ir_sources_with_identity. fold usb_ids.
  pose proof (all_rounds devices quirks usb_ids (node_sources quirks devices usb_ids (map (λ d, read_platform_identity hw (dev_path d)) devices))) as Hr.
  destruct (fold_left _ _ _) as [sources seen]. exists seen. apply Hr. apply length_node_sources; unfold usb_ids; apply length_map.
Qed.

(** A node keeps its own verdict, or falls back to its formats. *)
Lemma classified_source devices quirks j d s : devices !! j = Some d → classify_ir_sources hw devices quirks !! j = Some s →
  s = ir_source_with_quirks hw d quirks ∨ s = heuristic_ir_source d ∧ ir_source_with_quirks hw d quirks = SourceQuirk.
Proof using.
  intros Hd Hs. destruct (classified devices quirks) as [seen [Hk _ _ _]]. specialize (Hk j). cbn [fst] in Hk.
  unfold kept_or_demoted in Hk. rewrite Hs, node_sources_lookup, Hd in Hk. cbn in Hk.
  destruct Hk as [[= ->]|([= Hq] & d' & [= <-] & [= ->])]; [by left|by right].
Qed.

Lemma last_source others d quirks : default SourceNone (last (classify_ir_sources hw (others ++ [d]) quirks)) ≠ SourceNone →
  ir_source_with_quirks hw d quirks ≠ SourceNone.
Proof using.
  destruct (last _) as [s|] eqn:El; [|done]. intros Hs.
  assert ((others ++ [d]) !! length others = Some d) as Hd by (by rewrite lookup_app_r, Nat.sub_diag).
  rewrite last_lookup in El. assert (length (classify_ir_sources hw (others ++ [d]) quirks) = S (length others)) as Hlen.
  { destruct (classified (others ++ [d]) quirks) as [seen [Hk _ _ _]]. cbn [fst] in Hk. apply Nat.le_antisymm.
    - apply Nat.le_ngt. intros Hlt. apply lookup_lt_is_Some in Hlt as [x Hx]. specialize (Hk (S (length others))). unfold kept_or_demoted in Hk.
      rewrite Hx, node_sources_lookup, (lookup_ge_None_2 (others ++ [d])) in Hk by (rewrite length_app; cbn; lia). by destruct Hk as [?|[? _]].
    - apply lookup_lt_is_Some. specialize (Hk (length others)). unfold kept_or_demoted in Hk. rewrite node_sources_lookup, Hd in Hk. cbn in Hk.
      destruct Hk as [->|(_ & d' & _ & ->)]; by eexists. }
  rewrite Hlen in El. cbn [Nat.pred] in El. destruct (classified_source _ _ _ _ _ Hd El) as [->|[-> Hq]]; [done|by rewrite Hq].
Qed.

Lemma resolved_source d quirks : ir_source_resolved hw d quirks ≠ SourceNone → ir_source_with_quirks hw d quirks ≠ SourceNone.
Proof using. apply last_source. Qed.

(** *** Opening *)
Lemma light_up_fields config quirk device format fmt caps :
  let cam := fst (light_up dr config quirk device format fmt caps) in
  cm_caps cam = caps ∧ cm_format cam = format ∧ cm_device cam = device ∧ cm_width cam = fm_width fmt ∧ cm_height cam = fm_height fmt ∧
  cm_stride cam = fm_stride fmt ∧ cm_taken cam = 0%nat ∧ cm_y16_shift cam = (if String.eqb format "Y16" then quirk_y16_shift quirk else Some 0).
Proof using.
  unfold light_up. destruct (if ir_emitter config then _ else _). by destruct (match ir_led config with Some _ => _ | None => _ end).
Qed.

(** An open camera passed the checks of its negotiation. *)
Lemma open_node_ok config quirk caps device cam lights : open_node dr config quirk caps device = (Ok cam, lights) →
  ∃ fmt, let format := trim (fm_fourcc fmt) in
    check_platform_ir_format quirk (is_ir caps) format device = Ok tt ∧ check_stride device format fmt = Ok tt ∧
    (cam, lights) = light_up dr config quirk device format fmt (with_scale (ir_texture_scale_for_format format quirk) caps).
Proof using.
  unfold open_node. destruct (map_err _ (dr_caps dr device)) as [[capture multi]|e]; [|done]. destruct (negb _ && negb _); [done|].
  destruct (map_err _ (dr_formats dr device)) as [codes|e]; [|done]. destruct (_ ≫= _) as [selected|]; [|done].
  destruct (negotiate dr config device selected _) as [fmt|e]; [|done].
  destruct (check_platform_ir_format _ _ _ _) as [[]|e] eqn:Ep; [|done]. destruct (check_stride _ _ _) as [[]|e] eqn:Es; [|done].
  destruct (map_err _ (dr_stream dr device)); [|done].
  destruct (light_up _ _ _ _ _ _ _) as [c l] eqn:El. intros [= <- <-]. exists fmt. split; [done|]. split; [done|]. by rewrite El.
Qed.

Lemma open_resolved_ok config quirk caps cam lights : open_resolved parse_quirks hw dr config quirk caps = (Ok cam, lights) →
  ∃ device, open_node dr config quirk caps device = (Ok cam, lights).
Proof using.
  unfold open_resolved. destruct (match path config with Some _ => _ | None => _ end) as [device|e]; [|done].
  destruct (map_err _ (dr_open dr device)); [|done]. by exists device.
Qed.

Lemma scale_verified format quirk n : ir_texture_scale_for_format format quirk = VerifiedY16 n →
  format = "Y16" ∧ 8 ≤ n ≤ 16 ∧ ∃ q, quirk = Some q ∧ y16_bit_depth q = Some n.
Proof using.
  unfold ir_texture_scale_for_format, y16_shift_from_bit_depth. destruct (String.eqb_spec format "Y16") as [->|]; [|done]. cbn [negb].
  destruct quirk as [q|]; [|done]. cbn [mbind option_bind]. destruct (y16_bit_depth q) as [b|] eqn:Eb; [|done].
  destruct (8 <=? b) eqn:E1; [|done]. destruct (b <=? 16) eqn:E2; [|done]. intros [= <-]. apply Z.leb_le in E1, E2. split_and!; [done..|]. by exists q.
Qed.

Lemma forced_visible d db q : find_match hw db d = Some q → force_ir q = Some false → ir_source_with_quirks hw d (Some db) = SourceNone.
Proof using.
  unfold find_match, ir_source_with_quirks, ir_source_with_quirks_and_identity. cbn [mbind option_bind].
  destruct (find_match_with_kind _ _ _ _) as [[q' kind]|]; [|done]. intros [= ->] ->. done.
Qed.

Lemma scaled_ir scale c : is_ir (with_scale scale c) = is_ir c.
Proof using. done. Qed.

Lemma platform_gate quirk ir format device q : check_platform_ir_format quirk ir format device = Ok tt → ir = true → quirk = Some q →
  is_platform_ir_quirk q = true → is_ir_typical_fourcc format = true.
Proof using.
  intros Hp -> -> Hq. unfold check_platform_ir_format in Hp. rewrite Hq in Hp. cbn [negb] in Hp. by destruct (is_ir_typical_fourcc format).
Qed.

Lemma interrogated_infrared d db : is_ir (caps (interrogate hw d db)) = true → ir_source_with_quirks hw d (Some db) ≠ SourceNone.
Proof using.
  cbn. unfold is_ir_camera_resolved. intros Hi. apply resolved_source. by apply negb_true_iff, bool_decide_eq_false in Hi.
Qed.
End infrared.

(** C6.  An open camera is infrared only on evidence. If what was interrogated is opened and its
    capabilities say infrared, then its own formats are all infrared ones, or a quirk names the
    hardware that the kernel reports, or a quirk names it by name and it has a USB identity; without
    a USB and a platform identity only its formats count, whatever it is called and whatever the
    quirks say; the quirk that applies does not deny it; under a quirk for a platform node the
    negotiated format is an infrared one; and its Y16 scale is verified only where the negotiated
    format is Y16 and the quirk declares a depth that fits. *)
Theorem infrared_has_evidence {LC : Lowercase} parse_quirks hw dr d db config cam lights : let r := interrogate hw d db in
  open_camera_resolved parse_quirks hw dr r config = (Ok cam, lights) →
  (is_ir (cm_caps cam) = true →
     let ids := read_usb_ids hw (dev_path d) in
     let id := read_platform_identity hw (dev_path d) in
     ir_evidence db d ids id ∧
     (ids = None → id = None → formats d ≠ [] ∧ Forall (λ f, is_ir_typical_fourcc (fourcc f) = true) (formats d)) ∧
     ∀ q, quirk r = Some q → force_ir q ≠ Some false ∧ (is_platform_ir_quirk q = true → is_ir_typical_fourcc (cm_format cam) = true)) ∧
  ∀ n, ir_texture_scale (cm_caps cam) = VerifiedY16 n → cm_format cam = "Y16" ∧ 8 ≤ n ≤ 16 ∧ ∃ q, quirk r = Some q ∧ y16_bit_depth q = Some n.
Proof.
  intros r (device & (fmt & Hp & _ & Hl)%open_node_ok)%open_resolved_ok.
  destruct (light_up_fields dr (at_path (dev_path (info r)) config) (quirk r) device (trim (fm_fourcc fmt)) fmt
    (with_scale (ir_texture_scale_for_format (trim (fm_fourcc fmt)) (quirk r)) (caps r))) as (Hc & Hf & _).
  rewrite <- Hl in Hc, Hf. cbn [fst] in Hc, Hf. rewrite Hc, Hf. split; [|intros n; apply scale_verified].
  intros Hir. rewrite scaled_ir in Hir. pose proof (interrogated_infrared hw d db Hir) as Hs. pose proof (node_evidence _ _ _ _ Hs) as He.
  cbn zeta. split; [done|]. split; [|intros q Hq; split].
  - intros Hids Hid. destruct He; [done|congruence..].
  - intros Hforce. apply Hs. by apply (forced_visible hw d db q).
  - intros Hpl. by apply (platform_gate (quirk r) (is_ir (caps r)) (trim (fm_fourcc fmt)) device q).
Qed.

(** The nodes of one camera are told apart. Where two nodes share a USB identity, one of them
    was taken for infrared by a quirk and has an infrared format, and the other still counts as
    infrared by that quirk after the classification, the other has an infrared format of its own or
    advertises the infrared format a quirk prefers: the colour node beside an infrared node does not
    pass for it, in whatever order the nodes are looked at. *)
Theorem siblings_are_told_apart {LC : Lowercase} hw devices db i j di dj ids :
  devices !! i = Some di → devices !! j = Some dj →
  read_usb_ids hw (dev_path di) = Some ids → read_usb_ids hw (dev_path dj) = Some ids →
  ir_source_with_quirks hw di (Some db) = SourceQuirk → has_native_ir_format di = true →
  classify_ir_sources hw devices (Some db) !! j = Some SourceQuirk → tells_infrared (Some db) dj.
Proof.
  intros Hi Hj Hidi Hidj Hq Hn Hc. destruct (classified hw devices (Some db)) as [seen [_ _ Htold Hv]]. cbn [fst snd] in Htold, Hv.
  assert (∀ k d, devices !! k = Some d → ids_at (map (λ d, read_usb_ids hw (dev_path d)) devices) k = read_usb_ids hw (dev_path d)) as Hids.
  { intros k d Hk. unfold ids_at. by rewrite list_lookup_fmap, Hk. }
  eapply (Htold ids) with (i := i) (j := j); try done; [|by rewrite (Hids i di)|by rewrite (Hids j dj)|].
  - eapply (Hv j); [by eapply lookup_lt_Some|done|by rewrite (Hids j dj)].
  - by rewrite node_sources_lookup, Hi; cbn; rewrite Hq.
Qed.

(** ** An example: a camera with a colour node and an infrared node *)
#[local] Instance ascii_only : Lowercase := ascii_lowercase.

Definition format_info (code : string) : FormatInfo := {| fourcc := code; description := ""; sizes := [(640, 360)] |}.

Definition camera_node (p : string) (codes : list string) : DeviceInfo :=
  {| dev_path := p; dev_name := "Integrated Camera"; driver := "uvcvideo"; capabilities := ["Video Capture"]; formats := map format_info codes |}.

Definition colour_node : DeviceInfo := camera_node "/dev/video0" ["YUYV"; "MJPG"].
Definition infrared_node : DeviceInfo := camera_node "/dev/video2" ["GREY"].

(** Both nodes are of one USB device. *)
Definition usb_camera : Hardware :=
  {| hw_exists := λ p, String.eqb p "/dev/video0" || String.eqb p "/dev/video2";
     hw_query := λ p, if String.eqb p "/dev/video0" then Ok colour_node else if String.eqb p "/dev/video2" then Ok infrared_node else Err "no device";
     hw_read := λ p, if ends_with "/device/../idVendor" p then Some "04F2" else if ends_with "/device/../idProduct" p then Some "b6d0" else None;
     hw_canonical := λ p, None;
     hw_list := λ p, None |}.

Definition infrared_quirk : Quirk :=
  {| vendor_id := Some "04f2"; product_id := Some "b6d0"; name_pattern := None; modalias := None; node_name := None;
     force_ir := Some true; emitter_xu_guid := Some "04-unit"; emitter_xu_selector := Some 6; quirk_warmup_frames := None; format_preference := None;
     y16_bit_depth := None; quirk_rotation := None; notes := None |}.

Definition grey_driver : Driver :=
  {| dr_open := λ _, Ok tt; dr_caps := λ _, Ok (true, false); dr_formats := λ _, Ok ["GREY"];
     dr_get_format := λ _, Ok {| fm_width := 2; fm_height := 2; fm_fourcc := "GREY"; fm_stride := 4 |};
     dr_set_format := λ _ _ _ _, Ok {| fm_width := 2; fm_height := 2; fm_fourcc := "GREY"; fm_stride := 4 |};
     dr_stream := λ _, Ok tt; dr_exists := λ _, true; dr_led := λ _, Some "255"; dr_led_write := λ _ _, Ok tt; dr_emitter := λ _ _ _, Ok tt |}.

Definition lit_config : DeviceConfig :=
  {| path := Some "/dev/video2"; max_height := 480; rotation := 0; warmup_frames := 2; dark_threshold := dark_threshold device_default;
     dark_pixel_value := 10; ir_emitter := true; ir_led := Some "/sys/class/leds/infrared"; keep_format := false; camera_release_secs := 3;
     camera_release_after_success_secs := 0 |}.

Theorem name_matches_is_glob_witness : fst (folded "Logi.*Brio" "Logitech Brio") ≠ "" ∧ glob "Logi.*Brio" "Logitech Brio".
Proof.
  assert (fst (folded "Logi.*Brio" "Logitech Brio") ≠ "") as H1 by done. split; [done|].
  apply (name_matches_is_glob "Logi.*Brio" "Logitech Brio" H1). vm_compute. reflexivity.
Defined.

Theorem infrared_has_evidence_witness : ∃ cam lights,
  open_camera_resolved (λ _, Ok []) usb_camera grey_driver (interrogate usb_camera infrared_node [infrared_quirk]) lit_config = (Ok cam, lights) ∧
  is_ir (cm_caps cam) = true ∧ ir_evidence [infrared_quirk] infrared_node (Some ("04f2", "b6d0")) None.
Proof.
  destruct (open_camera_resolved (λ _, Ok []) usb_camera grey_driver (interrogate usb_camera infrared_node [infrared_quirk]) lit_config) as [[cam|e] lights] eqn:E;
    [|vm_compute in E; discriminate E].
  exists cam, lights. split; [reflexivity|]. assert (is_ir (cm_caps cam) = true) as Hi.
  { vm_compute in E. injection E as <- _. reflexivity. }
  split; [exact Hi|]. exact (proj1 (proj1 (infrared_has_evidence _ _ _ _ _ _ _ _ E) Hi)).
Defined.

(** The quirk makes both nodes infrared; the colour node is told apart. *)
Theorem siblings_are_told_apart_witness :
  map (λ d, ir_source_with_quirks usb_camera d (Some [infrared_quirk])) [colour_node; infrared_node] = [SourceQuirk; SourceQuirk] ∧
  classify_ir_sources usb_camera [colour_node; infrared_node] (Some [infrared_quirk]) = [SourceNone; SourceQuirk] ∧
  tells_infrared (Some [infrared_quirk]) infrared_node.
Proof.
  split; [vm_compute; reflexivity|]. split; [vm_compute; reflexivity|].
  apply (siblings_are_told_apart usb_camera [colour_node; infrared_node] [infrared_quirk] 1 1 infrared_node infrared_node ("04f2", "b6d0"));
    vm_compute; reflexivity.
Defined.
