(* ===== verification/CaptureProofs.v ===== *)
(** * CaptureProofs: what a frame decodes to, and that the light goes out

    The size and range of a decoded frame, which the rest of the program indexes by; the scale of a
    Y16 stream, chosen once; the infrared light, switched off again by the drop of the camera. *)

From stdpp Require Import relations.
From S2P Require Import Prelude Text Float32 Types DeviceBinding Config Gates Sealing Quirks Capture CameraProofs.

(** ** Pixels *)
Lemma clamp_u8_byte x : is_byte (clamp_u8 x).
Proof. unfold clamp_u8, is_byte. lia. Qed.

Lemma px_bytes y chroma : length (yuv_to_rgb_px y chroma) = 3%nat ∧ Forall is_byte (yuv_to_rgb_px y chroma).
Proof. destruct chroma as [[cr cg] cb]. split; [done|]. repeat constructor; apply clamp_u8_byte. Qed.

(** The sums of the conversion fit in an [i32]. *)
Lemma yuv_fits y u v : is_byte y → is_byte u → is_byte v →
  let '(cr, cg, cb) := chroma_q10 u v in
  Forall (λ s, - 2 ^ 31 <= s < 2 ^ 31) [Z.shiftl y 10 + cr; Z.shiftl y 10 + cg; Z.shiftl y 10 + cb].
Proof. unfold is_byte, chroma_q10, C_RV, C_GU, C_GV, C_BU. intros. rewrite Z.shiftl_mul_pow2 by lia. repeat constructor; lia. Qed.

Lemma yuyv_size : ∀ data, length (yuyv_to_rgb data) = (6 * (length data / 4))%nat.
Proof.
  fix IH 1. intros [|y0 [|u [|y1 [|v rest]]]]; [done..|]. cbn [yuyv_to_rgb].
  rewrite !length_app, IH, !(proj1 (px_bytes _ _)). cbn [length].
  replace (S (S (S (S (length rest))))) with (1 * 4 + length rest)%nat by lia. rewrite Nat.div_add_l by lia. lia.
Qed.

Lemma yuyv_bytes : ∀ data, Forall is_byte (yuyv_to_rgb data).
Proof. fix IH 1. intros [|y0 [|u [|y1 [|v rest]]]]; [constructor..|]. cbn [yuyv_to_rgb]. rewrite !Forall_app. split_and!; [apply px_bytes..|apply IH]. Qed.

Lemma samples_size : ∀ data, length (samples data) = (length data / 2)%nat.
Proof.
  fix IH 1. intros [|lo [|hi rest]]; [done..|]. cbn [samples length]. rewrite IH.
  replace (S (S (length rest))) with (1 * 2 + length rest)%nat by lia. rewrite Nat.div_add_l by lia. lia.
Qed.

Lemma samples_range : ∀ data, Forall is_byte data → Forall (λ s, 0 <= s < 65536) (samples data).
Proof.
  fix IH 1. intros [|lo [|hi rest]]; [constructor..|]. intros [Hlo [Hhi Hr]%Forall_cons_1]%Forall_cons_1. cbn [samples].
  constructor; [unfold is_byte in *; lia|by apply IH].
Qed.

Lemma y16_bytes data shift : Forall is_byte data → Forall is_byte (y16_to_gray data shift).
Proof.
  intros Hd. unfold y16_to_gray. apply Forall_map. eapply Forall_impl; [by apply samples_range|]. intros s [Hs _]. cbn.
  apply (Z.shiftr_nonneg s shift) in Hs. unfold is_byte. lia.
Qed.

Lemma gray_size g : length (concat (map gray_px g)) = (3 * length g)%nat.
Proof. induction g as [|p g IH]; [done|]. cbn [map concat]. rewrite length_app, IH. cbn. lia. Qed.

Lemma gray_bytes g : Forall is_byte g → Forall is_byte (concat (map gray_px g)).
Proof. induction 1 as [|p g Hp Hg IH]; [constructor|]. cbn [map concat]. apply Forall_app. split; [by unfold gray_px; auto|done]. Qed.

(** A gray image is its own shade. *)
Lemma shade_of_gray g : Forall is_byte g → rgb_to_gray (concat (map gray_px g)) = g.
Proof.
  induction 1 as [|p g Hp Hg IH]; [done|]. cbn [map concat gray_px app rgb_to_gray]. rewrite IH. f_equal.
  replace (77 * p + 150 * p + 29 * p) with (p * 2 ^ 8) by lia. rewrite Z.shiftr_div_pow2, Z.div_mul by lia. unfold is_byte in Hp. apply Z.mod_small. lia.
Qed.

Lemma shade_size : ∀ data, length (rgb_to_gray data) = (length data / 3)%nat.
Proof.
  fix IH 1. intros [|r [|g [|b rest]]]; [done..|]. cbn [rgb_to_gray length]. rewrite IH.
  replace (S (S (S (length rest)))) with (1 * 3 + length rest)%nat by lia. rewrite Nat.div_add_l by lia. lia.
Qed.

Lemma shade_bytes : ∀ data, Forall is_byte (rgb_to_gray data).
Proof.
  fix IH 1. intros [|r [|g [|b rest]]]; [constructor..|]. cbn [rgb_to_gray]. constructor; [|apply IH]. unfold is_byte.
  pose proof (Z.mod_pos_bound (Z.shiftr (77 * r + 150 * g + 29 * b) 8) 256). lia.
Qed.

(** *** Rows *)

(** The first [w] bytes of each of [h] rows. *)
Fixpoint cropped (w stride h : nat) (buf : list Z) : list Z :=
  match h with O => [] | S h => take w buf ++ cropped w stride h (drop stride buf) end.

Lemma cropped_size w stride h buf : (w <= stride)%nat → (h = 0 ∨ stride * (h - 1) + w <= length buf)%nat →
  length (cropped w stride h buf) = (w * h)%nat.
Proof.
  intros Hw. revert buf. induction h as [|h IH]; intros buf Hb; cbn [cropped length]; [lia|]. rewrite length_app, length_take, IH; [|rewrite length_drop; nia].
  nia.
Qed.

Lemma cropped_at w stride h buf x y : (w <= stride)%nat → (stride * (h - 1) + w <= length buf)%nat → (x < w)%nat → (y < h)%nat →
  cropped w stride h buf !! (y * w + x)%nat = buf !! (y * stride + x)%nat.
Proof.
  intros Hw. revert buf y. induction h as [|h IH]; intros buf y Hb Hx Hy; [lia|]. cbn [cropped].
  assert (length (take w buf) = w) as Hl by (rewrite length_take; nia). destruct y as [|y].
  - rewrite lookup_app_l by lia. by rewrite lookup_take_lt by lia.
  - rewrite lookup_app_r by lia. replace (S y * w + x - length (take w buf))%nat with (y * w + x)%nat by lia.
    rewrite IH; [|rewrite length_drop; nia|lia..]. rewrite lookup_drop. f_equal. lia.
Qed.

Lemma cropped_bytes w stride h buf : Forall is_byte buf → Forall is_byte (cropped w stride h buf).
Proof. revert buf. induction h as [|h IH]; intros buf Hb; cbn [cropped]; [constructor|]. apply Forall_app. split; [by apply Forall_take|by apply IH, Forall_drop]. Qed.

Lemma cropped_none stride h buf : cropped 0 stride h buf = [].
Proof. revert buf. induction h as [|h IH]; intros buf; cbn [cropped]; [done|by rewrite IH]. Qed.

Lemma cropped_nil w stride h : cropped w stride h [] = [].
Proof. induction h as [|h IH]; cbn [cropped]; [done|]. by rewrite drop_nil, IH, take_nil. Qed.

Lemma rows_cropped e w stride h buf out :
  foldr (λ row acc, if (length row <? w)%nat then Err e else let? rest := acc in Ok (concat (map gray_px (take w row)) ++ rest))
    (Ok (E := string) []) (take_rows stride h buf) = Ok out → (w <= stride)%nat → out = concat (map gray_px (cropped w stride h buf)).
Proof.
  intros Ho Hw. revert buf out Ho. induction h as [|h IH]; intros buf out; [by intros [= <-]|].
  destruct buf as [|b buf]; [by intros [= <-]; rewrite cropped_nil|]. cbn [take_rows foldr cropped]. destruct (_ <? _)%nat; [done|].
  destruct (foldr _ _ _) as [rest|] eqn:Er; [|done]. intros [= <-]. rewrite take_take, Nat.min_l by lia.
  by rewrite (IH _ _ Er), map_app, concat_app.
Qed.

Lemma needed_fits w h stride n : grey_needed w h stride = Some n → (h = 0%nat ∨ Z.of_nat (stride * (h - 1) + w) = n).
Proof.
  destruct h as [|h]; [by left|]. cbn [grey_needed]. cbv zeta. intros Hn. right. destruct (_ <? _); [|done]. destruct (_ <? _); [|done].
  injection Hn as <-. lia.
Qed.

(** A GREY frame that is taken is its own rows without their padding. *)
Lemma grey_rows buf w h stride out : grey_to_rgb buf w h stride = Ok out →
  (w <= stride)%nat ∧ (h = 0%nat ∨ stride * (h - 1) + w <= length buf)%nat ∧ out = concat (map gray_px (cropped w stride h buf)).
Proof.
  unfold grey_to_rgb. cbv zeta. destruct (Nat.ltb_spec stride w) as [|Hs]; [done|]. cbn [orb].
  destruct (grey_needed w h stride) as [n|] eqn:En; [|done]. cbn [is_some_and]. destruct (Z.leb_spec n (Z.of_nat (length buf))); [|done]. cbn [negb].
  apply needed_fits in En. intros Ho. split; [done|]. split; [destruct En; [by left|right; lia]|].
  apply rows_cropped in Ho; [|lia]. rewrite Ho. destruct stride as [|stride]; [|by rewrite Nat.max_l by lia]. replace w with 0%nat by lia. by rewrite !cropped_none.
Qed.

(** *** NV12 *)
Lemma mapM_rows {A} (f : nat → option (list A)) k n l : (∀ i, (i < n)%nat → ∃ r, f i = Some r ∧ length r = k) →
  (∀ i r, (i < n)%nat → f i = Some r → Forall l r) → ∃ rows, mapM f (seq 0 n) = Some rows ∧ length (concat rows) = (k * n)%nat ∧ Forall l (concat rows).
Proof.
  enough (∀ a, (∀ i, (a <= i < a + n)%nat → ∃ r, f i = Some r ∧ length r = k) → (∀ i r, (a <= i < a + n)%nat → f i = Some r → Forall l r) →
    ∃ rows, mapM f (seq a n) = Some rows ∧ length (concat rows) = (k * n)%nat ∧ Forall l (concat rows)) as Hall.
  { intros H1 H2. apply Hall; [intros i Hi; apply H1; lia|intros i r Hi; apply H2; lia]. }
  induction n as [|n IH]; intros a H1 H2; [exists []; split_and!; [done|cbn; lia|constructor]|].
  destruct (IH (S a)) as (rows & Hr & Hl & Hf); [intros; apply H1; lia|intros; eapply H2; [|done]; lia|].
  destruct (H1 a ltac:(lia)) as (r & Er & El). exists (r :: rows). cbn [seq mapM mbind option_bind]. rewrite Er. cbn. rewrite Hr. cbn.
  rewrite length_app. split_and!; [done|lia|apply Forall_app; split; [eapply (H2 a); [lia|done]|done]].
Qed.

Definition nv12_pixel (data : list Z) (w h row col : nat) : option (list Z) :=
  let uv_row := drop (row / 2 * (2 * div_ceil w 2)) (drop (w * h) data) in
  u ← uv_row !! (col / 2 * 2)%nat;
  v ← uv_row !! (col / 2 * 2 + 1)%nat;
  y ← data !! (row * w + col)%nat;
  Some (yuv_to_rgb_px y (chroma_q10 u v)).

Lemma ceil_half (a b : nat) : (a < b)%nat → (a / 2 * 2 + 1 < 2 * div_ceil b 2)%nat ∧ (a / 2 + 1 <= div_ceil b 2)%nat.
Proof.
  unfold div_ceil. pose proof (Nat.div_mod_eq a 2). pose proof (Nat.mod_upper_bound a 2).
  pose proof (Nat.div_mod_eq (b + (2 - 1)) 2). pose proof (Nat.mod_upper_bound (b + (2 - 1)) 2). lia.
Qed.

Lemma nv12_pixel_ok data w h row col : (w * h + 2 * div_ceil w 2 * div_ceil h 2 <= length data)%nat → (row < h)%nat → (col < w)%nat →
  ∃ px, nv12_pixel data w h row col = Some px ∧ length px = 3%nat ∧ Forall is_byte px.
Proof.
  intros Hd Hrow Hcol. unfold nv12_pixel. cbv zeta. rewrite !lookup_drop. destruct (ceil_half _ _ Hcol) as [Hc _], (ceil_half _ _ Hrow) as [_ Hr].
  set (c := (col / 2)%nat) in *. set (r := (row / 2)%nat) in *. set (s := div_ceil w 2) in *. set (t := div_ceil h 2) in *.
  destruct (lookup_lt_is_Some_2 data (w * h + (r * (2 * s) + c * 2))) as [u ->]; [nia|].
  destruct (lookup_lt_is_Some_2 data (w * h + (r * (2 * s) + (c * 2 + 1)))) as [v ->]; [nia|].
  destruct (lookup_lt_is_Some_2 data (row * w + col)) as [y ->]; [nia|]. cbn [mbind option_bind]. eexists. split; [done|]. apply px_bytes.
Qed.

(** An NV12 buffer that is long enough is never indexed outside. *)
Lemma nv12_never_panics data w h : ∃ r, nv12_to_rgb data w h = Some r ∧ ∀ out, r = Some out → length out = (3 * (w * h))%nat ∧ Forall is_byte out.
Proof.
  unfold nv12_to_rgb. destruct (Nat.ltb_spec (length data) (w * h + 2 * div_ceil w 2 * div_ceil h 2)) as [|Hd]; [by eexists; split|].
  fold (nv12_pixel data w h).
  assert (∀ row, (row < h)%nat → ∃ rs, mapM (nv12_pixel data w h row) (seq 0 w) = Some rs ∧ length (concat rs) = (3 * w)%nat ∧ Forall is_byte (concat rs)) as Hrow.
  { intros row Hrow. apply mapM_rows; [intros col Hcol; destruct (nv12_pixel_ok data w h row col Hd Hrow Hcol) as (px & -> & ? & ?); by eexists|].
    intros col px Hcol E. destruct (nv12_pixel_ok data w h row col Hd Hrow Hcol) as (px' & E' & _ & Hb). rewrite E in E'. by injection E' as ->. }
  destruct (mapM_rows (λ row, pixels ← mapM (nv12_pixel data w h row) (seq 0 w); Some (concat pixels)) (3 * w) h is_byte) as (rows & Em & Hl & Hf).
  - intros row Hr. destruct (Hrow row Hr) as (rs & -> & ? & ?). by eexists.
  - intros row px Hr. destruct (Hrow row Hr) as (rs & -> & _ & Hb). cbn. by intros [= <-].
  - unfold nv12_pixel in Em. cbv zeta in Em |- *. rewrite Em. cbn. eexists. split; [done|]. intros out [= <-]. split; [lia|done].
Qed.

(** ** A captured frame *)
Section frames.
Context (im : Imaging) (frames : nat → result (list Z) string) (elapsed : nat → Z).

(** How many pixels a buffer of [len] bytes gives. *)
Definition pixels_of (format : string) (w h len : nat) : nat :=
  if String.eqb format "Y16" then len / 2 else if String.eqb format "YUYV" then 2 * (len / 4) else w * h.

Lemma decode_total c buf : is_Some (decode_frame im c buf).
Proof using.
  unfold decode_frame. repeat (destruct (String.eqb _ _); [done||idtac|]); try done; [by destruct (cm_y16_shift c)|].
  destruct (nv12_never_panics buf (Z.to_nat (cm_width c)) (Z.to_nat (cm_height c))) as (r & -> & _). done.
Qed.

Lemma capture_total c : is_Some (capture im frames elapsed c).
Proof using.
  unfold capture, capture_rgb. destruct (pin_scale frames elapsed c) as [[[]|e] c']; [|done].
  destruct (frames (cm_taken c')) as [buf|e]; [|done]. destruct (decode_total (with_taken (S (cm_taken c')) c') buf) as [[rgb|e] ->]; done.
Qed.

Lemma decoded c buf rgb : Forall is_byte buf → cm_format c ≠ "MJPG" → decode_frame im c buf = Some (Ok rgb) →
  let w := Z.to_nat (cm_width c) in
  let h := Z.to_nat (cm_height c) in
  length rgb = (3 * pixels_of (cm_format c) w h (length buf))%nat ∧ Forall is_byte rgb ∧
  (cm_format c = "GREY" → ∃ stride, stride = Z.to_nat (cm_stride c) ∧ (w <= stride)%nat ∧ (h = 0%nat ∨ stride * (h - 1) + w <= length buf)%nat ∧
     rgb = concat (map gray_px (cropped w stride h buf))) ∧
  (cm_format c = "Y16" → ∃ shift, cm_y16_shift c = Some shift ∧ rgb = concat (map gray_px (y16_to_gray buf shift))).
Proof using.
  intros Hb Hm. unfold decode_frame, pixels_of. cbv zeta.
  destruct (String.eqb_spec (cm_format c) "GREY") as [Ef|Hg].
  { rewrite Ef. cbn [String.eqb]. intros [= Hr]. apply grey_rows in Hr as (Hw & Hh & ->). rewrite gray_size, cropped_size by done.
    split_and!; [done|by apply gray_bytes, cropped_bytes|intros _; by eexists|done]. }
  destruct (String.eqb_spec (cm_format c) "Y16") as [Ef|Hy].
  { destruct (cm_y16_shift c) as [s|]; [|done]. intros [= <-]. rewrite gray_size. unfold y16_to_gray at 1. rewrite length_map, samples_size.
    split_and!; [done|by apply gray_bytes, y16_bytes|done|intros _; by eexists]. }
  destruct (String.eqb_spec (cm_format c) "YUYV") as [Ef|Hu].
  { intros [= <-]. rewrite yuyv_size. split_and!; [lia|apply yuyv_bytes|done..]. }
  destruct (String.eqb_spec (cm_format c) "NV12") as [Ef|Hn].
  { destruct (nv12_never_panics buf (Z.to_nat (cm_width c)) (Z.to_nat (cm_height c))) as ([out|] & -> & Ho); [|done]. cbn. intros [= <-].
    destruct (Ho out eq_refl). by split_and!. }
  by destruct (String.eqb_spec (cm_format c) "MJPG").
Qed.

(** What a capture leaves: more frames taken, and the scale where it was pending. *)
Definition moved (c c' : Camera) : Prop :=
  ∃ n, c' = with_taken n c ∨ cm_format c = "Y16" ∧ cm_y16_shift c = None ∧ ∃ s, c' = with_taken n (with_shift s c).

Lemma with_taken_same c : with_taken (cm_taken c) c = c.
Proof using. by destruct c. Qed.

Lemma pin_moves c r c' : pin_scale frames elapsed c = (r, c') → moved c c'.
Proof using.
  unfold pin_scale. destruct (_ && _) eqn:Eb; [|intros [= <- <-]; exists (cm_taken c); left; by rewrite with_taken_same].
  apply andb_true_iff in Eb as [Hf%String.eqb_eq Hs%negb_true_iff]. assert (cm_y16_shift c = None) as Hn by (by destruct (cm_y16_shift c)).
  destruct (calibrate_y16_shift _ _ _ _ _) as [[[s got]|e] taken]; [|intros [= <- <-]; by exists taken; left].
  destruct (discard _ _ _) as [r' taken']. intros [= <- <-]. exists taken'. right. split_and!; [done..|]. by exists s.
Qed.

Lemma moved_on c c' : moved c c' → moved c (with_taken (S (cm_taken c')) c').
Proof using. intros (n & [->|(Hf & Hs & s & ->)]); [by exists (S n); left|]. exists (S n). right. split_and!; [done..|]. by exists s. Qed.

Lemma moved_fields c c' : moved c c' → cm_format c' = cm_format c ∧ cm_width c' = cm_width c ∧ cm_height c' = cm_height c ∧
  cm_stride c' = cm_stride c ∧ cm_rotation c' = cm_rotation c ∧ (∀ s, cm_y16_shift c = Some s → cm_y16_shift c' = Some s).
Proof using. intros (n & [->|(Hf & Hs & s & ->)]); [by split_and!|]. split_and!; [done..|]. intros s'. by rewrite Hs. Qed.

(** A capture by its stages. *)
Lemma capture_stages c r c' : capture im frames elapsed c = Some (r, c') →
  ∃ pinned c1, pin_scale frames elapsed c = (pinned, c1) ∧
    match pinned with
    | Err _ => c' = c1 ∧ ∃ e, r = Err e
    | Ok _ => c' = with_taken (S (cm_taken c1)) c1 ∧
        ∀ f, r = Ok f → ∃ buf rgb', frames (cm_taken c1) = Ok buf ∧ decode_frame im c' buf = Some (Ok rgb') ∧
          (cm_rotation c' = 0 → f = {| rgb := rgb'; gray := rgb_to_gray rgb'; width := cm_width c'; height := cm_height c' |})
    end.
Proof using.
  intros Hc. unfold capture, capture_rgb in Hc. destruct (pin_scale frames elapsed c) as [pinned c1]. exists pinned, c1. split; [done|].
  destruct pinned as [[]|e]; [|cbn in Hc; injection Hc as <- <-; split; [done|by eexists]].
  destruct (frames (cm_taken c1)) as [buf|e]; [|cbn in Hc; injection Hc as <- <-; split; [done|by intros]].
  destruct (decode_frame im (with_taken (S (cm_taken c1)) c1) buf) as [[rgb'|e]|] eqn:Ed; [..|done]; cbn in Hc; injection Hc as Hr <-; (split; [done|]); intros f ->; [|done].
  exists buf, rgb'. split_and!; [done..|]. cbn [cm_rotation with_taken]. intros Hrot. revert Hr. unfold downscaled, rotated. cbn [cm_height with_taken cm_rotation cm_width].
  rewrite Z.ltb_irrefl, Hrot. cbn. by intros [= <-].
Qed.

Lemma capture_moves c r c' : capture im frames elapsed c = Some (r, c') → moved c c'.
Proof using.
  intros (pinned & c1 & Hp%pin_moves & Hc)%capture_stages. destruct pinned; [|by destruct Hc as [-> _]]. destruct Hc as [-> _]. by apply moved_on.
Qed.

(** *** The scale of a Y16 stream *)
Lemma peak_bound buf x : x ∈ samples buf → x <= y16_peak buf.
Proof using. unfold y16_peak. induction 1 as [x l|x y l _ IH]; cbn [foldr]; lia. Qed.

Lemma peak_reached buf : y16_peak buf = 0 ∨ y16_peak buf ∈ samples buf.
Proof using.
  unfold y16_peak. induction (samples buf) as [|y l [IH|IH]]; cbn [foldr]; [by left|..].
  - rewrite IH. destruct (Z.max_spec y 0) as [[_ ->]|[_ ->]]; [by left|right; constructor].
  - right. destruct (Z.max_spec y (foldr Z.max 0 l)) as [[_ ->]|[_ ->]]; [by constructor|constructor].
Qed.

(** The burst looks at every frame that it takes. *)
Lemma burst_spec togo taken got peak p g t : calibration_burst frames elapsed togo taken got peak = (Ok (p, g), t) → 0 <= peak →
  ∃ n, g = (got + n)%nat ∧ t = (taken + n)%nat ∧ (n <= togo)%nat ∧ peak <= p ∧
    (∀ i, (i < n)%nat → ∃ buf, frames (taken + i) = Ok buf ∧ y16_peak buf <= p) ∧
    (p = peak ∨ ∃ i buf, (i < n)%nat ∧ frames (taken + i) = Ok buf ∧ y16_peak buf = p).
Proof using.
  revert taken got peak. induction togo as [|togo IH]; intros taken got peak; cbn [calibration_burst].
  { intros [= <- <- <-] Hp. exists 0%nat. split_and!; [lia..|by left]. }
  destruct (elapsed got <? _); [|intros [= <- <- <-] Hp; exists 0%nat; split_and!; [lia..|by left]].
  destruct (frames taken) as [buf|e] eqn:Ef; [|done]. intros Hb Hp. apply IH in Hb as (n & -> & -> & Hn & Hm & Hall & Hmax); [|lia].
  exists (S n). split_and!; [lia..| |].
  - intros [|i] Hi; [exists buf; rewrite Nat.add_0_r; split; [done|lia]|]. destruct (Hall i ltac:(lia)) as (b & Hb & Hle).
    exists b. by rewrite Nat.add_succ_r.
  - destruct Hmax as [->|(i & b & Hi & Hb & <-)]; [|right; exists (S i), b; rewrite Nat.add_succ_r; split_and!; [lia|done..]].
    destruct (Z.max_spec peak (y16_peak buf)) as [[_ ->]|[_ ->]]; [|by left]. right. exists 0%nat, buf. rewrite Nat.add_0_r. split_and!; [lia|done..].
Qed.

Lemma discard_spec n taken taken' : discard frames n taken = (Ok tt, taken') → taken' = (taken + n)%nat.
Proof using.
  revert taken. induction n as [|n IH]; intros taken; cbn [discard]; [intros [= <-]; lia|]. destruct (frames taken); [|done]. intros ->%IH. lia.
Qed.

(** The shift is the least that brings the peak into a byte. *)
Lemma shift_fits p : 0 <= p < 65536 →
  let s := y16_shift_from_peak p in
  0 <= s <= 8 ∧ Z.shiftr p s <= 255 ∧ (s = 0 ∨ 255 < Z.shiftr p (s - 1)).
Proof using.
  intros Hp. unfold y16_shift_from_peak, leading_zeros_u16, saturating_sub. cbv zeta. destruct (Z.eqb_spec p 0) as [->|Hn]; [split_and!; [done..|by left]|].
  pose proof (Z.log2_spec p ltac:(lia)) as [Hl Hu]. pose proof (Z.log2_nonneg p) as Hz.
  assert (Z.log2 p <= 15) as Hm by (apply (Z.log2_le_mono p 65535); lia). set (l := Z.log2 p) in *.
  replace (16 - (15 - l) - 8) with (l - 7) by lia. split; [lia|]. destruct (Z.max_spec 0 (l - 7)) as [[Hs ->]|[Hs ->]].
  - rewrite !Z.shiftr_div_pow2 by lia. assert (p < 256 * 2 ^ (l - 7)) as Hlt.
    { replace 256 with (2 ^ 8) by done. rewrite <- Z.pow_add_r by lia. by replace (8 + (l - 7)) with (Z.succ l) by lia. }
    assert (256 * 2 ^ (l - 7 - 1) <= p) as Hge.
    { replace 256 with (2 ^ 8) by done. rewrite <- Z.pow_add_r by lia. by replace (8 + (l - 7 - 1)) with l by lia. }
    split; [|right].
    + assert (p / 2 ^ (l - 7) < 256); [|lia]. apply Z.div_lt_upper_bound; [apply Z.pow_pos_nonneg; lia|lia].
    + assert (256 <= p / 2 ^ (l - 7 - 1)); [|lia]. apply Z.div_le_lower_bound; [apply Z.pow_pos_nonneg; lia|lia].
  - split; [|by left]. rewrite Z.shiftr_0_r. assert (2 ^ Z.succ l <= 2 ^ 8) by (apply Z.pow_le_mono_r; lia). lia.
Qed.

(** The measurement of a burst: the least shift at which nothing is cut off. *)
Definition fits_burst (taken n : nat) (s : Z) : Prop :=
  (∀ i, (i < n)%nat → ∃ buf, frames (taken + i)%nat = Ok buf ∧ y16_to_gray buf s = map (λ x, Z.shiftr x s) (samples buf)) ∧
  (s = 0 ∨ ∃ i buf x, (i < n)%nat ∧ frames (taken + i)%nat = Ok buf ∧ x ∈ samples buf ∧ 255 < Z.shiftr x (s - 1)).

Lemma measured device taken target s got t : (∀ i buf, frames i = Ok buf → Forall is_byte buf) →
  calibrate_y16_shift frames elapsed device taken target = (Ok (s, got), t) →
  t = (taken + got)%nat ∧ (0 < got <= Z.to_nat target)%nat ∧ 0 <= s <= 8 ∧ fits_burst taken got s.
Proof using.
  intros Hb. unfold calibrate_y16_shift. destruct (calibration_burst _ _ _ _ _ _) as [[[p g]|e] t'] eqn:Eb; cbn [map_err fst snd]; [|done].
  apply burst_spec in Eb as (n & -> & -> & Hn & Hp0 & Hall & Hmax); [|done]. rewrite Nat.add_0_l. destruct n as [|n]; [done|].
  cbn [y16_calibration fst]. intros [= <- <- <-]. split; [done|]. split; [lia|].
  assert (0 <= p < 65536) as Hp.
  { split; [done|]. destruct Hmax as [->|(i & buf & _ & Hbuf & <-)]; [lia|]. destruct (peak_reached buf) as [->|Hin]; [lia|].
    pose proof (samples_range buf (Hb _ _ Hbuf)) as Hr. rewrite Forall_forall in Hr. by apply Hr. }
  destruct (shift_fits p Hp) as (Hs & Hle & Hleast). split; [done|]. split.
  - intros i Hi. destruct (Hall i Hi) as (buf & Hbuf & Hpk). exists buf. split; [done|]. unfold y16_to_gray. apply map_ext_in. intros x Hx.
    apply list_elem_of_In, peak_bound in Hx. assert (Z.shiftr x (y16_shift_from_peak p) <= Z.shiftr p (y16_shift_from_peak p)); [|lia].
    rewrite !Z.shiftr_div_pow2 by lia. apply Z.div_le_mono; [apply Z.pow_pos_nonneg; lia|lia].
  - destruct Hleast as [|Hleast]; [by left|]. destruct Hmax as [->|(i & buf & Hi & Hbuf & <-)].
    { exfalso. destruct Hs as [Hs0 _]. rewrite Z.shiftr_0_l in Hleast. lia. }
    right. exists i, buf. destruct (peak_reached buf) as [E|Hin]; [rewrite E, Z.shiftr_0_l in Hleast; lia|]. by exists (y16_peak buf).
Qed.

Definition captured (c c' : Camera) : Prop := ∃ r, capture im frames elapsed c = Some (r, c').

Lemma scale_kept c c' s : rtc captured c c' → cm_y16_shift c = Some s → cm_y16_shift c' = Some s.
Proof using. induction 1 as [|c c1 c' [r Hc%capture_moves] _ IH]; [done|]. intros Hs. apply IH. by apply (moved_fields c c1 Hc). Qed.
End frames.

(** The frame of a capture, from the buffer it decodes. *)
Definition frame_of (frames : nat → result (list Z) string) (c c' : Camera) (f : Frame) : Prop :=
  let w := Z.to_nat (cm_width c) in
  let h := Z.to_nat (cm_height c) in
  ∃ buf, frames (pred (cm_taken c')) = Ok buf ∧ width f = cm_width c ∧ height f = cm_height c ∧
    let n := pixels_of (cm_format c) w h (length buf) in
    length (rgb f) = (3 * n)%nat ∧ length (gray f) = n ∧ Forall is_byte (rgb f) ∧ Forall is_byte (gray f) ∧
    (cm_format c = "GREY" → ∀ x y, (x < w)%nat → (y < h)%nat → gray f !! (y * w + x)%nat = buf !! (y * Z.to_nat (cm_stride c) + x)%nat) ∧
    (cm_format c = "Y16" → ∃ shift, cm_y16_shift c' = Some shift ∧ gray f = y16_to_gray buf shift).

Lemma captured_frame im frames elapsed c f c' : (∀ i buf, frames i = Ok buf → Forall is_byte buf) →
  capture im frames elapsed c = Some (Ok f, c') → cm_rotation c = 0 → cm_format c ≠ "MJPG" → frame_of frames c c' f.
Proof.
  intros Hb Hc Hrot Hm. unfold frame_of. cbv zeta.
  pose proof (moved_fields _ _ (capture_moves _ _ _ _ _ _ Hc)) as (Ef & Ew & Eh & Es & Er & _).
  apply capture_stages in Hc as ([[]|e] & c1 & _ & Hc); [|by destruct Hc as [_ [? [=]]]].
  destruct Hc as [-> (buf & px & Hbuf & Hd & Hf)%(λ x, x f eq_refl)]. specialize (Hb _ _ Hbuf).
  rewrite <- Er in Hrot. rewrite (Hf Hrot). rewrite <- Ef in Hm. destruct (decoded _ _ _ _ Hb Hm Hd) as (Hl & Hpx & Hg & Hy).
  exists buf. cbn [cm_taken with_taken pred rgb gray width height]. rewrite <- Ef, <- Ew, <- Eh, <- Es. split_and!; [done..| | |apply shade_bytes| |].
  - by rewrite shade_size, Hl, Nat.mul_comm, Nat.div_mul.
  - done.
  - intros Hgrey x y Hx Hy'. destruct (Hg Hgrey) as (stride & -> & Hw & Hh & ->). rewrite shade_of_gray by by apply cropped_bytes.
    apply cropped_at; [done|destruct Hh; [lia|done]|done..].
  - intros Hy16. destruct (Hy Hy16) as (shift & Hs & ->). exists shift. split; [done|]. apply shade_of_gray. by apply y16_bytes.
Qed.

(** What the [image] crate says of an image it made from a buffer, and of one it turned. *)
Record turning (im : Imaging) : Prop := {
  made w h l img : from_raw im w h l = Some img → img_width im img = w ∧ img_height im img = h;
  turned90 img : img_width im (rotate90 im img) = img_height im img ∧ img_height im (rotate90 im img) = img_width im img;
  turned180 img : img_width im (rotate180 im img) = img_width im img ∧ img_height im (rotate180 im img) = img_height im img;
  turned270 img : img_width im (rotate270 im img) = img_height im img ∧ img_height im (rotate270 im img) = img_width im img;
  turned_whole img t : t ∈ [rotate90 im; rotate180 im; rotate270 im] →
    Z.of_nat (length (into_raw im (t img))) = 3 * (img_width im (t img) * img_height im (t img)) }.

(** The frame of a rotated camera: upright by a half turn, on its side by a quarter. *)
Definition turned_frame (c : Camera) (f : Frame) : Prop :=
  (width f, height f) = (if cm_rotation c =? 180 then (cm_width c, cm_height c) else (cm_height c, cm_width c)) ∧
  Z.of_nat (length (rgb f)) = 3 * (width f * height f) ∧ Z.of_nat (length (gray f)) = width f * height f.

Lemma captured_turned im frames elapsed c f c' : capture im frames elapsed c = Some (Ok f, c') →
  ∃ buf px, frames (pred (cm_taken c')) = Ok buf ∧ decode_frame im c' buf = Some (Ok px) ∧
    rotated im c' px (cm_width c') (cm_height c') = Ok (rgb f, width f, height f) ∧ gray f = rgb_to_gray (rgb f).
Proof.
  intros Hc. unfold capture, capture_rgb in Hc. destruct (pin_scale frames elapsed c) as [[[]|e] c1]; [|by cbn in Hc].
  destruct (frames (cm_taken c1)) as [buf|e] eqn:Ef; [|by cbn in Hc].
  destruct (decode_frame im (with_taken (S (cm_taken c1)) c1) buf) as [[px|e]|] eqn:Ed; [|by cbn in Hc..].
  unfold downscaled in Hc. rewrite Z.ltb_irrefl in Hc. cbn [fst snd mbind option_bind] in Hc.
  destruct (rotated im _ px _ _) as [[[px' w] h]|e] eqn:Er; [|by cbn in Hc]. cbn in Hc. injection Hc as <- <-. by exists buf, px.
Qed.

Lemma turned_sizes im frames elapsed c f c' : turning im → capture im frames elapsed c = Some (Ok f, c') →
  cm_rotation c ∈ [90; 180; 270] → turned_frame c f.
Proof.
  intros Hi Hc Hrot. pose proof (moved_fields _ _ (capture_moves _ _ _ _ _ _ Hc)) as (_ & Ew & Eh & _ & Er & _).
  apply captured_turned in Hc as (buf & px & _ & _ & Ht & Eg). unfold rotated in Ht. rewrite Er, Ew, Eh in Ht.
  destruct (Z.eqb_spec (cm_rotation c) 0) as [H0|_]; [rewrite H0 in Hrot; by repeat (apply elem_of_cons in Hrot as [?|Hrot]; [done|]); apply elem_of_nil in Hrot|].
  destruct (from_raw im _ _ px) as [img|] eqn:Em; [|done]. unfold turned_frame. apply (made im Hi) in Em as [<- <-].
  assert (∀ t, t ∈ [rotate90 im; rotate180 im; rotate270 im] → Ok (into_raw im (t img), img_width im (t img), img_height im (t img)) = (Ok (rgb f, width f, height f) : result _ string) →
    Z.of_nat (length (rgb f)) = 3 * (width f * height f) ∧ Z.of_nat (length (gray f)) = width f * height f) as Hw.
  { intros t Hin%(turned_whole im Hi img) [= E1 E2 E3]. rewrite E1, E2, E3 in Hin. split; [done|]. rewrite Eg, shade_size, Nat2Z.inj_div, Hin.
    symmetry. apply Z.div_unique_exact; lia. }
  repeat (apply elem_of_cons in Hrot as [Hrot|Hrot]; [|]); [rewrite Hrot in *; cbn [Z.eqb Pos.eqb] in *..|by apply elem_of_nil in Hrot];
    (split; [|eapply Hw; [|exact Ht]; set_solver]); injection Ht as _ <- <-.
  - by destruct (turned90 im Hi img) as [-> ->].
  - by destruct (turned180 im Hi img) as [-> ->].
  - by destruct (turned270 im Hi img) as [-> ->].
Qed.

(** C28.  A frame is as large as it says. A capture always ends, in a frame or in an error, and
    never indexes its buffer outside; a frame's shades are bytes, one for each three of its image.
    The frame of an unrotated camera that does not send JPEG has the width and height of the camera;
    its image holds three bytes, and its shades one byte, for each pixel the buffer gave: all of them
    for GREY and NV12, which refuse a short buffer, and as many as the buffer has for YUYV and Y16. A
    GREY frame's shades are the pixels of the buffer itself, without the padding of its lines, and a
    Y16 frame's are the samples at its scale. An unrotated JPEG camera's frame has the camera's width
    and height over the image as it was decoded, of whatever size. A rotated camera's frame has the
    width and height that the turn gives, and all their pixels, where the image crate turns images
    as documented. *)
Theorem frames_are_whole im frames elapsed c : (∀ i buf, frames i = Ok buf → Forall is_byte buf) →
  ∃ r c', capture im frames elapsed c = Some (r, c') ∧
  ∀ f, r = Ok f →
    Forall is_byte (gray f) ∧ length (gray f) = (length (rgb f) / 3)%nat ∧
    (cm_rotation c = 0 → cm_format c ≠ "MJPG" → frame_of frames c c' f) ∧
    (cm_rotation c = 0 → cm_format c = "MJPG" → width f = cm_width c ∧ height f = cm_height c ∧
       ∃ buf, frames (pred (cm_taken c')) = Ok buf ∧ jpeg_to_rgb im buf = Ok (rgb f)) ∧
    (turning im → cm_rotation c ∈ [90; 180; 270] → turned_frame c f).
Proof.
  intros Hb. destruct (capture_total im frames elapsed c) as [[r c'] Hc]. exists r, c'. split; [done|]. intros f ->.
  pose proof (captured_turned _ _ _ _ _ _ Hc) as (buf & px & Hbuf & Hd & Ht & Eg). rewrite Eg. split; [apply shade_bytes|]. split; [apply shade_size|].
  split; [by eapply captured_frame|]. split; [|by intros ?; eapply turned_sizes].
  intros Hrot Hm. destruct (moved_fields _ _ (capture_moves _ _ _ _ _ _ Hc)) as (Ef & Ew & Eh & _ & Er & _).
  unfold rotated in Ht. rewrite Er, Hrot in Ht. cbn in Ht. injection Ht as <- <- <-. split; [done|]. split; [done|]. exists buf. split; [done|].
  unfold decode_frame in Hd. rewrite Ef, Hm in Hd. cbn in Hd. by destruct (jpeg_to_rgb im buf); [injection Hd as ->|].
Qed.

(** The scale of a Y16 stream is chosen once. The first capture of a stream without a verified
    scale measures the frames of a burst, at least one; the shift is the least at which no sample of
    them is cut off; no frame is returned before the warm-up has passed; if the measurement fails
    there is no frame. Every later capture uses the same shift, so that the frames of an attempt can
    be compared with each other. *)
Theorem y16_scale_is_pinned im frames elapsed c r c' : (∀ i buf, frames i = Ok buf → Forall is_byte buf) →
  cm_format c = "Y16" → cm_y16_shift c = None → capture im frames elapsed c = Some (r, c') →
  (cm_y16_shift c' = None → ∃ e, r = Err e) ∧
  ∀ s, cm_y16_shift c' = Some s → 0 <= s <= 8 ∧
    (∃ n, (0 < n <= Z.to_nat (cm_calibration_frames c))%nat ∧ fits_burst frames (cm_taken c) n s) ∧
    (∀ f, r = Ok f → cm_warmup c < Z.of_nat (cm_taken c') - Z.of_nat (cm_taken c)) ∧
    ∀ c'', rtc (captured im frames elapsed) c' c'' → cm_y16_shift c'' = Some s.
Proof.
  intros Hb Hf Hs (pinned & c1 & Hp & Hc)%capture_stages.
  assert (cm_y16_shift c' = cm_y16_shift c1) as Eshift by (by destruct pinned; destruct Hc as [-> _]).
  assert (cm_y16_shift c1 = None → ∃ e, r = Err e) as Hnone.
  { revert Hp. unfold pin_scale. rewrite Hf, Hs. cbn. intros Hp Hn. destruct (calibrate_y16_shift _ _ _ _ _) as [[[s got]|e] t].
    - destruct (discard _ _ _). by injection Hp as <- <-.
    - injection Hp as <- <-. by destruct Hc as [-> He]. }
  split; [rewrite Eshift; intros Hn; by apply Hnone|]. intros s Hs'. rewrite Eshift in Hs'.
  revert Hp. unfold pin_scale. rewrite Hf, Hs. cbn [String.eqb is_some negb andb]. destruct (calibrate_y16_shift _ _ _ _ _) as [[[s0 got]|e] t] eqn:Em;
    [|by cbn; intros [= <- <-]; cbn in Hs'; rewrite Hs in Hs'].
  apply measured in Em as (-> & Hgot & H8 & Hfit); [|done]. cbn. destruct (discard _ _ _) as [[[]|e] t] eqn:Ed; intros [= <- <-];
    injection Hs' as ->; (split; [done|split; [by exists got|split]]); try (intros c'' Hr; eapply scale_kept; [done|by rewrite Eshift]).
  - apply discard_spec in Ed as ->. destruct Hc as [-> _]. intros f _. cbn. unfold warmup_top_up, saturating_sub. lia.
  - destruct Hc as [_ [e' ->]]. done.
Qed.

(** ** The light *)

(** A write that switched a light on, and the write that switches it off. *)
Definition lit (dr : Driver) (l : Light) : Prop :=
  match l with
  | LedWrite dir v => v ≠ "0" ∧ dr_led_write dr dir v = Ok tt
  | EmitterSet device xu v => v ≠ 0 ∧ dr_emitter dr device xu v = Ok tt
  end.

Definition off (l : Light) : Light :=
  match l with LedWrite dir _ => LedWrite dir "0" | EmitterSet device xu _ => EmitterSet device xu 0 end.

Lemma led_on_spec dr spec r l : led_on dr spec = (r, l) →
  Forall (λ x, lit dr x → ∃ dir, r = Ok dir ∧ off x = LedWrite dir "0") l.
Proof.
  unfold led_on. destruct (led_class_name spec) as [name|]; [|by intros [= _ <-]]. unfold led_on_in. cbv zeta.
  destruct (dr_led dr _) as [max|]; [|by intros [= _ <-]]. destruct (parse_u32 _) as [v|]; [|by intros [= _ <-]].
  destruct (0 <? v); [|by intros [= _ <-]]. cbn. destruct (dr_led_write _ _ _) as [[]|e] eqn:Ew; intros [= <- <-]; (constructor; [|done]); intros [_ Hw].
  - by eexists.
  - by rewrite Ew in Hw.
Qed.

Lemma enable_emitter_spec dr device quirk r l : enable_emitter dr device quirk = (r, l) →
  Forall (λ x, lit dr x → r = Ok true ∧ dr_exists dr device = true ∧ ∃ xu, (quirk ≫= xu_info_from_quirk) = Some xu ∧ off x = EmitterSet device xu 0) l.
Proof.
  unfold enable_emitter. destruct (dr_exists dr device); [|by intros [= _ <-]]. cbn [negb]. destruct (quirk ≫= xu_info_from_quirk) as [xu|]; [|by intros [= _ <-]].
  cbn. destruct (dr_emitter _ _ _ _) as [[]|e] eqn:Ew; intros [= <- <-]; (constructor; [|done]); intros [_ Hw].
  - split_and!; [done..|]. by exists xu.
  - by rewrite Ew in Hw.
Qed.

Lemma light_up_off dr config quirk device format fmt caps cam lights : light_up dr config quirk device format fmt caps = (cam, lights) →
  Forall (λ x, lit dr x → off x ∈ camera_drop dr cam) lights ∧ Forall (λ x, off x = x) (camera_drop dr cam).
Proof.
  unfold light_up. destruct (if ir_emitter config then _ else _) as [emitted l1] eqn:E1.
  destruct (match ir_led config with Some _ => _ | None => _ end) as [led l2] eqn:E2. cbv zeta. intros [= <- <-]. unfold camera_drop. cbn [cm_led cm_emitter_active cm_emitter cm_device].
  assert (Forall (λ x, lit dr x → emitted = Ok true ∧ dr_exists dr device = true ∧ ∃ xu, (quirk ≫= xu_info_from_quirk) = Some xu ∧ off x = EmitterSet device xu 0) l1) as H1.
  { destruct (ir_emitter config); [by apply enable_emitter_spec|]. by injection E1 as _ <-. }
  assert (Forall (λ x, lit dr x → ∃ dir, led = Some dir ∧ off x = LedWrite dir "0") l2) as H2.
  { destruct (ir_led config) as [spec|]; [|by injection E2 as _ <-]. destruct (led_on dr spec) as [r l] eqn:El. injection E2 as <- <-.
    eapply Forall_impl; [by eapply led_on_spec|]. intros x Hx Hlit. destruct (Hx Hlit) as (dir & -> & Hoff). by exists dir. }
  split; [apply Forall_app; split|].
  - eapply Forall_impl; [done|]. intros x Hx Hlit. destruct (Hx Hlit) as (-> & He & xu & -> & ->). apply elem_of_app. right.
    unfold disable_emitter_with_info. rewrite He. cbn. constructor.
  - eapply Forall_impl; [done|]. intros x Hx Hlit. destruct (Hx Hlit) as (dir & -> & ->). apply elem_of_app. left. cbn. constructor.
  - apply Forall_app. split; [by destruct led; cbn; auto|]. destruct emitted as [[]|]; [|done..]. destruct (quirk ≫= xu_info_from_quirk); [|done].
    unfold disable_emitter_with_info. destruct (dr_exists dr device); cbn; auto.
Qed.

Lemma drop_after_captures dr im frames elapsed c c' : rtc (captured im frames elapsed) c c' → camera_drop dr c' = camera_drop dr c.
Proof.
  induction 1 as [|c c1 c' [r (n & Hm)%capture_moves] _ ->]; [done|]. by destruct Hm as [->|(_ & _ & s & ->)].
Qed.

(** What lights up goes out again. An open that fails has switched nothing; the drop of an open
    camera, whatever was captured with it in between, switches off every LED and every emitter that
    its open switched on, and it switches nothing on. *)
Theorem lights_go_out {LC : Lowercase} parse_quirks hw dr im frames elapsed config quirk caps r lights :
  open_resolved parse_quirks hw dr config quirk caps = (r, lights) →
  match r with
  | Err _ => lights = []
  | Ok cam => ∀ cam', rtc (captured im frames elapsed) cam cam' →
      Forall (λ x, lit dr x → off x ∈ camera_drop dr cam') lights ∧ Forall (λ x, off x = x) (camera_drop dr cam')
  end.
Proof.
  unfold open_resolved. destruct (match path config with Some _ => _ | None => _ end) as [device|e]; [|by intros [= <- <-]].
  destruct (map_err _ (dr_open dr device)); [|by intros [= <- <-]]. unfold open_node.
  destruct (map_err _ (dr_caps dr device)) as [[cap multi]|e]; [|by intros [= <- <-]]. destruct (negb _ && negb _); [by intros [= <- <-]|].
  cbv zeta. destruct (let? codes := map_err _ (dr_formats dr device) in _) as [fmt|e]; [|by intros [= <- <-]].
  destruct (light_up _ _ _ _ _ _ _) as [cam l] eqn:El. intros [= <- <-] cam' Hr%(drop_after_captures dr). rewrite Hr. by apply light_up_off in El.
Qed.

(** ** Examples *)
#[local] Instance ascii_names : Lowercase := ascii_lowercase.

Definition no_imaging : Imaging :=
  {| Img := list Z; jpeg_to_rgb := λ _, Err "not a JPEG"; from_raw := λ _ _ l, Some l; resize := λ i _ _, i; rotate90 := λ i, i; rotate180 := λ i, i;
     rotate270 := λ i, i; img_width := λ _, 0; img_height := λ _, 0; into_raw := λ i, i |}.

Definition small_camera (format : string) (stride : Z) (shift : option Z) : Camera :=
  {| cm_width := 2; cm_height := 2; cm_format := format; cm_stride := stride; cm_rotation := 0; cm_device := "/dev/video2"; cm_emitter_active := false;
     cm_emitter := None; cm_led := None; cm_caps := caps (interrogate usb_camera infrared_node []); cm_y16_shift := shift;
     cm_calibration_frames := 8; cm_warmup := 2; cm_taken := 0 |}.

Definition padded_frames (_ : nat) : result (list Z) string := Ok [1; 2; 9; 9; 3; 4; 9; 9].
Definition y16_frames (_ : nat) : result (list Z) string := Ok [0; 1; 0; 4; 255; 0; 0; 2].

Lemma sample_bytes : (∀ i buf, padded_frames i = Ok buf → Forall is_byte buf) ∧ (∀ i buf, y16_frames i = Ok buf → Forall is_byte buf).
Proof. split; intros i buf [= <-]; unfold is_byte; repeat (constructor; [lia|]); constructor. Qed.

(** Images as their pixels, and the three turns. *)
Definition turn (w h : nat) (from : nat → nat → nat) (px : list Z) : list Z :=
  concat (map (λ i, map (λ k, default 0 (px !! (3 * from (i mod w) (i / w) + k)%nat)) (seq 0 3)) (seq 0 (w * h))).

Definition plain_imaging : Imaging :=
  {| Img := nat * nat * list Z; jpeg_to_rgb := λ _, Err "not a JPEG";
     from_raw := λ w h l, if (0 <=? w) && (0 <=? h) && (3 * (w * h) <=? Z.of_nat (length l)) then Some (Z.to_nat w, Z.to_nat h, l) else None;
     resize := λ i _ _, i;
     rotate90 := λ '(w, h, l), (h, w, turn h w (λ x y, (h - 1 - x) * w + y) l)%nat;
     rotate180 := λ '(w, h, l), (w, h, turn w h (λ x y, (h - 1 - y) * w + (w - 1 - x)) l)%nat;
     rotate270 := λ '(w, h, l), (h, w, turn h w (λ x y, x * w + (w - 1 - y)) l)%nat;
     img_width := λ '(w, h, l), Z.of_nat w; img_height := λ '(w, h, l), Z.of_nat h; into_raw := λ '(_, _, l), l |}.

Lemma turn_size w h from px : length (turn w h from px) = (3 * (w * h))%nat.
Proof.
  unfold turn. set (px3 := λ i : nat, map _ (seq 0 3)). assert (∀ n i, length (concat (map px3 (seq i n))) = (3 * n)%nat) as Hl; [|apply Hl].
  induction n as [|n IH]; intros i; [done|]. cbn [seq map concat]. rewrite length_app, IH. unfold px3. cbn [length map seq]. lia.
Qed.

Lemma plain_turning : turning plain_imaging.
Proof.
  split; try (by intros [[w h] l]).
  - intros w h l img. cbn. destruct (_ && _) eqn:E; [|done]. intros [= <-]. bsplit. lia.
  - intros [[w h] l] t Ht. repeat (apply elem_of_cons in Ht as [->|Ht]; [cbn; rewrite turn_size; lia|]). by apply elem_of_nil in Ht.
Qed.

Definition sideways_camera : Camera :=
  {| cm_width := 2; cm_height := 1; cm_format := "GREY"; cm_stride := 4; cm_rotation := 90; cm_device := "/dev/video2"; cm_emitter_active := false;
     cm_emitter := None; cm_led := None; cm_caps := caps (interrogate usb_camera infrared_node []); cm_y16_shift := Some 0;
     cm_calibration_frames := 8; cm_warmup := 2; cm_taken := 0 |}.

Theorem frames_are_whole_witness :
  (∃ f c', capture no_imaging padded_frames (λ _, 0) (small_camera "GREY" 4 (Some 0)) = Some (Ok f, c') ∧ gray f = [1; 2; 3; 4] ∧ length (rgb f) = 12%nat) ∧
  ∃ f c', capture plain_imaging padded_frames (λ _, 0) sideways_camera = Some (Ok f, c') ∧ gray f = [1; 2] ∧ (width f, height f) = (1, 2).
Proof.
  split.
  - destruct (frames_are_whole no_imaging padded_frames (λ _, 0) (small_camera "GREY" 4 (Some 0)) (proj1 sample_bytes)) as (r & c' & E & H).
    destruct r as [f|e]; [|vm_compute in E; discriminate E]. exists f, c'. split; [exact E|].
    destruct (H f eq_refl) as (_ & _ & Hf & _). destruct (Hf eq_refl ltac:(discriminate)) as (buf & _ & _ & _ & Hl & _).
    split; [vm_compute in E; injection E as <- _; reflexivity|exact Hl].
  - destruct (frames_are_whole plain_imaging padded_frames (λ _, 0) sideways_camera (proj1 sample_bytes)) as (r & c' & E & H).
    destruct r as [f|e]; [|vm_compute in E; discriminate E]. exists f, c'. split; [exact E|].
    destruct (H f eq_refl) as (_ & _ & _ & _ & Ht). destruct (Ht plain_turning ltac:(left)) as (Hwh & _).
    split; [vm_compute in E; injection E as <- _; reflexivity|exact Hwh].
Defined.

Theorem y16_scale_is_pinned_witness : ∃ f c',
  capture no_imaging y16_frames (λ _, 0) (small_camera "Y16" 4 None) = Some (Ok f, c') ∧ gray f = [32; 128; 31; 64] ∧
  ∀ c'', rtc (captured no_imaging y16_frames (λ _, 0)) c' c'' → cm_y16_shift c'' = Some 3.
Proof.
  destruct (capture no_imaging y16_frames (λ _, 0) (small_camera "Y16" 4 None)) as [[[f|e] c']|] eqn:E; [|vm_compute in E; discriminate E..].
  exists f, c'. split; [reflexivity|]. assert (gray f = [32; 128; 31; 64] ∧ cm_y16_shift c' = Some 3) as [Hg Hs].
  { vm_compute in E. injection E as <- <-. split; reflexivity. }
  split; [exact Hg|]. apply (proj2 (y16_scale_is_pinned no_imaging y16_frames (λ _, 0) (small_camera "Y16" 4 None) (Ok f) c' (proj2 sample_bytes) eq_refl eq_refl E) 3 Hs).
Defined.

(** Both lights go on when the camera opens, and off when it is dropped. *)
Theorem lights_go_out_witness : ∃ cam lights,
  open_resolved (λ _, Ok []) usb_camera grey_driver lit_config (Some infrared_quirk) (caps (interrogate usb_camera infrared_node [])) = (Ok cam, lights) ∧
  map off lights = rev (camera_drop grey_driver cam) ∧ length lights = 2%nat ∧ Forall (λ x, lit grey_driver x → off x ∈ camera_drop grey_driver cam) lights.
Proof.
  destruct (open_resolved (λ _, Ok []) usb_camera grey_driver lit_config (Some infrared_quirk) (caps (interrogate usb_camera infrared_node []))) as [[cam|e] lights] eqn:E;
    [|vm_compute in E; discriminate E].
  exists cam, lights. split; [reflexivity|]. pose proof (lights_go_out _ _ _ no_imaging padded_frames (λ _, 0) _ _ _ _ _ E cam (rtc_refl _ cam)) as [Hoff _].
  assert (map off lights = rev (camera_drop grey_driver cam) ∧ length lights = 2%nat) as [H1 H2] by (vm_compute in E; injection E as <- <-; split; reflexivity).
  split; [exact H1|]. split; [exact H2|exact Hoff].
Defined.
