(* ===== verification/Face.v ===== *)
(** * Face: from a frame to faces and embeddings

    The face engine ([facelock-face/src/detector.rs], [align.rs], [embedder.rs], [lib.rs]) around
    its two networks, which are parameters: the letterbox that feeds the detector, the decoding of
    its outputs, non-maximum suppression, the alignment of a face, the embedding. [None] is a
    panic. *)

From S2P Require Import Prelude Float32 Types.

(** ** Numbers *)
Definition f32_neg : f32 → f32 := SFopp.

(** [x as i32] *)
Definition f32_to_i32 (x : f32) : Z :=
  match x with
  | S754_zero _ | S754_nan => 0
  | S754_infinity s => if s then - 2 ^ 31 else 2 ^ 31 - 1
  | S754_finite s m e =>
      let n := if 0 <=? e then Zpos m * 2 ^ e else Zpos m / 2 ^ (- e) in
      Z.max (- 2 ^ 31) (Z.min (2 ^ 31 - 1) (if s then - n else n))
  end.

Definition f32_floor (x : f32) : f32 :=
  match x with
  | S754_finite s m e => if 0 <=? e then x else f32_of_Z ((if s then - Zpos m else Zpos m) / 2 ^ (- e))
  | _ => x
  end.

(** Halves away from zero. *)
Definition f32_round (x : f32) : f32 :=
  match x with
  | S754_finite s m e =>
      if 0 <=? e then x
      else let n := (2 * Zpos m + 2 ^ (- e)) / (2 * 2 ^ (- e)) in
           if n =? 0 then S754_zero s else f32_of_Z (if s then - n else n)
  | _ => x
  end.

Definition as_usize (z : Z) : Z := z mod 2 ^ 64.

Definition read_f32 (data : list Z) (i : Z) : option f32 := f32_of_Z <$> data !! Z.to_nat i.

(** An assignment to a slot: outside it panics. *)
Definition set_at {A} (i : Z) (v : A) (l : list A) : option (list A) :=
  if (Z.to_nat i <? length l)%nat then Some (<[Z.to_nat i := v]> l) else None.

(** [for i in 0..n] *)
Fixpoint for_ {S} (n : nat) (i : Z) (body : Z → S → option S) (s : S) : option S :=
  match n with
  | O => Some s
  | Datatypes.S n => s ← body i s; for_ n (i + 1) body s
  end.

(** ** The input of the detector *)
Section letterbox.
Context (rgb : list Z) (src_w new_w new_h : Z).

(** One channel of one pixel: the weighted mean of its four neighbours. *)
Definition blend (y0_row y1_row x0 x1 : Z) (fx fy : f32) (c : Z) : option f32 :=
  let fx_inv := f32_sub f32_one fx in
  let fy_inv := f32_sub f32_one fy in
  let at_ row x := read_f32 rgb (as_usize (as_usize ((row + x) * 3) + c)) in
  p00 ← at_ y0_row x0;
  p10 ← at_ y0_row x1;
  p01 ← at_ y1_row x0;
  p11 ← at_ y1_row x1;
  Some (f32_add (f32_add (f32_add (f32_mul p00 (f32_mul fx_inv fy_inv)) (f32_mul p10 (f32_mul fx fy_inv)))
                         (f32_mul p01 (f32_mul fx_inv fy))) (f32_mul p11 (f32_mul fx fy))).

(** The place of a destination coordinate in the source: the pixel, its neighbour, the rest. *)
Definition source_of (d : Z) (inv_scale : f32) (limit : Z) : Z * Z * f32 :=
  let s := f32_mul (f32_of_Z d) inv_scale in
  let p0 := f32_to_uint u32_max (f32_floor s) in
  (p0, Z.min (as_u32 (p0 + 1)) limit, f32_sub s (f32_of_Z p0)).

Definition letterbox_pixel (src_w_limit pad_x_int ts out_y y0_row y1_row : Z) (inv_scale_x fy : f32) (dx : Z)
    (output : list f32) : option (list f32) :=
  let '(x0, x1, fx) := source_of dx inv_scale_x src_w_limit in
  let out_idx := out_y * ts + as_u32 (dx + pad_x_int) in
  for_ 3 0 (λ c output,
    val ← blend y0_row y1_row x0 x1 fx fy c;
    set_at (c * (ts * ts) + out_idx) (f32_div (f32_sub val (f32_lit 255 2)) (f32_of_Z 128)) output) output.

Definition letterbox_row (src_w_limit src_h_limit pad_x_int pad_y_int ts : Z) (inv_scale_x inv_scale_y : f32) (dy : Z)
    (output : list f32) : option (list f32) :=
  let '(y0, y1, fy) := source_of dy inv_scale_y src_h_limit in
  for_ (Z.to_nat new_w) 0
    (letterbox_pixel src_w_limit pad_x_int ts (as_u32 (dy + pad_y_int)) (as_usize (y0 * src_w)) (as_usize (y1 * src_w)) inv_scale_x fy) output.
End letterbox.

(** The tensor, the scale and the padding. *)
Definition letterbox (rgb : list Z) (src_w src_h target_size : Z) : option (list f32 * f32 * f32 * f32) :=
  let w := f32_of_Z src_w in
  let h := f32_of_Z src_h in
  let t := f32_of_Z target_size in
  let scale := f32_min (f32_div t w) (f32_div t h) in
  let new_w := f32_to_uint u32_max (f32_round (f32_mul w scale)) in
  let new_h := f32_to_uint u32_max (f32_round (f32_mul h scale)) in
  let pad_x := f32_div (f32_of_Z (as_u32 (target_size - new_w))) (f32_of_Z 2) in
  let pad_y := f32_div (f32_of_Z (as_u32 (target_size - new_h))) (f32_of_Z 2) in
  let pad_x_int := f32_to_uint u32_max pad_x in
  let pad_y_int := f32_to_uint u32_max pad_y in
  let inv_scale_x := f32_div w (f32_of_Z new_w) in
  let inv_scale_y := f32_div h (f32_of_Z new_h) in
  output ← for_ (Z.to_nat new_h) 0
    (letterbox_row rgb src_w new_w (as_u32 (src_w - 1)) (as_u32 (src_h - 1)) pad_x_int pad_y_int target_size inv_scale_x inv_scale_y)
    (replicate (Z.to_nat (3 * target_size * target_size)) f32_zero);
  Some (output, scale, pad_x, pad_y).

(** ** The output of the detector *)
Definition STRIDES : list Z := [8; 16; 32].

(** Two anchors for each cell. *)
Definition generate_anchors (feat_h feat_w : Z) : list (f32 * f32) :=
  concat (map (λ y, concat (map (λ x, let a := (f32_of_Z (Z.of_nat x), f32_of_Z (Z.of_nat y)) in [a; a]) (seq 0 (Z.to_nat feat_w))))
    (seq 0 (Z.to_nat feat_h))).

Record FaceDetector := { input_width : Z; input_height : Z; confidence_threshold : f32; nms_threshold : f32 }.

Definition detector_load (confidence nms : f32) : FaceDetector :=
  {| input_width := 640; input_height := 640; confidence_threshold := confidence; nms_threshold := nms |}.

(** What undoes the letterbox of a frame. *)
Record Undo := { un_scale : f32; un_pad_x : f32; un_pad_y : f32; un_width : Z; un_height : Z }.

Definition undo_x (u : Undo) (x : f32) : f32 := f32_div (f32_sub x (un_pad_x u)) (un_scale u).
Definition undo_y (u : Undo) (y : f32) : f32 := f32_div (f32_sub y (un_pad_y u)) (un_scale u).

(** [.max(0.0).min(limit)] *)
Definition clamped (limit : Z) (x : f32) : f32 := f32_min (f32_max x f32_zero) (f32_of_Z limit).

Definition decode_box (u : Undo) (stride : f32) (anchor : f32 * f32) (bboxes : list f32) (b_base : nat) : option BoundingBox :=
  b0 ← bboxes !! b_base;
  b1 ← bboxes !! (b_base + 1)%nat;
  b2 ← bboxes !! (b_base + 2)%nat;
  b3 ← bboxes !! (b_base + 3)%nat;
  let x1 := clamped (un_width u) (undo_x u (f32_mul (f32_sub (fst anchor) b0) stride)) in
  let y1 := clamped (un_height u) (undo_y u (f32_mul (f32_sub (snd anchor) b1) stride)) in
  let x2 := clamped (un_width u) (undo_x u (f32_mul (f32_add (fst anchor) b2) stride)) in
  let y2 := clamped (un_height u) (undo_y u (f32_mul (f32_add (snd anchor) b3) stride)) in
  Some {| bbox_x := x1; bbox_y := y1; bbox_width := f32_max (f32_sub x2 x1) f32_zero; bbox_height := f32_max (f32_sub y2 y1) f32_zero |}.

Definition decode_landmarks (u : Undo) (stride : f32) (anchor : f32 * f32) (data : list f32) (l_base : nat) : option (list Point2D) :=
  mapM (λ j,
    lx ← data !! (l_base + j * 2)%nat;
    ly ← data !! (l_base + j * 2 + 1)%nat;
    Some {| pt_x := undo_x u (f32_mul (f32_add (fst anchor) lx) stride); pt_y := undo_y u (f32_mul (f32_add (snd anchor) ly) stride) |}) (seq 0 5).

(** One anchor: no detection below the threshold. *)
Definition decode_anchor (u : Undo) (threshold stride : f32) (score_stride : nat) (scores bboxes landmarks_data : list f32)
    (i : nat) (anchor : f32 * f32) : option (list Detection) :=
  score ← scores !! (i * score_stride)%nat;
  if f32_lt score threshold then Some []
  else
    b ← decode_box u stride anchor bboxes (i * 4);
    lms ← decode_landmarks u stride anchor landmarks_data (i * 10);
    Some [{| bbox := b; confidence := score; landmarks := lms |}].

Fixpoint decode_anchors (u : Undo) (threshold stride : f32) (score_stride : nat) (scores bboxes landmarks_data : list f32)
    (i : nat) (anchors : list (f32 * f32)) : option (list Detection) :=
  match anchors with
  | [] => Some []
  | a :: rest =>
      d ← decode_anchor u threshold stride score_stride scores bboxes landmarks_data i a;
      ds ← decode_anchors u threshold stride score_stride scores bboxes landmarks_data (S i) rest;
      Some (d ++ ds)
  end.

(** ** Non-maximum suppression *)
Definition compute_iou (a b : BoundingBox) : f32 :=
  let x1 := f32_max (bbox_x a) (bbox_x b) in
  let y1 := f32_max (bbox_y a) (bbox_y b) in
  let x2 := f32_min (f32_add (bbox_x a) (bbox_width a)) (f32_add (bbox_x b) (bbox_width b)) in
  let y2 := f32_min (f32_add (bbox_y a) (bbox_height a)) (f32_add (bbox_y b) (bbox_height b)) in
  let inter_w := f32_max (f32_sub x2 x1) f32_zero in
  let inter_h := f32_max (f32_sub y2 y1) f32_zero in
  let intersection := f32_mul inter_w inter_h in
  let area_a := f32_mul (bbox_width a) (bbox_height a) in
  let area_b := f32_mul (bbox_width b) (bbox_height b) in
  let union := f32_sub (f32_add area_a area_b) intersection in
  if f32_le union f32_zero then f32_zero else f32_div intersection union.

(** Confidence descending; what cannot be compared is equal. *)
Definition by_confidence (a b : Detection) : comparison := default Eq (SFcompare (confidence b) (confidence a)).

(** The comparison is an order where no confidence is NaN, or where all are equal to it. *)
Definition orderly (l : list Detection) : bool :=
  forallb (λ d, negb (f32_is_nan (confidence d))) l ||
  forallb (λ a, forallb (λ b, match by_confidence a b with Eq => true | _ => false end) l) l.

Fixpoint insert_detection (x : Detection) (l : list Detection) : list Detection :=
  match l with
  | [] => [x]
  | y :: l' => match by_confidence x y with Gt => y :: insert_detection x l' | _ => x :: l end
  end.

(** [sort_by], which is stable; over a comparison that is no order it may panic. *)
Definition sort_detections (l : list Detection) : option (list Detection) :=
  if orderly l then Some (foldr insert_detection [] l) else None.

(** [keep] are the boxes that are kept so far. *)
Fixpoint suppress (iou_threshold : f32) (keep : list BoundingBox) (l : list Detection) : list Detection :=
  match l with
  | [] => []
  | d :: l =>
      if existsb (λ k, f32_gt (compute_iou (bbox d) k) iou_threshold) keep then suppress iou_threshold keep l
      else d :: suppress iou_threshold (keep ++ [bbox d]) l
  end.

Definition nms (detections : list Detection) (iou_threshold : f32) : option (list Detection) :=
  suppress iou_threshold [] <$> sort_detections detections.

(** ** Alignment *)
Definition reference_landmarks : list (f32 * f32) :=
  [(f32_lit 382946 10000, f32_lit 516963 10000); (f32_lit 735318 10000, f32_lit 515014 10000); (f32_lit 560252 10000, f32_lit 717366 10000);
   (f32_lit 415493 10000, f32_lit 923655 10000); (f32_lit 707299 10000, f32_lit 922041 10000)].

Definition ALIGNED_SIZE : Z := 112.

Record AlignedFace := { al_rgb : list Z; al_width : Z; al_height : Z }.

Definition f32_tiny : f32 := f32_lit 1 (10 ^ 10).

(** A 2x2 matrix by rows. *)
Record Matrix2 := { m00 : f32; m01 : f32; m10 : f32; m11 : f32 }.

Definition eigenvectors_2x2_sym (a b _c lambda1 lambda2 : f32) : Matrix2 :=
  let '(v00, v10) :=
    if f32_gt (f32_abs b) f32_tiny then
      let vx := b in
      let vy := f32_sub lambda1 a in
      let norm := f32_sqrt (f32_add (f32_mul vx vx) (f32_mul vy vy)) in
      if f32_gt norm f32_tiny then (f32_div vx norm, f32_div vy norm) else (f32_one, f32_zero)
    else if f32_gt (f32_abs (f32_sub a lambda1)) (f32_abs (f32_sub a lambda2)) then (f32_zero, f32_one) else (f32_one, f32_zero) in
  {| m00 := v00; m01 := f32_neg v10; m10 := v10; m11 := v00 |}.

Definition svd_2x2 (h : Matrix2) : Matrix2 * (f32 * f32) * Matrix2 :=
  let a := m00 h in
  let b := m01 h in
  let c := m10 h in
  let d := m11 h in
  let ata00 := f32_add (f32_mul a a) (f32_mul c c) in
  let ata01 := f32_add (f32_mul a b) (f32_mul c d) in
  let ata11 := f32_add (f32_mul b b) (f32_mul d d) in
  let trace := f32_add ata00 ata11 in
  let det := f32_sub (f32_mul ata00 ata11) (f32_mul ata01 ata01) in
  let disc := f32_sqrt (f32_max (f32_sub (f32_div (f32_mul trace trace) (f32_of_Z 4)) det) f32_zero) in
  let lambda1 := f32_add (f32_div trace (f32_of_Z 2)) disc in
  let lambda2 := f32_max (f32_sub (f32_div trace (f32_of_Z 2)) disc) f32_zero in
  let s1 := f32_sqrt lambda1 in
  let s2 := f32_sqrt lambda2 in
  let v := eigenvectors_2x2_sym ata00 ata01 ata11 lambda1 lambda2 in
  let '(u00, u10) :=
    if f32_gt s1 f32_tiny
    then (f32_div (f32_add (f32_mul a (m00 v)) (f32_mul b (m10 v))) s1, f32_div (f32_add (f32_mul c (m00 v)) (f32_mul d (m10 v))) s1)
    else (f32_zero, f32_zero) in
  let '(u01, u11) :=
    if f32_gt s2 f32_tiny
    then (f32_div (f32_add (f32_mul a (m01 v)) (f32_mul b (m11 v))) s2, f32_div (f32_add (f32_mul c (m01 v)) (f32_mul d (m11 v))) s2)
    else (f32_neg u10, u00) in
  ({| m00 := u00; m01 := u01; m10 := u10; m11 := u11 |}, (s1, s2), v).

(** [+=] over the points, from zero. *)
Definition summed {A} (f : A → f32) (l : list A) : f32 := fold_left (λ acc x, f32_add acc (f x)) l f32_zero.

(** The rows of the affine matrix. *)
Definition compute_affine_matrix (src : list Point2D) : (f32 * f32 * f32) * (f32 * f32 * f32) :=
  let n := f32_of_Z 5 in
  let pairs := combine src reference_landmarks in
  let src_cx := f32_div (summed (λ p, pt_x (fst p)) pairs) n in
  let src_cy := f32_div (summed (λ p, pt_y (fst p)) pairs) n in
  let dst_cx := f32_div (summed (λ p, fst (snd p)) pairs) n in
  let dst_cy := f32_div (summed (λ p, snd (snd p)) pairs) n in
  let src_var := f32_div (summed (λ s, let dx := f32_sub (pt_x s) src_cx in let dy := f32_sub (pt_y s) src_cy in
                                      f32_add (f32_mul dx dx) (f32_mul dy dy)) src) n in
  let cov (f : Point2D → f32) (g : f32 * f32 → f32) := f32_div (summed (λ p, f32_mul (f (fst p)) (g (snd p))) pairs) n in
  let sx p := f32_sub (pt_x p) src_cx in
  let sy p := f32_sub (pt_y p) src_cy in
  let dx (d : f32 * f32) := f32_sub (fst d) dst_cx in
  let dy (d : f32 * f32) := f32_sub (snd d) dst_cy in
  let '(u, s, v) := svd_2x2 {| m00 := cov sx dx; m01 := cov sx dy; m10 := cov sy dx; m11 := cov sy dy |} in
  let det_uv := f32_mul (f32_sub (f32_mul (m00 u) (m11 u)) (f32_mul (m01 u) (m10 u))) (f32_sub (f32_mul (m00 v) (m11 v)) (f32_mul (m01 v) (m10 v))) in
  let d0 := f32_one in
  let d1 := if f32_lt det_uv f32_zero then f32_neg_one else f32_one in
  let vd00 := f32_mul (m00 v) d0 in
  let vd01 := f32_mul (m01 v) d1 in
  let vd10 := f32_mul (m10 v) d0 in
  let vd11 := f32_mul (m11 v) d1 in
  let r00 := f32_add (f32_mul vd00 (m00 u)) (f32_mul vd01 (m01 u)) in
  let r01 := f32_add (f32_mul vd00 (m10 u)) (f32_mul vd01 (m11 u)) in
  let r10 := f32_add (f32_mul vd10 (m00 u)) (f32_mul vd11 (m01 u)) in
  let r11 := f32_add (f32_mul vd10 (m10 u)) (f32_mul vd11 (m11 u)) in
  let scale := if f32_lt (f32_abs src_var) f32_tiny then f32_one
               else f32_div (f32_add (f32_mul (fst s) d0) (f32_mul (snd s) d1)) src_var in
  let tx := f32_sub dst_cx (f32_mul scale (f32_add (f32_mul r00 src_cx) (f32_mul r01 src_cy))) in
  let ty := f32_sub dst_cy (f32_mul scale (f32_add (f32_mul r10 src_cx) (f32_mul r11 src_cy))) in
  ((f32_mul scale r00, f32_mul scale r01, tx), (f32_mul scale r10, f32_mul scale r11, ty)).

(** Black outside the frame. *)
Definition get_pixel (frame : Frame) (c px py : Z) : option f32 :=
  if (0 <=? px) && (px <? as_i32 (width frame)) && (0 <=? py) && (py <? as_i32 (height frame))
  then read_f32 (rgb frame) (as_usize ((py * width frame + px) * 3 + c))
  else Some f32_zero.

(** One channel of one pixel of the aligned face, from its place in the frame. *)
Definition warped (frame : Frame) (src_x src_y : f32) (c : Z) : option Z :=
  let x0 := f32_to_i32 (f32_floor src_x) in
  let y0 := f32_to_i32 (f32_floor src_y) in
  let x1 := as_i32 (x0 + 1) in
  let y1 := as_i32 (y0 + 1) in
  let fx := f32_sub src_x (f32_of_Z x0) in
  let fy := f32_sub src_y (f32_of_Z y0) in
  p00 ← get_pixel frame c x0 y0;
  p10 ← get_pixel frame c x1 y0;
  p01 ← get_pixel frame c x0 y1;
  p11 ← get_pixel frame c x1 y1;
  let val := f32_add (f32_add (f32_add (f32_mul (f32_mul p00 (f32_sub f32_one fx)) (f32_sub f32_one fy)) (f32_mul (f32_mul p10 fx) (f32_sub f32_one fy)))
                              (f32_mul (f32_mul p01 (f32_sub f32_one fx)) fy)) (f32_mul (f32_mul p11 fx) fy) in
  Some (f32_to_uint 255 (f32_clamp f32_zero (f32_of_Z 255) (f32_round val))).

Definition align_face (frame : Frame) (landmarks : list Point2D) : option (result AlignedFace string) :=
  let '((a, b, tx), (c, d, ty)) := compute_affine_matrix landmarks in
  let det := f32_sub (f32_mul a d) (f32_mul b c) in
  if f32_lt (f32_abs det) f32_tiny then Some (Err "Singular affine matrix")
  else
    let inv_det := f32_div f32_one det in
    let ia := f32_mul d inv_det in
    let ib := f32_mul (f32_neg b) inv_det in
    let ic := f32_mul (f32_neg c) inv_det in
    let id := f32_mul a inv_det in
    let itx := f32_neg (f32_add (f32_mul ia tx) (f32_mul ib ty)) in
    let ity := f32_neg (f32_add (f32_mul ic tx) (f32_mul id ty)) in
    let size := ALIGNED_SIZE in
    rgb ← for_ (Z.to_nat size) 0 (λ out_y, for_ (Z.to_nat size) 0 (λ out_x,
        let src_x := f32_add (f32_add (f32_mul ia (f32_of_Z out_x)) (f32_mul ib (f32_of_Z out_y))) itx in
        let src_y := f32_add (f32_add (f32_mul ic (f32_of_Z out_x)) (f32_mul id (f32_of_Z out_y))) ity in
        for_ 3 0 (λ ch rgb,
          v ← warped frame src_x src_y ch;
          set_at ((out_y * size + out_x) * 3 + ch) v rgb)))
      (replicate (Z.to_nat (size * size * 3)) 0);
    Some (Ok {| al_rgb := rgb; al_width := ALIGNED_SIZE; al_height := ALIGNED_SIZE |}).

(** ** Embedding *)

(** Zero vectors stay as they are. *)
Definition l2_normalize (v : list f32) : list f32 :=
  let norm_sq := f32_sum (map (λ x, f32_mul x x) v) in
  if f32_lt norm_sq f32_tiny then v
  else let norm := f32_sqrt norm_sq in map (λ x, f32_div x norm) v.

Definition embedding_input (aligned : AlignedFace) : option (list f32) :=
  let w := al_width aligned in
  let h := al_height aligned in
  for_ (Z.to_nat h) 0 (λ y, for_ (Z.to_nat w) 0 (λ x, for_ 3 0 (λ c data,
      pixel ← read_f32 (al_rgb aligned) ((y * w + x) * 3 + c);
      set_at (c * h * w + y * w + x) (f32_div (f32_sub pixel (f32_lit 255 2)) (f32_lit 255 2)) data)))
    (replicate (Z.to_nat (3 * h * w)) f32_zero).

(** ** The engine *)

(** A session: from a tensor to its outputs, each of which may be no [f32] tensor; its error comes
    worded, whether the input tensor or the inference failed. *)
Definition Session : Type := list f32 → result (list (result (list f32) string)) string.

Section engine.
Context (det_session emb_session : Session).

Definition extracted (what : string) (outputs : list (result (list f32) string)) (i : nat) : option (result (list f32) string) :=
  map_err (λ e, "Failed to extract " +:+ what +:+ ": " +:+ e) <$> outputs !! i.

(** The detections of one stride. *)
Definition detect_stride (d : FaceDetector) (u : Undo) (outputs : list (result (list f32) string)) (stride_idx : nat) (stride : Z) :
    option (result (list Detection) string) :=
  scores ← extracted "scores tensor" outputs stride_idx;
  match scores with
  | Err e => Some (Err e)
  | Ok scores =>
      bboxes ← extracted "bbox tensor" outputs (stride_idx + 3);
      match bboxes with
      | Err e => Some (Err e)
      | Ok bboxes =>
          kps ← extracted "landmarks tensor" outputs (stride_idx + 6);
          match kps with
          | Err e => Some (Err e)
          | Ok kps =>
              let anchors := generate_anchors (input_height d / stride) (input_width d / stride) in
              match length anchors with
              | O => None
              | num_anchors =>
                  let score_stride := (length scores / num_anchors)%nat in
                  Ok <$> decode_anchors u (confidence_threshold d) (f32_of_Z stride) score_stride scores bboxes kps 0 anchors
              end
          end
      end
  end.

Fixpoint detect_strides (d : FaceDetector) (u : Undo) (outputs : list (result (list f32) string)) (stride_idx : nat) (strides : list Z) :
    option (result (list Detection) string) :=
  match strides with
  | [] => Some (Ok [])
  | s :: rest =>
      r ← detect_stride d u outputs stride_idx s;
      match r with
      | Err e => Some (Err e)
      | Ok ds =>
          r' ← detect_strides d u outputs (S stride_idx) rest;
          Some (let? ds' := r' in Ok (ds ++ ds'))
      end
  end.

Definition detect (d : FaceDetector) (frame : Frame) : option (result (list Detection) string) :=
  x ← letterbox (rgb frame) (width frame) (height frame) (input_width d);
  let '(tensor, scale, pad_x, pad_y) := x in
  match det_session tensor with
  | Err e => Some (Err e)
  | Ok outputs =>
      let u := {| un_scale := scale; un_pad_x := pad_x; un_pad_y := pad_y; un_width := width frame; un_height := height frame |} in
      r ← detect_strides d u outputs 0 STRIDES;
      match r with
      | Err e => Some (Err e)
      | Ok detections => Ok <$> nms detections (nms_threshold d)
      end
  end.

Definition embed (aligned : AlignedFace) : option (result FaceEmbedding string) :=
  data ← embedding_input aligned;
  match emb_session data with
  | Err e => Some (Err e)
  | Ok outputs =>
      o ← extracted "embedding" outputs 0;
      match o with
      | Err e => Some (Err e)
      | Ok embedding_data =>
          embedding ← mapM (λ i, embedding_data !! i) (seq 0 512);
          Some (Ok (l2_normalize embedding))
      end
  end.

(** The faces in turn, through the guard; what it frees, in the end also what it holds when a
    face fails. *)
Fixpoint embed_all (frame : Frame) (guarded : vec (Detection * FaceEmbedding)) (freed : list (list (Detection * FaceEmbedding)))
    (detections : list Detection) : option (result (list (Detection * FaceEmbedding)) string * list (list (Detection * FaceEmbedding))) :=
  match detections with
  | [] => Some (Ok (elems guarded), freed)
  | det :: rest =>
      let fail e := Some (Err e, freed ++ [wiped_drop guarded]) in
      aligned ← align_face frame (landmarks det);
      match aligned with
      | Err e => fail e
      | Ok aligned =>
          embedding ← embed aligned;
          match embedding with
          | Err e => fail e
          | Ok embedding =>
              let '(guarded, f) := wiped_push guarded (det, embedding) in
              embed_all frame guarded (freed ++ f) rest
          end
      end
  end.

Definition process (d : FaceDetector) (frame : Frame) :
    option (result (list (Detection * FaceEmbedding)) string * list (list (Detection * FaceEmbedding))) :=
  r ← detect d frame;
  match r with
  | Err e => Some (Err e, [])
  | Ok detections => embed_all frame (wiped_with_capacity (length detections)) [] detections
  end.
End engine.
