(* ===== verification/FaceProofs.v ===== *)
(** * FaceProofs: what the face engine makes of a frame

    Non-maximum suppression keeps the best of what overlaps; the letterbox, the alignment and the
    embedding index their images inside, whatever numbers the networks answer with. *)

From Stdlib Require Import Sorted Permutation.
From stdpp Require Import sorting sets.
From S2P Require Import Prelude Float32 Rounding Types Gates Sealing DeviceBinding Config Quirks Capture CaptureProofs Face.

(** ** Comparisons *)
Lemma SFcompare_swap x y : SFcompare y x = CompOpp <$> SFcompare x y.
Proof.
  destruct x as [[]|[]| |[] m e], y as [[]|[]| |[] m' e']; cbn; try done; rewrite (Z.compare_antisym e e');
    (destruct (e ?= e'); cbn; try done; change (Pos.compare_cont Eq m m') with (m ?= m')%positive;
     change (Pos.compare_cont Eq m' m) with (m' ?= m)%positive; rewrite (Pos.compare_antisym m m'); by destruct (m ?= m')%positive).
Qed.

Lemma SFcompare_nan x y : SFcompare x y = None → f32_is_nan x = true ∨ f32_is_nan y = true.
Proof. destruct x as [[]|[]| |[] m e], y as [[]|[]| |[] m' e']; cbn; try done; auto; destruct (e ?= e'); done. Qed.

(** The order of what is not NaN, on a key. *)
Definition sf_key (x : f32) : Z * Z * Z :=
  match x with
  | S754_infinity s => (if s then -2 else 2, 0, 0)
  | S754_finite s m e => if s then (-1, - e, - Zpos m) else (1, e, Zpos m)
  | _ => (0, 0, 0)
  end.

Definition key_le (a b : Z * Z * Z) : Prop :=
  let '(a1, a2, a3) := a in let '(b1, b2, b3) := b in a1 < b1 ∨ a1 = b1 ∧ (a2 < b2 ∨ a2 = b2 ∧ a3 <= b3).

Lemma f32_le_key x y : f32_is_nan x = false → f32_is_nan y = false → f32_le x y = true ↔ key_le (sf_key x) (sf_key y).
Proof.
  unfold f32_le, SFleb. destruct x as [[]|[]| |[] m e], y as [[]|[]| |[] m' e']; intros Hx Hy; try done; cbn; try (split; [lia|done]);
    try (split; [done|lia]); change (Pos.compare_cont Eq m m') with (m ?= m')%positive;
    destruct (Z.compare_spec e e') as [<-| |], (Pos.compare_spec m m') as [<-| |]; cbn; (split; intros ?; try done; lia).
Qed.

Lemma f32_le_keytrans x y z : f32_le x y = true → f32_le y z = true → f32_le x z = true.
Proof.
  intros H1 H2. destruct (f32_le_not_nan _ _ H1) as [Hx Hy], (f32_le_not_nan _ _ H2) as [_ Hz].
  rewrite f32_le_key in * by done. destruct (sf_key x) as [[]], (sf_key y) as [[]], (sf_key z) as [[]]; cbn in *. lia.
Qed.

Lemma f32_not_lt_le_any x y : f32_is_nan x = false → f32_is_nan y = false → f32_lt x y = false → f32_le y x = true.
Proof.
  unfold f32_lt, f32_le, SFltb, SFleb. intros Hx Hy. rewrite (SFcompare_swap x y). destruct (SFcompare x y) as [[]|] eqn:E; try done.
  apply SFcompare_nan in E as [E|E]; congruence.
Qed.

(** ** Non-maximum suppression *)

(** [a] may stand before [b]. *)
Definition before (a b : Detection) : Prop := by_confidence a b ≠ Gt.

Lemma before_le a b : f32_is_nan (confidence a) = false → f32_is_nan (confidence b) = false →
  before a b ↔ f32_le (confidence b) (confidence a) = true.
Proof.
  unfold before, by_confidence, f32_le, SFleb. intros Ha Hb. destruct (SFcompare _ _) as [[]|] eqn:E; cbn; try done.
  apply SFcompare_nan in E as [E|E]; congruence.
Qed.

Lemma before_total a b : before a b ∨ before b a.
Proof.
  unfold before, by_confidence. rewrite (SFcompare_swap (confidence b) (confidence a)). destruct (SFcompare _ _) as [[]|]; cbn; auto.
Qed.

(** Over an orderly list the comparison is transitive. *)
Lemma before_trans l a b c : orderly l = true → a ∈ l → b ∈ l → c ∈ l → before a b → before b c → before a c.
Proof.
  intros Ho Ha Hb Hc. unfold orderly in Ho. apply orb_true_iff in Ho as [Hn|He].
  - rewrite forallb_forall in Hn. setoid_rewrite negb_true_iff in Hn.
    rewrite !before_le by (apply Hn; by apply list_elem_of_In). intros H1 H2. by eapply f32_le_keytrans.
  - rewrite forallb_forall in He. intros _ _. specialize (He a ltac:(by apply list_elem_of_In)). rewrite forallb_forall in He.
    specialize (He c ltac:(by apply list_elem_of_In)). unfold before. by destruct (by_confidence a c).
Qed.

Lemma insert_permutation x l : insert_detection x l ≡ₚ x :: l.
Proof. induction l as [|y l IH]; cbn; [done|]. destruct (by_confidence x y); [done..|]. rewrite IH. constructor. Qed.

Lemma sorted_permutation l : foldr insert_detection [] l ≡ₚ l.
Proof. induction l as [|x l IH]; cbn; [done|]. by rewrite insert_permutation, IH. Qed.

Lemma insert_sorted all x l : orderly all = true → (∀ d, d ∈ x :: l → d ∈ all) → StronglySorted before l → StronglySorted before (insert_detection x l).
Proof.
  intros Ho. induction l as [|y l IH]; intros Hin Hs; cbn; [by repeat constructor|].
  apply StronglySorted_inv in Hs as [Hs Hy]. destruct (by_confidence x y) eqn:E.
  3: { constructor; [apply IH; [set_solver|done]|]. rewrite insert_permutation. constructor; [|done].
       destruct (before_total x y) as [Hb|Hb]; [by unfold before in Hb; rewrite E in Hb|done]. }
  all: assert (before x y) as Hxy by (by unfold before; rewrite E); constructor; [by constructor|constructor; [done|]];
    rewrite Forall_forall in Hy |- *; intros d Hd; apply (before_trans all x y d); set_solver.
Qed.

Lemma sort_spec l s : sort_detections l = Some s → s ≡ₚ l ∧ StronglySorted before s.
Proof.
  unfold sort_detections. destruct (orderly l) eqn:Ho; [|done]. intros [= <-]. split; [apply sorted_permutation|].
  assert (∀ l', (∀ d, d ∈ l' → d ∈ l) → StronglySorted before (foldr insert_detection [] l')) as Hall; [|by apply Hall].
  induction l' as [|x l' IH]; intros Hin; cbn; [constructor|]. apply (insert_sorted l); [done| |apply IH; set_solver].
  intros d Hd. apply Hin. rewrite sorted_permutation in Hd. done.
Qed.

Lemma StronglySorted_sublist {A} (R : A → A → Prop) l k : l `sublist_of` k → StronglySorted R k → StronglySorted R l.
Proof.
  induction 1 as [|x l k Hsub IH|x l k Hsub IH]; [done|..]; intros [Hs Hx]%StronglySorted_inv; [|by apply IH].
  constructor; [by apply IH|]. rewrite Forall_forall in Hx |- *. intros d Hd. apply Hx. by eapply sublist_subseteq.
Qed.

(** A box overlaps another too much. *)
Definition overlaps (threshold : f32) (a b : Detection) : Prop := f32_gt (compute_iou (bbox a) (bbox b)) threshold = true.

Lemma suppress_sublist t keep l : suppress t keep l `sublist_of` l.
Proof.
  revert keep. induction l as [|d l IH]; intros keep; cbn; [done|]. destruct (existsb _ _); [by apply sublist_cons, IH|by apply sublist_skip, IH].
Qed.

Lemma suppress_spec t kept l : 
  ∀ d, d ∈ suppress t (map bbox kept) l → Forall (λ k, ¬ overlaps t d k) kept.
Proof.
  revert kept. induction l as [|x l IH]; intros kept d; cbn; [set_solver|]. destruct (existsb _ _) eqn:Ee; [by apply IH|].
  replace (map bbox kept ++ [bbox x]) with (map bbox (kept ++ [x])) by (by rewrite map_app).
  intros [->|Hd]%elem_of_cons; [|by apply IH, Forall_app in Hd as [? _]].
  rewrite Forall_forall. intros k Hk Ho. apply not_true_iff_false in Ee. apply Ee, existsb_exists. exists (bbox k).
  split; [|done]. apply in_map. by apply list_elem_of_In.
Qed.

Lemma suppress_pairwise t kept l : StronglySorted (λ a b, ¬ overlaps t b a) (suppress t (map bbox kept) l).
Proof.
  revert kept. induction l as [|x l IH]; intros kept; cbn; [constructor|]. destruct (existsb _ _); [apply IH|].
  replace (map bbox kept ++ [bbox x]) with (map bbox (kept ++ [x])) by (by rewrite map_app). constructor; [apply IH|].
  rewrite Forall_forall. intros d Hd%suppress_spec. apply Forall_app in Hd as [_ Hd]. exact (Forall_inv Hd).
Qed.

(** What is dropped overlaps something that was kept before it. *)
Lemma suppress_dropped t kept l : StronglySorted before l → Forall (λ k, Forall (before k) l) kept →
  ∀ d, d ∈ l → d ∈ suppress t (map bbox kept) l ∨ ∃ k, (k ∈ kept ∨ k ∈ suppress t (map bbox kept) l) ∧ before k d ∧ overlaps t d k.
Proof.
  revert kept. induction l as [|x l IH]; intros kept Hs Hk d Hd; [set_solver|]. apply StronglySorted_inv in Hs as [Hs Hx]. cbn.
  assert (Forall (λ k, Forall (before k) l) kept) as Hk' by (eapply Forall_impl; [done|]; intros k Hz; exact (Forall_inv_tail Hz)).
  destruct (existsb _ _) eqn:Ee.
  - apply elem_of_cons in Hd as [->|Hd]; [|by apply IH]. right. apply existsb_exists in Ee as (b & Hb & Ho).
    apply in_map_iff in Hb as (k & <- & Hin). apply list_elem_of_In in Hin. exists k. split; [by left|]. split; [|done].
    rewrite Forall_forall in Hk. specialize (Hk k Hin). by apply Forall_inv in Hk.
  - replace (map bbox kept ++ [bbox x]) with (map bbox (kept ++ [x])) by (by rewrite map_app).
    apply elem_of_cons in Hd as [->|Hd]; [left; constructor|].
    destruct (IH (kept ++ [x]) Hs) with (d := d) as [Hin|(k & Hin & Hbo)]; [apply Forall_app; split; [done|by constructor]|done|left; by constructor|].
    right. exists k. split; [|done]. destruct Hin as [[Hin|Hin%list_elem_of_singleton]%elem_of_app|Hin]; [by left|subst; right; constructor|right; by constructor].
Qed.

(** C29.  Suppression keeps the best of what overlaps. Where the confidences can be ordered it does
    not panic; what it keeps is part of what was found, in the order of the confidences, with no box
    over another one that it keeps by more than the threshold; everything it drops lies over a kept
    detection of at least its confidence; and something is left of what was not empty. Where some
    confidences are NaN, and others differ, the order it sorts by is none. *)
Theorem nms_is_greedy detections threshold :
  (orderly detections = false ∧ nms detections threshold = None) ∨
  ∃ kept, nms detections threshold = Some kept ∧ (∀ d, d ∈ kept → d ∈ detections) ∧ StronglySorted before kept ∧
    StronglySorted (λ a b, ¬ overlaps threshold b a) kept ∧ (length kept <= length detections)%nat ∧
    (∀ d, d ∈ detections → d ∈ kept ∨ ∃ k, k ∈ kept ∧ before k d ∧ overlaps threshold d k) ∧
    (detections ≠ [] → kept ≠ []).
Proof.
  unfold nms. destruct (sort_detections detections) as [s|] eqn:Es.
  - right. apply sort_spec in Es as [Hp Hs]. exists (suppress threshold (map bbox []) s). cbn [fmap option_fmap option_map].
    pose proof (suppress_sublist threshold (map bbox []) s) as Hsub. split_and!; [done| | | | | |].
    + intros d Hd. rewrite <- Hp. by eapply sublist_subseteq.
    + by eapply StronglySorted_sublist.
    + apply suppress_pairwise.
    + apply sublist_length in Hsub. apply Permutation_length in Hp. lia.
    + intros d Hd. rewrite <- Hp in Hd. destruct (suppress_dropped threshold [] s Hs ltac:(constructor) d Hd) as [|(k & [Hk|Hk] & ?)]; [by left|set_solver|right; by exists k].
    + intros Hn. destruct s as [|d s]; [|done]. by apply Permutation_nil_l in Hp.
  - left. split; [|done]. unfold sort_detections in Es. by destruct (orderly detections).
Qed.

(** ** Places in the frame *)

(** The image fits the square it is scaled into. *)
Lemma fitted_min t w h : 0 < t < 2 ^ 24 → 0 < w < 2 ^ 24 → 0 < h < 2 ^ 24 →
  let s := f32_min (f32_div (f32_of_Z t) (f32_of_Z w)) (f32_div (f32_of_Z t) (f32_of_Z h)) in
  ∃ m e, s = S754_finite false m e ∧ normal m e ∧ w * scaled (Zpos m) e * 2 ^ 23 <= t * 2 ^ 2000 * (2 ^ 23 + 1) ∧
    h * scaled (Zpos m) e * 2 ^ 23 <= t * 2 ^ 2000 * (2 ^ 23 + 1).
Proof.
  intros Ht Hw Hh. destruct (div_close t w Ht Hw) as (m1 & e1 & -> & Hn1 & H1), (div_close t h Ht Hh) as (m2 & e2 & -> & Hn2 & H2).
  unfold f32_min. cbn [f32_is_nan]. destruct (f32_lt (S754_finite false m2 e2) (S754_finite false m1 e1)) eqn:El.
  - exists m2, e2. split_and!; [done|done| |done]. apply lt_scaled in El; [|done..]. nia.
  - exists m1, e1. split_and!; [done|done|done|]. destruct (f32_lt (S754_finite false m1 e1) (S754_finite false m2 e2)) eqn:El2.
    + apply lt_scaled in El2; [|done..]. nia.
    + assert (m1 = m2 ∧ e1 = e2) as [-> ->]; [|done]. revert El El2. unfold f32_lt, SFltb. cbn [SFcompare].
      destruct (Z.compare_spec e2 e1) as [<-| |]; [|done|destruct (Z.compare_spec e1 e2); [lia|done|lia]].
      rewrite Z.compare_refl. change (Pos.compare_cont Eq m2 m1) with (m2 ?= m1)%positive. change (Pos.compare_cont Eq m1 m2) with (m1 ?= m2)%positive.
      destruct (Pos.compare_spec m2 m1) as [<-| |]; [done|done|]. destruct (Pos.compare_spec m1 m2); try done; lia.
Qed.

Lemma round_fits x m e t : x = S754_finite false m e → -2000 <= e → 0 <= t < 2 ^ 23 → 2 * scaled (Zpos m) e < (2 * t + 1) * 2 ^ 2000 →
  0 <= f32_to_uint u32_max (f32_round x) <= t.
Proof.
  intros -> He Ht Hs. cbn [f32_round]. destruct (Z.leb_spec 0 e) as [H0|H0].
  - rewrite to_uint_scaled by done. assert (0 <= scaled (Zpos m) e) by (unfold scaled; apply Z.mul_nonneg_nonneg; [lia|by apply Z.pow_nonneg]).
    assert (0 < 2 ^ 2000) by (apply Z.pow_pos_nonneg; lia).
    assert (scaled (Zpos m) e = Zpos m * 2 ^ e * 2 ^ 2000) as Es by (unfold scaled; rewrite Z.pow_add_r by lia; lia). rewrite Es in Hs |- *.
    assert (0 < 2 ^ e) by (apply Z.pow_pos_nonneg; lia). assert (Zpos m * 2 ^ e <= t) by nia. rewrite Z.div_mul by lia. unfold u32_max. lia.
  - set (k := - e) in *. assert (0 < 2 ^ k) by (apply Z.pow_pos_nonneg; lia).
    assert (2 ^ 2000 = 2 ^ k * 2 ^ (e + 2000)) as Ek by (rewrite <- Z.pow_add_r by lia; f_equal; lia).
    assert (2 * Zpos m < (2 * t + 1) * 2 ^ k) as Hm.
    { unfold scaled in Hs. rewrite Ek in Hs. assert (0 < 2 ^ (e + 2000)) by (apply Z.pow_pos_nonneg; lia). nia. }
    assert (0 <= (2 * Zpos m + 2 ^ k) / (2 * 2 ^ k) <= t) as Hq.
    { split; [apply Z.div_pos; lia|]. assert ((2 * Zpos m + 2 ^ k) / (2 * 2 ^ k) < t + 1); [|lia]. apply Z.div_lt_upper_bound; lia. }
    destruct (Z.eqb_spec ((2 * Zpos m + 2 ^ k) / (2 * 2 ^ k)) 0); [cbn; lia|]. rewrite to_uint_of_Z; lia.
Qed.

Lemma fits a t m e : 0 < a < 2 ^ 24 → 0 < t < 2 ^ 16 → normal m e → a * scaled (Zpos m) e * 2 ^ 23 <= t * 2 ^ 2000 * (2 ^ 23 + 1) →
  0 <= f32_to_uint u32_max (f32_round (f32_mul (f32_of_Z a) (S754_finite false m e))) <= t.
Proof.
  intros Ha Ht Hn Hs. destruct (mul_close a m e Ha Hn) as (m' & e' & -> & He & Hm). eapply round_fits; [done|lia|lia|].
  pose proof (two_errors a a _ _ t ltac:(lia) Hs Hm ltac:(lia)) as H2. assert (0 < 2 ^ 2000) by (apply Z.pow_pos_nonneg; lia).
  set (U := 2 ^ 2000) in *. set (s := scaled (Zpos m') e') in *. clearbody U s. nia.
Qed.

(** The place of a pixel of the scaled image lies in the image. *)
Lemma source_inside w n d limit : 0 < w < 2 ^ 24 → 0 < n < 2 ^ 16 → 0 <= d < n → limit = w - 1 →
  let '(p0, p1, _) := source_of d (f32_div (f32_of_Z w) (f32_of_Z n)) limit in 0 <= p0 < w ∧ 0 <= p1 < w.
Proof.
  intros Hw Hn Hd ->. unfold source_of. destruct (div_close w n Hw ltac:(lia)) as (m & e & -> & Hnm & Hs).
  assert (0 <= f32_to_uint u32_max (f32_floor (f32_mul (f32_of_Z d) (S754_finite false m e))) < w) as Hp.
  { destruct (decide (d = 0)) as [->|Hn0]; [cbn; lia|]. destruct (mul_close d m e ltac:(lia) Hnm) as (m' & e' & -> & He & Hm).
    pose proof (two_errors d n _ _ w ltac:(lia) Hs Hm ltac:(lia)) as H2. assert (0 < 2 ^ 2000) by (apply Z.pow_pos_nonneg; lia).
    assert (scaled (Zpos m') e' < w * 2 ^ 2000) as Hlt.
    { set (U := 2 ^ 2000) in *. set (s := scaled (Zpos m') e') in *. clearbody U s.
      assert (d * (w * U) * (2 ^ 23 + 1) ^ 2 < n * (w * U) * 2 ^ 46) by nia. nia. }
    pose proof (integer_part_below m' e' w ltac:(lia) ltac:(lia) Hlt) as Hi. cbn [f32_floor]. destruct (Z.leb_spec 0 e').
    - cbn [f32_to_uint]. destruct (Z.leb_spec 0 e'); [|lia]. unfold u32_max. lia.
    - rewrite to_uint_of_Z; lia. }
  unfold as_u32. rewrite (Z.mod_small (_ + 1)) by lia. lia.
Qed.

(** ** The letterbox *)
Lemma for_total {S} (P : S → Prop) (body : Z → S → option S) n i s :
  (∀ j s, i <= j < i + Z.of_nat n → P s → ∃ s', body j s = Some s' ∧ P s') → P s → ∃ s', for_ n i body s = Some s' ∧ P s'.
Proof.
  revert i s. induction n as [|n IH]; intros i s Hb Hs; [by exists s|]. destruct (Hb i s ltac:(lia) Hs) as (s1 & E1 & H1). cbn [for_]. rewrite E1. cbn [mbind option_bind].
  apply IH; [|done]. intros j s' Hj. apply Hb. lia.
Qed.

Lemma set_at_total {A} i (v : A) l : 0 <= i < Z.of_nat (length l) → ∃ l', set_at i v l = Some l' ∧ length l' = length l.
Proof. intros Hi. unfold set_at. destruct (Nat.ltb_spec (Z.to_nat i) (length l)); [|lia]. eexists. split; [done|]. apply length_insert. Qed.

Lemma read_total data i : 0 <= i < Z.of_nat (length data) → ∃ x, read_f32 data i = Some x.
Proof. intros Hi. unfold read_f32. destruct (lookup_lt_is_Some_2 data (Z.to_nat i)) as [p ->]; [lia|]. by eexists. Qed.

(** A frame whose image has three bytes for each pixel. *)
Definition whole (data : list Z) (w h : Z) : Prop := 0 < w < 2 ^ 24 ∧ 0 < h < 2 ^ 24 ∧ Z.of_nat (length data) = 3 * w * h.

Lemma index_inside data w h x y c : whole data w h → 0 <= x < w → 0 <= y < h → 0 <= c < 3 →
  0 <= as_usize (as_usize ((as_usize (y * w) + x) * 3) + c) < Z.of_nat (length data).
Proof.
  intros (Hw & Hh & Hl) Hx Hy Hc. unfold as_usize. assert (0 <= y * w <= (2 ^ 24 - 1) * (2 ^ 24 - 1)) by nia.
  assert (y * w + x < w * h) by nia. rewrite (Z.mod_small (y * w)) by lia. rewrite (Z.mod_small ((y * w + x) * 3)) by lia.
  rewrite Z.mod_small by lia. nia.
Qed.

Lemma blend_total data w h x0 x1 y0 y1 fx fy c : whole data w h → 0 <= x0 < w → 0 <= x1 < w → 0 <= y0 < h → 0 <= y1 < h → 0 <= c < 3 →
  ∃ v, blend data (as_usize (y0 * w)) (as_usize (y1 * w)) x0 x1 fx fy c = Some v.
Proof.
  intros Hw Hx0 Hx1 Hy0 Hy1 Hc. unfold blend. cbv zeta.
  destruct (read_total data _ (index_inside data w h x0 y0 c Hw Hx0 Hy0 Hc)) as [? ->].
  destruct (read_total data _ (index_inside data w h x1 y0 c Hw Hx1 Hy0 Hc)) as [? ->].
  destruct (read_total data _ (index_inside data w h x0 y1 c Hw Hx0 Hy1 Hc)) as [? ->].
  destruct (read_total data _ (index_inside data w h x1 y1 c Hw Hx1 Hy1 Hc)) as [? ->]. cbn. by eexists.
Qed.

Lemma half_pad k : 0 <= k < 2 ^ 16 → 0 <= f32_to_uint u32_max (f32_div (f32_of_Z k) (f32_of_Z 2)) <= k.
Proof.
  intros Hk. destruct (decide (k = 0)) as [->|Hn]; [vm_compute; by split|]. destruct (div_close k 2 ltac:(lia) ltac:(lia)) as (m & e & -> & [_ He] & Hs).
  rewrite to_uint_scaled by lia. assert (0 < 2 ^ 2000) by (apply Z.pow_pos_nonneg; lia).
  assert (0 <= scaled (Zpos m) e) by (unfold scaled; apply Z.mul_nonneg_nonneg; [lia|by apply Z.pow_nonneg]).
  assert (scaled (Zpos m) e / 2 ^ 2000 < k + 1) by (apply Z.div_lt_upper_bound; [done|]; set (U := 2 ^ 2000) in *; clearbody U; nia).
  assert (0 <= scaled (Zpos m) e / 2 ^ 2000) by (apply Z.div_pos; lia). unfold u32_max. lia.
Qed.

Lemma pixel_total data w h t new_w pad out_y y0 y1 fy dx output : whole data w h → 0 < t < 2 ^ 16 → 0 < new_w <= t → 0 <= dx < new_w →
  0 <= pad <= t - new_w → 0 <= out_y < t → 0 <= y0 < h → 0 <= y1 < h → Z.of_nat (length output) = 3 * t * t →
  ∃ output', letterbox_pixel data (as_u32 (w - 1)) pad t out_y (as_usize (y0 * w)) (as_usize (y1 * w)) (f32_div (f32_of_Z w) (f32_of_Z new_w)) fy dx output = Some output' ∧
    Z.of_nat (length output') = 3 * t * t.
Proof.
  intros Hd Ht Hn Hdx Hpad Hoy Hy0 Hy1 Hl. unfold letterbox_pixel. pose proof Hd as (Hw & Hh & _).
  pose proof (source_inside w new_w dx (as_u32 (w - 1)) Hw ltac:(lia) Hdx ltac:(apply as_u32_id; unfold is_u32; lia)) as Hs.
  destruct (source_of _ _ _) as [[x0 x1] fx]. destruct Hs as [Hx0 Hx1]. cbv zeta.
  rewrite (as_u32_id (dx + pad)) by (unfold is_u32; lia).
  apply (for_total (λ o, Z.of_nat (length o) = 3 * t * t)); [|done]. intros c o Hc Ho.
  destruct (blend_total data w h x0 x1 y0 y1 fx fy c Hd Hx0 Hx1 Hy0 Hy1 ltac:(lia)) as [v ->]. cbn [mbind option_bind].
  destruct (set_at_total (c * (t * t) + (out_y * t + (dx + pad))) (f32_div (f32_sub v (f32_lit 255 2)) (f32_of_Z 128)) o) as (o' & E' & Hl').
  { rewrite Ho. assert (out_y * t + (dx + pad) < t * t) by nia. assert (0 <= out_y * t) by nia. nia. }
  exists o'. split; [exact E'|]. lia.
Qed.

(** The letterbox of a whole frame is a tensor of the size that the network takes. *)
Lemma letterbox_total data w h t : whole data w h → 0 < t < 2 ^ 16 →
  ∃ tensor scale pad_x pad_y, letterbox data w h t = Some (tensor, scale, pad_x, pad_y) ∧ Z.of_nat (length tensor) = 3 * t * t.
Proof.
  intros Hd Ht. pose proof Hd as (Hw & Hh & _). unfold letterbox. cbv zeta.
  destruct (fitted_min t w h ltac:(lia) Hw Hh) as (m & e & Es & Hn & H1 & H2). rewrite Es.
  pose proof (fits w t m e Hw Ht Hn H1) as Hnw. pose proof (fits h t m e Hh Ht Hn H2) as Hnh.
  set (new_w := f32_to_uint u32_max (f32_round (f32_mul (f32_of_Z w) _))) in *. set (new_h := f32_to_uint u32_max (f32_round (f32_mul (f32_of_Z h) _))) in *.
  rewrite !(as_u32_id (t - _)) by (unfold is_u32; lia).
  pose proof (half_pad (t - new_w) ltac:(lia)) as Hpx. pose proof (half_pad (t - new_h) ltac:(lia)) as Hpy.
  set (pad_x := f32_to_uint u32_max (f32_div (f32_of_Z (t - new_w)) _)) in *. set (pad_y := f32_to_uint u32_max (f32_div (f32_of_Z (t - new_h)) _)) in *.
  destruct (for_total (λ o, Z.of_nat (length o) = 3 * t * t)
    (letterbox_row data w new_w (as_u32 (w - 1)) (as_u32 (h - 1)) pad_x pad_y t (f32_div (f32_of_Z w) (f32_of_Z new_w)) (f32_div (f32_of_Z h) (f32_of_Z new_h)))
    (Z.to_nat new_h) 0 (replicate (Z.to_nat (3 * t * t)) f32_zero)) as (out & -> & Hout).
  - intros dy o Hdy Ho. unfold letterbox_row.
    pose proof (source_inside h new_h dy (as_u32 (h - 1)) Hh ltac:(lia) ltac:(lia) ltac:(apply as_u32_id; unfold is_u32; lia)) as Hs.
    destruct (source_of _ _ _) as [[y0 y1] fy]. destruct Hs as [Hy0 Hy1].
    apply (for_total (λ o, Z.of_nat (length o) = 3 * t * t)); [|done]. intros dx o' Hdx Ho'.
    apply (pixel_total data w h); try done; try lia. rewrite as_u32_id by (unfold is_u32; lia). lia.
  - rewrite length_replicate. lia.
  - cbn. by eexists _, _, _, _.
Qed.

(** ** Alignment and embedding *)
Lemma get_pixel_total f c x y : whole (rgb f) (width f) (height f) → 0 <= c < 3 → ∃ v, get_pixel f c x y = Some v.
Proof.
  intros (Hw & Hh & Hl) Hc. unfold get_pixel. destruct (_ && _) eqn:Eb; [|by eexists].
  rewrite !andb_true_iff, !Z.leb_le, !Z.ltb_lt in Eb. destruct Eb as [[[Hx0 Hx] Hy0] Hy].
  assert (∀ z, 0 < z < 2 ^ 24 → as_i32 z = z) as Hi32.
  { intros z Hz. unfold as_i32. rewrite Z.mod_small by lia. destruct (Z.ltb_spec z (2 ^ 31)); lia. }
  rewrite Hi32 in Hx, Hy by done. apply read_total. unfold as_usize.
  assert (0 <= y * width f <= (2 ^ 24 - 1) * (2 ^ 24 - 1)) by nia. rewrite Z.mod_small by lia. rewrite Hl. nia.
Qed.

Lemma warped_total f sx sy c : whole (rgb f) (width f) (height f) → 0 <= c < 3 → ∃ v, warped f sx sy c = Some v ∧ is_byte v.
Proof.
  intros Hf Hc. unfold warped. cbv zeta. set (x0 := f32_to_i32 (f32_floor sx)). set (y0 := f32_to_i32 (f32_floor sy)).
  destruct (get_pixel_total f c x0 y0 Hf Hc) as [? ->], (get_pixel_total f c (as_i32 (x0 + 1)) y0 Hf Hc) as [? ->],
    (get_pixel_total f c x0 (as_i32 (y0 + 1)) Hf Hc) as [? ->], (get_pixel_total f c (as_i32 (x0 + 1)) (as_i32 (y0 + 1)) Hf Hc) as [? ->].
  cbn [mbind option_bind]. eexists. split; [done|]. unfold is_byte. generalize (f32_clamp f32_zero (f32_of_Z 255) (f32_round
    (f32_add (f32_add (f32_add (f32_mul (f32_mul x (f32_sub f32_one (f32_sub sx (f32_of_Z x0)))) (f32_sub f32_one (f32_sub sy (f32_of_Z y0))))
      (f32_mul (f32_mul x1 (f32_sub sx (f32_of_Z x0))) (f32_sub f32_one (f32_sub sy (f32_of_Z y0)))))
      (f32_mul (f32_mul x2 (f32_sub f32_one (f32_sub sx (f32_of_Z x0)))) (f32_sub sy (f32_of_Z y0))))
      (f32_mul (f32_mul x3 (f32_sub sx (f32_of_Z x0))) (f32_sub sy (f32_of_Z y0)))))).
  intros [[]|[]| |[] m e]; cbn; try lia. destruct (0 <=? e); [assert (0 <= Zpos m * 2 ^ e) by (apply Z.mul_nonneg_nonneg; [lia|by apply Z.pow_nonneg])|
    assert (0 <= Zpos m / 2 ^ (- e)) by (apply Z_div_nonneg_nonneg; [lia|by apply Z.pow_nonneg])]; lia.
Qed.

Lemma set_at_bytes i v l l' : set_at i v l = Some l' → is_byte v → Forall is_byte l → Forall is_byte l'.
Proof. unfold set_at. destruct (_ <? _)%nat; [|done]. intros [= <-]. intros. by apply Forall_insert. Qed.

Definition aligned_ok (a : AlignedFace) : Prop :=
  al_width a = 112 ∧ al_height a = 112 ∧ length (al_rgb a) = Z.to_nat (112 * 112 * 3) ∧ Forall is_byte (al_rgb a).

(** Whatever the landmarks, infinite and NaN included. *)
Lemma align_total f lms : whole (rgb f) (width f) (height f) → ∃ r, align_face f lms = Some r ∧ ∀ a, r = Ok a → aligned_ok a.
Proof.
  intros Hf. unfold align_face. destruct (compute_affine_matrix lms) as [[[a b] tx] [[c d] ty]]. cbv zeta.
  destruct (f32_lt _ _); [by eexists; split|]. set (P := λ l : list Z, length l = Z.to_nat (112 * 112 * 3) ∧ Forall is_byte l).
  match goal with |- context [for_ ?n 0 ?body ?s] => destruct (for_total P body n 0 s) as (out & -> & Hout) end.
  - intros y l Hy Hl. apply (for_total P); [|done]. intros x l' Hx Hl'. apply (for_total P); [|done]. intros ch l2 Hch [Hlen Hb].
    edestruct (warped_total f) as (v & -> & Hv); [done| |]. { split; [apply Hch|]. destruct Hch. lia. }
    cbn [mbind option_bind]. unfold ALIGNED_SIZE in *. destruct (set_at_total ((y * 112 + x) * 3 + ch) v l2) as (l3 & E3 & Hl3); [rewrite Hlen; lia|].
    exists l3. split; [done|]. split; [by rewrite Hl3|]. by eapply set_at_bytes.
  - unfold ALIGNED_SIZE. split; [by rewrite length_replicate|]. apply Forall_replicate. unfold is_byte. lia.
  - cbn. eexists. split; [done|]. intros a' [= <-]. by destruct Hout.
Qed.

Lemma embedding_input_total a : aligned_ok a → ∃ data, embedding_input a = Some data ∧ length data = Z.to_nat (3 * 112 * 112).
Proof.
  intros (Hw & Hh & Hl & _). unfold embedding_input. rewrite Hw, Hh. cbv zeta. set (P := λ l : list f32, length l = Z.to_nat (3 * 112 * 112)).
  apply (for_total P); [|unfold P; by rewrite length_replicate]. intros y l Hy Hp. apply (for_total P); [|done]. intros x l' Hx Hp'.
  apply (for_total P); [|done]. intros c l2 Hc Hp2. destruct (read_total (al_rgb a) ((y * 112 + x) * 3 + c)) as [v ->]; [rewrite Hl; lia|].
  cbn [mbind option_bind]. destruct (set_at_total (c * 112 * 112 + y * 112 + x) (f32_div (f32_sub v (f32_lit 255 2)) (f32_lit 255 2)) l2) as (l3 & E3 & Hl3).
  { unfold P in Hp2. rewrite Hp2. lia. }
  exists l3. split; [done|]. unfold P. by rewrite Hl3.
Qed.

(** ** Boxes *)
Definition box_inside (w h : Z) (b : BoundingBox) : Prop :=
  f32_le f32_zero (bbox_x b) = true ∧ f32_le (bbox_x b) (f32_of_Z w) = true ∧ f32_le f32_zero (bbox_width b) = true ∧
  f32_le f32_zero (bbox_y b) = true ∧ f32_le (bbox_y b) (f32_of_Z h) = true ∧ f32_le f32_zero (bbox_height b) = true.

Lemma max_zero_nonneg x : f32_le f32_zero (f32_max x f32_zero) = true.
Proof. by destruct x as [[]|[]| |[] m e]. Qed.

Lemma clamped_inside limit x : 0 < limit < 2 ^ 24 → f32_le f32_zero (clamped limit x) = true ∧ f32_le (clamped limit x) (f32_of_Z limit) = true.
Proof.
  intros Hl. unfold clamped. pose proof (max_zero_nonneg x) as Hm. destruct (f32_le_not_nan _ _ Hm) as [_ Hn]. set (m := f32_max x f32_zero) in *.
  destruct (f32_of_Z_normal limit Hl) as (ml & el & -> & _ & _). unfold f32_min. rewrite Hn. cbn [f32_is_nan].
  destruct (f32_lt (S754_finite false ml el) m) eqn:El; [split; [done|]|split; [done|]].
  - apply f32_not_lt_le_any; [done..|]. unfold f32_lt, SFltb. cbn [SFcompare]. rewrite Z.compare_refl. change (Pos.compare_cont Eq ml ml) with (ml ?= ml)%positive.
    by rewrite Pos.compare_refl.
  - by apply f32_not_lt_le_any.
Qed.

Lemma decode_box_inside u stride a bboxes i : 0 < un_width u < 2 ^ 24 → 0 < un_height u < 2 ^ 24 → (i + 3 < length bboxes)%nat →
  ∃ b, decode_box u stride a bboxes i = Some b ∧ box_inside (un_width u) (un_height u) b.
Proof.
  intros Hw Hh Hi. unfold decode_box.
  destruct (lookup_lt_is_Some_2 bboxes i) as [b0 ->]; [lia|]. destruct (lookup_lt_is_Some_2 bboxes (i + 1)) as [b1 ->]; [lia|].
  destruct (lookup_lt_is_Some_2 bboxes (i + 2)) as [b2 ->]; [lia|]. destruct (lookup_lt_is_Some_2 bboxes (i + 3)) as [b3 ->]; [lia|].
  cbn [mbind option_bind]. cbv zeta. eexists. split; [done|]. unfold box_inside. cbn [bbox_x bbox_y bbox_width bbox_height].
  split_and!; try (by apply clamped_inside); apply max_zero_nonneg.
Qed.

Lemma decode_landmarks_total u stride a data i : (i + 9 < length data)%nat → is_Some (decode_landmarks u stride a data i).
Proof.
  intros Hi. unfold decode_landmarks. apply mapM_is_Some_2. rewrite Forall_forall. intros j Hj%elem_of_seq. unfold compose. cbv beta.
  destruct (lookup_lt_is_Some_2 data (i + j * 2)) as [lx ->]; [lia|]. destruct (lookup_lt_is_Some_2 data (i + j * 2 + 1)) as [ly ->]; [lia|]. by eexists.
Qed.

(** What is found in a stride: boxes inside the frame, with scores of the network. *)
Definition sound (w h : Z) (d : Detection) : Prop := box_inside w h (bbox d) ∧ f32_is_nan (confidence d) = false.

Lemma decode_anchors_total u threshold stride ss scores bboxes kps : 0 < un_width u < 2 ^ 24 → 0 < un_height u < 2 ^ 24 →
  Forall (λ x, f32_is_nan x = false) scores → ∀ anchors i,
  (∀ j, (i <= j < i + length anchors)%nat → j * ss < length scores ∧ j * 4 + 3 < length bboxes ∧ j * 10 + 9 < length kps)%nat →
  ∃ ds, decode_anchors u threshold stride ss scores bboxes kps i anchors = Some ds ∧ Forall (sound (un_width u) (un_height u)) ds.
Proof.
  intros Hw Hh Hs. induction anchors as [|a rest IH]; intros i Hi; [by exists []|]. cbn [decode_anchors length] in *.
  assert (∃ ds, decode_anchor u threshold stride ss scores bboxes kps i a = Some ds ∧ Forall (sound (un_width u) (un_height u)) ds) as (d & -> & Hd).
  { destruct (Hi i ltac:(lia)) as (H1 & H2 & H3). unfold decode_anchor. destruct (lookup_lt_is_Some_2 scores (i * ss)) as [score Es]; [lia|]. rewrite Es.
    cbn [mbind option_bind]. destruct (f32_lt _ _); [by exists []|]. destruct (decode_box_inside u stride a bboxes (i * 4) Hw Hh ltac:(lia)) as (b & -> & Hb).
    destruct (decode_landmarks_total u stride a kps (i * 10) ltac:(lia)) as [lms ->]. cbn. eexists. split; [done|]. constructor; [|done].
    split; [done|]. by apply (Forall_lookup_1 _ _ _ _ Hs Es). }
  cbn [mbind option_bind]. destruct (IH (S i)) as (ds & -> & Hds); [intros j Hj; apply Hi; lia|]. cbn. eexists. split; [done|]. by apply Forall_app.
Qed.

(** ** What the networks answer *)

(** The outputs of the detector: at least one score, none of them NaN, and four and ten numbers for
    each anchor; any of the outputs may fail to be a tensor. *)
Definition answers (n : nat) (good : list f32 → Prop) (outputs : list (result (list f32) string)) (i : nat) : Prop :=
  ∃ r, outputs !! i = Some r ∧ ∀ v, r = Ok v → (n <= length v)%nat ∧ good v.

Definition no_nan (v : list f32) : Prop := Forall (λ x, f32_is_nan x = false) v.

Definition detector_answers (outputs : list (result (list f32) string)) : Prop :=
  ∀ k stride, STRIDES !! k = Some stride → let n := Z.to_nat (2 * (640 / stride) * (640 / stride)) in
    answers 1 no_nan outputs k ∧ answers (4 * n) (λ _, True) outputs (k + 3) ∧ answers (10 * n) (λ _, True) outputs (k + 6).

Lemma concat_const_length {A B} (f : A → list B) n l : (∀ x, length (f x) = n) → length (concat (map f l)) = (n * length l)%nat.
Proof. intros Hf. induction l as [|x l IH]; cbn; [lia|]. rewrite length_app, Hf, IH. lia. Qed.

Lemma anchors_length h w : length (generate_anchors h w) = (2 * Z.to_nat w * Z.to_nat h)%nat.
Proof.
  unfold generate_anchors. rewrite (concat_const_length _ (2 * Z.to_nat w)%nat); [by rewrite length_seq|].
  intros y. rewrite (concat_const_length _ 2%nat); [by rewrite length_seq|done].
Qed.

Lemma extracted_total what n good outputs i : answers n good outputs i → ∃ r, extracted what outputs i = Some r ∧ ∀ v, r = Ok v → (n <= length v)%nat ∧ good v.
Proof. intros (r & Hr & Hv). unfold extracted. rewrite Hr. cbn. eexists. split; [done|]. intros v. destruct r as [x|e]; [intros [= <-]; by apply Hv|done]. Qed.

Lemma stride_total c n u outputs k stride : detector_answers outputs → STRIDES !! k = Some stride → 0 < un_width u < 2 ^ 24 → 0 < un_height u < 2 ^ 24 →
  ∃ r, detect_stride (detector_load c n) u outputs k stride = Some r ∧ ∀ ds, r = Ok ds → Forall (sound (un_width u) (un_height u)) ds.
Proof.
  intros Ho Hk Hw Hh. destruct (Ho k stride Hk) as (H1 & H2 & H3). unfold detect_stride.
  destruct (extracted_total "scores tensor" _ _ _ _ H1) as ([scores|e] & -> & Hs); [|by eexists; split]. cbn [mbind option_bind].
  destruct (extracted_total "bbox tensor" _ _ _ _ H2) as ([bboxes|e] & -> & Hb); [|by eexists; split]. cbn [mbind option_bind].
  destruct (extracted_total "landmarks tensor" _ _ _ _ H3) as ([kps|e] & -> & Hl); [|by eexists; split]. cbn [mbind option_bind]. cbv zeta.
  destruct (Hs _ eq_refl) as [Hs1 Hs2], (Hb _ eq_refl) as [Hb1 _], (Hl _ eq_refl) as [Hl1 _]. cbn [input_width input_height detector_load].
  pose proof (anchors_length (640 / stride) (640 / stride)) as Hal. set (anchors := generate_anchors (640 / stride) (640 / stride)) in *.
  assert (0 < 640 / stride <= 80) as Hd by (destruct k as [|[|[|k]]]; cbn in Hk; try discriminate Hk; injection Hk as <-; vm_compute; split; congruence).
  assert (length anchors = Z.to_nat (2 * (640 / stride) * (640 / stride))) as Hn by (rewrite Hal; lia). rewrite <- Hn in Hb1, Hl1.
  assert (0 < length anchors)%nat as Hpos by nia. destruct (length anchors) as [|N] eqn:EN; [lia|].
  destruct (decode_anchors_total u (confidence_threshold (detector_load c n)) (f32_of_Z stride) (length scores / S N) scores bboxes kps Hw Hh Hs2 anchors 0) as (ds & -> & Hds).
  - intros j Hj. rewrite EN in Hj. pose proof (Nat.Div0.mul_div_le (length scores) (S N)). split_and!; [|lia..].
    destruct (length scores / S N)%nat as [|q]; [lia|]. nia.
  - cbn. eexists. split; [done|]. by intros ? [= <-].
Qed.

Lemma strides_total c n u outputs : detector_answers outputs → 0 < un_width u < 2 ^ 24 → 0 < un_height u < 2 ^ 24 →
  ∃ r, detect_strides (detector_load c n) u outputs 0 STRIDES = Some r ∧ ∀ ds, r = Ok ds → Forall (sound (un_width u) (un_height u)) ds.
Proof.
  intros Ho Hw Hh. assert (∀ l k, (∀ j s, l !! j = Some s → STRIDES !! (k + j)%nat = Some s) →
    ∃ r, detect_strides (detector_load c n) u outputs k l = Some r ∧ ∀ ds, r = Ok ds → Forall (sound (un_width u) (un_height u)) ds) as Hall;
    [|apply Hall; by intros j s]. induction l as [|s l IH]; intros k Hl; cbn [detect_strides]; [eexists; split; [done|]; by intros ? [= <-]|].
  destruct (stride_total c n u outputs k s Ho) as ([ds|e] & -> & Hds); [rewrite <- (Nat.add_0_r k); by apply Hl|done..| |by eexists; split].
  cbn [mbind option_bind]. destruct (IH (S k)) as (r' & -> & Hr'); [intros j s' Hj; rewrite Nat.add_succ_comm; by apply Hl|]. cbn [mbind option_bind].
  eexists. split; [done|]. intros out. destruct r' as [ds'|e]; [|done]. intros [= <-]. apply Forall_app. split; [by apply Hds|by apply Hr'].
Qed.

(** The embedding network answers with 512 numbers, where it answers with a tensor. *)
Definition embedder_answers (s : Session) : Prop := ∀ t outputs, s t = Ok outputs → answers 512 (λ _, True) outputs 0.

Lemma l2_length v : length (l2_normalize v) = length v.
Proof. unfold l2_normalize. destruct (f32_lt _ _); [done|]. apply length_map. Qed.

Lemma embed_total emb a : embedder_answers emb → aligned_ok a → ∃ r, embed emb a = Some r ∧ ∀ e, r = Ok e → length e = 512%nat.
Proof.
  intros He Ha. unfold embed. destruct (embedding_input_total a Ha) as (data & -> & _). cbn [mbind option_bind].
  destruct (emb data) as [outputs|e] eqn:Eo; [|by eexists; split].
  destruct (extracted_total "embedding" _ _ _ _ (He _ _ Eo)) as ([v|e] & -> & Hv); [|by eexists; split]. cbn [mbind option_bind].
  destruct (Hv _ eq_refl) as [Hl _]. destruct (mapM (λ i, v !! i) (seq 0 512)) as [es|] eqn:Em.
  - eexists. split; [done|]. intros ? [= <-]. rewrite l2_length. apply length_mapM in Em. by rewrite <- Em.
  - exfalso. apply eq_None_not_Some in Em. apply Em, mapM_is_Some_2. rewrite Forall_forall. intros i Hi%elem_of_seq. unfold compose. apply lookup_lt_is_Some. lia.
Qed.

Lemma detect_total det c n f : whole (rgb f) (width f) (height f) → (∀ t outputs, det t = Ok outputs → detector_answers outputs) →
  ∃ r, detect det (detector_load c n) f = Some r ∧ ∀ ds, r = Ok ds → Forall (sound (width f) (height f)) ds.
Proof.
  intros Hf Hdet. unfold detect. cbn [input_width detector_load]. destruct (letterbox_total _ _ _ 640 Hf ltac:(lia)) as (t & s & px & py & -> & _).
  cbn [mbind option_bind]. destruct (det t) as [outputs|e] eqn:Eo; [|by eexists; split]. cbv zeta.
  set (u := {| un_scale := s; un_pad_x := px; un_pad_y := py; un_width := width f; un_height := height f |}).
  destruct Hf as (Hw & Hh & _). destruct (strides_total c n u outputs (Hdet _ _ Eo) Hw Hh) as ([ds|e] & -> & Hds); [|by eexists; split].
  cbn [mbind option_bind]. specialize (Hds _ eq_refl). cbn [un_width un_height u] in Hds. unfold nms, sort_detections. cbn [nms_threshold].
  assert (orderly ds = true) as ->.
  { unfold orderly. apply orb_true_iff. left. apply forallb_forall. intros d Hd. apply negb_true_iff.
    rewrite Forall_forall in Hds. by apply Hds, list_elem_of_In. }
  cbn. eexists. split; [done|]. intros kept [= <-]. rewrite Forall_forall in Hds |- *. intros d Hd. apply Hds.
  rewrite <- (sorted_permutation ds). by eapply sublist_subseteq; [apply (suppress_sublist n [])|].
Qed.

Lemma embed_all_total emb f : whole (rgb f) (width f) (height f) → embedder_answers emb → ∀ ds g freed,
  vec_ok g → (length (elems g) + length ds <= cap g)%nat → Forall (Forall wiped) freed →
  ∃ r freed', embed_all emb f g freed ds = Some (r, freed') ∧ Forall (Forall wiped) freed' ∧
    ∀ faces, r = Ok faces → freed' = freed ∧ ∃ es, faces = elems g ++ combine ds es ∧ length es = length ds ∧ Forall (λ e, length e = 512%nat) es.
Proof.
  intros Hf He. induction ds as [|d ds IH]; intros g freed Hg Hc Hfr; cbn [embed_all].
  { eexists _, _. split; [done|]. split; [done|]. intros ? [= <-]. split; [done|]. exists []. by rewrite app_nil_r. }
  assert (Forall (Forall wiped) (freed ++ [wiped_drop g])) as Hdrop.
  { apply Forall_app. split; [done|]. constructor; [|done]. apply Forall_map, Forall_true. intros x. apply wiped_wipe. }
  destruct (align_total f (landmarks d) Hf) as ([a|e] & -> & Ha); cbn [mbind option_bind]; [|by eexists _, _].
  destruct (embed_total emb a He (Ha _ eq_refl)) as ([v|e] & -> & Hv); cbn [mbind option_bind]; [|by eexists _, _].
  destruct (wiped_push g (d, v)) as [g' fr] eqn:Ep. destruct (push_wiping_spec g (d, v) g' fr) as (Hel & Hok & _ & _ & Hcap); [done|done|].
  cbn [length] in Hc. destruct Hcap as [-> Ecap]; [lia|]. rewrite app_nil_r. destruct (IH g' freed Hok) as (r & freed' & -> & Hw' & Hfaces).
  - rewrite Hel, Ecap, length_app. cbn. lia.
  - done.
  - eexists _, _. split; [done|]. split; [done|]. intros faces Hr. destruct (Hfaces faces Hr) as (-> & es & -> & Hl & Hes). split; [done|].
    exists (v :: es). rewrite Hel, <- app_assoc. cbn. split_and!; [done|lia|constructor; [by apply Hv|done]].
Qed.

(** ** The texture of a detected face *)
Lemma read_all_total l idxs : Forall (λ i, 0 <= i < Z.of_nat (length l)) idxs → is_Some (read_all l idxs).
Proof.
  induction 1 as [|i idxs Hi _ [ps IH]]; [by eexists|]. cbn [read_all]. destruct (lookup_lt_is_Some_2 l (Z.to_nat i)) as [p ->]; [lia|]. rewrite IH. by eexists.
Qed.

Lemma in_range i a b : i ∈ range a b → a <= i < b.
Proof.
  unfold range. assert (∀ n a, i ∈ indices a n → a <= i < a + Z.of_nat n) as Hn.
  { induction n as [|n IH]; intros a'; cbn [indices]; [set_solver|]. intros [->|Hi%IH]%elem_of_cons; lia. }
  intros Hi%Hn. lia.
Qed.

Lemma max_keeps hi n z : 0 <= n <= hi → n <= f32_to_uint hi z → n <= f32_to_uint hi (f32_max z f32_zero).
Proof.
  intros Hn Hz. destruct (decide (n <= 0)) as [H0|H0]; [pose proof (to_uint_nonneg hi (f32_max z f32_zero)); lia|].
  destruct z as [[]|[]| |[] m e]; try done; cbn [f32_to_uint] in Hz; lia.
Qed.

(** The ends of a side of a box are in order, inside the frame. *)
Lemma side_ordered x d n : f32_le f32_zero x = true → f32_le f32_zero d = true → 0 < n < 2 ^ 23 →
  let to_usize z := f32_to_uint usize_max (f32_max z f32_zero) in
  let x0 := Z.min (to_usize x) (saturating_sub n 1) in
  let x1 := Z.min (to_usize (f32_add x d)) n in
  0 <= x0 <= x1 ∧ x1 <= n.
Proof.
  intros Hx Hd Hn to_usize x0 x1. assert (0 <= to_usize x) as H0 by (apply to_uint_nonneg; vm_compute; congruence).
  assert (f32_max x f32_zero = x) as Ex by (by destruct x as [[]|[]| |[] m e]).
  assert (saturating_sub n 1 = n - 1) as Es by (unfold saturating_sub; lia). unfold x0, x1. rewrite Es. split; [|lia]. split; [lia|].
  apply Z.min_glb; [|lia]. unfold to_usize in *. assert (2 ^ 23 < usize_max) by done.
  apply max_keeps; [lia|]. apply add_at_least; [done|done|lia|lia|].
  rewrite Ex. lia.
Qed.

Lemma texture_total g b w h s : 0 < w < 2 ^ 23 → 0 < h < 2 ^ 23 → Z.of_nat (length g) = w * h → box_inside w h b → is_Some (check_ir_texture g b w s).
Proof.
  intros Hw Hh Hl (Hx & _ & Hdx & Hy & _ & Hdy). unfold check_ir_texture.
  assert (is_Some (extract_bbox_region g b w)) as [region ->]; [|by destruct region; eexists]. unfold extract_bbox_region.
  destruct (Z.eqb_spec w 0); [lia|]. cbv zeta. assert (Z.of_nat (length g) / w = h) as -> by (rewrite Hl, Z.mul_comm; apply Z.div_mul; lia).
  pose proof (side_ordered _ _ w Hx Hdx Hw) as Hsx. pose proof (side_ordered _ _ h Hy Hdy Hh) as Hsy. cbv zeta in Hsx, Hsy.
  set (x0 := Z.min (f32_to_uint usize_max (f32_max (bbox_x b) f32_zero)) _) in *. set (x1 := Z.min _ w) in *.
  set (y0 := Z.min (f32_to_uint usize_max (f32_max (bbox_y b) f32_zero)) _) in *. set (y1 := Z.min _ h) in *.
  rewrite (Z.mod_small (x1 - x0)), (Z.mod_small (y1 - y0)) by lia. assert (0 <= (x1 - x0) * (y1 - y0) <= w * h) by nia.
  assert (w * h <= 2 ^ 46) by nia. rewrite Z.mod_small by lia. destruct (Z.ltb_spec isize_max ((x1 - x0) * (y1 - y0))) as [Hc|_]; [unfold isize_max in Hc; lia|].
  apply read_all_total. rewrite Forall_forall. intros i Hi. apply list_elem_of_bind in Hi as (row & Hi & Hrow%in_range).
  apply list_elem_of_bind in Hi as (col & Hi & Hcol%in_range). apply list_elem_of_singleton in Hi as ->. rewrite Hl. nia.
Qed.

(** C7.  From the camera to the face. The frame of an unrotated camera that does not send JPEG, less
    than 2^23 pixels wide and high, where its buffer gives as many pixels as the frame has, is
    processed without a panic, whatever numbers the networks answer with in the models' shapes as long
    as no score is NaN: the letterbox, the decoding, the suppression and the alignment stay inside
    their images. Every face it reports has its box inside the frame and an embedding of 512
    numbers, and the infrared texture of that box can be measured; if a face fails, what was
    embedded before it is wiped, and nothing is freed otherwise. *)
Theorem captured_faces_are_sound im frames elapsed c det emb confidence nms_threshold f c' :
  (∀ i buf, frames i = Ok buf → Forall is_byte buf) → capture im frames elapsed c = Some (Ok f, c') →
  cm_rotation c = 0 → cm_format c ≠ "MJPG" → 0 < cm_width c < 2 ^ 23 → 0 < cm_height c < 2 ^ 23 →
  (∀ buf, frames (pred (cm_taken c')) = Ok buf →
     pixels_of (cm_format c) (Z.to_nat (cm_width c)) (Z.to_nat (cm_height c)) (length buf) = (Z.to_nat (cm_width c) * Z.to_nat (cm_height c))%nat) →
  (∀ t outputs, det t = Ok outputs → detector_answers outputs) → embedder_answers emb →
  ∃ r freed, process det emb (detector_load confidence nms_threshold) f = Some (r, freed) ∧ Forall (Forall wiped) freed ∧
    ∀ faces, r = Ok faces → freed = [] ∧ ∀ d e, (d, e) ∈ faces →
      box_inside (width f) (height f) (bbox d) ∧ length e = 512%nat ∧ ∀ s, is_Some (check_ir_texture (gray f) (bbox d) (width f) s).
Proof.
  intros Hb Hc Hrot Hm Hw Hh Hfull Hdet Hemb. destruct (captured_frame _ _ _ _ _ _ Hb Hc Hrot Hm) as (buf & Hbuf & Ew & Eh & Hrgb & Hgray & _).
  rewrite (Hfull _ Hbuf) in Hrgb, Hgray. assert (whole (rgb f) (width f) (height f)) as Hf by (rewrite Ew, Eh; repeat split; lia).
  unfold process. destruct (detect_total det confidence nms_threshold f Hf Hdet) as ([ds|e] & -> & Hds); [|by eexists _, _]. cbn [mbind option_bind].
  destruct (embed_all_total emb f Hf Hemb ds (wiped_with_capacity (length ds)) []) as (r & freed & -> & Hwi & Hfaces); [unfold vec_ok; cbn; lia|cbn; lia|done|].
  exists r, freed. split; [done|]. split; [done|]. intros faces Hr. destruct (Hfaces faces Hr) as (-> & es & -> & Hl & Hes). split; [done|].
  specialize (Hds _ eq_refl). intros d e Hin. cbn [elems wiped_with_capacity vec_with_capacity app] in Hin. apply list_elem_of_In in Hin.
  pose proof (in_combine_l _ _ _ _ Hin) as Hd. pose proof (in_combine_r _ _ _ _ Hin) as He. rewrite Forall_forall in Hds. rewrite Forall_forall in Hes.
  destruct (Hds d) as [Hbox _]; [by apply list_elem_of_In|]. split; [done|]. split; [by apply Hes, list_elem_of_In|].
  intros s. rewrite Ew, Eh in Hbox. rewrite Ew. apply (texture_total _ _ _ (cm_height c)); [done|done|lia|done].
Qed.

(** ** An example: a small GREY frame, and networks that see a face everywhere *)
Definition eager_outputs (n : Z → nat) : list (result (list f32) string) :=
  [Ok (replicate (n 8) f32_one); Ok (replicate (n 16) f32_one); Ok (replicate (n 32) f32_one);
   Ok (replicate (4 * n 8) f32_one); Ok (replicate (4 * n 16) f32_one); Ok (replicate (4 * n 32) f32_one);
   Ok (replicate (10 * n 8) f32_one); Ok (replicate (10 * n 16) f32_one); Ok (replicate (10 * n 32) f32_one)].

Definition eager_detector (_ : list f32) : result (list (result (list f32) string)) string :=
  Ok (eager_outputs (λ s, Z.to_nat (2 * (640 / s) * (640 / s)))).

Definition even_embedder (_ : list f32) : result (list (result (list f32) string)) string := Ok [Ok (replicate 512 f32_one)].

Lemma ones_answer n m outputs i : outputs !! i = Some (Ok (replicate m f32_one)) → (n <= m)%nat → answers n no_nan outputs i.
Proof. intros Hi Hn. eexists. split; [exact Hi|]. intros v [= <-]. rewrite length_replicate. split; [done|]. by apply Forall_replicate. Qed.

Lemma answers_weaken n outputs i : answers n no_nan outputs i → answers n (λ _, True) outputs i.
Proof. intros (r & Hr & Hv). exists r. split; [done|]. intros v Hok. split; [by apply Hv|done]. Qed.

Lemma eager_shape n : (∀ s, 0 < s <= 32 → (0 < n s)%nat) → (∀ s, n s = Z.to_nat (2 * (640 / s) * (640 / s))) → detector_answers (eager_outputs n).
Proof.
  intros Hpos Hn k s Hk. cbv zeta. rewrite <- Hn.
  destruct k as [|[|[|k]]]; [..|by destruct k]; cbn in Hk; injection Hk as <-;
    (split; [eapply ones_answer; [reflexivity|by apply Hpos]|split; apply answers_weaken; by eapply ones_answer]).
Qed.

Lemma eager_answers t outputs : eager_detector t = Ok outputs → detector_answers outputs.
Proof.
  unfold eager_detector. set (n := λ s, Z.to_nat (2 * (640 / s) * (640 / s))). assert (∀ s, n s = Z.to_nat (2 * (640 / s) * (640 / s))) as Hn by done.
  assert (∀ s, 0 < s <= 32 → (0 < n s)%nat) as Hpos.
  { intros s Hs. rewrite Hn. assert (1 <= 640 / s) by (apply Z.div_le_lower_bound; lia). nia. }
  clearbody n. intros H. injection H as <-. by apply eager_shape.
Qed.

Lemma even_answers : embedder_answers even_embedder.
Proof. intros t outputs H. injection H as <-. apply answers_weaken, (ones_answer 512 512); [reflexivity|lia]. Qed.

Theorem captured_faces_are_sound_witness : ∃ f c' r freed,
  capture no_imaging padded_frames (λ _, 0) (small_camera "GREY" 4 (Some 0)) = Some (Ok f, c') ∧
  process eager_detector even_embedder (detector_load (f32_lit 1 2) (f32_lit 2 5)) f = Some (r, freed) ∧ Forall (Forall wiped) freed.
Proof.
  destruct (capture no_imaging padded_frames (λ _, 0) (small_camera "GREY" 4 (Some 0))) as [[[f|e] c']|] eqn:E; [|vm_compute in E; discriminate E..].
  destruct (captured_faces_are_sound no_imaging padded_frames (λ _, 0) (small_camera "GREY" 4 (Some 0)) eager_detector even_embedder (f32_lit 1 2) (f32_lit 2 5) f c'
    (proj1 sample_bytes) E eq_refl ltac:(discriminate) ltac:(vm_compute; split; reflexivity) ltac:(vm_compute; split; reflexivity) ltac:(reflexivity) eager_answers even_answers)
    as (r & freed & Hp & Hw & _).
  exists f, c', r, freed. split; [reflexivity|]. split; [exact Hp|exact Hw].
Defined.
