(* ===== verification/Provider.v ===== *)
(** * Provider: which shared library the process loads, and which provider runs the networks

    [facelock-face/src/provider.rs]: the ONNX Runtime is found at fixed places, and a privileged
    process maps only a file that was reached below a trusted directory by held descriptors and
    that was checked before and after it was read. The process only reads, so a run is a function
    of what every system call finds: snapshot [k] of the file system is the one call [k] sees, and
    any two may differ. [None] is a walk whose fuel is used up. *)

From stdpp Require Import gmap.
From S2P Require Import Prelude Text Provenance PamFiles.

(** ** The file system, as each call finds it *)

(** A link's target; a directory's entries; a file's bytes, and whether it has the capability attribute. *)
Record Node := {
  n_type : FileType; n_dev : Z; n_ino : Z; n_nlink : Z; n_size : Z; n_uid : Z; n_gid : Z; n_mode : Z;
  n_mtime : Z * Z; n_ctime : Z * Z; n_entries : gmap string Z; n_target : string; n_content : string; n_capability : bool }.

(** [by_path] resolves a path without following its last component, [followed] with it; a
    descriptor is a node. [n_content] is what reading a descriptor to its end yields. *)
Record Snapshot := {
  node_at : Z → option Node; by_path : string → result Z IoError; followed : string → result Z IoError; call_fails : option IoError }.

Definition Look (E A : Type) : Type := nat → option (result A E) * nat.

#[export] Instance Look_ret E : MRet (Look E) := λ A a k, (Some (Ok a), k).
#[export] Instance Look_bind E : MBind (Look E) := λ A B f c k,
  match c k with
  | (Some (Ok a), k) => f a k
  | (Some (Err e), k) => (Some (Err e), k)
  | (None, k) => (None, k)
  end.

Definition fail {E A} (e : E) : Look E A := λ k, (Some (Err e), k).
Definition give {E A} (r : result A E) : Look E A := λ k, (Some r, k).
Definition unended {E A} : Look E A := λ k, (None, k).

(** The result as a value, and [map_err]. *)
Definition caught {E F A} (c : Look E A) : Look F (result A E) := λ k,
  match c k with (Some r, k) => (Some (Ok r), k) | (None, k) => (None, k) end.
Definition or_say {E F A} (f : E → F) (c : Look E A) : Look F A := caught c ≫= λ r, give (map_err f r).

Definition no_such_file : IoError := io_error NotFound "No such file or directory (os error 2)".
Definition bad_descriptor : IoError := io_error OtherKind "Bad file descriptor (os error 9)".
Definition loop_error : IoError := io_error OtherKind "Too many levels of symbolic links (os error 40)".
Definition not_directory : IoError := io_error OtherKind "Not a directory (os error 20)".

(** ** Privilege *)
Inductive PrivilegeContext := Unprivileged | Privileged.

#[export] Instance PrivilegeContext_eq_dec : EqDecision PrivilegeContext.
Proof. solve_decision. Defined.

Definition PROCESS_CAPABILITY_FIELDS : list string := ["CapInh"; "CapPrm"; "CapEff"; "CapAmb"].
Definition CALLING_THREAD_STATUS_PATH : string := "/proc/thread-self/status".

Definition Capabilities : Type := list (option bool).

Fixpoint position (name : string) (fields : list string) : option nat :=
  match fields with
  | [] => None
  | f :: fields => if String.eqb f name then Some O else S <$> position name fields
  end.

(** One line of the status file. *)
Definition read_field (line : string) (values : Capabilities) : result Capabilities string :=
  match split_once ":" line with
  | (_, None) => Ok values
  | (name, Some raw_value) =>
      match position name PROCESS_CAPABILITY_FIELDS with
      | None => Ok values
      | Some index =>
          if is_some (mjoin (values !! index)) then Err ("duplicate " +:+ name +:+ " in " +:+ CALLING_THREAD_STATUS_PATH)
          else
            let value := trim raw_value in
            if is_empty_str value || negb (str_forall is_ascii_hexdigit value)
            then Err ("invalid " +:+ name +:+ " in " +:+ CALLING_THREAD_STATUS_PATH)
            else Ok (<[index := Some (negb (str_forall (Ascii.eqb "0") value))]> values)
      end
  end.

Fixpoint read_fields (ls : list string) (values : Capabilities) : result Capabilities string :=
  match ls with
  | [] => Ok values
  | line :: ls => let? values := read_field line values in read_fields ls values
  end.

Fixpoint any_capability (fields : list string) (values : Capabilities) : result bool string :=
  match fields, values with
  | _ :: fields, Some value :: values => let? any := any_capability fields values in Ok (value || any)
  | field :: _, _ => Err ("missing " +:+ field +:+ " in " +:+ CALLING_THREAD_STATUS_PATH)
  | [], _ => Ok false
  end.

Definition parse_process_capabilities (status : string) : result bool string :=
  let? values := read_fields (str_lines status) [None; None; None; None] in
  any_capability PROCESS_CAPABILITY_FIELDS values.

Definition current_thread_capabilities (status : result string string) : result bool string :=
  let? status := status in parse_process_capabilities status.

Definition privilege_context_from_facts (uid euid gid egid : Z) (at_secure : bool) (capabilities : result bool string) : PrivilegeContext :=
  if (uid =? 0) || (euid =? 0) || (gid =? 0) || (egid =? 0) || negb (uid =? euid) || negb (gid =? egid) || at_secure
     || match capabilities with Ok c => c | Err _ => true end
  then Privileged else Unprivileged.

(** What the process asks about itself, and its environment. *)
Record Process := {
  p_uid : Z; p_euid : Z; p_gid : Z; p_egid : Z; p_secure : bool; p_status : result string string; ort_dylib_path : option string }.

Definition current_privilege (p : Process) : PrivilegeContext :=
  privilege_context_from_facts (p_uid p) (p_euid p) (p_gid p) (p_egid p) (p_secure p) (current_thread_capabilities (p_status p)).

(** ** Candidates *)
Definition EXPECTED_SONAME : string := "libonnxruntime.so.1".
Definition MAX_RUNTIME_BYTES : Z := 512 * 1024 * 1024.

Inductive CandidateSource := ExplicitOverride | ConfiguredGpu | PackageManager | Bundle.

#[export] Instance CandidateSource_eq_dec : EqDecision CandidateSource.
Proof. solve_decision. Defined.

Record RuntimeCandidate := {
  path : string; source : CandidateSource; trust_root : option string; relative_path : option string }.

Definition override_path (p : string) : RuntimeCandidate :=
  {| path := p; source := ExplicitOverride; trust_root := None; relative_path := None |}.
Definition trusted (s : CandidateSource) (root relative : string) : RuntimeCandidate :=
  {| path := join root relative; source := s; trust_root := Some root; relative_path := Some relative |}.

Definition overriding (override : option string) (privilege : PrivilegeContext) : list RuntimeCandidate :=
  match privilege, override with
  | Unprivileged, Some p => if is_empty_str p then [] else [override_path p]
  | _, _ => []
  end.

Definition runtime_candidates (provider : string) (override : option string) (privilege : PrivilegeContext) : list RuntimeCandidate :=
  overriding override privilege ++
  (if String.eqb provider "cpu" then []
   else
     (if String.eqb provider "rocm" || String.eqb provider "auto"
      then [trusted ConfiguredGpu "/usr/lib64/rocm/lib" EXPECTED_SONAME; trusted ConfiguredGpu "/usr/lib/rocm/lib" EXPECTED_SONAME]
      else []) ++
     [trusted ConfiguredGpu "/usr/lib64" "libonnxruntime.so"; trusted ConfiguredGpu "/usr/lib" "libonnxruntime.so"]) ++
  [trusted PackageManager "/usr/lib64" EXPECTED_SONAME; trusted PackageManager "/usr/lib" EXPECTED_SONAME;
   trusted Bundle "/usr/lib64/facelock" EXPECTED_SONAME; trusted Bundle "/usr/lib/facelock" EXPECTED_SONAME;
   trusted Bundle "/usr/lib64/facelock" "libonnxruntime.so"; trusted Bundle "/usr/lib/facelock" "libonnxruntime.so"].

(** ** The identity of a library *)
Inductive ElfArchitecture := X86_64 | Aarch64 | OtherArchitecture (name : string).

#[export] Instance ElfArchitecture_eq_dec : EqDecision ElfArchitecture.
Proof. solve_decision. Defined.

Record ElfIdentity := { architecture : ElfArchitecture; soname : option string; rpath : list string; runpath : list string }.

Inductive DynamicTag := DT_SONAME | DT_RPATH | DT_RUNPATH | OtherTag.

(** What the [object] crate makes of a file's bytes; the machine the program was built for; [Debug] of both. *)
Record ElfFile := {
  elf_architecture : ElfArchitecture; elf_is_64 : bool;
  elf_dynamic : result (option (list (DynamicTag * result string string))) string }.
Class ElfParser := {
  parse_elf : string → result ElfFile string;
  expected_elf_architecture : ElfArchitecture;
  show_architecture : ElfArchitecture → string;
  show_soname : option string → string }.

Section elf.
Context {EP : ElfParser} {SD : ShowDebug}.

Fixpoint dynamic_entries (entries : list (DynamicTag * result string string)) (i : ElfIdentity) : result ElfIdentity string :=
  match entries with
  | [] => Ok i
  | (OtherTag, _) :: entries => dynamic_entries entries i
  | (tag, text) :: entries =>
      let? value := text in
      dynamic_entries entries
        match tag with
        | DT_SONAME => {| architecture := architecture i; soname := Some value; rpath := rpath i; runpath := runpath i |}
        | DT_RPATH => {| architecture := architecture i; soname := soname i; rpath := rpath i ++ split_on ":" value; runpath := runpath i |}
        | _ => {| architecture := architecture i; soname := soname i; rpath := rpath i; runpath := runpath i ++ split_on ":" value |}
        end
  end.

Definition dynamic_strings (f : ElfFile) : result ElfIdentity string :=
  let? dynamic := elf_dynamic f in
  match dynamic with
  | None => Err "ELF has no dynamic section"
  | Some entries => dynamic_entries entries {| architecture := elf_architecture f; soname := None; rpath := []; runpath := [] |}
  end.

Definition inspect_elf (data : string) : result ElfIdentity string :=
  let? f := map_err (λ e, "invalid ELF file: " +:+ e) (parse_elf data) in
  if negb (elf_is_64 f) then Err "ONNX Runtime must be a 64-bit ELF shared object" else dynamic_strings f.

Fixpoint validate_search_path (kind : string) (entries : list string) : result unit string :=
  match entries with
  | [] => Ok tt
  | entry :: entries =>
      if String.eqb entry "$ORIGIN" || String.eqb entry "${ORIGIN}" then validate_search_path kind entries
      else Err ("unsafe ONNX Runtime " +:+ kind +:+ " entry " +:+ debug_str entry)
  end.

Definition validate_elf_identity (i : ElfIdentity) : result unit string :=
  if negb (bool_decide (architecture i = expected_elf_architecture))
  then Err ("ONNX Runtime architecture mismatch: expected " +:+ show_architecture expected_elf_architecture +:+ ", found " +:+ show_architecture (architecture i))
  else if negb (bool_decide (soname i = Some EXPECTED_SONAME))
  then Err ("ONNX Runtime SONAME mismatch: expected " +:+ EXPECTED_SONAME +:+ ", found " +:+ show_soname (soname i))
  else
    let? _ := validate_search_path "RPATH" (rpath i) in
    validate_search_path "RUNPATH" (runpath i).
End elf.

(** ** What a trusted file and directory look like *)
Definition validate_owner_and_mode (p : string) (n : Node) (required_uid : Z) : result unit string :=
  if negb (n_uid n =? required_uid)
  then Err (p +:+ " is owned by uid " +:+ show_Z (n_uid n) +:+ ", expected uid " +:+ show_Z required_uid)
  else if negb (Z.land (n_mode n) 18 =? 0) then Err (p +:+ " is group- or world-writable")
  else Ok tt.

Definition is_type (t : FileType) (n : Node) : bool := bool_decide (n_type n = t).

Definition valid_relative_candidate (p : string) : bool :=
  negb (is_empty_str p) && negb (str_has_char nul p)
  && forallb (λ segment, negb (is_empty_str segment) && negb (String.eqb segment ".") && negb (String.eqb segment "..")) (split_on slash p).

Record StableFileIdentity := {
  device : Z; inode : Z; links : Z; size : Z; id_uid : Z; id_gid : Z; id_mode : Z; modified : Z * Z; changed : Z * Z }.

#[export] Instance StableFileIdentity_eq_dec : EqDecision StableFileIdentity.
Proof. solve_decision. Defined.

Definition identity_of (n : Node) : StableFileIdentity :=
  {| device := n_dev n; inode := n_ino n; links := n_nlink n; size := n_size n; id_uid := n_uid n; id_gid := n_gid n;
     id_mode := n_mode n; modified := n_mtime n; changed := n_ctime n |}.

Definition validate_stable_file_identity (p : string) (before after : StableFileIdentity) : result unit string :=
  if bool_decide (before = after) then Ok tt else Err (p +:+ " changed while it was validated").

Definition validate_symlink_owner (p : string) (n : Node) (required_uid : Z) : result unit string :=
  if negb (is_type IsSymlink n) then Err (p +:+ " is not a symbolic link")
  else if negb (n_uid n =? required_uid)
  then Err ("symbolic link " +:+ p +:+ " is owned by uid " +:+ show_Z (n_uid n) +:+ ", expected uid " +:+ show_Z required_uid)
  else if negb (n_nlink n =? 1) then Err ("symbolic link " +:+ p +:+ " has multiple hard links")
  else Ok tt.

Definition validate_privileged_file_metadata (p : string) (n : Node) (required_uid : Z) (has_file_capability : bool) : result unit string :=
  if negb (is_type IsRegular n) then Err (p +:+ " is not a regular file")
  else
    let? _ := validate_owner_and_mode p n required_uid in
    if negb (n_nlink n =? 1) then Err (p +:+ " has multiple hard links")
    else if negb (Z.land (n_mode n) 3072 =? 0) then Err (p +:+ " has a set-user-ID or set-group-ID bit")
    else if has_file_capability then Err (p +:+ " has a Linux file capability xattr")
    else Ok tt.

Definition confined_components (p : string) : result (list string) string :=
  if valid_relative_candidate p then Ok (split_on slash p) else Err "candidate must be a confined relative path".

Fixpoint first_bytes (n : Z) (s : string) : string :=
  match s with
  | String a s => if 0 <? n then String a (first_bytes (n - 1) s) else EmptyString
  | EmptyString => EmptyString
  end.

(** The buffer doubles from 256 bytes to [PATH_MAX]. *)
Definition LINK_ROOMS : list Z := [256; 512; 1024; 2048; 4096].
Definition MAX_LINKS : Z := 16.
Definition saturating_succ (z : Z) : Z := Z.min 255 (z + 1).

Section walks.
Context (world : nat → Snapshot) (required_uid : Z).

Definition call {A} (f : Snapshot → result A IoError) : Look IoError A := λ k,
  (Some (match call_fails (world k) with Some e => Err e | None => f (world k) end), S k).

Definition node_of (w : Snapshot) (fd : Z) : result Node IoError :=
  match node_at w fd with Some n => Ok n | None => Err bad_descriptor end.

Definition fstat (fd : Z) : Look IoError Node := call (λ w, node_of w fd).
Definition lstat (p : string) : Look IoError Node := call (λ w, let? i := by_path w p in node_of w i).
Definition read_link (p : string) : Look IoError string :=
  call (λ w, let? i := by_path w p in let? n := node_of w i in
             if is_type IsSymlink n then Ok (n_target n) else Err (io_error InvalidInput "Invalid argument (os error 22)")).

(** [openat] with [O_PATH | O_NOFOLLOW], and with [O_RDONLY | O_NOFOLLOW] *)
Definition entry_of (w : Snapshot) (parent : Z) (name : string) : result Z IoError :=
  let? p := node_of w parent in
  if negb (is_type IsDirectory p) then Err not_directory
  else match n_entries p !! name with Some i => Ok i | None => Err no_such_file end.
Definition openat_path (parent : Z) (name : string) : Look IoError Z := call (λ w, entry_of w parent name).
Definition openat_read (parent : Z) (name : string) : Look IoError Z :=
  call (λ w, let? i := entry_of w parent name in let? n := node_of w i in if is_type IsSymlink n then Err loop_error else Ok i).

(** [readlinkat] of the descriptor itself answers at most the bytes the buffer holds. *)
Definition readlink_into (fd : Z) (room : Z) : Look IoError string :=
  call (λ w, let? n := node_of w fd in if is_type IsSymlink n then Ok (first_bytes room (n_target n)) else Err no_such_file).

Fixpoint read_symlink_loop (fd : Z) (rooms : list Z) : Look IoError string :=
  match rooms with
  | [] => fail (io_error InvalidData "symbolic link target is too long")
  | room :: rooms =>
      bytes ← readlink_into fd room;
      if Z.of_nat (String.length bytes) <? room then mret bytes else read_symlink_loop fd rooms
  end.
Definition read_symlink_descriptor (fd : Z) : Look IoError string := read_symlink_loop fd LINK_ROOMS.

Definition try_clone (fd : Z) : Look IoError Z := call (λ w, let? _ := node_of w fd in Ok fd).

Definition open_root (p : string) : Look IoError Z :=
  call (λ w, let? i := by_path w p in let? n := node_of w i in if is_type IsDirectory n then Ok i else Err not_directory).

Definition read_to_end (fd : Z) (limit : Z) : Look IoError string :=
  call (λ w, let? n := node_of w fd in Ok (first_bytes limit (n_content n))).

Definition has_linux_file_capability (fd : Z) (p : string) : Look string bool :=
  or_say (λ e, "cannot inspect Linux file capabilities on " +:+ p +:+ ": " +:+ io_text e)
    (call (λ w, let? n := node_of w fd in Ok (n_capability n))).

(** *** By path: the directories above a candidate *)
Definition validate_directory (p : string) : Look string unit :=
  n ← or_say (λ e, "cannot examine trusted directory " +:+ p +:+ ": " +:+ io_text e) (lstat p);
  if is_type IsSymlink n then fail ("trusted directory " +:+ p +:+ " is a symbolic link")
  else if negb (is_type IsDirectory n) then fail ("trusted path " +:+ p +:+ " is not a directory")
  else give (validate_owner_and_mode p n required_uid).

(** [Path::ancestors] of an absolute path *)
Definition ancestors (p : string) : list string :=
  map (λ n, path_of (take n (components p))) (rev (seq 1 (length (components p)))).

Fixpoint validate_directories (ps : list string) : Look string unit :=
  match ps with [] => mret tt | p :: ps => _ ← validate_directory p; validate_directories ps end.

Definition validate_root_ancestors (root : string) : Look string unit :=
  if negb (is_absolute root) then fail ("trusted root " +:+ root +:+ " is not absolute")
  else validate_directories (ancestors root).

Definition escaping (p target : string) : string := "symbolic link " +:+ p +:+ " has an escaping or absolute target " +:+ target.

Fixpoint resolve_loop (fuel : nat) (resolved : string) (components : list string) (followed_links : Z) : Look string string :=
  match fuel with
  | O => unended
  | S fuel =>
      match components with
      | [] => mret resolved
      | component :: components =>
          let candidate := join resolved component in
          n ← or_say (λ e, "cannot examine trusted directory " +:+ candidate +:+ ": " +:+ io_text e) (lstat candidate);
          if is_type IsSymlink n then
            _ ← give (validate_symlink_owner candidate n required_uid);
            let followed_links := saturating_succ followed_links in
            if MAX_LINKS <? followed_links then fail ("symbolic link chain for " +:+ candidate +:+ " is too deep")
            else
              target ← or_say (λ e, "cannot read symbolic link " +:+ candidate +:+ ": " +:+ io_text e) (read_link candidate);
              inner ← give (map_err (λ _, escaping candidate target) (confined_components target));
              resolve_loop fuel resolved (inner ++ components) followed_links
          else if negb (is_type IsDirectory n) then fail ("trusted path " +:+ candidate +:+ " is not a directory")
          else
            _ ← give (validate_owner_and_mode candidate n required_uid);
            resolve_loop fuel (join resolved component) components followed_links
      end
  end.

Definition resolve_trusted_dir (fuel : nat) (base relative : string) : Look string string :=
  components ← give (map_err (λ _, "trusted root " +:+ join base relative +:+ " has an unconfined component") (confined_components relative));
  resolve_loop fuel base components 0.

Definition resolve_trusted_root (fuel : nat) (root : string) : Look string string :=
  match strip_prefix "/" root with
  | None => fail ("trusted root " +:+ root +:+ " is not absolute")
  | Some relative => resolve_trusted_dir fuel "/" relative
  end.

(** *** By held descriptors: a candidate below its root *)
Fixpoint walk (fuel : nat) (whole : string) (parent : Z) (components : list string) (followed_links : Z) (walked : string) : Look string Z :=
  match fuel with
  | O => unended
  | S fuel =>
      match components with
      | [] => fail "candidate path resolved to no file"
      | component :: components =>
          let is_last := match components with [] => true | _ => false end in
          let shown := join walked component in
          entry ← or_say (λ e, "cannot inspect " +:+ shown +:+ ": " +:+ io_text e) (openat_path parent component);
          n ← or_say (λ e, "cannot examine " +:+ shown +:+ ": " +:+ io_text e) (fstat entry);
          if is_type IsSymlink n then
            if negb is_last then fail ("directory component " +:+ shown +:+ " is a symbolic link")
            else
              _ ← give (validate_symlink_owner shown n required_uid);
              let followed_links := saturating_succ followed_links in
              if MAX_LINKS <? followed_links then fail ("symbolic link chain for " +:+ whole +:+ " is too deep")
              else
                target ← or_say (λ e, "cannot read symbolic link " +:+ shown +:+ ": " +:+ io_text e) (read_symlink_descriptor entry);
                inner ← give (map_err (λ _, escaping shown target) (confined_components target));
                walk fuel whole parent (inner ++ components) followed_links walked
          else if is_type IsDirectory n then
            if is_last then fail (shown +:+ " is not a regular file")
            else
              _ ← give (validate_owner_and_mode shown n required_uid);
              walk fuel whole entry components followed_links (join walked component)
          else if negb (is_type IsRegular n) then fail (shown +:+ " is not a regular file")
          else if negb is_last then fail ("non-directory component " +:+ shown +:+ " appears before the candidate")
          else
            file ← or_say (λ e, "cannot open " +:+ shown +:+ ": " +:+ io_text e) (openat_read parent component);
            opened ← or_say (λ e, "cannot examine " +:+ shown +:+ ": " +:+ io_text e) (fstat file);
            _ ← give (validate_stable_file_identity shown (identity_of n) (identity_of opened));
            mret file
      end
  end.

Definition open_confined_candidate (fuel : nat) (root : Z) (relative : string) : Look string Z :=
  parent ← or_say (λ e, "cannot duplicate trusted root: " +:+ io_text e) (try_clone root);
  components ← give (confined_components relative);
  walk fuel relative parent components 0 "".

(** ** Opening and checking a runtime *)
Context {EP : ElfParser} {SD : ShowDebug}.

Definition validate_opened_elf (fd : Z) (p : string) (expected : option StableFileIdentity) : Look string StableFileIdentity :=
  n ← or_say (λ e, "cannot examine " +:+ p +:+ ": " +:+ io_text e) (fstat fd);
  if negb (is_type IsRegular n) then fail (p +:+ " is not a regular file")
  else if MAX_RUNTIME_BYTES <? n_size n then fail (p +:+ " is unreasonably large")
  else
    let before := identity_of n in
    _ ← give (match expected with Some e => validate_stable_file_identity p e before | None => Ok tt end);
    copy ← or_say (λ e, "cannot duplicate " +:+ p +:+ ": " +:+ io_text e) (try_clone fd);
    data ← or_say (λ e, "cannot read " +:+ p +:+ ": " +:+ io_text e) (read_to_end copy (MAX_RUNTIME_BYTES + 1));
    n ← or_say (λ e, "cannot re-examine " +:+ p +:+ ": " +:+ io_text e) (fstat fd);
    let after := identity_of n in
    _ ← give (validate_stable_file_identity p before after);
    if negb (Z.of_nat (String.length data) =? size after) then fail (p +:+ " changed while it was read")
    else
      identity ← give (inspect_elf data);
      _ ← give (validate_elf_identity identity);
      mret after.

Record OpenedRuntime := { file : Z; display_path : string }.

Definition open_trust_root (root : string) : Look string Z :=
  opened ← caught (open_root root);
  match opened with
  | Ok fd => mret fd
  | Err e =>
      again ← caught (lstat root);
      let kind := match again with Ok n => if is_type IsSymlink n then "trusted root is a symbolic link: "%string else ""%string | Err _ => ""%string end in
      fail ("cannot open trusted root " +:+ root +:+ ": " +:+ kind +:+ io_text e)
  end.

Definition open_privileged_candidate (fuel : nat) (root relative : string) : Look string OpenedRuntime :=
  if str_has_char nul root then fail ("trusted root " +:+ root +:+ " contains NUL")
  else
    fd ← open_trust_root root;
    r ← or_say (λ e, "cannot examine trusted root " +:+ root +:+ ": " +:+ io_text e) (fstat fd);
    if negb (is_type IsDirectory r) then fail ("trusted root " +:+ root +:+ " is not a directory")
    else
      _ ← give (validate_owner_and_mode root r required_uid);
      found ← or_say (λ e, "candidate " +:+ relative +:+ " escapes or cannot be opened beneath " +:+ root +:+ ": " +:+ e)
                (open_confined_candidate fuel fd relative);
      let p := join root relative in
      n ← or_say (λ e, "cannot examine " +:+ p +:+ ": " +:+ io_text e) (fstat found);
      capability ← has_linux_file_capability found p;
      _ ← give (validate_privileged_file_metadata p n required_uid capability);
      validated ← validate_opened_elf found p (Some (identity_of n));
      final ← or_say (λ e, "cannot re-examine " +:+ p +:+ ": " +:+ io_text e) (fstat found);
      _ ← give (validate_stable_file_identity p validated (identity_of final));
      final_capability ← has_linux_file_capability found p;
      _ ← give (validate_privileged_file_metadata p final required_uid final_capability);
      mret {| file := found; display_path := p |}.

(** [File::open] follows links. *)
Definition open_unprivileged_override (p : string) : Look string OpenedRuntime :=
  fd ← or_say (λ e, "cannot open explicit ONNX Runtime " +:+ p +:+ ": " +:+ io_text e) (call (λ w, followed w p));
  _ ← validate_opened_elf fd p None;
  mret {| file := fd; display_path := p |}.
End walks.

(** ** Providers *)
Inductive ProviderKind := Cpu | Cuda | Rocm | OpenVino.

#[export] Instance ProviderKind_eq_dec : EqDecision ProviderKind.
Proof. solve_decision. Defined.

Definition ALL : list ProviderKind := [Cpu; Cuda; Rocm; OpenVino].
Definition AUTO_PRIORITY : list ProviderKind := [Cuda; Rocm; OpenVino].

Definition provider_name (k : ProviderKind) : string :=
  match k with Cpu => "cpu" | Cuda => "cuda" | Rocm => "rocm" | OpenVino => "openvino" end.

Definition parse_provider (name : string) : option ProviderKind := List.find (λ k, String.eqb (provider_name k) name) ALL.

Inductive RuntimeProvider := Auto | Configured (kind : ProviderKind).

Definition runtime_provider_name (p : RuntimeProvider) : string :=
  match p with Auto => "auto" | Configured kind => provider_name kind end.

Definition with_valid_provider {E A} (say : string → E) (provider : string) (loader : ProviderKind → Look E A) : Look E (ProviderKind * A) :=
  match parse_provider provider with
  | None => fail (say ("Unknown execution provider '" +:+ provider +:+ "'. Valid values: " +:+ String.concat ", " (map provider_name ALL)))
  | Some kind => loaded ← loader kind; mret (kind, loaded)
  end.

Definition select_by_priority (available : list ProviderKind) : ProviderKind :=
  default Cpu (List.find (λ k, existsb (λ a, bool_decide (a = k)) available) AUTO_PRIORITY).

Record ProviderDetection := { provider : ProviderKind; available : list ProviderKind }.

Definition summarize (d : ProviderDetection) : string :=
  match available d with
  | [] => "the installed ONNX Runtime has no GPU execution providers compiled in"
  | ks => "the installed ONNX Runtime supports " +:+ String.concat ", " (map provider_name ks)
  end.
Definition explain (d : ProviderDetection) : string := summarize d +:+ "; selecting " +:+ provider_name (provider d).

(** ** Loading the runtime *)

(** What the [ort] crate answers: mapping the file behind a descriptor at a moment, whether the
    runtime that was mapped was built with a provider (a failed or panicking query is a no), and
    registering one with a session. *)
Class Ort := {
  SessionBuilder : Type;
  init_from : Z → nat → result unit string;
  is_available : ProviderKind → bool;
  with_execution_provider : ProviderKind → SessionBuilder → result SessionBuilder string }.

Record Environment := { runtime : OpenedRuntime; from : RuntimeCandidate }.

Section loading.
Context {EP : ElfParser} {SD : ShowDebug} {OR : Ort}.
Context (world : nat → Snapshot) (self : Process) (fuel : nat).

Definition open_candidate (c : RuntimeCandidate) : Look string OpenedRuntime :=
  if bool_decide (source c = ExplicitOverride) then open_unprivileged_override world (path c)
  else
    match trust_root c, relative_path c with
    | Some root, Some relative =>
        resolved ← resolve_trusted_root world 0 fuel root;
        _ ← validate_root_ancestors world 0 resolved;
        open_privileged_candidate world 0 fuel resolved relative
    | _, _ => fail "trusted ONNX Runtime candidate has no confinement root"
    end.

Definition build_environment (fd : Z) : Look string unit := λ k, (Some (init_from fd k), S k).

Definition exhausted (failures : list string) : string :=
  "Could not find a trusted " +:+ EXPECTED_SONAME +:+ ". Ensure the package is installed correctly. ORT_DYLIB_PATH is accepted only in an unprivileged process."
  +:+ match failures with [] => "" | _ => " Rejected candidates: " +:+ String.concat "; " failures end.

Fixpoint try_candidates (candidates : list RuntimeCandidate) (failures : list string) : Look string Environment :=
  match candidates with
  | [] => fail (exhausted failures)
  | c :: candidates =>
      there ← caught (lstat world (path c));
      match there with
      | Err e =>
          if is_not_found e then try_candidates candidates failures
          else try_candidates candidates (failures ++ [path c +:+ ": " +:+ io_text e])
      | Ok _ =>
          opened ← caught (open_candidate c);
          match opened with
          | Err e => try_candidates candidates (failures ++ [path c +:+ ": " +:+ e])
          | Ok o =>
              built ← caught (build_environment (file o));
              match built with
              | Ok _ => mret {| runtime := o; from := c |}
              | Err e => try_candidates candidates (failures ++ [display_path o +:+ ": " +:+ e])
              end
          end
      end
  end.

Definition initialize_ort (provider : RuntimeProvider) : Look string Environment :=
  let privilege := current_privilege self in
  let override := match privilege with Unprivileged => ort_dylib_path self | Privileged => None end in
  try_candidates (runtime_candidates (runtime_provider_name provider) override privilege) [].

(** The process loads once: [cell] is what an earlier call answered, and afterwards it holds the answer. *)
Definition load_ort {E} (cell : option (result Environment string)) (provider : RuntimeProvider) : Look E (result Environment string) :=
  match cell with
  | Some kept => mret kept
  | None => caught (initialize_ort provider)
  end.

Definition ensure_runtime_loaded (cell : option (result Environment string)) (provider : string) : Look string Environment :=
  loaded ← with_valid_provider id provider (λ kind, r ← load_ort cell (Configured kind); give r); mret (snd loaded).

Definition detect_execution_provider (cell : option (result Environment string)) : Look string ProviderDetection :=
  r ← load_ort cell Auto;
  _ ← give r;
  let available := List.filter is_available AUTO_PRIORITY in
  mret {| provider := select_by_priority available; available := available |}.

Definition said_of (k : ProviderKind) : string :=
  match k with
  | Cpu => "" | Cuda => "CUDA execution provider: " | Rocm => "ROCm execution provider: " | OpenVino => "OpenVINO execution provider: "
  end.

Definition register_execution_provider (cell : option (result Environment string)) (builder : SessionBuilder) (provider : string) :
    Look string SessionBuilder :=
  loaded ← with_valid_provider id provider (λ kind, r ← load_ort cell (Configured kind); give r);
  match fst loaded with
  | Cpu => mret builder
  | kind => give (map_err (λ e, said_of kind +:+ e) (with_execution_provider kind builder))
  end.
End loading.
