(* ===== verification/ProviderProofs.v ===== *)
(** * ProviderProofs: what a process maps as its runtime

    Properties of [Provider.v], whatever each system call finds or fails with. *)

From stdpp Require Import gmap.
From S2P Require Import Prelude Text Provenance PamFiles Provider.

(** ** Inverting a run that worked *)
Lemma look_bind_ok {E A B} (c : Look E A) (f : A → Look E B) k b k' : (c ≫= f) k = (Some (Ok b), k') →
  ∃ a k1, c k = (Some (Ok a), k1) ∧ f a k1 = (Some (Ok b), k').
Proof. unfold mbind, Look_bind. destruct (c k) as [[[a|e]|] k1]; naive_solver. Qed.

Lemma give_ok {E A} (r : result A E) k a k' : give r k = (Some (Ok a), k') → r = Ok a ∧ k' = k.
Proof. by intros [= -> ->]. Qed.

Lemma ret_ok {E A} (x : A) k a k' : (mret x : Look E A) k = (Some (Ok a), k') → a = x ∧ k' = k.
Proof. by intros [= -> ->]. Qed.

Lemma caught_ok {E F A} (c : Look E A) k r k' : (caught c : Look F _) k = (Some (Ok r), k') → c k = (Some r, k').
Proof. unfold caught. destruct (c k) as [[x|] k1]; by intros [= <- <-]. Qed.

Lemma or_say_ok {E F A} (f : E → F) (c : Look E A) k a k' : or_say f c k = (Some (Ok a), k') → c k = (Some (Ok a), k').
Proof.
  intros (r & k1 & Hc & Hg)%look_bind_ok. apply caught_ok in Hc. apply give_ok in Hg as [Hr ->]. destruct r; [|done].
  by injection Hr as ->.
Qed.

Lemma result_bind_ok {A B E} (r : result A E) (f : A → result B E) b :
  match r with Ok a => f a | Err e => Err e end = Ok b → ∃ a, r = Ok a ∧ f a = Ok b.
Proof. destruct r; naive_solver. Qed.

Lemma map_err_gave {A E F} (f : E → F) (r : result A E) a : map_err f r = Ok a → r = Ok a.
Proof. destruct r; naive_solver. Qed.

Lemma call_ok {A} world (f : Snapshot → result A IoError) k a k' : call world f k = (Some (Ok a), k') → f (world k) = Ok a ∧ k' = S k.
Proof. unfold call. destruct (call_fails (world k)); by intros [= ? ->]. Qed.

Lemma node_of_ok w i n : node_of w i = Ok n → node_at w i = Some n.
Proof. unfold node_of. destruct (node_at w i); congruence. Qed.

Lemma fstat_ok world fd k n k' : fstat world fd k = (Some (Ok n), k') → node_at (world k) fd = Some n ∧ k' = S k.
Proof. by intros [?%node_of_ok ?]%call_ok. Qed.

Lemma read_to_end_ok world fd limit k data k' : read_to_end world fd limit k = (Some (Ok data), k') →
  ∃ n, node_at (world k) fd = Some n ∧ data = first_bytes limit (n_content n) ∧ k' = S k.
Proof. intros [H ->]%call_ok. apply result_bind_ok in H as (n & Hn & [= <-]). apply node_of_ok in Hn. eauto. Qed.

Lemma try_clone_ok world fd k copy k' : try_clone world fd k = (Some (Ok copy), k') → copy = fd ∧ k' = S k.
Proof. intros [H ->]%call_ok. by apply result_bind_ok in H as (n & Hn & [= <-]). Qed.

Ltac split_if H := match type of H with
  | (if ?b then _ else _) _ = _ => let E := fresh "E" in destruct b eqn:E
  | (if ?b then _ else _) = _ => let E := fresh "E" in destruct b eqn:E
  end.

Ltac inv_look := repeat match goal with
  | H : (_ ≫= _) _ = (Some (Ok _), _) |- _ =>
      let a := fresh "a" in let k := fresh "k" in let H1 := fresh "Hc" in let H2 := fresh "Hk" in
      apply look_bind_ok in H as (a & k & H1 & H2); cbv beta zeta in H2
  | H : give _ _ = (Some (Ok _), _) |- _ => apply give_ok in H as [H ->]
  | H : mret _ _ = (Some (Ok _), _) |- _ => apply ret_ok in H as [-> ->]
  | H : or_say _ _ _ = (Some (Ok _), _) |- _ => apply or_say_ok in H
  | H : caught _ _ = (Some (Ok _), _) |- _ => apply caught_ok in H
  | H : fstat _ _ _ = (Some (Ok _), _) |- _ => apply fstat_ok in H as [H ->]
  | H : fail _ _ = (Some (Ok _), _) |- _ => discriminate H
  | H : Err _ = Ok _ |- _ => discriminate H
  | H : map_err _ _ = Ok _ |- _ => apply map_err_gave in H
  | H : (if _ then _ else _) _ = (Some (Ok _), _) |- _ => split_if H
  | H : (if _ then _ else _) = Ok _ |- _ => split_if H
  end.

(** ** Time: looking never goes back *)
Definition Forward {E A} (c : Look E A) : Prop := ∀ k, (k ≤ snd (c k))%nat.

Lemma forward_bind {E A B} (c : Look E A) (f : A → Look E B) : Forward c → (∀ a, Forward (f a)) → Forward (c ≫= f).
Proof.
  intros Hc Hf k. unfold mbind, Look_bind. specialize (Hc k). destruct (c k) as [[[a|e]|] k1]; cbn in *; [|done..].
  etrans; [exact Hc|apply Hf].
Qed.

Lemma forward_caught {E F A} (c : Look E A) : Forward c → Forward (caught c : Look F _).
Proof. intros Hc k. specialize (Hc k). unfold caught. by destruct (c k) as [[r|] k1]. Qed.

Lemma forward_call {A} world (f : Snapshot → result A IoError) : Forward (call world f).
Proof. intros k. cbn. lia. Qed.

Lemma forward_give {E A} (r : result A E) : Forward (give r).
Proof. intros k. cbn. lia. Qed.
Lemma forward_ret {E A} (a : A) : Forward (mret a : Look E A).
Proof. intros k. cbn. lia. Qed.
Lemma forward_fail {E A} (e : E) : Forward (fail e : Look E A).
Proof. intros k. cbn. lia. Qed.
Lemma forward_unended {E A} : Forward (unended : Look E A).
Proof. intros k. cbn. lia. Qed.
Lemma forward_or_say {E F A} (f : E → F) (c : Look E A) : Forward c → Forward (or_say f c).
Proof. intros Hc. apply forward_bind; [by apply forward_caught|]. intros r. apply forward_give. Qed.

Create HintDb looking discriminated.
#[export] Hint Resolve forward_bind forward_caught forward_call forward_give forward_ret forward_fail forward_unended forward_or_say : looking.

(** A program built of calls: its shape shows it. *)
Ltac forward := repeat first
  [ solve [eauto 2 with looking] | apply forward_bind; [|intros ?] | apply forward_or_say | apply forward_caught
  | apply forward_call | match goal with |- Forward (match ?x with _ => _ end) => destruct x end ].

Section forward.
Context (world : nat → Snapshot) (required_uid : Z) {EP : ElfParser} {SD : ShowDebug}.

Lemma forward_readlink fd rooms : Forward (read_symlink_loop world fd rooms).
Proof. induction rooms; cbn [read_symlink_loop]; unfold readlink_into; forward. Qed.

Lemma forward_walk fuel : ∀ whole parent names links walked, Forward (walk world required_uid fuel whole parent names links walked).
Proof.
  induction fuel; intros; cbn [walk]; unfold openat_path, openat_read, fstat, read_symlink_descriptor; cbv zeta; forward; apply forward_readlink.
Qed.

Lemma forward_resolve_loop fuel : ∀ resolved names links, Forward (resolve_loop world required_uid fuel resolved names links).
Proof. induction fuel; intros; cbn [resolve_loop]; unfold lstat, read_link; cbv zeta; forward. Qed.

Lemma forward_directories ps : Forward (validate_directories world required_uid ps).
Proof. induction ps; cbn [validate_directories]; unfold validate_directory, lstat; forward. Qed.

Lemma forward_opened_elf fd p expected : Forward (validate_opened_elf world fd p expected).
Proof. unfold validate_opened_elf, fstat, try_clone, read_to_end. cbv zeta. forward. Qed.

Lemma forward_privileged fuel root relative : Forward (open_privileged_candidate world required_uid fuel root relative).
Proof.
  unfold open_privileged_candidate, open_trust_root, open_root, lstat, fstat, open_confined_candidate, try_clone, has_linux_file_capability. cbv zeta.
  forward; auto using forward_walk, forward_opened_elf.
Qed.
End forward.

Lemma forward_candidate {EP : ElfParser} {SD : ShowDebug} world fuel c : Forward (open_candidate world fuel c).
Proof.
  unfold open_candidate, open_unprivileged_override, resolve_trusted_root, resolve_trusted_dir, validate_root_ancestors.
  forward; auto using forward_opened_elf, forward_resolve_loop, forward_directories, forward_privileged.
Qed.

Lemma forward_candidates {EP : ElfParser} {SD : ShowDebug} {OR : Ort} world fuel cs failures : Forward (try_candidates world fuel cs failures).
Proof.
  revert failures. induction cs as [|c cs IH]; intros failures; cbn [try_candidates]; [forward|].
  unfold lstat. forward; auto using forward_candidate. intros k. cbn. lia.
Qed.

Lemma forward_ensure {EP : ElfParser} {SD : ShowDebug} {OR : Ort} world self fuel cell provider :
  Forward (ensure_runtime_loaded world self fuel cell provider).
Proof.
  unfold ensure_runtime_loaded, with_valid_provider, load_ort, initialize_ort. cbv zeta. forward; apply forward_candidates.
Qed.

Lemma forward_register {EP : ElfParser} {SD : ShowDebug} {OR : Ort} world self fuel cell builder provider :
  Forward (register_execution_provider world self fuel cell builder provider).
Proof.
  unfold register_execution_provider, with_valid_provider, load_ort, initialize_ort. cbv zeta. forward; apply forward_candidates.
Qed.

(** ** What was established *)
Section safety.
Context (world : nat → Snapshot) (required_uid : Z).

(** A directory only the required user can change; a file only it can change, with one name and no special powers. *)
Definition SafeDirectory (n : Node) : Prop :=
  n_type n = IsDirectory ∧ n_uid n = required_uid ∧ Z.land (n_mode n) 18 = 0.
Definition SafeFile (n : Node) : Prop :=
  n_type n = IsRegular ∧ n_uid n = required_uid ∧ Z.land (n_mode n) 18 = 0 ∧ n_nlink n = 1 ∧ Z.land (n_mode n) 3072 = 0.

Definition PlainName (name : string) : Prop := name ≠ "" ∧ name ≠ "." ∧ name ≠ "..".

(** The directories a walk may stand in: its root, and what it saw, under a plain name and as a safe
    directory, in such a directory. *)
Inductive Below (root : Z) : Z → Prop :=
  | below_root : Below root root
  | below_entry d name k i j n :
      Below root d → PlainName name → entry_of (world k) d name = Ok i → node_at (world j) i = Some n → SafeDirectory n →
      Below root i.

Definition FileBelow (root i : Z) : Prop := ∃ d name k, Below root d ∧ PlainName name ∧ entry_of (world k) d name = Ok i.

Lemma owner_and_mode_ok p n : validate_owner_and_mode p n required_uid = Ok tt → n_uid n = required_uid ∧ Z.land (n_mode n) 18 = 0.
Proof. unfold validate_owner_and_mode. intros H. inv_look. apply negb_false_iff in E, E0. lia. Qed.

Lemma file_metadata_ok p n capability : validate_privileged_file_metadata p n required_uid capability = Ok tt → SafeFile n ∧ capability = false.
Proof.
  unfold validate_privileged_file_metadata, is_type. intros H. inv_look.
  apply result_bind_ok in H as ([] & H1 & H2). apply owner_and_mode_ok in H1 as [??]. inv_look. apply negb_false_iff in E, E0, E1.
  apply bool_decide_eq_true in E. unfold SafeFile. repeat split; auto; lia.
Qed.

Lemma confined_plain p names : confined_components p = Ok names → Forall PlainName names.
Proof.
  unfold confined_components, valid_relative_candidate. destruct (_ && _) eqn:E; [|done]. intros [= <-]. bsplit.
  apply Forall_forall. intros name Hin. rewrite forallb_forall in H0. specialize (H0 name (proj1 (list_elem_of_In _ _) Hin)). bsplit. unfold PlainName, is_empty_str in *. destruct name; naive_solver.
Qed.

Lemma readlink_mono fd rooms k t k' : read_symlink_loop world fd rooms k = (Some (Ok t), k') → (k ≤ k')%nat.
Proof.
  revert k. induction rooms as [|room rooms IH]; intros k H; [discriminate|]. cbn [read_symlink_loop] in H. inv_look.
  all: apply call_ok in Hc as [_ ->]; first [lia|apply IH in Hk; lia].
Qed.

(** Whatever a walk returns was found under a plain name in a directory below the root. *)
Lemma walk_below root fuel : ∀ whole parent names links walked k f k',
  walk world required_uid fuel whole parent names links walked k = (Some (Ok f), k') →
  Below root parent → Forall PlainName names → FileBelow root f ∧ (k ≤ k')%nat.
Proof.
  induction fuel as [|fuel IH]; intros whole parent [|name names] links walked k f k' H Hp Hn; try discriminate H.
  cbn [walk] in H. inv_look; apply Forall_cons in Hn as [Hname Hn].
  - apply call_ok in Hc as [_ ->]. apply readlink_mono in Hc2.
    apply IH in Hk as [??]; [split; [done|lia]|done|]. apply Forall_app. eauto using confined_plain.
  - unfold is_type in *. bsplit. destruct a1. apply owner_and_mode_ok in Hc1 as [??]. apply call_ok in Hc as [Hc ->].
    apply IH in Hk as [??]; [split; [done|lia]| |done]. eapply below_entry; eauto. split_and!; auto. by apply bool_decide_eq_true in E0.
  - apply call_ok in Hc1 as [Hc1 ->]. apply result_bind_ok in Hc1 as (i & Hi & Hf). cbv beta in Hf. apply result_bind_ok in Hf as (m & Hm & Hf). inv_look.
    injection Hf as <-. apply call_ok in Hc as [_ ->]. split; [|lia]. exists parent, name. eauto.
Qed.

(** ** A file that was checked *)
Context {EP : ElfParser} {SD : ShowDebug}.

(** A 64-bit library of this machine and of the expected name, which looks for others beside itself only. *)
Definition Acceptable (data : string) : Prop :=
  ∃ f i, parse_elf data = Ok f ∧ elf_is_64 f = true ∧ inspect_elf data = Ok i ∧
    architecture i = expected_elf_architecture ∧ soname i = Some EXPECTED_SONAME ∧
    Forall (λ entry, entry = "$ORIGIN" ∨ entry = "${ORIGIN}") (rpath i ++ runpath i).

(** Between calls [lo] and [hi] all of the file was read and found acceptable, and its identity was
    [id] before and after. *)
Definition ReadWhole (fd : Z) (id : StableFileIdentity) (lo hi : nat) : Prop :=
  ∃ i j m before content after, (lo ≤ i < j)%nat ∧ (j < m < hi)%nat ∧
    node_at (world i) fd = Some before ∧ node_at (world j) fd = Some content ∧ node_at (world m) fd = Some after ∧
    identity_of before = id ∧ identity_of after = id ∧ n_type before = IsRegular ∧
    (let data := first_bytes (MAX_RUNTIME_BYTES + 1) (n_content content) in
     Z.of_nat (String.length data) = size id ∧ size id ≤ MAX_RUNTIME_BYTES ∧ Acceptable data).

Lemma read_whole_window fd id lo hi : ReadWhole fd id lo hi → (S (S lo) < hi)%nat.
Proof. intros (i & j & m & b & c & a & ? & ? & _). lia. Qed.

Lemma read_whole_earlier fd id lo lo' hi : ReadWhole fd id lo hi → (lo' ≤ lo)%nat → ReadWhole fd id lo' hi.
Proof. intros (i & j & m & b & c & a & ? & ?) ?. exists i, j, m, b, c, a. split; [lia|done]. Qed.

Lemma search_path_ok kind entries : validate_search_path kind entries = Ok tt → Forall (λ entry, entry = "$ORIGIN" ∨ entry = "${ORIGIN}") entries.
Proof.
  induction entries as [|entry entries IH]; cbn [validate_search_path]; intros H; [by constructor|].
  inv_look. constructor; [|auto]. apply orb_true_iff in E as [E|E]; bsplit; auto.
Qed.

Lemma acceptable data i : inspect_elf data = Ok i → validate_elf_identity i = Ok tt → Acceptable data.
Proof.
  intros Hi Hv. unfold Acceptable. unfold inspect_elf in Hi. pose proof Hi as H. apply result_bind_ok in H as (f & Hf & H). inv_look. bsplit.
  exists f, i. unfold validate_elf_identity in Hv. inv_look. bsplit. apply bool_decide_eq_true in E0, E1.
  apply result_bind_ok in Hv as ([] & Hr & Hu). apply search_path_ok in Hr, Hu. rewrite Forall_app. by split_and!.
Qed.

Lemma stable_ok p before after : validate_stable_file_identity p before after = Ok tt → before = after.
Proof. unfold validate_stable_file_identity. by destruct (decide (before = after)) as [->|?]; [|rewrite bool_decide_eq_false_2]. Qed.

Lemma opened_elf_ok fd p expected k id k' : validate_opened_elf world fd p expected k = (Some (Ok id), k') →
  ReadWhole fd id k k' ∧ (∀ e, expected = Some e → e = id).
Proof.
  unfold validate_opened_elf. intros H. inv_look. destruct a0, a4, a6.
  apply try_clone_ok in Hc1 as [-> ->]. apply read_to_end_ok in Hc2 as (c & Hc' & -> & ->).
  apply stable_ok in Hc4. unfold is_type in *. bsplit. apply bool_decide_eq_true in E.
  split.
  - exists k, (S (S k)), (S (S (S k))), a, c, a3. rewrite <- Hc4. split_and!; auto; try lia.
    cbv zeta. rewrite E1, Hc4. split_and!; [done|by rewrite <- Hc4|by eapply acceptable].
  - intros e ->. apply stable_ok in Hc0. congruence.
Qed.

(** ** A file that a privileged process opened *)

(** It was reached below its root; it was safe before all of it was read and after, and it stayed the same file. *)
Definition Vetted (fd : Z) (root : string) (lo hi : nat) : Prop :=
  (∃ r k n, by_path (world k) root = Ok r ∧ node_at (world (S k)) r = Some n ∧ SafeDirectory n ∧ (lo ≤ k < hi)%nat ∧ FileBelow r fd) ∧
  (∃ i m before after, node_at (world i) fd = Some before ∧ node_at (world m) fd = Some after ∧
     SafeFile before ∧ SafeFile after ∧ identity_of before = identity_of after ∧
     (lo ≤ i < m)%nat ∧ (S m < hi)%nat ∧ ReadWhole fd (identity_of before) i m ∧
     ∃ last, node_at (world (S m)) fd = Some last ∧ n_capability last = false).

Lemma capability_ok fd p k b k' : has_linux_file_capability world fd p k = (Some (Ok b), k') →
  (∃ n, node_at (world k) fd = Some n ∧ n_capability n = b) ∧ k' = S k.
Proof.
  unfold has_linux_file_capability. intros H. inv_look. apply call_ok in H as [H ->]. split; [|done].
  apply result_bind_ok in H as (n & Hn%node_of_ok & [= <-]). eauto.
Qed.

Lemma trust_root_ok root k r k' : open_trust_root world root k = (Some (Ok r), k') → by_path (world k) root = Ok r ∧ k' = S k.
Proof.
  unfold open_trust_root. intros H. inv_look. destruct a as [fd|e]; inv_look. apply call_ok in Hc as [H ->]. split; [|done].
  apply result_bind_ok in H as (i & Hi & H). apply result_bind_ok in H as (n & Hn & H). inv_look. by injection H as ->.
Qed.

Lemma privileged_candidate_ok fuel root relative k o k' :
  open_privileged_candidate world required_uid fuel root relative k = (Some (Ok o), k') → Vetted (file o) root k k'.
Proof.
  unfold open_privileged_candidate, open_confined_candidate. intros H. inv_look. destruct a1, a5, a8, a10.
  apply trust_root_ok in Hc as [Hroot ->]. apply try_clone_ok in Hc11 as [-> ->].
  apply capability_ok in Hc4 as [_ ->], Hc9 as [(last & Hlast & <-) ->].
  apply owner_and_mode_ok in Hc1. apply file_metadata_ok in Hc5 as [Hb _], Hc10 as [Ha Hno].
  apply opened_elf_ok in Hc6 as [Hread Heq]. specialize (Heq _ eq_refl) as <-. apply stable_ok in Hc8.
  apply (walk_below a) in Hk0 as [Hbelow Hle]; [|constructor|by eapply confined_plain].
  pose proof (read_whole_window _ _ _ _ Hread).
  unfold is_type in E0. bsplit. apply bool_decide_eq_true in E0. split.
  - exists a, k, a0. cbn [file]. split_and!; auto; [by destruct Hc1|lia].
  - exists k2, k6, a3, a7. cbn [file]. split_and!; eauto; try lia.
    eapply read_whole_earlier; [done|lia].
Qed.

(** *** The path of the root *)
Definition SafeAt (lo hi : nat) (p : string) : Prop :=
  ∃ j i n, (lo ≤ j < hi)%nat ∧ by_path (world j) p = Ok i ∧ node_at (world j) i = Some n ∧ SafeDirectory n.

Lemma safe_at_later lo lo' hi hi' p : SafeAt lo hi p → (lo' ≤ lo)%nat → (hi ≤ hi')%nat → SafeAt lo' hi' p.
Proof. intros (j & i & n & ? & ?) ??. exists j, i, n. split; [lia|done]. Qed.

Lemma lstat_ok p k n k' : lstat world p k = (Some (Ok n), k') →
  (∃ i, by_path (world k) p = Ok i ∧ node_at (world k) i = Some n) ∧ k' = S k.
Proof. intros [H ->]%call_ok. apply result_bind_ok in H as (i & Hi & Hn%node_of_ok). eauto. Qed.

Lemma directories_ok ps : ∀ k u k', validate_directories world required_uid ps k = (Some (Ok u), k') →
  (k ≤ k')%nat ∧ Forall (SafeAt k k') ps.
Proof.
  induction ps as [|p ps IH]; intros k u k' H; cbn [validate_directories] in H; inv_look; [by split|].
  unfold validate_directory in Hc. inv_look. apply lstat_ok in Hc0 as [(i & Hi & Hn) ->]. apply IH in Hk as [Hle Hps].
  destruct a. apply owner_and_mode_ok in Hk0 as [??]. unfold is_type in *. bsplit. apply bool_decide_eq_true in E0.
  split; [lia|]. constructor.
  - exists k, i, a0. by split_and!; try lia.
  - eapply Forall_impl; [exact Hps|]. intros q Hq. eapply safe_at_later; [exact Hq|lia|lia].
Qed.

Lemma resolve_loop_plain fuel : ∀ resolved names links k root k',
  resolve_loop world required_uid fuel resolved names links k = (Some (Ok root), k') → Forall PlainName names →
  (k ≤ k')%nat ∧ ∃ plain, Forall PlainName plain ∧ root = fold_left join plain resolved.
Proof.
  induction fuel as [|fuel IH]; intros resolved [|name names] links k root k' H Hn; try discriminate H; cbn [resolve_loop] in H.
  { inv_look. split; [done|]. by exists []. }
  apply Forall_cons in Hn as [Hname Hn]. inv_look; apply lstat_ok in Hc as [_ ->].
  - apply call_ok in Hc1 as [_ ->]. apply IH in Hk0 as [? Hr]; [split; [lia|done]|]. apply Forall_app. eauto using confined_plain.
  - apply IH in Hk0 as [? (plain & ? & ->)]; [|done]. split; [lia|]. exists (name :: plain). by split; [constructor|].
Qed.

Lemma resolved_plain fuel t k root k' : resolve_trusted_root world required_uid fuel t k = (Some (Ok root), k') →
  (k ≤ k')%nat ∧ ∃ plain, Forall PlainName plain ∧ root = fold_left join plain "/".
Proof.
  unfold resolve_trusted_root. destruct (strip_prefix "/" t); [|discriminate]. unfold resolve_trusted_dir. intros H. inv_look.
  eapply resolve_loop_plain; eauto using confined_plain.
Qed.
End safety.

(** ** What a process maps *)
Section loaded.
Context {EP : ElfParser} {SD : ShowDebug} {OR : Ort}.
Context (world : nat → Snapshot) (self : Process) (fuel : nat).

(** No privilege of any kind. *)
Definition Powerless : Prop :=
  p_uid self ≠ 0 ∧ p_euid self = p_uid self ∧ p_gid self ≠ 0 ∧ p_egid self = p_gid self ∧ p_secure self = false ∧
  current_thread_capabilities (p_status self) = Ok false.

(** Below what the candidate's root resolves to, a root whose every ancestor is safe and whose path has no detours, a file that was vetted, then mapped. *)
Definition FromTrustedRoot (e : Environment) (k k' : nat) : Prop :=
  ∃ t plain lo hi m, let root := fold_left join plain "/" in
    trust_root (from e) = Some t ∧ (∃ j j', resolve_trusted_root world 0 fuel t j = (Some (Ok root), j')) ∧
    Forall PlainName plain ∧ (k ≤ lo ≤ hi)%nat ∧ (hi ≤ m < k')%nat ∧
    Forall (SafeAt world 0 k hi) (ancestors root) ∧ Vetted world 0 (file (runtime e)) root lo hi ∧ init_from (file (runtime e)) m = Ok tt.

Definition FromOverride (e : Environment) (k k' : nat) : Prop :=
  ∃ id lo hi m, (k ≤ lo)%nat ∧ (hi ≤ m < k')%nat ∧ followed (world (pred lo)) (path (from e)) = Ok (file (runtime e)) ∧
    ReadWhole world (file (runtime e)) id lo hi ∧ init_from (file (runtime e)) m = Ok tt.

Definition Mapped (e : Environment) (k k' : nat) : Prop :=
  if bool_decide (source (from e) = ExplicitOverride) then FromOverride e k k' else FromTrustedRoot e k k'.

Lemma mapped_earlier e lo lo' hi : Mapped e lo hi → (lo' ≤ lo)%nat → Mapped e lo' hi.
Proof.
  unfold Mapped. case_bool_decide; intros H' Hle.
  - destruct H' as (id & l & h & m & ? & ?). exists id, l, h, m. split; [lia|done].
  - destruct H' as (t & plain & l & h & m & Ht & Hr & Hp & ? & ? & Ha & Hv & Hi). exists t, plain, l, h, m. split_and!; try done; try lia.
    eapply Forall_impl; [exact Ha|]. intros q Hq. eapply safe_at_later; [exact Hq|lia|lia].
Qed.

Lemma candidate_mapped c o k k1 k2 u : open_candidate world fuel c k = (Some (Ok o), k1) →
  build_environment (file o) k1 = (Some (Ok u), k2) → Mapped {| runtime := o; from := c |} k k2.
Proof.
  unfold open_candidate, Mapped. cbn [from runtime]. intros H [= Hi <-]. destruct u. case_bool_decide.
  - unfold open_unprivileged_override in H. inv_look. apply call_ok in Hc as [Hf ->]. apply opened_elf_ok in Hc0 as [Hr _].
    exists a0, (S k), k2, k2. cbn. split_and!; auto; lia.
  - destruct (trust_root c) as [t|] eqn:Ht; [|discriminate]. destruct (relative_path c); [|discriminate]. inv_look.
    pose proof Hc as Hresolve. apply resolved_plain in Hc as [? (plain & Hplain & ->)]. unfold validate_root_ancestors in Hc0. inv_look.
    apply directories_ok in Hc0 as [? Ha]. apply privileged_candidate_ok in Hk0. 
    assert (k2 < k1)%nat by (destruct Hk0 as [(r & kr & n & _ & _ & _ & ? & _) _]; lia).
    exists t, plain, k2, k1, k1. cbn. split_and!; eauto; try lia.
    eapply Forall_impl; [exact Ha|]. intros q Hq. eapply safe_at_later; [exact Hq|lia|lia].
Qed.

Lemma candidates_mapped cs : ∀ failures k e k', try_candidates world fuel cs failures k = (Some (Ok e), k') →
  from e ∈ cs ∧ Mapped e k k'.
Proof.
  induction cs as [|c cs IH]; intros failures k e k' H; [discriminate|]. cbn [try_candidates] in H. inv_look.
  assert (k ≤ k0)%nat. { unfold lstat, call in Hc. injection Hc as _ <-. lia. }
  assert (Hskip : ∀ fs k1, try_candidates world fuel cs fs k1 = (Some (Ok e), k') → (k ≤ k1)%nat → from e ∈ c :: cs ∧ Mapped e k k').
  { intros fs k1 [Hin Hm]%IH ?. split; [by right|]. by eapply mapped_earlier. }
  destruct a as [n|x]; [|destruct (is_not_found x); eauto]. inv_look.
  pose proof (forward_candidate world fuel c k0) as Hfwd. rewrite Hc0 in Hfwd. cbn in Hfwd.
  destruct a as [o|x]; [|eapply Hskip; [exact Hk0|lia]]. inv_look.
  destruct a as [u|x]; inv_look.
  - cbn [from]. split; [by left|]. eapply mapped_earlier; [by eapply candidate_mapped|done].
  - injection Hc1 as _ <-. eapply Hskip; [eassumption|lia].
Qed.

Lemma powerless : current_privilege self = Unprivileged → Powerless.
Proof.
  unfold current_privilege, privilege_context_from_facts, Powerless. destruct (_ || _) eqn:E; [discriminate|]. bsplit.
  destruct (current_thread_capabilities _); [intros _; subst; split_and!; congruence|discriminate].
Qed.

Lemma override_is_powerless provider override privilege c :
  c ∈ runtime_candidates provider override privilege → source c = ExplicitOverride →
  privilege = Unprivileged ∧ override = Some (path c) ∧ path c ≠ "".
Proof.
  unfold runtime_candidates, overriding. intros [Hin|Hin]%elem_of_app Hs.
  - destruct privilege, override as [[|a p]|]; cbn in Hin; try by apply not_elem_of_nil in Hin.
    apply list_elem_of_singleton in Hin as ->. done.
  - exfalso. revert Hin Hs. destruct (String.eqb provider "cpu"), (String.eqb provider "rocm" || String.eqb provider "auto"); cbn; rewrite ?elem_of_cons; intros Hin Hs;
      decompose [or] Hin; subst; try discriminate; by eapply not_elem_of_nil.
Qed.

(** What is established of a runtime that was mapped between calls [k] and [k']. *)
Definition TrustedRuntime (provider : RuntimeProvider) (e : Environment) (k k' : nat) : Prop :=
  from e ∈ runtime_candidates (runtime_provider_name provider) (ort_dylib_path self) (current_privilege self) ∧
  (source (from e) = ExplicitOverride → Powerless ∧ ort_dylib_path self = Some (path (from e)) ∧ FromOverride e k k') ∧
  (source (from e) ≠ ExplicitOverride → FromTrustedRoot e k k').

Lemma mapped_is_trusted provider k e k' : initialize_ort world self fuel provider k = (Some (Ok e), k') → TrustedRuntime provider e k k'.
Proof.
  unfold initialize_ort, TrustedRuntime. intros [Hin Hm]%candidates_mapped. unfold Mapped in Hm. split; [|split; intros Hs].
  - by destruct (current_privilege self).
  - rewrite bool_decide_eq_true_2 in Hm by done. apply override_is_powerless in Hin as (Hp & Ho & _); [|done].
    rewrite Hp in Ho. auto using powerless.
  - by rewrite bool_decide_eq_false_2 in Hm.
Qed.
End loaded.

(** ** Ending: with enough fuel every look has an answer *)
Definition Runs {E A} (c : Look E A) (Q : A → Prop) : Prop :=
  ∀ k, match fst (c k) with Some (Ok a) => Q a | Some (Err _) => True | None => False end.

Lemma runs_bind {E A B} (c : Look E A) (f : A → Look E B) (P : A → Prop) Q :
  Runs c P → (∀ a, P a → Runs (f a) Q) → Runs (c ≫= f) Q.
Proof.
  intros Hc Hf k. unfold mbind, Look_bind. specialize (Hc k). destruct (c k) as [[[a|e]|] k1]; cbn in *; [|done..].
  by apply Hf.
Qed.

Lemma runs_caught {E F A} (c : Look E A) : Runs c (λ _, True) → Runs (caught c : Look F _) (λ _, True).
Proof. intros Hc k. specialize (Hc k). unfold caught. destruct (c k) as [[[a|e]|] k1]; done. Qed.

Lemma runs_or_say {E F A} (f : E → F) (c : Look E A) Q : Runs c Q → Runs (or_say f c) Q.
Proof. intros Hc k. specialize (Hc k). unfold or_say, caught, mbind, Look_bind. destruct (c k) as [[[a|e]|] k1]; done. Qed.

Lemma runs_give {E A} (r : result A E) (Q : A → Prop) : (∀ a, r = Ok a → Q a) → Runs (give r) Q.
Proof. intros Hr k. destruct r; cbn; auto. Qed.
Lemma runs_ret {E A} (a : A) (Q : A → Prop) : Q a → Runs (mret a : Look E A) Q.
Proof. by intros H k. Qed.
Lemma runs_fail {E A} (e : E) (Q : A → Prop) : Runs (fail e) Q.
Proof. by intros k. Qed.
Lemma runs_call {A} world (f : Snapshot → result A IoError) (Q : A → Prop) : (∀ k a, f (world k) = Ok a → Q a) → Runs (call world f) Q.
Proof. intros Hf k. unfold call. destruct (call_fails (world k)); cbn; [done|]. destruct (f (world k)) eqn:H; eauto. Qed.

Lemma runs_weaken {E A} (c : Look E A) (P Q : A → Prop) : Runs c P → (∀ a, P a → Q a) → Runs c Q.
Proof. intros Hc HPQ k. specialize (Hc k). destruct (fst (c k)) as [[a|e]|]; auto. Qed.

(** A program built of calls has an answer; what a link or a path gave is bounded where it matters. *)
Ltac runs_with known := repeat first
  [ known | apply runs_fail | apply runs_ret; done | apply runs_give; done | apply runs_call; done
  | apply runs_or_say | match goal with |- Runs (match ?x with _ => _ end) _ => destruct x end
  | eapply (runs_bind _ _ (λ _, True)); [|intros ? _] | apply runs_caught ].
Ltac runs := runs_with fail.

Lemma length_split_on c s : (length (split_on c s) ≤ S (String.length s))%nat.
Proof. induction s as [|a s IH]; cbn; [lia|]. destruct (Ascii.eqb a c), (split_on c s); cbn in *; lia. Qed.

Lemma length_first_bytes n s : (String.length (first_bytes n s) ≤ String.length s)%nat.
Proof. revert n. induction s as [|a s IH]; intros n; cbn; [lia|]. destruct (0 <? n); cbn; [specialize (IH (n - 1)); lia|lia]. Qed.

Lemma length_confined t names : confined_components t = Ok names → (length names ≤ S (String.length t))%nat.
Proof. unfold confined_components. destruct (valid_relative_candidate t); [|done]. intros [= <-]. apply length_split_on. Qed.

Section ending.
Context (world : nat → Snapshot) (B : nat).
Context (Hlinks : ∀ k i n, node_at (world k) i = Some n → (String.length (n_target n) ≤ B)%nat).

(** Each of the sixteen links adds what its target names, and each turn takes one name. *)
Definition left_to_walk (names : list string) (links : Z) : nat := length names + Z.to_nat (MAX_LINKS - links) * S B.

Lemma left_after_link inner names name links t :
  confined_components t = Ok inner → (String.length t ≤ B)%nat → 0 ≤ links → (MAX_LINKS <? saturating_succ links) = false →
  (left_to_walk (inner ++ names) (saturating_succ links) < left_to_walk (name :: names) links)%nat ∧ 0 ≤ saturating_succ links.
Proof.
  intros Hi%length_confined Ht Hl Hm. bsplit. unfold left_to_walk, saturating_succ, MAX_LINKS in *.
  rewrite length_app. cbn [length]. replace (Z.min 255 (links + 1)) with (links + 1) in * by lia. split; [|lia].
  replace (Z.to_nat (16 - links)) with (S (Z.to_nat (16 - (links + 1)))) by lia. lia.
Qed.

Lemma runs_read_symlink fd rooms : Runs (read_symlink_loop world fd rooms) (λ t, (String.length t ≤ B)%nat).
Proof.
  induction rooms as [|room rooms IH]; cbn [read_symlink_loop]; [apply runs_fail|].
  eapply runs_bind with (P := λ t, (String.length t ≤ B)%nat).
  - apply runs_call. intros k t Ht. apply result_bind_ok in Ht as (n & Hn%node_of_ok & Ht).
    destruct (is_type IsSymlink n); [|done]. injection Ht as <-. etrans; [apply length_first_bytes|by eapply Hlinks].
  - intros t Ht. destruct (_ <? _); [by apply runs_ret|done].
Qed.

Lemma runs_read_link p : Runs (read_link world p) (λ t, (String.length t ≤ B)%nat).
Proof.
  apply runs_call. intros k t Ht. apply result_bind_ok in Ht as (i & _ & Ht). apply result_bind_ok in Ht as (n & Hn%node_of_ok & Ht).
  destruct (is_type IsSymlink n); [|done]. injection Ht as <-. by eapply Hlinks.
Qed.

Lemma runs_walk uid fuel : ∀ whole parent names links walked, 0 ≤ links → (left_to_walk names links < fuel)%nat →
  Runs (walk world uid fuel whole parent names links walked) (λ _, True).
Proof.
  induction fuel as [|fuel IH]; intros whole parent [|name names] links walked Hl Hf; try lia; cbn [walk]; cbv zeta; [runs|].
  apply (runs_bind _ _ (λ _, True)); [runs|intros entry _]. apply (runs_bind _ _ (λ _, True)); [runs|intros n _].
  assert (Hnext : ∀ whole parent walked, Runs (walk world uid fuel whole parent names links walked) (λ _, True)).
  { intros. apply IH; [done|]. unfold left_to_walk in *. cbn [length] in Hf. lia. }
  destruct (is_type IsSymlink n); [|destruct (is_type IsDirectory n)].
  - destruct names; cbn [negb]; [|runs]. apply (runs_bind _ _ (λ _, True)); [runs|intros _ _].
    destruct (MAX_LINKS <? saturating_succ links) eqn:Hm; [runs|].
    eapply runs_bind; [apply runs_or_say, runs_read_symlink|]. intros t Ht.
    eapply runs_bind; [apply runs_give; intros inner Hi; exact (map_err_gave _ _ _ Hi)|]. intros inner Hi.
    destruct (left_after_link _ [] name _ _ Hi Ht Hl Hm) as [Hless Hpos]. apply IH; [exact Hpos|lia].
  - destruct names; runs. apply Hnext.
  - runs.
Qed.

Lemma runs_resolve_loop uid fuel : ∀ resolved names links, 0 ≤ links → (left_to_walk names links < fuel)%nat →
  Runs (resolve_loop world uid fuel resolved names links) (λ _, True).
Proof.
  induction fuel as [|fuel IH]; intros resolved [|name names] links Hl Hf; try lia; cbn [resolve_loop]; cbv zeta; [runs|].
  apply (runs_bind _ _ (λ _, True)); [runs|intros n _]. destruct (is_type IsSymlink n).
  - apply (runs_bind _ _ (λ _, True)); [runs|intros _ _]. destruct (MAX_LINKS <? saturating_succ links) eqn:Hm; [runs|].
    eapply runs_bind; [apply runs_or_say, runs_read_link|]. intros t Ht.
    eapply runs_bind; [apply runs_give; intros inner Hi; exact (map_err_gave _ _ _ Hi)|]. intros inner Hi.
    destruct (left_after_link _ names name _ _ Hi Ht Hl Hm) as [Hless Hpos]. apply IH; [exact Hpos|lia].
  - destruct (is_type IsDirectory n); cbn [negb]; runs. apply IH; [done|]. unfold left_to_walk in *. cbn [length] in Hf. lia.
Qed.

Lemma runs_directories uid ps : Runs (validate_directories world uid ps) (λ _, True).
Proof. induction ps; cbn [validate_directories]; unfold validate_directory; runs. done. Qed.

Context {EP : ElfParser} {SD : ShowDebug} {OR : Ort}.

Lemma runs_opened_elf fd p expected : Runs (validate_opened_elf world fd p expected) (λ _, True).
Proof. unfold validate_opened_elf. cbv zeta. runs. Qed.

Lemma runs_confined uid fuel root relative : (S (String.length relative) + 16 * S B < fuel)%nat →
  Runs (open_confined_candidate world uid fuel root relative) (λ _, True).
Proof.
  intros Hf. unfold open_confined_candidate. apply (runs_bind _ _ (λ _, True)); [runs|intros parent _].
  eapply runs_bind; [apply runs_give; intros names Hn; exact Hn|]. intros names Hn%length_confined. apply runs_walk; [done|].
  unfold left_to_walk. change (Z.to_nat (MAX_LINKS - 0)) with 16%nat. lia.
Qed.

Lemma runs_privileged uid fuel root relative : (S (String.length relative) + 16 * S B < fuel)%nat →
  Runs (open_privileged_candidate world uid fuel root relative) (λ _, True).
Proof.
  intros Hf. unfold open_privileged_candidate, open_trust_root, has_linux_file_capability. cbv zeta.
  runs_with ltac:(first [by apply runs_confined | apply runs_opened_elf]).
Qed.

Lemma runs_resolve_root uid fuel root : (S (String.length root) + 16 * S B < fuel)%nat →
  Runs (resolve_trusted_root world uid fuel root) (λ _, True).
Proof.
  intros Hf. unfold resolve_trusted_root, resolve_trusted_dir. destruct (strip_prefix "/" root) eqn:Hs; [|runs].
  apply strip_prefix_spec in Hs as ->. rename s into relative. change (String.length ("/" +:+ relative)) with (S (String.length relative)) in Hf.
  eapply runs_bind; [apply runs_give; intros names Hn; exact (map_err_gave _ _ _ Hn)|]. intros names Hn%length_confined.
  apply runs_resolve_loop; [done|]. unfold left_to_walk. change (Z.to_nat (MAX_LINKS - 0)) with 16%nat. lia.
Qed.

(** The longest path among the candidates has 19 characters. *)
Definition ShortPaths (c : RuntimeCandidate) : Prop :=
  source c = ExplicitOverride ∨ (∀ t, trust_root c = Some t → String.length t ≤ 19)%nat ∧ (∀ r, relative_path c = Some r → String.length r ≤ 19)%nat.

Lemma candidates_short provider override privilege : Forall ShortPaths (runtime_candidates provider override privilege).
Proof.
  unfold runtime_candidates, overriding. apply Forall_app. split.
  - destruct privilege, override as [[|a p]|]; repeat constructor.
  - destruct (String.eqb provider "cpu"), (String.eqb provider "rocm" || String.eqb provider "auto"); cbn;
      repeat (constructor; [right; split; intros ? [= <-]; cbn; lia|]); constructor.
Qed.

Lemma runs_candidate fuel c : ShortPaths c → (20 + 16 * S B < fuel)%nat → Runs (open_candidate world fuel c) (λ _, True).
Proof.
  intros Hc Hf. unfold open_candidate. case_bool_decide as Hs; [unfold open_unprivileged_override; runs; apply runs_opened_elf|].
  destruct Hc as [?|[Ht Hr]]; [done|]. destruct (trust_root c) as [t|]; [|runs]. destruct (relative_path c) as [r|]; [|runs].
  specialize (Ht _ eq_refl). specialize (Hr _ eq_refl).
  apply (runs_bind _ _ (λ _, True)); [apply runs_resolve_root; lia|intros root _].
  apply (runs_bind _ _ (λ _, True)); [unfold validate_root_ancestors; runs; apply runs_directories|intros _ _].
  apply runs_privileged. lia.
Qed.

Lemma runs_candidates fuel cs failures : Forall ShortPaths cs → (20 + 16 * S B < fuel)%nat →
  Runs (try_candidates world fuel cs failures) (λ _, True).
Proof.
  intros Hcs Hf. revert failures. induction Hcs as [|c cs Hc Hcs IH]; intros failures; cbn [try_candidates]; [runs|].
  apply (runs_bind _ _ (λ _, True)); [apply runs_caught; runs|]. intros [n|e] _; [|destruct (is_not_found e); apply IH].
  apply (runs_bind _ _ (λ _, True)); [apply runs_caught; by apply runs_candidate|]. intros [o|e] _; [|apply IH].
  apply (runs_bind _ _ (λ _, True)); [apply runs_caught; intros k; cbn; by destruct (init_from (file o) k)|].
  intros [u|e] _; [runs|apply IH].
Qed.

(** At most sixteen links are followed for a root and for a candidate, so the fuel depends only on how long a link's target may be. *)
Lemma loading_ends self fuel provider k : (20 + 16 * S B < fuel)%nat →
  ∃ r k', initialize_ort world self fuel provider k = (Some r, k').
Proof.
  intros Hf. unfold initialize_ort. cbv zeta.
  pose proof (runs_candidates fuel _ [] (candidates_short (runtime_provider_name provider)
    (match current_privilege self with Unprivileged => ort_dylib_path self | Privileged => None end) (current_privilege self)) Hf k) as H.
  destruct (try_candidates _ _ _ _ _) as [[r|] k']; cbn in H; [eauto|done].
Qed.

(** C16.  Whatever the file system shows from one call to the next, loading the runtime ends. A runtime is mapped from
    [ORT_DYLIB_PATH] only in a process without any privilege, and otherwise only a fixed candidate's file that was reached by plain names
    through directories that root alone can change, from a root with safe ancestors, that was a safe file before and after all of it was
    read, and whose content is an acceptable library. *)
Theorem runtime_is_trusted self fuel provider k : (20 + 16 * S B < fuel)%nat →
  ∃ r k', initialize_ort world self fuel provider k = (Some r, k') ∧
    match r with Ok e => TrustedRuntime world self fuel provider e k k' | Err _ => True end.
Proof.
  intros Hf. destruct (loading_ends self fuel provider k Hf) as (r & k' & H). exists r, k'. split; [done|].
  destruct r as [e|]; [|done]. by eapply mapped_is_trusted.
Qed.
End ending.

(** ** A machine with merged [/usr] *)
Module Merged.
Definition owned (t : FileType) (entries : gmap string Z) (target content : string) : Node :=
  {| n_type := t; n_dev := 1; n_ino := 1; n_nlink := 1; n_size := Z.of_nat (String.length content); n_uid := 0; n_gid := 0;
     n_mode := 493; n_mtime := (0, 0); n_ctime := (0, 0); n_entries := entries; n_target := target; n_content := content; n_capability := false |}.

Definition nodes (i : Z) : option Node :=
  if i =? 1 then Some (owned IsDirectory {["usr" := 2]} "" "")
  else if i =? 2 then Some (owned IsDirectory {["lib" := 3; "lib64" := 4]} "" "")
  else if i =? 3 then Some (owned IsDirectory {["libonnxruntime.so.1" := 5; "libonnxruntime.so.1.20" := 6]} "" "")
  else if i =? 4 then Some (owned IsSymlink ∅ "lib" "")
  else if i =? 5 then Some (owned IsSymlink ∅ "libonnxruntime.so.1.20" "")
  else if i =? 6 then Some (owned IsRegular ∅ "" "ELF")
  else None.

Definition paths (p : string) : result Z IoError :=
  if String.eqb p "/" then Ok 1 else if String.eqb p "/usr" then Ok 2 else if String.eqb p "/usr/lib" then Ok 3
  else if String.eqb p "/usr/lib64" then Ok 4 else if String.eqb p "/usr/lib64/libonnxruntime.so.1" then Ok 5 else Err no_such_file.

Definition machine (k : nat) : Snapshot := {| node_at := nodes; by_path := paths; followed := paths; call_fails := None |}.

Definition parser : ElfParser :=
  {| parse_elf data :=
       if String.eqb data "ELF"
       then Ok {| elf_architecture := X86_64; elf_is_64 := true;
                  elf_dynamic := Ok (Some [(DT_SONAME, Ok EXPECTED_SONAME); (DT_RUNPATH, Ok "$ORIGIN"%string)]) |}
       else Err "not an ELF"%string;
     expected_elf_architecture := X86_64; show_architecture _ := ""%string; show_soname _ := ""%string |}.
Definition debug : ShowDebug := {| debug_str s := s |}.
Definition onnx : Ort :=
  {| SessionBuilder := unit; init_from fd _ := if fd =? 6 then Ok tt else Err ""%string; is_available _ := false; with_execution_provider _ b := Ok b |}.

(** The daemon, with [ORT_DYLIB_PATH] in its environment. *)
Definition daemon : Process :=
  {| p_uid := 0; p_euid := 0; p_gid := 0; p_egid := 0; p_secure := false; p_status := Err ""%string; ort_dylib_path := Some "/tmp/other.so"%string |}.

Definition mapped : Environment :=
  {| runtime := {| file := 6; display_path := "/usr/lib/libonnxruntime.so.1" |}; from := trusted PackageManager "/usr/lib64" EXPECTED_SONAME |}.

Lemma load_maps : ∃ k', @initialize_ort parser debug onnx machine daemon 600 (Configured Cpu) 0%nat = (Some (Ok mapped), k').
Proof. eexists. vm_compute. reflexivity. Qed.

Lemma links_short : ∀ k i n, node_at (machine k) i = Some n → (String.length (n_target n) ≤ 30)%nat.
Proof.
  intros k i n. cbn. unfold nodes. repeat (destruct (_ =? _); [intros [= <-]; cbn; lia|]). discriminate.
Qed.
End Merged.

Lemma runtime_is_trusted_witness : ∃ k', FromTrustedRoot (EP := Merged.parser) (OR := Merged.onnx) Merged.machine 600 Merged.mapped 0 k'.
Proof.
  destruct Merged.load_maps as [k' H]. exists k'.
  destruct (runtime_is_trusted (EP := Merged.parser) (SD := Merged.debug) (OR := Merged.onnx) Merged.machine 30 Merged.links_short
    Merged.daemon 600 (Configured Cpu) 0 (ltac:(vm_compute; lia))) as (r & k1 & Hrun & Htrust).
  rewrite H in Hrun. injection Hrun as <- <-. apply Htrust. discriminate.
Defined.
