(* ===== verification/Models.v ===== *)
(** * Models: which model files the face engine runs

    [facelock-face/src/models.rs] and the loading halves of [lib.rs], [detector.rs] and [embedder.rs]: the bundled manifest pins
    a digest for each file name, a file is hashed, and then a session is made from its path. Calls see the snapshots of
    [Provider.v]. The manifest is a file the compiler includes; its text is here and its TOML an argument. *)

From stdpp Require Import gmap.
From S2P Require Import Prelude Text Float32 Config Provenance PamFiles Sealing Face Provider ProviderProofs.

Record ModelEntry := { name : string; filename : string; purpose : string; size_mb : Z; sha256_of_model : string; url : string; optional : bool }.
Record ModelManifest := { models : list ModelEntry }.

Inductive EngineError := DetectionError (message : string) | EmbeddingError (message : string) | ReadError (e : IoError).

(** What [toml] makes of [models/manifest.toml]; [None]: the text does not decode. *)
Definition manifest_load (decoded : result ModelManifest string) : result ModelManifest EngineError := map_err DetectionError decoded.

Definition default_models (m : ModelManifest) : list ModelEntry := List.filter (λ e, negb (optional e)) (models m).
Definition find_by_filename (m : ModelManifest) (f : string) : option ModelEntry := List.find (λ e, String.eqb (filename e) f) (models m).

Definition resolve_model_sha256 (m : ModelManifest) (f : string) (configured : option string) : result string EngineError :=
  match find_by_filename m f with
  | Some entry =>
      if is_some_and (λ explicit, negb (String.eqb explicit (sha256_of_model entry))) configured
      then Err (DetectionError ("configured SHA256 for " +:+ f +:+ " does not match bundled manifest"))
      else Ok (sha256_of_model entry)
  | None =>
      match configured with
      | Some sha => Ok sha
      | None => Err (DetectionError ("custom model " +:+ f +:+ " requires an explicit SHA256 in config"))
      end
  end.

Definition bytes_of (s : string) : list Z := map (λ a, Z.of_N (Ascii.N_of_ascii a)) (String.list_ascii_of_string s).
Definition hex_of (digest : list Z) : string := String.concat "" (map hex_byte digest).

(** The [ort] crate: a builder in three steps, each of which may fail, and a session from what the path holds when it is opened. *)
Class Sessions {OR : Ort} := {
  Session : Type;
  builder_for : Environment → result SessionBuilder string;
  with_optimization : SessionBuilder → result SessionBuilder string;
  with_intra_threads : Z → SessionBuilder → result SessionBuilder string;
  open_refused : IoError → string;
  session_of : SessionBuilder → string → result Session string }.

Section loading.
Context {EP : ElfParser} {SD : ShowDebug} {OR : Ort} {SE : Sessions} {SH : Sha256}.
Context (world : nat → Snapshot) (self : Process) (fuel : nat).

Definition is_directory_error : IoError := io_error OtherKind "Is a directory (os error 21)".

(** What opening a path and reading all of it yields. *)
Definition content_at (p : string) (w : Snapshot) : result string IoError :=
  let? i := followed w p in
  let? n := node_of w i in
  if is_type IsDirectory n then Err is_directory_error else Ok (n_content n).

Definition verify_model (p expected_sha256 : string) : Look EngineError bool :=
  data ← or_say ReadError (call world (content_at p));
  mret (String.eqb (hex_of (sha256 (bytes_of data))) expected_sha256).

Definition commit_from_file (builder : SessionBuilder) (p : string) : Look string Session :=
  data ← or_say open_refused (call world (content_at p)); give (session_of builder data).

(** The runtime's cell holds the first answer for good. *)
Definition OrtCell : Type := option (result Provider.Environment string).

(** The common part of both constructors; [wrap] is the error's kind. Beside the session the cell's new value, for the
    load after it: none follows a failed one. *)
Definition load_session (wrap : string → EngineError) (cell : OrtCell) (p : string) (threads : Z) (provider : string) :
    Look EngineError (OrtCell * Session) :=
  environment ← or_say (λ e, wrap ("Failed to load ONNX Runtime: " +:+ e)) (ensure_runtime_loaded world self fuel cell provider);
  let cell := Some (Ok environment) in
  builder ← give (map_err (λ e, wrap ("Failed to create session builder: " +:+ e)) (builder_for environment));
  builder ← give (map_err (λ e, wrap ("Failed to set optimization level: " +:+ e)) (with_optimization builder));
  builder ← give (map_err (λ e, wrap ("Failed to set intra threads: " +:+ e)) (with_intra_threads threads builder));
  builder ← or_say (λ e, wrap ("Failed to set execution provider: " +:+ e)) (register_execution_provider world self fuel cell builder provider);
  session ← or_say (λ e, wrap ("Failed to load model " +:+ p +:+ ": " +:+ e)) (commit_from_file builder p);
  mret (cell, session).

Definition detector_model_load (cell : OrtCell) (p : string) (confidence nms : f32) (threads : Z) (provider : string) :
    Look EngineError (OrtCell * (FaceDetector * Session)) :=
  loaded ← load_session DetectionError cell p threads provider;
  mret (fst loaded, (detector_load confidence nms, snd loaded)).

Definition embedder_model_load (cell : OrtCell) (p : string) (threads : Z) (provider : string) : Look EngineError (OrtCell * Session) :=
  load_session EmbeddingError cell p threads provider.

Record FaceEngine := { detector : FaceDetector * Session; embedder : Session }.

Definition integrity_message (model sha : string) : string :=
  "Model integrity check failed for " +:+ model +:+ ". Expected SHA256: " +:+ sha +:+
  ". Re-run `facelock setup` to re-download or update the configured checksum.".

Definition engine_load (manifest : result ModelManifest string) (cell : OrtCell) (c : RecognitionConfig) (model_dir : string) : Look EngineError FaceEngine :=
  manifest ← give (manifest_load manifest);
  let detector_path := join model_dir (detector_model c) in
  let embedder_path := join model_dir (rec_embedder_model c) in
  detector_sha ← give (resolve_model_sha256 manifest (detector_model c) (Config.detector_sha256 c));
  embedder_sha ← give (resolve_model_sha256 manifest (rec_embedder_model c) (Config.embedder_sha256 c));
  whole ← verify_model detector_path detector_sha;
  if negb whole then fail (DetectionError (integrity_message (detector_model c) detector_sha))
  else
    whole ← verify_model embedder_path embedder_sha;
    if negb whole then fail (DetectionError (integrity_message (rec_embedder_model c) embedder_sha))
    else
      detector ← detector_model_load cell detector_path (detection_confidence c) (Config.nms_threshold c) (threads c) (execution_provider c);
      embedder ← embedder_model_load (fst detector) embedder_path (threads c) (execution_provider c);
      mret {| detector := snd detector; embedder := snd embedder |}.
End loading.

(** ** What a loaded engine runs *)

(** A bundled name has the manifest's digest, any other the configured one. *)
Definition Pinned (m : ModelManifest) (f : string) (configured : option string) (sha : string) : Prop :=
  (∃ e, e ∈ models m ∧ filename e = f ∧ sha = sha256_of_model e) ∨
  ((∀ e, e ∈ models m → filename e ≠ f) ∧ configured = Some sha).

Lemma resolved_is_pinned m f configured sha : resolve_model_sha256 m f configured = Ok sha → Pinned m f configured sha.
Proof.
  unfold resolve_model_sha256, find_by_filename, Pinned. destruct (List.find _ _) as [e|] eqn:Hf.
  - apply find_some in Hf as [Hin%list_elem_of_In Hn]. apply String.eqb_eq in Hn. destruct (is_some_and _ _); [done|]. intros [= <-]. left. eauto.
  - destruct configured; [|done]. intros [= ->]. right. split; [|done]. intros e Hin Hn.
    apply list_elem_of_In in Hin. apply (find_none _ _ Hf e) in Hin. by apply String.eqb_neq in Hin.
Qed.

Section engine.
Context {EP : ElfParser} {SD : ShowDebug} {OR : Ort} {SE : Sessions} {SH : Sha256}.
Context (world : nat → Snapshot) (self : Process) (fuel : nat).

Definition hashes_to (data sha : string) : Prop := hex_of (sha256 (bytes_of data)) = sha.

(** At call [i] the file at a path was hashed, at a later one [j] what it holds made the session. *)
Definition HashedThenRun (p sha : string) (s : Session) (i j : nat) : Prop :=
  ∃ hashed run b, (i < j)%nat ∧ content_at p (world i) = Ok hashed ∧ hashes_to hashed sha ∧
    content_at p (world j) = Ok run ∧ session_of b run = Ok s.

Lemma verify_model_ok p sha k b k' : verify_model world p sha k = (Some (Ok b), k') →
  k' = S k ∧ (b = true → ∃ data, content_at p (world k) = Ok data ∧ hashes_to data sha).
Proof.
  unfold verify_model. intros H. inv_look. apply call_ok in Hc as [Hd ->]. split; [done|]. intros Hb. bsplit. by exists a.
Qed.

Lemma commit_ok b p k s k' : commit_from_file world b p k = (Some (Ok s), k') →
  k' = S k ∧ ∃ data, content_at p (world k) = Ok data ∧ session_of b data = Ok s.
Proof. unfold commit_from_file. intros H. inv_look. apply call_ok in Hc as [Hd ->]. eauto. Qed.

Lemma session_ok wrap cell p threads provider k cs k' : load_session world self fuel wrap cell p threads provider k = (Some (Ok cs), k') →
  ∃ j data b, (k ≤ j)%nat ∧ k' = S j ∧ content_at p (world j) = Ok data ∧ session_of b data = Ok (snd cs).
Proof.
  unfold load_session. intros H. inv_look. apply commit_ok in Hc4 as (-> & data & Hd & Hs).
  pose proof (forward_ensure world self fuel cell provider k) as H1. rewrite Hc in H1.
  pose proof (forward_register world self fuel (Some (Ok a)) a2 provider k0) as H2. cbv zeta in Hc3. rewrite Hc3 in H2. cbn in H1, H2.
  exists k4, data, a3. by split_and!; [lia|..].
Qed.

(** An engine that was loaded runs sessions made, after both files were found to have their pinned digests, from what the same
    two paths then held. *)
Theorem engine_files_are_pinned decoded cell c model_dir k e k' :
  engine_load world self fuel decoded cell c model_dir k = (Some (Ok e), k') →
  ∃ m dsha esha i j i' j', decoded = Ok m ∧
    Pinned m (detector_model c) (Config.detector_sha256 c) dsha ∧ Pinned m (rec_embedder_model c) (Config.embedder_sha256 c) esha ∧
    HashedThenRun (join model_dir (detector_model c)) dsha (snd (detector e)) i j ∧
    HashedThenRun (join model_dir (rec_embedder_model c)) esha (embedder e) i' j'.
Proof.
  unfold engine_load, manifest_load, detector_model_load, embedder_model_load. intros H. inv_look. bsplit. subst.
  apply verify_model_ok in Hc2 as [-> Hd], Hc3 as [-> He]. destruct (Hd eq_refl) as (d & Hd1 & Hd2). destruct (He eq_refl) as (x & He1 & He2).
  apply session_ok in Hc6 as (j & data & b & Hj & -> & Hrun & Hs). apply session_ok in Hc5 as (j' & data' & b' & Hj' & -> & Hrun' & Hs').
  exists a, a0, a1, k, j, (S k), j'. cbn. split_and!; auto using resolved_is_pinned.
  - exists d, data, b. by split_and!; [lia|..].
  - exists x, data', b'. by split_and!; [lia|..].
Qed.
End engine.

(** ** The path is opened twice *)
Module Swapped.
(** From the third call on the model's path holds other bytes. *)
Definition model_at (k : nat) (i : Z) : option Node :=
  Some (Merged.owned IsRegular ∅ "" (if (k <? 2)%nat then "good" else "evil")%string).
Definition world (k : nat) : Snapshot :=
  {| node_at := model_at k; by_path _ := Ok 1; followed _ := Ok 1; call_fails := None |}.

Definition hashing : Sha256 := {| sha256 bytes := bytes |}.
Definition sessions : @Sessions Merged.onnx :=
  {| Session := string; builder_for _ := Ok (tt : @SessionBuilder Merged.onnx); with_optimization b := Ok b; with_intra_threads _ b := Ok b;
     open_refused := io_text; session_of _ data := Ok data |}.

Definition config : RecognitionConfig :=
  {| threshold := f32_zero; timeout_secs := 5; no_face_timeout_secs := 0; detection_confidence := f32_zero; Config.nms_threshold := f32_zero;
     detector_model := "d"; Config.detector_sha256 := Some "676f6f64"%string; rec_embedder_model := "e"; Config.embedder_sha256 := Some "676f6f64"%string;
     execution_provider := "cpu"; threads := 1 |}.
End Swapped.

(** A file that is replaced between the hash and the session is run unverified. *)
Lemma swapped_model_is_run :
  ∃ e k', @engine_load Merged.parser Merged.debug Merged.onnx Swapped.sessions Swapped.hashing Swapped.world Merged.daemon 600
            (Ok {| models := [] |}) (Some (Ok Merged.mapped)) Swapped.config "/m" 0%nat = (Some (Ok e), k') ∧
          @embedder Merged.onnx Swapped.sessions e = "evil"%string.
Proof. do 2 eexists. vm_compute. split; reflexivity. Qed.
