(* ===== verification/Lifecycle.v ===== *)
(** * Lifecycle: exclusive ownership of the daemon for a destructive command

    [facelock-cli/src/lifecycle.rs]: [LifecycleLease] takes the lifecycle lock, bars the
    activation of the daemon with a file in systemd's runtime control tier, stops the daemon and
    proves that nothing owns its bus name; whatever ends the lease restores what was there.
    The lease is a program over a [Machine]: files, locks, the daemon's unit as the manager has
    it, the owner of the bus name. Every call may fail, other processes act before it, and the
    process may be killed at it. [LifecycleSignals.v] interleaves the operation with the thread
    that waits for a signal, [LifecycleProofs.v] has the properties. *)

From stdpp Require Import gmap.
From S2P Require Import Prelude Text Provenance PamFiles.

(** ** The machine *)
Inductive Errno := ENOENT | EEXIST | ENOTDIR | EISDIR | ELOOP | EINVAL | EWOULDBLOCK | ENOTEMPTY | OtherErrno (text : string).

Definition errno_text (e : Errno) : string :=
  match e with
  | ENOENT => "No such file or directory (os error 2)"
  | EEXIST => "File exists (os error 17)"
  | ENOTDIR => "Not a directory (os error 20)"
  | EISDIR => "Is a directory (os error 21)"
  | ELOOP => "Too many levels of symbolic links (os error 40)"
  | EINVAL => "Invalid argument (os error 22)"
  | EWOULDBLOCK => "Resource temporarily unavailable (os error 11)"
  | ENOTEMPTY => "Directory not empty (os error 39)"
  | OtherErrno text => text
  end.

(** The content of a link is its target. *)
Record Inode := { i_type : FileType; i_dev : Z; i_nlink : Z; i_mode : Z; i_uid : Z; i_gid : Z; i_content : string }.

(** The three unit properties the lease records and proves. *)
Record UnitProperties := { load_state : string; active_state : string; unit_file_state : string }.

(** What this process did to the service, and what it logged: history. *)
Inductive Act := Barred (b : Z) | Unbarred (b : Z) | Reloaded | Stopped | Started | Unlocked | Complained (text : string).

(** [names] are absolute paths; [locks] says of a locked inode whether the lock is this process's. *)
Record Machine := {
  inodes : gmap Z Inode;
  names : gmap string Z;
  next_inode : Z;
  locks : gmap Z bool;
  unit_state : UnitProperties;
  name_owned : bool;
  instant : Z;
  effective : Z * Z;
  umask : Z;
  acts : list Act }.

Definition with_files (i : gmap Z Inode) (n : gmap string Z) (k : Z) (m : Machine) : Machine :=
  {| inodes := i; names := n; next_inode := k; locks := locks m; unit_state := unit_state m; name_owned := name_owned m;
     instant := instant m; effective := effective m; umask := umask m; acts := acts m |}.
Definition with_locks (l : gmap Z bool) (m : Machine) : Machine :=
  {| inodes := inodes m; names := names m; next_inode := next_inode m; locks := l; unit_state := unit_state m;
     name_owned := name_owned m; instant := instant m; effective := effective m; umask := umask m; acts := acts m |}.
Definition at_instant (t : Z) (m : Machine) : Machine :=
  {| inodes := inodes m; names := names m; next_inode := next_inode m; locks := locks m; unit_state := unit_state m;
     name_owned := name_owned m; instant := t; effective := effective m; umask := umask m; acts := acts m |}.
Definition record (a : Act) (m : Machine) : Machine :=
  {| inodes := inodes m; names := names m; next_inode := next_inode m; locks := locks m; unit_state := unit_state m;
     name_owned := name_owned m; instant := instant m; effective := effective m; umask := umask m; acts := acts m ++ [a] |}.

(** ** Runs *)

(** [choice] is what the service manager decides. *)
Record Event := { before : Machine → Machine; killed : bool; fault : option Errno; choice : Z }.

Definition calm : Event := {| before := id; killed := false; fault := None; choice := 0 |}.

(** A run that used its fuel up has not ended. *)
Inductive Out (E A : Type) : Type :=
  | Done (r : result A E)
  | Killed
  | Running.
Arguments Done {E A} _.
Arguments Killed {E A}.
Arguments Running {E A}.

Definition Run (E A : Type) : Type := Machine → list Event → Out E A * Machine * list Event.

#[export] Instance Run_ret E : MRet (Run E) := λ A a m s, (Done (Ok a), m, s).

#[export] Instance Run_bind E : MBind (Run E) := λ A B k c m s,
  match c m s with
  | (Done (Ok a), m, s) => k a m s
  | (Done (Err e), m, s) => (Done (Err e), m, s)
  | (Killed, m, s) => (Killed, m, s)
  | (Running, m, s) => (Running, m, s)
  end.

Definition throw {E A} (e : E) : Run E A := λ m s, (Done (Err e), m, s).

(** The result as a value. *)
Definition attempt {E F A} (c : Run E A) : Run F (result A E) := λ m s,
  match c m s with
  | (Done r, m, s) => (Done (Ok r), m, s)
  | (Killed, m, s) => (Killed, m, s)
  | (Running, m, s) => (Running, m, s)
  end.

Definition give {E A} (r : result A E) : Run E A := λ m s, (Done r, m, s).
Definition on_err {E F A} (f : E → F) (c : Run E A) : Run F A := attempt c ≫= λ r, give (map_err f r).
Definition unended {E A} : Run E A := λ m s, (Running, m, s).

Definition next_event (s : list Event) : Event * list Event := match s with [] => (calm, []) | e :: s => (e, s) end.

Definition step {E A} (act : Event → Machine → result A E * Machine) : Run E A := λ m s,
  let '(e, s) := next_event s in
  if killed e then (Killed, before e m, s)
  else let '(r, m) := act e (before e m) in (Done r, m, s).

Definition syscall {A} (f : Machine → result A Errno * Machine) : Run Errno A :=
  step (λ e m, match fault e with Some err => (Err err, m) | None => f m end).

Definition look {A} (f : Machine → result A Errno) : Run Errno A := syscall (λ m, (f m, m)).

(** What the process does without a system call: history, logging. *)
Definition note {E} (a : Act) : Run E unit := λ m s, (Done (Ok tt), record a m, s).

(** ** System calls. A descriptor is the inode it was opened on. *)
Definition stat_of (i : Z) (n : Inode) : Metadata :=
  {| file_type := i_type n; dev := i_dev n; ino := i; nlink := i_nlink n; mode := i_mode n; uid := i_uid n;
     gid := i_gid n; len := Z.of_nat (String.length (i_content n)) |}.

Definition fstat (fd : Z) : Run Errno Metadata :=
  look (λ m, match inodes m !! fd with Some n => Ok (stat_of fd n) | None => Err (OtherErrno "Bad file descriptor (os error 9)") end).

Definition lstat (path : string) : Run Errno Metadata :=
  look (λ m, match names m !! path with
             | Some i => match inodes m !! i with Some n => Ok (stat_of i n) | None => Err ENOENT end
             | None => Err ENOENT
             end).

Inductive OpenFlags := RDONLY | RDWR | DIRECTORY.

Definition opened (how : OpenFlags) (i : Z) (n : Inode) : result Z Errno :=
  match how, i_type n with
  | DIRECTORY, IsDirectory => Ok i
  | DIRECTORY, _ => Err ENOTDIR
  | _, IsSymlink => Err ELOOP
  | RDWR, IsDirectory => Err EISDIR
  | _, _ => Ok i
  end.

Definition open_nofollow (path : string) (how : OpenFlags) : Run Errno Z :=
  if str_has_char nul path then throw EINVAL
  else
    look (λ m, match names m !! path with
               | Some i => match inodes m !! i with Some n => opened how i n | None => Err ENOENT end
               | None => Err ENOENT
               end).

Definition add_name (path : string) (t : FileType) (kind bits : Z) (m : Machine) : Machine :=
  let n := {| i_type := t; i_dev := 0; i_nlink := 1; i_mode := Z.lor kind (Z.land bits (Z.lnot (umask m)));
              i_uid := fst (effective m); i_gid := snd (effective m); i_content := "" |} in
  with_files (<[next_inode m := n]> (inodes m)) (<[path := next_inode m]> (names m)) (next_inode m + 1) m.

(** [open_nofollow] with [O_CREAT | O_EXCL] *)
Definition create_nofollow (path : string) (bits : Z) : Run Errno Z :=
  if str_has_char nul path then throw EINVAL
  else syscall (λ m, match names m !! path with
                     | Some _ => (Err EEXIST, m)
                     | None => (Ok (next_inode m), add_name path IsRegular 32768 bits m)
                     end).

Definition mkdir (path : string) (bits : Z) : Run Errno unit :=
  syscall (λ m, match names m !! path with
                | Some _ => (Err EEXIST, m)
                | None => (Ok tt, add_name path IsDirectory 16384 bits m)
                end).

Definition set_mode (bits : Z) (n : Inode) : Inode :=
  {| i_type := i_type n; i_dev := i_dev n; i_nlink := i_nlink n; i_mode := Z.lor (Z.land (i_mode n) 61440) (Z.land bits 4095);
     i_uid := i_uid n; i_gid := i_gid n; i_content := i_content n |}.

Definition fchmod (fd bits : Z) : Run Errno unit :=
  syscall (λ m, (Ok tt, with_files (alter (set_mode bits) fd (inodes m)) (names m) (next_inode m) m)).

(** [flock] with [LOCK_EX | LOCK_NB] *)
Definition flock (fd : Z) : Run Errno unit :=
  syscall (λ m, match locks m !! fd with
                | Some _ => (Err EWOULDBLOCK, m)
                | None => (Ok tt, with_locks (<[fd := true]> (locks m)) m)
                end).

Definition unlink (path : string) : Run Errno unit :=
  syscall (λ m, match names m !! path with
                | Some i =>
                    if is_some_and (λ n, bool_decide (i_type n = IsDirectory)) (inodes m !! i) then (Err EISDIR, m)
                    else (Ok tt, with_files (inodes m) (delete path (names m)) (next_inode m) m)
                | None => (Err ENOENT, m)
                end).

Definition rmdir (path : string) : Run Errno unit :=
  syscall (λ m, match names m !! path with
                | Some i =>
                    if negb (is_some_and (λ n, bool_decide (i_type n = IsDirectory)) (inodes m !! i)) then (Err ENOTDIR, m)
                    else if existsb (starts_with (path +:+ "/")) (map fst (map_to_list (names m))) then (Err ENOTEMPTY, m)
                    else (Ok tt, with_files (inodes m) (delete path (names m)) (next_inode m) m)
                | None => (Err ENOENT, m)
                end).

(** [take] and [read_to_string] *)
Fixpoint first_bytes (n : nat) (s : string) : string :=
  match n, s with S n, String a s => String a (first_bytes n s) | _, _ => EmptyString end.
Definition read_to_string (fd : Z) (limit : Z) : Run Errno string :=
  look (λ m, match inodes m !! fd with
             | Some n => Ok (first_bytes (Z.to_nat limit) (i_content n))
             | None => Err (OtherErrno "Bad file descriptor (os error 9)")
             end).

(** [Path::is_dir], which follows a link *)
Definition is_dir (path : string) : Run Errno bool :=
  let at_name m p := i ← names m !! p; inodes m !! i in
  r ← attempt (look (λ m, match at_name m path with
    | None => Err ENOENT
    | Some n =>
        match i_type n with
        | IsDirectory => Ok true
        | IsSymlink => Ok (is_some_and (λ t, bool_decide (i_type t = IsDirectory)) (at_name m (i_content n)))
        | _ => Ok false
        end
    end));
  mret match r with Ok b => b | Err _ => false end.

(** Closing a descriptor releases its lock. *)
Definition close_lock {E} (fd : Z) : Run E unit := λ m s,
  (Done (Ok tt), record Unlocked (match locks m !! fd with Some true => with_locks (delete fd (locks m)) m | _ => m end), s).

(** ** Errors *)
Definition UNIT_NAME : string := "facelock-daemon.service".
Definition BUS_NAME : string := "org.facelock.Daemon".
Definition ACTIVATION_MAX_BYTES : Z := 65536.

Inductive LifecycleError :=
  | NoSystemd (path : string)
  | LockHeld (path : string)
  | Untrusted (path reason : string)
  | Io (path : string) (source : Errno)
  | ActivationNotDelegated (path reason : string)
  | UnitStateNotAdmissible (state advice : string)
  | ControlPathConflict (path reason : string)
  | BarrierNotEffective (path shown : string)
  | DaemonNotStopped (state : string) (timeout : Z)
  | NameStillOwned (timeout : Z)
  | BusUnreachable (detail : string)
  | SystemctlFailed (action detail : string)
  | SignalArm (source : Errno)
  | RestoreIncomplete (reasons : string).

(** [Debug] of a [Duration] *)
Class ShowDuration := { show_duration : Z → string }.

Section text.
Context {SDu : ShowDuration}.

Definition error_text (e : LifecycleError) : string :=
  match e with
  | NoSystemd p => "systemd is not the running service manager (" +:+ p +:+ " is missing); without it D-Bus activation of the daemon cannot be inhibited, refusing to proceed"
  | LockHeld p => "another facelock lifecycle operation holds " +:+ p +:+ "; wait for it to finish and retry"
  | Untrusted p reason => p +:+ ": " +:+ reason
  | Io p source => p +:+ ": " +:+ errno_text source
  | ActivationNotDelegated p reason => p +:+ " does not delegate D-Bus activation to systemd (" +:+ reason +:+ "); a unit mask cannot inhibit direct D-Bus execution, refusing to proceed"
  | UnitStateNotAdmissible s advice => UNIT_NAME +:+ " is in state " +:+ s +:+ "; " +:+ advice
  | ControlPathConflict p reason => p +:+ " exists but is not a facelock activation barrier (" +:+ reason +:+ "); remove it (then run `systemctl daemon-reload`) or reboot, and retry"
  | BarrierNotEffective p s => "activation barrier at " +:+ p +:+ " is not effective: LoadState is " +:+ s +:+ ", expected masked; check for a higher-priority unit under /etc/systemd/system.control"
  | DaemonNotStopped s t => UNIT_NAME +:+ " did not reach ActiveState=inactive within " +:+ show_duration t +:+ " (last state " +:+ s +:+ "); refusing to proceed without a confirmed-stopped daemon"
  | NameStillOwned t => BUS_NAME +:+ " still has an owner on the system bus after " +:+ show_duration t +:+ "; a daemon outside systemd's control is running — stop it, then retry"
  | BusUnreachable d => "system bus is unreachable (" +:+ d +:+ "); cannot confirm the daemon released its bus name, refusing to proceed"
  | SystemctlFailed action d => "systemctl " +:+ action +:+ " failed: " +:+ d
  | SignalArm source => "could not arm signal-safe restore (" +:+ errno_text source +:+ "); refusing to hold the lease without it"
  | RestoreIncomplete reasons => "lifecycle restore incomplete: " +:+ reasons
  end.
End text.

Definition io_at {A} (path : string) (c : Run Errno A) : Run LifecycleError A := on_err (Io path) c.

(** ** The layout *)
Record LifecycleLayout := { prefix : string; expected_owner : Z * Z }.

Definition system_layout : LifecycleLayout := {| prefix := "/"; expected_owner := (0, 0) |}.

Definition layout_at (l : LifecycleLayout) (relative : string) : string := join (prefix l) relative.
Definition systemd_marker (l : LifecycleLayout) : string := layout_at l "run/systemd/system".
Definition lock_dir (l : LifecycleLayout) : string := layout_at l "run/facelock".
Definition lock_path (l : LifecycleLayout) : string := layout_at l "run/facelock/lifecycle.lock".
Definition control_dir (l : LifecycleLayout) : string := layout_at l "run/systemd/system.control".
Definition barrier_path (l : LifecycleLayout) : string := layout_at l "run/systemd/system.control/facelock-daemon.service".
Definition activation_definition_paths (l : LifecycleLayout) : list string :=
  map (layout_at l)
    ["etc/dbus-1/system-services/org.facelock.Daemon.service";
     "run/dbus-1/system-services/org.facelock.Daemon.service";
     "usr/local/share/dbus-1/system-services/org.facelock.Daemon.service";
     "usr/share/dbus-1/system-services/org.facelock.Daemon.service";
     "lib/dbus-1/system-services/org.facelock.Daemon.service"].

(** [Duration]s are nanoseconds. *)
Record AcquireTuning := { stop_timeout : Z; bus_timeout : Z; poll_interval : Z; signal_ack_timeout : Z }.

Definition default_tuning : AcquireTuning :=
  {| stop_timeout := 10000000000; bus_timeout := 5000000000; poll_interval := 100000000; signal_ack_timeout := 5000000000 |}.

(** ** Trusted files *)
Definition perms (md : Metadata) : Z := Z.land (mode md) 4095.
Definition owner (md : Metadata) : Z * Z := (uid md, gid md).

Fixpoint octal (fuel : nat) (z : Z) : string :=
  match fuel with
  | O => ""
  | S fuel => (if z <? 8 then "" else octal fuel (z / 8)) +:+ show_Z (z mod 8)
  end.
Definition show_octal (z : Z) : string := octal 11 z.

Definition open_trusted_dir (path : string) (created : bool) (expected : Z * Z) : Run LifecycleError Z :=
  dir ← io_at path (open_nofollow path DIRECTORY);
  md ← io_at path (fstat dir);
  (if created && negb (perms md =? 493) then io_at path (fchmod dir 493) else mret tt);;
  md ← io_at path (fstat dir);
  if negb (bool_decide (owner md = expected))
  then throw (Untrusted path ("directory owner is " +:+ show_Z (uid md) +:+ ":" +:+ show_Z (gid md) +:+ ", expected "
                              +:+ show_Z (fst expected) +:+ ":" +:+ show_Z (snd expected)))
  else if negb (perms md =? 493)
  then throw (Untrusted path ("directory mode is " +:+ show_octal (perms md) +:+ ", expected 0755"))
  else mret dir.

(** An empty private file of one link: the lock and the barrier. *)
Definition is_exact (expected : Z * Z) (md : Metadata) : bool :=
  bool_decide (file_type md = IsRegular) && (nlink md =? 1) && (len md =? 0) && (perms md =? 384)
  && bool_decide (owner md = expected).

Definition ensure_dir (path : string) : Run LifecycleError bool :=
  made ← attempt (mkdir path 493);
  match made with
  | Ok _ => mret true
  | Err EEXIST => mret false
  | Err e => throw (Io path e)
  end.

Definition open_or_create_lock (path : string) : Run LifecycleError (Z * bool) :=
  file ← attempt (open_nofollow path RDWR);
  match file with
  | Ok fd => mret (fd, false)
  | Err ENOENT => fd ← io_at path (create_nofollow path 384); mret (fd, true)
  | Err ELOOP => throw (Untrusted path "is a symlink")
  | Err e => throw (Io path e)
  end.

Definition acquire_lifecycle_lock (l : LifecycleLayout) : Run LifecycleError Z :=
  created_dir ← ensure_dir (lock_dir l);
  _ ← open_trusted_dir (lock_dir l) created_dir (expected_owner l);
  let path := lock_path l in
  opened ← open_or_create_lock path;
  let lock := fst opened in
  md ← io_at path (fstat lock);
  (if snd opened && negb (perms md =? 384) then io_at path (fchmod lock 384) else mret tt);;
  md ← io_at path (fstat lock);
  if negb (is_exact (expected_owner l) md)
  then throw (Untrusted path "is not the expected zero-byte single-link mode-0600 lock file")
  else
    taken ← attempt (flock lock);
    match taken with
    | Err EWOULDBLOCK => throw (LockHeld path)
    | Err e => throw (Io path e)
    | Ok _ =>
        on_disk ← attempt (lstat path);
        match on_disk with
        | Err e => close_lock lock;; throw (Io path e)
        | Ok there =>
            if bool_decide ((dev there, ino there) = (dev md, ino md)) then mret lock
            else close_lock lock;; throw (Untrusted path "was replaced during acquisition")
        end
    end.

(** ** Activation definitions *)
Record ActivationDefinition := {
  in_service : bool; sections : Z; name : option string; systemd_service : option string; execs : Z; users : Z }.

Definition no_definition : ActivationDefinition :=
  {| in_service := false; sections := 0; name := None; systemd_service := None; execs := 0; users := 0 |}.

Section delegation.
Context {SD : ShowDebug}.

Definition read_key (key value : string) (d : ActivationDefinition) : result ActivationDefinition string :=
  if String.eqb key "Name" then
    if is_some (name d) then Err "duplicate Name"
    else Ok {| in_service := in_service d; sections := sections d; name := Some value;
               systemd_service := systemd_service d; execs := execs d; users := users d |}
  else if String.eqb key "SystemdService" then
    if is_some (systemd_service d) then Err "duplicate SystemdService"
    else Ok {| in_service := in_service d; sections := sections d; name := name d;
               systemd_service := Some value; execs := execs d; users := users d |}
  else if String.eqb key "Exec" then
    if 1 <? execs d + 1 then Err "duplicate Exec"
    else Ok {| in_service := in_service d; sections := sections d; name := name d;
               systemd_service := systemd_service d; execs := execs d + 1; users := users d |}
  else if String.eqb key "User" then
    if 1 <? users d + 1 then Err "duplicate User"
    else Ok {| in_service := in_service d; sections := sections d; name := name d;
               systemd_service := systemd_service d; execs := execs d; users := users d + 1 |}
  else Err ("unrecognized key " +:+ key).

Definition read_line (line : string) (d : ActivationDefinition) : result ActivationDefinition string :=
  if is_empty_str line || starts_with "#" line then Ok d
  else if String.eqb line "[D-BUS Service]" then
    Ok {| in_service := true; sections := sections d + 1; name := name d; systemd_service := systemd_service d;
          execs := execs d; users := users d |}
  else if starts_with "[" line then Err ("unexpected section " +:+ line)
  else
    match split_once "=" line with
    | (_, None) => Err ("unparseable line " +:+ debug_str line)
    | (raw_key, Some raw_value) =>
        if negb (in_service d) then Err "key outside [D-BUS Service]"
        else read_key (trim_end raw_key) (trim_start raw_value) d
    end.

Fixpoint read_lines (ls : list string) (d : ActivationDefinition) : result ActivationDefinition string :=
  match ls with
  | [] => Ok d
  | line :: ls => let? d := read_line line d in read_lines ls d
  end.

Definition activation_delegates (text : string) : result unit string :=
  let? d := read_lines (str_lines text) no_definition in
  if negb (sections d =? 1) then Err ("expected exactly one [D-BUS Service] section, found " +:+ show_Z (sections d))
  else
    match name d with
    | None => Err "no Name key"
    | Some other =>
        if negb (String.eqb other BUS_NAME) then Err ("Name is " +:+ other +:+ ", expected " +:+ BUS_NAME)
        else
          match systemd_service d with
          | None => Err "no SystemdService key; dbus-daemon would execute the daemon directly"
          | Some other =>
              if String.eqb other UNIT_NAME then Ok tt
              else Err ("SystemdService is " +:+ other +:+ ", expected " +:+ UNIT_NAME)
          end
    end.

Definition verify_definition (l : LifecycleLayout) (path : string) : Run LifecycleError unit :=
  file ← attempt (open_nofollow path RDONLY);
  match file with
  | Err ENOENT | Err ENOTDIR => mret tt
  | Err ELOOP => throw (Untrusted path "is a symlink")
  | Err e => throw (Io path e)
  | Ok fd =>
      md ← io_at path (fstat fd);
      if negb (bool_decide (file_type md = IsRegular)) then throw (Untrusted path "is not a regular file")
      else if negb (bool_decide (owner md = expected_owner l)) then throw (Untrusted path "has an unexpected owner")
      else if negb (Z.land (mode md) 18 =? 0) then throw (Untrusted path "is group- or world-writable")
      else if ACTIVATION_MAX_BYTES <? len md then throw (Untrusted path "is larger than 64 KiB")
      else
        text ← io_at path (read_to_string fd ACTIVATION_MAX_BYTES);
        give (map_err (ActivationNotDelegated path) (activation_delegates text))
  end.

Fixpoint verify_all (l : LifecycleLayout) (paths : list string) : Run LifecycleError unit :=
  match paths with [] => mret tt | path :: paths => verify_definition l path;; verify_all l paths end.

Definition verify_activation_delegation (l : LifecycleLayout) : Run LifecycleError unit :=
  verify_all l (activation_definition_paths l).
End delegation.

(** ** The service manager and the bus *)
Record Output := { success : bool; status : string; stdout : string; stderr : string }.

(** The program [systemctl]. *)
Class ServiceManager := { systemctl : list string → Z → Machine → Output * Machine }.

Section lifecycle.
Context {SD : ShowDebug} {SDu : ShowDuration} {SM : ServiceManager}.

Fixpoint parse_properties (ls : list string) (load active file : option string) : result UnitProperties string :=
  match ls with
  | [] =>
      match load, active, file with
      | Some l, Some a, Some f => Ok {| load_state := l; active_state := a; unit_file_state := f |}
      | _, _, _ => Err "missing property in systemctl show output"
      end
  | line :: ls =>
      if is_empty_str line then parse_properties ls load active file
      else
        match split_once "=" line with
        | (_, None) => Err ("unparseable line " +:+ debug_str line)
        | (key, Some value) =>
            let dup := Err ("duplicate property " +:+ key) in
            if String.eqb key "LoadState" then
              if is_some load then dup else parse_properties ls (Some value) active file
            else if String.eqb key "ActiveState" then
              if is_some active then dup else parse_properties ls load (Some value) file
            else if String.eqb key "UnitFileState" then
              if is_some file then dup else parse_properties ls load active (Some value)
            else Err ("unexpected property " +:+ key)
        end
  end.

Definition parse_show_output (text : string) : result UnitProperties string :=
  parse_properties (str_lines text) None None None.

(** One invocation; the fault is that it does not start. *)
Definition run_systemctl (args : list string) : Run LifecycleError Output :=
  step (λ e m, match fault e with
    | Some err => (Err (SystemctlFailed (String.concat " " args) (errno_text err)), m)
    | None => let '(o, m) := systemctl args (choice e) m in (Ok o, m)
    end).

Definition run_expect_success (args : list string) : Run LifecycleError unit :=
  o ← run_systemctl args;
  if success o then mret tt
  else throw (SystemctlFailed (String.concat " " args) (status o +:+ ": " +:+ trim (stderr o))).

Definition SHOW_ARGS : list string := ["show"; UNIT_NAME; "-p"; "LoadState"; "-p"; "ActiveState"; "-p"; "UnitFileState"].

Definition show : Run LifecycleError UnitProperties :=
  o ← run_systemctl SHOW_ARGS;
  give (map_err (λ reason, SystemctlFailed ("show " +:+ UNIT_NAME) (reason +:+ " (" +:+ status o +:+ ": " +:+ trim (stderr o) +:+ ")"))
          (parse_show_output (stdout o))).
Definition daemon_reload : Run LifecycleError unit := run_expect_success ["daemon-reload"];; note Reloaded.
Definition stop : Run LifecycleError unit := run_expect_success ["stop"; UNIT_NAME].
Definition start : Run LifecycleError unit := run_expect_success ["start"; UNIT_NAME];; note Started.

(** [NameHasOwner] on the system bus, which activates nothing. *)
Definition daemon_name_has_owner : Run LifecycleError bool :=
  step (λ e m, match fault e with Some err => (Err (BusUnreachable (errno_text err)), m) | None => (Ok (name_owned m), m) end).

(** ** The activation barrier *)
Record BarrierGuard := { file : Z; path : string; created_control_dir : bool }.

Inductive ControlEntry := Absent | Stale (file : Z).

Definition conflict_reason (md : Metadata) : string :=
  "found " +:+ (if bool_decide (file_type md = IsRegular) then "a regular file" else "a non-regular object") +:+ " of "
  +:+ show_Z (len md) +:+ " bytes, mode " +:+ show_octal (perms md) +:+ ", owner " +:+ show_Z (uid md) +:+ ":" +:+ show_Z (gid md).

Definition probe_control_path (l : LifecycleLayout) : Run LifecycleError ControlEntry :=
  let p := barrier_path l in
  file ← attempt (open_nofollow p RDWR);
  match file with
  | Err ENOENT | Err ENOTDIR => mret Absent
  | Err ELOOP => throw (ControlPathConflict p "it is a symlink")
  | Err e => throw (Io p e)
  | Ok fd =>
      md ← io_at p (fstat fd);
      if is_exact (expected_owner l) md then mret (Stale fd) else throw (ControlPathConflict p (conflict_reason md))
  end.

Definition create_barrier (l : LifecycleLayout) : Run LifecycleError BarrierGuard :=
  created ← ensure_dir (control_dir l);
  _ ← open_trusted_dir (control_dir l) created (expected_owner l);
  let p := barrier_path l in
  made ← attempt (create_nofollow p 384);
  match made with
  | Err EEXIST => throw (ControlPathConflict p "it appeared while the barrier was being created")
  | Err e => throw (Io p e)
  | Ok fd =>
      note (Barred fd);;
      md ← io_at p (fstat fd);
      (if negb (perms md =? 384) then io_at p (fchmod fd 384) else mret tt);;
      md ← io_at p (fstat fd);
      if negb (is_exact (expected_owner l) md) then throw (Untrusted p "created barrier lost its identity")
      else mret {| file := fd; path := p; created_control_dir := created |}
  end.

Definition remove_barrier (b : BarrierGuard) : Run string unit :=
  let at_path e := path b +:+ ": " +:+ errno_text e in
  held ← on_err at_path (fstat (file b));
  on_disk ← attempt (lstat (path b));
  match on_disk with
  | Err ENOENT => note (Unbarred (file b))
  | Err e => throw (at_path e)
  | Ok there =>
      if negb (bool_decide ((dev there, ino there) = (dev held, ino held)))
      then throw (path b +:+ " was replaced while the lease was held; left in place")
      else on_err at_path (unlink (path b));; note (Unbarred (file b))
  end.

(** ** Restoring *)
Record RestoreState := { layout : LifecycleLayout; barrier : option BarrierGuard; restart : bool; lock : Z }.

Inductive RestoreMode := Full | LeaveBarred.

Definition failed {E A} (f : E → string) (r : result A E) : list string := match r with Ok _ => [] | Err e => [f e] end.

Definition still_masked (l : LifecycleLayout) : string :=
  UNIT_NAME +:+ " is still masked after barrier removal; check " +:+ control_dir l +:+ " and /etc/systemd/system.control".

Definition verify_unmasked {E} (l : LifecycleLayout) : Run E (list string) :=
  reloaded ← attempt daemon_reload;
  match reloaded with
  | Err e => mret ["daemon-reload after barrier removal: " +:+ error_text e]
  | Ok _ =>
      shown ← attempt show;
      mret match shown with
           | Ok props => if String.eqb (load_state props) "masked" then [still_masked l] else []
           | Err e => ["could not verify unmasking: " +:+ error_text e]
           end
  end.

Definition take_barrier_down {E} (l : LifecycleLayout) (b : BarrierGuard) : Run E (list string) :=
  removed ← attempt (remove_barrier b);
  (if created_control_dir b then attempt (rmdir (control_dir l));; mret tt else mret tt);;
  unmasked ← verify_unmasked l;
  mret (failed id removed ++ unmasked).

(** The mode is the caller's; the lock is released last, whatever failed before. *)
Definition restore (s : RestoreState) (mode : RestoreMode) : Run LifecycleError unit :=
  errors ← match mode with
    | LeaveBarred => mret []
    | Full =>
        down ← match barrier s with Some b => take_barrier_down (layout s) b | None => mret [] end;
        restarted ← (if restart s then attempt start else mret (Ok tt));
        mret (down ++ failed (λ e, "could not restart " +:+ UNIT_NAME +:+ ": " +:+ error_text e) restarted)
    end;
  close_lock (lock s);;
  match errors with [] => mret tt | _ => throw (RestoreIncomplete (String.concat "; " errors)) end.

(** [if let Err(e) = restore(..) { tracing::error!(..) }] *)
Definition restore_or_log {E} (s : RestoreState) : Run E unit :=
  r ← attempt (restore s Full);
  match r with Ok _ => mret tt | Err e => note (Complained (error_text e)) end.

(** ** Acquiring *)
Record PriorState := { active : bool; prior_file_state : string }.

Definition admit_load (load : string) (adopted_stale_barrier : bool) : result unit LifecycleError :=
  if String.eqb load "loaded" || String.eqb load "not-found" then Ok tt
  else if String.eqb load "masked" then
    if adopted_stale_barrier then Ok tt
    else Err (UnitStateNotAdmissible "masked"
      "the unit is masked outside facelock's control; inspect /run/systemd/system.control and /etc/systemd/system.control for a foreign control-tier file and remove it, then run `systemctl daemon-reload` and retry (`systemctl unmask` clears an /etc mask symlink, not a control-tier mask)")
  else Err (UnitStateNotAdmissible load "unrecognized LoadState; resolve the unit's state, then retry").

Definition admit_active (act : string) : result unit LifecycleError :=
  if String.eqb act "active" || String.eqb act "inactive" then Ok tt
  else if String.eqb act "failed" then
    Err (UnitStateNotAdmissible "failed" ("run `systemctl reset-failed " +:+ UNIT_NAME +:+ "`, then retry"))
  else Err (UnitStateNotAdmissible act "wait for the transition to settle, then retry").

Definition admissible (props : UnitProperties) (adopted_stale_barrier : bool) : result unit LifecycleError :=
  let? _ := admit_load (load_state props) adopted_stale_barrier in admit_active (active_state props).

Definition clock_now {E} : Run E Z := step (λ _ m, (Ok (instant m), m)).
Definition sleep {E} (d : Z) : Run E unit := step (λ _ m, (Ok tt, at_instant (instant m + d) m)).

Fixpoint poll_inactive (fuel : nat) (deadline : Z) (t : AcquireTuning) : Run LifecycleError unit :=
  match fuel with
  | O => unended
  | S fuel =>
      props ← show;
      if String.eqb (active_state props) "inactive" then mret tt
      else
        now ← clock_now;
        if deadline <=? now then throw (DaemonNotStopped (active_state props) (stop_timeout t))
        else sleep (poll_interval t);; poll_inactive fuel deadline t
  end.

Definition wait_until_inactive (fuel : nat) (t : AcquireTuning) : Run LifecycleError unit :=
  now ← clock_now; poll_inactive fuel (now + stop_timeout t) t.

Fixpoint poll_released (fuel : nat) (deadline : Z) (t : AcquireTuning) : Run LifecycleError unit :=
  match fuel with
  | O => unended
  | S fuel =>
      owned ← daemon_name_has_owner;
      if negb owned then mret tt
      else
        now ← clock_now;
        if deadline <=? now then throw (NameStillOwned (bus_timeout t))
        else sleep (poll_interval t);; poll_released fuel deadline t
  end.

Definition wait_until_name_released (fuel : nat) (t : AcquireTuning) : Run LifecycleError unit :=
  now ← clock_now; poll_released fuel (now + bus_timeout t) t.

(** What a failing step hands to [restore] is the state at that step. *)
Definition staged {A} (s : RestoreState) (c : Run LifecycleError A) : Run (RestoreState * LifecycleError) A := on_err (pair s) c.

Definition set_barrier (b : BarrierGuard) (s : RestoreState) : RestoreState :=
  {| layout := layout s; barrier := Some b; restart := restart s; lock := lock s |}.
Definition set_restart (s : RestoreState) : RestoreState :=
  {| layout := layout s; barrier := barrier s; restart := true; lock := lock s |}.

Definition adopted_barrier (l : LifecycleLayout) (e : ControlEntry) : option BarrierGuard :=
  match e with
  | Absent => None
  | Stale fd => Some {| file := fd; path := barrier_path l; created_control_dir := false |}
  end.

Definition stage (fuel : nat) (t : AcquireTuning) (s : RestoreState) : Run (RestoreState * LifecycleError) (RestoreState * PriorState) :=
  let l := layout s in
  staged s (verify_activation_delegation l);;
  entry ← staged s (probe_control_path l);
  let adopted := adopted_barrier l entry in
  props ← staged s show;
  staged s (give (admissible props (is_some adopted)));;
  let prior := {| active := String.eqb (active_state props) "active"; prior_file_state := unit_file_state props |} in
  b ← match adopted with Some b => note (Barred (file b));; mret b | None => staged s (create_barrier l) end;
  let s := set_barrier b s in
  staged s daemon_reload;;
  shown ← staged s show;
  if negb (String.eqb (load_state shown) "masked")
  then throw (s, BarrierNotEffective (barrier_path l) (load_state shown))
  else
    s ← (if active prior then let s := set_restart s in note Stopped;; staged s stop;; mret s else mret s);
    staged s (wait_until_inactive fuel t);;
    staged s (wait_until_name_released fuel t);;
    mret (s, prior).

Record LifecycleLease := { shared : option RestoreState; was_active : bool; prior_unit_file_state : string }.

(** The watch of signals may not come up. *)
Definition arm_signals_with (lease : LifecycleLease) : Run LifecycleError LifecycleLease :=
  armed ← attempt (syscall (λ m, (Ok tt, m)));
  match armed with
  | Ok _ => mret lease
  | Err e =>
      match shared lease with Some s => restore_or_log s | None => mret tt end;;
      throw (SignalArm e)
  end.

Definition acquire (fuel : nat) (l : LifecycleLayout) (t : AcquireTuning) (arm_signals : bool) : Run LifecycleError LifecycleLease :=
  booted ← on_err (Io (systemd_marker l)) (is_dir (systemd_marker l));
  if negb booted then throw (NoSystemd (systemd_marker l))
  else
    lock ← acquire_lifecycle_lock l;
    outcome ← attempt (stage fuel t {| layout := l; barrier := None; restart := false; lock := lock |});
    match outcome with
    | Err (s, error) => restore_or_log s;; throw error
    | Ok (s, prior) =>
        let lease := {| shared := Some s; was_active := active prior; prior_unit_file_state := prior_file_state prior |} in
        if arm_signals then arm_signals_with lease else mret lease
    end.

(** ** Ending a lease that no signal interrupted *)
Definition release (lease : LifecycleLease) : Run LifecycleError unit :=
  match shared lease with Some s => restore s Full | None => mret tt end.

Definition release_leaving_activation_barred (lease : LifecycleLease) : Run LifecycleError string :=
  match shared lease with
  | Some s => restore s LeaveBarred;; mret (barrier_path (layout s))
  | None => throw (RestoreIncomplete "lease was already released")
  end.

Definition drop_lease (lease : LifecycleLease) : Run LifecycleError unit :=
  match shared lease with Some s => restore_or_log s | None => mret tt end.
End lifecycle.
