(* ===== verification/LifecycleSignals.v ===== *)
(** * LifecycleSignals: a lease, its operation and a signal

    [facelock-cli/src/lifecycle.rs], [SignalWatch] and [OperationGate]: the thread that holds the
    lease runs the operation and then ends the lease; another waits for HUP, INT or TERM, lets the
    operation come to its end, restores and ends the process. One step is one access to what they
    share, or one act of a restoration. *)

From S2P Require Import Prelude Lifecycle.

(** ** The threads

    They share the interrupt flag, the gate, the slot with the state to restore and the handle of
    the signals. *)
Inductive Deed := Unbar | StartAgain | Unlock.

(** What [restore] does, in order, when no step of it fails. *)
Definition plan (restart : bool) (mode : RestoreMode) : list Deed :=
  match mode with
  | Full => [Unbar] ++ (if restart then [StartAgain] else []) ++ [Unlock]
  | LeaveBarred => [Unlock]
  end.

(** The thread of the operation. A panic of the operation unwinds to the same end. *)
Inductive MainPc := Working | Returned | Acknowledged | Disarming | Joined | MainRestoring (todo : list Deed) | Finished.

(** The signal thread. *)
Inductive WatchPc := Waiting | Flagged | Deciding (acknowledged : bool) | WatchRestoring (todo : list Deed) | Terminating | Over.

#[export] Instance Deed_eq_dec : EqDecision Deed.
Proof. solve_decision. Defined.
#[export] Instance WatchPc_eq_dec : EqDecision WatchPc.
Proof. solve_decision. Defined.

(** [mutations] counts what the operation changed on disk; [restorations] who restored. *)
Record Threads := {
  main : MainPc; watch : WatchPc;
  interrupted : bool; finished : bool; slot : bool; closed : bool;
  barred : bool; running : bool; held : bool; alive : bool;
  mutations : nat; restorations : nat }.

Definition set_main (pc : MainPc) (t : Threads) : Threads :=
  {| main := pc; watch := watch t; interrupted := interrupted t; finished := finished t; slot := slot t; closed := closed t;
     barred := barred t; running := running t; held := held t; alive := alive t; mutations := mutations t; restorations := restorations t |}.
Definition set_watch (pc : WatchPc) (t : Threads) : Threads :=
  {| main := main t; watch := pc; interrupted := interrupted t; finished := finished t; slot := slot t; closed := closed t;
     barred := barred t; running := running t; held := held t; alive := alive t; mutations := mutations t; restorations := restorations t |}.
Definition set_flags (i f c : bool) (t : Threads) : Threads :=
  {| main := main t; watch := watch t; interrupted := i; finished := f; slot := slot t; closed := c;
     barred := barred t; running := running t; held := held t; alive := alive t; mutations := mutations t; restorations := restorations t |}.
Definition mutate (t : Threads) : Threads :=
  {| main := main t; watch := watch t; interrupted := interrupted t; finished := finished t; slot := slot t; closed := closed t;
     barred := barred t; running := running t; held := held t; alive := alive t; mutations := S (mutations t); restorations := restorations t |}.

(** [take_restore] *)
Definition take_restore (t : Threads) : option Threads :=
  if slot t then
    Some {| main := main t; watch := watch t; interrupted := interrupted t; finished := finished t; slot := false; closed := closed t;
            barred := barred t; running := running t; held := held t; alive := alive t; mutations := mutations t;
            restorations := S (restorations t) |}
  else None.

Definition deed (d : Deed) (t : Threads) : Threads :=
  let b := match d with Unbar => false | _ => barred t end in
  let r := match d with StartAgain => true | _ => running t end in
  let h := match d with Unlock => false | _ => held t end in
  {| main := main t; watch := watch t; interrupted := interrupted t; finished := finished t; slot := slot t; closed := closed t;
     barred := b; running := r; held := h; alive := alive t; mutations := mutations t; restorations := restorations t |}.

(** The process ends: the kernel releases its lock. *)
Definition die (t : Threads) : Threads :=
  {| main := main t; watch := watch t; interrupted := interrupted t; finished := finished t; slot := slot t; closed := closed t;
     barred := barred t; running := running t; held := false; alive := false; mutations := mutations t; restorations := restorations t |}.

(** The steps of the operation's thread. [mode] is whether the lease is released or left barred,
    [restart] whether the daemon was active before. *)
Definition advance_main (restart : bool) (mode : RestoreMode) (t : Threads) : option Threads :=
  match main t with
  | Working => Some (set_main Returned t)
  | Returned => Some (set_main Acknowledged (set_flags (interrupted t) true (closed t) t)) (* mark_operation_finished *)
  | Acknowledged => Some (set_main Disarming (set_flags (interrupted t) true true t)) (* release: mark, close *)
  | Disarming => if bool_decide (watch t = Over) then Some (set_main Joined t) else None
  | Joined =>
      Some match take_restore t with
           | Some t => set_main (MainRestoring (plan restart mode)) t
           | None => set_main Finished t
           end
  | MainRestoring (d :: todo) => Some (set_main (MainRestoring todo) (deed d t))
  | MainRestoring [] => Some (set_main Finished t)
  | Finished => None
  end.

(** The steps of the signal thread. [delivered] is whether its wait ends by a signal or by the
    closing of the handle; a wait for the acknowledgement ends with the flag or with its time. *)
Definition advance_watch (restart delivered : bool) (t : Threads) : option Threads :=
  match watch t with
  | Waiting =>
      if delivered then Some (set_watch Flagged (set_flags true (finished t) (closed t) t))
      else if closed t then Some (set_watch Over t) else None
  | Flagged => Some (set_watch (Deciding (finished t)) t)
  | Deciding acknowledged =>
      Some match take_restore t with
           | Some t => set_watch (WatchRestoring (plan restart (if acknowledged then Full else LeaveBarred))) t
           | None => set_watch Terminating t
           end
  | WatchRestoring (d :: todo) => Some (set_watch (WatchRestoring todo) (deed d t))
  | WatchRestoring [] => Some (set_watch Terminating t)
  | Terminating => Some (die t)
  | Over => None
  end.

Inductive thread_step (restart : bool) (mode : RestoreMode) : Threads → Threads → Prop :=
  | step_mutate t : alive t = true → main t = Working → thread_step restart mode t (mutate t)
  | step_main t t' : alive t = true → advance_main restart mode t = Some t' → thread_step restart mode t t'
  | step_watch delivered t t' : alive t = true → advance_watch restart delivered t = Some t' → thread_step restart mode t t'
  | step_kill t : alive t = true → thread_step restart mode t (die t).

(** A lease was just acquired. *)
Definition under_lease : Threads :=
  {| main := Working; watch := Waiting; interrupted := false; finished := false; slot := true; closed := false;
     barred := true; running := false; held := true; alive := true; mutations := 0; restorations := 0 |}.

Inductive reachable (restart : bool) (mode : RestoreMode) : Threads → Prop :=
  | reachable_lease : reachable restart mode under_lease
  | reachable_step t t' : reachable restart mode t → thread_step restart mode t t' → reachable restart mode t'.

(** ** What every interleaving keeps *)
Definition past_work (pc : MainPc) : bool :=
  match pc with Working | Returned => false | _ => true end.
Definition ending (pc : MainPc) : bool :=
  match pc with Joined | MainRestoring _ | Finished => true | _ => false end.
Definition restoring (pc : MainPc) : bool := match pc with MainRestoring _ | Finished => true | _ => false end.
Definition signalled (pc : WatchPc) : bool := match pc with WatchRestoring _ | Terminating => true | _ => false end.
Definition suffix_of (todo whole : list Deed) : Prop := ∃ before, whole = before ++ todo.

Lemma suffix_tail d todo whole : suffix_of (d :: todo) whole → suffix_of todo whole.
Proof. intros [before ->]. exists (before ++ [d]). by rewrite <- app_assoc. Qed.

Definition pending (d : Deed) (todo : list Deed) : bool :=
  existsb (λ e, match d, e with Unbar, Unbar | StartAgain, StartAgain | Unlock, Unlock => true | _, _ => false end) todo.

(** What is left to do says what was done. *)
Definition restored_but (restart : bool) (todo : list Deed) (mode : RestoreMode) (t : Threads) : Prop :=
  suffix_of todo (plan restart mode) ∧
  (running t = true → restart = true ∧ barred t = false) ∧
  match mode with
  | Full => (pending Unbar todo = false → barred t = false) ∧ (pending StartAgain todo = false → running t = restart)
  | LeaveBarred => barred t = true ∧ running t = false
  end ∧
  (pending Unlock todo = false → held t = false).

Record lease_ok (restart : bool) (mode : RestoreMode) (t : Threads) : Prop := {
  ok_finished : finished t = past_work (main t);
  ok_closed : ending (main t) = true → watch t = Over ∧ closed t = true;
  ok_disarming : main t = Disarming → closed t = true;
  ok_over : watch t = Over → closed t = true;
  ok_slot : slot t = true → barred t = true ∧ running t = false ∧ restorations t = 0%nat ∧ restoring (main t) = false ∧ signalled (watch t) = false;
  ok_taken : slot t = false → restorations t = 1%nat ∧ (restoring (main t) = true ∨ signalled (watch t) = true);
  ok_deciding a : watch t = Deciding a → (a = true → finished t = true) ∧ slot t = true;
  ok_early : watch t = Waiting ∨ watch t = Flagged → slot t = true;
  ok_joined : watch t = Over → restoring (main t) = false → slot t = true;
  ok_main todo : main t = MainRestoring todo → restored_but restart todo mode t;
  ok_done : main t = Finished → restored_but restart [] mode t;
  ok_watch todo : watch t = WatchRestoring todo →
    (∃ m, restored_but restart todo m t ∧ (m = Full → finished t = true)) ;
  ok_terminating : watch t = Terminating →
    (∃ m, restored_but restart [] m t ∧ (m = Full → finished t = true)) }.

Lemma lease_ok_start restart mode : lease_ok restart mode under_lease.
Proof. split; cbn; try done; naive_solver. Qed.

(** A restoration that begins, and one that takes a step. *)
Lemma restored_start restart m t :
  (barred t = true) → (running t = false) → restored_but restart (plan restart m) m t.
Proof.
  intros Hb Hr. split; [by exists []|]. split; [by rewrite Hr|]. split; [|by destruct m, restart].
  destruct m, restart; done.
Qed.

Lemma restored_deed restart m d todo t :
  restored_but restart (d :: todo) m t → restored_but restart todo m (deed d t).
Proof.
  intros (Hs & Hr & Hm & Hl). split; [by eapply suffix_tail|]. destruct Hs as [before E].
  destruct m, restart; cbn in E; repeat (destruct before as [|? before]; [|cbn in E; try discriminate E]); simplify_eq; cbn in *;
    naive_solver.
Qed.

Lemma restored_done restart m t : restored_but restart [] m t →
  held t = false ∧ (running t = true → restart = true ∧ barred t = false) ∧
  match m with Full => barred t = false ∧ running t = restart | LeaveBarred => barred t = true ∧ running t = false end.
Proof.
  intros (_ & Hr & Hm & Hl). split; [by apply Hl|]. split; [done|].
  destruct m; [|done]. destruct Hm as [H1 H2]. split; [by apply H1|by apply H2].
Qed.

(** [restored_but] looks only at what the service is. *)
Lemma restored_same restart todo m t t' :
  restored_but restart todo m t → barred t' = barred t → running t' = running t → held t' = held t → restored_but restart todo m t'.
Proof. unfold restored_but. by intros H -> -> ->. Qed.

Lemma restored_die restart todo m t : restored_but restart todo m t → restored_but restart todo m (die t).
Proof. intros (? & ? & ? & ?). by repeat split_and?. Qed.

Lemma ok_mutate restart mode t : lease_ok restart mode t → lease_ok restart mode (mutate t).
Proof. intros []. split; done. Qed.

Lemma ok_die restart mode t : lease_ok restart mode t → lease_ok restart mode (die t).
Proof.
  intros []. split; cbn; try done; intros; (try by apply restored_die; auto).
  - destruct (ok_watch0 _ H) as (m & ? & ?). exists m. split; [by apply restored_die|done].
  - destruct (ok_terminating0 H) as (m & ? & ?). exists m. split; [by apply restored_die|done].
Qed.

Lemma taken_state t t' : take_restore t = Some t' →
  slot t = true ∧ main t' = main t ∧ watch t' = watch t ∧ finished t' = finished t ∧ slot t' = false ∧ closed t' = closed t ∧
  barred t' = barred t ∧ running t' = running t ∧ held t' = held t ∧ restorations t' = S (restorations t).
Proof. unfold take_restore. destruct (slot t); [|done]. by intros [= <-]. Qed.

(** The fields of [lease_ok] that a step does not touch, or touches on other branches. *)
Ltac lease_fields := try done; intros; simplify_eq/=; auto 4;
  try match goal with
  | Hw : ∀ todo, watch ?t = WatchRestoring todo → _, H : watch ?t = WatchRestoring _ |- ∃ _, _ =>
      destruct (Hw _ H) as (m & ? & ?); exists m; split; auto
  | Hte : watch ?t = Terminating → _, H : watch ?t = Terminating |- ∃ _, _ =>
      destruct (Hte H) as (m & ? & ?); exists m; split; auto
  | Hde : ∀ a, watch ?t = Deciding a → _, H : watch ?t = Deciding _ |- _ => destruct (Hde _ H); split; auto
  | Hc : ending _ = true → _ ∧ _, H : ending _ = true |- _ => destruct (Hc H); done
  end; try by (destruct_or?; congruence).

Lemma ok_main_step restart mode t t' : lease_ok restart mode t → advance_main restart mode t = Some t' → lease_ok restart mode t'.
Proof.
  intros [Hf Hc Hd Ho Hs Ht Hde He Hj Hm Hdn Hw Hte]. unfold advance_main. destruct (main t) as [| | | | |todo|] eqn:Em; cbn in *.
  - intros [= <-]. split; cbn; rewrite ?Em; lease_fields.
  - intros [= <-]. split; cbn; rewrite ?Em; lease_fields.
  - intros [= <-]. split; cbn; rewrite ?Em; lease_fields.
  - case_bool_decide as Hov; [|done]. intros [= <-]. split; cbn; rewrite ?Em; lease_fields.
  - intros [= <-]. destruct (Hc eq_refl) as [Hov Hcl]. specialize (Hj Hov eq_refl). destruct (Hs Hj) as (Hb & Hr & Hz & _ & _).
    destruct (take_restore t) as [t'|] eqn:Et; [|unfold take_restore in Et; by rewrite Hj in Et].
    apply taken_state in Et as (_ & E1 & E2 & E3 & E4 & E5 & E6 & E7 & E8 & E9).
    split; cbn; rewrite ?E1, ?E2, ?E3, ?E4, ?E5, ?E6, ?E7, ?E8, ?E9, ?Hz, ?Hov; lease_fields.
    eapply restored_same; [by apply restored_start|done..].
  - destruct (Hc eq_refl) as [Hov Hcl]. specialize (Hm _ eq_refl).
    assert (slot t = false) as Hns. { destruct (slot t) eqn:E; [|done]. destruct (Hs eq_refl) as (_ & _ & _ & ? & _). done. }
    destruct todo as [|d todo]; intros [= <-]; split; cbn; rewrite ?Em, ?Hov, ?Hns; lease_fields.
    3: eapply restored_same; [by apply restored_deed|done..].
    all: destruct (Ht Hns); auto.
  - done.
Qed.

Lemma ok_watch_step restart mode delivered t t' :
  lease_ok restart mode t → advance_watch restart delivered t = Some t' → lease_ok restart mode t'.
Proof.
  intros [Hf Hc Hd Ho Hs Ht Hde He Hj Hm Hdn Hw Hte]. unfold advance_watch. destruct (watch t) as [| |a|todo| |] eqn:Ew; cbn in *.
  - destruct delivered; [|destruct (closed t) eqn:Ecl; [|done]]; intros [= <-]; split; cbn; rewrite ?Ew; lease_fields.
  - intros [= <-]. split; cbn; rewrite ?Ew; lease_fields.
  - intros [= <-]. destruct (Hde _ eq_refl) as [Ha Hsl]. destruct (Hs Hsl) as (Hb & Hr & Hz & Hre & _).
    assert (ending (main t) = false) as Hen. { destruct (ending (main t)); [by destruct (Hc eq_refl)|done]. }
    destruct (take_restore t) as [t'|] eqn:Et; [|unfold take_restore in Et; by rewrite Hsl in Et].
    apply taken_state in Et as (_ & E1 & E2 & E3 & E4 & E5 & E6 & E7 & E8 & E9).
    split; cbn; rewrite ?E1, ?E2, ?E3, ?E4, ?E5, ?E6, ?E7, ?E8, ?E9, ?Hz, ?Hen; lease_fields.
    1-2: by rewrite H in Hen.
    exists (if a then Full else LeaveBarred). split; [|by destruct a; auto].
    eapply restored_same; [by apply restored_start|done..].
  - assert (ending (main t) = false) as Hen. { destruct (ending (main t)); [by destruct (Hc eq_refl)|done]. }
    destruct (Hw _ eq_refl) as (m & Hr & Hfi).
    assert (slot t = false) as Hns. { destruct (slot t) eqn:E; [|done]. destruct (Hs eq_refl) as (_ & _ & _ & _ & ?). done. }
    destruct todo as [|d todo]; intros [= <-]; split; cbn; rewrite ?Ew, ?Hen, ?Hns; lease_fields.
    all: try (by rewrite H in Hen).
    + by exists m.
    + exists m. split; [|done]. eapply restored_same; [by apply restored_deed|done..].
  - intros [= <-]. apply ok_die. split; cbn; rewrite ?Ew; lease_fields.
  - done.
Qed.

Lemma reachable_lease_ok restart mode t : reachable restart mode t → lease_ok restart mode t.
Proof.
  induction 1 as [|t t' _ IH Hstep]; [apply lease_ok_start|].
  destruct Hstep; eauto using ok_mutate, ok_main_step, ok_watch_step, ok_die.
Qed.

(** Nothing is unbarred or started before the operation has come to its end. *)
Lemma unfinished_is_barred restart mode t : lease_ok restart mode t → finished t = false → barred t = true ∧ running t = false.
Proof.
  intros [Hf Hc Hd Ho Hs Ht Hde He Hj Hm Hdn Hw Hte] Hfi. destruct (slot t) eqn:Esl; [by destruct (Hs eq_refl) as (? & ? & _)|].
  destruct (Ht eq_refl) as [_ [Hre|Hre]]; [by destruct (main t); rewrite Hf in Hfi|].
  assert (∃ m todo, restored_but restart todo m t ∧ (m = Full → finished t = true)) as (m & todo & Hr & Hfull).
  { destruct (watch t); try done; [destruct (Hw _ eq_refl) as (m & ? & ?); by eexists m, _|].
    destruct (Hte eq_refl) as (m & ? & ?). by eexists m, _. }
  destruct m; [by rewrite Hfull in Hfi|]. by destruct Hr as (_ & _ & ? & _).
Qed.

Lemma started_is_unbarred restart mode t : lease_ok restart mode t → running t = true → restart = true ∧ barred t = false.
Proof.
  intros [Hf Hc Hd Ho Hs Ht Hde He Hj Hm Hdn Hw Hte] Hru.
  destruct (slot t) eqn:Esl; [destruct (Hs eq_refl) as (_ & E & _); congruence|].
  destruct (Ht eq_refl) as [_ [Hre|Hre]].
  - destruct (main t); try done; [specialize (Hm _ eq_refl) as (_ & H & _)|specialize (Hdn eq_refl) as (_ & H & _)]; auto.
  - destruct (watch t); try done; [specialize (Hw _ eq_refl) as (? & (_ & H & _) & _)|specialize (Hte eq_refl) as (? & (_ & H & _) & _)]; auto.
Qed.

(** C15.  In every interleaving of the operation, the end of its lease, a signal and a kill: while
    the operation may change the disk the daemon stays barred and stopped, it is started again only
    after the barrier is gone and only if it was active before, at most one thread restores, and a
    lease that was ended has released the lock and left the service as asked. *)
Theorem restore_waits_for_operation restart mode t (Hr : reachable restart mode t) :
  (main t = Working → barred t = true ∧ running t = false) ∧
  (running t = true → restart = true ∧ barred t = false) ∧
  (restorations t ≤ 1)%nat ∧
  (alive t = false → finished t = false → barred t = true) ∧
  (main t = Finished → held t = false ∧
    match mode with Full => barred t = false ∧ running t = restart | LeaveBarred => barred t = true ∧ running t = false end).
Proof.
  apply reachable_lease_ok in Hr. pose proof (unfinished_is_barred _ _ _ Hr) as Hun. pose proof (started_is_unbarred _ _ _ Hr) as Hst.
  destruct Hr as [Hf Hc Hd Ho Hs Ht Hde He Hj Hm Hdn Hw Hte]. split_and!; [| |destruct (slot t)| |].
  - intros E. apply Hun. by rewrite Hf, E.
  - done.
  - destruct (Hs eq_refl) as (_ & _ & -> & _). lia.
  - destruct (Ht eq_refl) as [-> _]. lia.
  - intros _ E. by apply Hun.
  - intros E. destruct (restored_done _ _ _ (Hdn E)) as (? & _ & ?). done.
Qed.

(** ** An ended operation ends its lease *)
Definition main_rank (pc : MainPc) : nat :=
  match pc with
  | Working => 9 | Returned => 8 | Acknowledged => 7 | Disarming => 6 | Joined => 5
  | MainRestoring todo => S (length todo) | Finished => 0
  end.
Definition watch_rank (pc : WatchPc) : nat :=
  match pc with
  | Waiting => 8 | Flagged => 7 | Deciding _ => 6 | WatchRestoring todo => S (S (length todo)) | Terminating => 1 | Over => 0
  end.
Definition effort (t : Threads) : nat := if alive t then S (main_rank (main t) + watch_rank (watch t)) else 0.

Lemma taken_alive t t' : take_restore t = Some t' → alive t' = alive t.
Proof. unfold take_restore. destruct (slot t); [|done]. by intros [= <-]. Qed.

Lemma main_effort restart mode t t' : alive t = true → advance_main restart mode t = Some t' → (effort t' < effort t)%nat.
Proof.
  intros Ha. unfold advance_main, effort. rewrite Ha. destruct (main t) as [| | | | |[|d todo]|] eqn:Em; [..|done].
  5:{ intros [= <-]. destruct (take_restore t) as [t'|] eqn:Et; cbn; [|rewrite Ha; lia].
      rewrite (taken_alive _ _ Et), Ha. apply taken_state in Et as (_ & _ & -> & _). destruct mode, restart; cbn; lia. }
  4: case_bool_decide; [|done].
  all: intros [= <-]; cbn; rewrite Ha; lia.
Qed.

Lemma watch_effort restart delivered t t' : alive t = true → advance_watch restart delivered t = Some t' → (effort t' < effort t)%nat.
Proof.
  intros Ha. unfold advance_watch, effort. rewrite Ha. destruct (watch t) as [| |a|[|d todo]| |] eqn:Ew; [..|done].
  3:{ intros [= <-]. destruct (take_restore t) as [t'|] eqn:Et; cbn; [|rewrite Ha; lia].
      rewrite (taken_alive _ _ Et), Ha. apply taken_state in Et as (_ & -> & _). destruct a, restart; cbn; lia. }
  1: destruct delivered; [|destruct (closed t); [|done]].
  all: intros [= <-]; cbn; rewrite ?Ha; lia.
Qed.

(** Once the operation returned, the two threads come to an end in at most [effort] steps and never
    wait for each other for good: short of the end, one of them can go on without a signal. *)
Theorem ended_operation_ends_lease restart mode t (Hr : reachable restart mode t) (Hw : main t ≠ Working) :
  (∀ t', thread_step restart mode t t' → (effort t' < effort t)%nat) ∧
  (alive t = true → main t ≠ Finished → is_Some (advance_main restart mode t) ∨ is_Some (advance_watch restart false t)).
Proof.
  split.
  - intros t' Hstep. destruct Hstep as [t Ha Hm|t t1 Ha E|delivered t t1 Ha E|t Ha]; [done|by eapply main_effort|by eapply watch_effort|].
    unfold effort. rewrite Ha. cbn. lia.
  - intros Ha Hnf. apply reachable_lease_ok in Hr. unfold advance_main.
    destruct (main t) as [| | | | |[|d todo]|] eqn:Em; try done; try (left; by eexists).
    case_bool_decide as Ho; [left; by eexists|right]. unfold advance_watch.
    destruct (watch t) as [| |a|[|d todo]| |]; try done; try by eexists. rewrite (ok_disarming _ _ _ Hr Em). by eexists.
Qed.

(** ** Interleavings *)
Inductive Turn := OfMain | OfWatch (delivered : bool).

Fixpoint run_threads (restart : bool) (mode : RestoreMode) (turns : list Turn) (t : Threads) : option Threads :=
  match turns with
  | [] => Some t
  | turn :: turns =>
      if alive t then
        t ← match turn with OfMain => advance_main restart mode t | OfWatch delivered => advance_watch restart delivered t end;
        run_threads restart mode turns t
      else None
  end.

Lemma run_threads_reachable restart mode turns t t' :
  reachable restart mode t → run_threads restart mode turns t = Some t' → reachable restart mode t'.
Proof.
  revert t. induction turns as [|turn turns IH]; intros t Hr; cbn; [by intros [= <-]|].
  destruct (alive t) eqn:Ha; [|done]. destruct (match turn with OfMain => _ | OfWatch _ => _ end) as [t1|] eqn:E; [|done].
  apply IH. eapply reachable_step; [done|]. destruct turn; [by eapply step_main|by eapply step_watch].
Qed.

(** A signal arrives while the operation runs; it returns in time, so the daemon is started again
    before the process dies. *)
Definition signalled_in_time : list Turn :=
  [OfWatch true; OfMain; OfMain; OfWatch true; OfWatch true; OfWatch true; OfWatch true].

Lemma restore_waits_for_operation_witness : ∃ t,
  run_threads true Full signalled_in_time under_lease = Some t ∧ running t = true ∧ barred t = false ∧ (restorations t ≤ 1)%nat.
Proof.
  destruct (run_threads true Full signalled_in_time under_lease) as [t|] eqn:E; [|discriminate E].
  exists t. split; [done|]. assert (running t = true) as Hrun by (by vm_compute in E; injection E as <-).
  pose proof (restore_waits_for_operation true Full t (run_threads_reachable _ _ _ _ _ (reachable_lease _ _) E)) as (_ & H & H1 & _).
  destruct (H Hrun) as [_ Hb]. done.
Defined.

(** The operation does not acknowledge in time: activation stays barred, but the restoration gives
    the lock up before the process dies, so for a moment the operation runs without it. *)
Example lock_is_free_before_death : ∃ t,
  reachable true Full t ∧ main t = Working ∧ alive t = true ∧ held t = false ∧ barred t = true.
Proof.
  destruct (run_threads true Full [OfWatch true; OfWatch true; OfWatch true; OfWatch true] under_lease) as [t|] eqn:E; [|discriminate E].
  exists t. split; [by eapply run_threads_reachable, E; constructor|]. vm_compute in E. by injection E as <-.
Qed.
