(* ===== verification/LifecycleLogic.v ===== *)
(** * LifecycleLogic: the rules that the promises of a lease rest on

    A program logic for the runs of [Lifecycle.v] with any call failing and a kill at any of them,
    beside the deeds of other processes, of the service manager and of the bus: files, locks, starts,
    activations, reloads. Others leave the activation definitions and the barrier (or the mask) as
    they are; that the masked daemon then stays stopped is proved here. And the specification of every
    step of acquiring and restoring. *)

From stdpp Require Import gmap.
From S2P Require Import Prelude Text Provenance PamFiles Lifecycle.

(** ** Other processes and the service manager *)
Definition node_at (m : Machine) (p : string) : option Inode := names m !! p ≫= λ i, inodes m !! i.

Definition is_masked (m : Machine) : Prop := load_state (unit_state m) = "masked"%string.
Definition is_inactive (m : Machine) : Prop := active_state (unit_state m) = "inactive"%string.

(** Every name has an inode below the next number. *)
Definition numbered (m : Machine) : Prop := ∀ p i, names m !! p = Some i → i < next_inode m.

(** What an activation definition must be for the bus to leave starting the daemon to the manager. *)
Definition delegated {SD : ShowDebug} {l : LifecycleLayout} (p : string) (m : Machine) : Prop :=
  match node_at m p with
  | None => True
  | Some n => i_type n = IsRegular ∧ (i_uid n, i_gid n) = expected_owner l ∧ activation_delegates (i_content n) = Ok tt
  end.
Definition definitions_delegate {SD : ShowDebug} {l : LifecycleLayout} (m : Machine) : Prop :=
  ∀ p, p ∈ activation_definition_paths l → delegated (l := l) p m.

(** What the others leave alone while a lease is held: the barrier's file in the control tier, which
    keeps the unit masked at every reload, or, should they remove that file, the mask itself. *)
Inductive Courtesy := LeaveBarrier | LeaveMask.
Class Neighbours := courtesy : Courtesy.

Definition barred {NB : Neighbours} (l : LifecycleLayout) (m : Machine) : Prop :=
  match courtesy with LeaveBarrier => is_Some (names m !! barrier_path l) | LeaveMask => True end.

(** A machine that differs in its files, in its locks, or in its unit and the owner of the name. *)
Definition refiled (m m' : Machine) : Prop :=
  locks m' = locks m ∧ unit_state m' = unit_state m ∧ name_owned m' = name_owned m ∧ instant m' = instant m ∧ acts m' = acts m.
Definition same_but_locks (m m' : Machine) : Prop :=
  inodes m' = inodes m ∧ names m' = names m ∧ next_inode m' = next_inode m ∧ unit_state m' = unit_state m ∧ name_owned m' = name_owned m ∧
  instant m' = instant m ∧ acts m' = acts m.
Definition reunited (m m' : Machine) : Prop :=
  inodes m' = inodes m ∧ names m' = names m ∧ next_inode m' = next_inode m ∧ locks m' = locks m ∧ instant m' = instant m ∧ acts m' = acts m.

(** What other processes do, the manager and the bus among them. They write files, but not the
    activation definitions, and do not remove the barrier; nobody runs the daemon but the manager and
    the bus. The manager refuses to start a masked unit; a reload of it keeps a unit masked that has
    an empty file in the control tier; a unit that is inactive changes only by being started. The bus
    starts a program itself only for a definition that does not delegate. *)
Inductive foreign_deed {SD : ShowDebug} {NB : Neighbours} (l : LifecycleLayout) (m m' : Machine) : Prop :=
  | deed_files : refiled m m' →
      (∀ p, p ∈ activation_definition_paths l → names m' !! p = names m !! p ∧ node_at m' p = node_at m p) →
      (barred l m → barred l m') → (numbered m → numbered m') → foreign_deed l m m'
  | deed_locks : same_but_locks m m' → (∀ i, locks m' !! i = Some true ↔ locks m !! i = Some true) → foreign_deed l m m'
  | deed_time t : instant m ≤ t → m' = at_instant t m → foreign_deed l m m'
  | deed_start : reunited m m' → ¬ is_masked m → load_state (unit_state m') = load_state (unit_state m) → foreign_deed l m m'
  | deed_activate : reunited m m' → unit_state m' = unit_state m → ¬ definitions_delegate (l := l) m → foreign_deed l m m'
  | deed_progress : reunited m m' → ¬ is_inactive m → load_state (unit_state m') = load_state (unit_state m) → foreign_deed l m m'
  | deed_release : reunited m m' → unit_state m' = unit_state m → name_owned m' = false → foreign_deed l m m'
  | deed_reload : reunited m m' → active_state (unit_state m') = active_state (unit_state m) → name_owned m' = name_owned m →
      (is_masked m → barred l m → is_masked m') → foreign_deed l m m'.

Definition rely {SD : ShowDebug} {NB : Neighbours} (l : LifecycleLayout) : Machine → Machine → Prop := rtc (foreign_deed l).

Lemma rely_refl {SD : ShowDebug} {NB : Neighbours} l m : rely l m m.
Proof. apply rtc_refl. Qed.

Lemma rely_trans {SD : ShowDebug} {NB : Neighbours} l m1 m2 m3 : rely l m1 m2 → rely l m2 m3 → rely l m1 m3.
Proof. unfold rely. intros H1 H2. by etrans. Qed.

(** What every deed keeps, any number of them keep. *)
Lemma rely_keeps {SD : ShowDebug} {NB : Neighbours} l (R : Machine → Machine → Prop) m m' : PreOrder R → (∀ m m', foreign_deed l m m' → R m m') → rely l m m' → R m m'.
Proof. intros ? H. induction 1 as [|m1 m2 m3 Hd _ IH]; [done|]. etrans; [by apply H|done]. Qed.

Lemma rely_acts {SD : ShowDebug} {NB : Neighbours} l m m' : rely l m m' → acts m' = acts m.
Proof.
  intros H. symmetry. apply (rely_keeps l (λ m m', acts m = acts m')); [split; [done|intros ???; congruence]| |done].
  clear. intros m m' H. destruct H; unfold refiled, reunited, same_but_locks in *; subst; naive_solver.
Qed.

Lemma rely_locks {SD : ShowDebug} {NB : Neighbours} l m m' i : rely l m m' → locks m' !! i = Some true ↔ locks m !! i = Some true.
Proof.
  apply (rely_keeps l (λ m m', locks m' !! i = Some true ↔ locks m !! i = Some true)); [split; [done|intros ???; naive_solver]|].
  clear. intros m m' H. destruct H as [Hs| |t ? ->|Hs|Hs|Hs|Hs|Hs]; [|auto|done|..];
    (assert (locks m' = locks m) as -> by (unfold refiled, reunited in Hs; tauto)); done.
Qed.

Lemma deed_on_files {SD : ShowDebug} {NB : Neighbours} l m m' : foreign_deed l m m' →
  (refiled m m' ∧ (∀ p, p ∈ activation_definition_paths l → names m' !! p = names m !! p ∧ node_at m' p = node_at m p) ∧
   (barred l m → barred l m') ∧ (numbered m → numbered m')) ∨
  (inodes m' = inodes m ∧ names m' = names m ∧ next_inode m' = next_inode m).
Proof. intros []; unfold reunited, same_but_locks in *; subst; [left; done|right; cbn; tauto..]. Qed.

Lemma rely_definitions {SD : ShowDebug} {NB : Neighbours} l m m' p : rely l m m' → p ∈ activation_definition_paths l → names m' !! p = names m !! p ∧ node_at m' p = node_at m p.
Proof.
  intros H Hp. revert H. apply (rely_keeps l (λ m m', names m' !! p = names m !! p ∧ node_at m' p = node_at m p)); [split; [done|intros ???; intuition congruence]|].
  clear -Hp. intros m m' [(_ & H & _)|(Ei & En & _)]%deed_on_files; [by apply H|]. unfold node_at. by rewrite En, Ei.
Qed.

Lemma rely_barred {SD : ShowDebug} {NB : Neighbours} l m m' : rely l m m' → barred l m → barred l m'.
Proof.
  apply (rely_keeps l (λ m m', barred l m → barred l m')); [split; [by intros ?|intros ???; auto]|].
  clear. intros m m' [(_ & _ & H & _)|(_ & En & _)]%deed_on_files; [done|]. unfold barred. by rewrite En.
Qed.

Lemma rely_numbered {SD : ShowDebug} {NB : Neighbours} l m m' : rely l m m' → numbered m → numbered m'.
Proof.
  apply (rely_keeps l (λ m m', numbered m → numbered m')); [split; [by intros ?|intros ???; auto]|].
  clear. intros m m' [(_ & _ & _ & H)|(_ & En & Ex)]%deed_on_files; [done|]. unfold numbered. by rewrite En, Ex.
Qed.

Lemma rely_instant {SD : ShowDebug} {NB : Neighbours} l m m' : rely l m m' → instant m ≤ instant m'.
Proof.
  apply (rely_keeps l (λ m m', instant m ≤ instant m')); [split; [by intros ?|intros ???; lia]|].
  clear. intros m m' H. destruct H as [Hs|Hs|t ? ->|Hs|Hs|Hs|Hs|Hs]; unfold refiled, reunited, same_but_locks in *; destruct_and?; try done; lia.
Qed.

(** *** While the barrier stands nobody can start the daemon *)
Lemma deed_masked {SD : ShowDebug} {NB : Neighbours} l m m' : foreign_deed l m m' → barred l m → is_masked m → is_masked m'.
Proof.
  intros H Hb Hm. destruct H as [Hs|Hs|t ? ->|? Hn|Hs Hu|? ? Hu|? Hu|? ? ? Hk]; [..|by apply Hk]; try done; unfold is_masked in *; try congruence;
    unfold refiled, same_but_locks in Hs; assert (unit_state m' = unit_state m) as -> by tauto; done.
Qed.

Lemma deed_inactive {SD : ShowDebug} {NB : Neighbours} l m m' : foreign_deed l m m' → is_masked m → is_inactive m → is_inactive m'.
Proof.
  intros H Hm Hi. destruct H as [Hs|Hs|t ? ->|? Hn|Hs Hu|? ? Hu|? Hu|? Hu]; try done; unfold is_inactive in *; try congruence;
    unfold refiled, same_but_locks in Hs; assert (unit_state m' = unit_state m) as -> by tauto; done.
Qed.

Lemma deed_unowned {SD : ShowDebug} {NB : Neighbours} l m m' : foreign_deed l m m' → is_masked m → is_inactive m →
  definitions_delegate (l := l) m → name_owned m = false → name_owned m' = false.
Proof.
  intros H Hm Hi Hd Ho. destruct H as [Hs|Hs|t ? ->|? Hn|Hs Hu Hn|? ? Hu|? Hu|? ? Hn]; try done; try congruence;
    unfold refiled, same_but_locks in Hs; assert (name_owned m' = name_owned m) as -> by tauto; done.
Qed.

(** A fault does not claim that a name is absent. *)
Record ok_event {SD : ShowDebug} {NB : Neighbours} (l : LifecycleLayout) (e : Event) : Prop := {
  ok_before m : rely l m (before e m);
  ok_fault : fault e ≠ Some ENOENT ∧ fault e ≠ Some ENOTDIR }.

Definition same_files (m m' : Machine) : Prop :=
  inodes m' = inodes m ∧ names m' = names m ∧ next_inode m' = next_inode m ∧ locks m' = locks m ∧ acts m' = acts m ∧
  instant m ≤ instant m'.

(** What [systemctl] is documented to do: it leaves these files and locks alone, [show] tells the
    unit's state and changes nothing, and a stop does not unmask. *)
Class ManagerLaws {SD : ShowDebug} {SM : ServiceManager} := {
  manager_files args c m : same_files m (snd (systemctl args c m));
  show_changes_nothing c m : unit_state (snd (systemctl SHOW_ARGS c m)) = unit_state m ∧
    name_owned (snd (systemctl SHOW_ARGS c m)) = name_owned m;
  show_tells c m p : parse_show_output (stdout (fst (systemctl SHOW_ARGS c m))) = Ok p → p = unit_state m;
  stop_keeps_mask c m : is_masked m → is_masked (snd (systemctl ["stop"; UNIT_NAME] c m)) }.

(** ** A program logic *)
Section logic.
Context {SD : ShowDebug} {NB : Neighbours} {l : LifecycleLayout}.

Definition stable (P : Machine → Prop) : Prop := ∀ m m', P m → rely l m m' → P m'.

Definition triple {E A} (P : Machine → Prop) (c : Run E A) (Q : result A E → Machine → Prop) : Prop :=
  ∀ m s, P m → Forall (ok_event l) s →
  match c m s with (Done r, m', s') => Q r m' ∧ Forall (ok_event l) s' | _ => True end.

Lemma triple_run_conseq {E A} P (c : Run E A) Q (Q' : result A E → Machine → Prop) :
  triple P c Q → (∀ r m, Q r m → Q' r m) → triple P c Q'.
Proof. intros H HQ m s Hm Hs. specialize (H m s Hm Hs). destruct (c m s) as [[[r| |] m'] s']; naive_solver. Qed.

Lemma triple_run_pre {E A} (P P' : Machine → Prop) (c : Run E A) Q : triple P' c Q → (∀ m, P m → P' m) → triple P c Q.
Proof. intros H HP m s Hm Hs. by apply H; [apply HP|]. Qed.

Lemma triple_pure {E A} (φ : Prop) P (c : Run E A) Q : (φ → triple P c Q) → triple (λ m, φ ∧ P m) c Q.
Proof. intros H m s [Hp Hm]. by apply H. Qed.

Lemma triple_exists {E A B} (P : B → Machine → Prop) (c : Run E A) Q : (∀ x, triple (P x) c Q) → triple (λ m, ∃ x, P x m) c Q.
Proof. intros H m s [x Hm]. by apply (H x). Qed.

Lemma triple_run_ret {E A} (P : Machine → Prop) (a : A) (Q : result A E → Machine → Prop) : (∀ m, P m → Q (Ok a) m) → triple P (mret a) Q.
Proof. intros H m s Hm Hs. split; [by apply H|done]. Qed.

Lemma triple_throw {E A} (P : Machine → Prop) (e : E) (Q : result A E → Machine → Prop) : (∀ m, P m → Q (Err e) m) → triple P (throw e) Q.
Proof. intros H m s Hm Hs. split; [by apply H|done]. Qed.

Lemma triple_give {E A} (P : Machine → Prop) (r : result A E) (Q : result A E → Machine → Prop) : (∀ m, P m → Q r m) → triple P (give r) Q.
Proof. intros H m s Hm Hs. split; [by apply H|done]. Qed.

Lemma triple_run_bind {E A B} P (c : Run E A) (k : A → Run E B) M Q :
  triple P c M → (∀ a, triple (M (Ok a)) (k a) Q) → (∀ e m, M (Err e) m → Q (Err e) m) → triple P (c ≫= k) Q.
Proof.
  intros Hc Hk He m s Hm Hs. specialize (Hc m s Hm Hs). unfold mbind, Run_bind.
  destruct (c m s) as [[[[a|e]| |] m'] s']; [|split; [apply He|]; by destruct Hc|done..]. destruct Hc. by apply Hk.
Qed.

Lemma triple_attempt {E F A} P (c : Run E A) (Q : result (result A E) F → Machine → Prop) :
  triple P c (λ r, Q (Ok r)) → triple P (attempt c) Q.
Proof. intros Hc m s Hm Hs. specialize (Hc m s Hm Hs). unfold attempt. by destruct (c m s) as [[[r| |] m'] s']. Qed.

Lemma triple_on_err {E F A} P (f : E → F) (c : Run E A) (Q : result A F → Machine → Prop) :
  triple P c (λ r, Q (map_err f r)) → triple P (on_err f c) Q.
Proof.
  intros Hc. unfold on_err.
  apply triple_run_bind with (M := λ r m, match r with Ok r => Q (map_err f r) m | Err _ => False end); [by apply triple_attempt| |done].
  intros r. by apply triple_give.
Qed.

Lemma triple_run_step {E A} P (act : Event → Machine → result A E * Machine) Q :
  stable P → (∀ e m, ok_event l e → P m → let '(r, m') := act e m in Q r m') → triple P (step act) Q.
Proof.
  intros HP HQ m s Hm Hs. unfold step.
  assert (∃ e s', ok_event l e ∧ Forall (ok_event l) s' ∧ next_event s = (e, s')) as (e & s' & He & Hs' & ->).
  { destruct Hs as [|e s He Hs]; [exists calm, []|by exists e, s]. split; [|done]. split; [intros; apply rely_refl|done]. }
  destruct (killed e); [done|]. specialize (HQ e (before e m) He).
  destruct (act e (before e m)) as [r m']. split; [|done]. apply HQ. eapply HP; [done|]. apply He.
Qed.

Lemma triple_syscall {A} P (f : Machine → result A Errno * Machine) Q :
  stable P → (∀ m e, P m → e ≠ ENOENT → e ≠ ENOTDIR → Q (Err e) m) → (∀ m, P m → let '(r, m') := f m in Q r m') →
  triple P (syscall f) Q.
Proof.
  intros HP He HQ. apply triple_run_step; [done|]. intros e m [_ [H1 H2]] Hm.
  destruct (fault e) as [err|]; [apply He; congruence|by apply HQ].
Qed.

(** *** What leaves an assertion as it is *)
Definition keeps {E A} (P : Machine → Prop) (c : Run E A) : Prop := triple P c (λ _, P).

Lemma keeps_run_ret {E A} P (a : A) : keeps P (mret a : Run E A). Proof. by apply triple_run_ret. Qed.
Lemma keeps_throw {E A} P (e : E) : keeps P (throw e : Run E A). Proof. by apply triple_throw. Qed.
Lemma keeps_give {E A} P (r : result A E) : keeps P (give r). Proof. by apply triple_give. Qed.
Lemma keeps_run_bind {E A B} P (c : Run E A) (k : A → Run E B) : keeps P c → (∀ a, keeps P (k a)) → keeps P (c ≫= k).
Proof. intros Hc Hk. by eapply triple_run_bind; [apply Hc|apply Hk|]. Qed.
Lemma keeps_attempt {E F A} P (c : Run E A) : keeps P c → keeps P (attempt c : Run F _).
Proof. intros H. by apply triple_attempt with (Q := λ _, P). Qed.
Lemma keeps_on_err {E F A} P (f : E → F) (c : Run E A) : keeps P c → keeps P (on_err f c).
Proof. intros H. by apply triple_on_err with (Q := λ _, P). Qed.
Lemma keeps_run_look {A} P (f : Machine → result A Errno) : stable P → keeps P (look f). Proof. intros HP. by apply triple_syscall. Qed.
Lemma keeps_unended {E A} P : keeps P (unended : Run E A). Proof. by intros m s. Qed.
Lemma keeps_note {E} P a : (∀ m, P m → P (record a m)) → keeps P (note a : Run E unit).
Proof. intros H m s Hm Hs. split; [by apply H|done]. Qed.
Lemma keeps_io_at {A} P p (c : Run Errno A) : keeps P c → keeps P (io_at p c).
Proof. apply keeps_on_err. Qed.
End logic.

Lemma triple_io {SD : ShowDebug} {NB : Neighbours} {l E A} P (f : Errno → E) (c : Run Errno A) (Q : A → Machine → Prop) (R : Machine → Prop) :
  triple (l := l) P c (λ r m, match r with Ok a => Q a m | Err _ => R m end) →
  triple (l := l) P (on_err f c) (λ r m, match r with Ok a => Q a m | Err _ => R m end).
Proof. intros H. apply triple_on_err. eapply triple_run_conseq; [apply H|]. by intros []. Qed.

Ltac keep := repeat first
  [ apply keeps_run_ret | apply keeps_throw | apply keeps_give | apply keeps_unended
  | apply keeps_run_bind; [|intros ?] | apply keeps_attempt | apply keeps_io_at | apply keeps_on_err
  | assumption ].

(** ** The calls of a lease *)
Section calls.
Context {SD : ShowDebug} {NB : Neighbours} {SDu : ShowDuration} {SM : ServiceManager} {ML : ManagerLaws}.
Context {l : LifecycleLayout}.

(** Assertions on files, locks and history that the acquisition does not touch. *)
Record sturdy (P : Machine → Prop) : Prop := {
  sturdy_stable : stable (l := l) P;
  sturdy_chmod fd bits m : P m → P (with_files (alter (set_mode bits) fd (inodes m)) (names m) (next_inode m) m);
  sturdy_add p t k bits m : p ∉ activation_definition_paths l → P m → P (add_name p t k bits m);
  sturdy_instant d m : P m → P (at_instant (instant m + d) m);
  sturdy_manager m m' : P m → same_files m m' → P m' }.

(** Assertions that may speak of the unit as well. *)
Record quiet (P : Machine → Prop) : Prop := {
  quiet_stable : stable (l := l) P;
  quiet_instant d m : P m → P (at_instant (instant m + d) m);
  quiet_show m m' : P m → same_files m m' → unit_state m' = unit_state m → name_owned m' = name_owned m → P m' }.

Lemma sturdy_quiet P : sturdy P → quiet P.
Proof. intros HP. split; [apply HP..|]. intros m m' ? ? _ _. by eapply sturdy_manager. Qed.

Lemma unlisted_path p : p ∈ ["run/facelock"; "run/facelock/lifecycle.lock"; "run/systemd/system.control";
    "run/systemd/system.control/facelock-daemon.service"]%string → layout_at l p ∉ activation_definition_paths l.
Proof.
  intros Hp Hin. unfold activation_definition_paths in Hin. apply list_elem_of_fmap in Hin as (q & E & Hq).
  unfold layout_at, join in E.
  assert (p = q) as <-.
  { repeat (apply elem_of_cons in Hp as [->|Hp]; [|]); try (by apply elem_of_nil in Hp);
    repeat (apply elem_of_cons in Hq as [->|Hq]; [|]); try (by apply elem_of_nil in Hq); cbn in E;
    destruct (is_empty_str (prefix l)), (ends_with "/" (prefix l)); try discriminate E;
    by repeat apply (inj (String.app _)) in E. }
  repeat (apply elem_of_cons in Hp as [->|Hp]; [|]); try (by apply elem_of_nil in Hp);
    repeat (apply elem_of_cons in Hq as [?|Hq]; [done|]); by apply elem_of_nil in Hq.
Qed.

Lemma keeps_run_systemctl P args : sturdy P → keeps (l := l) P (run_systemctl args).
Proof.
  intros HP. apply triple_run_step; [apply HP|]. intros e m _ Hm. destruct (fault e); [done|].
  pose proof (manager_files args (choice e) m) as Hf. destruct (systemctl args (choice e) m) as [o m'].
  by eapply sturdy_manager.
Qed.

Lemma run_show_spec P : quiet P → triple (l := l) P (run_systemctl SHOW_ARGS)
  (λ r m, P m ∧ match r with Ok o => ∀ p, parse_show_output (stdout o) = Ok p → p = unit_state m | Err _ => True end).
Proof.
  intros HP. apply triple_run_step; [apply HP|]. intros e m _ Hm. destruct (fault e); [done|].
  pose proof (manager_files SHOW_ARGS (choice e) m) as Hf. pose proof (show_changes_nothing (choice e) m) as [Hu Ho].
  pose proof (show_tells (choice e) m) as Ht. destruct (systemctl SHOW_ARGS (choice e) m) as [o m']. cbn in *.
  split; [by eapply quiet_show|]. intros p Hp. rewrite Hu. by apply Ht.
Qed.

Lemma show_spec P : quiet P → triple (l := l) P show
  (λ r m, P m ∧ match r with Ok p => p = unit_state m | Err _ => True end).
Proof.
  intros HP. eapply triple_run_bind; [by apply run_show_spec| |by intros e m [? _]].
  intros o. apply triple_give. intros m [Hm Ho]. split; [done|].
  destruct (parse_show_output (stdout o)) as [p|]; [by apply Ho|done].
Qed.

Lemma keeps_show P : quiet P → keeps (l := l) P show.
Proof. intros HP. eapply triple_run_conseq; [by apply show_spec|]. by intros r m [? _]. Qed.

Lemma keeps_clock P : quiet P → keeps (l := l) P (clock_now : Run LifecycleError Z).
Proof. intros HP. apply triple_run_step; [apply HP|]. done. Qed.

Lemma keeps_sleep P d : quiet P → keeps (l := l) P (sleep d : Run LifecycleError unit).
Proof. intros HP. apply triple_run_step; [apply HP|]. intros e m _ Hm. by apply quiet_instant. Qed.

Lemma poll_inactive_spec P fuel deadline t : quiet P →
  triple (l := l) P (poll_inactive fuel deadline t) (λ r m, P m ∧ (r = Ok tt → is_inactive m)).
Proof.
  intros HP. induction fuel as [|fuel IH]; cbn; [by intros m s|].
  eapply triple_run_bind; [by apply show_spec| |by intros e m [? _]].
  intros props. destruct (String.eqb (active_state props) "inactive") eqn:E.
  - apply triple_run_ret. intros m [Hm ->]. split; [done|]. intros _. by apply String.eqb_eq.
  - apply triple_run_pre with (P' := P); [|by intros m [? _]].
    eapply triple_run_bind; [by apply keeps_clock| |done]. intros now. cbn. destruct (deadline <=? now); [by apply triple_throw|].
    eapply triple_run_bind; [by apply keeps_sleep|intros []; apply IH|done].
Qed.

Lemma poll_released_spec P fuel deadline t : quiet P →
  triple (l := l) P (poll_released fuel deadline t) (λ r m, P m ∧ (r = Ok tt → name_owned m = false)).
Proof.
  intros HP. induction fuel as [|fuel IH]; cbn; [by intros m s|].
  apply triple_run_bind with (M := λ r m, P m ∧ match r with Ok b => name_owned m = b | Err _ => True end).
  - apply triple_run_step; [apply HP|]. intros e m _ Hm. by destruct (fault e).
  - intros []; cbn; [|by apply triple_run_ret; intros m [? ?]].
    apply triple_run_pre with (P' := P); [|by intros m [? _]].
    eapply triple_run_bind; [by apply keeps_clock| |done]. intros now. cbn. destruct (deadline <=? now); [by apply triple_throw|].
    eapply triple_run_bind; [by apply keeps_sleep|intros []; apply IH|done].
  - by intros e m [? _].
Qed.

(** *** Files *)
Lemma keeps_open P p how : stable (l := l) P → keeps (l := l) P (open_nofollow p how).
Proof. intros HP. unfold open_nofollow. destruct (str_has_char nul p); [apply keeps_throw|by apply keeps_run_look]. Qed.

Lemma keeps_run_fchmod P fd bits : sturdy P → keeps (l := l) P (fchmod fd bits).
Proof. intros HP. apply triple_syscall; [apply HP|done|]. intros m. apply HP. Qed.

Lemma keeps_mkdir P p bits : p ∉ activation_definition_paths l → sturdy P → keeps (l := l) P (mkdir p bits).
Proof.
  intros Hp HP. apply triple_syscall; [apply HP|done|]. intros m Hm. destruct (names m !! p); [done|]. by apply HP.
Qed.

Lemma create_nofollow_spec P p bits : p ∉ activation_definition_paths l → sturdy P →
  triple (l := l) P (create_nofollow p bits) (λ r m, P m ∧ (is_ok r = true → is_Some (names m !! p))).
Proof.
  intros Hp HP. unfold create_nofollow. destruct (str_has_char nul p); [by apply triple_throw|].
  apply triple_syscall; [apply HP|done|]. intros m Hm. destruct (names m !! p); [done|]. split; [by apply HP|].
  intros _. cbn. by rewrite lookup_insert_eq.
Qed.

Lemma keeps_create P p bits : p ∉ activation_definition_paths l → sturdy P → keeps (l := l) P (create_nofollow p bits).
Proof. intros Hp HP. eapply triple_run_conseq; [by apply create_nofollow_spec|]. by intros r m [? _]. Qed.

Lemma keeps_ensure_dir P p : p ∉ activation_definition_paths l → sturdy P → keeps (l := l) P (ensure_dir p).
Proof.
  intros Hp HP. unfold ensure_dir. keep; [by apply keeps_mkdir|]. destruct a as [|[]]; keep.
Qed.

Lemma keeps_fstat P fd : stable (l := l) P → keeps (l := l) P (fstat fd).
Proof. apply keeps_run_look. Qed.

Lemma keeps_trusted_dir P p created owner : sturdy P → keeps (l := l) P (open_trusted_dir p created owner).
Proof.
  intros HP. unfold open_trusted_dir. keep; try (apply keeps_open || apply keeps_fstat; apply HP).
  - destruct (_ && _); keep. by apply keeps_run_fchmod.
  - destruct (negb _); keep. destruct (negb _); keep.
Qed.

Lemma keeps_open_or_create_lock P : sturdy P → keeps (l := l) P (open_or_create_lock (lock_path l)).
Proof.
  intros HP. unfold open_or_create_lock. keep; [apply keeps_open, HP|]. destruct a as [|[]]; keep.
  apply keeps_create; [apply unlisted_path; set_solver|done].
Qed.

(** What the process locks: nothing, or only one file. *)
Definition holds (lock : option Z) (m : Machine) : Prop := ∀ i, locks m !! i = Some true ↔ lock = Some i.

Lemma stable_holds lock : stable (l := l) (holds lock).
Proof. intros m m' H Hr i. rewrite (rely_locks _ _ _ i Hr). apply H. Qed.

Lemma sturdy_holds lock : sturdy (holds lock).
Proof. split; try done; [apply stable_holds|]. intros m m' H (_ & _ & _ & E & _) i. rewrite E. apply H. Qed.

Lemma stable_and P P' : stable (l := l) P → stable (l := l) P' → stable (l := l) (λ m, P m ∧ P' m).
Proof. intros H1 H2 m m' [] Hr. split; [by eapply H1|by eapply H2]. Qed.

Lemma sturdy_and P P' : sturdy P → sturdy P' → sturdy (λ m, P m ∧ P' m).
Proof.
  intros [] []. split; [by apply stable_and|..]; intros; destruct_and?; split; naive_solver.
Qed.

Lemma close_lock_spec {E} P (Q : Machine → Prop) fd :
  (∀ m, P m → Q (record Unlocked m)) → (∀ m lk, Q m → Q (with_locks lk m)) →
  triple (l := l) (λ m, P m ∧ holds (Some fd) m) (close_lock fd : Run E unit)
    (λ r m, match r with Ok _ => Q m ∧ holds None m | Err _ => False end).
Proof.
  intros HP HQ m s [Hm Hh] Hs. split; [|done].
  assert (locks m !! fd = Some true) as -> by by apply Hh. split.
  - by apply (HQ (record Unlocked m)), HP.
  - intros i. cbn. destruct (decide (i = fd)) as [->|Hne]; [by rewrite lookup_delete_eq|].
    rewrite lookup_delete_ne by done. rewrite (Hh i). split; [intros [= ->]; done|done].
Qed.

Lemma flock_spec P fd : sturdy P → (∀ m lk, P m → P (with_locks lk m)) →
  triple (l := l) (λ m, P m ∧ holds None m) (flock fd)
    (λ r m, P m ∧ match r with Ok _ => holds (Some fd) m | Err _ => holds None m end).
Proof.
  intros HP Hl. apply triple_syscall; [apply stable_and; [apply HP|apply stable_holds]|done|].
  intros m [Hm Hh]. destruct (locks m !! fd) as [b|] eqn:E; [done|]. split; [by apply Hl|].
  intros i. cbn. destruct (decide (i = fd)) as [->|Hne]; [by rewrite lookup_insert_eq|].
  rewrite lookup_insert_ne by done. rewrite (Hh i). split; [done|intros [= ->]; done].
Qed.

Lemma acquire_lock_spec P (Q : Machine → Prop) : sturdy P → (∀ m lk, P m → P (with_locks lk m)) →
  (∀ m, P m → Q (record Unlocked m)) → (∀ m lk, Q m → Q (with_locks lk m)) →
  triple (l := l) (λ m, P m ∧ holds None m) (acquire_lifecycle_lock l)
    (λ r m, match r with Ok lock => P m ∧ holds (Some lock) m | Err _ => (P m ∨ Q m) ∧ holds None m end).
Proof.
  intros HP Hl HPQ HQ. pose proof (sturdy_and _ _ HP (sturdy_holds None)) as HB.
  assert (∀ A (c : Run LifecycleError A), keeps (l := l) (λ m, P m ∧ holds None m) c →
    triple (l := l) (λ m, P m ∧ holds None m) c
      (λ r m, match r with Ok _ => P m ∧ holds None m | Err _ => (P m ∨ Q m) ∧ holds None m end)) as Hk.
  { intros A c Hc. eapply triple_run_conseq; [apply Hc|]. intros [] m []; auto. }
  unfold acquire_lifecycle_lock.
  eapply triple_run_bind; [apply Hk, keeps_ensure_dir, HB; apply unlisted_path; set_solver| |done]. intros created.
  eapply triple_run_bind; [apply Hk, keeps_trusted_dir, HB| |done]. intros ?. cbn zeta.
  eapply triple_run_bind; [apply Hk, keeps_open_or_create_lock, HB| |done]. intros [lock fresh]. cbn [fst snd].
  eapply triple_run_bind; [apply Hk, keeps_io_at, keeps_fstat, HB| |done]. intros md.
  eapply triple_run_bind; [apply Hk; destruct (_ && _); [apply keeps_io_at, keeps_run_fchmod, HB|apply keeps_run_ret]| |done]. intros [].
  eapply triple_run_bind; [apply Hk, keeps_io_at, keeps_fstat, HB| |done]. intros md'.
  destruct (negb _); [apply triple_throw; cbn; tauto|].
  eapply triple_run_bind; [apply triple_attempt with (Q := λ r m, match r with
      | Ok (Ok _) => P m ∧ holds (Some lock) m | Ok (Err _) => P m ∧ holds None m | Err _ => False end)| |done].
  { eapply triple_run_conseq; [by apply flock_spec|]. by intros []. }
  intros [[]|[]]; try (apply triple_throw; cbn; tauto).
  pose proof (sturdy_and _ _ HP (sturdy_holds (Some lock))) as HL.
  eapply triple_run_bind; [apply triple_attempt with (Q := λ r m, match r with Ok _ => P m ∧ holds (Some lock) m | Err _ => False end), keeps_run_look, HL| |done].
  assert (∀ e, triple (l := l) (λ m, P m ∧ holds (Some lock) m) (close_lock lock;; throw e : Run LifecycleError Z)
    (λ r m, match r with Ok lock => P m ∧ holds (Some lock) m | Err _ => (P m ∨ Q m) ∧ holds None m end)) as Hclose.
  { intros e. eapply triple_run_bind; [by apply (close_lock_spec P Q)|intros []; apply triple_throw|]; cbn; tauto. }
  intros [there|e]; [|apply Hclose]. case_bool_decide; [by apply triple_run_ret|apply Hclose].
Qed.

(** *** Activation definitions *)
Abbreviation delegated := (delegated (l := l)).
Abbreviation definitions_delegate := (definitions_delegate (l := l)).

Lemma sturdy_numbered : sturdy numbered.
Proof.
  split.
  - intros m m' Hm Hr. by eapply rely_numbered.
  - done.
  - intros p t k bits m _ Hm q i. cbn. destruct (decide (q = p)) as [->|Hne].
    + rewrite lookup_insert_eq. intros [= <-]. lia.
    + rewrite lookup_insert_ne by done. intros Hi. apply Hm in Hi. lia.
  - done.
  - intros m m' Hm (_ & En & Ex & _) p i. rewrite En, Ex. apply Hm.
Qed.

Lemma stable_delegated p : p ∈ activation_definition_paths l → stable (l := l) (delegated p).
Proof. intros Hp m m' Hm Hr. unfold delegated. by rewrite (proj2 (rely_definitions _ _ _ _ Hr Hp)). Qed.

Lemma node_at_add q t k bits p m : numbered m → p ≠ q → node_at (add_name q t k bits m) p = node_at m p.
Proof.
  intros Hm Hne. unfold node_at. cbn. rewrite lookup_insert_ne by done.
  destruct (names m !! p) as [i|] eqn:E; [|done]. cbn. apply Hm in E. rewrite lookup_insert_ne by lia. done.
Qed.

Lemma sturdy_delegated p : p ∈ activation_definition_paths l → sturdy (λ m, numbered m ∧ delegated p m).
Proof.
  intros Hp. split.
  - apply stable_and; [apply sturdy_numbered|by apply stable_delegated].
  - intros fd bits m [Hm Hd]. split; [done|]. unfold delegated, node_at in *. cbn.
    destruct (names m !! p) as [i|]; [|done]. cbn in *. destruct (decide (i = fd)) as [->|Hne].
    + rewrite lookup_alter_eq. by destruct (inodes m !! fd).
    + by rewrite lookup_alter_ne.
  - intros q t k bits m Hq [Hm Hd]. split; [by apply sturdy_numbered|]. unfold delegated.
    assert (p ≠ q) by congruence. by rewrite node_at_add.
  - done.
  - intros m m' [Hm Hd] Hs. split; [by eapply sturdy_manager; [apply sturdy_numbered| |]|].
    destruct Hs as (Ei & En & _). unfold delegated, node_at in *. by rewrite Ei, En.
Qed.

Lemma sturdy_definitions : sturdy (λ m, numbered m ∧ definitions_delegate m).
Proof.
  pose proof sturdy_numbered as HN.
  split.
  - intros m m' [Hm Hd] Hr. split; [by eapply (sturdy_stable _ HN)|]. intros p Hp. by eapply stable_delegated; eauto.
  - intros fd bits m [Hm Hd]. split; [done|]. intros p Hp. apply (sturdy_chmod _ (sturdy_delegated p Hp)). auto.
  - intros q t k bits m Hq [Hm Hd]. split; [by apply HN|]. intros p Hp. apply (sturdy_add _ (sturdy_delegated p Hp)); auto.
  - done.
  - intros m m' [Hm Hd] Hs. split; [by eapply (sturdy_manager _ HN)|]. intros p Hp. eapply (sturdy_manager _ (sturdy_delegated p Hp)); eauto.
Qed.

Lemma first_bytes_all n s : (String.length s ≤ n)%nat → first_bytes n s = s.
Proof.
  revert n. induction s as [|a s IH]; intros n; destruct n as [|n]; cbn; intros Hn; try done; [lia|]. rewrite IH; [done|lia].
Qed.

(** A name that is left alone keeps the file that was opened. *)
Definition here (P : Machine → Prop) (p : string) (fd : Z) (K : Inode → Prop) (m : Machine) : Prop :=
  P m ∧ ∃ n, names m !! p = Some fd ∧ inodes m !! fd = Some n ∧ K n.

Lemma stable_here P p fd K : p ∈ activation_definition_paths l → stable (l := l) P → stable (l := l) (here P p fd K).
Proof.
  intros Hp HP m m' [Hm (n & En & Ei & Hk)] Hr. split; [by eapply HP|].
  destruct (rely_definitions _ _ _ p Hr Hp) as [E1 E2]. exists n. rewrite E1. split; [done|]. split; [|done].
  unfold node_at in E2. rewrite E1, En in E2. cbn in E2. by rewrite E2.
Qed.

Lemma open_here P p : p ∈ activation_definition_paths l → stable (l := l) P →
  triple (l := l) P (open_nofollow p RDONLY)
    (λ r m, match r with
            | Ok fd => here P p fd (λ _, True) m
            | Err e => P m ∧ (e = ENOENT ∨ e = ENOTDIR → delegated p m)
            end).
Proof.
  intros Hp HP. unfold open_nofollow. destruct (str_has_char nul p); [apply triple_throw; naive_solver|].
  apply triple_syscall; [done|naive_solver|]. intros m Hm. unfold here, delegated, node_at.
  destruct (names m !! p) as [i|] eqn:En; cbn; [|naive_solver]. destruct (inodes m !! i) as [n|] eqn:Ei; [|naive_solver].
  unfold opened. destruct (i_type n); naive_solver.
Qed.

Lemma fstat_here P p fd : p ∈ activation_definition_paths l → stable (l := l) P →
  triple (l := l) (here P p fd (λ _, True)) (fstat fd)
    (λ r m, match r with Ok md => here P p fd (λ n, md = stat_of fd n) m | Err _ => P m end).
Proof.
  intros Hp HP. apply triple_syscall; [by apply stable_here|by intros m e []|].
  intros m [Hm (n & En & Ei & _)]. rewrite Ei. split; [done|]. by exists n.
Qed.

Lemma read_here P p fd md : p ∈ activation_definition_paths l → stable (l := l) P →
  triple (l := l) (here P p fd (λ n, md = stat_of fd n)) (read_to_string fd ACTIVATION_MAX_BYTES)
    (λ r m, match r with
            | Ok text => here P p fd (λ n, md = stat_of fd n ∧ text = first_bytes (Z.to_nat ACTIVATION_MAX_BYTES) (i_content n)) m
            | Err _ => P m
            end).
Proof.
  intros Hp HP. apply triple_syscall; [by apply stable_here|by intros m e []|].
  intros m [Hm (n & En & Ei & Hmd)]. rewrite Ei. split; [done|]. by exists n.
Qed.

Lemma verify_definition_spec P p : p ∈ activation_definition_paths l → stable (l := l) P →
  triple (l := l) P (verify_definition l p) (λ r m, P m ∧ (r = Ok tt → delegated p m)).
Proof.
  intros Hp HP. unfold verify_definition.
  apply triple_run_bind with (M := λ r m, match r with
    | Ok (Ok fd) => here P p fd (λ _, True) m
    | Ok (Err e) => P m ∧ (e = ENOENT ∨ e = ENOTDIR → delegated p m)
    | Err _ => False
    end); [apply triple_attempt; eapply triple_run_conseq; [by apply open_here|by intros []]| |done].
  intros [fd|e]; [|destruct e; try (apply triple_run_ret; naive_solver); apply triple_throw; naive_solver].
  eapply triple_run_bind; [by apply triple_io, fstat_here| |by intros e m Hm; split].
  intros md. cbn. pose proof (stable_here P p fd (λ n, md = stat_of fd n) Hp HP) as Hs.
  assert (∀ e, triple (l := l) (here P p fd (λ n, md = stat_of fd n)) (throw e : Run LifecycleError unit)
    (λ r m, P m ∧ (r = Ok tt → delegated p m))) as Hthrow by (intros e; apply triple_throw; intros m []; by split).
  destruct (bool_decide (file_type md = IsRegular)) eqn:E1; cbn; [|apply Hthrow].
  destruct (bool_decide (owner md = expected_owner l)) eqn:E2; cbn; [|apply Hthrow].
  destruct (Z.land (mode md) 18 =? 0); cbn; [|apply Hthrow].
  destruct (Z.ltb_spec ACTIVATION_MAX_BYTES (len md)); [apply Hthrow|].
  eapply triple_run_bind; [by apply triple_io, read_here| |by intros e m Hm; split].
  intros text. apply triple_give. intros m [Hm (n & En & Ei & -> & ->)]. split; [done|]. intros Hok.
  apply bool_decide_eq_true in E1, E2. unfold delegated, node_at. rewrite En. cbn. rewrite Ei.
  rewrite first_bytes_all in Hok by (cbn in *; lia). split_and!; [done..|]. by destruct (activation_delegates (i_content n)) as [[]|].
Qed.

Lemma verify_all_spec P paths : Forall (λ p, p ∈ activation_definition_paths l) paths → stable (l := l) P →
  triple (l := l) P (verify_all l paths) (λ r m, P m ∧ (r = Ok tt → ∀ p, p ∈ paths → delegated p m)).
Proof.
  intros Hp. revert P. induction Hp as [|p paths Hp _ IH]; intros P HP; cbn.
  { apply triple_run_ret. intros m Hm. split; [done|]. intros _ p Hin. by apply elem_of_nil in Hin. }
  apply triple_run_bind with (M := λ r m, P m ∧ (r = Ok tt → delegated p m)); [by apply verify_definition_spec| |by intros e m []].
  intros []. eapply triple_run_conseq; [eapply triple_run_pre; [apply (IH (λ m, P m ∧ delegated p m)), stable_and; [done|by apply stable_delegated]|]|].
  - intros m [Hm Hd]. auto.
  - intros r m [[Hm Hd] Hall]. split; [done|]. intros E q Hq. apply elem_of_cons in Hq as [->|Hq]; auto.
Qed.

Lemma verify_spec P : stable (l := l) P →
  triple (l := l) P (verify_activation_delegation l) (λ r m, P m ∧ (r = Ok tt → definitions_delegate m)).
Proof. intros HP. apply verify_all_spec; [|done]. by apply Forall_forall. Qed.

(** *** Staging *)
Definition history (h : list Act) (m : Machine) : Prop := acts m = h.

Lemma sturdy_history h : sturdy (history h).
Proof.
  split; try done; [intros m m' Hm Hr|intros m m' Hm (_ & _ & _ & _ & E & _)]; unfold history in *.
  - by rewrite (rely_acts _ _ _ Hr).
  - by rewrite E.
Qed.

Lemma sturdy_barred : sturdy (barred l).
Proof.
  split; try done.
  - intros m m' Hm Hr. by eapply rely_barred.
  - intros p t k bits m _ Hm. unfold barred in *. destruct courtesy; [cbn|done]. destruct (decide (p = barrier_path l)) as [->|Hne]; [by rewrite lookup_insert_eq|].
    by rewrite lookup_insert_ne.
  - intros m m' Hm (_ & En & _). unfold barred. by rewrite En.
Qed.

Lemma sturdy_imp (φ : Prop) P : sturdy P → sturdy (λ m, φ → P m).
Proof.
  intros [Hs Hc Ha Hi Hm]. split; [intros m m' HP Hr Hφ|intros fd bits m HP Hφ|intros p t k bits m Hp HP Hφ|intros d m HP Hφ|intros m m' HP Hf Hφ].
  - by eapply Hs; [apply HP|].
  - by apply Hc, HP.
  - by apply Ha; [|apply HP].
  - by apply Hi, HP.
  - by eapply Hm; [apply HP|].
Qed.

(** What the process knows while it stages: its history, its lock, that D-Bus delegates, and that the barrier it made is there. *)
Definition staging (lock : Z) (h : list Act) (m : Machine) : Prop :=
  history h m ∧ holds (Some lock) m ∧ (numbered m ∧ definitions_delegate m) ∧ ((∃ b, Barred b ∈ h) → barred l m).

Lemma sturdy_staging lock h : sturdy (staging lock h).
Proof.
  apply sturdy_and; [apply sturdy_history|]. apply sturdy_and; [apply sturdy_holds|].
  apply sturdy_and; [apply sturdy_definitions|apply sturdy_imp, sturdy_barred].
Qed.

Lemma note_staging {E} lock h a :
  triple (l := l) (λ m, staging lock h m ∧ ((∃ b, a = Barred b) → barred l m)) (note a : Run E unit)
    (λ r m, match r with Ok _ => staging lock (h ++ [a]) m | Err _ => False end).
Proof.
  intros m s [(Hh & ? & ? & Hb) Ha] Hs. split; [|done]. split; [unfold history in *; cbn; by rewrite Hh|]. do 2 (split; [done|]).
  intros (b & [Hin|Hin%list_elem_of_singleton]%elem_of_app); [apply Hb|apply Ha]; eauto.
Qed.

(** A barrier whose making failed after its file was there. *)
Definition left_behind (e : LifecycleError) : Prop :=
  (∃ source, e = Io (barrier_path l) source) ∨ e = Untrusted (barrier_path l) "created barrier lost its identity".

Lemma create_barrier_spec lock h :
  triple (l := l) (staging lock h) (create_barrier l) (λ r m, match r with
    | Ok b => staging lock (h ++ [Barred (file b)]) m
    | Err e => staging lock h m ∨ ∃ fd, staging lock (h ++ [Barred fd]) m ∧ left_behind e
    end).
Proof.
  pose proof (sturdy_staging lock h) as HS.
  assert (∀ A (c : Run LifecycleError A), keeps (l := l) (staging lock h) c →
    triple (l := l) (staging lock h) c (λ r m, match r with
      | Ok _ => staging lock h m | Err e => staging lock h m ∨ ∃ fd, staging lock (h ++ [Barred fd]) m ∧ left_behind e end)) as Hk.
  { intros A c Hc. eapply triple_run_conseq; [apply Hc|]. intros []; auto. }
  unfold create_barrier.
  eapply triple_run_bind; [apply Hk, keeps_ensure_dir, HS; apply unlisted_path; set_solver| |done]. intros created.
  eapply triple_run_bind; [apply Hk, keeps_trusted_dir, HS| |done]. intros ?. cbn zeta.
  eapply triple_run_bind with (M := λ r m, staging lock h m ∧ ∀ fd, r = Ok (Ok fd) → barred l m); [| |by intros e m [? _]; left].
  { apply triple_attempt. eapply triple_run_conseq; [apply create_nofollow_spec, HS; apply unlisted_path; set_solver|].
    intros r m [Hm Hb]. split; [done|]. intros fd [= ->]. unfold barred. destruct courtesy; [by apply Hb|done]. }
  intros [fd|e]; [|destruct e; apply triple_throw; intros m [Hm _]; by left].
  eapply triple_run_bind; [eapply triple_run_pre; [apply note_staging|intros m [Hm Hb]; split; [exact Hm|intros _; by apply (Hb fd)]]| |done]. intros [].
  pose proof (sturdy_staging lock (h ++ [Barred fd])) as HS'.
  assert (∀ A (c : Run Errno A), keeps (l := l) (staging lock (h ++ [Barred fd])) c →
    triple (l := l) (staging lock (h ++ [Barred fd])) (io_at (barrier_path l) c) (λ r m, match r with
      | Ok _ => staging lock (h ++ [Barred fd]) m
      | Err e => staging lock h m ∨ ∃ fd, staging lock (h ++ [Barred fd]) m ∧ left_behind e end)) as Hk'.
  { intros A c Hc. apply triple_on_err. eapply triple_run_conseq; [apply Hc|]. intros [x|e] m Hm; cbn; [done|]. right. exists fd. split; [done|]. left. by exists e. }
  eapply triple_run_bind; [apply Hk', keeps_fstat, HS'| |done]. intros md.
  eapply triple_run_bind; [destruct (negb _); [apply Hk', keeps_run_fchmod, HS'|by apply triple_run_ret]| |done]. intros [].
  eapply triple_run_bind; [apply Hk', keeps_fstat, HS'| |done]. intros md'.
  destruct (negb _); [|by apply triple_run_ret]. apply triple_throw. intros m Hm. right. exists fd. split; [done|]. by right.
Qed.

Lemma keeps_probe P : stable (l := l) P → keeps (l := l) P (probe_control_path l).
Proof.
  intros HP. unfold probe_control_path. keep; [by apply keeps_open|]. destruct a as [|[]]; keep; [by apply keeps_fstat|].
  destruct (is_exact _ _); keep.
Qed.

Lemma open_bars P how : stable (l := l) P →
  triple (l := l) P (open_nofollow (barrier_path l) how) (λ r m, P m ∧ (is_ok r = true → barred l m)).
Proof.
  intros HP. unfold open_nofollow. destruct (str_has_char nul _); [by apply triple_throw|].
  apply triple_syscall; [done|done|]. intros m Hm. split; [done|]. unfold barred. by destruct courtesy, (names m !! barrier_path l).
Qed.

Lemma probe_spec P : stable (l := l) P →
  triple (l := l) P (probe_control_path l) (λ r m, P m ∧ (match r with Ok (Stale _) => barred l m | _ => True end)).
Proof.
  intros HP. unfold probe_control_path. cbv zeta.
  eapply triple_run_bind with (M := λ r m, P m ∧ (match r with Ok (Ok _) => barred l m | _ => True end)); [| |by intros e m [? _]].
  { apply triple_attempt. eapply triple_run_conseq; [by apply open_bars|]. intros [fd|e] m [Hm Hb]; auto. }
  intros [fd|e]; [|destruct e; first [apply triple_run_ret|apply triple_throw]; by intros m [Hm _]].
  assert (stable (l := l) (λ m, P m ∧ barred l m)) as HS by (apply stable_and; [done|apply sturdy_barred]).
  eapply triple_run_bind; [apply keeps_io_at, keeps_fstat, HS| |by intros e m [? _]]. intros md.
  destruct (is_exact _ _); [by apply triple_run_ret|apply triple_throw; by intros m [? _]].
Qed.

(** The history is covered by what a failing step hands over. *)
Definition covered (s : RestoreState) (h : list Act) : Prop :=
  (∀ b, Barred b ∈ h → file <$> barrier s = Some b) ∧ (Stopped ∈ h → restart s = true).

Definition of_lock (lock : Z) (s : RestoreState) : Prop := Lifecycle.lock s = lock ∧ layout s = l.

Definition handed_over (lock : Z) (s : RestoreState) (e : LifecycleError) (m : Machine) : Prop :=
  of_lock lock s ∧ ∃ h, history h m ∧ holds (Some lock) m ∧
  (covered s h ∨ barrier s = None ∧ restart s = false ∧ ∃ fd, h = [Barred fd] ∧ left_behind e).

(** The daemon is kept out. *)
Definition kept_out (m : Machine) : Prop :=
  definitions_delegate m ∧ (barred l m ∧ is_masked m) ∧ is_inactive m ∧ name_owned m = false.

Definition ready (lock : Z) (s : RestoreState) (prior : PriorState) (m : Machine) : Prop :=
  of_lock lock s ∧ is_some (barrier s) = true ∧ restart s = active prior ∧
  ∃ h, history h m ∧ holds (Some lock) m ∧ covered s h ∧ kept_out m.

Lemma quiet_and P P' : quiet P → quiet P' → quiet (λ m, P m ∧ P' m).
Proof. intros [] []. split; [by apply stable_and|..]; intros; destruct_and?; split; naive_solver. Qed.

(** Masked by the barrier. *)
Definition mask (m : Machine) : Prop := barred l m ∧ is_masked m.

Lemma stable_deeds P : (∀ m m', P m → foreign_deed l m m' → P m') → stable (l := l) P.
Proof. intros H m m' Hm Hr. induction Hr as [|m1 m2 m3 Hd _ IH]; [done|]. eauto. Qed.

Lemma deed_mask m m' : foreign_deed l m m' → mask m → mask m'.
Proof. intros Hd [Hb Hm]. split; [eapply rely_barred; [by apply rtc_once|done]|by eapply deed_masked]. Qed.

Lemma mask_shown m m' : same_files m m' → unit_state m' = unit_state m → mask m → mask m'.
Proof. intros (_ & En & _) Eu [Hb Hm]. split; [unfold barred; by rewrite En|unfold is_masked; by rewrite Eu]. Qed.

Lemma quiet_masked : quiet mask.
Proof. split; [apply stable_deeds; eauto using deed_mask|done|]. intros m m' Hm Hs E _. by eapply mask_shown. Qed.

Lemma quiet_inactive : quiet (λ m, mask m ∧ is_inactive m).
Proof.
  split; [|done|].
  - apply stable_deeds. intros m m' [Hm Hi] Hd. split; [by eapply deed_mask|eapply deed_inactive; [done|apply Hm|done]].
  - intros m m' [Hm Hi] Hs E _. split; [by eapply mask_shown|]. unfold is_inactive. by rewrite E.
Qed.

Definition staged_post {A} (lock : Z) (Q : A → Machine → Prop) (r : result A (RestoreState * LifecycleError)) (m : Machine) : Prop :=
  match r with Ok a => Q a m | Err (s, e) => handed_over lock s e m end.

Lemma triple_staged {A} lock s P (c : Run LifecycleError A) (Q : A → Machine → Prop) :
  triple (l := l) P c (λ r m, match r with Ok a => Q a m | Err e => handed_over lock s e m end) →
  triple (l := l) P (staged s c) (staged_post lock Q).
Proof. intros H. apply triple_on_err. eapply triple_run_conseq; [apply H|]. by intros []. Qed.

(** A step that fails while the history is covered. *)
Lemma staged_keeps {A} lock s h P (c : Run LifecycleError A) :
  of_lock lock s → covered s h → (∀ m, P m → history h m ∧ holds (Some lock) m) → keeps (l := l) P c →
  triple (l := l) P (staged s c) (staged_post lock (λ _, P)).
Proof.
  intros Hl Hc HP H. apply triple_staged. eapply triple_run_conseq; [apply H|]. intros [a|e] m Hm; [done|].
  split; [done|]. exists h. destruct (HP m Hm). auto.
Qed.

Lemma staged_weaker {A} lock s h (P P' : Machine → Prop) (c : Run LifecycleError A) (Q : A → Machine → Prop) :
  of_lock lock s → covered s h → (∀ m, P' m → history h m ∧ holds (Some lock) m) →
  triple (l := l) P c (λ r m, match r with Ok a => Q a m | Err _ => P' m end) →
  triple (l := l) P (staged s c) (staged_post lock Q).
Proof.
  intros Hl Hc HP H. apply triple_staged. eapply triple_run_conseq; [apply H|]. intros [a|e] m Hm; [done|].
  split; [done|]. exists h. destruct (HP m Hm). auto.
Qed.

Lemma stop_spec P : sturdy P → keeps (l := l) (λ m, P m ∧ mask m) stop.
Proof.
  intros HP. unfold stop, run_expect_success. apply keeps_run_bind; [|intros o; by destruct (success o); keep].
  apply triple_run_step; [apply stable_and; [apply HP|apply quiet_masked]|]. intros e m _ [Hm Hk]. destruct (fault e); [done|].
  pose proof (manager_files ["stop"%string; UNIT_NAME] (choice e) m) as Hf. pose proof (stop_keeps_mask (choice e) m (proj2 Hk)) as Hm'.
  destruct (systemctl _ (choice e) m) as [o m']. split; [by eapply sturdy_manager|]. split; [eapply (sturdy_manager _ sturdy_barred); [apply Hk|done]|done].
Qed.

(** From the mask on: the daemon is stopped, and watched until it is gone. *)
Lemma wait_spec lock s h fuel t (prior : PriorState) :
  of_lock lock s → is_some (barrier s) = true → covered s h → restart s = active prior →
  triple (l := l) (λ m, staging lock h m ∧ mask m)
    (staged s (wait_until_inactive fuel t);; staged s (wait_until_name_released fuel t);; mret (s, prior))
    (staged_post lock (λ '(s, prior), ready lock s prior)).
Proof.
  intros Hl Hb Hc Hr. pose proof (sturdy_quiet _ (sturdy_staging lock h)) as HS.
  pose proof (quiet_and _ _ HS quiet_masked) as HM. pose proof (quiet_and _ _ HS quiet_inactive) as HI.
  eapply triple_run_bind with (M := staged_post lock (λ _ m, staging lock h m ∧ mask m ∧ is_inactive m)); [| |by intros []].
  { apply (staged_weaker lock s h _ (λ m, staging lock h m ∧ mask m)); [done..|by intros m [(? & ? & _) _]|].
    eapply triple_run_bind; [apply (keeps_clock _ HM)| |done]. intros now. cbn.
    eapply triple_run_conseq; [by apply poll_inactive_spec|]. intros [[]|e] m [[Hm Hk] Hi]; [|done]. auto. }
  intros []. eapply triple_run_bind with (M := staged_post lock (λ _ m, (staging lock h m ∧ mask m ∧ is_inactive m) ∧ name_owned m = false)); [| |by intros []].
  { apply (staged_weaker lock s h _ (λ m, staging lock h m ∧ mask m ∧ is_inactive m)); [done..|by intros m [(? & ? & _) _]|].
    eapply triple_run_bind; [apply (keeps_clock _ HI)| |done]. intros now. cbn.
    eapply triple_run_conseq; [by apply poll_released_spec|]. intros [[]|e] m [Hm Ho]; [|done]. auto. }
  intros []. apply triple_run_ret. intros m [[(Hh & Hlk & [Hn Hd] & _) [Hk Hi]] Ho]. cbn. split_and!; [done..|]. exists h. repeat (split; [done|]). done.
Qed.

Lemma covered_app s h a : covered s h → (∀ b, a = Barred b → file <$> barrier s = Some b) → (a = Stopped → restart s = true) → covered s (h ++ [a]).
Proof.
  intros [H1 H2] Hb Hs. split; [intros b|]; rewrite elem_of_app, list_elem_of_singleton; intros [?|?]; subst; auto.
Qed.

(** The barrier is in place: reload, prove the mask, stop, watch. *)
Definition bar_and_stop (fuel : nat) (t : AcquireTuning) (s : RestoreState) (prior : PriorState) :
  Run (RestoreState * LifecycleError) (RestoreState * PriorState) :=
  staged s daemon_reload;;
  shown ← staged s show;
  if negb (String.eqb (load_state shown) "masked")
  then throw (s, BarrierNotEffective (barrier_path l) (load_state shown))
  else
    s ← (if active prior then let s := set_restart s in note Stopped;; staged s stop;; mret s else mret s);
    staged s (wait_until_inactive fuel t);;
    staged s (wait_until_name_released fuel t);;
    mret (s, prior).

Lemma reload_spec lock h : triple (l := l) (staging lock h) daemon_reload
  (λ r m, match r with Ok _ => staging lock (h ++ [Reloaded]) m | Err _ => staging lock h m end).
Proof.
  unfold daemon_reload, run_expect_success. eapply triple_run_bind with (M := λ _, staging lock h); [| |done].
  - apply keeps_run_bind; [apply keeps_run_systemctl, sturdy_staging|]. intros o. by destruct (success o); keep.
  - intros []. eapply triple_run_conseq; [eapply triple_run_pre; [apply note_staging|]|by intros []]. intros m Hm. split; [exact Hm|by intros [b ?]].
Qed.

Lemma bar_and_stop_spec lock s h fuel t prior :
  of_lock lock s → is_some (barrier s) = true → covered s h → restart s = false → (∃ b, Barred b ∈ h) →
  triple (l := l) (staging lock h) (bar_and_stop fuel t s prior) (staged_post lock (λ '(s, prior), ready lock s prior)).
Proof.
  intros Hl Hb Hc Hr [b Hin]. unfold bar_and_stop.
  eapply triple_run_bind with (M := staged_post lock (λ _, staging lock (h ++ [Reloaded]))); [| |by intros []].
  { apply (staged_weaker lock s h _ (staging lock h)); [done..|by intros m (? & ? & _)|apply reload_spec]. }
  set (h1 := h ++ [Reloaded]). assert (covered s h1) as Hc1 by by apply covered_app.
  intros ?. pose proof (sturdy_quiet _ (sturdy_staging lock h1)) as HS.
  eapply triple_run_bind with (M := staged_post lock (λ p m, staging lock h1 m ∧ p = unit_state m)); [| |by intros []].
  { apply (staged_weaker lock s h1 _ (staging lock h1)); [done..|by intros m (? & ? & _)|].
    eapply triple_run_conseq; [by apply show_spec|]. by intros [p|e] m []. }
  intros shown. destruct (String.eqb (load_state shown) "masked") eqn:E; cbn [negb].
  2:{ apply triple_throw. intros m [(Hh & Hk & _) _]. split; [done|]. exists h1. auto. }
  apply String.eqb_eq in E. apply triple_run_pre with (P' := λ m, staging lock h1 m ∧ mask m).
  2:{ intros m [Hm ->]. split; [done|]. split; [|done]. destruct Hm as (_ & _ & _ & Hbar). apply Hbar. exists b. apply elem_of_app. by left. }
  destruct (active prior) eqn:Ea; cbn zeta.
  2:{ eapply triple_run_bind with (M := λ r m, r = Ok s ∧ staging lock h1 m ∧ mask m); [by apply triple_run_ret| |by intros e m []].
      intros s'. apply triple_pure. intros [= ->]. apply (wait_spec lock s h1); [done..|congruence]. }
  set (h2 := h1 ++ [Stopped]). set (s2 := set_restart s).
  assert (covered s2 h2) as Hc2 by (apply covered_app; [split; [apply Hc1|done]|done..]).
  eapply triple_run_bind with (M := staged_post lock (λ s' m, s' = s2 ∧ staging lock h2 m ∧ mask m)); [| |by intros []].
  - eapply triple_run_bind with (M := staged_post lock (λ _ m, staging lock h2 m ∧ mask m)); [| |by intros []].
    { intros m sc [Hst Hk] Hs. assert ((∃ b, Stopped = Barred b) → barred l m) as Hno by by intros [? ?].
      destruct (note_staging (E := RestoreState * LifecycleError) lock h1 Stopped m sc (conj Hst Hno) Hs) as [Hst' Hs']. split; [|done]. split; [exact Hst'|exact Hk]. }
    intros ?. eapply triple_run_bind with (M := staged_post lock (λ _ m, staging lock h2 m ∧ mask m)); [|intros ?; by apply triple_run_ret|by intros []].
    apply (staged_keeps lock s2 h2); [done|done| |apply stop_spec, sturdy_staging]. by intros m [(? & ? & _) _].
  - intros s'. apply triple_pure. intros ->. apply (wait_spec lock s2 h2); [done..|by rewrite Ea].
Qed.

Lemma stage_spec lock fuel t :
  let s := {| layout := l; barrier := None; restart := false; Lifecycle.lock := lock |} in
  triple (l := l) (λ m, history [] m ∧ holds (Some lock) m ∧ numbered m) (stage fuel t s)
    (staged_post lock (λ '(s, prior), ready lock s prior)).
Proof.
  intros s. assert (of_lock lock s) as Hl by done.
  assert (covered s []) as Hc0 by (split; [intros b|]; intros H; by apply elem_of_nil in H).
  set (P0 := λ m, history [] m ∧ holds (Some lock) m ∧ numbered m).
  assert (sturdy P0) as HP0 by (apply sturdy_and; [apply sturdy_history|apply sturdy_and; [apply sturdy_holds|apply sturdy_numbered]]).
  pose proof (sturdy_staging lock []) as HS. pose proof (sturdy_quiet _ HS) as HQ.
  assert (∀ m, staging lock [] m → history [] m ∧ holds (Some lock) m) as Hw by by intros m (? & ? & _).
  unfold stage. cbn [layout s].
  eapply triple_run_bind with (M := staged_post lock (λ _, staging lock [])); [| |by intros []].
  { apply (staged_weaker lock s [] _ P0); [done..|by intros m (? & ? & _)|].
    eapply triple_run_conseq; [apply (verify_spec P0), HP0|]. intros [[]|e] m [(? & ? & ?) Hd]; [|done]. specialize (Hd eq_refl).
    do 2 (split; [done|]). split; [done|]. intros [b Hb]. by apply elem_of_nil in Hb. }
  intros ?. set (P1 entry := λ m, staging lock [] m ∧ (is_some (adopted_barrier l entry) = true → barred l m)).
  assert (∀ entry, sturdy (P1 entry)) as HP1 by (intros entry; apply sturdy_and; [apply sturdy_staging|apply sturdy_imp, sturdy_barred]).
  assert (∀ entry m, P1 entry m → history [] m ∧ holds (Some lock) m) as Hw1 by (intros entry m [Hm _]; auto).
  eapply triple_run_bind with (M := staged_post lock P1); [| |by intros []].
  { apply (staged_weaker lock s [] _ (staging lock [])); [done..|]. eapply triple_run_conseq; [apply probe_spec, HS|].
    intros [entry|e] m [Hm Hb]; [|done]. split; [done|]. by destruct entry. }
  intros entry. eapply triple_run_bind; [apply (staged_keeps lock s []); [done|done|apply Hw1|apply keeps_show, sturdy_quiet, HP1]| |by intros []].
  intros props. eapply triple_run_bind; [apply (staged_keeps lock s []); [done|done|apply Hw1|apply keeps_give]| |by intros []].
  intros ?. eapply triple_run_bind with (M := staged_post lock (λ b, staging lock [Barred (file b)])); [| |by intros []].
  - unfold staged_post, P1. destruct (adopted_barrier l entry) as [b|].
    + eapply triple_run_bind with (M := staged_post lock (λ _, staging lock [Barred (file b)])); [|intros ?; by apply triple_run_ret|by intros []].
      eapply triple_run_conseq; [eapply triple_run_pre; [apply (note_staging lock [])|]|by intros [] m]. intros m [Hm Hb]. split; [exact Hm|auto].
    + apply triple_staged. eapply triple_run_conseq; [eapply triple_run_pre; [apply (create_barrier_spec lock [])|by intros m [? _]]|].
      intros [b|e] m H; [done|]. split; [done|]. destruct H as [(? & ? & _)|(fd & (? & ? & _) & ?)]; [exists []|exists [Barred fd]]; [by auto|].
      split_and!; [done..|]. right. split_and!; [done..|]. by exists fd.
  - intros b. apply (bar_and_stop_spec lock (set_barrier b s) [Barred (file b)] fuel t); [done..| |done|by exists (file b); left].
    split; [intros b'|]; rewrite list_elem_of_singleton; [|done]. by intros [= ->].
Qed.

(** *** Restoring *)
Definition known (lock : Z) (h : list Act) (m : Machine) : Prop := history h m ∧ holds (Some lock) m.

Lemma sturdy_known lock h : sturdy (known lock h).
Proof. apply sturdy_and; [apply sturdy_history|apply sturdy_holds]. Qed.

Lemma stable_known lock h : stable (l := l) (known lock h).
Proof. apply sturdy_known. Qed.

Lemma note_known {E} lock h a :
  triple (l := l) (known lock h) (note a : Run E unit) (λ r m, match r with Ok _ => known lock (h ++ [a]) m | Err _ => False end).
Proof. intros m s (Hh & ?) Hs. split; [|done]. split; [|done]. unfold history in *. cbn. by rewrite Hh. Qed.

(** An act that is recorded when the call before it worked. *)
Lemma then_note {E} lock h a (c : Run E unit) : keeps (l := l) (known lock h) c →
  triple (l := l) (known lock h) (c;; note a) (λ r m, known lock (match r with Ok _ => h ++ [a] | Err _ => h end) m).
Proof.
  intros Hc. eapply triple_run_bind; [apply Hc| |done]. intros ?. eapply triple_run_conseq; [apply note_known|]. by intros [].
Qed.

Lemma keeps_run_expect lock h args : keeps (l := l) (known lock h) (run_expect_success args).
Proof.
  unfold run_expect_success. apply keeps_run_bind; [apply keeps_run_systemctl, sturdy_known|]. intros o. by destruct (success o); keep.
Qed.

Lemma remove_barrier_spec lock h b : triple (l := l) (known lock h) (remove_barrier b)
  (λ r m, known lock (match r with Ok _ => h ++ [Unbarred (file b)] | Err _ => h end) m).
Proof.
  pose proof (stable_known lock h) as HS. unfold remove_barrier. cbn zeta.
  eapply triple_run_bind; [apply keeps_on_err, keeps_fstat, HS| |done]. intros held.
  eapply triple_run_bind with (M := λ r m, match r with Ok _ => known lock h m | Err _ => False end);
    [apply triple_attempt, keeps_run_look, HS| |done].
  intros [there|e].
  - destruct (negb _); [by apply triple_throw|]. apply then_note, keeps_on_err. apply triple_syscall; [done..|].
    intros m Hm. destruct (names m !! path b); [|done]. by destruct (is_some_and _ _).
  - destruct e; try (by apply triple_throw). eapply triple_run_conseq; [apply note_known|]. by intros [].
Qed.

Lemma verify_unmasked_spec {E} lock h : triple (l := l) (known lock h) (verify_unmasked l : Run E _)
  (λ r m, match r with Ok errors => ∃ h', known lock h' m ∧ (errors = [] → h' = h ++ [Reloaded]) | Err _ => False end).
Proof.
  unfold verify_unmasked.
  eapply triple_run_bind with (M := λ r m, match r with Ok r => known lock (match r with Ok _ => h ++ [Reloaded] | Err _ => h end) m | Err _ => False end);
    [apply triple_attempt, then_note, keeps_run_expect| |done].
  intros [?|e]; [|apply triple_run_ret; intros m Hm; by exists h].
  eapply triple_run_bind with (M := λ r m, match r with Ok _ => known lock (h ++ [Reloaded]) m | Err _ => False end);
    [apply triple_attempt, keeps_show, sturdy_quiet, sturdy_known| |done].
  intros shown. apply triple_run_ret. intros m Hm. by exists (h ++ [Reloaded]).
Qed.

Lemma keeps_rmdir lock h p : keeps (l := l) (known lock h) (rmdir p).
Proof.
  apply triple_syscall; [apply stable_known|done|]. intros m Hm. destruct (names m !! p); [|done].
  destruct (negb _); [done|]. by destruct (existsb _ _).
Qed.

Lemma take_down_spec {E} lock h b : triple (l := l) (known lock h) (take_barrier_down l b : Run E _)
  (λ r m, match r with
          | Ok errors => ∃ h', known lock h' m ∧ (errors = [] → h' = h ++ [Unbarred (file b); Reloaded])
          | Err _ => False
          end).
Proof.
  unfold take_barrier_down.
  eapply triple_run_bind with (M := λ r m, match r with Ok r => known lock (match r with Ok _ => h ++ [Unbarred (file b)] | Err _ => h end) m | Err _ => False end);
    [apply triple_attempt, remove_barrier_spec| |done].
  intros removed. set (h1 := match removed with Ok _ => h ++ [Unbarred (file b)] | Err _ => h end).
  eapply triple_run_bind with (M := λ r m, match r with Ok _ => known lock h1 m | Err _ => False end); [| |done].
  { destruct (created_control_dir b); [|by apply triple_run_ret].
    eapply triple_run_bind with (M := λ r m, match r with Ok _ => known lock h1 m | Err _ => False end);
      [apply triple_attempt, keeps_rmdir|intros ?; by apply triple_run_ret|done]. }
  intros ?. eapply triple_run_bind; [apply verify_unmasked_spec| |done]. intros errors. apply triple_run_ret.
  intros m (h' & Hk & He). exists h'. split; [done|]. intros E'. apply app_eq_nil in E' as [E1 E2].
  rewrite (He E2). unfold h1. destruct removed; [|done]. by rewrite <- app_assoc.
Qed.

(** What an undisturbed restoration does. *)
Definition restoring_acts (s : RestoreState) (mode : RestoreMode) : list Act :=
  match mode with
  | LeaveBarred => []
  | Full => match barrier s with Some b => [Unbarred (file b); Reloaded] | None => [] end ++ (if restart s then [Started] else [])
  end ++ [Unlocked].

Lemma restore_spec lock h s mode : of_lock lock s → triple (l := l) (known lock h) (restore s mode)
  (λ r m, holds None m ∧ match r with Ok _ => history (h ++ restoring_acts s mode) m | Err e => ∃ why, e = RestoreIncomplete why end).
Proof.
  intros [Hlk Hla]. unfold restore. rewrite Hlk, Hla.
  eapply triple_run_bind with (M := λ r m, match r with
    | Ok errors => ∃ h', known lock h' m ∧ (errors = [] → h' ++ [Unlocked] = h ++ restoring_acts s mode) | Err _ => False end); [| |done].
  - destruct mode; [|apply triple_run_ret; intros m Hm; by exists h].
    eapply triple_run_bind with (M := λ r m, match r with
      | Ok errors => ∃ h', known lock h' m ∧ (errors = [] → h' = h ++ match barrier s with Some b => [Unbarred (file b); Reloaded] | None => [] end)
      | Err _ => False end); [| |done].
    { destruct (barrier s) as [b|]; [apply take_down_spec|]. apply triple_run_ret. intros m Hm. exists h. by rewrite app_nil_r. }
    intros down. set (tail := match barrier s with Some b => _ | None => _ end).
    apply triple_exists. intros h1. apply triple_run_pre with (P' := λ m, (down = [] → h1 = h ++ tail) ∧ known lock h1 m); [|naive_solver].
    apply triple_pure. intros Hd.
    eapply triple_run_bind with (M := λ r m, match r with
      | Ok (Ok _) => known lock (h1 ++ (if restart s then [Started] else [])) m | Ok (Err _) => known lock h1 m | Err _ => False end); [| |done].
    { destruct (restart s); [|apply triple_run_ret; intros m Hm; by rewrite app_nil_r].
      apply triple_attempt. eapply triple_run_conseq; [apply then_note, keeps_run_expect|]. by intros []. }
    intros [[]|e]; apply triple_run_ret; intros m Hm; (eexists; split; [exact Hm|]); cbn; [rewrite app_nil_r|].
    + intros E. rewrite (Hd E), <- !app_assoc. done.
    + intros E. by apply app_eq_nil in E as [_ ?].
  - intros errors. apply triple_exists. intros h1.
    apply triple_run_pre with (P' := λ m, (errors = [] → h1 ++ [Unlocked] = h ++ restoring_acts s mode) ∧ known lock h1 m); [|naive_solver].
    apply triple_pure. intros He.
    eapply triple_run_bind with (M := λ r m, match r with Ok _ => history (h1 ++ [Unlocked]) m ∧ holds None m | Err _ => False end); [| |done].
    + eapply triple_run_conseq; [apply (close_lock_spec (history h1) (history (h1 ++ [Unlocked])))|by intros []]; [|done].
      intros m Hm. unfold history in *. cbn. by rewrite Hm.
    + intros ?. destruct errors as [|e errors].
      * apply triple_run_ret. intros m [Hh Hn]. split; [done|]. by rewrite <- He.
      * apply triple_throw. intros m [_ Hn]. split; [done|]. by eexists.
Qed.

Lemma restore_or_log_spec {E} lock h s : of_lock lock s → triple (l := l) (known lock h) (restore_or_log s : Run E unit)
  (λ r m, match r with
          | Ok _ => holds None m ∧ (history (h ++ restoring_acts s Full) m ∨ ∃ why, Complained why ∈ acts m)
          | Err _ => False
          end).
Proof.
  intros Hl. unfold restore_or_log.
  eapply triple_run_bind with (M := λ r m, match r with
    | Ok r => holds None m ∧ match r with Ok _ => history (h ++ restoring_acts s Full) m | Err _ => True end | Err _ => False end); [| |done].
  - apply triple_attempt. eapply triple_run_conseq; [by apply restore_spec|]. intros [] m []; auto.
  - intros [?|e]; [apply triple_run_ret; intros m []; auto|]. intros m sc [Hn _] Hs. split; [|done]. split; [done|].
    right. exists (error_text e). cbn. set_solver.
Qed.

(** Whatever was barred is unbarred, with the manager told; whatever was stopped is started. *)
Definition undone (h : list Act) : Prop :=
  (∀ b, Barred b ∈ h → ∃ x y z, h = x ++ Barred b :: y ++ Unbarred b :: z ∧ Reloaded ∈ z) ∧
  (Stopped ∈ h → ∃ x y, h = x ++ Stopped :: y ∧ Started ∈ y).

Lemma restoring_acts_end s a : a ∈ restoring_acts s Full → (∀ b, a ≠ Barred b) ∧ a ≠ Stopped.
Proof. unfold restoring_acts. destruct (barrier s), (restart s); set_solver. Qed.

Lemma covered_undone s h : covered s h → undone (h ++ restoring_acts s Full).
Proof.
  intros [Hb Hs]. split.
  - intros b Hin. apply elem_of_app in Hin as [Hin|Hin]; [|by apply restoring_acts_end in Hin as [H _]; destruct (H b)].
    specialize (Hb b Hin). apply list_elem_of_split in Hin as (x & y & ->). unfold restoring_acts.
    destruct (barrier s) as [g|]; [|done]. injection Hb as ->.
    exists x, y, (Reloaded :: (if restart s then [Started] else []) ++ [Unlocked]). rewrite <- !app_assoc. cbn.
    split; [done|]. apply list_elem_of_here.
  - intros Hin. apply elem_of_app in Hin as [Hin|Hin]; [|by apply restoring_acts_end in Hin as [_ ?]].
    specialize (Hs Hin). apply list_elem_of_split in Hin as (x & y & ->). unfold restoring_acts. rewrite Hs.
    eexists x, _. rewrite <- app_assoc. cbn. split; [done|]. set_solver.
Qed.

Lemma nothing_undone h : (∀ b, Barred b ∉ h) → Stopped ∉ h → undone h.
Proof. intros H1 H2. split; [intros b H; by destruct (H1 b)|done]. Qed.

(** How an acquisition may end. *)
Definition leased (lease : LifecycleLease) (m : Machine) : Prop :=
  ∃ s, shared lease = Some s ∧ is_some (barrier s) = true ∧ restart s = was_active lease ∧ layout s = l ∧
  ∃ h, history h m ∧ holds (Some (Lifecycle.lock s)) m ∧ covered s h ∧ kept_out m.

Definition refused (e : LifecycleError) (m : Machine) : Prop :=
  holds None m ∧
  (undone (acts m) ∨ (∃ why, Complained why ∈ acts m) ∨ ∃ fd, acts m = [Barred fd; Unlocked] ∧ left_behind e).

Lemma stable_kept_out : stable (l := l) kept_out.
Proof.
  apply stable_deeds. intros m m' (Hd & [Hb Hm] & Hi & Ho) He.
  pose proof (rtc_once _ _ He) as Hr. split_and!.
  - intros p Hp. eapply stable_delegated; eauto.
  - by eapply rely_barred.
  - by eapply deed_masked.
  - by eapply deed_inactive.
  - by eapply deed_unowned.
Qed.

Lemma stable_leased lease : stable (l := l) (leased lease).
Proof.
  intros m m' (s & ? & ? & ? & ? & h & Hh & Hl & Hc & Hk) Hr. exists s. do 4 (split; [done|]). exists h.
  split; [by eapply sturdy_history|]. split; [by eapply stable_holds|]. split; [done|]. by eapply stable_kept_out.
Qed.

Lemma leased_restored {E} lease s : shared lease = Some s →
  triple (l := l) (leased lease) (restore_or_log s : Run E unit)
    (λ r m, match r with Ok _ => holds None m ∧ (undone (acts m) ∨ ∃ why, Complained why ∈ acts m) | Err _ => False end).
Proof.
  intros Es. apply triple_exists. intros s'. apply triple_pure. rewrite Es. intros [= <-].
  apply triple_pure. intros _. apply triple_pure. intros _. apply triple_pure. intros Hla. apply triple_exists. intros h.
  apply triple_run_pre with (P' := λ m, covered s h ∧ known (Lifecycle.lock s) h m); [|unfold known; naive_solver].
  apply triple_pure. intros Hc. eapply triple_run_conseq; [by apply (restore_or_log_spec (Lifecycle.lock s) h)|].
  intros [?|?] m H; [|done]. destruct H as [Hn [Hh|Hw]]; (split; [done|]); [left|by right].
  rewrite Hh. by apply covered_undone.
Qed.

Lemma arm_spec lease s : shared lease = Some s →
  triple (l := l) (leased lease) (arm_signals_with lease) (λ r m, match r with Ok lease => leased lease m | Err e => refused e m end).
Proof.
  intros Es. unfold arm_signals_with.
  eapply triple_run_bind with (M := λ r m, match r with Ok _ => leased lease m | Err _ => False end);
    [apply triple_attempt; apply triple_syscall; [apply stable_leased|done..]| |done].
  intros [?|e]; [by apply triple_run_ret|]. rewrite Es.
  eapply triple_run_bind; [by apply (leased_restored lease)| |done].
  intros ?. apply triple_throw. intros m [Hn H]. split; [done|]. naive_solver.
Qed.

Lemma roll_back_spec lock s error :
  triple (l := l) (handed_over lock s error) (restore_or_log s : Run LifecycleError unit)
    (λ r m, match r with Ok _ => refused error m | Err _ => False end).
Proof.
  apply triple_pure. intros Hl. apply triple_exists. intros h.
  apply triple_run_pre with (P' := λ m, (covered s h ∨ barrier s = None ∧ restart s = false ∧ ∃ fd, h = [Barred fd] ∧ left_behind error) ∧ known lock h m);
    [|unfold known; naive_solver].
  apply triple_pure. intros Hc. eapply triple_run_conseq; [by apply restore_or_log_spec|].
  intros [?|?] m H; [|done]. destruct H as [Hn [Hh|Hw]]; (split; [done|]); [|by right; left].
  destruct Hc as [Hc|(Eb & Er & fd & -> & Hlb)]; [left; rewrite Hh; by apply covered_undone|].
  right. right. exists fd. split; [|done]. rewrite Hh. unfold restoring_acts. by rewrite Eb, Er.
Qed.

Lemma acquire_spec fuel t arm :
  triple (l := l) (λ m, history [] m ∧ holds None m ∧ numbered m) (acquire fuel l t arm)
    (λ r m, match r with Ok lease => leased lease m | Err e => refused e m end).
Proof.
  set (P0 := λ m, history [] m ∧ numbered m).
  assert (sturdy P0) as HP0 by (apply sturdy_and; [apply sturdy_history|apply sturdy_numbered]).
  assert (∀ e m, P0 m ∧ holds None m → refused e m) as Hclean.
  { intros e m [[Hh _] Hn]. split; [done|]. left. rewrite Hh. apply nothing_undone; [intros b|]; set_solver. }
  unfold acquire. apply triple_run_pre with (P' := λ m, P0 m ∧ holds None m); [|unfold P0; naive_solver].
  pose proof (sturdy_and _ _ HP0 (sturdy_holds None)) as HB.
  eapply triple_run_bind; [apply keeps_on_err; unfold is_dir; apply keeps_run_bind; [apply keeps_attempt, keeps_run_look, HB|intros ?; apply keeps_run_ret]| |].
  2:{ intros e m Hm. by apply Hclean. }
  intros booted. destruct (negb booted); [apply triple_throw; intros m Hm; by apply Hclean|].
  eapply triple_run_bind; [apply (acquire_lock_spec P0 (history [Unlocked])); [done|done| |done]| |].
  { intros m [Hh _]. unfold history in *. cbn. by rewrite Hh. }
  2:{ intros e m [[HP|Hh] Hn]; [by apply Hclean|]. split; [done|]. left. rewrite Hh. apply nothing_undone; [intros b|]; set_solver. }
  intros lock. cbn beta iota.
  apply triple_run_bind with (M := λ r m, match r with Ok r => staged_post lock (λ '(s, prior), ready lock s prior) r m | Err _ => False end); [| |done].
  { apply triple_attempt. eapply triple_run_pre; [apply stage_spec|]. unfold P0. naive_solver. }
  intros [[s prior]|[s error]].
  - cbn zeta. set (lease := {| shared := Some s; was_active := active prior; prior_unit_file_state := prior_file_state prior |}).
    apply triple_run_pre with (P' := leased lease).
    2:{ intros m ([Hl Hla] & Hb & Hr & h & Hh). exists s. do 4 (split; [done|]). exists h. by rewrite Hl. }
    destruct arm; [by apply (arm_spec lease s)|by apply triple_run_ret].
  - cbn. eapply triple_run_bind with (M := λ r m, match r with Ok _ => refused error m | Err _ => False end);
      [apply roll_back_spec|intros ?; by apply triple_throw|done].
Qed.

(** *** Ending *)
Definition ends_at {E A} (m : Machine) (c : Run E A) (Q : result A E → Machine → Prop) : Prop :=
  ∀ s, Forall (ok_event l) s →
  match c m s with
  | (Done r, m', s') => Forall (ok_event l) s' ∧ instant m ≤ instant m' ∧ Q r m'
  | (Killed, _, _) => True
  | (Running, _, _) => False
  end.
Definition ends {E A} (c : Run E A) : Prop := ∀ m, ends_at m c (λ _ _, True).

Lemma ends_at_bind {E A B} m (c : Run E A) (k : A → Run E B) M Q :
  ends_at m c M → (∀ a m', M (Ok a) m' → instant m ≤ instant m' → ends_at m' (k a) Q) →
  (∀ e m', M (Err e) m' → Q (Err e) m') → ends_at m (c ≫= k) Q.
Proof.
  intros Hc Hk He s Hs. specialize (Hc s Hs). unfold mbind, Run_bind.
  destruct (c m s) as [[[[a|e]| |] m'] s']; [|naive_solver..]. destruct Hc as (Hs' & Hi & Hm).
  specialize (Hk a m' Hm Hi s' Hs'). destruct (k a m' s') as [[[r| |] m2] s2]; [|done..].
  destruct Hk as (? & ? & ?). split_and!; [done|lia|done].
Qed.

Lemma ends_bind {E A B} (c : Run E A) (k : A → Run E B) : ends c → (∀ a, ends (k a)) → ends (c ≫= k).
Proof. intros Hc Hk m. eapply ends_at_bind; [apply Hc|intros a m' _ _; apply Hk|done]. Qed.

Lemma ends_value {E A} (r : result A E) : ends (give r).
Proof. intros m s Hs. split_and!; [done|lia|done]. Qed.
Lemma ends_ret {E A} (a : A) : ends (mret a : Run E A). Proof. apply ends_value. Qed.
Lemma ends_throw {E A} (e : E) : ends (throw e : Run E A). Proof. apply (ends_value (Err e)). Qed.
Lemma ends_note {E} a : ends (note a : Run E unit).
Proof. intros m s Hs. split_and!; [done|cbn; lia|done]. Qed.

Lemma ends_attempt {E F A} (c : Run E A) : ends c → ends (attempt c : Run F _).
Proof. intros Hc m s Hs. specialize (Hc m s Hs). unfold attempt. by destruct (c m s) as [[[]]]. Qed.
Lemma ends_on_err {E F A} (f : E → F) (c : Run E A) : ends c → ends (on_err f c).
Proof. intros Hc. apply ends_bind; [by apply ends_attempt|intros; apply ends_value]. Qed.

Lemma ends_at_step {E A} m (act : Event → Machine → result A E * Machine) (Q : result A E → Machine → Prop) :
  (∀ e m', instant m ≤ instant m' → instant m' ≤ instant (snd (act e m')) ∧ Q (fst (act e m')) (snd (act e m'))) → ends_at m (step act) Q.
Proof.
  intros H s Hs. unfold step.
  assert (∃ e s', ok_event l e ∧ Forall (ok_event l) s' ∧ next_event s = (e, s')) as (e & s' & He & Hs' & ->).
  { destruct Hs as [|e s He Hs]; [exists calm, []|by exists e, s]. split; [|done]. split; [intros; apply rely_refl|done]. }
  destruct (killed e); [done|]. assert (instant m ≤ instant (before e m)) as Hm by apply (rely_instant _ _ _ (ok_before _ _ He m)).
  destruct (H e _ Hm) as [Hi Hq]. destruct (act e (before e m)) as [r m']. cbn in *. split_and!; [done|lia|done].
Qed.

Lemma ends_step {E A} (act : Event → Machine → result A E * Machine) :
  (∀ e m, instant m ≤ instant (snd (act e m))) → ends (step act).
Proof. intros H m. by apply ends_at_step. Qed.

Lemma ends_syscall {A} (f : Machine → result A Errno * Machine) :
  (∀ m, instant m ≤ instant (snd (f m))) → ends (syscall f).
Proof. intros H. apply ends_step. intros e m. destruct (fault e); cbn; [lia|done]. Qed.

Lemma ends_look {A} (f : Machine → result A Errno) : ends (look f).
Proof. apply ends_syscall. intros m. cbn. lia. Qed.

Lemma ends_systemctl args : ends (run_systemctl args).
Proof.
  apply ends_step. intros e m. destruct (fault e); cbn; [lia|]. pose proof (manager_files args (choice e) m) as (_ & _ & _ & _ & _ & H).
  by destruct (systemctl args (choice e) m).
Qed.

Lemma ends_bus : ends daemon_name_has_owner.
Proof. apply ends_step. intros e m. destruct (fault e); cbn; lia. Qed.

Lemma ends_clock m : ends_at m (clock_now : Run LifecycleError Z) (λ r m', r = Ok (instant m')).
Proof. apply ends_at_step. cbn. intros. split; [lia|done]. Qed.

Lemma ends_sleep m d : 0 ≤ d → ends_at m (sleep d : Run LifecycleError unit) (λ _ m', instant m + d ≤ instant m').
Proof. intros Hd. apply ends_at_step. cbn. lia. Qed.

Lemma ends_lock fd {E} : ends (close_lock fd : Run E unit).
Proof. intros m s Hs. split_and!; [done| |done]. destruct (locks m !! fd) as [[]|]; cbn; lia. Qed.
End calls.

Create HintDb ending.
#[export] Hint Resolve ends_ret ends_throw ends_value ends_note ends_look ends_bus ends_lock : ending.

Ltac ending := repeat first
  [ solve [auto with ending nocore] | apply ends_systemctl
  | apply ends_bind; [|intros ?] | apply ends_attempt | apply ends_on_err
  | apply ends_syscall; intros ?; repeat case_match; cbn; lia
  | progress cbn beta iota zeta | case_match ].

Section termination.
Context {SD : ShowDebug} {NB : Neighbours} {SDu : ShowDuration} {SM : ServiceManager} {ML : ManagerLaws}.
Context {l : LifecycleLayout}.

Lemma ends_open p how : ends (l := l) (open_nofollow p how).
Proof. unfold open_nofollow. ending. Qed.
Lemma ends_create p bits : ends (l := l) (create_nofollow p bits).
Proof. unfold create_nofollow. ending. Qed.
#[local] Hint Resolve ends_open ends_create : ending.

Lemma ends_mkdir p bits : ends (l := l) (mkdir p bits). Proof. unfold mkdir. ending. Qed.
Lemma ends_fchmod fd bits : ends (l := l) (fchmod fd bits). Proof. unfold fchmod. ending. Qed.
Lemma ends_fstat fd : ends (l := l) (fstat fd). Proof. unfold fstat. ending. Qed.
Lemma ends_lstat p : ends (l := l) (lstat p). Proof. unfold lstat. ending. Qed.
Lemma ends_flock fd : ends (l := l) (flock fd). Proof. unfold flock. ending. Qed.
Lemma ends_unlink p : ends (l := l) (unlink p). Proof. unfold unlink. ending. Qed.
Lemma ends_rmdir p : ends (l := l) (rmdir p). Proof. unfold rmdir. ending. Qed.
#[local] Hint Resolve ends_mkdir ends_fchmod ends_fstat ends_lstat ends_flock ends_unlink ends_rmdir : ending.

Lemma ends_trusted_dir p created owner : ends (l := l) (open_trusted_dir p created owner).
Proof. unfold open_trusted_dir, io_at. ending. Qed.
Lemma ends_ensure_dir p : ends (l := l) (ensure_dir p).
Proof. unfold ensure_dir. ending. Qed.
#[local] Hint Resolve ends_trusted_dir ends_ensure_dir : ending.

Lemma ends_acquire_lock : ends (l := l) (acquire_lifecycle_lock l).
Proof. unfold acquire_lifecycle_lock, open_or_create_lock, io_at. ending. Qed.

Lemma ends_verify : ends (l := l) (verify_activation_delegation l).
Proof.
  unfold verify_activation_delegation. induction (activation_definition_paths l) as [|p ps IH]; cbn; [ending|].
  apply ends_bind; [|intros ?; apply IH]. unfold verify_definition, io_at, read_to_string. ending.
Qed.

Lemma ends_probe : ends (l := l) (probe_control_path l).
Proof. unfold probe_control_path, io_at. ending. Qed.

Lemma ends_create_barrier : ends (l := l) (create_barrier l).
Proof. unfold create_barrier, io_at. ending. Qed.

Lemma ends_show : ends (l := l) show. Proof. unfold show. ending. Qed.
Lemma ends_expect args : ends (l := l) (run_expect_success args). Proof. unfold run_expect_success. ending. Qed.
#[local] Hint Resolve ends_acquire_lock ends_verify ends_probe ends_create_barrier ends_show ends_expect : ending.

Lemma ends_restore s mode : ends (l := l) (restore s mode).
Proof. unfold restore, take_barrier_down, remove_barrier, verify_unmasked, daemon_reload, start. ending. Qed.

Lemma ends_restore_or_log {E} s : ends (l := l) (restore_or_log s : Run E unit).
Proof. unfold restore_or_log. pose proof (ends_restore s Full). ending. Qed.
#[local] Hint Resolve ends_restore_or_log : ending.

(** A poll sleeps for an interval: what is left of the timeout bounds the polls. *)
Lemma poll_inactive_ends t fuel deadline m : 0 < poll_interval t →
  deadline ≤ instant m + Z.of_nat fuel * poll_interval t → ends_at (l := l) m (poll_inactive (S fuel) deadline t) (λ _ _, True).
Proof.
  intros Hp. revert m. induction fuel as [|fuel IH]; intros m Hd; cbn [poll_inactive].
  all: eapply ends_at_bind; [apply ends_show| |done]; intros props m1 _ H1; case_match; [apply ends_ret|];
    eapply ends_at_bind; [apply ends_clock| |done]; intros now m2 [= ->] H2;
    destruct (Z.leb_spec deadline (instant m2)); [apply ends_throw|].
  - lia.
  - eapply ends_at_bind; [apply ends_sleep; lia| |done]. intros ? m3 H3 _. apply IH. rewrite Nat2Z.inj_succ, Z.mul_succ_l in Hd. cbn in H3. lia.
Qed.

Lemma poll_released_ends t fuel deadline m : 0 < poll_interval t →
  deadline ≤ instant m + Z.of_nat fuel * poll_interval t → ends_at (l := l) m (poll_released (S fuel) deadline t) (λ _ _, True).
Proof.
  intros Hp. revert m. induction fuel as [|fuel IH]; intros m Hd; cbn [poll_released].
  all: eapply ends_at_bind; [apply ends_bus| |done]; intros owned m1 _ H1; case_match; [apply ends_ret|];
    eapply ends_at_bind; [apply ends_clock| |done]; intros now m2 [= ->] H2;
    destruct (Z.leb_spec deadline (instant m2)); [apply ends_throw|].
  - lia.
  - eapply ends_at_bind; [apply ends_sleep; lia| |done]. intros ? m3 H3 _. apply IH. rewrite Nat2Z.inj_succ, Z.mul_succ_l in Hd. cbn in H3. lia.
Qed.

(** The polls a timeout allows. *)
Definition enough_fuel (fuel : nat) (t : AcquireTuning) : Prop :=
  0 < poll_interval t ∧ stop_timeout t ≤ Z.of_nat fuel * poll_interval t ∧ bus_timeout t ≤ Z.of_nat fuel * poll_interval t.

Lemma ends_wait fuel t : enough_fuel fuel t →
  ends (l := l) (wait_until_inactive (S fuel) t) ∧ ends (l := l) (wait_until_name_released (S fuel) t).
Proof.
  intros (Hp & Hs & Hb). split; intros m.
  - eapply ends_at_bind; [apply ends_clock| |done]. intros now m1 [= ->] _. apply poll_inactive_ends; [done|lia].
  - eapply ends_at_bind; [apply ends_clock| |done]. intros now m1 [= ->] _. apply poll_released_ends; [done|lia].
Qed.

Lemma ends_acquire fuel t arm : enough_fuel fuel t → ends (l := l) (acquire (S fuel) l t arm).
Proof.
  intros [Hi Hr]%ends_wait. unfold acquire, is_dir, stage, staged, daemon_reload, stop, arm_signals_with. cbn [layout]. ending.
Qed.
End termination.
