(* ===== verification/LifecycleProofs.v ===== *)
(** * LifecycleProofs: what a lease promises while it is held and when it ends

    The properties of [Lifecycle.v] with their witnesses, from the specifications of
    [LifecycleLogic.v]. *)

From stdpp Require Import gmap.
From S2P Require Import Prelude Text Provenance PamFiles Lifecycle LifecycleLogic.

(** ** Properties *)
#[export] Instance UnitProperties_eq_dec : EqDecision UnitProperties.
Proof. solve_decision. Defined.

Section properties.
Context {SD : ShowDebug} {NB : Neighbours} {SDu : ShowDuration} {SM : ServiceManager} {ML : ManagerLaws}.
Context {l : LifecycleLayout}.

(** The process starts: nothing done yet, nothing locked. *)
Definition fresh_process (m : Machine) : Prop := acts m = [] ∧ holds None m ∧ numbered m.

Lemma leased_later lease m m' : leased (l := l) lease m → rtc (rely l) m m' → leased (l := l) lease m'.
Proof. intros H Hr. induction Hr; [done|]. apply IHHr. by eapply stable_leased. Qed.

(** What ends a lease that was held. *)
Lemma release_spec lease :
  triple (l := l) (leased (l := l) lease) (release lease)
    (λ r m, holds None m ∧ match r with Ok _ => undone (acts m) | Err e => ∃ why, e = RestoreIncomplete why end).
Proof.
  apply triple_exists. intros s. apply triple_pure. intros Es. apply triple_pure. intros _. apply triple_pure. intros _.
  apply triple_pure. intros Hla. apply triple_exists. intros h. unfold release. rewrite Es.
  apply triple_run_pre with (P' := λ m, covered s h ∧ known (Lifecycle.lock s) h m); [|unfold known; naive_solver].
  apply triple_pure. intros Hc. eapply triple_run_conseq; [by apply (restore_spec (Lifecycle.lock s) h)|].
  intros [?|e] m [Hn H]; (split; [done|]); [|done]. rewrite H. by apply covered_undone.
Qed.

(** C13.  With any call failing: when a lease is acquired, every activation definition delegates to
    systemd, the unit is masked and inactive, nothing owns the bus name and the lifecycle lock is this
    process's; and all of it stays so through any deeds of other processes, of the manager and of the
    bus, which may try to start the daemon at any moment. Others leave the activation definitions, the
    held lock and the barrier's file (or else the mask itself) as they are, and run the daemon only
    through the manager or the bus; the manager starts no masked unit and a reload leaves a unit masked
    whose barrier is there, and the bus runs a program itself only for a definition that does not
    delegate. *)
Theorem lease_excludes_daemon fuel t arm m s (Hs : Forall (ok_event l) s) (Hm : fresh_process m) :
  match acquire fuel l t arm m s with
  | (Done (Ok lease), m', _) => ∀ m2, rely l m' m2 →
      kept_out (l := l) m2 ∧ ∃ st, shared lease = Some st ∧ locks m2 !! lock st = Some true
  | _ => True
  end.
Proof.
  pose proof (acquire_spec (l := l) fuel t arm m s Hm Hs) as H.
  destruct (acquire fuel l t arm m s) as [[[[lease|e]| |] m'] s']; try done. destruct H as [H _]. intros m2 Hr.
  destruct (leased_later _ _ _ H (rtc_once _ _ Hr)) as (st & Es & _ & _ & _ & h & _ & Hl & _ & Hk).
  split; [done|]. exists st. split; [done|]. by apply Hl.
Qed.

(** C14.  A lease leaves no trace: an acquisition that fails at any step, and a release after one
    that did not, give the lock up; what was barred is unbarred and the manager told, what was
    stopped is started again, or the failure is reported. Only a barrier whose own making fails
    stays behind, alone. *)
Theorem lease_undoes_itself fuel t arm m s (Hs : Forall (ok_event l) s) (Hm : fresh_process m) :
  match acquire fuel l t arm m s with
  | (Done (Err e), m', _) => holds None m' ∧
      (undone (acts m') ∨ (∃ why, Complained why ∈ acts m') ∨ ∃ fd, acts m' = [Barred fd; Unlocked] ∧ left_behind (l := l) e)
  | (Done (Ok lease), m', s') => ∀ m2, rtc (rely l) m' m2 →
      match release lease m2 s' with
      | (Done r, m3, _) => holds None m3 ∧ match r with Ok _ => undone (acts m3) | Err e => ∃ why, e = RestoreIncomplete why end
      | _ => True
      end
  | _ => True
  end.
Proof.
  pose proof (acquire_spec (l := l) fuel t arm m s Hm Hs) as H.
  destruct (acquire fuel l t arm m s) as [[[[lease|e]| |] m'] s']; try done; destruct H as [H Hs']; [|apply H].
  intros m2 Hr. pose proof (release_spec lease m2 s' (leased_later _ _ _ H Hr) Hs') as Hrel.
  destruct (release lease m2 s') as [[[r| |] m3] s3]; try done. by destruct Hrel.
Qed.

(** An acquisition ends: the polls a timeout allows are enough fuel, and one. *)
Theorem acquisition_ends fuel t arm m s (Hs : Forall (ok_event l) s) (Hf : enough_fuel fuel t) :
  ∃ o m' s', acquire (S fuel) l t arm m s = (o, m', s') ∧ o ≠ Running.
Proof.
  pose proof (ends_acquire (l := l) fuel t arm Hf m s Hs) as H.
  destruct (acquire (S fuel) l t arm m s) as [[o m'] s']. exists o, m', s'. by destruct o.
Qed.
End properties.

(** ** A machine *)
#[local] Instance barrier_left : Neighbours := LeaveBarrier.
#[local] Instance plain_debug : ShowDebug := {| debug_str s := s |}.
#[local] Instance plain_duration : ShowDuration := {| show_duration := show_Z |}.

Definition line_of (key value : string) : string := key +:+ "=" +:+ value +:+ String newline "".
Definition shown (m : Machine) : string :=
  let u := unit_state m in
  let text := line_of "LoadState" (load_state u) +:+ line_of "ActiveState" (active_state u) +:+ line_of "UnitFileState" (unit_file_state u) in
  match parse_show_output text with Ok p => if bool_decide (p = u) then text else "" | Err _ => "" end.

Lemma shown_tells m p : parse_show_output (shown m) = Ok p → p = unit_state m.
Proof.
  unfold shown. cbv zeta. set (text := _ +:+ (_ +:+ _)). destruct (parse_show_output text) as [q|] eqn:E; [|done].
  case_bool_decide as Eq; [|done]. rewrite E. congruence.
Qed.

Definition with_unit (load active : string) (owned : bool) (m : Machine) : Machine :=
  {| inodes := inodes m; names := names m; next_inode := next_inode m; locks := locks m;
     unit_state := {| load_state := load; active_state := active; unit_file_state := unit_file_state (unit_state m) |};
     name_owned := owned; instant := instant m; effective := effective m; umask := umask m; acts := acts m |}.

Definition said (text : string) : Output := {| success := true; status := "exit status: 0"; stdout := text; stderr := "" |}.

(** A manager that masks a unit with a file in the control tier, and starts and stops at once. *)
#[local] Instance prompt_manager : ServiceManager := {| systemctl args _ m :=
  let u := unit_state m in
  match args with
  | "show"%string :: _ => (said (shown m), m)
  | ["daemon-reload"%string] =>
      let load := if is_some (names m !! barrier_path system_layout) then "masked"%string else "loaded"%string in
      (said "", with_unit load (active_state u) (name_owned m) m)
  | ["stop"%string; _] => (said "", with_unit (load_state u) "inactive" false m)
  | ["start"%string; _] =>
      if String.eqb (load_state u) "masked" then ({| success := false; status := "exit status: 1"; stdout := ""; stderr := "Unit is masked." |}, m)
      else (said "", with_unit (load_state u) "active" true m)
  | _ => (said "", m)
  end |}.

Lemma prompt_manager_cases (Q : Machine → Prop) args c m :
  Q m → (∀ load active owned, Q (with_unit load active owned m)) → Q (snd (systemctl args c m)).
Proof. intros H1 H2. unfold systemctl, prompt_manager. repeat case_match; cbn; auto. Qed.

#[local] Instance prompt_laws : ManagerLaws.
Proof.
  split.
  - intros args c m. apply (prompt_manager_cases (same_files m)); [by repeat split; try lia|]. intros. by repeat split; cbn; try lia.
  - done.
  - intros c m p. apply shown_tells.
  - done.
Qed.

Definition node (t : FileType) (bits : Z) (content : string) : Inode :=
  {| i_type := t; i_dev := 0; i_nlink := 1; i_mode := bits; i_uid := 0; i_gid := 0; i_content := content |}.

Definition definition_text : string :=
  "[D-BUS Service]" +:+ String newline ("Name=org.facelock.Daemon" +:+ String newline ("Exec=/bin/false" +:+ String newline
  ("User=root" +:+ String newline ("SystemdService=facelock-daemon.service" +:+ String newline "")))).

Definition booted : Machine := {|
  inodes := {[ 1 := node IsDirectory 16877 ""; 2 := node IsRegular 33188 definition_text ]};
  names := {[ "/run/systemd/system"%string := 1; "/usr/share/dbus-1/system-services/org.facelock.Daemon.service"%string := 2 ]};
  next_inode := 3; locks := ∅;
  unit_state := {| load_state := "loaded"; active_state := "active"; unit_file_state := "enabled" |};
  name_owned := true; instant := 0; effective := (0, 0); umask := 18; acts := [] |}.

Lemma booted_fresh : fresh_process booted.
Proof.
  split_and!; [done| |].
  - intros i. cbn. by rewrite lookup_empty.
  - intros p i. cbn. rewrite !lookup_insert_Some, lookup_singleton_Some. lia.
Qed.

(** An event at which only a call fails. *)
Definition failing (e : Errno) : Event := {| before := id; killed := false; fault := Some e; choice := 0 |}.

Lemma calm_is_ok : ok_event system_layout calm.
Proof. split; [intros; apply rely_refl|done]. Qed.
Lemma failing_ok text : ok_event system_layout (failing (OtherErrno text)).
Proof. split; [intros; apply rely_refl|done]. Qed.

Lemma leased_at_once :
  let '(o, _, s) := acquire 5 system_layout default_tuning true booted [] in
  match o, s with Done (Ok _), [] => true | _, _ => false end = true.
Proof. vm_compute. reflexivity. Qed.

(** Somebody reloads the manager, and a minute passes. *)
Definition reloaded (m : Machine) : Machine := with_unit (load_state (unit_state m)) (active_state (unit_state m)) (name_owned m) m.
Definition reloaded_later (m : Machine) : Machine := at_instant (instant m + 60) (reloaded m).

Lemma reloaded_later_rely m : rely system_layout m (reloaded_later m).
Proof.
  apply rtc_l with (reloaded m); [by apply deed_reload|].
  apply rtc_once, (deed_time _ _ _ (instant m + 60)); [cbn; lia|done].
Qed.

Lemma lease_excludes_daemon_witness :
  let '(o, m, _) := acquire 5 system_layout default_tuning true booted [] in
  ∃ lease, o = Done (Ok lease) ∧ is_masked (reloaded_later m) ∧ name_owned (reloaded_later m) = false.
Proof.
  pose proof (lease_excludes_daemon (l := system_layout) 5 default_tuning true booted [] (Forall_nil_2 _) booted_fresh) as H.
  pose proof leased_at_once as Ho.
  destruct (acquire 5 system_layout default_tuning true booted []) as [[[[lease|]| |] m] s]; try discriminate Ho.
  exists lease. split; [done|]. destruct (H _ (reloaded_later_rely m)) as [(_ & [_ ?] & _ & ?) _]. done.
Defined.

(** The stop of the daemon fails. *)
Definition no_stop : list Event := replicate 29 calm ++ [failing (OtherErrno "Connection refused (os error 111)")].

Lemma rolled_back :
  let '(o, m, s) := acquire 5 system_layout default_tuning true booted no_stop in
  o = Done (Err (SystemctlFailed "stop facelock-daemon.service" "Connection refused (os error 111)")) ∧ s = [] ∧
  acts m = [Barred 6; Reloaded; Stopped; Unbarred 6; Reloaded; Started; Unlocked].
Proof. vm_compute. repeat split. Qed.

Lemma lease_undoes_itself_witness :
  let '(o, m, _) := acquire 5 system_layout default_tuning true booted no_stop in
  (∃ e, o = Done (Err e)) ∧ undone (acts m) ∧ Stopped ∈ acts m.
Proof.
  assert (Forall (ok_event system_layout) no_stop) as Hs.
  { apply Forall_app. split; [apply Forall_replicate, calm_is_ok|]. apply Forall_singleton, failing_ok. }
  pose proof (lease_undoes_itself (l := system_layout) 5 default_tuning true booted no_stop Hs booted_fresh) as H.
  pose proof rolled_back as Ho.
  destruct (acquire 5 system_layout default_tuning true booted no_stop) as [[o m] s]. destruct Ho as (-> & -> & Ea).
  cbv beta iota in H. destruct H as [_ H]. rewrite Ea in *. split; [by eexists|]. split; [|set_solver].
  destruct H as [H|[[why H]|(fd & H & _)]]; [exact H| |discriminate H].
  repeat (apply elem_of_cons in H as [H|H]; [discriminate H|]). by apply elem_of_nil in H.
Defined.

Lemma acquisition_ends_witness : ∃ o m s, acquire 101 system_layout default_tuning true booted [] = (o, m, s) ∧ o ≠ Running.
Proof. apply (acquisition_ends (l := system_layout) 100); [by constructor|]. unfold enough_fuel. cbn. lia. Defined.

(** Run by root with another group, over directories and a lock that are root's: the barrier that
    was just created is refused, and stays where the next reload of the manager finds it. *)
Definition other_group : Machine := {|
  inodes := {[ 1 := node IsDirectory 16877 ""; 2 := node IsDirectory 16877 ""; 3 := node IsRegular 33152 ""; 4 := node IsDirectory 16877 "" ]};
  names := {[ "/run/systemd/system"%string := 1; "/run/facelock"%string := 2; "/run/facelock/lifecycle.lock"%string := 3;
              "/run/systemd/system.control"%string := 4 ]};
  next_inode := 5; locks := ∅;
  unit_state := {| load_state := "loaded"; active_state := "active"; unit_file_state := "enabled" |};
  name_owned := true; instant := 0; effective := (0, 5); umask := 18; acts := [] |}.

Example barrier_is_left_behind :
  let '(o, m, _) := acquire 5 system_layout default_tuning true other_group [] in
  o = Done (Err (Untrusted (barrier_path system_layout) "created barrier lost its identity")) ∧
  names m !! barrier_path system_layout = Some 5 ∧ acts m = [Barred 5; Unlocked].
Proof. vm_compute. repeat split. Qed.
